(* ===== verification/_CoqProject ===== *)
-Q . S2P
Prelude.v
OrderedMap.v
Values.v
ValueCodec.v
Effects.v
Events.v
Crc32c.v
FileFormat.v
Replay.v
EventStore.v
Feedback.v
Adapters.v
Dispatcher.v
Ids.v
Behaviors.v
Intents.v
IntentSpec.v
IntentRuns.v
IntentTransactions.v
Disk.v
FileStore.v
FileStoreSpec.v
FileStoreCrash.v
FileStoreRuns.v
Components.v
ComponentSpec.v
ComponentRuns.v
Hoare.v
Systems.v
Coordinator.v
CoordinatorQueries.v
World.v
WorldQueries.v
CoordinatorSpec.v
CoordinatorTopology.v
CoordinatorAccess.v
CoordinatorRights.v
CoordinatorSetup.v
WorldSpec.v
Client.v
ClientRuns.v
ClientFindings.v
WorldBounds.v
RuntimeEffects.v
RuntimeRestore.v
RuntimeLog.v
RuntimeEffectsSpec.v
RuntimeEffectsRuns.v
RuntimeRestart.v
RuntimeOperations.v
Runtime.v
RuntimeFrames.v
RuntimeBindings.v
LuaSchema.v
LuaSchemaSpec.v
LuaSegments.v
LuaValidation.v
LuaManifest.v
LuaManifestSpec.v
LuaLimits.v
LuaRunner.v
LuaRunnerSpec.v
LuaRunnerRuns.v
EvaluationTypes.v
LuaLifecycle.v
EvaluationAccounting.v
EvaluationStore.v
EvaluationTrace.v
EvaluationTotals.v
EvaluationManifest.v
EvaluationCase.v
EvaluationRuns.v
EvaluationSuites.v
AuthoringChecks.v
AuthoringSession.v
AuthoringSpec.v
AuthoringRuns.v
AuthoringGuarantees.v
AuthoringHost.v
AuthoringSamples.v
