(* ===== verification/Prelude.v ===== *)
(** * A verification of the deterministic core of Liquid

    Liquid is a C++20 runtime that turns the intents of behaviours into
    verified, replayable state changes.  A world holds named, typed components;
    behaviours create intents for them; resolution selects one intent per
    component; selected values become commands that adapters carry out; the
    adapters' reports come back through bounded channels; everything is recorded
    in an event log from which the state can be projected again.  The sources
    are under [src/src] and [src/include/liquid]; each file below names the
    ones it models.

    ** The parts and their files

    - [Prelude]: exceptions ([res]: a value or an exception with its kind and
      text), the state monad with exceptions [stm] in which every method that
      changes an object is written ([stry] is a [try] block), little-endian
      integers, wrapping at a width ([wrap]), and lemmas on lists and numbers.
    - [OrderedMap]: [std::map<std::string, V>] as the sequence of its entries.
    - [Values], [ValueCodec]: the recorded values (Value.hpp, Value.cpp), their
      limits, UTF-8, and the canonical binary codec (ValueCodec.cpp).
    - [Effects]: commands, reports, observations, retry policy (EffectTypes).
    - [Events], [Crc32c], [FileFormat]: event records and their validation
      (EventInternals.hpp), the checksum, and the header, batches and scanner of
      a log file (FileEventStoreFormat.cpp).
    - [Replay]: projection, checkpoints, verification (Replay.cpp).
    - [EventStore]: the store interface as the class [EventStore] with the laws
      [EventStoreLaws], checkpoints over any store (EventStore.cpp), and the
      memory store (MemoryEventStore.cpp) as an instance.
    - [Disk], [FileStore], [FileStoreSpec], [FileStoreCrash], [FileStoreRuns]:
      the system calls of FileEventStoreIo.hpp over a model of POSIX files, the
      file store (FileEventStore.cpp), its invariant, what a power failure
      leaves, and a client's view of it; the file store is the second instance
      of [EventStoreLaws].
    - [Feedback], [Adapters], [Dispatcher]: the channels (Feedback.cpp), the
      adapter interface with the simulated adapter (InMemoryAdapter.cpp), and
      the dispatcher that makes any adapter idempotent (IdempotentDispatcher.cpp)
      as threads interleaving at its critical sections.
    - [Ids], [Behaviors]: generational handles and the behaviour registry.
    - [Intents], [IntentSpec], [IntentRuns], [IntentTransactions]: the intent
      registry with selection, expiry and transactions (IntentRegistry.cpp,
      IntentExpiration.cpp), the specification of each operation over a finite
      map, whole runs against that map, and rollback.
    - [Components], [ComponentSpec], [ComponentRuns]: the component registry
      (detail/ComponentStorage.hpp, detail/ComponentRegistry.hpp,
      ComponentCodec.hpp, ComponentRegistry.cpp). C++ types are the elements of
      a decidable type of codes [K] with an interpretation [El]; type-erased
      storages and codecs are dependent pairs and [dynamic_cast] compares the
      codes. Codecs are client code: they are arguments of the registration.
      [ComponentSpec] has the invariant and what each operation does,
      [ComponentRuns] the specification as a map of names and its runs.
    - [Hoare]: reasoning about [stm]: [wp] and [settles] for what a computation
      returns, throws and leaves behind, [keeps] for a relation between states
      that every step respects, and [captured] and [rethrow] for code that runs
      on after an exception and throws the first one at the end.
    - [Systems]: the system registry (System.hpp, SystemRegistry.hpp,
      SystemRegistry.cpp): registration, membership by signature with its
      callbacks, dispatch in order. The code of a system is an argument
      ([SystemCode]); it acts on the host's state, in which the registry is
      embedded ([SystemHost]), so that it can call back.
    - [Coordinator], [CoordinatorQueries]: the operations that compose the four
      registries (Coordinator.hpp, Coordinator.cpp, WorldState.hpp) with the
      signatures and access revisions of behaviours.
    - [World], [WorldQueries]: the public operations and queries (World.hpp,
      World.cpp): thread confinement, the freeze of the topology, evidence.
    - [CoordinatorSpec], [CoordinatorTopology], [CoordinatorAccess],
      [CoordinatorRights], [CoordinatorSetup]: the invariant [coordinated] that
      relates the registries, and that each operation keeps it whatever the
      callbacks do; [WorldSpec] carries this to the world's operations.
    - [Client], [ClientRuns], [ClientFindings], [WorldBounds]: programs over the
      public operations. A system's code is a program that may call the world it
      is dispatched from; the host performs any sequence of operations; the
      theorems hold in every world so reached.
    - [RuntimeEffects], [RuntimeRestore]: commands, their dispatch and retries,
      reports and observations, adapters, reconciliation, and the construction
      from an event log (RuntimeInternals.hpp, RuntimeEffectsState.cpp,
      RuntimeEffectsFeedback.cpp, RuntimeEffectsRestore.cpp), over any store and
      any adapters: the state holds the host's store, adapters by address, and
      the memory of the channels.
    - [RuntimeLog]: the invariant of the tables and their agreement with what
      the log restores; [RuntimeEffectsSpec], [RuntimeEffectsRuns],
      [RuntimeRestart]: that every operation, returned or thrown, and every
      restart keeps them; [RuntimeOperations]: the theorems about a runtime that
      performed any operations ([used]).
    - [Runtime]: both kinds of frame, the evidence they record, selections and
      the bindings of components to physical targets (Runtime.hpp, Runtime.cpp,
      RuntimeEvidence.cpp); [RuntimeFrames], [RuntimeBindings]: what a frame does
      to its runtime, and the invariant of the bindings over every call.
    - [LuaSchema], [LuaSchemaSpec], [LuaSegments], [LuaValidation]: schemas of
      the values scripts exchange (LuaValueSchema.hpp, LuaValueSchema.cpp): the
      factories with the totals of a tree, index segments, validation;
      [LuaSegments] reads segments by the rules of Lua, [LuaValidation] says what
      conforms to a schema, and where and how a value offends against one.
    - [LuaManifest], [LuaManifestSpec]: the builder of capability manifests
      (LuaCapabilityManifest.hpp, LuaCapabilityManifest.cpp), its account of what
      the manifest holds, and the finished manifest.
    - [LuaLimits]: how a runner measures values and bounds a schema's values;
      [LuaRunner]: what a runner captures of a world (LuaBehaviorRunner.hpp,
      LuaBehaviorRunner.cpp without the execution of scripts): bindings, the cache
      of capabilities, manifests of behaviours and of prospective scopes;
      [LuaRunnerSpec], [LuaRunnerRuns]: what captures leave and return, the
      invariant of the cache, and runners beside worlds that perform any steps.
    - [EvaluationTypes], [EvaluationAccounting]: the data that evaluations and
      sessions share and its logical size (Evaluation.hpp, PayloadAccounting.hpp,
      the accounting of Evaluation.cpp); [EvaluationStore]: the store of an
      evaluation, charged to a shared budget (BoundedEvaluationStore.hpp), the
      third instance of [EventStoreLaws]; [EvaluationTrace], [EvaluationTotals],
      [EvaluationManifest]: normalized traces, the totals of accepted effects,
      and the comparison of manifests (Evaluation.cpp).
    - [EvaluationCase]: the cases of an evaluation and [run_evaluation], over the
      isolated worlds that the host's factory prepares ([PreparedWorld], with the
      laws [PreparedWorldLaws]); [EvaluationRuns] says what the result of a case
      means, [EvaluationSuites] what that of an evaluation does.
    - [AuthoringChecks], [AuthoringSession]: authoring sessions
      (AuthoringSession.hpp, AuthoringSession.cpp, Types.hpp) over the class
      [ScopeHost] of what they ask of the live world and its runner;
      [AuthoringSpec]: the laws of a host and what each call commits;
      [AuthoringRuns]: the invariant [session_ok] and histories of calls with a
      world that moves on between them; [AuthoringGuarantees]: what holds of every
      history; [AuthoringHost]: [LuaRunner] beside [World] keeps the laws;
      [AuthoringSamples]: a session at work.
    - [LuaLifecycle]: the system that runs the scripts which components hold
      (LuaLifecycleSystem.hpp, LuaLifecycleSystem.cpp), over the class
      [LifecycleHost] of what it asks of the world and the runner; [recording]
      puts the calls to scripts on record, for the theorems about them.

    ** What the theorems show

    - The codec decodes what it encodes, accepts only values within the limits,
      is prefix free and total; [validate] is characterised by the limits.
    - The scanner returns the records of a log, of a log with a torn last batch
      those before it, and never records that were not written whole; a damaged
      batch inside the log is an error; CRC-32C catches what it should.
    - A log projects to the same state from a checkpoint as from its beginning,
      so retention preserves meaning; a host can always compact a log that
      projects, up to the limits of values.
    - Appending is atomic in both stores.  In the file store what a client was
      promised to be durable survives a power failure, whatever calls failed
      before it, and retention installs the new log or leaves the old one.
    - Channels are bounded queues; the simulated adapter executes a command
      identity once; the dispatcher calls its adapter at most once per key under
      every interleaving, gives all callers one outcome and cannot deadlock.
    - The intent registry implements a finite map whose ids are never given
      twice, resolution leaves the unexpired intents and selects the prevailing
      ones, and rollback restores everything, with one exception that is proved.
    - The component registry implements a map from names to values, handles and
      access rights; a removed component's handle is refused for ever; an id
      keeps its C++ type and operations that believe in another change nothing.
    - In every world that programs reach, live intents belong to live behaviours
      that may write what they aim at; a system has the behaviours its signature
      asks for; access revisions count the changes of rights; running systems
      leaves the topology alone and follows the order of registration; while
      systems run or a transaction is open the topology is frozen; counters and
      buffers keep to their bounds. [ClientRuns.roomy] says that the buffer of
      intent evidence never fills up, which is needed, because a destruction of a
      behaviour that meets a full buffer stops halfway (a defect proved in
      [ClientFindings]).
    - An adapter hears of a command only after the log does; a runtime restarted
      from the log of another, whatever that one did and however it ended, finds
      its active commands, attempts and observed state; what is known of a target
      never goes back; a target has at most one pending command; tables and
      numbers keep to their limits; the loops over a channel end and leave it
      empty.  A frame is refused without a trace, completed with all its phases,
      or faults the runtime for good; bindings are one to one.
    - A schema's totals are those of its expanded tree and within the ceilings;
      validation accepts exactly the values that conform, and a report names a
      place that offends; segments can be read back by Lua.  A capability is
      admitted exactly if the manifest stays within every ceiling.
    - Values of an admitted schema are never too large to copy; a manifest shows
      the rights of the moment whatever the cache holds, a scope manifest exactly
      what is granted, and neither touches the world.
    - Evaluation runs the cases in order up to the first that does not pass,
      always returns, and a report that passed says that every frame delivered
      its inputs and met its expectations; equal traces differ in handles only;
      totals that are called complete count every accepted effect; the evidence
      keeps to its budget and the trace's size is what the budget charged.
    - Over every history of an authoring session: the payload counter is the sum
      of what is retained and within its limit; a call that fails changes nothing;
      identifiers are issued once and in order; what
      another caller owns is answered like what does not exist; the views of one
      revision of a scope all show the same components, generation by generation;
      an evaluation that passed ran the submitted source, under the grants of the
      revision the proposal was submitted for.
    - The lifecycle system tells a script to start until it has succeeded once,
      and from then on the time since its last success and the watched components
      that changed.
    - Theorems that exhibit a defect are named as such in their comments; among
      them: a transaction that cancels its own creation, a log that can vanish
      because its directory was never flushed, a torn batch that holds another
      batch, a late report that blocks observations, a generic command event
      that blocks every checkpoint, a type exposed late that manifests leave out.

    ** Conventions, bounds and fuel

    Integers are [N] or [Z] and every place where the program can wrap, or
    checks that it does not, is written out; theorems state the widths they need
    as hypotheses.  Loops whose recursion is not structural take fuel: the
    decoder the nesting limit, [scan_loop] and [has_batch_magic_after] the
    number of bytes, [write_loop] and [read_loop] one turn per byte,
    [write_batches] one per record, the delivery loop of the adapter one per
    pending item.  Each turn uses up at least one of these, and the theorems
    about them prove that the result [fuel_exhausted] does not occur, or the
    function's specification excludes it.

    Hypotheses about code outside the program are parameters: an adapter and a
    persistent outcome cache (classes in [Dispatcher]), the commands a host
    re-executes ([Replay]), the environment's answers to system calls and the
    files a power failure leaves ([Disk]).  [Disk.crashed] assumes that appended
    data becomes durable in order.  The mutexes of the channels and the
    dispatcher make methods or critical sections atomic; that they are held
    where the model says so was read off the code.

    ** What is not modelled

    Memory exhaustion, and with it the [catch] blocks only it can reach, moves
    and destructors, and the Windows branches of the file calls.
    Of a world: threads other than the owner appear as callers, one operation
    after another, since each public operation but one refuses them at once; the
    closure given to [update_component] is a pure function; the constructors of
    systems and the code between operations do not change the topology; intent
    transactions are modelled, with their own theorems in [IntentTransactions],
    but are not among the operations of [Client]'s programs, which only the
    runtime's friends may open.

    Of a runtime: a system reaches the world it runs in and not the runtime that
    runs it; messages of other threads arrive between operations, not during
    one ([RuntimeOperations.used] has a step for them); the fuel of a loop over a
    channel is the number of waiting items and one more, and the theorem on these
    loops shows that more changes nothing.  [restart_recovers] assumes that the
    log projects, as the code checks first; checkpoints are modelled but not
    among the operations of that theorem.

    Of evaluations and sessions: scripts are not executed, so that an isolated
    world, which runs one, is a parameter with laws, as are the host's callbacks;
    what passes and fails in it is what it answers.  A session's callbacks do not
    call the session they are called from.

    The execution of scripts drives the Lua interpreter through its C API: what
    they do is what that interpreter does.  Of the runner the captures are
    modelled; the lifecycle system takes the execution as an argument.  The simulation
    front ends are programs that print.  Generated code, third-party code,
    examples, fuzz drivers and tests are not modelled.
*)
From Stdlib Require Export NArith ZArith Lia ZifyBool ZifyNat ZifyN Strings.String Strings.Ascii Strings.Byte.
From stdpp Require Export base tactics list gmap strings sorting.
Open Scope N_scope.

(** * Exceptions and the two effect monads *)

(** The classes of exceptions the program throws.  [unknown_exception] stands
    for a host callback that throws something outside [std::exception];
    [fuel_exhausted] is never thrown by the program and marks a model loop
    that ran out of fuel (excluded by theorem wherever it could occur). *)
Inductive exn_class :=
| invalid_argument | runtime_error | logic_error | out_of_range
| overflow_error | length_error | bad_variant_access | bad_cast
| EventStoreError | RecoverableTailError
| unknown_exception | fuel_exhausted.

#[export] Instance exn_class_eq_dec : EqDecision exn_class.
Proof. solve_decision. Defined.

Record exn := Exn { exn_kind : exn_class; exn_what : string }.

#[export] Instance exn_eq_dec : EqDecision exn.
Proof. solve_decision. Defined.

(** A computation without state: it returns or throws. *)
Inductive res (A : Type) :=
| Ok (a : A)
| Err (e : exn).
Arguments Ok {A} a.
Arguments Err {A} e.

#[export] Instance res_eq_dec {A} `{EqDecision A} : EqDecision (res A).
Proof. solve_decision. Defined.

#[export] Instance res_ret : MRet res := λ A, Ok.
#[export] Instance res_bind : MBind res := λ A B f m,
  match m with Ok a => f a | Err e => Err e end.
#[export] Instance res_fmap : FMap res := λ A B f m,
  match m with Ok a => Ok (f a) | Err e => Err e end.

Definition throw {A} (k : exn_class) (msg : string) : res A := Err (Exn k msg).

(** [if (c) throw k(msg);] *)
Definition reject_if (c : bool) (k : exn_class) (msg : string) : res unit :=
  if c then throw k msg else Ok tt.

Definition is_ok {A} (m : res A) : bool :=
  match m with Ok _ => true | Err _ => false end.

(** A computation over a mutable state [S].  The state reached before a throw
    is kept, as in the source: an exception does not undo assignments. *)
Definition stm (S A : Type) : Type := S → res A * S.

#[export] Instance stm_ret {S} : MRet (stm S) := λ A a s, (Ok a, s).
#[export] Instance stm_bind {S} : MBind (stm S) := λ A B f m s,
  match m s with
  | (Ok a, s') => f a s'
  | (Err e, s') => (Err e, s')
  end.

Definition sget {S} : stm S S := λ s, (Ok s, s).
Definition sput {S} (s' : S) : stm S unit := λ _, (Ok tt, s').
Definition smodify {S} (f : S → S) : stm S unit := λ s, (Ok tt, f s).
Definition slift {S A} (m : res A) : stm S A := λ s, (m, s).
Definition sthrow {S A} (k : exn_class) (msg : string) : stm S A :=
  λ s, (throw k msg, s).
Definition sreject_if {S} (c : bool) (k : exn_class) (msg : string) : stm S unit :=
  slift (reject_if c k msg).

(** [try { m } catch (...) { h(e) }]: the handler starts in the state the
    body reached. *)
Definition stry {S A} (m : stm S A) (h : exn → stm S A) : stm S A := λ s,
  match m s with
  | (Err e, s') => h e s'
  | r => r
  end.

(** [for (x : l) body(x);] with a mutable state, and with an accumulator
    passed by reference. *)
Section Loops.
Context {S A B : Type}.

Fixpoint sfor (body : A → stm S unit) (l : list A) : stm S unit :=
  match l with
  | [] => mret tt
  | x :: l => body x ≫= λ _, sfor body l
  end.
End Loops.

Section AccLoops.
Context {A B : Type} (body : B → A → res B).

Fixpoint rfold (l : list A) (b : B) : res B :=
  match l with
  | [] => Ok b
  | x :: l => body b x ≫= rfold l
  end.

Lemma rfold_app l k b : rfold (l ++ k) b = rfold l b ≫= rfold k.
Proof.
  revert b. induction l as [|x l IH]; intros b; cbn; [done|].
  destruct (body b x); cbn; [apply IH|done].
Qed.
End AccLoops.

Notation "m ;; k" := (m ≫= λ _, k)
  (at level 100, k at level 200, right associativity,
   only parsing) : stdpp_scope.

(** * Sizes and machine integers

    Unsigned machine integers are [N]; their width is written out where the
    source can reach it.  [std::size_t] is 64 bits wide. *)
Definition u16_max : N := 65535.
Definition u32_max : N := 4294967295.
Definition u64_max : N := 18446744073709551615.
Definition wrap (width : N) (n : N) : N := n mod 2 ^ width.

(** [container.size()] *)
Definition len {A} (l : list A) : N := N.of_nat (length l).
Definition slen (s : string) : N := N.of_nat (String.length s).

Lemma len_app {A} (l k : list A) : len (l ++ k) = len l + len k.
Proof. unfold len. rewrite length_app. lia. Qed.
Lemma len_nil {A} : len (@nil A) = 0.
Proof. done. Qed.
Lemma len_cons {A} (x : A) l : len (x :: l) = 1 + len l.
Proof. unfold len. cbn [length]. lia. Qed.

Lemma len_singleton {A} (x : A) : len [x] = 1.
Proof. done. Qed.
Lemma len_snoc {A} (l : list A) x : len (l ++ [x]) = len l + 1.
Proof. by rewrite len_app. Qed.

Create HintDb liquid.

(** ** Sums and maxima over a list *)

Definition sum_of {A} (f : A → N) (l : list A) : N := foldr (λ x n, f x + n) 0 l.
Definition max_of {A} (f : A → N) (l : list A) : N := foldr (λ x n, N.max (f x) n) 0 l.
Lemma sum_of_cons {A} (f : A → N) x l : sum_of f (x :: l) = f x + sum_of f l.
Proof. done. Qed.
Lemma max_of_cons {A} (f : A → N) x l : max_of f (x :: l) = N.max (f x) (max_of f l).
Proof. done. Qed.
Lemma sum_of_app {A} (f : A → N) l k : sum_of f (l ++ k) = sum_of f l + sum_of f k.
Proof. induction l as [|x l IH]; [done|]. cbn [app]. rewrite !sum_of_cons. lia. Qed.

#[export] Instance sum_of_proper {A} (f : A → N) : Proper ((≡ₚ) ==> (=)) (sum_of f).
Proof.
  induction 1 as [|x l k _ IH|x y l|l k m _ IH1 _ IH2]; rewrite ?sum_of_cons; [done|lia|lia|congruence].
Qed.

Lemma sum_of_le {A} (f g : A → N) l :
  Forall (λ x, f x <= g x) l → sum_of f l <= sum_of g l.
Proof. induction 1; [done|]. rewrite !sum_of_cons. lia. Qed.
Lemma sum_of_const {A} k (l : list A) : sum_of (λ _, k) l = k * len l.
Proof. induction l as [|x l IH]; [rewrite (@len_nil A); cbn; lia|]. rewrite sum_of_cons, len_cons, IH. lia. Qed.
Lemma sum_of_add {A} (f g : A → N) l : sum_of (λ x, f x + g x) l = sum_of f l + sum_of g l.
Proof. induction l as [|x l IH]; [done|]. rewrite !sum_of_cons, IH. lia. Qed.
Lemma sum_of_mul {A} k (f : A → N) l : sum_of (λ x, k * f x) l = k * sum_of f l.
Proof. induction l as [|x l IH]; [cbn; lia|]. rewrite !sum_of_cons, IH. lia. Qed.

Lemma sum_of_ext {A} (f g : A → N) l : (∀ x, x ∈ l → f x = g x) → sum_of f l = sum_of g l.
Proof.
  induction l as [|x l IH]; intros H; [done|]. rewrite !sum_of_cons, H by (by left).
  rewrite IH; [done|]. intros y Hy. apply H. by right.
Qed.

Lemma sum_of_zero {A} (l : list A) : sum_of (λ _, 0) l = 0.
Proof. by rewrite sum_of_const. Qed.

Lemma sum_of_submseteq {A} (f : A → N) l k : l ⊆+ k → sum_of f l <= sum_of f k.
Proof.
  intros [k' ->]%submseteq_Permutation. induction l as [|x l IH]; [cbn; lia|].
  cbn [app]. rewrite !sum_of_cons. lia.
Qed.

Lemma sum_of_fmap {A B} (g : A → B) (f : B → N) l : sum_of f (g <$> l) = sum_of (f ∘ g) l.
Proof. induction l as [|x l IH]; [done|]. cbn [fmap list_fmap]. by rewrite !sum_of_cons, <-IH. Qed.

Lemma Forall2_impl_in {A B} (P Q : A → B → Prop) l k :
  Forall2 P l k → (∀ x y, x ∈ l → P x y → Q x y) → Forall2 Q l k.
Proof.
  induction 1 as [|x y l k Hxy _ IH]; intros H; constructor; [apply H; [by left|done]|].
  apply IH. intros a b Ha. apply H. by right.
Qed.

Lemma Forall2_partner {A B} (R : A → B → Prop) l k x : Forall2 R l k → x ∈ l → ∃ y, y ∈ k ∧ R x y.
Proof.
  intros H [i Hi]%list_elem_of_lookup. destruct (Forall2_lookup_l _ _ _ _ _ H Hi) as (y & Hy & Hxy).
  exists y. split; [by eapply list_elem_of_lookup_2|done].
Qed.

(** In a sorted list the order of positions is the order of elements. *)
Lemma StronglySorted_lookup_lt {A} (R : A → A → Prop) l i j x y :
  StronglySorted R l → l !! i = Some x → l !! j = Some y → (i < j)%nat → R x y.
Proof.
  intros Hs. revert i j. induction Hs as [|z l _ IH Hz]; intros i j; [done|].
  destruct j as [|j]; [lia|]. destruct i as [|i]; cbn.
  - intros [= <-] Hy _. rewrite Forall_forall in Hz. apply Hz.
    by eapply list_elem_of_lookup_2.
  - intros Hx Hy Hij. eapply IH; [exact Hx|exact Hy|lia].
Qed.

(** * Texts *)

Lemma string_app_nil_r (s : string) : s +:+ "" = s.
Proof. induction s as [|c s IH]; [done|]. exact (f_equal (String c) IH). Qed.
Lemma string_app_assoc (a b c : string) : (a +:+ b) +:+ c = a +:+ (b +:+ c).
Proof. induction a as [|x a IH]; [done|]. exact (f_equal (String x) IH). Qed.
Lemma string_app_length (a b : string) :
  String.length (a +:+ b) = (String.length a + String.length b)%nat.
Proof. induction a as [|c a IH]; [done|]. exact (f_equal S IH). Qed.
Lemma substring_app (a b : string) : String.substring 0 (String.length a) (a +:+ b) = a.
Proof. induction a as [|c a IH]; [by destruct b|]. exact (f_equal (String c) IH). Qed.

(** * Bytes *)
#[export] Instance byte_eq_dec : EqDecision byte := Byte.byte_eq_dec.

(** [static_cast<std::uint8_t>(n)] *)
Definition byte_trunc (n : N) : byte :=
  match Byte.of_N (n mod 256) with Some b => b | None => x00 end.

Lemma to_N_byte_trunc n : Byte.to_N (byte_trunc n) = n mod 256.
Proof.
  unfold byte_trunc. destruct (Byte.of_N (n mod 256)) as [b|] eqn:E.
  - by apply Byte.to_of_N.
  - apply Byte.of_N_None_iff in E.
    pose proof (N.mod_lt n 256). lia.
Qed.

Lemma byte_to_N_lt (b : byte) : Byte.to_N b < 256.
Proof. pose proof (Byte.to_N_bounded b). lia. Qed.

Lemma byte_trunc_to_N b : byte_trunc (Byte.to_N b) = b.
Proof.
  unfold byte_trunc. rewrite N.mod_small by apply byte_to_N_lt.
  by rewrite Byte.of_to_N.
Qed.

Lemma byte_to_N_inj (a b : byte) : Byte.to_N a = Byte.to_N b → a = b.
Proof. intros E. by rewrite <-(byte_trunc_to_N a), E, byte_trunc_to_N. Qed.

(** * Little-endian integers: the loops over [shift] of the codecs *)

(** [for (shift = 0; shift < 8 * k; shift += 8)
       output.push_back(static_cast<std::uint8_t>(value >> shift));] *)
Fixpoint append_le_from (shift : N) (k : nat) (output : list byte) (value : N)
  : list byte :=
  match k with
  | O => output
  | S k => append_le_from (shift + 8) k
             (output ++ [byte_trunc (N.shiftr value shift)]) value
  end.
Definition append_le (k : nat) (output : list byte) (value : N) : list byte :=
  append_le_from 0 k output value.

(** [for (shift = 0; ...) value |= uint(input[position++]) << shift;], over the
    bytes the loop reads. *)
Fixpoint read_le_from (shift : N) (bs : list byte) (value : N) : N :=
  match bs with
  | [] => value
  | b :: bs => read_le_from (shift + 8) bs
                 (N.lor value (N.shiftl (Byte.to_N b) shift))
  end.
Definition read_le (bs : list byte) : N := read_le_from 0 bs 0.

(** The same encoding as a function of the value alone. *)
Fixpoint le_bytes (k : nat) (n : N) : list byte :=
  match k with
  | O => []
  | S k => byte_trunc n :: le_bytes k (n / 256)
  end.

Lemma length_le_bytes k n : length (le_bytes k n) = k.
Proof. revert n. induction k as [|k IH]; intros n; cbn; [done|]. by rewrite IH. Qed.
Lemma len_le_bytes k n : len (le_bytes k n) = N.of_nat k.
Proof. unfold len. by rewrite length_le_bytes. Qed.

(** Sizes of concatenations, as sums [lia] can use. *)
Ltac len_simpl :=
  rewrite ?len_app, ?len_cons, ?@len_nil, ?len_le_bytes in *.

Lemma append_le_from_spec shift k out v :
  append_le_from shift k out v = out ++ le_bytes k (N.shiftr v shift).
Proof.
  revert shift out. induction k as [|k IH]; intros shift out; cbn.
  { by rewrite app_nil_r. }
  rewrite IH, <-app_assoc. cbn. do 3 f_equal.
  rewrite !N.shiftr_div_pow2, N.pow_add_r, N.Div0.div_div. done.
Qed.

Lemma append_le_spec k out v : append_le k out v = out ++ le_bytes k v.
Proof. apply append_le_from_spec. Qed.

Lemma lor_disjoint_add a b s : a < 2 ^ s → N.lor a (N.shiftl b s) = a + b * 2 ^ s.
Proof.
  intros Ha. rewrite N.shiftl_mul_pow2, <-N.lxor_lor, <-N.add_nocarry_lxor; try done.
  all: rewrite <-N.shiftl_mul_pow2; apply N.bits_inj; intros i;
    rewrite N.land_spec, N.bits_0;
    destruct (N.lt_ge_cases i s);
    [rewrite N.shiftl_spec_low by done; by rewrite andb_false_r|];
    rewrite (N.mod_small a (2 ^ s)) || idtac;
    (assert (N.testbit a i = false) as ->; [|done]);
    (destruct (N.eq_dec a 0) as [->|]; [apply N.bits_0|]);
    apply N.bits_above_log2;
    apply N.lt_le_trans with s; [|done];
    by apply N.log2_lt_pow2; [lia|].
Qed.

Lemma read_le_from_spec shift k n v :
  v < 2 ^ shift →
  read_le_from shift (le_bytes k n) v = v + (n mod 256 ^ N.of_nat k) * 2 ^ shift.
Proof.
  revert shift n v. induction k as [|k IH]; intros shift n v Hv; cbn [le_bytes read_le_from].
  { change (N.of_nat 0) with 0. rewrite N.pow_0_r, N.mod_1_r. lia. }
  rewrite to_N_byte_trunc, lor_disjoint_add by done.
  pose proof (N.mod_lt n 256 ltac:(done)).
  rewrite IH.
  - rewrite Nnat.Nat2N.inj_succ, N.pow_succ_r', N.pow_add_r.
    change (2 ^ 8) with 256.
    rewrite (N.Div0.mod_mul_r n 256). lia.
  - rewrite N.pow_add_r. change (2 ^ 8) with 256.
    pose proof (N.pow_nonzero 2 shift ltac:(done)). nia.
Qed.

Lemma read_le_bytes k n : n < 256 ^ N.of_nat k → read_le (le_bytes k n) = n.
Proof.
  intros. unfold read_le. rewrite read_le_from_spec by (cbn; lia).
  rewrite N.mod_small by done. cbn. lia.
Qed.

Lemma read_le_from_bound shift bs v :
  v < 2 ^ shift → read_le_from shift bs v < 2 ^ (shift + 8 * len bs).
Proof.
  revert shift v. induction bs as [|b bs IH]; intros shift v Hv; cbn [read_le_from].
  { change (len []) with 0. by replace (shift + 8 * 0) with shift by lia. }
  rewrite lor_disjoint_add by done. rewrite len_cons.
  replace (shift + 8 * (1 + len bs)) with (shift + 8 + 8 * len bs) by lia.
  apply IH. rewrite N.pow_add_r. change (2 ^ 8) with 256.
  pose proof (byte_to_N_lt b). nia.
Qed.

Lemma read_le_bound bs : read_le bs < 2 ^ (8 * len bs).
Proof. apply (read_le_from_bound 0). cbn. lia. Qed.

#[global] Arguments append_le : simpl never.
#[global] Arguments read_le : simpl never.
#[global] Arguments le_bytes : simpl never.
#[global] Arguments byte_trunc : simpl never.

(** * Inversion of monadic computations *)

Lemma res_bind_ok {A B} (m : res A) (f : A → res B) b :
  m ≫= f = Ok b ↔ ∃ a, m = Ok a ∧ f a = Ok b.
Proof.
  destruct m as [a|e]; cbn; split.
  - eauto.
  - intros (a' & [= <-] & ?). done.
  - done.
  - by intros (a' & ? & ?).
Qed.

Lemma reject_if_ok c k msg u : reject_if c k msg = Ok u ↔ c = false.
Proof. destruct u. unfold reject_if, throw. destruct c; split; congruence. Qed.

Lemma stm_bind_ok {S A B} (m : stm S A) (f : A → stm S B) s b s' :
  (m ≫= f) s = (Ok b, s') ↔ ∃ a s1, m s = (Ok a, s1) ∧ f a s1 = (Ok b, s').
Proof.
  unfold mbind, stm_bind. destruct (m s) as [[a|e] s1]; split.
  - eauto.
  - by intros (a' & s1' & [= <- <-] & ?).
  - done.
  - by intros (a' & s1' & ? & ?).
Qed.

(** [invert_res] opens every successful [res] bind among the hypotheses. *)
Ltac invert_res :=
  repeat match goal with
  | H : Err _ = Ok _ |- _ => discriminate H
  | H : throw _ _ = Ok _ |- _ => discriminate H
  | H : Ok _ = Ok _ |- _ => injection H as H; subst
  | H : mret _ = Ok _ |- _ => injection H as H; subst
  | H : (_ ≫= _) = Ok _ |- _ =>
      let a := fresh "a" in let Ha := fresh "Ha" in
      apply res_bind_ok in H as (a & Ha & H)
  | H : reject_if _ _ _ = Ok _ |- _ => apply reject_if_ok in H
  end.

(** [for (i = 0; i < n; ++i) a = step(a);] over a mutable state *)
Fixpoint srepeat {S A} (n : nat) (step : A → stm S A) (a : A) : stm S A :=
  match n with
  | O => mret a
  | S n => step a ≫= srepeat n step
  end.

Lemma stm_bind_eq {S A B} (m : stm S A) (f : A → stm S B) s a s' :
  m s = (Ok a, s') → (m ≫= f) s = f a s'.
Proof. unfold mbind, stm_bind. by intros ->. Qed.

Lemma stm_ret_ok {S A} (a b : A) (s s' : S) :
  (mret a : stm S A) s = (Ok b, s') ↔ a = b ∧ s = s'.
Proof. unfold mret, stm_ret. split; [by intros [= -> ->]|by intros [-> ->]]. Qed.

Lemma sreject_if_ok {S} c k msg (s s' : S) u :
  sreject_if c k msg s = (Ok u, s') ↔ c = false ∧ s = s'.
Proof.
  unfold sreject_if, slift, reject_if, throw. destruct c, u; cbn;
    split; intros H; first [by destruct H | simplify_eq; done | by destruct H; subst].
Qed.

Lemma slift_ok {S A} (m : res A) (s s' : S) a :
  slift m s = (Ok a, s') ↔ m = Ok a ∧ s = s'.
Proof. unfold slift. split; [by intros [= -> ->]|by intros [-> ->]]. Qed.

Lemma sreject_if_false {S} k msg (s : S) : sreject_if false k msg s = (Ok tt, s).
Proof. done. Qed.

Lemma stm_fst_ok {S A} (m : stm S A) s a : (m s).1 = Ok a → ∃ s', m s = (Ok a, s').
Proof. destruct (m s) as [r s']. cbn. intros ->. eauto. Qed.

(** A guard followed by a computation, as a conjunction. *)
Lemma guard_ok {A} c k msg (m : res A) a :
  (reject_if c k msg;; m) = Ok a ↔ c = false ∧ m = Ok a.
Proof. unfold reject_if, throw. destruct c; cbn; naive_solver. Qed.

Lemma unit_bind_ok {A} (m : res unit) (k : res A) a :
  (m;; k) = Ok a ↔ m = Ok tt ∧ k = Ok a.
Proof. rewrite res_bind_ok. split; [intros ([] & ?); done|eauto]. Qed.

(** [invert_stm] opens every successful stateful bind among the hypotheses. *)
Ltac invert_stm :=
  repeat match goal with
  | H : (_ ≫= _) _ = (Ok _, _) |- _ =>
      let a := fresh "a" in let s := fresh "s" in let Ha := fresh "Ha" in
      apply stm_bind_ok in H as (a & s & Ha & H)
  | H : mret _ _ = (Ok _, _) |- _ => apply stm_ret_ok in H as [? ?]; subst
  | H : sreject_if _ _ _ _ = (Ok _, _) |- _ => apply sreject_if_ok in H as [? ?]; subst
  | H : slift _ _ = (Ok _, _) |- _ => apply slift_ok in H as [? ?]; subst
  | H : sthrow _ _ _ = (Ok _, _) |- _ => discriminate H
  | H : (Err _, _) = (Ok _, _) |- _ => discriminate H
  | H : (Ok _, _) = (Ok _, _) |- _ => injection H as ? ?; subst
  | H : sget _ = (Ok _, _) |- _ => injection H as ? ?; subst
  | H : sput _ _ = (Ok _, _) |- _ => injection H as ? ?; subst
  | H : smodify _ _ = (Ok _, _) |- _ => injection H as ? ?; subst
  end.
