(* ===== verification/OrderedMap.v ===== *)
(** * [std::map<std::string, V>]

    The map as the sequence of its entries in key order, which is the order in
    which the program iterates it.  Keys are compared as [std::string] compares
    them: byte by byte as unsigned characters, a proper prefix first. *)
From S2P Require Import Prelude.

Definition str_lt (a b : string) : Prop := String.compare a b = Lt.

#[export] Instance str_lt_dec a b : Decision (str_lt a b).
Proof. unfold str_lt. apply _. Defined.

Lemma str_compare_refl a : String.compare a a = Eq.
Proof.
  induction a as [|c a IH]; cbn; [done|].
  unfold Ascii.compare. by rewrite N.compare_refl.
Qed.

Lemma str_compare_eq a b : String.compare a b = Eq ↔ a = b.
Proof.
  split; [apply String.compare_eq_iff | intros ->; apply str_compare_refl].
Qed.

Lemma str_lt_irrefl a : ¬ str_lt a a.
Proof. unfold str_lt. by rewrite str_compare_refl. Qed.

Lemma str_compare_gt a b : String.compare a b = Gt ↔ str_lt b a.
Proof.
  unfold str_lt. rewrite String.compare_antisym.
  destruct (String.compare b a); cbn; done.
Qed.

Lemma str_lt_trans a b c : str_lt a b → str_lt b c → str_lt a c.
Proof.
  unfold str_lt. revert b c.
  induction a as [|x a IH]; intros [|y b] [|z c]; cbn; try done.
  unfold Ascii.compare.
  destruct (N.compare_spec (N_of_ascii x) (N_of_ascii y)) as [E1|L1|L1]; try done;
  destruct (N.compare_spec (N_of_ascii y) (N_of_ascii z)) as [E2|L2|L2]; try done;
  destruct (N.compare_spec (N_of_ascii x) (N_of_ascii z)) as [E3|L3|L3];
    try done; try lia.
  apply IH.
Qed.
#[export] Instance str_lt_transitive : Transitive str_lt := str_lt_trans.

Lemma str_lt_ne a b : str_lt a b → a ≠ b.
Proof. intros H ->. by eapply str_lt_irrefl. Qed.

Lemma str_lt_asym a b : str_lt a b → ¬ str_lt b a.
Proof. intros H1 H2. exact (str_lt_irrefl _ (str_lt_trans _ _ _ H1 H2)). Qed.

Section StdMap.
Context {V : Type}.
Implicit Types (k : string) (v : V) (m : list (string * V)).

(** [m.find(k)]: the entry, or [None] for [m.end()] *)
Fixpoint sm_find k m : option V :=
  match m with
  | [] => None
  | (k', v) :: m => if decide (k = k') then Some v else sm_find k m
  end.

(** [m.contains(k)] *)
Definition sm_contains k m : bool :=
  match sm_find k m with Some _ => true | None => false end.

(** [m.insert_or_assign(k, v)] *)
Fixpoint sm_assign k v m : list (string * V) :=
  match m with
  | [] => [(k, v)]
  | (k', v') :: r =>
      match String.compare k k' with
      | Lt => (k, v) :: m
      | Eq => (k, v) :: r
      | Gt => (k', v') :: sm_assign k v r
      end
  end.

(** [m.emplace(k, v)]: an existing entry is kept; the flag is the [bool] of
    the returned pair. *)
Definition sm_emplace k v m : list (string * V) * bool :=
  if sm_contains k m then (m, false) else (sm_assign k v m, true).

(** [m.erase(k)] *)
Fixpoint sm_erase k m : list (string * V) :=
  match m with
  | [] => []
  | (k', v') :: r => if decide (k = k') then r else (k', v') :: sm_erase k r
  end.

(** The representation invariant of [std::map]: keys strictly ascending. *)
Definition sm_sorted m : Prop := StronglySorted str_lt m.*1.

#[export] Instance sm_sorted_dec m : Decision (sm_sorted m).
Proof.
  unfold sm_sorted. induction (m.*1) as [|k l IH].
  - left. constructor.
  - destruct (decide (Forall (str_lt k) l)); [destruct IH|].
    + left. by constructor.
    + right. by inversion 1.
    + right. by inversion 1.
Defined.

Lemma sm_sorted_nil : sm_sorted [].
Proof. constructor. Qed.

Lemma sm_sorted_cons k v m :
  sm_sorted ((k, v) :: m) ↔ sm_sorted m ∧ Forall (str_lt k) m.*1.
Proof.
  unfold sm_sorted. cbn. split.
  - by inversion 1.
  - intros [??]. by constructor.
Qed.

Lemma sm_find_elem k v m : sm_find k m = Some v → (k, v) ∈ m.
Proof.
  induction m as [|[k' v'] m IH]; cbn; [done|].
  case_decide; [intros [= ->]; subst; by left|]. intros ?. right. auto.
Qed.

Lemma sm_find_None_lt k m : Forall (str_lt k) m.*1 → sm_find k m = None.
Proof.
  induction m as [|[k' v'] m IH]; cbn; [done|].
  inversion 1; subst. rewrite decide_False by (by apply str_lt_ne). auto.
Qed.

Lemma sm_find_None_gt k m :
  Forall (λ k', str_lt k' k) m.*1 → sm_find k m = None.
Proof.
  induction m as [|[k' v'] m IH]; cbn; [done|].
  inversion 1; subst. rewrite decide_False; auto.
  intros ->. by eapply str_lt_irrefl.
Qed.

Lemma sm_find_assign_eq k v m : sm_find k (sm_assign k v m) = Some v.
Proof.
  induction m as [|[k' v'] m IH]; cbn.
  - by rewrite decide_True.
  - destruct (String.compare k k') eqn:E; cbn; rewrite ?decide_True by done; auto.
    rewrite decide_False; [done|].
    intros ->. by rewrite str_compare_refl in E.
Qed.

Lemma sm_find_assign_ne k j v m : k ≠ j → sm_find j (sm_assign k v m) = sm_find j m.
Proof.
  intros Hne. induction m as [|[k' v'] m IH]; cbn.
  - by rewrite decide_False.
  - destruct (String.compare k k') eqn:E; cbn.
    + apply str_compare_eq in E as ->. by rewrite !decide_False.
    + by rewrite (decide_False (P := j = k)).
    + case_decide; auto.
Qed.

Lemma sm_assign_keys k v m j :
  j ∈ (sm_assign k v m).*1 → j = k ∨ j ∈ m.*1.
Proof.
  induction m as [|[k' v'] m IH]; cbn; [set_solver|].
  destruct (String.compare k k') eqn:E; cbn; set_solver.
Qed.

Lemma sm_sorted_assign k v m : sm_sorted m → sm_sorted (sm_assign k v m).
Proof.
  induction m as [|[k' v'] m IH]; intros Hs; cbn.
  - apply sm_sorted_cons. by split; [|constructor].
  - apply sm_sorted_cons in Hs as [Hs Hlt].
    destruct (String.compare k k') eqn:E; apply sm_sorted_cons.
    + apply str_compare_eq in E as ->. done.
    + split; [by apply sm_sorted_cons|]. cbn. constructor; [done|].
      eapply Forall_impl; [exact Hlt|]. intros j Hj. by trans k'.
    + apply str_compare_gt in E. split; [by apply IH|].
      apply Forall_forall. intros j [->|Hj]%sm_assign_keys; [done|].
      by eapply Forall_forall in Hj.
Qed.

Lemma sm_sorted_emplace k v m : sm_sorted m → sm_sorted (sm_emplace k v m).1.
Proof. unfold sm_emplace. destruct sm_contains; cbn; auto using sm_sorted_assign. Qed.

Lemma sm_erase_keys k m j : j ∈ (sm_erase k m).*1 → j ∈ m.*1.
Proof.
  induction m as [|[k' v'] m IH]; cbn; [done|].
  case_decide; cbn; set_solver.
Qed.

Lemma sm_sorted_erase k m : sm_sorted m → sm_sorted (sm_erase k m).
Proof.
  induction m as [|[k' v'] m IH]; intros Hs; cbn; [done|].
  apply sm_sorted_cons in Hs as [Hs Hlt]. case_decide; [done|].
  apply sm_sorted_cons. split; [by apply IH|].
  apply Forall_forall. intros j Hj%sm_erase_keys. by eapply Forall_forall in Hj.
Qed.

Lemma sm_find_erase_eq k m : sm_sorted m → sm_find k (sm_erase k m) = None.
Proof.
  induction m as [|[k' v'] m IH]; intros Hs; cbn; [done|].
  apply sm_sorted_cons in Hs as [Hs Hlt]. case_decide; subst.
  - by apply sm_find_None_lt.
  - cbn. rewrite decide_False by done. auto.
Qed.

Lemma sm_find_erase_ne k j m : k ≠ j → sm_find j (sm_erase k m) = sm_find j m.
Proof.
  intros Hne. induction m as [|[k' v'] m IH]; cbn; [done|].
  case_decide; subst; cbn.
  - by rewrite decide_False.
  - case_decide; auto.
Qed.

(** Appending a key above all present ones: what a decoder of a sorted
    sequence does. *)
Lemma sm_assign_last k v m :
  Forall (λ k', str_lt k' k) m.*1 → sm_assign k v m = m ++ [(k, v)].
Proof.
  induction m as [|[k' v'] m IH]; cbn; [done|].
  inversion 1; subst.
  rewrite (proj2 (str_compare_gt k k')) by done. by rewrite IH.
Qed.

Lemma sm_emplace_last k v m :
  Forall (λ k', str_lt k' k) m.*1 → sm_emplace k v m = (m ++ [(k, v)], true).
Proof.
  intros Hlt. unfold sm_emplace, sm_contains.
  by rewrite sm_find_None_gt, sm_assign_last.
Qed.

Lemma sm_sorted_snoc k v m :
  sm_sorted m → Forall (λ k', str_lt k' k) m.*1 → sm_sorted (m ++ [(k, v)]).
Proof. intros. rewrite <-sm_assign_last by done. by apply sm_sorted_assign. Qed.

Lemma sm_sorted_app_lt m1 m2 k v :
  sm_sorted (m1 ++ (k, v) :: m2) → Forall (λ k', str_lt k' k) m1.*1.
Proof.
  induction m1 as [|[k' v'] m1 IH]; cbn; [constructor|].
  intros [Hs Hlt]%sm_sorted_cons. constructor; [|by apply IH].
  eapply Forall_forall in Hlt; [exact Hlt|]. rewrite fmap_app. set_solver.
Qed.

(** Two maps with the same lookups are equal. *)
Lemma sm_ext m1 m2 :
  sm_sorted m1 → sm_sorted m2 → (∀ k, sm_find k m1 = sm_find k m2) → m1 = m2.
Proof.
  revert m2. induction m1 as [|[k1 v1] m1 IH]; intros m2 Hs1 Hs2 Heq.
  - destruct m2 as [|[k2 v2] m2]; [done|].
    specialize (Heq k2). cbn in Heq. by rewrite decide_True in Heq.
  - destruct m2 as [|[k2 v2] m2].
    { specialize (Heq k1). cbn in Heq. by rewrite decide_True in Heq. }
    apply sm_sorted_cons in Hs1 as [Hs1 Hl1].
    apply sm_sorted_cons in Hs2 as [Hs2 Hl2].
    assert (k1 = k2) as <-.
    { pose proof (Heq k1) as H1. pose proof (Heq k2) as H2. cbn in H1, H2.
      rewrite decide_True in H1 by done.
      rewrite (decide_True (P := k2 = k2)) in H2 by done.
      case_decide; [done|]. case_decide; [done|].
      symmetry in H1. apply sm_find_elem, (list_elem_of_fmap_2 fst) in H1.
      apply sm_find_elem, (list_elem_of_fmap_2 fst) in H2. cbn in *.
      eapply Forall_forall in H1; [|exact Hl2].
      eapply Forall_forall in H2; [|exact Hl1].
      by destruct (str_lt_asym k1 k2). }
    assert (v1 = v2) as <-.
    { specialize (Heq k1). cbn in Heq. rewrite !decide_True in Heq by done.
      by simplify_eq. }
    f_equal. apply IH; [done..|]. intros k.
    specialize (Heq k). cbn in Heq. case_decide; subst; [|done].
    by rewrite !sm_find_None_lt.
Qed.
End StdMap.

(** The entries of a map whose order the model leaves to its readers, as the
    code's [std::map] iterates them. *)
Definition named_entries {V} (m : gmap string V) : list (string * V) :=
  foldr (λ p l, sm_assign p.1 p.2 l) [] (map_to_list m).

Lemma named_entries_sorted {V} (m : gmap string V) : sm_sorted (named_entries m).
Proof.
  unfold named_entries. induction (map_to_list m) as [|p l IH]; cbn; [apply sm_sorted_nil|].
  by apply sm_sorted_assign.
Qed.

Lemma find_assigned {V} (l : list (string * V)) k v :
  NoDup l.*1 → (k, v) ∈ l ↔ sm_find k (foldr (λ p l, sm_assign p.1 p.2 l) [] l) = Some v.
Proof.
  induction l as [|[k' v'] l IH]; cbn; [intros _; split; [by intros ?%elem_of_nil|done]|].
  intros [Hk Hl]%NoDup_cons. rewrite elem_of_cons. destruct (decide (k = k')) as [->|Hne].
  - rewrite sm_find_assign_eq. split; [|by intros [= ->]; left].
    intros [[= ->]|Hin]; [done|]. destruct Hk. apply list_elem_of_fmap. by exists (k', v).
  - rewrite sm_find_assign_ne by done. rewrite <-(IH Hl). naive_solver.
Qed.

Lemma elem_of_named_entries {V} (m : gmap string V) k v :
  (k, v) ∈ named_entries m ↔ m !! k = Some v.
Proof.
  unfold named_entries. rewrite <-elem_of_map_to_list, (find_assigned (map_to_list m)) by apply NoDup_fst_map_to_list.
  split; [|apply sm_find_elem].
  pose proof (named_entries_sorted m) as Hs. unfold named_entries in Hs. revert Hs.
  generalize (foldr (λ p l, sm_assign p.1 p.2 l) [] (map_to_list m)).
  intros e. induction e as [|[k' v'] e IH]; [by intros _ ?%elem_of_nil|].
  intros [Hs Hlt]%sm_sorted_cons. cbn. rewrite elem_of_cons. intros [[= -> ->]|Hin]; [by rewrite decide_True|].
  rewrite decide_False; [by apply IH|]. intros ->.
  rewrite Forall_forall in Hlt. eapply str_lt_irrefl, Hlt, list_elem_of_fmap. by exists (k', v).
Qed.
