(* ===== verification/Values.v ===== *)
(** * [liquid::Value] (include/liquid/Value.hpp, src/Value.cpp)

    The tagged union of recorded values, the UTF-8 check of its strings, and
    the limits [validate] enforces.

    A [double] is its IEEE-754 bit pattern: the program only tests it for
    finiteness and for zero, and copies its bits.  On the values the program
    can construct (finite, no negative zero) equality of patterns is [==]. *)
From S2P Require Import Prelude OrderedMap.

Module ValueLimits.
Definition maxDepth : N := 32.
Definition maxStringBytes : N := 1024 * 1024.
Definition maxByteStringBytes : N := 1024 * 1024.
Definition maxArrayItems : N := 4096.
Definition maxObjectItems : N := 4096.
Definition maxTotalNodes : N := 16384.
End ValueLimits.

(** [Value::Storage], alternative by alternative. *)
Inductive value :=
| VNull
| VBoolean (b : bool)
| VSigned (z : Z)
| VUnsigned (n : N)
| VDouble (bits : N)
| VString (s : string)
| VBytes (bs : list byte)
| VArray (items : list value)
| VObject (entries : list (string * value)).

Section ValueInd.
Context (P : value → Prop).
Context (HNull : P VNull) (HBool : ∀ b, P (VBoolean b))
  (HSigned : ∀ z, P (VSigned z)) (HUnsigned : ∀ n, P (VUnsigned n))
  (HDouble : ∀ d, P (VDouble d)) (HString : ∀ s, P (VString s))
  (HBytes : ∀ bs, P (VBytes bs))
  (HArray : ∀ l, Forall P l → P (VArray l))
  (HObject : ∀ m, Forall (λ kv, P kv.2) m → P (VObject m)).

Fixpoint value_ind' (v : value) : P v :=
  match v with
  | VNull => HNull
  | VBoolean b => HBool b
  | VSigned z => HSigned z
  | VUnsigned n => HUnsigned n
  | VDouble d => HDouble d
  | VString s => HString s
  | VBytes bs => HBytes bs
  | VArray l => HArray l
      ((fix go l : Forall P l :=
          match l with
          | [] => Forall_nil_2 _
          | x :: l => Forall_cons_2 _ _ _ (value_ind' x) (go l)
          end) l)
  | VObject m => HObject m
      ((fix go m : Forall (λ kv, P kv.2) m :=
          match m with
          | [] => Forall_nil_2 _
          | kv :: m => Forall_cons_2 _ _ _ (value_ind' kv.2) (go m)
          end) m)
  end.
End ValueInd.

(** [bool operator==(const Value&) const = default] *)
#[export] Instance value_eq_dec : EqDecision value.
Proof.
  unfold EqDecision, Decision. fix IH 1. intros v w.
  assert (Hl : ∀ l k : list value, {l = k} + {l ≠ k}).
  { fix IHl 1. intros [|x l] [|y k]; try (by left); try (by right).
    destruct (IH x y) as [->|]; [|right; congruence].
    destruct (IHl l k) as [->|]; [left; done|right; congruence]. }
  assert (Hm : ∀ l k : list (string * value), {l = k} + {l ≠ k}).
  { fix IHm 1. intros [|[a x] l] [|[b y] k]; try (by left); try (by right).
    destruct (IH x y) as [->|]; [|right; congruence].
    destruct (decide (a = b)) as [->|]; [|right; congruence].
    destruct (IHm l k) as [->|]; [left; done|right; congruence]. }
  destruct v as [|b|z|n|n|s|bs|l|m], w as [|b'|z'|n'|n'|s'|bs'|l'|m'];
    try (by left); try (right; discriminate).
  - destruct (decide (b = b')) as [->|]; [by left|right; congruence].
  - destruct (decide (z = z')) as [->|]; [by left|right; congruence].
  - destruct (decide (n = n')) as [->|]; [by left|right; congruence].
  - destruct (decide (n = n')) as [->|]; [by left|right; congruence].
  - destruct (decide (s = s')) as [->|]; [by left|right; congruence].
  - destruct (decide (bs = bs')) as [->|]; [by left|right; congruence].
  - destruct (Hl l l') as [->|]; [by left|right; congruence].
  - destruct (Hm m m') as [->|]; [by left|right; congruence].
Defined.

Definition value_eqb (v w : value) : bool := bool_decide (v = w).

(** [Value::Kind] and [kind()] *)
Inductive Kind :=
| KNull | KBoolean | KSignedInteger | KUnsignedInteger | KDouble
| KString | KBytes | KArray | KObject.

#[export] Instance Kind_eq_dec : EqDecision Kind.
Proof. solve_decision. Defined.

Definition kind (v : value) : Kind :=
  match v with
  | VNull => KNull
  | VBoolean _ => KBoolean
  | VSigned _ => KSignedInteger
  | VUnsigned _ => KUnsignedInteger
  | VDouble _ => KDouble
  | VString _ => KString
  | VBytes _ => KBytes
  | VArray _ => KArray
  | VObject _ => KObject
  end.

(** [std::get<T>(storedValue)]: throws on another alternative. *)
Definition bad_access {A} : res A := throw bad_variant_access "bad_variant_access".
Definition is_null (v : value) : bool := match v with VNull => true | _ => false end.
Definition as_boolean (v : value) : res bool :=
  match v with VBoolean b => Ok b | _ => bad_access end.
Definition as_signed_integer (v : value) : res Z :=
  match v with VSigned z => Ok z | _ => bad_access end.
Definition as_unsigned_integer (v : value) : res N :=
  match v with VUnsigned n => Ok n | _ => bad_access end.
Definition as_double (v : value) : res N :=
  match v with VDouble d => Ok d | _ => bad_access end.
Definition as_string (v : value) : res string :=
  match v with VString s => Ok s | _ => bad_access end.
Definition as_bytes (v : value) : res (list byte) :=
  match v with VBytes bs => Ok bs | _ => bad_access end.
Definition as_array (v : value) : res (list value) :=
  match v with VArray l => Ok l | _ => bad_access end.
Definition as_object (v : value) : res (list (string * value)) :=
  match v with VObject m => Ok m | _ => bad_access end.

(** ** [valid_utf8] *)

(** The classification of the first byte: the number of continuation bytes and
    the initial code point. *)
Definition utf8_lead (first : N) : option (nat * N) :=
  if (0xc2 <=? first) && (first <=? 0xdf) then Some (1%nat, N.land first 0x1f)
  else if (0xe0 <=? first) && (first <=? 0xef) then Some (2%nat, N.land first 0x0f)
  else if (0xf0 <=? first) && (first <=? 0xf4) then Some (3%nat, N.land first 0x07)
  else None.

(** The inner loop over [continuationCount] bytes; [None] is [return false]. *)
Fixpoint utf8_continue (count : nat) (codePoint : N) (rest : list byte)
  : option (N * list byte) :=
  match count with
  | O => Some (codePoint, rest)
  | S count =>
      match rest with
      | [] => None
      | c :: rest =>
          if negb (N.land (Byte.to_N c) 0xc0 =? 0x80) then None
          else utf8_continue count
                 (N.lor (N.shiftl codePoint 6) (N.land (Byte.to_N c) 0x3f)) rest
      end
  end.

(** The final test on the code point. *)
Definition utf8_bad_code_point (count : nat) (codePoint : N) : bool :=
  ((count =? 2)%nat && (codePoint <? 0x800)) ||
  ((count =? 3)%nat && (codePoint <? 0x10000)) ||
  (0x10ffff <? codePoint) ||
  ((0xd800 <=? codePoint) && (codePoint <=? 0xdfff)).

(** The outer loop; [rest] is [text] from [position] on. *)
Fixpoint utf8_loop (fuel : nat) (rest : list byte) : bool :=
  match fuel, rest with
  | _, [] => true
  | O, _ :: _ => false
  | S fuel, b :: rest =>
      let first := Byte.to_N b in
      if first <=? 0x7f then utf8_loop fuel rest
      else match utf8_lead first with
      | None => false
      | Some (count, codePoint) =>
          if (length rest <? count)%nat then false
          else match utf8_continue count codePoint rest with
          | None => false
          | Some (codePoint, rest) =>
              if utf8_bad_code_point count codePoint then false
              else utf8_loop fuel rest
          end
      end
  end.

Definition valid_utf8_bytes (bs : list byte) : bool := utf8_loop (length bs) bs.
Definition valid_utf8 (text : string) : bool :=
  valid_utf8_bytes (list_byte_of_string text).

(** ** [validate_value] and the constructors *)

Definition is_finite (bits : N) : bool :=
  negb (N.land (N.shiftr bits 52) 0x7ff =? 0x7ff).

Definition key_invalid (key : string) : bool :=
  (ValueLimits.maxStringBytes <? slen key) || negb (valid_utf8 key).

Fixpoint validate_value (v : value) (depth nodes : N) : res N :=
  if ValueLimits.maxDepth <? depth then
    throw invalid_argument "value nesting limit exceeded"
  else let nodes := nodes + 1 in
  if ValueLimits.maxTotalNodes <? nodes then
    throw invalid_argument "value node limit exceeded"
  else match v with
  | VNull | VBoolean _ | VSigned _ | VUnsigned _ => Ok nodes
  | VDouble d =>
      if negb (is_finite d) then throw invalid_argument "value double must be finite"
      else Ok nodes
  | VString text =>
      if ValueLimits.maxStringBytes <? slen text then
        throw invalid_argument "value string limit exceeded"
      else if negb (valid_utf8 text) then
        throw invalid_argument "value string is not valid UTF-8"
      else Ok nodes
  | VBytes bytes =>
      if ValueLimits.maxByteStringBytes <? len bytes then
        throw invalid_argument "value byte-string limit exceeded"
      else Ok nodes
  | VArray values =>
      if ValueLimits.maxArrayItems <? len values then
        throw invalid_argument "value array limit exceeded"
      else rfold (λ nodes child, validate_value child (depth + 1) nodes) values nodes
  | VObject values =>
      if ValueLimits.maxObjectItems <? len values then
        throw invalid_argument "value object limit exceeded"
      else rfold (λ nodes entry,
             if key_invalid entry.1 then
               throw invalid_argument "value object key is invalid"
             else validate_value entry.2 (depth + 1) nodes) values nodes
  end.

(** [void Value::validate() const] *)
Definition validate (v : value) : res unit := validate_value v 0 0 ≫= λ _, Ok tt.

(** The validating constructors. *)
Definition checked (v : value) : res value := validate v ≫= λ _, Ok v.
Definition Value_double (bits : N) : res value :=
  checked (VDouble (if (bits =? 0) || (bits =? 2 ^ 63) then 0 else bits)).
Definition Value_string (s : string) : res value := checked (VString s).
Definition Value_bytes (bs : list byte) : res value := checked (VBytes bs).
Definition Value_array (l : list value) : res value := checked (VArray l).
Definition Value_object (m : list (string * value)) : res value := checked (VObject m).

(** What the C++ types and constructors guarantee of every [Value]: integers
    within their width, no negative zero, object entries in key order. *)
Fixpoint well_typed (v : value) : bool :=
  match v with
  | VSigned z => (- 2 ^ 63 <=? z)%Z && (z <? 2 ^ 63)%Z
  | VUnsigned n => n <? 2 ^ 64
  | VDouble d => (d <? 2 ^ 64) && negb (d =? 2 ^ 63)
  | VArray l => forallb well_typed l
  | VObject m => bool_decide (sm_sorted m) && forallb (λ kv, well_typed kv.2) m
  | _ => true
  end.

(** * Lemmas *)

(** ** UTF-8 against its definition *)
Section Utf8.
(** Unicode scalar values and their UTF-8 encoding (RFC 3629). *)
Definition is_scalar (cp : N) : bool :=
  (cp <=? 0x10ffff) && negb ((0xd800 <=? cp) && (cp <=? 0xdfff)).

Definition utf8_encode (cp : N) : list byte :=
  byte_trunc <$>
  if cp <? 0x80 then [cp]
  else if cp <? 0x800 then [0xc0 + cp / 64; 0x80 + cp mod 64]
  else if cp <? 0x10000 then
    [0xe0 + cp / 4096; 0x80 + (cp / 64) mod 64; 0x80 + cp mod 64]
  else
    [0xf0 + cp / 262144; 0x80 + (cp / 4096) mod 64;
     0x80 + (cp / 64) mod 64; 0x80 + cp mod 64].

Lemma utf8_continuation_byte c :
  (N.land (Byte.to_N c) 0xc0 =? 0x80) = true →
  0x80 <= Byte.to_N c < 0xc0 ∧ N.land (Byte.to_N c) 0x3f = Byte.to_N c - 0x80.
Proof. destruct c; vm_compute; intros; try discriminate; done. Qed.

Lemma utf8_continuation_byte_conv c :
  0x80 <= Byte.to_N c < 0xc0 → (N.land (Byte.to_N c) 0xc0 =? 0x80) = true.
Proof.
  destruct c; vm_compute; intros [H1 H2];
    first [done | by destruct H1 | discriminate H2].
Qed.

Lemma utf8_lead_spec b count cp :
  utf8_lead (Byte.to_N b) = Some (count, cp) →
  (count = 1%nat ∧ 0xc2 <= Byte.to_N b <= 0xdf ∧ cp = Byte.to_N b - 0xc0) ∨
  (count = 2%nat ∧ 0xe0 <= Byte.to_N b <= 0xef ∧ cp = Byte.to_N b - 0xe0) ∨
  (count = 3%nat ∧ 0xf0 <= Byte.to_N b <= 0xf4 ∧ cp = Byte.to_N b - 0xf0).
Proof.
  destruct b; vm_compute; intros E; try discriminate E; injection E as <- <-;
    first [ left; by repeat split | right; left; by repeat split
          | right; right; by repeat split ].
Qed.

Lemma utf8_shift cp x : x < 64 → N.lor (N.shiftl cp 6) x = cp * 64 + x.
Proof. intros. rewrite N.lor_comm, lor_disjoint_add by done. change (2 ^ 6) with 64. lia. Qed.
Lemma utf8_lead_spec_conv b :
  (0xc2 <= Byte.to_N b <= 0xdf →
     utf8_lead (Byte.to_N b) = Some (1%nat, Byte.to_N b - 0xc0)) ∧
  (0xe0 <= Byte.to_N b <= 0xef →
     utf8_lead (Byte.to_N b) = Some (2%nat, Byte.to_N b - 0xe0)) ∧
  (0xf0 <= Byte.to_N b <= 0xf4 →
     utf8_lead (Byte.to_N b) = Some (3%nat, Byte.to_N b - 0xf0)).
Proof.
  destruct b; vm_compute; repeat split; intros [H1 H2];
    first [done | by destruct H1 | by destruct H2].
Qed.

Lemma utf8_continue_S n cp rest r :
  utf8_continue (S n) cp rest = Some r →
  ∃ c rest', rest = c :: rest' ∧ 0x80 <= Byte.to_N c < 0xc0 ∧
    utf8_continue n (cp * 64 + (Byte.to_N c - 0x80)) rest' = Some r.
Proof.
  destruct rest as [|c rest]; [done|]. cbn [utf8_continue].
  destruct (N.land (Byte.to_N c) 0xc0 =? 0x80) eqn:Hc; cbn [negb]; [|done].
  apply utf8_continuation_byte in Hc as [Hc Hl]. intros H.
  rewrite Hl, utf8_shift in H by lia. eauto.
Qed.

(** Opens one continuation byte of a hypothesis about [utf8_continue]. *)
Ltac open_continuation :=
  match goal with
  | H : utf8_continue (S _) _ ?rest = Some _ |- _ =>
      let c := fresh "c" in let r := fresh "r" in let Hc := fresh "Hc" in
      apply utf8_continue_S in H as (c & r & -> & Hc & H)
  end.

Ltac div_mod_lia := zify; Z.to_euclidean_division_equations; lia.

(** Decides the [ltb] tests of [utf8_encode] and compares byte by byte. *)
Ltac encode_eq :=
  unfold utf8_encode;
  repeat match goal with
  | |- context [?a <? ?b] =>
      first [ rewrite (proj2 (N.ltb_lt a b)) by lia
            | rewrite (proj2 (N.ltb_ge a b)) by lia ]
  end;
  cbn [fmap list_fmap app]; repeat f_equal;
  apply byte_to_N_inj; rewrite to_N_byte_trunc; div_mod_lia.

Lemma utf8_sequence_sound b rest count cp cp' rest' :
  utf8_lead (Byte.to_N b) = Some (count, cp) →
  utf8_continue count cp rest = Some (cp', rest') →
  utf8_bad_code_point count cp' = false →
  is_scalar cp' = true ∧ b :: rest = utf8_encode cp' ++ rest'.
Proof.
  intros Hlead Hcont Hbad.
  apply utf8_lead_spec in Hlead as [(-> & Hb & ->)|[(-> & Hb & ->)|(-> & Hb & ->)]];
    repeat open_continuation; cbn [utf8_continue] in Hcont; simplify_eq;
    unfold utf8_bad_code_point, is_scalar in *; cbn [Nat.eqb] in Hbad;
    (split; [lia|]); encode_eq.
Qed.

Lemma utf8_loop_sound fuel bs :
  utf8_loop fuel bs = true →
  ∃ cps, forallb is_scalar cps = true ∧ bs = concat (utf8_encode <$> cps).
Proof.
  revert bs. induction fuel as [|fuel IH]; intros [|b rest]; cbn [utf8_loop];
    try done; try (by exists []).
  destruct (N.leb_spec (Byte.to_N b) 0x7f) as [Hb|Hb].
  { intros (cps & Hs & ->)%IH. exists (Byte.to_N b :: cps). split.
    - cbn [forallb]. rewrite Hs. unfold is_scalar. lia.
    - cbn [fmap list_fmap concat]. change (b :: ?l) with ([b] ++ l). f_equal.
      encode_eq. }
  destruct utf8_lead as [[count cp]|] eqn:Hlead; [|done].
  destruct (length rest <? count)%nat; [done|].
  destruct utf8_continue as [[cp' rest']|] eqn:Hcont; [|done].
  destruct utf8_bad_code_point eqn:Hbad; [done|].
  destruct (utf8_sequence_sound _ _ _ _ _ _ Hlead Hcont Hbad) as [Hs ->].
  intros (cps & Hss & ->)%IH. exists (cp' :: cps). cbn. by rewrite Hs.
Qed.

(** The byte [byte_trunc n] seen as a continuation byte. *)
Lemma utf8_continue_trunc count cp x rest :
  x < 64 →
  utf8_continue (S count) cp (byte_trunc (0x80 + x) :: rest) =
  utf8_continue count (cp * 64 + x) rest.
Proof.
  intros Hx. cbn [utf8_continue].
  assert (Byte.to_N (byte_trunc (0x80 + x)) = 0x80 + x) as E
    by (rewrite to_N_byte_trunc; apply N.mod_small; lia).
  pose proof (utf8_continuation_byte_conv (byte_trunc (0x80 + x))) as Hc.
  rewrite Hc by lia. cbn [negb].
  apply utf8_continuation_byte in Hc as [_ ->]; [|lia..]. rewrite E.
  by replace (0x80 + x - 0x80) with x by lia; rewrite utf8_shift.
Qed.

Ltac step_lead :=
  match goal with
  | |- context [utf8_lead (Byte.to_N ?b)] =>
      let E := fresh "E" in
      let L1 := fresh in let L2 := fresh in let L3 := fresh in
      destruct (utf8_lead_spec_conv b) as (L1 & L2 & L3);
      rewrite to_N_byte_trunc, N.mod_small in L1, L2, L3 by div_mod_lia;
      rewrite ?to_N_byte_trunc, ?(N.mod_small _ 256) by div_mod_lia;
      first [rewrite L1 by div_mod_lia | rewrite L2 by div_mod_lia
            | rewrite L3 by div_mod_lia]; clear L1 L2 L3
  end.

Lemma utf8_loop_encode fuel cp rest :
  is_scalar cp = true →
  utf8_loop (S fuel) (utf8_encode cp ++ rest) = utf8_loop fuel rest.
Proof.
  unfold is_scalar. intros Hs. unfold utf8_encode.
  assert (∀ x, x mod 64 < 64) as Hm by (intros; by apply N.mod_lt).
  destruct (N.ltb_spec cp 0x80); [|destruct (N.ltb_spec cp 0x800);
    [|destruct (N.ltb_spec cp 0x10000)]];
    cbn [fmap list_fmap app utf8_loop];
    rewrite ?(to_N_byte_trunc cp), ?(N.mod_small cp 256) by lia.
  { by rewrite (proj2 (N.leb_le _ _)) by lia. }
  all: match goal with |- (if ?c then _ else _) = _ => assert (c = false) as -> end;
    [apply N.leb_gt; rewrite to_N_byte_trunc; div_mod_lia|];
    step_lead; cbn [length Nat.ltb Nat.leb];
    rewrite !utf8_continue_trunc by done; cbn [utf8_continue];
    match goal with |- (if utf8_bad_code_point ?n ?c then _ else _) = _ =>
      assert (c = cp) as -> by div_mod_lia;
      assert (utf8_bad_code_point n cp = false) as ->; [|done] end;
    unfold utf8_bad_code_point; cbn [Nat.eqb]; lia.
Qed.

Lemma length_utf8_encode cp : (1 <= length (utf8_encode cp))%nat.
Proof.
  unfold utf8_encode. rewrite length_fmap. repeat case_match; cbn; lia.
Qed.

Lemma utf8_loop_complete cps fuel :
  forallb is_scalar cps = true →
  (length (concat (utf8_encode <$> cps)) <= fuel)%nat →
  utf8_loop fuel (concat (utf8_encode <$> cps)) = true.
Proof.
  revert fuel. induction cps as [|cp cps IH]; intros fuel Hs Hf; [by destruct fuel|].
  cbn [forallb fmap list_fmap concat] in Hs, Hf |- *. apply andb_prop in Hs as [Hs Hss].
  rewrite length_app in Hf. pose proof (length_utf8_encode cp).
  destruct fuel as [|fuel]; [lia|].
  rewrite utf8_loop_encode by done. apply IH; [done|lia].
Qed.

Lemma valid_utf8_bytes_spec bs :
  valid_utf8_bytes bs = true ↔
  ∃ cps, forallb is_scalar cps = true ∧ bs = concat (utf8_encode <$> cps).
Proof.
  split; [apply utf8_loop_sound|].
  intros (cps & Hs & ->). by apply utf8_loop_complete.
Qed.
End Utf8.

(** ** What [validate] accepts *)

(** Nodes of the tree, and the depth of its deepest node below the root. *)
Fixpoint node_count (v : value) : N :=
  match v with
  | VArray l => 1 + foldr (λ c a, node_count c + a) 0 l
  | VObject m => 1 + foldr (λ kv a, node_count kv.2 + a) 0 m
  | _ => 1
  end.
Fixpoint height (v : value) : N :=
  match v with
  | VArray l => foldr (λ c a, N.max (height c + 1) a) 0 l
  | VObject m => foldr (λ kv a, N.max (height kv.2 + 1) a) 0 m
  | _ => 0
  end.

(** The conditions on each node by itself. *)
Fixpoint locally_valid (v : value) : bool :=
  match v with
  | VDouble d => is_finite d
  | VString s => (slen s <=? ValueLimits.maxStringBytes) && valid_utf8 s
  | VBytes bs => len bs <=? ValueLimits.maxByteStringBytes
  | VArray l => (len l <=? ValueLimits.maxArrayItems) && forallb locally_valid l
  | VObject m => (len m <=? ValueLimits.maxObjectItems) &&
      forallb (λ kv, negb (key_invalid kv.1) && locally_valid kv.2) m
  | _ => true
  end.

Definition within_limits (v : value) : bool :=
  (height v <=? ValueLimits.maxDepth) &&
  (node_count v <=? ValueLimits.maxTotalNodes) && locally_valid v.

Section Validate.
Implicit Types (v : value).

(** [accepts depth v]: how one node with its subtree consumes the budget. *)
Definition accepts (f : N → res N) (nodes_of height_of depth : N) (ok : bool) : Prop :=
  ∀ n n', f n = Ok n' ↔
    n' = n + nodes_of ∧ depth + height_of <= ValueLimits.maxDepth ∧
    n' <= ValueLimits.maxTotalNodes ∧ ok = true.

Lemma node_count_pos v : 1 <= node_count v.
Proof. destruct v; cbn; lia. Qed.

(** A loop over children, each accepted one level deeper. *)
Lemma rfold_accepts {A} (l : list A) (f : N → A → res N) (get : A → value)
    (ok : A → bool) depth :
  Forall (λ x, accepts (λ n, f n x) (node_count (get x)) (height (get x))
                 (depth + 1) (ok x)) l →
  ∀ n n', depth <= ValueLimits.maxDepth → n <= ValueLimits.maxTotalNodes →
  rfold f l n = Ok n' ↔
    n' = n + foldr (λ x a, node_count (get x) + a) 0 l ∧
    depth + foldr (λ x a, N.max (height (get x) + 1) a) 0 l <= ValueLimits.maxDepth ∧
    n' <= ValueLimits.maxTotalNodes ∧ forallb ok l = true.
Proof.
  induction 1 as [|x l Hx Hl IH]; intros n n' Hd Hn; cbn [rfold foldr forallb].
  { split; [intros [= <-]; split_and!; [lia..|done]|].
    intros (-> & _). by rewrite N.add_0_r. }
  rewrite res_bind_ok. split.
  - intros (n1 & (-> & Hh & Hle & Hok)%Hx & Hr).
    apply IH in Hr as (-> & Hh' & Hle' & Hok'); [|done|lia].
    rewrite Hok, Hok'. split_and!; [lia..|done].
  - intros (-> & Hh & Hle & [Hok Hok']%andb_prop).
    exists (n + node_count (get x)). split.
    + apply Hx. split_and!; [lia..|done].
    + apply IH; [done|lia|]. split_and!; [lia..|done].
Qed.

Ltac solve_leaf :=
  split;
  [ intros [= <-]; split_and!; lia
  | intros (-> & ? & ? & ?); first [done | lia] ].

Lemma validate_value_accepts v depth :
  accepts (validate_value v depth) (node_count v) (height v) depth (locally_valid v).
Proof.
  revert depth.
  induction v as [|b|z|u|d|s|bs|l IH|m IH] using value_ind';
    intros depth n n'; cbn [validate_value]; unfold throw;
    (destruct (N.ltb_spec ValueLimits.maxDepth depth) as [Hd|Hd];
      [split; [done|]; intros (_ & ? & _); lia|]);
    (destruct (N.ltb_spec ValueLimits.maxTotalNodes (n + 1)) as [Hn|Hn];
      [split; [done|]; intros (-> & _ & Hle & _);
       match type of Hle with _ + node_count ?v <= _ =>
         pose proof (node_count_pos v); lia end|]);
    cbn [node_count height locally_valid].
  1-4: solve_leaf.
  - destruct (is_finite d); cbn [negb]; solve_leaf.
  - destruct (N.ltb_spec ValueLimits.maxStringBytes (slen s)), (valid_utf8 s);
      cbn [negb]; solve_leaf.
  - destruct (N.ltb_spec ValueLimits.maxByteStringBytes (len bs)); solve_leaf.
  - destruct (N.ltb_spec ValueLimits.maxArrayItems (len l)).
    { split; [done|]. intros (_ & _ & _ & ?). lia. }
    rewrite (rfold_accepts l _ id locally_valid depth); [|by eapply Forall_impl|done..].
    unfold id. split; intros (-> & ? & ? & Hok); (split_and!; [lia..|]).
    + rewrite Hok. lia.
    + by apply andb_prop in Hok as [_ ?].
  - destruct (N.ltb_spec ValueLimits.maxObjectItems (len m)).
    { split; [done|]. intros (_ & _ & _ & ?). lia. }
    rewrite (rfold_accepts m _ snd
      (λ kv, negb (key_invalid kv.1) && locally_valid kv.2) depth); [|..|done|done].
    + split; intros (-> & ? & ? & Hok); (split_and!; [lia..|]).
      * rewrite Hok. lia.
      * by apply andb_prop in Hok as [_ ?].
    + eapply Forall_impl; [exact IH|]. intros kv Hkv a a'. cbn beta.
      destruct (key_invalid kv.1); cbn [negb andb]; [|apply Hkv].
      split; [done|]. by intros (_ & _ & _ & ?).
Qed.

Lemma validate_ok v : validate v = Ok tt ↔ within_limits v = true.
Proof.
  unfold validate, within_limits. rewrite res_bind_ok. split.
  - intros (n & (-> & ? & ? & ->)%validate_value_accepts & _). lia.
  - intros H. exists (node_count v). split; [|done].
    apply validate_value_accepts. split_and!; lia.
Qed.
End Validate.

(** Every rejection is an [std::invalid_argument]. *)
Lemma validate_value_kind v depth n e :
  validate_value v depth n = Err e → exn_kind e = invalid_argument.
Proof.
  assert (Hfold : ∀ {A} (f : N → A → res N) (l : list A),
    Forall (λ x, ∀ n e, f n x = Err e → exn_kind e = invalid_argument) l →
    ∀ n e, rfold f l n = Err e → exn_kind e = invalid_argument).
  { intros A f l. induction 1 as [|x l Hx _ IH]; intros n' e'; cbn; [done|].
    destruct (f n' x) eqn:E; cbn; [apply IH|]. intros [= <-]. by eapply Hx. }
  revert depth n e. induction v as [|b|z|u|d|s|bs|l IH|m IH] using value_ind';
    intros depth n e; cbn [validate_value]; unfold throw;
    repeat (case_match; [intros; by simplify_eq|]);
    try (by intros [=]); try (intros; by simplify_eq).
  - apply Hfold. eapply Forall_impl; [exact IH|]. intros. by eauto.
  - apply Hfold. eapply Forall_impl; [exact IH|]. intros kv Hkv n' e'.
    case_match; intros; [by simplify_eq|by eauto].
Qed.

(** * Properties *)

(** [valid_utf8] is exactly RFC 3629: it accepts a string iff its bytes
    are the concatenated shortest-form encodings of a sequence of Unicode
    scalar values (no surrogates, nothing above U+10FFFF, no overlong forms). *)
Theorem valid_utf8_iff_scalars (text : string) :
  valid_utf8 text = true ↔
  ∃ cps, forallb is_scalar cps = true ∧
         list_byte_of_string text = concat (utf8_encode <$> cps).
Proof. apply valid_utf8_bytes_spec. Qed.

(** [validate] accepts a value iff its depth, its node count and every
    node's own size stay within [ValueLimits], every double is finite and
    every string and key is valid UTF-8; otherwise it throws
    [std::invalid_argument]. *)
Theorem validate_iff_within_limits (v : value) :
  (validate v = Ok tt ↔ within_limits v = true) ∧
  (within_limits v = false → ∃ msg, validate v = throw invalid_argument msg).
Proof.
  split; [apply validate_ok|]. intros Hw.
  destruct (validate v) as [[]|[k msg]] eqn:E.
  - apply validate_ok in E. congruence.
  - exists msg. unfold validate in E.
    destruct (validate_value v 0 0) as [n|e] eqn:Ev; [done|].
    apply validate_value_kind in Ev. cbn in E. injection E as ->. cbn in Ev. by subst.
Qed.
