(* ===== verification/ValueCodec.v ===== *)
(** * The canonical binary codec of values (src/events/ValueCodec.cpp)

    [encode_value] writes a tag byte, little-endian sizes and integers, and
    the children in order; [decode_value] reads them back with bounds on
    nesting, nodes and sizes. *)
From S2P Require Import Prelude OrderedMap Values.

(** [enum class ValueTag] *)
Inductive ValueTag :=
| TagNull | TagFalse | TagTrue | TagSignedInteger | TagUnsignedInteger
| TagDouble | TagString | TagBytes | TagArray | TagObject.

Definition tag_byte (t : ValueTag) : N :=
  match t with
  | TagNull => 0 | TagFalse => 1 | TagTrue => 2 | TagSignedInteger => 3
  | TagUnsignedInteger => 4 | TagDouble => 5 | TagString => 6 | TagBytes => 7
  | TagArray => 8 | TagObject => 9
  end.

#[global] Arguments tag_byte : simpl never.

(** The cases of the decoder's [switch]; [None] falls through to its [throw]. *)
Definition tag_of (b : N) : option ValueTag :=
  match b with
  | 0 => Some TagNull | 1 => Some TagFalse | 2 => Some TagTrue
  | 3 => Some TagSignedInteger | 4 => Some TagUnsignedInteger
  | 5 => Some TagDouble | 6 => Some TagString | 7 => Some TagBytes
  | 8 => Some TagArray | 9 => Some TagObject
  | _ => None
  end.

(** [std::bit_cast] between [std::int64_t] and [std::uint64_t]. *)
Definition u64_of_i64 (z : Z) : N := Z.to_N (z mod 2 ^ 64).
Definition i64_of_u64 (n : N) : Z :=
  if n <? 2 ^ 63 then Z.of_N n else (Z.of_N n - 2 ^ 64)%Z.

(** ** Encoding *)

Definition append_u32 (output : list byte) (v : N) : list byte := append_le 4 output v.
Definition append_u64 (output : list byte) (v : N) : list byte := append_le 8 output v.
Definition push (output : list byte) (n : N) : list byte := output ++ [byte_trunc n].

Definition checked_size (size : N) : res N :=
  if u32_max <? size then throw invalid_argument "value is too large to encode"
  else Ok size.

Fixpoint encode (v : value) (output : list byte) : res (list byte) :=
  match v with
  | VNull => Ok (push output (tag_byte TagNull))
  | VBoolean b => Ok (push output (tag_byte (if b then TagTrue else TagFalse)))
  | VSigned z =>
      Ok (append_u64 (push output (tag_byte TagSignedInteger)) (u64_of_i64 z))
  | VUnsigned n => Ok (append_u64 (push output (tag_byte TagUnsignedInteger)) n)
  | VDouble d => Ok (append_u64 (push output (tag_byte TagDouble)) d)
  | VString text =>
      size ← checked_size (slen text);
      Ok (append_u32 (push output (tag_byte TagString)) size ++
          list_byte_of_string text)
  | VBytes bytes =>
      size ← checked_size (len bytes);
      Ok (append_u32 (push output (tag_byte TagBytes)) size ++ bytes)
  | VArray array =>
      size ← checked_size (len array);
      rfold (λ output child, encode child output) array
        (append_u32 (push output (tag_byte TagArray)) size)
  | VObject object =>
      size ← checked_size (len object);
      rfold (λ output entry,
          key_size ← checked_size (slen entry.1);
          encode entry.2
            (append_u32 output key_size ++ list_byte_of_string entry.1)) object
        (append_u32 (push output (tag_byte TagObject)) size)
  end.

Definition encode_value (v : value) : res (list byte) :=
  _ ← validate v; encode v [].

(** ** Decoding *)

(** [class Decoder]: [rest] is [input] from [position] on. *)
Record Decoder := MkDecoder { rest : list byte; nodes : N }.

Definition require (count : N) : stm Decoder unit := λ d,
  (reject_if (len (rest d) <? count) invalid_argument "truncated encoded value", d).

(** The [count] bytes at [position], which then advances past them. *)
Definition take_input (count : N) : stm Decoder (list byte) := λ d,
  (Ok (take (N.to_nat count) (rest d)),
   MkDecoder (drop (N.to_nat count) (rest d)) (nodes d)).

Definition read_u8 : stm Decoder N :=
  require 1;; bs ← take_input 1; mret (read_le bs).
Definition read_u32 : stm Decoder N :=
  require 4;; bs ← take_input 4; mret (read_le bs).
Definition read_u64 : stm Decoder N :=
  require 8;; bs ← take_input 8; mret (read_le bs).
Definition read_string (limit : N) : stm Decoder string :=
  size ← read_u32;
  sreject_if (limit <? size) invalid_argument "encoded value string limit exceeded";;
  require size;;
  bs ← take_input size;
  mret (string_of_list_byte bs).

(** [if (++nodes > ValueLimits::maxTotalNodes) throw ...] *)
Definition count_node : stm Decoder unit :=
  smodify (λ d, MkDecoder (rest d) (nodes d + 1));;
  d ← sget;
  sreject_if (ValueLimits.maxTotalNodes <? nodes d) invalid_argument
    "encoded value node limit exceeded".

Fixpoint decode (fuel : nat) (depth : N) : stm Decoder value :=
  match fuel with
  | O => sthrow fuel_exhausted "decode"
  | S fuel =>
    sreject_if (ValueLimits.maxDepth <? depth) invalid_argument
      "encoded value nesting limit exceeded";;
    count_node;;
    tag ← read_u8;
    match tag_of tag with
    | Some TagNull => mret VNull
    | Some TagFalse => mret (VBoolean false)
    | Some TagTrue => mret (VBoolean true)
    | Some TagSignedInteger => n ← read_u64; mret (VSigned (i64_of_u64 n))
    | Some TagUnsignedInteger => n ← read_u64; mret (VUnsigned n)
    | Some TagDouble => n ← read_u64; slift (Value_double n)
    | Some TagString =>
        text ← read_string ValueLimits.maxStringBytes; slift (Value_string text)
    | Some TagBytes =>
        size ← read_u32;
        sreject_if (ValueLimits.maxByteStringBytes <? size) invalid_argument
          "encoded byte-string limit exceeded";;
        require size;;
        bytes ← take_input size;
        slift (Value_bytes bytes)
    | Some TagArray =>
        count ← read_u32;
        sreject_if (ValueLimits.maxArrayItems <? count) invalid_argument
          "encoded array limit exceeded";;
        array ← srepeat (N.to_nat count) (λ array,
          item ← decode fuel (depth + 1); mret (array ++ [item])) [];
        mret (VArray array)
    | Some TagObject =>
        count ← read_u32;
        sreject_if (ValueLimits.maxObjectItems <? count) invalid_argument
          "encoded object limit exceeded";;
        object ← srepeat (N.to_nat count) (λ object,
          key ← read_string ValueLimits.maxStringBytes;
          item ← decode fuel (depth + 1);
          let '(object, inserted) := sm_emplace key item object in
          sreject_if (negb inserted) invalid_argument
            "encoded object has duplicate key";;
          mret object) [];
        mret (VObject object)
    | None => sthrow invalid_argument "encoded value has unknown type tag"
    end
  end.

(** Nesting is cut at [maxDepth + 1], so this fuel is never exhausted. *)
Definition decode_fuel : nat := 34.

Definition decode_value (encoded : list byte) : res value :=
  match decode decode_fuel 0 (MkDecoder encoded 0) with
  | (Err e, _) => Err e
  | (Ok v, d) =>
      _ ← reject_if (negb (len (rest d) =? 0)) invalid_argument
            "encoded value has trailing bytes";
      _ ← validate v;
      Ok v
  end.

(** * Lemmas *)

(** ** The encoding as a function *)

Definition tag1 (t : ValueTag) : list byte := [byte_trunc (tag_byte t)].
Definition u32_bytes (n : N) : list byte := le_bytes 4 n.
Definition u64_bytes (n : N) : list byte := le_bytes 8 n.
Definition string_bytes (s : string) : list byte :=
  u32_bytes (slen s) ++ list_byte_of_string s.

Fixpoint enc (v : value) : list byte :=
  match v with
  | VNull => tag1 TagNull
  | VBoolean b => tag1 (if b then TagTrue else TagFalse)
  | VSigned z => tag1 TagSignedInteger ++ u64_bytes (u64_of_i64 z)
  | VUnsigned n => tag1 TagUnsignedInteger ++ u64_bytes n
  | VDouble d => tag1 TagDouble ++ u64_bytes d
  | VString s => tag1 TagString ++ string_bytes s
  | VBytes bs => tag1 TagBytes ++ u32_bytes (len bs) ++ bs
  | VArray l => tag1 TagArray ++ u32_bytes (len l) ++ concat (enc <$> l)
  | VObject m => tag1 TagObject ++ u32_bytes (len m) ++
      concat ((λ kv, string_bytes kv.1 ++ enc kv.2) <$> m)
  end.

Lemma checked_size_ok n : n <= u32_max → checked_size n = Ok n.
Proof. intros H. unfold checked_size. by rewrite (proj2 (N.ltb_ge _ _)). Qed.

(** Every size [validate] admits fits the 32-bit size field. *)
Lemma string_size_fits n : n <= ValueLimits.maxStringBytes → n <= u32_max.
Proof. unfold ValueLimits.maxStringBytes, u32_max. lia. Qed.
Lemma byte_string_size_fits n : n <= ValueLimits.maxByteStringBytes → n <= u32_max.
Proof. unfold ValueLimits.maxByteStringBytes, u32_max. lia. Qed.
Lemma array_size_fits n : n <= ValueLimits.maxArrayItems → n <= u32_max.
Proof. unfold ValueLimits.maxArrayItems, u32_max. lia. Qed.
Lemma object_size_fits n : n <= ValueLimits.maxObjectItems → n <= u32_max.
Proof. unfold ValueLimits.maxObjectItems, u32_max. lia. Qed.
Lemma key_valid_size k :
  negb (key_invalid k) = true → slen k <= ValueLimits.maxStringBytes.
Proof.
  unfold key_invalid. intros [H _]%negb_true_iff%orb_false_elim.
  by apply N.ltb_ge in H.
Qed.

Lemma encode_spec v output :
  locally_valid v = true → encode v output = Ok (output ++ enc v).
Proof.
  revert output.
  induction v as [|b|z|u|d|s|bs|l IH|m IH] using value_ind';
    intros output Hv; cbn [encode enc locally_valid] in *;
    unfold push, append_u32, append_u64; rewrite ?append_le_spec, <-?app_assoc; try done.
  - apply andb_prop in Hv as [Hs _]. unfold string_bytes.
    rewrite checked_size_ok; cbn; [by rewrite append_le_spec, <-!app_assoc|].
    apply string_size_fits. lia.
  - rewrite checked_size_ok; cbn; [by rewrite append_le_spec, <-!app_assoc|].
    apply byte_string_size_fits. lia.
  - apply andb_prop in Hv as [Hs Hl].
    rewrite checked_size_ok by (apply array_size_fits; lia).
    cbn. rewrite append_le_spec. unfold u32_bytes.
    trans (Ok (((output ++ [byte_trunc (tag_byte TagArray)]) ++ le_bytes 4 (len l)) ++
      concat (enc <$> l))); [|by rewrite <-!app_assoc].
    generalize ((output ++ [byte_trunc (tag_byte TagArray)]) ++ le_bytes 4 (len l)).
    clear Hs.
    induction IH as [|x l Hx _ IH']; intros out; cbn in *; [by rewrite app_nil_r|].
    apply andb_prop in Hl as [Hvx Hl]. rewrite Hx by done. cbn.
    by rewrite IH', app_assoc.
  - apply andb_prop in Hv as [Hs Hl].
    rewrite checked_size_ok by (apply object_size_fits; lia).
    cbn. rewrite append_le_spec. unfold u32_bytes.
    trans (Ok (((output ++ [byte_trunc (tag_byte TagObject)]) ++ le_bytes 4 (len m)) ++
      concat ((λ kv, string_bytes kv.1 ++ enc kv.2) <$> m))); [|by rewrite <-!app_assoc].
    generalize ((output ++ [byte_trunc (tag_byte TagObject)]) ++ le_bytes 4 (len m)).
    clear Hs.
    induction IH as [|[k x] l Hx _ IH']; intros out; cbn [rfold forallb fst snd] in *;
      [by rewrite app_nil_r|].
    apply andb_prop in Hl as [[Hk Hvx]%andb_prop Hl].
    rewrite checked_size_ok by (by apply string_size_fits, key_valid_size).
    cbn. rewrite append_le_spec, Hx by done. cbn.
    rewrite IH' by done. cbn. unfold string_bytes. by rewrite <-!app_assoc.
Qed.

Lemma encode_value_spec v : within_limits v = true → encode_value v = Ok (enc v).
Proof.
  intros Hw. unfold encode_value. rewrite (proj2 (validate_ok v)) by done. cbn.
  apply encode_spec. unfold within_limits in Hw. by apply andb_prop in Hw as [_ ?].
Qed.

Lemma encode_value_ok v bs :
  encode_value v = Ok bs ↔ within_limits v = true ∧ bs = enc v.
Proof.
  split.
  - intros H. destruct (within_limits v) eqn:Hw.
    + rewrite encode_value_spec in H by done. by simplify_eq.
    + unfold encode_value in H. apply res_bind_ok in H as ([] & Hv & _).
      apply validate_ok in Hv. congruence.
  - intros [? ->]. by apply encode_value_spec.
Qed.

(** ** The readers on an encoding followed by more input *)

Lemma require_ok n d : n <= len (rest d) → require n d = (Ok tt, d).
Proof. intros H. unfold require, reject_if. by rewrite (proj2 (N.ltb_ge _ _)). Qed.

Lemma take_input_app n bs r k :
  n = len bs → take_input n (MkDecoder (bs ++ r) k) = (Ok bs, MkDecoder r k).
Proof.
  intros ->. unfold take_input, len. cbn. rewrite Nnat.Nat2N.id.
  by rewrite take_app_length, drop_app_length.
Qed.

Ltac read_step :=
  erewrite stm_bind_eq;
  [| first [ apply require_ok; cbn [rest]; len_simpl; lia
           | apply take_input_app; len_simpl; lia ] ].

Lemma read_u8_tag t r k :
  read_u8 (MkDecoder (tag1 t ++ r) k) = (Ok (tag_byte t), MkDecoder r k).
Proof. unfold read_u8, tag1. do 2 read_step. by destruct t. Qed.

Lemma read_u32_bytes n r k :
  n <= u32_max →
  read_u32 (MkDecoder (u32_bytes n ++ r) k) = (Ok n, MkDecoder r k).
Proof.
  intros H. unfold read_u32, u32_bytes. do 2 read_step.
  rewrite read_le_bytes; [done|]. unfold u32_max in H. cbn. lia.
Qed.

Lemma read_u64_bytes n r k :
  n < 2 ^ 64 → read_u64 (MkDecoder (u64_bytes n ++ r) k) = (Ok n, MkDecoder r k).
Proof.
  intros H. unfold read_u64, u64_bytes. do 2 read_step.
  by rewrite read_le_bytes.
Qed.

Lemma length_list_byte_of_string s : length (list_byte_of_string s) = String.length s.
Proof.
  unfold list_byte_of_string. rewrite length_map.
  induction s as [|c s IH]; cbn; [done|]. by rewrite IH.
Qed.

Lemma read_string_bytes limit s r k :
  slen s <= limit → slen s <= u32_max →
  read_string limit (MkDecoder (string_bytes s ++ r) k) = (Ok s, MkDecoder r k).
Proof.
  intros Hl Hu. unfold read_string, string_bytes. rewrite <-app_assoc.
  erewrite stm_bind_eq by (by apply read_u32_bytes).
  unfold sreject_if, slift, reject_if. rewrite (proj2 (N.ltb_ge _ _)) by done.
  assert (len (list_byte_of_string s) = slen s) as Hlen
    by (unfold len, slen; by rewrite length_list_byte_of_string).
  erewrite stm_bind_eq by done.
  erewrite stm_bind_eq by (apply require_ok; cbn [rest]; len_simpl; lia).
  erewrite stm_bind_eq by (by apply take_input_app).
  by rewrite string_of_list_byte_of_string.
Qed.

Lemma i64_u64 z : (- 2 ^ 63 <= z < 2 ^ 63)%Z → i64_of_u64 (u64_of_i64 z) = z.
Proof.
  intros H. unfold i64_of_u64, u64_of_i64.
  pose proof (Z.mod_pos_bound z (2 ^ 64) ltac:(done)).
  destruct (Z.lt_ge_cases z 0).
  - assert ((z mod 2 ^ 64 = z + 2 ^ 64)%Z) as E.
    { symmetry. apply (Z.mod_unique_pos _ _ (-1)); lia. }
    rewrite E. rewrite (proj2 (N.ltb_ge _ _)) by lia. lia.
  - rewrite Z.mod_small by lia. rewrite (proj2 (N.ltb_lt _ _)) by lia. lia.
Qed.

Lemma u64_of_i64_lt z : u64_of_i64 z < 2 ^ 64.
Proof.
  unfold u64_of_i64. pose proof (Z.mod_pos_bound z (2 ^ 64) ltac:(done)). lia.
Qed.

(** ** Round trip *)

Lemma tag_of_tag_byte t : tag_of (tag_byte t) = Some t.
Proof. by destruct t. Qed.

Lemma count_node_ok r k :
  k + 1 <= ValueLimits.maxTotalNodes →
  count_node (MkDecoder r k) = (Ok tt, MkDecoder r (k + 1)).
Proof.
  intros H. unfold count_node. do 2 erewrite stm_bind_eq by done.
  cbn [nodes rest]. by rewrite (proj2 (N.ltb_ge _ _)).
Qed.

(** What one decoding step does to the encoding of an accepted value. *)
Definition decodes (v : value) : Prop :=
  ∀ fuel depth n r,
    well_typed v = true → locally_valid v = true →
    depth + height v <= ValueLimits.maxDepth →
    n + node_count v <= ValueLimits.maxTotalNodes →
    34 <= N.of_nat fuel + depth →
    decode fuel depth (MkDecoder (enc v ++ r) n) =
      (Ok v, MkDecoder r (n + node_count v)).

Lemma decode_items l fuel depth n r acc :
  Forall decodes l →
  forallb well_typed l = true → forallb locally_valid l = true →
  depth + foldr (λ c a, N.max (height c + 1) a) 0 l <= ValueLimits.maxDepth →
  n + foldr (λ c a, node_count c + a) 0 l <= ValueLimits.maxTotalNodes →
  34 <= N.of_nat fuel + (depth + 1) →
  srepeat (length l) (λ array, item ← decode fuel (depth + 1); mret (array ++ [item]))
    acc (MkDecoder (concat (enc <$> l) ++ r) n) =
  (Ok (acc ++ l), MkDecoder r (n + foldr (λ c a, node_count c + a) 0 l)).
Proof.
  intros HF. revert n acc. induction HF as [|x l Hx _ IH]; intros n acc Ht Hv Hh Hn Hf;
    cbn [foldr forallb concat fmap list_fmap length srepeat] in *.
  { rewrite app_nil_r, N.add_0_r. done. }
  apply andb_prop in Ht as [Htx Ht]. apply andb_prop in Hv as [Hvx Hv].
  rewrite <-app_assoc. erewrite stm_bind_eq.
  2:{ erewrite stm_bind_eq by (apply Hx; [done..|lia|lia|lia]). done. }
  rewrite IH by (done || lia). rewrite <-app_assoc. cbn. do 2 f_equal. lia.
Qed.

Lemma decode_entries m fuel depth n r acc :
  Forall (λ kv, decodes kv.2) m →
  sm_sorted (acc ++ m) →
  forallb (λ kv, well_typed kv.2) m = true →
  forallb (λ kv, negb (key_invalid kv.1) && locally_valid kv.2) m = true →
  depth + foldr (λ kv a, N.max (height kv.2 + 1) a) 0 m <= ValueLimits.maxDepth →
  n + foldr (λ kv a, node_count kv.2 + a) 0 m <= ValueLimits.maxTotalNodes →
  34 <= N.of_nat fuel + (depth + 1) →
  srepeat (length m) (λ object,
      key ← read_string ValueLimits.maxStringBytes;
      item ← decode fuel (depth + 1);
      let '(object, inserted) := sm_emplace key item object in
      sreject_if (negb inserted) invalid_argument "encoded object has duplicate key";;
      mret object) acc
    (MkDecoder (concat ((λ kv, string_bytes kv.1 ++ enc kv.2) <$> m) ++ r) n) =
  (Ok (acc ++ m), MkDecoder r (n + foldr (λ kv a, node_count kv.2 + a) 0 m)).
Proof.
  intros HF. revert n acc.
  induction HF as [|[k x] m Hx _ IH]; intros n acc Hs Ht Hv Hh Hn Hf;
    cbn [foldr forallb concat fmap list_fmap length srepeat fst snd] in *.
  { rewrite app_nil_r, N.add_0_r. done. }
  apply andb_prop in Ht as [Htx Ht].
  apply andb_prop in Hv as [[Hk Hvx]%andb_prop Hv].
  apply key_valid_size in Hk.
  rewrite <-!app_assoc. erewrite stm_bind_eq.
  2:{ erewrite stm_bind_eq.
      2:{ by apply read_string_bytes, string_size_fits. }
      erewrite stm_bind_eq by (apply Hx; [done..|lia|lia|lia]).
      rewrite sm_emplace_last by (by eapply sm_sorted_app_lt).
      done. }
  rewrite IH; [|by rewrite <-app_assoc|done..|lia|lia|lia].
  rewrite <-app_assoc. cbn. do 2 f_equal. lia.
Qed.

Lemma checked_leaf v :
  locally_valid v = true → height v = 0 → node_count v = 1 → checked v = Ok v.
Proof.
  intros Hv Hh Hn. unfold checked. rewrite (proj2 (validate_ok v)); [done|].
  unfold within_limits. by rewrite Hv, Hh, Hn.
Qed.

Lemma decode_enc v : decodes v.
Proof.
  induction v as [|b|z|u|d|s|bs|l IH|m IH] using value_ind';
    intros fuel depth n r Ht Hv Hh Hn Hf; pose proof (node_count_pos VNull);
    (destruct fuel as [|fuel]; [change ValueLimits.maxDepth with 32 in *; lia|]);
    cbn [decode enc well_typed locally_valid height node_count] in *;
    rewrite (proj2 (N.ltb_ge _ _)) by lia;
    erewrite stm_bind_eq by apply sreject_if_false;
    erewrite stm_bind_eq by (apply count_node_ok; lia);
    rewrite <-?app_assoc;
    erewrite stm_bind_eq by apply read_u8_tag; rewrite tag_of_tag_byte.
  - done.
  - by destruct b.
  - erewrite stm_bind_eq by (apply read_u64_bytes, u64_of_i64_lt).
    rewrite i64_u64 by lia. done.
  - erewrite stm_bind_eq by (apply read_u64_bytes; lia). done.
  - erewrite stm_bind_eq by (apply read_u64_bytes; lia).
    unfold slift, Value_double. destruct (d =? 2 ^ 63) eqn:E1; [lia|].
    destruct (d =? 0) eqn:E2; cbn [orb].
    + apply N.eqb_eq in E2 as ->. done.
    + by rewrite checked_leaf.
  - erewrite stm_bind_eq
      by (apply read_string_bytes; [|apply string_size_fits]; lia).
    unfold slift, Value_string. by rewrite checked_leaf.
  - erewrite stm_bind_eq
      by (apply read_u32_bytes, byte_string_size_fits; lia).
    rewrite (proj2 (N.ltb_ge _ _)) by lia.
    erewrite stm_bind_eq by apply sreject_if_false.
    erewrite stm_bind_eq by (apply require_ok; cbn [rest]; len_simpl; lia).
    erewrite stm_bind_eq by (by apply take_input_app).
    unfold slift, Value_bytes. by rewrite checked_leaf.
  - apply andb_prop in Hv as [Hc Hv].
    erewrite stm_bind_eq
      by (apply read_u32_bytes, array_size_fits; lia).
    rewrite (proj2 (N.ltb_ge _ _)) by lia.
    erewrite stm_bind_eq by apply sreject_if_false.
    unfold len at 1. rewrite Nnat.Nat2N.id.
    erewrite stm_bind_eq by (apply decode_items; [done..|lia|lia|lia]).
    cbn. unfold mret, stm_ret. do 2 f_equal. lia.
  - apply andb_prop in Hv as [Hc Hv]. apply andb_prop in Ht as [Hs Ht].
    apply bool_decide_eq_true in Hs.
    erewrite stm_bind_eq
      by (apply read_u32_bytes, object_size_fits; lia).
    rewrite (proj2 (N.ltb_ge _ _)) by lia.
    erewrite stm_bind_eq by apply sreject_if_false.
    unfold len at 1. rewrite Nnat.Nat2N.id.
    erewrite stm_bind_eq by (apply decode_entries; [done..|lia|lia|lia]).
    cbn. unfold mret, stm_ret. do 2 f_equal. lia.
Qed.

(** ** More input after a successful decoding is left unread *)

Definition frames {A} (m : stm Decoder A) : Prop := ∀ r n a r' n' q,
  m (MkDecoder r n) = (Ok a, MkDecoder r' n') →
  m (MkDecoder (r ++ q) n) = (Ok a, MkDecoder (r' ++ q) n').

Lemma frames_bind {A B} (m : stm Decoder A) (f : A → stm Decoder B) :
  frames m → (∀ a, frames (f a)) → frames (m ≫= f).
Proof.
  intros Hm Hf r n b r' n' q H. apply stm_bind_ok in H as (a & [r1 n1] & H1 & H2).
  erewrite stm_bind_eq by (by apply Hm). by apply Hf.
Qed.

Lemma frames_ret {A} (a : A) : frames (mret a).
Proof. intros r n b r' n' q H. apply stm_ret_ok in H as [-> [= -> ->]]. done. Qed.

Lemma frames_slift {A} (m : res A) : frames (slift m).
Proof. intros r n b r' n' q H. apply slift_ok in H as [-> [= -> ->]]. done. Qed.

Lemma frames_reject c k msg : frames (sreject_if c k msg).
Proof. apply frames_slift. Qed.

Lemma frames_throw {A} k msg : frames (sthrow k msg : stm Decoder A).
Proof. intros r n b r' n' q [=]. Qed.

Lemma frames_read {A} k (f : list byte → stm Decoder A) :
  (∀ bs, frames (f bs)) → frames (require k;; bs ← take_input k; f bs).
Proof.
  intros Hf r n a r' n' q H.
  apply stm_bind_ok in H as (u & s1 & H1 & H2). unfold require in H1. cbn in H1.
  destruct (reject_if _ _ _) eqn:E in H1; [|done]. simplify_eq.
  apply reject_if_ok, N.ltb_ge in E.
  apply stm_bind_ok in H2 as (bs & [r1 n1] & [= <- <- <-] & H2). cbn [rest nodes] in H2.
  assert (N.to_nat k <= length r)%nat by (unfold len in E; lia).
  erewrite stm_bind_eq by (apply require_ok; cbn [rest]; len_simpl; lia).
  erewrite stm_bind_eq by (unfold take_input; cbn; done).
  rewrite take_app_le, drop_app_le by done. by apply Hf.
Qed.

Lemma frames_count_node : frames count_node.
Proof.
  intros r n a r' n' q H. unfold count_node in *. invert_stm. cbn in *. simplify_eq.
  do 2 erewrite stm_bind_eq by done. cbn [nodes] in *.
  by match goal with H : _ = false |- _ => rewrite H; destruct a end.
Qed.

Lemma frames_srepeat {A} n (step : A → stm Decoder A) a :
  (∀ a, frames (step a)) → frames (srepeat n step a).
Proof.
  intros Hs. revert a. induction n as [|n IH]; intros a; cbn;
    [apply frames_ret | by apply frames_bind].
Qed.

#[local] Hint Resolve frames_ret frames_slift frames_reject frames_throw
  frames_count_node : liquid.

Ltac solve_frames :=
  repeat first
    [ solve [eauto with liquid]
    | apply frames_read; intros ? | apply frames_srepeat; intros ?
    | apply frames_bind; [|intros ?] | case_match ].

Lemma frames_read_u8 : frames read_u8.
Proof. unfold read_u8. solve_frames. Qed.
Lemma frames_read_u32 : frames read_u32.
Proof. unfold read_u32. solve_frames. Qed.
Lemma frames_read_u64 : frames read_u64.
Proof. unfold read_u64. solve_frames. Qed.
#[local] Hint Resolve frames_read_u8 frames_read_u32 frames_read_u64 : liquid.
Lemma frames_read_string limit : frames (read_string limit).
Proof. unfold read_string. solve_frames. Qed.
#[local] Hint Resolve frames_read_string : liquid.

Lemma frames_decode fuel depth : frames (decode fuel depth).
Proof.
  revert depth. induction fuel as [|fuel IH]; intros depth; cbn [decode]; solve_frames.
Qed.

(** ** The fuel suffices *)

Definition never_exhausts {A} (m : stm Decoder A) : Prop := ∀ s e s',
  m s = (Err e, s') → exn_kind e ≠ fuel_exhausted.

Lemma never_exhausts_bind {A B} (m : stm Decoder A) (f : A → stm Decoder B) :
  never_exhausts m → (∀ a, never_exhausts (f a)) → never_exhausts (m ≫= f).
Proof.
  intros Hm Hf s e s'. unfold mbind, stm_bind.
  destruct (m s) as [[a|e1] s1] eqn:E; [apply Hf|].
  intros [= <- <-]. by eapply Hm.
Qed.

Lemma never_exhausts_guard {B} c k msg (f : unit → stm Decoder B) :
  k ≠ fuel_exhausted → (c = false → never_exhausts (f tt)) →
  never_exhausts (sreject_if c k msg ≫= f).
Proof.
  intros Hk Hf. destruct c; [|exact (Hf eq_refl)].
  intros s e s' [= <- <-]. done.
Qed.

Lemma never_exhausts_srepeat {A} n (step : A → stm Decoder A) a :
  (∀ a, never_exhausts (step a)) → never_exhausts (srepeat n step a).
Proof.
  intros Hs. revert a. induction n as [|n IH]; intros a; cbn; [done|].
  by apply never_exhausts_bind.
Qed.

Lemma never_exhausts_checked v : never_exhausts (slift (checked v)).
Proof.
  intros s e s'. unfold slift, checked, validate.
  destruct (validate_value v 0 0) eqn:E; intros [= <- <-].
  by rewrite (validate_value_kind _ _ _ _ E).
Qed.
#[local] Hint Resolve never_exhausts_checked : liquid.

Lemma never_exhausts_leaf :
  (∀ A (a : A), never_exhausts (mret a)) ∧
  (∀ k, never_exhausts (require k)) ∧ (∀ k, never_exhausts (take_input k)) ∧
  never_exhausts count_node.
Proof.
  split_and!.
  - by intros A a s e s' [=].
  - intros k s e s'. unfold require, reject_if, throw.
    case_match; intros [= <- <-]; done.
  - by intros k s e s' [=].
  - unfold count_node. do 2 (apply never_exhausts_bind; [by intros ? ? ? [=]|intros ?]).
    intros s e s'. unfold sreject_if, slift, reject_if, throw.
    case_match; intros [= <- <-]; done.
Qed.

Ltac solve_never_exhausts :=
  pose proof never_exhausts_leaf as (Hret & Hreq & Htake & Hcount);
  repeat first
    [ solve [eauto with liquid]
    | by (intros ? ? ? [= <- <-])
    | apply never_exhausts_guard; [done|intros ?]
    | apply never_exhausts_srepeat; intros ?
    | apply never_exhausts_bind; [|intros ?] | case_match ].

Lemma never_exhausts_readers :
  never_exhausts read_u8 ∧ never_exhausts read_u32 ∧ never_exhausts read_u64 ∧
  ∀ limit, never_exhausts (read_string limit).
Proof.
  assert (never_exhausts read_u32) as H32 by (unfold read_u32; solve_never_exhausts).
  split_and!; [..|intros limit]; unfold read_u8, read_u64, read_string;
    solve_never_exhausts.
Qed.

Lemma never_exhausts_decode fuel depth :
  34 <= N.of_nat fuel + depth → depth <= 33 → never_exhausts (decode fuel depth).
Proof.
  pose proof never_exhausts_readers as (H8 & H32 & H64 & Hstr).
  revert depth. induction fuel as [|fuel IH]; intros depth Hf Hd; [lia|].
  cbn [decode]. apply never_exhausts_guard; [done|]. intros Hdepth.
  apply N.ltb_ge in Hdepth. change ValueLimits.maxDepth with 32 in Hdepth.
  assert (never_exhausts (decode fuel (depth + 1))) as Hrec by (apply IH; lia).
  clear IH. solve_never_exhausts.
Qed.

(** ** Decoded values are well typed *)

Lemma read_le_width bs k : (length bs <= k)%nat → read_le bs < 2 ^ (8 * N.of_nat k).
Proof.
  intros H. eapply N.lt_le_trans; [apply read_le_bound|].
  apply N.pow_le_mono_r; [done|]. unfold len. lia.
Qed.

Lemma read_u64_width s n s' : read_u64 s = (Ok n, s') → n < 2 ^ 64.
Proof.
  unfold read_u64. intros H. invert_stm.
  match goal with H : take_input 8 _ = _ |- _ => injection H as <- <- end.
  apply (read_le_width _ 8). rewrite length_take. lia.
Qed.

Lemma i64_of_u64_range n :
  n < 2 ^ 64 → (- 2 ^ 63 <= i64_of_u64 n < 2 ^ 63)%Z.
Proof. unfold i64_of_u64. intros. destruct (N.ltb_spec n (2 ^ 63)); lia. Qed.

Lemma checked_ok v w : checked v = Ok w → w = v ∧ within_limits v = true.
Proof.
  unfold checked. intros H. apply res_bind_ok in H as ([] & H%validate_ok & [= ->]).
  done.
Qed.

Lemma srepeat_invariant {S A} (P : A → Prop) n (step : A → stm S A) a s a' s' :
  (∀ a s a' s', P a → step a s = (Ok a', s') → P a') →
  P a → srepeat n step a s = (Ok a', s') → P a'.
Proof.
  intros Hs. revert a s. induction n as [|n IH]; intros a s Ha; cbn; intros H; invert_stm.
  - done.
  - eapply IH; [|done]. by eapply Hs.
Qed.

Lemma forallb_sm_assign (P : value → bool) k v m :
  P v = true → forallb (λ kv : string * value, P kv.2) m = true →
  forallb (λ kv, P kv.2) (sm_assign k v m) = true.
Proof.
  intros Hv. induction m as [|[k' v'] m IH]; cbn [sm_assign forallb fst snd].
  { by rewrite Hv. }
  intros [H1 H2]%andb_prop.
  destruct (String.compare k k'); cbn [forallb fst snd];
    rewrite ?H1, ?H2, ?Hv, ?IH; done.
Qed.

Lemma decode_well_typed fuel depth s v s' :
  decode fuel depth s = (Ok v, s') → well_typed v = true.
Proof.
  revert depth s v s'. induction fuel as [|fuel IH]; intros depth s v s' H;
    cbn [decode] in H; invert_stm; [].
  repeat case_match; invert_stm; try done.
  - match goal with H : read_u64 _ = _ |- _ => apply read_u64_width in H end.
    cbn. pose proof (i64_of_u64_range _ ltac:(eassumption)). lia.
  - match goal with H : read_u64 _ = _ |- _ => apply read_u64_width in H end.
    cbn. lia.
  - match goal with H : read_u64 _ = _ |- _ => apply read_u64_width in H end.
    unfold Value_double in *.
    match goal with H : checked _ = _ |- _ => apply checked_ok in H as [-> _] end.
    cbn [well_typed]. destruct (a2 =? 0) eqn:E0, (a2 =? 2 ^ 63) eqn:E1;
      cbn [orb]; lia.
  - match goal with H : Value_string _ = _ |- _ => apply checked_ok in H as [-> _] end.
    done.
  - match goal with H : Value_bytes _ = _ |- _ => apply checked_ok in H as [-> _] end.
    done.
  - match goal with H : srepeat _ _ _ _ = _ |- _ =>
      eapply (srepeat_invariant (λ l, forallb well_typed l = true)) in H end;
      [done| |done].
    intros l t1 l' t2 Hl Hstep. invert_stm. rewrite forallb_app, Hl. cbn.
    by erewrite IH.
  - match goal with H : srepeat _ _ _ _ = _ |- _ =>
      eapply (srepeat_invariant (λ m, sm_sorted m ∧
        forallb (λ kv, well_typed kv.2) m = true)) in H as [Hs Ht] end.
    + cbn [well_typed]. rewrite Ht. by rewrite bool_decide_eq_true_2.
    + intros m t1 m' t2 [Hs Ht] Hstep. invert_stm.
      unfold sm_emplace in Hstep.
      destruct sm_contains; cbn [negb] in Hstep; invert_stm; [discriminate|].
      split; [by apply sm_sorted_assign|]. apply forallb_sm_assign; [|done].
      by eapply IH.
    + split; [apply sm_sorted_nil|done].
Qed.

Lemma decode_value_ok bs v :
  decode_value bs = Ok v → well_typed v = true ∧ within_limits v = true.
Proof.
  unfold decode_value. destruct decode as [[w|] d] eqn:E; [|done]. intros H.
  invert_res. split; [by eapply decode_well_typed|].
  match goal with H : validate _ = Ok ?u |- _ => destruct u; by apply validate_ok in H end.
Qed.

Lemma decode_value_enc v :
  well_typed v = true → within_limits v = true → decode_value (enc v) = Ok v.
Proof.
  intros Ht Hw. pose proof Hw as Hw'. unfold within_limits in Hw.
  apply andb_prop in Hw as [[Hh Hn]%andb_prop Hv].
  unfold decode_value. rewrite <-(app_nil_r (enc v)).
  rewrite decode_enc; [|done|done|lia|lia|done]. cbn [rest].
  change (len []) with 0. cbn [N.eqb negb reject_if].
  unfold mbind at 1, res_bind at 1. cbn. by rewrite (proj2 (validate_ok v)).
Qed.

Lemma decode_enc_app v q :
  well_typed v = true → within_limits v = true →
  decode decode_fuel 0 (MkDecoder (enc v ++ q) 0) =
    (Ok v, MkDecoder q (node_count v)).
Proof.
  intros Ht Hw. unfold within_limits in Hw.
  apply andb_prop in Hw as [[Hh Hn]%andb_prop Hv].
  by rewrite decode_enc; [|done|done|lia|lia|done].
Qed.

#[local] Opaque decode.

Lemma decode_value_never_exhausts bs e :
  decode_value bs = Err e → exn_kind e ≠ fuel_exhausted.
Proof.
  unfold decode_value. intros E.
  pose proof (never_exhausts_decode decode_fuel 0 ltac:(done) ltac:(done)
    (MkDecoder bs 0)) as Hd.
  destruct (decode decode_fuel 0 (MkDecoder bs 0)) as [[v|e'] d].
  - unfold reject_if, throw, validate in E.
    destruct (negb _); cbn in E; [by injection E as <-|].
    destruct (validate_value v 0 0) eqn:Ev; cbn in E; [done|].
    injection E as <-. by rewrite (validate_value_kind _ _ _ _ Ev).
  - injection E as <-. by eapply Hd.
Qed.

Lemma decode_value_inv bs v :
  decode_value bs = Ok v →
  ∃ n, decode decode_fuel 0 (MkDecoder bs 0) = (Ok v, MkDecoder [] n).
Proof.
  unfold decode_value. destruct decode as [[x|e] [r n]]; [|done].
  intros H. invert_res. cbn [rest] in *. exists n.
  destruct r as [|x r]; [done|].
  assert (0 < len (x :: r)) by (rewrite len_cons; lia). exfalso. lia.
Qed.

Lemma decode_value_app_nonempty v q :
  well_typed v = true → within_limits v = true → q ≠ [] →
  is_ok (decode_value (enc v ++ q)) = false.
Proof.
  intros Ht Hw Hq. unfold decode_value. rewrite decode_enc_app by done.
  cbn [rest]. by destruct q.
Qed.

Lemma decode_value_prefix v p q w :
  well_typed v = true → within_limits v = true → enc v = p ++ q →
  decode_value p = Ok w → q = [].
Proof.
  intros Ht Hw Hpq (n & E)%decode_value_inv.
  pose proof (frames_decode decode_fuel 0 _ _ _ _ _ q E) as E1.
  pose proof (decode_enc_app v [] Ht Hw) as E2.
  rewrite app_nil_r, Hpq in E2. rewrite E1 in E2. by injection E2.
Qed.

(** * Properties *)

(** C13. Round trip: every value the C++ types can hold and [validate] accepts
    is encoded without error, and decoding the encoding gives it back. *)
Theorem decode_encode_roundtrip (v : value) (Ht : well_typed v = true)
    (Hv : validate v = Ok tt) :
  ∃ bs, encode_value v = Ok bs ∧ decode_value bs = Ok v.
Proof.
  apply validate_ok in Hv. exists (enc v).
  split; [by apply encode_value_spec | by apply decode_value_enc].
Qed.

Definition sample_value : value :=
  VObject [("a", VArray [VSigned (-5); VDouble 4609434218613702656]);
           ("key", VString "text"); ("z", VObject [("n", VNull)])].

Lemma decode_encode_roundtrip_witness :
  well_typed sample_value = true ∧ validate sample_value = Ok tt ∧
  ∃ bs, encode_value sample_value = Ok bs ∧ decode_value bs = Ok sample_value.
Proof.
  split; [by vm_compute|]. split; [by vm_compute|].
  apply (decode_encode_roundtrip sample_value); by vm_compute.
Defined.

(** Encodings are self-delimiting: neither a strict prefix of an encoding
    (a truncated record) nor an encoding followed by more bytes decodes. *)
Theorem encoding_prefix_free (v : value) (bs p q : list byte)
    (Ht : well_typed v = true) (He : encode_value v = Ok bs) (Hq : q ≠ []) :
  (bs = p ++ q → ∀ w, decode_value p ≠ Ok w) ∧
  (∀ w, decode_value (bs ++ q) ≠ Ok w).
Proof.
  apply encode_value_ok in He as [Hw ->]. split.
  - intros Hpq w Hp. by apply Hq, (decode_value_prefix v p q w).
  - intros w Hp. pose proof (decode_value_app_nonempty v q Ht Hw Hq) as E.
    by rewrite Hp in E.
Qed.

Lemma encoding_prefix_free_witness :
  (enc sample_value = take 20 (enc sample_value) ++ drop 20 (enc sample_value) →
   ∀ w, decode_value (take 20 (enc sample_value)) ≠ Ok w) ∧
  (∀ w, decode_value (enc sample_value ++ drop 20 (enc sample_value)) ≠ Ok w).
Proof.
  apply (encoding_prefix_free sample_value (enc sample_value)
    (take 20 (enc sample_value)) (drop 20 (enc sample_value))); by vm_compute.
Defined.

(** C14. Decoding is total and sound on arbitrary bytes: it never runs out of
    the model's fuel, and whatever it accepts is a well-typed value within
    every limit, whose own encoding decodes to it again. *)
Theorem decode_value_total_sound (bs : list byte) :
  match decode_value bs with
  | Ok v => well_typed v = true ∧ validate v = Ok tt ∧
            (encode_value v ≫= decode_value) = Ok v
  | Err e => exn_kind e ≠ fuel_exhausted
  end.
Proof.
  destruct (decode_value bs) as [v|e] eqn:E.
  - apply decode_value_ok in E as [Ht Hw]. split_and!; [done|by apply validate_ok|].
    rewrite encode_value_spec by done. by apply decode_value_enc.
  - by eapply decode_value_never_exhausts.
Qed.

(** The decoder does not insist on the canonical encoding: it accepts
    object entries in any key order, so two distinct byte sequences can decode
    to the same value. *)
Theorem decode_accepts_unsorted_keys :
  let pair k n := string_bytes k ++ enc (VUnsigned n) in
  let encoded ab := tag1 TagObject ++ u32_bytes 2 ++ ab in
  let sorted := encoded (pair "a" 1 ++ pair "b" 2) in
  let unsorted := encoded (pair "b" 2 ++ pair "a" 1) in
  sorted ≠ unsorted ∧ decode_value unsorted = decode_value sorted ∧
  decode_value unsorted = Ok (VObject [("a", VUnsigned 1); ("b", VUnsigned 2)]).
Proof. vm_compute. split_and!; done. Qed.
