(* ===== verification/Effects.v ===== *)
(** * Effect commands and reports
    (include/liquid/effects/EffectTypes.hpp, src/effects/EffectTypes.cpp)

    The identifiers, the validated texts, the command/report/observation
    records exchanged with adapters, the retry policy and the dispatch result,
    with the validation functions every boundary of the runtime calls.

    [SessionId], [CommandId], [RecordId] and [StateRevision] wrap one
    [std::uint64_t]; they are [N] here, and [valid] is their [valid()]. *)
From S2P Require Import Prelude OrderedMap Values.

Definition SessionId := N.
Definition CommandId := N.
Definition RecordId := N.
Definition StateRevision := N.
Definition valid (id : N) : bool := negb (id =? 0).

Module EffectLimits.
Definition maxAdapterRouteBytes : N := 256.
Definition maxTargetBytes : N := 1024.
Definition maxDiagnosticBytes : N := 4096.
Definition maxRetryDelays : N := 32.
End EffectLimits.

(** ** Validated texts *)

Definition chars (s : string) : list ascii := list_ascii_of_string s.

(** [value.find('\0') != npos] *)
Definition contains_nul (s : string) : bool :=
  existsb (λ c, (N_of_ascii c =? 0)) (chars s).

Definition validate_bounded_text (s : string) (maximumBytes : N) (field : string)
  : res unit :=
  reject_if (slen s =? 0) invalid_argument (field ++ " must not be empty");;
  reject_if (maximumBytes <? slen s) invalid_argument
    (field ++ " exceeds its size limit");;
  reject_if (contains_nul s) invalid_argument
    (field ++ " must not contain NUL bytes").

Definition validate_diagnostic (diagnostic : string) : res unit :=
  reject_if (EffectLimits.maxDiagnosticBytes <? slen diagnostic) invalid_argument
    "effect diagnostic exceeds its size limit";;
  v ← Value_string diagnostic;
  validate v.

Definition route_character (c : ascii) : bool :=
  let n := N_of_ascii c in
  ((97 <=? n) && (n <=? 122)) || ((65 <=? n) && (n <=? 90)) ||
  ((48 <=? n) && (n <=? 57)) ||
  (n =? 46) || (n =? 95) || (n =? 45) || (n =? 47).

(** [explicit AdapterRoute(std::string)]: the route is its text. *)
Definition AdapterRoute (s : string) : res string :=
  validate_bounded_text s EffectLimits.maxAdapterRouteBytes "adapter route";;
  reject_if (negb (forallb route_character (chars s))) invalid_argument
    "adapter route contains an invalid character";;
  Ok s.

(** [explicit EffectTarget(std::string)] *)
Definition EffectTarget (s : string) : res string :=
  validate_bounded_text s EffectLimits.maxTargetBytes "effect target";;
  v ← Value_string s;
  validate v;;
  Ok s.

(** ** The records *)

Inductive CommandStatus :=
| Pending | Applied | Rejected | Failed | TimedOut | Superseded | Indeterminate.

#[export] Instance CommandStatus_eq_dec : EqDecision CommandStatus.
Proof. solve_decision. Defined.

Inductive FeedbackTiming := Deferred | Immediate.

#[export] Instance FeedbackTiming_eq_dec : EqDecision FeedbackTiming.
Proof. solve_decision. Defined.

Record ResolvedEffect := MkResolvedEffect {
  adapterRoute : string;
  target : string;
  desiredValue : value
}.

#[export] Instance ResolvedEffect_eq_dec : EqDecision ResolvedEffect.
Proof. solve_decision. Defined.

Record EffectCommand := MkEffectCommand {
  command_session : SessionId;
  command_id : CommandId;
  effect : ResolvedEffect;
  issuedAtMs : N
}.

#[export] Instance EffectCommand_eq_dec : EqDecision EffectCommand.
Proof. solve_decision. Defined.

Record EffectReport := MkEffectReport {
  report_session : SessionId;
  report_command : CommandId;
  report_route : string;
  report_target : string;
  report_status : CommandStatus;
  report_observed : option value;
  report_diagnostic : string;
  reportedAtMs : N;
  report_revision : StateRevision
}.

#[export] Instance EffectReport_eq_dec : EqDecision EffectReport.
Proof. solve_decision. Defined.

(** The constructor of [EffectReport]: a report without a revision takes its
    command's number as revision. *)
Definition Report (session : SessionId) (command : CommandId) (route tgt : string)
    (outcome : CommandStatus) (observed : option value) (detail : string)
    (reportedAt : N) (revision : StateRevision) : EffectReport :=
  MkEffectReport session command route tgt outcome observed detail reportedAt
    (if valid revision then revision else command).

Record ExternalObservation := MkExternalObservation {
  observation_session : SessionId;
  observation_route : string;
  observation_target : string;
  observedValue : value;
  observation_revision : StateRevision;
  observedAtMs : N
}.

#[export] Instance ExternalObservation_eq_dec : EqDecision ExternalObservation.
Proof. solve_decision. Defined.

Record AdapterCapabilities := MkAdapterCapabilities {
  nativeIdempotency : bool;
  readAfterWriteReconciliation : bool;
  synchronousImmediateFeedback : bool
}.

(** ** Retry policy: [std::chrono::milliseconds] is a signed count *)

Record RetryPolicy := MkRetryPolicy {
  retryDelays : list Z;
  overallTimeout : Z
}.

#[export] Instance RetryPolicy_eq_dec : EqDecision RetryPolicy.
Proof. solve_decision. Defined.

Definition default_RetryPolicy : RetryPolicy :=
  MkRetryPolicy [250; 500; 1000; 2000; 4000]%Z 30000%Z.

Definition RetryPolicy_validate (p : RetryPolicy) : res unit :=
  reject_if (EffectLimits.maxRetryDelays <? len (retryDelays p)) invalid_argument
    "retry policy has too many retry delays";;
  reject_if (overallTimeout p <=? 0)%Z invalid_argument
    "retry timeout must be positive";;
  rfold (λ previous delay,
    reject_if (delay <=? previous)%Z invalid_argument
      "retry delays must be positive and increasing";;
    reject_if (overallTimeout p <=? delay)%Z invalid_argument
      "retry delay must precede the overall timeout";;
    Ok delay) (retryDelays p) 0%Z;;
  Ok tt.

Definition delay_before_retry (p : RetryPolicy) (retryIndex : N) : res (option Z) :=
  RetryPolicy_validate p;;
  Ok (if len (retryDelays p) <=? retryIndex then None
      else retryDelays p !! N.to_nat retryIndex).

(** ** Validation *)

Definition validate_effect_command (c : EffectCommand) : res unit :=
  reject_if (negb (valid (command_session c))) invalid_argument
    "effect command requires a valid session ID";;
  reject_if (negb (valid (command_id c))) invalid_argument
    "effect command requires a valid command ID";;
  validate (desiredValue (effect c)).

Definition has_value {A} (o : option A) : bool :=
  match o with Some _ => true | None => false end.

Definition validate_effect_report (r : EffectReport) : res unit :=
  reject_if (negb (valid (report_session r))) invalid_argument
    "effect report requires a valid session ID";;
  reject_if (negb (valid (report_command r))) invalid_argument
    "effect report requires a valid command ID";;
  reject_if (bool_decide (report_status r = Pending)) invalid_argument
    "pending is not a report outcome";;
  reject_if (bool_decide (report_status r = Applied) &&
             negb (has_value (report_observed r))) invalid_argument
    "an applied report requires an observed value";;
  reject_if (bool_decide (report_status r = Applied) &&
             negb (valid (report_revision r))) invalid_argument
    "an applied report requires a state revision";;
  reject_if (negb (bool_decide (report_status r = Applied)) &&
             has_value (report_observed r)) invalid_argument
    "only an applied report may carry an observed value";;
  match report_observed r with Some v => validate v | None => Ok tt end;;
  validate_diagnostic (report_diagnostic r).

Definition validate_external_observation (o : ExternalObservation) : res unit :=
  reject_if (negb (valid (observation_session o))) invalid_argument
    "external observation requires a valid session ID";;
  reject_if (negb (valid (observation_revision o))) invalid_argument
    "external observation requires a state revision";;
  validate (observedValue o).

(** ** [DispatchResult] *)

Inductive DispatchDisposition :=
| DispatchAccepted | DispatchRejected | DispatchFailed.

#[export] Instance DispatchDisposition_eq_dec : EqDecision DispatchDisposition.
Proof. solve_decision. Defined.

Record DispatchResult := MkDispatchResult {
  disposition : DispatchDisposition;
  immediateReport : option EffectReport;
  dispatch_diagnostic : string
}.

#[export] Instance DispatchResult_eq_dec : EqDecision DispatchResult.
Proof. solve_decision. Defined.

Definition DispatchResult_validate (d : DispatchResult) : res unit :=
  validate_diagnostic (dispatch_diagnostic d);;
  reject_if (negb (bool_decide (disposition d = DispatchAccepted)) &&
             has_value (immediateReport d)) invalid_argument
    "only an accepted dispatch may include an immediate report";;
  match immediateReport d with
  | Some r => validate_effect_report r
  | None => Ok tt
  end.

Definition DispatchResult_accepted (report : option EffectReport)
  : res DispatchResult :=
  let d := MkDispatchResult DispatchAccepted report "" in
  DispatchResult_validate d;; Ok d.
Definition DispatchResult_rejected (diagnostic : string) : res DispatchResult :=
  let d := MkDispatchResult DispatchRejected None diagnostic in
  DispatchResult_validate d;; Ok d.
Definition DispatchResult_failed (diagnostic : string) : res DispatchResult :=
  let d := MkDispatchResult DispatchFailed None diagnostic in
  DispatchResult_validate d;; Ok d.

(** [report] answers [command]: the four identifying fields agree. *)
Definition report_matches (r : EffectReport) (c : EffectCommand) : bool :=
  (report_session r =? command_session c) &&
  (report_command r =? command_id c) &&
  bool_decide (report_route r = adapterRoute (effect c)) &&
  bool_decide (report_target r = target (effect c)).

Definition validate_dispatch_result_for_command (d : DispatchResult)
    (c : EffectCommand) : res unit :=
  validate_effect_command c;;
  DispatchResult_validate d;;
  match immediateReport d with
  | None => Ok tt
  | Some r => reject_if (negb (report_matches r c)) invalid_argument
      "immediate report does not match the dispatched command"
  end.

(** * Lemmas *)

#[local] Arguments valid_utf8 : simpl never.

Lemma negb_valid id : negb (valid id) = false ↔ id ≠ 0.
Proof. unfold valid. lia. Qed.

Lemma Value_string_ok s v :
  Value_string s = Ok v ↔ v = VString s ∧ within_limits (VString s) = true.
Proof.
  unfold Value_string, checked. rewrite unit_bind_ok, validate_ok. naive_solver.
Qed.

Lemma checked_text_ok s (k : res unit) :
  (v ← Value_string s; validate v;; k) = Ok tt ↔
  within_limits (VString s) = true ∧ k = Ok tt.
Proof.
  rewrite res_bind_ok. setoid_rewrite Value_string_ok.
  setoid_rewrite unit_bind_ok. setoid_rewrite validate_ok. naive_solver.
Qed.

Lemma within_limits_string s :
  within_limits (VString s) = true ↔
  slen s <= ValueLimits.maxStringBytes ∧ valid_utf8 s = true.
Proof.
  unfold within_limits. cbn [height node_count locally_valid].
  change (0 <=? ValueLimits.maxDepth) with true.
  change (1 <=? ValueLimits.maxTotalNodes) with true. cbn [andb].
  rewrite andb_true_iff, N.leb_le. done.
Qed.

Lemma validate_diagnostic_ok s :
  validate_diagnostic s = Ok tt ↔
  slen s <= EffectLimits.maxDiagnosticBytes ∧ valid_utf8 s = true.
Proof.
  unfold validate_diagnostic. rewrite guard_ok, res_bind_ok, N.ltb_ge.
  setoid_rewrite Value_string_ok. split.
  - intros (? & v & (-> & H) & _). apply within_limits_string in H as [_ ?]. done.
  - intros [Hl Hu]. split; [done|]. exists (VString s).
    assert (within_limits (VString s) = true).
    { apply within_limits_string. split; [|done]. etrans; [exact Hl|done]. }
    split; [done|]. by apply validate_ok.
Qed.

(** ** Texts *)

Lemma bounded_text_ok s n f :
  validate_bounded_text s n f = Ok tt ↔
  s ≠ "" ∧ slen s <= n ∧ contains_nul s = false.
Proof.
  unfold validate_bounded_text. rewrite !guard_ok, reject_if_ok, N.ltb_ge.
  assert ((slen s =? 0) = false ↔ s ≠ "") as ->; [|done].
  unfold slen. destruct s; cbn; [naive_solver|]. split; [done|lia].
Qed.

Lemma AdapterRoute_ok s r :
  AdapterRoute s = Ok r ↔
  r = s ∧ s ≠ "" ∧ slen s <= EffectLimits.maxAdapterRouteBytes ∧
  contains_nul s = false ∧ forallb route_character (chars s) = true.
Proof.
  unfold AdapterRoute. rewrite unit_bind_ok, bounded_text_ok, guard_ok.
  rewrite negb_false_iff. naive_solver.
Qed.

Lemma EffectTarget_ok s r :
  EffectTarget s = Ok r ↔
  r = s ∧ s ≠ "" ∧ slen s <= EffectLimits.maxTargetBytes ∧
  contains_nul s = false ∧ valid_utf8 s = true.
Proof.
  unfold EffectTarget. rewrite unit_bind_ok, bounded_text_ok, res_bind_ok.
  setoid_rewrite Value_string_ok. setoid_rewrite unit_bind_ok.
  setoid_rewrite validate_ok. split.
  - intros ((? & ? & ?) & v & (-> & Hw) & _ & [= ->]).
    apply within_limits_string in Hw as [_ ?]. done.
  - intros (-> & ? & Hl & ? & ?). split; [done|]. exists (VString s).
    assert (within_limits (VString s) = true); [|done].
    apply within_limits_string. split; [|done]. etrans; [exact Hl|done].
Qed.

(** ASCII text is its own UTF-8 encoding. *)
Lemma ascii_bytes_utf8 bs :
  Forall (λ b, Byte.to_N b <= 0x7f) bs → valid_utf8_bytes bs = true.
Proof.
  unfold valid_utf8_bytes. induction 1 as [|b bs Hb _ IH]; [done|].
  cbn [length utf8_loop]. by rewrite (proj2 (N.leb_le _ _)).
Qed.

Lemma route_character_ascii c :
  route_character c = true → Byte.to_N (byte_of_ascii c) <= 0x7f ∧ N_of_ascii c ≠ 0.
Proof.
  assert (Byte.to_N (byte_of_ascii c) = N_of_ascii c) as ->.
  { destruct c as [[] [] [] [] [] [] [] []]; reflexivity. }
  unfold route_character. cbn zeta. lia.
Qed.

Lemma route_text_utf8 s : forallb route_character (chars s) = true → valid_utf8 s = true.
Proof.
  intros H. apply ascii_bytes_utf8. unfold list_byte_of_string.
  apply Forall_forall. intros b (c & -> & Hc)%list_elem_of_fmap.
  unfold chars in H. rewrite forallb_forall in H.
  apply route_character_ascii, H. by apply list_elem_of_In.
Qed.

(** ** Retry schedules *)

Definition retry_step (timeout previous delay : Z) : res Z :=
  reject_if (delay <=? previous)%Z invalid_argument
    "retry delays must be positive and increasing";;
  reject_if (timeout <=? delay)%Z invalid_argument
    "retry delay must precede the overall timeout";;
  Ok delay.

Lemma retry_step_ok timeout previous delay d :
  retry_step timeout previous delay = Ok d ↔
  d = delay ∧ (previous < delay < timeout)%Z.
Proof.
  unfold retry_step. rewrite !guard_ok, !Z.leb_gt. naive_solver.
Qed.

Lemma retry_loop_ok timeout previous l :
  is_ok (rfold (retry_step timeout) l previous) = true ↔
  StronglySorted Z.lt (previous :: l) ∧ Forall (λ d, d < timeout)%Z l.
Proof.
  revert previous. induction l as [|d l IH]; intros previous; cbn [rfold].
  { split; [by repeat constructor|done]. }
  destruct (retry_step timeout previous d) as [d'|e] eqn:E; cbn.
  - apply retry_step_ok in E as [-> Hd]. rewrite IH. split.
    + intros [Hs Hf]. split; [|constructor; [lia|done]].
      constructor; [done|]. constructor; [lia|]. inversion Hs; subst.
      eapply Forall_impl; [done|]. intros; cbn in *; lia.
    + intros [Hs Hf]. inversion Hs; inversion Hf; subst. done.
  - split; [done|]. intros [Hs Hf]. inversion Hf; subst.
    inversion Hs as [|?? ? Hall]; subst. inversion Hall; subst.
    assert (retry_step timeout previous d = Ok d) by (by apply retry_step_ok).
    congruence.
Qed.

Lemma RetryPolicy_validate_ok p :
  RetryPolicy_validate p = Ok tt ↔
  len (retryDelays p) <= EffectLimits.maxRetryDelays ∧ (0 < overallTimeout p)%Z ∧
  StronglySorted Z.lt (0%Z :: retryDelays p) ∧
  Forall (λ d, d < overallTimeout p)%Z (retryDelays p).
Proof.
  unfold RetryPolicy_validate. rewrite !guard_ok, N.ltb_ge, Z.leb_gt.
  rewrite <-retry_loop_ok. change (rfold (λ _ _, _)) with (rfold (retry_step (overallTimeout p))).
  destruct (rfold _ _ _); cbn; naive_solver.
Qed.

(** ** Reports *)

Lemma validate_effect_report_ok r :
  validate_effect_report r = Ok tt ↔
  report_session r ≠ 0 ∧ report_command r ≠ 0 ∧ report_status r ≠ Pending ∧
  (report_status r = Applied ↔ is_Some (report_observed r)) ∧
  (report_status r = Applied → report_revision r ≠ 0) ∧
  (∀ v, report_observed r = Some v → within_limits v = true) ∧
  slen (report_diagnostic r) <= EffectLimits.maxDiagnosticBytes ∧
  valid_utf8 (report_diagnostic r) = true.
Proof.
  unfold validate_effect_report. rewrite !guard_ok, !negb_valid.
  rewrite unit_bind_ok, validate_diagnostic_ok.
  unfold valid. destruct r as [s c rt tg st ob dg at_ rv]. cbn.
  assert (∀ v, validate v = Ok tt ↔ within_limits v = true) as Hv by apply validate_ok.
  destruct ob as [v|]; cbn; rewrite ?andb_false_r, ?andb_true_r, ?Hv.
  all: split;
    [ intros (?&?&?%bool_decide_eq_false&?&?&?&?&?&?)
    | intros (?&?&?&[Ha Hb]&?&?&?&?)].
  - repeat split; try done; try (by intros ? [= <-]); try (by eexists).
    + intros _. by destruct (decide (st = Applied)) as [|];
        [|rewrite bool_decide_eq_false_2 in *].
    + intros ->. rewrite bool_decide_eq_true_2 in * by done. cbn in *. lia.
  - assert (st = Applied) as -> by (apply Hb; by eexists). cbn.
    assert (rv ≠ 0) by auto. repeat split; try done; [lia|auto].
  - assert (st ≠ Applied) by (intros ->; done).
    repeat split; try done; by intros [].
  - assert (st ≠ Applied) by (intros ->; destruct (Ha eq_refl); done).
    rewrite !bool_decide_eq_false_2 by done. repeat split; done.
Qed.

Lemma report_matches_spec r c :
  report_matches r c = true ↔
  report_session r = command_session c ∧ report_command r = command_id c ∧
  report_route r = adapterRoute (effect c) ∧ report_target r = target (effect c).
Proof.
  unfold report_matches. rewrite !andb_true_iff, !N.eqb_eq, !bool_decide_eq_true.
  naive_solver.
Qed.

Lemma validate_effect_command_ok c :
  validate_effect_command c = Ok tt ↔
  command_session c ≠ 0 ∧ command_id c ≠ 0 ∧
  within_limits (desiredValue (effect c)) = true.
Proof.
  unfold validate_effect_command. by rewrite !guard_ok, !negb_valid, validate_ok.
Qed.

Lemma DispatchResult_validate_ok d :
  DispatchResult_validate d = Ok tt ↔
  validate_diagnostic (dispatch_diagnostic d) = Ok tt ∧
  ∀ r, immediateReport d = Some r →
    disposition d = DispatchAccepted ∧ validate_effect_report r = Ok tt.
Proof.
  unfold DispatchResult_validate. rewrite unit_bind_ok, guard_ok.
  destruct (immediateReport d) as [r|]; cbn [has_value];
    rewrite ?andb_true_r, ?andb_false_r; [|naive_solver].
  rewrite negb_false_iff, bool_decide_eq_true. split; [naive_solver|].
  intros [? H]. by destruct (H r eq_refl).
Qed.

(** * Properties *)

(** Every text accepted as an adapter route or as an effect target can be
    recorded: the string constructor of [Value] accepts it too (a route's
    alphabet is ASCII, a target was checked), so building an event payload
    from a command never throws on them. *)
Theorem routes_and_targets_recordable (s : string) :
  is_ok (AdapterRoute s) = true ∨ is_ok (EffectTarget s) = true →
  Value_string s = Ok (VString s).
Proof.
  intros H. apply Value_string_ok. split; [done|]. apply within_limits_string.
  destruct H as [H|H].
  - destruct (AdapterRoute s) as [r|] eqn:E; [|done].
    apply AdapterRoute_ok in E as (_ & _ & Hl & _ & Hc).
    split; [|by apply route_text_utf8]. etrans; [exact Hl|done].
  - destruct (EffectTarget s) as [r|] eqn:E; [|done].
    apply EffectTarget_ok in E as (_ & _ & Hl & _ & Hu).
    split; [|done]. etrans; [exact Hl|done].
Qed.

Lemma routes_and_targets_recordable_witness :
  is_ok (AdapterRoute "sim/light-1") = true ∧
  Value_string "sim/light-1" = Ok (VString "sim/light-1").
Proof.
  split; [by vm_compute|]. apply (routes_and_targets_recordable "sim/light-1").
  left. by vm_compute.
Defined.

(** The retry schedule: an accepted policy gives each retry index below
    the number of delays a delay that is positive, strictly larger than the
    delay of every earlier retry and below the overall timeout, and gives no
    delay from that index on. *)
Theorem retry_schedule (p : RetryPolicy) (i : N) :
  RetryPolicy_validate p = Ok tt →
  (i < len (retryDelays p) → ∃ d,
     delay_before_retry p i = Ok (Some d) ∧ (0 < d < overallTimeout p)%Z ∧
     ∀ j d', j < i → delay_before_retry p j = Ok (Some d') → (d' < d)%Z) ∧
  (len (retryDelays p) <= i → delay_before_retry p i = Ok None).
Proof.
  intros Hv. unfold delay_before_retry. rewrite Hv. cbn [mbind res_bind].
  apply RetryPolicy_validate_ok in Hv as (_ & _ & Hs & Hf).
  inversion Hs as [|?? Hs' Hpos]; subst. rewrite Forall_forall in Hf, Hpos.
  split; intros Hi; [|by rewrite (proj2 (N.leb_le _ _))].
  rewrite (proj2 (N.leb_gt _ _)) by done. unfold len in *.
  destruct (lookup_lt_is_Some_2 (retryDelays p) (N.to_nat i)) as [d Hd]; [lia|].
  exists d. pose proof (list_elem_of_lookup_2 _ _ _ Hd) as Hin. rewrite Hd.
  split_and!; [done|by apply Hpos|by apply Hf|].
  intros j d' Hj. rewrite (proj2 (N.leb_gt _ _)) by lia. intros [= Hd'].
  eapply StronglySorted_lookup_lt; [apply Hs'|exact Hd'|exact Hd|lia].
Qed.

Lemma retry_schedule_witness :
  RetryPolicy_validate default_RetryPolicy = Ok tt ∧
  delay_before_retry default_RetryPolicy 5 = Ok None.
Proof.
  split; [by vm_compute|].
  apply (retry_schedule default_RetryPolicy 5); by vm_compute.
Defined.

(** What the dispatcher may trust: [validate_dispatch_result_for_command]
    accepts a result iff the command and the diagnostic are valid and an
    immediate report, if there is one, comes with an accepted disposition, is
    itself a valid final outcome (never [Pending]; an observed value exactly
    when [Applied], within the value limits and with a revision) and names
    this command's session, number, route and target. *)
Theorem dispatch_result_trusted (d : DispatchResult) (c : EffectCommand) :
  validate_dispatch_result_for_command d c = Ok tt ↔
  validate_effect_command c = Ok tt ∧
  validate_diagnostic (dispatch_diagnostic d) = Ok tt ∧
  ∀ r, immediateReport d = Some r →
    disposition d = DispatchAccepted ∧
    (report_session r = command_session c ∧ report_command r = command_id c ∧
     report_route r = adapterRoute (effect c) ∧ report_target r = target (effect c)) ∧
    report_status r ≠ Pending ∧
    (report_status r = Applied ↔ is_Some (report_observed r)) ∧
    (report_status r = Applied → report_revision r ≠ 0) ∧
    (∀ v, report_observed r = Some v → within_limits v = true) ∧
    validate_diagnostic (report_diagnostic r) = Ok tt.
Proof.
  unfold validate_dispatch_result_for_command.
  rewrite !unit_bind_ok, DispatchResult_validate_ok.
  setoid_rewrite validate_diagnostic_ok.
  setoid_rewrite validate_effect_report_ok. rewrite validate_effect_command_ok.
  destruct (immediateReport d) as [r|]; [|naive_solver].
  rewrite reject_if_ok, negb_false_iff, report_matches_spec.
  split.
  - intros (Hc & (Hd & Hr) & Hm). split; [done|]. split; [done|].
    intros r' [= <-]. destruct (Hr r eq_refl) as (? & _ & _ & ?). done.
  - intros (Hc & Hd & Hr). destruct (Hr r eq_refl) as (? & Hm & Hrest).
    split; [done|]. split; [|done]. split; [done|]. intros r' [= <-].
    destruct Hm as (-> & -> & _), Hc as (? & ? & _). done.
Qed.
