(* ===== verification/Events.v ===== *)
(** * Event records and their validation
    (include/liquid/events/EventTypes.hpp, src/events/EventInternals.hpp)

    The record and metadata types of the event log, the validation every store
    applies before writing and the scanner applies after reading, and the
    accessors of a checkpoint's payload. *)
From S2P Require Import Prelude OrderedMap Values ValueCodec Effects.

(** An [enum class EventType : std::uint16_t] holds any 16-bit number once it
    was produced by a [static_cast]; the named constants are the enumerators. *)
Definition event_type := N.

Module EventType.
Definition SessionStarted : event_type := 1.
Definition TopologyChanged : event_type := 2.
Definition ComponentMutated : event_type := 3.
Definition ComponentRemoved : event_type := 4.
Definition IntentCreated : event_type := 5.
Definition IntentDestroyed : event_type := 6.
Definition FrameStarted : event_type := 7.
Definition FrameCompleted : event_type := 8.
Definition FrameFailed : event_type := 9.
Definition ResolutionSelected : event_type := 10.
Definition CommandIssued : event_type := 11.
Definition CommandAttempted : event_type := 12.
Definition CommandStatusChanged : event_type := 13.
Definition ReportReceived : event_type := 14.
Definition ObservedStateChanged : event_type := 15.
Definition Checkpoint : event_type := 16.
Definition Recovery : event_type := 17.
Definition Retention : event_type := 18.
Definition ConfigurationChanged : event_type := 19.
Definition ScriptExecuted : event_type := 20.
Definition ExternalObservationReceived : event_type := 21.
End EventType.

(** [type < SessionStarted || type > ExternalObservationReceived] *)
Definition unknown_type (t : N) : bool :=
  (t <? EventType.SessionStarted) || (EventType.ExternalObservationReceived <? t).

Record EventData := MkEventData {
  data_type : event_type;
  data_version : N;
  data_payload : value
}.

#[export] Instance EventData_eq_dec : EqDecision EventData.
Proof. solve_decision. Defined.

Record EventRecord := MkEventRecord {
  sequence : RecordId;
  type : event_type;
  version : N;
  payload : value
}.

#[export] Instance EventRecord_eq_dec : EqDecision EventRecord.
Proof. solve_decision. Defined.

Record EventStoreMetadata := MkMetadata {
  session : SessionId;
  engineVersion : string;
  feedbackTiming : FeedbackTiming;
  fileGeneration : N;
  fileFormatVersion : N
}.

#[export] Instance EventStoreMetadata_eq_dec : EqDecision EventStoreMetadata.
Proof. solve_decision. Defined.

Definition currentFileFormatVersion : N := 1.

Module EventLimits.
Definition maxEngineVersionBytes : N := 64.
Definition maxRecordPayloadBytes : N := 8 * 1024 * 1024.
Definition maxBatchBytes : N := 16 * 1024 * 1024.
Definition maxRecordsPerBatch : N := 4096.
Definition maxRecordsRead : N := 4 * 1024 * 1024.
Definition maxFileBytes : N := 512 * 1024 * 1024.
End EventLimits.

Definition object := list (string * value).

Definition store_error {A} (msg : string) : res A := throw EventStoreError msg.

(** [try { m } catch (const std::exception& e) { throw EventStoreError(prefix + e.what()); }] *)
Definition rethrow_as_store_error {A} (prefix : string) (m : res A) : res A :=
  match m with
  | Ok a => Ok a
  | Err e => store_error (prefix ++ exn_what e)
  end.

(** ** Fields of a checkpoint *)

Definition checkpoint_field (o : object) (name : string) : res value :=
  match sm_find name o with
  | None => store_error ("checkpoint is missing field: " ++ name)
  | Some field => Ok field
  end.

Definition checkpoint_object (o : object) (name : string) : res object :=
  field ← checkpoint_field o name;
  reject_if (negb (bool_decide (kind field = KObject))) EventStoreError
    ("checkpoint field must be an object: " ++ name);;
  as_object field.

Definition checkpoint_array (o : object) (name : string) : res (list value) :=
  field ← checkpoint_field o name;
  reject_if (negb (bool_decide (kind field = KArray))) EventStoreError
    ("checkpoint field must be an array: " ++ name);;
  as_array field.

Definition checkpoint_unsigned (o : object) (name : string) : res N :=
  field ← checkpoint_field o name;
  reject_if (negb (bool_decide (kind field = KUnsignedInteger))) EventStoreError
    ("checkpoint field must be unsigned: " ++ name);;
  as_unsigned_integer field.

(** The body of the loop of [validate_checkpoint_record_array]. *)
Definition validate_checkpoint_record (encoded : value) : res unit :=
  reject_if (negb (bool_decide (kind encoded = KObject))) EventStoreError
    "checkpoint event must be an object";;
  event ← as_object encoded;
  sequence ← checkpoint_unsigned event "sequence";
  type ← checkpoint_unsigned event "type";
  version ← checkpoint_unsigned event "version";
  checkpoint_field event "payload";;
  reject_if (sequence =? 0) EventStoreError
    "checkpoint event sequence must be nonzero";;
  reject_if (unknown_type type) EventStoreError
    "checkpoint event has an unknown type";;
  reject_if (negb (version =? 1)) EventStoreError
    "checkpoint event has an unsupported version".

Definition validate_checkpoint_record_array (o : object) (name : string) : res unit :=
  records ← checkpoint_array o name;
  rfold (λ _ encoded, validate_checkpoint_record encoded) records tt.

(** The names the projection checks, in the order of the source. *)
Definition checkpoint_object_names : list string :=
  ["topology"; "components"; "intents"; "commands"; "observed_state";
   "observed_authority"; "configuration"; "handle_generations"].
Definition checkpoint_record_names : list string :=
  ["session_events"; "configuration_events"; "frame_events"; "resolutions";
   "command_attempts"; "reports"; "observations"; "failures"; "recoveries";
   "retentions"; "scripts"].

Definition require_object_entries (m : object) (msg : string) : res unit :=
  rfold (λ _ kv, reject_if (negb (bool_decide (kind kv.2 = KObject)))
                   EventStoreError msg) m tt.

Definition validate_checkpoint_projection (projection : value) : res unit :=
  reject_if (negb (bool_decide (kind projection = KObject))) EventStoreError
    "checkpoint projection must be an object";;
  o ← as_object projection;
  session ← checkpoint_unsigned o "session";
  reject_if (session =? 0) EventStoreError "checkpoint session must be nonzero";;
  checkpoint_unsigned o "replay_position";;
  rfold (λ _ name, (checkpoint_object o name;; Ok tt)) checkpoint_object_names tt;;
  commands ← checkpoint_object o "commands";
  require_object_entries commands "checkpoint command entry must be an object";;
  authority ← checkpoint_object o "observed_authority";
  require_object_entries authority
    "checkpoint observed-authority entry must be an object";;
  rfold (λ _ name, validate_checkpoint_record_array o name)
    checkpoint_record_names tt.

Definition validate_checkpoint_session (projection : value) (s : SessionId)
  : res unit :=
  validate_checkpoint_projection projection;;
  o ← as_object projection;
  found ← checkpoint_unsigned o "session";
  reject_if (negb (found =? s)) EventStoreError
    "checkpoint session does not match event-store metadata".

Definition validate_checkpoint_anchor (projection : value) (s : SessionId)
    (checkpointSequence : RecordId) : res unit :=
  validate_checkpoint_session projection s;;
  reject_if (negb (valid checkpointSequence)) EventStoreError
    "checkpoint record sequence must be nonzero";;
  let expectedPosition := checkpointSequence - 1 in
  o ← as_object projection;
  position ← checkpoint_unsigned o "replay_position";
  reject_if (negb (position =? expectedPosition)) EventStoreError
    "checkpoint replay_position does not precede checkpoint".

(** ** What a store accepts *)

Definition validate_metadata (m : EventStoreMetadata) : res unit :=
  reject_if (negb (fileFormatVersion m =? currentFileFormatVersion))
    EventStoreError "unsupported event-store file format version";;
  reject_if ((slen (engineVersion m) =? 0) ||
             (EventLimits.maxEngineVersionBytes <? slen (engineVersion m)))
    EventStoreError "invalid engine version";;
  reject_if (fileGeneration m =? 0) EventStoreError
    "file generation must be nonzero";;
  reject_if (negb (valid (session m))) EventStoreError
    "session ID must be nonzero";;
  rethrow_as_store_error "invalid engine version: "
    (v ← Value_string (engineVersion m); validate v).

(** The inner [throw EventStoreError] passes through the first handler. *)
Definition validate_event (e : EventData) : res unit :=
  reject_if (unknown_type (data_type e)) EventStoreError "unknown event type";;
  reject_if (negb (data_version e =? 1)) EventStoreError
    "unsupported event record version";;
  (if data_type e =? EventType.Checkpoint
   then validate_checkpoint_projection (data_payload e) else Ok tt);;
  encoded ← rethrow_as_store_error "invalid event payload: "
    (encode_value (data_payload e));
  reject_if (EventLimits.maxRecordPayloadBytes <? len encoded) EventStoreError
    "event record payload limit exceeded".

(** [reserve_for_append]: the capacity the vector is asked for, from its
    size, its capacity and the number of incoming records. *)
Definition reserve_for_append (size capacity incoming maximumRecords : N) : N :=
  let required := size + incoming in
  if required <=? capacity then capacity
  else
    let target := if maximumRecords / 2 <? capacity then maximumRecords
                  else capacity * 2 in
    let target := if target <? required then required else target in
    if maximumRecords <? target then N.max required maximumRecords else target.

Definition retention_payload (firstPruned lastPruned checkpoint : RecordId)
  : res value :=
  let payload := (sm_emplace "checkpoint" (VUnsigned checkpoint) []).1 in
  let payload := (sm_emplace "first_pruned" (VUnsigned firstPruned) payload).1 in
  let payload := (sm_emplace "last_pruned" (VUnsigned lastPruned) payload).1 in
  Value_object payload.

(** Record numbers count up by one from [n]. *)
Fixpoint consecutive (n : N) (rs : list EventRecord) : Prop :=
  match rs with
  | [] => True
  | r :: rs => sequence r = n ∧ consecutive (n + 1) rs
  end.

(** The data a record was appended from. *)
Definition event_of (r : EventRecord) : EventData :=
  MkEventData (type r) (version r) (payload r).

(** * Lemmas *)

Lemma consecutive_app n rs rs' :
  consecutive n (rs ++ rs') ↔ consecutive n rs ∧ consecutive (n + len rs) rs'.
Proof.
  revert n. induction rs as [|r rs IH]; intros n; cbn [app consecutive].
  { rewrite len_nil, N.add_0_r. naive_solver. }
  rewrite IH, len_cons, N.add_assoc. naive_solver.
Qed.

Lemma consecutive_lookup n rs i r :
  consecutive n rs → rs !! i = Some r → sequence r = n + N.of_nat i.
Proof.
  revert n i. induction rs as [|r' rs IH]; intros n i; [done|]. cbn [consecutive].
  intros [<- Hc]. destruct i as [|i]; cbn; [intros [= <-]; lia|].
  intros Hi. rewrite (IH _ _ Hc Hi). lia.
Qed.

Lemma unknown_type_false t : unknown_type t = false ↔ 1 <= t <= 21.
Proof.
  unfold unknown_type, EventType.SessionStarted, EventType.ExternalObservationReceived.
  lia.
Qed.

Lemma kind_object v : negb (bool_decide (kind v = KObject)) = false ↔ ∃ o, v = VObject o.
Proof.
  rewrite negb_false_iff, bool_decide_eq_true. destruct v; cbn; naive_solver.
Qed.
Lemma kind_array v : negb (bool_decide (kind v = KArray)) = false ↔ ∃ l, v = VArray l.
Proof.
  rewrite negb_false_iff, bool_decide_eq_true. destruct v; cbn; naive_solver.
Qed.
Lemma kind_unsigned v :
  negb (bool_decide (kind v = KUnsignedInteger)) = false ↔ ∃ n, v = VUnsigned n.
Proof.
  rewrite negb_false_iff, bool_decide_eq_true. destruct v; cbn; naive_solver.
Qed.

Lemma checkpoint_field_ok o name v :
  checkpoint_field o name = Ok v ↔ sm_find name o = Some v.
Proof. unfold checkpoint_field. destruct (sm_find name o); naive_solver. Qed.

Lemma checkpoint_object_ok o name m :
  checkpoint_object o name = Ok m ↔ sm_find name o = Some (VObject m).
Proof.
  unfold checkpoint_object. rewrite res_bind_ok. setoid_rewrite checkpoint_field_ok.
  setoid_rewrite guard_ok. setoid_rewrite kind_object. split.
  - by intros (v & -> & (m' & ->) & [= ->]).
  - intros ->. eexists. split; [done|]. eauto.
Qed.

Lemma checkpoint_array_ok o name l :
  checkpoint_array o name = Ok l ↔ sm_find name o = Some (VArray l).
Proof.
  unfold checkpoint_array. rewrite res_bind_ok. setoid_rewrite checkpoint_field_ok.
  setoid_rewrite guard_ok. setoid_rewrite kind_array. split.
  - by intros (v & -> & (m' & ->) & [= ->]).
  - intros ->. eexists. split; [done|]. eauto.
Qed.

Lemma checkpoint_unsigned_ok o name n :
  checkpoint_unsigned o name = Ok n ↔ sm_find name o = Some (VUnsigned n).
Proof.
  unfold checkpoint_unsigned. rewrite res_bind_ok. setoid_rewrite checkpoint_field_ok.
  setoid_rewrite guard_ok. setoid_rewrite kind_unsigned. split.
  - by intros (v & -> & (m' & ->) & [= ->]).
  - intros ->. eexists. split; [done|]. eauto.
Qed.

(** Turns successful checkpoint accesses and checks into facts. *)
Ltac checkpoint_facts :=
  repeat match goal with
  | H : checkpoint_field _ _ = Ok _ |- _ => apply checkpoint_field_ok in H
  | H : checkpoint_unsigned _ _ = Ok _ |- _ => apply checkpoint_unsigned_ok in H
  | H : checkpoint_object _ _ = Ok _ |- _ => apply checkpoint_object_ok in H
  | H : checkpoint_array _ _ = Ok _ |- _ => apply checkpoint_array_ok in H
  | H : (_ =? _) = false |- _ => apply N.eqb_neq in H
  | H : negb (_ =? _) = false |- _ => apply negb_false_iff, N.eqb_eq in H
  | u : () |- _ => destruct u
  end.

(** A loop of checks passes iff every check passes. *)
Lemma rfold_checks {A} (f : A → res unit) (l : list A) :
  rfold (λ _ x, f x) l tt = Ok tt ↔ Forall (λ x, f x = Ok tt) l.
Proof.
  induction l as [|x l IH]; cbn [rfold]; [by split|].
  rewrite Forall_cons, <-IH, res_bind_ok. split.
  - intros ([] & ? & ?). done.
  - intros [? ?]. by exists tt.
Qed.

(** ** A well-formed checkpoint, declaratively *)

Definition checkpoint_record_ok (encoded : value) : Prop :=
  ∃ event sequence type payload, encoded = VObject event ∧
    sm_find "sequence" event = Some (VUnsigned sequence) ∧ sequence ≠ 0 ∧
    sm_find "type" event = Some (VUnsigned type) ∧ unknown_type type = false ∧
    sm_find "version" event = Some (VUnsigned 1) ∧
    sm_find "payload" event = Some payload.

Definition object_entries (m : object) : Prop :=
  Forall (λ kv, ∃ o, kv.2 = VObject o) m.

Record checkpoint_ok (o : object) (session position : N) : Prop := MkCheckpointOk {
  cp_session : sm_find "session" o = Some (VUnsigned session);
  cp_session_valid : session ≠ 0;
  cp_position : sm_find "replay_position" o = Some (VUnsigned position);
  cp_objects : Forall (λ name, ∃ m, sm_find name o = Some (VObject m))
                 checkpoint_object_names;
  cp_commands : ∃ m, sm_find "commands" o = Some (VObject m) ∧ object_entries m;
  cp_authority : ∃ m, sm_find "observed_authority" o = Some (VObject m) ∧
                   object_entries m;
  cp_records : Forall (λ name, ∃ l, sm_find name o = Some (VArray l) ∧
                 Forall checkpoint_record_ok l) checkpoint_record_names
}.

Lemma validate_checkpoint_record_ok v :
  validate_checkpoint_record v = Ok tt ↔ checkpoint_record_ok v.
Proof.
  unfold validate_checkpoint_record, checkpoint_record_ok.
  rewrite guard_ok, kind_object. split.
  - intros ((o & ->) & H). cbn [as_object] in H. invert_res.
    checkpoint_facts. subst. naive_solver.
  - intros (o & s & t & p & -> & Hs & ? & Ht & Hk & Hv & Hp). split; [by eexists|].
    cbn [as_object mbind res_bind].
    rewrite (proj2 (checkpoint_unsigned_ok _ _ _) Hs). cbn [mbind res_bind].
    rewrite (proj2 (checkpoint_unsigned_ok _ _ _) Ht). cbn [mbind res_bind].
    rewrite (proj2 (checkpoint_unsigned_ok _ _ _) Hv). cbn [mbind res_bind].
    rewrite (proj2 (checkpoint_field_ok _ _ _) Hp). cbn [mbind res_bind].
    rewrite !guard_ok, reject_if_ok. split_and!; [by apply N.eqb_neq|done|done].
Qed.

Lemma validate_checkpoint_record_array_ok o name :
  validate_checkpoint_record_array o name = Ok tt ↔
  ∃ l, sm_find name o = Some (VArray l) ∧ Forall checkpoint_record_ok l.
Proof.
  unfold validate_checkpoint_record_array. rewrite res_bind_ok.
  setoid_rewrite checkpoint_array_ok. setoid_rewrite rfold_checks.
  by setoid_rewrite validate_checkpoint_record_ok.
Qed.

Lemma require_object_entries_ok m msg :
  require_object_entries m msg = Ok tt ↔ object_entries m.
Proof.
  unfold require_object_entries, object_entries. rewrite rfold_checks.
  setoid_rewrite reject_if_ok. by setoid_rewrite kind_object.
Qed.

Lemma checkpoint_objects_ok o l :
  rfold (λ _ name, (checkpoint_object o name;; Ok tt)) l tt = Ok tt ↔
  Forall (λ name, ∃ m, sm_find name o = Some (VObject m)) l.
Proof.
  rewrite rfold_checks. apply Forall_iff. intros name. rewrite res_bind_ok.
  setoid_rewrite checkpoint_object_ok. naive_solver.
Qed.

Lemma validate_checkpoint_projection_ok v :
  validate_checkpoint_projection v = Ok tt ↔
  ∃ o s p, v = VObject o ∧ checkpoint_ok o s p.
Proof.
  unfold validate_checkpoint_projection. rewrite guard_ok, kind_object. split.
  - intros ((o & ->) & H). exists o. cbn [as_object] in H. invert_res.
    checkpoint_facts.
    repeat match goal with
    | H : require_object_entries _ _ = _ |- _ => apply require_object_entries_ok in H
    | H : rfold _ checkpoint_object_names _ = _ |- _ => apply checkpoint_objects_ok in H
    | H : rfold _ checkpoint_record_names _ = _ |- _ => apply rfold_checks in H
    end.
    setoid_rewrite validate_checkpoint_record_array_ok in H.
    do 2 eexists. split; [done|]. econstructor; eauto.
  - intros (o & s & p & -> & [Hs Hv Hp Ho (mc & Hc & Hce) (ma & Ha & Hae) Hr]).
    split; [by eexists|]. cbn [as_object mbind res_bind].
    rewrite (proj2 (checkpoint_unsigned_ok _ _ _) Hs). cbn [mbind res_bind].
    rewrite guard_ok. split; [by apply N.eqb_neq|].
    rewrite (proj2 (checkpoint_unsigned_ok _ _ _) Hp). cbn [mbind res_bind].
    rewrite (proj2 (checkpoint_objects_ok _ _) Ho). cbn [mbind res_bind].
    rewrite (proj2 (checkpoint_object_ok _ _ _) Hc). cbn [mbind res_bind].
    rewrite (proj2 (require_object_entries_ok _ _) Hce). cbn [mbind res_bind].
    rewrite (proj2 (checkpoint_object_ok _ _ _) Ha). cbn [mbind res_bind].
    rewrite (proj2 (require_object_entries_ok _ _) Hae). cbn [mbind res_bind].
    rewrite rfold_checks. by setoid_rewrite validate_checkpoint_record_array_ok.
Qed.

Lemma validate_checkpoint_session_ok v s :
  validate_checkpoint_session v s = Ok tt ↔ ∃ o p, v = VObject o ∧ checkpoint_ok o s p.
Proof.
  unfold validate_checkpoint_session.
  rewrite unit_bind_ok, validate_checkpoint_projection_ok. split.
  - intros ((o & s' & p & -> & Hcp) & H). cbn [as_object mbind res_bind] in H.
    rewrite (proj2 (checkpoint_unsigned_ok _ _ _) (cp_session _ _ _ Hcp)) in H.
    cbn [mbind res_bind] in H. apply reject_if_ok, negb_false_iff, N.eqb_eq in H as <-.
    eauto.
  - intros (o & p & -> & Hcp). split; [eauto|]. cbn [as_object mbind res_bind].
    rewrite (proj2 (checkpoint_unsigned_ok _ _ _) (cp_session _ _ _ Hcp)).
    cbn [mbind res_bind]. by rewrite reject_if_ok, N.eqb_refl.
Qed.

Lemma checkpoint_position_unique o s p p' :
  checkpoint_ok o s p → checkpoint_ok o s p' → p = p'.
Proof. intros [_ _ H _ _ _ _] [_ _ H' _ _ _ _]. congruence. Qed.

Lemma validate_checkpoint_anchor_ok v s q :
  validate_checkpoint_anchor v s q = Ok tt ↔
  q ≠ 0 ∧ ∃ o, v = VObject o ∧ checkpoint_ok o s (q - 1).
Proof.
  unfold validate_checkpoint_anchor. cbn zeta.
  rewrite unit_bind_ok, guard_ok, negb_valid, validate_checkpoint_session_ok. split.
  - intros ((o & p & -> & Hcp) & ? & H). cbn [as_object mbind res_bind] in H.
    rewrite (proj2 (checkpoint_unsigned_ok _ _ _) (cp_position _ _ _ Hcp)) in H.
    cbn [mbind res_bind] in H. apply reject_if_ok, negb_false_iff, N.eqb_eq in H as ->.
    eauto.
  - intros (? & o & -> & Hcp). split; [eauto|]. split; [done|].
    cbn [as_object mbind res_bind].
    rewrite (proj2 (checkpoint_unsigned_ok _ _ _) (cp_position _ _ _ Hcp)).
    cbn [mbind res_bind]. by rewrite reject_if_ok, N.eqb_refl.
Qed.

Lemma rethrow_ok {A} prefix (m : res A) a :
  rethrow_as_store_error prefix m = Ok a ↔ m = Ok a.
Proof. destruct m; cbn; unfold store_error, throw; naive_solver. Qed.

Lemma validate_metadata_ok m :
  validate_metadata m = Ok tt ↔
  fileFormatVersion m = 1 ∧ 1 <= slen (engineVersion m) <= 64 ∧
  fileGeneration m ≠ 0 ∧ session m ≠ 0 ∧ valid_utf8 (engineVersion m) = true.
Proof.
  unfold validate_metadata.
  rewrite !guard_ok, rethrow_ok, negb_valid, res_bind_ok.
  setoid_rewrite Value_string_ok.
  change EventLimits.maxEngineVersionBytes with 64.
  unfold currentFileFormatVersion.
  assert (∀ v, validate v = Ok tt ↔ within_limits v = true) as Hv by apply validate_ok.
  split.
  - intros (? & ? & ? & ? & v & (-> & Hw) & _).
    apply within_limits_string in Hw as [_ ?]. split_and!; (done || lia).
  - intros (? & ? & ? & ? & ?). split_and!; [lia..|].
    exists (VString (engineVersion m)).
    assert (within_limits (VString (engineVersion m)) = true); [|by rewrite Hv].
    apply within_limits_string. split; [|done].
    change ValueLimits.maxStringBytes with 1048576. lia.
Qed.

Lemma validate_event_ok e :
  validate_event e = Ok tt ↔
  unknown_type (data_type e) = false ∧ data_version e = 1 ∧
  (data_type e = EventType.Checkpoint →
     ∃ o s p, data_payload e = VObject o ∧ checkpoint_ok o s p) ∧
  within_limits (data_payload e) = true ∧
  len (enc (data_payload e)) <= EventLimits.maxRecordPayloadBytes.
Proof.
  unfold validate_event. rewrite !guard_ok, unit_bind_ok, res_bind_ok.
  setoid_rewrite rethrow_ok. setoid_rewrite encode_value_ok.
  setoid_rewrite reject_if_ok. setoid_rewrite N.ltb_ge.
  rewrite negb_false_iff, N.eqb_eq, <-validate_checkpoint_projection_ok.
  destruct (N.eqb_spec (data_type e) EventType.Checkpoint); naive_solver.
Qed.

Lemma retention_payload_ok a b c :
  retention_payload a b c = Ok (VObject
    [("checkpoint", VUnsigned c); ("first_pruned", VUnsigned a);
     ("last_pruned", VUnsigned b)]).
Proof. reflexivity. Qed.

(** * Properties *)

(** Growing the record vector: within the record cap the capacity asked
    for holds the appended records, never exceeds the cap, and is either the
    present capacity (no relocation) or at least doubles it up to the cap, so
    single-record appends relocate the history only logarithmically often. *)
Theorem reserve_for_append_geometric (size capacity incoming maximum : N) :
  size <= capacity → capacity <= maximum → size + incoming <= maximum →
  let target := reserve_for_append size capacity incoming maximum in
  size + incoming <= target ∧ target <= maximum ∧
  (target = capacity ∨ N.min (2 * capacity) maximum <= target).
Proof.
  intros ? ? ?. unfold reserve_for_append. cbn zeta.
  assert (maximum / 2 < capacity ∨ 2 * capacity <= maximum).
  { destruct (N.le_gt_cases capacity (maximum / 2)); [right|by left].
    pose proof (N.Div0.mul_div_le maximum 2). lia. }
  destruct (N.leb_spec (size + incoming) capacity); [lia|].
  destruct (N.ltb_spec (maximum / 2) capacity);
    repeat match goal with
    | |- context [?a <? ?b] => destruct (N.ltb_spec a b)
    end; lia.
Qed.

Lemma reserve_for_append_geometric_witness :
  reserve_for_append 4 4 1 4194304 = 8 ∧
  4 + 1 <= reserve_for_append 4 4 1 4194304.
Proof.
  split; [by vm_compute|].
  apply (reserve_for_append_geometric 4 4 1 4194304); lia.
Defined.
