(* ===== verification/Crc32c.v ===== *)
(** * CRC-32C (src/events/FileEventStoreFormat.cpp, [crc32c])

    The bitwise checksum of headers and batches, the algebra of its step, and
    the errors it is guaranteed to detect. *)
From S2P Require Import Prelude.

(** One iteration of the inner loop on a 32-bit register. *)
Definition crc_bit (crc : N) : N :=
  let mask := wrap 32 (2 ^ 32 - N.land crc 1) in
  N.lxor (N.shiftr crc 1) (N.land 0x82f63b78 mask).

(** One iteration of the outer loop. *)
Definition crc_byte (crc : N) (b : byte) : N :=
  Nat.iter 8 crc_bit (N.lxor crc (Byte.to_N b)).

Definition crc32c (bytes : list byte) : N :=
  N.lxor (foldl crc_byte 0xffffffff bytes) 0xffffffff.

#[global] Arguments crc_bit : simpl never.
#[global] Arguments crc_byte : simpl never.
#[global] Arguments crc32c : simpl never.

(** Published check values of CRC-32C (RFC 3720, B.4). *)
Example crc32c_zeros : crc32c (repeat x00 32) = 0x8a9136aa.
Proof. by vm_compute. Qed.
Example crc32c_ones : crc32c (repeat xff 32) = 0x62a8ab43.
Proof. by vm_compute. Qed.

(** ** The algebra of the bit step *)

Definition crc_poly : N := 0x82f63b78.

Lemma crc_bit_spec crc :
  crc_bit crc = N.lxor (N.shiftr crc 1) (if N.odd crc then crc_poly else 0).
Proof.
  unfold crc_bit. cbn zeta. f_equal.
  replace (N.land crc 1) with (N.b2n (N.odd crc)).
  - by destruct (N.odd crc).
  - change 1 with (N.ones 1). rewrite N.land_ones. change (2 ^ 1) with 2.
    by rewrite <-N.bit0_mod, N.bit0_odd.
Qed.

Lemma lxor_lt_pow2 a b n : a < 2 ^ n → b < 2 ^ n → N.lxor a b < 2 ^ n.
Proof.
  intros Ha Hb. destruct (N.eq_dec (N.lxor a b) 0) as [->|Hne]; [lia|].
  apply N.log2_lt_pow2; [lia|].
  eapply N.le_lt_trans; [apply N.log2_lxor|].
  assert (∀ x, x < 2 ^ n → N.lxor a b ≠ 0 → N.log2 x < n ∨ n = 0) as Hl.
  { intros x Hx _. destruct (N.eq_dec n 0); [by right|left].
    destruct (N.eq_dec x 0) as [->|]; [cbn; lia|]. apply N.log2_lt_pow2; lia. }
  destruct (Hl a Ha Hne) as [?| ->], (Hl b Hb Hne) as [?|?]; subst;
    try (apply N.max_lub_lt; lia);
    (assert (a = 0) by (cbn in *; lia); assert (b = 0) by (cbn in *; lia); by subst).
Qed.

Lemma crc_bit_lt crc : crc < 2 ^ 32 → crc_bit crc < 2 ^ 32.
Proof.
  intros H. rewrite crc_bit_spec. apply lxor_lt_pow2.
  - rewrite N.shiftr_div_pow2. change (2 ^ 1) with 2.
    eapply N.le_lt_trans; [|exact H]. pose proof (N.Div0.div_le_upper_bound crc 2 crc). lia.
  - by destruct (N.odd crc).
Qed.

(** The bit step is linear over exclusive or. *)
Lemma crc_bit_lxor a b : crc_bit (N.lxor a b) = N.lxor (crc_bit a) (crc_bit b).
Proof.
  rewrite !crc_bit_spec, N.shiftr_lxor.
  assert (N.odd (N.lxor a b) = xorb (N.odd a) (N.odd b)) as ->
    by (rewrite <-!N.bit0_odd; apply N.lxor_spec).
  apply N.bits_inj. intros i. rewrite !N.lxor_spec.
  destruct (N.odd a), (N.odd b); cbn [xorb]; rewrite ?N.bits_0;
    destruct (N.testbit (N.shiftr a 1) i), (N.testbit (N.shiftr b 1) i),
      (N.testbit crc_poly i); done.
Qed.

(** The lowest bit of the register comes out as its highest. *)
Lemma crc_bit_top crc : crc < 2 ^ 32 → N.testbit (crc_bit crc) 31 = N.odd crc.
Proof.
  intros H. rewrite crc_bit_spec, N.lxor_spec, N.shiftr_spec by done.
  assert (N.testbit crc (31 + 1) = false) as ->.
  { destruct (N.eq_dec crc 0) as [->|]; [done|]. apply N.bits_above_log2.
    apply N.log2_lt_pow2; [lia|done]. }
  by destruct (N.odd crc).
Qed.

Lemma crc_bit_inj a b :
  a < 2 ^ 32 → b < 2 ^ 32 → crc_bit a = crc_bit b → a = b.
Proof.
  intros Ha Hb E. pose proof (crc_bit_top a Ha) as Ta. pose proof (crc_bit_top b Hb) as Tb.
  rewrite E in Ta. assert (N.odd a = N.odd b) as Ho by congruence.
  rewrite !crc_bit_spec, Ho in E. apply (f_equal (λ x, N.lxor x (if N.odd b then crc_poly else 0))) in E.
  rewrite !N.lxor_assoc, N.lxor_nilpotent, !N.lxor_0_r in E.
  rewrite (N.div2_odd a), (N.div2_odd b), !N.div2_spec, E, Ho. done.
Qed.

Lemma crc_bit_double x : crc_bit (2 * x) = x.
Proof.
  rewrite crc_bit_spec. rewrite N.odd_mul, N.odd_2. cbn [andb].
  rewrite N.lxor_0_r, N.shiftr_div_pow2. change (2 ^ 1) with 2.
  rewrite N.mul_comm. by apply N.div_mul.
Qed.

Lemma crc_iter_lt n crc : crc < 2 ^ 32 → Nat.iter n crc_bit crc < 2 ^ 32.
Proof. induction n as [|n IH]; rewrite ?Nat.iter_succ; [done|]. intros. by apply crc_bit_lt, IH. Qed.

Lemma crc_iter_lxor n a b :
  Nat.iter n crc_bit (N.lxor a b) = N.lxor (Nat.iter n crc_bit a) (Nat.iter n crc_bit b).
Proof. induction n as [|n IH]; rewrite ?Nat.iter_succ; [done|]. by rewrite IH, crc_bit_lxor. Qed.

Lemma crc_iter_inj n a b :
  a < 2 ^ 32 → b < 2 ^ 32 → Nat.iter n crc_bit a = Nat.iter n crc_bit b → a = b.
Proof.
  intros Ha Hb. induction n as [|n IH]; rewrite ?Nat.iter_succ; [done|].
  intros E. apply IH, crc_bit_inj; [by apply crc_iter_lt..|done].
Qed.

Lemma crc_iter_shift n x : Nat.iter n crc_bit (2 ^ N.of_nat n * x) = x.
Proof.
  revert x. induction n as [|n IH]; intros x.
  { change (2 ^ N.of_nat 0) with 1. by rewrite N.mul_1_l. }
  rewrite Nat.iter_succ, Nnat.Nat2N.inj_succ, N.pow_succ_r'.
  replace (2 * 2 ^ N.of_nat n * x) with (2 ^ N.of_nat n * (2 * x)) by lia.
  by rewrite IH, crc_bit_double.
Qed.

(** ** Runs of bytes *)

Lemma byte_lt_pow32 b : Byte.to_N b < 2 ^ 32.
Proof. pose proof (byte_to_N_lt b). lia. Qed.

Lemma crc_byte_lt crc b : crc < 2 ^ 32 → crc_byte crc b < 2 ^ 32.
Proof.
  intros. apply crc_iter_lt, lxor_lt_pow2; [done|]. apply byte_lt_pow32.
Qed.

Lemma crc_bytes_lt bs crc : crc < 2 ^ 32 → foldl crc_byte crc bs < 2 ^ 32.
Proof. revert crc. induction bs as [|b bs IH]; cbn; [done|]. auto using crc_byte_lt. Qed.

Lemma crc32c_lt bs : crc32c bs < 2 ^ 32.
Proof. apply lxor_lt_pow2; [|done]. by apply crc_bytes_lt. Qed.

Lemma crc_bytes_inj bs a b :
  a < 2 ^ 32 → b < 2 ^ 32 → foldl crc_byte a bs = foldl crc_byte b bs → a = b.
Proof.
  revert a b. induction bs as [|c bs IH]; intros a b Ha Hb; cbn; [done|].
  intros E%IH; [|by apply crc_byte_lt..].
  apply crc_iter_inj in E; [|by apply lxor_lt_pow2, byte_lt_pow32..].
  apply (f_equal (λ x, N.lxor x (Byte.to_N c))) in E.
  by rewrite !N.lxor_assoc, N.lxor_nilpotent, !N.lxor_0_r in E.
Qed.

Lemma lxor_disjoint_add a b s : a < 2 ^ s → N.lxor a (N.shiftl b s) = a + b * 2 ^ s.
Proof.
  intros Ha. rewrite <-lor_disjoint_add by done.
  apply N.lxor_lor. apply N.bits_inj. intros i.
  rewrite N.land_spec, N.bits_0. destruct (N.lt_ge_cases i s).
  - rewrite N.shiftl_spec_low by done. by rewrite andb_false_r.
  - rewrite <-(N.mod_small a (2 ^ s)) by done. by rewrite N.mod_pow2_bits_high.
Qed.

(** A run of bytes acts on the register like one exclusive or with the
    little-endian number they spell, followed by all their bit steps. *)
Fixpoint le_number (bs : list byte) : N :=
  match bs with
  | [] => 0
  | b :: bs => Byte.to_N b + 256 * le_number bs
  end.

Lemma crc_bytes_number bs crc :
  foldl crc_byte crc bs = Nat.iter (8 * length bs) crc_bit (N.lxor crc (le_number bs)).
Proof.
  revert crc. induction bs as [|b bs IH]; intros crc; cbn [foldl le_number].
  { by rewrite N.lxor_0_r. }
  rewrite IH. replace (8 * length (b :: bs))%nat with (8 * length bs + 8)%nat
    by (cbn [length]; lia).
  assert (∀ n m x, Nat.iter (n + m) crc_bit x = Nat.iter n crc_bit (Nat.iter m crc_bit x))
    as Hadd by (intros n m x; induction n as [|n IHn]; cbn [Nat.add];
        rewrite ?Nat.iter_succ; [done|by rewrite IHn]).
  rewrite Hadd. f_equal. unfold crc_byte.
  replace (Byte.to_N b + 256 * le_number bs)
    with (N.lxor (Byte.to_N b) (2 ^ N.of_nat 8 * le_number bs)).
  - by rewrite <-N.lxor_assoc, (crc_iter_lxor 8 _ (_ * _)), crc_iter_shift.
  - change (2 ^ N.of_nat 8) with (2 ^ 8). rewrite N.mul_comm, <-N.shiftl_mul_pow2.
    rewrite lxor_disjoint_add by apply byte_to_N_lt. change (2 ^ 8) with 256. lia.
Qed.

Lemma le_number_lt bs : (length bs <= 4)%nat → le_number bs < 2 ^ 32.
Proof.
  intros H. apply N.lt_le_trans with (2 ^ (8 * len bs)).
  - clear H. induction bs as [|b bs IH]; cbn [le_number]; [done|].
    rewrite len_cons. replace (8 * (1 + len bs)) with (8 + 8 * len bs) by lia.
    rewrite N.pow_add_r. change (2 ^ 8) with 256. pose proof (byte_to_N_lt b). lia.
  - apply N.pow_le_mono_r; [done|]. unfold len. lia.
Qed.

Lemma le_number_inj as_ bs : length as_ = length bs → le_number as_ = le_number bs → as_ = bs.
Proof.
  revert bs. induction as_ as [|a as_ IH]; intros [|b bs]; cbn; [done..|].
  intros [= Hl] E. pose proof (byte_to_N_lt a). pose proof (byte_to_N_lt b).
  f_equal; [apply byte_to_N_inj; lia|]. apply IH; [done|lia].
Qed.

Lemma le_number_le_bytes k n :
  n < 256 ^ N.of_nat k → le_number (le_bytes k n) = n.
Proof.
  revert n. induction k as [|k IH]; intros n Hn.
  { change (256 ^ N.of_nat 0) with 1 in Hn. change (0 = n). lia. }
  change (le_bytes (S k) n) with (byte_trunc n :: le_bytes k (n / 256)).
  cbn [le_number]. rewrite to_N_byte_trunc, IH.
  - symmetry. rewrite N.add_comm. apply N.Div0.div_mod.
  - rewrite Nnat.Nat2N.inj_succ, N.pow_succ_r' in Hn. by apply N.Div0.div_lt_upper_bound.
Qed.

Lemma le_bytes_le_number bs k : length bs = k → bs = le_bytes k (le_number bs).
Proof.
  intros <-. apply le_number_inj; [by rewrite length_le_bytes|].
  rewrite le_number_le_bytes; [done|].
  induction bs as [|b bs IH]; cbn [le_number length]; [done|].
  rewrite Nnat.Nat2N.inj_succ, N.pow_succ_r'. pose proof (byte_to_N_lt b). lia.
Qed.

(** A message followed by its own checksum always has the same checksum. *)
Definition crc_residue : N := N.lxor (Nat.iter 32 crc_bit 0xffffffff) 0xffffffff.

Lemma crc32c_residue body : crc32c (body ++ le_bytes 4 (crc32c body)) = crc_residue.
Proof.
  unfold crc32c at 1. rewrite foldl_app, crc_bytes_number, length_le_bytes.
  rewrite le_number_le_bytes by apply crc32c_lt. unfold crc32c.
  by rewrite <-N.lxor_assoc, N.lxor_nilpotent, N.lxor_0_l.
Qed.

(** A change confined to four consecutive bytes changes the register for good:
    the bytes after it act on the register injectively. *)
Lemma crc32c_burst before a b after :
  length a = length b → (length a <= 4)%nat → a ≠ b →
  crc32c (before ++ a ++ after) ≠ crc32c (before ++ b ++ after).
Proof.
  intros Hl H4 Hne E. apply Hne, le_number_inj; [done|].
  unfold crc32c in E. rewrite !foldl_app in E.
  apply (f_equal (λ x, N.lxor x 0xffffffff)) in E.
  rewrite !N.lxor_assoc, N.lxor_nilpotent, !N.lxor_0_r in E.
  set (start := foldl crc_byte _ before) in *.
  assert (start < 2 ^ 32) as Hs by by apply crc_bytes_lt.
  apply crc_bytes_inj in E; [|by apply crc_bytes_lt..].
  rewrite !crc_bytes_number, Hl in E.
  apply crc_iter_inj in E; [|by apply lxor_lt_pow2, le_number_lt; try lia..].
  apply (f_equal (N.lxor start)) in E.
  by rewrite <-!N.lxor_assoc, N.lxor_nilpotent, !N.lxor_0_l in E.
Qed.

(** * Properties *)

(** Burst errors: two messages of the same length that differ only inside
    one window of at most four consecutive bytes (any burst of up to 32 bits
    on byte boundaries, in particular any single corrupted byte) always have
    different checksums. *)
Theorem crc32c_detects_bursts (before a b after : list byte) :
  length a = length b → (length a <= 4)%nat → a ≠ b →
  crc32c (before ++ a ++ after) ≠ crc32c (before ++ b ++ after).
Proof. apply crc32c_burst. Qed.

Lemma crc32c_detects_bursts_witness :
  length [x01; x02] = length [x02; x01] ∧
  crc32c ([x4c; x42] ++ [x01; x02] ++ [x00]) ≠ crc32c ([x4c; x42] ++ [x02; x01] ++ [x00]).
Proof.
  split; [done|]. apply (crc32c_detects_bursts [x4c; x42] [x01; x02] [x02; x01] [x00]);
    [done|cbn; lia|done].
Defined.
