(* ===== verification/FileFormat.v ===== *)
(** * The event-log file format
    (src/events/FileEventStoreFormat.cpp and .hpp)

    A file is a header followed by batches of records.  [encode_header] and
    [encode_batch] write them, [decode_header] and [scan_batches] read them
    back; the scanner separates a damaged final batch, which recovery may cut
    off, from damage inside the log. *)
From S2P Require Import Prelude OrderedMap Values ValueCodec Effects Events Crc32c.

Definition fileMagic : list byte := [x4c; x49; x51; x45; x56; x54; x31; x00].
Definition batchMagic : list byte := [x4c; x42; x41; x54].
Definition batchFormatVersion : N := 1.
Definition batchPrefixBytes : N := 32.
Definition batchTrailerBytes : N := 4.

Definition append_u16 (output : list byte) (v : N) : list byte := append_le 2 output v.
Definition append_u32 (output : list byte) (v : N) : list byte := append_le 4 output v.
Definition append_u64 (output : list byte) (v : N) : list byte := append_le 8 output v.

(** [bytes.subspan(start, count)] *)
Definition subspan (bytes : list byte) (start count : N) : list byte :=
  take (N.to_nat count) (drop (N.to_nat start) bytes).

(** ** [class ByteReader]: [remaining] is [bytes] from [cursor] to [boundary]. *)
Record ByteReader := MkReader { remaining : list byte; cursor : N }.

Definition make_reader (input : list byte) (start stop : N) : res ByteReader :=
  reject_if ((stop <? start) || (len input <? stop)) EventStoreError
    "invalid binary event-store bounds";;
  Ok (MkReader (subspan input start (stop - start)) start).

Definition reader_require (count : N) : stm ByteReader unit := λ r,
  (reject_if (len (remaining r) <? count) EventStoreError
     "truncated binary event-store field", r).

Definition reader_advance (count : N) : stm ByteReader (list byte) := λ r,
  (Ok (take (N.to_nat count) (remaining r)),
   MkReader (drop (N.to_nat count) (remaining r)) (cursor r + count)).

Definition reader_take (count : N) : stm ByteReader (list byte) :=
  reader_require count;; reader_advance count.

Definition reader_u8 : stm ByteReader N := bs ← reader_take 1; mret (read_le bs).
Definition reader_u16 : stm ByteReader N := bs ← reader_take 2; mret (read_le bs).
Definition reader_u32 : stm ByteReader N := bs ← reader_take 4; mret (read_le bs).
Definition reader_u64 : stm ByteReader N := bs ← reader_take 8; mret (read_le bs).
Definition reader_position : stm ByteReader N := λ r, (Ok (cursor r), r).

(** Runs a block of reads; the reader is local to the block. *)
Definition with_reader {A} (r : res ByteReader) (m : stm ByteReader A) : res A :=
  r ≫= λ r, (m r).1.

(** ** [has_batch_magic_after] *)

Fixpoint is_prefix (p l : list byte) : bool :=
  match p, l with
  | [], _ => true
  | x :: p, y :: l => bool_decide (x = y) && is_prefix p l
  | _ :: _, [] => false
  end.

(** [std::search] for the batch magic from [position]; [rest] is [bytes] from
    there on. *)
Fixpoint search_magic (rest : list byte) (position : N) : option N :=
  match rest with
  | [] => None
  | _ :: rest' =>
      if is_prefix batchMagic rest then Some position
      else search_magic rest' (position + 1)
  end.

(** The body of the [try] block: whether a whole batch starts at [candidate]. *)
Definition batch_at (bytes : list byte) (candidate : N) : res bool :=
  '(version, flags, payloadBytes, recordCount) ←
    with_reader (make_reader bytes (candidate + len batchMagic) (len bytes)) (
      version ← reader_u16;
      if negb (version =? batchFormatVersion) then mret (version, 0, 0, 0)
      else flags ← reader_u16;
      if negb (flags =? 0) then mret (version, flags, 0, 0)
      else payloadBytes ← reader_u32;
      recordCount ← reader_u32;
      reader_u64;;
      reader_u64;;
      mret (version, flags, payloadBytes, recordCount));
  if negb (version =? batchFormatVersion) || negb (flags =? 0) then Ok false
  else if (recordCount =? 0) || (EventLimits.maxRecordsPerBatch <? recordCount) ||
    (EventLimits.maxBatchBytes - batchPrefixBytes - batchTrailerBytes <? payloadBytes)
  then Ok false
  else let batchBytes := batchPrefixBytes + payloadBytes + batchTrailerBytes in
  if len bytes - candidate <? batchBytes then Ok false
  else
    stored ← with_reader (make_reader bytes (candidate + batchBytes - 4)
                            (candidate + batchBytes)) reader_u32;
    Ok (stored =? crc32c (subspan bytes candidate (batchBytes - 4))).

(** The loop; an [EventStoreError] inside the block moves on to the next
    candidate, as [continue] does.  Each turn consumes at least one byte. *)
Fixpoint magic_loop (fuel : nat) (bytes : list byte) (position : N) : bool :=
  match fuel with
  | O => false
  | S fuel =>
      if position <? len bytes then
        match search_magic (drop (N.to_nat position) bytes) position with
        | None => false
        | Some candidate =>
            if len bytes - candidate <? batchPrefixBytes + batchTrailerBytes
            then magic_loop fuel bytes (candidate + 1)
            else match batch_at bytes candidate with
            | Ok true => true
            | _ => magic_loop fuel bytes (candidate + 1)
            end
        end
      else false
  end.

Definition has_batch_magic_after (bytes : list byte) (position : N) : bool :=
  magic_loop (length bytes) bytes position.

Definition decode_event_payload (encoded : list byte) : res value :=
  rethrow_as_store_error "invalid encoded event payload: " (decode_value encoded).

(** ** The header *)

Definition timing_number (t : FeedbackTiming) : N :=
  match t with Deferred => 0 | Immediate => 1 end.

Definition encode_header (m : EventStoreMetadata) : res (list byte) :=
  validate_metadata m;;
  let header := append_u16 fileMagic (fileFormatVersion m) in
  let sizePosition := length header in
  let header := append_u16 header 0 in
  let header := append_u64 header (session m) in
  let header := header ++ [byte_trunc (timing_number (feedbackTiming m))] in
  let header := header ++ repeat x00 3 in
  let header := append_u64 header (fileGeneration m) in
  let header := append_u16 header (wrap 16 (slen (engineVersion m))) in
  let header := header ++ list_byte_of_string (engineVersion m) in
  let totalSize := len header + 4 in
  reject_if (u16_max <? totalSize) EventStoreError
    "event-store header limit exceeded";;
  let encodedSize := wrap 16 totalSize in
  let header := <[sizePosition := byte_trunc encodedSize]> header in
  let header := <[(sizePosition + 1)%nat := byte_trunc (N.shiftr encodedSize 8)]> header in
  Ok (append_u32 header (crc32c header)).

(** [struct ParsedHeader] *)
Definition ParsedHeader : Type := EventStoreMetadata * N.

(** The fields behind the magic. *)
Definition decode_fields (bytes : list byte) : stm ByteReader ParsedHeader :=
  fileFormatVersion ← reader_u16;
  headerBytes ← reader_u16;
  sreject_if (negb (fileFormatVersion =? currentFileFormatVersion)) EventStoreError
    "unsupported event-store file format version";;
  sreject_if ((headerBytes <? 39) || (len bytes <? headerBytes)) EventStoreError
    "invalid event-store header size";;
  session ← reader_u64;
  sreject_if (negb (valid session)) EventStoreError
    "invalid session ID in event-store header";;
  timing ← reader_u8;
  sreject_if (1 <? timing) EventStoreError
    "invalid feedback timing in event-store header";;
  let feedbackTiming := if timing =? 0 then Deferred else Immediate in
  reader_take 3;;
  fileGeneration ← reader_u64;
  sreject_if (fileGeneration =? 0) EventStoreError "invalid file generation";;
  engineBytes ← reader_u16;
  position ← reader_position;
  sreject_if ((engineBytes =? 0) ||
              (EventLimits.maxEngineVersionBytes <? engineBytes) ||
              negb (position + engineBytes + 4 =? headerBytes)) EventStoreError
    "invalid engine version in event-store header";;
  engine ← reader_take engineBytes;
  let engineVersion := string_of_list_byte engine in
  expectedCrc ← reader_u32;
  let actualCrc := crc32c (subspan bytes 0 (headerBytes - 4)) in
  sreject_if (negb (expectedCrc =? actualCrc)) EventStoreError
    "event-store header checksum mismatch";;
  let metadata := MkMetadata session engineVersion feedbackTiming fileGeneration
                    fileFormatVersion in
  slift (validate_metadata metadata);;
  mret (metadata, headerBytes).

Definition decode_header (bytes : list byte) : res ParsedHeader :=
  reject_if (len bytes <? 39) EventStoreError "truncated event-store header";;
  reject_if (negb (bool_decide (take (length fileMagic) bytes = fileMagic)))
    EventStoreError "invalid event-store magic";;
  with_reader (make_reader bytes (len fileMagic) (len bytes)) (decode_fields bytes).

(** ** Batches *)

(** The loop body of [encode_batch]. *)
Definition encode_record (payloadBytes : list byte) (r : EventRecord) : res (list byte) :=
  encodedValue ← encode_value (payload r);
  reject_if (EventLimits.maxRecordPayloadBytes <? len encodedValue) EventStoreError
    "event record payload limit exceeded";;
  let out := append_u16 payloadBytes (type r) in
  let out := append_u16 out (version r) in
  let out := append_u32 out (wrap 32 (len encodedValue)) in
  Ok (out ++ encodedValue).

Definition first_sequence (rs : list EventRecord) : RecordId :=
  match rs with r :: _ => sequence r | [] => 0 end.
Definition last_sequence (rs : list EventRecord) : RecordId :=
  match last rs with Some r => sequence r | None => 0 end.

Definition encode_batch (rs : list EventRecord) : res (list byte) :=
  reject_if ((len rs =? 0) || (EventLimits.maxRecordsPerBatch <? len rs))
    EventStoreError "invalid event batch record count";;
  payloadBytes ← rfold encode_record rs [];
  let totalSize := batchPrefixBytes + len payloadBytes + batchTrailerBytes in
  reject_if ((EventLimits.maxBatchBytes <? totalSize) ||
             (u32_max <? len payloadBytes)) EventStoreError
    "event batch size limit exceeded";;
  let batch := append_u16 batchMagic batchFormatVersion in
  let batch := append_u16 batch 0 in
  let batch := append_u32 batch (wrap 32 (len payloadBytes)) in
  let batch := append_u32 batch (wrap 32 (len rs)) in
  let batch := append_u64 batch (first_sequence rs) in
  let batch := append_u64 batch (last_sequence rs) in
  let batch := batch ++ payloadBytes in
  Ok (append_u32 batch (crc32c batch)).

(** ** Scanning *)

Record ScanResult := MkScan {
  records : list EventRecord;
  validBytes : N;
  invalidTailBytes : N
}.

(** The loop body over the records of a batch; [decoded] and the record's
    [index] in it are the accumulator. *)
Definition scan_record (firstSequence : RecordId) (decoded : list EventRecord)
  : stm ByteReader (list EventRecord) :=
  type ← reader_u16;
  version ← reader_u16;
  encodedBytes ← reader_u32;
  sreject_if (unknown_type type) EventStoreError "unknown event record type";;
  sreject_if (negb (version =? 1)) EventStoreError
    "unsupported event record version";;
  sreject_if (EventLimits.maxRecordPayloadBytes <? encodedBytes) EventStoreError
    "event record payload limit exceeded";;
  encoded ← reader_take encodedBytes;
  payload ← slift (decode_event_payload encoded);
  slift (if type =? EventType.Checkpoint
         then validate_checkpoint_projection payload else Ok tt);;
  mret (decoded ++
    [MkEventRecord (firstSequence + len decoded) type version payload]).

Definition batch_prefix : stm ByteReader (N * N * N * N * N * N) :=
  formatVersion ← reader_u16;
  flags ← reader_u16;
  payloadBytes ← reader_u32;
  recordCount ← reader_u32;
  firstSequence ← reader_u64;
  lastSequence ← reader_u64;
  mret (formatVersion, flags, payloadBytes, recordCount, firstSequence, lastSequence).

(** The first half of the [try] block of [scan_batches]: the framing of the
    batch at [position], up to and with its checksum.  Returns the payload
    size, the record count and the sequence range. *)
Definition scan_frame (bytes : list byte) (position : N) : res (N * N * N * N) :=
  reject_if (len bytes - position <? batchPrefixBytes + batchTrailerBytes)
    RecoverableTailError "truncated final event batch";;
  reject_if (negb (bool_decide (subspan bytes position (len batchMagic) = batchMagic)))
    RecoverableTailError "invalid event batch magic";;
  '(formatVersion, flags, payloadBytes, recordCount, firstSequence, lastSequence) ←
    with_reader (make_reader bytes (position + len batchMagic) (len bytes)) batch_prefix;
  reject_if (negb (formatVersion =? batchFormatVersion) || negb (flags =? 0))
    EventStoreError "unsupported event batch version or flags";;
  reject_if ((recordCount =? 0) || (EventLimits.maxRecordsPerBatch <? recordCount))
    EventStoreError "invalid event batch record count";;
  reject_if (EventLimits.maxBatchBytes - batchPrefixBytes - batchTrailerBytes
             <? payloadBytes) EventStoreError "event batch size limit exceeded";;
  let batchBytes := batchPrefixBytes + payloadBytes + batchTrailerBytes in
  reject_if (len bytes - position <? batchBytes) RecoverableTailError
    "truncated final event batch";;
  let batchEnd := position + batchBytes in
  expectedCrc ← with_reader (make_reader bytes (batchEnd - 4) batchEnd) reader_u32;
  let actualCrc := crc32c (subspan bytes position (batchBytes - 4)) in
  reject_if (negb (expectedCrc =? actualCrc)) RecoverableTailError
    "event batch checksum mismatch";;
  Ok (payloadBytes, recordCount, firstSequence, lastSequence).

(** The whole [try] block: the records of the batch at [position], the position
    after it and the sequence number expected next.  [recordsRead] is the
    number of records read before. *)
Definition scan_batch (bytes : list byte) (position expectedSequence recordsRead : N)
  : res (list EventRecord * N * N) :=
  '(payloadBytes, recordCount, firstSequence, lastSequence) ←
    scan_frame bytes position;
  let batchEnd := position + (batchPrefixBytes + payloadBytes + batchTrailerBytes) in
  reject_if (negb (valid firstSequence) ||
             (u64_max - firstSequence <? recordCount - 1) ||
             negb (lastSequence =? firstSequence + recordCount - 1)) EventStoreError
    "invalid event batch sequence range";;
  reject_if (valid expectedSequence && negb (firstSequence =? expectedSequence))
    EventStoreError "event record sequence gap";;
  let payloadEnd := position + batchPrefixBytes + payloadBytes in
  decoded ← with_reader (make_reader bytes (position + batchPrefixBytes) payloadEnd) (
    decoded ← srepeat (N.to_nat recordCount) (scan_record firstSequence) [];
    end_ ← reader_position;
    sreject_if (negb (end_ =? payloadEnd)) EventStoreError
      "event batch has trailing payload bytes";;
    mret decoded);
  reject_if (EventLimits.maxRecordsRead - recordsRead <? len decoded) EventStoreError
    "event-store record count limit exceeded";;
  let expectedSequence := if lastSequence =? u64_max then 0 else lastSequence + 1 in
  reject_if (negb (valid expectedSequence) && negb (batchEnd =? len bytes))
    EventStoreError "records follow exhausted event sequence";;
  Ok (decoded, batchEnd, expectedSequence).

(** [while (position < bytes.size())]; [validBytes] follows [position]. *)
Fixpoint scan_loop (fuel : nat) (bytes : list byte) (position expectedSequence : N)
    (result : ScanResult) : res ScanResult :=
  match fuel with
  | O => throw fuel_exhausted ""
  | S fuel =>
      if position <? len bytes then
        match scan_batch bytes position expectedSequence (len (records result)) with
        | Ok (decoded, batchEnd, expectedSequence) =>
            scan_loop fuel bytes batchEnd expectedSequence
              (MkScan (records result ++ decoded) batchEnd (invalidTailBytes result))
        | Err e =>
            if decide (exn_kind e = RecoverableTailError) then
              if has_batch_magic_after bytes (position + 1)
              then throw EventStoreError "mid-file event-store corruption"
              else Ok (MkScan (records result) (validBytes result)
                         (len bytes - position))
            else Err e
        end
      else Ok result
  end.

Definition scan_batches (bytes : list byte) (position : N) : res ScanResult :=
  scan_loop (S (length bytes)) bytes position 0 (MkScan [] position 0).

#[global] Arguments is_prefix : simpl never.
#[global] Arguments subspan : simpl never.

(** * Lemmas *)

#[local] Opaque decode_value.

(** ** Reading what was written *)

Lemma to_nat_len {A} (l : list A) : N.to_nat (len l) = length l.
Proof. unfold len. by rewrite Nnat.Nat2N.id. Qed.

Lemma subspan_mid a b c n :
  n = len b → subspan (a ++ b ++ c) (len a) n = b.
Proof.
  intros ->. unfold subspan. rewrite !to_nat_len, drop_app_length.
  by rewrite take_app_length.
Qed.

Lemma subspan_end a b n : n = len b → subspan (a ++ b) (len a) n = b.
Proof. intros ->. rewrite <-(app_nil_r b) at 1. by apply subspan_mid. Qed.

Lemma with_reader_mid {A} a b c stop (m : stm ByteReader A) :
  stop = len a + len b →
  with_reader (make_reader (a ++ b ++ c) (len a) stop) m =
  (m (MkReader b (len a))).1.
Proof.
  intros ->. unfold with_reader, make_reader, reject_if.
  assert ((len a + len b <? len a) || (len (a ++ b ++ c) <? len a + len b) = false) as ->
    by (rewrite !len_app; lia).
  cbn [mbind res_bind]. rewrite subspan_mid by lia. done.
Qed.

Lemma with_reader_end {A} a b stop (m : stm ByteReader A) :
  stop = len a + len b →
  with_reader (make_reader (a ++ b) (len a) stop) m = (m (MkReader b (len a))).1.
Proof. intros. rewrite <-(app_nil_r b) at 1. by apply with_reader_mid. Qed.

Lemma reader_take_app n bs r c :
  n = len bs → reader_take n (MkReader (bs ++ r) c) = (Ok bs, MkReader r (c + n)).
Proof.
  intros ->. unfold reader_take, reader_require, reader_advance, reject_if.
  unfold mbind, stm_bind. cbn [remaining cursor].
  rewrite (proj2 (N.ltb_ge _ _)) by (rewrite len_app; lia).
  by rewrite to_nat_len, take_app_length, drop_app_length.
Qed.

Lemma reader_take_short n r : len (remaining r) < n →
  ∃ e, exn_kind e = EventStoreError ∧ reader_take n r = (Err e, r).
Proof.
  intros H. unfold reader_take, reader_require, mbind, stm_bind, reject_if.
  rewrite (proj2 (N.ltb_lt _ _)) by done.
  eexists (Exn EventStoreError _). by split.
Qed.

Lemma reader_le k n r c :
  n < 256 ^ N.of_nat k →
  (bs ← reader_take (N.of_nat k); (mret (read_le bs) : stm ByteReader N))
    (MkReader (le_bytes k n ++ r) c) = (Ok n, MkReader r (c + N.of_nat k)).
Proof.
  intros H. erewrite stm_bind_eq by (by apply reader_take_app; rewrite len_le_bytes).
  by rewrite read_le_bytes.
Qed.

Lemma reader_u16_le n r c :
  n < 65536 → reader_u16 (MkReader (le_bytes 2 n ++ r) c) = (Ok n, MkReader r (c + 2)).
Proof. apply (reader_le 2). Qed.
Lemma reader_u32_le n r c :
  n < 2 ^ 32 → reader_u32 (MkReader (le_bytes 4 n ++ r) c) = (Ok n, MkReader r (c + 4)).
Proof. apply (reader_le 4). Qed.
Lemma reader_u64_le n r c :
  n < 2 ^ 64 → reader_u64 (MkReader (le_bytes 8 n ++ r) c) = (Ok n, MkReader r (c + 8)).
Proof. apply (reader_le 8). Qed.

(** ** The bytes of a batch *)

(** A record the stores accept: a valid event whose payload is a [Value]. *)
Definition storable (r : EventRecord) : Prop :=
  validate_event (event_of r) = Ok tt ∧ well_typed (payload r) = true.

Definition record_bytes (r : EventRecord) : list byte :=
  le_bytes 2 (type r) ++ le_bytes 2 (version r) ++
  le_bytes 4 (len (enc (payload r))) ++ enc (payload r).

Definition batch_payload (rs : list EventRecord) : list byte := concat (record_bytes <$> rs).

Definition batch_head (payloadBytes recordCount first last : N) : list byte :=
  batchMagic ++ le_bytes 2 batchFormatVersion ++ le_bytes 2 0 ++
  le_bytes 4 payloadBytes ++ le_bytes 4 recordCount ++
  le_bytes 8 first ++ le_bytes 8 last.

Definition batch_body (rs : list EventRecord) : list byte :=
  batch_head (len (batch_payload rs)) (len rs) (first_sequence rs) (last_sequence rs) ++
  batch_payload rs.

Definition with_checksum (body : list byte) : list byte :=
  body ++ le_bytes 4 (crc32c body).

Lemma wrap_small w n : n < 2 ^ w → wrap w n = n.
Proof. apply N.mod_small. Qed.

Lemma storable_facts r : storable r →
  unknown_type (type r) = false ∧ version r = 1 ∧ type r < 65536 ∧
  within_limits (payload r) = true ∧
  len (enc (payload r)) <= EventLimits.maxRecordPayloadBytes ∧
  len (enc (payload r)) < 2 ^ 32.
Proof.
  intros [(Ht & Hv & _ & Hw & Hl)%validate_event_ok _]. cbn in *.
  assert (EventLimits.maxRecordPayloadBytes < 2 ^ 32) by done.
  apply unknown_type_false in Ht as Ht'. split_and!; try done; lia.
Qed.

Lemma encode_record_ok r out :
  storable r → encode_record out r = Ok (out ++ record_bytes r).
Proof.
  intros Hs. destruct (storable_facts r Hs) as (Ht & Hv & Ht' & Hw & Hl & Hl').
  unfold encode_record. rewrite (proj2 (encode_value_ok _ _) (conj Hw eq_refl)).
  cbn [mbind res_bind]. apply guard_ok. split; [by apply N.ltb_ge|].
  unfold append_u16, append_u32. rewrite !append_le_spec, wrap_small by done.
  unfold record_bytes. by rewrite <-!app_assoc.
Qed.

Lemma encode_records_ok rs out :
  Forall storable rs → rfold encode_record rs out = Ok (out ++ batch_payload rs).
Proof.
  intros H. revert out. induction H as [|r rs Hr _ IH]; intros out; cbn [rfold].
  { unfold batch_payload. cbn. by rewrite app_nil_r. }
  rewrite encode_record_ok by done. cbn [mbind res_bind]. rewrite IH.
  unfold batch_payload. cbn. by rewrite <-app_assoc.
Qed.

(** The conditions under which a batch can be written. *)
Definition batch_fits (rs : list EventRecord) : Prop :=
  Forall storable rs ∧ 1 <= len rs <= EventLimits.maxRecordsPerBatch ∧
  batchPrefixBytes + len (batch_payload rs) + batchTrailerBytes <=
    EventLimits.maxBatchBytes.

Lemma batch_fits_u32 rs : batch_fits rs →
  len (batch_payload rs) < 2 ^ 32 ∧ len rs < 2 ^ 32 ∧
  (EventLimits.maxBatchBytes - batchPrefixBytes - batchTrailerBytes <?
    len (batch_payload rs)) = false.
Proof.
  intros (_ & ? & ?).
  change batchPrefixBytes with 32 in *. change batchTrailerBytes with 4 in *.
  change EventLimits.maxBatchBytes with 16777216 in *.
  change EventLimits.maxRecordsPerBatch with 4096 in *.
  split_and!; [lia..|]. apply N.ltb_ge. lia.
Qed.

Lemma encode_batch_ok rs :
  batch_fits rs → encode_batch rs = Ok (with_checksum (batch_body rs)).
Proof.
  intros Hf. destruct (batch_fits_u32 rs Hf) as (Hp & Hn & _).
  destruct Hf as (Hs & Hlen & Hsize). unfold encode_batch.
  rewrite guard_ok. split; [lia|]. rewrite encode_records_ok by done.
  cbn [mbind res_bind app]. rewrite guard_ok. split.
  { change u32_max with (2 ^ 32 - 1). lia. }
  unfold append_u16, append_u32, append_u64, with_checksum, batch_body, batch_head.
  rewrite !wrap_small, !append_le_spec by done. by rewrite <-!app_assoc.
Qed.

Lemma encode_batch_inv rs bs :
  Forall storable rs → encode_batch rs = Ok bs → batch_fits rs ∧
  bs = with_checksum (batch_body rs).
Proof.
  intros Hs H. assert (batch_fits rs) as Hf.
  { unfold encode_batch in H. rewrite encode_records_ok in H by done.
    apply guard_ok in H as [H1 H]. cbn [mbind res_bind app] in H.
    apply guard_ok in H as [H2 H]. split; [done|]. lia. }
  split; [done|]. rewrite encode_batch_ok in H by done. by simplify_eq.
Qed.

(** ** Scanning what was written *)

Lemma len_record_bytes r : len (record_bytes r) = 8 + len (enc (payload r)).
Proof. unfold record_bytes. len_simpl. lia. Qed.

(** One read step of a block over a known prefix. *)
Ltac reader_step lem := erewrite stm_bind_eq by (apply lem; first [done|lia]).
Ltac pass_check := erewrite stm_bind_eq
  by (apply (sreject_if_ok _ _ _ _ _ tt);
      split; [first [lia | unfold valid; lia | unfold currentFileFormatVersion; lia]|done]).

Lemma scan_record_ok first decoded r q c :
  storable r → sequence r = first + len decoded →
  scan_record first decoded (MkReader (record_bytes r ++ q) c) =
  (Ok (decoded ++ [r]), MkReader q (c + len (record_bytes r))).
Proof.
  intros Hs Hseq. destruct (storable_facts r Hs) as (Ht & Hv & Ht' & Hw & Hl & Hl').
  destruct Hs as [Hev Hty].
  unfold scan_record. rewrite len_record_bytes. unfold record_bytes.
  rewrite <-!app_assoc, Hv.
  reader_step reader_u16_le. reader_step reader_u16_le. reader_step reader_u32_le.
  erewrite stm_bind_eq by (by rewrite Ht). pass_check. pass_check.
  reader_step reader_take_app.
  unfold decode_event_payload. rewrite decode_value_enc by done.
  erewrite stm_bind_eq by done.
  assert ((if type r =? EventType.Checkpoint
           then validate_checkpoint_projection (payload r) else Ok ()) = Ok tt) as ->.
  { destruct (N.eqb_spec (type r) EventType.Checkpoint) as [E|]; [|done].
    apply validate_event_ok in Hev as (_ & _ & Hcp & _).
    apply validate_checkpoint_projection_ok. by apply Hcp. }
  erewrite stm_bind_eq by done. unfold mret, stm_ret. rewrite <-Hseq.
  destruct r as [s t v p]; cbn in *. subst v. do 2 f_equal; lia.
Qed.

Lemma scan_records_ok first rs decoded q c :
  Forall storable rs → consecutive (first + len decoded) rs →
  srepeat (length rs) (scan_record first) decoded
    (MkReader (batch_payload rs ++ q) c) =
  (Ok (decoded ++ rs), MkReader q (c + len (batch_payload rs))).
Proof.
  intros H. revert decoded c. induction H as [|r rs Hr _ IH]; intros decoded c Hc.
  { cbn. change (len []) with 0. by rewrite app_nil_r, N.add_0_r. }
  cbn [length srepeat]. destruct Hc as [Hseq Hc]. unfold batch_payload.
  cbn [fmap list_fmap concat]. rewrite <-app_assoc.
  erewrite stm_bind_eq by (by apply scan_record_ok).
  rewrite (IH (decoded ++ [r])).
  - rewrite <-app_assoc. cbn. do 2 f_equal. rewrite len_app. fold (batch_payload rs).
    unfold batch_payload. lia.
  - rewrite len_app, len_cons, len_nil.
    by replace (first + (len decoded + (1 + 0))) with (first + len decoded + 1) by lia.
Qed.

Lemma batch_prefix_ok p n f l q c :
  p < 2 ^ 32 → n < 2 ^ 32 → f < 2 ^ 64 → l < 2 ^ 64 →
  batch_prefix (MkReader (le_bytes 2 batchFormatVersion ++ le_bytes 2 0 ++
    le_bytes 4 p ++ le_bytes 4 n ++ le_bytes 8 f ++ le_bytes 8 l ++ q) c) =
  (Ok (1, 0, p, n, f, l), MkReader q (c + 28)).
Proof.
  intros. unfold batch_prefix.
  do 2 reader_step reader_u16_le. do 2 reader_step reader_u32_le.
  do 2 reader_step reader_u64_le. unfold mret, stm_ret. do 2 f_equal. lia.
Qed.

Lemma len_batch_head p n f l : len (batch_head p n f l) = 32.
Proof. unfold batch_head. len_simpl. reflexivity. Qed.

Lemma consecutive_first f rs : rs ≠ [] → consecutive f rs → first_sequence rs = f.
Proof. destruct rs; [done|]. by intros _ [<- _]. Qed.

Lemma consecutive_last f rs :
  rs ≠ [] → consecutive f rs → last_sequence rs = f + len rs - 1.
Proof.
  intros Hne Hc. unfold last_sequence. destruct (last rs) as [r|] eqn:E.
  - rewrite last_lookup in E. rewrite (consecutive_lookup _ _ _ _ Hc E).
    destruct rs; [done|]. unfold len. cbn [length]. lia.
  - by apply last_None in E.
Qed.

(** The number expected after a batch that ends at [last]. *)
Definition next_expected (last : N) : N := if last =? u64_max then 0 else last + 1.

(** Reading a batch head, whatever follows it. *)
Section Head.
Context (pre : list byte) (p n f l : N) (q : list byte).
Context (Hp : p < 2 ^ 32) (Hn : n < 2 ^ 32) (Hf : f < 2 ^ 64) (Hl : l < 2 ^ 64).
Let bytes := pre ++ batch_head p n f l ++ q.

Lemma head_magic : subspan bytes (len pre) 4 = batchMagic.
Proof.
  unfold bytes, batch_head. rewrite <-!(app_assoc batchMagic). by apply subspan_mid.
Qed.

Lemma head_prefix :
  with_reader (make_reader bytes (len pre + 4) (len bytes)) batch_prefix =
  Ok (1, 0, p, n, f, l).
Proof.
  unfold bytes, batch_head. rewrite <-!(app_assoc batchMagic), (app_assoc pre).
  change 4 with (len batchMagic). rewrite <-len_app.
  rewrite with_reader_end by (by rewrite len_app).
  rewrite <-!app_assoc, batch_prefix_ok by done. done.
Qed.
End Head.

Section Frame.
Context (pre : list byte) (p n f l : N) (pay : list byte) (crc : N) (post : list byte).
Context (Hp : len pay = p) (Hp' : p <= 16777180) (Hn : 1 <= n <= 4096)
  (Hf : f < 2 ^ 64) (Hl : l < 2 ^ 64) (Hcrc : crc < 2 ^ 32).
Let body := batch_head p n f l ++ pay.
Let bytes := pre ++ body ++ le_bytes 4 crc ++ post.

Lemma frame_len : len bytes = len pre + 36 + p + len post.
Proof. unfold bytes, body. rewrite !len_app, len_batch_head, len_le_bytes. lia. Qed.

Lemma frame_body_len : len body = 32 + p.
Proof. unfold body. rewrite len_app, len_batch_head. lia. Qed.

Lemma frame_magic : subspan bytes (len pre) 4 = batchMagic.
Proof. unfold bytes, body. rewrite <-app_assoc. apply head_magic. Qed.

Lemma frame_prefix :
  with_reader (make_reader bytes (len pre + 4) (len bytes)) batch_prefix =
  Ok (1, 0, p, n, f, l).
Proof. unfold bytes, body. rewrite <-app_assoc. apply head_prefix; lia. Qed.

Lemma frame_checksum stop start :
  start = len pre + 32 + p → stop = start + 4 →
  with_reader (make_reader bytes start stop) reader_u32 = Ok crc.
Proof.
  intros -> ->. unfold bytes. rewrite (app_assoc pre).
  replace (len pre + 32 + p) with (len (pre ++ body))
    by (rewrite len_app, frame_body_len; lia).
  rewrite with_reader_mid by (by rewrite len_le_bytes).
  rewrite <-(app_nil_r (le_bytes 4 crc)), reader_u32_le by done. done.
Qed.

Lemma frame_summed : subspan bytes (len pre) (32 + p) = body.
Proof. apply subspan_mid. by rewrite frame_body_len. Qed.

Lemma frame_payload {A} (m : stm ByteReader A) :
  with_reader (make_reader bytes (len pre + 32) (len pre + 32 + p)) m =
  (m (MkReader pay (len pre + 32))).1.
Proof.
  unfold bytes, body. rewrite <-app_assoc, (app_assoc pre).
  change 32 with (len (batch_head p n f l)). rewrite <-len_app.
  by rewrite with_reader_mid by (by rewrite Hp).
Qed.

(** A framed batch passes the framing checks iff its checksum is right. *)
Lemma scan_frame_ok :
  scan_frame bytes (len pre) =
  if crc =? crc32c body then Ok (p, n, f, l)
  else throw RecoverableTailError "event batch checksum mismatch".
Proof.
  unfold scan_frame. change (len batchMagic) with 4. change batchPrefixBytes with 32.
  change batchTrailerBytes with 4. pose proof frame_len as Hlen.
  rewrite (proj2 (N.ltb_ge _ _)) by lia.
  rewrite frame_magic, bool_decide_eq_true_2 by done. rewrite frame_prefix.
  change (EventLimits.maxBatchBytes - 32 - 4) with 16777180.
  change EventLimits.maxRecordsPerBatch with 4096.
  cbn [negb reject_if mbind res_bind orb].
  rewrite (proj2 (N.eqb_neq n 0)), (proj2 (N.ltb_ge 4096 n)),
    (proj2 (N.ltb_ge 16777180 p)), (proj2 (N.ltb_ge (len bytes - len pre) _)) by lia.
  cbn [orb reject_if mbind res_bind].
  rewrite frame_checksum by lia.
  replace (32 + p + 4 - 4) with (32 + p) by lia.
  rewrite frame_summed. change (1 =? batchFormatVersion) with true.
  change (0 =? 0) with true. cbn [negb orb reject_if mbind res_bind].
  by destruct (crc =? crc32c body).
Qed.
End Frame.

Lemma batch_fits_bounds rs f :
  batch_fits rs → f + len rs - 1 <= u64_max →
  len (batch_payload rs) <= 16777180 ∧ 1 <= len rs <= 4096 ∧
  f < 2 ^ 64 ∧ f + len rs - 1 < 2 ^ 64.
Proof.
  intros (_ & H1 & H2) H3. change batchPrefixBytes with 32 in H2.
  change batchTrailerBytes with 4 in H2. change EventLimits.maxBatchBytes with 16777216 in H2.
  change EventLimits.maxRecordsPerBatch with 4096 in H1.
  change u64_max with (2 ^ 64 - 1) in H3. lia.
Qed.

Lemma scan_batch_ok pre post rs f expected total :
  batch_fits rs → consecutive f rs → f ≠ 0 → f + len rs - 1 <= u64_max →
  (expected = 0 ∨ expected = f) →
  total + len rs <= EventLimits.maxRecordsRead →
  (f + len rs - 1 = u64_max → post = []) →
  scan_batch (pre ++ with_checksum (batch_body rs) ++ post) (len pre) expected total =
  Ok (rs, len pre + len (with_checksum (batch_body rs)), next_expected (f + len rs - 1)).
Proof.
  intros Hfits Hc Hf Hmax Hexp Htotal Hpost.
  destruct (batch_fits_bounds rs f Hfits Hmax) as (Hp & Hn & Hf64 & Hl64).
  destruct Hfits as (Hs & _ & _).
  assert (rs ≠ []) as Hne by (intros ->; rewrite len_nil in Hn; lia).
  unfold with_checksum, batch_body.
  rewrite (consecutive_first f), (consecutive_last f) by done.
  set (l := f + len rs - 1) in *. rewrite <-(app_assoc _ (le_bytes 4 _) post).
  pose proof (crc32c_lt (batch_head (len (batch_payload rs)) (len rs) f l ++
    batch_payload rs)) as Hcrc.
  unfold scan_batch. rewrite (scan_frame_ok pre _ _ _ _ (batch_payload rs) _ post) by done.
  rewrite N.eqb_refl. cbn [mbind res_bind].
  change batchPrefixBytes with 32. change batchTrailerBytes with 4.
  rewrite guard_ok. split; [unfold valid, l in *; lia|].
  rewrite guard_ok. split; [unfold valid; lia|].
  rewrite (frame_payload pre _ _ _ _ (batch_payload rs) _ post) by done.
  rewrite <-(app_nil_r (batch_payload rs)) at 1. rewrite to_nat_len.
  erewrite stm_bind_eq by (by apply scan_records_ok; [|rewrite len_nil, N.add_0_r]).
  erewrite stm_bind_eq by done. cbn [cursor app].
  rewrite N.eqb_refl. cbn [negb]. erewrite stm_bind_eq by done.
  cbn [fst mret stm_ret mbind res_bind].
  rewrite guard_ok. split; [apply N.ltb_ge; lia|].
  fold (next_expected l). rewrite guard_ok. split.
  - unfold next_expected, valid. destruct (N.eqb_spec l u64_max) as [E|]; [|lia].
    assert (len post = 0) by by rewrite (Hpost E).
    rewrite !len_app, len_batch_head, len_le_bytes. lia.
  - rewrite !len_app, len_batch_head, len_le_bytes. do 3 f_equal.
Qed.

(** A batch whose head is complete but whose end is missing. *)
Lemma scan_frame_short pre p n f l q :
  len q < p + 4 → p <= 16777180 → 1 <= n <= 4096 → f < 2 ^ 64 → l < 2 ^ 64 →
  scan_frame (pre ++ batch_head p n f l ++ q) (len pre) =
  throw RecoverableTailError "truncated final event batch".
Proof.
  intros Hq Hp Hn Hf Hl. unfold scan_frame.
  pose proof (head_prefix pre p n f l q ltac:(lia) ltac:(lia) Hf Hl) as Hprefix.
  pose proof (head_magic pre p n f l q) as Hmagic.
  set (bytes := pre ++ _) in *.
  assert (len bytes = len pre + 32 + len q) as Hlen
    by (unfold bytes; rewrite !len_app, len_batch_head; lia).
  change (len batchMagic) with 4. change batchPrefixBytes with 32.
  change batchTrailerBytes with 4.
  destruct (N.ltb_spec (len bytes - len pre) (32 + 4)); [done|].
  rewrite Hmagic, bool_decide_eq_true_2, Hprefix by done.
  change (EventLimits.maxBatchBytes - 32 - 4) with 16777180.
  change EventLimits.maxRecordsPerBatch with 4096.
  cbn [negb reject_if mbind res_bind orb].
  rewrite (proj2 (N.eqb_neq n 0)), (proj2 (N.ltb_ge 4096 n)),
    (proj2 (N.ltb_ge 16777180 p)), (proj2 (N.ltb_lt (len bytes - len pre) _)) by lia.
  done.
Qed.

Lemma scan_frame_tiny pre q :
  len q < 36 → scan_frame (pre ++ q) (len pre) =
  throw RecoverableTailError "truncated final event batch".
Proof.
  intros Hq. unfold scan_frame. rewrite (proj2 (N.ltb_lt _ _)); [done|].
  rewrite len_app. change batchPrefixBytes with 32. change batchTrailerBytes with 4. lia.
Qed.

(** Any proper initial part of an encoded batch is a truncated batch. *)
Lemma scan_frame_torn pre rs f tail missing :
  batch_fits rs → consecutive f rs → f + len rs - 1 <= u64_max →
  with_checksum (batch_body rs) = tail ++ missing → missing ≠ [] →
  scan_frame (pre ++ tail) (len pre) =
  throw RecoverableTailError "truncated final event batch".
Proof.
  intros Hfits Hc Hmax E Hm.
  destruct (batch_fits_bounds rs f Hfits Hmax) as (Hp & Hn & Hf64 & Hl64).
  assert (rs ≠ []) as Hne by (intros ->; rewrite len_nil in Hn; lia).
  destruct (N.lt_ge_cases (len tail) 32) as [Hs|Hs]; [apply scan_frame_tiny; lia|].
  unfold with_checksum, batch_body in E.
  rewrite (consecutive_first f), (consecutive_last f) in E by done.
  rewrite <-!app_assoc in E. set (head := batch_head _ _ _ _) in E at 1.
  assert (tail = head ++ drop 32 tail) as Et.
  { rewrite <-(take_drop 32 tail) at 1. f_equal.
    apply (f_equal (take 32)) in E. rewrite (take_app_le tail) in E by (unfold len in Hs; lia).
    rewrite <-E. change 32%nat with (length head). by rewrite take_app_length. }
  rewrite Et. unfold head. apply scan_frame_short; [|lia..].
  rewrite Et in E. rewrite <-app_assoc in E. apply app_inv_head in E.
  apply (f_equal len) in E. rewrite !len_app, len_le_bytes in E.
  destruct missing; [done|]. rewrite len_cons in E. lia.
Qed.

(** ** Scanning a whole log *)

(** The batches of a log that starts at record [f]: each can be written, the
    records count up through all of them, and no number reaches the maximum. *)
Definition log_ok (f : N) (batches : list (list EventRecord)) : Prop :=
  Forall batch_fits batches ∧ consecutive f (concat batches) ∧ f ≠ 0 ∧
  f + len (concat batches) <= u64_max.

Definition log_bytes (batches : list (list EventRecord)) : list byte :=
  concat ((λ rs, with_checksum (batch_body rs)) <$> batches).

Lemma log_bytes_cons rs batches :
  log_bytes (rs :: batches) = with_checksum (batch_body rs) ++ log_bytes batches.
Proof. done. Qed.

(** What the loop does on the rest of the input, once past [batches]. *)
Lemma scan_loop_log batches : ∀ fuel pre tail f expected result,
  log_ok f batches → (expected = 0 ∨ expected = f) →
  len (records result) + len (concat batches) <= EventLimits.maxRecordsRead →
  validBytes result = len pre →
  let bytes := pre ++ log_bytes batches ++ tail in
  let stop := len pre + len (log_bytes batches) in
  ∃ expected', (expected' = 0 ∨ expected' = f + len (concat batches)) ∧
  scan_loop (length batches + fuel) bytes (len pre) expected result =
  scan_loop fuel bytes stop expected'
    (MkScan (records result ++ concat batches) stop (invalidTailBytes result)).
Proof.
  induction batches as [|rs batches IH]; intros fuel pre tail f expected result
    (Hfits & Hc & Hf & Hmax) Hexp Htotal Hvalid bytes stop.
  { exists expected. split; [change (len (concat [])) with 0; lia|].
    unfold stop. change (log_bytes []) with (@nil byte).
    change (len (@nil byte)) with 0. cbn [concat]. rewrite app_nil_r, N.add_0_r.
    rewrite <-Hvalid. by destruct result. }
  cbn [concat] in *. apply Forall_cons in Hfits as [Hrs Hfits].
  apply consecutive_app in Hc as [Hc Hc']. rewrite len_app in *.
  destruct (batch_fits_bounds rs f Hrs ltac:(lia)) as (_ & Hn & _ & _).
  assert (bytes = pre ++ with_checksum (batch_body rs) ++ (log_bytes batches ++ tail))
    as Hbytes by (unfold bytes, log_bytes; cbn; by rewrite <-app_assoc).
  cbn [length Nat.add scan_loop].
  rewrite (proj2 (N.ltb_lt _ _)).
  2: { rewrite Hbytes, !len_app. unfold with_checksum. rewrite len_app, len_le_bytes. lia. }
  assert (scan_batch bytes (len pre) expected (len (records result)) =
    Ok (rs, len pre + len (with_checksum (batch_body rs)), next_expected (f + len rs - 1)))
    as -> by (rewrite Hbytes; apply scan_batch_ok; done || lia).
  set (pre' := pre ++ with_checksum (batch_body rs)).
  assert (bytes = pre' ++ log_bytes batches ++ tail) as ->
    by (by rewrite Hbytes, app_assoc).
  replace (len pre + len (with_checksum (batch_body rs))) with (len pre')
    by (unfold pre'; by rewrite len_app).
  assert (next_expected (f + len rs - 1) = f + len rs) as ->.
  { unfold next_expected. rewrite (proj2 (N.eqb_neq _ _)) by lia. lia. }
  destruct (IH fuel pre' tail (f + len rs) (f + len rs)
    (MkScan (records result ++ rs) (len pre') (invalidTailBytes result)))
    as (expected' & Hexp' & Heq); try done.
  - split_and!; (done || lia).
  - by right.
  - cbn [records]. rewrite len_app. lia.
  - exists expected'. split; [lia|]. rewrite Heq. cbn [records invalidTailBytes].
    rewrite <-app_assoc. unfold stop, pre', log_bytes. cbn [fmap list_fmap concat].
    rewrite !len_app, <-!N.add_assoc. done.
Qed.

Lemma log_bytes_length batches :
  Forall batch_fits batches → (length batches <= length (log_bytes batches))%nat.
Proof.
  induction 1 as [|rs batches _ _ IH]; [done|].
  rewrite log_bytes_cons, length_app. cbn [length].
  assert (4 <= length (with_checksum (batch_body rs)))%nat; [|lia].
  unfold with_checksum. rewrite length_app, length_le_bytes. lia.
Qed.

Lemma scan_batches_log batches pre tail f :
  log_ok f batches → len (concat batches) <= EventLimits.maxRecordsRead →
  let bytes := pre ++ log_bytes batches ++ tail in
  let stop := len pre + len (log_bytes batches) in
  ∃ fuel expected', (expected' = 0 ∨ expected' = f + len (concat batches)) ∧
  scan_batches bytes (len pre) =
  scan_loop (S fuel) bytes stop expected' (MkScan (concat batches) stop 0).
Proof.
  intros Hlog Htotal. cbn zeta. set (bytes := _ ++ _).
  assert (length batches <= length bytes)%nat as Hlen.
  { unfold bytes. rewrite !length_app.
    pose proof (log_bytes_length batches (proj1 Hlog)). lia. }
  unfold scan_batches.
  replace (S (length bytes)) with (length batches + S (length bytes - length batches))%nat
    by lia.
  exists (length bytes - length batches)%nat.
  destruct (scan_loop_log batches (S (length bytes - length batches)) pre tail f 0
    (MkScan [] (len pre) 0) Hlog) as (e & He & Heq); [by left|by cbn|done|].
  exists e. split; [done|]. exact Heq.
Qed.

(** ** Corrupted batches *)

(** A batch whose head arrived intact and in which some run of at most four
    bytes behind the head was overwritten fails its checksum. *)
Lemma scan_frame_burst pre rs f x a b y :
  batch_fits rs → consecutive f rs → f + len rs - 1 <= u64_max →
  with_checksum (batch_body rs) = x ++ a ++ y →
  length a = length b → (length a <= 4)%nat → a ≠ b → (32 <= length x)%nat →
  scan_frame (pre ++ x ++ b ++ y) (len pre) =
  throw RecoverableTailError "event batch checksum mismatch".
Proof.
  intros Hfits Hc Hmax E Hab H4 Hne Hx.
  destruct (batch_fits_bounds rs f Hfits Hmax) as (Hp & Hn & Hf64 & Hl64).
  assert (rs ≠ []) as Hne' by (intros ->; rewrite len_nil in Hn; lia).
  pose proof (crc32c_residue (batch_body rs)) as Hres. fold (with_checksum (batch_body rs)) in Hres.
  pose proof (crc32c_burst x a b y Hab H4 Hne) as Hcrc. rewrite <-E, Hres in Hcrc.
  assert (length (x ++ b ++ y) = length (with_checksum (batch_body rs))) as Hlen
    by (rewrite E, !length_app; lia).
  unfold with_checksum, batch_body in E, Hlen.
  rewrite (consecutive_first f), (consecutive_last f) in E, Hlen by done.
  set (head := batch_head _ _ _ _) in E, Hlen.
  assert (x ++ b ++ y = head ++ drop 32 (x ++ b ++ y)) as Ehead.
  { rewrite <-(take_drop 32 (x ++ b ++ y)) at 1. f_equal.
    rewrite take_app_le by done. apply (f_equal (take 32)) in E.
    rewrite (take_app_le x) in E by done. rewrite <-E, <-!app_assoc.
    change 32%nat with (length head). by rewrite take_app_length. }
  set (rest := drop 32 (x ++ b ++ y)) in Ehead.
  assert (length rest = length (batch_payload rs) + 4)%nat as Hrest.
  { rewrite Ehead, !length_app, length_le_bytes in Hlen. lia. }
  set (pay := take (length (batch_payload rs)) rest).
  set (stored := drop (length (batch_payload rs)) rest).
  assert (rest = pay ++ stored) as Hsplit by (unfold pay, stored; by rewrite take_drop).
  assert (length pay = length (batch_payload rs)) as Hpay
    by (unfold pay; rewrite length_take; lia).
  assert (stored = le_bytes 4 (le_number stored)) as Hstored.
  { apply le_bytes_le_number. unfold stored. rewrite length_drop. lia. }
  rewrite Ehead, Hsplit in Hcrc |- *.
  replace (pre ++ head ++ pay ++ stored)
    with (pre ++ (head ++ pay) ++ le_bytes 4 (le_number stored) ++ [])
    by (rewrite app_nil_r, <-Hstored; by rewrite <-app_assoc).
  unfold head. rewrite scan_frame_ok; [|unfold len in *; lia|lia|lia|lia|lia|].
  2: { apply le_number_lt. unfold stored. rewrite length_drop. lia. }
  fold head. rewrite (proj2 (N.eqb_neq _ _)); [done|]. intros Eq. apply Hcrc.
  rewrite app_assoc, Hstored, Eq. symmetry. apply crc32c_residue.
Qed.

(** ** Arbitrary input: which exceptions, and what is accepted *)

Definition store_exn (e : exn) : Prop :=
  exn_kind e = EventStoreError ∨ exn_kind e = RecoverableTailError.
Definition throws_store {A} (m : res A) : Prop := ∀ e, m = Err e → store_exn e.
Definition reader_throws_store {A} (m : stm ByteReader A) : Prop :=
  ∀ r, throws_store (m r).1.

Lemma throws_store_bind {A B} (m : res A) (f : A → res B) :
  throws_store m → (∀ a, throws_store (f a)) → throws_store (m ≫= f).
Proof. intros Hm Hf e. destruct m; cbn; [apply Hf|]. intros [= <-]. by apply Hm. Qed.

Lemma throws_store_ok {A} (a : A) : throws_store (Ok a).
Proof. by intros e [=]. Qed.

Lemma throws_store_reject c msg : throws_store (reject_if c EventStoreError msg).
Proof. intros e. unfold reject_if, throw. destruct c; [|done]. intros [= <-]. by left. Qed.
Lemma throws_store_recoverable c msg :
  throws_store (reject_if c RecoverableTailError msg).
Proof. intros e. unfold reject_if, throw. destruct c; [|done]. intros [= <-]. by right. Qed.

Lemma throws_store_rethrow {A} prefix (m : res A) :
  throws_store (rethrow_as_store_error prefix m).
Proof. intros e. destruct m; cbn; [done|]. intros [= <-]. by left. Qed.

Lemma throws_store_rfold {A B} (f : B → A → res B) l b :
  (∀ b a, throws_store (f b a)) → throws_store (rfold f l b).
Proof.
  intros Hf. revert b. induction l as [|x l IH]; intros b; cbn [rfold].
  - apply throws_store_ok.
  - by apply throws_store_bind.
Qed.

Lemma throws_store_field o name : throws_store (checkpoint_field o name).
Proof. intros e. unfold checkpoint_field. destruct sm_find; [done|]. intros [= <-]. by left. Qed.

Lemma reader_throws_bind {A B} (m : stm ByteReader A) (f : A → stm ByteReader B) :
  reader_throws_store m → (∀ a, reader_throws_store (f a)) →
  reader_throws_store (m ≫= f).
Proof.
  intros Hm Hf r e. specialize (Hm r). unfold mbind, stm_bind.
  destruct (m r) as [[a|e'] r']; [apply Hf|]. cbn. intros [= <-]. by apply Hm.
Qed.

Lemma reader_throws_lift {A} (m : res A) : throws_store m → reader_throws_store (slift m).
Proof. intros Hm r e. apply Hm. Qed.

Lemma reader_throws_ret {A} (a : A) : reader_throws_store (mret a).
Proof. intros r e [=]. Qed.

Lemma reader_throws_take n : reader_throws_store (reader_take n).
Proof.
  apply reader_throws_bind; [intros r; apply throws_store_reject|intros _ r e [=]].
Qed.

Lemma reader_throws_srepeat {A} n (step : A → stm ByteReader A) a :
  (∀ a, reader_throws_store (step a)) → reader_throws_store (srepeat n step a).
Proof.
  intros Hs. revert a. induction n as [|n IH]; intros a; cbn.
  - apply reader_throws_ret.
  - by apply reader_throws_bind.
Qed.

Lemma throws_store_with_reader {A} input start stop (m : stm ByteReader A) :
  reader_throws_store m → throws_store (with_reader (make_reader input start stop) m).
Proof.
  intros Hm. apply throws_store_bind; [|intros r; apply Hm].
  apply throws_store_bind; [apply throws_store_reject|intros; apply throws_store_ok].
Qed.

Create HintDb throws.
#[export] Hint Resolve throws_store_ok throws_store_reject throws_store_recoverable
  throws_store_rethrow throws_store_field reader_throws_ret reader_throws_take
  : throws.

(** Decomposes a block into its binds and closes the leaves from the database. *)
Ltac solve_throws :=
  repeat first
  [ solve [auto with throws]
  | apply throws_store_bind; [|intros ?]
  | apply reader_throws_bind; [|intros ?]
  | apply throws_store_with_reader
  | apply reader_throws_lift
  | apply throws_store_rfold; intros ? ?
  | apply reader_throws_srepeat; intros ?
  | progress cbn zeta beta
  | match goal with |- context [match ?x with _ => _ end] => destruct x end
  | intros ? ? [=] ].

(** An accessor behind its kind check. *)
Lemma throws_store_accessor {A} o name (test : value → bool) msg (get : value → res A) :
  (∀ v, test v = false → throws_store (get v)) →
  throws_store (field ← checkpoint_field o name;
    reject_if (test field) EventStoreError msg;; get field).
Proof.
  intros Hget. apply throws_store_bind; [auto with throws|]. intros v.
  unfold reject_if, throw. destruct (test v) eqn:E; cbn; [|by apply Hget].
  intros e [= <-]. by left.
Qed.

Lemma throws_store_checkpoint_fields o name :
  throws_store (checkpoint_unsigned o name) ∧ throws_store (checkpoint_object o name) ∧
  throws_store (checkpoint_array o name).
Proof.
  split_and!; apply throws_store_accessor; intros v.
  - intros (n & ->)%kind_unsigned. apply throws_store_ok.
  - intros (n & ->)%kind_object. apply throws_store_ok.
  - intros (n & ->)%kind_array. apply throws_store_ok.
Qed.

Lemma throws_store_unsigned o name : throws_store (checkpoint_unsigned o name).
Proof. apply throws_store_checkpoint_fields. Qed.
Lemma throws_store_object o name : throws_store (checkpoint_object o name).
Proof. apply throws_store_checkpoint_fields. Qed.
Lemma throws_store_array o name : throws_store (checkpoint_array o name).
Proof. apply throws_store_checkpoint_fields. Qed.
#[export] Hint Resolve throws_store_unsigned throws_store_object throws_store_array : throws.

Lemma throws_store_checkpoint_record v : throws_store (validate_checkpoint_record v).
Proof.
  destruct v; try (intros e [= <-]; by left).
  unfold validate_checkpoint_record. cbn [kind as_object].
  solve_throws.
Qed.
#[export] Hint Resolve throws_store_checkpoint_record : throws.

Lemma throws_store_checkpoint v : throws_store (validate_checkpoint_projection v).
Proof.
  destruct v; try (intros e [= <-]; by left).
  unfold validate_checkpoint_projection, require_object_entries,
    validate_checkpoint_record_array. cbn [kind as_object].
  solve_throws.
Qed.
#[export] Hint Resolve throws_store_checkpoint : throws.

Lemma throws_store_scan_batch bytes position expected total :
  throws_store (scan_batch bytes position expected total).
Proof.
  unfold scan_batch, scan_frame, batch_prefix, scan_record, decode_event_payload,
    reader_u16, reader_u32, reader_u64, sreject_if.
  solve_throws.
Qed.

(** What the scanner guarantees of a record it returns. *)
Definition scanned_ok (r : EventRecord) : Prop :=
  unknown_type (type r) = false ∧ version r = 1 ∧
  well_typed (payload r) = true ∧ within_limits (payload r) = true ∧
  (type r = EventType.Checkpoint →
   ∃ o s p, payload r = VObject o ∧ checkpoint_ok o s p).

Lemma scan_record_inv first decoded r decoded' r' :
  scan_record first decoded r = (Ok decoded', r') →
  ∃ rec, decoded' = decoded ++ [rec] ∧ sequence rec = first + len decoded ∧
         scanned_ok rec.
Proof.
  unfold scan_record. intros H. invert_stm.
  match goal with H : decode_event_payload _ = Ok ?v |- _ =>
    unfold decode_event_payload in H; apply rethrow_ok, decode_value_ok in H as [? ?] end.
  eexists. split; [reflexivity|]. split; [reflexivity|]. unfold scanned_ok.
  cbn [type version payload].
  repeat match goal with H : negb (_ =? _) = false |- _ =>
    apply negb_false_iff, N.eqb_eq in H; subst end.
  split_and!; try assumption; [reflexivity|]. intros ->.
  apply validate_checkpoint_projection_ok.
  match goal with H : (if _ =? _ then _ else _) = Ok ?u |- _ =>
    rewrite N.eqb_refl in H; destruct u; exact H end.
Qed.

Lemma scan_records_inv n first decoded r decoded' r' :
  consecutive first decoded → Forall scanned_ok decoded →
  srepeat n (scan_record first) decoded r = (Ok decoded', r') →
  len decoded' = len decoded + N.of_nat n ∧ consecutive first decoded' ∧
  Forall scanned_ok decoded'.
Proof.
  revert decoded r. induction n as [|n IH]; intros decoded r Hc Hf H; cbn [srepeat] in H.
  { apply stm_ret_ok in H as [-> _]. split_and!; [lia|done..]. }
  apply stm_bind_ok in H as (d & r1 & H1 & H2).
  apply scan_record_inv in H1 as (rec & -> & Hseq & Hok).
  apply IH in H2 as (Hl & ? & ?).
  - split_and!; [|done..]. rewrite Hl, len_app, len_cons, len_nil. lia.
  - apply consecutive_app. by split; [|split].
  - apply Forall_app. auto.
Qed.

Lemma reader_u64_lt r n r' : reader_u64 r = (Ok n, r') → n <= u64_max.
Proof.
  unfold reader_u64, reader_take, reader_require, reader_advance. intros H. invert_stm.
  match goal with H : (_, _) = (Ok _, _) |- _ => injection H as ? ?; subst end.
  assert (∀ m, m < 2 ^ 64 → m <= u64_max) as Hle
    by (intros; change u64_max with (2 ^ 64 - 1); lia).
  apply Hle. apply (read_le_width _ 8). rewrite length_take. lia.
Qed.

Lemma batch_prefix_lt r v fl p n f l r' :
  batch_prefix r = (Ok (v, fl, p, n, f, l), r') → f <= u64_max.
Proof.
  unfold batch_prefix. intros H. invert_stm. simplify_eq. by eapply reader_u64_lt.
Qed.

Lemma scan_frame_inv bytes position p n f l :
  scan_frame bytes position = Ok (p, n, f, l) →
  1 <= n ∧ position + (32 + p + 4) <= len bytes ∧ f <= u64_max.
Proof.
  unfold scan_frame. intros H.
  apply guard_ok in H as [H1 H]. apply guard_ok in H as [_ H].
  apply res_bind_ok in H as (a & Hprefix & H).
  destruct a as [[[[[v fl] p'] n'] f'] l'].
  unfold with_reader in Hprefix. apply res_bind_ok in Hprefix as (r & _ & Hprefix).
  apply stm_fst_ok in Hprefix as (r' & Hf%batch_prefix_lt).
  apply guard_ok in H as [_ H]. apply guard_ok in H as [Hn H].
  apply guard_ok in H as [_ H]. apply guard_ok in H as [Hl H].
  apply res_bind_ok in H as (crc & _ & H). apply guard_ok in H as [_ H].
  injection H as -> -> -> ->. change batchPrefixBytes with 32 in *.
  change batchTrailerBytes with 4 in *. lia.
Qed.

Lemma scan_batch_inv bytes position expected total d stop expected' :
  scan_batch bytes position expected total = Ok (d, stop, expected') →
  ∃ f, consecutive f d ∧ Forall scanned_ok d ∧ 1 <= len d ∧ f ≠ 0 ∧
    f + len d - 1 <= u64_max ∧ (expected = 0 ∨ expected = f) ∧
    expected' = next_expected (f + len d - 1) ∧
    position + 36 <= stop ∧ stop <= len bytes ∧
    (expected' = 0 → stop = len bytes) ∧ total + len d <= N.max total EventLimits.maxRecordsRead.
Proof.
  unfold scan_batch. intros H. apply res_bind_ok in H as ([[[p n] f] l] & Hframe & H).
  apply scan_frame_inv in Hframe as (Hn & Hpos & Hf64).
  change batchPrefixBytes with 32 in *. change batchTrailerBytes with 4 in *.
  apply guard_ok in H as [Hrange H]. apply guard_ok in H as [Hexp H].
  apply res_bind_ok in H as (d' & Hread & H).
  apply guard_ok in H as [Htotal H]. apply guard_ok in H as [Hend H].
  injection H as -> <- <-. exists f.
  unfold with_reader in Hread. apply res_bind_ok in Hread as (r & _ & Hread).
  apply stm_fst_ok in Hread as (r' & Hread).
  apply stm_bind_ok in Hread as (d'' & r1 & E & Hread).
  apply stm_bind_ok in Hread as (e & r2 & _ & Hread).
  apply stm_bind_ok in Hread as (u & r3 & _ & Hread).
  apply stm_ret_ok in Hread as [-> _].
  apply scan_records_inv in E as (Hlen & Hc & Hok); [|done|constructor].
  rewrite len_nil, Nnat.N2Nat.id, N.add_0_l in Hlen. rewrite Hlen in *.
  unfold valid in *. fold (next_expected l).
  assert (l = f + n - 1) as -> by lia.
  split_and!; try done; try lia.
  unfold next_expected. destruct (N.eqb_spec (f + n - 1) u64_max); lia.
Qed.

(** The loop's invariant on what was read so far: the records count up from
    some valid number, each is well formed, the scan stands at the end of the
    last valid batch and knows the number to expect next. *)
Definition scan_state_ok (bytes : list byte) (position expected : N)
    (result : ScanResult) : Prop :=
  Forall scanned_ok (records result) ∧
  len (records result) <= EventLimits.maxRecordsRead ∧
  validBytes result = position ∧ position <= len bytes ∧ invalidTailBytes result = 0 ∧
  ((records result = [] ∧ expected = 0) ∨
   ∃ f, f ≠ 0 ∧ consecutive f (records result) ∧ records result ≠ [] ∧
        (expected = f + len (records result) ∨ (expected = 0 ∧ position = len bytes))).

Definition scan_result_ok (bytes : list byte) (position : N) (result : ScanResult) : Prop :=
  Forall scanned_ok (records result) ∧
  len (records result) <= EventLimits.maxRecordsRead ∧
  position <= validBytes result ∧
  validBytes result + invalidTailBytes result = len bytes ∧
  ∃ f, f ≠ 0 ∧ consecutive f (records result).

Lemma scan_state_result bytes position expected result start tail :
  scan_state_ok bytes position expected result → start <= position →
  position + tail = len bytes →
  scan_result_ok bytes start (MkScan (records result) (validBytes result) tail).
Proof.
  intros (? & ? & Hv & ? & ? & Hs) ? ?. unfold scan_result_ok.
  cbn [records validBytes invalidTailBytes]. rewrite Hv.
  split_and!; try done. destruct Hs as [[-> _]|(f & ? & ? & _)]; [|by exists f].
  by exists 1.
Qed.

Lemma scan_state_step bytes position expected result d stop expected' :
  scan_state_ok bytes position expected result → position < len bytes →
  scan_batch bytes position expected (len (records result)) = Ok (d, stop, expected') →
  scan_state_ok bytes stop expected'
    (MkScan (records result ++ d) stop (invalidTailBytes result)) ∧
  position + 36 <= stop.
Proof.
  intros (Hok & Hmax & Hv & Hp & Ht & Hs) Hlt H.
  apply scan_batch_inv in H
    as (f & Hc & Hd & Hlen & Hf & Hf' & Hexp & -> & Hstop & Hle & Hend & Htot).
  split; [|done]. unfold scan_state_ok. cbn [records validBytes invalidTailBytes].
  rewrite len_app. split_and!; try done; [by apply Forall_app|lia|].
  assert (d ≠ []) as Hne by (intros ->; rewrite len_nil in Hlen; lia).
  assert (next_expected (f + len d - 1) = f + len d ∨
          next_expected (f + len d - 1) = 0 ∧ stop = len bytes) as Hnext.
  { unfold next_expected in *. destruct (N.eqb_spec (f + len d - 1) u64_max); [auto|lia]. }
  right. destruct Hs as [[-> ->]|(g & Hg & Hcg & Hneg & [->|[-> ->]])]; [..|lia].
  - exists f. change (len (@nil EventRecord)) with 0. cbn [app].
    split_and!; done.
  - exists g. assert (f = g + len (records result)) as -> by lia.
    split_and!; try done.
    + by apply consecutive_app.
    + by destruct (records result).
    + destruct Hnext; [left; lia|by right].
Qed.

Lemma scan_loop_sound fuel bytes position expected result start :
  scan_state_ok bytes position expected result → start <= position →
  (length bytes < fuel + N.to_nat position)%nat →
  (∃ result', scan_loop fuel bytes position expected result = Ok result' ∧
     scan_result_ok bytes start result') ∨
  (∃ msg, scan_loop fuel bytes position expected result = throw EventStoreError msg).
Proof.
  revert position expected result.
  induction fuel as [|fuel IH]; intros position expected result Hs Hstart Hfuel;
    pose proof (proj1 (proj2 (proj2 (proj2 Hs)))) as Hpos.
  { unfold len in Hpos. lia. }
  cbn [scan_loop]. destruct (N.ltb_spec position (len bytes)) as [Hlt|Hge].
  - destruct (scan_batch bytes position expected (len (records result)))
      as [[[d stop] expected']|e] eqn:E.
    + eapply scan_state_step in E as [Hs' Hstop]; [|done..].
      apply IH; [done|lia|lia].
    + destruct (throws_store_scan_batch _ _ _ _ _ E) as [Hk|Hk]; rewrite Hk.
      * rewrite decide_False by done. right. exists (exn_what e).
        destruct e as [k w]. cbn in *. by subst.
      * rewrite decide_True by done.
        destruct (has_batch_magic_after bytes (position + 1)); [right; by eexists|].
        left. eexists. split; [done|]. eapply scan_state_result; [done|done|lia].
  - left. eexists. split; [done|].
    assert (result = MkScan (records result) (validBytes result) 0) as ->.
    { destruct Hs as (_ & _ & _ & _ & Ht & _). destruct result; cbn in *. by subst. }
    eapply scan_state_result; [done|done|lia].
Qed.

(** ** The log written by [encode_batch] *)

Definition encodes_to (rs : list EventRecord) (bs : list byte) : Prop :=
  Forall storable rs ∧ encode_batch rs = Ok bs.

Lemma encoded_log f batches encoded :
  Forall2 encodes_to batches encoded →
  consecutive f (concat batches) → f ≠ 0 → f + len (concat batches) <= u64_max →
  log_ok f batches ∧ concat encoded = log_bytes batches.
Proof.
  intros H Hc Hf Hmax.
  assert (Forall batch_fits batches ∧ concat encoded = log_bytes batches) as [? ?].
  { clear -H. induction H as [|rs bs batches encoded [Hs He] _ [IH1 IH2]]; [done|].
    apply encode_batch_inv in He as [? ->]; [|done]. split; [by constructor|].
    cbn [concat]. by rewrite IH2. }
  done.
Qed.

(** Scanning a log followed by a final batch that fails its framing checks. *)
Lemma scan_damaged_end pre batches encoded f tail msg :
  Forall2 encodes_to batches encoded →
  consecutive f (concat batches) → f ≠ 0 → f + len (concat batches) <= u64_max →
  len (concat batches) <= EventLimits.maxRecordsRead → tail ≠ [] →
  let stop := len pre + len (concat encoded) in
  let bytes := pre ++ concat encoded ++ tail in
  scan_frame bytes stop = throw RecoverableTailError msg →
  scan_batches bytes (len pre) =
  if has_batch_magic_after bytes (stop + 1)
  then throw EventStoreError "mid-file event-store corruption"
  else Ok (MkScan (concat batches) stop (len tail)).
Proof.
  intros Henc Hc Hf Hmax Htotal Htail stop bytes Hframe.
  destruct (encoded_log f batches encoded Henc Hc Hf Hmax) as [Hlog Hbytes].
  destruct (scan_batches_log batches pre tail f Hlog Htotal) as (fuel & e & _ & Heq).
  rewrite <-Hbytes in Heq. fold bytes stop in Heq. rewrite Heq. cbn [scan_loop].
  assert (len bytes = stop + len tail) as Hlen
    by (unfold bytes, stop; rewrite !len_app; lia).
  rewrite (proj2 (N.ltb_lt _ _)).
  2: { rewrite Hlen. destruct tail; [done|]. rewrite len_cons. lia. }
  unfold scan_batch. rewrite Hframe. cbn [mbind res_bind throw exn_kind].
  rewrite decide_True by done. destruct (has_batch_magic_after _ _); [done|].
  cbn [records validBytes]. do 2 f_equal. lia.
Qed.

Lemma scan_damaged_tail pre batches encoded f tail msg :
  Forall2 encodes_to batches encoded →
  consecutive f (concat batches) → f ≠ 0 → f + len (concat batches) <= u64_max →
  len (concat batches) <= EventLimits.maxRecordsRead → tail ≠ [] →
  let stop := len pre + len (concat encoded) in
  let bytes := pre ++ concat encoded ++ tail in
  scan_frame bytes stop = throw RecoverableTailError msg →
  has_batch_magic_after bytes (stop + 1) = false →
  scan_batches bytes (len pre) = Ok (MkScan (concat batches) stop (len tail)).
Proof.
  intros Henc Hc Hf Hmax Htotal Htail stop bytes Hframe Hmagic.
  pose proof (scan_damaged_end pre batches encoded f tail msg Henc Hc Hf Hmax Htotal
    Htail Hframe) as E. cbn zeta in E. fold stop bytes in E. by rewrite E, Hmagic.
Qed.

(** ** The header *)

Definition header_fields (m : EventStoreMetadata) (size : N) : list byte :=
  (fileMagic ++ le_bytes 2 (fileFormatVersion m)) ++ le_bytes 2 size ++
  le_bytes 8 (session m) ++ [byte_trunc (timing_number (feedbackTiming m))] ++
  repeat x00 3 ++ le_bytes 8 (fileGeneration m) ++
  le_bytes 2 (slen (engineVersion m)) ++ list_byte_of_string (engineVersion m).

Definition header_size (m : EventStoreMetadata) : N := 38 + slen (engineVersion m).

Lemma len_list_byte_of_string s : len (list_byte_of_string s) = slen s.
Proof. unfold len, slen. by rewrite length_list_byte_of_string. Qed.

Lemma len_header_fields m size : len (header_fields m size) = 34 + slen (engineVersion m).
Proof.
  unfold header_fields. rewrite !len_app, !len_le_bytes, len_list_byte_of_string.
  change (len fileMagic) with 8. change (len (repeat x00 3)) with 3.
  change (len [_]) with 1. lia.
Qed.

Lemma le_bytes_2 n : le_bytes 2 n = [byte_trunc n; byte_trunc (N.shiftr n 8)].
Proof. unfold le_bytes. by rewrite N.shiftr_div_pow2. Qed.

Lemma patch_size a b0 b1 c n :
  <[(length a + 1)%nat := byte_trunc (N.shiftr n 8)]>
    (<[length a := byte_trunc n]> (a ++ b0 :: b1 :: c)) = a ++ le_bytes 2 n ++ c.
Proof.
  rewrite <-(Nat.add_0_r (length a)) at 2. rewrite !insert_app_r, le_bytes_2. done.
Qed.

Lemma encode_header_ok m :
  validate_metadata m = Ok tt →
  encode_header m = Ok (with_checksum (header_fields m (header_size m))).
Proof.
  intros Hv. unfold encode_header. rewrite Hv. cbn [mbind res_bind].
  apply validate_metadata_ok in Hv as (Hver & Hlen & _).
  unfold append_u16, append_u32, append_u64. rewrite !append_le_spec.
  rewrite (wrap_small 16 (slen (engineVersion m))) by lia. set (a := fileMagic ++ le_bytes 2 (fileFormatVersion m)).
  rewrite <-!app_assoc. rewrite (le_bytes_2 0). cbn [app].
  set (c := le_bytes 8 (session m) ++ _).
  assert (len a = 10) as Ha by (unfold a; by rewrite len_app, len_le_bytes).
  assert (len c = 22 + slen (engineVersion m)) as Hc.
  { unfold c. cbn [app repeat]. repeat rewrite ?len_app, ?len_cons.
    rewrite !len_le_bytes, len_list_byte_of_string. lia. }
  assert (len (a ++ byte_trunc 0 :: byte_trunc (N.shiftr 0 8) :: c) + 4 = header_size m)
    as -> by (rewrite len_app, !len_cons, Ha, Hc; unfold header_size; lia).
  rewrite guard_ok. unfold header_size at 1.
  split; [change u16_max with 65535; lia|].
  rewrite wrap_small by (unfold header_size; lia). rewrite patch_size.
  unfold with_checksum, header_fields. by fold a.
Qed.

Lemma take_app_exact {A} (a b : list A) n : n = length a → take n (a ++ b) = a.
Proof. intros ->. apply take_app_length. Qed.

Lemma string_of_list_byte_of_string s : string_of_list_byte (list_byte_of_string s) = s.
Proof. apply string_of_list_byte_of_string. Qed.

Lemma reader_u8_byte n r c :
  n < 256 → reader_u8 (MkReader ([byte_trunc n] ++ r) c) = (Ok n, MkReader r (c + 1)).
Proof. apply (reader_le 1). Qed.

Lemma timing_number_inv t :
  (if timing_number t =? 0 then Deferred else Immediate) = t ∧ timing_number t <= 1.
Proof. by destruct t. Qed.

Section HeaderRead.
Context (m : EventStoreMetadata) (post bytes : list byte).
Context (Hv : validate_metadata m = Ok tt)
  (Hs64 : session m < 2 ^ 64) (Hg64 : fileGeneration m < 2 ^ 64).
Let fields := header_fields m (header_size m).
Let crc := crc32c fields.
Context (Hbytes : header_size m <= len bytes)
  (Hsummed : subspan bytes 0 (header_size m - 4) = fields).

Lemma decode_fields_ok :
  (decode_fields bytes (MkReader
    (le_bytes 2 (fileFormatVersion m) ++ le_bytes 2 (header_size m) ++
     le_bytes 8 (session m) ++ [byte_trunc (timing_number (feedbackTiming m))] ++
     repeat x00 3 ++ le_bytes 8 (fileGeneration m) ++
     le_bytes 2 (slen (engineVersion m)) ++ list_byte_of_string (engineVersion m) ++
     le_bytes 4 crc ++ post) 8)).1 = Ok (m, header_size m).
Proof.
  pose proof (crc32c_lt fields : crc < 2 ^ 32) as Hcrc.
  pose proof (proj1 (validate_metadata_ok m) Hv) as (Hver & Hlen & Hgen & Hsess & _).
  destruct (timing_number_inv (feedbackTiming m)) as [Htiming Htiming'].
  assert (39 <= header_size m < 65536) as Hsize by (unfold header_size; lia).
  unfold decode_fields.
  reader_step reader_u16_le. reader_step reader_u16_le.
  rewrite Hver at 1. pass_check. pass_check.
  reader_step reader_u64_le. pass_check.
  erewrite stm_bind_eq by (apply reader_u8_byte; lia). pass_check.
  rewrite Htiming. reader_step (reader_take_app 3 (repeat x00 3)).
  reader_step reader_u64_le. pass_check. reader_step reader_u16_le.
  erewrite stm_bind_eq by done. cbn [cursor].
  change EventLimits.maxEngineVersionBytes with 64.
  erewrite stm_bind_eq by (apply (sreject_if_ok _ _ _ _ _ tt);
    split; [unfold header_size; lia|done]).
  erewrite stm_bind_eq by (apply reader_take_app; by rewrite len_list_byte_of_string).
  reader_step reader_u32_le. rewrite Hsummed. fold crc.
  erewrite stm_bind_eq by (by rewrite N.eqb_refl).
  rewrite string_of_list_byte_of_string.
  replace (MkMetadata _ _ _ _ _) with m by (by destruct m).
  unfold mbind, stm_bind, slift. by rewrite Hv.
Qed.
End HeaderRead.

Lemma decode_header_ok m post :
  validate_metadata m = Ok tt → session m < 2 ^ 64 → fileGeneration m < 2 ^ 64 →
  decode_header (with_checksum (header_fields m (header_size m)) ++ post) =
  Ok (m, header_size m).
Proof.
  intros Hv Hs64 Hg64. pose proof (proj1 (validate_metadata_ok m) Hv) as (_ & Hlen & _).
  pose proof (len_header_fields m (header_size m)) as Hfields.
  unfold with_checksum. rewrite <-app_assoc.
  set (bytes := header_fields _ _ ++ _).
  assert (len bytes = header_size m + len post) as Hbytes.
  { unfold bytes. rewrite !len_app, len_le_bytes, Hfields. unfold header_size. lia. }
  assert (subspan bytes 0 (header_size m - 4) = header_fields m (header_size m)) as Hsum.
  { apply (subspan_mid []). rewrite Hfields. unfold header_size. lia. }
  unfold decode_header. rewrite guard_ok. split; [unfold header_size in Hbytes; lia|].
  pose proof (decode_fields_ok m post bytes Hv Hs64 Hg64 ltac:(lia) Hsum) as Hread.
  set (tail := le_bytes 2 (fileFormatVersion m) ++ _) in Hread.
  assert (bytes = fileMagic ++ tail) as Hmagic
    by (unfold bytes, header_fields, tail; by rewrite <-!app_assoc).
  rewrite guard_ok. split.
  { rewrite Hmagic, take_app_exact by done. by rewrite bool_decide_eq_true_2. }
  etrans; [|exact Hread]. rewrite <-(with_reader_end fileMagic tail (len bytes))
    by (by rewrite Hmagic, len_app). by rewrite <-Hmagic.
Qed.

#[local] Opaque decode_header encode_header scan_batches encode_batch.

(** * Properties *)

(** Header round trip: whatever follows it in the file, the header written
    for accepted metadata reads back as exactly that metadata, and the reported
    size is where the batches start. *)
Lemma header_roundtrip (m : EventStoreMetadata) (header rest : list byte) :
  session m < 2 ^ 64 → fileGeneration m < 2 ^ 64 → encode_header m = Ok header →
  decode_header (header ++ rest) = Ok (m, len header).
Proof.
  intros Hs Hg H. destruct (validate_metadata m) as [[]|e] eqn:Hv.
  - rewrite encode_header_ok in H by done. injection H as <-.
    rewrite decode_header_ok by done. do 2 f_equal. unfold with_checksum.
    rewrite len_app, len_header_fields, len_le_bytes. unfold header_size. lia.
  - with_strategy transparent [encode_header] unfold encode_header in H.
    by rewrite Hv in H.
Qed.

Definition sample_metadata : EventStoreMetadata := MkMetadata 7 "engine" Immediate 1 1.
Definition sample_records (n : N) : list EventRecord :=
  [MkEventRecord n EventType.FrameStarted 1 (VObject [("frame", VUnsigned n)]);
   MkEventRecord (n + 1) EventType.FrameCompleted 1 (VArray [VString "ok"; VNull])].

Definition ok_or {A} (d : A) (m : res A) : A := match m with Ok a => a | Err _ => d end.
Definition sample_header : list byte := ok_or [] (encode_header sample_metadata).
Definition sample_batch (n : N) : list byte := ok_or [] (encode_batch (sample_records n)).

Lemma header_roundtrip_witness :
  encode_header sample_metadata = Ok sample_header ∧
  decode_header (sample_header ++ sample_batch 1) = Ok (sample_metadata, 44).
Proof.
  split; [by vm_compute|].
  apply (header_roundtrip sample_metadata sample_header (sample_batch 1));
    by vm_compute.
Defined.

Lemma sample_encodes n : n = 1 ∨ n = 3 → encodes_to (sample_records n) (sample_batch n).
Proof.
  intros [-> | ->]; (split; [|by vm_compute]); repeat constructor; by vm_compute.
Qed.

(** Log round trip: scanning the batches written for consecutive records
    returns exactly those records, in order, with nothing left over. *)
Lemma scan_recovers_log (before : list byte) (batches : list (list EventRecord))
    (encoded : list (list byte)) (f : N) :
  Forall2 encodes_to batches encoded →
  consecutive f (concat batches) → f ≠ 0 → f + len (concat batches) <= u64_max →
  len (concat batches) <= EventLimits.maxRecordsRead →
  scan_batches (before ++ concat encoded) (len before) =
  Ok (MkScan (concat batches) (len before + len (concat encoded)) 0).
Proof.
  intros Henc Hc Hf Hmax Htotal.
  destruct (encoded_log f batches encoded Henc Hc Hf Hmax) as [Hlog Hbytes].
  destruct (scan_batches_log batches before [] f Hlog Htotal) as (fuel & e & _ & Heq).
  rewrite !app_nil_r, <-Hbytes in Heq. rewrite Heq. cbn [scan_loop].
  by rewrite (proj2 (N.ltb_ge _ _)) by (rewrite len_app; lia).
Qed.

Lemma scan_recovers_log_witness :
  scan_batches (sample_header ++ concat [sample_batch 1; sample_batch 3]) (len sample_header)
  = Ok (MkScan (concat [sample_records 1; sample_records 3])
         (len sample_header + len (concat [sample_batch 1; sample_batch 3])) 0).
Proof.
  apply (scan_recovers_log sample_header [sample_records 1; sample_records 3]
    [sample_batch 1; sample_batch 3] 1); [|by vm_compute..].
  repeat constructor; apply sample_encodes; auto.
Defined.

(** A log cut inside the batch after [batches]. *)
Lemma scan_torn_log (before tail missing : list byte)
    (batches : list (list EventRecord)) (encoded : list (list byte))
    (next : list EventRecord) (f g : N) :
  Forall2 encodes_to batches encoded →
  consecutive f (concat batches) → f ≠ 0 → f + len (concat batches) <= u64_max →
  len (concat batches) <= EventLimits.maxRecordsRead →
  encodes_to next (tail ++ missing) → consecutive g next → g + len next - 1 <= u64_max →
  tail ≠ [] → missing ≠ [] →
  let stop := len before + len (concat encoded) in
  let bytes := before ++ concat encoded ++ tail in
  scan_batches bytes (len before) =
  if has_batch_magic_after bytes (stop + 1)
  then throw EventStoreError "mid-file event-store corruption"
  else Ok (MkScan (concat batches) stop (len tail)).
Proof.
  intros Henc Hc Hf Hmax Htotal [Hn He] Hg Hgmax Ht Hm stop bytes.
  apply encode_batch_inv in He as [Hfits E]; [|done].
  eapply scan_damaged_end; try done.
  rewrite <-len_app, (app_assoc before). by eapply scan_frame_torn.
Qed.



(** Corruption behind the head: overwriting up to four consecutive bytes
    of the last batch's payload or checksum never yields a wrong record: the
    scanner returns the records of the batches before it and reports the whole
    damaged batch as the invalid tail. *)
Theorem scan_rejects_corrupt_batch (before : list byte)
    (batches : list (list EventRecord)) (encoded : list (list byte))
    (next : list EventRecord) (x a b y : list byte) (f g : N) :
  Forall2 encodes_to batches encoded →
  consecutive f (concat batches) → f ≠ 0 → f + len (concat batches) <= u64_max →
  len (concat batches) <= EventLimits.maxRecordsRead →
  encodes_to next (x ++ a ++ y) → consecutive g next → g + len next - 1 <= u64_max →
  length a = length b → (length a <= 4)%nat → a ≠ b → (32 <= length x)%nat →
  let stop := len before + len (concat encoded) in
  has_batch_magic_after (before ++ concat encoded ++ x ++ b ++ y) (stop + 1) = false →
  scan_batches (before ++ concat encoded ++ x ++ b ++ y) (len before) =
  Ok (MkScan (concat batches) stop (len (x ++ b ++ y))).
Proof.
  intros Henc Hc Hf Hmax Htotal [Hn He] Hg Hgmax Hab H4 Hne Hx stop Hmagic.
  apply encode_batch_inv in He as [Hfits E]; [|done].
  eapply scan_damaged_tail; try done.
  - intros E'. apply (f_equal length) in E'. rewrite !length_app in E'. cbn in E'. lia.
  - unfold stop. rewrite <-len_app, (app_assoc before). by eapply scan_frame_burst.
Qed.

Lemma scan_rejects_corrupt_batch_witness :
  scan_batches (sample_header ++ concat [sample_batch 1] ++
    take 40 (sample_batch 3) ++ [xff] ++ drop 41 (sample_batch 3)) (len sample_header)
  = Ok (MkScan (concat [sample_records 1])
         (len sample_header + len (concat [sample_batch 1]))
         (len (take 40 (sample_batch 3) ++ [xff] ++ drop 41 (sample_batch 3)))).
Proof.
  apply (scan_rejects_corrupt_batch sample_header [sample_records 1] [sample_batch 1]
    (sample_records 3) (take 40 (sample_batch 3)) (take 1 (drop 40 (sample_batch 3)))
    [xff] (drop 41 (sample_batch 3)) 1 3);
    [|by vm_compute|by vm_compute|by vm_compute|by vm_compute| |first [by vm_compute | vm_compute; lia]..].
  - repeat constructor; apply sample_encodes; auto.
  - assert (take 40 (sample_batch 3) ++ take 1 (drop 40 (sample_batch 3)) ++
      drop 41 (sample_batch 3) = sample_batch 3) as -> by (by vm_compute).
    apply sample_encodes; auto.
Defined.

(** Every scan is accounted for. *)
Lemma scan_batches_sound (bytes : list byte) (position : N) :
  position <= len bytes →
  (∃ result, scan_batches bytes position = Ok result ∧
     scan_result_ok bytes position result) ∨
  (∃ msg, scan_batches bytes position = throw EventStoreError msg).
Proof.
  intros Hp. with_strategy transparent [scan_batches] unfold scan_batches.
  apply scan_loop_sound; [|done|lia]. unfold scan_state_ok. cbn [records validBytes].
  split_and!; try done. by left.
Qed.

(** Arbitrary bytes: the scan of any input terminates and either throws
    [EventStoreError] or accounts for every byte (valid prefix plus invalid
    tail), and the records it returns are numbered consecutively from a valid
    number, within the record cap, each of a known type and version with a
    valid value as payload and a well-formed projection in every checkpoint. *)
Theorem scan_total_sound (bytes : list byte) (position : N) :
  position <= len bytes →
  (∃ result, scan_batches bytes position = Ok result ∧
     scan_result_ok bytes position result) ∨
  (∃ msg, scan_batches bytes position = throw EventStoreError msg).
Proof. apply scan_batches_sound. Qed.

Lemma scan_total_sound_witness :
  (∃ result, scan_batches [x4c; x42] 1 = Ok result ∧ scan_result_ok [x4c; x42] 1 result) ∨
  (∃ msg, scan_batches [x4c; x42] 1 = throw EventStoreError msg).
Proof. apply (scan_total_sound [x4c; x42] 1). by vm_compute. Defined.

(** A flipped version byte in the head of the very last batch is a hard
    error, not a recoverable tail: version and flags are checked before the
    checksum that would show the batch to be corrupt. *)
Theorem corrupt_final_version_is_fatal :
  let log := sample_header ++ sample_batch 1 ++ <[4%nat := x03]> (sample_batch 3) in
  scan_batches log (len sample_header) =
  throw EventStoreError "unsupported event batch version or flags".
Proof. by vm_compute. Qed.
