(* ===== verification/Replay.v ===== *)
(** * Replay (include/liquid/events/Replay.hpp, src/events/Replay.cpp)

    The projection of an event log onto the state it describes, the checkpoint
    that records a projected state inside the log, and the comparison of a
    reproduced log with the recorded one. *)
From stdpp Require Import pretty.
From S2P Require Import Prelude OrderedMap Values ValueCodec Effects Events.

(** ** [struct SerializedWorldState] *)

Record SerializedWorldState := MkWorldState {
  ws_session : SessionId;
  ws_replayPosition : RecordId;
  ws_topology : object;
  ws_components : object;
  ws_intents : object;
  ws_commands : object;
  ws_observedState : object;
  ws_observedAuthority : object;
  ws_configuration : object;
  ws_handleGenerations : object;
  ws_sessionEvents : list EventRecord;
  ws_configurationEvents : list EventRecord;
  ws_frameEvents : list EventRecord;
  ws_resolutions : list EventRecord;
  ws_commandAttempts : list EventRecord;
  ws_reports : list EventRecord;
  ws_observations : list EventRecord;
  ws_failures : list EventRecord;
  ws_recoveries : list EventRecord;
  ws_retentions : list EventRecord;
  ws_scripts : list EventRecord
}.

#[export] Instance SerializedWorldState_eq_dec : EqDecision SerializedWorldState.
Proof. solve_decision. Defined.

(** [state.<field> = x;] *)
Definition set_replayPosition (x : RecordId) (s : SerializedWorldState) : SerializedWorldState :=
  MkWorldState (ws_session s) x (ws_topology s) (ws_components s)
    (ws_intents s) (ws_commands s) (ws_observedState s)
    (ws_observedAuthority s) (ws_configuration s) (ws_handleGenerations s)
    (ws_sessionEvents s) (ws_configurationEvents s) (ws_frameEvents s)
    (ws_resolutions s) (ws_commandAttempts s) (ws_reports s)
    (ws_observations s) (ws_failures s) (ws_recoveries s) (ws_retentions s)
    (ws_scripts s).
Definition set_topology (x : object) (s : SerializedWorldState) : SerializedWorldState :=
  MkWorldState (ws_session s) (ws_replayPosition s) x (ws_components s)
    (ws_intents s) (ws_commands s) (ws_observedState s)
    (ws_observedAuthority s) (ws_configuration s) (ws_handleGenerations s)
    (ws_sessionEvents s) (ws_configurationEvents s) (ws_frameEvents s)
    (ws_resolutions s) (ws_commandAttempts s) (ws_reports s)
    (ws_observations s) (ws_failures s) (ws_recoveries s) (ws_retentions s)
    (ws_scripts s).
Definition set_components (x : object) (s : SerializedWorldState) : SerializedWorldState :=
  MkWorldState (ws_session s) (ws_replayPosition s) (ws_topology s) x
    (ws_intents s) (ws_commands s) (ws_observedState s)
    (ws_observedAuthority s) (ws_configuration s) (ws_handleGenerations s)
    (ws_sessionEvents s) (ws_configurationEvents s) (ws_frameEvents s)
    (ws_resolutions s) (ws_commandAttempts s) (ws_reports s)
    (ws_observations s) (ws_failures s) (ws_recoveries s) (ws_retentions s)
    (ws_scripts s).
Definition set_intents (x : object) (s : SerializedWorldState) : SerializedWorldState :=
  MkWorldState (ws_session s) (ws_replayPosition s) (ws_topology s)
    (ws_components s) x (ws_commands s) (ws_observedState s)
    (ws_observedAuthority s) (ws_configuration s) (ws_handleGenerations s)
    (ws_sessionEvents s) (ws_configurationEvents s) (ws_frameEvents s)
    (ws_resolutions s) (ws_commandAttempts s) (ws_reports s)
    (ws_observations s) (ws_failures s) (ws_recoveries s) (ws_retentions s)
    (ws_scripts s).
Definition set_commands (x : object) (s : SerializedWorldState) : SerializedWorldState :=
  MkWorldState (ws_session s) (ws_replayPosition s) (ws_topology s)
    (ws_components s) (ws_intents s) x (ws_observedState s)
    (ws_observedAuthority s) (ws_configuration s) (ws_handleGenerations s)
    (ws_sessionEvents s) (ws_configurationEvents s) (ws_frameEvents s)
    (ws_resolutions s) (ws_commandAttempts s) (ws_reports s)
    (ws_observations s) (ws_failures s) (ws_recoveries s) (ws_retentions s)
    (ws_scripts s).
Definition set_observedState (x : object) (s : SerializedWorldState) : SerializedWorldState :=
  MkWorldState (ws_session s) (ws_replayPosition s) (ws_topology s)
    (ws_components s) (ws_intents s) (ws_commands s) x (ws_observedAuthority
    s) (ws_configuration s) (ws_handleGenerations s) (ws_sessionEvents s)
    (ws_configurationEvents s) (ws_frameEvents s) (ws_resolutions s)
    (ws_commandAttempts s) (ws_reports s) (ws_observations s) (ws_failures
    s) (ws_recoveries s) (ws_retentions s) (ws_scripts s).
Definition set_observedAuthority (x : object) (s : SerializedWorldState) : SerializedWorldState :=
  MkWorldState (ws_session s) (ws_replayPosition s) (ws_topology s)
    (ws_components s) (ws_intents s) (ws_commands s) (ws_observedState s) x
    (ws_configuration s) (ws_handleGenerations s) (ws_sessionEvents s)
    (ws_configurationEvents s) (ws_frameEvents s) (ws_resolutions s)
    (ws_commandAttempts s) (ws_reports s) (ws_observations s) (ws_failures
    s) (ws_recoveries s) (ws_retentions s) (ws_scripts s).
Definition set_configuration (x : object) (s : SerializedWorldState) : SerializedWorldState :=
  MkWorldState (ws_session s) (ws_replayPosition s) (ws_topology s)
    (ws_components s) (ws_intents s) (ws_commands s) (ws_observedState s)
    (ws_observedAuthority s) x (ws_handleGenerations s) (ws_sessionEvents s)
    (ws_configurationEvents s) (ws_frameEvents s) (ws_resolutions s)
    (ws_commandAttempts s) (ws_reports s) (ws_observations s) (ws_failures
    s) (ws_recoveries s) (ws_retentions s) (ws_scripts s).
Definition set_handleGenerations (x : object) (s : SerializedWorldState) : SerializedWorldState :=
  MkWorldState (ws_session s) (ws_replayPosition s) (ws_topology s)
    (ws_components s) (ws_intents s) (ws_commands s) (ws_observedState s)
    (ws_observedAuthority s) (ws_configuration s) x (ws_sessionEvents s)
    (ws_configurationEvents s) (ws_frameEvents s) (ws_resolutions s)
    (ws_commandAttempts s) (ws_reports s) (ws_observations s) (ws_failures
    s) (ws_recoveries s) (ws_retentions s) (ws_scripts s).
Definition set_sessionEvents (x : list EventRecord) (s : SerializedWorldState) : SerializedWorldState :=
  MkWorldState (ws_session s) (ws_replayPosition s) (ws_topology s)
    (ws_components s) (ws_intents s) (ws_commands s) (ws_observedState s)
    (ws_observedAuthority s) (ws_configuration s) (ws_handleGenerations s) x
    (ws_configurationEvents s) (ws_frameEvents s) (ws_resolutions s)
    (ws_commandAttempts s) (ws_reports s) (ws_observations s) (ws_failures
    s) (ws_recoveries s) (ws_retentions s) (ws_scripts s).
Definition set_configurationEvents (x : list EventRecord) (s : SerializedWorldState) : SerializedWorldState :=
  MkWorldState (ws_session s) (ws_replayPosition s) (ws_topology s)
    (ws_components s) (ws_intents s) (ws_commands s) (ws_observedState s)
    (ws_observedAuthority s) (ws_configuration s) (ws_handleGenerations s)
    (ws_sessionEvents s) x (ws_frameEvents s) (ws_resolutions s)
    (ws_commandAttempts s) (ws_reports s) (ws_observations s) (ws_failures
    s) (ws_recoveries s) (ws_retentions s) (ws_scripts s).
Definition set_frameEvents (x : list EventRecord) (s : SerializedWorldState) : SerializedWorldState :=
  MkWorldState (ws_session s) (ws_replayPosition s) (ws_topology s)
    (ws_components s) (ws_intents s) (ws_commands s) (ws_observedState s)
    (ws_observedAuthority s) (ws_configuration s) (ws_handleGenerations s)
    (ws_sessionEvents s) (ws_configurationEvents s) x (ws_resolutions s)
    (ws_commandAttempts s) (ws_reports s) (ws_observations s) (ws_failures
    s) (ws_recoveries s) (ws_retentions s) (ws_scripts s).
Definition set_resolutions (x : list EventRecord) (s : SerializedWorldState) : SerializedWorldState :=
  MkWorldState (ws_session s) (ws_replayPosition s) (ws_topology s)
    (ws_components s) (ws_intents s) (ws_commands s) (ws_observedState s)
    (ws_observedAuthority s) (ws_configuration s) (ws_handleGenerations s)
    (ws_sessionEvents s) (ws_configurationEvents s) (ws_frameEvents s) x
    (ws_commandAttempts s) (ws_reports s) (ws_observations s) (ws_failures
    s) (ws_recoveries s) (ws_retentions s) (ws_scripts s).
Definition set_commandAttempts (x : list EventRecord) (s : SerializedWorldState) : SerializedWorldState :=
  MkWorldState (ws_session s) (ws_replayPosition s) (ws_topology s)
    (ws_components s) (ws_intents s) (ws_commands s) (ws_observedState s)
    (ws_observedAuthority s) (ws_configuration s) (ws_handleGenerations s)
    (ws_sessionEvents s) (ws_configurationEvents s) (ws_frameEvents s)
    (ws_resolutions s) x (ws_reports s) (ws_observations s) (ws_failures s)
    (ws_recoveries s) (ws_retentions s) (ws_scripts s).
Definition set_reports (x : list EventRecord) (s : SerializedWorldState) : SerializedWorldState :=
  MkWorldState (ws_session s) (ws_replayPosition s) (ws_topology s)
    (ws_components s) (ws_intents s) (ws_commands s) (ws_observedState s)
    (ws_observedAuthority s) (ws_configuration s) (ws_handleGenerations s)
    (ws_sessionEvents s) (ws_configurationEvents s) (ws_frameEvents s)
    (ws_resolutions s) (ws_commandAttempts s) x (ws_observations s)
    (ws_failures s) (ws_recoveries s) (ws_retentions s) (ws_scripts s).
Definition set_observations (x : list EventRecord) (s : SerializedWorldState) : SerializedWorldState :=
  MkWorldState (ws_session s) (ws_replayPosition s) (ws_topology s)
    (ws_components s) (ws_intents s) (ws_commands s) (ws_observedState s)
    (ws_observedAuthority s) (ws_configuration s) (ws_handleGenerations s)
    (ws_sessionEvents s) (ws_configurationEvents s) (ws_frameEvents s)
    (ws_resolutions s) (ws_commandAttempts s) (ws_reports s) x (ws_failures
    s) (ws_recoveries s) (ws_retentions s) (ws_scripts s).
Definition set_failures (x : list EventRecord) (s : SerializedWorldState) : SerializedWorldState :=
  MkWorldState (ws_session s) (ws_replayPosition s) (ws_topology s)
    (ws_components s) (ws_intents s) (ws_commands s) (ws_observedState s)
    (ws_observedAuthority s) (ws_configuration s) (ws_handleGenerations s)
    (ws_sessionEvents s) (ws_configurationEvents s) (ws_frameEvents s)
    (ws_resolutions s) (ws_commandAttempts s) (ws_reports s)
    (ws_observations s) x (ws_recoveries s) (ws_retentions s) (ws_scripts
    s).
Definition set_recoveries (x : list EventRecord) (s : SerializedWorldState) : SerializedWorldState :=
  MkWorldState (ws_session s) (ws_replayPosition s) (ws_topology s)
    (ws_components s) (ws_intents s) (ws_commands s) (ws_observedState s)
    (ws_observedAuthority s) (ws_configuration s) (ws_handleGenerations s)
    (ws_sessionEvents s) (ws_configurationEvents s) (ws_frameEvents s)
    (ws_resolutions s) (ws_commandAttempts s) (ws_reports s)
    (ws_observations s) (ws_failures s) x (ws_retentions s) (ws_scripts s).
Definition set_retentions (x : list EventRecord) (s : SerializedWorldState) : SerializedWorldState :=
  MkWorldState (ws_session s) (ws_replayPosition s) (ws_topology s)
    (ws_components s) (ws_intents s) (ws_commands s) (ws_observedState s)
    (ws_observedAuthority s) (ws_configuration s) (ws_handleGenerations s)
    (ws_sessionEvents s) (ws_configurationEvents s) (ws_frameEvents s)
    (ws_resolutions s) (ws_commandAttempts s) (ws_reports s)
    (ws_observations s) (ws_failures s) (ws_recoveries s) x (ws_scripts s).
Definition set_scripts (x : list EventRecord) (s : SerializedWorldState) : SerializedWorldState :=
  MkWorldState (ws_session s) (ws_replayPosition s) (ws_topology s)
    (ws_components s) (ws_intents s) (ws_commands s) (ws_observedState s)
    (ws_observedAuthority s) (ws_configuration s) (ws_handleGenerations s)
    (ws_sessionEvents s) (ws_configurationEvents s) (ws_frameEvents s)
    (ws_resolutions s) (ws_commandAttempts s) (ws_reports s)
    (ws_observations s) (ws_failures s) (ws_recoveries s) (ws_retentions s)
    x.

(** [state.<field>.push_back(record);] *)
Definition push_sessionEvents (r : EventRecord) (s : SerializedWorldState) : SerializedWorldState :=
  set_sessionEvents (ws_sessionEvents s ++ [r]) s.
Definition push_configurationEvents (r : EventRecord) (s : SerializedWorldState) : SerializedWorldState :=
  set_configurationEvents (ws_configurationEvents s ++ [r]) s.
Definition push_frameEvents (r : EventRecord) (s : SerializedWorldState) : SerializedWorldState :=
  set_frameEvents (ws_frameEvents s ++ [r]) s.
Definition push_resolutions (r : EventRecord) (s : SerializedWorldState) : SerializedWorldState :=
  set_resolutions (ws_resolutions s ++ [r]) s.
Definition push_commandAttempts (r : EventRecord) (s : SerializedWorldState) : SerializedWorldState :=
  set_commandAttempts (ws_commandAttempts s ++ [r]) s.
Definition push_reports (r : EventRecord) (s : SerializedWorldState) : SerializedWorldState :=
  set_reports (ws_reports s ++ [r]) s.
Definition push_observations (r : EventRecord) (s : SerializedWorldState) : SerializedWorldState :=
  set_observations (ws_observations s ++ [r]) s.
Definition push_failures (r : EventRecord) (s : SerializedWorldState) : SerializedWorldState :=
  set_failures (ws_failures s ++ [r]) s.
Definition push_recoveries (r : EventRecord) (s : SerializedWorldState) : SerializedWorldState :=
  set_recoveries (ws_recoveries s ++ [r]) s.
Definition push_retentions (r : EventRecord) (s : SerializedWorldState) : SerializedWorldState :=
  set_retentions (ws_retentions s ++ [r]) s.
Definition push_scripts (r : EventRecord) (s : SerializedWorldState) : SerializedWorldState :=
  set_scripts (ws_scripts s ++ [r]) s.

(** ** Fields of a record's payload *)

Definition require_object (v : value) (context : string) : res object :=
  reject_if (negb (bool_decide (kind v = KObject))) EventStoreError
    (context ++ " payload must be an object");;
  as_object v.

Definition require_field (o : object) (name context : string) : res value :=
  match sm_find name o with
  | None => store_error (context ++ " payload is missing " ++ name)
  | Some field => Ok field
  end.

Definition require_key (o : object) (context : string) : res string :=
  key ← require_field o "key" context;
  reject_if (negb (bool_decide (kind key = KString))) EventStoreError
    (context ++ " key must be a string");;
  as_string key.

(** Maps passed by reference are returned. *)
Definition set_entry (tgt : object) (r : EventRecord) (context : string) : res object :=
  o ← require_object (payload r) context;
  key ← require_key o context;
  v ← require_field o "value" context;
  Ok (sm_assign key v tgt).

Definition erase_entry (tgt : object) (r : EventRecord) (context : string) : res object :=
  o ← require_object (payload r) context;
  key ← require_key o context;
  Ok (sm_erase key tgt).

Definition optional_object_field (checkpoint : object) (name : string) : res object :=
  match sm_find name checkpoint with
  | None => store_error ("checkpoint is missing field: " ++ name)
  | Some field =>
      reject_if (negb (bool_decide (kind field = KObject))) EventStoreError
        ("checkpoint field must be an object: " ++ name);;
      as_object field
  end.

Definition object_field_or_empty (checkpoint : object) (name : string) : res object :=
  match sm_find name checkpoint with
  | None => Ok []
  | Some field =>
      reject_if (negb (bool_decide (kind field = KObject))) EventStoreError
        ("checkpoint field must be an object: " ++ name);;
      as_object field
  end.

(** A run of [object.emplace(name, value)]. *)
Definition emplace_all (entries : list (string * value)) (o : object) : object :=
  foldl (λ o kv, (sm_emplace kv.1 kv.2 o).1) o entries.

Definition record_value (r : EventRecord) : res value :=
  Value_object (emplace_all
    [("sequence", VUnsigned (sequence r)); ("type", VUnsigned (type r));
     ("version", VUnsigned (version r)); ("payload", payload r)] []).

Definition records_value (rs : list EventRecord) : res value :=
  encoded ← rfold (λ encoded r, v ← record_value r; Ok (encoded ++ [v])) rs [];
  Value_array encoded.

Definition require_unsigned (o : object) (name context : string) : res N :=
  v ← require_field o name context;
  reject_if (negb (bool_decide (kind v = KUnsignedInteger))) EventStoreError
    (context ++ " field must be unsigned: " ++ name);;
  as_unsigned_integer v.

(** The loop body of [records_field_or_empty]. *)
Definition decode_record (encoded : value) : res EventRecord :=
  o ← require_object encoded "checkpoint event";
  type ← require_unsigned o "type" "checkpoint event";
  reject_if (unknown_type type) EventStoreError
    "checkpoint event has an unknown type";;
  version ← require_unsigned o "version" "checkpoint event";
  reject_if (negb (version =? 1)) EventStoreError
    "checkpoint event has an unsupported version";;
  sequence ← require_unsigned o "sequence" "checkpoint event";
  reject_if (negb (valid sequence)) EventStoreError
    "checkpoint event sequence must be nonzero";;
  payload ← require_field o "payload" "checkpoint event";
  Ok (MkEventRecord sequence (wrap 16 type) (wrap 16 version) payload).

Definition records_field_or_empty (checkpoint : object) (name : string)
  : res (list EventRecord) :=
  match sm_find name checkpoint with
  | None => Ok []
  | Some field =>
      reject_if (negb (bool_decide (kind field = KArray))) EventStoreError
        ("checkpoint field must be an array: " ++ name);;
      l ← as_array field;
      rfold (λ records encoded, r ← decode_record encoded; Ok (records ++ [r])) l []
  end.

(** Returns the map when the record had an entry to set ([true]). *)
Definition try_set_entry (tgt : object) (r : EventRecord) (context : string)
  : res (option object) :=
  if negb (bool_decide (kind (payload r) = KObject)) then Ok None
  else
    o ← require_object (payload r) context;
    if negb (sm_contains "key" o) || negb (sm_contains "value" o) then Ok None
    else tgt ← set_entry tgt r context; Ok (Some tgt).

(** [std::to_string] *)
Definition to_string (n : N) : string := pretty n.

Definition command_key (o : object) (context : string) : res string :=
  commandId ← require_unsigned o "command_id" context;
  Ok ("command:" ++ to_string commandId)%string.

(** [for (const auto& [name, value] : payload) merged.insert_or_assign(name, value);] *)
Definition assign_all (entries merged : object) : object :=
  foldl (λ merged kv, sm_assign kv.1 kv.2 merged) merged entries.

Definition merge_command (commands : object) (r : EventRecord) (context : string)
  : res object :=
  o ← require_object (payload r) context;
  if negb (sm_contains "command_id" o) then set_entry commands r context
  else
    key ← command_key o context;
    merged ←
      match sm_find key commands with
      | None => Ok []
      | Some existing =>
          reject_if (negb (bool_decide (kind existing = KObject))) EventStoreError
            (context ++ " state must be an object");;
          as_object existing
      end;
    merged ← Value_object (assign_all o merged);
    Ok (sm_assign key merged commands).

Definition set_observed (observed : object) (r : EventRecord) : res object :=
  done ← try_set_entry observed r "observed state";
  match done with
  | Some observed => Ok observed
  | None =>
      o ← require_object (payload r) "observed state";
      route ← require_field o "route" "observed state";
      target ← require_field o "target" "observed state";
      match route, target with
      | VString route, VString target =>
          v ← require_field o "observed" "observed state";
          Ok (sm_assign (route ++ ":" ++ target) v observed)
      | _, _ => store_error "observed state route and target must be strings"
      end
  end.

Definition set_observed_authority (authority : object) (r : EventRecord) : res object :=
  o ← require_object (payload r) "observed state";
  match sm_find "route" o, sm_find "target" o with
  | Some (VString route), Some (VString target) =>
      Ok (sm_assign (route ++ ":" ++ target) (payload r) authority)
  | _, _ => Ok authority
  end.

(** ** Checkpoints *)

(** [ReplayProjector::checkpoint_payload] *)
Definition checkpoint_payload (s : SerializedWorldState) : res value :=
  reject_if (negb (valid (ws_session s))) EventStoreError
    "checkpoint state requires a valid session ID";;
  topology ← Value_object (ws_topology s);
  components ← Value_object (ws_components s);
  intents ← Value_object (ws_intents s);
  commands ← Value_object (ws_commands s);
  observed_state ← Value_object (ws_observedState s);
  observed_authority ← Value_object (ws_observedAuthority s);
  configuration ← Value_object (ws_configuration s);
  handle_generations ← Value_object (ws_handleGenerations s);
  session_events ← records_value (ws_sessionEvents s);
  configuration_events ← records_value (ws_configurationEvents s);
  frame_events ← records_value (ws_frameEvents s);
  resolutions ← records_value (ws_resolutions s);
  command_attempts ← records_value (ws_commandAttempts s);
  reports ← records_value (ws_reports s);
  observations ← records_value (ws_observations s);
  failures ← records_value (ws_failures s);
  recoveries ← records_value (ws_recoveries s);
  retentions ← records_value (ws_retentions s);
  scripts ← records_value (ws_scripts s);
  Value_object (emplace_all
    [("session", VUnsigned (ws_session s));
     ("replay_position", VUnsigned (ws_replayPosition s));
     ("topology", topology); ("components", components); ("intents", intents);
     ("commands", commands); ("observed_state", observed_state);
     ("observed_authority", observed_authority); ("configuration", configuration);
     ("handle_generations", handle_generations); ("session_events", session_events);
     ("configuration_events", configuration_events); ("frame_events", frame_events);
     ("resolutions", resolutions); ("command_attempts", command_attempts);
     ("reports", reports); ("observations", observations); ("failures", failures);
     ("recoveries", recoveries); ("retentions", retentions); ("scripts", scripts)] []).

Definition restore_checkpoint (s : SerializedWorldState) (r : EventRecord)
  : res SerializedWorldState :=
  validate_checkpoint_anchor (payload r) (ws_session s) (sequence r);;
  checkpoint ← require_object (payload r) "checkpoint";
  match sm_find "session" checkpoint with
  | Some (VUnsigned session) =>
      reject_if (negb (session =? ws_session s)) EventStoreError
        "checkpoint session does not match replay metadata"
  | Some _ => store_error "checkpoint session does not match replay metadata"
  | None => Ok tt
  end;;
  replayPosition ←
    match sm_find "replay_position" checkpoint with
    | Some (VUnsigned position) => Ok position
    | Some _ => store_error "checkpoint replay_position must be unsigned"
    | None => Ok (ws_replayPosition s)
    end;
  topology ← optional_object_field checkpoint "topology";
  components ← optional_object_field checkpoint "components";
  intents ← optional_object_field checkpoint "intents";
  commands ← optional_object_field checkpoint "commands";
  observedState ← optional_object_field checkpoint "observed_state";
  observedAuthority ← object_field_or_empty checkpoint "observed_authority";
  configuration ← object_field_or_empty checkpoint "configuration";
  handleGenerations ← object_field_or_empty checkpoint "handle_generations";
  sessionEvents ← records_field_or_empty checkpoint "session_events";
  configurationEvents ← records_field_or_empty checkpoint "configuration_events";
  frameEvents ← records_field_or_empty checkpoint "frame_events";
  resolutions ← records_field_or_empty checkpoint "resolutions";
  commandAttempts ← records_field_or_empty checkpoint "command_attempts";
  reports ← records_field_or_empty checkpoint "reports";
  observations ← records_field_or_empty checkpoint "observations";
  failures ← records_field_or_empty checkpoint "failures";
  recoveries ← records_field_or_empty checkpoint "recoveries";
  retentions ← records_field_or_empty checkpoint "retentions";
  scripts ← records_field_or_empty checkpoint "scripts";
  Ok (MkWorldState (ws_session s) replayPosition topology components intents commands
    observedState observedAuthority configuration handleGenerations sessionEvents
    configurationEvents frameEvents resolutions commandAttempts reports observations
    failures recoveries retentions scripts).

(** ** [ReplayProjector::project] *)

(** The state before the first record. *)
Definition initial_state (m : EventStoreMetadata) : res SerializedWorldState :=
  engine_version ← Value_string (engineVersion m);
  feedback_timing ← Value_string
    (if decide (feedbackTiming m = Immediate) then "immediate" else "deferred");
  Ok (MkWorldState (session m) 0 [] [] [] [] [] []
    (emplace_all [("engine_version", engine_version);
                  ("feedback_timing", feedback_timing)] [])
    [] [] [] [] [] [] [] [] [] [] [] []).

(** The test of [TopologyChanged]: the payload says [removed: true]. *)
Definition topology_removed (v : value) : bool :=
  match v with
  | VObject o => match sm_find "removed" o with Some (VBoolean b) => b | _ => false end
  | _ => false
  end.

(** [case ConfigurationChanged] *)
Definition change_configuration (s : SerializedWorldState) (r : EventRecord)
  : res SerializedWorldState :=
  let s := push_configurationEvents r s in
  changed ← try_set_entry (ws_configuration s) r "configuration";
  match changed with
  | None => Ok s
  | Some configuration =>
      let s := set_configuration configuration s in
      o ← as_object (payload r);
      key ← require_key o "configuration";
      if negb (String.eqb key "handle_generations") then Ok s
      else
        generations ← require_field o "value" "configuration";
        reject_if (negb (bool_decide (kind generations = KObject))) EventStoreError
          "handle_generations configuration must be an object";;
        generations ← as_object generations;
        Ok (set_handleGenerations generations s)
  end.

(** The [switch] of the loop; [first] is [index == 0]. *)
Definition project_record (first : bool) (s : SerializedWorldState) (r : EventRecord)
  : res SerializedWorldState :=
  let t := type r in
  if t =? EventType.SessionStarted then Ok (push_sessionEvents r s)
  else if t =? EventType.TopologyChanged then
    topology ← (if topology_removed (payload r)
                then erase_entry (ws_topology s) r "topology"
                else set_entry (ws_topology s) r "topology");
    Ok (set_topology topology s)
  else if t =? EventType.ComponentMutated then
    components ← set_entry (ws_components s) r "component mutation";
    Ok (set_components components s)
  else if t =? EventType.ComponentRemoved then
    components ← erase_entry (ws_components s) r "component removal";
    Ok (set_components components s)
  else if t =? EventType.IntentCreated then
    intents ← set_entry (ws_intents s) r "intent creation";
    Ok (set_intents intents s)
  else if t =? EventType.IntentDestroyed then
    intents ← erase_entry (ws_intents s) r "intent destruction";
    Ok (set_intents intents s)
  else if (t =? EventType.CommandIssued) || (t =? EventType.CommandStatusChanged) then
    commands ← merge_command (ws_commands s) r "command";
    Ok (set_commands commands s)
  else if t =? EventType.ObservedStateChanged then
    observed ← set_observed (ws_observedState s) r;
    authority ← set_observed_authority (ws_observedAuthority s) r;
    Ok (set_observedAuthority authority (set_observedState observed s))
  else if t =? EventType.Checkpoint then
    (if first then Ok tt
     else
       expected ← checkpoint_payload s;
       reject_if (negb (value_eqb expected (payload r))) EventStoreError
         "checkpoint does not match projected event history");;
    restore_checkpoint s r
  else if (t =? EventType.FrameStarted) || (t =? EventType.FrameCompleted) then
    Ok (push_frameEvents r s)
  else if t =? EventType.FrameFailed then
    Ok (push_failures r (push_frameEvents r s))
  else if t =? EventType.ResolutionSelected then Ok (push_resolutions r s)
  else if t =? EventType.CommandAttempted then Ok (push_commandAttempts r s)
  else if t =? EventType.ReportReceived then Ok (push_reports r s)
  else if t =? EventType.ExternalObservationReceived then Ok (push_observations r s)
  else if t =? EventType.Recovery then Ok (push_recoveries r s)
  else if t =? EventType.Retention then Ok (push_retentions r s)
  else if t =? EventType.ConfigurationChanged then change_configuration s r
  else if t =? EventType.ScriptExecuted then Ok (push_scripts r s)
  else store_error "unknown replay event type".

Definition next_sequence (sequence : RecordId) : RecordId :=
  if sequence =? u64_max then 0 else sequence + 1.

(** One turn of the loop; [last] is [index + 1 == records.size()]. *)
Definition project_step (first last : bool) (expected : RecordId)
    (s : SerializedWorldState) (r : EventRecord) : res SerializedWorldState :=
  reject_if (negb (valid (sequence r))) EventStoreError
    "replay record sequence must be nonzero";;
  reject_if (valid expected && negb (sequence r =? expected)) EventStoreError
    "replay record sequence gap";;
  reject_if (negb (version r =? 1)) EventStoreError "unsupported replay record version";;
  s ← project_record first s r;
  reject_if (negb (valid (next_sequence (sequence r))) && negb last) EventStoreError
    "records follow exhausted replay sequence";;
  Ok (set_replayPosition (sequence r) s).

Fixpoint project_loop (first : bool) (expected : RecordId) (s : SerializedWorldState)
    (rs : list EventRecord) : res SerializedWorldState :=
  match rs with
  | [] => Ok s
  | r :: rs =>
      s ← project_step first (bool_decide (rs = [])) expected s r;
      project_loop false (next_sequence (sequence r)) s rs
  end.

Definition project (m : EventStoreMetadata) (rs : list EventRecord)
  : res SerializedWorldState :=
  s ← initial_state m;
  project_loop true 0 s rs.

(** ** [ReplayVerifier] *)

Record ReplayDivergence := MkDivergence {
  recordIndex : N;
  expected_record : option EventRecord;
  actual_record : option EventRecord;
  reason : string
}.

(** The loop over the common prefix and the two length tests behind it. *)
Fixpoint compare_from (index : N) (recorded reproduced : list EventRecord)
  : option ReplayDivergence :=
  match recorded, reproduced with
  | r :: recorded, p :: reproduced =>
      if decide (r = p) then compare_from (index + 1) recorded reproduced
      else Some (MkDivergence index (Some r) (Some p) "record contents differ")
  | r :: _, [] =>
      Some (MkDivergence index (Some r) None "reproduced replay ended early")
  | [], p :: _ =>
      Some (MkDivergence index None (Some p)
              "reproduced replay has an unexpected record")
  | [], [] => None
  end.

Definition compare (recorded reproduced : list EventRecord) : option ReplayDivergence :=
  compare_from 0 recorded reproduced.

(** [verify] runs the host's callback, which may keep state of its own. *)
Section Verify.
Context {S : Type} (execute : EventRecord → stm S (list EventRecord)).

(** The inner loop: the index after the emitted records, or the divergence. *)
Fixpoint check_emitted (recorded : list EventRecord) (reproducedIndex : N)
    (emitted : list EventRecord) : N + ReplayDivergence :=
  match emitted with
  | [] => inl reproducedIndex
  | actual :: emitted =>
      match recorded !! N.to_nat reproducedIndex with
      | None => inr (MkDivergence reproducedIndex None (Some actual)
                       "reproduced replay has an unexpected record")
      | Some r =>
          if decide (r = actual) then check_emitted recorded (reproducedIndex + 1) emitted
          else inr (MkDivergence reproducedIndex (Some r) (Some actual)
                      "record contents differ")
      end
  end.

Fixpoint verify_loop (recorded : list EventRecord) (reproducedIndex : N)
    (evidence : list EventRecord) (s : S) : option ReplayDivergence :=
  match evidence with
  | [] =>
      match recorded !! N.to_nat reproducedIndex with
      | Some r => Some (MkDivergence reproducedIndex (Some r) None
                          "reproduced replay ended early")
      | None => None
      end
  | e :: evidence =>
      match execute e s with
      | (Ok emitted, s) =>
          match check_emitted recorded reproducedIndex emitted with
          | inl reproducedIndex => verify_loop recorded reproducedIndex evidence s
          | inr divergence => Some divergence
          end
      | (Err error, _) =>
          Some (MkDivergence reproducedIndex (recorded !! N.to_nat reproducedIndex) None
            (if decide (exn_kind error = unknown_exception)
             then "host replay execution failed with an unknown exception"
             else ("host replay execution failed: " ++ exn_what error)%string))
      end
  end.
End Verify.

Definition verify {S} (recorded : list EventRecord)
    (execute : option (EventRecord → stm S (list EventRecord))) (s : S)
  : option ReplayDivergence :=
  match execute with
  | None => Some (MkDivergence 0 (head recorded) None
                    "replay execution callback is empty")
  | Some execute => verify_loop execute recorded 0 recorded s
  end.

(** * Lemmas *)

#[local] Opaque checkpoint_payload restore_checkpoint.

(** ** The comparison *)

Lemma compare_from_None index l k : compare_from index l k = None ↔ l = k.
Proof.
  revert index k. induction l as [|r l IH]; intros index [|p k]; cbn [compare_from];
    try (split; [done|discriminate]); try done.
  case_decide as E; [subst; rewrite IH; naive_solver|]. split; [done|congruence].
Qed.

Lemma compare_from_Some l k index d :
  compare_from index l k = Some d →
  ∃ i, recordIndex d = index + N.of_nat i ∧ take i l = take i k ∧
    expected_record d = l !! i ∧ actual_record d = k !! i ∧ l !! i ≠ k !! i.
Proof.
  revert index k. induction l as [|r l IH]; intros index [|p k]; cbn [compare_from]; [done|..].
  - intros [= <-]. exists 0%nat. split_and!; (done || cbn; lia).
  - intros [= <-]. exists 0%nat. split_and!; (done || cbn; lia).
  - case_decide as E.
    + subst. intros (i & Hi & Ht & He & Ha & Hne)%IH. exists (S i). cbn.
      split_and!; [lia|by rewrite Ht|done..].
    + intros [= <-]. exists 0%nat. cbn. split_and!; try done; [lia|congruence].
Qed.

(** ** Verification *)

Section VerifyLemmas.
Context {S : Type} (execute : EventRecord → stm S (list EventRecord)).

(** Everything the callback emits over the recorded evidence, in order. *)
Fixpoint emit_all (evidence : list EventRecord) : stm S (list EventRecord) :=
  match evidence with
  | [] => mret []
  | e :: evidence =>
      emitted ← execute e;
      rest ← emit_all evidence;
      mret (emitted ++ rest)
  end.

Lemma check_emitted_spec recorded i emitted :
  (i <= length recorded)%nat →
  match check_emitted recorded (N.of_nat i) emitted with
  | inl j => j = N.of_nat (i + length emitted) ∧
      take (length emitted) (drop i recorded) = emitted ∧
      (i + length emitted <= length recorded)%nat
  | inr _ => ¬ ∃ rest, drop i recorded = emitted ++ rest
  end.
Proof.
  revert i. induction emitted as [|a emitted IH]; intros i Hi; cbn [check_emitted].
  { cbn. split_and!; [f_equal; lia|done|lia]. }
  rewrite Nnat.Nat2N.id. destruct (recorded !! i) as [r|] eqn:E.
  - pose proof (lookup_lt_Some _ _ _ E). rewrite (drop_S _ _ _ E).
    case_decide as Er; [subst|by intros (rest & [= ? ?])].
    specialize (IH (Datatypes.S i)). replace (N.of_nat i + 1) with (N.of_nat (Datatypes.S i)) by lia.
    destruct check_emitted as [j|d].
    + destruct IH as (-> & Ht & Hl); [lia|]. cbn [length].
      split_and!; [f_equal; lia| |lia]. cbn. by rewrite Ht.
    + intros (rest & [= Hr]). apply IH; [lia|]. by exists rest.
  - apply lookup_ge_None in E. rewrite drop_ge by done. by intros (? & [=]).
Qed.

Lemma verify_loop_None recorded evidence i s :
  (i <= length recorded)%nat →
  verify_loop execute recorded (N.of_nat i) evidence s = None ↔
  ∃ s', emit_all evidence s = (Ok (drop i recorded), s').
Proof.
  revert i s. induction evidence as [|e evidence IH]; intros i s Hi; cbn [verify_loop emit_all].
  { rewrite Nnat.Nat2N.id. destruct (recorded !! i) as [r|] eqn:E.
    - rewrite (drop_S _ _ _ E). split; [done|]. by intros (s' & [=]).
    - apply lookup_ge_None in E. rewrite drop_ge by done. split; [|done]. by eexists. }
  unfold mbind at 1, stm_bind at 1. destruct (execute e s) as [[emitted|err] s1];
    [|split; [done|by intros (? & [=])]].
  pose proof (check_emitted_spec recorded i emitted Hi) as Hspec.
  destruct check_emitted as [j|d].
  - destruct Hspec as (-> & Ht & Hl). rewrite IH by done.
    assert (drop i recorded = emitted ++ drop (i + length emitted) recorded) as ->.
    { rewrite <-drop_drop. rewrite <-Ht at 1. by rewrite take_drop. }
    unfold mbind, stm_bind. split.
    + intros (s' & ->). by eexists.
    + intros (s' & H). destruct (emit_all evidence s1) as [[rest|] s2]; [|done].
      injection H as H ->. apply app_inv_head in H as ->. by eexists.
  - split; [done|]. intros (s' & H). exfalso. apply Hspec.
    unfold mbind, stm_bind in H. destruct (emit_all evidence s1) as [[rest|] s2]; [|done].
    injection H as <- _. by eexists.
Qed.
End VerifyLemmas.

(** ** Checkpoint records *)

Lemma Value_object_ok m v :
  Value_object m = Ok v ↔ v = VObject m ∧ within_limits (VObject m) = true.
Proof.
  unfold Value_object, checked. rewrite unit_bind_ok, validate_ok. naive_solver.
Qed.
Lemma Value_array_ok l v :
  Value_array l = Ok v ↔ v = VArray l ∧ within_limits (VArray l) = true.
Proof.
  unfold Value_array, checked. rewrite unit_bind_ok, validate_ok. naive_solver.
Qed.

(** The records a checkpoint can carry. *)
Definition record_ok (r : EventRecord) : Prop :=
  sequence r ≠ 0 ∧ unknown_type (type r) = false ∧ version r = 1.

Definition record_object (r : EventRecord) : object :=
  [("payload", payload r); ("sequence", VUnsigned (sequence r));
   ("type", VUnsigned (type r)); ("version", VUnsigned (version r))].

Lemma record_value_ok r v :
  record_value r = Ok v ↔
  v = VObject (record_object r) ∧ within_limits (VObject (record_object r)) = true.
Proof. unfold record_value. apply Value_object_ok. Qed.

Lemma wrap_known t : unknown_type t = false → wrap 16 t = t.
Proof. intros ?%unknown_type_false. apply N.mod_small. change (2 ^ 16) with 65536. lia. Qed.

Lemma require_object_ok v c o : require_object v c = Ok o ↔ v = VObject o.
Proof.
  unfold require_object. rewrite guard_ok, kind_object. split.
  - by intros ((o' & ->) & [= ->]).
  - intros ->. split; [by eexists|done].
Qed.

Lemma require_field_ok o n c v : require_field o n c = Ok v ↔ sm_find n o = Some v.
Proof. unfold require_field. destruct (sm_find n o); naive_solver. Qed.

Lemma require_unsigned_ok o n c k :
  require_unsigned o n c = Ok k ↔ sm_find n o = Some (VUnsigned k).
Proof.
  unfold require_unsigned. rewrite res_bind_ok. setoid_rewrite require_field_ok.
  setoid_rewrite guard_ok. setoid_rewrite kind_unsigned. split.
  - by intros (v & -> & (k' & ->) & [= ->]).
  - intros ->. eauto.
Qed.

(** Decoding a record is total on exactly the well-formed record objects. *)
Lemma decode_record_ok v r :
  decode_record v = Ok r ↔
  ∃ o, v = VObject o ∧ record_ok r ∧
    sm_find "sequence" o = Some (VUnsigned (sequence r)) ∧
    sm_find "type" o = Some (VUnsigned (type r)) ∧
    sm_find "version" o = Some (VUnsigned (version r)) ∧
    sm_find "payload" o = Some (payload r).
Proof.
  unfold decode_record, record_ok. split.
  - intros H. apply res_bind_ok in H as (o & ->%require_object_ok & H).
    apply res_bind_ok in H as (t & Ht%require_unsigned_ok & H).
    apply guard_ok in H as [Hk H].
    apply res_bind_ok in H as (ver & Hv%require_unsigned_ok & H).
    apply guard_ok in H as [Hv1 H].
    apply res_bind_ok in H as (s & Hs%require_unsigned_ok & H).
    apply guard_ok in H as [Hs0 H].
    apply res_bind_ok in H as (p & Hp%require_field_ok & [= <-]).
    cbn [sequence type version payload].
    apply negb_false_iff, N.eqb_eq in Hv1 as ->. apply negb_valid in Hs0.
    rewrite wrap_known by done. exists o. split_and!; done.
  - intros (o & -> & (Hs0 & Hk & Hv1) & Hs & Ht & Hv & Hp).
    rewrite (proj2 (require_object_ok _ _ o) eq_refl). cbn [mbind res_bind].
    rewrite (proj2 (require_unsigned_ok _ _ _ _) Ht). cbn [mbind res_bind].
    rewrite Hk. cbn [reject_if mbind res_bind].
    rewrite (proj2 (require_unsigned_ok _ _ _ _) Hv). cbn [mbind res_bind].
    rewrite Hv1. change (negb (1 =? 1)) with false. cbn [reject_if mbind res_bind].
    rewrite (proj2 (require_unsigned_ok _ _ _ _) Hs). cbn [mbind res_bind].
    rewrite (proj2 (negb_valid _)) by done. cbn [reject_if mbind res_bind].
    rewrite (proj2 (require_field_ok _ _ _ _) Hp). cbn [mbind res_bind].
    rewrite wrap_known by done. rewrite <-Hv1.
    assert (wrap 16 (version r) = version r) as -> by (by rewrite Hv1). by destruct r.
Qed.

Lemma decode_record_object r : record_ok r → decode_record (VObject (record_object r)) = Ok r.
Proof. intros H. apply decode_record_ok. eexists. split; [done|]. split; [done|]. done. Qed.

Lemma records_loop_ok rs encoded vs :
  rfold (λ encoded r, v ← record_value r; Ok (encoded ++ [v])) rs encoded = Ok vs ↔
  vs = encoded ++ (VObject ∘ record_object <$> rs) ∧
  Forall (λ r, within_limits (VObject (record_object r)) = true) rs.
Proof.
  revert encoded. induction rs as [|r rs IH]; intros encoded; cbn [rfold].
  { cbn. rewrite app_nil_r. naive_solver. }
  rewrite res_bind_ok. setoid_rewrite IH. setoid_rewrite res_bind_ok.
  setoid_rewrite record_value_ok. rewrite Forall_cons. split.
  - intros (e & (v & (-> & ?) & [= <-]) & -> & ?). by rewrite <-app_assoc.
  - intros (-> & ? & ?). eexists. split; [by eexists|]. by rewrite <-app_assoc.
Qed.

Lemma records_value_ok rs v :
  records_value rs = Ok v → v = VArray (VObject ∘ record_object <$> rs).
Proof.
  unfold records_value. intros (e & (-> & _)%records_loop_ok & H)%res_bind_ok.
  by apply Value_array_ok in H as [-> _].
Qed.

Lemma records_decode_ok l acc rs :
  rfold (λ records encoded, r ← decode_record encoded; Ok (records ++ [r])) l acc = Ok rs ↔
  ∃ rs', rs = acc ++ rs' ∧ Forall2 (λ v r, decode_record v = Ok r) l rs'.
Proof.
  revert acc. induction l as [|v l IH]; intros acc; cbn [rfold].
  { split.
    - intros [= <-]. exists []. by rewrite app_nil_r.
    - intros (rs' & -> & H). inversion H; subst. by rewrite app_nil_r. }
  split.
  - intros (a & (r & Hr & [= <-])%res_bind_ok & H)%res_bind_ok.
    apply IH in H as (rs' & -> & ?). exists (r :: rs').
    rewrite <-app_assoc. split; [done|by constructor].
  - intros (rs' & -> & H). inversion H as [|? r ? rs'' Hr]; subst.
    apply res_bind_ok. exists (acc ++ [r]). split; [by rewrite Hr|].
    apply IH. exists rs''. by rewrite <-app_assoc.
Qed.

Lemma records_field_ok o name rs :
  is_Some (sm_find name o) →
  records_field_or_empty o name = Ok rs ↔
  ∃ l, sm_find name o = Some (VArray l) ∧ Forall2 (λ v r, decode_record v = Ok r) l rs.
Proof.
  intros [v Hv]. unfold records_field_or_empty. rewrite Hv, guard_ok, kind_array. split.
  - intros ((l & ->) & H). cbn [as_array mbind res_bind] in H.
    apply records_decode_ok in H as (rs' & -> & ?). by exists l.
  - intros (l & [= ->] & ?). split; [by eexists|]. cbn [as_array mbind res_bind].
    apply records_decode_ok. by exists rs.
Qed.

Lemma decode_records_unique l rs :
  Forall2 (λ v r, decode_record v = Ok r) (VObject ∘ record_object <$> l) rs → rs = l.
Proof.
  revert rs. induction l as [|r l IH]; intros rs H; inversion H; subst; [done|].
  f_equal; [|by apply IH].
  match goal with H : decode_record _ = Ok ?y |- _ =>
    apply decode_record_ok in H as (o & [= <-] & _ & Hs & Ht & Hv & Hp);
    injection Hs as Hs; injection Ht as Ht; injection Hv as Hv; injection Hp as Hp;
    destruct y, r; cbn in *; congruence end.
Qed.

(** ** Restoring a checkpoint *)

#[local] Transparent checkpoint_payload restore_checkpoint.

(** [o] holds, under [name], the records [rs]. *)
Definition decodes_to (o : object) (name : string) (rs : list EventRecord) : Prop :=
  ∃ l, sm_find name o = Some (VArray l) ∧ Forall2 (λ v r, decode_record v = Ok r) l rs.

(** The checkpoint object [o] describes the state [s], field by field. *)
Record describes (o : object) (s : SerializedWorldState) : Prop := MkDescribes {
  d_topology : sm_find "topology" o = Some (VObject (ws_topology s));
  d_components : sm_find "components" o = Some (VObject (ws_components s));
  d_intents : sm_find "intents" o = Some (VObject (ws_intents s));
  d_commands : sm_find "commands" o = Some (VObject (ws_commands s));
  d_observedState : sm_find "observed_state" o = Some (VObject (ws_observedState s));
  d_observedAuthority : sm_find "observed_authority" o = Some (VObject (ws_observedAuthority s));
  d_configuration : sm_find "configuration" o = Some (VObject (ws_configuration s));
  d_handleGenerations : sm_find "handle_generations" o = Some (VObject (ws_handleGenerations s));
  d_sessionEvents : decodes_to o "session_events" (ws_sessionEvents s);
  d_configurationEvents : decodes_to o "configuration_events" (ws_configurationEvents s);
  d_frameEvents : decodes_to o "frame_events" (ws_frameEvents s);
  d_resolutions : decodes_to o "resolutions" (ws_resolutions s);
  d_commandAttempts : decodes_to o "command_attempts" (ws_commandAttempts s);
  d_reports : decodes_to o "reports" (ws_reports s);
  d_observations : decodes_to o "observations" (ws_observations s);
  d_failures : decodes_to o "failures" (ws_failures s);
  d_recoveries : decodes_to o "recoveries" (ws_recoveries s);
  d_retentions : decodes_to o "retentions" (ws_retentions s);
  d_scripts : decodes_to o "scripts" (ws_scripts s)
}.

Lemma optional_object_field_ok o name m :
  optional_object_field o name = Ok m ↔ sm_find name o = Some (VObject m).
Proof.
  unfold optional_object_field. destruct (sm_find name o) as [v|]; [|naive_solver].
  rewrite guard_ok, kind_object. split.
  - by intros ((m' & ->) & [= ->]).
  - intros [= ->]. split; [by eexists|done].
Qed.

Lemma object_field_or_empty_ok o name m :
  is_Some (sm_find name o) →
  object_field_or_empty o name = Ok m ↔ sm_find name o = Some (VObject m).
Proof.
  intros [v Hv]. unfold object_field_or_empty. rewrite Hv, guard_ok, kind_object. split.
  - by intros ((m' & ->) & [= ->]).
  - intros [= ->]. split; [by eexists|done].
Qed.

(** Every field a checkpoint must have is there. *)
Lemma checkpoint_ok_fields o s p name :
  checkpoint_ok o s p →
  bool_decide (name ∈ checkpoint_object_names ++ checkpoint_record_names) = true →
  is_Some (sm_find name o).
Proof.
  intros [_ _ _ Ho _ _ Hr] Hin%bool_decide_eq_true. rewrite Forall_forall in Ho, Hr.
  apply elem_of_app in Hin as [Hin|Hin].
  - destruct (Ho _ Hin) as [m ->]. by eexists.
  - destruct (Hr _ Hin) as (l & -> & _). by eexists.
Qed.

Lemma restore_checkpoint_ok s0 r s :
  restore_checkpoint s0 r = Ok s ↔
  sequence r ≠ 0 ∧ ∃ o, payload r = VObject o ∧
    checkpoint_ok o (ws_session s0) (sequence r - 1) ∧
    ws_session s = ws_session s0 ∧ ws_replayPosition s = sequence r - 1 ∧
    describes o s.
Proof.
  unfold restore_checkpoint. rewrite unit_bind_ok, validate_checkpoint_anchor_ok. split.
  - intros ((Hq & o & Ho & Hcp) & H). split; [done|]. exists o.
    split; [done|]. split; [done|].
    rewrite Ho, (proj2 (require_object_ok _ _ o) eq_refl) in H. cbn [mbind res_bind] in H.
    rewrite (cp_session _ _ _ Hcp), N.eqb_refl in H. cbn [negb reject_if mbind res_bind] in H.
    rewrite (cp_position _ _ _ Hcp) in H. cbn [mbind res_bind] in H.
    invert_res. cbn. split; [done|]. split; [done|].
    repeat match goal with
    | H : optional_object_field _ _ = Ok _ |- _ => apply optional_object_field_ok in H
    | H : object_field_or_empty _ _ = Ok _ |- _ =>
        apply object_field_or_empty_ok in H; [|by eapply checkpoint_ok_fields]
    | H : records_field_or_empty _ _ = Ok _ |- _ =>
        apply records_field_ok in H; [|by eapply checkpoint_ok_fields]
    end.
    by constructor.
  - intros (Hq & o & Ho & Hcp & Hses & Hpos & Hd). split; [by eauto|].
    rewrite Ho, (proj2 (require_object_ok _ _ o) eq_refl). cbn [mbind res_bind].
    rewrite (cp_session _ _ _ Hcp), N.eqb_refl. cbn [negb reject_if mbind res_bind].
    rewrite (cp_position _ _ _ Hcp). cbn [mbind res_bind].
    destruct s; cbn in Hses, Hpos; subst. destruct Hd; cbn in *.
    repeat (apply res_bind_ok; eexists; split;
      [first [ by apply optional_object_field_ok
             | by apply object_field_or_empty_ok; [eexists|]
             | apply records_field_ok; [eapply checkpoint_ok_fields; [done|]; by vm_compute|done] ]|]).
    done.
Qed.


(** The entries of the checkpoint of [s]. *)
Definition records_entry (rs : list EventRecord) : value :=
  VArray (VObject ∘ record_object <$> rs).

Definition checkpoint_fields (s : SerializedWorldState) : list (string * value) :=
  [("session", VUnsigned (ws_session s));
   ("replay_position", VUnsigned (ws_replayPosition s));
   ("topology", VObject (ws_topology s));
   ("components", VObject (ws_components s));
   ("intents", VObject (ws_intents s));
   ("commands", VObject (ws_commands s));
   ("observed_state", VObject (ws_observedState s));
   ("observed_authority", VObject (ws_observedAuthority s));
   ("configuration", VObject (ws_configuration s));
   ("handle_generations", VObject (ws_handleGenerations s));
   ("session_events", records_entry (ws_sessionEvents s));
   ("configuration_events", records_entry (ws_configurationEvents s));
   ("frame_events", records_entry (ws_frameEvents s));
   ("resolutions", records_entry (ws_resolutions s));
   ("command_attempts", records_entry (ws_commandAttempts s));
   ("reports", records_entry (ws_reports s));
   ("observations", records_entry (ws_observations s));
   ("failures", records_entry (ws_failures s));
   ("recoveries", records_entry (ws_recoveries s));
   ("retentions", records_entry (ws_retentions s));
   ("scripts", records_entry (ws_scripts s))].

Definition checkpoint_entries (s : SerializedWorldState) : object :=
  emplace_all (checkpoint_fields s) [].

Lemma find_emplace_all k l (m : object) :
  sm_find k (emplace_all l m) =
  match sm_find k m with Some v => Some v | None => sm_find k l end.
Proof.
  unfold emplace_all. revert m. induction l as [|[k' v'] l IH]; intros m; cbn [foldl sm_find].
  { by destruct (sm_find k m). }
  rewrite IH. cbn [fst snd]. unfold sm_emplace, sm_contains.
  destruct (sm_find k' m) as [w|] eqn:E; cbn [fst].
  - destruct (sm_find k m) eqn:E'; [done|]. rewrite decide_False; [done|]. congruence.
  - case_decide as Ek; subst.
    + by rewrite sm_find_assign_eq, E.
    + by rewrite sm_find_assign_ne.
Qed.

Lemma find_checkpoint_entries k s :
  sm_find k (checkpoint_entries s) = sm_find k (checkpoint_fields s).
Proof.
  unfold checkpoint_entries. generalize (checkpoint_fields s). intros l.
  by rewrite find_emplace_all.
Qed.

#[local] Opaque emplace_all.

Lemma checkpoint_payload_ok s p :
  checkpoint_payload s = Ok p →
  ws_session s ≠ 0 ∧ p = VObject (checkpoint_entries s) ∧ within_limits p = true.
Proof.
  unfold checkpoint_payload. intros H. apply guard_ok in H as [Hs%negb_valid H].
  split; [done|]. invert_res.
  repeat match goal with
  | H : Value_object _ = Ok _ |- _ => apply Value_object_ok in H as [? ?]; subst
  | H : records_value _ = Ok _ |- _ => apply records_value_ok in H; subst
  end.
  unfold checkpoint_entries, checkpoint_fields, records_entry. by split.
Qed.

Lemma decodes_to_entry s name l rs :
  decodes_to (checkpoint_entries s) name rs →
  sm_find name (checkpoint_fields s) = Some (records_entry l) → rs = l.
Proof.
  intros (vs & Hf & Hd) Hl. rewrite find_checkpoint_entries, Hl in Hf.
  injection Hf as <-. by apply decode_records_unique.
Qed.

Lemma object_entry s name m m' :
  sm_find name (checkpoint_entries s) = Some (VObject m) →
  sm_find name (checkpoint_fields s) = Some (VObject m') → m = m'.
Proof. rewrite find_checkpoint_entries. congruence. Qed.

Lemma world_state_ext s s' :
  ws_session s' = ws_session s →
  ws_replayPosition s' = ws_replayPosition s →
  ws_topology s' = ws_topology s →
  ws_components s' = ws_components s →
  ws_intents s' = ws_intents s →
  ws_commands s' = ws_commands s →
  ws_observedState s' = ws_observedState s →
  ws_observedAuthority s' = ws_observedAuthority s →
  ws_configuration s' = ws_configuration s →
  ws_handleGenerations s' = ws_handleGenerations s →
  ws_sessionEvents s' = ws_sessionEvents s →
  ws_configurationEvents s' = ws_configurationEvents s →
  ws_frameEvents s' = ws_frameEvents s →
  ws_resolutions s' = ws_resolutions s →
  ws_commandAttempts s' = ws_commandAttempts s →
  ws_reports s' = ws_reports s →
  ws_observations s' = ws_observations s →
  ws_failures s' = ws_failures s →
  ws_recoveries s' = ws_recoveries s →
  ws_retentions s' = ws_retentions s →
  ws_scripts s' = ws_scripts s → s' = s.
Proof. destruct s, s'; cbn; intros; by subst. Qed.

(** The state described by the checkpoint of [s] is [s]: lookups in the entries
    return the fields, and the encoded records decode only to themselves. *)
Lemma checkpoint_entries_describe s s' :
  describes (checkpoint_entries s) s' →
  ws_session s' = ws_session s → ws_replayPosition s' = ws_replayPosition s → s' = s.
Proof.
  intros [] Hs Hp. apply world_state_ext; [done|done|..];
    first [by eapply object_entry | by eapply decodes_to_entry].
Qed.

Definition all_records (s : SerializedWorldState) : list EventRecord :=
  ws_sessionEvents s ++
  ws_configurationEvents s ++
  ws_frameEvents s ++
  ws_resolutions s ++
  ws_commandAttempts s ++
  ws_reports s ++
  ws_observations s ++
  ws_failures s ++
  ws_recoveries s ++
  ws_retentions s ++
  ws_scripts s.

Lemma describe_checkpoint_entries s :
  Forall record_ok (all_records s) → describes (checkpoint_entries s) s.
Proof.
  unfold all_records. intros H. repeat (apply Forall_app in H as [? H]).
  assert (∀ name rs, sm_find name (checkpoint_fields s) = Some (records_entry rs) →
    Forall record_ok rs → decodes_to (checkpoint_entries s) name rs) as Hdec.
  { intros name rs Hf Hok. exists (VObject ∘ record_object <$> rs).
    split; [by rewrite find_checkpoint_entries|]. clear Hf.
    induction Hok as [|r rs Hr _ IH]; constructor; [by apply decode_record_object|done]. }
  constructor; rewrite ?find_checkpoint_entries; first [reflexivity | by apply Hdec].
Qed.

(** ** The loop *)

#[local] Opaque checkpoint_payload restore_checkpoint checkpoint_entries.

(** Splits the [switch] of [project_record] into its cases. *)
Ltac project_cases H :=
  unfold project_record in H;
  repeat match type of H with
  | (if ?c then _ else _) = _ => destruct c eqn:?
  end.

Lemma change_configuration_inv s r s' :
  change_configuration s r = Ok s' →
  ∃ c g, s' = set_handleGenerations g (set_configuration c (push_configurationEvents r s)).
Proof.
  unfold change_configuration. intros H. apply res_bind_ok in H as ([c|] & _ & H).
  - apply res_bind_ok in H as (o & _ & H). apply res_bind_ok in H as (k & _ & H).
    destruct (negb _); invert_res; [exists c, (ws_handleGenerations s)|]; by eauto.
  - injection H as <-. exists (ws_configuration s), (ws_handleGenerations s). by destruct s.
Qed.

Lemma project_record_session first s r s' :
  project_record first s r = Ok s' → ws_session s' = ws_session s.
Proof.
  intros H. project_cases H; invert_res; try reflexivity; try discriminate H.
  - match goal with H : restore_checkpoint _ _ = _ |- _ => apply restore_checkpoint_ok in H end.
    naive_solver.
  - by apply change_configuration_inv in H as (c & g & ->).
Qed.

Lemma project_step_inv first last expected s r s' :
  project_step first last expected s r = Ok s' →
  sequence r ≠ 0 ∧ (expected = 0 ∨ sequence r = expected) ∧ version r = 1 ∧
  (next_sequence (sequence r) ≠ 0 ∨ last = true) ∧
  ∃ s1, project_record first s r = Ok s1 ∧ s' = set_replayPosition (sequence r) s1.
Proof.
  unfold project_step. intros H.
  apply guard_ok in H as [?%negb_valid H]. apply guard_ok in H as [Hexp H].
  apply guard_ok in H as [Hv H]. apply res_bind_ok in H as (s1 & H1 & H).
  apply guard_ok in H as [Hlast [= <-]]. unfold valid in *.
  split_and!; [done|lia|lia|destruct last; lia|by exists s1].
Qed.

Lemma project_step_ok first last expected s r s1 :
  sequence r ≠ 0 → (expected = 0 ∨ sequence r = expected) → version r = 1 →
  (next_sequence (sequence r) ≠ 0 ∨ last = true) → project_record first s r = Ok s1 →
  project_step first last expected s r = Ok (set_replayPosition (sequence r) s1).
Proof.
  intros Hs He Hv Hl Hr. unfold project_step. rewrite !guard_ok.
  split; [by apply negb_valid|]. split; [unfold valid; lia|]. split; [lia|].
  rewrite Hr. cbn [mbind res_bind]. rewrite guard_ok. split; [|done].
  unfold valid. destruct Hl as [? | ->]; [lia|]. by rewrite andb_false_r.
Qed.

(** Reaching a record in the middle of a log. *)
Lemma project_loop_split first expected s pre r suf s' :
  project_loop first expected s (pre ++ r :: suf) = Ok s' →
  ∃ expected1 s1, ws_session s1 = ws_session s ∧
    project_loop first expected s pre = Ok s1 ∧
    project_loop (first && bool_decide (pre = [])) expected1 s1 (r :: suf) = Ok s'.
Proof.
  revert first expected s. induction pre as [|p pre IH]; intros first expected s H.
  { exists expected, s. rewrite andb_true_r. done. }
  cbn [app project_loop] in H |- *. apply res_bind_ok in H as (s2 & Hstep & H).
  apply IH in H as (e1 & s1 & Hses & Hpre & H). rewrite andb_false_r.
  exists e1, s1. cbn [andb] in H.
  apply project_step_inv in Hstep as (Hs & He & Hv & Hl & s3 & Hrec & ->).
  split; [rewrite Hses; exact (project_record_session _ _ _ _ Hrec)|]. split; [|done].
  rewrite (project_step_ok _ _ _ _ _ s3); try done.
  destruct Hl as [Hl|Hl]; [by left|].
  apply bool_decide_eq_true in Hl. by destruct pre.
Qed.

Lemma project_record_checkpoint first s r :
  type r = EventType.Checkpoint →
  project_record first s r =
  ((if first then Ok tt
    else
      expected ← checkpoint_payload s;
      reject_if (negb (value_eqb expected (payload r))) EventStoreError
        "checkpoint does not match projected event history");;
   restore_checkpoint s r).
Proof. intros Ht. unfold project_record. by rewrite Ht. Qed.

(** A checkpoint makes the rest of the log independent of what came before. *)
Lemma restore_checkpoint_session s1 s2 r s :
  ws_session s1 = ws_session s2 → restore_checkpoint s1 r = Ok s →
  restore_checkpoint s2 r = Ok s.
Proof.
  intros E (Hq & o & Ho & Hcp & Hs & Hp & Hd)%restore_checkpoint_ok.
  apply restore_checkpoint_ok. split; [done|]. exists o. rewrite <-E. done.
Qed.

Lemma VObject_inj a b : VObject a = VObject b → a = b.
Proof. by intros [=]. Qed.

(** A checkpoint in the log restores the projection it was taken from. *)
Lemma project_checkpoint_restores s r s' :
  type r = EventType.Checkpoint → project_record false s r = Ok s' →
  ws_replayPosition s = sequence r - 1 ∧ s' = s.
Proof.
  intros Ht H. rewrite project_record_checkpoint in H by done.
  apply unit_bind_ok in H as [Hp Hr].
  apply res_bind_ok in Hp as (p & Hp & Heq).
  apply reject_if_ok, negb_false_iff, bool_decide_eq_true in Heq as ->.
  apply checkpoint_payload_ok in Hp as (_ & Hpay & _).
  apply restore_checkpoint_ok in Hr as (Hq & o & Ho & Hcp & Hses & Hpos & Hd).
  rewrite Hpay in Ho. apply VObject_inj in Ho. subst o.
  pose proof (cp_position _ _ _ Hcp) as Hposition.
  rewrite find_checkpoint_entries in Hposition. cbn in Hposition.
  injection Hposition as Hposition. split; [done|].
  apply checkpoint_entries_describe; [done..|congruence].
Qed.

Lemma initial_state_session m s : initial_state m = Ok s → ws_session s = session m.
Proof. unfold initial_state. intros H. by invert_res. Qed.

(** ** Invariants of projected states *)

(** Every retained record is one a checkpoint can carry, and the authority map
    holds objects, as the checkpoint's validation demands. *)
Definition state_ok (s : SerializedWorldState) : Prop :=
  Forall record_ok (all_records s) ∧ object_entries (ws_observedAuthority s).

Lemma project_record_known first s r s' :
  project_record first s r = Ok s' → unknown_type (type r) = false.
Proof.
  intros H. apply unknown_type_false.
  unfold project_record in H.
  repeat match type of H with
  | (if ?c then _ else _) = _ =>
      destruct c eqn:Hc;
      [clear H; revert Hc; unfold EventType.SessionStarted, EventType.TopologyChanged,
        EventType.ComponentMutated, EventType.ComponentRemoved, EventType.IntentCreated,
        EventType.IntentDestroyed, EventType.CommandIssued,
        EventType.CommandStatusChanged, EventType.ObservedStateChanged,
        EventType.Checkpoint, EventType.FrameStarted, EventType.FrameCompleted,
        EventType.FrameFailed, EventType.ResolutionSelected, EventType.CommandAttempted,
        EventType.ReportReceived, EventType.ExternalObservationReceived,
        EventType.Recovery, EventType.Retention, EventType.ConfigurationChanged,
        EventType.ScriptExecuted; lia | clear Hc]
  end.
  discriminate H.
Qed.

Lemma object_entries_assign k o m :
  object_entries m → object_entries (sm_assign k (VObject o) m).
Proof.
  unfold object_entries. induction m as [|[k' v'] m IH]; cbn [sm_assign].
  - intros _. repeat constructor. by eexists.
  - intros H. inversion H; subst. destruct (String.compare k k').
    + constructor; [by eexists|done].
    + constructor; [by eexists|done].
    + constructor; [done|by apply IH].
Qed.

Lemma set_observed_authority_ok m r m' :
  object_entries m → set_observed_authority m r = Ok m' → object_entries m'.
Proof.
  unfold set_observed_authority. intros Hm H. apply res_bind_ok in H as (o & Ho & H).
  apply require_object_ok in Ho. rewrite Ho in H.
  repeat case_match; try (injection H as <-); try done. by apply object_entries_assign.
Qed.

Lemma describes_state_ok o sess pos s :
  checkpoint_ok o sess pos → describes o s → state_ok s.
Proof.
  intros Hcp Hd. split.
  - assert (∀ name rs, decodes_to o name rs → Forall record_ok rs) as Hdec.
    { intros name rs (l & _ & H2). induction H2 as [|v r l rs Hr _ IH]; constructor; [|done].
      apply decode_record_ok in Hr as (? & _ & ? & _). done. }
    unfold all_records. rewrite !Forall_app. destruct Hd.
    split_and!; by eapply Hdec.
  - destruct (cp_authority _ _ _ Hcp) as (m & Hm & Hent).
    pose proof (d_observedAuthority _ _ Hd). by simplify_eq.
Qed.

Lemma project_record_state_ok first s r s' :
  state_ok s → sequence r ≠ 0 → version r = 1 →
  project_record first s r = Ok s' → state_ok s'.
Proof.
  intros [Hrec Hauth] Hs Hv H.
  assert (record_ok r) as Hr by (split; [done|]; split; [by eapply project_record_known|done]).
  assert (∀ s1, ws_observedAuthority s1 = ws_observedAuthority s →
    (∀ x, x ∈ all_records s1 → x ∈ all_records s ∨ x = r) → state_ok s1) as Hpush.
  { intros s1 Ha Hx. split; [|by rewrite Ha]. rewrite Forall_forall in Hrec |- *.
    intros x [?| ->]%Hx; auto. }
  project_cases H; invert_res;
    try (apply Hpush; [reflexivity|unfold all_records; cbn; intros x; clear; set_solver]);
    try discriminate H.
  - split; [done|]. by eapply set_observed_authority_ok.
  - match goal with H : restore_checkpoint _ _ = _ |- _ =>
      apply restore_checkpoint_ok in H as (_ & o & _ & Hcp & _ & _ & Hd) end.
    by eapply describes_state_ok.
  - apply change_configuration_inv in H as (c & g & ->).
    apply Hpush; [reflexivity|]. unfold all_records. cbn. intros x. clear. set_solver.
Qed.

Lemma state_ok_position q s : state_ok (set_replayPosition q s) ↔ state_ok s.
Proof. done. Qed.

Lemma project_loop_state_ok first expected s rs s' :
  state_ok s → project_loop first expected s rs = Ok s' →
  state_ok s' ∧ ∀ r, last rs = Some r → ws_replayPosition s' = sequence r ∧ sequence r ≠ 0.
Proof.
  revert first expected s. induction rs as [|r rs IH]; intros first expected s Hs H.
  { injection H as <-. done. }
  cbn [project_loop] in H. apply res_bind_ok in H as (s1 & Hstep & H).
  apply project_step_inv in Hstep as (Hr & _ & Hv & _ & s2 & Hrec & ->).
  pose proof (project_record_state_ok _ _ _ _ Hs Hr Hv Hrec) as Hs2.
  pose proof H as Hloop. apply IH in H as [Hs' Hlast]; [|by apply state_ok_position].
  split; [done|]. intros x Hx. destruct rs as [|r' rs].
  - injection Hx as <-. injection Hloop as <-. done.
  - by apply Hlast.
Qed.

Lemma project_loop_session first expected s rs s' :
  project_loop first expected s rs = Ok s' → ws_session s' = ws_session s.
Proof.
  revert first expected s. induction rs as [|r rs IH]; intros first expected s H.
  { by injection H as <-. }
  cbn [project_loop] in H. apply res_bind_ok in H as (s1 & Hstep & H).
  apply project_step_inv in Hstep as (_ & _ & _ & _ & s2 & Hrec & ->).
  apply IH in H. rewrite H. exact (project_record_session _ _ _ _ Hrec).
Qed.

Lemma project_session m rs s : project m rs = Ok s → ws_session s = session m.
Proof.
  unfold project. intros (s0 & H0 & H)%res_bind_ok.
  rewrite (project_loop_session _ _ _ _ _ H). by apply initial_state_session.
Qed.

Lemma initial_state_ok m s : initial_state m = Ok s → state_ok s.
Proof. unfold initial_state. intros H. invert_res. by split; constructor. Qed.

Lemma project_state_ok m rs s : project m rs = Ok s →
  state_ok s ∧ ∀ r, last rs = Some r → ws_replayPosition s = sequence r ∧ sequence r ≠ 0.
Proof.
  unfold project. intros (s0 & H0 & H)%res_bind_ok.
  eapply project_loop_state_ok; [by eapply initial_state_ok|done].
Qed.

Lemma project_step_last first l l' expected s r :
  next_sequence (sequence r) ≠ 0 →
  project_step first l expected s r = project_step first l' expected s r.
Proof.
  intros H. unfold project_step. assert (valid (next_sequence (sequence r)) = true) as ->;
    [unfold valid; lia|done].
Qed.

(** Appending one record to a projected log. *)
Lemma project_loop_snoc first expected s pre p r :
  last pre = Some p → next_sequence (sequence p) ≠ 0 →
  project_loop first expected s (pre ++ [r]) =
  (s1 ← project_loop first expected s pre;
   project_step false true (next_sequence (sequence p)) s1 r).
Proof.
  intros Hlast Hp. revert first expected s.
  induction pre as [|x pre IH]; intros first expected s; [done|].
  cbn [app project_loop]. destruct pre as [|y pre].
  - injection Hlast as ->. cbn [app project_loop].
    rewrite (project_step_last _ _ (bool_decide ([] = @nil EventRecord))) by done.
    destruct (project_step _ _ _ _ _) as [s1|e]; cbn [mbind res_bind]; [|done].
    by destruct (project_step false _ _ _ _).
  - cbn [app]. rewrite !bool_decide_eq_false_2 by done.
    destruct (project_step _ _ _ _ _) as [s1|e]; cbn [mbind res_bind]; [|done].
    by apply IH.
Qed.

(** What a projected state needs for its checkpoint to be accepted. *)
Lemma checkpoint_entries_ok s :
  state_ok s → ws_session s ≠ 0 → object_entries (ws_commands s) →
  checkpoint_ok (checkpoint_entries s) (ws_session s) (ws_replayPosition s).
Proof.
  intros [Hrec Hauth] Hses Hcmd.
  pose proof (describe_checkpoint_entries s Hrec) as Hd.
  assert (∀ name rs, decodes_to (checkpoint_entries s) name rs →
    ∃ l, sm_find name (checkpoint_entries s) = Some (VArray l) ∧
         Forall checkpoint_record_ok l) as Hdec.
  { intros name rs (l & Hf & H2). exists l. split; [done|]. clear Hf.
    induction H2 as [|v r l rs Hr _ IH]; constructor; [|done].
    apply decode_record_ok in Hr as (o & -> & (Hs & Hk & Hv) & Hfs & Hft & Hfv & Hfp).
    rewrite Hv in Hfv. by exists o, (sequence r), (type r), (payload r). }
  constructor; rewrite ?find_checkpoint_entries; try done.
  - destruct Hd. repeat constructor; by eexists.
  - eexists. split; [reflexivity|done].
  - eexists. split; [reflexivity|done].
  - destruct Hd. unfold checkpoint_record_names.
    repeat (apply Forall_cons; split; [by eapply Hdec|]). by apply Forall_nil.
Qed.

(** The record a store makes of a projected state's checkpoint. *)
Lemma project_own_checkpoint s p q :
  state_ok s → object_entries (ws_commands s) → checkpoint_payload s = Ok p →
  ws_replayPosition s = q →
  project_record false s (MkEventRecord (q + 1) EventType.Checkpoint 1 p) = Ok s.
Proof.
  intros Hs Hc Hp Hq. rewrite project_record_checkpoint by done. cbn [payload].
  rewrite Hp. cbn [mbind res_bind]. unfold value_eqb.
  rewrite bool_decide_eq_true_2 by done. cbn [negb reject_if mbind res_bind].
  apply checkpoint_payload_ok in Hp as (Hses & -> & _).
  apply restore_checkpoint_ok. cbn [sequence payload]. split; [lia|].
  exists (checkpoint_entries s). replace (q + 1 - 1) with q by lia. rewrite <-Hq.
  split_and!; try done; [by apply checkpoint_entries_ok|].
  apply describe_checkpoint_entries. by destruct Hs.
Qed.

(** The log from a checkpoint on projects as the whole log does. *)
Lemma project_from_checkpoint m before after checkpoint s :
  type checkpoint = EventType.Checkpoint →
  project m (before ++ checkpoint :: after) = Ok s →
  project m (checkpoint :: after) = Ok s.
Proof.
  intros Ht (s0 & H0 & H)%res_bind_ok. unfold project. rewrite H0. cbn [mbind res_bind].
  apply project_loop_split in H as (e1 & s1 & Hses & _ & H).
  cbn [project_loop] in H |- *.
  apply res_bind_ok in H as (s2 & (Hq & _ & Hv & Hlast & s3 & Hrec & ->)%project_step_inv & H).
  rewrite project_record_checkpoint in Hrec by done.
  apply unit_bind_ok in Hrec as [_ Hrestore].
  rewrite (project_step_ok _ _ _ _ _ s3); try done; [by left|].
  rewrite project_record_checkpoint by done.
  by apply (restore_checkpoint_session s1).
Qed.

(** A checkpoint taken from a projected log can be appended to it. *)
Lemma project_append_checkpoint m rs p s r :
  project m rs = Ok s → last rs = Some r → sequence r ≠ u64_max →
  object_entries (ws_commands s) → checkpoint_payload s = Ok p →
  project m (rs ++ [MkEventRecord (sequence r + 1) EventType.Checkpoint 1 p]) =
  Ok (set_replayPosition (sequence r + 1) s).
Proof.
  intros Hproj Hlast Hmax Hcmd Hp.
  destruct (project_state_ok _ _ _ Hproj) as [Hs Hpos].
  destruct (Hpos _ Hlast) as [Hq Hr].
  assert (next_sequence (sequence r) = sequence r + 1) as Hnext
    by (unfold next_sequence; by rewrite (proj2 (N.eqb_neq _ _))).
  unfold project in *. apply res_bind_ok in Hproj as (s0 & -> & Hproj).
  cbn [mbind res_bind]. rewrite (project_loop_snoc _ _ _ _ r) by (done || lia).
  rewrite Hproj. cbn [mbind res_bind]. rewrite Hnext.
  apply project_step_ok; cbn [sequence version]; [lia|by right|done|by right|].
  by apply project_own_checkpoint.
Qed.

(** * Properties *)

(** C22. Compaction is sound: whatever a log contains before a checkpoint, once
    the whole log projects, the log that starts at the checkpoint projects to
    the same state, so retention may drop everything before it. *)
Theorem replay_from_checkpoint (m : EventStoreMetadata) (before after : list EventRecord)
    (checkpoint : EventRecord) (s : SerializedWorldState) :
  type checkpoint = EventType.Checkpoint →
  project m (before ++ checkpoint :: after) = Ok s →
  project m (checkpoint :: after) = Ok s.
Proof. apply project_from_checkpoint. Qed.

(** A checkpoint inside a log restores exactly the projection of the records
    before it: only the replay position moves, to the checkpoint itself. *)
Theorem checkpoint_restores_projection (m : EventStoreMetadata)
    (before : list EventRecord) (checkpoint : EventRecord) (s : SerializedWorldState) :
  before ≠ [] → type checkpoint = EventType.Checkpoint →
  project m (before ++ [checkpoint]) = Ok s →
  ∃ s0, project m before = Ok s0 ∧ ws_replayPosition s0 = sequence checkpoint - 1 ∧
        s = set_replayPosition (sequence checkpoint) s0.
Proof.
  intros Hne Ht (s0 & H0 & H)%res_bind_ok. unfold project. rewrite H0. cbn [mbind res_bind].
  apply project_loop_split in H as (e1 & s1 & _ & Hbefore & H). exists s1.
  rewrite bool_decide_eq_false_2 in H by done. cbn [andb project_loop] in H.
  apply res_bind_ok in H as (s2 & (_ & _ & _ & _ & s3 & Hrec & ->)%project_step_inv & [= <-]).
  by apply project_checkpoint_restores in Hrec as [? ->].
Qed.

(** A checkpoint taken from a projected log can be appended to it: when the
    checkpoint of the projection can be built (it fits the value limits) and
    every command entry is an object, the extended log projects, to the same
    state.  Building a checkpoint never produces a record replay refuses. *)
Theorem own_checkpoint_accepted (m : EventStoreMetadata) (rs : list EventRecord)
    (p : value) (s : SerializedWorldState) (r : EventRecord) :
  project m rs = Ok s → last rs = Some r → sequence r ≠ u64_max →
  object_entries (ws_commands s) → checkpoint_payload s = Ok p →
  let checkpoint := MkEventRecord (sequence r + 1) EventType.Checkpoint 1 p in
  project m (rs ++ [checkpoint]) = Ok (set_replayPosition (sequence r + 1) s).
Proof. intros. by apply project_append_checkpoint. Qed.

(** [ReplayVerifier::compare] finds exactly the first difference: it reports
    nothing iff the logs are equal, and otherwise an index below which they
    agree, with the two differing records (or their absence) at that index. *)
Theorem compare_first_difference (recorded reproduced : list EventRecord) :
  (compare recorded reproduced = None ↔ recorded = reproduced) ∧
  ∀ d, compare recorded reproduced = Some d →
    ∃ i, recordIndex d = N.of_nat i ∧ take i recorded = take i reproduced ∧
      expected_record d = recorded !! i ∧ actual_record d = reproduced !! i ∧
      recorded !! i ≠ reproduced !! i.
Proof.
  split; [apply compare_from_None|]. intros d (i & Hi & ?)%compare_from_Some.
  exists i. rewrite N.add_0_l in Hi. done.
Qed.

(** [ReplayVerifier::verify] accepts a replay iff the host's callback, run
    over the recorded evidence in order with its own state, never throws and
    emits, all in all, exactly the recorded log. *)
Theorem verify_accepts_iff_reproduced {S} (recorded : list EventRecord)
    (execute : EventRecord → stm S (list EventRecord)) (s : S) :
  verify recorded (Some execute) s = None ↔
  ∃ s', emit_all execute recorded s = (Ok recorded, s').
Proof. cbn [verify]. apply (verify_loop_None execute recorded recorded 0 s). lia. Qed.

(** ** A log with a checkpoint *)

Definition replay_metadata : EventStoreMetadata := MkMetadata 7 "engine" Immediate 1 1.
Definition replay_prefix : list EventRecord :=
  [MkEventRecord 1 EventType.SessionStarted 1 VNull;
   MkEventRecord 2 EventType.TopologyChanged 1
     (VObject [("key", VString "lamp"); ("value", VUnsigned 1)]);
   MkEventRecord 3 EventType.CommandIssued 1
     (VObject [("command_id", VUnsigned 12); ("status", VString "pending")])].
Definition replay_state : SerializedWorldState :=
  match project replay_metadata replay_prefix with
  | Ok s => s
  | Err _ => MkWorldState 0 0 [] [] [] [] [] [] [] [] [] [] [] [] [] [] [] [] [] [] []
  end.
Definition replay_checkpoint : EventRecord :=
  MkEventRecord 4 EventType.Checkpoint 1
    (match checkpoint_payload replay_state with Ok p => p | Err _ => VNull end).
Definition replay_suffix : list EventRecord :=
  [MkEventRecord 5 EventType.FrameStarted 1 VNull].

Lemma replay_from_checkpoint_witness :
  is_ok (project replay_metadata (replay_prefix ++ replay_checkpoint :: replay_suffix)) = true ∧
  project replay_metadata (replay_checkpoint :: replay_suffix) =
  project replay_metadata (replay_prefix ++ replay_checkpoint :: replay_suffix).
Proof.
  destruct (project replay_metadata (replay_prefix ++ replay_checkpoint :: replay_suffix))
    as [s|e] eqn:E; [|vm_compute in E; discriminate E].
  split; [done|].
  apply (replay_from_checkpoint replay_metadata replay_prefix replay_suffix
    replay_checkpoint s); [reflexivity|exact E].
Defined.

Lemma checkpoint_restores_projection_witness :
  ∃ s0, project replay_metadata replay_prefix = Ok s0 ∧
    ws_replayPosition s0 = sequence replay_checkpoint - 1 ∧
    set_replayPosition 4 replay_state = set_replayPosition (sequence replay_checkpoint) s0.
Proof.
  apply (checkpoint_restores_projection replay_metadata replay_prefix replay_checkpoint);
    [done|reflexivity|by vm_compute].
Defined.

Lemma own_checkpoint_accepted_witness :
  project replay_metadata (replay_prefix ++ [replay_checkpoint]) =
  Ok (set_replayPosition 4 replay_state).
Proof.
  apply (own_checkpoint_accepted replay_metadata replay_prefix (payload replay_checkpoint)
    replay_state (MkEventRecord 3 EventType.CommandIssued 1
      (VObject [("command_id", VUnsigned 12); ("status", VString "pending")])));
    [by vm_compute|by vm_compute|by vm_compute| |by vm_compute].
  vm_compute. repeat constructor; by eexists.
Defined.

(** The generic command entry is a dead end for checkpoints: a
    [CommandIssued] record without [command_id] stores its value as it is, so
    a value that is not an object projects, and its checkpoint can be built,
    but replay and every store then reject that checkpoint. *)
Theorem generic_command_blocks_checkpoint :
  let log := [MkEventRecord 1 EventType.CommandIssued 1
                (VObject [("key", VString "k"); ("value", VUnsigned 5)])] in
  ∃ s p, project replay_metadata log = Ok s ∧ checkpoint_payload s = Ok p ∧
    validate_event (MkEventData EventType.Checkpoint 1 p) =
      throw EventStoreError "checkpoint command entry must be an object" ∧
    project replay_metadata (log ++ [MkEventRecord 2 EventType.Checkpoint 1 p]) =
      throw EventStoreError "checkpoint command entry must be an object".
Proof. do 2 eexists. split_and!; [by vm_compute..]. Qed.
