(* ===== verification/EventStore.v ===== *)
(** * Event stores (include/liquid/events/EventStore.hpp, src/events/EventStore.cpp,
    include/liquid/events/MemoryEventStore.hpp, src/events/MemoryEventStore.cpp)

    The store interface as a type class with the laws its clients rely on, the
    checkpoint operation the interface implements for every store, and the
    in-memory store as an instance. *)
From S2P Require Import Prelude OrderedMap Values ValueCodec Effects Events Replay.

Inductive Durability := Buffered | Durable.

#[export] Instance Durability_eq_dec : EqDecision Durability.
Proof. solve_decision. Defined.

(** ** [class EventStore] *)

(** The pure virtual functions, over the store's state [S]. *)
Class EventStore (S : Type) := {
  store_metadata : S → EventStoreMetadata;
  store_append : EventData → Durability → stm S RecordId;
  store_append_batch : list EventData → Durability → stm S (list RecordId);
  store_read_all : S → list EventRecord;
  store_flush : stm S unit;
  store_retain_from_checkpoint : RecordId → stm S unit
}.

(** [EventStore::checkpoint] *)
Definition checkpoint {S} `{EventStore S} (serializedProjection : value)
    (durability : Durability) : stm S RecordId :=
  s ← sget;
  slift (validate_checkpoint_session serializedProjection (session (store_metadata s)));;
  store_append (MkEventData EventType.Checkpoint 1 serializedProjection) durability.

(** The records a store makes of a batch appended at [first]. *)
Fixpoint records_from (first : RecordId) (events : list EventData) : list EventRecord :=
  match events with
  | [] => []
  | e :: events =>
      MkEventRecord first (data_type e) (data_version e) (data_payload e) ::
      records_from (first + 1) events
  end.

(** What every store promises: an appended batch is validated, numbered
    consecutively and added at the end, all of it or nothing; flushing changes
    no record, and the identity of the session never changes. *)
Class EventStoreLaws (S : Type) `{EventStore S} (store_ok : S → Prop) := {
  append_batch_appends : ∀ events durability s ids s',
    store_ok s → store_append_batch events durability s = (Ok ids, s') →
    store_ok s' ∧ Forall (λ e, validate_event e = Ok tt) events ∧
    store_metadata s' = store_metadata s ∧
    ∃ first, ids = sequence <$> records_from first events ∧
      store_read_all s' = store_read_all s ++ records_from first events ∧
      (events ≠ [] → first ≠ 0);
  append_batch_fails : ∀ events durability s e s',
    store_ok s → store_append_batch events durability s = (Err e, s') →
    store_ok s' ∧ store_read_all s' = store_read_all s ∧ store_metadata s' = store_metadata s;
  append_is_batch : ∀ event durability s,
    store_append event durability s =
    (ids ← store_append_batch [event] durability; mret (hd 0 ids)) s;
  flush_keeps : ∀ s r s', store_ok s → store_flush s = (r, s') →
    store_ok s' ∧ store_read_all s' = store_read_all s ∧ store_metadata s' = store_metadata s
}.

(** ** [class MemoryEventStore] *)

Record MemoryEventStore := MkMemoryEventStore {
  storeMetadata : EventStoreMetadata;
  memory_records : list EventRecord;
  maximumRecords : N;
  nextSequence : RecordId
}.

Definition set_memory (records : list EventRecord) (next : RecordId)
    (s : MemoryEventStore) : MemoryEventStore :=
  MkMemoryEventStore (storeMetadata s) records (maximumRecords s) next.

(** The constructor. *)
Definition new_MemoryEventStore (metadata : EventStoreMetadata) (maxRecords : N)
  : res MemoryEventStore :=
  validate_metadata metadata;;
  reject_if ((maxRecords =? 0) || (EventLimits.maxRecordsRead <? maxRecords))
    EventStoreError "invalid memory event-store capacity";;
  Ok (MkMemoryEventStore metadata [] maxRecords 1).

(** The body of the last loop of [append_batch]. *)
Definition memory_push (sequences : list RecordId) (e : EventData)
  : stm MemoryEventStore (list RecordId) := λ s,
  let sequence := nextSequence s in
  let record := MkEventRecord sequence (data_type e) (data_version e) (data_payload e) in
  (Ok (sequences ++ [sequence]),
   set_memory (memory_records s ++ [record]) (wrap 64 (sequence + 1)) s).

Fixpoint memory_push_all (sequences : list RecordId) (events : list EventData)
  : stm MemoryEventStore (list RecordId) :=
  match events with
  | [] => mret sequences
  | e :: events =>
      sequences ← memory_push sequences e;
      memory_push_all sequences events
  end.

Definition memory_append_batch (events : list EventData) (durability : Durability)
  : stm MemoryEventStore (list RecordId) :=
  if decide (events = []) then mret []
  else
    s ← sget;
    sreject_if ((EventLimits.maxRecordsPerBatch <? len events) ||
                (maximumRecords s - len (memory_records s) <? len events))
      EventStoreError "memory event-store capacity exceeded";;
    sreject_if (negb (valid (nextSequence s)) ||
                (u64_max - nextSequence s <? len events - 1))
      EventStoreError "event record sequence exhausted";;
    slift (rfold (λ _ e, validate_event e) events tt);;
    memory_push_all [] events.

Definition memory_append (event : EventData) (durability : Durability)
  : stm MemoryEventStore RecordId :=
  ids ← memory_append_batch [event] durability;
  mret (hd 0 ids).

(** [std::find_if] by sequence number: the records before the one found, and
    the records from it on. *)
Fixpoint find_sequence (q : RecordId) (rs : list EventRecord)
  : option (list EventRecord * list EventRecord) :=
  match rs with
  | [] => None
  | r :: rs' =>
      if sequence r =? q then Some ([], rs)
      else match find_sequence q rs' with
      | Some (before, from) => Some (r :: before, from)
      | None => None
      end
  end.

Definition bump_generation (m : EventStoreMetadata) : EventStoreMetadata :=
  MkMetadata (session m) (engineVersion m) (feedbackTiming m) (fileGeneration m + 1)
    (fileFormatVersion m).

(** The retained log of a store with metadata [m]: the records from the verified
    checkpoint on, and the retention record that follows them. *)
Definition retained_records (m : EventStoreMetadata) (records : list EventRecord)
    (checkpointSequence : RecordId) : res (list EventRecord * list EventRecord) :=
  match find_sequence checkpointSequence records with
  | Some (before, checkpoint :: after) =>
      reject_if (negb (type checkpoint =? EventType.Checkpoint)) EventStoreError
        "retention requires a retained checkpoint record";;
      validate_checkpoint_anchor (payload checkpoint) (session m) checkpointSequence;;
      project m (before ++ [checkpoint]);;
      Ok (before, checkpoint :: after)
  | _ => store_error "retention requires a retained checkpoint record"
  end.

Definition memory_retain_from_checkpoint (checkpointSequence : RecordId)
  : stm MemoryEventStore unit :=
  s ← sget;
  '(before, retained) ← slift
    (retained_records (storeMetadata s) (memory_records s) checkpointSequence);
  sreject_if (maximumRecords s <=? len retained) EventStoreError
    "memory event-store capacity exceeded by retention record";;
  sreject_if (fileGeneration (storeMetadata s) =? u64_max) EventStoreError
    "file generation exhausted";;
  sreject_if (negb (valid (nextSequence s))) EventStoreError
    "event record sequence exhausted";;
  let prunedAny := negb (bool_decide (before = [])) in
  let firstPruned := if prunedAny then hd 0 (sequence <$> memory_records s) else 0 in
  let lastPruned := if prunedAny then checkpointSequence - 1 else 0 in
  payload ← slift (retention_payload firstPruned lastPruned checkpointSequence);
  let retention := MkEventData EventType.Retention 1 payload in
  slift (validate_event retention);;
  let retentionRecord :=
    MkEventRecord (nextSequence s) (data_type retention) (data_version retention)
      (data_payload retention) in
  sput (MkMemoryEventStore (bump_generation (storeMetadata s))
          (retained ++ [retentionRecord]) (maximumRecords s)
          (wrap 64 (nextSequence s + 1))).

#[export] Instance MemoryEventStore_store : EventStore MemoryEventStore := {
  store_metadata := storeMetadata;
  store_append := memory_append;
  store_append_batch := memory_append_batch;
  store_read_all := memory_records;
  store_flush := mret tt;
  store_retain_from_checkpoint := memory_retain_from_checkpoint
}.

(** * Lemmas *)

Lemma len_records_from n events : len (records_from n events) = len events.
Proof.
  revert n. induction events as [|e events IH]; intros n; cbn [records_from]; [done|].
  by rewrite !len_cons, IH.
Qed.

Lemma consecutive_records_from n events : consecutive n (records_from n events).
Proof. revert n. induction events as [|e events IH]; intros n; cbn; [done|]. auto. Qed.

Lemma records_from_valid n events :
  Forall (λ e, validate_event e = Ok tt) events →
  Forall (λ r, validate_event (event_of r) = Ok tt) (records_from n events).
Proof.
  intros H. revert n. induction H as [|e events He _ IH]; intros n; cbn [records_from].
  - constructor.
  - constructor; [by destruct e|apply IH].
Qed.

Lemma wrap64_small n : n < 2 ^ 64 → wrap 64 n = n.
Proof. apply N.mod_small. Qed.

Lemma memory_push_all_spec events acc s :
  nextSequence s < 2 ^ 64 → nextSequence s + len events <= 2 ^ 64 →
  memory_push_all acc events s =
  (Ok (acc ++ (sequence <$> records_from (nextSequence s) events)),
   set_memory (memory_records s ++ records_from (nextSequence s) events)
     (wrap 64 (nextSequence s + len events)) s).
Proof.
  revert acc s. induction events as [|e events IH]; intros acc s Hs Hmax.
  { cbn. rewrite !app_nil_r, len_nil, N.add_0_r, wrap64_small by done. by destruct s. }
  rewrite len_cons in *. cbn [memory_push_all].
  erewrite stm_bind_eq by reflexivity.
  destruct events as [|e' events].
  { cbn. rewrite len_nil, N.add_0_r. done. }
  assert (wrap 64 (nextSequence s + 1) = nextSequence s + 1) as Hnext
    by (apply wrap64_small; rewrite len_cons in Hmax; lia).
  rewrite IH; cbn [set_memory nextSequence memory_records];
    [|rewrite Hnext; rewrite len_cons in *; lia..].
  rewrite Hnext. set (rest := e' :: events). cbn [records_from fmap list_fmap sequence].
  rewrite <-!app_assoc. cbn [app].
  replace (nextSequence s + (1 + len rest)) with (nextSequence s + 1 + len rest) by lia.
  done.
Qed.

(** The representation invariant of the in-memory store. *)
Record memory_ok (s : MemoryEventStore) : Prop := MkMemoryOk {
  mo_metadata : validate_metadata (storeMetadata s) = Ok tt;
  mo_maximum : 0 < maximumRecords s <= EventLimits.maxRecordsRead;
  mo_capacity : len (memory_records s) <= maximumRecords s;
  mo_valid : Forall (λ r, validate_event (event_of r) = Ok tt) (memory_records s);
  mo_sequence : ∃ first, first ≠ 0 ∧ consecutive first (memory_records s) ∧
    first + len (memory_records s) <= 2 ^ 64 ∧
    nextSequence s = wrap 64 (first + len (memory_records s))
}.

Lemma new_memory_ok m maxRecords s :
  new_MemoryEventStore m maxRecords = Ok s → memory_ok s.
Proof.
  unfold new_MemoryEventStore. rewrite unit_bind_ok, guard_ok. intros (Hm & Hmax & [= <-]).
  constructor; cbn [storeMetadata memory_records maximumRecords nextSequence]; try done.
  - lia.
  - rewrite len_nil. lia.
  - by exists 1.
Qed.

(** Below the maximum the next number is the one after the last record. *)
Lemma memory_next s : memory_ok s → valid (nextSequence s) = true →
  ∃ first, first ≠ 0 ∧ consecutive first (memory_records s) ∧
    nextSequence s = first + len (memory_records s) ∧ nextSequence s < 2 ^ 64.
Proof.
  intros [_ _ _ _ (f & Hf & Hc & Hmax & Hn)] Hv. exists f.
  destruct (N.eq_dec (f + len (memory_records s)) (2 ^ 64)) as [E|E].
  - rewrite E in Hn. change (wrap 64 (2 ^ 64)) with 0 in Hn. by rewrite Hn in Hv.
  - rewrite wrap64_small in Hn by lia. split_and!; (done || lia).
Qed.

Lemma memory_append_batch_ok events d s ids s' :
  memory_ok s → events ≠ [] → memory_append_batch events d s = (Ok ids, s') →
  ∃ first, first ≠ 0 ∧ consecutive first (memory_records s) ∧
    nextSequence s = first + len (memory_records s) ∧
    nextSequence s + len events <= 2 ^ 64 ∧
    len (memory_records s) + len events <= maximumRecords s ∧
    Forall (λ e, validate_event e = Ok tt) events ∧
    ids = sequence <$> records_from (nextSequence s) events ∧
    s' = set_memory (memory_records s ++ records_from (nextSequence s) events)
           (wrap 64 (nextSequence s + len events)) s.
Proof.
  intros Hok Hne H. unfold memory_append_batch in H. rewrite decide_False in H by done.
  apply stm_bind_ok in H as (? & ? & [= <- <-] & H).
  apply stm_bind_ok in H as (u1 & ? & [Hcap <-]%sreject_if_ok & H).
  apply stm_bind_ok in H as (u2 & ? & [Hseq <-]%sreject_if_ok & H).
  apply stm_bind_ok in H as ([] & ? & [Hval <-]%slift_ok & H).
  apply rfold_checks in Hval.
  destruct (memory_next s Hok) as (f & Hf & Hc & Hn & H64); [unfold valid in *; lia|].
  assert (1 <= len events) as Hlen by (destruct events; [done|rewrite len_cons; lia]).
  change u64_max with (2 ^ 64 - 1) in Hseq.
  pose proof (mo_capacity _ Hok).
  assert (nextSequence s + len events <= 2 ^ 64) by lia.
  rewrite memory_push_all_spec in H by done. injection H as <- <-.
  exists f. split_and!; try done. lia.
Qed.

(** Every failure leaves the store as it was. *)
Lemma memory_append_batch_err events d s e s' :
  memory_ok s → memory_append_batch events d s = (Err e, s') → s' = s.
Proof.
  intros Hok H. unfold memory_append_batch in H. case_decide as Hne; [done|].
  unfold mbind, stm_bind, sget, sreject_if, slift in H.
  repeat match type of H with
  | (match ?m with Ok _ => _ | Err _ => _ end) = _ =>
      destruct m eqn:?; [|by injection H as _ <-]
  end.
  rewrite memory_push_all_spec in H; [done|..];
    repeat match goal with H : reject_if _ _ _ = Ok _ |- _ => apply reject_if_ok in H end;
    (destruct (memory_next s Hok) as (f & Hf & Hc & Hn & H64); [unfold valid in *; lia|]);
    (assert (1 <= len events) as Hlen by (destruct events; [done|rewrite len_cons; lia]));
    change u64_max with (2 ^ 64 - 1) in *; lia.
Qed.

Lemma memory_ok_append s events first :
  memory_ok s → first ≠ 0 → consecutive first (memory_records s) →
  nextSequence s = first + len (memory_records s) →
  nextSequence s + len events <= 2 ^ 64 →
  len (memory_records s) + len events <= maximumRecords s →
  Forall (λ e, validate_event e = Ok tt) events →
  memory_ok (set_memory (memory_records s ++ records_from (nextSequence s) events)
    (wrap 64 (nextSequence s + len events)) s).
Proof.
  intros [] Hf Hc Hn Hmax Hcap Hval.
  constructor; cbn [set_memory storeMetadata memory_records maximumRecords nextSequence];
    rewrite ?len_app, ?len_records_from; try done.
  - apply Forall_app. split; [done|by apply records_from_valid].
  - exists first. split; [done|]. split; [|split; [lia|by rewrite Hn, N.add_assoc]].
    apply consecutive_app. split; [done|]. rewrite <-Hn. apply consecutive_records_from.
Qed.

#[export] Instance MemoryEventStore_laws : EventStoreLaws MemoryEventStore memory_ok.
Proof.
  split.
  - intros events d s ids s' Hok H. cbn in H |- *.
    destruct (decide (events = [])) as [->|Hne].
    + injection H as <- <-. split; [done|]. split; [done|]. split; [done|].
      exists 0. cbn. by rewrite app_nil_r.
    + destruct (memory_append_batch_ok _ _ _ _ _ Hok Hne H)
        as (f & Hf & Hc & Hn & Hmax & Hcap & Hval & -> & ->).
      split; [by eapply memory_ok_append|]. split; [done|]. split; [done|].
      exists (nextSequence s). split; [done|]. split; [done|]. intros _. lia.
  - intros events d s e s' Hok H. cbn in H |- *.
    by apply memory_append_batch_err in H as ->.
  - done.
  - intros s r s' Hok H. cbn in H. by injection H as <- <-.
Qed.

(** ** Retention *)

Lemma find_sequence_ok q rs before from :
  find_sequence q rs = Some (before, from) →
  rs = before ++ from ∧ ∃ r rest, from = r :: rest ∧ sequence r = q.
Proof.
  revert before from. induction rs as [|r rs IH]; intros before from H; [done|].
  cbn in H. destruct (N.eqb_spec (sequence r) q) as [E|E].
  - injection H as <- <-. split; [done|]. by exists r, rs.
  - destruct (find_sequence q rs) as [[b f]|] eqn:Ef; [|done]. injection H as <- <-.
    destruct (IH _ _ eq_refl) as [-> ?]. done.
Qed.

Lemma find_sequence_last f rs r :
  consecutive f (rs ++ [r]) → find_sequence (sequence r) (rs ++ [r]) = Some (rs, [r]).
Proof.
  intros Hc. revert f Hc. induction rs as [|x rs IH]; intros f Hc; cbn.
  { by rewrite N.eqb_refl. }
  destruct Hc as [Hx Hc]. rewrite (IH _ Hc).
  apply consecutive_app in Hc as [_ [Hr _]].
  rewrite (proj2 (N.eqb_neq _ _)); [done|]. lia.
Qed.

Lemma retained_records_ok m rs q before retained :
  retained_records m rs q = Ok (before, retained) →
  ∃ checkpoint after, rs = before ++ checkpoint :: after ∧
    retained = checkpoint :: after ∧ sequence checkpoint = q ∧
    type checkpoint = EventType.Checkpoint ∧
    is_ok (project m (before ++ [checkpoint])) = true.
Proof.
  unfold retained_records. destruct find_sequence as [[b [|cp after]]|] eqn:E; [done| |done].
  apply find_sequence_ok in E as (-> & r & rest & [= <- <-] & Hq). intros H.
  apply guard_ok in H as [Ht H]. apply unit_bind_ok in H as [_ H].
  apply res_bind_ok in H as (st & Hp & [= <- <-]).
  exists cp, after. rewrite Hp. split_and!; try done. lia.
Qed.

(** What a successful retention did. *)
Lemma memory_retain_ok q s s' :
  memory_retain_from_checkpoint q s = (Ok tt, s') →
  ∃ before checkpoint after first last,
    memory_records s = before ++ checkpoint :: after ∧ sequence checkpoint = q ∧
    type checkpoint = EventType.Checkpoint ∧
    1 + len after < maximumRecords s ∧
    fileGeneration (storeMetadata s) ≠ u64_max ∧ valid (nextSequence s) = true ∧
    let retention := MkEventRecord (nextSequence s) EventType.Retention 1
      (VObject [("checkpoint", VUnsigned q); ("first_pruned", VUnsigned first);
                ("last_pruned", VUnsigned last)]) in
    validate_event (event_of retention) = Ok tt ∧
    s' = MkMemoryEventStore (bump_generation (storeMetadata s))
           ((checkpoint :: after) ++ [retention]) (maximumRecords s)
           (wrap 64 (nextSequence s + 1)).
Proof.
  unfold memory_retain_from_checkpoint. intros H.
  apply stm_bind_ok in H as (? & ? & [= <- <-] & H).
  apply stm_bind_ok in H as ([before retained] & ? & [Hret <-]%slift_ok & H).
  apply stm_bind_ok in H as (u1 & ? & [Hcap <-]%sreject_if_ok & H).
  apply stm_bind_ok in H as (u2 & ? & [Hgen <-]%sreject_if_ok & H).
  apply stm_bind_ok in H as (u3 & ? & [Hseq <-]%sreject_if_ok & H).
  apply stm_bind_ok in H as (p & ? & [Hp <-]%slift_ok & H).
  apply stm_bind_ok in H as ([] & ? & [Hv <-]%slift_ok & H).
  rewrite retention_payload_ok in Hp. injection Hp as <-. injection H as <-.
  apply retained_records_ok in Hret as (cp & after & Hrs & -> & Hq & Ht & _).
  rewrite len_cons in Hcap.
  exists before, cp, after. do 2 eexists. split_and!; try done; try lia.
Qed.

Lemma retention_event_valid q a b :
  validate_event (MkEventData EventType.Retention 1 (VObject
    [("checkpoint", VUnsigned q); ("first_pruned", VUnsigned a);
     ("last_pruned", VUnsigned b)])) = Ok tt.
Proof. apply validate_event_ok. cbn [data_type data_version data_payload]. by split_and!. Qed.

Lemma memory_retain_succeeds q s before retained :
  retained_records (storeMetadata s) (memory_records s) q = Ok (before, retained) →
  len retained < maximumRecords s → fileGeneration (storeMetadata s) ≠ u64_max →
  valid (nextSequence s) = true →
  ∃ s' retention, memory_retain_from_checkpoint q s = (Ok tt, s') ∧
    memory_records s' = retained ++ [retention].
Proof.
  intros Hret Hcap Hgen Hv. unfold memory_retain_from_checkpoint.
  erewrite stm_bind_eq by reflexivity. rewrite Hret.
  erewrite stm_bind_eq by reflexivity. cbn beta iota.
  erewrite stm_bind_eq by (apply (sreject_if_ok _ _ _ _ _ tt); split; [lia|done]).
  erewrite stm_bind_eq by (apply (sreject_if_ok _ _ _ _ _ tt); split; [lia|done]).
  erewrite stm_bind_eq by (apply (sreject_if_ok _ _ _ _ _ tt); rewrite Hv; by split).
  rewrite retention_payload_ok. erewrite stm_bind_eq by reflexivity.
  erewrite stm_bind_eq by (apply slift_ok; split; [apply retention_event_valid|done]).
  do 2 eexists. split; reflexivity.
Qed.

Lemma memory_retain_err q s e s' :
  memory_retain_from_checkpoint q s = (Err e, s') → s' = s.
Proof.
  unfold memory_retain_from_checkpoint, mbind, stm_bind, sget, sreject_if, slift.
  intros H.
  repeat match type of H with
  | (match ?m with Ok _ => _ | Err _ => _ end) = _ =>
      destruct m eqn:?; [|by injection H as _ <-]
  | context [let '(_, _) := ?p in _] => destruct p
  end.
  discriminate H.
Qed.

Lemma validate_bump_generation m :
  validate_metadata m = Ok tt → validate_metadata (bump_generation m) = Ok tt.
Proof. rewrite !validate_metadata_ok. cbn. intros (? & ? & ? & ? & ?). split_and!; (done || lia). Qed.

Lemma memory_ok_retain q s s' :
  memory_ok s → memory_retain_from_checkpoint q s = (Ok tt, s') → memory_ok s'.
Proof.
  intros Hok H.
  apply memory_retain_ok in H
    as (before & cp & after & fi & la & Hrs & Hq & Ht & Hcap & Hgen & Hnext & Hv & ->).
  destruct (memory_next s Hok Hnext) as (f & Hf & Hc & Hn & H64).
  rewrite Hrs in Hc, Hn. apply consecutive_app in Hc as [_ Hc].
  rewrite len_app, len_cons in Hn. destruct Hok as [Hm Hmax _ Hval _].
  constructor; cbn [storeMetadata memory_records maximumRecords nextSequence]; try done.
  - by apply validate_bump_generation.
  - rewrite len_snoc, len_cons. lia.
  - rewrite Hrs in Hval. apply Forall_app in Hval as [_ Hval].
    apply Forall_app. split; [done|]. by repeat constructor.
  - exists (f + len before). rewrite len_snoc, len_cons.
    split; [lia|]. split; [|split; [lia|f_equal; lia]].
    apply consecutive_app. split; [done|]. rewrite len_cons. split; [|done].
    cbn [sequence]. lia.
Qed.

Lemma project_bump_generation m rs : project (bump_generation m) rs = project m rs.
Proof. done. Qed.

Lemma project_retention first last expected s r :
  type r = EventType.Retention → sequence r ≠ 0 →
  (expected = 0 ∨ sequence r = expected) → version r = 1 → last = true →
  project_step first last expected s r =
  Ok (set_replayPosition (sequence r) (push_retentions r s)).
Proof.
  intros Ht Hs He Hv ->. apply project_step_ok; try done; [by right|].
  unfold project_record. by rewrite Ht.
Qed.

(** Appending a retention record to a log whose projection is known. *)
Lemma project_append_retention m rs s p r :
  project m rs = Ok s → last rs = Some p → sequence p ≠ u64_max →
  sequence r = sequence p + 1 → type r = EventType.Retention → version r = 1 →
  project m (rs ++ [r]) = Ok (set_replayPosition (sequence r) (push_retentions r s)).
Proof.
  intros Hp Hl Hmax Hs Ht Hv. unfold project in *.
  apply res_bind_ok in Hp as (s0 & -> & Hp). cbn [mbind res_bind].
  assert (next_sequence (sequence p) = sequence r) as Hn.
  { unfold next_sequence. rewrite Hs. by rewrite (proj2 (N.eqb_neq _ _)). }
  rewrite (project_loop_snoc _ _ _ _ p) by (done || lia). rewrite Hp, Hn.
  cbn [mbind res_bind]. apply project_retention; [done|lia|by right|done|done].
Qed.

Lemma consecutive_last_record f rs : rs ≠ [] → consecutive f rs →
  ∃ r, last rs = Some r ∧ sequence r = f + len rs - 1.
Proof.
  intros Hne Hc. destruct (last rs) as [r|] eqn:E; [|by apply last_None in E].
  exists r. split; [done|]. rewrite last_lookup in E.
  rewrite (consecutive_lookup _ _ _ _ Hc E).
  destruct rs; [done|]. unfold len. cbn [length]. lia.
Qed.

(** The last record of a store that can still append. *)
Lemma memory_last s : memory_ok s → valid (nextSequence s) = true → memory_records s ≠ [] →
  ∃ r, last (memory_records s) = Some r ∧ nextSequence s = sequence r + 1 ∧
       sequence r ≠ u64_max.
Proof.
  intros Hok Hv Hne. destruct (memory_next s Hok Hv) as (f & Hf & Hc & Hn & H64).
  destruct (consecutive_last_record _ _ Hne Hc) as (r & Hl & Hr).
  exists r. assert (1 <= len (memory_records s))
    by (destruct (memory_records s); [done|rewrite len_cons; lia]).
  change u64_max with (2 ^ 64 - 1). split_and!; [done|lia|lia].
Qed.

Lemma retention_keeps_projection_lemma q s s' st :
  memory_ok s → project (storeMetadata s) (memory_records s) = Ok st →
  memory_retain_from_checkpoint q s = (Ok tt, s') →
  ∃ retention, last (memory_records s') = Some retention ∧
    type retention = EventType.Retention ∧ sequence retention = nextSequence s ∧
    project (storeMetadata s') (memory_records s') =
      Ok (set_replayPosition (nextSequence s) (push_retentions retention st)).
Proof.
  intros Hok Hp H.
  apply memory_retain_ok in H
    as (before & cp & after & fi & la & Hrs & Hq & Ht & Hcap & Hgen & Hnext & Hv & ->).
  cbn [memory_records storeMetadata]. set (ret := MkEventRecord _ _ _ _).
  exists ret. rewrite last_snoc. split_and!; try done.
  rewrite project_bump_generation. rewrite Hrs in Hp.
  apply project_from_checkpoint in Hp; [|done].
  destruct (memory_last s Hok Hnext) as (r & Hl & Hn & Hmax); [by rewrite Hrs; destruct before|].
  rewrite Hrs, last_app_cons in Hl.
  by apply (project_append_retention _ _ _ r).
Qed.

(** ** Clients of the interface *)

Section Client.
Context {S : Type} `{EventStoreLaws S store_ok}.

(** What [EventStore::checkpoint] does over any store. *)
Lemma checkpoint_spec p d s q s' :
  store_ok s → checkpoint p d s = (Ok q, s') →
  store_ok s' ∧ store_metadata s' = store_metadata s ∧
  (∃ o pos, p = VObject o ∧ checkpoint_ok o (session (store_metadata s)) pos) ∧
  store_read_all s' = store_read_all s ++ [MkEventRecord q EventType.Checkpoint 1 p] ∧ q ≠ 0.
Proof.
  intros Hok Hc. unfold checkpoint in Hc.
  apply stm_bind_ok in Hc as (? & ? & [= <- <-] & Hc).
  apply stm_bind_ok in Hc as ([] & ? & [Hv <-]%slift_ok & Hc).
  rewrite append_is_batch in Hc.
  apply stm_bind_ok in Hc as (ids & s1 & Hb & [<- <-]%stm_ret_ok).
  apply (append_batch_appends (S:=S)) in Hb as (? & _ & ? & f & -> & -> & Hf); [|done].
  cbn. split_and!; try done; [by apply validate_checkpoint_session_ok|by apply Hf].
Qed.
End Client.

(** ** Checkpoint, then retain *)

#[local] Opaque checkpoint_entries project checkpoint_payload.

Lemma checkpoint_projected s st p d :
  memory_ok s → memory_records s ≠ [] →
  project (storeMetadata s) (memory_records s) = Ok st →
  object_entries (ws_commands st) → checkpoint_payload st = Ok p →
  len (enc p) <= EventLimits.maxRecordPayloadBytes →
  len (memory_records s) + 1 <= maximumRecords s →
  valid (nextSequence s) = true →
  validate_checkpoint_anchor p (session (storeMetadata s)) (nextSequence s) = Ok tt ∧
  checkpoint p d s = (Ok (nextSequence s), set_memory
    (memory_records s ++ [MkEventRecord (nextSequence s) EventType.Checkpoint 1 p])
    (wrap 64 (nextSequence s + 1)) s).
Proof.
  intros Hok Hne Hp Hcmd Hpay Hsize Hcap Hv.
  destruct (memory_last s Hok Hv Hne) as (r & Hl & Hn & Hmax).
  destruct (project_state_ok _ _ _ Hp) as [Hst Hpos].
  destruct (Hpos _ Hl) as [Hr Hr0].
  assert (ws_session st = session (storeMetadata s)) as Hses by by eapply project_session.
  apply checkpoint_payload_ok in Hpay as (Hs0 & -> & Hw).
  pose proof (checkpoint_entries_ok st Hst Hs0 Hcmd) as Hcp. rewrite Hses, Hr in Hcp.
  assert (validate_event (MkEventData EventType.Checkpoint 1
    (VObject (checkpoint_entries st))) = Ok tt) as Hev.
  { apply validate_event_ok. cbn [data_type data_version data_payload].
    split; [reflexivity|]. split; [reflexivity|]. split; [by eauto|]. by split. }
  split.
  { apply validate_checkpoint_anchor_ok. split; [lia|]. eexists. split; [done|].
    by replace (nextSequence s - 1) with (sequence r) by lia. }
  unfold checkpoint. erewrite stm_bind_eq by reflexivity.
  erewrite stm_bind_eq.
  2: { apply slift_ok. split; [|done]. apply validate_checkpoint_session_ok. by eauto. }
  cbn [store_append MemoryEventStore_store]. unfold memory_append, memory_append_batch.
  rewrite decide_False by done. rewrite len_singleton.
  destruct (memory_next s Hok Hv) as (f & _ & _ & _ & H64).
  unfold mbind at 1, stm_bind at 1. erewrite stm_bind_eq by reflexivity.
  erewrite stm_bind_eq.
  2: { apply (sreject_if_ok _ _ _ _ _ tt). split; [|done].
       change EventLimits.maxRecordsPerBatch with 4096. lia. }
  erewrite stm_bind_eq.
  2: { apply (sreject_if_ok _ _ _ _ _ tt). split; [|done]. unfold valid in *. lia. }
  cbn [rfold]. rewrite Hev. by erewrite stm_bind_eq by reflexivity.
Qed.

(** * Properties *)

(** Appending is atomic and ordered: a batch that is accepted is added at
    the end with consecutive numbers, returned in order, and keeps the store's
    invariant; a batch that is refused, for whatever reason, leaves the store
    exactly as it was. *)
Theorem memory_append_atomic (events : list EventData) (d : Durability)
    (s : MemoryEventStore) :
  memory_ok s →
  match memory_append_batch events d s with
  | (Ok ids, s') =>
      memory_ok s' ∧ Forall (λ e, validate_event e = Ok tt) events ∧
      ∃ first, ids = sequence <$> records_from first events ∧
        memory_records s' = memory_records s ++ records_from first events
  | (Err _, s') => s' = s
  end.
Proof.
  intros Hok. destruct (memory_append_batch events d s) as [[ids|e] s'] eqn:E.
  - destruct (append_batch_appends (H:=MemoryEventStore_store) events d s ids s' Hok E) as (? & ? & _ & f & ? & ? & _).
    eauto.
  - by apply memory_append_batch_err in E.
Qed.

(** Checkpoints through the interface: over any store that keeps the
    interface's laws, a checkpoint that is accepted names the store's session
    and becomes the last record of the log, and nothing else changes. *)
Theorem checkpoint_any_store {S} `{EventStoreLaws S store_ok} (p : value)
    (d : Durability) (s s' : S) (q : RecordId) :
  store_ok s → checkpoint p d s = (Ok q, s') →
  store_ok s' ∧ store_metadata s' = store_metadata s ∧
  (∃ o pos, p = VObject o ∧ checkpoint_ok o (session (store_metadata s)) pos) ∧
  store_read_all s' = store_read_all s ++ [MkEventRecord q EventType.Checkpoint 1 p] ∧ q ≠ 0.
Proof. apply checkpoint_spec. Qed.

Definition memory_sample : MemoryEventStore :=
  match new_MemoryEventStore replay_metadata 8 with
  | Ok s => s
  | Err _ => MkMemoryEventStore replay_metadata [] 0 0
  end.

Definition sample_store : MemoryEventStore :=
  set_memory (replay_prefix ++ [replay_checkpoint]) 5 memory_sample.

Lemma memory_append_atomic_witness :
  let events := [MkEventData EventType.FrameStarted 1 VNull] in
  is_ok (memory_append_batch events Durable memory_sample).1 = true ∧
  match memory_append_batch events Durable memory_sample with
  | (Ok ids, s') =>
      memory_ok s' ∧ Forall (λ e, validate_event e = Ok tt) events ∧
      ∃ first, ids = sequence <$> records_from first events ∧
        memory_records s' = memory_records memory_sample ++ records_from first events
  | (Err _, s') => s' = memory_sample
  end.
Proof.
  split; [by vm_compute|].
  apply (memory_append_atomic [MkEventData EventType.FrameStarted 1 VNull] Durable
    memory_sample).
  apply (new_memory_ok replay_metadata 8 memory_sample). by vm_compute.
Defined.

(** Retention: what a successful retention leaves starts at a checkpoint,
    ends with the retention record, keeps the invariant and opens the next
    file generation; a refused one changes nothing. *)
Theorem memory_retention_atomic (q : RecordId) (s : MemoryEventStore) :
  memory_ok s →
  match memory_retain_from_checkpoint q s with
  | (Ok _, s') =>
      memory_ok s' ∧ fileGeneration (storeMetadata s') = fileGeneration (storeMetadata s) + 1 ∧
      ∃ before checkpoint after retention,
        memory_records s = before ++ checkpoint :: after ∧
        memory_records s' = checkpoint :: after ++ [retention] ∧
        sequence checkpoint = q ∧ type checkpoint = EventType.Checkpoint ∧
        type retention = EventType.Retention ∧ sequence retention = nextSequence s
  | (Err _, s') => s' = s
  end.
Proof.
  intros Hok. destruct (memory_retain_from_checkpoint q s) as [[[]|e] s'] eqn:E.
  - split; [by eapply memory_ok_retain|]. apply memory_retain_ok in E
      as (before & cp & after & fi & la & Hrs & Hq & Ht & _ & _ & _ & _ & ->).
    split; [done|]. exists before, cp, after. eexists. split_and!; done.
  - by apply memory_retain_err in E.
Qed.

(** Retention preserves meaning: when the log projects to some state, the
    retained log projects to the same state, extended only by the retention
    record itself.  Nothing a replay could observe is lost by pruning. *)
Theorem retention_preserves_projection (q : RecordId) (s s' : MemoryEventStore)
    (st : SerializedWorldState) :
  memory_ok s → project (storeMetadata s) (memory_records s) = Ok st →
  memory_retain_from_checkpoint q s = (Ok tt, s') →
  ∃ retention, last (memory_records s') = Some retention ∧
    type retention = EventType.Retention ∧
    project (storeMetadata s') (memory_records s') =
      Ok (set_replayPosition (sequence retention) (push_retentions retention st)).
Proof.
  intros Hok Hp H.
  destruct (retention_keeps_projection_lemma q s s' st Hok Hp H) as (r & ? & ? & Hr & ?).
  exists r. rewrite Hr. done.
Qed.

Lemma sample_store_ok : memory_ok sample_store.
Proof.
  constructor; [by vm_compute|by vm_compute|by vm_compute| |].
  - repeat constructor; by vm_compute.
  - exists 1. split_and!; by vm_compute.
Qed.

Lemma retention_preserves_projection_witness :
  ∃ retention, last (memory_records (memory_retain_from_checkpoint 4 sample_store).2) =
      Some retention ∧ type retention = EventType.Retention ∧
    project (storeMetadata (memory_retain_from_checkpoint 4 sample_store).2)
      (memory_records (memory_retain_from_checkpoint 4 sample_store).2) =
      Ok (set_replayPosition (sequence retention)
           (push_retentions retention (set_replayPosition 4 replay_state))).
Proof.
  apply (retention_preserves_projection 4 sample_store
    (memory_retain_from_checkpoint 4 sample_store).2 (set_replayPosition 4 replay_state)
    sample_store_ok); by vm_compute.
Defined.

Lemma memory_retention_atomic_witness :
  is_ok (memory_retain_from_checkpoint 4 sample_store).1 = true ∧
  match memory_retain_from_checkpoint 4 sample_store with
  | (Ok _, s') =>
      memory_ok s' ∧
      fileGeneration (storeMetadata s') = fileGeneration (storeMetadata sample_store) + 1 ∧
      ∃ before checkpoint after retention,
        memory_records sample_store = before ++ checkpoint :: after ∧
        memory_records s' = checkpoint :: after ++ [retention] ∧
        sequence checkpoint = 4 ∧ type checkpoint = EventType.Checkpoint ∧
        type retention = EventType.Retention ∧
        sequence retention = nextSequence sample_store
  | (Err _, s') => s' = sample_store
  end.
Proof.
  split; [by vm_compute|]. exact (memory_retention_atomic 4 sample_store sample_store_ok).
Defined.

Definition prefix_store : MemoryEventStore := set_memory replay_prefix 4 memory_sample.

Lemma prefix_store_ok : memory_ok prefix_store.
Proof.
  constructor; [by vm_compute|by vm_compute|by vm_compute| |].
  - repeat constructor; by vm_compute.
  - exists 1. split_and!; by vm_compute.
Qed.

Lemma checkpoint_any_store_witness :
  memory_ok (checkpoint (payload replay_checkpoint) Durable prefix_store).2 ∧
  memory_records (checkpoint (payload replay_checkpoint) Durable prefix_store).2 =
    replay_prefix ++ [replay_checkpoint].
Proof.
  pose proof (checkpoint_any_store (S:=MemoryEventStore) (payload replay_checkpoint)
    Durable prefix_store
    (checkpoint (payload replay_checkpoint) Durable prefix_store).2 4 prefix_store_ok
    ltac:(by vm_compute)) as (H & _ & _ & Hr & _).
  split; [exact H|exact Hr].
Defined.

(** A host can always compact: when the log projects, its checkpoint fits
    one record and the command entries are objects, checkpointing the
    projection and retaining from that checkpoint succeeds, given room for
    two records, unexhausted numbers and generations; the log is then just the
    checkpoint and the retention record, and replays to the same state. *)
Theorem compaction_succeeds (s : MemoryEventStore) (st : SerializedWorldState)
    (p : value) (d : Durability) :
  memory_ok s → memory_records s ≠ [] →
  project (storeMetadata s) (memory_records s) = Ok st →
  object_entries (ws_commands st) → checkpoint_payload st = Ok p →
  len (enc p) <= EventLimits.maxRecordPayloadBytes →
  len (memory_records s) + 2 <= maximumRecords s →
  valid (nextSequence s) = true → nextSequence s < u64_max →
  fileGeneration (storeMetadata s) ≠ u64_max →
  ∃ s1 s2 retention,
    checkpoint p d s = (Ok (nextSequence s), s1) ∧
    memory_retain_from_checkpoint (nextSequence s) s1 = (Ok tt, s2) ∧
    memory_records s2 =
      [MkEventRecord (nextSequence s) EventType.Checkpoint 1 p; retention] ∧
    type retention = EventType.Retention ∧
    project (storeMetadata s2) (memory_records s2) =
      Ok (set_replayPosition (nextSequence s + 1)
            (push_retentions retention (set_replayPosition (nextSequence s) st))).
Proof.
  intros Hok Hne Hp Hcmd Hpay Hsize Hcap Hv Hmax Hgen.
  destruct (checkpoint_projected s st p d) as [Hanchor Hcp]; try done; [lia|].
  destruct (memory_last s Hok Hv Hne) as (r & Hl & Hn & Hrmax).
  set (cp := MkEventRecord (nextSequence s) EventType.Checkpoint 1 p) in *.
  set (s1 := set_memory _ _ s) in Hcp.
  assert (memory_ok s1) as Hok1.
  { by apply (checkpoint_spec (H:=MemoryEventStore_store)) in Hcp as [? _]. }
  assert (project (storeMetadata s1) (memory_records s1) =
    Ok (set_replayPosition (nextSequence s) st)) as Hp1.
  { cbn. unfold cp. rewrite Hn. by apply project_append_checkpoint. }
  destruct (memory_retain_from_checkpoint (nextSequence s) s1) as [res s2] eqn:E.
  assert (res = Ok tt ∧ ∃ x, memory_records s2 = [cp] ++ [x]) as [-> [x Hx]].
  { destruct (memory_next s Hok Hv) as (f & Hf & Hc & Hnf & H64).
    assert (retained_records (storeMetadata s1) (memory_records s1) (nextSequence s) =
      Ok (memory_records s, [cp])) as Hret.
    { unfold retained_records. cbn [s1 set_memory memory_records storeMetadata].
      assert (find_sequence (sequence cp) (memory_records s ++ [cp]) =
        Some (memory_records s, [cp])) as Hfind.
      { apply (find_sequence_last f). apply consecutive_app. by repeat split. }
      cbn [cp sequence] in Hfind. rewrite Hfind. cbn [type payload cp].
      rewrite N.eqb_refl, Hanchor. cbn [negb reject_if mbind res_bind].
      cbn [s1 set_memory memory_records storeMetadata] in Hp1. by rewrite Hp1. }
    assert (wrap 64 (nextSequence s + 1) = nextSequence s + 1) as Hw
      by (apply wrap64_small; change u64_max with (2 ^ 64 - 1) in Hmax; lia).
    destruct (memory_retain_succeeds _ _ _ _ Hret) as (s3 & x & Hs3 & Hx).
    - rewrite len_singleton. cbn [s1 set_memory maximumRecords]. lia.
    - done.
    - cbn [s1 set_memory nextSequence]. rewrite Hw. unfold valid. lia.
    - rewrite Hs3 in E. injection E as <- <-. eauto. }
  destruct (retention_keeps_projection_lemma _ _ _ _ Hok1 Hp1 E)
    as (ret & Hlast & Hret & Hseq & Hproj).
  exists s1, s2, ret. split; [done|]. split; [done|].
  rewrite Hx in Hlast. injection Hlast as ->. split; [done|]. split; [done|].
  rewrite Hproj. cbn [s1 set_memory nextSequence].
  by rewrite wrap64_small by (change u64_max with (2 ^ 64 - 1) in Hmax; lia).
Qed.

Lemma compaction_succeeds_witness :
  ∃ s1 s2 retention,
    checkpoint (payload replay_checkpoint) Durable prefix_store =
      (Ok (nextSequence prefix_store), s1) ∧
    memory_retain_from_checkpoint (nextSequence prefix_store) s1 = (Ok tt, s2) ∧
    memory_records s2 = [MkEventRecord (nextSequence prefix_store) EventType.Checkpoint 1
                           (payload replay_checkpoint); retention] ∧
    type retention = EventType.Retention ∧
    project (storeMetadata s2) (memory_records s2) =
      Ok (set_replayPosition (nextSequence prefix_store + 1)
            (push_retentions retention
              (set_replayPosition (nextSequence prefix_store) replay_state))).
Proof.
  apply (compaction_succeeds prefix_store replay_state (payload replay_checkpoint) Durable
    prefix_store_ok); try (by vm_compute).
  vm_compute. repeat constructor; by eexists.
Defined.
