(* ===== verification/Feedback.v ===== *)
(** * Feedback channels
    (include/liquid/effects/Feedback.hpp, src/effects/Feedback.cpp)

    A bounded channel from adapters, on any thread, to the runtime.  Senders
    hold a weak reference to the state the receiver owns; every method holds
    the state's mutex from its first read to its last write, so concurrent
    callers interleave whole methods and a run is a sequence of them. *)
From S2P Require Import Prelude OrderedMap Values Effects.

(** [class detail::FeedbackState], without its mutex *)
Record FeedbackState := MkFeedbackState {
  reports : list EffectReport;
  observations : list ExternalObservation;
  capacity : N;
  shutdown_flag : bool
}.

Inductive FeedbackSendResult := Sent | Full | Closed.

#[export] Instance FeedbackSendResult_eq_dec : EqDecision FeedbackSendResult.
Proof. solve_decision. Defined.

(** ** The memory of shared states

    The states the program has made, by address.  A state lives as long as its
    receiver owns it; [None] marks one that was destroyed, and its address is
    not used again, as the control block outlives it while a sender holds a
    weak reference. *)
Definition heap := gmap N (option FeedbackState).

(** [std::weak_ptr<FeedbackState>] of a sender; [None] is a default-constructed
    sender. *)
Definition FeedbackSender := option N.
(** [std::shared_ptr<FeedbackState>] of a receiver; [None] is a moved-from one. *)
Definition FeedbackReceiver := option N.

(** [state.lock()] and [if (!state)] *)
Definition lock (state : option N) : stm heap (option (N * FeedbackState)) := λ h,
  (Ok (match state with
       | Some address => match h !! address with
                         | Some (Some s) => Some (address, s) | _ => None end
       | None => None
       end), h).

Definition store_state (address : N) (s : FeedbackState) : stm heap unit :=
  smodify (insert address (Some s)).

Definition pending_count (s : FeedbackState) : N :=
  len (reports s) + len (observations s).

Definition push_report (r : EffectReport) (s : FeedbackState) : FeedbackState :=
  MkFeedbackState (reports s ++ [r]) (observations s) (capacity s) (shutdown_flag s).
Definition push_observation (o : ExternalObservation) (s : FeedbackState) : FeedbackState :=
  MkFeedbackState (reports s) (observations s ++ [o]) (capacity s) (shutdown_flag s).
Definition with_reports (l : list EffectReport) (s : FeedbackState) : FeedbackState :=
  MkFeedbackState l (observations s) (capacity s) (shutdown_flag s).
Definition with_observations (l : list ExternalObservation) (s : FeedbackState)
  : FeedbackState :=
  MkFeedbackState (reports s) l (capacity s) (shutdown_flag s).

(** ** [class FeedbackSender] *)

Definition try_send_report (sender : FeedbackSender) (r : EffectReport)
  : stm heap FeedbackSendResult :=
  slift (validate_effect_report r);;
  sharedState ← lock sender;
  match sharedState with
  | None => mret Closed
  | Some (address, s) =>
      if shutdown_flag s then mret Closed
      else if capacity s <=? pending_count s then mret Full
      else store_state address (push_report r s);; mret Sent
  end.

Definition try_send_observation (sender : FeedbackSender) (o : ExternalObservation)
  : stm heap FeedbackSendResult :=
  slift (validate_external_observation o);;
  sharedState ← lock sender;
  match sharedState with
  | None => mret Closed
  | Some (address, s) =>
      if shutdown_flag s then mret Closed
      else if capacity s <=? pending_count s then mret Full
      else store_state address (push_observation o s);; mret Sent
  end.

Definition is_closed (sender : FeedbackSender) : stm heap bool :=
  sharedState ← lock sender;
  mret (match sharedState with None => true | Some (_, s) => shutdown_flag s end).

(** ** [class FeedbackReceiver] *)

Definition try_receive (receiver : FeedbackReceiver) : stm heap (option EffectReport) :=
  sharedState ← lock receiver;
  match sharedState with
  | None => mret None
  | Some (address, s) =>
      match reports s with
      | [] => mret None
      | r :: rest => store_state address (with_reports rest s);; mret (Some r)
      end
  end.

Definition try_receive_observation (receiver : FeedbackReceiver)
  : stm heap (option ExternalObservation) :=
  sharedState ← lock receiver;
  match sharedState with
  | None => mret None
  | Some (address, s) =>
      match observations s with
      | [] => mret None
      | o :: rest => store_state address (with_observations rest s);; mret (Some o)
      end
  end.

Definition drain (receiver : FeedbackReceiver) : stm heap (list EffectReport) :=
  sharedState ← lock receiver;
  match sharedState with
  | None => mret []
  | Some (address, s) => store_state address (with_reports [] s);; mret (reports s)
  end.

Definition drain_observations (receiver : FeedbackReceiver)
  : stm heap (list ExternalObservation) :=
  sharedState ← lock receiver;
  match sharedState with
  | None => mret []
  | Some (address, s) =>
      store_state address (with_observations [] s);; mret (observations s)
  end.

Definition pending (receiver : FeedbackReceiver) : stm heap N :=
  sharedState ← lock receiver;
  mret (match sharedState with None => 0 | Some (_, s) => pending_count s end).

Definition shutdown (receiver : FeedbackReceiver) : stm heap unit :=
  sharedState ← lock receiver;
  match sharedState with
  | None => mret tt
  | Some (address, s) =>
      store_state address
        (MkFeedbackState (reports s) (observations s) (capacity s) true)
  end.

Definition is_shutdown (receiver : FeedbackReceiver) : stm heap bool :=
  sharedState ← lock receiver;
  mret (match sharedState with None => true | Some (_, s) => shutdown_flag s end).

(** Dropping the receiver's reference frees the state it alone owns. *)
Definition release (receiver : FeedbackReceiver) : stm heap unit :=
  match receiver with
  | None => mret tt
  | Some address => smodify (insert address None)
  end.

(** [~FeedbackReceiver] *)
Definition destroy_receiver (receiver : FeedbackReceiver) : stm heap unit :=
  shutdown receiver;; release receiver.

(** [operator=(FeedbackReceiver&&)] on different objects: what the target then
    refers to; the source is left empty. *)
Definition move_receiver (tgt source : FeedbackReceiver)
  : stm heap (FeedbackReceiver * FeedbackReceiver) :=
  shutdown tgt;; release tgt;; mret (source, None).

Definition make_feedback_channel (capacity : N)
  : stm heap (FeedbackSender * FeedbackReceiver) :=
  sreject_if (capacity =? 0) invalid_argument "feedback capacity must be positive";;
  h ← sget;
  let address := fresh (dom h) in
  store_state address (MkFeedbackState [] [] capacity false);;
  mret (Some address, Some address).

(** * Runs of a channel

    The methods as steps, in the order the mutex serialises them, with what
    each of them observably did. *)
Inductive feedback_step :=
| StepSendReport (r : EffectReport)
| StepSendObservation (o : ExternalObservation)
| StepReceive
| StepReceiveObservation
| StepDrain
| StepDrainObservations
| StepPending
| StepShutdown.

(** What the callers saw so far: the items accepted and the items handed out. *)
Record feedback_log := MkFeedbackLog {
  sent_reports : list EffectReport;
  sent_observations : list ExternalObservation;
  received_reports : list EffectReport;
  received_observations : list ExternalObservation
}.

Definition sent_report (r : EffectReport) (res : FeedbackSendResult) (g : feedback_log)
  : feedback_log :=
  match res with
  | Sent => MkFeedbackLog (sent_reports g ++ [r]) (sent_observations g)
              (received_reports g) (received_observations g)
  | _ => g
  end.
Definition sent_observation (o : ExternalObservation) (res : FeedbackSendResult)
    (g : feedback_log) : feedback_log :=
  match res with
  | Sent => MkFeedbackLog (sent_reports g) (sent_observations g ++ [o])
              (received_reports g) (received_observations g)
  | _ => g
  end.
Definition got_reports (l : list EffectReport) (g : feedback_log) : feedback_log :=
  MkFeedbackLog (sent_reports g) (sent_observations g) (received_reports g ++ l)
    (received_observations g).
Definition got_observations (l : list ExternalObservation) (g : feedback_log)
  : feedback_log :=
  MkFeedbackLog (sent_reports g) (sent_observations g) (received_reports g)
    (received_observations g ++ l).

Definition run_step (address : N) (step : feedback_step) (g : feedback_log)
  : stm heap feedback_log :=
  match step with
  | StepSendReport r =>
      res ← try_send_report (Some address) r; mret (sent_report r res g)
  | StepSendObservation o =>
      res ← try_send_observation (Some address) o; mret (sent_observation o res g)
  | StepReceive =>
      got ← try_receive (Some address); mret (got_reports (option_list got) g)
  | StepReceiveObservation =>
      got ← try_receive_observation (Some address);
      mret (got_observations (option_list got) g)
  | StepDrain => got ← drain (Some address); mret (got_reports got g)
  | StepDrainObservations =>
      got ← drain_observations (Some address); mret (got_observations got g)
  | StepPending => pending (Some address);; mret g
  | StepShutdown => shutdown (Some address);; mret g
  end.

(** A run; a method that throws leaves state and log as they were. *)
Fixpoint run_steps (address : N) (steps : list feedback_step) (g : feedback_log)
    (h : heap) : feedback_log * heap :=
  match steps with
  | [] => (g, h)
  | step :: steps =>
      match run_step address step g h with
      | (Ok g, h) => run_steps address steps g h
      | (Err _, h) => run_steps address steps g h
      end
  end.

(** * Lemmas *)

(** The channel's state explains the log: what was accepted is what was handed
    out followed by what waits, in order, and no more than [capacity] waits. *)
Definition channel_ok (cap : N) (g : feedback_log) (s : FeedbackState) : Prop :=
  capacity s = cap ∧ pending_count s <= cap ∧
  sent_reports g = received_reports g ++ reports s ∧
  sent_observations g = received_observations g ++ observations s ∧
  Forall (λ r, validate_effect_report r = Ok tt) (reports s) ∧
  Forall (λ o, validate_external_observation o = Ok tt) (observations s).

Lemma lock_some address s (h : heap) :
  h !! address = Some (Some s) → lock (Some address) h = (Ok (Some (address, s)), h).
Proof. intros H. unfold lock. by rewrite H. Qed.

(** What one method may do to the channel at [address]. *)
Definition step_ok (cap address : N) (g g' : feedback_log) (s : FeedbackState)
    (h h' : heap) : Prop :=
  ∃ s', h' !! address = Some (Some s') ∧ (∀ b, b ≠ address → h' !! b = h !! b) ∧
    channel_ok cap g' s' ∧
    (shutdown_flag s = true → shutdown_flag s' = true ∧
       sent_reports g' = sent_reports g ∧ sent_observations g' = sent_observations g).

Lemma step_ok_same cap address g s (h : heap) :
  h !! address = Some (Some s) → channel_ok cap g s → step_ok cap address g g s h h.
Proof. intros. by exists s. Qed.

Lemma step_ok_store cap address g g' s s' (h : heap) :
  channel_ok cap g' s' →
  (shutdown_flag s = true → shutdown_flag s' = true ∧
     sent_reports g' = sent_reports g ∧ sent_observations g' = sent_observations g) →
  step_ok cap address g g' s h (<[address:=Some s']> h).
Proof.
  intros Hok Hsh. exists s'. split; [apply lookup_insert_eq|].
  split; [|done]. intros b Hb. by apply lookup_insert_ne.
Qed.

Lemma channel_ok_send_report cap g s r :
  channel_ok cap g s → validate_effect_report r = Ok tt → pending_count s < cap →
  channel_ok cap (sent_report r Sent g) (push_report r s).
Proof.
  intros (Hc & Hp & Hr & Ho & Hvr & Hvo) Hv Hlt. unfold pending_count in *.
  split_and!; try done; cbn.
  - unfold pending_count. cbn. rewrite len_snoc. lia.
  - by rewrite Hr, app_assoc.
  - by apply Forall_app; split; [|constructor].
Qed.

Lemma channel_ok_send_observation cap g s o :
  channel_ok cap g s → validate_external_observation o = Ok tt → pending_count s < cap →
  channel_ok cap (sent_observation o Sent g) (push_observation o s).
Proof.
  intros (Hc & Hp & Hr & Ho & Hvr & Hvo) Hv Hlt. unfold pending_count in *.
  split_and!; try done; cbn.
  - unfold pending_count. cbn. rewrite len_snoc. lia.
  - by rewrite Ho, app_assoc.
  - by apply Forall_app; split; [|constructor].
Qed.

Lemma channel_ok_receive cap g s taken rest :
  channel_ok cap g s → reports s = taken ++ rest →
  channel_ok cap (got_reports taken g) (with_reports rest s).
Proof.
  intros (Hc & Hp & Hr & Ho & Hvr & Hvo) E. unfold pending_count in *.
  rewrite E in *. rewrite len_app in Hp. apply Forall_app in Hvr as [_ Hvr].
  split_and!; try done; cbn.
  - unfold pending_count. cbn. lia.
  - by rewrite Hr, app_assoc.
Qed.

Lemma channel_ok_receive_observation cap g s taken rest :
  channel_ok cap g s → observations s = taken ++ rest →
  channel_ok cap (got_observations taken g) (with_observations rest s).
Proof.
  intros (Hc & Hp & Hr & Ho & Hvr & Hvo) E. unfold pending_count in *.
  rewrite E in *. rewrite len_app in Hp. apply Forall_app in Hvo as [_ Hvo].
  split_and!; try done; cbn.
  - unfold pending_count. cbn. lia.
  - by rewrite Ho, app_assoc.
Qed.

Lemma got_no_reports g : got_reports (option_list None) g = g.
Proof. unfold got_reports. change (option_list None) with (@nil EffectReport).
  rewrite app_nil_r. by destruct g. Qed.
Lemma got_no_observations g : got_observations (option_list None) g = g.
Proof. unfold got_observations. change (option_list None) with (@nil ExternalObservation).
  rewrite app_nil_r. by destruct g. Qed.

(** One method, whichever it is. *)
Lemma run_step_ok cap address step g s (h : heap) :
  h !! address = Some (Some s) → channel_ok cap g s →
  match run_step address step g h with
  | (Ok g', h') => step_ok cap address g g' s h h'
  | (Err _, h') => h' = h
  end.
Proof.
  intros Hs Hok. pose proof (lock_some _ _ _ Hs) as Hlock.
  pose proof Hok as (Hcap & _).
  destruct step as [r|o| | | | | |];
    unfold run_step, try_send_report, try_send_observation, try_receive,
      try_receive_observation, drain, drain_observations, pending, shutdown,
      store_state, smodify, slift, mbind, stm_bind.
  - destruct (validate_effect_report r) as [[]|e] eqn:Hv; [|done]. rewrite Hlock.
    destruct (shutdown_flag s) eqn:Hsh; [by apply step_ok_same|].
    destruct (N.leb_spec (capacity s) (pending_count s)); [by apply step_ok_same|].
    apply step_ok_store; [|congruence]. apply channel_ok_send_report; [done|done|lia].
  - destruct (validate_external_observation o) as [[]|e] eqn:Hv; [|done]. rewrite Hlock.
    destruct (shutdown_flag s) eqn:Hsh; [by apply step_ok_same|].
    destruct (N.leb_spec (capacity s) (pending_count s)); [by apply step_ok_same|].
    apply step_ok_store; [|congruence].
    apply channel_ok_send_observation; [done|done|lia].
  - rewrite Hlock. destruct (reports s) as [|r rest] eqn:E.
    + unfold mret, stm_ret. rewrite got_no_reports. by apply step_ok_same.
    + apply step_ok_store; [by apply channel_ok_receive|done].
  - rewrite Hlock. destruct (observations s) as [|o rest] eqn:E.
    + unfold mret, stm_ret. rewrite got_no_observations. by apply step_ok_same.
    + apply step_ok_store; [by apply channel_ok_receive_observation|done].
  - rewrite Hlock. apply step_ok_store; [|done].
    apply channel_ok_receive; [done|by rewrite app_nil_r].
  - rewrite Hlock. apply step_ok_store; [|done].
    apply channel_ok_receive_observation; [done|by rewrite app_nil_r].
  - rewrite Hlock. by apply step_ok_same.
  - rewrite Hlock. by apply step_ok_store.
Qed.

Lemma run_steps_ok cap address steps g s (h : heap) :
  h !! address = Some (Some s) → channel_ok cap g s →
  let '(g', h') := run_steps address steps g h in
  step_ok cap address g g' s h h'.
Proof.
  revert g s h. induction steps as [|step steps IH]; intros g s h Hs Hok; cbn [run_steps].
  { by apply step_ok_same. }
  pose proof (run_step_ok cap address step g s h Hs Hok) as Hstep.
  destruct (run_step address step g h) as [[g1|e] h1].
  - destruct Hstep as (s1 & Hs1 & Hframe1 & Hok1 & Hsh1).
    specialize (IH g1 s1 h1 Hs1 Hok1). destruct run_steps as [g' h'].
    destruct IH as (s' & Hs' & Hframe & Hok' & Hsh). exists s'.
    split; [done|]. split; [intros b Hb; by rewrite Hframe, Hframe1|]. split; [done|].
    intros H. destruct (Hsh1 H) as (H1 & <- & <-). by apply Hsh.
  - subst h1. by apply IH.
Qed.

Definition empty_log : feedback_log := MkFeedbackLog [] [] [] [].

Lemma new_channel_ok cap h sender receiver h' :
  make_feedback_channel cap h = (Ok (sender, receiver), h') →
  ∃ address s, sender = Some address ∧ receiver = Some address ∧ h !! address = None ∧
    h' = <[address := Some s]> h ∧ cap ≠ 0 ∧ shutdown_flag s = false ∧
    channel_ok cap empty_log s.
Proof.
  unfold make_feedback_channel. intros H.
  apply stm_bind_ok in H as (u & h1 & [Hc <-]%sreject_if_ok & H).
  apply stm_bind_ok in H as (? & ? & [= <- <-] & H).
  apply stm_bind_ok in H as (? & ? & [= <- <-] & H).
  apply stm_ret_ok in H as [[= <- <-] <-].
  do 2 eexists. split_and!; try reflexivity; [|by apply N.eqb_neq|].
  - apply not_elem_of_dom, is_fresh.
  - split_and!; try done. change (0 <= cap). lia.
Qed.

(** * Properties *)

(** The channel is a bounded FIFO that neither loses, nor duplicates, nor
    reorders: after any interleaving of sends, receives, drains and shutdowns
    on a fresh channel, the items accepted are exactly those handed out
    followed by those still waiting, in order, for reports and observations
    alike; at most [capacity] items wait, and every waiting item is valid. *)
Theorem feedback_bounded_fifo (cap : N) (h h0 : heap) (sender receiver : option N)
    (steps : list feedback_step) :
  make_feedback_channel cap h = (Ok (sender, receiver), h0) →
  ∃ address, sender = Some address ∧ receiver = Some address ∧
  let '(g, h') := run_steps address steps empty_log h0 in
  ∃ s, h' !! address = Some (Some s) ∧ channel_ok cap g s ∧
       (∀ b, b ≠ address → h' !! b = h !! b).
Proof.
  intros (a & s & -> & -> & Hfresh & -> & Hc & _ & Hok)%new_channel_ok.
  exists a. split; [done|]. split; [done|].
  pose proof (run_steps_ok cap a steps empty_log s (<[a:=Some s]> h)) as H.
  destruct run_steps as [g h']. destruct H as (s' & Hs' & Hframe & Hok' & _);
    [apply lookup_insert_eq|done|].
  exists s'. split; [done|]. split; [done|]. intros b Hb.
  rewrite Hframe by done. by apply lookup_insert_ne.
Qed.

Definition sample_heap : heap := (make_feedback_channel 2 ∅).2.
Definition sample_sends : list feedback_step :=
  [StepSendReport (Report 1 1 "r" "t" Failed None "" 0 0);
   StepSendReport (Report 1 2 "r" "t" Failed None "" 0 0);
   StepSendReport (Report 1 3 "r" "t" Failed None "" 0 0); StepReceive].

Lemma feedback_bounded_fifo_witness :
  ∃ address, Some 0 = Some address ∧ Some 0 = Some address ∧
  let '(g, h') := run_steps address sample_sends empty_log sample_heap in
  ∃ s, h' !! address = Some (Some s) ∧ channel_ok 2 g s ∧
       (∀ b, b ≠ address → h' !! b = (∅ : heap) !! b).
Proof.
  apply (feedback_bounded_fifo 2 ∅ sample_heap (Some 0) (Some 0) sample_sends).
  by vm_compute.
Defined.

(** Shutdown is final: once the receiver has shut the channel down, nothing
    that happens later gets a report or an observation accepted; every further
    send is refused as closed, also after the receiver is destroyed. *)
Theorem feedback_shutdown_final (cap address : N) (g : feedback_log) (s : FeedbackState)
    (h : heap) (steps : list feedback_step) (r : EffectReport) :
  h !! address = Some (Some s) → channel_ok cap g s → shutdown_flag s = true →
  validate_effect_report r = Ok tt →
  let '(g', h') := run_steps address steps g h in
  sent_reports g' = sent_reports g ∧ sent_observations g' = sent_observations g ∧
  (try_send_report (Some address) r h').1 = Ok Closed ∧
  (try_send_report (Some address) r
     (destroy_receiver (Some address) h').2).1 = Ok Closed.
Proof.
  intros Hs Hok Hsh Hv.
  pose proof (run_steps_ok cap address steps g s h Hs Hok) as H.
  destruct run_steps as [g' h']. destruct H as (s' & Hs' & _ & _ & Hfinal).
  destruct (Hfinal Hsh) as (Hsh' & ? & ?). split; [done|]. split; [done|].
  assert ((destroy_receiver (Some address) h').2 !! address = Some None) as Hgone.
  { unfold destroy_receiver, shutdown, release, store_state, smodify, mbind, stm_bind.
    rewrite (lock_some _ _ _ Hs'). apply lookup_insert_eq. }
  unfold try_send_report, slift, mbind, stm_bind. rewrite Hv.
  split; [by rewrite (lock_some _ _ _ Hs'), Hsh'|].
  unfold lock. by rewrite Hgone.
Qed.

Lemma feedback_shutdown_final_witness :
  let h := (shutdown (Some 0) sample_heap).2 in
  let r := Report 1 1 "r" "t" Failed None "" 0 0 in
  let '(g', h') := run_steps 0 sample_sends empty_log h in
  sent_reports g' = sent_reports empty_log ∧
  sent_observations g' = sent_observations empty_log ∧
  (try_send_report (Some 0) r h').1 = Ok Closed ∧
  (try_send_report (Some 0) r (destroy_receiver (Some 0) h').2).1 = Ok Closed.
Proof.
  apply (feedback_shutdown_final 2 0 empty_log (MkFeedbackState [] [] 2 true)
    (shutdown (Some 0) sample_heap).2 sample_sends
    (Report 1 1 "r" "t" Failed None "" 0 0)); [by vm_compute| |done|by vm_compute].
  split_and!; try done.
Defined.
