(* ===== verification/Adapters.v ===== *)
(** * Adapters
    (include/liquid/effects/EffectAdapter.hpp,
     include/liquid/simulation/InMemoryAdapter.hpp,
     src/simulation/InMemoryAdapter.cpp)

    The interface the dispatcher calls, and the simulated adapter: a device
    whose state is a map from targets to values and revisions, with a
    configurable latency, outcome, duplication, silence and crash.  Feedback
    channels live in the heap of [Feedback]; an adapter's calls change the
    adapter and that heap together. *)
From S2P Require Import Prelude OrderedMap Values Effects Feedback.

(** ** [class EffectAdapter] *)
Class EffectAdapter (A : Type) := {
  route : A → string;
  capabilities : A → AdapterCapabilities;
  dispatch : EffectCommand → FeedbackSender → stm (A * heap) DispatchResult
}.

(** What the dispatcher relies on: a dispatch keeps the adapter's route and
    invariant, and its result belongs to the command. *)
Class EffectAdapterLaws (A : Type) `{EffectAdapter A} (inv : A → Prop) := {
  dispatch_keeps a h c f r w :
    inv a → dispatch c f (a, h) = (r, w) → inv w.1 ∧ route w.1 = route a;
  dispatch_trusted a h c f d w :
    inv a → dispatch c f (a, h) = (Ok d, w) →
    validate_dispatch_result_for_command d c = Ok tt
}.

(** ** The data of the simulated adapter *)

(** [normalize] is the host's function; [None] is an empty [std::function]. *)
Record AdapterBehavior := MkAdapterBehavior {
  latencyMs : N;
  outcome : CommandStatus;
  duplicateReports : N;
  silent : bool;
  reverseDelivery : bool;
  crashDuringDispatch : bool;
  normalize : option (value → res value)
}.

Record AdapterLimits := MkAdapterLimits {
  maxDuplicateReports : N;
  maxPendingReports : N;
  maxCachedOutcomes : N
}.

Definition default_AdapterBehavior : AdapterBehavior :=
  MkAdapterBehavior 0 Applied 0 false false false None.
Definition default_AdapterLimits : AdapterLimits := MkAdapterLimits 64 4096 4096.
Definition default_AdapterCapabilities : AdapterCapabilities :=
  MkAdapterCapabilities false true true.

Definition CommandKey : Type := N * N.
Definition command_key (c : EffectCommand) : CommandKey :=
  (command_session c, command_id c).

Record CachedOutcome := MkCachedOutcome {
  cached_command : EffectCommand;
  cached_result : DispatchResult
}.

#[export] Instance CachedOutcome_eq_dec : EqDecision CachedOutcome.
Proof. solve_decision. Defined.

(** [std::multimap<std::uint64_t, T>] with the sender of each entry: the
    entries in key order, entries of one key in insertion order. *)
Definition timeline (T : Type) : Type := list (N * (T * FeedbackSender)).

Record InMemoryAdapter := MkInMemoryAdapter {
  adapter_route : string;
  adapter_capabilities : AdapterCapabilities;
  adapterBehavior : AdapterBehavior;
  adapterLimits : AdapterLimits;
  pendingReports : timeline EffectReport;
  pendingObservations : timeline ExternalObservation;
  cachedOutcomes : gmap CommandKey CachedOutcome;
  deviceState : gmap string value;
  deviceRevisions : gmap string StateRevision
}.

Definition set_pendingReports l (a : InMemoryAdapter) : InMemoryAdapter :=
  MkInMemoryAdapter (adapter_route a) (adapter_capabilities a) (adapterBehavior a)
    (adapterLimits a) l (pendingObservations a) (cachedOutcomes a) (deviceState a)
    (deviceRevisions a).
Definition set_pendingObservations l (a : InMemoryAdapter) : InMemoryAdapter :=
  MkInMemoryAdapter (adapter_route a) (adapter_capabilities a) (adapterBehavior a)
    (adapterLimits a) (pendingReports a) l (cachedOutcomes a) (deviceState a)
    (deviceRevisions a).
Definition set_cachedOutcomes m (a : InMemoryAdapter) : InMemoryAdapter :=
  MkInMemoryAdapter (adapter_route a) (adapter_capabilities a) (adapterBehavior a)
    (adapterLimits a) (pendingReports a) (pendingObservations a) m (deviceState a)
    (deviceRevisions a).
Definition set_device tgt v rev (a : InMemoryAdapter) : InMemoryAdapter :=
  MkInMemoryAdapter (adapter_route a) (adapter_capabilities a) (adapterBehavior a)
    (adapterLimits a) (pendingReports a) (pendingObservations a) (cachedOutcomes a)
    (<[tgt := v]> (deviceState a)) (<[tgt := rev]> (deviceRevisions a)).
Definition set_adapterBehavior b (a : InMemoryAdapter) : InMemoryAdapter :=
  MkInMemoryAdapter (adapter_route a) (adapter_capabilities a) b
    (adapterLimits a) (pendingReports a) (pendingObservations a) (cachedOutcomes a)
    (deviceState a) (deviceRevisions a).

(** ** Multimaps *)

(** [multimap::emplace]: behind the entries whose key is not greater. *)
Fixpoint timeline_emplace {T} (key : N) (entry : T * FeedbackSender) (l : timeline T)
  : timeline T :=
  match l with
  | [] => [(key, entry)]
  | (k, e) :: l' => if key <? k then (key, entry) :: l
                    else (k, e) :: timeline_emplace key entry l'
  end.

(** [multimap::upper_bound]: the entries before it, and from it on. *)
Fixpoint upper_bound {T} (now : N) (l : timeline T) : timeline T * timeline T :=
  match l with
  | [] => ([], [])
  | (k, e) :: l' =>
      if now <? k then ([], l)
      else let '(before, after) := upper_bound now l' in ((k, e) :: before, after)
  end.

(** The entry [deliver_through] takes next, between those that stay: the last
    one not after [now] when delivering in reverse, otherwise the first one if
    it is due. *)
Definition next_due {T} (reverse : bool) (now : N) (l : timeline T)
  : option (timeline T * (T * FeedbackSender) * timeline T) :=
  if reverse then
    let '(before, after) := upper_bound now l in
    match last before with
    | None => None
    | Some (_, entry) => Some (removelast before, entry, after)
    end
  else
    match l with
    | (k, entry) :: l' => if now <? k then None else Some ([], entry, l')
    | [] => None
    end.

(** ** Operations *)

Definition adapter_world : Type := InMemoryAdapter * heap.

Definition get_adapter : stm adapter_world InMemoryAdapter := λ w, (Ok w.1, w).
Definition modify_adapter (f : InMemoryAdapter → InMemoryAdapter)
  : stm adapter_world unit := smodify (λ w, (f w.1, w.2)).
(** A call on a feedback channel. *)
Definition in_heap {A} (m : stm heap A) : stm adapter_world A := λ w,
  let '(r, h) := m w.2 in (r, (w.1, h)).

Definition validate_behavior (limits : AdapterLimits) (b : AdapterBehavior) : res unit :=
  reject_if ((maxDuplicateReports limits <? duplicateReports b) ||
             (duplicateReports b =? u64_max)) invalid_argument
    "simulated duplicate-report limit exceeded";;
  reject_if (bool_decide (outcome b = Pending)) invalid_argument
    "pending is not a simulated report outcome".

Definition new_InMemoryAdapter (theRoute : string) (behavior : AdapterBehavior)
    (caps : AdapterCapabilities) (limits : AdapterLimits) : res InMemoryAdapter :=
  reject_if (nativeIdempotency caps && (maxCachedOutcomes limits =? 0))
    invalid_argument
    "native idempotency requires a positive outcome-cache capacity";;
  validate_behavior limits behavior;;
  Ok (MkInMemoryAdapter theRoute caps behavior limits [] [] ∅ ∅ ∅).

Definition cache_outcome (command : EffectCommand) (result : DispatchResult)
  : stm adapter_world DispatchResult :=
  a ← get_adapter;
  if negb (nativeIdempotency (adapter_capabilities a)) then mret result
  else match cachedOutcomes a !! command_key command with
  | Some _ => sthrow logic_error "simulator outcome cache insertion collided"
  | None =>
      modify_adapter (set_cachedOutcomes
        (<[command_key command := MkCachedOutcome command result]> (cachedOutcomes a)));;
      mret result
  end.

(** [return cache_outcome(command, DispatchResult::...);] *)
Definition return_cached (command : EffectCommand) (result : res DispatchResult)
  : stm adapter_world DispatchResult :=
  r ← slift result; cache_outcome command r.

Definition adapter_pending (a : InMemoryAdapter) : N :=
  len (pendingReports a) + len (pendingObservations a).

(** The block of [dispatch] that applies the desired value: the value observed
    and the report's revision, or nothing when the revisions are exhausted.  An
    outcome other than [Applied] leaves the device alone. *)
Definition apply_desired (command : EffectCommand)
  : stm adapter_world (option (option value * StateRevision)) :=
  a ← get_adapter;
  if negb (bool_decide (outcome (adapterBehavior a) = Applied))
  then mret (Some (None, command_id command))
  else
    observed ← slift (match normalize (adapterBehavior a) with
                      | Some f => f (desiredValue (effect command))
                      | None => Ok (desiredValue (effect command))
                      end);
    slift (validate observed);;
    match deviceRevisions a !! target (effect command) with
    | None =>
        modify_adapter (set_device (target (effect command)) observed 1);;
        mret (Some (Some observed, 1))
    | Some revision =>
        if revision =? u64_max then mret None
        else
          modify_adapter (set_device (target (effect command)) observed (revision + 1));;
          mret (Some (Some observed, revision + 1))
    end.

Definition queue_report (report : EffectReport) (feedback : FeedbackSender)
  : stm adapter_world unit :=
  modify_adapter (λ a, set_pendingReports
    (timeline_emplace (reportedAtMs report) (report, feedback) (pendingReports a)) a).

(** One turn of the loop that sends the duplicates of an immediate report. *)
Definition send_duplicate (report : EffectReport) (feedback : FeedbackSender) (_ : unit)
  : stm adapter_world unit :=
  result ← in_heap (try_send_report feedback report);
  match result with
  | Full => queue_report report feedback
  | _ => mret tt
  end.

(** From the validated report on. *)
Definition emit_report (command : EffectCommand) (feedback : FeedbackSender)
    (report : EffectReport) : stm adapter_world DispatchResult :=
  a ← get_adapter;
  let behavior := adapterBehavior a in
  if latencyMs behavior =? 0 then
    srepeat (N.to_nat (duplicateReports behavior)) (send_duplicate report feedback) tt;;
    return_cached command (DispatchResult_accepted (Some report))
  else
    srepeat (N.to_nat (duplicateReports behavior + 1))
      (λ _, queue_report report feedback) tt;;
    return_cached command (DispatchResult_accepted None).

(** [requiredPending]; [duplicateReports] is below the largest [std::size_t],
    which [validate_behavior] excludes, so the sum does not wrap. *)
Definition required_pending (b : AdapterBehavior) : N :=
  if latencyMs b =? 0 then duplicateReports b else duplicateReports b + 1.

(** [dispatch] from [if (adapterBehavior.crashDuringDispatch)] on. *)
Definition dispatch_command (command : EffectCommand) (feedback : FeedbackSender)
  : stm adapter_world DispatchResult :=
  a ← get_adapter;
  let behavior := adapterBehavior a in
  let limit := maxPendingReports (adapterLimits a) in
  sreject_if (crashDuringDispatch behavior) runtime_error
    "simulated adapter crash uncertainty";;
  if silent behavior then return_cached command (DispatchResult_accepted None)
  else if u64_max - issuedAtMs command <? latencyMs behavior then
    return_cached command (DispatchResult_failed "simulated report timestamp overflow")
  else if (limit <? adapter_pending a) ||
          (limit - adapter_pending a <? required_pending behavior) then
    return_cached command
      (DispatchResult_failed "simulated pending-report capacity exceeded")
  else
    applied ← apply_desired command;
    match applied with
    | None => return_cached command
                (DispatchResult_failed "simulated device state revision exhausted")
    | Some (observed, stateRevision) =>
        let report := Report (command_session command) (command_id command)
          (adapterRoute (effect command)) (target (effect command)) (outcome behavior)
          observed "" (issuedAtMs command + latencyMs behavior) stateRevision in
        slift (validate_effect_report report);;
        emit_report command feedback report
    end.

Definition simulated_dispatch (command : EffectCommand) (feedback : FeedbackSender)
  : stm adapter_world DispatchResult :=
  slift (validate_effect_command command);;
  a ← get_adapter;
  if negb (bool_decide (adapterRoute (effect command) = adapter_route a)) then
    slift (DispatchResult_rejected "command route does not match simulator")
  else if nativeIdempotency (adapter_capabilities a) then
    match cachedOutcomes a !! command_key command with
    | Some cached =>
        sreject_if (negb (bool_decide (cached_command cached = command)))
          invalid_argument "simulator command ID was reused for a different command";;
        mret (cached_result cached)
    | None =>
        if maxCachedOutcomes (adapterLimits a) <=? N.of_nat (size (cachedOutcomes a))
        then slift (DispatchResult_failed
               "simulator idempotency outcome cache capacity exceeded")
        else dispatch_command command feedback
    end
  else dispatch_command command feedback.

(** The two loops of [deliver_through], over either timeline.  The result says
    whether the loop ended (or the method returned) and how many entries were
    accepted so far. *)
Section Delivery.
Context {T : Type}.
Context (entries : InMemoryAdapter → timeline T).
Context (set_entries : timeline T → InMemoryAdapter → InMemoryAdapter).
Context (send : FeedbackSender → T → stm heap FeedbackSendResult).

Fixpoint deliver_loop (fuel : nat) (now delivered : N)
  : stm adapter_world (bool * N) :=
  match fuel with
  | O => sthrow fuel_exhausted ""
  | S fuel =>
      a ← get_adapter;
      match entries a with
      | [] => mret (true, delivered)
      | _ :: _ =>
          match next_due (reverseDelivery (adapterBehavior a)) now (entries a) with
          | None => mret (false, delivered)
          | Some (before, (item, sender), after) =>
              result ← in_heap (send sender item);
              match result with
              | Full => mret (false, delivered)
              | _ =>
                  modify_adapter (set_entries (before ++ after));;
                  deliver_loop fuel now
                    (if bool_decide (result = Sent) then delivered + 1 else delivered)
              end
          end
      end
  end.
End Delivery.

Definition deliver_reports := deliver_loop pendingReports set_pendingReports try_send_report.
Definition deliver_observations :=
  deliver_loop pendingObservations set_pendingObservations try_send_observation.

Definition deliver_through (now : N) : stm adapter_world N :=
  a ← get_adapter;
  first ← deliver_reports (S (length (pendingReports a))) now 0;
  let '(continues, delivered) := first in
  if negb continues then mret delivered
  else
    second ← deliver_observations (S (length (pendingObservations a))) now delivered;
    mret second.2.

Definition observe (session : SessionId) (tgt : string) (v : value)
    (observedAt deliverAtMs : N) (feedback : FeedbackSender)
  : stm adapter_world StateRevision :=
  sreject_if (negb (valid session)) invalid_argument
    "simulated observation session is invalid";;
  sreject_if (slen tgt =? 0) invalid_argument "simulated observation target is empty";;
  sreject_if (deliverAtMs <? observedAt) invalid_argument
    "simulated observation cannot arrive before it was observed";;
  slift (validate v);;
  a ← get_adapter;
  sreject_if (maxPendingReports (adapterLimits a) <=? adapter_pending a) overflow_error
    "simulated pending-report capacity exceeded";;
  next ← match deviceRevisions a !! tgt with
         | None => mret 1
         | Some prior =>
             sreject_if (prior =? u64_max) overflow_error
               "simulated device state revision exhausted";;
             mret (prior + 1)
         end;
  modify_adapter (set_device tgt v next);;
  let observation :=
    MkExternalObservation session (adapter_route a) tgt v next observedAt in
  slift (validate_external_observation observation);;
  modify_adapter (λ a, set_pendingObservations
    (timeline_emplace deliverAtMs (observation, feedback) (pendingObservations a)) a);;
  mret next.

Definition set_behavior (b : AdapterBehavior) : stm adapter_world unit :=
  a ← get_adapter;
  slift (validate_behavior (adapterLimits a) b);;
  modify_adapter (set_adapterBehavior b).

Definition state (a : InMemoryAdapter) (tgt : string) : option value :=
  deviceState a !! tgt.
Definition revision (a : InMemoryAdapter) (tgt : string) : option StateRevision :=
  deviceRevisions a !! tgt.

#[export] Instance InMemoryAdapter_adapter : EffectAdapter InMemoryAdapter := {|
  route := adapter_route;
  capabilities := adapter_capabilities;
  dispatch := simulated_dispatch
|}.

(** * Lemmas *)

(** ** Timelines *)

Definition timeline_ok {T} (P : T → Prop) (l : timeline T) : Prop :=
  StronglySorted N.le l.*1 ∧ Forall (λ e, P e.2.1) l.

Lemma timeline_emplace_split {T} key entry (l : timeline T) :
  ∃ before after, l = before ++ after ∧
    timeline_emplace key entry l = before ++ (key, entry) :: after ∧
    Forall (λ e, e.1 <= key) before ∧
    match after with [] => True | e :: _ => key < e.1 end.
Proof.
  induction l as [|[k e] l IH]; cbn.
  { by exists [], []. }
  destruct (N.ltb_spec key k).
  { by exists [], ((k, e) :: l). }
  destruct IH as (before & after & -> & -> & Hb & Ha).
  exists ((k, e) :: before), after. split_and!; try done. by constructor.
Qed.

Lemma len_timeline_emplace {T} key entry (l : timeline T) :
  len (timeline_emplace key entry l) = len l + 1.
Proof.
  destruct (timeline_emplace_split key entry l) as (b & a & -> & -> & _).
  rewrite !len_app, len_cons. lia.
Qed.

Lemma elem_timeline_emplace {T} key entry (l : timeline T) x :
  x ∈ timeline_emplace key entry l ↔ x = (key, entry) ∨ x ∈ l.
Proof.
  destruct (timeline_emplace_split key entry l) as (b & a & -> & -> & _).
  rewrite !elem_of_app, elem_of_cons. tauto.
Qed.

Lemma timeline_ok_emplace {T} (P : T → Prop) key item sender (l : timeline T) :
  timeline_ok P l → P item → timeline_ok P (timeline_emplace key (item, sender) l).
Proof.
  intros [Hs HP] Hi. split.
  - clear HP. induction l as [|[k e] l IH]; cbn; [by repeat constructor|].
    apply StronglySorted_inv in Hs as [Hs Hk].
    destruct (N.ltb_spec key k); cbn.
    + constructor; [by constructor|]. constructor; [cbn; lia|].
      eapply Forall_impl; [exact Hk|cbn; lia].
    + constructor; [by apply IH|]. apply Forall_forall. intros x Hx.
      apply list_elem_of_fmap in Hx as (y & -> & Hy).
      apply elem_timeline_emplace in Hy as [->|Hy]; [done|].
      rewrite Forall_forall in Hk. apply Hk. by apply list_elem_of_fmap_2.
  - apply Forall_forall. intros x [->|Hx]%elem_timeline_emplace; [done|].
    rewrite Forall_forall in HP. by apply HP.
Qed.

Lemma upper_bound_app {T} now (l : timeline T) before after :
  upper_bound now l = (before, after) →
  l = before ++ after ∧ Forall (λ e, e.1 <= now) before.
Proof.
  revert before after. induction l as [|[k e] l IH]; intros before after; cbn.
  { by intros [= <- <-]. }
  destruct (N.ltb_spec now k); [by intros [= <- <-]|].
  destruct (upper_bound now l) as [b a]. intros [= <- <-].
  destruct (IH b a) as [-> ?]; [done|]. split; [done|]. by constructor.
Qed.

Lemma removelast_last_split {A} (l : list A) x :
  last l = Some x → l = removelast l ++ [x].
Proof.
  intros H. destruct (exists_last (l := l)) as (l' & y & ->); [by intros ->|].
  rewrite last_snoc in H. injection H as ->. by rewrite removelast_last.
Qed.

Lemma next_due_split {T} reverse now (l : timeline T) before entry after :
  next_due reverse now l = Some (before, entry, after) →
  ∃ k, l = before ++ (k, entry) :: after ∧ k <= now.
Proof.
  unfold next_due. destruct reverse.
  - destruct (upper_bound now l) as [b a] eqn:E. apply upper_bound_app in E as [-> Hb].
    destruct (last b) as [[k e]|] eqn:El; [|done]. intros [= <- <- <-].
    apply removelast_last_split in El. exists k. rewrite El at 1.
    rewrite <-app_assoc. split; [done|].
    rewrite El in Hb. apply Forall_app in Hb as [_ Hb]. by inversion Hb.
  - destruct l as [|[k e] l]; [done|]. destruct (N.ltb_spec now k); [done|].
    intros [= <- <- <-]. by exists k.
Qed.

(** What [next_due] does not find is not due. *)
Lemma next_due_none {T} reverse now (l : timeline T) :
  StronglySorted N.le l.*1 → next_due reverse now l = None →
  Forall (λ e, now < e.1) l.
Proof.
  intros Hs. destruct l as [|[k e] l]; [constructor|].
  assert (now < k → Forall (λ e, now < e.1) ((k, e) :: l)) as Hall.
  { intros Hk. constructor; [done|]. apply StronglySorted_inv in Hs as [_ Hs].
    apply Forall_forall. intros x Hx. rewrite Forall_forall in Hs.
    specialize (Hs x.1 (list_elem_of_fmap_2 fst _ _ Hx)). cbn in Hs. lia. }
  unfold next_due. destruct reverse; cbn.
  - destruct (N.ltb_spec now k); [by auto|].
    destruct (upper_bound now l) as [b a].
    destruct (last ((k, e) :: b)) as [[? ?]|] eqn:El; [done|].
    by apply last_None in El.
  - destruct (N.ltb_spec now k); [by auto|done].
Qed.

Lemma StronglySorted_remove {A} (R : A → A → Prop) l1 x l2 :
  StronglySorted R (l1 ++ x :: l2) → StronglySorted R (l1 ++ l2).
Proof.
  induction l1 as [|y l1 IH]; cbn.
  - by intros [? _]%StronglySorted_inv.
  - intros [Hs Hy]%StronglySorted_inv. constructor; [by apply IH|].
    apply Forall_app in Hy as [? Hy]. apply Forall_app. split; [done|].
    by inversion Hy.
Qed.

Lemma timeline_ok_remove {T} (P : T → Prop) before x (after : timeline T) :
  timeline_ok P (before ++ x :: after) → timeline_ok P (before ++ after) ∧ P x.2.1.
Proof.
  intros [Hs HP]. apply Forall_app in HP as [HP1 HP2].
  apply Forall_cons in HP2 as [Hx HP2]. split; [|done]. split.
  - rewrite fmap_app in *. cbn in Hs. by eapply StronglySorted_remove.
  - by apply Forall_app.
Qed.

(** ** The invariant of a simulated adapter *)

Definition report_valid (r : EffectReport) : Prop := validate_effect_report r = Ok tt.
Definition observation_valid (o : ExternalObservation) : Prop :=
  validate_external_observation o = Ok tt.

Record adapter_ok (a : InMemoryAdapter) : Prop := {
  ok_reports : timeline_ok report_valid (pendingReports a);
  ok_observations : timeline_ok observation_valid (pendingObservations a);
  ok_pending : adapter_pending a <= maxPendingReports (adapterLimits a);
  ok_behavior : validate_behavior (adapterLimits a) (adapterBehavior a) = Ok tt;
  ok_cache_size : N.of_nat (size (cachedOutcomes a)) <= maxCachedOutcomes (adapterLimits a);
  ok_cache : map_Forall (λ k e, k = command_key (cached_command e) ∧
    validate_dispatch_result_for_command (cached_result e) (cached_command e) = Ok tt)
    (cachedOutcomes a);
  ok_device : dom (deviceState a) = dom (deviceRevisions a);
  ok_values : map_Forall (λ _ v, validate v = Ok tt) (deviceState a);
  ok_revisions : map_Forall (λ _ r, 1 <= r <= u64_max) (deviceRevisions a)
}.

(** What only ever grows: remembered outcomes stay, revisions never fall, and
    the configuration fixed at construction is fixed. *)
Record evolves (a a' : InMemoryAdapter) : Prop := {
  evolves_route : adapter_route a' = adapter_route a;
  evolves_capabilities : adapter_capabilities a' = adapter_capabilities a;
  evolves_limits : adapterLimits a' = adapterLimits a;
  evolves_cache : cachedOutcomes a ⊆ cachedOutcomes a';
  evolves_revisions t r : deviceRevisions a !! t = Some r →
    ∃ r', deviceRevisions a' !! t = Some r' ∧ r <= r'
}.

#[export] Instance evolves_preorder : PreOrder evolves.
Proof.
  split.
  - intros a. split; try done. intros t r H. exists r. split; [done|lia].
  - intros a b c [H1 H2 H3 H4 H5] [G1 G2 G3 G4 G5]. split; try congruence.
    + by etrans.
    + intros t r (r' & Hr & ?)%H5. apply G5 in Hr as (r'' & Hr & ?).
      exists r''. split; [done|lia].
Qed.

Lemma evolves_same_device a a' :
  adapter_route a' = adapter_route a → adapter_capabilities a' = adapter_capabilities a →
  adapterLimits a' = adapterLimits a → cachedOutcomes a ⊆ cachedOutcomes a' →
  deviceRevisions a' = deviceRevisions a → evolves a a'.
Proof.
  intros ? ? ? ? E. split; try done. rewrite E. intros t r Hr. exists r. split; [done|lia].
Qed.

Lemma adapter_ok_reports a l :
  adapter_ok a → timeline_ok report_valid l →
  len l + len (pendingObservations a) <= maxPendingReports (adapterLimits a) →
  adapter_ok (set_pendingReports l a).
Proof. intros []. by split. Qed.

Lemma adapter_ok_observations a l :
  adapter_ok a → timeline_ok observation_valid l →
  len (pendingReports a) + len l <= maxPendingReports (adapterLimits a) →
  adapter_ok (set_pendingObservations l a).
Proof. intros []. by split. Qed.

Lemma adapter_ok_device a tgt v rev :
  adapter_ok a → validate v = Ok tt → 1 <= rev <= u64_max →
  adapter_ok (set_device tgt v rev a).
Proof.
  intros [? ? ? ? ? ? Hd Hv Hr] Hval Hrev. split; try done; cbn.
  - by rewrite !dom_insert_L, Hd.
  - by apply map_Forall_insert_2.
  - by apply map_Forall_insert_2.
Qed.

Lemma evolves_device a tgt v rev :
  (∀ r, deviceRevisions a !! tgt = Some r → r <= rev) →
  evolves a (set_device tgt v rev a).
Proof.
  intros Hle. split; try done. cbn. intros t r H.
  destruct (decide (t = tgt)) as [->|Hne].
  - rewrite lookup_insert_eq. eauto.
  - rewrite lookup_insert_ne by done. exists r. split; [done|lia].
Qed.

(** ** Sending never fails on what is queued *)

Lemma try_send_report_total f r (h : heap) :
  report_valid r → ∃ res h', try_send_report f r h = (Ok res, h').
Proof.
  intros Hr. unfold try_send_report, slift, mbind, stm_bind, lock. rewrite Hr.
  destruct f as [address|]; [|by eauto].
  destruct (h !! address) as [[s|]|]; [|by eauto..].
  destruct (shutdown_flag s); [by eauto|].
  destruct (capacity s <=? pending_count s); by eauto.
Qed.

Lemma try_send_observation_total f o (h : heap) :
  observation_valid o → ∃ res h', try_send_observation f o h = (Ok res, h').
Proof.
  intros Hr. unfold try_send_observation, slift, mbind, stm_bind, lock. rewrite Hr.
  destruct f as [address|]; [|by eauto].
  destruct (h !! address) as [[s|]|]; [|by eauto..].
  destruct (shutdown_flag s); [by eauto|].
  destruct (capacity s <=? pending_count s); by eauto.
Qed.

(** ** [dispatch] *)

(** What one turn of either report loop does: at most one more pending report. *)
Definition queues (step : unit → stm adapter_world unit) : Prop := ∀ a h,
  ∃ l h', step tt (a, h) = (Ok tt, (set_pendingReports l a, h')) ∧
    (timeline_ok report_valid (pendingReports a) → timeline_ok report_valid l) ∧
    len l <= len (pendingReports a) + 1.

Lemma queue_report_queues r f : report_valid r → queues (λ _, queue_report r f).
Proof.
  intros Hr a h. do 2 eexists. split; [reflexivity|]. split.
  - intros. by apply timeline_ok_emplace.
  - rewrite len_timeline_emplace. reflexivity.
Qed.

Lemma send_duplicate_queues r f : report_valid r → queues (send_duplicate r f).
Proof.
  intros Hr a h. unfold send_duplicate.
  destruct (try_send_report_total f r h Hr) as (res & h' & E).
  assert (in_heap (try_send_report f r) (a, h) = (Ok res, (a, h'))) as Es.
  { unfold in_heap. cbn [fst snd]. by rewrite E. }
  rewrite (stm_bind_eq _ _ _ _ _ Es).
  assert (∃ l h'', (mret tt : stm adapter_world unit) (a, h') =
    (Ok tt, (set_pendingReports l a, h'')) ∧
    (timeline_ok report_valid (pendingReports a) → timeline_ok report_valid l) ∧
    len l <= len (pendingReports a) + 1).
  { exists (pendingReports a), h'. split; [by destruct a|]. split; [done|lia]. }
  destruct res; [done| |done]. apply (queue_report_queues r f Hr).
Qed.

Lemma srepeat_queues step n a h :
  queues step →
  ∃ l h', srepeat n step tt (a, h) = (Ok tt, (set_pendingReports l a, h')) ∧
    (timeline_ok report_valid (pendingReports a) → timeline_ok report_valid l) ∧
    len l <= len (pendingReports a) + N.of_nat n.
Proof.
  intros Hstep. revert a h. induction n as [|n IH]; intros a h; cbn [srepeat].
  { exists (pendingReports a), h. split; [by destruct a|]. split; [done|lia]. }
  destruct (Hstep a h) as (l1 & h1 & E1 & Hok1 & Hlen1).
  rewrite (stm_bind_eq _ _ _ _ _ E1).
  destruct (IH (set_pendingReports l1 a) h1) as (l & h' & E & Hok & Hlen).
  exists l, h'. split; [exact E|]. cbn in Hok, Hlen. split; [by auto|lia].
Qed.

(** Room for one more outcome, and the command's not among them. *)
Definition cache_room (a : InMemoryAdapter) (c : EffectCommand) : Prop :=
  nativeIdempotency (adapter_capabilities a) = true →
  cachedOutcomes a !! command_key c = None ∧
  N.of_nat (size (cachedOutcomes a)) < maxCachedOutcomes (adapterLimits a).

(** The outcome of a dispatch that ran: kept if the adapter remembers outcomes. *)
Definition dispatched (c : EffectCommand) (a : InMemoryAdapter)
    (d : DispatchResult) (a' : InMemoryAdapter) : Prop :=
  adapter_ok a' ∧ evolves a a' ∧
  validate_dispatch_result_for_command d c = Ok tt ∧
  (nativeIdempotency (adapter_capabilities a) = true →
   cachedOutcomes a' !! command_key c = Some (MkCachedOutcome c d)).

Lemma return_cached_ok a h c m d :
  adapter_ok a → cache_room a c → m = Ok d →
  validate_dispatch_result_for_command d c = Ok tt →
  ∃ a', return_cached c m (a, h) = (Ok d, (a', h)) ∧ dispatched c a d a'.
Proof.
  intros Hok Hroom -> Hd. unfold return_cached, cache_outcome.
  rewrite (stm_bind_eq _ _ (a, h) d (a, h)) by done.
  rewrite (stm_bind_eq _ _ (a, h) a (a, h)) by done.
  destruct (nativeIdempotency (adapter_capabilities a)) eqn:Hn; cbn [negb].
  - destruct (Hroom Hn) as [Hnone Hsize]. rewrite Hnone.
    eexists. split; [reflexivity|]. pose proof Hok as [? ? ? ? Hs Hc ? ? ?].
    split_and!.
    + split; try done; cbn.
      * rewrite map_size_insert_None by done. lia.
      * by apply map_Forall_insert_2.
    + apply evolves_same_device; try done. cbn. by apply insert_subseteq.
    + done.
    + intros _. cbn. apply lookup_insert_eq.
  - exists a. split; [done|]. split; [done|]. split; [done|]. split; [done|congruence].
Qed.

Lemma dispatched_trans c a a1 d a' :
  evolves a a1 → dispatched c a1 d a' → dispatched c a d a'.
Proof.
  intros He (Hok & He' & Hd & Hc). split_and!; try done.
  - by etrans.
  - intros Hn. apply Hc. by rewrite (evolves_capabilities _ _ He).
Qed.

(** What [apply_desired] hands on, and what it did to the device. *)
Definition desired_applied (c : EffectCommand) (a a' : InMemoryAdapter)
    (observed : option value) (rev : StateRevision) : Prop :=
  (outcome (adapterBehavior a) ≠ Applied ∧ observed = None ∧ a' = a) ∨
  (outcome (adapterBehavior a) = Applied ∧ ∃ v, observed = Some v ∧
    validate v = Ok tt ∧ 1 <= rev <= u64_max ∧
    (∀ r, deviceRevisions a !! target (effect c) = Some r → r + 1 = rev) ∧
    a' = set_device (target (effect c)) v rev a).

Lemma apply_desired_spec a h c :
  adapter_ok a →
  match apply_desired c (a, h) with
  | (Ok (Some (observed, rev)), w) => ∃ a', w = (a', h) ∧
      desired_applied c a a' observed rev
  | (_, w) => w = (a, h)
  end.
Proof.
  intros Hok. unfold apply_desired.
  rewrite (stm_bind_eq _ _ (a, h) a (a, h)) by done. case_bool_decide as Ho; cbn [negb].
  2:{ exists a. split; [done|]. by left. }
  set (m := match normalize (adapterBehavior a) with Some f => _ | None => _ end).
  unfold slift, mbind, stm_bind. destruct m as [v|e]; [|done].
  destruct (validate v) as [[]|e] eqn:Hv; [|done].
  destruct (deviceRevisions a !! target (effect c)) as [rev|] eqn:Hr.
  - destruct (N.eqb_spec rev u64_max); [done|]. eexists. split; [reflexivity|]. right.
    split; [done|]. exists v. pose proof (ok_revisions a Hok _ _ Hr) as Hbound.
    cbn in Hbound. split_and!; try done; [lia|lia|].
    rewrite Hr. by intros r [= ->].
  - eexists. split; [reflexivity|]. right. split; [done|]. exists v.
    rewrite Hr. by split_and!.
Qed.

Lemma desired_applied_ok c a a' observed rev :
  adapter_ok a → desired_applied c a a' observed rev →
  adapter_ok a' ∧ evolves a a' ∧ pendingReports a' = pendingReports a ∧
  pendingObservations a' = pendingObservations a ∧
  adapterBehavior a' = adapterBehavior a ∧ cachedOutcomes a' = cachedOutcomes a.
Proof.
  intros Hok [(_ & _ & ->) | (_ & v & _ & Hv & Hrev & Hold & ->)]; [by split_and!|].
  split_and!; try done.
  - by apply adapter_ok_device.
  - apply evolves_device. intros r Hr%Hold. lia.
Qed.

Lemma desired_report_valid c a a' observed rev at_ms :
  adapter_ok a → desired_applied c a a' observed rev →
  validate_effect_command c = Ok tt →
  report_valid (Report (command_session c) (command_id c) (adapterRoute (effect c))
    (target (effect c)) (outcome (adapterBehavior a)) observed "" at_ms rev).
Proof.
  intros Hok Hd Hc. unfold validate_effect_command in Hc.
  rewrite !guard_ok in Hc. destruct Hc as (Hs & Hi & _).
  pose proof (ok_behavior a Hok) as Hb. unfold validate_behavior in Hb.
  rewrite guard_ok, reject_if_ok in Hb. destruct Hb as [_ Hpend].
  unfold report_valid, validate_effect_report, Report. cbn. rewrite Hs, Hi, Hpend. cbn.
  destruct Hd as [(Ho & -> & _) | (Ho & v & -> & Hv & Hrev & _ & _)].
  - rewrite bool_decide_eq_false_2 by done. done.
  - rewrite bool_decide_eq_true_2 by done. cbn.
    assert (valid rev = true) as Hvr by (unfold valid; lia).
    rewrite Hvr. cbn. rewrite Hvr. cbn. rewrite Hv. done.
Qed.

Lemma trusted_without_report c d :
  validate_effect_command c = Ok tt → DispatchResult_validate d = Ok tt →
  immediateReport d = None → validate_dispatch_result_for_command d c = Ok tt.
Proof.
  intros Hc Hd Hn. unfold validate_dispatch_result_for_command. rewrite Hc, Hd. cbn.
  by rewrite Hn.
Qed.

Lemma accepted_report_ok r :
  report_valid r →
  DispatchResult_accepted (Some r) = Ok (MkDispatchResult DispatchAccepted (Some r) "").
Proof.
  intros Hr. unfold DispatchResult_accepted, DispatchResult_validate. cbn.
  unfold report_valid in Hr. by rewrite Hr.
Qed.

Lemma trusted_report c r :
  validate_effect_command c = Ok tt → report_valid r → report_matches r c = true →
  validate_dispatch_result_for_command
    (MkDispatchResult DispatchAccepted (Some r) "") c = Ok tt.
Proof.
  intros Hc Hr Hm. unfold validate_dispatch_result_for_command, DispatchResult_validate.
  rewrite Hc. cbn. unfold report_valid in Hr. rewrite Hr. cbn. by rewrite Hm.
Qed.

(** The result of a branch that returns a fixed outcome. *)
Lemma return_fixed_ok a h c d :
  adapter_ok a → cache_room a c → validate_effect_command c = Ok tt →
  DispatchResult_validate d = Ok tt → immediateReport d = None →
  ∃ a', return_cached c (DispatchResult_validate d;; Ok d) (a, h) = (Ok d, (a', h)) ∧
        dispatched c a d a'.
Proof.
  intros Hok Hroom Hc Hd Hn. apply return_cached_ok; [done|done| |].
  - by rewrite Hd.
  - by apply trusted_without_report.
Qed.

Lemma emit_report_ok a h c f r :
  adapter_ok a → cache_room a c → validate_effect_command c = Ok tt →
  report_valid r → report_matches r c = true →
  adapter_pending a + required_pending (adapterBehavior a)
    <= maxPendingReports (adapterLimits a) →
  ∃ d a' h', emit_report c f r (a, h) = (Ok d, (a', h')) ∧ dispatched c a d a'.
Proof.
  intros Hok Hroom Hc Hr Hm Hcap. unfold emit_report, required_pending in *.
  rewrite (stm_bind_eq _ _ (a, h) a (a, h)) by done. cbn zeta.
  set (dup := duplicateReports _) in *.
  assert (∀ step n, queues step →
    adapter_pending a + N.of_nat n <= maxPendingReports (adapterLimits a) →
    ∃ l h', srepeat n step tt (a, h) = (Ok tt, (set_pendingReports l a, h')) ∧
      adapter_ok (set_pendingReports l a)) as Hloop.
  { intros step n Hq Hn. destruct (srepeat_queues step n a h Hq) as (l & h' & E & Ht & Hl).
    exists l, h'. split; [done|]. apply adapter_ok_reports; [done|apply Ht, ok_reports, Hok|].
    unfold adapter_pending in Hn. lia. }
  assert (∀ l, evolves a (set_pendingReports l a)) as Hev
    by by intros; apply evolves_same_device.
  destruct (latencyMs _ =? 0).
  - destruct (Hloop (send_duplicate r f) (N.to_nat dup)) as (l & h' & E & Hok');
      [by apply send_duplicate_queues|lia|].
    rewrite (stm_bind_eq _ _ _ _ _ E).
    destruct (return_cached_ok (set_pendingReports l a) h' c
      (DispatchResult_accepted (Some r)) _ Hok' Hroom (accepted_report_ok r Hr)
      (trusted_report c r Hc Hr Hm)) as (a' & E' & Hd).
    rewrite E'. do 3 eexists. split; [done|].
    exact (dispatched_trans _ _ _ _ _ (Hev l) Hd).
  - destruct (Hloop (λ _, queue_report r f) (N.to_nat (dup + 1))) as (l & h' & E & Hok');
      [by apply queue_report_queues|lia|].
    rewrite (stm_bind_eq _ _ _ _ _ E).
    destruct (return_fixed_ok (set_pendingReports l a) h' c
      (MkDispatchResult DispatchAccepted None "") Hok' Hroom Hc eq_refl eq_refl)
      as (a' & E' & Hd).
    unfold DispatchResult_accepted. rewrite E'. do 3 eexists. split; [done|].
    exact (dispatched_trans _ _ _ _ _ (Hev l) Hd).
Qed.

Lemma dispatch_command_spec a h c f :
  adapter_ok a → cache_room a c → validate_effect_command c = Ok tt →
  adapterRoute (effect c) = adapter_route a →
  match dispatch_command c f (a, h) with
  | (Ok d, w) => dispatched c a d w.1
  | (Err _, w) => w = (a, h)
  end.
Proof.
  intros Hok Hroom Hc Hroute. unfold dispatch_command.
  rewrite (stm_bind_eq _ _ (a, h) a (a, h)) by done. cbn zeta.
  destruct (crashDuringDispatch _); [done|].
  rewrite (stm_bind_eq _ _ _ _ _ (sreject_if_false _ _ _)).
  assert (∀ d, DispatchResult_validate d = Ok tt → immediateReport d = None →
    match return_cached c (DispatchResult_validate d;; Ok d) (a, h) with
    | (Ok d, w) => dispatched c a d w.1
    | (Err _, w) => w = (a, h)
    end) as Hfixed.
  { intros d Hd Hn.
    destruct (return_fixed_ok a h c d Hok Hroom Hc Hd Hn) as (a' & -> & ?). done. }
  destruct (silent _); [by apply Hfixed|].
  destruct (_ <? latencyMs _); [by apply Hfixed|].
  destruct ((_ <? _) || _) eqn:Hcap; [by apply Hfixed|].
  apply orb_false_iff in Hcap as [Hcap1 Hcap2].
  apply N.ltb_ge in Hcap1. apply N.ltb_ge in Hcap2.
  pose proof (apply_desired_spec a h c Hok) as Hd. unfold mbind at 1, stm_bind at 1.
  destruct (apply_desired c (a, h)) as [[[[observed rev]|]|e] w];
    [|subst w; by apply Hfixed|done].
  destruct Hd as (a1 & -> & Hd).
  destruct (desired_applied_ok _ _ _ _ _ Hok Hd) as (Hok1 & Hev & Hpr & Hpo & Hb & Hcache).
  set (r := Report _ _ _ _ _ _ _ _ _).
  assert (report_valid r) as Hr by by eapply desired_report_valid.
  rewrite (stm_bind_eq _ _ _ tt (a1, h)) by (unfold slift; by rewrite Hr).
  destruct (emit_report_ok a1 h c f r) as (d & a' & h' & -> & Hd'); try done.
  - intros Hn. rewrite (evolves_capabilities _ _ Hev) in Hn.
    rewrite Hcache, (evolves_limits _ _ Hev). by apply Hroom.
  - unfold report_matches, r, Report. cbn. rewrite !N.eqb_refl.
    by rewrite !bool_decide_eq_true_2.
  - rewrite (evolves_limits _ _ Hev), Hb.
    replace (adapter_pending a1) with (adapter_pending a)
      by (unfold adapter_pending; by rewrite Hpr, Hpo). lia.
  - cbn [fst]. by eapply dispatched_trans.
Qed.

(** What a call of [dispatch] does.  A throw leaves everything as it was. *)
Definition dispatch_outcome (c : EffectCommand) (w : adapter_world)
    (r : res DispatchResult) (w' : adapter_world) : Prop :=
  match r with
  | Err _ => w' = w
  | Ok d =>
      adapter_ok w'.1 ∧ evolves w.1 w'.1 ∧
      validate_dispatch_result_for_command d c = Ok tt ∧
      (nativeIdempotency (adapter_capabilities w.1) = true →
       adapterRoute (effect c) = adapter_route w.1 →
       (N.of_nat (size (cachedOutcomes w.1)) < maxCachedOutcomes (adapterLimits w.1) ∨
        cachedOutcomes w.1 !! command_key c ≠ None) →
       cachedOutcomes w'.1 !! command_key c = Some (MkCachedOutcome c d))
  end.

Lemma simulated_dispatch_spec w c f :
  adapter_ok w.1 →
  let '(r, w') := simulated_dispatch c f w in dispatch_outcome c w r w'.
Proof.
  destruct w as [a h]. cbn [fst]. intros Hok. unfold simulated_dispatch.
  unfold slift, mbind at 1, stm_bind at 1.
  destruct (validate_effect_command c) as [[]|e] eqn:Hc; [|done].
  rewrite (stm_bind_eq _ _ (a, h) a (a, h)) by done.
  case_bool_decide as Hroute; cbn [negb].
  2:{ split_and!; [done|done| |done]. by apply trusted_without_report. }
  assert (cache_room a c →
    let '(r, w') := dispatch_command c f (a, h) in dispatch_outcome c (a, h) r w') as Hrun.
  { intros Hroom. pose proof (dispatch_command_spec a h c f Hok Hroom Hc Hroute) as H.
    destruct (dispatch_command c f (a, h)) as [[d|e] w']; [|done].
    destruct H as (? & ? & ? & ?). split_and!; try done. by auto. }
  destruct (nativeIdempotency _) eqn:Hn; [|apply Hrun; unfold cache_room; congruence].
  destruct (cachedOutcomes a !! command_key c) as [[c' d]|] eqn:Hcached.
  - cbn [cached_command cached_result].
    case_bool_decide as Heq; [subst c'|done].
    pose proof (ok_cache a Hok _ _ Hcached) as [_ Hd]. cbn in Hd.
    by split_and!.
  - destruct (N.leb_spec (maxCachedOutcomes (adapterLimits a))
      (N.of_nat (size (cachedOutcomes a)))).
    + split_and!; [done|done|by apply trusted_without_report|].
      intros _ _ [Hlt|Hne]; [|done]. cbn [fst] in Hlt. lia.
    + apply Hrun. intros _. by split.
Qed.

(** ** Delivery *)

Lemma try_send_report_full f r (h h' : heap) :
  try_send_report f r h = (Ok Full, h') → h' = h.
Proof.
  unfold try_send_report, slift, mbind, stm_bind, lock.
  destruct (validate_effect_report r); [|done].
  destruct f as [address|]; [|done].
  destruct (h !! address) as [[s|]|]; [|done..].
  destruct (shutdown_flag s); [done|]. destruct (capacity s <=? pending_count s); [|done].
  by intros [= <-].
Qed.

Lemma try_send_observation_full f o (h h' : heap) :
  try_send_observation f o h = (Ok Full, h') → h' = h.
Proof.
  unfold try_send_observation, slift, mbind, stm_bind, lock.
  destruct (validate_external_observation o); [|done].
  destruct f as [address|]; [|done].
  destruct (h !! address) as [[s|]|]; [|done..].
  destruct (shutdown_flag s); [done|]. destruct (capacity s <=? pending_count s); [|done].
  by intros [= <-].
Qed.

(** What delivering up to [now] may do to a timeline: only entries that are due
    leave it, and the others keep their order. *)
Definition due_delivered {T} (now : N) (l l' : timeline T) (count : N) : Prop :=
  ∃ gone, l ≡ₚ gone ++ l' ∧ Forall (λ e, e.1 <= now) gone ∧ l' `sublist_of` l ∧
          count <= len gone.

(** Why delivery may stop before the timeline is empty: nothing in it is due,
    or the channel of an entry that is due is full. *)
Definition delivery_rests {T} (send : FeedbackSender → T → stm heap FeedbackSendResult)
    (now : N) (l : timeline T) (h : heap) : Prop :=
  Forall (λ e, now < e.1) l ∨
  ∃ k item sender, (k, (item, sender)) ∈ l ∧ k <= now ∧
                   send sender item h = (Ok Full, h).

Lemma due_delivered_refl {T} now (l : timeline T) : due_delivered now l l 0.
Proof. exists []. split_and!; [done|done|done|]. change (0 <= 0). lia. Qed.

Section DeliveryLemmas.
Context {T : Type} (P : T → Prop).
Context (entries : InMemoryAdapter → timeline T).
Context (set_entries : timeline T → InMemoryAdapter → InMemoryAdapter).
Context (send : FeedbackSender → T → stm heap FeedbackSendResult).
Context (get_set : ∀ l a, entries (set_entries l a) = l).
Context (set_get : ∀ a, set_entries (entries a) a = a).
Context (set_set : ∀ l l' a, set_entries l (set_entries l' a) = set_entries l a).
Context (send_total : ∀ f x h, P x → ∃ res h', send f x h = (Ok res, h')).
Context (send_full : ∀ f x h h', send f x h = (Ok Full, h') → h' = h).

Lemma deliver_loop_spec fuel now n a h :
  timeline_ok P (entries a) → (length (entries a) < fuel)%nat →
  ∃ b n' l h', deliver_loop entries set_entries send fuel now n (a, h)
      = (Ok (b, n + n'), (set_entries l a, h')) ∧
    due_delivered now (entries a) l n' ∧ timeline_ok P l ∧
    delivery_rests send now l h' ∧ (b = true ↔ l = []).
Proof.
  revert n a h. induction fuel as [|fuel IH]; intros n a h Hok Hfuel; [lia|].
  cbn [deliver_loop]. rewrite (stm_bind_eq _ _ (a, h) a (a, h)) by done.
  assert (∀ b, delivery_rests send now (entries a) h → (b = true ↔ entries a = []) →
    ∃ b' n' l h', (mret (b, n) : stm adapter_world _) (a, h)
      = (Ok (b', n + n'), (set_entries l a, h')) ∧
    due_delivered now (entries a) l n' ∧ timeline_ok P l ∧
    delivery_rests send now l h' ∧ (b' = true ↔ l = [])) as Hstop.
  { intros b Hrest Hb. exists b, 0, (entries a), h. rewrite set_get, N.add_0_r.
    by split_and!; [|apply due_delivered_refl|..]. }
  destruct (entries a) as [|x l0] eqn:El; [apply Hstop; [by left|done]|]. rewrite <-El in *.
  destruct next_due as [[[before [item sender]] after]|] eqn:Hnext.
  2:{ apply Hstop; [left; eapply next_due_none; [apply Hok|done]|].
      split; [done|]. by rewrite El. }
  apply next_due_split in Hnext as (k & Hsplit & Hk). clear x l0 El.
  rewrite Hsplit in Hok. destruct (timeline_ok_remove P _ _ _ Hok) as [Hrest Hitem].
  cbn in Hitem. destruct (send_total sender item h Hitem) as (res & h1 & Hsend).
  assert (in_heap (send sender item) (a, h) = (Ok res, (a, h1))) as Es.
  { unfold in_heap. cbn [fst snd]. by rewrite Hsend. }
  rewrite (stm_bind_eq _ _ _ _ _ Es).
  assert (∀ m, m <= 1 → ∃ b n' l h', (modify_adapter (set_entries (before ++ after));;
      deliver_loop entries set_entries send fuel now (n + m)) (a, h1)
      = (Ok (b, n + n'), (set_entries l a, h')) ∧
    due_delivered now (entries a) l n' ∧ timeline_ok P l ∧
    delivery_rests send now l h' ∧ (b = true ↔ l = [])) as Hgo.
  { intros m Hm.
    rewrite (stm_bind_eq _ _ _ tt (set_entries (before ++ after) a, h1)) by done.
    destruct (IH (n + m) (set_entries (before ++ after) a) h1)
      as (b & n' & l & h' & E & Hdue & Hokl & Hr & Hb).
    { by rewrite get_set. }
    { rewrite get_set. rewrite Hsplit in Hfuel. rewrite !length_app in *. cbn in Hfuel. lia. }
    rewrite get_set in Hdue. destruct Hdue as (gone & Hperm & Hgone & Hsub & Hn').
    exists b, (m + n'), l, h'. rewrite E, set_set, N.add_assoc.
    split; [done|]. split; [|done].
    exists ((k, (item, sender)) :: gone). rewrite Hsplit. split_and!.
    - by rewrite <-Permutation_middle, Hperm.
    - by constructor.
    - etrans; [exact Hsub|]. apply sublist_app; [done|]. by constructor.
    - rewrite len_cons. lia. }
  destruct res; cbn [bool_decide].
  - rewrite bool_decide_eq_true_2 by done. by apply Hgo.
  - apply send_full in Hsend as ->. apply Hstop.
    + right. exists k, item, sender. split; [|split; [done|]].
      * rewrite Hsplit. set_solver.
      * destruct (send_total sender item h Hitem) as (? & ? & Hs2).
        unfold in_heap in Es. cbn in Es. rewrite Hs2 in Es. by injection Es as -> ->.
    + split; [done|]. rewrite Hsplit. by destruct before.
  - rewrite bool_decide_eq_false_2 by done.
    specialize (Hgo 0 ltac:(lia)). by rewrite N.add_0_r in Hgo.
Qed.
End DeliveryLemmas.

Lemma deliver_through_spec now a h :
  adapter_ok a →
  ∃ n a' h' nr no, deliver_through now (a, h) = (Ok n, (a', h')) ∧ n = nr + no ∧
    adapter_ok a' ∧ evolves a a' ∧
    due_delivered now (pendingReports a) (pendingReports a') nr ∧
    due_delivered now (pendingObservations a) (pendingObservations a') no ∧
    (delivery_rests try_send_report now (pendingReports a') h' ∨
     pendingReports a' = []) ∧
    (pendingReports a' = [] →
     delivery_rests try_send_observation now (pendingObservations a') h') ∧
    (pendingReports a' ≠ [] → pendingObservations a' = pendingObservations a).
Proof.
  intros Hok. unfold deliver_through, deliver_reports, deliver_observations.
  rewrite (stm_bind_eq _ _ (a, h) a (a, h)) by done.
  destruct (deliver_loop_spec report_valid pendingReports set_pendingReports try_send_report
    ltac:(done) ltac:(by intros []) ltac:(done) try_send_report_total
    try_send_report_full (S (length (pendingReports a))) now 0 a h
    (ok_reports a Hok) ltac:(lia)) as (b & nr & l & h1 & E & Hdue & Hokl & Hr & Hb).
  rewrite (stm_bind_eq _ _ _ _ _ E), N.add_0_l.
  assert (len l <= len (pendingReports a)) as Hlen.
  { destruct Hdue as (gone & Hperm & _). apply Permutation_length in Hperm.
    rewrite length_app in Hperm. unfold len. lia. }
  pose proof (ok_pending a Hok) as Hpend. unfold adapter_pending in Hpend.
  assert (adapter_ok (set_pendingReports l a)) as Hok1
    by (apply adapter_ok_reports; [done|done|lia]).
  destruct b; cbn [negb].
  - assert (l = []) as -> by by apply Hb.
    destruct (deliver_loop_spec observation_valid pendingObservations
      set_pendingObservations try_send_observation
      ltac:(done) ltac:(by intros []) ltac:(done) try_send_observation_total
      try_send_observation_full (S (length (pendingObservations (set_pendingReports [] a))))
      now nr (set_pendingReports [] a) h1 (ok_observations _ Hok1) ltac:(lia))
      as (b2 & no & l2 & h2 & E2 & Hdue2 & Hokl2 & Hr2 & Hb2).
    change (pendingObservations (set_pendingReports [] a)) with (pendingObservations a) in E2.
    rewrite (stm_bind_eq _ _ _ _ _ E2).
    assert (len l2 <= len (pendingObservations a)).
    { destruct Hdue2 as (gone & Hperm & _). apply Permutation_length in Hperm.
      rewrite length_app in Hperm. unfold len. cbn in Hperm. lia. }
    do 5 eexists. split; [reflexivity|]. split; [reflexivity|]. split_and!; try done.
    + apply adapter_ok_observations; [done|done|]. cbn. change (len []) with 0. lia.
    + by apply evolves_same_device.
    + by right.
  - assert (l ≠ []) by (intros ->; by destruct Hb as [_ Hb]; discriminate Hb).
    exists nr, (set_pendingReports l a), h1, nr, 0.
    split; [done|]. split; [lia|]. split_and!; try done.
    + by apply evolves_same_device.
    + apply due_delivered_refl.
    + by left.
Qed.

(** ** [observe] and [set_behavior] *)

Lemma observe_spec session tgt v at_ms deliver_ms f a h :
  adapter_ok a →
  match observe session tgt v at_ms deliver_ms f (a, h) with
  | (Ok rev, w) => ∃ a', w = (a', h) ∧ adapter_ok a' ∧ evolves a a' ∧
      state a' tgt = Some v ∧ revision a' tgt = Some rev ∧
      match revision a tgt with Some r => rev = r + 1 | None => rev = 1 end ∧
      adapter_pending a' = adapter_pending a + 1 ∧ at_ms <= deliver_ms
  | (Err _, w) => w = (a, h)
  end.
Proof.
  intros Hok. unfold observe. destruct (valid session) eqn:Hsession; [|done].
  destruct (slen tgt =? 0) eqn:Ht; [done|].
  destruct (N.ltb_spec deliver_ms at_ms) as [|Hle]; [done|].
  do 3 rewrite (stm_bind_eq _ _ _ _ _ (sreject_if_false _ _ _)).
  destruct (validate v) as [[]|e] eqn:Hv; [|done].
  rewrite (stm_bind_eq _ _ (a, h) tt (a, h)) by done.
  rewrite (stm_bind_eq _ _ (a, h) a (a, h)) by done.
  destruct (N.leb_spec (maxPendingReports (adapterLimits a)) (adapter_pending a)) as [|Hp];
    [done|].
  rewrite (stm_bind_eq _ _ _ _ _ (sreject_if_false _ _ _)).
  assert (∀ rev, 1 <= rev <= u64_max →
    match deviceRevisions a !! tgt with Some r => rev = r + 1 | None => rev = 1 end →
    match (modify_adapter (set_device tgt v rev);;
      let observation :=
        MkExternalObservation session (adapter_route a) tgt v rev at_ms in
      slift (validate_external_observation observation);;
      modify_adapter (λ a, set_pendingObservations
        (timeline_emplace deliver_ms (observation, f) (pendingObservations a)) a);;
      mret rev) (a, h) with
    | (Ok rev, w) => ∃ a', w = (a', h) ∧ adapter_ok a' ∧ evolves a a' ∧
      state a' tgt = Some v ∧ revision a' tgt = Some rev ∧
      match revision a tgt with Some r => rev = r + 1 | None => rev = 1 end ∧
      adapter_pending a' = adapter_pending a + 1 ∧ at_ms <= deliver_ms
    | (Err _, w) => w = (a, h)
    end) as Hgo.
  { intros rev Hrev Hold.
    rewrite (stm_bind_eq _ _ _ tt (set_device tgt v rev a, h)) by done. cbn zeta.
    set (o := MkExternalObservation _ _ _ _ _ _).
    assert (observation_valid o) as Ho.
    { unfold observation_valid, validate_external_observation, o. cbn. rewrite Hsession.
      assert (valid rev = true) as -> by (unfold valid; lia). done. }
    rewrite (stm_bind_eq _ _ _ tt (set_device tgt v rev a, h))
      by (unfold slift; by rewrite Ho).
    eexists. split; [reflexivity|].
    assert (adapter_ok (set_device tgt v rev a)) as Hok1 by by apply adapter_ok_device.
    split_and!; try done.
    - apply adapter_ok_observations; [done|apply timeline_ok_emplace;
        [apply ok_observations, Hok1|done]|].
      rewrite len_timeline_emplace. unfold adapter_pending in Hp. cbn. lia.
    - trans (set_device tgt v rev a); [|by apply evolves_same_device].
      apply evolves_device. intros r Hr. rewrite Hr in Hold. lia.
    - apply lookup_insert_eq.
    - apply lookup_insert_eq.
    - unfold adapter_pending. cbn. rewrite len_timeline_emplace. lia. }
  destruct (deviceRevisions a !! tgt) as [r|] eqn:Hr.
  - destruct (N.eqb_spec r u64_max); [done|].
    pose proof (ok_revisions a Hok _ _ Hr) as Hb. cbn in Hb.
    rewrite (stm_bind_eq _ _ (a, h) (r + 1) (a, h)) by done. apply Hgo; [lia|done].
  - rewrite (stm_bind_eq _ _ (a, h) 1 (a, h)) by done. by apply Hgo.
Qed.

Lemma set_behavior_spec b a h :
  adapter_ok a →
  match set_behavior b (a, h) with
  | (Ok _, w) => w = (set_adapterBehavior b a, h) ∧ adapter_ok (set_adapterBehavior b a)
  | (Err _, w) => w = (a, h)
  end.
Proof.
  intros Hok. unfold set_behavior.
  rewrite (stm_bind_eq _ _ (a, h) a (a, h)) by done.
  unfold slift, mbind, stm_bind. destruct (validate_behavior _ b) as [[]|e] eqn:Hb; [|done].
  split; [done|]. destruct Hok. by split.
Qed.

(** ** Runs of an adapter *)

(** The calls a program makes on an adapter, and whatever else happens on the
    feedback channels meanwhile. *)
Inductive adapter_op :=
| OpDispatch (c : EffectCommand) (f : FeedbackSender)
| OpDeliver (now : N)
| OpObserve (session : SessionId) (tgt : string) (v : value) (at_ms deliver_ms : N)
    (f : FeedbackSender)
| OpSetBehavior (b : AdapterBehavior)
| OpChannels (h : heap).

Definition run_op (op : adapter_op) (w : adapter_world) : adapter_world :=
  match op with
  | OpDispatch c f => (simulated_dispatch c f w).2
  | OpDeliver now => (deliver_through now w).2
  | OpObserve s t v at_ms deliver_ms f => (observe s t v at_ms deliver_ms f w).2
  | OpSetBehavior b => (set_behavior b w).2
  | OpChannels h => (w.1, h)
  end.

Definition run_ops (ops : list adapter_op) (w : adapter_world) : adapter_world :=
  foldl (λ w op, run_op op w) w ops.

Lemma run_op_ok op w :
  adapter_ok w.1 → adapter_ok (run_op op w).1 ∧ evolves w.1 (run_op op w).1.
Proof.
  destruct w as [a h]. cbn [fst]. intros Hok.
  destruct op as [c f|now|s t v at_ms deliver_ms f|b|h']; cbn [run_op].
  - pose proof (simulated_dispatch_spec (a, h) c f Hok) as H.
    destruct simulated_dispatch as [[d|e] w']; [|cbn in H; by subst w'].
    by destruct H as (? & ? & _).
  - destruct (deliver_through_spec now a h Hok)
      as (n & a' & h' & nr & no & E & _ & ? & ? & _). by rewrite E.
  - pose proof (observe_spec s t v at_ms deliver_ms f a h Hok) as H.
    destruct observe as [[r|e] w']; [|by subst w'].
    by destruct H as (a' & -> & ? & ? & _).
  - pose proof (set_behavior_spec b a h Hok) as H.
    destruct set_behavior as [[u|e] w']; [|by subst w'].
    destruct H as [-> ?]. split; [done|]. by apply evolves_same_device.
  - done.
Qed.

Lemma run_ops_ok ops w :
  adapter_ok w.1 → adapter_ok (run_ops ops w).1 ∧ evolves w.1 (run_ops ops w).1.
Proof.
  revert w. induction ops as [|op ops IH]; intros w Hok; [done|].
  destruct (run_op_ok op w Hok) as [Hok1 Hev1].
  destruct (IH _ Hok1) as [Hok2 Hev2]. split; [done|]. by etrans.
Qed.

Lemma new_InMemoryAdapter_ok r b caps limits a :
  new_InMemoryAdapter r b caps limits = Ok a → adapter_ok a.
Proof.
  unfold new_InMemoryAdapter. rewrite guard_ok, unit_bind_ok. intros (_ & Hb & [= <-]).
  split; cbn.
  - by repeat constructor.
  - by repeat constructor.
  - change (0 <= maxPendingReports limits). lia.
  - done.
  - rewrite map_size_empty. lia.
  - apply map_Forall_empty.
  - done.
  - apply map_Forall_empty.
  - apply map_Forall_empty.
Qed.

(** The simulated adapter is an adapter the dispatcher can rely on. *)
#[export] Instance InMemoryAdapter_laws : EffectAdapterLaws InMemoryAdapter adapter_ok.
Proof.
  split.
  - intros a h c f r w Hok E.
    destruct (run_op_ok (OpDispatch c f) (a, h) Hok) as [Hok' Hev]. cbn in *.
    rewrite E in Hok', Hev. split; [done|]. apply (evolves_route _ _ Hev).
  - intros a h c f d w Hok E. cbn in E.
    pose proof (simulated_dispatch_spec (a, h) c f Hok) as H. rewrite E in H. apply H.
Qed.

(** * Properties *)

(** A remembered command is executed at most once: after a native-idempotent
    adapter has dispatched a command of its route (its outcome cache having
    room or knowing the command), every later dispatch of that command, after
    any calls and any traffic on the channels, returns the same result and
    changes nothing, neither the device nor a channel. *)
Theorem native_idempotency (w w1 : adapter_world) (c : EffectCommand) (f f' : FeedbackSender)
    (d : DispatchResult) (ops : list adapter_op) :
  adapter_ok w.1 → nativeIdempotency (adapter_capabilities w.1) = true →
  adapterRoute (effect c) = adapter_route w.1 →
  N.of_nat (size (cachedOutcomes w.1)) < maxCachedOutcomes (adapterLimits w.1) ∨
    cachedOutcomes w.1 !! command_key c ≠ None →
  simulated_dispatch c f w = (Ok d, w1) →
  simulated_dispatch c f' (run_ops ops w1) = (Ok d, run_ops ops w1).
Proof.
  intros Hok Hn Hr Hroom E. pose proof (simulated_dispatch_spec w c f Hok) as H.
  rewrite E in H. destruct H as (Hok1 & Hev & Hd & Hcache).
  specialize (Hcache Hn Hr Hroom).
  destruct (run_ops_ok ops w1 Hok1) as [Hok2 Hev2].
  assert (Hev3 : evolves w.1 (run_ops ops w1).1) by by etrans.
  destruct (run_ops ops w1) as [a2 h2]. cbn [fst] in *.
  pose proof (lookup_weaken _ _ _ _ Hcache (evolves_cache _ _ Hev2)) as Hc2.
  unfold simulated_dispatch.
  assert (validate_effect_command c = Ok tt) as Hc.
  { unfold validate_dispatch_result_for_command in Hd.
    by apply unit_bind_ok in Hd as [? _]. }
  rewrite (stm_bind_eq _ _ (a2, h2) tt (a2, h2)) by (unfold slift; by rewrite Hc).
  rewrite (stm_bind_eq _ _ (a2, h2) a2 (a2, h2)) by done.
  rewrite bool_decide_eq_true_2 by (rewrite Hr; symmetry; apply (evolves_route _ _ Hev3)).
  cbn [negb]. rewrite (evolves_capabilities _ _ Hev3), Hn, Hc2.
  cbn [cached_command cached_result]. by rewrite bool_decide_eq_true_2.
Qed.

Definition sample_adapter : InMemoryAdapter :=
  MkInMemoryAdapter "device" (MkAdapterCapabilities true true true)
    default_AdapterBehavior default_AdapterLimits [] [] ∅ ∅ ∅.
Definition sample_command : EffectCommand :=
  MkEffectCommand 1 7 (MkResolvedEffect "device" "lamp" (VBoolean true)) 100.
Definition sample_ops : list adapter_op :=
  [OpObserve 1 "lamp" (VBoolean false) 200 200 (Some 0);
   OpDispatch (MkEffectCommand 1 8 (MkResolvedEffect "device" "lamp" (VBoolean true)) 300)
     (Some 0);
   OpDeliver 400].

Lemma sample_adapter_ok : adapter_ok sample_adapter.
Proof.
  apply (new_InMemoryAdapter_ok "device" default_AdapterBehavior
    (MkAdapterCapabilities true true true) default_AdapterLimits). done.
Qed.

Lemma native_idempotency_witness :
  let w1 := (simulated_dispatch sample_command (Some 0) (sample_adapter, sample_heap)).2 in
  simulated_dispatch sample_command None (run_ops sample_ops w1) =
  (Ok (MkDispatchResult DispatchAccepted
     (Some (Report 1 7 "device" "lamp" Applied (Some (VBoolean true)) "" 100 1)) ""),
   run_ops sample_ops w1).
Proof.
  apply (native_idempotency (sample_adapter, sample_heap)
    ((simulated_dispatch sample_command (Some 0) (sample_adapter, sample_heap)).2)
    sample_command (Some 0) None).
  - apply sample_adapter_ok.
  - done.
  - done.
  - left. by vm_compute.
  - by vm_compute.
Defined.

(** Every run keeps the adapter's invariant: the pending queues stay sorted
    by time, hold only valid items and never exceed [maxPendingReports]
    together; remembered outcomes never exceed [maxCachedOutcomes], are never
    forgotten, and always belong to their command; the state of every target
    stays valid and its revision never falls. *)
Theorem simulated_adapter_invariant (r : string) (b : AdapterBehavior)
    (caps : AdapterCapabilities) (limits : AdapterLimits) (a : InMemoryAdapter) (h : heap)
    (ops1 ops2 : list adapter_op) :
  new_InMemoryAdapter r b caps limits = Ok a →
  let w1 := run_ops ops1 (a, h) in
  let w2 := run_ops ops2 w1 in
  adapter_ok w1.1 ∧ adapter_ok w2.1 ∧ evolves w1.1 w2.1 ∧
  adapter_pending w2.1 <= maxPendingReports limits ∧
  N.of_nat (size (cachedOutcomes w2.1)) <= maxCachedOutcomes limits.
Proof.
  intros E. pose proof (new_InMemoryAdapter_ok _ _ _ _ _ E) as Hok. cbn zeta.
  destruct (run_ops_ok ops1 (a, h) Hok) as [Hok1 Hev1].
  destruct (run_ops_ok ops2 _ Hok1) as [Hok2 Hev2].
  assert (adapterLimits (run_ops ops2 (run_ops ops1 (a, h))).1 = limits) as Hlim.
  { rewrite (evolves_limits _ _ Hev2), (evolves_limits _ _ Hev1).
    unfold new_InMemoryAdapter in E. rewrite guard_ok, unit_bind_ok in E.
    by destruct E as (_ & _ & [= <-]). }
  split_and!; try done.
  - rewrite <-Hlim. apply ok_pending, Hok2.
  - rewrite <-Hlim. apply ok_cache_size, Hok2.
Qed.

Lemma simulated_adapter_invariant_witness :
  let w1 := run_ops sample_ops (sample_adapter, sample_heap) in
  let w2 := run_ops sample_ops w1 in
  adapter_ok w1.1 ∧ adapter_ok w2.1 ∧ evolves w1.1 w2.1 ∧
  adapter_pending w2.1 <= 4096 ∧ N.of_nat (size (cachedOutcomes w2.1)) <= 4096.
Proof.
  apply (simulated_adapter_invariant "device" default_AdapterBehavior
    (MkAdapterCapabilities true true true) default_AdapterLimits). done.
Defined.

(** Delivery always returns.  It only takes items that are due, keeps the
    others in order, and counts no more than it took.  It stops before the
    reports are through only when none of the rest is due or the channel of a
    due one is full, and reaches the observations only when every report is
    gone. *)
Theorem deliver_through_delivers_due (now : N) (a : InMemoryAdapter) (h : heap) :
  adapter_ok a →
  ∃ n a' h' nr no, deliver_through now (a, h) = (Ok n, (a', h')) ∧ n = nr + no ∧
    due_delivered now (pendingReports a) (pendingReports a') nr ∧
    due_delivered now (pendingObservations a) (pendingObservations a') no ∧
    (delivery_rests try_send_report now (pendingReports a') h' ∨
     pendingReports a' = []) ∧
    (pendingReports a' = [] →
     delivery_rests try_send_observation now (pendingObservations a') h') ∧
    (pendingReports a' ≠ [] → pendingObservations a' = pendingObservations a).
Proof.
  intros Hok. destruct (deliver_through_spec now a h Hok)
    as (n & a' & h' & nr & no & E & Hn & _ & _ & H).
  by exists n, a', h', nr, no.
Qed.

Definition busy_adapter : InMemoryAdapter :=
  (run_ops (OpSetBehavior (MkAdapterBehavior 50 Applied 1 false false false None) ::
            sample_ops ++ [OpDispatch sample_command (Some 0)])
     (sample_adapter, sample_heap)).1.

Lemma deliver_through_delivers_due_witness :
  ∃ n a' h' nr no, deliver_through 320 (busy_adapter, sample_heap) = (Ok n, (a', h')) ∧
    n = nr + no ∧
    due_delivered 320 (pendingReports busy_adapter) (pendingReports a') nr ∧
    due_delivered 320 (pendingObservations busy_adapter) (pendingObservations a') no ∧
    (delivery_rests try_send_report 320 (pendingReports a') h' ∨
     pendingReports a' = []) ∧
    (pendingReports a' = [] →
     delivery_rests try_send_observation 320 (pendingObservations a') h') ∧
    (pendingReports a' ≠ [] → pendingObservations a' = pendingObservations busy_adapter).
Proof.
  apply (deliver_through_delivers_due 320 busy_adapter sample_heap).
  unfold busy_adapter. apply run_ops_ok, sample_adapter_ok.
Defined.

(** A report that is not due yet holds back every observation: whatever is
    due among the observations, [deliver_through] leaves all of them pending,
    although their channels may have room. *)
Theorem late_report_blocks_observations (now k : N) (r : EffectReport * FeedbackSender)
    (a : InMemoryAdapter) (h : heap) :
  adapter_ok a → (k, r) ∈ pendingReports a → now < k →
  ∃ n a' h', deliver_through now (a, h) = (Ok n, (a', h')) ∧
    pendingObservations a' = pendingObservations a.
Proof.
  intros Hok Hin Hk. destruct (deliver_through_spec now a h Hok)
    as (n & a' & h' & nr & no & E & _ & _ & _ & Hdue & _ & _ & _ & Hobs).
  exists n, a', h'. split; [done|]. apply Hobs. intros Hnil.
  destruct Hdue as (gone & Hperm & Hgone & _). rewrite Hnil, app_nil_r in Hperm.
  rewrite Hperm in Hin. rewrite Forall_forall in Hgone. apply Hgone in Hin.
  cbn in Hin. lia.
Qed.

Definition blocked_world : adapter_world :=
  run_ops [OpSetBehavior (MkAdapterBehavior 900 Applied 0 false false false None);
           OpDispatch sample_command (Some 0);
           OpObserve 1 "lamp" (VBoolean false) 200 200 (Some 0)] (sample_adapter, sample_heap).

Lemma late_report_blocks_observations_witness :
  ∃ n a' h', deliver_through 500 (blocked_world.1, blocked_world.2) = (Ok n, (a', h')) ∧
    pendingObservations a' = pendingObservations blocked_world.1.
Proof.
  apply (late_report_blocks_observations 500 1000
    (Report 1 7 "device" "lamp" Applied (Some (VBoolean true)) "" 1000 1, Some 0)).
  - apply run_ops_ok, sample_adapter_ok.
  - vm_compute. left.
  - by vm_compute.
Defined.
