(* ===== verification/Dispatcher.v ===== *)
(** * The idempotent dispatcher
    (include/liquid/effects/IdempotentDispatcher.hpp,
     src/effects/IdempotentDispatcher.cpp)

    Any number of threads dispatch commands at once.  One mutex guards the
    dispatcher's tables; it is held over one turn of the entry loop, over
    [remember] and over [finish_failure], and released while a leader consults
    the persistent cache and calls the adapter.  The model has one step per
    such stretch, so an execution of the program is an interleaving of steps;
    a condition variable's [wait] is a step that is enabled when its predicate
    holds.  The adapter and the persistent cache are classes of the model; each
    call of theirs is one step, at the point where it takes effect. *)
From stdpp Require Import functions.
From S2P Require Import Prelude OrderedMap Values Effects Feedback Adapters.

(** ** Data *)

Record CachedDispatchOutcome := MkCachedDispatchOutcome {
  outcome_command : EffectCommand;
  outcome_result : DispatchResult
}.

#[export] Instance CachedDispatchOutcome_eq_dec : EqDecision CachedDispatchOutcome.
Proof. solve_decision. Defined.

(** [class PersistentOutcomeCache] *)
Class PersistentOutcomeCache (P : Type) := {
  cache_find : SessionId → CommandId → stm P (option CachedDispatchOutcome);
  cache_store : CachedDispatchOutcome → stm P unit
}.

Definition DispatchKey : Type := N * N.
Definition key_for (c : EffectCommand) : DispatchKey := (command_session c, command_id c).

Record InFlightEntry := MkInFlightEntry {
  completed : bool;
  entry_outcome : option CachedDispatchOutcome;
  failure : option exn
}.

Record UncertainOutcome := MkUncertainOutcome {
  uncertain_command : EffectCommand;
  uncertain_failure : exn
}.

(** The members of [IdempotentDispatcher::Impl].  A [MemoryEntry]'s iterator is
    the position of its key in [recency].  In-flight entries are shared, so
    they live in [entries] and are referred to by address; addresses are not
    used again. *)
Record Impl := MkImpl {
  maximumMemoryOutcomes : N;
  maximumConcurrentDispatches : N;
  recency : list DispatchKey;
  memory : gmap DispatchKey CachedDispatchOutcome;
  inFlight : gmap DispatchKey N;
  entries : gmap N InFlightEntry;
  uncertain : gmap DispatchKey UncertainOutcome;
  waitingDuplicates : N
}.

Definition set_memory r m (d : Impl) : Impl :=
  MkImpl (maximumMemoryOutcomes d) (maximumConcurrentDispatches d) r m (inFlight d)
    (entries d) (uncertain d) (waitingDuplicates d).
Definition set_flight f e (d : Impl) : Impl :=
  MkImpl (maximumMemoryOutcomes d) (maximumConcurrentDispatches d) (recency d) (memory d)
    f e (uncertain d) (waitingDuplicates d).
Definition set_uncertain u (d : Impl) : Impl :=
  MkImpl (maximumMemoryOutcomes d) (maximumConcurrentDispatches d) (recency d) (memory d)
    (inFlight d) (entries d) u (waitingDuplicates d).
Definition set_waiting n (d : Impl) : Impl :=
  MkImpl (maximumMemoryOutcomes d) (maximumConcurrentDispatches d) (recency d) (memory d)
    (inFlight d) (entries d) (uncertain d) n.

(** ** The critical sections *)

(** [recency.splice(recency.begin(), recency, position of key)] *)
Definition splice_front (key : DispatchKey) (r : list DispatchKey) : list DispatchKey :=
  key :: filter (λ k, k ≠ key) r.

Definition find_memory_locked (key : DispatchKey) (d : Impl)
  : option CachedDispatchOutcome * Impl :=
  match memory d !! key with
  | None => (None, d)
  | Some found => (Some found, set_memory (splice_front key (recency d)) (memory d) d)
  end.

Definition require_same_command (cached : CachedDispatchOutcome) (c : EffectCommand)
  : res unit :=
  reject_if (negb (bool_decide (outcome_command cached = c))) invalid_argument
    "an idempotency key was reused for a different effect command";;
  validate_dispatch_result_for_command (outcome_result cached) c.

Definition same_command_result (cached : CachedDispatchOutcome) (c : EffectCommand)
  : res DispatchResult :=
  require_same_command cached c;; Ok (outcome_result cached).

(** [while (memory.size() > maximumMemoryOutcomes)]; every turn erases an entry,
    so the number of entries is fuel enough. *)
Fixpoint evict (fuel : nat) (limit : N) (r : list DispatchKey)
    (m : gmap DispatchKey CachedDispatchOutcome)
  : list DispatchKey * gmap DispatchKey CachedDispatchOutcome :=
  match fuel with
  | O => (r, m)
  | S fuel =>
      if N.of_nat (size m) <=? limit then (r, m)
      else match last r with
           | Some expired => evict fuel limit (removelast r) (delete expired m)
           | None => (r, m)
           end
  end.

(** [remember]; nothing in it throws short of memory exhaustion, which the
    model leaves out. *)
Definition remember (key : DispatchKey) (entry : N) (o : CachedDispatchOutcome)
    (d : Impl) : Impl :=
  let r := match memory d !! key with
           | Some _ => splice_front key (recency d)
           | None => key :: recency d
           end in
  let m := <[key := o]> (memory d) in
  let '(r, m) := evict (size m) (maximumMemoryOutcomes d) r m in
  set_flight (delete key (inFlight d))
    (<[entry := MkInFlightEntry true (Some o) None]> (entries d)) (set_memory r m d).

(** [finish_failure]; [victim] is the entry [uncertain.begin()] refers to, which
    the order of the hash table decides. *)
Definition finish_failure (victim key : DispatchKey) (entry : N) (c : EffectCommand)
    (error : exn) (d : Impl) : Impl :=
  let u := if negb (bool_decide (is_Some (uncertain d !! key))) &&
              (maximumMemoryOutcomes d <=? N.of_nat (size (uncertain d)))
           then delete victim (uncertain d) else uncertain d in
  set_flight (delete key (inFlight d))
    (<[entry := MkInFlightEntry true None (Some error)]> (entries d))
    (set_uncertain (<[key := MkUncertainOutcome c error]> u) d).

(** The constructors of [Impl] and of [IdempotentDispatcher]. *)
Definition new_Impl (maxMemory maxConcurrent : N) : Impl :=
  MkImpl maxMemory maxConcurrent [] ∅ ∅ ∅ ∅ 0.
Definition new_IdempotentDispatcher (maxMemory maxConcurrent : N) : res Impl :=
  reject_if (maxMemory =? 0) invalid_argument
    "idempotent dispatcher capacity must be positive";;
  Ok (new_Impl maxMemory (if maxConcurrent =? 0 then maxMemory else maxConcurrent)).

Definition cached_outcomes (d : Impl) : N := N.of_nat (size (memory d)).
Definition clear_memory (d : Impl) : Impl := set_uncertain ∅ (set_memory [] ∅ d).
Definition waiting_duplicate_dispatches (d : Impl) : N := waitingDuplicates d.

(** ** Threads *)

(** Where a call of [dispatch] is. *)
Inductive dispatch_pc :=
| AtStart                                          (* before the argument checks *)
| AtLoop                                           (* about to take the mutex *)
| AtWaitDuplicate (entry : N)                      (* waiting for an in-flight twin *)
| AtWaitRoom                                       (* waiting for the concurrency limit *)
| AtFind (entry : N)                               (* leader: persistentCache->find *)
| AtDispatch (entry : N)                           (* leader: adapter.dispatch *)
| AtStore (entry : N) (o : CachedDispatchOutcome)  (* leader: persistentCache->store *)
| AtRemember (entry : N) (o : CachedDispatchOutcome)
| AtFail (entry : N) (error : exn)                 (* leader: the catch block *)
| Done (r : res DispatchResult).

Record thread := MkThread {
  thread_adapter : N;
  thread_command : EffectCommand;
  thread_feedback : FeedbackSender;
  thread_pc : dispatch_pc
}.

Definition thread_key (t : thread) : DispatchKey := key_for (thread_command t).
Definition at_pc (pc : dispatch_pc) (t : thread) : thread :=
  MkThread (thread_adapter t) (thread_command t) (thread_feedback t) pc.

(** One turn of the [while (true)] loop, under the mutex. *)
Definition enter (c : EffectCommand) (d : Impl) : dispatch_pc * Impl :=
  let key := key_for c in
  let '(cached, d) := find_memory_locked key d in
  match cached with
  | Some cached => (Done (same_command_result cached c), d)
  | None =>
  match uncertain d !! key with
  | Some failed =>
      if negb (bool_decide (uncertain_command failed = c))
      then (Done (throw invalid_argument
        "an uncertain idempotency key was reused for a different command"), d)
      else (Done (Err (uncertain_failure failed)), d)
  | None =>
  match inFlight d !! key with
  | Some duplicateEntry =>
      (AtWaitDuplicate duplicateEntry, set_waiting (waitingDuplicates d + 1) d)
  | None =>
      if maximumConcurrentDispatches d <=? N.of_nat (size (inFlight d))
      then (AtWaitRoom, d)
      else
        let entry := fresh (dom (entries d)) in
        (AtFind entry,
         set_flight (<[key := entry]> (inFlight d))
           (<[entry := MkInFlightEntry false None None]> (entries d)) d)
  end end end.

(** Waking up from the wait for a duplicate; blocked while it has not completed. *)
Definition wake_duplicate (entry : N) (c : EffectCommand) (d : Impl)
  : option (dispatch_pc * Impl) :=
  match entries d !! entry with
  | None => None
  | Some e =>
      if negb (completed e) then None
      else
        let d := set_waiting (waitingDuplicates d - 1) d in
        Some (match failure e, entry_outcome e with
              | Some error, _ => (Done (Err error), d)
              | None, Some o => (Done (same_command_result o c), d)
              | None, None => (AtLoop, d)
              end)
  end.

Definition room_predicate (key : DispatchKey) (d : Impl) : bool :=
  (N.of_nat (size (inFlight d)) <? maximumConcurrentDispatches d) ||
  bool_decide (is_Some (inFlight d !! key)) ||
  bool_decide (is_Some (memory d !! key)) ||
  bool_decide (is_Some (uncertain d !! key)).

Section World.
Context {A P : Type} `{EffectAdapter A} `{PersistentOutcomeCache P}.

(** Everything the threads share; [calls] records the calls of
    [adapter.dispatch]. *)
Record world := MkWorld {
  disp : Impl;
  adapters : N → A;
  channels : heap;
  persistent : option P;
  threads : gmap N thread;
  calls : list EffectCommand
}.

Definition set_disp d (w : world) : world :=
  MkWorld d (adapters w) (channels w) (persistent w) (threads w) (calls w).
Definition set_persistent p (w : world) : world :=
  MkWorld (disp w) (adapters w) (channels w) (Some p) (threads w) (calls w).
Definition set_thread i t (w : world) : world :=
  MkWorld (disp w) (adapters w) (channels w) (persistent w) (<[i := t]> (threads w))
    (calls w).
Definition set_channels h (w : world) : world :=
  MkWorld (disp w) (adapters w) h (persistent w) (threads w) (calls w).

(** [adapter.dispatch(command, feedback)] *)
Definition call_adapter (n : N) (c : EffectCommand) (f : FeedbackSender) (w : world)
  : res DispatchResult * world :=
  let '(r, (a, h)) := dispatch c f (adapters w n, channels w) in
  (r, MkWorld (disp w) (<[n := a]> (adapters w)) h (persistent w) (threads w)
        (calls w ++ [c])).

(** Up to the first lock: the checks of the arguments. *)
Definition check_arguments (n : N) (c : EffectCommand) (w : world) : res unit :=
  validate_effect_command c;;
  reject_if (negb (bool_decide (route (adapters w n) = adapterRoute (effect c))))
    invalid_argument "effect command does not match adapter route".

(** The leader's lookup in the persistent cache. *)
Definition find_persistent (entry : N) (c : EffectCommand) (w : world)
  : dispatch_pc * world :=
  match persistent w with
  | None => (AtDispatch entry, w)
  | Some p =>
      let '(found, p) := cache_find (command_session c) (command_id c) p in
      let w := set_persistent p w in
      match found with
      | Err error => (AtFail entry error, w)
      | Ok None => (AtDispatch entry, w)
      | Ok (Some o) =>
          match require_same_command o c with
          | Ok _ => (AtRemember entry o, w)
          | Err error => (AtFail entry error, w)
          end
      end
  end.

Definition dispatch_to_adapter (entry : N) (t : thread) (w : world)
  : dispatch_pc * world :=
  let '(r, w) := call_adapter (thread_adapter t) (thread_command t)
                   (thread_feedback t) w in
  match r with
  | Err error => (AtFail entry error, w)
  | Ok result =>
      match validate_dispatch_result_for_command result (thread_command t) with
      | Err error => (AtFail entry error, w)
      | Ok _ => (AtStore entry (MkCachedDispatchOutcome (thread_command t) result), w)
      end
  end.

Definition store_persistent (entry : N) (o : CachedDispatchOutcome) (w : world)
  : dispatch_pc * world :=
  match persistent w with
  | None => (AtRemember entry o, w)
  | Some p =>
      let '(r, p) := cache_store o p in
      (match r with Ok _ => AtRemember entry o | Err error => AtFail entry error end,
       set_persistent p w)
  end.

(** The next step of a thread; [None] when it is blocked or done. *)
Definition thread_step (victim : DispatchKey) (t : thread) (w : world)
  : option (dispatch_pc * world) :=
  let c := thread_command t in
  match thread_pc t with
  | AtStart =>
      Some (match check_arguments (thread_adapter t) c w with
            | Ok _ => AtLoop | Err error => Done (Err error) end, w)
  | AtLoop => let '(pc, d) := enter c (disp w) in Some (pc, set_disp d w)
  | AtWaitDuplicate entry =>
      match wake_duplicate entry c (disp w) with
      | Some (pc, d) => Some (pc, set_disp d w)
      | None => None
      end
  | AtWaitRoom => if room_predicate (key_for c) (disp w) then Some (AtLoop, w) else None
  | AtFind entry => Some (find_persistent entry c w)
  | AtDispatch entry => Some (dispatch_to_adapter entry t w)
  | AtStore entry o => Some (store_persistent entry o w)
  | AtRemember entry o =>
      Some (Done (Ok (outcome_result o)),
            set_disp (remember (key_for c) entry o (disp w)) w)
  | AtFail entry error =>
      Some (Done (Err error),
            set_disp (finish_failure victim (key_for c) entry c error (disp w)) w)
  | Done _ => None
  end.

Inductive step_label := LThread (i : N) | LCall (i : N) | LClear | LChannels.

(** The steps of the system: a thread takes its next step, a new call of
    [dispatch] begins, somebody clears the memory, or the channels change. *)
Inductive world_step : step_label → world → world → Prop :=
| step_thread i victim t pc w w' :
    threads w !! i = Some t →
    uncertain (disp w) = ∅ ∨ is_Some (uncertain (disp w) !! victim) →
    thread_step victim t w = Some (pc, w') →
    world_step (LThread i) w (set_thread i (at_pc pc t) w')
| step_call i n c f w :
    threads w !! i = None →
    world_step (LCall i) w (set_thread i (MkThread n c f AtStart) w)
| step_clear w : world_step LClear w (set_disp (clear_memory (disp w)) w)
| step_channels h w : world_step LChannels w (set_channels h w).

Inductive world_steps : list step_label → world → world → Prop :=
| steps_nil w : world_steps [] w w
| steps_cons l ls w1 w2 w3 :
    world_step l w1 w2 → world_steps ls w2 w3 → world_steps (l :: ls) w1 w3.

(** The program at its start: a new dispatcher and no calls. *)
Definition starts (maxMemory maxConcurrent : N) (w : world) : Prop :=
  new_IdempotentDispatcher maxMemory maxConcurrent = Ok (disp w) ∧
  threads w = ∅ ∧ calls w = [].
End World.

(** * Lemmas *)

(** ** The least-recently-used table *)

(** [recency] lists the keys of [memory], each once. *)
Definition lru_ok (r : list DispatchKey) (m : gmap DispatchKey CachedDispatchOutcome)
  : Prop := NoDup r ∧ ∀ k, k ∈ r ↔ is_Some (m !! k).

Lemma lru_size r m : lru_ok r m → size m = length r.
Proof.
  intros [Hnd Hin]. rewrite <-(size_dom m), <-(size_list_to_set (C := gset DispatchKey) r)
    by done. f_equal. apply set_eq. intros k.
  by rewrite elem_of_dom, elem_of_list_to_set, Hin.
Qed.

Lemma lru_ok_splice key r m :
  lru_ok r m → is_Some (m !! key) → lru_ok (splice_front key r) m.
Proof.
  intros [Hnd Hin] Hkey. unfold splice_front. split.
  - constructor; [rewrite list_elem_of_filter; naive_solver|]. by apply NoDup_filter.
  - intros k. rewrite elem_of_cons, list_elem_of_filter, Hin.
    destruct (decide (k = key)) as [->|]; naive_solver.
Qed.

Lemma lru_ok_insert key o r m :
  lru_ok r m →
  lru_ok (match m !! key with Some _ => splice_front key r | None => key :: r end)
    (<[key := o]> m).
Proof.
  intros Hok. destruct (m !! key) as [o'|] eqn:E.
  - destruct (lru_ok_splice key r m Hok) as [Hnd Hin]; [by eexists|]. split; [done|].
    intros k. rewrite Hin. destruct (decide (k = key)) as [->|Hne].
    + rewrite lookup_insert_eq, E. naive_solver.
    + by rewrite lookup_insert_ne by done.
  - destruct Hok as [Hnd Hin]. split.
    + constructor; [|done]. rewrite Hin, E. by intros [? ?].
    + intros k. rewrite elem_of_cons, Hin. destruct (decide (k = key)) as [->|Hne].
      * rewrite lookup_insert_eq. naive_solver.
      * rewrite lookup_insert_ne by done. naive_solver.
Qed.

Lemma lru_ok_delete_last r expired m :
  lru_ok (r ++ [expired]) m → lru_ok r (delete expired m).
Proof.
  intros [Hnd Hin]. apply NoDup_app in Hnd as (Hnd & Hnot & _). split; [done|].
  intros k. specialize (Hin k). rewrite elem_of_app, list_elem_of_singleton in Hin.
  destruct (decide (k = expired)) as [->|Hne].
  - rewrite lookup_delete_eq. split; [|by intros [? ?]].
    intros Hk. destruct (Hnot _ Hk). set_solver.
  - rewrite lookup_delete_ne by done. naive_solver.
Qed.

(** The loop keeps the [limit] most recently used entries. *)
Lemma evict_spec fuel limit r m :
  lru_ok r m → (size m <= fuel)%nat →
  ∃ m', evict fuel limit r m = (take (N.to_nat limit) r, m') ∧
    lru_ok (take (N.to_nat limit) r) m' ∧ m' ⊆ m ∧
    (N.of_nat (size m) <= limit → m' = m).
Proof.
  revert r m. induction fuel as [|fuel IH]; intros r m Hok Hfuel; cbn [evict];
    pose proof (lru_size _ _ Hok) as Hsize.
  { exists m. assert (r = []) as -> by (apply length_zero_iff_nil; lia).
    rewrite take_nil. done. }
  destruct (N.leb_spec (N.of_nat (size m)) limit) as [Hle|Hgt].
  { exists m. rewrite take_ge by lia. done. }
  destruct (last r) as [expired|] eqn:El.
  2:{ apply last_None in El as ->. cbn in Hsize. lia. }
  apply removelast_last_split in El. rewrite El in Hok.
  assert (length r = S (length (removelast r))) as Hlen
    by (rewrite El at 1; rewrite length_app; cbn; lia).
  apply lru_ok_delete_last in Hok. pose proof (lru_size _ _ Hok) as Hsize'.
  destruct (IH _ _ Hok) as (m' & E & Hok' & Hsub & _); [lia|].
  assert (take (N.to_nat limit) r = take (N.to_nat limit) (removelast r)) as ->.
  { rewrite El at 1. apply take_app_le. lia. }
  exists m'. split_and!; [done|done| |lia].
  etrans; [exact Hsub|]. apply delete_subseteq.
Qed.

(** ** The dispatcher's invariant *)

Definition outcome_ok (o : CachedDispatchOutcome) : Prop :=
  validate_dispatch_result_for_command (outcome_result o) (outcome_command o) = Ok tt.

Definition running : InFlightEntry := MkInFlightEntry false None None.

Record disp_ok (d : Impl) : Prop := {
  ok_lru : lru_ok (recency d) (memory d);
  ok_memory_size : N.of_nat (size (memory d)) <= maximumMemoryOutcomes d;
  ok_uncertain_size : N.of_nat (size (uncertain d)) <= maximumMemoryOutcomes d;
  ok_flight_size : N.of_nat (size (inFlight d)) <= maximumConcurrentDispatches d;
  ok_positive : 0 < maximumMemoryOutcomes d ∧ 0 < maximumConcurrentDispatches d;
  ok_outcomes : map_Forall (λ k o, key_for (outcome_command o) = k ∧ outcome_ok o)
    (memory d);
  ok_addresses k1 k2 entry : inFlight d !! k1 = Some entry →
    inFlight d !! k2 = Some entry → k1 = k2;
  ok_running k entry : inFlight d !! k = Some entry →
    entries d !! entry = Some running ∧ memory d !! k = None ∧ uncertain d !! k = None;
  ok_completed entry e : entries d !! entry = Some e → completed e = true →
    is_Some (failure e) ∨ is_Some (entry_outcome e)
}.

Lemma require_same_command_ok o c u :
  require_same_command o c = Ok u → outcome_command o = c ∧ outcome_ok o.
Proof.
  unfold require_same_command. rewrite guard_ok, negb_false_iff, bool_decide_eq_true.
  destruct u. intros [<- Hv]. by split.
Qed.

Lemma same_command_result_ok o c r :
  same_command_result o c = Ok r → outcome_command o = c ∧ outcome_result o = r.
Proof.
  unfold same_command_result. rewrite unit_bind_ok.
  intros [[? _]%require_same_command_ok [= <-]]. done.
Qed.

Lemma new_disp_ok maxMemory maxConcurrent d :
  new_IdempotentDispatcher maxMemory maxConcurrent = Ok d →
  disp_ok d ∧ maximumMemoryOutcomes d = maxMemory ∧ inFlight d = ∅ ∧ memory d = ∅ ∧
  uncertain d = ∅.
Proof.
  unfold new_IdempotentDispatcher. rewrite guard_ok, N.eqb_neq. intros [Hpos [= <-]].
  split; [|done]. split; cbn.
  - split; [constructor|]. intros k. rewrite lookup_empty.
    split; [by intros ?%elem_of_nil|by intros [? ?]].
  - rewrite map_size_empty. lia.
  - rewrite map_size_empty. lia.
  - rewrite map_size_empty. lia.
  - destruct (N.eqb_spec maxConcurrent 0); lia.
  - apply map_Forall_empty.
  - intros ? ? ?. by rewrite lookup_empty.
  - intros ? ?. by rewrite lookup_empty.
  - intros ? ?. by rewrite lookup_empty.
Qed.

(** Moving a key to the front of [recency] does not matter to anything else. *)
Lemma find_memory_locked_ok key d :
  disp_ok d →
  ∃ r, find_memory_locked key d = (memory d !! key, set_memory r (memory d) d) ∧
       disp_ok (set_memory r (memory d) d).
Proof.
  intros Hok. unfold find_memory_locked. destruct (memory d !! key) eqn:E.
  - eexists. split; [reflexivity|]. destruct Hok. split; try done.
    cbn. apply lru_ok_splice; [done|by eexists].
  - exists (recency d). by destruct d.
Qed.

Lemma disp_ok_waiting n d : disp_ok d → disp_ok (set_waiting n d).
Proof. intros []. by split. Qed.

Lemma disp_ok_begin key d :
  disp_ok d → memory d !! key = None → uncertain d !! key = None →
  inFlight d !! key = None →
  N.of_nat (size (inFlight d)) < maximumConcurrentDispatches d →
  let entry := fresh (dom (entries d)) in
  entries d !! entry = None ∧
  disp_ok (set_flight (<[key := entry]> (inFlight d))
             (<[entry := running]> (entries d)) d).
Proof.
  intros Hok Hm Hu Hf Hsize entry.
  assert (entries d !! entry = None) as Hfresh by apply not_elem_of_dom, is_fresh.
  split; [done|].
  assert (∀ k, inFlight d !! k ≠ Some entry) as Hnot.
  { intros k Hk. apply (ok_running d Hok) in Hk as [Hk _]. congruence. }
  destruct Hok as [? ? ? ? ? ? Ha Hr Hc]. split; try done; cbn.
  - rewrite map_size_insert_None by done. lia.
  - intros k1 k2 e. rewrite !lookup_insert_Some.
    intros [[<- <-]|[? H1]] [[<- H2]|[? H2]]; try naive_solver.
  - intros k e. rewrite lookup_insert_Some. intros [[<- <-]|[Hne Hk]].
    + by rewrite lookup_insert_eq.
    + rewrite lookup_insert_ne by (intros <-; by eapply Hnot). by apply Hr.
  - intros e x. rewrite lookup_insert_Some. intros [[<- <-]|[? ?]]; [done|by eauto].
Qed.

(** Completing the in-flight entry of a key. *)
Lemma disp_ok_end key entry e r m u d :
  disp_ok d → inFlight d !! key = Some entry →
  lru_ok r m → N.of_nat (size m) <= maximumMemoryOutcomes d →
  N.of_nat (size u) <= maximumMemoryOutcomes d →
  map_Forall (λ k o, key_for (outcome_command o) = k ∧ outcome_ok o) m →
  (∀ k, k ≠ key → memory d !! k = None → m !! k = None) →
  (∀ k, k ≠ key → uncertain d !! k = None → u !! k = None) →
  (is_Some (failure e) ∨ is_Some (entry_outcome e)) →
  disp_ok (set_flight (delete key (inFlight d)) (<[entry := e]> (entries d))
             (set_uncertain u (set_memory r m d))).
Proof.
  intros Hok Hkey Hlru Hm Hu Hout Hmk Huk He. pose proof Hok as [? ? ? Hfs ? ? Ha Hr Hc].
  split; try done; cbn.
  - assert (size (delete key (inFlight d)) <= size (inFlight d))%nat
      by apply map_subseteq_size, delete_subseteq. lia.
  - intros k1 k2 e'. rewrite !lookup_delete_Some. naive_solver.
  - intros k e'. rewrite lookup_delete_Some. intros [Hne Hk].
    destruct (Hr k e' Hk) as (Hrun & Hmn & Hun).
    rewrite lookup_insert_ne by naive_solver. split_and!; [done|by apply Hmk|by apply Huk].
  - intros e' x. rewrite lookup_insert_Some. intros [[<- <-]|[? ?]]; [done|by eauto].
Qed.

Lemma remember_spec key entry o d :
  disp_ok d → inFlight d !! key = Some entry →
  key_for (outcome_command o) = key → outcome_ok o →
  ∃ r m, remember key entry o d =
      set_flight (delete key (inFlight d))
        (<[entry := MkInFlightEntry true (Some o) None]> (entries d)) (set_memory r m d) ∧
    disp_ok (remember key entry o d) ∧ m ⊆ <[key := o]> (memory d) ∧
    r = take (N.to_nat (maximumMemoryOutcomes d)) (key :: recency d) ∧
    (N.of_nat (size (<[key := o]> (memory d))) <= maximumMemoryOutcomes d →
     m = <[key := o]> (memory d)).
Proof.
  intros Hok Hf Hk Ho. destruct (ok_running d Hok key entry Hf) as (_ & Hnone & _).
  pose proof (lru_ok_insert key o _ _ (ok_lru d Hok)) as Hlru.
  unfold remember. rewrite Hnone in *.
  destruct (evict_spec (size (<[key := o]> (memory d))) (maximumMemoryOutcomes d) _ _
    Hlru (le_n _)) as (m' & E & Hlru' & Hsub & Hkeep).
  rewrite E. do 2 eexists. split; [reflexivity|]. split; [|done].
  pose proof (lru_size _ _ Hlru') as Hsize. rewrite length_take in Hsize.
  apply (disp_ok_end key entry (MkInFlightEntry true (Some o) None) _ _ (uncertain d) d);
    try done.
  - lia.
  - apply ok_uncertain_size, Hok.
  - assert (map_Forall (λ k o, key_for (outcome_command o) = k ∧ outcome_ok o)
      (<[key := o]> (memory d))) as Hall
      by (apply map_Forall_insert_2; [done|apply ok_outcomes, Hok]).
    intros k x Hx. apply Hall. by eapply lookup_weaken.
  - intros k Hne Hk'. eapply lookup_weaken_None; [|exact Hsub].
    by rewrite lookup_insert_ne.
  - by right.
Qed.

Lemma finish_failure_spec victim key entry c error d :
  disp_ok d → inFlight d !! key = Some entry →
  uncertain d = ∅ ∨ is_Some (uncertain d !! victim) →
  ∃ u, finish_failure victim key entry c error d =
      set_flight (delete key (inFlight d))
        (<[entry := MkInFlightEntry true None (Some error)]> (entries d))
        (set_uncertain u d) ∧
    disp_ok (finish_failure victim key entry c error d) ∧
    u ⊆ <[key := MkUncertainOutcome c error]> (uncertain d) ∧
    is_Some (u !! key) ∧
    (N.of_nat (size (<[key := MkUncertainOutcome c error]> (uncertain d)))
       <= maximumMemoryOutcomes d →
     u = <[key := MkUncertainOutcome c error]> (uncertain d)).
Proof.
  intros Hok Hf Hv. destruct (ok_running d Hok key entry Hf) as (_ & _ & Hnone).
  pose proof (ok_positive d Hok) as [Hpos _].
  pose proof (ok_uncertain_size d Hok) as Hus.
  unfold finish_failure. rewrite Hnone, bool_decide_eq_false_2 by (by intros [? ?]).
  cbn [negb andb].
  assert (∀ u, u ⊆ uncertain d → N.of_nat (size u) < maximumMemoryOutcomes d →
    disp_ok (set_flight (delete key (inFlight d))
      (<[entry := MkInFlightEntry true None (Some error)]> (entries d))
      (set_uncertain (<[key := MkUncertainOutcome c error]> u) d))) as Hgo.
  { intros u Hsub Hsize.
    assert (u !! key = None) as Hu by by eapply lookup_weaken_None.
    pose proof (disp_ok_end key entry (MkInFlightEntry true None (Some error))
      (recency d) (memory d) (<[key := MkUncertainOutcome c error]> u) d Hok Hf
      (ok_lru d Hok) (ok_memory_size d Hok)) as Hend.
    apply Hend.
    - rewrite map_size_insert_None by done. lia.
    - apply ok_outcomes, Hok.
    - done.
    - intros k Hne Hk. rewrite lookup_insert_ne by done. by eapply lookup_weaken_None.
    - by left. }
  destruct (N.leb_spec (maximumMemoryOutcomes d) (N.of_nat (size (uncertain d))))
    as [Hfull|Hroom]; eexists; (split; [reflexivity|]); (split; [apply Hgo|]);
    rewrite ?lookup_insert_eq.
  - apply delete_subseteq.
  - assert (is_Some (uncertain d !! victim)) as [x Hx].
    { destruct Hv as [Hv|]; [|done]. rewrite Hv, map_size_empty in Hfull. lia. }
    rewrite map_size_delete_Some by by eexists.
    destruct (size (uncertain d)) eqn:Es; [|lia].
    apply map_size_empty_inv in Es. rewrite Es, lookup_empty in Hx. done.
  - split; [by apply insert_mono, delete_subseteq|]. split; [by eexists|].
    rewrite map_size_insert_None by done. lia.
  - done.
  - lia.
  - split; [done|]. split; [by eexists|done].
Qed.

(** ** Threads and the dispatcher *)

(** The in-flight entry a leader will complete. *)
Definition leads (pc : dispatch_pc) : option N :=
  match pc with
  | AtFind entry | AtDispatch entry | AtStore entry _ | AtRemember entry _
  | AtFail entry _ => Some entry
  | _ => None
  end.

(** What a thread may rely on at its program point. *)
Definition thread_ok (d : Impl) (t : thread) : Prop :=
  (∀ entry, leads (thread_pc t) = Some entry → inFlight d !! thread_key t = Some entry) ∧
  match thread_pc t with
  | AtStore _ o | AtRemember _ o => outcome_command o = thread_command t ∧ outcome_ok o
  | AtWaitDuplicate entry => ∃ e, entries d !! entry = Some e ∧
      (completed e = false → inFlight d !! thread_key t = Some entry)
  | _ => True
  end.

(** What a step of a thread does to the in-flight table: nothing, or the thread
    becomes the leader of its key, or it completes its entry. *)
Inductive flight_change (key : DispatchKey) (pc pc' : dispatch_pc) (d d' : Impl) : Prop :=
| flight_same :
    leads pc' = leads pc → inFlight d' = inFlight d → entries d' = entries d →
    flight_change key pc pc' d d'
| flight_begin entry :
    leads pc = None → leads pc' = Some entry → inFlight d !! key = None →
    entries d !! entry = None → inFlight d' = <[key := entry]> (inFlight d) →
    entries d' = <[entry := running]> (entries d) →
    flight_change key pc pc' d d'
| flight_end entry e :
    leads pc = Some entry → leads pc' = None →
    inFlight d' = delete key (inFlight d) →
    entries d' = <[entry := e]> (entries d) → completed e = true →
    flight_change key pc pc' d d'.

Section WorldLemmas.
Context {A P : Type} `{EffectAdapter A} `{PersistentOutcomeCache P}.
Implicit Types w : @world A P.

(** Every in-flight entry has exactly one leader. *)
Record world_ok (w : @world A P) : Prop := {
  ok_disp : disp_ok (disp w);
  ok_threads i t : threads w !! i = Some t → thread_ok (disp w) t;
  ok_leader key entry : inFlight (disp w) !! key = Some entry →
    ∃ i t, threads w !! i = Some t ∧ thread_key t = key ∧ leads (thread_pc t) = Some entry;
  ok_one_leader i j t u : threads w !! i = Some t → threads w !! j = Some u →
    is_Some (leads (thread_pc t)) → is_Some (leads (thread_pc u)) →
    thread_key t = thread_key u → i = j
}.

Lemma leads_unique_entry w i t entry :
  world_ok w → threads w !! i = Some t → leads (thread_pc t) = Some entry →
  inFlight (disp w) !! thread_key t = Some entry.
Proof. intros Hok Ht Hl. by apply (ok_threads w Hok i t Ht). Qed.

(** The other threads keep what they rely on. *)
Lemma thread_ok_frame w i t pc' d' j u :
  world_ok w → threads w !! i = Some t → i ≠ j → threads w !! j = Some u →
  flight_change (thread_key t) (thread_pc t) pc' (disp w) d' → thread_ok d' u.
Proof.
  intros Hok Ht Hij Hu Hch. pose proof (ok_threads w Hok j u Hu) as [Hlead Hpay].
  destruct Hch as [_ Hf He|entry _ _ Hnone Hfresh Hf He|entry e Hl _ Hf He Hc].
  - split; [by rewrite Hf|]. destruct (thread_pc u); try done. by rewrite Hf, He.
  - split.
    + intros e Hle. rewrite Hf. apply Hlead in Hle. rewrite lookup_insert_ne; [done|].
      intros E. rewrite E in Hnone. congruence.
    + destruct (thread_pc u); try done. destruct Hpay as (x & Hx & Hrun).
      exists x. rewrite He, lookup_insert_ne by congruence. split; [done|].
      intros Hx'. specialize (Hrun Hx'). rewrite Hf, lookup_insert_ne; [done|].
      intros E. rewrite E in Hnone. congruence.
  - pose proof (leads_unique_entry w i t entry Hok Ht Hl) as Hft. split.
    + intros e' Hle. rewrite Hf, lookup_delete_ne; [by apply Hlead|].
      intros Hkey. apply Hij. eapply (ok_one_leader w Hok); [done|done|..|done];
        by eexists.
    + destruct (thread_pc u) as [| |entry'| | | | | | |]; try done.
      destruct Hpay as (x & Hx & Hrun). rewrite He.
      destruct (decide (entry' = entry)) as [->|Hne].
      { exists e. rewrite lookup_insert_eq. split; [done|congruence]. }
      exists x. rewrite lookup_insert_ne by done. split; [done|].
      intros Hx'. specialize (Hrun Hx'). rewrite Hf, lookup_delete_ne; [done|].
      intros Hkey. rewrite <-Hkey in Hrun. congruence.
Qed.

Lemma set_thread_ok w w' i t pc' :
  world_ok w → threads w !! i = Some t → threads w' = threads w →
  flight_change (thread_key t) (thread_pc t) pc' (disp w) (disp w') →
  disp_ok (disp w') → thread_ok (disp w') (at_pc pc' t) →
  world_ok (set_thread i (at_pc pc' t) w').
Proof.
  intros Hok Ht Hth Hch Hd Htok. split; cbn; rewrite ?Hth.
  - done.
  - intros j u. rewrite lookup_insert_Some. intros [[<- <-]|[Hne Hu]]; [done|].
    exact (thread_ok_frame w i t pc' (disp w') j u Hok Ht Hne Hu Hch).
  - intros key entry Hf.
    assert (∀ key, key ≠ thread_key t ∨ leads pc' = leads (thread_pc t) →
      inFlight (disp w) !! key = Some entry → ∃ j u,
      <[i:=at_pc pc' t]> (threads w) !! j = Some u ∧ thread_key u = key ∧
      leads (thread_pc u) = Some entry) as Hold.
    { intros k Hcase Hk. destruct (ok_leader w Hok k entry Hk) as (j & u & Hu & Hku & Hl).
      destruct (decide (i = j)) as [<-|Hne].
      - assert (u = t) as -> by congruence. exists i, (at_pc pc' t).
        rewrite lookup_insert_eq. destruct Hcase as [?|Hle]; [done|].
        split_and!; [done|done|]. cbn. by rewrite Hle.
      - exists j, u. by rewrite lookup_insert_ne. }
    destruct Hch as [Hl Hfl _|entry' Hl Hl' Hnone _ Hfl _|entry' e Hl Hl' Hfl _ _].
    + rewrite Hfl in Hf. apply Hold; [by right|done].
    + rewrite Hfl in Hf. apply lookup_insert_Some in Hf as [[<- <-]|[Hne Hf]].
      * exists i, (at_pc pc' t). by rewrite lookup_insert_eq.
      * apply Hold; [by left|done].
    + rewrite Hfl in Hf. apply lookup_delete_Some in Hf as [Hne Hf].
      apply Hold; [by left|done].
  - assert (∀ j u, i ≠ j → threads w !! j = Some u → is_Some (leads pc') →
      is_Some (leads (thread_pc u)) → thread_key t = thread_key u → False) as Hnew.
    { intros j u Hne Hu [e1 Hl1] [e2 Hl2] Hkey.
      pose proof (leads_unique_entry w j u e2 Hok Hu Hl2) as Hfu. rewrite <-Hkey in Hfu.
      destruct Hch as [Hl _ _|entry' _ _ Hnone _ _ _|entry' e _ Hl' _ _ _].
      - apply Hne. eapply (ok_one_leader w Hok i j t u); [done|done|..|done].
        + rewrite <-Hl. by eexists. + by eexists.
      - congruence.
      - congruence. }
    intros j k u v. rewrite !lookup_insert_Some.
    intros [[<- <-]|[Hj Hu]] [[<- <-]|[Hk Hv]] Hlu Hlv Hkey; [done| | |].
    + by destruct (Hnew k v).
    + by destruct (Hnew j u).
    + by eapply (ok_one_leader w Hok).
Qed.

(** Memory and uncertain outcomes only matter through the dispatcher's invariant. *)
Lemma world_ok_same_flight w d :
  world_ok w → disp_ok d → inFlight d = inFlight (disp w) → entries d = entries (disp w) →
  world_ok (set_disp d w).
Proof.
  intros [Hd Ht Hl Hu] Hd' Hf He. split; cbn; try done.
  - intros i t Hit. destruct (Ht i t Hit) as [H1 H2]. split; [by rewrite Hf|].
    destruct (thread_pc t); try done. by rewrite Hf, He.
  - intros key entry. rewrite Hf. apply Hl.
Qed.

(** ** Each step *)

(** What a step that starts at [t] promises about the dispatcher. *)
Definition step_promise (t : thread) (d : Impl) (pc' : dispatch_pc) (d' : Impl) : Prop :=
  flight_change (thread_key t) (thread_pc t) pc' d d' ∧ disp_ok d' ∧
  thread_ok d' (at_pc pc' t).

Lemma step_promise_quiet t d pc' :
  disp_ok d → leads (thread_pc t) = None → leads pc' = None →
  (∀ entry, pc' ≠ AtWaitDuplicate entry) → step_promise t d pc' d.
Proof.
  intros Hd Hl Hl' Hw. split_and!; [apply flight_same; congruence|done|].
  split; cbn [at_pc thread_pc]; [congruence|].
  destruct pc'; try done. by destruct (Hw entry).
Qed.

Lemma step_promise_lead t d pc' entry :
  disp_ok d → thread_ok d t → leads (thread_pc t) = Some entry → leads pc' = Some entry →
  match pc' with
  | AtStore _ o | AtRemember _ o => outcome_command o = thread_command t ∧ outcome_ok o
  | _ => True
  end → step_promise t d pc' d.
Proof.
  intros Hd [Hok _] Hl Hl' Hpay. split_and!; [apply flight_same; congruence|done|].
  split; cbn [at_pc thread_pc].
  - intros e He. apply Hok. congruence.
  - by destruct pc'.
Qed.

Lemma enter_promise t d :
  disp_ok d → thread_pc t = AtLoop →
  let '(pc', d') := enter (thread_command t) d in step_promise t d pc' d'.
Proof.
  intros Hd Hpc. unfold enter.
  destruct (find_memory_locked_ok (key_for (thread_command t)) d Hd) as (r & E & Hd1).
  rewrite E. set (d1 := set_memory r (memory d) d) in *.
  assert (∀ pc', leads pc' = None → (∀ entry, pc' ≠ AtWaitDuplicate entry) →
    step_promise t d pc' d1) as Hquiet.
  { intros pc' Hl Hw.
    destruct (step_promise_quiet t d1 pc' Hd1 (f_equal leads Hpc) Hl Hw) as (_ & _ & Ht).
    split; [|done]. apply flight_same; [by rewrite Hpc, Hl|done|done]. }
  destruct (memory d !! key_for (thread_command t)) eqn:Em; [by apply Hquiet|].
  destruct (uncertain d1 !! key_for (thread_command t)) as [u|] eqn:Eu.
  { case_bool_decide; cbn [negb]; by apply Hquiet. }
  destruct (inFlight d1 !! key_for (thread_command t)) as [entry|] eqn:Ef.
  { split_and!.
    - apply flight_same; [by rewrite Hpc|done|done].
    - by apply disp_ok_waiting.
    - split; [done|]. cbn. destruct (ok_running d Hd _ _ Ef) as (Hrun & _).
      by exists running. }
  destruct (N.leb_spec (maximumConcurrentDispatches d1) (N.of_nat (size (inFlight d1))))
    as [Hfull|Hroom]; [by apply Hquiet|].
  destruct (disp_ok_begin (key_for (thread_command t)) d1 Hd1 Em Eu Ef Hroom)
    as [Hfresh Hd2].
  split_and!.
  - eapply (flight_begin _ _ _ _ _ (fresh (dom (entries d1)))); try done. by rewrite Hpc.
  - done.
  - split; [|done]. cbn [at_pc thread_pc leads]. intros e [= <-]. apply lookup_insert_eq.
Qed.

Lemma wake_promise t d entry pc' d' :
  disp_ok d → thread_pc t = AtWaitDuplicate entry →
  wake_duplicate entry (thread_command t) d = Some (pc', d') → step_promise t d pc' d'.
Proof.
  intros Hd Hpc. unfold wake_duplicate.
  destruct (entries d !! entry) as [e|] eqn:He; [|done].
  destruct (completed e); cbn [negb]; [|done]. intros [= Heq].
  assert (leads pc' = None ∧ (∀ x, pc' ≠ AtWaitDuplicate x) ∧
    d' = set_waiting (waitingDuplicates d - 1) d) as (Hl & Hw & ->)
    by (destruct (failure e), (entry_outcome e); by injection Heq as <- <-).
  destruct (step_promise_quiet t _ pc' (disp_ok_waiting (waitingDuplicates d - 1) d Hd)
    (f_equal leads Hpc) Hl Hw) as (_ & Hd' & Ht').
  split; [|done]. apply flight_same; [by rewrite Hpc, Hl|done|done].
Qed.

Lemma find_persistent_promise t w entry :
  disp_ok (disp w) → thread_ok (disp w) t → thread_pc t = AtFind entry →
  let '(pc', w') := find_persistent entry (thread_command t) w in
  disp w' = disp w ∧ threads w' = threads w ∧ calls w' = calls w ∧
  step_promise t (disp w) pc' (disp w') ∧ leads pc' = Some entry.
Proof.
  intros Hd Ht Hpc.
  assert (∀ pc', leads pc' = Some entry → _ → step_promise t (disp w) pc' (disp w))
    as Hlead by exact (λ pc' H1 H2, step_promise_lead t _ pc' entry Hd Ht
                         (f_equal leads Hpc) H1 H2).
  unfold find_persistent. destruct (persistent w) as [p|]; [|by split_and!; auto].
  destruct (cache_find _ _ p) as [[[o|]|e] p']; [|by split_and!; auto..].
  destruct (require_same_command o (thread_command t)) as [u|e] eqn:Eo;
    [|by split_and!; auto].
  apply require_same_command_ok in Eo. by split_and!; auto.
Qed.

Lemma store_persistent_promise t w entry o :
  disp_ok (disp w) → thread_ok (disp w) t → thread_pc t = AtStore entry o →
  let '(pc', w') := store_persistent entry o w in
  disp w' = disp w ∧ threads w' = threads w ∧ calls w' = calls w ∧
  step_promise t (disp w) pc' (disp w') ∧
  (pc' = AtRemember entry o ∨ ∃ e, pc' = AtFail entry e).
Proof.
  intros Hd Ht Hpc. pose proof Ht as [_ Hpay]. rewrite Hpc in Hpay.
  assert (∀ pc', leads pc' = Some entry → _ → step_promise t (disp w) pc' (disp w))
    as Hlead by exact (λ pc' H1 H2, step_promise_lead t _ pc' entry Hd Ht
                         (f_equal leads Hpc) H1 H2).
  unfold store_persistent. destruct (persistent w) as [p|].
  - destruct (cache_store o p) as [[u|e] p']; split_and!; eauto; by apply Hlead.
  - split_and!; eauto; by apply Hlead.
Qed.

Lemma dispatch_to_adapter_promise t w entry :
  disp_ok (disp w) → thread_ok (disp w) t → thread_pc t = AtDispatch entry →
  let '(pc', w') := dispatch_to_adapter entry t w in
  disp w' = disp w ∧ threads w' = threads w ∧
  calls w' = calls w ++ [thread_command t] ∧
  step_promise t (disp w) pc' (disp w') ∧
  ((∃ o, pc' = AtStore entry o) ∨ ∃ e, pc' = AtFail entry e).
Proof.
  intros Hd Ht Hpc.
  assert (∀ pc', leads pc' = Some entry → _ → step_promise t (disp w) pc' (disp w))
    as Hlead by exact (λ pc' H1 H2, step_promise_lead t _ pc' entry Hd Ht
                         (f_equal leads Hpc) H1 H2).
  unfold dispatch_to_adapter, call_adapter.
  destruct (dispatch _ _ _) as [[d|e] [a h]].
  - destruct (validate_dispatch_result_for_command d (thread_command t)) as [[]|e] eqn:Ev;
      split_and!; eauto; by apply Hlead.
  - split_and!; eauto; by apply Hlead.
Qed.

Lemma remember_promise t d entry o :
  disp_ok d → thread_ok d t → thread_pc t = AtRemember entry o →
  step_promise t d (Done (Ok (outcome_result o))) (remember (thread_key t) entry o d).
Proof.
  intros Hd [Hl Hpay] Hpc. rewrite Hpc in Hl, Hpay. destruct Hpay as [Hc Ho].
  destruct (remember_spec (thread_key t) entry o d Hd (Hl entry eq_refl))
    as (r & m & E & Hd' & _); [by rewrite Hc|done|].
  split_and!; [|done|done].
  eapply (flight_end _ _ _ _ _ entry (MkInFlightEntry true (Some o) None));
    rewrite ?E, ?Hpc; done.
Qed.

Lemma finish_failure_promise t d entry e victim :
  disp_ok d → thread_ok d t → thread_pc t = AtFail entry e →
  uncertain d = ∅ ∨ is_Some (uncertain d !! victim) →
  step_promise t d (Done (Err e))
    (finish_failure victim (thread_key t) entry (thread_command t) e d).
Proof.
  intros Hd [Hl _] Hpc Hv. rewrite Hpc in Hl.
  destruct (finish_failure_spec victim (thread_key t) entry (thread_command t) e d Hd
    (Hl entry eq_refl) Hv) as (u & E & Hd' & _).
  split_and!; [|done|done].
  eapply (flight_end _ _ _ _ _ entry (MkInFlightEntry true None (Some e)));
    rewrite ?E, ?Hpc; done.
Qed.

Lemma thread_step_promise w i t victim pc' w' :
  world_ok w → threads w !! i = Some t →
  uncertain (disp w) = ∅ ∨ is_Some (uncertain (disp w) !! victim) →
  thread_step victim t w = Some (pc', w') →
  threads w' = threads w ∧ step_promise t (disp w) pc' (disp w').
Proof.
  intros Hok Ht Hv. pose proof (ok_disp w Hok) as Hd.
  pose proof (ok_threads w Hok i t Ht) as Htok. unfold thread_step.
  destruct (thread_pc t) as [| |entry| |entry|entry|entry o|entry o|entry e|r] eqn:Hpc.
  - intros [= <- <-]. split; [done|].
    destruct check_arguments; by apply step_promise_quiet; rewrite ?Hpc.
  - pose proof (enter_promise t (disp w) Hd Hpc) as Hen. destruct enter as [pc d].
    by intros [= <- <-].
  - destruct wake_duplicate as [[pc d]|] eqn:E; [|done]. intros [= <- <-].
    split; [done|]. by eapply wake_promise.
  - destruct room_predicate; [|done]. intros [= <- <-]. split; [done|].
    by apply step_promise_quiet; rewrite ?Hpc.
  - pose proof (find_persistent_promise t w entry Hd Htok Hpc) as Hs.
    destruct find_persistent. intros [= <- <-]. by destruct Hs as (_ & ? & _ & ? & _).
  - pose proof (dispatch_to_adapter_promise t w entry Hd Htok Hpc) as Hs.
    destruct dispatch_to_adapter. intros [= <- <-]. by destruct Hs as (_ & ? & _ & ? & _).
  - pose proof (store_persistent_promise t w entry o Hd Htok Hpc) as Hs.
    destruct store_persistent. intros [= <- <-]. by destruct Hs as (_ & ? & _ & ? & _).
  - intros [= <- <-]. split; [done|]. by apply remember_promise.
  - intros [= <- <-]. split; [done|]. by apply finish_failure_promise.
  - done.
Qed.

Lemma world_step_ok l w w' : world_ok w → world_step l w w' → world_ok w'.
Proof.
  intros Hok Hs. destruct Hs as [i victim t pc w w' Ht Hv Hs|i n c f w Hi|w|h w].
  - destruct (thread_step_promise w i t victim pc w' Hok Ht Hv Hs) as (Hth & Hch & Hd & Htok).
    by apply (set_thread_ok w w' i t pc).
  - destruct Hok as [Hd Hts Hl Hu]. split; cbn.
    + done.
    + intros j t. rewrite lookup_insert_Some. intros [[<- <-]|[? ?]]; [done|by eauto].
    + intros key entry Hf. destruct (Hl key entry Hf) as (j & t & Hj & Ht).
      exists j, t. by rewrite lookup_insert_ne by congruence.
    + intros j k t u. rewrite !lookup_insert_Some.
      intros [[<- <-]|[? ?]] [[<- <-]|[? ?]]; cbn;
        [done|by intros [? ?]|by intros ? [? ?]|by eauto].
  - apply world_ok_same_flight; [done| |done|done].
    destruct (ok_disp w Hok) as [? ? ? ? Hp ? ? Hr ?]. split; try done; cbn.
    + split; [constructor|]. intros k. rewrite lookup_empty.
      split; [by intros ?%elem_of_nil|by intros [? ?]].
    + rewrite map_size_empty. lia.
    + rewrite map_size_empty. lia.
    + intros k entry Hf. destruct (Hr k entry Hf) as [? _].
      split_and!; [done|apply lookup_empty|apply lookup_empty].
  - by destruct Hok.
Qed.

Lemma world_steps_ok ls w w' : world_ok w → world_steps ls w w' → world_ok w'.
Proof. intros Hok Hs. induction Hs; eauto using world_step_ok. Qed.

Lemma starts_ok maxMemory maxConcurrent w : starts maxMemory maxConcurrent w → world_ok w.
Proof.
  intros (Hnew & Hth & _). destruct (new_disp_ok _ _ _ Hnew) as (Hd & _ & Hf & _).
  split; [done|..]; rewrite ?Hth, ?Hf.
  - intros ? ?. by rewrite lookup_empty.
  - intros ? ?. by rewrite lookup_empty.
  - intros ? ? ? ?. by rewrite lookup_empty.
Qed.
(** ** Executing a command once

    The keys the threads of a world were started for.  Threads stay in the
    world when they are done, so the set only grows. *)
Definition thread_keys (w : @world A P) : gset DispatchKey :=
  map_img (thread_key <$> threads w).

Lemma thread_keys_elem w i t : threads w !! i = Some t → thread_key t ∈ thread_keys w.
Proof.
  intros Ht. apply elem_of_map_img. exists i. by rewrite lookup_fmap, Ht.
Qed.

Lemma thread_keys_set_thread w w' i t pc :
  threads w !! i = Some t → threads w' = threads w →
  thread_keys (set_thread i (at_pc pc t) w') = thread_keys w.
Proof.
  intros Ht Hth. unfold thread_keys. cbn. rewrite Hth, fmap_insert.
  change (thread_key (at_pc pc t)) with (thread_key t). f_equal.
  rewrite insert_id; [done|]. by rewrite lookup_fmap, Ht.
Qed.

Lemma world_step_keys l w w' :
  world_ok w → world_step l w w' → thread_keys w ⊆ thread_keys w'.
Proof.
  intros Hok Hs. destruct Hs as [i victim t pc w w' Ht Hv Hs|i n c f w Hi|w|h w]; try done.
  - destruct (thread_step_promise w i t victim pc w' Hok Ht Hv Hs) as [Hth _].
    by erewrite thread_keys_set_thread.
  - intros k (j & Hj)%elem_of_map_img. apply elem_of_map_img. exists j. cbn.
    rewrite fmap_insert, lookup_insert_ne; [done|].
    intros <-. rewrite lookup_fmap, Hi in Hj. done.
Qed.

Lemma world_steps_keys ls w w' :
  world_ok w → world_steps ls w w' → thread_keys w ⊆ thread_keys w'.
Proof.
  intros Hok Hs. induction Hs as [|l ls w1 w2 w3 Hs Hss IH]; [done|].
  etrans; [by eapply world_step_keys|]. apply IH. by eapply world_step_ok.
Qed.

(** A leader whose command has reached the adapter or was decided otherwise. *)
Definition decided (pc : dispatch_pc) : bool :=
  match pc with AtStore _ _ | AtRemember _ _ | AtFail _ _ => true | _ => false end.

(** While nothing is forgotten: each command was handed to the adapter at most
    once, and what became of it is known; finished callers and finished entries
    have the remembered outcome. *)
Record once_ok (limit : N) (w : @world A P) : Prop := {
  once_limit : maximumMemoryOutcomes (disp w) = limit;
  once_calls : NoDup (key_for <$> calls w);
  once_seen c : c ∈ calls w →
    is_Some (memory (disp w) !! key_for c) ∨ is_Some (uncertain (disp w) !! key_for c) ∨
    ∃ i t, threads w !! i = Some t ∧ thread_key t = key_for c ∧
           decided (thread_pc t) = true;
  once_memory_keys : dom (memory (disp w)) ⊆ thread_keys w;
  once_uncertain_keys : dom (uncertain (disp w)) ⊆ thread_keys w;
  once_done i t r : threads w !! i = Some t → thread_pc t = Done (Ok r) →
    memory (disp w) !! thread_key t = Some (MkCachedDispatchOutcome (thread_command t) r);
  once_entries entry e o : entries (disp w) !! entry = Some e → entry_outcome e = Some o →
    memory (disp w) !! key_for (outcome_command o) = Some o
}.

(** What a step must provide to keep it: tables that only grew by the thread's
    own key, and a place for everything known before. *)
Record once_step (w w' : @world A P) (t : thread) (pc' : dispatch_pc) : Prop := {
  os_threads : threads w' = threads w;
  os_limit : maximumMemoryOutcomes (disp w') = maximumMemoryOutcomes (disp w);
  os_memory : memory (disp w) ⊆ memory (disp w');
  os_memory_keys : dom (memory (disp w')) ⊆ {[thread_key t]} ∪ dom (memory (disp w));
  os_uncertain : dom (uncertain (disp w)) ⊆ dom (uncertain (disp w'));
  os_uncertain_keys :
    dom (uncertain (disp w')) ⊆ {[thread_key t]} ∪ dom (uncertain (disp w));
  os_calls : NoDup (key_for <$> calls w');
  os_called c : c ∈ calls w' →
    c ∈ calls w ∨ (key_for c = thread_key t ∧ decided pc' = true);
  os_decided : decided (thread_pc t) = true → decided pc' = true ∨
    is_Some (memory (disp w') !! thread_key t) ∨
    is_Some (uncertain (disp w') !! thread_key t);
  os_done r : pc' = Done (Ok r) → memory (disp w') !! thread_key t =
    Some (MkCachedDispatchOutcome (thread_command t) r);
  os_entries entry e o : entries (disp w') !! entry = Some e → entry_outcome e = Some o →
    entries (disp w) !! entry = Some e ∨
    memory (disp w') !! key_for (outcome_command o) = Some o
}.

Lemma once_step_ok limit w w' i t pc' :
  once_ok limit w → threads w !! i = Some t → once_step w w' t pc' →
  once_ok limit (set_thread i (at_pc pc' t) w').
Proof.
  intros Hok Ht Hs. pose proof (thread_keys_elem w i t Ht) as Hkey.
  pose proof (thread_keys_set_thread w w' i t pc' Ht (os_threads _ _ _ _ Hs)) as Hkeys.
  destruct Hok as [Hlim Hcalls Hseen Hmk Huk Hdone Hent].
  destruct Hs as [Hth Hl Hm Hmk' Hu Huk' Hnd Hcalled Hdec Hdone' Hent'].
  split; rewrite ?Hkeys; cbn; rewrite ?Hth.
  - congruence.
  - done.
  - assert (∀ c, key_for c = thread_key t → decided pc' = true →
      ∃ j u, <[i:=at_pc pc' t]> (threads w) !! j = Some u ∧ thread_key u = key_for c ∧
      decided (thread_pc u) = true) as Hhere.
    { intros c Hc Hd. exists i, (at_pc pc' t). by rewrite lookup_insert_eq. }
    intros c [Hc|[Hc Hd]]%Hcalled; [|by auto].
    destruct (Hseen c Hc) as [[o Ho]|[Hun|(j & u & Hj & Hku & Hdu)]].
    + left. exists o. by eapply lookup_weaken.
    + right. left. apply elem_of_dom. apply Hu. by apply elem_of_dom.
    + destruct (decide (i = j)) as [<-|Hne].
      * assert (u = t) as -> by congruence. rewrite <-Hku.
        destruct (Hdec Hdu) as [Hd|[Hd|Hd]]; [|by auto..].
        right. right. rewrite Hku. by apply Hhere.
      * right. right. exists j, u. by rewrite lookup_insert_ne.
  - set_solver.
  - set_solver.
  - intros j u r. rewrite lookup_insert_Some. intros [[<- <-]|[Hne Hj]] Hpc.
    + by apply Hdone'.
    + eapply lookup_weaken; [by eapply Hdone|done].
  - intros entry e o He Ho. destruct (Hent' entry e o He Ho) as [He'|]; [|done].
    eapply lookup_weaken; [by eapply Hent|done].
Qed.

(** Steps that leave the tables alone, or only move keys in [recency]. *)
Lemma once_step_tables limit w w' t pc' :
  once_ok limit w → threads w' = threads w → calls w' = calls w →
  maximumMemoryOutcomes (disp w') = maximumMemoryOutcomes (disp w) →
  memory (disp w') = memory (disp w) → uncertain (disp w') = uncertain (disp w) →
  (decided (thread_pc t) = true → decided pc' = true) →
  (∀ r, pc' = Done (Ok r) → memory (disp w) !! thread_key t =
     Some (MkCachedDispatchOutcome (thread_command t) r)) →
  (∀ entry e, entries (disp w') !! entry = Some e → is_Some (entry_outcome e) →
     entries (disp w) !! entry = Some e) →
  once_step w w' t pc'.
Proof.
  intros Hok Hth Hc Hl Hm Hu Hdec Hdone Hent.
  split; rewrite ?Hm, ?Hu, ?Hc; try done.
  - set_solver.
  - set_solver.
  - apply Hok.
  - by left.
  - by auto.
  - intros entry e o He Ho. left. apply Hent; [done|by eexists].
Qed.
Lemma enter_tables c d pc' d' :
  disp_ok d → enter c d = (pc', d') →
  maximumMemoryOutcomes d' = maximumMemoryOutcomes d ∧
  memory d' = memory d ∧ uncertain d' = uncertain d ∧
  (∀ r, pc' = Done (Ok r) → memory d !! key_for c = Some (MkCachedDispatchOutcome c r)) ∧
  (∀ entry e, entries d' !! entry = Some e → is_Some (entry_outcome e) →
     entries d !! entry = Some e).
Proof.
  intros Hd. unfold enter.
  destruct (find_memory_locked_ok (key_for c) d Hd) as (r & E & _). rewrite E.
  set (d1 := set_memory r (memory d) d).
  assert (∀ pc, (∀ r, pc ≠ Done (Ok r)) → (pc, d1) = (pc', d') →
    maximumMemoryOutcomes d' = maximumMemoryOutcomes d ∧
    memory d' = memory d ∧ uncertain d' = uncertain d ∧
    (∀ r, pc' = Done (Ok r) → memory d !! key_for c = Some (MkCachedDispatchOutcome c r)) ∧
    (∀ entry e, entries d' !! entry = Some e → is_Some (entry_outcome e) →
       entries d !! entry = Some e)) as Hsame.
  { intros pc Hpc [= <- <-]. split_and!; try done. intros r' ->. by destruct (Hpc r'). }
  destruct (memory d !! key_for c) as [o|] eqn:Em.
  { intros [= <- <-]. split_and!; try done.
    intros r' [= [Hc Hr]%same_command_result_ok]. by destruct o; cbn in *; subst. }
  destruct (uncertain d1 !! key_for c) as [u|].
  { case_bool_decide; cbn [negb]; apply Hsame; by intros ?. }
  destruct (inFlight d1 !! key_for c) as [entry|]; [by intros [= <- <-]|].
  destruct (_ <=? _); [by apply Hsame|]. intros [= <- <-]. split_and!; try done.
  intros entry e. cbn. rewrite lookup_insert_Some.
  intros [[_ <-]|[_ ?]]; [by intros [? ?]|done].
Qed.

Lemma wake_once limit w t entry pc' d' :
  world_ok w → once_ok limit w → thread_pc t = AtWaitDuplicate entry →
  wake_duplicate entry (thread_command t) (disp w) = Some (pc', d') →
  once_step w (set_disp d' w) t pc'.
Proof.
  intros Hw Hok Hpc. unfold wake_duplicate.
  destruct (entries (disp w) !! entry) as [e|] eqn:He; [|done].
  destruct (completed e); cbn [negb]; [|done]. intros [= Heq].
  assert (d' = set_waiting (waitingDuplicates (disp w) - 1) (disp w) ∧
    decided pc' = false ∧ ∀ r, pc' = Done (Ok r) →
    ∃ o, entry_outcome e = Some o ∧ same_command_result o (thread_command t) = Ok r)
    as (-> & Hdec & Hdone).
  { destruct (failure e), (entry_outcome e) as [o|]; injection Heq as <- <-;
      split_and!; try done. intros r [= Hr]. by exists o. }
  apply (once_step_tables limit); try done.
  - by rewrite Hpc.
  - intros r Hr. destruct (Hdone r Hr) as (o & Ho & [Hc Hres]%same_command_result_ok).
    unfold thread_key. rewrite <-Hc, (once_entries _ _ Hok entry e o He Ho).
    destruct o; cbn in *; by subst.
Qed.

Lemma dispatch_once limit w i t entry pc' w' :
  world_ok w → once_ok limit w → threads w !! i = Some t → thread_pc t = AtDispatch entry →
  dispatch_to_adapter entry t w = (pc', w') → once_step w w' t pc'.
Proof.
  intros Hw Hok Ht Hpc E.
  pose proof (dispatch_to_adapter_promise t w entry (ok_disp w Hw)
    (ok_threads w Hw i t Ht) Hpc) as Hs. rewrite E in Hs.
  destruct Hs as (Hd & Hth & Hcalls & _ & Hpc').
  assert (decided pc' = true) as Hdec by by destruct Hpc' as [[? ->]|[? ->]].
  split; rewrite ?Hd, ?Hcalls; try done.
  - set_solver.
  - set_solver.
  - rewrite fmap_app. apply NoDup_app. split_and!; [apply Hok| |apply NoDup_singleton].
    intros k (c & -> & Hc)%list_elem_of_fmap Hk.
    change (key_for <$> [thread_command t]) with [thread_key t] in Hk.
    apply list_elem_of_singleton in Hk.
    assert (leads (thread_pc t) = Some entry) as Hl by by rewrite Hpc.
    pose proof (leads_unique_entry w i t entry Hw Ht Hl) as Hf.
    destruct (ok_running (disp w) (ok_disp w Hw) _ _ Hf) as (_ & Hm & Hu).
    destruct (once_seen limit w Hok c Hc) as [[? ?]|[[? ?]|(j & u & Hj & Hku & Hdu)]];
      [congruence..|].
    assert (i = j) as <-.
    { eapply (ok_one_leader w Hw); [done|done|by eexists| |congruence].
      destruct (thread_pc u); try done; by eexists. }
    assert (u = t) as -> by congruence. by rewrite Hpc in Hdu.
  - intros c. rewrite elem_of_app, list_elem_of_singleton. intros [?| ->]; [by left|by right].
  - by auto.
  - intros r ->. done.
  - by auto.
Qed.

(** With room for every key nothing is evicted. *)
Lemma memory_room limit w key o :
  once_ok limit w → (N.of_nat (size (thread_keys w)) <= limit) → key ∈ thread_keys w →
  N.of_nat (size (<[key := o]> (memory (disp w)))) <= maximumMemoryOutcomes (disp w).
Proof.
  intros Hok Hcap Hkey. rewrite (once_limit _ _ Hok).
  assert (size (<[key := o]> (memory (disp w))) <= size (thread_keys w))%nat; [|lia].
  rewrite <-size_dom. apply subseteq_size. rewrite dom_insert.
  pose proof (once_memory_keys _ _ Hok). set_solver.
Qed.

Lemma uncertain_room limit w key u :
  once_ok limit w → (N.of_nat (size (thread_keys w)) <= limit) → key ∈ thread_keys w →
  N.of_nat (size (<[key := u]> (uncertain (disp w)))) <= maximumMemoryOutcomes (disp w).
Proof.
  intros Hok Hcap Hkey. rewrite (once_limit _ _ Hok).
  assert (size (<[key := u]> (uncertain (disp w))) <= size (thread_keys w))%nat; [|lia].
  rewrite <-size_dom. apply subseteq_size. rewrite dom_insert.
  pose proof (once_uncertain_keys _ _ Hok). set_solver.
Qed.

Lemma remember_once limit w i t entry o :
  world_ok w → once_ok limit w → threads w !! i = Some t →
  thread_pc t = AtRemember entry o → N.of_nat (size (thread_keys w)) <= limit →
  once_step w (set_disp (remember (thread_key t) entry o (disp w)) w) t
    (Done (Ok (outcome_result o))).
Proof.
  intros Hw Hok Ht Hpc Hcap. pose proof (ok_threads w Hw i t Ht) as [Hl Hpay].
  rewrite Hpc in Hl, Hpay. destruct Hpay as [Hc Ho]. specialize (Hl entry eq_refl).
  destruct (ok_running _ (ok_disp w Hw) _ _ Hl) as (_ & Hnone & _).
  destruct (remember_spec (thread_key t) entry o (disp w) (ok_disp w Hw) Hl)
    as (r & m & E & _ & _ & _ & Hm); [by rewrite Hc|done|].
  specialize (Hm (memory_room limit w _ o Hok Hcap (thread_keys_elem w i t Ht))).
  subst m. rewrite E. split; cbn; try done.
  - by apply insert_subseteq.
  - rewrite dom_insert. done.
  - set_solver.
  - apply Hok.
  - by left.
  - intros _. right. left. rewrite lookup_insert_eq. by eexists.
  - intros r' [= <-]. rewrite lookup_insert_eq. rewrite <-Hc. by destruct o.
  - intros x e o'. rewrite lookup_insert_Some. intros [[<- <-]|[Hne Hx]] Ho'; [|by left].
    cbn in Ho'. injection Ho' as <-. right. unfold thread_key. rewrite <-Hc.
    apply lookup_insert_eq.
Qed.

Lemma failure_once limit w i t entry e victim :
  world_ok w → once_ok limit w → threads w !! i = Some t →
  thread_pc t = AtFail entry e → N.of_nat (size (thread_keys w)) <= limit →
  uncertain (disp w) = ∅ ∨ is_Some (uncertain (disp w) !! victim) →
  once_step w (set_disp (finish_failure victim (thread_key t) entry (thread_command t) e
    (disp w)) w) t (Done (Err e)).
Proof.
  intros Hw Hok Ht Hpc Hcap Hv. pose proof (ok_threads w Hw i t Ht) as [Hl _].
  rewrite Hpc in Hl. specialize (Hl entry eq_refl).
  destruct (finish_failure_spec victim (thread_key t) entry (thread_command t) e (disp w)
    (ok_disp w Hw) Hl Hv) as (u & E & _ & _ & _ & Hu).
  specialize (Hu (uncertain_room limit w _ _ Hok Hcap (thread_keys_elem w i t Ht))).
  subst u. rewrite E. split; cbn; try done.
  - set_solver.
  - rewrite dom_insert. set_solver.
  - rewrite dom_insert. done.
  - apply Hok.
  - by left.
  - intros _. right. right. rewrite lookup_insert_eq. by eexists.
  - intros x e' o'. rewrite lookup_insert_Some. intros [[<- <-]|[Hne Hx]] Ho'; [done|by left].
Qed.

Lemma thread_step_once limit w i t victim pc' w' :
  world_ok w → once_ok limit w → threads w !! i = Some t →
  N.of_nat (size (thread_keys w)) <= limit →
  uncertain (disp w) = ∅ ∨ is_Some (uncertain (disp w) !! victim) →
  thread_step victim t w = Some (pc', w') → once_step w w' t pc'.
Proof.
  intros Hw Hok Ht Hcap Hv. pose proof (ok_disp w Hw) as Hd.
  pose proof (ok_threads w Hw i t Ht) as Htok. unfold thread_step.
  destruct (thread_pc t) as [| |entry| |entry|entry|entry o|entry o|entry e|r] eqn:Hpc.
  - intros [= <- <-]. apply (once_step_tables limit); try done; rewrite ?Hpc; try done.
    by destruct check_arguments.
  - destruct enter as [pc d] eqn:E. intros [= <- <-].
    destruct (enter_tables _ _ _ _ Hd E) as (Hl & Hm & Hu & Hdone & Hent).
    apply (once_step_tables limit); try done. by rewrite Hpc.
  - destruct wake_duplicate as [[pc d]|] eqn:E; [|done]. intros [= <- <-].
    by apply (wake_once limit w t entry).
  - destruct room_predicate; [|done]. intros [= <- <-].
    apply (once_step_tables limit); try done. by rewrite Hpc.
  - pose proof (find_persistent_promise t w entry Hd Htok Hpc) as Hs.
    destruct find_persistent as [pc w1]. intros [= <- <-].
    destruct Hs as (Hdisp & Hth & Hcalls & _ & Hlead).
    apply (once_step_tables limit); rewrite ?Hdisp; try done; rewrite ?Hpc; try done.
    by intros r ->.
  - destruct dispatch_to_adapter as [pc w1] eqn:E. intros [= <- <-].
    by apply (dispatch_once limit w i t entry).
  - pose proof (store_persistent_promise t w entry o Hd Htok Hpc) as Hs.
    destruct store_persistent as [pc w1]. intros [= <- <-].
    destruct Hs as (Hdisp & Hth & Hcalls & _ & Hpc').
    apply (once_step_tables limit); rewrite ?Hdisp; try done.
    + intros _. by destruct Hpc' as [->|[? ->]].
    + intros r ->. by destruct Hpc' as [?|[? ?]].
  - intros [= <- <-]. by apply (remember_once limit w i t).
  - intros [= <- <-]. by apply (failure_once limit w i t).
  - done.
Qed.

Lemma world_step_once limit l w w' :
  world_ok w → once_ok limit w → world_step l w w' → l ≠ LClear →
  N.of_nat (size (thread_keys w)) <= limit → once_ok limit w'.
Proof.
  intros Hw Hok Hs Hl Hcap.
  destruct Hs as [i victim t pc w w' Ht Hv Hs|i n c f w Hi|w|h w]; [| |done|].
  - eapply once_step_ok; [done|done|by eapply thread_step_once].
  - assert (thread_keys w ⊆ thread_keys (set_thread i (MkThread n c f AtStart) w)) as Hk
      by (apply (world_step_keys (LCall i)); [done|by constructor]).
    destruct Hok as [? ? Hseen Hm Hu Hdone ?]. split; cbn; try done.
    + intros c' Hc. destruct (Hseen c' Hc) as [?|[?|(j & t & Hj & ?)]]; [by auto..|].
      right. right. exists j, t. by rewrite lookup_insert_ne by congruence.
    + by etrans.
    + by etrans.
    + intros j t r. rewrite lookup_insert_Some. intros [[<- <-]|[? ?]]; [done|by eauto].
  - by destruct Hok.
Qed.

Lemma world_steps_once limit ls w w' :
  world_ok w → once_ok limit w → world_steps ls w w' → Forall (λ l, l ≠ LClear) ls →
  N.of_nat (size (thread_keys w')) <= limit → once_ok limit w'.
Proof.
  intros Hw Hok Hs. revert Hw Hok.
  induction Hs as [|l ls w1 w2 w3 Hs Hss IH]; intros Hw Hok Hls Hcap; [done|].
  apply Forall_cons in Hls as [Hl Hls].
  assert (world_ok w2) as Hw2 by by eapply world_step_ok.
  pose proof (subseteq_size _ _ (world_steps_keys _ _ _ Hw2 Hss)).
  pose proof (subseteq_size _ _ (world_step_keys _ _ _ Hw Hs)).
  apply IH; [done| |done|done].
  apply (world_step_once limit l w1 w2 Hw Hok Hs Hl). lia.
Qed.

Lemma starts_once limit maxConcurrent w :
  starts limit maxConcurrent w → once_ok limit w.
Proof.
  intros (Hnew & Hth & Hcalls).
  destruct (new_disp_ok _ _ _ Hnew) as (_ & Hl & _ & Hm & Hu).
  assert (entries (disp w) = ∅) as He.
  { unfold new_IdempotentDispatcher in Hnew. rewrite guard_ok in Hnew.
    by destruct Hnew as [_ [= <-]]. }
  split; rewrite ?Hcalls, ?Hth, ?Hm, ?Hu, ?He; try done.
  - constructor.
  - by intros c ?%elem_of_nil.
Qed.
End WorldLemmas.

(** ** Schedules: executable runs *)

Inductive schedule_item :=
| RunThread (i : N) (victim : DispatchKey)
| RunCall (i n : N) (c : EffectCommand) (f : FeedbackSender).

Definition item_label (s : schedule_item) : step_label :=
  match s with RunThread i _ => LThread i | RunCall i _ _ _ => LCall i end.

Section Schedules.
Context {A P : Type} `{EffectAdapter A} `{PersistentOutcomeCache P}.

Definition run_item (s : schedule_item) (w : @world A P) : option world :=
  match s with
  | RunThread i victim =>
      t ← threads w !! i;
      guard (size (uncertain (disp w)) = O ∨ is_Some (uncertain (disp w) !! victim));;
      r ← thread_step victim t w;
      Some (set_thread i (at_pc r.1 t) r.2)
  | RunCall i n c f =>
      guard (threads w !! i = None);;
      Some (set_thread i (MkThread n c f AtStart) w)
  end.

Fixpoint run_schedule (l : list schedule_item) (w : @world A P) : option world :=
  match l with
  | [] => Some w
  | s :: l => run_item s w ≫= run_schedule l
  end.

Lemma run_item_step s w w' : run_item s w = Some w' → world_step (item_label s) w w'.
Proof.
  destruct s as [i victim|i n c f]; cbn.
  - intros (t & Ht & (Hv & _ & ([pc w1] & Hs & [= <-])%bind_Some)%bind_Some)%bind_Some.
    eapply step_thread; [done| |done].
    destruct Hv as [Hv|]; [left|by right]. by apply map_size_empty_inv.
  - intros (Hi & _ & [= <-])%bind_Some. by constructor.
Qed.

Lemma run_schedule_steps l w :
  bool_decide (is_Some (run_schedule l w)) = true →
  world_steps (item_label <$> l) w (default w (run_schedule l w)).
Proof.
  rewrite bool_decide_eq_true. intros [w' E]. rewrite E. cbn [default].
  revert w E. induction l as [|s l IH]; intros w; cbn; [by intros [= <-]; constructor|].
  intros (w1 & Hs & E)%bind_Some. econstructor; [by apply run_item_step|by apply IH].
Qed.
End Schedules.

(** * Properties *)

Section Properties.
Context {A P : Type} `{EffectAdapter A} `{PersistentOutcomeCache P}.
Implicit Types w : @world A P.

(** C21. At most once: while the memory can hold every key in use and nobody
    clears it, the adapters receive each command's key at most once, however
    many threads dispatch it, in whatever order they run, and whatever the
    adapter or the persistent cache answer or throw. *)
Theorem dispatch_at_most_once (maxMemory maxConcurrent : N) (w0 w : @world A P)
    (ls : list step_label) :
  starts maxMemory maxConcurrent w0 → world_steps ls w0 w →
  Forall (λ l, l ≠ LClear) ls → N.of_nat (size (thread_keys w)) <= maxMemory →
  NoDup (key_for <$> calls w).
Proof.
  intros Hstart Hs Hls Hcap.
  eapply once_calls, (world_steps_once maxMemory ls w0 w);
    [by eapply starts_ok|by eapply starts_once|done|done|done].
Qed.

(** Duplicates share their leader's outcome: under the same conditions all
    callers with one session and command number that return at all return the
    same result, and they all dispatched the same command. *)
Theorem duplicates_share_outcome (maxMemory maxConcurrent : N) (w0 w : @world A P)
    (ls : list step_label) (i j : N) (t u : thread) (r r' : DispatchResult) :
  starts maxMemory maxConcurrent w0 → world_steps ls w0 w →
  Forall (λ l, l ≠ LClear) ls → N.of_nat (size (thread_keys w)) <= maxMemory →
  threads w !! i = Some t → threads w !! j = Some u → thread_key t = thread_key u →
  thread_pc t = Done (Ok r) → thread_pc u = Done (Ok r') →
  r = r' ∧ thread_command t = thread_command u.
Proof.
  intros Hstart Hs Hls Hcap Ht Hu Hkey Hr Hr'.
  assert (once_ok maxMemory w) as Hok.
  { apply (world_steps_once maxMemory ls w0 w);
      [by eapply starts_ok|by eapply starts_once|done|done|done]. }
  pose proof (once_done _ _ Hok i t r Ht Hr) as H1.
  pose proof (once_done _ _ Hok j u r' Hu Hr') as H2.
  rewrite Hkey, H2 in H1. by injection H1 as <- <-.
Qed.

(** In every reachable state, whatever was cleared or evicted: no two
    threads execute the same key at once; the remembered and the uncertain
    outcomes stay within the memory bound and the executions in flight within
    the concurrency bound; [recency] lists exactly the remembered keys; and
    every remembered outcome is a trusted result of a command with its key. *)
Theorem dispatcher_invariant (maxMemory maxConcurrent : N) (w0 w : @world A P)
    (ls : list step_label) :
  starts maxMemory maxConcurrent w0 → world_steps ls w0 w →
  (∀ i j t u, threads w !! i = Some t → threads w !! j = Some u →
     is_Some (leads (thread_pc t)) → is_Some (leads (thread_pc u)) →
     thread_key t = thread_key u → i = j) ∧
  N.of_nat (size (memory (disp w))) <= maximumMemoryOutcomes (disp w) ∧
  N.of_nat (size (uncertain (disp w))) <= maximumMemoryOutcomes (disp w) ∧
  N.of_nat (size (inFlight (disp w))) <= maximumConcurrentDispatches (disp w) ∧
  lru_ok (recency (disp w)) (memory (disp w)) ∧
  map_Forall (λ k o, key_for (outcome_command o) = k ∧ outcome_ok o) (memory (disp w)).
Proof.
  intros Hstart Hs.
  assert (world_ok w) as [[] ? ? ?]
    by (eapply world_steps_ok; [by eapply starts_ok|done]).
  by split_and!.
Qed.

End Properties.

(** ** Witnesses: a persistent cache that is a map, and two simulated adapters
    behind one dispatcher, with two callers for one command. *)

#[local] Instance map_cache : PersistentOutcomeCache (gmap DispatchKey CachedDispatchOutcome) := {|
  cache_find s c := λ p, (Ok (p !! (s, c)), p);
  cache_store o := λ p, (Ok tt, <[key_for (outcome_command o) := o]> p)
|}.

Definition sample_start : @world InMemoryAdapter (gmap DispatchKey CachedDispatchOutcome) :=
  MkWorld (new_Impl 2 2) (λ _, sample_adapter) sample_heap (Some ∅) ∅ [].

Definition key17 : DispatchKey := (1, 7).
Definition sample_schedule : list schedule_item :=
  [RunCall 0 0 sample_command (Some 0); RunCall 1 1 sample_command (Some 0);
   RunThread 0 key17; RunThread 1 key17; RunThread 0 key17; RunThread 1 key17;
   RunThread 0 key17; RunThread 0 key17; RunThread 0 key17; RunThread 0 key17;
   RunThread 1 key17].

(** The leader has asked the cache; the duplicate waits. *)
Definition sample_waiting : @world InMemoryAdapter _ :=
  default sample_start (run_schedule (take 7 sample_schedule) sample_start).
Definition sample_end : @world InMemoryAdapter _ :=
  default sample_start (run_schedule sample_schedule sample_start).

Lemma dispatch_at_most_once_witness : NoDup (key_for <$> calls sample_end).
Proof.
  apply (dispatch_at_most_once 2 0 sample_start sample_end
    (item_label <$> sample_schedule)).
  - split; [|done]. done.
  - apply run_schedule_steps. by vm_compute.
  - repeat constructor; done.
  - by vm_compute.
Defined.

Definition sample_result : DispatchResult := MkDispatchResult DispatchAccepted
  (Some (Report 1 7 "device" "lamp" Applied (Some (VBoolean true)) "" 100 1)) "".

Lemma duplicates_share_outcome_witness :
  sample_result = sample_result ∧ sample_command = sample_command.
Proof.
  apply (duplicates_share_outcome 2 0 sample_start sample_end
    (item_label <$> sample_schedule) 0 1
    (MkThread 0 sample_command (Some 0) (Done (Ok sample_result)))
    (MkThread 1 sample_command (Some 0) (Done (Ok sample_result)))).
  - split; [|done]. done.
  - apply run_schedule_steps. by vm_compute.
  - repeat constructor; done.
  - by vm_compute.
  - by vm_compute.
  - by vm_compute.
  - done.
  - done.
  - done.
Defined.

Lemma dispatcher_invariant_witness :
  (∀ i j t u, threads sample_waiting !! i = Some t → threads sample_waiting !! j = Some u →
     is_Some (leads (thread_pc t)) → is_Some (leads (thread_pc u)) →
     thread_key t = thread_key u → i = j) ∧
  N.of_nat (size (memory (disp sample_waiting)))
    <= maximumMemoryOutcomes (disp sample_waiting) ∧
  N.of_nat (size (uncertain (disp sample_waiting)))
    <= maximumMemoryOutcomes (disp sample_waiting) ∧
  N.of_nat (size (inFlight (disp sample_waiting)))
    <= maximumConcurrentDispatches (disp sample_waiting) ∧
  lru_ok (recency (disp sample_waiting)) (memory (disp sample_waiting)) ∧
  map_Forall (λ k o, key_for (outcome_command o) = k ∧ outcome_ok o)
    (memory (disp sample_waiting)).
Proof.
  apply (dispatcher_invariant 2 0 sample_start sample_waiting
    (item_label <$> take 7 sample_schedule)).
  - split; [|done]. done.
  - apply run_schedule_steps. by vm_compute.
Defined.

