(* ===== verification/Ids.v ===== *)
(** * Identifiers of the world
    (include/liquid/Ids.hpp, include/liquid/IntentLifetime.hpp,
     include/liquid/Intent.hpp)

    Generational handles, the limits of the world's tables, and the intent
    record.  A [std::set] or [std::map] over handles is a [gset] or [gmap];
    where the program iterates one, it visits the handles in their order,
    [ordered]. *)
From S2P Require Import Prelude OrderedMap Values.

(** [GenerationalHandle<Tag, SlotType>]: the tag and the slot's width only tell
    the kinds of handles apart. *)
Record handle := MkHandle {
  handle_world : N;
  handle_slot : N;
  handle_generation : N
}.

#[export] Instance handle_eq_dec : EqDecision handle.
Proof. solve_decision. Defined.

#[export] Instance handle_countable : Countable handle.
Proof.
  refine (inj_countable' (λ h, (handle_world h, handle_slot h, handle_generation h))
    (λ p, MkHandle p.1.1 p.1.2 p.2) _).
  by intros [].
Defined.

Abbreviation BehaviorId := handle (only parsing).
Abbreviation IntentId := handle (only parsing).
Abbreviation ComponentSlotId := handle (only parsing).
Abbreviation ComponentTypeId := N (only parsing).
Abbreviation IntentTime := N (only parsing).
Abbreviation Slot := N (only parsing).

Definition InvalidComponentTypeId : N := u16_max.
Definition InvalidComponentSlotId : handle := MkHandle 0 0 0.

Definition MaxBehaviours : N := 5000.
Definition MaxIntents : N := 5000.

(** [operator<=>]: by world, then slot, then generation. *)
Definition handle_le (a b : handle) : Prop :=
  handle_world a < handle_world b ∨
  handle_world a = handle_world b ∧
  (handle_slot a < handle_slot b ∨
   handle_slot a = handle_slot b ∧ handle_generation a <= handle_generation b).

#[export] Instance handle_le_dec : RelDecision handle_le.
Proof. intros a b. unfold handle_le. apply _. Defined.

#[export] Instance handle_le_total : Total handle_le.
Proof. intros a b. unfold handle_le. lia. Qed.

#[export] Instance handle_le_trans : Transitive handle_le.
Proof. intros a b c. unfold handle_le. lia. Qed.

(** The elements of a set, as iteration visits them. *)
Definition ordered (s : gset handle) : list handle := merge_sort handle_le (elements s).

Lemma ordered_elements s : ordered s ≡ₚ elements s.
Proof. apply merge_sort_Permutation. Qed.

Lemma elem_of_ordered s h : h ∈ ordered s ↔ h ∈ s.
Proof. by rewrite ordered_elements, elem_of_elements. Qed.

Lemma NoDup_ordered s : NoDup (ordered s).
Proof. rewrite ordered_elements. apply NoDup_elements. Qed.

(** ** Vectors of generations and slots *)

(** [v.at(i)] *)
Definition vector_at (v : list N) (i : N) : res N :=
  match v !! N.to_nat i with
  | Some x => Ok x
  | None => throw out_of_range "vector::at"
  end.

(** [v.at(i) = x] for an index that is present. *)
Definition vector_set (v : list N) (i x : N) : list N := <[N.to_nat i := x]> v.

Lemma vector_at_ok v i x : vector_at v i = Ok x ↔ v !! N.to_nat i = Some x.
Proof. unfold vector_at. destruct (v !! _); split; intros; simplify_eq; done. Qed.

Lemma vector_at_set_eq v i x y :
  vector_at v i = Ok y → vector_at (vector_set v i x) i = Ok x.
Proof.
  rewrite !vector_at_ok. intros H. apply list_lookup_insert_eq.
  by apply lookup_lt_Some in H.
Qed.

Lemma vector_at_set_ne v i j x :
  i ≠ j → vector_at (vector_set v i x) j = vector_at v j.
Proof.
  intros H. unfold vector_at, vector_set. by rewrite list_lookup_insert_ne by lia.
Qed.

Lemma length_vector_set v i x : length (vector_set v i x) = length v.
Proof. apply length_insert. Qed.

(** ** Intents *)

Inductive IntentLifetimeKind := Persistent | UntilTime.
#[export] Instance IntentLifetimeKind_eq_dec : EqDecision IntentLifetimeKind.
Proof. solve_decision. Defined.

Record IntentLifetime := MkIntentLifetime {
  lifetime_kind : IntentLifetimeKind;
  expiresAt : IntentTime
}.
#[export] Instance IntentLifetime_eq_dec : EqDecision IntentLifetime.
Proof. solve_decision. Defined.

Definition persistent : IntentLifetime := MkIntentLifetime Persistent 0.
Definition until_time (time : IntentTime) : IntentLifetime := MkIntentLifetime UntilTime time.

Inductive IntentPriority := Low | Medium | High.
#[export] Instance IntentPriority_eq_dec : EqDecision IntentPriority.
Proof. solve_decision. Defined.

(** [static_cast<int>(priority)] *)
Definition priority_value (p : IntentPriority) : N :=
  match p with Low => 55 | Medium => 155 | High => 255 end.

Record ComponentTarget := MkComponentTarget {
  target_type : ComponentTypeId;
  target_slot : ComponentSlotId
}.
#[export] Instance ComponentTarget_eq_dec : EqDecision ComponentTarget.
Proof. solve_decision. Defined.

Record Intent := MkIntent {
  intent_id : IntentId;
  intent_owner : BehaviorId;
  intent_target : ComponentTarget;
  intent_lifetime : IntentLifetime;
  intent_priority : IntentPriority;
  intent_sequence : N;
  intent_encoded : value;
  intent_name : string
}.
#[export] Instance Intent_eq_dec : EqDecision Intent.
Proof. solve_decision. Defined.
