(* ===== verification/Behaviors.v ===== *)
(** * The behaviour registry
    (include/liquid/detail/BehaviorRegistry.hpp, src/BehaviorRegistry.cpp)

    Allocates generational behaviour ids from a fixed pool of slots. *)
From S2P Require Import Prelude OrderedMap Values Ids.

(** [availableSlots] is the vector from its back: [back()] is the head. *)
Record BehaviorRegistry := MkBehaviorRegistry {
  worldId : N;
  active : gset BehaviorId;
  availableSlots : list N;
  generations : list N
}.

(** [std::iota(rbegin, rend, 0)]: slot 0 at the back. *)
Definition new_BehaviorRegistry (world : N) : BehaviorRegistry :=
  MkBehaviorRegistry world ∅ (N.of_nat <$> seq 0 (N.to_nat MaxBehaviours))
    (replicate (N.to_nat MaxBehaviours) 1).

Definition behavior_exists (b : BehaviorRegistry) (id : BehaviorId) : bool :=
  bool_decide (id ∈ active b).

Definition create_behavior : stm BehaviorRegistry BehaviorId := λ b,
  match availableSlots b with
  | [] => (throw runtime_error "all behavior ids are already in use", b)
  | slot :: rest =>
      let popped := MkBehaviorRegistry (worldId b) (active b) rest (generations b) in
      match vector_at (generations b) slot with
      | Err e => (Err e, popped)
      | Ok generation =>
          let behavior := MkHandle (worldId b) slot generation in
          if bool_decide (behavior ∈ active b)
          then (throw logic_error "behavior id already active", b)
          else (Ok behavior, MkBehaviorRegistry (worldId b) ({[behavior]} ∪ active b) rest
                               (generations b))
      end
  end.

Definition destroy_behavior (id : BehaviorId) : stm BehaviorRegistry unit := λ b,
  if negb (behavior_exists b id) then (throw runtime_error "behavior id not found", b)
  else
    let erased := MkBehaviorRegistry (worldId b) (active b ∖ {[id]}) (availableSlots b)
                    (generations b) in
    match vector_at (generations b) (handle_slot id) with
    | Err e => (Err e, erased)
    | Ok generation =>
        if generation =? u32_max then (Ok tt, erased)
        else (Ok tt, MkBehaviorRegistry (worldId b) (active b ∖ {[id]})
                (handle_slot id :: availableSlots b)
                (vector_set (generations b) (handle_slot id) (generation + 1)))
    end.

Definition behavior_count (b : BehaviorRegistry) : N := N.of_nat (size (active b)).

(** * Lemmas *)

(** The invariant.  Every slot is active, available, or retired for good; the
    ids handed out so far, [issued], are the active ones and ones whose
    generation has passed or whose slot is retired. *)
Definition spent (b : BehaviorRegistry) (id : BehaviorId) : Prop :=
  handle_world id = worldId b ∧ ∃ g, vector_at (generations b) (handle_slot id) = Ok g ∧
  (handle_generation id < g ∨
   handle_generation id = g ∧ handle_slot id ∉ availableSlots b).

Record behaviors_ok (b : BehaviorRegistry) : Prop := {
  ok_active id : id ∈ active b → handle_world id = worldId b ∧
    vector_at (generations b) (handle_slot id) = Ok (handle_generation id) ∧
    handle_slot id ∉ availableSlots b;
  ok_available_nodup : NoDup (availableSlots b);
  ok_available slot : slot ∈ availableSlots b → slot < MaxBehaviours;
  ok_generations : length (generations b) = N.to_nat MaxBehaviours;
  ok_generation slot g : vector_at (generations b) slot = Ok g → 1 <= g <= u32_max
}.

Lemma new_behaviors_ok world : behaviors_ok (new_BehaviorRegistry world).
Proof.
  split; cbn [active availableSlots generations new_BehaviorRegistry].
  - by intros id ?%elem_of_empty.
  - apply NoDup_fmap; [intros ???; lia|apply NoDup_seq].
  - intros slot (n & -> & Hn)%list_elem_of_fmap. apply elem_of_seq in Hn.
    unfold MaxBehaviours in *. lia.
  - apply length_replicate.
  - intros slot g. rewrite vector_at_ok. intros [-> _]%lookup_replicate. done.
Qed.

(** What the two operations do to a registry that satisfies it. *)
Lemma create_behavior_spec b :
  behaviors_ok b →
  match create_behavior b with
  | (Ok id, b') => behaviors_ok b' ∧ active b' = {[id]} ∪ active b ∧ (id ∉ active b) ∧
      (¬ spent b id) ∧ spent b' id ∧ (∀ x, spent b x → spent b' x)
  | (Err _, b') => b' = b ∧ availableSlots b = []
  end.
Proof.
  intros Hok. unfold create_behavior.
  destruct (availableSlots b) as [|slot rest] eqn:Ea; [done|].
  assert (slot < MaxBehaviours) as Hlt by (apply (ok_available b Hok); rewrite Ea; left).
  assert (∃ g, vector_at (generations b) slot = Ok g) as [g Hg].
  { destruct (lookup_lt_is_Some_2 (generations b) (N.to_nat slot)) as [g Hg].
    - rewrite (ok_generations b Hok). lia.
    - exists g. by apply vector_at_ok. }
  rewrite Hg. set (id := MkHandle (worldId b) slot g).
  assert (id ∉ active b) as Hnew.
  { intros Hin. destruct (ok_active b Hok id Hin) as (_ & _ & Hna). apply Hna.
    rewrite Ea. left. }
  rewrite bool_decide_eq_false_2 by done.
  pose proof (ok_available_nodup b Hok) as Hnd. rewrite Ea in Hnd.
  apply NoDup_cons in Hnd as [Hnot Hnd].
  split_and!; [|done|done| | |].
  - split; cbn.
    + intros x [->%elem_of_singleton|Hx]%elem_of_union; [by split_and!|].
      destruct (ok_active b Hok x Hx) as (? & ? & Hna). split_and!; try done.
      intros Hr. apply Hna. rewrite Ea. by right.
    + done.
    + intros x Hx. apply (ok_available b Hok). rewrite Ea. by right.
    + apply Hok.
    + apply (ok_generation b Hok).
  - intros (_ & g' & Hg' & [Hlt'|[_ Hna]]); cbn in *.
    + rewrite Hg in Hg'. injection Hg' as <-. lia.
    + apply Hna. rewrite Ea. left.
  - split; [done|]. exists g. split; [done|]. by right.
  - intros x (Hw & g' & Hg' & Hcase). split; [done|]. exists g'. split; [done|].
    destruct Hcase as [?|[? Hna]]; [by left|right]. split; [done|]. cbn.
    intros Hr. apply Hna. rewrite Ea. by right.
Qed.

Lemma destroy_behavior_spec b id :
  behaviors_ok b →
  match destroy_behavior id b with
  | (Ok _, b') => id ∈ active b ∧ behaviors_ok b' ∧ active b' = active b ∖ {[id]} ∧
      (∀ x, spent b x → spent b' x)
  | (Err _, b') => b' = b ∧ id ∉ active b
  end.
Proof.
  intros Hok. unfold destroy_behavior, behavior_exists.
  case_bool_decide as Hin; cbn [negb]; [|done].
  destruct (ok_active b Hok id Hin) as (Hw & Hg & Hna). rewrite Hg.
  pose proof (ok_generation b Hok _ _ Hg) as Hgb.
  destruct (N.eqb_spec (handle_generation id) u32_max) as [Hmax|Hmax]; (split; [done|]).
  - split_and!; [|done|done]. split; cbn; [|apply Hok..].
    intros x Hx. apply (ok_active b Hok). set_solver.
  - assert (∀ x g, spent b x → vector_at (vector_set (generations b) (handle_slot id)
        (handle_generation id + 1)) (handle_slot x) = Ok g → handle_slot x = handle_slot id →
      handle_generation x < g) as Hold.
    { intros x g (_ & g' & Hg' & Hcase) Hgx Heq.
      rewrite Heq, (vector_at_set_eq _ _ _ _ Hg) in Hgx. injection Hgx as <-.
      rewrite Heq, Hg in Hg'. injection Hg' as <-. lia. }
    split_and!; [|done|].
    + split; cbn.
      * intros x [Hx Hne]%elem_of_difference. rewrite elem_of_singleton in Hne.
        destruct (ok_active b Hok x Hx) as (Hwx & Hgx & Hnx).
        assert (handle_slot id ≠ handle_slot x) as Hslot.
        { intros Heq. apply Hne. destruct x, id; cbn in *; subst. congruence. }
        split_and!; [done|by rewrite vector_at_set_ne|].
        rewrite not_elem_of_cons. by split.
      * constructor; [done|apply Hok].
      * intros slot [->|Hs]%elem_of_cons; [|by apply (ok_available b Hok)].
        apply vector_at_ok, lookup_lt_Some in Hg. rewrite (ok_generations b Hok) in Hg. lia.
      * rewrite length_vector_set. apply Hok.
      * intros slot g. destruct (decide (handle_slot id = slot)) as [<-|Hne].
        -- rewrite (vector_at_set_eq _ _ _ _ Hg). intros [= <-]. lia.
        -- rewrite vector_at_set_ne by done. apply (ok_generation b Hok).
    + intros x Hx. pose proof Hx as (Hwx & g & Hgx & Hcase). split; [done|]. cbn.
      destruct (decide (handle_slot x = handle_slot id)) as [Heq|Hne].
      * eexists. rewrite Heq at 1. split; [by eapply vector_at_set_eq|]. left.
        eapply Hold; [exact Hx|by rewrite Heq; eapply vector_at_set_eq|done].
      * exists g. rewrite vector_at_set_ne by done. split; [done|].
        destruct Hcase as [?|[? Hna']]; [by left|right]. split; [done|].
        rewrite not_elem_of_cons. by split.
Qed.

(** ** Runs *)

Inductive behavior_op := CreateBehavior | DestroyBehavior (id : BehaviorId).

(** The registry after a run, and the ids it handed out, latest first. *)
Fixpoint run_behaviors (ops : list behavior_op) (b : BehaviorRegistry)
    (issued : list BehaviorId) : BehaviorRegistry * list BehaviorId :=
  match ops with
  | [] => (b, issued)
  | CreateBehavior :: ops =>
      match create_behavior b with
      | (Ok id, b) => run_behaviors ops b (id :: issued)
      | (Err _, b) => run_behaviors ops b issued
      end
  | DestroyBehavior id :: ops => run_behaviors ops (destroy_behavior id b).2 issued
  end.

(** What a run keeps: everything handed out is spent, and what is active was
    handed out. *)
Definition run_ok (b : BehaviorRegistry) (issued : list BehaviorId) : Prop :=
  behaviors_ok b ∧ NoDup issued ∧ (∀ x, x ∈ issued → spent b x) ∧
  (∀ x, x ∈ active b → x ∈ issued).

Lemma run_behaviors_ok ops b issued :
  run_ok b issued → let '(b', issued') := run_behaviors ops b issued in run_ok b' issued'.
Proof.
  revert b issued. induction ops as [|[|id] ops IH]; intros b issued Hrun; cbn; [done| |].
  - destruct Hrun as (Hok & Hnd & Hspent & Hact).
    pose proof (create_behavior_spec b Hok) as Hc.
    destruct (create_behavior b) as [[id|e] b'].
    + destruct Hc as (Hok' & Ha & _ & Hns & Hs & Hmono). apply IH. split_and!.
      * done.
      * constructor; [|done]. by intros ?%Hspent.
      * intros x [->|?]%elem_of_cons; [done|by auto].
      * intros x. rewrite Ha, elem_of_cons. set_solver.
    + destruct Hc as [-> _]. by apply IH.
  - apply IH. destruct Hrun as (Hok & Hnd & Hspent & Hact).
    pose proof (destroy_behavior_spec b id Hok) as Hd.
    destruct (destroy_behavior id b) as [[u|e] b']; cbn [snd].
    + destruct Hd as (_ & Hok' & Ha & Hmono). split_and!; [done|done|by auto|].
      intros x. rewrite Ha. set_solver.
    + by destruct Hd as [-> _].
Qed.

(** The active slots are pairwise different, so the pool bounds their number. *)
Lemma behaviors_bounded b : behaviors_ok b → behavior_count b <= MaxBehaviours.
Proof.
  intros Hok. unfold behavior_count.
  assert (size (active b) <= length (seq 0 (N.to_nat MaxBehaviours)))%nat as Hle;
    [|rewrite length_seq in Hle; lia].
  unfold size, set_size. cbn.
  rewrite <-(length_fmap (λ id, N.to_nat (handle_slot id)) (elements (active b))).
  apply submseteq_length, NoDup_submseteq.
  - apply NoDup_fmap_2_strong; [|apply NoDup_elements].
    intros x y Hx%elem_of_elements Hy%elem_of_elements Heq%N2Nat.inj.
    destruct (ok_active b Hok x Hx) as (Hwx & Hgx & _).
    destruct (ok_active b Hok y Hy) as (Hwy & Hgy & _).
    rewrite Heq, Hgy in Hgx. destruct x, y; cbn in *; subst. congruence.
  - intros n (id & -> & Hid)%list_elem_of_fmap. apply elem_of_elements in Hid.
    destruct (ok_active b Hok id Hid) as (_ & Hg & _).
    apply vector_at_ok, lookup_lt_Some in Hg. rewrite (ok_generations b Hok) in Hg.
    apply elem_of_seq. lia.
Qed.

(** * Properties *)

(** A behaviour id names one behaviour for good: in any run of a new
    registry, whatever is created and destroyed in between, no two creations
    return the same id; only ids that were created exist; and there are never
    more than [MaxBehaviours]. *)
Theorem behavior_ids_never_reused (world : N) (ops : list behavior_op) :
  let '(b, issued) := run_behaviors ops (new_BehaviorRegistry world) [] in
  NoDup issued ∧ (∀ id, behavior_exists b id = true → id ∈ issued) ∧
  behavior_count b <= MaxBehaviours.
Proof.
  pose proof (run_behaviors_ok ops (new_BehaviorRegistry world) []) as H.
  destruct run_behaviors as [b issued]. destruct H as (Hok & Hnd & _ & Hact).
  - split_and!; [apply new_behaviors_ok|apply NoDup_nil_2|..];
      intros x Hx; set_solver.
  - split_and!; [done| |by apply behaviors_bounded].
    intros id. unfold behavior_exists. rewrite bool_decide_eq_true. apply Hact.
Qed.
