(* ===== verification/Intents.v ===== *)
(** * The intent registry
    (include/liquid/detail/IntentRegistry.hpp, src/IntentRegistry.cpp,
     src/IntentExpiration.cpp)

    The live intents of a world: typed storages, five indexes kept in step with
    them, selection by priority and recency, and transactions that cancel and
    create intents and can be rolled back.

    A storage is shared between the registry and the transactions that
    snapshotted it, so storages are objects in [objects], referred to by
    address; addresses are not used again.  [C] stands for the component types
    of the host program; a storage remembers the C++ type it was made for,
    which [dynamic_pointer_cast] compares.  Enumerations hold no values outside
    their constructors, so the checks for such values have no counterpart.
    Memory exhaustion is left out, but not the [catch] blocks it shares with
    other exceptions. *)
From S2P Require Import Prelude OrderedMap Values Ids.

Section Intents.
Context {C : Type}.

(** [ComponentIntent<Component>] *)
Record component_intent := MkComponentIntent {
  base : Intent;
  component_value : C
}.

(** ** [class IntentStorage<Component>] *)
Record IntentStorage := MkIntentStorage {
  storage_class : N;
  storage_records : gmap IntentId component_intent
}.

Definition storage_add (rec : component_intent) (s : IntentStorage) : res IntentStorage :=
  match storage_records s !! intent_id (base rec) with
  | Some _ => throw logic_error "intent id already exists in typed storage"
  | None => Ok (MkIntentStorage (storage_class s)
                  (<[intent_id (base rec) := rec]> (storage_records s)))
  end.

Definition storage_destroy (id : IntentId) (s : IntentStorage) : IntentStorage :=
  MkIntentStorage (storage_class s) (delete id (storage_records s)).

Definition storage_intent (id : IntentId) (s : IntentStorage) : res component_intent :=
  match storage_records s !! id with
  | Some rec => Ok rec
  | None => throw runtime_error "intent id not found"
  end.

(** [extract]: the record taken out. *)
Definition storage_extract (id : IntentId) (s : IntentStorage)
  : res (component_intent * IntentStorage) :=
  rec ← storage_intent id s; Ok (rec, storage_destroy id s).

(** [restore]; [None] is [std::terminate]. *)
Definition storage_restore (rec : component_intent) (s : IntentStorage)
  : option IntentStorage :=
  match storage_records s !! intent_id (base rec) with
  | Some _ => None
  | None => Some (MkIntentStorage (storage_class s)
                    (<[intent_id (base rec) := rec]> (storage_records s)))
  end.

(** ** [class IntentRegistry] *)

Record IntentLifecycleRecord := MkLifecycle { created : bool; lifecycle_intent : Intent }.

(** The part of the registry a transaction snapshots.  [availableSlots] is the
    vector from its back. *)
Record Tables := MkTables {
  storages : gmap ComponentTypeId N;
  intentTypes : gmap IntentId ComponentTypeId;
  availableSlots : list N;
  generations : list N;
  nextSlot : N;
  lastSequence : N;
  byOwner : gmap BehaviorId (gset IntentId);
  byOwnerName : gmap BehaviorId (gmap string IntentId);
  byTarget : gmap ComponentTypeId (gmap ComponentSlotId (gset IntentId))
}.

Record IntentRegistry := MkIntentRegistry {
  registry_identity : N;
  worldId : N;
  tables : Tables;
  objects : gmap N IntentStorage;
  lifecycleRecords : list IntentLifecycleRecord;
  transactionActive : bool
}.

Definition set_tables t (r : IntentRegistry) : IntentRegistry :=
  MkIntentRegistry (registry_identity r) (worldId r) t (objects r) (lifecycleRecords r)
    (transactionActive r).
Definition set_objects o (r : IntentRegistry) : IntentRegistry :=
  MkIntentRegistry (registry_identity r) (worldId r) (tables r) o (lifecycleRecords r)
    (transactionActive r).
Definition set_lifecycle l (r : IntentRegistry) : IntentRegistry :=
  MkIntentRegistry (registry_identity r) (worldId r) (tables r) (objects r) l
    (transactionActive r).
Definition set_transaction b (r : IntentRegistry) : IntentRegistry :=
  MkIntentRegistry (registry_identity r) (worldId r) (tables r) (objects r)
    (lifecycleRecords r) b.

Definition set_storages x (t : Tables) : Tables :=
  MkTables x (intentTypes t) (availableSlots t) (generations t) (nextSlot t)
    (lastSequence t) (byOwner t) (byOwnerName t) (byTarget t).
Definition set_intentTypes x (t : Tables) : Tables :=
  MkTables (storages t) x (availableSlots t) (generations t) (nextSlot t)
    (lastSequence t) (byOwner t) (byOwnerName t) (byTarget t).
Definition set_slots av gen next (t : Tables) : Tables :=
  MkTables (storages t) (intentTypes t) av gen next
    (lastSequence t) (byOwner t) (byOwnerName t) (byTarget t).
Definition set_lastSequence x (t : Tables) : Tables :=
  MkTables (storages t) (intentTypes t) (availableSlots t) (generations t) (nextSlot t)
    x (byOwner t) (byOwnerName t) (byTarget t).
Definition set_byOwner x (t : Tables) : Tables :=
  MkTables (storages t) (intentTypes t) (availableSlots t) (generations t) (nextSlot t)
    (lastSequence t) x (byOwnerName t) (byTarget t).
Definition set_byOwnerName x (t : Tables) : Tables :=
  MkTables (storages t) (intentTypes t) (availableSlots t) (generations t) (nextSlot t)
    (lastSequence t) (byOwner t) x (byTarget t).
Definition set_byTarget x (t : Tables) : Tables :=
  MkTables (storages t) (intentTypes t) (availableSlots t) (generations t) (nextSlot t)
    (lastSequence t) (byOwner t) (byOwnerName t) x.

Definition modify_tables (f : Tables → Tables) : stm IntentRegistry unit :=
  smodify (λ r, set_tables (f (tables r)) r).

Definition new_IntentRegistry (identity world : N) : IntentRegistry :=
  MkIntentRegistry identity world
    (MkTables ∅ ∅ [] (replicate (S (N.to_nat MaxIntents)) 1) 1 0 ∅ ∅ ∅) ∅ [] false.

Definition ensure_no_active_transaction : stm IntentRegistry unit := λ r,
  sreject_if (transactionActive r) logic_error
    "ordinary intent mutation is forbidden during a transaction" r.

Definition maximumBufferedLifecycleRecords : N := 1000000.

Definition push_lifecycle (was_created : bool) (i : Intent) : stm IntentRegistry unit := λ r,
  (sreject_if (maximumBufferedLifecycleRecords <=? len (lifecycleRecords r)) length_error
    "intent lifecycle evidence capacity exceeded";;
   smodify (set_lifecycle (lifecycleRecords r ++ [MkLifecycle was_created i]))) r.

(** ** Identifiers and sequences *)

(** [release_intent_id]: for an id whose creation failed. *)
Definition release_intent_id (id : IntentId) (t : Tables) : Tables :=
  if handle_slot id + 1 =? nextSlot t
  then set_slots (availableSlots t) (generations t) (nextSlot t - 1) t
  else set_slots (handle_slot id :: availableSlots t) (generations t) (nextSlot t) t.

(** [retire_intent_id]: for an id that was live. *)
Definition retire_intent_id (id : IntentId) : stm IntentRegistry unit :=
  r ← sget;
  generation ← slift (vector_at (generations (tables r)) (handle_slot id));
  if generation =? u32_max then mret tt
  else modify_tables (λ t, set_slots (handle_slot id :: availableSlots t)
         (vector_set (generations t) (handle_slot id) (generation + 1)) (nextSlot t) t).

(** [nextSlot] only passes [MaxIntents] once slots have been retired after
    2^32 - 1 uses each; the model does not wrap it at 2^32. *)
Definition next_intent_id : stm IntentRegistry IntentId :=
  r ← sget;
  let t := tables r in
  sreject_if ((MaxIntents <=? N.of_nat (size (intentTypes t))) &&
              bool_decide (availableSlots t = [])) runtime_error
    "all the intents are already in use";;
  match availableSlots t with
  | slot :: rest =>
      modify_tables (set_slots rest (generations t) (nextSlot t));;
      generation ← slift (vector_at (generations t) slot);
      mret (MkHandle (worldId r) slot generation)
  | [] =>
      modify_tables (set_slots [] (generations t) (nextSlot t + 1));;
      generation ← slift (vector_at (generations t) (nextSlot t));
      mret (MkHandle (worldId r) (nextSlot t) generation)
  end.

Definition next_intent_sequence : stm IntentRegistry N :=
  r ← sget;
  sreject_if (lastSequence (tables r) =? u64_max) overflow_error
    "intent sequence exhausted";;
  modify_tables (set_lastSequence (lastSequence (tables r) + 1));;
  mret (lastSequence (tables r) + 1).

Definition validate_metadata (lifetime : IntentLifetime) : res unit :=
  reject_if (bool_decide (lifetime_kind lifetime = Persistent) &&
             negb (expiresAt lifetime =? 0)) invalid_argument
    "persistent intent lifetime must not expire".

(** ** Storages *)

(** [storage_for<Component>(type)] (the mutable overload): its address; a
    storage is made on first use. *)
Definition storage_for_type (type class : N) : stm IntentRegistry N :=
  sreject_if (type =? InvalidComponentTypeId) runtime_error "invalid component type id";;
  r ← sget;
  match storages (tables r) !! type with
  | None =>
      let address := fresh (dom (objects r)) in
      smodify (set_objects (<[address := MkIntentStorage class ∅]> (objects r)));;
      modify_tables (set_storages (<[type := address]> (storages (tables r))));;
      mret address
  | Some address =>
      match objects r !! address with
      | Some s =>
          sreject_if (negb (storage_class s =? class)) runtime_error
            "intent storage type mismatch";;
          mret address
      | None => sthrow runtime_error "intent storage type mismatch"
      end
  end.

(** [intent(id)] through [storage_for(id)]: the record with its value. *)
Definition find_intent (id : IntentId) (r : IntentRegistry) : res component_intent :=
  match intentTypes (tables r) !! id with
  | None => throw runtime_error "intent id not found"
  | Some type =>
      match storages (tables r) !! type ≫= λ address, objects r !! address with
      | None => throw runtime_error "intent storage type not found"
      | Some s => storage_intent id s
      end
  end.

Definition intent (id : IntentId) (r : IntentRegistry) : res Intent :=
  base <$> find_intent id r.

(** [storages.at(type)->...]: changes the storage of a type. *)
Definition modify_storage (type : ComponentTypeId) (f : IntentStorage → IntentStorage)
  : stm IntentRegistry unit :=
  r ← sget;
  match storages (tables r) !! type with
  | None => sthrow out_of_range "map::at"
  | Some address => smodify (set_objects (alter f address (objects r)))
  end.

Definition typed_intent (type class : N) (id : IntentId) (r : IntentRegistry)
  : res component_intent :=
  match intentTypes (tables r) !! id with
  | None => throw runtime_error "intent id not found"
  | Some found =>
      reject_if (negb (found =? type)) runtime_error "intent component type mismatch";;
      match storages (tables r) !! type with
      | None => throw runtime_error "intent storage type not found"
      | Some address =>
          match objects r !! address with
          | Some s =>
              reject_if (negb (storage_class s =? class)) runtime_error
                "intent storage type mismatch";;
              storage_intent id s
          | None => throw runtime_error "intent storage type mismatch"
          end
      end
  end.

(** ** Indexes *)

(** Erase from [byTarget], dropping what became empty. *)
Definition erase_target (target : ComponentTarget) (id : IntentId)
    (index : gmap ComponentTypeId (gmap ComponentSlotId (gset IntentId)))
  : gmap ComponentTypeId (gmap ComponentSlotId (gset IntentId)) :=
  match index !! target_type target with
  | None => index
  | Some slots =>
      match slots !! target_slot target with
      | None => index
      | Some ids =>
          let ids := ids ∖ {[id]} in
          let slots := if bool_decide (ids = ∅) then delete (target_slot target) slots
                       else <[target_slot target := ids]> slots in
          if bool_decide (slots = ∅) then delete (target_type target) index
          else <[target_type target := slots]> index
      end
  end.

Definition erase_from_indexes (i : Intent) (t : Tables) : Tables :=
  let t := set_byOwner (alter (λ ids, ids ∖ {[intent_id i]}) (intent_owner i) (byOwner t)) t in
  let t := if bool_decide (intent_name i = "") then t
           else set_byOwnerName
                  (alter (delete (intent_name i)) (intent_owner i) (byOwnerName t)) t in
  set_byTarget (erase_target (intent_target i) (intent_id i) (byTarget t)) t.

(** [byTarget[type][slot].emplace(id)]: the index, and whether [id] was new. *)
Definition insert_target (target : ComponentTarget) (id : IntentId)
    (index : gmap ComponentTypeId (gmap ComponentSlotId (gset IntentId)))
  : gmap ComponentTypeId (gmap ComponentSlotId (gset IntentId)) * bool :=
  let slots := default ∅ (index !! target_type target) in
  let ids := default ∅ (slots !! target_slot target) in
  (<[target_type target := <[target_slot target := {[id]} ∪ ids]> slots]> index,
   negb (bool_decide (id ∈ ids))).

(** ** Creation *)

(** The flags of [create_impl]'s [try] block. *)
Record create_flags := MkCreateFlags {
  storageAdded : bool;
  typeIndexed : bool;
  ownerIndexed : bool
}.

Definition with_registry {A} (m : stm IntentRegistry A)
  : stm (IntentRegistry * create_flags) A := λ s,
  let '(x, r) := m s.1 in (x, (r, s.2)).
Definition set_flags f : stm (IntentRegistry * create_flags) unit :=
  smodify (λ s, (s.1, f)).

(** The [try] block. *)
Definition index_intent (address : N) (rec : component_intent)
  : stm (IntentRegistry * create_flags) IntentId :=
  let i := base rec in
  let id := intent_id i in
  let type := target_type (intent_target i) in
  s ← sget;
  match objects s.1 !! address with
  | None => sthrow logic_error "dangling storage"
  | Some storage =>
      storage ← slift (storage_add rec storage);
      with_registry (smodify (set_objects (<[address := storage]> (objects s.1))));;
      set_flags (MkCreateFlags true false false)
  end;;
  s ← sget;
  sreject_if (bool_decide (is_Some (intentTypes (tables s.1) !! id))) logic_error
    "intent id already indexed";;
  with_registry (modify_tables (λ t, set_intentTypes (<[id := type]> (intentTypes t)) t));;
  set_flags (MkCreateFlags true true false);;
  match byOwner (tables s.1) !! intent_owner i with
  | None => sthrow out_of_range "map::at"
  | Some ids =>
      sreject_if (bool_decide (id ∈ ids)) logic_error
        "intent id already indexed by owner";;
      with_registry (modify_tables (λ t,
        set_byOwner (<[intent_owner i := {[id]} ∪ ids]> (byOwner t)) t))
  end;;
  set_flags (MkCreateFlags true true true);;
  (if bool_decide (intent_name i = "") then mret tt
   else match byOwnerName (tables s.1) !! intent_owner i with
        | None => sthrow out_of_range "map::at"
        | Some names =>
            with_registry (modify_tables (λ t, set_byOwnerName
              (<[intent_owner i := match names !! intent_name i with
                                   | Some _ => names
                                   | None => <[intent_name i := id]> names
                                   end]> (byOwnerName t)) t))
        end);;
  let inserted := insert_target (intent_target i) id (byTarget (tables s.1)) in
  with_registry (modify_tables (set_byTarget inserted.1));;
  sreject_if (negb inserted.2) logic_error "intent id already indexed by target";;
  with_registry (push_lifecycle true i);;
  mret id.

(** [create_impl]'s own erase from [byTarget]: a type without slots goes even if
    it did not list [slot]. *)
Definition undo_target (target : ComponentTarget) (id : IntentId)
    (index : gmap ComponentTypeId (gmap ComponentSlotId (gset IntentId)))
  : gmap ComponentTypeId (gmap ComponentSlotId (gset IntentId)) :=
  match index !! target_type target with
  | None => index
  | Some slots =>
      let slots := match slots !! target_slot target with
                   | None => slots
                   | Some ids =>
                       let ids := ids ∖ {[id]} in
                       if bool_decide (ids = ∅) then delete (target_slot target) slots
                       else <[target_slot target := ids]> slots
                   end in
      if bool_decide (slots = ∅) then delete (target_type target) index
      else <[target_type target := slots]> index
  end.

(** The [catch] block, up to [throw;]. *)
Definition undo_create (address : N) (i : Intent) (flags : create_flags)
    (r : IntentRegistry) : IntentRegistry :=
  let id := intent_id i in
  let t := tables r in
  let t := set_byTarget (undo_target (intent_target i) id (byTarget t)) t in
  let t := if ownerIndexed flags
           then set_byOwner (alter (λ ids, ids ∖ {[id]}) (intent_owner i) (byOwner t)) t
           else t in
  let t := if bool_decide (intent_name i = "") then t
           else set_byOwnerName
                  (alter (delete (intent_name i)) (intent_owner i) (byOwnerName t)) t in
  let t := if typeIndexed flags then set_intentTypes (delete id (intentTypes t)) t else t in
  let o := if storageAdded flags then alter (storage_destroy id) address (objects r)
           else objects r in
  set_objects o (set_tables (release_intent_id id t) r).

(** [try { ... } catch (...) { ...; throw; }] *)
Definition index_or_undo (address : N) (rec : component_intent)
  : stm IntentRegistry IntentId := λ r,
  match index_intent address rec (r, MkCreateFlags false false false) with
  | (Ok id, (r, _)) => (Ok id, r)
  | (Err e, (r, flags)) => (Err e, undo_create address (base rec) flags r)
  end.

(** [create_impl<Component>]; [class] is the C++ type [Component]. *)
Definition create_impl (owner : BehaviorId) (type class : N) (slot : ComponentSlotId)
    (lifetime : IntentLifetime) (v : C) (priority : IntentPriority) (encoded : value)
    (name : string) : stm IntentRegistry IntentId :=
  r ← sget;
  sreject_if (negb (bool_decide (is_Some (byOwner (tables r) !! owner)))) runtime_error
    "behavior intent pool not found";;
  sreject_if (type =? InvalidComponentTypeId) runtime_error "invalid component type id";;
  sreject_if (bool_decide (slot = InvalidComponentSlotId)) runtime_error
    "invalid component slot id";;
  slift (validate_metadata lifetime);;
  sreject_if (128 <? slen name) invalid_argument "intent name exceeds 128 bytes";;
  (if bool_decide (name = "") then mret tt
   else match byOwnerName (tables r) !! owner with
        | None => sthrow out_of_range "map::at"
        | Some names =>
            sreject_if (bool_decide (is_Some (names !! name))) invalid_argument
              "intent name is already live for this behavior"
        end);;
  address ← storage_for_type type class;
  id ← next_intent_id;
  sequence ← next_intent_sequence;
  let i := MkIntent id owner (MkComponentTarget type slot) lifetime priority sequence
             encoded name in
  index_or_undo address (MkComponentIntent i v).

(** [create] outside a transaction. *)
Definition create owner type class slot lifetime v priority encoded name
  : stm IntentRegistry IntentId :=
  ensure_no_active_transaction;;
  create_impl owner type class slot lifetime v priority encoded name.

(** ** Destruction *)

Definition destroy (id : IntentId) : stm IntentRegistry unit :=
  ensure_no_active_transaction;;
  r ← sget;
  removed ← slift (intent id r);
  type ← slift (match intentTypes (tables r) !! id with
                | Some type => Ok type
                | None => throw out_of_range "map::at"
                end);
  push_lifecycle false removed;;
  modify_tables (erase_from_indexes removed);;
  modify_storage type (storage_destroy id);;
  modify_tables (λ t, set_intentTypes (delete id (intentTypes t)) t);;
  retire_intent_id id.

Definition destroy_owned_by (owner : BehaviorId) : stm IntentRegistry unit :=
  ensure_no_active_transaction;;
  r ← sget;
  match byOwner (tables r) !! owner with
  | None => mret tt
  | Some owned =>
      sfor destroy (ordered owned);;
      modify_tables (λ t, set_byOwner (delete owner (byOwner t)) t)
  end.

Definition create_behavior_pool (owner : BehaviorId) : stm IntentRegistry unit :=
  destroy_owned_by owner;;
  modify_tables (λ t,
    let t := set_byOwner (<[owner := default ∅ (byOwner t !! owner)]> (byOwner t)) t in
    set_byOwnerName (<[owner := default ∅ (byOwnerName t !! owner)]> (byOwnerName t)) t).

Definition clear_lifecycle_records : stm IntentRegistry unit :=
  ensure_no_active_transaction;; smodify (set_lifecycle []).

(** ** Queries *)

Definition intent_exists (id : IntentId) (r : IntentRegistry) : bool :=
  bool_decide (is_Some (intentTypes (tables r) !! id)).
Definition owner_of (id : IntentId) (r : IntentRegistry) : res BehaviorId :=
  intent_owner <$> intent id r.
Definition target_of (id : IntentId) (r : IntentRegistry) : res ComponentTarget :=
  intent_target <$> intent id r.
Definition lifetime_of (id : IntentId) (r : IntentRegistry) : res IntentLifetime :=
  intent_lifetime <$> intent id r.

Definition live_intent_ids (r : IntentRegistry) : list IntentId :=
  ordered (dom (intentTypes (tables r))).
Definition intents_owned_by (owner : BehaviorId) (r : IntentRegistry) : list IntentId :=
  match byOwner (tables r) !! owner with Some ids => ordered ids | None => [] end.
Definition intent_named (owner : BehaviorId) (name : string) (r : IntentRegistry)
  : option IntentId := byOwnerName (tables r) !! owner ≫= λ names, names !! name.
Definition intents_for (type : ComponentTypeId) (slot : ComponentSlotId)
    (r : IntentRegistry) : list IntentId :=
  match byTarget (tables r) !! type ≫= λ slots, slots !! slot with
  | Some ids => ordered ids
  | None => []
  end.
Definition owned_count (owner : BehaviorId) (r : IntentRegistry) : N :=
  match byOwner (tables r) !! owner with Some ids => N.of_nat (size ids) | None => 0 end.
Definition intent_count (r : IntentRegistry) : N := N.of_nat (size (intentTypes (tables r))).

(** ** Selection *)

(** The condition under which a candidate replaces the selection so far. *)
Definition beats (candidate : Intent) (selected : option Intent) : bool :=
  match selected with
  | None => true
  | Some s =>
      (priority_value (intent_priority s) <? priority_value (intent_priority candidate)) ||
      (bool_decide (intent_priority candidate = intent_priority s) &&
       (intent_sequence s <? intent_sequence candidate))
  end.

(** The loop over the intents of one slot. *)
Definition select_slot (ids : gset IntentId) (r : IntentRegistry)
  : res (option Intent) :=
  rfold (λ selected id,
    candidate ← intent id r;
    Ok (if beats candidate selected then Some candidate else selected))
    (ordered ids) None.

(** [components] is the map in key order. *)
Definition select (type : ComponentTypeId) (components : list (string * ComponentSlotId))
    (r : IntentRegistry) : res (list (string * IntentId)) :=
  rfold (λ chosen component,
    match byTarget (tables r) !! type with
    | None => Ok chosen
    | Some slots =>
        match slots !! component.2 with
        | None => Ok chosen
        | Some ids =>
            winner ← select_slot ids r;
            Ok (match winner with
                | Some i => (sm_emplace component.1 (intent_id i) chosen).1
                | None => chosen
                end)
        end
    end) components [].

(** [lifetime_is_expired] *)
Definition lifetime_is_expired (lifetime : IntentLifetime) (now : IntentTime) : bool :=
  match lifetime_kind lifetime with
  | Persistent => false
  | UntilTime => expiresAt lifetime <=? now
  end.

(** [expired_intent_ids], also the first loop of [resolve]. *)
Definition expired_intent_ids (now : IntentTime) (r : IntentRegistry)
  : res (list IntentId) :=
  rfold (λ expired id,
    lifetime ← lifetime_of id r;
    Ok (if lifetime_is_expired lifetime now then expired ++ [id] else expired))
    (live_intent_ids r) [].

Definition destroy_expired_intents (now : IntentTime) : stm IntentRegistry N :=
  r ← sget;
  expired ← slift (expired_intent_ids now r);
  sfor destroy expired;;
  mret (len expired).

Definition resolve (type : ComponentTypeId) (components : list (string * ComponentSlotId))
    (now : IntentTime) : stm IntentRegistry (list (string * IntentId)) :=
  ensure_no_active_transaction;;
  r ← sget;
  expired ← slift (expired_intent_ids now r);
  sfor destroy expired;;
  r ← sget;
  slift (select type components r).

(** ** Transactions *)

(** [class Transaction]; [cancelled] holds the extracted nodes with the storage
    each came from. *)
Record Transaction := MkTransaction {
  transaction_registry : N;
  snapshot : Tables;
  lifecycleRecordCount : N;
  cancelled : list (N * component_intent);
  transaction_live : bool
}.

Definition begin_transaction : stm IntentRegistry Transaction :=
  r ← sget;
  sreject_if (transactionActive r) logic_error "intent transaction is already active";;
  smodify (set_transaction true);;
  mret (MkTransaction (registry_identity r) (tables r) (len (lifecycleRecords r)) [] true).

(** The registry together with the transaction at hand. *)
Definition transaction_open (s : IntentRegistry * Transaction) : bool :=
  (transaction_registry s.2 =? registry_identity s.1) && transaction_live s.2 &&
  transactionActive s.1.

Definition require_open : stm (IntentRegistry * Transaction) unit := λ s,
  sreject_if (negb (transaction_open s)) logic_error
    "intent transaction is not active" s.

Definition on_registry {A} (m : stm IntentRegistry A)
  : stm (IntentRegistry * Transaction) A := λ s,
  let '(x, r) := m s.1 in (x, (r, s.2)).

Definition create_in_transaction owner type class slot lifetime v priority encoded name
  : stm (IntentRegistry * Transaction) IntentId :=
  require_open;;
  on_registry (create_impl owner type class slot lifetime v priority encoded name).

Definition push_cancelled (address : N) (rec : component_intent) (t : Transaction)
  : Transaction :=
  MkTransaction (transaction_registry t) (snapshot t) (lifecycleRecordCount t)
    (cancelled t ++ [(address, rec)]) (transaction_live t).

Definition cancel (id : IntentId) : stm (IntentRegistry * Transaction) unit :=
  require_open;;
  s ← sget;
  let r := s.1 in
  removed ← slift (intent id r);
  type ← slift (match intentTypes (tables r) !! id with
                | Some type => Ok type
                | None => throw out_of_range "map::at"
                end);
  on_registry (push_lifecycle false removed);;
  address ← slift (match storages (tables r) !! type with
                   | Some address => Ok address
                   | None => throw out_of_range "map::at"
                   end);
  storage ← slift (match objects r !! address with
                   | Some storage => Ok storage
                   | None => throw out_of_range "map::at"
                   end);
  node ← slift (storage_extract id storage);
  on_registry (smodify (λ r, set_objects (<[address := node.2]> (objects r)) r));;
  smodify (λ s, (s.1, push_cancelled address node.1 s.2));;
  on_registry (modify_tables (erase_from_indexes removed);;
               modify_tables (λ t, set_intentTypes (delete id (intentTypes t)) t);;
               retire_intent_id id).

Definition close_transaction (t : Transaction) (nodes : list (N * component_intent))
  : Transaction :=
  MkTransaction (transaction_registry t) (snapshot t) (lifecycleRecordCount t) nodes false.

Definition commit : stm (IntentRegistry * Transaction) unit :=
  require_open;;
  smodify (λ s, (set_transaction false s.1, close_transaction s.2 [])).

(** The first loop of [rollback]: the intents that were created since. *)
Definition destroy_created (t : Transaction) (r : IntentRegistry) : option IntentRegistry :=
  foldr (λ id acc, r ← acc;
    if bool_decide (is_Some (intentTypes (snapshot t) !! id)) then Some r
    else type ← intentTypes (tables r) !! id;
         address ← storages (tables r) !! type;
         Some (set_objects (alter (storage_destroy id) address (objects r)) r))
    (Some r) (elements (dom (intentTypes (tables r)))).

(** The second loop: the cancelled intents return to their storages. *)
Fixpoint restore_cancelled (nodes : list (N * component_intent)) (o : gmap N IntentStorage)
  : option (gmap N IntentStorage) :=
  match nodes with
  | [] => Some o
  | (address, rec) :: nodes =>
      s ← o !! address;
      s ← storage_restore rec s;
      restore_cancelled nodes (<[address := s]> o)
  end.

(** [rollback]; [None] is [std::terminate]. *)
Definition rollback (s : IntentRegistry * Transaction)
  : option (IntentRegistry * Transaction) :=
  let '(r, t) := s in
  if negb (transaction_open s) then None
  else
    r ← destroy_created t r;
    o ← restore_cancelled (cancelled t) (objects r);
    Some (MkIntentRegistry (registry_identity r) (worldId r) (snapshot t) o
            (take (N.to_nat (lifecycleRecordCount t)) (lifecycleRecords r)) false,
          close_transaction t []).

(** [~Transaction] *)
Definition destroy_transaction (s : IntentRegistry * Transaction)
  : option (IntentRegistry * Transaction) :=
  if transaction_live s.2 then rollback s else Some s.
End Intents.
