(* ===== verification/IntentSpec.v ===== *)
(** * The intent registry against its specification

    Abstractly the registry is a finite map from ids to intents.  [indexes_ok]
    says that the storages and the five indexes are functions of that map,
    [slots_ok] that ids are allocated from generational slots without clashes;
    every operation acts on the map as its specification says.  Each
    operation of [Intents] has its specification here; [IntentRuns] composes
    them and [IntentTransactions] adds rollback. *)
From S2P Require Import Prelude OrderedMap Values Ids Intents.

Lemma alter_lookup {K A} `{Countable K} (f : A → A) k x (m : gmap K A) :
  m !! k = Some x → alter f k m = <[k := f x]> m.
Proof.
  intros Hx. apply map_eq. intros j. destruct (decide (j = k)) as [->|Hne].
  - by rewrite lookup_alter_eq, lookup_insert_eq, Hx.
  - by rewrite lookup_alter_ne, lookup_insert_ne.
Qed.

Section Spec.
Context {C : Type}.
Implicit Types (L : gmap handle (@component_intent C)) (rec : @component_intent C).

(** ** The target index *)

Definition target_ids (index : gmap N (gmap handle (gset handle)))
    (tgt : ComponentTarget) : gset handle :=
  default ∅ (index !! target_type tgt ≫= λ slots, slots !! target_slot tgt).

(** No empty entries: what [select] and [intents_for] iterate is not empty. *)
Definition no_empty (index : gmap N (gmap handle (gset handle))) : Prop :=
  map_Forall (λ _ slots, slots ≠ ∅ ∧ map_Forall (λ _ ids, ids ≠ ∅) slots) index.

Lemma target_eq (a b : ComponentTarget) :
  target_type a = target_type b → target_slot a = target_slot b → a = b.
Proof. destruct a, b; cbn; congruence. Qed.

Lemma target_ids_erase tgt id index tgt' :
  target_ids (erase_target tgt id index) tgt' =
  if decide (tgt' = tgt) then target_ids index tgt ∖ {[id]} else target_ids index tgt'.
Proof.
  unfold target_ids, erase_target.
  destruct (index !! target_type tgt) as [slots|] eqn:Es.
  2:{ case_decide as H; [|done]. subst. rewrite Es. cbn. set_solver. }
  destruct (slots !! target_slot tgt) as [ids|] eqn:Ei.
  2:{ case_decide as H; [|done]. subst. rewrite Es. cbn. rewrite Ei. cbn. set_solver. }
  set (slots' := if bool_decide (ids ∖ {[id]} = ∅) then _ else _).
  assert (∀ s, slots' !! s = if decide (s = target_slot tgt)
    then (if bool_decide (ids ∖ {[id]} = ∅) then None else Some (ids ∖ {[id]}))
    else slots !! s) as Hslots.
  { intros s. unfold slots'. destruct (decide (s = target_slot tgt)) as [->|H];
      case_bool_decide; rewrite ?lookup_delete_eq, ?lookup_insert_eq,
        ?lookup_delete_ne, ?lookup_insert_ne by done; done. }
  clearbody slots'.
  assert (∀ ty, (if bool_decide (slots' = ∅) then delete (target_type tgt) index
                 else <[target_type tgt := slots']> index) !! ty ≫=
    (λ m, m !! target_slot tgt') =
    if decide (ty = target_type tgt) then slots' !! target_slot tgt'
    else index !! ty ≫= (λ m, m !! target_slot tgt')) as Hix.
  { intros ty. destruct (decide (ty = target_type tgt)) as [->|H].
    - destruct (bool_decide_reflect (slots' = ∅)) as [He|He]; [|by rewrite lookup_insert_eq].
      by rewrite lookup_delete_eq, He, lookup_empty.
    - destruct (bool_decide_reflect (slots' = ∅));
        by rewrite ?lookup_delete_ne, ?lookup_insert_ne by done. }
  rewrite Hix. destruct (decide (target_type tgt' = target_type tgt)) as [Ht|Ht].
  - rewrite Hslots. destruct (decide (target_slot tgt' = target_slot tgt)) as [Hs|Hs].
    + rewrite decide_True by by apply target_eq. rewrite ?Es. cbn. rewrite Ei. cbn.
      destruct (bool_decide_reflect (ids ∖ {[id]} = ∅)) as [He|He]; cbn; [by rewrite He|done].
    + rewrite decide_False by congruence. by rewrite Ht, Es.
  - by rewrite decide_False by congruence.
Qed.

Lemma no_empty_erase tgt id index : no_empty index → no_empty (erase_target tgt id index).
Proof.
  intros Hne. unfold erase_target.
  destruct (index !! target_type tgt) as [slots|] eqn:Es; [|done].
  destruct (slots !! target_slot tgt) as [ids|] eqn:Ei; [|done].
  destruct (Hne _ _ Es) as [_ Hslots].
  set (slots' := if bool_decide (ids ∖ {[id]} = ∅) then _ else _).
  assert (map_Forall (λ _ x, x ≠ ∅) slots') as Hslots'.
  { unfold slots'. case_bool_decide.
    - by apply map_Forall_delete.
    - by apply map_Forall_insert_2. }
  case_bool_decide; [by apply map_Forall_delete|by apply map_Forall_insert_2].
Qed.

Lemma undo_target_eq tgt id index :
  no_empty index → undo_target tgt id index = erase_target tgt id index.
Proof.
  intros Hne. unfold undo_target, erase_target.
  destruct (index !! target_type tgt) as [slots|] eqn:Es; [|done].
  destruct (slots !! target_slot tgt) as [ids|]; [done|].
  destruct (Hne _ _ Es) as [Hslots _]. rewrite bool_decide_false by done.
  by apply insert_id.
Qed.

Lemma target_ids_insert tgt id index tgt' :
  target_ids (insert_target tgt id index).1 tgt' =
  if decide (tgt' = tgt) then {[id]} ∪ target_ids index tgt else target_ids index tgt'.
Proof.
  unfold target_ids, insert_target. cbn.
  destruct (decide (target_type tgt' = target_type tgt)) as [Ht|Ht].
  - rewrite Ht, lookup_insert_eq. cbn.
    destruct (decide (target_slot tgt' = target_slot tgt)) as [Hs|Hs].
    + rewrite decide_True by by apply target_eq. rewrite Hs, lookup_insert_eq. cbn.
      destruct (index !! target_type tgt); cbn; [done|by rewrite lookup_empty].
    + rewrite decide_False by congruence. rewrite lookup_insert_ne by done.
      destruct (index !! target_type tgt); cbn; [done|by rewrite lookup_empty].
  - rewrite decide_False by congruence. by rewrite lookup_insert_ne by done.
Qed.

Lemma insert_target_new tgt id index :
  (insert_target tgt id index).2 = negb (bool_decide (id ∈ target_ids index tgt)).
Proof.
  unfold insert_target, target_ids. cbn.
  destruct (index !! target_type tgt); cbn; [done|]. by rewrite lookup_empty.
Qed.

Lemma no_empty_insert tgt id index :
  no_empty index → no_empty (insert_target tgt id index).1.
Proof.
  intros Hne. unfold insert_target. cbn. apply map_Forall_insert_2; [|done]. split.
  - apply insert_non_empty.
  - apply map_Forall_insert_2; [set_solver|].
    destruct (index !! target_type tgt) as [slots|] eqn:Es; cbn.
    + by destruct (Hne _ _ Es).
    + apply map_Forall_empty.
Qed.

(** ** The indexes as functions of the live intents *)

Definition of_type (type : N) L : gmap handle (@component_intent C) :=
  filter (λ p, target_type (intent_target (base p.2)) = type) L.

(** Every storage holds exactly the live intents of its type. *)
Definition storages_hold (t : Tables) (o : gmap N IntentStorage) L : Prop :=
  ∀ type address, storages t !! type = Some address →
    ∃ s, o !! address = Some s ∧ storage_records s = of_type type L.

Record indexes_ok (t : Tables) (o : gmap N IntentStorage) L : Prop := {
  ix_id id rec : L !! id = Some rec → intent_id (base rec) = id;
  ix_types : intentTypes t = (λ rec, target_type (intent_target (base rec))) <$> L;
  ix_hold : storages_hold t o L;
  ix_storage id rec : L !! id = Some rec →
    is_Some (storages t !! target_type (intent_target (base rec)));
  ix_inj type type' address : storages t !! type = Some address →
    storages t !! type' = Some address → type = type';
  ix_owner owner ids : byOwner t !! owner = Some ids →
    ∀ id, id ∈ ids ↔ ∃ rec, L !! id = Some rec ∧ intent_owner (base rec) = owner;
  ix_pool id rec : L !! id = Some rec → is_Some (byOwner t !! intent_owner (base rec));
  ix_name owner names : byOwnerName t !! owner = Some names →
    ∀ name id, names !! name = Some id ↔
      name ≠ "" ∧ ∃ rec, L !! id = Some rec ∧ intent_owner (base rec) = owner ∧
                         intent_name (base rec) = name;
  ix_name_pool owner : is_Some (byOwner t !! owner) → is_Some (byOwnerName t !! owner);
  ix_target tgt id : id ∈ target_ids (byTarget t) tgt ↔
    ∃ rec, L !! id = Some rec ∧ intent_target (base rec) = tgt;
  ix_no_empty : no_empty (byTarget t);
  ix_sequence id rec : L !! id = Some rec → 1 <= intent_sequence (base rec) <= lastSequence t;
  ix_sequence_inj id id' rec rec' : L !! id = Some rec → L !! id' = Some rec' →
    intent_sequence (base rec) = intent_sequence (base rec') → id = id'
}.

Lemma of_type_delete type id L : of_type type (delete id L) = delete id (of_type type L).
Proof. apply map_filter_delete. Qed.

Lemma of_type_insert type id rec L :
  L !! id = None →
  of_type type (<[id := rec]> L) =
  if decide (target_type (intent_target (base rec)) = type) then <[id := rec]> (of_type type L)
  else of_type type L.
Proof.
  intros Hnone. unfold of_type. case_decide as H.
  - by rewrite map_filter_insert_True.
  - rewrite map_filter_insert_not'; [done|done|]. intros y Hy. congruence.
Qed.

Lemma of_type_lookup_None type id L : L !! id = None → of_type type L !! id = None.
Proof. intros H. apply map_lookup_filter_None. by left. Qed.

Lemma of_type_lookup type id rec L :
  L !! id = Some rec → target_type (intent_target (base rec)) = type →
  of_type type L !! id = Some rec.
Proof. intros. by apply map_lookup_filter_Some. Qed.

(** Changing the storage of one type. *)
Lemma storages_hold_insert t o L L' type address s :
  storages_hold t o L → storages t !! type = Some address →
  (∀ type' address', storages t !! type' = Some address' → address' = address →
     type' = type) →
  storage_records s = of_type type L' →
  (∀ type', type' ≠ type → of_type type' L' = of_type type' L) →
  storages_hold t (<[address := s]> o) L'.
Proof.
  intros Hh Hs Hinj Hrec Hother type' address' Hs'.
  destruct (decide (address' = address)) as [->|Hne].
  - assert (type' = type) as -> by by eapply Hinj.
    exists s. by rewrite lookup_insert_eq.
  - destruct (Hh _ _ Hs') as (s' & Hs'' & Hr'). exists s'.
    rewrite lookup_insert_ne by done. split; [done|].
    rewrite Hr', Hother; [done|]. intros ->. congruence.
Qed.

Lemma storages_hold_delete t o L id rec address :
  storages_hold t o L → L !! id = Some rec →
  storages t !! target_type (intent_target (base rec)) = Some address →
  (∀ type', storages t !! type' = Some address →
     type' = target_type (intent_target (base rec))) →
  storages_hold t (alter (storage_destroy id) address o) (delete id L).
Proof.
  intros Hh Hrec Hs Hinj. destruct (Hh _ _ Hs) as (s & Ho & Hr).
  rewrite (alter_lookup _ _ _ _ Ho).
  eapply (storages_hold_insert _ _ L); [done|done| | |].
  - intros type' ? Ht ->. by apply Hinj.
  - cbn. by rewrite Hr, of_type_delete.
  - intros type' Hne. rewrite of_type_delete. apply delete_id.
    apply map_lookup_filter_None. right. intros x Hx. cbn. congruence.
Qed.

(** *** Removing an intent *)

(** What [destroy], [cancel] and the [catch] block of [create_impl] do to the
    indexes. *)
Definition remove_indexes (i : Intent) (t : Tables) : Tables :=
  let t := erase_from_indexes i t in
  set_intentTypes (delete (intent_id i) (intentTypes t)) t.

Lemma remove_indexes_fields i t :
  storages (remove_indexes i t) = storages t ∧
  intentTypes (remove_indexes i t) = delete (intent_id i) (intentTypes t) ∧
  availableSlots (remove_indexes i t) = availableSlots t ∧
  generations (remove_indexes i t) = generations t ∧
  nextSlot (remove_indexes i t) = nextSlot t ∧
  lastSequence (remove_indexes i t) = lastSequence t ∧
  byOwner (remove_indexes i t) =
    alter (λ ids, ids ∖ {[intent_id i]}) (intent_owner i) (byOwner t) ∧
  byOwnerName (remove_indexes i t) =
    (if bool_decide (intent_name i = "") then byOwnerName t
     else alter (delete (intent_name i)) (intent_owner i) (byOwnerName t)) ∧
  byTarget (remove_indexes i t) = erase_target (intent_target i) (intent_id i) (byTarget t).
Proof. unfold remove_indexes, erase_from_indexes. by destruct (bool_decide _). Qed.

(** The ways of saying that [id] is live after another intent was removed. *)
Lemma live_delete L id id' (P : @component_intent C → Prop) rec0 :
  L !! id = Some rec0 →
  (∃ rec, delete id L !! id' = Some rec ∧ P rec) ↔
  id' ≠ id ∧ ∃ rec, L !! id' = Some rec ∧ P rec.
Proof.
  intros H0. split.
  - intros (rec & [Hne Hl]%lookup_delete_Some & HP). split; [done|eauto].
  - intros (Hne & rec & Hl & HP). exists rec. by rewrite lookup_delete_ne.
Qed.

Lemma indexes_ok_remove t o L id rec address :
  indexes_ok t o L → L !! id = Some rec →
  storages t !! target_type (intent_target (base rec)) = Some address →
  indexes_ok (remove_indexes (base rec) t) (alter (storage_destroy id) address o) (delete id L).
Proof.
  intros Hok Hrec Hs. pose proof (ix_id _ _ _ Hok id rec Hrec) as Hid.
  destruct (remove_indexes_fields (base rec) t) as (Fs & Ft & _ & _ & _ & Fseq & Fo & Fn & Fg).
  rewrite Hid in *. destruct Hok as [Hids Hty Hh Hst Hinj Hown Hpool Hname Hnp Htgt Hne Hseq Hsi].
  assert (∀ id' rec', delete id L !! id' = Some rec' → L !! id' = Some rec') as Hsub
    by (by intros ? ? [_ ?]%lookup_delete_Some).
  split; rewrite ?Fs, ?Ft, ?Fseq, ?Fo, ?Fn, ?Fg.
  - eauto.
  - by rewrite Hty, fmap_delete.
  - intros type a Ha. rewrite Fs in Ha. eapply storages_hold_delete; try done.
    intros type' Hs'. by eapply Hinj.
  - eauto.
  - eauto.
  - intros owner ids Hids'. intros x. rewrite (live_delete L id x _ rec Hrec).
    destruct (decide (owner = intent_owner (base rec))) as [->|Hno].
    + rewrite lookup_alter_eq in Hids'.
      destruct (byOwner t !! intent_owner (base rec)) as [ids0|] eqn:E; [|done].
      injection Hids' as <-. rewrite elem_of_difference, elem_of_singleton.
      rewrite (Hown _ _ E). tauto.
    + rewrite lookup_alter_ne in Hids' by done. rewrite (Hown _ _ Hids').
      split; [|tauto]. intros (rec' & Hr' & Ho'). split; [|eauto]. intros ->. congruence.
  - intros x rec' Hr'. apply Hsub in Hr'. rewrite lookup_alter_is_Some. eauto.
  - assert (∀ owner names, byOwnerName t !! owner = Some names →
      ∀ name x, owner ≠ intent_owner (base rec) ∨ name ≠ intent_name (base rec) ∨ intent_name (base rec) = "" →
      names !! name = Some x ↔ name ≠ "" ∧ ∃ rec', delete id L !! x = Some rec' ∧
        intent_owner (base rec') = owner ∧ intent_name (base rec') = name) as Hkeep.
    { intros owner names E name x Hcase. rewrite (Hname _ _ E).
      rewrite (live_delete L id x _ rec Hrec). split; [|tauto].
      intros (Hn & rec' & Hr' & Ho' & Hn'). split; [done|]. split; [|eauto].
      intros ->. assert (rec' = rec) as -> by congruence. naive_solver. }
    intros owner names Hnames name x. case_bool_decide as Hempty; [by eapply Hkeep; auto|].
    destruct (decide (owner = intent_owner (base rec))) as [->|Hno].
    + rewrite lookup_alter_eq in Hnames.
      destruct (byOwnerName t !! intent_owner (base rec)) as [names0|] eqn:E; [|done].
      injection Hnames as <-. destruct (decide (name = intent_name (base rec))) as [->|Hnn].
      * rewrite lookup_delete_eq. split; [done|]. intros (_ & rec' & Hr' & Ho' & Hn').
        apply lookup_delete_Some in Hr' as [Hx Hr'].
        destruct Hx. assert (names0 !! intent_name (base rec) = Some id) as H1
          by (apply (Hname _ _ E); eauto).
        assert (names0 !! intent_name (base rec) = Some x) as H2
          by (apply (Hname _ _ E); eauto). congruence.
      * rewrite lookup_delete_ne by done. eapply Hkeep; eauto.
    + rewrite lookup_alter_ne in Hnames by done. eapply Hkeep; eauto.
  - intros owner Ho. rewrite lookup_alter_is_Some in Ho. apply Hnp in Ho.
    case_bool_decide; [done|]. by rewrite lookup_alter_is_Some.
  - intros tgt x. rewrite target_ids_erase, (live_delete L id x _ rec Hrec).
    destruct (decide (tgt = intent_target (base rec))) as [->|Ht].
    + rewrite elem_of_difference, elem_of_singleton, Htgt. tauto.
    + rewrite Htgt. split; [|tauto]. intros (rec' & Hr' & Ht'). split; [|eauto].
      intros ->. congruence.
  - by apply no_empty_erase.
  - eauto.
  - eauto.
Qed.
(** *** Adding an intent *)

(** What the [try] block of [create_impl] does to the indexes. *)
Definition insert_indexes (i : Intent) (t : Tables) : Tables :=
  let id := intent_id i in
  let t := set_intentTypes (<[id := target_type (intent_target i)]> (intentTypes t)) t in
  let t := set_byOwner (alter (λ ids, {[id]} ∪ ids) (intent_owner i) (byOwner t)) t in
  let t := if bool_decide (intent_name i = "") then t
           else set_byOwnerName
                  (alter (λ names, <[intent_name i := id]> names) (intent_owner i)
                    (byOwnerName t)) t in
  set_byTarget (insert_target (intent_target i) id (byTarget t)).1 t.

Lemma insert_indexes_fields i t :
  storages (insert_indexes i t) = storages t ∧
  intentTypes (insert_indexes i t) =
    <[intent_id i := target_type (intent_target i)]> (intentTypes t) ∧
  availableSlots (insert_indexes i t) = availableSlots t ∧
  generations (insert_indexes i t) = generations t ∧
  nextSlot (insert_indexes i t) = nextSlot t ∧
  lastSequence (insert_indexes i t) = lastSequence t ∧
  byOwner (insert_indexes i t) =
    alter (λ ids, {[intent_id i]} ∪ ids) (intent_owner i) (byOwner t) ∧
  byOwnerName (insert_indexes i t) =
    (if bool_decide (intent_name i = "") then byOwnerName t
     else alter (λ names, <[intent_name i := intent_id i]> names) (intent_owner i)
            (byOwnerName t)) ∧
  byTarget (insert_indexes i t) =
    (insert_target (intent_target i) (intent_id i) (byTarget t)).1.
Proof. unfold insert_indexes. by destruct (bool_decide _). Qed.

Lemma live_insert L id id' rec (P : @component_intent C → Prop) :
  L !! id = None →
  (∃ rec', <[id := rec]> L !! id' = Some rec' ∧ P rec') ↔
  (id' = id ∧ P rec) ∨ ∃ rec', L !! id' = Some rec' ∧ P rec'.
Proof.
  intros Hnone. split.
  - intros (rec' & [[<- <-]|[Hne Hl]]%lookup_insert_Some & HP); eauto.
  - intros [[-> HP]|(rec' & Hl & HP)].
    + exists rec. by rewrite lookup_insert_eq.
    + exists rec'. rewrite lookup_insert_ne by congruence. done.
Qed.

(** A name that is not taken among its owner's. *)
Definition name_free (i : Intent) (t : Tables) : Prop :=
  intent_name i = "" ∨
  ∃ names, byOwnerName t !! intent_owner i = Some names ∧ names !! intent_name i = None.

Lemma indexes_ok_insert t o L rec address s :
  let i := base rec in
  indexes_ok t o L → L !! intent_id i = None →
  storages t !! target_type (intent_target i) = Some address →
  o !! address = Some s → is_Some (byOwner t !! intent_owner i) → name_free i t →
  intent_sequence i = lastSequence t → 1 <= lastSequence t →
  (∀ id' rec', L !! id' = Some rec' → intent_sequence (base rec') < lastSequence t) →
  indexes_ok (insert_indexes i t)
    (<[address := MkIntentStorage (storage_class s)
         (<[intent_id i := rec]> (storage_records s))]> o)
    (<[intent_id i := rec]> L).
Proof.
  intros i Hok Hnone Hs Ho Hpool0 Hfree Hseqi Hpos Hlt.
  destruct (insert_indexes_fields i t) as (Fs & Ft & _ & _ & _ & Fseq & Fo & Fn & Fg).
  destruct Hok as [Hids Hty Hh Hst Hinj Hown Hpool Hname Hnp Htgt Hne Hseq Hsi].
  destruct (Hh _ _ Hs) as (s' & Ho' & Hrecs). rewrite Ho in Ho'. injection Ho' as <-.
  split; rewrite ?Fs, ?Ft, ?Fseq, ?Fo, ?Fn, ?Fg.
  - intros id rec'. rewrite lookup_insert_Some. intros [[<- <-]|[? ?]]; [done|by eauto].
  - by rewrite Hty, fmap_insert.
  - intros type a Ha. rewrite Fs in Ha. revert type a Ha.
    apply (storages_hold_insert _ _ L _ (target_type (intent_target i))); try done.
    + intros ? ? ? ->. by eapply Hinj.
    + cbn. rewrite of_type_insert, decide_True by done. by rewrite Hrecs.
    + intros type' Hne'. by rewrite of_type_insert, decide_False by done.
  - intros id rec'. rewrite lookup_insert_Some. intros [[<- <-]|[? ?]]; [by eexists|by eauto].
  - eauto.
  - intros owner ids Hids' id. rewrite (live_insert L _ id rec) by done.
    destruct (decide (owner = intent_owner i)) as [->|Hno].
    + rewrite lookup_alter_eq in Hids'.
      destruct (byOwner t !! intent_owner i) as [ids0|] eqn:E; [|done].
      injection Hids' as <-. rewrite elem_of_union, elem_of_singleton, (Hown _ _ E).
      unfold i. tauto.
    + rewrite lookup_alter_ne in Hids' by done. rewrite (Hown _ _ Hids').
      unfold i in *. naive_solver.
  - intros id rec'. rewrite lookup_alter_is_Some, lookup_insert_Some.
    intros [[<- <-]|[? ?]]; [done|by eauto].
  - intros owner names Hnames name id. rewrite (live_insert L _ id rec) by done.
    fold i. destruct (bool_decide_reflect (intent_name i = "")) as [He|He].
    { rewrite (Hname _ _ Hnames). naive_solver. }
    destruct Hfree as [?|(names0 & Hn0 & Hfree)]; [done|].
    destruct (decide (owner = intent_owner i)) as [->|Hno].
    + rewrite lookup_alter_eq, Hn0 in Hnames. injection Hnames as <-.
      destruct (decide (name = intent_name i)) as [->|Hnn].
      * rewrite lookup_insert_eq. split; [intros [= <-]; eauto|].
        intros (_ & [[-> _]|(rec' & Hr' & Ho' & Hn')]); [done|].
        assert (names0 !! intent_name i = Some id) by (apply (Hname _ _ Hn0); eauto).
        congruence.
      * rewrite lookup_insert_ne by done. rewrite (Hname _ _ Hn0). naive_solver.
    + rewrite lookup_alter_ne in Hnames by done. rewrite (Hname _ _ Hnames). naive_solver.
  - intros owner. rewrite lookup_alter_is_Some. intros Hp%Hnp.
    destruct (bool_decide (intent_name i = "")); [done|]. by rewrite lookup_alter_is_Some.
  - intros tgt id. rewrite target_ids_insert, (live_insert L _ id rec) by done. fold i.
    destruct (decide (tgt = intent_target i)) as [->|Ht].
    + rewrite elem_of_union, elem_of_singleton, Htgt. tauto.
    + rewrite Htgt. naive_solver.
  - by apply no_empty_insert.
  - intros id rec'. rewrite lookup_insert_Some. intros [[<- <-]|[? Hr']].
    + fold i. lia.
    + by eapply Hseq.
  - intros id id' r r'. rewrite !lookup_insert_Some. fold i.
    intros [[<- <-]|[? Hr]] [[<- <-]|[? Hr']] Heq; [done| | |by eapply Hsi].
    + apply Hlt in Hr'. fold i in Heq. lia.
    + apply Hlt in Hr. fold i in Heq. lia.
Qed.

(** The indexes do not depend on how slots are allocated. *)
Lemma indexes_ok_slots t o L av gen next :
  indexes_ok t o L → indexes_ok (set_slots av gen next t) o L.
Proof. intros []. by split. Qed.

Lemma indexes_ok_lastSequence t o L n :
  indexes_ok t o L → lastSequence t <= n → indexes_ok (set_lastSequence n t) o L.
Proof.
  intros [] Hn. split; try done. cbn. intros id rec Hr.
  pose proof (ix_sequence0 id rec Hr). lia.
Qed.

(** A storage made for a type that had none. *)
Lemma indexes_ok_new_storage t o L type class :
  indexes_ok t o L → storages t !! type = None →
  let address := fresh (dom o) in
  (∀ ty a, storages t !! ty = Some a → a ≠ address) ∧
  indexes_ok (set_storages (<[type := address]> (storages t)) t)
    (<[address := MkIntentStorage class ∅]> o) L.
Proof.
  intros Hok Hnone address.
  assert (o !! address = None) as Hfresh by apply not_elem_of_dom, is_fresh.
  pose proof Hok as [Hids Hty Hh Hst Hinj Hown Hpool Hname Hnp Htgt Hne Hseq Hsi].
  assert (∀ ty a, storages t !! ty = Some a → a ≠ address) as Hnot.
  { intros ty a (s & Ho & _)%Hh ->. congruence. }
  split; [done|]. split; try done; cbn.
  - intros ty a. cbn. rewrite lookup_insert_Some. intros [[<- <-]|[? Ha]].
    + eexists. rewrite lookup_insert_eq. split; [done|]. cbn. symmetry.
      apply map_empty. intros id. apply map_lookup_filter_None. right.
      intros rec Hr Heq. cbn in Heq. apply Hst in Hr. rewrite Heq, Hnone in Hr.
      by destruct Hr.
    + destruct (Hh _ _ Ha) as (s & Ho & ?). exists s.
      by rewrite lookup_insert_ne by (intros E; by eapply Hnot).
  - intros id rec Hr. apply Hst in Hr as [a Ha].
    destruct (decide (type = target_type (intent_target (base rec)))) as [->|Hne'].
    + congruence.
    + rewrite lookup_insert_ne by done. by eexists.
  - intros ty ty' a. rewrite !lookup_insert_Some.
    intros [[<- <-]|[? Ha]] [[<- E]|[? Ha']]; [done| | |by eapply Hinj].
    + by apply Hnot in Ha'.
    + subst a. by apply Hnot in Ha.
Qed.
(** ** Slots *)

(** An id that was handed out: its slot's generation has passed, or it is the
    current one and the slot is in use or retired. *)
Definition issued (world : N) (t : Tables) (id : handle) : Prop :=
  handle_world id = world ∧ 1 <= handle_slot id ∧
  ∃ g, vector_at (generations t) (handle_slot id) = Ok g ∧
    (handle_generation id < g ∨
     handle_generation id = g ∧ (handle_slot id ∉ availableSlots t) ∧
     handle_slot id < nextSlot t).

(** An id that is the current one of a slot in use. *)
Definition in_use (world : N) (t : Tables) (id : handle) : Prop :=
  handle_world id = world ∧ 1 <= handle_slot id < nextSlot t ∧
  vector_at (generations t) (handle_slot id) = Ok (handle_generation id) ∧
  handle_slot id ∉ availableSlots t.

Record slots_ok (world : N) (t : Tables) (live : gset handle) : Prop := {
  sl_live id : id ∈ live → in_use world t id;
  sl_nodup : NoDup (availableSlots t);
  sl_available slot : slot ∈ availableSlots t →
    1 <= slot < nextSlot t ∧ ∃ g, vector_at (generations t) slot = Ok g;
  sl_next : 1 <= nextSlot t;
  sl_length : length (generations t) = S (N.to_nat MaxIntents)
}.

Lemma in_use_issued world t id : in_use world t id → issued world t id.
Proof. intros (? & [? ?] & ? & ?). split; [done|]. split; [done|]. eauto 6. Qed.

(** The current id of a slot is determined by the slot. *)
Lemma in_use_slot world t x y :
  in_use world t x → in_use world t y → handle_slot x = handle_slot y → x = y.
Proof.
  intros (Hw & _ & Hg & _) (Hw' & _ & Hg' & _) Heq. rewrite Heq, Hg' in Hg.
  destruct x, y; cbn in *. simplify_eq. done.
Qed.

Lemma slots_ok_subset world t live live' :
  slots_ok world t live → live' ⊆ live → slots_ok world t live'.
Proof. intros [] Hsub. split; try done. intros id Hid. apply sl_live0. set_solver. Qed.

(** [next_intent_id] as a function of the tables. *)
Definition issue (world : N) (t : Tables) : option (handle * Tables) :=
  match availableSlots t with
  | slot :: rest =>
      match vector_at (generations t) slot with
      | Ok g => Some (MkHandle world slot g, set_slots rest (generations t) (nextSlot t) t)
      | Err _ => None
      end
  | [] =>
      match vector_at (generations t) (nextSlot t) with
      | Ok g => Some (MkHandle world (nextSlot t) g,
                      set_slots [] (generations t) (nextSlot t + 1) t)
      | Err _ => None
      end
  end.

Lemma next_intent_id_spec (r : @IntentRegistry C) live :
  slots_ok (worldId r) (tables r) live →
  match next_intent_id r with
  | (Ok id, r') => ∃ t, issue (worldId r) (tables r) = Some (id, t) ∧ r' = set_tables t r
  | (Err _, r') => r' = r ∨
      r' = set_tables (set_slots [] (generations (tables r)) (nextSlot (tables r) + 1)
                         (tables r)) r ∧ availableSlots (tables r) = []
  end.
Proof.
  intros Hok. unfold next_intent_id, issue.
  rewrite (stm_bind_eq _ _ r r r) by done. cbn zeta.
  destruct ((MaxIntents <=? _) && _); [by left|].
  rewrite (stm_bind_eq _ _ _ _ _ (sreject_if_false _ _ _)).
  destruct (availableSlots (tables r)) as [|slot rest] eqn:Ea;
    rewrite (stm_bind_eq _ _ r tt _) by done;
    unfold slift, mbind, stm_bind.
  - destruct (vector_at (generations (tables r)) (nextSlot (tables r))); cbn; [by eauto|].
    by right.
  - assert (slot ∈ availableSlots (tables r)) as Hin by (rewrite Ea; left).
    destruct (sl_available _ _ _ Hok slot Hin) as [_ [g Hg]]. rewrite Hg. cbn. by eauto.
Qed.

(** A fresh id is in use, was never issued, and everything issued stays so. *)
Lemma issue_ok world t live id t' :
  slots_ok world t live → issue world t = Some (id, t') →
  slots_ok world t' ({[id]} ∪ live) ∧ (id ∉ live) ∧ (¬ issued world t id) ∧
  (∀ x, issued world t x → issued world t' x ∧
     (handle_slot x ≠ handle_slot id ∨ handle_generation x < handle_generation id)).
Proof.
  intros [Hlive Hnd Hav Hnext Hlen]. unfold issue.
  destruct (availableSlots t) as [|slot rest] eqn:Ea.
  - destruct (vector_at (generations t) (nextSlot t)) as [g|] eqn:Hg; [|done].
    intros [= <- <-].
    assert (¬ issued world t (MkHandle world (nextSlot t) g)) as Hnot.
    { intros (_ & _ & g' & Hg' & Hcase). cbn in *. rewrite Hg in Hg'.
      injection Hg' as <-. lia. }
    split_and!; [| |done|].
    + split; cbn; rewrite ?Ea; try done; [|set_solver|lia].
      intros x [->%elem_of_singleton|Hx]%elem_of_union.
      * split; [done|]. cbn. split; [lia|]. split; [done|set_solver].
      * destruct (Hlive x Hx) as (? & ? & ? & ?). split; [done|]. cbn. rewrite ?Ea in *.
        split; [lia|done].
    + intros Hin%Hlive%in_use_issued. done.
    + intros x (Hw & Hs & g' & Hg' & Hcase). split.
      * split; [done|]. split; [done|]. exists g'. split; [done|]. cbn.
        destruct Hcase as [?|(? & ? & ?)]; [by left|right]. split; [done|].
        split; [set_solver|lia].
      * cbn. destruct Hcase as [?|(? & ? & ?)]; [|left; lia].
        destruct (decide (handle_slot x = nextSlot t)) as [Heq|]; [|by left]. right.
        rewrite Heq, Hg in Hg'. by injection Hg' as <-.
  - destruct (vector_at (generations t) slot) as [g|] eqn:Hg; [|done].
    intros [= <- <-]. apply NoDup_cons in Hnd as [Hnr Hnd].
    assert (¬ issued world t (MkHandle world slot g)) as Hnot.
    { intros (_ & _ & g' & Hg' & Hcase). cbn in *. rewrite Hg in Hg'.
      injection Hg' as <-. rewrite Ea in Hcase. destruct Hcase as [?|(_ & Hn & _)]; [lia|].
      apply Hn. left. }
    split_and!; [| |done|].
    + split; cbn; try done.
      * intros x [->%elem_of_singleton|Hx]%elem_of_union.
        -- split; [done|]. cbn. split; [|done]. apply (Hav slot). left.
        -- destruct (Hlive x Hx) as (? & ? & ? & Hn). split; [done|]. cbn.
           split_and!; [lia|lia|done|]. rewrite Ea in Hn. set_solver.
      * intros s Hs. apply Hav. by right.
    + intros Hin%Hlive%in_use_issued. done.
    + intros x (Hw & Hs & g' & Hg' & Hcase). rewrite Ea in Hcase. split.
      * split; [done|]. split; [done|]. exists g'. split; [done|]. cbn.
        destruct Hcase as [?|(? & Hn & ?)]; [by left|right]. split; [done|].
        split; [set_solver|done].
      * cbn. destruct Hcase as [?|(? & Hn & ?)].
        -- destruct (decide (handle_slot x = slot)) as [Heq|]; [|by left]. right.
           rewrite Heq, Hg in Hg'. by injection Hg' as <-.
        -- left. intros Heq. apply Hn. rewrite Heq. left.
Qed.

(** Taking back an id that did not become live. *)
Lemma release_ok world t live id :
  slots_ok world t ({[id]} ∪ live) → (id ∉ live) →
  slots_ok world (release_intent_id id t) live ∧
  (∀ x, issued world t x →
     handle_slot x ≠ handle_slot id ∨ handle_generation x < handle_generation id →
     issued world (release_intent_id id t) x).
Proof.
  intros [Hlive Hnd Hav Hnext Hlen] Hnot.
  destruct (Hlive id) as (Hw & Hs & Hg & Hna); [set_solver|].
  assert (∀ x, x ∈ live → handle_slot x ≠ handle_slot id) as Hother.
  { intros x Hx Heq. apply Hnot. assert (x = id) as <-; [|done].
    apply (in_use_slot world t); [apply Hlive; set_solver|apply Hlive; set_solver|done]. }
  unfold release_intent_id.
  destruct (N.eqb_spec (handle_slot id + 1) (nextSlot t)) as [Hlast|Hlast]; split.
  - split; cbn; try done; [| |lia].
    + intros x Hx. pose proof (Hother x Hx).
      destruct (Hlive x) as (? & ? & ? & ?); [set_solver|]. split; [done|]. cbn.
      split; [lia|done].
    + intros s Hs'. destruct (Hav s Hs') as [? ?]. split; [|done].
      assert (s ≠ handle_slot id) by (intros ->; done). lia.
  - intros x (Hwx & Hsx & g & Hgx & Hcase) Hx. split; [done|]. split; [done|].
    exists g. split; [done|]. cbn. destruct Hcase as [?|(Hgen & ? & ?)]; [by left|].
    destruct Hx as [Hne|Hlt]; [right; split; [done|]; split; [done|lia]|].
    destruct (decide (handle_slot x = handle_slot id)) as [Heq|Hne];
      [|right; split; [done|]; split; [done|lia]].
    rewrite Heq, Hg in Hgx. injection Hgx as Hgx. lia.
  - split; cbn; try done.
    + intros x Hx. pose proof (Hother x Hx).
      destruct (Hlive x) as (? & ? & ? & ?); [set_solver|]. split; [done|]. cbn.
      split; [done|]. split; [done|]. set_solver.
    + by constructor.
    + intros s [->|Hs']%elem_of_cons; [|by apply Hav]. split; [lia|by eexists].
  - intros x (Hwx & Hsx & g & Hgx & Hcase) Hx. split; [done|]. split; [done|].
    exists g. split; [done|]. cbn. destruct Hcase as [?|(Hgen & ? & ?)]; [by left|].
    destruct (decide (handle_slot x = handle_slot id)) as [Heq|Hne].
    + rewrite Heq, Hg in Hgx. injection Hgx as Hgx.
      destruct Hx as [|Hlt]; [done|lia].
    + right. split; [done|]. split; [set_solver|done].
Qed.

(** [retire_intent_id] on the tables. *)
Definition retired (id : handle) (t : Tables) : Tables :=
  if handle_generation id =? u32_max then t
  else set_slots (handle_slot id :: availableSlots t)
         (vector_set (generations t) (handle_slot id) (handle_generation id + 1))
         (nextSlot t) t.

Lemma retire_intent_id_eq world (r : @IntentRegistry C) id :
  in_use world (tables r) id →
  retire_intent_id id r = (Ok tt, set_tables (retired id (tables r)) r).
Proof.
  intros (_ & _ & Hg & _). unfold retire_intent_id, retired.
  rewrite (stm_bind_eq _ _ r r r) by done.
  rewrite (stm_bind_eq _ _ r (handle_generation id) r) by (unfold slift; by rewrite Hg).
  destruct (_ =? u32_max); [|done]. by destruct r.
Qed.

Lemma retired_ok world t live id :
  slots_ok world t ({[id]} ∪ live) → (id ∉ live) →
  slots_ok world (retired id t) live ∧
  (∀ x, issued world t x → issued world (retired id t) x).
Proof.
  intros Hok Hnot. pose proof Hok as [Hlive Hnd Hav Hnext Hlen].
  destruct (Hlive id) as (Hw & Hs & Hg & Hna); [set_solver|].
  assert (∀ x, x ∈ live → handle_slot id ≠ handle_slot x) as Hother.
  { intros x Hx Heq. apply Hnot. assert (x = id) as <-; [|done].
    apply (in_use_slot world t); [apply Hlive; set_solver|apply Hlive; set_solver|done]. }
  unfold retired. destruct (handle_generation id =? u32_max).
  { split; [|done]. eapply slots_ok_subset; [done|set_solver]. }
  split.
  - split; cbn; try done.
    + intros x Hx. destruct (Hlive x) as (? & ? & ? & ?); [set_solver|].
      pose proof (Hother x Hx). split; [done|]. cbn. split; [done|].
      rewrite vector_at_set_ne by done. split; [done|set_solver].
    + by constructor.
    + intros s Hs'. destruct (decide (handle_slot id = s)) as [<-|Hne].
      * split; [lia|]. eexists. by eapply vector_at_set_eq.
      * rewrite vector_at_set_ne by done. apply Hav. set_solver.
    + by rewrite length_vector_set.
  - intros x (Hwx & Hsx & g & Hgx & Hcase). split; [done|]. split; [done|]. cbn.
    destruct (decide (handle_slot id = handle_slot x)) as [Heq|Hne].
    + rewrite <-Heq, Hg in Hgx. injection Hgx as <-. rewrite <-Heq.
      eexists. split; [by eapply vector_at_set_eq|]. left. lia.
    + exists g. rewrite vector_at_set_ne by done. split; [done|].
      destruct Hcase as [?|(? & ? & ?)]; [by left|right]. split; [done|].
      split; [set_solver|done].
Qed.
(** ** The registry *)

Implicit Types r : @IntentRegistry C.

Record registry_ok r L : Prop := {
  rg_indexes : indexes_ok (tables r) (objects r) L;
  rg_slots : slots_ok (worldId r) (tables r) (dom L)
}.

(** What only grows while a registry is used, short of a rollback. *)
Record advances r r' : Prop := {
  adv_identity : registry_identity r' = registry_identity r;
  adv_world : worldId r' = worldId r;
  adv_transaction : transactionActive r' = transactionActive r;
  adv_issued id : issued (worldId r) (tables r) id → issued (worldId r) (tables r') id;
  adv_storages : storages (tables r) ⊆ storages (tables r');
  adv_lifecycle : lifecycleRecords r `prefix_of` lifecycleRecords r'
}.

#[export] Instance advances_preorder : PreOrder advances.
Proof.
  split.
  - intros r. split; try done.
  - intros a b c [H1 H2 H3 H4 H5 H6] [G1 G2 G3 G4 G5 G6].
    split; [congruence..| | |]; [|by etrans..].
    intros id Hid. rewrite <-H2. apply G4. rewrite H2. by apply H4.
Qed.

(** Steps that change only the tables, keeping storages and issued ids. *)
Lemma advances_tables r t :
  (∀ id, issued (worldId r) (tables r) id → issued (worldId r) t id) →
  storages (tables r) ⊆ storages t → advances r (set_tables t r).
Proof. by split. Qed.

Lemma advances_objects r o : advances r (set_objects o r).
Proof. by split. Qed.

Lemma new_registry_ok identity world : registry_ok (new_IntentRegistry identity world) ∅.
Proof.
  split; split; cbn; try done.
  all: try (by intros ? ?; rewrite lookup_empty).
  all: try (by intros ? ? ?; rewrite lookup_empty).
  - intros owner Ho. by apply lookup_empty_is_Some in Ho.
  - intros tgt id. unfold target_ids. rewrite lookup_empty. cbn.
    split; [set_solver|]. intros (? & H & _). by rewrite lookup_empty in H.
  - apply NoDup_nil_2.
  - by intros slot ?%elem_of_nil.
Qed.

(** ** Queries *)

Lemma find_intent_ok r L id :
  registry_ok r L →
  find_intent id r =
  match L !! id with
  | Some rec => Ok rec
  | None => throw runtime_error "intent id not found"
  end.
Proof.
  intros [Hok _]. unfold find_intent. rewrite (ix_types _ _ _ Hok), lookup_fmap.
  destruct (L !! id) as [rec|] eqn:Hrec; cbn; [|done].
  destruct (ix_storage _ _ _ Hok id rec Hrec) as [address Hs]. rewrite Hs. cbn.
  destruct (ix_hold _ _ _ Hok _ _ Hs) as (s & -> & Hr).
  unfold storage_intent. by rewrite Hr, (of_type_lookup _ _ _ _ Hrec eq_refl).
Qed.

Lemma intent_ok r L id :
  registry_ok r L →
  intent id r = match L !! id with
                | Some rec => Ok (base rec)
                | None => throw runtime_error "intent id not found"
                end.
Proof.
  intros Hok. unfold intent. rewrite (find_intent_ok _ _ _ Hok).
  by destruct (L !! id).
Qed.

Lemma dom_intentTypes r L : registry_ok r L → dom (intentTypes (tables r)) = dom L.
Proof. intros [Hok _]. by rewrite (ix_types _ _ _ Hok), dom_fmap_L. Qed.

(** ** Destruction *)

(** The state after [destroy] or [cancel] has removed a live intent. *)
Definition removed_state (address : N) (i : Intent) r : IntentRegistry :=
  set_objects (alter (storage_destroy (intent_id i)) address (objects r))
    (set_tables (retired (intent_id i) (remove_indexes i (tables r))) r).

Lemma in_use_fields world t t' id :
  availableSlots t' = availableSlots t → generations t' = generations t →
  nextSlot t' = nextSlot t → in_use world t id → in_use world t' id.
Proof. intros Ha Hg Hn. unfold in_use. by rewrite Ha, Hg, Hn. Qed.

Lemma slots_ok_fields world t t' live :
  availableSlots t' = availableSlots t → generations t' = generations t →
  nextSlot t' = nextSlot t → slots_ok world t live → slots_ok world t' live.
Proof.
  intros Ha Hg Hn [Hl ? ? ? ?]. split; rewrite ?Ha, ?Hg, ?Hn; try done.
  intros id Hid. destruct (Hl id Hid) as (? & ? & ? & ?).
  split; [done|]. by rewrite Ha, Hg, Hn.
Qed.

Lemma issued_fields world t t' id :
  availableSlots t' = availableSlots t → generations t' = generations t →
  nextSlot t' = nextSlot t → issued world t id → issued world t' id.
Proof. intros Ha Hg Hn. unfold issued. by rewrite Ha, Hg, Hn. Qed.

Lemma retired_storages id t : storages (retired id t) = storages t.
Proof. unfold retired. by destruct (_ =? _). Qed.

Lemma indexes_ok_retired id t o L : indexes_ok t o L → indexes_ok (retired id t) o L.
Proof. intros. unfold retired. destruct (_ =? _); [done|]. by apply indexes_ok_slots. Qed.

Lemma dom_delete_insert L id rec : L !! id = Some rec → dom L = {[id]} ∪ dom (delete id L).
Proof.
  intros Hrec. rewrite dom_delete_L. apply elem_of_dom_2 in Hrec.
  apply set_eq. intros x. destruct (decide (x = id)) as [->|]; set_solver.
Qed.

Lemma removed_state_ok r L id rec address :
  registry_ok r L → L !! id = Some rec →
  storages (tables r) !! target_type (intent_target (base rec)) = Some address →
  registry_ok (removed_state address (base rec) r) (delete id L) ∧
  advances r (removed_state address (base rec) r).
Proof.
  intros [Hix Hsl] Hrec Hs. pose proof (ix_id _ _ _ Hix id rec Hrec) as Hid.
  destruct (remove_indexes_fields (base rec) (tables r))
    as (Fs & _ & Fa & Fg & Fn & _ & _ & _ & _).
  rewrite (dom_delete_insert L id rec Hrec) in Hsl.
  assert (slots_ok (worldId r) (remove_indexes (base rec) (tables r))
    ({[id]} ∪ dom (delete id L))) as Hsl' by by eapply slots_ok_fields.
  destruct (retired_ok _ _ _ _ Hsl') as [Hret Hmono].
  { rewrite dom_delete_L. set_solver. }
  unfold removed_state. rewrite Hid. split; split; cbn.
  - apply indexes_ok_retired. by apply indexes_ok_remove.
  - done.
  - done.
  - done.
  - done.
  - intros x Hx. apply Hmono. by eapply issued_fields.
  - by rewrite retired_storages, Fs.
  - done.
Qed.

Lemma push_lifecycle_spec b i r :
  push_lifecycle b i r =
  if maximumBufferedLifecycleRecords <=? len (lifecycleRecords r)
  then (throw length_error "intent lifecycle evidence capacity exceeded", r)
  else (Ok tt, set_lifecycle (lifecycleRecords r ++ [MkLifecycle b i]) r).
Proof. unfold push_lifecycle. by destruct (_ <=? _). Qed.

Lemma advances_lifecycle r l : advances r (set_lifecycle (lifecycleRecords r ++ l) r).
Proof. split; try done. cbn. by exists l. Qed.

Lemma registry_ok_lifecycle r L l : registry_ok r L → registry_ok (set_lifecycle l r) L.
Proof. by intros []. Qed.

Lemma destroy_spec r L id :
  registry_ok r L → transactionActive r = false →
  match destroy id r with
  | (Ok _, r') => ∃ rec, L !! id = Some rec ∧ registry_ok r' (delete id L) ∧
      advances r r' ∧
      lifecycleRecords r' = lifecycleRecords r ++ [MkLifecycle false (base rec)]
  | (Err _, r') => r' = r ∧
      (L !! id = None ∨ maximumBufferedLifecycleRecords <= len (lifecycleRecords r))
  end.
Proof.
  intros Hok Htx. unfold destroy.
  rewrite (stm_bind_eq _ _ r tt r)
    by (unfold ensure_no_active_transaction; by rewrite Htx).
  rewrite (stm_bind_eq _ _ r r r) by done.
  destruct (L !! id) as [rec|] eqn:Hrec.
  2:{ unfold slift, mbind, stm_bind. rewrite (intent_ok _ _ _ Hok), Hrec. cbn. auto. }
  rewrite (stm_bind_eq _ _ r (base rec) r)
    by (unfold slift; by rewrite (intent_ok _ _ _ Hok), Hrec).
  pose proof Hok as [Hix Hsl].
  assert (intentTypes (tables r) !! id = Some (target_type (intent_target (base rec))))
    as Hty by by rewrite (ix_types _ _ _ Hix), lookup_fmap, Hrec.
  rewrite Hty.
  rewrite (stm_bind_eq _ _ r (target_type (intent_target (base rec))) r) by done.
  pose proof (push_lifecycle_spec false (base rec) r) as Hpush.
  destruct (N.leb_spec maximumBufferedLifecycleRecords (len (lifecycleRecords r))).
  { unfold mbind, stm_bind. rewrite Hpush. cbn. auto. }
  rewrite (stm_bind_eq _ _ _ _ _ Hpush). set (r1 := set_lifecycle _ r).
  destruct (ix_storage _ _ _ Hix id rec Hrec) as [address Hs].
  pose proof (ix_id _ _ _ Hix id rec Hrec) as Hid.
  destruct (removed_state_ok r1 L id rec address) as [Hok' Hadv]; [done..|].
  rewrite (stm_bind_eq _ _ _ tt _) by done.
  destruct (remove_indexes_fields (base rec) (tables r))
    as (Fs & Ft & Fa & Fg & Fn & _ & _ & _ & _).
  set (r2 := set_tables (erase_from_indexes (base rec) (tables r1)) r1).
  assert (storages (tables r2) !! target_type (intent_target (base rec)) = Some address)
    as Hs2 by (etrans; [|exact Hs]; by rewrite <-Fs).
  assert (modify_storage (target_type (intent_target (base rec))) (storage_destroy id) r2
    = (Ok tt, set_objects (alter (storage_destroy id) address (objects r2)) r2)) as Hmod.
  { unfold modify_storage. rewrite (stm_bind_eq _ _ r2 r2 r2) by done. by rewrite Hs2. }
  rewrite (stm_bind_eq _ _ _ _ _ Hmod).
  rewrite (stm_bind_eq _ _ _ tt _) by done.
  set (r3 := set_tables _ _).
  assert (in_use (worldId r) (tables r3) id) as Huse.
  { assert (tables r3 = remove_indexes (base rec) (tables r)) as ->
      by (unfold remove_indexes; by rewrite Hid).
    apply (in_use_fields _ (tables r)); [done..|].
    apply (sl_live _ _ _ Hsl). by eapply elem_of_dom_2. }
  rewrite (retire_intent_id_eq (worldId r) r3 id Huse).
  exists rec. split; [done|].
  assert (set_tables (retired id (tables r3)) r3 = removed_state address (base rec) r1)
    as -> by (unfold removed_state, remove_indexes, r3; by rewrite Hid).
  split; [done|]. split; [|done]. etrans; [apply advances_lifecycle|exact Hadv].
Qed.
(** ** Creation *)

Lemma storage_for_type_spec type class r L :
  registry_ok r L →
  match storage_for_type type class r with
  | (Ok address, r') => registry_ok r' L ∧ advances r r' ∧
      storages (tables r') !! type = Some address ∧
      lifecycleRecords r' = lifecycleRecords r ∧
      byOwner (tables r') = byOwner (tables r) ∧
      byOwnerName (tables r') = byOwnerName (tables r) ∧
      lastSequence (tables r') = lastSequence (tables r)
  | (Err _, r') => r' = r
  end.
Proof.
  intros [Hix Hsl]. unfold storage_for_type. destruct (_ =? _); [done|].
  rewrite (stm_bind_eq _ _ _ _ _ (sreject_if_false _ _ _)).
  rewrite (stm_bind_eq _ _ r r r) by done.
  destruct (storages (tables r) !! type) as [address|] eqn:Hs.
  - destruct (ix_hold _ _ _ Hix _ _ Hs) as (s & -> & _).
    destruct (storage_class s =? class); cbn [negb]; [|done]. by split_and!.
  - destruct (indexes_ok_new_storage _ _ _ type class Hix Hs) as [Hnot Hix'].
    split_and!.
    + split; [exact Hix'|]. by apply (slots_ok_fields _ (tables r)).
    + split; try done. cbn. by apply insert_subseteq.
    + cbn. apply lookup_insert_eq.
    + done.
    + done.
    + done.
    + done.
Qed.

(** The state in which every index lists the new intent. *)
Definition added_state (address : N) (s : IntentStorage) (rec : @component_intent C) r
  : IntentRegistry :=
  set_objects (<[address := MkIntentStorage (storage_class s)
      (<[intent_id (base rec) := rec]> (storage_records s))]> (objects r))
    (set_tables (insert_indexes (base rec) (tables r)) r).

Definition all_flags : create_flags := MkCreateFlags true true true.

(** The [try] block runs to its last statement. *)
Lemma index_intent_eval address s rec r L :
  indexes_ok (tables r) (objects r) L → L !! intent_id (base rec) = None →
  storages (tables r) !! target_type (intent_target (base rec)) = Some address →
  objects r !! address = Some s → storage_records s !! intent_id (base rec) = None →
  is_Some (byOwner (tables r) !! intent_owner (base rec)) →
  name_free (base rec) (tables r) →
  index_intent address rec (r, MkCreateFlags false false false) =
  if maximumBufferedLifecycleRecords <=? len (lifecycleRecords r)
  then (throw length_error "intent lifecycle evidence capacity exceeded",
        (added_state address s rec r, all_flags))
  else (Ok (intent_id (base rec)),
        (set_lifecycle (lifecycleRecords r ++ [MkLifecycle true (base rec)])
           (added_state address s rec r), all_flags)).
Proof.
  intros Hix Hnone Hs Ho Hrec [ids Hids] Hfree.
  assert (intentTypes (tables r) !! intent_id (base rec) = None) as Hty
    by by rewrite (ix_types _ _ _ Hix), lookup_fmap, Hnone.
  assert (bool_decide (intent_id (base rec) ∈ ids) = false) as Hnotin.
  { apply bool_decide_eq_false_2. rewrite (ix_owner _ _ _ Hix _ _ Hids).
    intros (? & H & _). congruence. }
  assert ((insert_target (intent_target (base rec)) (intent_id (base rec))
    (byTarget (tables r))).2 = true) as Hnew.
  { rewrite insert_target_new, bool_decide_eq_false_2; [done|].
    rewrite (ix_target _ _ _ Hix). intros (? & H & _). congruence. }
  unfold index_intent, storage_add, with_registry, set_flags, modify_tables, smodify, sget,
    slift, sreject_if, reject_if, throw, mbind, stm_bind, mret, stm_ret, slift.
  cbn -[push_lifecycle insert_target]. rewrite Ho. cbn -[push_lifecycle insert_target].
  rewrite Hrec. cbn -[push_lifecycle insert_target]. rewrite Hty.
  cbn -[push_lifecycle insert_target].
  rewrite Hids. cbn -[push_lifecycle insert_target]. rewrite Hnotin.
  cbn -[push_lifecycle insert_target]. rewrite Hnew.
  unfold added_state, insert_indexes. cbn zeta.
  destruct (bool_decide_reflect (intent_name (base rec) = "")) as [He|He].
  - cbn -[push_lifecycle insert_target]. rewrite push_lifecycle_spec. cbn -[insert_target].
    rewrite (alter_lookup _ _ _ _ Hids). by destruct (_ <=? _).
  - destruct Hfree as [?|(names & Hn & Hfree)]; [done|]. rewrite Hn, Hfree.
    cbn -[push_lifecycle insert_target]. rewrite push_lifecycle_spec. cbn -[insert_target].
    rewrite (alter_lookup _ _ _ _ Hids), (alter_lookup _ _ _ _ Hn). by destruct (_ <=? _).
Qed.

Lemma added_state_ok r L address s rec :
  indexes_ok (tables r) (objects r) L →
  slots_ok (worldId r) (tables r) ({[intent_id (base rec)]} ∪ dom L) →
  L !! intent_id (base rec) = None →
  storages (tables r) !! target_type (intent_target (base rec)) = Some address →
  objects r !! address = Some s → is_Some (byOwner (tables r) !! intent_owner (base rec)) →
  name_free (base rec) (tables r) →
  intent_sequence (base rec) = lastSequence (tables r) → 1 <= lastSequence (tables r) →
  (∀ id' rec', L !! id' = Some rec' →
     intent_sequence (base rec') < lastSequence (tables r)) →
  registry_ok (added_state address s rec r) (<[intent_id (base rec) := rec]> L).
Proof.
  intros Hix Hsl Hnone Hs Ho Hp Hf Hseq Hpos Hlt.
  destruct (insert_indexes_fields (base rec) (tables r)) as (Fs & _ & Fa & Fg & Fn & _).
  split.
  - by apply indexes_ok_insert.
  - rewrite dom_insert_L. by apply (slots_ok_fields _ (tables r)).
Qed.

(** The [catch] block takes the state with every index in place back. *)
Lemma undo_create_ok r L address s rec :
  let i := base rec in
  indexes_ok (tables r) (objects r) L →
  slots_ok (worldId r) (tables r) ({[intent_id i]} ∪ dom L) → L !! intent_id i = None →
  storages (tables r) !! target_type (intent_target i) = Some address →
  objects r !! address = Some s → is_Some (byOwner (tables r) !! intent_owner i) →
  name_free i (tables r) → intent_sequence i = lastSequence (tables r) →
  1 <= lastSequence (tables r) →
  (∀ id' rec', L !! id' = Some rec' →
     intent_sequence (base rec') < lastSequence (tables r)) →
  let r' := undo_create address i all_flags (added_state address s rec r) in
  registry_ok r' L ∧ registry_identity r' = registry_identity r ∧ worldId r' = worldId r ∧
  transactionActive r' = transactionActive r ∧ lifecycleRecords r' = lifecycleRecords r ∧
  storages (tables r') = storages (tables r) ∧
  (∀ x, issued (worldId r) (tables r) x →
     handle_slot x ≠ handle_slot (intent_id i) ∨
     handle_generation x < handle_generation (intent_id i) →
     issued (worldId r) (tables r') x).
Proof.
  intros i Hix Hsl Hnone Hs Ho Hp Hf Hseq Hpos Hlt r'.
  pose proof (added_state_ok r L address s rec Hix Hsl Hnone Hs Ho Hp Hf Hseq Hpos Hlt)
    as [Hix1 _].
  set (r1 := added_state address s rec r) in *.
  destruct (insert_indexes_fields i (tables r)) as (Fs & _ & Fa & Fg & Fn & _).
  destruct (remove_indexes_fields i (tables r1)) as (Gs & _ & Ga & Gg & Gn & _).
  change (tables r1) with (insert_indexes i (tables r)) in Gs, Ga, Gg, Gn.
  pose proof (indexes_ok_remove _ _ _ (intent_id i) rec address Hix1) as Hrem.
  rewrite lookup_insert_eq, delete_insert_id in Hrem by done.
  specialize (Hrem eq_refl ltac:(etrans; [|exact Hs]; by rewrite <-Fs)).
  assert (r' = set_objects (alter (storage_destroy (intent_id i)) address (objects r1))
    (set_tables (release_intent_id (intent_id i) (remove_indexes i (tables r1))) r1)) as ->.
  { unfold r', undo_create, remove_indexes, erase_from_indexes. fold i.
    rewrite undo_target_eq by apply (ix_no_empty _ _ _ Hix1). cbn -[erase_target].
    by destruct (bool_decide (intent_name i = "")). }
  assert (slots_ok (worldId r) (remove_indexes i (tables r1)) ({[intent_id i]} ∪ dom L))
    as Hsl1.
  { apply (slots_ok_fields _ (tables r)); [..|done].
    - etrans; [exact Ga|exact Fa]. - etrans; [exact Gg|exact Fg].
    - etrans; [exact Gn|exact Fn]. }
  destruct (release_ok _ _ _ _ Hsl1) as [Hsl2 Hiss]; [by apply not_elem_of_dom|].
  assert (storages (release_intent_id (intent_id i) (remove_indexes i (tables r1))) =
    storages (tables r)) as Hst.
  { etrans; [|etrans; [exact Gs|exact Fs]]. unfold release_intent_id. by destruct (_ =? _). }
  split_and!; try done.
  - split; [|done]. cbn. unfold release_intent_id.
    destruct (_ =? _); by apply indexes_ok_slots.
  - intros x Hx Hcase. apply Hiss; [|done]. eapply issued_fields; [..|exact Hx].
    + etrans; [exact Ga|exact Fa]. + etrans; [exact Gg|exact Fg].
    + etrans; [exact Gn|exact Fn].
Qed.

(** The intent [create_impl] stores. *)
Definition new_intent (id : handle) (owner : handle) (type : N) (slot : handle)
    (lifetime : IntentLifetime) (priority : IntentPriority) (sequence : N)
    (encoded : value) (name : string) : Intent :=
  MkIntent id owner (MkComponentTarget type slot) lifetime priority sequence encoded name.

(** Allocation: the id and the sequence are new whatever becomes of them. *)
Lemma allocation_ok r L t id :
  registry_ok r L → issue (worldId r) (tables r) = Some (id, t) →
  indexes_ok t (objects r) L ∧ slots_ok (worldId r) t ({[id]} ∪ dom L) ∧
  L !! id = None ∧ (¬ issued (worldId r) (tables r) id) ∧ storages t = storages (tables r) ∧
  byOwner t = byOwner (tables r) ∧ byOwnerName t = byOwnerName (tables r) ∧
  lastSequence t = lastSequence (tables r) ∧
  (∀ x, issued (worldId r) (tables r) x → issued (worldId r) t x ∧
     (handle_slot x ≠ handle_slot id ∨ handle_generation x < handle_generation id)).
Proof.
  intros [Hix Hsl] Hissue. destruct (issue_ok _ _ _ _ _ Hsl Hissue) as (Hsl' & Hnot & Hni & Hmono).
  assert (∃ av n, t = set_slots av (generations (tables r)) n (tables r)) as (av & n & ->).
  { unfold issue in Hissue. destruct (availableSlots (tables r));
      (destruct (vector_at _ _); [|done]); injection Hissue as _ <-; eauto. }
  split_and!; try done.
  - by apply indexes_ok_slots.
  - by apply not_elem_of_dom.
Qed.
(** [create_impl] from [storage_for] on. *)
Definition allocate_and_index (address : N) (mk : handle → N → @component_intent C)
  : stm IntentRegistry handle :=
  id ← next_intent_id;
  sequence ← next_intent_sequence;
  index_or_undo address (mk id sequence).

(** What a creation that allocated may have done: added the intent, or nothing
    that shows. *)
Definition created_or_same (mk : handle → N → @component_intent C) r L
    (x : res handle) r' : Prop :=
  advances r r' ∧
  match x with
  | Ok id => L !! id = None ∧ (¬ issued (worldId r) (tables r) id) ∧
      registry_ok r' (<[id := mk id (lastSequence (tables r) + 1)]> L) ∧
      lifecycleRecords r' = lifecycleRecords r ++
        [MkLifecycle true (base (mk id (lastSequence (tables r) + 1)))]
  | Err _ => registry_ok r' L ∧ lifecycleRecords r' = lifecycleRecords r
  end.

Lemma allocate_and_index_spec address mk r L owner type name :
  registry_ok r L → storages (tables r) !! type = Some address →
  is_Some (byOwner (tables r) !! owner) →
  (name = "" ∨ ∃ names, byOwnerName (tables r) !! owner = Some names ∧ names !! name = None) →
  (∀ id n, intent_id (base (mk id n)) = id ∧ intent_owner (base (mk id n)) = owner ∧
     target_type (intent_target (base (mk id n))) = type ∧
     intent_name (base (mk id n)) = name ∧ intent_sequence (base (mk id n)) = n) →
  let '(x, r') := allocate_and_index address mk r in created_or_same mk r L x r'.
Proof.
  intros Hok Hs Hp Hf Hmk. unfold allocate_and_index.
  pose proof (next_intent_id_spec r (dom L) (rg_slots _ _ Hok)) as Hnext.
  unfold mbind at 1, stm_bind at 1. destruct (next_intent_id r) as [[id|e] r1].
  2:{ destruct Hnext as [->|[-> Ha]]; [done|]. destruct Hok as [Hix Hsl].
      pose proof Hsl as [Hl Hnd Hav Hn Hlen]. rewrite Ha in *.
      split; [|split; [split|done]].
      - apply advances_tables; [|done]. intros x (? & ? & g & Hg & Hc).
        split; [done|]. split; [done|]. exists g. split; [done|]. cbn. rewrite Ha in Hc.
        destruct Hc as [?|(? & ? & ?)]; [by left|right]. split; [done|]. split; [done|lia].
      - by apply indexes_ok_slots.
      - split; cbn; try done; [|by intros slot ?%elem_of_nil|lia]. intros x Hx. destruct (Hl x Hx) as (? & ? & ? & ?).
        split; [done|]. cbn. split; [lia|]. split; [done|]. apply not_elem_of_nil. }
  destruct Hnext as (t & Hissue & ->).
  destruct (allocation_ok r L t id Hok Hissue)
    as (Hix & Hsl & Hnone & Hni & Hst & Hbo & Hbn & Hls & Hmono).
  set (r1 := set_tables t r).
  assert (slots_ok (worldId r) t (dom L)) as Hleak
    by (eapply slots_ok_subset; [exact Hsl|set_solver]).
  assert (∀ t', availableSlots t' = availableSlots t → generations t' = generations t →
    nextSlot t' = nextSlot t → storages t' = storages t →
    advances r (set_tables t' r)) as Hadv.
  { intros t' H1 H2 H3 H4. apply advances_tables; [|by rewrite H4, Hst].
    intros x Hx. eapply issued_fields; [done..|]. by apply Hmono. }
  unfold next_intent_sequence. unfold mbind at 1, stm_bind at 1.
  rewrite (stm_bind_eq _ _ r1 r1 r1) by done. cbn [tables r1 set_tables].
  rewrite Hls. destruct (N.eqb_spec (lastSequence (tables r)) u64_max) as [Hmax|Hmax].
  { split; [by apply Hadv|]. split; [|done]. by split. }
  cbn [sreject_if slift reject_if].
  set (seq := lastSequence (tables r) + 1). set (r2 := set_tables (set_lastSequence seq t) r).
  change (match _ with (Ok a, s') => index_or_undo address (mk id a) s' | (Err e, s') => (Err e, s') end)
    with (index_or_undo address (mk id seq) r2).
  destruct (Hmk id seq) as (Hid & Ho & Hty & Hnm & Hsq).
  set (rec := mk id seq) in *.
  assert (indexes_ok (tables r2) (objects r2) L) as Hix2
    by (apply indexes_ok_lastSequence; [done|unfold seq; lia]).
  assert (slots_ok (worldId r2) (tables r2) ({[intent_id (base rec)]} ∪ dom L)) as Hsl2
    by (rewrite Hid; by apply (slots_ok_fields _ t)).
  assert (storages (tables r2) !! target_type (intent_target (base rec)) = Some address)
    as Hs2 by (rewrite Hty; cbn; by rewrite Hst).
  assert (is_Some (byOwner (tables r2) !! intent_owner (base rec))) as Hp2
    by (rewrite Ho; cbn; by rewrite Hbo).
  assert (name_free (base rec) (tables r2)) as Hf2
    by (unfold name_free; rewrite Ho, Hnm; cbn; by rewrite Hbn).
  assert (∀ id' rec', L !! id' = Some rec' →
    intent_sequence (base rec') < lastSequence (tables r2)) as Hlt.
  { intros id' rec' Hr. apply (ix_sequence _ _ _ (rg_indexes _ _ Hok)) in Hr. cbn. lia. }
  assert (1 <= lastSequence (tables r2)) as Hpos by (cbn; lia).
  rewrite <-Hid in Hnone.
  destruct (ix_hold _ _ _ Hix2 _ _ Hs2) as (s & Hobj & Hrecs).
  pose proof (index_intent_eval address s rec r2 L Hix2 Hnone Hs2 Hobj) as Heval.
  rewrite Hrecs in Heval. specialize (Heval (of_type_lookup_None _ _ _ Hnone) Hp2 Hf2).
  unfold index_or_undo. rewrite Heval. rewrite Hid in *.
  change (lifecycleRecords r2) with (lifecycleRecords r).
  destruct (maximumBufferedLifecycleRecords <=? len (lifecycleRecords r)).
  - pose proof (undo_create_ok r2 L address s rec) as Hundo. cbn zeta in Hundo.
    rewrite Hid in Hundo.
    destruct (Hundo Hix2 Hsl2 Hnone Hs2 Hobj Hp2 Hf2 Hsq Hpos Hlt)
      as (Hok' & E1 & E2 & E3 & E4 & E5 & Hiss).
    split; [|by split]. split; try done.
    + intros x Hx. apply Hiss; [|by apply Hmono]. cbn.
      apply (issued_fields _ t); [done..|]. by apply Hmono.
    + rewrite E5. cbn. by rewrite Hst.
  - pose proof (added_state_ok r2 L address s rec) as Hadd. rewrite Hid in Hadd.
    specialize (Hadd Hix2 Hsl2 Hnone Hs2 Hobj Hp2 Hf2 Hsq Hpos Hlt).
    destruct (insert_indexes_fields (base rec) (tables r2)) as (Fs & _ & Fa & Fg & Fn & _).
    split.
    + trans (added_state address s rec r2);
        [|exact (advances_lifecycle (added_state address s rec r2) _)].
      trans (set_tables (insert_indexes (base rec) (tables r2)) r);
        [by apply Hadv|exact (advances_objects (set_tables _ r) _)].
    + split; [done|]. split; [done|]. split; [by apply registry_ok_lifecycle|done].
Qed.
(** The record a creation stores, from the id and sequence it is given. *)
Definition made (owner : handle) (type : N) (slot : handle) (lifetime : IntentLifetime)
    (v : C) (priority : IntentPriority) (encoded : value) (name : string)
    (id : handle) (sequence : N) : @component_intent C :=
  MkComponentIntent
    (new_intent id owner type slot lifetime priority sequence encoded name) v.

Lemma create_impl_spec r L owner type class slot lifetime v priority encoded name :
  registry_ok r L →
  let '(x, r') := create_impl owner type class slot lifetime v priority encoded name r in
  created_or_same (made owner type slot lifetime v priority encoded name) r L x r'.
Proof.
  intros Hok. unfold create_impl. set (mk := made _ _ _ _ _ _ _ _).
  assert (∀ e, created_or_same mk r L (Err e) r) as Hsame by by intros.
  rewrite (stm_bind_eq _ _ r r r) by done.
  destruct (bool_decide_reflect (is_Some (byOwner (tables r) !! owner))) as [Hp|Hp];
    cbn [negb]; [|apply Hsame].
  rewrite (stm_bind_eq _ _ _ _ _ (sreject_if_false _ _ _)).
  destruct (type =? InvalidComponentTypeId); [apply Hsame|].
  rewrite (stm_bind_eq _ _ _ _ _ (sreject_if_false _ _ _)).
  destruct (bool_decide (slot = InvalidComponentSlotId)); [apply Hsame|].
  rewrite (stm_bind_eq _ _ _ _ _ (sreject_if_false _ _ _)).
  destruct (validate_metadata lifetime) as [[]|e] eqn:Hm; [|apply Hsame].
  rewrite (stm_bind_eq _ _ r tt r) by done.
  destruct (128 <? slen name); [apply Hsame|].
  rewrite (stm_bind_eq _ _ _ _ _ (sreject_if_false _ _ _)).
  destruct (ix_name_pool _ _ _ (rg_indexes _ _ Hok) owner Hp) as [names Hn]. rewrite Hn.
  set (guard := if bool_decide (name = "") then _ else _).
  assert ((guard r = (Ok tt, r) ∧ (name = "" ∨ names !! name = None)) ∨
    ∃ e, guard r = (Err e, r)) as Hguard.
  { unfold guard. destruct (bool_decide_reflect (name = "")) as [He|He]; [by left; auto|].
    destruct (names !! name) eqn:E; [right; by eexists|left; auto]. }
  clearbody guard. destruct Hguard as [[Hg Hfree]|[e Hg]].
  2:{ unfold mbind at 1, stm_bind at 1. rewrite Hg. apply Hsame. }
  rewrite (stm_bind_eq _ _ _ _ _ Hg).
  pose proof (storage_for_type_spec type class r L Hok) as Hst.
  unfold mbind at 1, stm_bind at 1.
  destruct (storage_for_type type class r) as [[address|e] r1]; [|by subst r1].
  destruct Hst as (Hok1 & Hadv & Hs & Hl & Hbo & Hbn & Hls).
  pose proof (allocate_and_index_spec address mk r1 L owner type name Hok1 Hs) as Hspec.
  rewrite Hbo, Hbn in Hspec. specialize (Hspec Hp).
  assert (name = "" ∨ ∃ ns, byOwnerName (tables r) !! owner = Some ns ∧ ns !! name = None)
    as Hf by (destruct Hfree; eauto).
  specialize (Hspec Hf). specialize (Hspec ltac:(by intros)).
  match goal with |- context [mbind ?f next_intent_id r1] =>
    change (mbind f next_intent_id r1) with (allocate_and_index address mk r1) end.
  destruct (allocate_and_index address mk r1) as [x r2]. destruct Hspec as [Hadv2 Hx].
  split; [by etrans|]. rewrite Hl, Hls in Hx. destruct x as [id|e]; [|done].
  destruct Hx as (? & Hni & ? & ?). split_and!; try done.
  intros Hiss%(adv_issued _ _ Hadv). apply Hni. by rewrite (adv_world _ _ Hadv).
Qed.

(** ** Destroying many *)

(** The intents left when those in [ids] are destroyed. *)
Definition without (ids : list handle) L : gmap handle (@component_intent C) :=
  filter (λ p, p.1 ∉ ids) L.

Lemma without_lookup ids L id rec :
  without ids L !! id = Some rec ↔ L !! id = Some rec ∧ id ∉ ids.
Proof. apply map_lookup_filter_Some. Qed.

Lemma without_nil L : without [] L = L.
Proof. apply map_filter_id. intros. apply not_elem_of_nil. Qed.

Lemma without_delete id ids L : without ids (delete id L) = without (id :: ids) L.
Proof.
  apply map_eq. intros x. apply option_eq. intros rec.
  rewrite !without_lookup, lookup_delete_Some, not_elem_of_cons. naive_solver.
Qed.

(** A run of [destroy]: all of them, or, when the evidence buffer fills up or an
    id is not live, a prefix. *)
Lemma destroy_all_spec ids r L :
  registry_ok r L → transactionActive r = false →
  let '(x, r') := sfor destroy ids r in
  advances r r' ∧ ∃ done rest, ids = done ++ rest ∧ registry_ok r' (without done L) ∧
    match x with
    | Ok _ => rest = []
    | Err _ => ∃ id rest', rest = id :: rest' ∧
        (without done L !! id = None ∨
         maximumBufferedLifecycleRecords <= len (lifecycleRecords r'))
    end.
Proof.
  revert r L. induction ids as [|id ids IH]; intros r L Hok Htx; cbn [sfor].
  { split; [done|]. exists [], []. by rewrite without_nil. }
  pose proof (destroy_spec r L id Hok Htx) as Hd. unfold mbind, stm_bind.
  destruct (destroy id r) as [[u|e] r1].
  - destruct Hd as (rec & Hrec & Hok1 & Hadv1 & _).
    specialize (IH r1 (delete id L) Hok1 ltac:(by rewrite (adv_transaction _ _ Hadv1))).
    destruct (sfor destroy ids r1) as [x r2].
    destruct IH as (Hadv2 & dn & rest & -> & Hok2 & Hx). split; [by etrans|].
    exists (id :: dn), rest. rewrite <-without_delete. done.
  - destruct Hd as [-> Hcase]. split; [done|]. exists [], (id :: ids).
    rewrite without_nil. split; [done|]. split; [done|]. eauto.
Qed.

Lemma without_live_prefix dn id rest L :
  NoDup (dn ++ id :: rest) → is_Some (L !! id) → is_Some (without dn L !! id).
Proof.
  intros Hnd [rec Hr]. exists rec. apply without_lookup. split; [done|].
  apply NoDup_app in Hnd as (_ & Hd & _). intros Hin. apply (Hd id Hin). left.
Qed.

(** ** Expiry *)

Definition expired (now : N) (rec : @component_intent C) : bool :=
  lifetime_is_expired (intent_lifetime (base rec)) now.

Lemma expired_intent_ids_spec now r L :
  registry_ok r L →
  ∃ ids, expired_intent_ids now r = Ok ids ∧ NoDup ids ∧
    ∀ id, id ∈ ids ↔ ∃ rec, L !! id = Some rec ∧ expired now rec = true.
Proof.
  intros Hok. unfold expired_intent_ids, live_intent_ids.
  rewrite (dom_intentTypes _ _ Hok).
  assert (∀ l acc, (∀ id, id ∈ l → is_Some (L !! id)) → NoDup (acc ++ l) →
    ∃ ids, rfold (λ expired id, lifetime ← lifetime_of id r;
        Ok (if lifetime_is_expired lifetime now then expired ++ [id] else expired)) l acc
      = Ok ids ∧ NoDup ids ∧ ∀ id, id ∈ ids ↔ id ∈ acc ∨
        (id ∈ l ∧ ∃ rec, L !! id = Some rec ∧ expired now rec = true)) as Hloop.
  { induction l as [|id l IH]; intros acc Hlive Hnd; cbn [rfold].
    { rewrite app_nil_r in Hnd. exists acc. split; [done|]. split; [done|]. set_solver. }
    destruct (Hlive id) as [rec Hrec]; [left|].
    assert (lifetime_of id r = Ok (intent_lifetime (base rec))) as ->
      by (unfold lifetime_of; by rewrite (intent_ok _ _ _ Hok), Hrec).
    cbn [mbind res_bind].
    change (lifetime_is_expired (intent_lifetime (base rec)) now) with (expired now rec).
    destruct (expired now rec) eqn:He.
    - destruct (IH (acc ++ [id])) as (ids & E & Hnd' & Hin).
      { intros x Hx. apply Hlive. by right. }
      { by rewrite <-app_assoc. }
      exists ids. split; [exact E|]. split; [done|]. intros x.
      rewrite Hin, elem_of_app, list_elem_of_singleton, elem_of_cons.
      split; [intros [ [?| ->] |[? ?] ] |intros [?|[ [->|?] ?] ] ]; eauto 6.
    - destruct (IH acc) as (ids & E & Hnd' & Hin).
      { intros x Hx. apply Hlive. by right. }
      { apply NoDup_app in Hnd as (? & Hd & [_ ?]%NoDup_cons).
        apply NoDup_app. split_and!; [done| |done]. intros x Hx Hl. apply (Hd x Hx). by right. }
      exists ids. split; [exact E|]. split; [done|]. intros x.
      rewrite Hin, elem_of_cons. split; [intros [?|[? ?]]; auto|].
      intros [?|[ [-> |?] (rec' & Hr' & He')]]; [by left| |by eauto 6].
      simplify_eq. congruence. }
  destruct (Hloop (ordered (dom L)) []) as (ids & E & Hnd & Hin).
  - intros id Hid%elem_of_ordered. by apply elem_of_dom.
  - apply NoDup_ordered.
  - exists ids. split; [done|]. split; [done|]. intros id. rewrite Hin. split.
    + by intros [?%elem_of_nil|[_ ?]].
    + intros (rec & Hr & He). right. split; [|by eauto].
      apply elem_of_ordered. by eapply elem_of_dom_2.
Qed.

(** ** Selection *)

(** [a] does not outrank [b]: priority first, then recency. *)
Definition outranked (a b : Intent) : Prop :=
  priority_value (intent_priority a) < priority_value (intent_priority b) ∨
  intent_priority a = intent_priority b ∧ intent_sequence a <= intent_sequence b.

Lemma beats_spec candidate s :
  beats candidate (Some s) = false ↔ outranked candidate s.
Proof.
  unfold beats, outranked. rewrite orb_false_iff, andb_false_iff, bool_decide_eq_false.
  rewrite N.ltb_ge, N.ltb_ge.
  destruct (intent_priority candidate), (intent_priority s); cbn; intuition (lia || congruence).
Qed.

Lemma beats_total candidate s :
  beats candidate (Some s) = true → outranked s candidate.
Proof.
  unfold beats, outranked. rewrite orb_true_iff, andb_true_iff, bool_decide_eq_true.
  rewrite !N.ltb_lt. intros [?|[-> ?]]; [by left|right; split; [done|lia]].
Qed.

Lemma outranked_trans a b c : outranked a b → outranked b c → outranked a c.
Proof.
  unfold outranked. intros [?|[E ?]] [?|[E' ?]].
  - left. lia.
  - left. by rewrite <-E'.
  - left. by rewrite E.
  - right. split; [congruence|lia].
Qed.

(** [id] is the intent that prevails on [tgt]. *)
Definition prevails L (tgt : ComponentTarget) (id : handle) : Prop :=
  ∃ rec, L !! id = Some rec ∧ intent_target (base rec) = tgt ∧
    ∀ id' rec', L !! id' = Some rec' → intent_target (base rec') = tgt →
      outranked (base rec') (base rec).

(** At most one intent prevails, since sequences are distinct. *)
Lemma prevails_unique r L tgt id id' :
  registry_ok r L → prevails L tgt id → prevails L tgt id' → id = id'.
Proof.
  intros [Hix _] (rec & Hr & Ht & Ho) (rec' & Hr' & Ht' & Ho').
  apply (ix_sequence_inj _ _ _ Hix _ _ _ _ Hr Hr').
  specialize (Ho _ _ Hr' Ht'). specialize (Ho' _ _ Hr Ht). unfold outranked in *.
  destruct Ho as [?|[E ?]], Ho' as [?|[E' ?]]; try lia.
  - rewrite E' in *. lia.
  - rewrite E in *. lia.
Qed.

(** The loop over the ids [l] when the best of those before it is [acc]. *)
Lemma select_slot_loop r L l acc :
  registry_ok r L → (∀ id, id ∈ l → is_Some (L !! id)) →
  ∃ w, rfold (λ selected id, candidate ← intent id r;
      Ok (if beats candidate selected then Some candidate else selected)) l acc = Ok w ∧
    (w = acc ∨ ∃ id rec, id ∈ l ∧ L !! id = Some rec ∧ w = Some (base rec)) ∧
    (∀ a, acc = Some a → ∃ b, w = Some b ∧ outranked a b) ∧
    (∀ id rec, id ∈ l → L !! id = Some rec → ∃ b, w = Some b ∧ outranked (base rec) b).
Proof.
  intros Hok. revert acc. induction l as [|id l IH]; intros acc Hl; cbn [rfold].
  { exists acc. split; [done|]. split; [by left|]. split; [|by intros ? ? ?%elem_of_nil].
    intros a ->. exists a. split; [done|]. right. split; [done|lia]. }
  destruct (Hl id) as [rec Hrec]; [left|].
  rewrite (intent_ok _ _ _ Hok), Hrec. cbn [mbind res_bind].
  set (acc' := if beats (base rec) acc then _ else _).
  destruct (IH acc') as (w & E & Hw & Ha & Hall); [by intros x Hx; apply Hl; right|].
  exists w. split; [exact E|].
  assert (∃ b, acc' = Some b ∧ outranked (base rec) b ∧
    ∀ a, acc = Some a → outranked a b) as (b & Hb & Hrb & Hab).
  { unfold acc'. assert (outranked (base rec) (base rec)) as Hrefl
      by (right; split; [done|lia]). destruct (beats (base rec) acc) eqn:Eb.
    - eexists. split; [done|]. split; [done|]. intros a ->. by apply beats_total.
    - destruct acc as [a|]; [|done]. exists a. split; [done|]. split; [by apply beats_spec|].
      intros ? [= <-]. right. split; [done|lia]. }
  destruct (Ha _ Hb) as (c & Hc & Hbc). split_and!.
  - destruct Hw as [->|(id' & rec' & Hin & ? & ?)]; [|right; exists id', rec'; split; [by right|done]].
    unfold acc'. destruct (beats _ _); [right|by left]. exists id, rec. split; [left|done].
  - intros a Hacc. exists c. split; [done|]. eapply outranked_trans; [by apply Hab|done].
  - intros id' rec' [->|Hin]%elem_of_cons Hr'; [|by eapply Hall].
    exists c. split; [done|]. simplify_eq. by eapply outranked_trans.
Qed.

Lemma select_slot_spec r L tgt :
  registry_ok r L →
  ∃ w, select_slot (target_ids (byTarget (tables r)) tgt) r = Ok w ∧
    ∀ id, prevails L tgt id ↔ ∃ i, w = Some i ∧ intent_id i = id.
Proof.
  intros Hok. pose proof (rg_indexes _ _ Hok) as Hix. unfold select_slot.
  destruct (select_slot_loop r L (ordered (target_ids (byTarget (tables r)) tgt)) None Hok)
    as (w & E & Hw & _ & Hall).
  { intros id (rec & ? & _)%elem_of_ordered%(ix_target _ _ _ Hix). eauto. }
  exists w. split; [exact E|].
  assert (∀ id rec, L !! id = Some rec → intent_target (base rec) = tgt →
    ∃ b, w = Some b ∧ outranked (base rec) b) as Hbest.
  { intros id rec Hr Ht. apply (Hall id rec); [|done].
    apply elem_of_ordered, (ix_target _ _ _ Hix). eauto. }
  assert (∀ i, w = Some i → prevails L tgt (intent_id i)) as Hp.
  { intros i ->. destruct Hw as [?|(id & rec & Hin & Hr & [= ->])]; [done|].
    rewrite (ix_id _ _ _ Hix _ _ Hr).
    apply elem_of_ordered, (ix_target _ _ _ Hix) in Hin as (rec' & Hr' & Ht).
    exists rec. simplify_eq. split; [done|]. split; [done|].
    intros id' rec0 H0 H1. by destruct (Hbest _ _ H0 H1) as (b & [= <-] & ?). }
  intros id. split.
  - intros Hid. pose proof Hid as (rec & Hr & Ht & _).
    destruct (Hbest _ _ Hr Ht) as (b & Hb & _). exists b. split; [done|].
    apply (prevails_unique r L tgt _ _ Hok); [by apply Hp|done].
  - intros (i & Hi & <-). by apply Hp.
Qed.

(** [select]: for each named component the intent that prevails on its slot. *)
Definition selects L type (components : list (string * handle))
    (chosen : list (string * handle)) : Prop :=
  ∀ name id, (name, id) ∈ chosen ↔
    ∃ slot, (name, slot) ∈ components ∧ prevails L (MkComponentTarget type slot) id.

Lemma select_spec r L type components :
  registry_ok r L → sm_sorted components →
  ∃ chosen, select type components r = Ok chosen ∧ sm_sorted chosen ∧
    selects L type components chosen.
Proof.
  intros Hok. unfold select. set (step := λ chosen component, _).
  assert (∀ l before chosen, sm_sorted (before ++ l) → sm_sorted chosen →
    (∀ n, n ∈ chosen.*1 → n ∈ before.*1) →
    selects L type before chosen →
    ∃ out, rfold step l chosen = Ok out ∧ sm_sorted out ∧
      selects L type (before ++ l) out) as Hloop.
  2:{ intros Hs. apply (Hloop components [] []); [done|constructor|done|].
      intros n id. split; [by intros ?%elem_of_nil|]. by intros (? & ?%elem_of_nil & _). }
  induction l as [|[name slot] l IH]; intros before chosen Hs Hc Hsub Hsel; cbn [rfold].
  { exists chosen. by rewrite app_nil_r. }
  pose proof (sm_sorted_app_lt _ _ _ _ Hs) as Hlt.
  assert (∃ w, step chosen (name, slot) = Ok (match w with
      | Some i => (sm_emplace name (intent_id i) chosen).1 | None => chosen end) ∧
    ∀ id, prevails L (MkComponentTarget type slot) id ↔
      ∃ i, w = Some i ∧ intent_id i = id) as (w & Hstep & Hw).
  { destruct (select_slot_spec r L (MkComponentTarget type slot) Hok) as (w & E & Hw).
    unfold target_ids in E. cbn in E. unfold step. cbn.
    destruct (byTarget (tables r) !! type) as [slots|]; cbn in E.
    2:{ exists w. split; [|done]. by injection E as <-. }
    destruct (slots !! slot) as [ids|]; cbn in E.
    - exists w. split; [|done]. by rewrite E.
    - exists w. split; [|done]. by injection E as <-. }
  rewrite Hstep. cbn [mbind res_bind].
  assert (before ++ (name, slot) :: l = (before ++ [(name, slot)]) ++ l) as Heq
    by by rewrite <-app_assoc.
  rewrite Heq in *.
  assert (Forall (λ k, str_lt k name) chosen.*1) as Hclt.
  { apply Forall_forall. intros n Hn. rewrite Forall_forall in Hlt. auto. }
  destruct w as [i|].
  - rewrite (sm_emplace_last _ _ _ Hclt). cbn. apply IH; [done| | |].
    + by apply sm_sorted_snoc.
    + intros n. rewrite !fmap_app, !elem_of_app. cbn. intros [?|?]; auto.
    + intros n id. rewrite elem_of_app, list_elem_of_singleton.
      setoid_rewrite elem_of_app. setoid_rewrite list_elem_of_singleton. split.
      * intros [(s & ? & ?)%Hsel|[= -> ->]]; [by eauto|].
        exists slot. split; [by right|]. apply Hw. eauto.
      * intros (s & [?|[= -> ->]] & Hp); [left; apply Hsel; eauto|right].
        apply Hw in Hp as (? & [= <-] & <-). done.
  - apply IH; [done|done| |].
    + intros n Hn. rewrite fmap_app, elem_of_app. auto.
    + intros n id. setoid_rewrite elem_of_app. setoid_rewrite list_elem_of_singleton.
      rewrite (Hsel n id). split.
      * intros (s & ? & ?). eauto.
      * intros (s & [?|[= -> ->]] & Hp); [by eauto|].
        apply Hw in Hp as (? & ? & _). done.
Qed.

(** ** Resolution *)

Definition unexpired (now : N) L : gmap handle (@component_intent C) :=
  filter (λ p, expired now p.2 = false) L.

Lemma unexpired_lookup now L id rec :
  unexpired now L !! id = Some rec ↔ L !! id = Some rec ∧ expired now rec = false.
Proof. apply map_lookup_filter_Some. Qed.

Lemma without_expired now L ids :
  (∀ id, id ∈ ids ↔ ∃ rec, L !! id = Some rec ∧ expired now rec = true) →
  without ids L = unexpired now L.
Proof.
  intros Hids. apply map_eq. intros id. apply option_eq. intros rec.
  rewrite without_lookup, unexpired_lookup, Hids. split; intros [Hr H]; (split; [done|]).
  - destruct (expired now rec) eqn:E; [|done]. exfalso. apply H. eauto.
  - intros (rec' & ? & ?). congruence.
Qed.

(** What a run of destructions may have done when it was cut short: the
    evidence buffer is full, and only intents in [ids] are gone. *)
Definition cut_short (ids : handle → Prop) L r' : Prop :=
  maximumBufferedLifecycleRecords <= len (lifecycleRecords r') ∧
  ∃ gone, Forall ids gone ∧ registry_ok r' (without gone L).

(** A run of [destroy] over distinct live ids. *)
Lemma destroy_live_spec ids r L :
  registry_ok r L → transactionActive r = false → NoDup ids →
  (∀ id, id ∈ ids → is_Some (L !! id)) →
  let '(x, r') := sfor destroy ids r in
  advances r r' ∧
  match x with
  | Ok _ => registry_ok r' (without ids L)
  | Err _ => cut_short (λ id, id ∈ ids) L r'
  end.
Proof.
  intros Hok Htx Hnd Hlive. pose proof (destroy_all_spec ids r L Hok Htx) as H.
  destruct (sfor destroy ids r) as [x r']. destruct H as (Hadv & dn & rest & -> & Hok' & H).
  split; [done|]. destruct x as [u|e].
  - subst rest. by rewrite app_nil_r.
  - destruct H as (id & rest' & -> & [Hnone|Hfull]).
    + destruct (without_live_prefix dn id rest' L) as [rec Hrec]; [done| |congruence].
      apply Hlive, elem_of_app. right. left.
    + split; [done|]. exists dn. split; [|done]. apply Forall_forall. intros x Hx.
      apply elem_of_app. by left.
Qed.

Lemma destroy_expired_spec now r L :
  registry_ok r L → transactionActive r = false →
  ∃ ids, expired_intent_ids now r = Ok ids ∧
    (∀ id, id ∈ ids ↔ ∃ rec, L !! id = Some rec ∧ expired now rec = true) ∧ NoDup ids ∧
    let '(x, r') := sfor destroy ids r in
    advances r r' ∧
    match x with
    | Ok _ => registry_ok r' (unexpired now L)
    | Err _ => cut_short (λ id, ∃ rec, L !! id = Some rec ∧ expired now rec = true) L r'
    end.
Proof.
  intros Hok Htx. destruct (expired_intent_ids_spec now r L Hok) as (ids & E & Hnd & Hin).
  exists ids. split; [done|]. split; [done|]. split; [done|].
  pose proof (destroy_live_spec ids r L Hok Htx Hnd) as H.
  destruct (sfor destroy ids r) as [x r'].
  destruct H as [Hadv H]; [intros id (? & ? & _)%Hin; eauto|]. split; [done|].
  destruct x as [u|e].
  - by rewrite <-(without_expired now L ids Hin).
  - destruct H as (Hfull & gone & Hgone & Hok'). split; [done|]. exists gone.
    split; [|done]. eapply Forall_impl; [exact Hgone|]. intros id. by rewrite Hin.
Qed.

Lemma resolve_spec type components now r L :
  registry_ok r L → transactionActive r = false → sm_sorted components →
  match resolve type components now r with
  | (Ok chosen, r') => registry_ok r' (unexpired now L) ∧ advances r r' ∧
      sm_sorted chosen ∧ selects (unexpired now L) type components chosen
  | (Err _, r') => advances r r' ∧
      cut_short (λ id, ∃ rec, L !! id = Some rec ∧ expired now rec = true) L r'
  end.
Proof.
  intros Hok Htx Hs. unfold resolve.
  rewrite (stm_bind_eq _ _ r tt r)
    by (unfold ensure_no_active_transaction; by rewrite Htx).
  rewrite (stm_bind_eq _ _ r r r) by done.
  destruct (destroy_expired_spec now r L Hok Htx) as (ids & E & _ & _ & H).
  rewrite E. rewrite (stm_bind_eq _ _ r ids r) by done.
  unfold mbind at 1, stm_bind at 1.
  destruct (sfor destroy ids r) as [[u|e] r1]; [|done]. destruct H as [Hadv Hok1].
  rewrite (stm_bind_eq _ _ r1 r1 r1) by done. unfold slift.
  destruct (select_spec r1 _ type components Hok1 Hs) as (chosen & -> & Hc & Hsel).
  done.
Qed.

Lemma destroy_expired_intents_spec now r L :
  registry_ok r L → transactionActive r = false →
  let '(x, r') := destroy_expired_intents now r in
  advances r r' ∧
  match x with
  | Ok n => registry_ok r' (unexpired now L)
  | Err _ => cut_short (λ id, ∃ rec, L !! id = Some rec ∧ expired now rec = true) L r'
  end.
Proof.
  intros Hok Htx. unfold destroy_expired_intents.
  rewrite (stm_bind_eq _ _ r r r) by done.
  destruct (destroy_expired_spec now r L Hok Htx) as (ids & E & _ & _ & H).
  rewrite E. rewrite (stm_bind_eq _ _ r ids r) by done.
  unfold mbind at 1, stm_bind at 1.
  by destruct (sfor destroy ids r) as [[u|e] r1].
Qed.

(** ** Pools *)

Definition owned_by (owner : handle) L (id : handle) : Prop :=
  ∃ rec, L !! id = Some rec ∧ intent_owner (base rec) = owner.

Definition disowned (owner : handle) L : gmap handle (@component_intent C) :=
  filter (λ p, intent_owner (base p.2) ≠ owner) L.

Lemma disowned_lookup owner L id rec :
  disowned owner L !! id = Some rec ↔ L !! id = Some rec ∧ intent_owner (base rec) ≠ owner.
Proof. apply map_lookup_filter_Some. Qed.

Lemma without_owned owner L ids :
  (∀ id, id ∈ ids ↔ owned_by owner L id) → without ids L = disowned owner L.
Proof.
  intros Hids. apply map_eq. intros id. apply option_eq. intros rec.
  rewrite without_lookup, disowned_lookup, Hids. unfold owned_by.
  split; intros [Hr H]; (split; [done|]); [|naive_solver congruence].
  intros ?. apply H. eauto.
Qed.

Lemma disowned_none owner L :
  (∀ id rec, L !! id = Some rec → intent_owner (base rec) ≠ owner) → disowned owner L = L.
Proof. intros H. apply map_filter_id. intros id rec. apply H. Qed.

Lemma indexes_ok_drop_pool owner t o L :
  (∀ id rec, L !! id = Some rec → intent_owner (base rec) ≠ owner) →
  indexes_ok t o L → indexes_ok (set_byOwner (delete owner (byOwner t)) t) o L.
Proof.
  intros Hno []. split; try done; cbn.
  - intros ow ids [_ ?]%lookup_delete_Some. by apply ix_owner0.
  - intros id rec Hr. rewrite lookup_delete_ne; [by eapply ix_pool0|].
    intros E. by apply (Hno _ _ Hr).
  - intros ow [ids [_ ?]%lookup_delete_Some]. eauto.
Qed.

Lemma indexes_ok_add_pool owner t o L :
  (∀ id rec, L !! id = Some rec → intent_owner (base rec) ≠ owner) →
  indexes_ok t o L →
  indexes_ok (set_byOwnerName (<[owner := default ∅ (byOwnerName t !! owner)]> (byOwnerName t))
    (set_byOwner (<[owner := default ∅ (byOwner t !! owner)]> (byOwner t)) t)) o L.
Proof.
  intros Hno Hix. pose proof Hix as []. split; try done; cbn.
  - intros ow ids. destruct (decide (ow = owner)) as [->|Hne].
    + rewrite lookup_insert_eq. intros [= <-] id.
      destruct (byOwner t !! owner) as [ids|] eqn:E; [by apply ix_owner0|cbn].
      split; [set_solver|]. intros (rec & Hr & Ho). by destruct (Hno _ _ Hr).
    + rewrite lookup_insert_ne by done. apply ix_owner0.
  - intros id rec Hr. rewrite lookup_insert_ne; [by eapply ix_pool0|].
    intros E. by apply (Hno _ _ Hr).
  - intros ow names. destruct (decide (ow = owner)) as [->|Hne].
    + rewrite lookup_insert_eq. intros [= <-] name id.
      destruct (byOwnerName t !! owner) as [names|] eqn:E; [by apply ix_name0|cbn].
      split; [by rewrite lookup_empty|].
      intros (_ & rec & Hr & Ho & _). by destruct (Hno _ _ Hr).
    + rewrite lookup_insert_ne by done. apply ix_name0.
  - intros ow. destruct (decide (ow = owner)) as [->|Hne].
    + rewrite !lookup_insert_eq. by eexists.
    + rewrite !lookup_insert_ne by done. apply ix_name_pool0.
Qed.

Lemma destroy_owned_by_spec owner r L :
  registry_ok r L → transactionActive r = false →
  let '(x, r') := destroy_owned_by owner r in
  advances r r' ∧
  match x with
  | Ok _ => registry_ok r' (disowned owner L)
  | Err _ => cut_short (owned_by owner L) L r'
  end.
Proof.
  intros Hok Htx. unfold destroy_owned_by.
  rewrite (stm_bind_eq _ _ r tt r)
    by (unfold ensure_no_active_transaction; by rewrite Htx).
  rewrite (stm_bind_eq _ _ r r r) by done.
  pose proof (rg_indexes _ _ Hok) as Hix.
  destruct (byOwner (tables r) !! owner) as [owned|] eqn:Eo.
  2:{ split; [done|]. rewrite disowned_none; [done|]. intros id rec Hr <-.
      destruct (ix_pool _ _ _ Hix _ _ Hr). congruence. }
  assert (∀ id, id ∈ ordered owned ↔ owned_by owner L id) as Hin
    by (intros; rewrite elem_of_ordered; by apply (ix_owner _ _ _ Hix)).
  pose proof (destroy_live_spec (ordered owned) r L Hok Htx (NoDup_ordered _)) as H.
  unfold mbind, stm_bind. destruct (sfor destroy (ordered owned) r) as [x r1].
  destruct H as [Hadv H]; [intros id (? & ? & _)%Hin; eauto|]. destruct x as [u|e].
  - rewrite (without_owned _ _ _ Hin) in H. split.
    + etrans; [exact Hadv|]. by split.
    + destruct H as [Hix' Hsl]. split; [|by apply (slots_ok_fields _ (tables r1))].
      apply indexes_ok_drop_pool; [|done]. by intros id rec [_ ?]%disowned_lookup.
  - split; [done|]. destruct H as (Hfull & gone & Hgone & Hok'). split; [done|].
    exists gone. split; [|done]. eapply Forall_impl; [exact Hgone|]. intros id. by rewrite Hin.
Qed.

Lemma create_behavior_pool_spec owner r L :
  registry_ok r L → transactionActive r = false →
  let '(x, r') := create_behavior_pool owner r in
  advances r r' ∧
  match x with
  | Ok _ => registry_ok r' (disowned owner L) ∧ is_Some (byOwner (tables r') !! owner)
  | Err _ => cut_short (owned_by owner L) L r'
  end.
Proof.
  intros Hok Htx. unfold create_behavior_pool.
  pose proof (destroy_owned_by_spec owner r L Hok Htx) as H.
  unfold mbind, stm_bind. destruct (destroy_owned_by owner r) as [[u|e] r1]; [|done].
  destruct H as [Hadv Hok1]. split.
  - etrans; [exact Hadv|]. by split.
  - split; [|cbn; rewrite lookup_insert_eq; by eexists].
    destruct Hok1 as [Hix Hsl]. split; [|by apply (slots_ok_fields _ (tables r1))].
    refine (indexes_ok_add_pool owner (tables r1) _ _ _ Hix).
    by intros id rec [_ ?]%disowned_lookup.
Qed.
End Spec.
