(* ===== verification/IntentRuns.v ===== *)
(** * Runs of the intent registry
    (include/liquid/detail/IntentRegistry.hpp, src/IntentRegistry.cpp,
     src/IntentExpiration.cpp)

    What the registry promises outside transactions, as steps on a finite map
    and the ids given so far, and the proof that every run of its operations
    implements it. *)
From S2P Require Import Prelude OrderedMap Values Ids Intents IntentSpec.

Section Runs.
Context {C : Type}.
Implicit Types (L : gmap handle (@component_intent C)) (r : @IntentRegistry C).

(** ** Operations *)

Inductive operation :=
  | Create (owner : handle) (type class : N) (slot : handle) (lifetime : IntentLifetime)
      (v : C) (priority : IntentPriority) (encoded : value) (name : string)
  | Destroy (id : handle)
  | DestroyOwnedBy (owner : handle)
  | CreatePool (owner : handle)
  | Resolve (type : N) (components : list (string * handle)) (now : N)
  | DestroyExpired (now : N)
  | ClearLifecycle.

Inductive outcome :=
  | Created (id : handle)
  | Chosen (chosen : list (string * handle))
  | Finished.

Definition perform (op : operation) : stm (@IntentRegistry C) outcome :=
  match op with
  | Create owner type class slot lifetime v priority encoded name =>
      id ← create owner type class slot lifetime v priority encoded name;
      mret (Created id)
  | Destroy id => destroy id;; mret Finished
  | DestroyOwnedBy owner => destroy_owned_by owner;; mret Finished
  | CreatePool owner => create_behavior_pool owner;; mret Finished
  | Resolve type components now =>
      chosen ← resolve type components now; mret (Chosen chosen)
  | DestroyExpired now => destroy_expired_intents now;; mret Finished
  | ClearLifecycle => clear_lifecycle_records;; mret Finished
  end.

(** The operations one after the other, a failed one leaving the next to run. *)
Fixpoint perform_all (ops : list operation) r : list (res outcome) * IntentRegistry :=
  match ops with
  | [] => ([], r)
  | op :: ops =>
      let '(x, r) := perform op r in
      let '(xs, r) := perform_all ops r in (x :: xs, r)
  end.

(** A [std::map] argument. *)
Definition well_formed (op : operation) : Prop :=
  match op with Resolve _ components _ => sm_sorted components | _ => True end.

(** ** Specification *)

Record intents := MkIntents {
  live : gmap handle (@component_intent C);
  given : list handle
}.

Definition newer (sequence : N) L : Prop :=
  ∀ id rec, L !! id = Some rec → intent_sequence (base rec) < sequence.

Definition is_expired (now : N) L (id : handle) : Prop :=
  ∃ rec, L !! id = Some rec ∧ expired now rec = true.

Inductive spec_step : intents → operation → res outcome → intents → Prop :=
  | spec_created L given owner type class slot lifetime v priority encoded name id sequence :
      (id ∉ given) → L !! id = None → newer sequence L →
      spec_step (MkIntents L given)
        (Create owner type class slot lifetime v priority encoded name)
        (Ok (Created id))
        (MkIntents (<[id := made owner type slot lifetime v priority encoded name id sequence]> L)
           (id :: given))
  | spec_destroyed L given id :
      is_Some (L !! id) →
      spec_step (MkIntents L given) (Destroy id) (Ok Finished) (MkIntents (delete id L) given)
  | spec_disowned L given owner :
      spec_step (MkIntents L given) (DestroyOwnedBy owner) (Ok Finished)
        (MkIntents (disowned owner L) given)
  | spec_pool L given owner :
      spec_step (MkIntents L given) (CreatePool owner) (Ok Finished)
        (MkIntents (disowned owner L) given)
  | spec_resolved L given type components now chosen :
      sm_sorted chosen → selects (unexpired now L) type components chosen →
      spec_step (MkIntents L given) (Resolve type components now) (Ok (Chosen chosen))
        (MkIntents (unexpired now L) given)
  | spec_expired L given now :
      spec_step (MkIntents L given) (DestroyExpired now) (Ok Finished)
        (MkIntents (unexpired now L) given)
  | spec_cleared a : spec_step a ClearLifecycle (Ok Finished) a
  (** Failures: a creation or a destruction changes nothing, the others may
      have destroyed some of what they set out to. *)
  | spec_not_created a owner type class slot lifetime v priority encoded name e :
      spec_step a (Create owner type class slot lifetime v priority encoded name) (Err e) a
  | spec_not_destroyed a id e : spec_step a (Destroy id) (Err e) a
  | spec_cut_short L given op now owner ids e :
      match op with
      | DestroyOwnedBy ow | CreatePool ow => ow = owner ∧ Forall (owned_by owner L) ids
      | Resolve _ _ t | DestroyExpired t => t = now ∧ Forall (is_expired now L) ids
      | _ => False
      end →
      spec_step (MkIntents L given) op (Err e) (MkIntents (without ids L) given).

Inductive spec_run : intents → list operation → list (res outcome) → intents → Prop :=
  | spec_run_nil a : spec_run a [] [] a
  | spec_run_cons a b c op ops x xs :
      spec_step a op x b → spec_run b ops xs c → spec_run a (op :: ops) (x :: xs) c.

(** ** Queries *)

(** The queries tell of [L] and nothing else. *)
Record answers r L : Prop := {
  ans_intent id : find_intent id r = match L !! id with
    | Some rec => Ok rec
    | None => throw runtime_error "intent id not found"
    end;
  ans_exists id : intent_exists id r = bool_decide (is_Some (L !! id));
  ans_live : live_intent_ids r = ordered (dom L);
  ans_count : intent_count r = N.of_nat (size L);
  ans_owned owner id : id ∈ intents_owned_by owner r ↔ owned_by owner L id;
  ans_named owner name id : intent_named owner name r = Some id ↔
    name ≠ "" ∧ ∃ rec, L !! id = Some rec ∧ intent_owner (base rec) = owner ∧
                       intent_name (base rec) = name;
  ans_for type slot id : id ∈ intents_for type slot r ↔
    ∃ rec, L !! id = Some rec ∧ intent_target (base rec) = MkComponentTarget type slot
}.

Lemma registry_answers r L : registry_ok r L → answers r L.
Proof.
  intros Hok. pose proof (rg_indexes _ _ Hok) as Hix.
  pose proof (dom_intentTypes _ _ Hok) as Hdom. split.
  - intros id. by apply find_intent_ok.
  - intros id. unfold intent_exists. apply bool_decide_ext.
    rewrite (ix_types _ _ _ Hix), lookup_fmap. by rewrite fmap_is_Some.
  - unfold live_intent_ids. by rewrite Hdom.
  - unfold intent_count. by rewrite (ix_types _ _ _ Hix), map_size_fmap.
  - intros owner id. unfold intents_owned_by, owned_by.
    destruct (byOwner (tables r) !! owner) as [ids|] eqn:E.
    + rewrite elem_of_ordered. by apply (ix_owner _ _ _ Hix).
    + split; [by intros ?%elem_of_nil|]. intros (rec & Hr & <-).
      destruct (ix_pool _ _ _ Hix _ _ Hr). congruence.
  - intros owner name id. unfold intent_named.
    destruct (byOwnerName (tables r) !! owner) as [names|] eqn:E; cbn.
    + by apply (ix_name _ _ _ Hix).
    + split; [done|]. intros (_ & rec & Hr & <- & _).
      destruct (ix_name_pool _ _ _ Hix _ (ix_pool _ _ _ Hix _ _ Hr)). congruence.
  - intros type slot id. rewrite <-(ix_target _ _ _ Hix). unfold intents_for, target_ids. cbn.
    destruct (byTarget (tables r) !! type ≫= _) as [ids|]; cbn.
    + apply elem_of_ordered.
    + split; [by intros ?%elem_of_nil|set_solver].
Qed.

(** ** Refinement *)

Record implements r (a : intents) : Prop := {
  im_ok : registry_ok r (live a);
  im_closed : transactionActive r = false;
  im_given id : id ∈ given a → issued (worldId r) (tables r) id
}.

(** An [advances] step keeps what was given, whatever becomes of the map. *)
Lemma implements_advances r r' a L' :
  implements r a → advances r r' → registry_ok r' L' →
  implements r' (MkIntents L' (given a)).
Proof.
  intros [Hok Htx Hg] Hadv Hok'. split; cbn.
  - done.
  - by rewrite (adv_transaction _ _ Hadv).
  - intros id Hid. rewrite (adv_world _ _ Hadv). by apply (adv_issued _ _ Hadv), Hg.
Qed.

Lemma perform_create r a owner type class slot lifetime v priority encoded name :
  implements r a →
  let op := Create owner type class slot lifetime v priority encoded name in
  let '(x, r') := perform op r in ∃ a', spec_step a op x a' ∧ implements r' a'.
Proof.
  intros Him. pose proof Him as [Hok Htx Hg]. cbn. unfold create.
  pose proof (create_impl_spec r (live a) owner type class slot lifetime v priority encoded
    name Hok) as Hspec. unfold mbind at 1, stm_bind at 1.
  rewrite (stm_bind_eq _ _ r tt r)
    by (unfold ensure_no_active_transaction; by rewrite Htx).
  destruct (create_impl _ _ _ _ _ _ _ _ _ r) as [[id|e] r']; destruct Hspec as [Hadv H].
  - destruct H as (Hnone & Hni & Hok' & _). destruct a as [L given]. cbn in *.
    eexists. split.
    + apply spec_created with (sequence := lastSequence (tables r) + 1); [by intros ?%Hg|done|].
      intros id' rec' Hr. pose proof (ix_sequence _ _ _ (rg_indexes _ _ Hok) _ _ Hr). lia.
    + pose proof (implements_advances _ _ _ _ Him Hadv Hok') as [H1 H2 H3]. cbn in *.
      split; [done|done|]. cbn. intros x [->|Hx]%elem_of_cons; [|by apply H3].
      apply in_use_issued, (sl_live _ _ _ (rg_slots _ _ H1)). apply elem_of_dom.
      rewrite lookup_insert_eq. by eexists.
  - destruct H as [Hok' _]. exists a. split; [constructor|].
    destruct a. by apply (implements_advances _ _ _ _ Him Hadv).
Qed.

Lemma perform_destroy r a id :
  implements r a →
  let '(x, r') := perform (Destroy id) r in
  ∃ a', spec_step a (Destroy id) x a' ∧ implements r' a'.
Proof.
  intros Him. pose proof Him as [Hok Htx _]. cbn.
  pose proof (destroy_spec r (live a) id Hok Htx) as H. unfold mbind, stm_bind.
  destruct (destroy id r) as [[u|e] r'].
  - destruct H as (rec & Hr & Hok' & Hadv & _). destruct a as [L given]. cbn in *.
    eexists. split; [by apply spec_destroyed|].
    by apply (implements_advances _ _ _ _ Him Hadv).
  - destruct H as [-> _]. exists a. split; [constructor|done].
Qed.

(** The operations that destroy a whole class of intents. *)
Lemma cut_short_implements r r' a op now owner (P : handle → Prop) e :
  implements r a → advances r r' → cut_short P (live a) r' →
  (∀ ids, Forall P ids → match op with
    | DestroyOwnedBy ow | CreatePool ow => ow = owner ∧ Forall (owned_by owner (live a)) ids
    | Resolve _ _ t | DestroyExpired t => t = now ∧ Forall (is_expired now (live a)) ids
    | _ => False
    end) →
  ∃ a', spec_step a op (Err e) a' ∧ implements r' a'.
Proof.
  intros Him Hadv (_ & gone & Hgone & Hok') HP. destruct a as [L given]. cbn in *.
  eexists. split; [by eapply spec_cut_short, HP|].
  by apply (implements_advances _ _ _ _ Him Hadv).
Qed.

Theorem perform_implements r a op :
  implements r a → well_formed op →
  let '(x, r') := perform op r in ∃ a', spec_step a op x a' ∧ implements r' a'.
Proof.
  intros Him Hwf. pose proof Him as [Hok Htx Hg]. destruct op.
  - by apply perform_create.
  - by apply perform_destroy.
  - cbn. pose proof (destroy_owned_by_spec owner r (live a) Hok Htx) as H.
    unfold mbind, stm_bind. destruct (destroy_owned_by owner r) as [[u|e] r'], H as [Hadv H].
    + destruct a as [L given]. eexists. split; [constructor|].
      by apply (implements_advances _ _ _ _ Him Hadv).
    + by eapply (cut_short_implements _ _ _ _ 0 owner).
  - cbn. pose proof (create_behavior_pool_spec owner r (live a) Hok Htx) as H.
    unfold mbind, stm_bind.
    destruct (create_behavior_pool owner r) as [[u|e] r'], H as [Hadv H].
    + destruct H as [H _]. destruct a as [L given]. eexists. split; [constructor|].
      by apply (implements_advances _ _ _ _ Him Hadv).
    + by eapply (cut_short_implements _ _ _ _ 0 owner).
  - cbn. pose proof (resolve_spec type components now r (live a) Hok Htx Hwf) as H.
    unfold mbind, stm_bind. destruct (resolve type components now r) as [[chosen|e] r'].
    + destruct H as (Hok' & Hadv & Hs & Hsel). destruct a as [L given].
      eexists. split; [by constructor|]. by apply (implements_advances _ _ _ _ Him Hadv).
    + destruct H as [Hadv H]. by eapply (cut_short_implements _ _ _ _ now InvalidComponentSlotId).
  - cbn. pose proof (destroy_expired_intents_spec now r (live a) Hok Htx) as H.
    unfold mbind, stm_bind.
    destruct (destroy_expired_intents now r) as [[n|e] r'], H as [Hadv H].
    + destruct a as [L given]. eexists. split; [constructor|].
      by apply (implements_advances _ _ _ _ Him Hadv).
    + by eapply (cut_short_implements _ _ _ _ now InvalidComponentSlotId).
  - cbn. unfold clear_lifecycle_records.
    assert (ensure_no_active_transaction r = (Ok tt, r)) as Hopen
      by (unfold ensure_no_active_transaction; by rewrite Htx).
    unfold mbind, stm_bind. rewrite Hopen. cbn.
    exists a. split; [constructor|]. split; [|done|done].
    exact (registry_ok_lifecycle r (live a) [] Hok).
Qed.

Lemma perform_all_implements ops r a :
  implements r a → Forall well_formed ops →
  let '(xs, r') := perform_all ops r in ∃ a', spec_run a ops xs a' ∧ implements r' a'.
Proof.
  revert r a. induction ops as [|op ops IH]; intros r a Him Hwf; cbn.
  { exists a. split; [constructor|done]. }
  apply Forall_cons in Hwf as [Hop Hwf].
  pose proof (perform_implements r a op Him Hop) as H.
  destruct (perform op r) as [x r1]. destruct H as (b & Hstep & Hb).
  specialize (IH r1 b Hb Hwf). destruct (perform_all ops r1) as [xs r2].
  destruct IH as (c & Hrun & Hc). exists c. split; [by econstructor|done].
Qed.

Lemma spec_run_given a ops xs b :
  spec_run a ops xs b → NoDup (given a) → NoDup (given b) ∧ given a ⊆ given b.
Proof.
  induction 1 as [|a b c op ops x xs Hstep _ IH]; intros Hnd; [done|].
  assert (NoDup (given b) ∧ given a ⊆ given b) as [Hb Hsub].
  { destruct Hstep; cbn in *; (split; [|set_solver]); try done. by constructor. }
  destruct (IH Hb). split; [done|]. by etrans.
Qed.

Lemma new_registry_implements identity world :
  implements (new_IntentRegistry identity world) (MkIntents ∅ []).
Proof. split; [apply new_registry_ok|done|by intros ? ?%elem_of_nil]. Qed.

(** C16. The intent registry refines a finite map.  Whatever sequence of
    operations is performed on a new registry, successful or not, there is a run
    of the specification with the same results: a created id was never given
    before and its sequence is newer than every live one's, destructions remove
    what they name, [resolve] answers from the intents that have not expired,
    and failures change nothing or stop part-way through.  In the end every
    query answers from the map, and no id was given twice. *)
Theorem registry_refines_map identity world ops :
  Forall well_formed ops →
  let '(xs, r) := perform_all ops (new_IntentRegistry identity world) in
  ∃ a, spec_run (MkIntents ∅ []) ops xs a ∧ answers r (live a) ∧ NoDup (given a).
Proof.
  intros Hwf.
  pose proof (perform_all_implements ops _ _ (new_registry_implements identity world) Hwf) as H.
  destruct (perform_all ops _) as [xs r]. destruct H as (a & Hrun & Him).
  exists a. split; [done|]. split; [apply registry_answers, Him|].
  eapply spec_run_given; [exact Hrun|constructor].
Qed.

(** C20. [resolve] selects by priority, then recency.  Called on a registry with
    the intents [L], it leaves exactly those that have not expired, and chooses
    for each named component the one live intent on its slot that outranks all
    others, if there is any; it fails only when the evidence buffer is full, and
    then has destroyed expired intents only. *)
Theorem resolve_chooses_prevailing type components now r L :
  registry_ok r L → transactionActive r = false → sm_sorted components →
  match resolve type components now r with
  | (Ok chosen, r') => registry_ok r' (unexpired now L) ∧ sm_sorted chosen ∧
      (∀ name id, (name, id) ∈ chosen ↔ ∃ slot, (name, slot) ∈ components ∧
         prevails (unexpired now L) (MkComponentTarget type slot) id) ∧
      (∀ tgt id id', prevails (unexpired now L) tgt id →
         prevails (unexpired now L) tgt id' → id = id')
  | (Err _, r') =>
      maximumBufferedLifecycleRecords <= len (lifecycleRecords r') ∧
      ∃ gone, Forall (is_expired now L) gone ∧ registry_ok r' (without gone L)
  end.
Proof.
  intros Hok Htx Hs. pose proof (resolve_spec type components now r L Hok Htx Hs) as H.
  destruct (resolve type components now r) as [[chosen|e] r'].
  - destruct H as (Hok' & _ & ? & ?). split_and!; [done..|]. intros tgt id id'.
    by apply (prevails_unique r' _ tgt id id').
  - by destruct H.
Qed.
End Runs.

(** ** A run *)

(** The specification's map is determined by the registry. *)
Definition contents {C} (r : @IntentRegistry C) : gmap handle (@component_intent C) :=
  map_imap (λ id _, match find_intent id r with Ok rec => Some rec | Err _ => None end)
    (intentTypes (tables r)).

Lemma contents_eq {C} (r : @IntentRegistry C) L : registry_ok r L → L = contents r.
Proof.
  intros Hok. apply map_eq. intros id. unfold contents.
  rewrite map_lookup_imap, (find_intent_ok _ _ _ Hok).
  rewrite (ix_types _ _ _ (rg_indexes _ _ Hok)), lookup_fmap.
  by destruct (L !! id).
Qed.

(** Two behaviors target the same lamp; the first one's second intent expires. *)
Definition lamp : handle := MkHandle 1 1 1.
Definition first_behavior : handle := MkHandle 1 1 1.
Definition second_behavior : handle := MkHandle 1 2 1.
Definition lamp_ops : list (@operation N) :=
  [CreatePool first_behavior; CreatePool second_behavior;
   Create first_behavior 1 0 lamp persistent 10 Medium VNull "glow";
   Create first_behavior 1 0 lamp (until_time 5) 20 High VNull "flash";
   Create second_behavior 1 0 lamp persistent 30 Medium VNull "";
   Create second_behavior 1 0 lamp persistent 40 Low VNull "";
   Create first_behavior 1 0 lamp persistent 50 Medium VNull "glow"].
Definition lamp_registry : IntentRegistry :=
  (perform_all lamp_ops (new_IntentRegistry 1 1)).2.

Lemma lamp_ops_well_formed : Forall well_formed lamp_ops.
Proof. by repeat constructor. Qed.

Lemma lamp_registry_ok : registry_ok lamp_registry (contents lamp_registry).
Proof.
  pose proof (perform_all_implements lamp_ops _ _ (new_registry_implements 1 1)
    lamp_ops_well_formed) as H.
  unfold lamp_registry. destruct (perform_all lamp_ops _) as [xs r].
  destruct H as (a & _ & [Hok _ _]). cbn. by rewrite <-(contents_eq _ _ Hok).
Qed.

Lemma registry_refines_map_witness :
  Forall well_formed lamp_ops ∧
  ∃ a xs, spec_run (MkIntents ∅ []) lamp_ops xs a ∧
    answers lamp_registry (live a) ∧ NoDup (given a).
Proof.
  split; [exact lamp_ops_well_formed|].
  pose proof (registry_refines_map 1 1 lamp_ops lamp_ops_well_formed) as H.
  unfold lamp_registry. destruct (perform_all lamp_ops (new_IntentRegistry 1 1)) as [xs r].
  destruct H as (a & ? & ? & ?). by exists a, xs.
Defined.

(** At time 7 the flash is over: the newest of the medium intents prevails. *)
Lemma resolve_chooses_prevailing_witness :
  (resolve 1 [("lamp", lamp)] 7 lamp_registry).1 = Ok [("lamp", MkHandle 1 3 1)] ∧
  prevails (unexpired 7 (contents lamp_registry)) (MkComponentTarget 1 lamp)
    (MkHandle 1 3 1).
Proof.
  assert ((resolve 1 [("lamp", lamp)] 7 lamp_registry).1 = Ok [("lamp", MkHandle 1 3 1)])
    as E by by vm_compute.
  split; [exact E|].
  assert (transactionActive lamp_registry = false) as Htx by by vm_compute.
  assert (sm_sorted [("lamp", lamp)]) as Hs by by repeat constructor.
  pose proof (resolve_chooses_prevailing 1 [("lamp", lamp)] 7 lamp_registry
    (contents lamp_registry) lamp_registry_ok Htx Hs) as H.
  revert E H. generalize (resolve 1 [("lamp", lamp)] 7 lamp_registry).
  intros [[chosen|e] r'] E H; [|done].
  injection E as ->. destruct H as (_ & _ & Hsel & _).
  destruct (proj1 (Hsel "lamp" (MkHandle 1 3 1))) as (slot & Hslot & Hp).
  - apply list_elem_of_singleton. reflexivity.
  - apply list_elem_of_singleton in Hslot. by injection Hslot as ->.
Defined.
