(* ===== verification/IntentTransactions.v ===== *)
(** * Intent transactions
    (include/liquid/detail/IntentRegistry.hpp, src/IntentRegistry.cpp)

    A transaction cancels and creates intents and is then committed or rolled
    back.  Rollback puts the snapshot of the tables back, empties the typed
    storages of what was created and returns the cancelled records to them.
    The theorems are about [Intents.rollback]; the last one shows a sequence of
    operations it does not undo. *)
From S2P Require Import Prelude OrderedMap Values Ids Intents IntentSpec IntentRuns.

Section Transactions.
Context {C : Type}.
Implicit Types (L : gmap handle (@component_intent C)) (r : @IntentRegistry C)
  (t : @Transaction C).

(** ** What may happen in a transaction *)

Inductive transaction_operation :=
  | TxCancel (id : handle)
  | TxCreate (owner : handle) (type class : N) (slot : handle) (lifetime : IntentLifetime)
      (v : C) (priority : IntentPriority) (encoded : value) (name : string).

Definition perform_in (op : transaction_operation)
  : stm (@IntentRegistry C * @Transaction C) unit :=
  match op with
  | TxCancel id => cancel id
  | TxCreate owner type class slot lifetime v priority encoded name =>
      create_in_transaction owner type class slot lifetime v priority encoded name;; mret tt
  end.

(** The state after the operations, whether they succeed or fail. *)
Definition perform_all_in (ops : list transaction_operation)
    (s : @IntentRegistry C * @Transaction C) : IntentRegistry * Transaction :=
  foldl (λ s op, (perform_in op s).2) s ops.

(** Cancellations name intents that were live when the transaction began. *)
Definition cancels_prior L (op : transaction_operation) : Prop :=
  match op with TxCancel id => is_Some (L !! id) | _ => True end.

(** ** The invariant of an open transaction *)

(** [r0] and [L0]: the registry when the transaction began, and its intents. *)
Record transaction_ok r0 L0 r t L : Prop := {
  tx_ok : registry_ok r L;
  tx_open : transactionActive r = true;
  tx_identity : registry_identity r = registry_identity r0;
  tx_world : worldId r = worldId r0;
  tx_registry : transaction_registry t = registry_identity r0;
  tx_live : transaction_live t = true;
  tx_snapshot : snapshot t = tables r0;
  tx_count : lifecycleRecordCount t = len (lifecycleRecords r0);
  tx_lifecycle : lifecycleRecords r0 `prefix_of` lifecycleRecords r;
  tx_storages : storages (tables r0) ⊆ storages (tables r);
  tx_issued id : is_Some (L0 !! id) → issued (worldId r) (tables r) id;
  tx_nodup : NoDup ((λ n, intent_id (base n.2)) <$> cancelled t);
  tx_cancelled address rec : (address, rec) ∈ cancelled t →
    L0 !! intent_id (base rec) = Some rec ∧ L !! intent_id (base rec) = None ∧
    storages (tables r) !! target_type (intent_target (base rec)) = Some address;
  tx_kept id rec : L0 !! id = Some rec →
    L !! id = Some rec ∨ ∃ address, (address, rec) ∈ cancelled t
}.

Lemma begin_transaction_ok r0 L0 t r :
  registry_ok r0 L0 → begin_transaction r0 = (Ok t, r) → transaction_ok r0 L0 r t L0.
Proof.
  intros Hok. unfold begin_transaction. rewrite (stm_bind_eq _ _ r0 r0 r0) by done.
  destruct (transactionActive r0); [done|].
  rewrite (stm_bind_eq _ _ _ _ _ (sreject_if_false _ _ _)).
  rewrite (stm_bind_eq _ _ r0 tt (set_transaction true r0)) by done.
  intros [= <- <-]. split; cbn; try done.
  - by destruct Hok.
  - intros id Hid%elem_of_dom. apply in_use_issued, (sl_live _ _ _ (rg_slots _ _ Hok) id Hid).
  - constructor.
  - by intros ? ? ?%elem_of_nil.
  - by left.
Qed.

Lemma transaction_ok_open r0 L0 r t L :
  transaction_ok r0 L0 r t L → transaction_open (r, t) = true.
Proof.
  intros H. unfold transaction_open. cbn.
  rewrite (tx_open _ _ _ _ _ H), (tx_live _ _ _ _ _ H), (tx_registry _ _ _ _ _ H),
    (tx_identity _ _ _ _ _ H), N.eqb_refl. done.
Qed.

Lemma require_open_ok r0 L0 r t L :
  transaction_ok r0 L0 r t L → require_open (r, t) = (Ok tt, (r, t)).
Proof.
  intros H. unfold require_open. by rewrite (transaction_ok_open _ _ _ _ _ H).
Qed.

(** [cancel]: destroys, keeping the record. *)
Lemma cancel_spec r0 L0 r t L id :
  transaction_ok r0 L0 r t L →
  match cancel id (r, t) with
  | (Ok _, s') => ∃ rec address, L !! id = Some rec ∧
      storages (tables r) !! target_type (intent_target (base rec)) = Some address ∧
      s' = (removed_state address (base rec)
              (set_lifecycle (lifecycleRecords r ++ [MkLifecycle false (base rec)]) r),
            push_cancelled address rec t)
  | (Err _, s') => s' = (r, t)
  end.
Proof.
  intros Htx. pose proof (tx_ok _ _ _ _ _ Htx) as Hok. unfold cancel.
  rewrite (stm_bind_eq _ _ _ _ _ (require_open_ok _ _ _ _ _ Htx)).
  rewrite (stm_bind_eq _ _ _ (r, t) (r, t)) by done. cbn [fst snd].
  destruct (L !! id) as [rec|] eqn:Hrec.
  2:{ unfold slift, mbind, stm_bind. by rewrite (intent_ok _ _ _ Hok), Hrec. }
  rewrite (stm_bind_eq _ _ _ (base rec) (r, t))
    by (unfold slift; by rewrite (intent_ok _ _ _ Hok), Hrec).
  pose proof (rg_indexes _ _ Hok) as Hix.
  assert (intentTypes (tables r) !! id = Some (target_type (intent_target (base rec))))
    as -> by by rewrite (ix_types _ _ _ Hix), lookup_fmap, Hrec.
  rewrite (stm_bind_eq _ _ _ (target_type (intent_target (base rec))) (r, t)) by done.
  pose proof (push_lifecycle_spec false (base rec) r) as Hpush.
  destruct (maximumBufferedLifecycleRecords <=? len (lifecycleRecords r)).
  { unfold mbind, stm_bind, on_registry. cbn [fst snd]. by rewrite Hpush. }
  set (r1 := set_lifecycle _ r) in *.
  rewrite (stm_bind_eq _ _ (r, t) tt (r1, t))
    by (unfold on_registry; cbn [fst snd]; by rewrite Hpush).
  destruct (ix_storage _ _ _ Hix id rec Hrec) as [address Hs]. rewrite Hs.
  destruct (ix_hold _ _ _ Hix _ _ Hs) as (s & Ho & Hr).
  pose proof (ix_id _ _ _ Hix _ _ Hrec) as Hid.
  assert (storage_extract id s = Ok (rec, storage_destroy id s)) as Hex.
  { unfold storage_extract, storage_intent.
    by rewrite Hr, (of_type_lookup _ _ _ _ Hrec eq_refl). }
  rewrite (stm_bind_eq _ _ (r1, t) address (r1, t)) by done.
  rewrite (stm_bind_eq _ _ (r1, t) s (r1, t)) by (unfold slift; by rewrite Ho).
  rewrite (stm_bind_eq _ _ (r1, t) (rec, storage_destroy id s) (r1, t))
    by (unfold slift; by rewrite Hex).
  cbn [fst snd].
  set (r2 := set_objects (<[address := storage_destroy id s]> (objects r1)) r1).
  rewrite (stm_bind_eq _ _ (r1, t) tt (r2, t)) by done.
  rewrite (stm_bind_eq _ _ _ tt (r2, push_cancelled address rec t)) by done.
  unfold on_registry, mbind, stm_bind. cbn [fst snd modify_tables smodify].
  unfold modify_tables, smodify. cbn [fst snd].
  set (r3 := set_tables (set_intentTypes _ _) _).
  assert (in_use (worldId r) (tables r3) id) as Huse.
  { destruct (remove_indexes_fields (base rec) (tables r)) as (_ & _ & Fa & Fg & Fn & _).
    apply (in_use_fields _ (tables r)).
    - etrans; [|exact Fa]. unfold remove_indexes. by rewrite Hid.
    - etrans; [|exact Fg]. unfold remove_indexes. by rewrite Hid.
    - etrans; [|exact Fn]. unfold remove_indexes. by rewrite Hid.
    - apply (sl_live _ _ _ (rg_slots _ _ Hok)). by eapply elem_of_dom_2. }
  rewrite (retire_intent_id_eq (worldId r) r3 id Huse).
  exists rec, address. split; [done|]. split; [done|]. f_equal.
  unfold removed_state, remove_indexes, r3, r2. rewrite Hid. cbn.
  by rewrite (alter_lookup _ _ _ _ Ho).
Qed.

Context (r0 : @IntentRegistry C) (L0 : gmap handle (@component_intent C)).
Hypothesis Hok0 : registry_ok r0 L0.
Local Abbreviation tx_inv := (transaction_ok r0 L0) (only parsing).

Lemma prior_id id rec : L0 !! id = Some rec → intent_id (base rec) = id.
Proof. apply (ix_id _ _ _ (rg_indexes _ _ Hok0)). Qed.

(** A step of the registry in an open transaction. *)
Lemma transaction_ok_advances r t L r' L' :
  tx_inv r t L → advances r r' → registry_ok r' L' →
  (∀ id, is_Some (L0 !! id) → L' !! id = L !! id) → tx_inv r' t L'.
Proof.
  intros Htx Hadv Hok' Hsame. destruct Htx. split; try done.
  - by rewrite (adv_transaction _ _ Hadv).
  - by rewrite (adv_identity _ _ Hadv).
  - by rewrite (adv_world _ _ Hadv).
  - by etrans; [|apply (adv_lifecycle _ _ Hadv)].
  - by etrans; [|apply (adv_storages _ _ Hadv)].
  - intros id Hid. rewrite (adv_world _ _ Hadv). by apply (adv_issued _ _ Hadv), tx_issued0.
  - intros address rec Hin. destruct (tx_cancelled0 _ _ Hin) as (H1 & H2 & H3).
    split; [done|]. rewrite Hsame by (by eexists). split; [done|].
    exact (lookup_weaken _ _ _ _ H3 (adv_storages _ _ Hadv)).
  - intros id rec Hr. rewrite Hsame by (by eexists). by apply tx_kept0.
Qed.

Lemma cancel_preserves r t L id :
  tx_inv r t L → is_Some (L0 !! id) →
  let '(r', t') := (cancel id (r, t)).2 in ∃ L', tx_inv r' t' L'.
Proof.
  intros Htx [rec0 Hrec0]. pose proof (cancel_spec _ _ _ _ _ id Htx) as H.
  destruct (cancel id (r, t)) as [[u|e] [r' t']]; cbn; [|by simplify_eq; eauto].
  destruct H as (rec & address & Hrec & Hs & [= -> ->]).
  assert (rec0 = rec) as ->.
  { destruct (tx_kept _ _ _ _ _ Htx _ _ Hrec0) as [?|[a Hin]]; [congruence|].
    destruct (tx_cancelled _ _ _ _ _ Htx _ _ Hin) as (_ & Hnone & _).
    rewrite (prior_id _ _ Hrec0) in Hnone. congruence. }
  set (r1 := set_lifecycle _ r).
  assert (registry_ok r1 L) as Hok1 by apply registry_ok_lifecycle, Htx.
  destruct (removed_state_ok r1 L id rec address Hok1 Hrec Hs) as [Hok' Hadv].
  assert (advances r (removed_state address (base rec) r1)) as Hadv'
    by (etrans; [apply advances_lifecycle|exact Hadv]).
  pose proof (prior_id _ _ Hrec0) as Hid. exists (delete id L). destruct Htx. split; try done.
  - by etrans; [|apply (adv_lifecycle _ _ Hadv')].
  - by etrans; [|apply (adv_storages _ _ Hadv')].
  - intros x Hx. rewrite (adv_world _ _ Hadv'). by apply (adv_issued _ _ Hadv'), tx_issued0.
  - cbn. rewrite fmap_app, NoDup_app. split; [done|]. cbn. rewrite Hid.
    split; [|by apply NoDup_singleton].
    intros x ([a n] & Hx & Hin)%list_elem_of_fmap Hx'%list_elem_of_singleton. cbn in *.
    destruct (tx_cancelled0 _ _ Hin) as (_ & Hnone & _). congruence.
  - cbn. intros a n. rewrite elem_of_app, list_elem_of_singleton. intros [Hin|[= -> ->]].
    + destruct (tx_cancelled0 _ _ Hin) as (H1 & H2 & H3). split; [done|].
      split; [by apply lookup_delete_None; right|].
      exact (lookup_weaken _ _ _ _ H3 (adv_storages _ _ Hadv')).
    + pose proof (lookup_weaken _ _ _ _ Hs (adv_storages _ _ Hadv')) as Hs'. cbn in Hs'.
      rewrite Hid in *. by rewrite lookup_delete_eq.
  - intros x n Hn. cbn. destruct (decide (x = id)) as [->|Hne].
    + right. exists address. rewrite elem_of_app, list_elem_of_singleton. right. congruence.
    + rewrite lookup_delete_ne by done.
      destruct (tx_kept0 _ _ Hn) as [?|[a ?]]; [by left|right].
      exists a. rewrite elem_of_app. by left.
Qed.

Lemma create_preserves r t L owner type class slot lifetime v priority encoded name :
  tx_inv r t L →
  let '(r', t') := (create_in_transaction owner type class slot lifetime v priority encoded
                      name (r, t)).2 in ∃ L', tx_inv r' t' L'.
Proof.
  intros Htx. unfold create_in_transaction.
  rewrite (stm_bind_eq _ _ _ _ _ (require_open_ok _ _ _ _ _ Htx)).
  unfold on_registry. cbn [fst snd].
  pose proof (create_impl_spec r L owner type class slot lifetime v priority encoded name
    (tx_ok _ _ _ _ _ Htx)) as H.
  destruct (create_impl _ _ _ _ _ _ _ _ _ r) as [[id|e] r']; cbn; destruct H as [Hadv H].
  - destruct H as (_ & Hni & Hok' & _). eexists.
    apply (transaction_ok_advances r t L r' _ Htx Hadv Hok').
    intros x Hx. rewrite lookup_insert_ne; [done|]. intros <-.
    by apply Hni, (tx_issued _ _ _ _ _ Htx).
  - destruct H as [Hok' _]. exists L. by apply (transaction_ok_advances r t L).
Qed.

Lemma perform_in_preserves r t L op :
  tx_inv r t L → cancels_prior L0 op →
  let '(r', t') := (perform_in op (r, t)).2 in ∃ L', tx_inv r' t' L'.
Proof.
  intros Htx Hop. destruct op; cbn; [by eapply cancel_preserves|].
  pose proof (create_preserves r t L owner type class slot lifetime v priority encoded name Htx)
    as H. unfold mbind, stm_bind.
  by destruct (create_in_transaction _ _ _ _ _ _ _ _ _ _) as [[?|?] ?].
Qed.

Lemma perform_all_in_preserves ops r t L :
  tx_inv r t L → Forall (cancels_prior L0) ops →
  let '(r', t') := perform_all_in ops (r, t) in ∃ L', tx_inv r' t' L'.
Proof.
  unfold perform_all_in. revert r t L. induction ops as [|op ops IH]; intros r t L Htx Hops.
  { cbn. eauto. }
  apply Forall_cons in Hops as [Hop Hops]. cbn [foldl].
  pose proof (perform_in_preserves r t L op Htx Hop) as H.
  destruct ((perform_in op (r, t)).2) as [r1 t1]. destruct H as [L1 Htx1].
  by eapply IH.
Qed.

(** ** Rollback *)

(** The live intents that were live before, and those among [ids]. *)
Definition prior_or (ids : handle → Prop) `{!∀ x, Decision (ids x)} L
  : gmap handle (@component_intent C) :=
  filter (λ p, is_Some (L0 !! p.1) ∨ ids p.1) L.

Lemma destroy_created_loop r t L l :
  tx_inv r t L → NoDup l → (∀ id, id ∈ l → is_Some (L !! id)) →
  ∃ o, foldr (λ id acc, r ← acc;
    if bool_decide (is_Some (intentTypes (snapshot t) !! id)) then Some r
    else type ← intentTypes (tables r) !! id;
         address ← storages (tables r) !! type;
         Some (set_objects (alter (storage_destroy id) address (objects r)) r)) (Some r) l
    = Some (set_objects o r) ∧ storages_hold (tables r) o (prior_or (λ id, id ∉ l) L).
Proof.
  intros Htx. pose proof (rg_indexes _ _ (tx_ok _ _ _ _ _ Htx)) as Hix.
  induction l as [|id l IH]; intros Hnd Hlive; cbn [foldr].
  { exists (objects r). split; [by destruct r|].
    unfold prior_or. rewrite map_filter_id; [apply Hix|]. intros. right. apply not_elem_of_nil. }
  apply NoDup_cons in Hnd as [Hnin Hnd].
  destruct IH as (o & -> & Hh); [done|by intros; apply Hlive; right|]. cbn.
  destruct (Hlive id) as [rec Hrec]; [left|].
  assert (bool_decide (is_Some (intentTypes (snapshot t) !! id)) =
    bool_decide (is_Some (L0 !! id))) as ->.
  { apply bool_decide_ext. rewrite (tx_snapshot _ _ _ _ _ Htx),
      (ix_types _ _ _ (rg_indexes _ _ Hok0)), lookup_fmap. apply fmap_is_Some. }
  rewrite (ix_types _ _ _ Hix), lookup_fmap, Hrec. cbn.
  destruct (ix_storage _ _ _ Hix _ _ Hrec) as [address Hs]. rewrite Hs. cbn.
  destruct (bool_decide_reflect (is_Some (L0 !! id))) as [Hp|Hp].
  - exists o. split; [done|].
    assert (prior_or (λ x, x ∉ id :: l) L = prior_or (λ x, x ∉ l) L) as ->; [|done].
    apply map_filter_ext. intros x y Hx. cbn. rewrite not_elem_of_cons.
    destruct (decide (x = id)) as [->|]; intuition.
  - eexists. split; [done|].
    assert (prior_or (λ x, x ∉ id :: l) L = delete id (prior_or (λ x, x ∉ l) L)) as ->.
    { apply map_eq. intros x. apply option_eq. intros y. unfold prior_or.
      rewrite lookup_delete_Some, !map_lookup_filter_Some. cbn. rewrite not_elem_of_cons.
      destruct (decide (x = id)) as [->|]; intuition. }
    apply (storages_hold_delete _ _ _ id rec); [done| |done|].
    + unfold prior_or. apply map_lookup_filter_Some. by split; [|right].
    + intros type' Ht. by apply (ix_inj _ _ _ Hix _ _ _ Ht Hs).
Qed.

Lemma destroy_created_spec r t L :
  tx_inv r t L →
  ∃ o, destroy_created t r = Some (set_objects o r) ∧
    storages_hold (tables r) o (prior_or (λ id, False) L).
Proof.
  intros Htx. unfold destroy_created.
  rewrite (dom_intentTypes _ _ (tx_ok _ _ _ _ _ Htx)).
  destruct (destroy_created_loop r t L (elements (dom L)) Htx) as (o & -> & Hh).
  - apply NoDup_elements.
  - intros id Hid%elem_of_elements. by apply elem_of_dom.
  - exists o. split; [done|].
    assert (prior_or (λ _, False) L = prior_or (λ x, x ∉ elements (dom L)) L) as ->; [|done].
    apply map_filter_ext. intros x y Hx. cbn. rewrite elem_of_elements, elem_of_dom, Hx.
    split; [intros [?|[]]; by left|]. intros [?|H]; [by left|]. destruct H. eauto.
Qed.

(** Every record returned to its storage: the map grows by it. *)
Lemma restore_cancelled_spec nodes (tb : Tables) o L :
  (∀ type type' address, storages tb !! type = Some address →
     storages tb !! type' = Some address → type = type') →
  storages_hold tb o L →
  NoDup ((λ n : N * component_intent, intent_id (base n.2)) <$> nodes) →
  (∀ address rec, (address, rec) ∈ nodes → L !! intent_id (base rec) = None ∧
     storages tb !! target_type (intent_target (base rec)) = Some address) →
  ∃ o', restore_cancelled nodes o = Some o' ∧
    storages_hold tb o' (foldl (λ L n, <[intent_id (base n.2) := n.2]> L) L nodes).
Proof.
  intros Hinj. revert o L. induction nodes as [|[address rec] nodes IH]; intros o L Hh Hnd Hn.
  { by exists o. }
  cbn [restore_cancelled foldl fst snd]. destruct (Hn address rec) as [Hnone Hs]; [left|].
  destruct (Hh _ _ Hs) as (s & Ho & Hr). rewrite Ho. cbn.
  cbn in Hnd. apply NoDup_cons in Hnd as [Hnin Hnd].
  unfold storage_restore. rewrite Hr, (of_type_lookup_None _ _ _ Hnone). cbn.
  apply IH; [|done|].
  - apply (storages_hold_insert _ _ L _ (target_type (intent_target (base rec)))); [done|done| | |].
    + intros type' a Ht ->. by eapply Hinj.
    + cbn. rewrite of_type_insert by done. by rewrite decide_True.
    + intros type' Hne. rewrite of_type_insert by done. by rewrite decide_False.
  - intros a n Hin. destruct (Hn a n) as [H1 H2]; [by right|]. split; [|done].
    rewrite lookup_insert_ne; [done|]. intros E. apply Hnin. rewrite E.
    apply list_elem_of_fmap. by exists (a, n).
Qed.

Lemma foldl_insert_lookup (nodes : list (N * @component_intent C)) L id rec :
  NoDup ((λ n, intent_id (base n.2)) <$> nodes) →
  foldl (λ L n, <[intent_id (base n.2) := n.2]> L) L nodes !! id = Some rec ↔
  (∃ a, (a, rec) ∈ nodes ∧ intent_id (base rec) = id) ∨
  L !! id = Some rec ∧ id ∉ (λ n, intent_id (base n.2)) <$> nodes.
Proof.
  revert L. induction nodes as [|[a n] nodes IH]; intros L Hnd; cbn.
  { split; [intros ?; right; split; [done|apply not_elem_of_nil]|].
    by intros [(? & ?%elem_of_nil & _)|[? _]]. }
  apply NoDup_cons in Hnd as [Hnin Hnd]. rewrite IH, not_elem_of_cons by done. cbn.
  setoid_rewrite elem_of_cons. rewrite lookup_insert_Some. split.
  - intros [(b & ? & ?)|[[[<- <-]|[? ?]] ?]]; [left; eauto|left; eauto|right; auto].
  - intros [(b & [[= -> ->]|?] & <-)|(? & ? & ?)]; [right; auto|left; eauto|right; auto].
Qed.

Lemma rollback_spec r t L :
  tx_inv r t L →
  ∃ r' t', rollback (r, t) = Some (r', t') ∧ tables r' = tables r0 ∧
    lifecycleRecords r' = lifecycleRecords r0 ∧ transactionActive r' = false ∧
    worldId r' = worldId r0 ∧ registry_ok r' L0.
Proof.
  intros Htx. unfold rollback. rewrite (transaction_ok_open _ _ _ _ _ Htx). cbn [negb].
  destruct (destroy_created_spec r t L Htx) as (o & -> & Hh). cbn.
  pose proof (rg_indexes _ _ (tx_ok _ _ _ _ _ Htx)) as Hix.
  destruct (restore_cancelled_spec (cancelled t) (tables r) o _ (ix_inj _ _ _ Hix) Hh
    (tx_nodup _ _ _ _ _ Htx)) as (o' & -> & Hh').
  { intros a n Hin. destruct (tx_cancelled _ _ _ _ _ Htx _ _ Hin) as (_ & Hnone & Hs).
    split; [|done]. apply map_lookup_filter_None. by left. }
  cbn. do 2 eexists. split; [done|]. cbn. rewrite (tx_snapshot _ _ _ _ _ Htx).
  split; [done|]. split_and!; [|done|by apply (tx_world _ _ _ _ _ Htx)|].
  - rewrite (tx_count _ _ _ _ _ Htx). destruct (tx_lifecycle _ _ _ _ _ Htx) as [l ->].
    unfold len. rewrite Nat2N.id. by rewrite take_app_length.
  - assert (foldl (λ L n, <[intent_id (base n.2) := n.2]> L) (prior_or (λ _, False) L)
      (cancelled t) = L0) as E.
    { apply map_eq. intros id. apply option_eq. intros rec.
      rewrite foldl_insert_lookup by apply (tx_nodup _ _ _ _ _ Htx). unfold prior_or.
      rewrite map_lookup_filter_Some. cbn. split.
      - intros [(a & Hin & <-)|[[Hr [[rec0 Hrec0]|[]]] Hnin]].
        + by destruct (tx_cancelled _ _ _ _ _ Htx _ _ Hin).
        + destruct (tx_kept _ _ _ _ _ Htx _ _ Hrec0) as [?|[a Hin]]; [congruence|].
          destruct (tx_cancelled _ _ _ _ _ Htx _ _ Hin) as (_ & Hnone & _).
          rewrite (prior_id _ _ Hrec0) in Hnone. congruence.
      - intros Hrec. destruct (tx_kept _ _ _ _ _ Htx _ _ Hrec) as [Hl|[a Hin]].
        + right. split; [split; [done|left; eauto]|].
          intros ([a n] & -> & Hin)%list_elem_of_fmap.
          destruct (tx_cancelled _ _ _ _ _ Htx _ _ Hin) as (_ & Hnone & _). cbn in *. congruence.
        + left. exists a. split; [done|]. by apply prior_id. }
    rewrite E in Hh'. destruct Hok0 as [Hix0 Hsl0]. split; cbn.
    + destruct Hix0. split; try done. intros type address Hs.
      apply Hh'. by eapply lookup_weaken, (tx_storages _ _ _ _ _ Htx).
    + by rewrite (tx_world _ _ _ _ _ Htx).
Qed.

(** C18. Rollback undoes a transaction.  Whatever cancellations of intents live
    at its beginning and whatever creations, successful or not, a transaction
    made and in whatever order, [rollback] does not terminate the program: the
    tables and the evidence are those of the beginning, the typed storages hold
    exactly the intents of the beginning again, every query answers as then, and
    ordinary mutation is allowed again. *)
Theorem rollback_restores t r ops :
  begin_transaction r0 = (Ok t, r) → Forall (cancels_prior L0) ops →
  ∃ r' t', rollback (perform_all_in ops (r, t)) = Some (r', t') ∧
    tables r' = tables r0 ∧ lifecycleRecords r' = lifecycleRecords r0 ∧
    transactionActive r' = false ∧ registry_ok r' L0 ∧ answers r' L0.
Proof.
  intros Hbegin Hops. pose proof (begin_transaction_ok r0 L0 t r Hok0 Hbegin) as Htx.
  pose proof (perform_all_in_preserves ops r t L0 Htx Hops) as H.
  destruct (perform_all_in ops (r, t)) as [r1 t1]. destruct H as [L1 Htx1].
  destruct (rollback_spec r1 t1 L1 Htx1) as (r' & t' & E & ? & ? & ? & _ & Hok').
  exists r', t'. split_and!; [done..|]. by apply registry_answers.
Qed.
End Transactions.

(** ** A transaction on the lamp *)

(** The flash goes, a new glow comes under a name that is free again. *)
Definition lamp_transaction_ops : list (@transaction_operation N) :=
  [TxCancel (MkHandle 1 2 1); TxCancel (MkHandle 1 1 1);
   TxCreate first_behavior 1 0 lamp persistent 60 High VNull "glow";
   TxCreate first_behavior 2 0 lamp persistent 70 High VNull "glow";
   TxCreate second_behavior 2 0 lamp persistent 80 High VNull ""].

Lemma lamp_transaction_ops_prior :
  Forall (cancels_prior (contents lamp_registry)) lamp_transaction_ops.
Proof.
  assert (is_Some (contents lamp_registry !! MkHandle 1 2 1) ∧
    is_Some (contents lamp_registry !! MkHandle 1 1 1)) as [H1 H2].
  { unfold is_Some. split; eexists; vm_compute; reflexivity. }
  repeat constructor; done.
Qed.

Definition lamp_transaction : @Transaction N :=
  MkTransaction 1 (tables lamp_registry) (len (lifecycleRecords lamp_registry)) [] true.

Lemma lamp_begin :
  begin_transaction lamp_registry = (Ok lamp_transaction, set_transaction true lamp_registry).
Proof. vm_compute. reflexivity. Qed.

Lemma rollback_restores_witness :
  intent_count (perform_all_in lamp_transaction_ops
    (set_transaction true lamp_registry, lamp_transaction)).1 = 4 ∧
  ∃ r' t', rollback (perform_all_in lamp_transaction_ops
      (set_transaction true lamp_registry, lamp_transaction)) = Some (r', t') ∧
    answers r' (contents lamp_registry).
Proof.
  split; [vm_compute; reflexivity|].
  destruct (rollback_restores lamp_registry (contents lamp_registry) lamp_registry_ok
    lamp_transaction (set_transaction true lamp_registry)
    lamp_transaction_ops lamp_begin lamp_transaction_ops_prior)
    as (r' & t' & Hr & _ & _ & _ & _ & Ha).
  exists r', t'. split; [exact Hr|exact Ha].
Defined.

(** ** A transaction that cancels its own creation *)

Definition glow_operation : @operation N :=
  Create first_behavior 1 0 lamp persistent 10 Medium VNull "".

(** One intent of the lamp's type is live, so the type has its storage. *)
Definition glowing_registry : @IntentRegistry N :=
  (perform_all [CreatePool first_behavior; glow_operation] (new_IntentRegistry 1 1)).2.

(** Begin, create an intent, cancel it, roll back. *)
Definition regret : option (@IntentRegistry N) :=
  match begin_transaction glowing_registry with
  | (Ok t, r) =>
      fst <$> rollback (perform_all_in
        [TxCreate first_behavior 1 0 lamp persistent 10 Medium VNull "";
         TxCancel (MkHandle 1 2 1)] (r, t))
  | (Err _, _) => None
  end.

(** Rollback does not undo a transaction that cancelled an intent it had
    created itself: the record goes into its typed storage although the restored
    tables do not list it, and since they make the registry hand out the same id
    again, the next creation of that component type fails, and so does every
    one after it, where before the transaction it would have succeeded. *)
Theorem rollback_restores_own_creation :
  match regret with
  | Some r =>
      intent_count r = 1 ∧ tables r = tables glowing_registry ∧
      (perform glow_operation glowing_registry).1 = Ok (Created (MkHandle 1 2 1)) ∧
      (perform_all [glow_operation; glow_operation; glow_operation] r).1 =
        replicate 3 (throw logic_error "intent id already exists in typed storage")
  | None => False
  end.
Proof. vm_compute. repeat split. Qed.
