(* ===== verification/Disk.v ===== *)
(** * Files (src/events/FileEventStoreIo.hpp, the POSIX branch)

    The calls the file store makes, over a model of the file system they rely
    on.  A file is its contents and what of them the last [fsync] made durable;
    a directory maps names to files and likewise has a durable part.  Every
    system call takes the next of the [answers] the environment has in store: it
    succeeds, fails, or (reading and writing) processes only part of the
    request.  Once the list is used up, calls succeed.

    [crashed] says what may be left after a power failure.  Every name refers to
    what it referred to now or at the last [fsync] of the directory, and a file
    holds what was flushed and, of what was appended since, an initial part.
    That appended data becomes durable in order is assumed here; POSIX leaves it
    to the file system. *)
From S2P Require Import Prelude OrderedMap Values ValueCodec Effects Events.

Inductive answer := Succeed | Fail | Partial (n : N).

#[export] Instance answer_eq_dec : EqDecision answer.
Proof. solve_decision. Defined.

Record inode := MkInode { contents : list byte; synced : list byte }.

Record disk := MkDisk {
  inodes : gmap N inode;
  directory : gmap string N;
  synced_directory : gmap string N;
  answers : list answer
}.

Definition set_inodes x (d : disk) : disk :=
  MkDisk x (directory d) (synced_directory d) (answers d).
Definition set_directory x (d : disk) : disk :=
  MkDisk (inodes d) x (synced_directory d) (answers d).
Definition set_answers x (d : disk) : disk :=
  MkDisk (inodes d) (directory d) (synced_directory d) x.
Definition sync_names (d : disk) : disk :=
  MkDisk (inodes d) (directory d) (directory d) (answers d).

Definition next_answer : stm disk answer := λ d,
  match answers d with
  | [] => (Ok Succeed, d)
  | a :: rest => (Ok a, set_answers rest d)
  end.

(** A call that does all or nothing. *)
Definition attempt (msg : string) : stm disk unit :=
  a ← next_answer; sreject_if (bool_decide (a = Fail)) EventStoreError msg.

Definition file_contents (fd : N) (d : disk) : list byte :=
  match inodes d !! fd with Some f => contents f | None => [] end.

Definition modify_file (fd : N) (g : inode → inode) : stm disk unit :=
  smodify (λ d, set_inodes (alter g fd (inodes d)) d).

(** ** [class SessionLock], [class LockedFile] *)

(** [open] with [O_CREAT], and [O_EXCL] if [exclusive]; then [fstat] and [flock].
    The system's own text for [errno] is left out of the message. *)
Definition open_file (name : string) (exclusive : bool) : stm disk N :=
  attempt "unable to open event-store file: ";;
  d ← sget;
  fd ← match directory d !! name with
       | Some fd => if exclusive
                    then sthrow EventStoreError "unable to open event-store file: "
                    else mret fd
       | None =>
           let fd := fresh (dom (inodes d)) in
           smodify (λ d, set_directory (<[name := fd]> (directory d))
                           (set_inodes (<[fd := MkInode [] []]> (inodes d)) d));;
           mret fd
       end;
  attempt "event-store path is not a lockable regular file";;
  mret fd.

Definition session_lock (name : string) : stm disk N :=
  attempt "unable to open event-store session lock";;
  d ← sget;
  fd ← match directory d !! name with
       | Some fd => mret fd
       | None =>
           let fd := fresh (dom (inodes d)) in
           smodify (λ d, set_directory (<[name := fd]> (directory d))
                           (set_inodes (<[fd := MkInode [] []]> (inodes d)) d));;
           mret fd
       end;
  attempt "unable to acquire event-store session lock";;
  mret fd.

Definition file_size (fd : N) : stm disk N :=
  attempt "unable to read event-store file size";;
  d ← sget; mret (len (file_contents fd d)).

(** How many of [requested] bytes a call processes; [None] is an error, as is a
    count of zero. *)
Definition processed (a : answer) (requested : N) : option N :=
  match a with
  | Succeed => Some requested
  | Fail => None
  | Partial n => if n =? 0 then None else Some (N.min n requested)
  end.

(** The loop of [read_all]: at least one byte per turn. *)
Fixpoint read_loop (fuel : nat) (fd : N) (total : N) (bytes : list byte)
  : stm disk (list byte) :=
  match fuel with
  | O => sthrow fuel_exhausted ""
  | S fuel =>
      if len bytes <? total then
        a ← next_answer;
        d ← sget;
        match processed a (total - len bytes) with
        | None => sthrow EventStoreError "unable to read event-store file"
        | Some n =>
            let more := take (N.to_nat n)
              (drop (length bytes) (file_contents fd d)) in
            if len more =? 0
            then sthrow EventStoreError "unable to read event-store file"
            else read_loop fuel fd total (bytes ++ more)
        end
      else mret bytes
  end.

Definition read_file (fd : N) : stm disk (list byte) :=
  byteCount ← file_size fd;
  sreject_if (EventLimits.maxFileBytes <? byteCount) EventStoreError
    "event-store file size limit exceeded";;
  read_loop (S (N.to_nat byteCount)) fd byteCount [].

(** [pwrite]: beyond the end the gap is filled with zeros. *)
Definition write_at (offset : N) (bytes : list byte) (f : inode) : inode :=
  let n := N.to_nat offset in
  MkInode (take n (contents f) ++ repeat x00 (n - length (contents f)) ++ bytes ++
           drop (n + length bytes) (contents f)) (synced f).

Fixpoint write_loop (fuel : nat) (fd : N) (offset : N) (bytes : list byte)
  : stm disk unit :=
  match fuel with
  | O => sthrow fuel_exhausted ""
  | S fuel =>
      if bool_decide (bytes = []) then mret tt
      else
        a ← next_answer;
        match processed a (len bytes) with
        | None => sthrow EventStoreError "unable to write event-store file"
        | Some n =>
            modify_file fd (write_at offset (take (N.to_nat n) bytes));;
            write_loop fuel fd (offset + n) (drop (N.to_nat n) bytes)
        end
  end.

Definition write_file (fd : N) (offset : N) (bytes : list byte) : stm disk unit :=
  sreject_if ((EventLimits.maxFileBytes <? offset) ||
              (EventLimits.maxFileBytes - offset <? len bytes)) EventStoreError
    "event-store file size limit exceeded";;
  write_loop (S (length bytes)) fd offset bytes.

Definition flush_file (fd : N) : stm disk unit :=
  attempt "unable to durably flush event-store file";;
  modify_file fd (λ f, MkInode (contents f) (contents f)).

(** ** Names *)

(** [std::filesystem::remove] with an error code: whether there was an error. *)
Definition remove_file (name : string) : stm disk bool :=
  a ← next_answer;
  if bool_decide (a = Fail) then mret true
  else smodify (λ d, set_directory (delete name (directory d)) d);; mret false.

(** [rename], over a destination that may exist. *)
Definition replace_file (replacement destination : string) : stm disk unit :=
  attempt "unable to atomically replace event-store file";;
  d ← sget;
  match directory d !! replacement with
  | None => sthrow EventStoreError "unable to atomically replace event-store file"
  | Some fd =>
      smodify (λ d, set_directory
        (<[destination := fd]> (delete replacement (directory d))) d)
  end.

(** [open], [fsync] and [close] of the directory; a failed [close] is reported
    although the directory was flushed. *)
Definition flush_parent_directory : stm disk unit :=
  attempt "unable to open event-store parent directory";;
  a ← next_answer;
  sreject_if (bool_decide (a = Fail)) EventStoreError
    "unable to durably flush event-store replacement";;
  smodify sync_names;;
  attempt "unable to durably flush event-store replacement".

(** ** Power failure *)

(** What may be left of a file. *)
Definition survives (f f' : inode) : Prop :=
  synced f' = contents f' ∧
  ∃ k, contents f' = take k (contents f) ∧ synced f `prefix_of` contents f'.

Record crashed (d d' : disk) : Prop := {
  cr_names name : directory d' !! name = directory d !! name ∨
                  directory d' !! name = synced_directory d !! name;
  cr_synced : synced_directory d' = directory d';
  cr_files fd f : inodes d !! fd = Some f →
    ∃ f', inodes d' !! fd = Some f' ∧ survives f f'
}.

(** * Lemmas *)

Definition with_file (fd : N) (f : inode) (rest : list answer) (d : disk) : disk :=
  set_answers rest (set_inodes (<[fd := f]> (inodes d)) d).

Lemma set_answers_id d : set_answers (answers d) d = d.
Proof. by destruct d. Qed.

Lemma with_file_id fd f rest d :
  inodes d !! fd = Some f → with_file fd f rest d = set_answers rest d.
Proof.
  intros Hf. unfold with_file, set_inodes, set_answers. cbn. by rewrite insert_id.
Qed.

Lemma with_file_twice fd f g rest rest' d :
  with_file fd g rest' (with_file fd f rest d) = with_file fd g rest' d.
Proof.
  unfold with_file, set_inodes, set_answers. cbn. by rewrite insert_insert_eq.
Qed.

Lemma with_file_lookup fd f rest d : inodes (with_file fd f rest d) !! fd = Some f.
Proof. apply lookup_insert_eq. Qed.

Lemma next_answer_spec d :
  ∃ a rest, next_answer d = (Ok a, set_answers rest d) ∧
    (answers d = [] → rest = [] ∧ a = Succeed).
Proof.
  unfold next_answer. destruct d as [i n s [|a rest]]; cbn.
  - by exists Succeed, [].
  - by exists a, rest.
Qed.

(** An [attempt] changes nothing but the answers left. *)
Lemma attempt_spec msg d :
  ∃ rest x, attempt msg d = (x, set_answers rest d) ∧
    (x = Ok tt ∨ x = throw EventStoreError msg) ∧
    (answers d = [] → rest = [] ∧ x = Ok tt).
Proof.
  destruct (next_answer_spec d) as (a & rest & E & Ha). exists rest.
  unfold attempt. rewrite (stm_bind_eq _ _ _ _ _ E). unfold sreject_if, reject_if.
  destruct (bool_decide_reflect (a = Fail)) as [->|]; eexists; (split; [reflexivity|]).
  - split; [by right|]. intros Hd. by destruct (Ha Hd).
  - split; [by left|]. intros Hd. by destruct (Ha Hd).
Qed.

(** Changing a file's contents by writing at its end. *)
Lemma write_at_end bytes f :
  write_at (len (contents f)) bytes f = MkInode (contents f ++ bytes) (synced f).
Proof.
  unfold write_at, len. rewrite Nat2N.id. f_equal.
  rewrite take_ge by done. rewrite Nat.sub_diag. cbn [repeat app].
  rewrite drop_ge by lia. by rewrite app_nil_r.
Qed.

Lemma modify_file_eq fd f g d :
  inodes d !! fd = Some f →
  modify_file fd g d = (Ok tt, with_file fd (g f) (answers d) d).
Proof.
  intros Hf. unfold modify_file, smodify, with_file. f_equal.
  assert (alter g fd (inodes d) = <[fd := g f]> (inodes d)) as ->; [|by destruct d].
  apply map_eq. intros j. destruct (decide (j = fd)) as [->|Hne].
  - by rewrite lookup_alter_eq, lookup_insert_eq, Hf.
  - by rewrite lookup_alter_ne, lookup_insert_ne.
Qed.

Lemma processed_bounds a n k : processed a n = Some k → 0 < n → 0 < k <= n.
Proof.
  unfold processed. destruct a as [| |m]; intros H Hn; simplify_eq; [lia|].
  destruct (N.eqb_spec m 0); simplify_eq. lia.
Qed.

(** Appending to a file: all of the bytes, or an initial part and an error. *)
Lemma write_loop_spec fuel fd bytes d f :
  inodes d !! fd = Some f → (length bytes < fuel)%nat →
  ∃ rest x written missing,
    write_loop fuel fd (len (contents f)) bytes d =
      (x, with_file fd (MkInode (contents f ++ written) (synced f)) rest d) ∧
    bytes = written ++ missing ∧
    (x = Ok tt ∧ missing = [] ∨ (∃ msg, x = throw EventStoreError msg) ∧ missing ≠ []) ∧
    (answers d = [] → rest = [] ∧ x = Ok tt).
Proof.
  revert bytes d f. induction fuel as [|fuel IH]; intros bytes d f Hf Hfuel; [lia|].
  cbn [write_loop]. destruct (bool_decide_reflect (bytes = [])) as [->|Hne].
  { exists (answers d), (Ok tt), [], []. rewrite app_nil_r.
    assert (with_file fd (MkInode (contents f) (synced f)) (answers d) d = d) as ->.
    { rewrite with_file_id; [apply set_answers_id|]. rewrite Hf. by destruct f. }
    split; [done|]. split; [done|]. split; [by left|]. by intros ->. }
  destruct (next_answer_spec d) as (a & rest & E & Ha).
  rewrite (stm_bind_eq _ _ _ _ _ E).
  assert (0 < len bytes) as Hpos by (destruct bytes; [done|rewrite len_cons; lia]).
  destruct (processed a (len bytes)) as [n|] eqn:Hn.
  2:{ exists rest, (throw EventStoreError "unable to write event-store file"), [], bytes.
      rewrite app_nil_r. split; [|split; [done|split; [right; split; [by eexists|done]|]]].
      - rewrite with_file_id; [done|]. rewrite Hf. by destruct f.
      - intros Hd. destruct (Ha Hd) as [_ ->]. done. }
  apply processed_bounds in Hn as Hb; [|done].
  rewrite (stm_bind_eq _ _ _ _ _ (modify_file_eq fd f _ (set_answers rest d) Hf)).
  rewrite write_at_end. set (part := take (N.to_nat n) bytes).
  set (f' := MkInode (contents f ++ part) (synced f)).
  assert (len part = n) as Hpart
    by (unfold part, len in *; rewrite length_take; lia).
  replace (len (contents f) + n) with (len (contents f')) by (cbn; rewrite len_app; lia).
  destruct (IH (drop (N.to_nat n) bytes) (with_file fd f' rest d) f')
    as (rest' & x & w & m & Hloop & Hsplit & Hx & Hrest).
  { apply with_file_lookup. }
  { unfold len in *. rewrite length_drop. lia. }
  exists rest', x, (part ++ w), m.
  split; [|split; [|split; [done|]]].
  - etrans; [exact Hloop|]. rewrite with_file_twice. cbn. by rewrite app_assoc.
  - rewrite <-app_assoc, <-Hsplit. unfold part. by rewrite take_drop.
  - intros Hd. apply Hrest. by destruct (Ha Hd).
Qed.

Lemma write_file_spec fd bytes d f :
  inodes d !! fd = Some f →
  ∃ rest x written missing,
    write_file fd (len (contents f)) bytes d =
      (x, with_file fd (MkInode (contents f ++ written) (synced f)) rest d) ∧
    bytes = written ++ missing ∧
    (x = Ok tt ∧ missing = [] ∨ (∃ msg, x = throw EventStoreError msg)) ∧
    (answers d = [] → len (contents f) + len bytes <= EventLimits.maxFileBytes →
     rest = [] ∧ x = Ok tt).
Proof.
  intros Hf. unfold write_file.
  destruct ((EventLimits.maxFileBytes <? len (contents f)) || _) eqn:Hc.
  - exists (answers d), (throw EventStoreError "event-store file size limit exceeded"), [], bytes.
    rewrite app_nil_r. split; [|split; [done|split; [right; by eexists|]]].
    + rewrite with_file_id by (rewrite Hf; by destruct f). by rewrite set_answers_id.
    + intros _ H. lia.
  - rewrite (stm_bind_eq _ _ _ _ _ (sreject_if_false _ _ _)).
    destruct (write_loop_spec (S (length bytes)) fd bytes d f Hf) as
      (rest & x & w & m & E & Hs & Hx & Hr); [lia|].
    exists rest, x, w, m. split; [exact E|]. split; [done|]. split; [naive_solver|].
    intros Hd _. by apply Hr.
Qed.

Lemma flush_file_spec fd d f :
  inodes d !! fd = Some f →
  ∃ rest x, flush_file fd d =
      (x, with_file fd (if bool_decide (x = Ok tt) then MkInode (contents f) (contents f) else f)
            rest d) ∧
    (x = Ok tt ∨ ∃ msg, x = throw EventStoreError msg) ∧
    (answers d = [] → rest = [] ∧ x = Ok tt).
Proof.
  intros Hf. destruct (attempt_spec "unable to durably flush event-store file" d)
    as (rest & x & E & Hx & Ha).
  exists rest, x. unfold flush_file. destruct Hx as [-> | ->].
  - rewrite (stm_bind_eq _ _ _ _ _ E), (modify_file_eq fd f _ (set_answers rest d) Hf).
    rewrite bool_decide_eq_true_2 by done. split; [done|]. split; [by left|done].
  - unfold mbind, stm_bind. rewrite E. rewrite bool_decide_eq_false_2 by done.
    split; [by rewrite with_file_id|]. split; [right; by eexists|done].
Qed.

(** Reading returns the whole file, or fails. *)
Lemma read_loop_spec fuel fd d bytes more :
  file_contents fd d = bytes ++ more → (length more < fuel)%nat →
  ∃ rest x, read_loop fuel fd (len (bytes ++ more)) bytes d = (x, set_answers rest d) ∧
    (x = Ok (bytes ++ more) ∨ ∃ msg, x = throw EventStoreError msg) ∧
    (answers d = [] → rest = [] ∧ x = Ok (bytes ++ more)).
Proof.
  revert bytes more d. induction fuel as [|fuel IH]; intros bytes more d Hc Hfuel; [lia|].
  cbn [read_loop]. destruct (N.ltb_spec (len bytes) (len (bytes ++ more))) as [Hlt|Hge].
  2:{ assert (more = []) as -> by (destruct more; [done|rewrite len_app, len_cons in Hge; lia]).
      rewrite app_nil_r. exists (answers d), (Ok bytes). rewrite set_answers_id.
      split; [done|]. split; [by left|]. by intros ->. }
  rewrite len_app in *. destruct (next_answer_spec d) as (a & rest & E & Ha).
  rewrite (stm_bind_eq _ _ _ _ _ E).
  rewrite (stm_bind_eq _ _ _ (set_answers rest d) (set_answers rest d)) by done.
  destruct (processed a _) as [n|] eqn:Hn.
  2:{ exists rest, (throw EventStoreError "unable to read event-store file").
      split; [done|]. split; [right; by eexists|]. intros Hd.
      destruct (Ha Hd) as [_ ->]. done. }
  apply processed_bounds in Hn as Hb; [|lia].
  assert (file_contents fd (set_answers rest d) = bytes ++ more) as -> by exact Hc.
  rewrite drop_app_length. set (part := take (N.to_nat n) more).
  assert (len part = n) as Hpart by (unfold part, len in *; rewrite length_take; lia).
  rewrite (proj2 (N.eqb_neq _ _)) by lia.
  destruct (IH (bytes ++ part) (drop (N.to_nat n) more) (set_answers rest d))
    as (rest' & x & Hloop & Hx & Hr).
  { rewrite <-app_assoc. unfold part. rewrite take_drop. exact Hc. }
  { unfold len in *. rewrite length_drop. lia. }
  assert ((bytes ++ part) ++ drop (N.to_nat n) more = bytes ++ more) as Heq
    by (rewrite <-app_assoc; unfold part; by rewrite take_drop).
  rewrite Heq, len_app in *. exists rest', x. split; [exact Hloop|]. split; [done|].
  intros Hd. apply Hr. by destruct (Ha Hd).
Qed.

Lemma file_size_spec fd d f :
  inodes d !! fd = Some f →
  ∃ rest x, file_size fd d = (x, set_answers rest d) ∧
    (x = Ok (len (contents f)) ∨ ∃ msg, x = throw EventStoreError msg) ∧
    (answers d = [] → rest = [] ∧ x = Ok (len (contents f))).
Proof.
  intros Hf. unfold file_size.
  destruct (attempt_spec "unable to read event-store file size" d) as (rest & x & E & Hx & Ha).
  exists rest. destruct Hx as [-> | ->].
  - rewrite (stm_bind_eq _ _ _ _ _ E). eexists. split; [reflexivity|].
    unfold file_contents. cbn. rewrite Hf. split; [by left|]. intros Hd. by destruct (Ha Hd).
  - unfold mbind, stm_bind. rewrite E. eexists. split; [reflexivity|].
    split; [right; by eexists|]. intros Hd. by destruct (Ha Hd).
Qed.

Lemma read_file_spec fd d f :
  inodes d !! fd = Some f →
  ∃ rest x, read_file fd d = (x, set_answers rest d) ∧
    (x = Ok (contents f) ∨ ∃ msg, x = throw EventStoreError msg) ∧
    (answers d = [] → len (contents f) <= EventLimits.maxFileBytes →
     rest = [] ∧ x = Ok (contents f)).
Proof.
  intros Hf. unfold read_file. destruct (file_size_spec fd d f Hf) as (rest & x & E & Hx & Ha).
  destruct Hx as [->|[msg ->]].
  2:{ unfold mbind, stm_bind. rewrite E. exists rest. eexists. split; [reflexivity|].
      split; [right; by eexists|]. intros Hd. by destruct (Ha Hd). }
  rewrite (stm_bind_eq _ _ _ _ _ E).
  destruct (N.ltb_spec EventLimits.maxFileBytes (len (contents f))) as [Hbig|Hsmall].
  { exists rest. eexists. split; [reflexivity|]. split; [right; by eexists|]. lia. }
  rewrite (stm_bind_eq _ _ _ _ _ (sreject_if_false _ _ _)).
  destruct (read_loop_spec (S (N.to_nat (len (contents f)))) fd (set_answers rest d) []
    (contents f)) as (rest' & x & E' & Hx & Ha').
  { unfold file_contents. cbn. by rewrite Hf. }
  { unfold len. lia. }
  exists rest', x. split; [exact E'|]. split; [done|]. intros Hd _.
  apply Ha'. by destruct (Ha Hd).
Qed.

(** Directory operations change names only. *)
Lemma remove_file_spec name d :
  ∃ rest (b : bool), remove_file name d =
    (Ok b, set_answers rest (if b then d else set_directory (delete name (directory d)) d)) ∧
    (answers d = [] → rest = [] ∧ b = false).
Proof.
  unfold remove_file. destruct (next_answer_spec d) as (a & rest & E & Ha).
  rewrite (stm_bind_eq _ _ _ _ _ E).
  destruct (bool_decide_reflect (a = Fail)) as [->|].
  - exists rest, true. split; [done|]. intros Hd. by destruct (Ha Hd).
  - exists rest, false. split; [done|]. intros Hd. by destruct (Ha Hd).
Qed.

Lemma replace_file_spec replacement destination fd d :
  directory d !! replacement = Some fd →
  ∃ rest x, replace_file replacement destination d =
      (x, set_answers rest (if bool_decide (x = Ok tt)
            then set_directory (<[destination := fd]> (delete replacement (directory d))) d
            else d)) ∧
    (x = Ok tt ∨ ∃ msg, x = throw EventStoreError msg) ∧
    (answers d = [] → rest = [] ∧ x = Ok tt).
Proof.
  intros Hr. unfold replace_file.
  destruct (attempt_spec "unable to atomically replace event-store file" d)
    as (rest & x & E & Hx & Ha). exists rest, x. destruct Hx as [-> | ->].
  - rewrite (stm_bind_eq _ _ _ _ _ E).
    rewrite (stm_bind_eq _ _ _ (set_answers rest d) (set_answers rest d)) by done. cbn.
    rewrite Hr, bool_decide_eq_true_2 by done. split; [done|]. split; [by left|done].
  - unfold mbind, stm_bind. rewrite E, bool_decide_eq_false_2 by done.
    split; [done|]. split; [right; by eexists|done].
Qed.

Lemma flush_parent_directory_spec d :
  ∃ rest x b, flush_parent_directory d =
      (x, set_answers rest (if b : bool then sync_names d else d)) ∧
    (x = Ok tt ∧ b = true ∨ ∃ msg, x = throw EventStoreError msg) ∧
    (answers d = [] → rest = [] ∧ x = Ok tt).
Proof.
  unfold flush_parent_directory.
  destruct (attempt_spec "unable to open event-store parent directory" d)
    as (rest & x & E & Hx & Ha). destruct Hx as [-> | ->].
  2:{ unfold mbind at 1, stm_bind at 1. rewrite E. exists rest. eexists. exists false.
      split; [reflexivity|]. split; [right; by eexists|]. intros Hd. by destruct (Ha Hd). }
  rewrite (stm_bind_eq _ _ _ _ _ E).
  destruct (next_answer_spec (set_answers rest d)) as (a & rest1 & E1 & Ha1).
  rewrite (stm_bind_eq _ _ _ _ _ E1).
  destruct (bool_decide_reflect (a = Fail)) as [->|Hne].
  { exists rest1. eexists. exists false. split; [reflexivity|].
    split; [right; by eexists|]. intros Hd. destruct (Ha Hd) as [Hr _].
    by destruct (Ha1 Hr). }
  rewrite (stm_bind_eq _ _ _ _ _ (sreject_if_false _ _ _)).
  rewrite (stm_bind_eq (smodify sync_names) _ _ tt (sync_names (set_answers rest1 d))) by done.
  destruct (attempt_spec "unable to durably flush event-store replacement"
    (sync_names (set_answers rest1 d))) as (rest2 & x & E2 & Hx & Ha2).
  exists rest2, x, true. split; [exact E2|]. split.
  - destruct Hx as [-> | ->]; [by left|right; by eexists].
  - intros Hd. apply Ha2. destruct (Ha Hd) as [Hr _]. by destruct (Ha1 Hr).
Qed.

(** ** Power failure *)

Lemma survives_synced f f' : synced f = contents f → survives f f' → contents f' = contents f.
Proof.
  intros Hs [_ (k & -> & Hp)]. rewrite Hs in Hp. apply prefix_length in Hp.
  rewrite length_take in Hp. apply take_ge. lia.
Qed.

Lemma crashed_refl d :
  synced_directory d = directory d → (∀ fd f, inodes d !! fd = Some f → synced f = contents f) →
  crashed d d.
Proof.
  intros Hd Hf. split; [by left|done|]. intros fd f E. exists f. split; [done|].
  split; [by apply (Hf fd)|]. exists (length (contents f)).
  rewrite take_ge by done. by rewrite (Hf _ _ E).
Qed.
