(* ===== verification/FileStore.v ===== *)
(** * The file store
    (include/liquid/events/FileEventStore.hpp, src/events/FileEventStore.cpp)

    [FileEventStore::Implementation] over the files of [Disk]: the constructor
    with loading and recovery, appending, building and installing a replacement
    file, and retention.  The state of a method is the object with the disk.
    Destructors close descriptors, which the model does not show; the session
    lock is taken when a store is opened. *)
From S2P Require Import Prelude OrderedMap Values ValueCodec Effects Events Crc32c.
From S2P Require Import FileFormat Replay EventStore Disk.

Inductive FileEventStoreFaultPoint :=
  | RecoveryReplacementReady
  | RecoveryReplaced
  | CompactionReplacementReady
  | CompactionReplaced.

(** [faultInjector]: a function that throws at some points, if set. *)
Record FileEventStoreOptions := MkFileOptions {
  writableRecovery : bool;
  faultInjector : option (FileEventStoreFaultPoint → option exn)
}.

Record Implementation := MkImplementation {
  fs_path : string;
  fs_metadata : EventStoreMetadata;
  fs_options : FileEventStoreOptions;
  fs_file : N;
  fs_records : list EventRecord;
  fs_next : RecordId;
  fs_faulted : bool
}.

Record FileEventStore := MkFileEventStore { impl : Implementation; on_disk : disk }.

Definition set_faulted (s : FileEventStore) : FileEventStore :=
  let i := impl s in
  MkFileEventStore (MkImplementation (fs_path i) (fs_metadata i) (fs_options i) (fs_file i)
    (fs_records i) (fs_next i) true) (on_disk s).

Definition set_log (metadata : EventStoreMetadata) (file : N) (records : list EventRecord)
    (next : RecordId) (s : FileEventStore) : FileEventStore :=
  let i := impl s in
  MkFileEventStore (MkImplementation (fs_path i) metadata (fs_options i) file records next
    (fs_faulted i)) (on_disk s).

Definition io {A} (m : stm disk A) : stm FileEventStore A := λ s,
  let '(x, d) := m (on_disk s) in (x, MkFileEventStore (impl s) d).

Definition recovery_payload (truncatedBytes : N) : res value :=
  Value_object [("truncated_bytes", VUnsigned truncatedBytes)].

Definition inject (point : FileEventStoreFaultPoint) (s : FileEventStore) : res unit :=
  match faultInjector (fs_options (impl s)) with
  | Some f => match f point with Some e => Err e | None => Ok tt end
  | None => Ok tt
  end.

Definition replacement_path (s : FileEventStore) : string :=
  (fs_path (impl s) +:+ ".replacement")%string.

(** ** [build_replacement] *)

(** The inner loop: the longest initial part, of at most [n] records, that
    encodes. *)
Fixpoint encode_longest (n : nat) (records : list EventRecord)
  : res (list byte * nat) :=
  match n with
  | O => Ok ([], O)
  | S k =>
      match encode_batch (take n records) with
      | Ok batch => Ok (batch, n)
      | Err e =>
          if bool_decide (exn_kind e = EventStoreError)
          then if bool_decide (k = O) then Err e else encode_longest k records
          else Err e
      end
  end.

(** The outer loop; every turn writes at least one record. *)
Fixpoint write_batches (fuel : nat) (fd : N) (offset : N) (records : list EventRecord)
  : stm disk unit :=
  match fuel with
  | O => sthrow fuel_exhausted ""
  | S fuel =>
      if bool_decide (records = []) then mret tt
      else
        '(batch, n) ← slift (encode_longest
          (Nat.min (length records) (N.to_nat EventLimits.maxRecordsPerBatch)) records);
        write_file fd offset batch;;
        write_batches fuel fd (offset + len batch) (drop n records)
  end.

(** The [try] block. *)
Definition fill_replacement (fd : N) (m : EventStoreMetadata) (records : list EventRecord)
  : stm disk unit :=
  header ← slift (encode_header m);
  write_file fd 0 header;;
  write_batches (S (length records)) fd (len header) records;;
  flush_file fd;;
  bytes ← read_file fd;
  headerCheck ← slift (decode_header bytes);
  scanCheck ← slift (scan_batches bytes headerCheck.2);
  sreject_if (negb (bool_decide (headerCheck.1 = m)) ||
              negb (invalidTailBytes scanCheck =? 0) ||
              negb (bool_decide (FileFormat.records scanCheck = records))) EventStoreError
    "replacement event-store failed validation".

(** [catch (...)] removes the replacement file; an error doing so is ignored. *)
Definition discard_on_throw {A} (replacement : string) (m : stm disk A) : stm disk A :=
  stry m (λ e, remove_file replacement;; slift (Err e)).

Definition build_replacement (m : EventStoreMetadata) (records : list EventRecord)
  : stm FileEventStore N :=
  s ← sget;
  let replacement := replacement_path s in
  io (removeError ← remove_file replacement;
      sreject_if removeError EventStoreError "unable to remove stale replacement file";;
      fd ← open_file replacement true;
      discard_on_throw replacement (fill_replacement fd m records);;
      mret fd).

Definition inject_replacement_ready (point : FileEventStoreFaultPoint)
  : stm FileEventStore unit :=
  s ← sget;
  io (discard_on_throw (replacement_path s) (slift (inject point s))).

(** The number after the last record. *)
Definition next_after (records : list EventRecord) : RecordId :=
  match last records with
  | None => 1
  | Some r => if sequence r =? u64_max then 0 else sequence r + 1
  end.

Definition fault_on_throw {A} (m : stm FileEventStore A) : stm FileEventStore A :=
  stry m (λ e, smodify set_faulted;; slift (Err e)).

Definition install_replacement (fd : N) (m : EventStoreMetadata)
    (records : list EventRecord) (replacedPoint : FileEventStoreFaultPoint)
  : stm FileEventStore unit :=
  s ← sget;
  io (replace_file (replacement_path s) (fs_path (impl s)));;
  smodify (set_log m fd records (next_after records));;
  fault_on_throw (
    s ← sget;
    slift (inject replacedPoint s);;
    io flush_parent_directory).

(** ** Opening *)

Definition load_existing (requested : EventStoreMetadata) : stm FileEventStore unit :=
  s ← sget;
  bytes ← io (read_file (fs_file (impl s)));
  header ← slift (decode_header bytes);
  let metadata := header.1 in
  sreject_if (negb (session metadata =? session requested) ||
              negb (bool_decide (engineVersion metadata = engineVersion requested)) ||
              negb (bool_decide (feedbackTiming metadata = feedbackTiming requested)))
    EventStoreError "event-store metadata does not match existing file";;
  scan ← slift (scan_batches bytes header.2);
  let records := FileFormat.records scan in
  let next := if bool_decide (records = []) then fs_next (impl s) else next_after records in
  smodify (set_log metadata (fs_file (impl s)) records next);;
  if invalidTailBytes scan =? 0 then mret tt
  else
    sreject_if (negb (writableRecovery (fs_options (impl s)))) EventStoreError
      "invalid final event-store batch";;
    sreject_if (negb (valid next)) EventStoreError
      "event record sequence exhausted during recovery";;
    payload ← slift (recovery_payload (invalidTailBytes scan));
    let recovered := records ++ [MkEventRecord next EventType.Recovery 1 payload] in
    fd ← build_replacement metadata recovered;
    inject_replacement_ready RecoveryReplacementReady;;
    install_replacement fd metadata recovered RecoveryReplaced.

(** The constructor: the store it returns is the state after the call. *)
Definition open_store (path : string) (requested : EventStoreMetadata)
    (options : FileEventStoreOptions) : stm disk Implementation :=
  session_lock (path +:+ ".lock")%string;;
  fd ← open_file path false;
  existingBytes ← file_size fd;
  let i := MkImplementation path requested options fd [] 1 false in
  if existingBytes =? 0 then
    header ← slift (encode_header requested);
    write_file fd 0 header;;
    flush_file fd;;
    mret i
  else λ d,
    match load_existing requested (MkFileEventStore i d) with
    | (Ok _, s) => (Ok (impl s), on_disk s)
    | (Err e, s) => (Err e, on_disk s)
    end.

(** ** Appending *)

Definition append_many (events : list EventData) (durability : Durability)
  : stm FileEventStore (list RecordId) :=
  s ← sget;
  let i := impl s in
  sreject_if (fs_faulted i) EventStoreError "event store is faulted";;
  if bool_decide (events = []) then mret []
  else
    sreject_if (EventLimits.maxRecordsPerBatch <? len events) EventStoreError
      "event batch record count limit exceeded";;
    sreject_if (EventLimits.maxRecordsRead - len (fs_records i) <? len events)
      EventStoreError "event-store record count limit exceeded";;
    sreject_if (negb (valid (fs_next i)) || (u64_max - fs_next i <? len events - 1))
      EventStoreError "event record sequence exhausted";;
    slift (rfold (λ _ e, validate_event e) events tt);;
    let prepared := records_from (fs_next i) events in
    encoded ← slift (encode_batch prepared);
    offset ← io (file_size (fs_file i));
    fault_on_throw (
      io (write_file (fs_file i) offset encoded);;
      if decide (durability = Durable) then io (flush_file (fs_file i)) else mret tt);;
    smodify (set_log (fs_metadata i) (fs_file i) (fs_records i ++ prepared)
      (wrap 64 (fs_next i + len events)));;
    mret (sequence <$> prepared).

Definition append_one (event : EventData) (durability : Durability)
  : stm FileEventStore RecordId :=
  ids ← append_many [event] durability;
  mret (hd 0 ids).

Definition flush_store : stm FileEventStore unit :=
  s ← sget;
  sreject_if (fs_faulted (impl s)) EventStoreError "event store is faulted";;
  fault_on_throw (io (flush_file (fs_file (impl s)))).

(** ** Retention *)

Definition file_retain_from_checkpoint (checkpointSequence : RecordId)
  : stm FileEventStore unit :=
  s ← sget;
  let i := impl s in
  sreject_if (fs_faulted i) EventStoreError "event store is faulted";;
  '(before, retained) ← slift
    (retained_records (fs_metadata i) (fs_records i) checkpointSequence);
  sreject_if (fileGeneration (fs_metadata i) =? u64_max) EventStoreError
    "file generation exhausted";;
  sreject_if (negb (valid (fs_next i))) EventStoreError
    "event record sequence exhausted";;
  let prunedAny := negb (bool_decide (before = [])) in
  let firstPruned := if prunedAny then hd 0 (sequence <$> fs_records i) else 0 in
  let lastPruned := if prunedAny then checkpointSequence - 1 else 0 in
  payload ← slift (retention_payload firstPruned lastPruned checkpointSequence);
  let retained := retained ++ [MkEventRecord (fs_next i) EventType.Retention 1 payload] in
  let m := bump_generation (fs_metadata i) in
  fd ← build_replacement m retained;
  inject_replacement_ready CompactionReplacementReady;;
  install_replacement fd m retained CompactionReplaced.

#[export] Instance FileEventStore_store : EventStore FileEventStore := {
  store_metadata := λ s, fs_metadata (impl s);
  store_append := append_one;
  store_append_batch := append_many;
  store_read_all := λ s, fs_records (impl s);
  store_flush := flush_store;
  store_retain_from_checkpoint := file_retain_from_checkpoint
}.
