(* ===== verification/FileStoreSpec.v ===== *)
(** * What the file store guarantees

    [log_file] relates a file to the log it holds: its contents are a header and
    encoded batches, of which the first ones are durable, possibly followed by
    what a failed write left of one more batch, the records in doubt.
    [file_ok] says that an open store and its file agree.  Appending, flushing
    and retention keep it whatever the system calls answer, and opening the file
    again after a power failure yields at least the durable records. *)
From S2P Require Import Prelude OrderedMap Values ValueCodec Effects Events Crc32c.
From S2P Require Import FileFormat Replay EventStore Disk FileStore.

#[local] Opaque encode_batch encode_header decode_header scan_batches validate_event
  retained_records has_batch_magic_after.

(** ** Logs in files *)

Record log_file (f : inode) (m : EventStoreMetadata)
    (recs flushed doubt : list EventRecord) : Prop := {
  lf_widths : session m < 2 ^ 64 ∧ fileGeneration m < 2 ^ 64;
  lf_shape : ∃ header batches encoded tail missing n,
    encode_header m = Ok header ∧ Forall2 encodes_to batches encoded ∧
    recs = concat batches ∧ contents f = header ++ concat encoded ++ tail ∧
    flushed = concat (take n batches) ∧
    header ++ concat (take n encoded) `prefix_of` synced f ∧
    (doubt = [] ∧ tail = [] ∧ missing = [] ∨ encodes_to doubt (tail ++ missing));
  lf_synced : synced f `prefix_of` contents f;
  lf_sequence : ∃ first, first ≠ 0 ∧ consecutive first (recs ++ doubt) ∧
    first + len (recs ++ doubt) <= 2 ^ 64 ∧ (recs = [] → first = 1) ∧
    (flushed = [] → first = 1);
  lf_count : len (recs ++ doubt) <= EventLimits.maxRecordsRead
}.

(** The store's fields against its file. *)
Record file_ok (s : FileEventStore) (flushed doubt : list EventRecord) : Prop := {
  fo_file : ∃ f, inodes (on_disk s) !! fs_file (impl s) = Some f ∧
    log_file f (fs_metadata (impl s)) (fs_records (impl s)) flushed doubt;
  fo_name : directory (on_disk s) !! fs_path (impl s) = Some (fs_file (impl s));
  fo_next : fs_next (impl s) = next_after (fs_records (impl s));
  fo_doubt : doubt ≠ [] → fs_faulted (impl s) = true
}.

(** ** Numbering *)

Lemma next_after_consecutive first recs :
  consecutive first recs → first + len recs <= 2 ^ 64 → recs ≠ [] →
  next_after recs = wrap 64 (first + len recs).
Proof.
  intros Hc Hmax Hne. destruct (consecutive_last_record first recs Hne Hc) as (r & Hl & Hr).
  unfold next_after. rewrite Hl, Hr.
  assert (1 <= len recs) as Hlen by (destruct recs; [done|rewrite len_cons; lia]).
  destruct (N.eqb_spec (first + len recs - 1) u64_max) as [E|E];
    change u64_max with (2 ^ 64 - 1) in E.
  - replace (first + len recs) with (2 ^ 64) by lia. done.
  - rewrite wrap64_small by lia. lia.
Qed.

(** The number of a store that can still append, and the numbers after it. *)
Lemma next_valid first recs :
  consecutive first recs → first ≠ 0 → first + len recs <= 2 ^ 64 →
  (recs = [] → first = 1) → valid (next_after recs) = true →
  next_after recs = first + len recs ∧ next_after recs < 2 ^ 64.
Proof.
  intros Hc Hf Hmax H1 Hv. destruct (decide (recs = [])) as [->|Hne].
  { rewrite (H1 eq_refl), len_nil. done. }
  rewrite (next_after_consecutive first recs) in * by done.
  destruct (N.eq_dec (first + len recs) (2 ^ 64)) as [E|E].
  - by rewrite E in Hv.
  - rewrite wrap64_small by lia. lia.
Qed.

Lemma next_after_app first recs new :
  consecutive first (recs ++ new) → first ≠ 0 → first + len (recs ++ new) <= 2 ^ 64 →
  (recs = [] → first = 1) → valid (next_after recs) = true → new ≠ [] →
  next_after (recs ++ new) = wrap 64 (next_after recs + len new).
Proof.
  intros Hc Hf Hmax H1 Hv Hne. rewrite len_app in Hmax.
  apply consecutive_app in Hc as Hc'. destruct Hc' as [Hr _].
  destruct (next_valid first recs) as [-> _]; [done|done|lia|done|done|].
  rewrite (next_after_consecutive first); [|done|by rewrite len_app|by destruct recs].
  by rewrite len_app, N.add_assoc.
Qed.

(** ** Writing to a log *)

Lemma log_file_extend f m recs flushed new encoded written missing :
  log_file f m recs flushed [] → encodes_to new encoded → encoded = written ++ missing →
  consecutive (next_after recs) new → valid (next_after recs) = true → new ≠ [] →
  next_after recs + len new <= 2 ^ 64 →
  len recs + len new <= EventLimits.maxRecordsRead →
  log_file (MkInode (contents f ++ written) (synced f)) m recs flushed new ∧
  (missing = [] →
   log_file (MkInode (contents f ++ written) (synced f)) m (recs ++ new) flushed []).
Proof.
  intros [Hw Hshape Hs (first & Hf & Hc & Hmax & H1 & Hfl1) Hn] Henc Hsplit Hnew Hv Hne Hnext Htotal.
  rewrite app_nil_r in *.
  destruct (next_valid first recs) as [E E64]; [done..|].
  destruct Hshape as (h & bs & es & tail & miss & n & Hh & Hbs & -> & Hcont & Hfl & Hsy & Hd).
  destruct Hd as [(_ & -> & _)|[Hst He]].
  2:{ Transparent encode_batch. by unfold encode_batch in He. Opaque encode_batch. }
  rewrite app_nil_r in Hcont.
  assert (synced f `prefix_of` contents f ++ written) as Hsy' by by apply prefix_app_r.
  assert (∃ first0, first0 ≠ 0 ∧ consecutive first0 (concat bs ++ new) ∧
    first0 + len (concat bs ++ new) <= 2 ^ 64 ∧ (concat bs ++ new = [] → first0 = 1) ∧
    (concat bs = [] → first0 = 1) ∧ (flushed = [] → first0 = 1))
    as (g & G1 & G2 & G3 & G4 & G5 & G6).
  { exists first. rewrite consecutive_app, len_app, <-E. split_and!; try done; try lia.
    intros [H _]%app_eq_nil. auto. }
  split.
  - split; try done; cbn.
    + exists h, bs, es, written, missing, n. split_and!; try done.
      * rewrite Hcont. by rewrite <-app_assoc.
      * right. by rewrite <-Hsplit.
    + exists g. split_and!; done.
    + by rewrite len_app.
  - intros ->. rewrite app_nil_r in Hsplit. subst written. split; try done; cbn.
    + exists h, (bs ++ [new]), (es ++ [encoded]), [], [], (Nat.min n (length bs)).
      pose proof (Forall2_length _ _ _ Hbs) as Hlen. split_and!; try done.
      * apply Forall2_app; [done|]. by constructor.
      * rewrite concat_app. cbn. by rewrite app_nil_r.
      * rewrite concat_app, Hcont, app_nil_r. cbn. by rewrite <-app_assoc, app_nil_r.
      * rewrite take_app_le by lia. rewrite Hfl.
        destruct (Nat.min_spec n (length bs)) as [[? ->]|[? ->]]; [done|].
        by rewrite !take_ge by lia.
      * rewrite take_app_le by lia.
        destruct (Nat.min_spec n (length bs)) as [[? ->]|[? ->]]; [done|].
        rewrite take_ge by lia. by rewrite take_ge in Hsy by lia.
      * by left.
    + exists g. rewrite app_nil_r. split_and!; done.
    + by rewrite app_nil_r, len_app.
Qed.

Lemma log_file_flush f m recs flushed :
  log_file f m recs flushed [] →
  log_file (MkInode (contents f) (contents f)) m recs recs [].
Proof.
  intros [Hw (h & bs & es & tail & miss & n & Hh & Hbs & -> & Hcont & _ & _ & Hd) Hs Hq Hn].
  destruct Hd as [(_ & -> & _)|[Hst He]].
  2:{ Transparent encode_batch. by unfold encode_batch in He. Opaque encode_batch. }
  split; try done; cbn.
  - exists h, bs, es, [], [], (length bs).
    pose proof (Forall2_length _ _ _ Hbs) as Hlen. split_and!; try done.
    + by rewrite firstn_all.
    + rewrite Hlen, firstn_all, Hcont, app_nil_r. done.
    + by left.
  - destruct Hq as (first & Hf & Hc & Hm & H1 & _). by exists first.
Qed.

(** ** Appending *)

Lemma records_from_storable n events :
  Forall (λ e, validate_event e = Ok tt) events →
  Forall (λ e, well_typed (data_payload e) = true) events →
  Forall storable (records_from n events).
Proof.
  intros Hv Hw. revert n. induction Hv as [|e events He _ IH]; intros n; cbn.
  { constructor. }
  apply Forall_cons in Hw as [Hw1 Hw]. constructor; [|by apply IH].
  split; [by destruct e|done].
Qed.

(** The store's bookkeeping without its file. *)
Definition same_log (s s' : FileEventStore) : Prop :=
  fs_path (impl s') = fs_path (impl s) ∧ fs_metadata (impl s') = fs_metadata (impl s) ∧
  fs_records (impl s') = fs_records (impl s) ∧ fs_next (impl s') = fs_next (impl s) ∧
  fs_options (impl s') = fs_options (impl s).

(** Nothing but environment answers was used up. *)
Definition same_files (s s' : FileEventStore) : Prop :=
  impl s' = impl s ∧ inodes (on_disk s') = inodes (on_disk s) ∧
  directory (on_disk s') = directory (on_disk s) ∧
  synced_directory (on_disk s') = synced_directory (on_disk s).

#[export] Instance same_files_preorder : PreOrder same_files.
Proof.
  split; [intros s; unfold same_files; by split_and!|].
  intros a b c (A1 & A2 & A3 & A4) (B1 & B2 & B3 & B4).
  unfold same_files. by rewrite B1, B2, B3, B4.
Qed.

Lemma same_files_ok s s' flushed doubt :
  same_files s s' → file_ok s flushed doubt → file_ok s' flushed doubt.
Proof.
  intros (Hi & Hf & Hd & _) [H1 H2 H3 H4]. split; rewrite ?Hi, ?Hf, ?Hd; done.
Qed.

Lemma io_answers {A} (m : stm disk A) s x rest :
  m (on_disk s) = (x, set_answers rest (on_disk s)) →
  ∃ s', io m s = (x, s') ∧ same_files s s' ∧ on_disk s' = set_answers rest (on_disk s).
Proof. intros E. unfold io. rewrite E. eexists. by split_and!. Qed.

(** The store after its file's contents changed. *)
Definition with_contents (f : inode) (rest : list answer) (s : FileEventStore)
  : FileEventStore :=
  MkFileEventStore (impl s) (with_file (fs_file (impl s)) f rest (on_disk s)).

Lemma with_contents_ok f rest s flushed doubt flushed' doubt' :
  file_ok s flushed doubt →
  log_file f (fs_metadata (impl s)) (fs_records (impl s)) flushed' doubt' →
  (doubt' ≠ [] → fs_faulted (impl s) = true) → file_ok (with_contents f rest s) flushed' doubt'.
Proof.
  intros [_ Hd Hn _] Hlog Hdoubt. split; cbn; try done.
  eexists. by rewrite lookup_insert_eq.
Qed.

Lemma set_faulted_ok s flushed doubt :
  file_ok s flushed doubt → file_ok (set_faulted s) flushed doubt.
Proof. by intros []. Qed.

Lemma write_then_flush_spec s f bytes d :
  inodes (on_disk s) !! fs_file (impl s) = Some f →
  let block := io (write_file (fs_file (impl s)) (len (contents f)) bytes);;
    if decide (d = Durable) then io (flush_file (fs_file (impl s))) else mret tt in
  ∃ written missing rest x,
    bytes = written ++ missing ∧ (x = Ok tt ∨ ∃ msg, x = throw EventStoreError msg) ∧
    (x = Ok tt → missing = []) ∧
    block s = (x, with_contents
      (if bool_decide (x = Ok tt ∧ d = Durable)
       then MkInode (contents f ++ bytes) (contents f ++ bytes)
       else MkInode (contents f ++ written) (synced f)) rest s) ∧
    (answers (on_disk s) = [] → len (contents f) + len bytes <= EventLimits.maxFileBytes →
     x = Ok tt ∧ rest = []).
Proof.
  intros Hf block. destruct (write_file_spec (fs_file (impl s)) bytes (on_disk s) f Hf)
    as (rest & x & w & miss & E & Hsplit & Hx & Ha).
  exists w, miss. unfold block, mbind, stm_bind, io. rewrite E.
  set (f1 := MkInode (contents f ++ w) (synced f)).
  destruct Hx as [[-> ->]|[msg ->]].
  2:{ exists rest, (throw EventStoreError msg). split; [done|]. split; [right; by eexists|].
      split; [done|]. rewrite bool_decide_eq_false_2 by by intros [? _].
      split; [done|]. intros Hd Hsz. by destruct (Ha Hd Hsz). }
  rewrite app_nil_r in Hsplit. subst w.
  destruct (decide (d = Durable)) as [->|Hd].
  2:{ exists rest, (Ok tt). rewrite app_nil_r. split; [done|]. split; [by left|]. split; [done|].
      rewrite bool_decide_eq_false_2 by by intros [_ ?]. split; [done|].
      intros Hd' Hsz. by destruct (Ha Hd' Hsz). }
  destruct (flush_file_spec (fs_file (impl s)) (with_file (fs_file (impl s)) f1 rest (on_disk s))
    f1 (with_file_lookup _ _ _ _)) as (rest' & x & E' & Hx & Ha').
  cbn [on_disk impl]. rewrite E', with_file_twice. exists rest', x. rewrite app_nil_r.
  split; [done|]. split; [done|]. split; [done|]. split.
  - destruct Hx as [->|[msg ->]].
    + rewrite !bool_decide_eq_true_2 by done. done.
    + rewrite !bool_decide_eq_false_2 by naive_solver. done.
  - intros Hd' Hsz. destruct (Ha Hd' Hsz) as [-> _]. apply Ha' in Hd' as [-> ->] || by destruct Ha'.
Qed.

(** What an append may have done. *)
Definition append_outcome (events : list EventData) (d : Durability) (s : FileEventStore)
    (flushed doubt : list EventRecord) (x : res (list RecordId)) (s' : FileEventStore) : Prop :=
  match x with
  | Ok ids => doubt = [] ∧ fs_faulted (impl s') = false ∧
      Forall (λ e, validate_event e = Ok tt) events ∧
      ids = sequence <$> records_from (fs_next (impl s)) events ∧
      fs_records (impl s') = fs_records (impl s) ++ records_from (fs_next (impl s)) events ∧
      fs_metadata (impl s') = fs_metadata (impl s) ∧ fs_path (impl s') = fs_path (impl s) ∧
      (events ≠ [] → valid (fs_next (impl s)) = true) ∧
      file_ok s' (if decide (d = Durable ∧ events ≠ []) then fs_records (impl s') else flushed) []
  | Err _ => same_log s s' ∧
      (same_files s s' ∨
       fs_faulted (impl s) = false ∧ fs_faulted (impl s') = true ∧
       file_ok s' flushed (records_from (fs_next (impl s)) events))
  end.

Lemma append_many_spec events d s flushed doubt :
  file_ok s flushed doubt → Forall (λ e, well_typed (data_payload e) = true) events →
  let '(x, s') := append_many events d s in append_outcome events d s flushed doubt x s'.
Proof.
  intros Hok Hw. unfold append_many. rewrite (stm_bind_eq _ _ s s s) by done. cbn zeta.
  assert (∀ e, append_outcome events d s flushed doubt (Err e) s) as Hsame
    by (intros e; split; [by split_and!|by left]).
  destruct (fs_faulted (impl s)) eqn:Hfaulted; [apply Hsame|].
  assert (doubt = []) as ->.
  { destruct (decide (doubt = [])) as [|Hne]; [done|].
    pose proof (fo_doubt _ _ _ Hok Hne). congruence. }
  rewrite (stm_bind_eq _ _ _ _ _ (sreject_if_false _ _ _)).
  destruct (bool_decide_reflect (events = [])) as [->|Hne].
  { cbn. rewrite decide_False by naive_solver. rewrite app_nil_r. by split_and!. }
  destruct (EventLimits.maxRecordsPerBatch <? len events); [apply Hsame|].
  rewrite (stm_bind_eq _ _ _ _ _ (sreject_if_false _ _ _)).
  destruct (N.ltb_spec (EventLimits.maxRecordsRead - len (fs_records (impl s))) (len events))
    as [|Htotal]; [apply Hsame|].
  rewrite (stm_bind_eq _ _ _ _ _ (sreject_if_false _ _ _)).
  destruct (negb (valid (fs_next (impl s))) || _) eqn:Hseq;
    [apply Hsame|].
  rewrite (stm_bind_eq _ _ _ _ _ (sreject_if_false _ _ _)).
  destruct (rfold _ events tt) as [[]|e] eqn:Hval; [|apply Hsame].
  rewrite (stm_bind_eq _ _ s tt s) by done. apply rfold_checks in Hval.
  set (new := records_from (fs_next (impl s)) events).
  destruct (encode_batch new) as [encoded|e] eqn:Henc; [|apply Hsame].
  rewrite (stm_bind_eq _ _ s encoded s) by done.
  destruct Hok as [(f & Hf & Hlog) Hname Hnext _].
  destruct (file_size_spec (fs_file (impl s)) (on_disk s) f Hf) as (rest & x & E & Hx & _).
  destruct (io_answers _ s x rest E) as (s1 & E1 & Hs1 & Hd1).
  destruct Hx as [->|[msg ->]].
  2:{ unfold mbind, stm_bind. rewrite E1. split; [|by left].
      destruct Hs1 as (Hi & _). unfold same_log. by rewrite Hi. }
  rewrite (stm_bind_eq _ _ _ _ _ E1).
  pose proof Hs1 as (Hi1 & Hino1 & Hdir1 & _).
  assert (file_ok s1 flushed []) as Hok1.
  { apply (same_files_ok s); [done|]. split; [by exists f|done|done|done]. }
  destruct (write_then_flush_spec s1 f encoded d) as (w & miss & rest1 & x & Hsplit & Hx & Hm & Hrun & _).
  { by rewrite Hi1, Hino1. }
  rewrite Hi1 in Hrun. cbn zeta in Hrun.
  assert (len new = len events) as Hlen by apply len_records_from.
  assert (new ≠ []) as Hnewne by (by destruct events).
  assert (1 <= len events) as Hpos by (destruct events; [done|rewrite len_cons; lia]).
  assert (valid (fs_next (impl s)) = true ∧ fs_next (impl s) + len events <= 2 ^ 64)
    as [Hv Hmax].
  { change u64_max with (2 ^ 64 - 1) in Hseq.
    pose proof (lf_sequence _ _ _ _ _ Hlog) as (g & Hg & Hcg & Hgm & Hg1 & _).
    rewrite app_nil_r in *. apply orb_false_iff in Hseq as [Hv Hle].
    apply negb_false_iff in Hv. rewrite Hnext in Hv.
    destruct (next_valid g (fs_records (impl s))) as [_ Hlt]; [done..|].
    rewrite Hnext. split; [done|]. rewrite <-Hnext in *. lia. }
  assert (encodes_to new encoded) as Hto by (split; [by apply records_from_storable|done]).
  assert (consecutive (fs_next (impl s)) new) as Hcons by apply consecutive_records_from.
  assert (∀ wr mi, encoded = wr ++ mi →
    log_file (MkInode (contents f ++ wr) (synced f)) (fs_metadata (impl s))
      (fs_records (impl s)) flushed new ∧
    (mi = [] → log_file (MkInode (contents f ++ wr) (synced f)) (fs_metadata (impl s))
      (fs_records (impl s) ++ new) flushed [])) as Hext.
  { intros wr mi Hwm. apply (log_file_extend _ _ _ _ _ encoded wr mi); try done.
    - by rewrite <-Hnext.
    - by rewrite <-Hnext.
    - by rewrite <-Hnext, Hlen.
    - rewrite Hlen. pose proof (lf_count _ _ _ _ _ Hlog) as Hc. rewrite app_nil_r in Hc. lia. }
  unfold fault_on_throw, stry, mbind at 1, stm_bind at 1. rewrite Hrun.
  destruct Hx as [->|[msg ->]].
  - (* written, and flushed if asked for *)
    specialize (Hm eq_refl). subst miss. rewrite app_nil_r in Hsplit. subst w.
    destruct (Hext encoded [] ltac:(by rewrite app_nil_r)) as [_ Hlog2].
    specialize (Hlog2 eq_refl).
    rewrite (stm_bind_eq _ _ _ tt _) by done. cbn [fst snd mret stm_ret].
    unfold append_outcome. cbn [set_log with_contents impl on_disk fs_records fs_metadata fs_faulted].
    rewrite Hi1, Hfaulted. split_and!; try done.
    assert (next_after (fs_records (impl s) ++ new) = wrap 64 (fs_next (impl s) + len events))
      as Hafter.
    { pose proof (lf_sequence _ _ _ _ _ Hlog2) as (g & Hg & Hcg & Hgm & _ & _).
      pose proof (lf_sequence _ _ _ _ _ Hlog) as (g' & _ & Hcg' & _ & Hg1' & _).
      rewrite app_nil_r in *. rewrite Hnext, <-Hlen.
      apply (next_after_app g); try done; [|by rewrite <-Hnext].
      intros Hnil. rewrite Hnil in *. cbn in Hcg.
      destruct new as [|r new']; [done|]. destruct Hcg as [<- _].
      destruct Hcons as [-> _]. by rewrite Hnext. }
    split; cbn; rewrite ?Hi1; try done.
    + eexists. split; [apply lookup_insert_eq|].
      destruct (decide (d = Durable)) as [->|Hdur].
      * rewrite bool_decide_eq_true_2, decide_True by done.
        exact (log_file_flush _ _ _ _ Hlog2).
      * rewrite bool_decide_eq_false_2, decide_False by naive_solver. done.
    + by rewrite Hdir1.
  - (* the write or the flush failed *)
    rewrite bool_decide_eq_false_2 by naive_solver.
    unfold mbind, stm_bind, smodify, slift.
    split; [unfold same_log; cbn; by rewrite Hi1|]. right. split; [done|].
    split; [done|]. destruct (Hext w miss Hsplit) as [Hlog2 _].
    apply (with_contents_ok (MkInode (contents f ++ w) (synced f)) rest1 (set_faulted s1)
      flushed []); [by apply set_faulted_ok| |done].
    cbn. by rewrite Hi1.
Qed.

(** ** Building a replacement *)

Lemma encode_longest_ok n records batch k :
  encode_longest n records = Ok (batch, k) → n ≠ O →
  (0 < k <= n)%nat ∧ encode_batch (take k records) = Ok batch.
Proof.
  induction n as [|n IH]; [done|]. intros H _. cbn [encode_longest] in H.
  destruct (encode_batch (take (S n) records)) as [b|e] eqn:E.
  { injection H as <- <-. split; [lia|done]. }
  destruct (bool_decide_reflect (exn_kind e = EventStoreError)); [|done].
  destruct (bool_decide_reflect (n = O)) as [->|Hn]; [done|].
  destruct (IH H Hn). split; [lia|done].
Qed.

(** The bytes that suffice for [records] whatever batches they end up in. *)
Definition log_room (records : list EventRecord) : N :=
  foldr (λ r n, 36 + len (record_bytes r) + n) 0 records.

Lemma log_room_app l k : log_room (l ++ k) = log_room l + log_room k.
Proof. unfold log_room. induction l as [|r l IH]; cbn [foldr app]; lia. Qed.

Lemma log_room_batch records :
  records ≠ [] → 36 + len (batch_payload records) <= log_room records.
Proof.
  intros Hne. assert (∀ l, len (batch_payload l) + 36 * len l <= log_room l) as H.
  { induction l as [|r l IH]; [done|]. unfold batch_payload, log_room in *. cbn.
    rewrite len_app, len_cons. lia. }
  specialize (H records). destruct records; [done|]. rewrite len_cons in H. lia.
Qed.

Lemma encodes_to_room rs e : encodes_to rs e → len e <= log_room rs.
Proof.
  intros [Hs He]. apply encode_batch_inv in He as [Hfits ->]; [|done].
  destruct Hfits as (_ & Hlen & _). unfold with_checksum, batch_body.
  rewrite !len_app, len_batch_head, len_le_bytes.
  assert (rs ≠ []) as Hne by (intros ->; rewrite len_nil in Hlen; lia).
  pose proof (log_room_batch rs Hne). lia.
Qed.

Lemma log_room_concat batches encoded :
  Forall2 encodes_to batches encoded → len (concat encoded) <= log_room (concat batches).
Proof.
  induction 1 as [|b e bs es Hb _ IH]; [done|].
  cbn. rewrite len_app, log_room_app. apply encodes_to_room in Hb. lia.
Qed.

Lemma encode_longest_total n records :
  Forall storable records → (0 < n <= length records)%nat → (n <= 4096)%nat →
  ∃ batch k, encode_longest n records = Ok (batch, k).
Proof.
  intros Hs. induction n as [|n IH]; intros Hn Hmax; [lia|]. cbn [encode_longest].
  set (part := take (S n) records).
  assert (len part = N.of_nat (S n)) as Hlen
    by (unfold part, len; rewrite length_take; f_equal; lia).
  assert (Forall storable part) as Hpart by by apply Forall_take.
  destruct (N.le_gt_cases (batchPrefixBytes + len (batch_payload part) + batchTrailerBytes)
    EventLimits.maxBatchBytes) as [Hfit|Hbig].
  - rewrite encode_batch_ok; [by do 2 eexists|]. split; [done|]. split; [|done].
    rewrite Hlen. change EventLimits.maxRecordsPerBatch with 4096. lia.
  - assert (encode_batch part = throw EventStoreError "event batch size limit exceeded") as ->.
    { Transparent encode_batch. unfold encode_batch. Opaque encode_batch.
      change EventLimits.maxRecordsPerBatch with 4096.
      rewrite (proj2 (N.eqb_neq _ _)), (proj2 (N.ltb_ge _ _)) by lia. cbn [orb].
      cbn [reject_if mbind res_bind]. rewrite encode_records_ok by done.
      cbn [mbind res_bind app]. by rewrite (proj2 (N.ltb_lt _ _)). }
    cbn [throw exn_kind]. rewrite bool_decide_eq_true_2 by done.
    destruct (bool_decide_reflect (n = O)) as [->|Hn0]; [|apply IH; lia].
    destruct records as [|r records]; [cbn in Hn; lia|].
    apply Forall_cons in Hs as [Hr _]. destruct (storable_facts r Hr) as (_ & _ & _ & _ & Hp & _).
    exfalso. unfold part in Hbig. cbn [take] in Hbig. rewrite take_0 in Hbig.
    unfold batch_payload in Hbig. cbn in Hbig.
    rewrite app_nil_r in Hbig. fold (record_bytes r) in Hbig.
    assert (len (record_bytes r) <= 8388616) as Hle.
    { rewrite len_record_bytes. change EventLimits.maxRecordPayloadBytes with 8388608 in Hp. lia. }
    change batchPrefixBytes with 32 in Hbig. change batchTrailerBytes with 4 in Hbig.
    change EventLimits.maxBatchBytes with 16777216 in Hbig. lia.
Qed.

Lemma write_batches_spec fuel fd recs d f :
  inodes d !! fd = Some f → Forall storable recs → (length recs < fuel)%nat →
  ∃ rest x f', write_batches fuel fd (len (contents f)) recs d = (x, with_file fd f' rest d) ∧
    synced f' = synced f ∧
    (x = Ok tt → ∃ batches encoded, Forall2 encodes_to batches encoded ∧
       concat batches = recs ∧ contents f' = contents f ++ concat encoded) ∧
    (answers d = [] → len (contents f) + log_room recs <= EventLimits.maxFileBytes →
     x = Ok tt ∧ rest = []).
Proof.
  revert recs d f. induction fuel as [|fuel IH]; intros recs d f Hf Hs Hfuel; [lia|].
  cbn [write_batches]. destruct (bool_decide_reflect (recs = [])) as [->|Hne].
  { exists (answers d), (Ok tt), f. rewrite with_file_id, set_answers_id by done.
    split; [done|]. split; [done|]. split; [|by intros ->].
    intros _. exists [], []. by rewrite app_nil_r. }
  set (n := Nat.min (length recs) (N.to_nat EventLimits.maxRecordsPerBatch)).
  assert (0 < n <= length recs)%nat as Hn.
  { unfold n. change (N.to_nat EventLimits.maxRecordsPerBatch) with (Pos.to_nat 4096).
    destruct recs; [done|]. cbn [length] in *. lia. }
  assert (n <= 4096)%nat as Hn'.
  { unfold n. change (N.to_nat EventLimits.maxRecordsPerBatch) with (Pos.to_nat 4096). lia. }
  destruct (encode_longest_total n recs Hs Hn Hn') as (batch & k & E). rewrite E.
  destruct (encode_longest_ok _ _ _ _ E) as [Hk Hb]; [lia|].
  rewrite (stm_bind_eq _ _ d (batch, k) d) by done.
  assert (encodes_to (take k recs) batch) as Hto by (split; [by apply Forall_take|done]).
  assert (log_room recs = log_room (take k recs) + log_room (drop k recs)) as Hroom
    by (rewrite <-log_room_app; by rewrite take_drop).
  pose proof (encodes_to_room _ _ Hto) as Hbatch.
  destruct (write_file_spec fd batch d f Hf) as (rest & x & w & miss & Ew & Hsplit & Hx & Ha).
  destruct Hx as [[-> ->]|[msg ->]].
  2:{ unfold mbind, stm_bind. rewrite Ew. eexists rest, _, _. split; [reflexivity|].
      split; [done|]. split; [done|]. intros Hd Hr.
      destruct (Ha Hd) as [_ ?]; [lia|done]. }
  rewrite app_nil_r in Hsplit. subst w. rewrite (stm_bind_eq _ _ _ _ _ Ew).
  set (f1 := MkInode (contents f ++ batch) (synced f)) in *.
  replace (len (contents f) + len batch) with (len (contents f1)) by (cbn; by rewrite len_app).
  destruct (IH (drop k recs) (with_file fd f1 rest d) f1)
    as (rest' & x & f' & E' & Hsy & Hx & Ha').
  { apply with_file_lookup. }
  { by apply Forall_drop. }
  { rewrite length_drop. lia. }
  exists rest', x, f'. rewrite with_file_twice in E'. split; [exact E'|]. split; [done|]. split.
  - intros Hok. destruct (Hx Hok) as (bs & es & Hbs & Hc & Hcont).
    exists (take k recs :: bs), (batch :: es). split; [by constructor|]. split.
    + cbn. by rewrite Hc, take_drop.
    + rewrite Hcont. cbn. by rewrite <-app_assoc.
  - intros Hd Hr. destruct (Ha Hd) as [-> _]; [lia|]. apply Ha'; [done|].
    cbn. rewrite len_app. lia.
Qed.

(** The file a successful [fill_replacement] leaves. *)
Definition whole_log (f : inode) (m : EventStoreMetadata) (recs : list EventRecord) : Prop :=
  synced f = contents f ∧ len recs <= EventLimits.maxRecordsRead ∧
  ∃ header batches encoded, encode_header m = Ok header ∧
    Forall2 encodes_to batches encoded ∧ concat batches = recs ∧
    contents f = header ++ concat encoded.

Lemma whole_log_file f m recs first :
  whole_log f m recs → session m < 2 ^ 64 → fileGeneration m < 2 ^ 64 →
  first ≠ 0 → consecutive first recs → first + len recs <= 2 ^ 64 → (recs = [] → first = 1) →
  log_file f m recs recs [].
Proof.
  intros (Hs & Hn & h & bs & es & Hh & Hbs & <- & Hcont) Hw1 Hw2 Hf Hc Hmax H1. split.
  - done.
  - exists h, bs, es, [], [], (length bs). pose proof (Forall2_length _ _ _ Hbs) as Hlen.
    split_and!; try done.
    + by rewrite Hcont, app_nil_r.
    + by rewrite firstn_all.
    + by rewrite Hlen, firstn_all, Hs, Hcont.
    + by left.
  - by rewrite Hs.
  - exists first. by rewrite app_nil_r.
  - by rewrite app_nil_r.
Qed.

(** Reading back what was written. *)
Lemma whole_log_reads header m recs batches encoded :
  session m < 2 ^ 64 → fileGeneration m < 2 ^ 64 →
  encode_header m = Ok header → Forall2 encodes_to batches encoded → concat batches = recs →
  let bytes := header ++ concat encoded in
  decode_header bytes = Ok (m, len header) ∧
  (∀ scan, scan_batches bytes (len header) = Ok scan → FileFormat.records scan = recs →
     len recs <= EventLimits.maxRecordsRead) ∧
  (∀ first, first ≠ 0 → consecutive first recs → first + len recs <= u64_max →
     len recs <= EventLimits.maxRecordsRead →
     scan_batches bytes (len header) = Ok (MkScan recs (len bytes) 0)).
Proof.
  intros Hw1 Hw2 Hh Hbs <- bytes. split_and!.
  - by apply header_roundtrip.
  - intros scan Hscan Hrecs. destruct (scan_batches_sound bytes (len header)) as [H|H].
    + unfold bytes. rewrite len_app. lia.
    + destruct H as (result & E & (_ & Hmax & _)). rewrite Hscan in E. simplify_eq.
      by rewrite <-Hrecs.
    + destruct H as [msg E]. unfold throw in E. congruence.
  - intros first Hf Hc Hmax Hn.
    unfold bytes. rewrite (scan_recovers_log header batches encoded first) by done.
    by rewrite len_app.
Qed.

Lemma fill_replacement_spec fd m recs d :
  inodes d !! fd = Some (MkInode [] []) → Forall storable recs →
  session m < 2 ^ 64 → fileGeneration m < 2 ^ 64 →
  ∃ rest x f, fill_replacement fd m recs d = (x, with_file fd f rest d) ∧
    (x = Ok tt → whole_log f m recs) ∧
    (answers d = [] → ∀ first header, first ≠ 0 → consecutive first recs →
       first + len recs <= u64_max → len recs <= EventLimits.maxRecordsRead →
       encode_header m = Ok header → len header + log_room recs <= EventLimits.maxFileBytes →
       x = Ok tt ∧ rest = []).
Proof.
  intros Hf Hs Hw1 Hw2. unfold fill_replacement.
  destruct (encode_header m) as [header|e] eqn:Hh.
  2:{ exists (answers d), (Err e), (MkInode [] []). rewrite with_file_id, set_answers_id by done.
      split; [done|]. split; [done|]. by intros _ first h. }
  rewrite (stm_bind_eq _ _ d header d) by done.
  destruct (write_file_spec fd header d (MkInode [] []) Hf)
    as (rest & x & w & miss & E & Hsplit & Hx & Ha).
  cbn [contents synced app] in E. change (len []) with 0 in E.
  change (len (contents (MkInode [] []))) with 0 in Ha.
  destruct Hx as [[-> ->]|[msg ->]].
  2:{ unfold mbind, stm_bind. rewrite E. do 3 eexists. split; [reflexivity|]. split; [done|].
      intros Hd first h _ _ _ _ [= <-] Hr.
      destruct (Ha Hd) as [_ ?]; [lia|done]. }
  rewrite app_nil_r in Hsplit. subst w. rewrite (stm_bind_eq _ _ _ _ _ E).
  set (f1 := MkInode header []) in *.
  destruct (write_batches_spec (S (length recs)) fd recs (with_file fd f1 rest d) f1)
    as (rest1 & x & f2 & E1 & Hsy & Hx & Ha1); [apply with_file_lookup|done|lia|].
  rewrite with_file_twice in E1. change (len (contents f1)) with (len header) in E1, Ha1.
  destruct x as [[]|e].
  2:{ unfold mbind, stm_bind. rewrite E1. do 3 eexists. split; [reflexivity|]. split; [done|].
      intros Hd first h _ _ _ _ [= <-] Hr. destruct (Ha Hd) as [-> _]; [lia|].
      destruct (Ha1 eq_refl Hr). done. }
  rewrite (stm_bind_eq _ _ _ _ _ E1). destruct (Hx eq_refl) as (bs & es & Hbs & Hc & Hcont).
  destruct (flush_file_spec fd (with_file fd f2 rest1 d) f2 (with_file_lookup _ _ _ _))
    as (rest2 & x & E2 & Hx2 & Ha2). rewrite with_file_twice in E2.
  destruct Hx2 as [->|[msg ->]].
  2:{ unfold mbind, stm_bind. rewrite E2. do 3 eexists. split; [reflexivity|]. split; [done|].
      intros Hd first h _ _ _ _ [= <-] Hr. destruct (Ha Hd) as [-> _]; [lia|].
      destruct (Ha1 eq_refl Hr) as [_ ->]. destruct (Ha2 eq_refl). done. }
  rewrite bool_decide_eq_true_2 in E2 by done. rewrite (stm_bind_eq _ _ _ _ _ E2).
  set (f3 := MkInode (contents f2) (contents f2)) in *.
  destruct (read_file_spec fd (with_file fd f3 rest2 d) f3 (with_file_lookup _ _ _ _))
    as (rest3 & x & E3 & Hx3 & Ha3).
  change (set_answers rest3 (with_file fd f3 rest2 d)) with (with_file fd f3 rest3 d) in E3.
  change (contents f3) with (contents f2) in *. change (contents f1) with header in Hcont.
  destruct (whole_log_reads header m recs bs es Hw1 Hw2 Hh Hbs Hc) as (Hdec & Hbound & Hscan).
  rewrite <-Hcont in Hdec, Hbound, Hscan.
  destruct Hx3 as [->|[msg ->]].
  2:{ unfold mbind, stm_bind. rewrite E3. do 3 eexists. split; [reflexivity|]. split; [done|].
      intros Hd first h _ _ _ _ [= <-] Hr. destruct (Ha Hd) as [-> _]; [lia|].
      destruct (Ha1 eq_refl Hr) as [_ ->]. destruct (Ha2 eq_refl) as [-> _].
      destruct (Ha3 eq_refl) as [_ ?]; [|done].
      rewrite Hcont, len_app. pose proof (log_room_concat _ _ Hbs) as Hle. rewrite Hc in Hle. lia. }
  rewrite (stm_bind_eq _ _ _ _ _ E3), Hdec.
  rewrite (stm_bind_eq _ _ _ (m, len header) (with_file fd f3 rest3 d)) by done. cbn [fst snd].
  destruct (scan_batches (contents f2) (len header)) as [scan|e] eqn:Hsc.
  2:{ do 3 eexists. split; [reflexivity|]. split; [done|].
      intros Hd first h H1 H2 H3 H4 [= <-] Hr. specialize (Hscan first H1 H2 H3 H4). congruence. }
  rewrite (stm_bind_eq _ _ _ scan (with_file fd f3 rest3 d)) by done.
  unfold sreject_if, slift, reject_if. set (bad := _ || _).
  assert (bad = false ↔ invalidTailBytes scan = 0 ∧ FileFormat.records scan = recs) as Hbad.
  { unfold bad. rewrite !orb_false_iff, !negb_false_iff, N.eqb_eq, !bool_decide_eq_true.
    naive_solver. }
  destruct bad.
  - do 3 eexists. split; [reflexivity|]. split; [done|].
    intros Hd first h H1 H2 H3 H4 [= <-] Hr. specialize (Hscan first H1 H2 H3 H4).
    injection Hscan as ->. cbn in Hbad. naive_solver.
  - do 3 eexists. split; [reflexivity|]. split.
    + intros _. split; [done|]. split; [|by exists header, bs, es].
      apply (Hbound scan eq_refl). by apply Hbad.
    + intros Hd first h _ _ _ _ [= <-] Hr. split; [done|].
      destruct (Ha Hd) as [-> _]; [lia|].
      destruct (Ha1 eq_refl Hr) as [_ ->]. destruct (Ha2 eq_refl) as [-> _].
      destruct (Ha3 eq_refl) as [-> _]; [|done].
      rewrite Hcont, len_app. pose proof (log_room_concat _ _ Hbs) as Hle. rewrite Hc in Hle. lia.
Qed.

(** Only the replacement's name and new files differ. *)
Definition kept_files (replacement : string) (d d' : disk) : Prop :=
  (∀ fd, is_Some (inodes d !! fd) → inodes d' !! fd = inodes d !! fd) ∧
  (∀ name, name ≠ replacement → directory d' !! name = directory d !! name) ∧
  synced_directory d' = synced_directory d.

#[export] Instance kept_files_preorder replacement : PreOrder (kept_files replacement).
Proof.
  split; [by intros d|]. intros a b c (A1 & A2 & A3) (B1 & B2 & B3). split_and!.
  - intros fd Hfd. rewrite B1; [by apply A1|]. by rewrite A1.
  - intros name Hn. by rewrite B2, A2.
  - by rewrite B3.
Qed.

Lemma kept_answers replacement d rest : kept_files replacement d (set_answers rest d).
Proof. done. Qed.

Lemma kept_with_file replacement d fd f rest :
  kept_files replacement d (with_file fd f rest d) ∨ is_Some (inodes d !! fd).
Proof.
  destruct (inodes d !! fd) eqn:E; [right; by eexists|left]. split; [|done].
  intros j [g Hg]. cbn. rewrite lookup_insert_ne; [done|]. intros ->. congruence.
Qed.

Lemma open_new_spec name exclusive d :
  (exclusive = false → directory d !! name = None) →
  let '(x, d') := open_file name exclusive d in
  kept_files name d d' ∧
  match x with
  | Ok fd => inodes d !! fd = None ∧ inodes d' !! fd = Some (MkInode [] []) ∧
      directory d' !! name = Some fd
  | Err _ => True
  end ∧
  (answers d = [] → directory d !! name = None →
   answers d' = [] ∧ ∃ fd, x = Ok fd).
Proof.
  intros Hexclusive. unfold open_file.
  destruct (attempt_spec "unable to open event-store file: " d) as (rest & x & E & Hx & Ha).
  destruct Hx as [-> | ->].
  2:{ unfold mbind, stm_bind. rewrite E. split; [done|]. split; [done|].
      intros Hd. by destruct (Ha Hd). }
  rewrite (stm_bind_eq _ _ _ _ _ E). set (d1 := set_answers rest d).
  rewrite (stm_bind_eq _ _ d1 d1 d1) by done. change (directory d1) with (directory d).
  destruct (directory d !! name) as [fd|] eqn:Hname.
  { destruct exclusive; [|by specialize (Hexclusive eq_refl)].
    split; [done|]. split; [done|]. done. }
  set (fd := fresh (dom (inodes d1))).
  assert (inodes d !! fd = None) as Hfresh
    by (apply not_elem_of_dom; apply (is_fresh (dom (inodes d1)))).
  set (d2 := set_directory (<[name := fd]> (directory d1))
    (set_inodes (<[fd := MkInode [] []]> (inodes d1)) d1)).
  rewrite (stm_bind_eq _ _ _ fd d2) by done.
  assert (kept_files name d d2) as Hkept.
  { split_and!; [| |done].
    - intros j [g Hg]. cbn. rewrite lookup_insert_ne; [done|]. intros E'. by rewrite <-E', Hfresh in Hg.
    - intros n Hn. cbn. by rewrite lookup_insert_ne. }
  destruct (attempt_spec "event-store path is not a lockable regular file" d2)
    as (rest2 & x & E2 & Hx & Ha2).
  assert (kept_files name d (set_answers rest2 d2)) as Hkept2 by (etrans; [exact Hkept|done]).
  destruct Hx as [-> | ->].
  - rewrite (stm_bind_eq _ _ _ _ _ E2). split; [done|]. split.
    + split; [done|]. split; cbn; by rewrite lookup_insert_eq.
    + intros Hd _. destruct (Ha Hd) as [Hr _]. destruct (Ha2 Hr) as [-> _].
      split; [done|]. by eexists.
  - unfold mbind, stm_bind. rewrite E2. split; [done|]. split; [done|].
    intros Hd _. destruct (Ha Hd) as [Hr _]. by destruct (Ha2 Hr).
Qed.

Lemma discard_on_throw_spec {A} replacement (m : stm disk A) d :
  (∃ a, m d = (Ok a, (discard_on_throw replacement m d).2) ∧
        discard_on_throw replacement m d = m d) ∨
  (∃ e d1 rest (b : bool), m d = (Err e, d1) ∧ discard_on_throw replacement m d =
     (Err e, set_answers rest
        (if b then d1 else set_directory (delete replacement (directory d1)) d1))).
Proof.
  unfold discard_on_throw, stry. destruct (m d) as [[a|e] d1] eqn:E.
  - left. by exists a.
  - right. exists e, d1. destruct (remove_file_spec replacement d1) as (rest & b & Er & _).
    exists rest, b. split; [done|]. by rewrite (stm_bind_eq _ _ _ _ _ Er).
Qed.

Lemma kept_discard replacement d rest (b : bool) :
  kept_files replacement d (set_answers rest
    (if b then d else set_directory (delete replacement (directory d)) d)).
Proof.
  destruct b; [done|]. split; [done|]. split; [|done].
  intros name Hn. cbn. by rewrite lookup_delete_ne.
Qed.

Lemma build_replacement_spec m recs s :
  Forall storable recs → session m < 2 ^ 64 → fileGeneration m < 2 ^ 64 →
  let '(x, s') := build_replacement m recs s in
  impl s' = impl s ∧ kept_files (replacement_path s) (on_disk s) (on_disk s') ∧
  match x with
  | Ok fd => inodes (on_disk s) !! fd = None ∧
      directory (on_disk s') !! replacement_path s = Some fd ∧
      ∃ f, inodes (on_disk s') !! fd = Some f ∧ whole_log f m recs
  | Err _ => True
  end ∧
  (answers (on_disk s) = [] → ∀ first header, first ≠ 0 → consecutive first recs →
     first + len recs <= u64_max → len recs <= EventLimits.maxRecordsRead →
     encode_header m = Ok header → len header + log_room recs <= EventLimits.maxFileBytes →
     answers (on_disk s') = [] ∧ ∃ fd, x = Ok fd).
Proof.
  intros Hs Hw1 Hw2. unfold build_replacement. rewrite (stm_bind_eq _ _ s s s) by done.
  cbn zeta. set (rp := replacement_path s). unfold io. set (d := on_disk s).
  destruct (remove_file_spec rp d) as (rest & b & Er & Har).
  set (d1 := set_answers rest (if b then d else set_directory (delete rp (directory d)) d)) in *.
  rewrite (stm_bind_eq _ _ _ _ _ Er).
  assert (kept_files rp d d1) as Hk1 by apply kept_discard.
  destruct b.
  { cbn. split; [done|]. split; [done|]. split; [done|]. intros Hd. by destruct (Har Hd). }
  rewrite (stm_bind_eq _ _ _ _ _ (sreject_if_false _ _ _)).
  pose proof (open_new_spec rp true d1 ltac:(done)) as Hopen. unfold mbind at 1, stm_bind at 1.
  destruct (open_file rp true d1) as [[fd|e] d2]; destruct Hopen as (Hk2 & Hx2 & Ha2).
  2:{ cbn. split; [done|]. split; [by etrans|]. split; [done|]. intros Hd.
      destruct (Har Hd) as [-> _]. destruct (Ha2 eq_refl) as (_ & ? & ?); [|done].
      cbn. apply lookup_delete_eq. }
  destruct Hx2 as (Hnone & Hfd & Hname).
  destruct (fill_replacement_spec fd m recs d2 Hfd Hs Hw1 Hw2)
    as (rest3 & x & f & E3 & Hx3 & Ha3).
  assert (inodes d !! fd = None) as Hnone0.
  { destruct (inodes d !! fd) as [g|] eqn:Hg; [|done].
    destruct Hk1 as (H1 & _). rewrite H1, Hg in Hnone; [done|by rewrite Hg]. }
  assert (∀ f', kept_files rp d (with_file fd f' rest3 d2)) as Hk3.
  { intros f'. destruct Hk1 as (A1 & A2 & A3), Hk2 as (B1 & B2 & B3). split_and!.
    - intros j Hj. cbn. rewrite lookup_insert_ne.
      + rewrite B1; [by apply A1|]. by rewrite A1.
      + intros <-. destruct Hj. congruence.
    - intros name Hn. cbn. by rewrite B2, A2.
    - cbn. by rewrite B3, A3. }
  destruct (discard_on_throw_spec rp (fill_replacement fd m recs) d2) as [(u & Eu & Ed)|H].
  - unfold mbind at 1, stm_bind at 1. rewrite Ed, E3. rewrite E3 in Eu.
    injection Eu as -> _. cbn. destruct u. specialize (Hx3 eq_refl).
    split; [done|]. split; [apply Hk3|]. split.
    + split; [done|]. split; [done|]. exists f. by rewrite lookup_insert_eq.
    + intros Hd first h H1 H2 H3 H4 H5 H6. destruct (Har Hd) as [-> _].
      destruct (Ha2 eq_refl) as (Hd2 & _); [cbn; apply lookup_delete_eq|].
      destruct (Ha3 Hd2 first h H1 H2 H3 H4 H5 H6) as [_ ->]. split; [done|]. by eexists.
  - destruct H as (e & d3 & rest4 & b & Em & Ed). rewrite E3 in Em. injection Em as -> <-.
    unfold mbind at 1, stm_bind at 1. rewrite Ed. cbn. split; [done|].
    split; [etrans; [apply Hk3|apply (kept_discard rp (with_file fd f rest3 d2))]|].
    split; [done|]. intros Hd first h H1 H2 H3 H4 H5 H6. destruct (Har Hd) as [-> _].
    destruct (Ha2 eq_refl) as (Hd2 & _); [cbn; apply lookup_delete_eq|].
    by destruct (Ha3 Hd2 first h H1 H2 H3 H4 H5 H6).
Qed.

Lemma inject_replacement_ready_spec point s :
  let '(x, s') := inject_replacement_ready point s in
  impl s' = impl s ∧ kept_files (replacement_path s) (on_disk s) (on_disk s') ∧
  (x = Ok tt → s' = s) ∧ (faultInjector (fs_options (impl s)) = None → x = Ok tt).
Proof.
  unfold inject_replacement_ready. rewrite (stm_bind_eq _ _ s s s) by done.
  unfold io. destruct (discard_on_throw_spec (replacement_path s) (slift (inject point s))
    (on_disk s)) as [(u & Eu & ->)|(e & d1 & rest & b & Em & ->)].
  - unfold slift in *. injection Eu as -> _. destruct u. split; [done|]. split; [done|].
    split; [by destruct s|done].
  - unfold slift in Em. injection Em as Hi <-. cbn. split; [done|].
    split; [apply (kept_discard _ (on_disk s))|]. split; [done|].
    intros Hf. unfold inject in Hi. by rewrite Hf in Hi.
Qed.

Lemma install_replacement_spec fd m recs point s :
  directory (on_disk s) !! replacement_path s = Some fd →
  let '(x, s') := install_replacement fd m recs point s in
  inodes (on_disk s') = inodes (on_disk s) ∧
  (synced_directory (on_disk s') = synced_directory (on_disk s) ∨
   synced_directory (on_disk s') = directory (on_disk s')) ∧
  ((∃ e, x = Err e) ∧ same_files s s' ∨
   directory (on_disk s') =
     <[fs_path (impl s) := fd]> (delete (replacement_path s) (directory (on_disk s))) ∧
   (x = Ok tt ∧ impl s' = impl (set_log m fd recs (next_after recs) s) ∧
      synced_directory (on_disk s') = directory (on_disk s') ∨
    (∃ e, x = Err e) ∧ impl s' = impl (set_faulted (set_log m fd recs (next_after recs) s)))) ∧
  (answers (on_disk s) = [] → faultInjector (fs_options (impl s)) = None →
   answers (on_disk s') = [] ∧ x = Ok tt).
Proof.
  intros Hrp. unfold install_replacement. rewrite (stm_bind_eq _ _ s s s) by done.
  destruct (replace_file_spec (replacement_path s) (fs_path (impl s)) fd (on_disk s) Hrp)
    as (rest & x & E & Hx & Ha). unfold mbind at 1, stm_bind at 1, io at 1. rewrite E.
  destruct Hx as [->|[msg ->]].
  2:{ rewrite bool_decide_eq_false_2 by done. cbn. split; [done|]. split; [by left|].
      split; [left; split; [by eexists|done]|]. intros Hd. by destruct (Ha Hd). }
  rewrite bool_decide_eq_true_2 by done. set (d1 := set_answers rest _).
  rewrite (stm_bind_eq _ _ _ tt (set_log m fd recs (next_after recs)
    (MkFileEventStore (impl s) d1))) by done.
  set (s1 := set_log _ _ _ _ _). unfold fault_on_throw, stry.
  rewrite (stm_bind_eq _ _ s1 s1 s1) by done.
  unfold mbind at 1, stm_bind at 1, slift at 1.
  destruct (inject point s1) as [[]|e] eqn:Hinj.
  2:{ cbn. split; [done|]. split; [by left|]. split.
      - right. split; [done|]. right. split; [by eexists|done].
      - intros _ Hf. unfold inject in Hinj. cbn in Hinj. by rewrite Hf in Hinj. }
  unfold io. destruct (flush_parent_directory_spec d1) as (rest2 & x & b & E2 & Hx & Ha2).
  change (on_disk s1) with d1. rewrite E2.
  destruct Hx as [[-> ->]|[msg ->]].
  - cbn. split; [done|]. split; [by right|]. split; [right; split; [done|]; by left|].
    intros Hd _. destruct (Ha Hd) as [-> _]. by destruct (Ha2 eq_refl) as [-> _].
  - cbn. split; [by destruct b|]. split; [destruct b; [by right|by left]|]. split.
    + right. split; [by destruct b|]. right. split; [by eexists|done].
    + intros Hd _. destruct (Ha Hd) as [-> _]. by destruct (Ha2 eq_refl).
Qed.

(** ** Retention *)

Lemma replacement_path_ne s : fs_path (impl s) ≠ replacement_path s.
Proof.
  unfold replacement_path. generalize (fs_path (impl s)). intros p.
  induction p as [|a p IH]; cbn; [done|]. by intros [= E].
Qed.

Lemma log_file_storable f m recs flushed doubt :
  log_file f m recs flushed doubt → Forall storable recs.
Proof.
  intros H. destruct (lf_shape _ _ _ _ _ H) as (h & bs & es & _ & _ & _ & _ & Hbs & -> & _).
  clear H. induction Hbs as [|b e bs es [Hb _] _ IH]; [constructor|]. cbn.
  by apply Forall_app.
Qed.

(** The store when a call stopped short of installing a replacement. *)
Lemma file_ok_kept s s' flushed doubt :
  file_ok s flushed doubt → impl s' = impl s →
  kept_files (replacement_path s) (on_disk s) (on_disk s') → file_ok s' flushed doubt.
Proof.
  intros [(f & Hf & Hlog) Hn Hx Hd] Hi (H1 & H2 & _). split; rewrite Hi; try done.
  - exists f. split; [|done]. rewrite H1; [done|]. rewrite Hf. by eexists.
  - rewrite H2; [done|]. apply replacement_path_ne.
Qed.

(** The state of the files before the commit boundary. *)
Definition not_installed (s s' : FileEventStore) : Prop :=
  impl s' = impl s ∧ kept_files (replacement_path s) (on_disk s) (on_disk s').

(** The state once the replacement [fd] has taken the place of the file. *)
Definition installed (s s' : FileEventStore) (fd : N) (m : EventStoreMetadata)
    (recs : list EventRecord) : Prop :=
  inodes (on_disk s) !! fd = None ∧
  fs_metadata (impl s') = m ∧ fs_records (impl s') = recs ∧ fs_file (impl s') = fd ∧
  fs_path (impl s') = fs_path (impl s) ∧ file_ok s' recs [] ∧
  inodes (on_disk s') !! fs_file (impl s) = inodes (on_disk s) !! fs_file (impl s) ∧
  (synced_directory (on_disk s') = synced_directory (on_disk s) ∨
   synced_directory (on_disk s') = directory (on_disk s')).

(** The last three calls of recovery and retention. *)
Lemma replace_spec m recs ready replaced s first :
  is_Some (inodes (on_disk s) !! fs_file (impl s)) → Forall storable recs →
  session m < 2 ^ 64 → fileGeneration m < 2 ^ 64 → first ≠ 0 → consecutive first recs →
  first + len recs <= 2 ^ 64 → recs ≠ [] →
  let '(x, s') := (fd ← build_replacement m recs; inject_replacement_ready ready;;
                   install_replacement fd m recs replaced) s in
  ((∃ e, x = Err e) ∧ not_installed s s' ∨
   ∃ fd, installed s s' fd m recs ∧
     (x = Ok tt ∧ fs_faulted (impl s') = fs_faulted (impl s) ∧
        synced_directory (on_disk s') = directory (on_disk s') ∨
      (∃ e, x = Err e) ∧ fs_faulted (impl s') = true)) ∧
  (answers (on_disk s) = [] → faultInjector (fs_options (impl s)) = None →
   first + len recs <= u64_max → len recs <= EventLimits.maxRecordsRead → ∀ header,
   encode_header m = Ok header → len header + log_room recs <= EventLimits.maxFileBytes →
   x = Ok tt ∧ answers (on_disk s') = []).
Proof.
  intros Hok Hs Hw1 Hw2 Hf Hc Hmax Hne.
  pose proof (build_replacement_spec m recs s Hs Hw1 Hw2) as Hbuild.
  unfold mbind at 1, stm_bind at 1. destruct (build_replacement m recs s) as [[fd|e] s1];
    destruct Hbuild as (Hi1 & Hk1 & Hx1 & Ha1).
  2:{ split; [left; split; [by eexists|done]|]. intros Hd _ Hm Hn h Hh Hr.
      by destruct (Ha1 Hd first h Hf Hc Hm Hn Hh Hr) as (_ & ? & ?). }
  destruct Hx1 as (Hnone & Hrp & f & Hfd & Hlog).
  pose proof (inject_replacement_ready_spec ready s1) as Hready.
  assert (replacement_path s1 = replacement_path s) as Hrp1
    by (unfold replacement_path; by rewrite Hi1).
  unfold mbind at 1, stm_bind at 1.
  destruct (inject_replacement_ready ready s1) as [[[]|e] s2];
    destruct Hready as (Hi2 & Hk2 & Hx2 & Ha2).
  2:{ split.
      - left. split; [by eexists|]. split; [by rewrite Hi2|]. rewrite Hrp1 in Hk2. by etrans.
      - intros _ Hinj. rewrite Hi1 in Ha2. by specialize (Ha2 Hinj). }
  specialize (Hx2 eq_refl). subst s2.
  pose proof (install_replacement_spec fd m recs replaced s1 ltac:(by rewrite Hrp1)) as Hinst.
  destruct (install_replacement fd m recs replaced s1) as [x s3].
  destruct Hinst as (Hino & Hsync & Hcase & Ha3). split.
  2:{ intros Hd Hinj Hm Hn h Hh Hr. destruct (Ha1 Hd first h Hf Hc Hm Hn Hh Hr) as [Hd1 _].
      rewrite Hi1 in Ha3. by destruct (Ha3 Hd1 Hinj). }
  destruct Hcase as [[He (Hi3 & Hf3 & Hd3 & Hs3)]|[Hdir Hcase]].
  { left. split; [done|]. split; [by rewrite Hi3|]. etrans; [exact Hk1|].
    unfold kept_files. by rewrite Hf3, Hd3, Hs3. }
  right. exists fd. rewrite Hi1 in Hdir.
  assert (∀ i, i = impl (set_log m fd recs (next_after recs) s1) ∨
    i = impl (set_faulted (set_log m fd recs (next_after recs) s1)) → impl s3 = i →
    installed s s3 fd m recs) as Hins.
  { intros i Hi E3. assert (fs_metadata i = m ∧ fs_records i = recs ∧ fs_file i = fd ∧
      fs_path i = fs_path (impl s) ∧ fs_next i = next_after recs) as (E1 & E2 & E4 & E5 & E6)
      by (destruct Hi as [-> | ->]; cbn; by rewrite Hi1).
    split; [done|]. rewrite E3. split_and!; try done.
    - split; rewrite E3, ?E1, ?E2, ?E4, ?E5, ?E6; try done.
      + exists f. rewrite Hino. split; [done|]. by apply (whole_log_file f m recs first).
      + rewrite Hdir. apply lookup_insert_eq.
    - rewrite Hino. destruct Hk1 as [Hk _]. by apply Hk.
    - destruct Hk1 as (_ & _ & Hk). by rewrite <-Hk. }
  destruct Hcase as [(-> & Hi3 & Hsy)|[He Hi3]].
  - split; [by eapply Hins; [left|]|]. left. rewrite Hi3. cbn. by rewrite Hi1.
  - split; [by eapply Hins; [right|]|]. right. by rewrite Hi3.
Qed.

Lemma retention_storable next q a b payload :
  q < 2 ^ 64 → a < 2 ^ 64 → b < 2 ^ 64 → retention_payload a b q = Ok payload →
  storable (MkEventRecord next EventType.Retention 1 payload).
Proof.
  intros Hq Ha Hb Hp. rewrite retention_payload_ok in Hp. injection Hp as <-.
  split; [apply retention_event_valid|]. cbn.
  assert (∀ n, n < 2 ^ 64 → (n <=? u64_max) = true) as Hle
    by (intros n Hn; change u64_max with (2 ^ 64 - 1); lia).
  change (2 ^ 64) with 18446744073709551616 in *.
  rewrite !(proj2 (N.ltb_lt _ _)) by done. done.
Qed.

(** What retention may have done to the store. *)
Definition retained_log (q : RecordId) (s s' : FileEventStore) (fd : N) : Prop :=
  ∃ before checkpoint after retention,
    fs_records (impl s) = before ++ checkpoint :: after ∧ sequence checkpoint = q ∧
    type checkpoint = EventType.Checkpoint ∧ type retention = EventType.Retention ∧
    sequence retention = fs_next (impl s) ∧
    installed s s' fd (bump_generation (fs_metadata (impl s)))
      ((checkpoint :: after) ++ [retention]).

Lemma consecutive_bound first recs r :
  consecutive first recs → first + len recs <= 2 ^ 64 → r ∈ recs → sequence r < 2 ^ 64.
Proof.
  intros Hc Hmax (i & Hi)%list_elem_of_lookup. rewrite (consecutive_lookup _ _ _ _ Hc Hi).
  apply lookup_lt_Some in Hi. unfold len in Hmax. lia.
Qed.

Lemma file_retain_spec q s flushed doubt :
  file_ok s flushed doubt →
  let '(x, s') := file_retain_from_checkpoint q s in
  ((∃ e, x = Err e) ∧ not_installed s s') ∨
  ∃ fd, retained_log q s s' fd ∧
    (x = Ok tt ∧ fs_faulted (impl s') = false ∧
       synced_directory (on_disk s') = directory (on_disk s') ∨
     (∃ e, x = Err e) ∧ fs_faulted (impl s') = true).
Proof.
  intros Hok. unfold file_retain_from_checkpoint. rewrite (stm_bind_eq _ _ s s s) by done.
  cbn zeta. destruct (fs_faulted (impl s)) eqn:Hfaulted; [by left; split; [eexists|]|].
  rewrite (stm_bind_eq _ _ _ _ _ (sreject_if_false _ _ _)).
  destruct (retained_records (fs_metadata (impl s)) (fs_records (impl s)) q)
    as [[before retained]|e] eqn:Hret; [|by left; split; [eexists|]].
  rewrite (stm_bind_eq _ _ s (before, retained) s) by done. cbn iota.
  destruct (N.eqb_spec (fileGeneration (fs_metadata (impl s))) u64_max) as [|Hgen];
    [by left; split; [eexists|]|].
  rewrite (stm_bind_eq _ _ _ _ _ (sreject_if_false _ _ _)).
  destruct (valid (fs_next (impl s))) eqn:Hvalid; [|by left; split; [eexists|]].
  rewrite (stm_bind_eq _ _ _ _ _ (sreject_if_false _ _ _)).
  apply retained_records_ok in Hret as (cp & after & Hrs & -> & Hq & Ht & _).
  destruct (fo_file _ _ _ Hok) as (f & _ & Hlog).
  pose proof (log_file_storable _ _ _ _ _ Hlog) as Hst. rewrite Hrs in Hst.
  apply Forall_app in Hst as [_ Hst].
  destruct (lf_sequence _ _ _ _ _ Hlog) as (first & Hf & Hc & Hmax & H1 & _).
  apply consecutive_app in Hc as [Hc _]. rewrite len_app in Hmax.
  rewrite (fo_next _ _ _ Hok) in Hvalid.
  destruct (next_valid first (fs_records (impl s))) as [Hnext Hnext64]; [done|done|lia|done|done|].
  set (a := if negb _ then hd 0 _ else 0). set (b := if negb _ then q - 1 else 0).
  assert (∀ r, r ∈ fs_records (impl s) → sequence r < 2 ^ 64) as Hbound
    by (intros r Hr; eapply consecutive_bound; [exact Hc|lia|done]).
  assert (q < 2 ^ 64) as Hq64.
  { rewrite <-Hq. apply Hbound. rewrite Hrs. apply elem_of_app. right. left. }
  assert (a < 2 ^ 64) as Ha.
  { unfold a. destruct (negb _); [|done]. destruct (fs_records (impl s)) as [|r l]; [done|].
    apply Hbound. left. }
  assert (b < 2 ^ 64) as Hb by (unfold b; destruct (negb _); lia).
  rewrite retention_payload_ok.
  set (payload := VObject _). rewrite (stm_bind_eq _ _ s payload s) by done.
  set (retention := MkEventRecord (fs_next (impl s)) EventType.Retention 1 payload).
  assert (storable retention) as Hret
    by (apply (retention_storable _ q a b); [done..|by rewrite retention_payload_ok]).
  rewrite Hrs in Hc, Hnext, Hnext64. apply consecutive_app in Hc as [_ Hc].
  rewrite len_app, len_cons in Hnext.
  pose proof (replace_spec (bump_generation (fs_metadata (impl s)))
    ((cp :: after) ++ [retention]) CompactionReplacementReady CompactionReplaced s
    (first + len before) ltac:(destruct (fo_file _ _ _ Hok) as (g & -> & _); by eexists))
    as Hrep.
  pose proof (lf_widths _ _ _ _ _ Hlog) as [Hw1 Hw2].
  assert (Forall storable ((cp :: after) ++ [retention])) as Hall
    by (apply Forall_app; split; [done|by constructor]).
  specialize (Hrep Hall Hw1). cbn [bump_generation fileGeneration] in Hrep.
  change u64_max with (2 ^ 64 - 1) in Hgen.
  specialize (Hrep ltac:(lia) ltac:(lia)).
  assert (consecutive (first + len before) ((cp :: after) ++ [retention])) as Hcons.
  { apply consecutive_app. split; [done|]. rewrite len_cons. split; [|done].
    cbn [sequence retention]. rewrite (fo_next _ _ _ Hok), Hrs, Hnext. lia. }
  specialize (Hrep Hcons ltac:(rewrite len_snoc, len_cons; lia) ltac:(done)).
  destruct ((fd ← build_replacement _ _; _) s) as [x s']. destruct Hrep as [Hrep _].
  destruct Hrep as [[He Hno]|(fd & Hins & Hcase)]; [by left|right].
  exists fd. split; [|by rewrite <-Hfaulted].
  exists before, cp, after, retention. split_and!; done.
Qed.
