(* ===== verification/FileStoreCrash.v ===== *)
(** * Power failure and reopening

    A log file cut at any point behind its durable part still opens, with at
    least the durable records; what the promises of [FileStoreSpec] amount to
    for a client, and where they end. *)
From S2P Require Import Prelude OrderedMap Values ValueCodec Effects Events Crc32c.
From S2P Require Import FileFormat Replay EventStore Disk FileStore FileStoreSpec.

#[local] Opaque encode_batch encode_header decode_header scan_batches validate_event
  retained_records has_batch_magic_after.

(** ** Cutting a log *)

Lemma take_concat {A} (all : list (list A)) k :
  ∃ j part, take k (concat all) = concat (take j all) ++ part ∧
    (j = length all ∧ part = [] ∨
     ∃ e missing, all !! j = Some e ∧ e = part ++ missing ∧ missing ≠ []).
Proof.
  revert k. induction all as [|e all IH]; intros k.
  { exists O, []. cbn. rewrite take_nil. split; [done|by left]. }
  destruct (decide (k < length e)%nat) as [Hk|Hk].
  - exists O, (take k e). cbn. rewrite take_app_le by lia. split; [done|right].
    exists e, (drop k e). split; [done|]. rewrite take_drop. split; [done|].
    intros H%(f_equal length). rewrite length_drop in H. cbn in H. lia.
  - destruct (IH (k - length e)%nat) as (j & part & E & H). exists (S j), part.
    cbn. rewrite take_app, take_ge, E by lia. rewrite <-app_assoc. split; [done|].
    destruct H as [[-> ->]|H]; [by left|by right].
Qed.

Lemma prefix_concat_take {A} (all : list (list A)) i j :
  (i <= j)%nat → concat (take i all) `prefix_of` concat (take j all).
Proof.
  intros Hij. replace (take i all) with (take i (take j all))
    by (rewrite take_take; f_equal; lia).
  rewrite <-(take_drop i (take j all)) at 2. rewrite concat_app. by eexists.
Qed.

(** A cut behind the first [i] blocks keeps at least those. *)
Lemma take_concat_keeps {A} (all : list (list A)) k i j part :
  concat (take i all) `prefix_of` take k (concat all) →
  take k (concat all) = concat (take j all) ++ part →
  (j = length all ∧ part = [] ∨
   ∃ e missing, all !! j = Some e ∧ e = part ++ missing ∧ missing ≠ []) →
  (Nat.min i (length all) <= j)%nat.
Proof.
  intros Hi E [[-> _]|(e & missing & He & -> & Hm)]; [lia|].
  destruct (decide (i <= j)%nat); [lia|]. exfalso.
  rewrite E in Hi. apply prefix_length in Hi. rewrite length_app in Hi.
  pose proof (prefix_length _ _ (prefix_concat_take all (S j) i ltac:(lia))) as Hj.
  rewrite (take_S_r _ _ _ He), concat_app, length_app in Hj. cbn in Hj.
  rewrite app_nil_r, length_app in Hj. destruct missing; [done|]. cbn in Hj. lia.
Qed.

(** What is left of a log file: whole batches, at least the durable ones, and
    possibly part of one more. *)
Record remains (bytes : list byte) (m : EventStoreMetadata)
    (flushed upper kept : list EventRecord) (part : list byte) : Prop := {
  rm_shape : ∃ header batches encoded, encode_header m = Ok header ∧
    Forall2 encodes_to batches encoded ∧ kept = concat batches ∧
    bytes = header ++ concat encoded ++ part;
  rm_flushed : flushed `prefix_of` kept;
  rm_upper : kept `prefix_of` upper;
  rm_part : part ≠ [] → ∃ next missing, encodes_to next (part ++ missing) ∧ missing ≠ [] ∧
    kept ++ next `prefix_of` upper
}.

Lemma survivor_remains f f' m recs flushed doubt :
  log_file f m recs flushed doubt → survives f f' →
  ∃ kept part, remains (contents f') m flushed (recs ++ doubt) kept part.
Proof.
  intros [_ Hshape _ _ _] [_ (k & Hcut & Hsy)].
  destruct Hshape as (h & bs & es & tail & miss & n & Hh & Hbs & -> & Hcont & -> & Hn & Hd).
  assert (∃ all_b all_e, Forall2 encodes_to all_b all_e ∧ concat all_b = concat bs ++ doubt ∧
    h ++ concat all_e = contents f ++ miss ∧ take n bs = take (Nat.min n (length bs)) all_b ∧
    take n es = take (Nat.min n (length bs)) all_e) as (ab & ae & Hall & Hb & He & Hnb & Hne).
  { pose proof (Forall2_length _ _ _ Hbs) as Hlen.
    assert (∀ {A} (l : list A) k, take n l = take (Nat.min n (length l)) (l ++ k)) as Htake.
    { intros A l k'. rewrite take_app_le by lia.
      destruct (Nat.min_spec n (length l)) as [[? ->]|[? ->]]; [done|]. by rewrite !take_ge by lia. }
    destruct Hd as [(-> & -> & ->)|Hd].
    - exists bs, es. rewrite Hcont, !app_nil_r. split_and!; try done.
      + by rewrite (Htake _ bs []), app_nil_r.
      + by rewrite (Htake _ es []), app_nil_r, Hlen.
    - exists (bs ++ [doubt]), (es ++ [tail ++ miss]). rewrite !concat_app, Hcont. cbn.
      rewrite !app_nil_r, <-!app_assoc. split_and!; try done.
      + by apply Forall2_app; [|constructor].
      + rewrite Hlen. apply Htake. }
  rewrite Hnb, Hne in *. set (i := Nat.min n (length bs)) in *. clear Hd.
  assert (contents f' = take (Nat.min k (length (contents f))) (h ++ concat ae)) as Hcut'.
  { rewrite He, take_app_le by lia. rewrite Hcut.
    destruct (Nat.min_spec k (length (contents f))) as [[? ->]|[? ->]]; [done|].
    by rewrite !take_ge by lia. }
  set (k' := Nat.min k (length (contents f))) in *.
  assert (h ++ concat (take i ae) `prefix_of` contents f') as Hpre by by etrans.
  assert (length h <= k')%nat as Hk.
  { apply prefix_length in Hpre. rewrite Hcut', length_take, length_app in Hpre. lia. }
  rewrite take_app, (take_ge h) in Hcut' by lia.
  destruct (take_concat ae (k' - length h)) as (j & part & Ej & Hj).
  rewrite Ej in Hcut'. exists (concat (take j ab)), part.
  assert (Nat.min i (length ae) <= j)%nat as Hij.
  { apply (take_concat_keeps ae (k' - length h) i j part); [|done|done].
    rewrite Hcut', <-Ej in Hpre. by apply prefix_app_inv in Hpre. }
  pose proof (Forall2_length _ _ _ Hall) as Hlen. rewrite <-Hb. split.
  - exists h, (take j ab), (take j ae). split_and!; try done. by apply Forall2_take.
  - destruct (decide (i <= length ae)%nat) as [Hi|Hi].
    + apply prefix_concat_take. lia.
    + rewrite (take_ge ab i), (take_ge ab j) by lia. done.
  - rewrite <-(firstn_all ab) at 2. destruct (decide (j <= length ab)%nat).
    + by apply prefix_concat_take.
    + by rewrite !take_ge by lia.
  - intros Hp. destruct Hj as [[_ ?]|(e & missing & Hje & -> & Hm)]; [done|].
    destruct (Forall2_lookup_r _ _ _ _ _ Hall Hje) as (next & Hjb & Hnext).
    exists next, missing. split; [done|]. split; [done|].
    rewrite <-(firstn_all ab) at 2. apply lookup_lt_Some in Hjb as Hlt.
    etrans; [|apply (prefix_concat_take ab (S j)); lia].
    rewrite (take_S_r _ _ _ Hjb), concat_app. cbn. by rewrite app_nil_r.
Qed.

(** ** Opening without failing calls *)

Lemma set_answers_nil d : answers d = [] → set_answers [] d = d.
Proof. destruct d. cbn. by intros ->. Qed.

Lemma attempt_nil msg d : answers d = [] → attempt msg d = (Ok tt, d).
Proof.
  intros Hd. destruct (attempt_spec msg d) as (rest & x & E & _ & Ha).
  destruct (Ha Hd) as [-> ->]. by rewrite E, set_answers_nil.
Qed.

Lemma session_lock_nil name d :
  answers d = [] →
  ∃ fd d', session_lock name d = (Ok fd, d') ∧ kept_files name d d' ∧ answers d' = [].
Proof.
  intros Hd. unfold session_lock. rewrite (stm_bind_eq _ _ _ _ _ (attempt_nil _ d Hd)).
  rewrite (stm_bind_eq _ _ d d d) by done.
  destruct (directory d !! name) as [fd|] eqn:Hn.
  { rewrite (stm_bind_eq _ _ d fd d) by done.
    rewrite (stm_bind_eq _ _ _ _ _ (attempt_nil _ d Hd)). by exists fd, d. }
  set (fd := fresh (dom (inodes d))).
  assert (inodes d !! fd = None) as Hfresh
    by (apply not_elem_of_dom; apply (is_fresh (dom (inodes d)))).
  set (d2 := set_directory (<[name := fd]> (directory d))
    (set_inodes (<[fd := MkInode [] []]> (inodes d)) d)).
  rewrite (stm_bind_eq _ _ _ fd d2) by done.
  assert (answers d2 = []) as Hd2 by done.
  rewrite (stm_bind_eq _ _ _ _ _ (attempt_nil _ d2 Hd2)). exists fd, d2.
  split; [done|]. split; [|done]. split_and!; [| |done].
  - intros j [g Hg]. cbn. rewrite lookup_insert_ne; [done|]. intros E'. by rewrite <-E', Hfresh in Hg.
  - intros n Hne. cbn. by rewrite lookup_insert_ne.
Qed.

Lemma open_file_nil name fd d :
  answers d = [] → directory d !! name = Some fd → open_file name false d = (Ok fd, d).
Proof.
  intros Hd Hn. unfold open_file. rewrite (stm_bind_eq _ _ _ _ _ (attempt_nil _ d Hd)).
  rewrite (stm_bind_eq _ _ d d d) by done. rewrite Hn.
  rewrite (stm_bind_eq _ _ d fd d) by done.
  by rewrite (stm_bind_eq _ _ _ _ _ (attempt_nil _ d Hd)).
Qed.

Lemma file_size_nil fd d f :
  answers d = [] → inodes d !! fd = Some f → file_size fd d = (Ok (len (contents f)), d).
Proof.
  intros Hd Hf. destruct (file_size_spec fd d f Hf) as (rest & x & E & _ & Ha).
  destruct (Ha Hd) as [-> ->]. by rewrite E, set_answers_nil.
Qed.

Lemma lock_path_ne (p : string) : p ≠ (p +:+ ".lock")%string.
Proof. induction p as [|a p IH]; cbn; [done|]. by intros [= E]. Qed.

(** The metadata a client asks for must agree with the file's. *)
Definition same_session (m requested : EventStoreMetadata) : Prop :=
  session m = session requested ∧ engineVersion m = engineVersion requested ∧
  feedbackTiming m = feedbackTiming requested.

Definition recovery_record (kept : list EventRecord) (part : list byte) : EventRecord :=
  MkEventRecord (next_after kept) EventType.Recovery 1
    (VObject [("truncated_bytes", VUnsigned (len part))]).

Lemma recovery_storable kept part :
  len part < 2 ^ 64 → storable (recovery_record kept part) ∧
  len (record_bytes (recovery_record kept part)) <= 64.
Proof.
  intros Hp. change (2 ^ 64) with 18446744073709551616 in Hp. split.
  - split; [|cbn; by rewrite (proj2 (N.ltb_lt _ _))].
    apply validate_event_ok. cbn [data_type data_version data_payload]. by split_and!.
  - rewrite len_record_bytes. by vm_compute.
Qed.

Lemma recovery_payload_ok n :
  recovery_payload n = Ok (VObject [("truncated_bytes", VUnsigned n)]).
Proof. done. Qed.

(** The part of a batch at the end of the file looks like a place where a
    complete batch starts. *)
Definition embeds_batch (bytes part : list byte) : Prop :=
  part ≠ [] ∧ has_batch_magic_after bytes (len bytes - len part + 1) = true.

(** What scanning the remains finds. *)
Lemma remains_scan bytes m flushed upper kept part first :
  remains bytes m flushed upper kept part → session m < 2 ^ 64 → fileGeneration m < 2 ^ 64 →
  first ≠ 0 → consecutive first upper → first + len upper <= u64_max →
  len upper <= EventLimits.maxRecordsRead →
  ∃ header, encode_header m = Ok header ∧ decode_header bytes = Ok (m, len header) ∧
    (embeds_batch bytes part ∧ scan_batches bytes (len header) =
       throw EventStoreError "mid-file event-store corruption" ∨
     ∃ stop, scan_batches bytes (len header) = Ok (MkScan kept stop (len part))).
Proof.
  intros [(h & bs & es & Hh & Hbs & -> & ->) _ [more ->] Hpart] Hw1 Hw2 Hf Hc Hmax Hn.
  exists h. split; [done|]. split; [by apply header_roundtrip|].
  apply consecutive_app in Hc as [Hc Hc']. rewrite len_app in *.
  destruct (decide (part = [])) as [->|Hp].
  - right. eexists. rewrite app_nil_r. by apply (scan_recovers_log h bs es first); (done || lia).
  - destruct (Hpart Hp) as (next & missing & Hnext & Hm & [more' E]).
    rewrite <-app_assoc in E. apply app_inv_head in E as ->.
    apply consecutive_app in Hc' as [Hc' _]. rewrite len_app in *.
    pose proof (scan_torn_log h part missing bs es next first (first + len (concat bs))
      Hbs Hc Hf ltac:(lia) ltac:(lia) Hnext Hc' ltac:(lia) Hp Hm) as E. cbn zeta in E.
    rewrite E. destruct (has_batch_magic_after _ _) eqn:Hmagic; [left|right; by eexists].
    split; [|done]. split; [done|]. rewrite <-Hmagic. f_equal. rewrite !len_app. lia.
Qed.

Lemma log_room_prefix l k : l `prefix_of` k → log_room l <= log_room k.
Proof. intros [m ->]. rewrite log_room_app. lia. Qed.

(** ** Loading what is left *)

(** What reopening needs of the bytes in the file: a log numbered [first]
    onwards, with room for the record recovery appends. *)
Record loadable (f : inode) (m : EventStoreMetadata) (flushed upper kept : list EventRecord)
    (part : list byte) (first : N) : Prop := {
  ld_remains : remains (contents f) m flushed upper kept part;
  ld_synced : synced f = contents f;
  ld_widths : session m < 2 ^ 64 ∧ fileGeneration m < 2 ^ 64;
  ld_first : first ≠ 0;
  ld_numbers : consecutive first upper;
  ld_bound : first + len upper < u64_max;
  ld_fresh : flushed = [] → first = 1;
  ld_count : len upper < EventLimits.maxRecordsRead;
  ld_room header : encode_header m = Ok header →
    len header + (log_room upper + 100) <= EventLimits.maxFileBytes
}.

Lemma loadable_kept f m flushed upper kept part first :
  loadable f m flushed upper kept part first →
  consecutive first kept ∧ first + len kept < u64_max ∧ len kept < EventLimits.maxRecordsRead ∧
  (kept = [] → first = 1) ∧ Forall storable kept ∧ log_room kept <= log_room upper.
Proof.
  intros [[(h & bs & es & _ & Hbs & Hk & _) Hfl [more Hup] _] _ _ Hf Hc Hb H1 Hn _].
  subst upper. rewrite len_app in *. apply consecutive_app in Hc as [Hc _]. split_and!; try done.
  - lia.
  - lia.
  - intros ->. apply H1. by apply prefix_nil_inv in Hfl.
  - subst kept. clear -Hbs. induction Hbs as [|b e bs es [Hb _] _ IH]; [constructor|]. cbn.
    by apply Forall_app.
  - apply log_room_prefix. by eexists.
Qed.

Lemma loadable_size f m flushed upper kept part first :
  loadable f m flushed upper kept part first →
  len (contents f) <= EventLimits.maxFileBytes ∧ len part < 2 ^ 64.
Proof.
  intros H. pose proof (loadable_kept _ _ _ _ _ _ _ H) as (_ & _ & _ & _ & _ & Hroom).
  destruct H as [[(h & bs & es & Hh & Hbs & -> & ->) _ Hup Hpart] _ _ _ _ _ _ _ Hr].
  specialize (Hr h Hh). apply log_room_concat in Hbs. rewrite !len_app.
  assert (log_room (concat bs) + len part <= log_room upper) as Hp.
  { destruct (decide (part = [])) as [->|Hp]; [rewrite len_nil; lia|].
    destruct (Hpart Hp) as (next & missing & Hnext & _ & Hup').
    apply log_room_prefix in Hup'. rewrite log_room_app in Hup'.
    apply encodes_to_room in Hnext. rewrite len_app in Hnext. lia. }
  change EventLimits.maxFileBytes with 536870912 in *.
  change (2 ^ 64) with 18446744073709551616. lia.
Qed.

Lemma load_existing_spec requested s f m flushed upper kept part first :
  loadable f m flushed upper kept part first → same_session m requested →
  impl s = MkImplementation (fs_path (impl s)) requested (MkFileOptions true None)
    (fs_file (impl s)) [] 1 false →
  answers (on_disk s) = [] → inodes (on_disk s) !! fs_file (impl s) = Some f →
  directory (on_disk s) !! fs_path (impl s) = Some (fs_file (impl s)) →
  let '(x, s') := load_existing requested s in
  x = throw EventStoreError "mid-file event-store corruption" ∧ embeds_batch (contents f) part ∨
  x = Ok tt ∧ fs_path (impl s') = fs_path (impl s) ∧ fs_metadata (impl s') = m ∧
  fs_faulted (impl s') = false ∧
  fs_records (impl s') = kept ++ (if bool_decide (part = []) then [] else [recovery_record kept part]) ∧
  file_ok s' (fs_records (impl s')) [].
Proof.
  intros Hload (E1 & E2 & E3) Himpl Hd Hf Hname.
  pose proof (loadable_kept _ _ _ _ _ _ _ Hload) as (Hck & Hbk & Hnk & H1 & Hst & Hroom).
  pose proof (loadable_size _ _ _ _ _ _ _ Hload) as [Hsize Hpart].
  destruct Hload as [Hrem Hsy [Hw1 Hw2] Hfirst Hc Hb _ Hn Hr].
  destruct (remains_scan _ _ _ _ _ _ first Hrem Hw1 Hw2 Hfirst Hc ltac:(lia) ltac:(lia))
    as (h & Hh & Hdec & Hscan). specialize (Hr h Hh).
  unfold load_existing. rewrite (stm_bind_eq _ _ s s s) by done.
  destruct (read_file_spec (fs_file (impl s)) (on_disk s) f Hf) as (rest & x & E & _ & Ha).
  destruct (Ha Hd Hsize) as [-> ->]. rewrite set_answers_nil in E by done.
  rewrite (stm_bind_eq _ _ s (contents f) s) by (unfold io; rewrite E; by destruct s).
  rewrite Hdec, (stm_bind_eq _ _ s (m, len h) s) by done. cbn [fst snd].
  rewrite E1, E2, E3, N.eqb_refl, !bool_decide_eq_true_2 by done. cbn [negb orb].
  rewrite (stm_bind_eq _ _ _ _ _ (sreject_if_false _ _ _)).
  destruct Hscan as [[Hemb ->]|[stop ->]]; [by left|].
  rewrite (stm_bind_eq _ _ s (MkScan kept stop (len part)) s) by done. cbn [FileFormat.records invalidTailBytes].
  assert ((if bool_decide (kept = []) then fs_next (impl s) else next_after kept) =
    next_after kept) as -> by (rewrite Himpl; by destruct kept).
  set (s1 := set_log m (fs_file (impl s)) kept (next_after kept) s).
  rewrite (stm_bind_eq _ _ s tt s1) by done.
  destruct (decide (part = [])) as [->|Hp].
  { rewrite bool_decide_eq_true_2 by done. rewrite app_nil_r. cbn. right.
    split_and!; try done; [by cbn; rewrite Himpl|].
    split; cbn; try done. exists f. split; [done|].
    destruct (rm_shape _ _ _ _ _ _ Hrem) as (h' & bs & es & Hh' & Hbs & Hk & Hcont).
    rewrite app_nil_r in Hcont. apply (whole_log_file f m kept first); try done; [|change u64_max with (2 ^ 64 - 1) in Hbk; lia].
    split_and!; [done|lia|]. by exists h', bs, es. }
  assert (len part ≠ 0) as Hp0 by (destruct part; [done|rewrite len_cons; lia]).
  rewrite (proj2 (N.eqb_neq _ _)), (bool_decide_eq_false_2 (part = [])) by done.
  replace (fs_options (impl s)) with (MkFileOptions true None) by by rewrite Himpl.
  cbn [writableRecovery negb].
  rewrite (stm_bind_eq _ _ _ _ _ (sreject_if_false _ _ _)).
  assert (next_after kept = first + len kept) as Hnext.
  { destruct (decide (kept = [])) as [->|Hne]; [by rewrite (H1 eq_refl)|].
    rewrite (next_after_consecutive first) by (done || (change u64_max with (2 ^ 64 - 1) in Hbk; lia)). apply wrap64_small.
    change u64_max with (2 ^ 64 - 1) in Hbk. lia. }
  assert (valid (next_after kept) = true) as ->.
  { rewrite Hnext. unfold valid. apply negb_true_iff, N.eqb_neq. lia. }
  rewrite (stm_bind_eq _ _ _ _ _ (sreject_if_false _ _ _)), recovery_payload_ok.
  rewrite (stm_bind_eq _ _ s1 (VObject [("truncated_bytes", VUnsigned (len part))]) s1) by done.
  fold (recovery_record kept part). set (recs := kept ++ [recovery_record kept part]).
  destruct (recovery_storable kept part Hpart) as [Hrst Hrlen].
  assert (consecutive first recs) as Hcr.
  { apply consecutive_app. split; [done|]. split; [|done]. cbn. by rewrite Hnext. }
  assert (len recs = len kept + 1) as Hlr by (unfold recs; by rewrite len_snoc).
  assert (log_room recs <= log_room kept + 100) as Hlog.
  { unfold recs. rewrite log_room_app. cbn. lia. }
  pose proof (replace_spec m recs RecoveryReplacementReady RecoveryReplaced s1 first
    ltac:(by eexists) ltac:(apply Forall_app; split; [done|by constructor]) Hw1 Hw2 Hfirst Hcr
    ltac:(change u64_max with (2 ^ 64 - 1) in Hbk; lia) ltac:(by destruct kept)) as Hrep.
  destruct ((fd ← build_replacement _ _; _) s1) as [x s']. right.
  destruct Hrep as [Hcase Htotal].
  destruct (Htotal Hd ltac:(cbn; by rewrite Himpl) ltac:(lia) ltac:(lia) h Hh ltac:(lia))
    as [-> _].
  destruct Hcase as [[[e He] _]|(fd & Hins & Hcase)]; [done|].
  destruct Hins as (_ & Hm & Hrecs & _ & Hpath & Hok & _ & _).
  destruct Hcase as [(_ & Hfaulted & _)|[[e He] _]]; [|done].
  split_and!; try done.
  - rewrite Hfaulted. cbn. by rewrite Himpl.
  - by rewrite Hrecs.
Qed.

(** ** Reopening *)

Lemma encode_header_size m h : encode_header m = Ok h → 34 <= len h.
Proof.
  intros H. destruct (validate_metadata m) as [[]|e] eqn:Hv.
  - rewrite encode_header_ok in H by done. injection H as <-. unfold with_checksum.
    rewrite len_app, len_header_fields. lia.
  - with_strategy transparent [encode_header] unfold encode_header in H. by rewrite Hv in H.
Qed.

Definition recovering : FileEventStoreOptions := MkFileOptions true None.

Lemma open_store_loads path requested d fd f m flushed upper kept part first :
  loadable f m flushed upper kept part first → same_session m requested → answers d = [] →
  inodes d !! fd = Some f → directory d !! path = Some fd →
  let '(x, d') := open_store path requested recovering d in
  x = throw EventStoreError "mid-file event-store corruption" ∧ embeds_batch (contents f) part ∨
  ∃ i, x = Ok i ∧ fs_path i = path ∧ fs_metadata i = m ∧ fs_faulted i = false ∧
    fs_records i = kept ++ (if bool_decide (part = []) then [] else [recovery_record kept part]) ∧
    file_ok (MkFileEventStore i d') (fs_records i) [].
Proof.
  intros Hload Hsame Hd Hf Hname. unfold open_store.
  destruct (session_lock_nil (path +:+ ".lock")%string d Hd) as (lock & d1 & E1 & Hk1 & Hd1).
  rewrite (stm_bind_eq _ _ _ _ _ E1). destruct Hk1 as (Hi1 & Hn1 & _).
  rewrite <-Hn1 in Hname by apply lock_path_ne.
  rewrite <-Hi1 in Hf by (rewrite Hf; by eexists).
  rewrite (stm_bind_eq _ _ _ _ _ (open_file_nil path fd d1 Hd1 Hname)).
  rewrite (stm_bind_eq _ _ _ _ _ (file_size_nil fd d1 f Hd1 Hf)).
  rewrite (proj2 (N.eqb_neq _ _)).
  2:{ destruct (rm_shape _ _ _ _ _ _ (ld_remains _ _ _ _ _ _ _ Hload))
        as (h & bs & es & Hh & _ & _ & Hc).
      rewrite Hc, len_app. apply encode_header_size in Hh. lia. }
  set (s := MkFileEventStore (MkImplementation path requested recovering fd [] 1 false) d1).
  pose proof (load_existing_spec requested s f m flushed upper kept part first Hload Hsame
    eq_refl Hd1 Hf Hname) as H.
  destruct (load_existing requested s) as [x s'].
  destruct H as [[-> Hemb]|(-> & H)]; [by left|right]. exists (impl s'). split; [done|].
  destruct s'. cbn in *. by destruct H as (? & ? & ? & ? & ?).
Qed.

(** Room for the record recovery appends, in numbers, count and bytes. *)
Definition reopen_room (m : EventStoreMetadata) (recs : list EventRecord) : Prop :=
  Forall (λ r, sequence r < u64_max - 1) recs ∧ len recs < EventLimits.maxRecordsRead ∧
  ∀ header, encode_header m = Ok header →
    len header + (log_room recs + 100) <= EventLimits.maxFileBytes.

(** What opening the file [bytes] yields: the durable records and possibly more
    of the written ones; a torn batch is replaced by a record of the recovery.
    Only torn bytes in which a complete batch starts make opening fail. *)
Definition reopened (bytes : list byte) (path : string) (m : EventStoreMetadata)
    (flushed upper : list EventRecord) (x : res Implementation) (d : disk) : Prop :=
  ∃ kept part, flushed `prefix_of` kept ∧ kept `prefix_of` upper ∧ (part ≠ [] → kept ≠ upper) ∧
    (x = throw EventStoreError "mid-file event-store corruption" ∧ embeds_batch bytes part ∨
     ∃ i, x = Ok i ∧ fs_path i = path ∧ fs_metadata i = m ∧ fs_faulted i = false ∧
       fs_records i = kept ++ (if bool_decide (part = []) then [] else [recovery_record kept part]) ∧
       file_ok (MkFileEventStore i d) (fs_records i) []).

Lemma log_file_loadable f f' m recs flushed doubt :
  log_file f m recs flushed doubt → survives f f' → reopen_room m (recs ++ doubt) →
  ∃ kept part first, loadable f' m flushed (recs ++ doubt) kept part first.
Proof.
  intros Hlog Hf' (Hseq & Hn & Hr).
  destruct (survivor_remains _ _ _ _ _ _ Hlog Hf') as (kept & part & Hrem).
  destruct (lf_sequence _ _ _ _ _ Hlog) as (first & Hfirst & Hc & _ & H1 & Hfl).
  exists kept, part, first. split; try done.
  - by destruct Hf'.
  - by apply (lf_widths _ _ _ _ _ Hlog).
  - change u64_max with (2 ^ 64 - 1) in *. destruct (decide (recs ++ doubt = [])) as [E|Hne].
    + rewrite E. apply app_eq_nil in E as [E _]. by rewrite (H1 E).
    + destruct (consecutive_last_record first _ Hne Hc) as (r & Hl & Hr').
      apply last_Some_elem_of in Hl. rewrite Forall_forall in Hseq. specialize (Hseq r Hl). lia.
Qed.

Lemma reopen_log path requested d fd f f' m recs flushed doubt :
  log_file f m recs flushed doubt → survives f f' → reopen_room m (recs ++ doubt) →
  inodes d !! fd = Some f' → directory d !! path = Some fd → answers d = [] →
  same_session m requested →
  let '(x, d') := open_store path requested recovering d in
  reopened (contents f') path m flushed (recs ++ doubt) x d'.
Proof.
  intros Hlog Hf' Hroom Hf Hname Hd Hsame.
  destruct (log_file_loadable _ _ _ _ _ _ Hlog Hf' Hroom) as (kept & part & first & Hload).
  pose proof (open_store_loads path requested d fd f' m flushed (recs ++ doubt) kept part first
    Hload Hsame Hd Hf Hname) as H.
  destruct (open_store path requested recovering d) as [x d']. exists kept, part.
  destruct (ld_remains _ _ _ _ _ _ _ Hload) as [_ Hfl Hup Hpart]. split_and!; try done.
  intros Hp E. destruct (Hpart Hp) as (next & missing & [_ Hnext] & _ & Hpre).
  rewrite <-E in Hpre. apply prefix_length in Hpre. rewrite length_app in Hpre.
  destruct next; [|cbn in Hpre; lia].
  by with_strategy transparent [encode_batch] unfold encode_batch in Hnext.
Qed.
