(* ===== verification/FileStoreRuns.v ===== *)
(** * The file store as a client sees it

    A store is created, used by any sequence of appends, flushes and retentions,
    whatever the system calls answer, and reopened after a power failure: what
    the client was promised is there. *)
From S2P Require Import Prelude OrderedMap Values ValueCodec Effects Events Crc32c.
From S2P Require Import FileFormat Replay EventStore Disk FileStore FileStoreSpec FileStoreCrash.

#[local] Opaque encode_batch encode_header decode_header scan_batches validate_event
  retained_records has_batch_magic_after.

(** ** Creating a store *)

Lemma session_lock_spec name d :
  let '(x, d') := session_lock name d in
  kept_files name d d' ∧ (answers d = [] → answers d' = []).
Proof.
  unfold session_lock.
  destruct (attempt_spec "unable to open event-store session lock" d) as (rest & x & E & Hx & Ha).
  destruct Hx as [-> | ->].
  2:{ unfold mbind, stm_bind. rewrite E. split; [done|]. intros Hd. by destruct (Ha Hd). }
  rewrite (stm_bind_eq _ _ _ _ _ E). set (d1 := set_answers rest d).
  rewrite (stm_bind_eq _ _ d1 d1 d1) by done.
  assert (∀ fd d2, kept_files name d d2 → (answers d = [] → answers d2 = []) →
    let '(x, d') := (attempt "unable to acquire event-store session lock";; mret fd : stm disk N) d2 in
    kept_files name d d' ∧ (answers d = [] → answers d' = [])) as Hend.
  { intros fd d2 Hk Hd2.
    destruct (attempt_spec "unable to acquire event-store session lock" d2)
      as (rest2 & x & E2 & _ & Ha2). unfold mbind, stm_bind. rewrite E2.
    destruct x; (split; [by etrans|]); intros Hd; by destruct (Ha2 (Hd2 Hd)). }
  change (directory d1) with (directory d). destruct (directory d !! name) as [fd|] eqn:Hn.
  { rewrite (stm_bind_eq _ _ d1 fd d1) by done. apply Hend; [done|]. by intros [-> _]%Ha. }
  set (fd := fresh (dom (inodes d1))). set (d2 := set_directory (<[name := fd]> (directory d1))
    (set_inodes (<[fd := MkInode [] []]> (inodes d1)) d1)).
  rewrite (stm_bind_eq _ _ _ fd d2) by done. apply Hend; [|by intros [-> _]%Ha].
  assert (inodes d !! fd = None) as Hfresh
    by (apply not_elem_of_dom; apply (is_fresh (dom (inodes d1)))).
  split_and!; [| |done].
  - intros j [g Hg]. cbn. rewrite lookup_insert_ne; [done|]. intros E'.
    by rewrite <-E', Hfresh in Hg.
  - intros n Hne. cbn. by rewrite lookup_insert_ne.
Qed.

Lemma open_store_creates path requested options d :
  directory d !! path = None → session requested < 2 ^ 64 → fileGeneration requested < 2 ^ 64 →
  match open_store path requested options d with
  | (Ok i, d') => i = MkImplementation path requested options (fs_file i) [] 1 false ∧
      synced_directory d' = synced_directory d ∧ file_ok (MkFileEventStore i d') [] []
  | (Err _, _) => True
  end.
Proof.
  intros Hname Hw1 Hw2. unfold open_store.
  pose proof (session_lock_spec (path +:+ ".lock")%string d) as Hlock.
  unfold mbind at 1, stm_bind at 1. destruct (session_lock _ d) as [[lock|e] d1]; [|done].
  destruct Hlock as [(_ & Hn1 & Hs1) _]. rewrite <-Hn1 in Hname by apply lock_path_ne.
  pose proof (open_new_spec path false d1 (λ _, Hname)) as Hopen.
  unfold mbind at 1, stm_bind at 1. destruct (open_file path false d1) as [[fd|e] d2]; [|done].
  destruct Hopen as ((_ & _ & Hs2) & (_ & Hfd & Hname2) & _).
  destruct (file_size_spec fd d2 _ Hfd) as (rest & x & E & Hx & _).
  unfold mbind at 1, stm_bind at 1. rewrite E. destruct Hx as [->|[msg ->]]; [|done].
  cbn [contents]. change (len [] =? 0) with true. cbn iota zeta.
  set (d3 := set_answers rest d2).
  destruct (encode_header requested) as [header|e] eqn:Hh; [|done].
  rewrite (stm_bind_eq _ _ d3 header d3) by done.
  destruct (write_file_spec fd header d3 _ Hfd) as (rest4 & x & w & miss & E4 & Hsplit & Hx & _).
  change (len (contents (MkInode [] []))) with 0 in E4.
  unfold mbind at 1, stm_bind at 1. rewrite E4. destruct Hx as [[-> ->]|[msg ->]]; [|done].
  rewrite app_nil_r in Hsplit. subst w. cbn [contents synced app].
  set (f := MkInode header []). set (d4 := with_file fd f rest4 d3).
  destruct (flush_file_spec fd d4 f (with_file_lookup _ _ _ _)) as (rest5 & x & E5 & Hx & _).
  unfold mbind at 1, stm_bind at 1. rewrite E5. destruct Hx as [->|[msg ->]]; [|done].
  rewrite bool_decide_eq_true_2 by done. cbn. split; [done|].
  split; [by rewrite Hs2, Hs1|]. split; cbn; try done. eexists. split; [apply lookup_insert_eq|].
  apply (whole_log_file _ _ [] 1); try done. split; [done|]. split; [done|].
  exists header, [], []. split_and!; try done. cbn. by rewrite app_nil_r.
Qed.

(** ** Using a store *)

Inductive file_op :=
  | Append (events : list EventData) (durability : Durability)
  | Flush
  | Retain (checkpointSequence : RecordId).

Definition apply_op (op : file_op) : stm FileEventStore unit :=
  match op with
  | Append events durability => append_many events durability;; mret tt
  | Flush => flush_store
  | Retain checkpointSequence => file_retain_from_checkpoint checkpointSequence
  end.

Definition op_well_typed (op : file_op) : Prop :=
  match op with
  | Append events _ => Forall (λ e, well_typed (data_payload e) = true) events
  | _ => True
  end.

(** A client next to its store: the records it was promised, and those of an
    append that failed while it wrote. *)
Record client := MkClient {
  store : FileEventStore;
  promised : list EventRecord;
  in_doubt : list EventRecord
}.

Definition makes_durable (op : file_op) : bool :=
  match op with
  | Append events durability => bool_decide (durability = Durable ∧ events ≠ [])
  | Flush => true
  | Retain _ => false
  end.

(** An exception is caught and the store is used on.  A durable append or a
    flush that returns promises all records; a new file, also one whose
    installation failed to reach the directory, replaces what was promised. *)
Definition client_step (c : client) (op : file_op) : client :=
  let s := store c in
  let '(x, s') := apply_op op s in
  let log_replaced := negb (bool_decide (fs_metadata (impl s') = fs_metadata (impl s))) in
  MkClient s'
    (if log_replaced || (makes_durable op && is_ok x) then fs_records (impl s')
     else promised c)
    (match op with
     | Append events _ => if negb (fs_faulted (impl s)) && fs_faulted (impl s')
                          then records_from (fs_next (impl s)) events else in_doubt c
     | _ => in_doubt c
     end).

Record client_ok (path : string) (requested : EventStoreMetadata) (c : client) : Prop := {
  cl_file : file_ok (store c) (promised c) (in_doubt c);
  cl_path : fs_path (impl (store c)) = path;
  cl_session : same_session (fs_metadata (impl (store c))) requested
}.

Lemma flush_store_spec s flushed doubt :
  file_ok s flushed doubt →
  let '(x, s') := flush_store s in
  same_log s s' ∧
  file_ok s' (if is_ok x then fs_records (impl s') else flushed) doubt ∧
  (is_ok x = true → doubt = [] ∧ fs_faulted (impl s') = false).
Proof.
  intros Hok. unfold flush_store. rewrite (stm_bind_eq _ _ s s s) by done.
  destruct (fs_faulted (impl s)) eqn:Hfaulted; [by split_and!|].
  rewrite (stm_bind_eq _ _ _ _ _ (sreject_if_false _ _ _)).
  assert (doubt = []) as ->.
  { destruct (decide (doubt = [])) as [|Hne]; [done|].
    pose proof (fo_doubt _ _ _ Hok Hne). congruence. }
  pose proof Hok as [(f & Hf & Hlog) _ _ _].
  destruct (flush_file_spec (fs_file (impl s)) (on_disk s) f Hf) as (rest & x & E & Hx & _).
  unfold fault_on_throw, stry, io. rewrite E.
  destruct Hx as [->|[msg ->]].
  - rewrite bool_decide_eq_true_2 by done. cbn. split; [done|]. split; [|done].
    apply (with_contents_ok _ rest s flushed []); [done| |done]. by apply (log_file_flush _ _ _ flushed).
  - rewrite bool_decide_eq_false_2 by done. unfold mbind, stm_bind, smodify, slift. cbn.
    split; [done|]. split; [|done].
    apply (set_faulted_ok (with_contents f rest s)).
    by apply (with_contents_ok _ rest s flushed []).
Qed.

Lemma faulted_refuses op s :
  fs_faulted (impl s) = true → apply_op op s = (throw EventStoreError "event store is faulted", s).
Proof.
  intros H. destruct op as [events d| |q]; cbn [apply_op];
    unfold append_many, flush_store, file_retain_from_checkpoint, mbind, stm_bind, sget;
    cbn zeta; by rewrite H.
Qed.

Lemma file_ok_no_doubt s flushed doubt :
  file_ok s flushed doubt → fs_faulted (impl s) = false → doubt = [].
Proof.
  intros Hok Hf. destruct (decide (doubt = [])) as [|Hne]; [done|].
  pose proof (fo_doubt _ _ _ Hok Hne). congruence.
Qed.

Lemma client_step_append path requested c events d :
  client_ok path requested c → op_well_typed (Append events d) →
  fs_faulted (impl (store c)) = false → client_ok path requested (client_step c (Append events d)).
Proof.
  intros [Hok Hp Hs] Hw Hf. pose proof (file_ok_no_doubt _ _ _ Hok Hf) as Hnil.
  pose proof (append_many_spec events d (store c) _ _ Hok Hw) as H.
  unfold client_step, apply_op, mbind, stm_bind. destruct (append_many events d (store c)) as [[ids|e] s'].
  - destruct H as (_ & Hf' & _ & _ & Hr & Hm & Hp' & _ & Hok').
    split; cbn -[records_from makes_durable]; rewrite ?Hm, ?Hf, ?Hf', ?Hp'; [|done..].
    rewrite (bool_decide_eq_true_2 (fs_metadata _ = _)), Hnil by done. cbn.
    rewrite andb_true_r. destruct (decide _) as [Hd|Hd].
    + by rewrite bool_decide_eq_true_2.
    + by rewrite bool_decide_eq_false_2.
  - destruct H as [(Hp' & Hm & _) H].
    split; cbn -[records_from makes_durable]; rewrite ?Hm, ?Hp'; [|done..].
    rewrite bool_decide_eq_true_2, andb_false_r by done. cbn -[records_from].
    destruct H as [Hsame|(_ & Hf' & Hok')].
    + rewrite Hf. pose proof Hsame as (Hi & _). rewrite Hi, Hf. by eapply same_files_ok.
    + by rewrite Hf, Hf'.
Qed.

Lemma client_step_retain path requested c q :
  client_ok path requested c → fs_faulted (impl (store c)) = false →
  client_ok path requested (client_step c (Retain q)).
Proof.
  intros [Hok Hp Hs] Hf. pose proof (file_ok_no_doubt _ _ _ Hok Hf) as Hnil.
  pose proof (file_retain_spec q (store c) _ _ Hok) as H. unfold client_step. cbn [apply_op].
  destruct (file_retain_from_checkpoint q (store c)) as [x s'].
  destruct H as [(_ & Hi & Hk)|(fd & (before & cp & after & r & _ & _ & _ & _ & _ & Hins) & _)].
  - split; cbn; rewrite ?Hi; [|done..]. rewrite bool_decide_eq_true_2 by done. cbn.
    by apply (file_ok_kept (store c)).
  - destruct Hins as (_ & Hm & Hr & _ & Hp' & Hok' & _).
    split; cbn; rewrite ?Hm, ?Hp'; [|done..]. rewrite bool_decide_eq_false_2; cbn.
    + by rewrite Hr, Hnil.
    + intros E%(f_equal fileGeneration). cbn in E. lia.
Qed.

Lemma client_step_ok path requested c op :
  client_ok path requested c → op_well_typed op → client_ok path requested (client_step c op).
Proof.
  intros Hc Hop. destruct (fs_faulted (impl (store c))) eqn:Hf.
  - unfold client_step. rewrite faulted_refuses by done. destruct Hc as [Hok Hp Hs].
    split; cbn; [|done..]. rewrite bool_decide_eq_true_2, andb_false_r, Hf by done. cbn.
    by destruct op.
  - destruct op as [events d| |q].
    + by apply client_step_append.
    + destruct Hc as [Hok Hp Hs]. pose proof (flush_store_spec _ _ _ Hok) as H.
      unfold client_step. cbn [apply_op makes_durable andb].
      destruct (flush_store (store c)) as [x s']. destruct H as ((Hp' & Hm & Hr & _) & Hok' & _).
      split; cbn; rewrite ?Hm, ?Hp'; [|done..]. by rewrite bool_decide_eq_true_2.
    + by apply client_step_retain.
Qed.

Lemma client_run_ok path requested ops c :
  client_ok path requested c → Forall op_well_typed ops →
  client_ok path requested (foldl client_step c ops).
Proof.
  intros Hc Hops. revert c Hc. induction Hops as [|op ops Hop _ IH]; intros c Hc; [done|].
  cbn. apply IH. by apply client_step_ok.
Qed.

(** ** The interface's laws *)

Lemma io_impl {A} (m : stm disk A) s : impl (io m s).2 = impl s.
Proof. unfold io. by destruct (m (on_disk s)). Qed.

Lemma append_many_log events d s :
  match append_many events d s with
  | (Ok ids, s') => Forall (λ e, validate_event e = Ok tt) events ∧
      fs_metadata (impl s') = fs_metadata (impl s) ∧
      ids = sequence <$> records_from (fs_next (impl s)) events ∧
      fs_records (impl s') = fs_records (impl s) ++ records_from (fs_next (impl s)) events ∧
      (events ≠ [] → fs_next (impl s) ≠ 0)
  | (Err _, s') => fs_records (impl s') = fs_records (impl s) ∧
      fs_metadata (impl s') = fs_metadata (impl s)
  end.
Proof.
  unfold append_many. rewrite (stm_bind_eq _ _ s s s) by done. cbn zeta.
  destruct (fs_faulted (impl s)); [done|]. rewrite (stm_bind_eq _ _ _ _ _ (sreject_if_false _ _ _)).
  destruct (bool_decide_reflect (events = [])) as [->|Hne]; [cbn; by rewrite app_nil_r|].
  destruct (EventLimits.maxRecordsPerBatch <? len events); [done|].
  rewrite (stm_bind_eq _ _ _ _ _ (sreject_if_false _ _ _)).
  destruct (_ <? len events); [done|]. rewrite (stm_bind_eq _ _ _ _ _ (sreject_if_false _ _ _)).
  destruct (negb (valid (fs_next (impl s))) || _) eqn:Hseq; [done|].
  rewrite (stm_bind_eq _ _ _ _ _ (sreject_if_false _ _ _)).
  destruct (rfold _ events tt) as [[]|e] eqn:Hval; [|done].
  rewrite (stm_bind_eq _ _ s tt s) by done. apply rfold_checks in Hval.
  set (new := records_from (fs_next (impl s)) events).
  destruct (encode_batch new) as [encoded|e]; [|done].
  rewrite (stm_bind_eq _ _ s encoded s) by done.
  unfold mbind at 1, stm_bind at 1. pose proof (io_impl (file_size (fs_file (impl s))) s) as Hi1.
  destruct (io _ s) as [[offset|e] s1]; cbn in Hi1; [|by rewrite Hi1].
  unfold fault_on_throw, stry, mbind at 1, stm_bind at 1.
  set (block := io (write_file _ _ _);; _).
  assert (impl (block s1).2 = impl s) as Hi2.
  { unfold block, mbind, stm_bind.
    pose proof (io_impl (write_file (fs_file (impl s)) offset encoded) s1) as Hw.
    destruct (io (write_file _ _ _) s1) as [[[]|e] s2]; cbn in Hw; [|by rewrite <-Hi1].
    destruct (decide (d = Durable)); [|by rewrite <-Hi1]. by rewrite io_impl, Hw. }
  destruct (block s1) as [[[]|e] s2]; cbn in Hi2.
  - unfold mbind, stm_bind, smodify, mret, stm_ret. cbn. split_and!; try done.
    intros _ H0. by rewrite H0 in Hseq.
  - unfold mbind, stm_bind, smodify, slift. cbn. by rewrite Hi2.
Qed.

(** Whatever its files do, the store keeps the promises of the interface. *)
#[export] Instance FileEventStore_laws : EventStoreLaws FileEventStore (λ _, True).
Proof.
  split; [| |done|].
  - intros events d s ids s' _ H. pose proof (append_many_log events d s) as Hlog.
    cbn in H. rewrite H in Hlog. destruct Hlog as (Hv & Hm & Hids & Hr & Hn).
    split_and!; try done. by exists (fs_next (impl s)).
  - intros events d s e s' _ H. pose proof (append_many_log events d s) as Hlog.
    cbn in H. rewrite H in Hlog. by split.
  - intros s r s' _ H. cbn in H |- *. unfold flush_store, mbind, stm_bind, sget in H.
    unfold sreject_if, slift, reject_if in H. destruct (fs_faulted (impl s)); [by injection H as <- <-|].
    pose proof (io_impl (flush_file (fs_file (impl s))) s) as Hi.
    unfold fault_on_throw, stry in H. destruct (io (flush_file _) s) as [[[]|e] s1]; cbn in Hi.
    + injection H as <- <-. by rewrite Hi.
    + unfold mbind, stm_bind, smodify, slift in H. injection H as <- <-. cbn. by rewrite Hi.
Qed.

(** Atomic appending: over any answers of the system, a batch that returns
    was validated, is numbered on from the last record, and is in the log and
    its file, durably if that was asked for.  One that throws leaves records and
    numbers as they were; then either no file changed, or the store refuses all
    further use and what reached its file is part of that one batch. *)
Theorem file_append_atomic events d s flushed :
  file_ok s flushed [] → Forall (λ e, well_typed (data_payload e) = true) events →
  let new := records_from (fs_next (impl s)) events in
  match append_many events d s with
  | (Ok ids, s') =>
      Forall (λ e, validate_event e = Ok tt) events ∧ ids = sequence <$> new ∧
      fs_records (impl s') = fs_records (impl s) ++ new ∧ fs_faulted (impl s') = false ∧
      file_ok s' (if decide (d = Durable ∧ events ≠ []) then fs_records (impl s') else flushed) []
  | (Err _, s') =>
      fs_records (impl s') = fs_records (impl s) ∧ fs_next (impl s') = fs_next (impl s) ∧
      (same_files s s' ∨
       file_ok s' flushed new ∧
       ∀ op, apply_op op s' = (throw EventStoreError "event store is faulted", s'))
  end.
Proof.
  intros Hok Hw new. pose proof (append_many_spec events d s _ _ Hok Hw) as H.
  destruct (append_many events d s) as [[ids|e] s'].
  - destruct H as (_ & Hf & Hv & Hids & Hr & _ & _ & _ & Hok'). by split_and!.
  - destruct H as [(_ & _ & Hr & Hn & _) [Hs|(_ & Hf & Hok')]]; (split; [done|]; split; [done|]).
    + by left.
    + right. split; [done|]. intros op. by apply faulted_refuses.
Qed.


(** A log whose records are all durable comes back as it is. *)
Lemma reopen_whole path requested d fd f f' m recs :
  log_file f m recs recs [] → survives f f' → reopen_room m recs →
  inodes d !! fd = Some f' → directory d !! path = Some fd → answers d = [] →
  same_session m requested →
  ∃ i d2, open_store path requested recovering d = (Ok i, d2) ∧
    fs_records i = recs ∧ fs_metadata i = m.
Proof.
  intros Hlog Hf' Hroom Hf Hname Hd Hsame. rewrite <-(app_nil_r recs) in Hroom.
  pose proof (reopen_log _ _ _ _ _ _ _ _ _ _ Hlog Hf' Hroom Hf Hname Hd Hsame) as H.
  destruct (open_store path requested recovering d) as [x d2]. rewrite app_nil_r in H.
  destruct H as (kept & part & Hfl & Hup & Hpart & H).
  assert (kept = recs) as -> by by apply (anti_symm prefix).
  assert (part = []) as -> by (destruct part; [done|by destruct Hpart]).
  destruct H as [[_ [? _]]|(i & -> & _ & Hm & _ & Hr & _)]; [done|].
  exists i, d2. split; [done|]. by rewrite Hr, app_nil_r.
Qed.

(** The store's file in the state [s] is found again after a crash in a later
    state [s'], under the name it had. *)
Lemma reopen_store s s' d' requested :
  file_ok s (fs_records (impl s)) [] → reopen_room (fs_metadata (impl s)) (fs_records (impl s)) →
  same_session (fs_metadata (impl s)) requested →
  inodes (on_disk s') !! fs_file (impl s) = inodes (on_disk s) !! fs_file (impl s) →
  crashed (on_disk s') d' → answers d' = [] →
  directory d' !! fs_path (impl s) = Some (fs_file (impl s)) →
  ∃ i d2, open_store (fs_path (impl s)) requested recovering d' = (Ok i, d2) ∧
    fs_records i = fs_records (impl s) ∧ fs_metadata i = fs_metadata (impl s).
Proof.
  intros [(f & Hf & Hlog) _ _ _] Hroom Hsame Hino Hcrash Hd Hname. rewrite Hf in Hino.
  destruct (cr_files _ _ Hcrash _ _ Hino) as (f' & Hf' & Hsurv).
  by apply (reopen_whole _ _ _ (fs_file (impl s)) f f').
Qed.

(** Everything is durable: the records, and the name of the file. *)
Definition durable_store (s : FileEventStore) : Prop :=
  file_ok s (fs_records (impl s)) [] ∧
  synced_directory (on_disk s) !! fs_path (impl s) = Some (fs_file (impl s)).


(** ** Concrete runs *)

(** A power failure that keeps at most [k] bytes of a file, and its durable part,
    and either all names or those the disk knew. *)
Definition power_cut (k : nat) (names : bool) (d : disk) : disk :=
  let entries := if names then directory d else synced_directory d in
  let cut f := let kept := take (Nat.max (length (synced f)) k) (contents f) in
               MkInode kept kept in
  MkDisk (cut <$> inodes d) entries entries [].

Lemma power_cut_crashed k names d :
  map_Forall (λ _ f, synced f `prefix_of` contents f) (inodes d) → crashed d (power_cut k names d).
Proof.
  intros Hall. split; [intros n; destruct names; [by left|by right]|done|]. intros fd f Hf. eexists. cbn. rewrite lookup_fmap, Hf.
  split; [done|]. split; [done|]. exists (Nat.max (length (synced f)) k).
  split; [done|]. cbn. destruct (Hall fd f Hf) as [more ->].
  rewrite take_app_ge by lia. by eexists.
Qed.

Lemma reopen_room_intro m recs header :
  encode_header m = Ok header → forallb (λ r, sequence r <? u64_max - 1) recs = true →
  (len recs <? EventLimits.maxRecordsRead) = true →
  (len header + (log_room recs + 100) <=? EventLimits.maxFileBytes) = true →
  reopen_room m recs.
Proof.
  intros Hh Hs Hn Hr. split; [|split].
  - apply Forall_forall. intros r Hin. apply list_elem_of_In in Hin.
    rewrite forallb_forall in Hs. specialize (Hs r Hin). by apply N.ltb_lt.
  - by apply N.ltb_lt.
  - intros h E. rewrite Hh in E. injection E as <-. by apply N.leb_le.
Qed.

Definition empty_disk (answers : list answer) : disk := MkDisk ∅ ∅ ∅ answers.

Definition frame_started : EventData := MkEventData EventType.FrameStarted 1 VNull.

Definition opened (m : EventStoreMetadata) (d : disk) : Implementation :=
  match open_store "log" m recovering d with
  | (Ok i, _) => i
  | (Err _, _) => MkImplementation "" m recovering 0 [] 0 true
  end.
Definition opened_disk (m : EventStoreMetadata) (d : disk) : disk :=
  (open_store "log" m recovering d).2.
Definition opened_client (m : EventStoreMetadata) (d : disk) : client :=
  MkClient (MkFileEventStore (opened m d) (opened_disk m d)) [] [].

Lemma opened_ok m d :
  is_ok (open_store "log" m recovering d).1 = true →
  open_store "log" m recovering d = (Ok (opened m d), opened_disk m d).
Proof. unfold opened, opened_disk. by destruct (open_store _ _ _ _) as [[i|e] d']. Qed.

(** A client that was promised one record; writing the next one failed. *)
Definition sample_disk : disk := empty_disk (repeat Succeed 11 ++ [Partial 20; Fail]).
Definition sample_ops : list file_op :=
  [Append [frame_started] Durable; Append [frame_started] Buffered; Flush].
Definition sample_client : client :=
  foldl client_step (opened_client sample_metadata sample_disk) sample_ops.


Lemma opened_client_ok m d :
  is_ok (open_store "log" m recovering d).1 = true → directory d !! "log" = None →
  session m < 2 ^ 64 → fileGeneration m < 2 ^ 64 → client_ok "log" m (opened_client m d).
Proof.
  intros Hok Hnew Hw1 Hw2. pose proof (open_store_creates "log" m recovering d Hnew Hw1 Hw2) as H.
  rewrite opened_ok in H by done. destruct H as (Hi & _ & Hfile).
  split; [done|..]; cbn; by rewrite Hi.
Qed.

(** The same client before its second append. *)
Definition sample_client_before : client :=
  foldl client_step (opened_client sample_metadata sample_disk) [Append [frame_started] Durable].

Lemma file_append_atomic_witness :
  let s := store sample_client_before in
  is_ok (append_many [frame_started] Durable s).1 = false ∧
  match append_many [frame_started] Durable s with
  | (Ok _, _) => False
  | (Err _, s') =>
      fs_records (impl s') = fs_records (impl s) ∧ fs_next (impl s') = fs_next (impl s) ∧
      (same_files s s' ∨
       file_ok s' (promised sample_client_before) (records_from (fs_next (impl s)) [frame_started]) ∧
       ∀ op, apply_op op s' = (throw EventStoreError "event store is faulted", s'))
  end.
Proof.
  assert (client_ok "log" sample_metadata sample_client_before) as [Hok _ _].
  { apply client_run_ok; [|by repeat constructor]. by apply opened_client_ok; [vm_compute|..]. }
  cbn zeta. assert (in_doubt sample_client_before = []) as E by (vm_compute; reflexivity).
  rewrite E in Hok.
  assert (is_ok (append_many [frame_started] Durable (store sample_client_before)).1 = false) as Hx
    by (vm_compute; reflexivity).
  split; [exact Hx|].
  pose proof (file_append_atomic [frame_started] Durable (store sample_client_before)
    (promised sample_client_before) Hok ltac:(by repeat constructor)) as H.
  destruct (append_many _ _ _) as [[ids|e] s']; [discriminate Hx|exact H].
Defined.

Lemma sync_names_ok s flushed doubt :
  file_ok s flushed doubt →
  file_ok (MkFileEventStore (impl s) (sync_names (on_disk s))) flushed doubt.
Proof. by intros []. Qed.

(** A store with a checkpoint in its log; flushing the directory will fail. *)
Definition checkpoint_client : client :=
  foldl client_step
    (opened_client replay_metadata (empty_disk (repeat Succeed 21 ++ [Fail])))
    [Append ((λ r, MkEventData (type r) (version r) (payload r)) <$>
      replay_prefix ++ [replay_checkpoint]) Durable].
Definition checkpoint_file : FileEventStore :=
  MkFileEventStore (impl (store checkpoint_client)) (sync_names (on_disk (store checkpoint_client))).


(** Where the promise ends: the constructor flushes the new file but not
    the directory it is in.  A store is created and a record appended durably,
    with every call succeeding; the power fails, the name is gone, and opening
    the store again yields an empty log. *)
Theorem created_log_can_vanish :
  let s := store (opened_client sample_metadata (empty_disk [])) in
  is_ok (open_store "log" sample_metadata recovering (empty_disk [])).1 = true ∧
  ∃ s' d', append_many [frame_started] Durable s = (Ok [1], s') ∧
    crashed (on_disk s') d' ∧ answers d' = [] ∧
    ∃ i d2, open_store "log" sample_metadata recovering d' = (Ok i, d2) ∧ fs_records i = [].
Proof.
  cbn zeta. split; [vm_compute; reflexivity|].
  set (s := store (opened_client sample_metadata (empty_disk []))).
  set (s' := (append_many [frame_started] Durable s).2).
  exists s', (power_cut 0 false (on_disk s')).
  assert ((append_many [frame_started] Durable s).1 = Ok [1]) as Hx by (vm_compute; reflexivity).
  split; [unfold s'; rewrite <-Hx; by destruct (append_many _ _ _)|].
  split; [apply power_cut_crashed; apply (bool_decide_unpack _); vm_compute; reflexivity|].
  split; [reflexivity|].
  exists (opened sample_metadata (power_cut 0 false (on_disk s'))),
    (opened_disk sample_metadata (power_cut 0 false (on_disk s'))).
  split; [apply opened_ok|]; vm_compute; reflexivity.
Qed.

(** A record that holds the bytes of another log's batch. *)
Definition embedding_event : EventData :=
  MkEventData EventType.FrameStarted 1 (VObject [("log", VBytes (sample_batch 1))]).
Definition embedding_file : FileEventStore :=
  store (foldl client_step (opened_client sample_metadata (empty_disk []))
    [Append [embedding_event] Buffered]).

(** Where recovery ends: when the torn batch holds, inside a payload, the
    bytes of a complete batch, the end of the file passes for a corruption in
    its middle and the log can no longer be opened, although everything behind
    the last complete batch is exactly what recovery would cut off. *)
Theorem embedded_batch_blocks_recovery :
  let d' := power_cut 192 true (on_disk embedding_file) in
  fs_faulted (impl embedding_file) = false ∧ crashed (on_disk embedding_file) d' ∧
  (open_store "log" sample_metadata recovering d').1 =
    throw EventStoreError "mid-file event-store corruption".
Proof.
  split; [vm_compute; reflexivity|].
  split; [apply power_cut_crashed; apply (bool_decide_unpack _); vm_compute; reflexivity|].
  vm_compute; reflexivity.
Qed.
