(* ===== verification/Components.v ===== *)
(** * The component registry
    (include/liquid/detail/ComponentStorage.hpp,
     include/liquid/detail/ComponentRegistry.hpp, src/ComponentRegistry.cpp,
     include/liquid/ComponentCodec.hpp)

    Named components of the host's types: per type a storage of slots with the
    behaviours' access rights, the names of the slots in both directions, the
    slots' generations, a schema and codecs.

    [K] names the component types of the host program and [El k] is the type
    named [k].  A [shared_ptr] to the base class is a dependent pair, and
    [dynamic_cast] compares the names.  The functions of a codec are the host's.
    Tables are [std::map]s and [std::unordered_map]s that the program only looks
    up, or whose order it does not depend on. *)
From S2P Require Import Prelude OrderedMap Values Effects Ids.

Definition MaxComponentTypes : N := 64.
Definition MaxComponentSlots : N := u16_max.

Inductive ComponentAccessMode := Read | Write | ReadWrite.
#[export] Instance ComponentAccessMode_eq_dec : EqDecision ComponentAccessMode.
Proof. solve_decision. Defined.

(** [ComponentSlotAccess::Mode] *)
Inductive Mode := Mode_r | Mode_rw | Mode_w.
#[export] Instance Mode_eq_dec : EqDecision Mode.
Proof. solve_decision. Defined.

Record ComponentSlotAccess := MkAccess { mode : Mode; access_slot : ComponentSlotId }.
#[export] Instance ComponentSlotAccess_eq_dec : EqDecision ComponentSlotAccess.
Proof. solve_decision. Defined.

Definition storage_access_mode (m : ComponentAccessMode) : Mode :=
  match m with Read => Mode_r | Write => Mode_w | ReadWrite => Mode_rw end.

(** The conversion from a slot to a handle. *)
Definition legacy_handle (slot : Slot) : handle := MkHandle 0 slot 0.

(** ** [class ComponentStorage<Component>] *)

Section Storage.
Context {T : Type}.

(** [availableSlots] is the vector from its back. *)
Record ComponentStorage := MkComponentStorage {
  components : list (option T);
  availableSlots : list Slot;
  accesses : gmap BehaviorId (list ComponentSlotAccess);
  count : N
}.

Definition set_accesses x (s : ComponentStorage) : ComponentStorage :=
  MkComponentStorage (components s) (availableSlots s) x (count s).

Definition storage_add (component : T) : stm ComponentStorage Slot :=
  s ← sget;
  match availableSlots s with
  | id :: rest =>
      sput (MkComponentStorage (<[N.to_nat id := Some component]> (components s)) rest
        (accesses s) (count s + 1));;
      mret id
  | [] =>
      sreject_if (MaxComponentSlots <=? len (components s)) runtime_error
        "all component slots are already filled";;
      sput (MkComponentStorage (components s ++ [Some component]) [] (accesses s) (count s + 1));;
      mret (len (components s))
  end.

Definition drop_slot (slot : ComponentSlotId) (l : list ComponentSlotAccess)
  : list ComponentSlotAccess := filter (λ a, access_slot a ≠ slot) l.

(** What remains of a behaviour's accesses; an empty vector is erased. *)
Definition keep_nonempty (l : list ComponentSlotAccess) : option (list ComponentSlotAccess) :=
  match l with [] => None | _ => Some l end.

Definition removeAccess (behavior : BehaviorId) (slot : ComponentSlotId)
    (s : ComponentStorage) : ComponentStorage :=
  set_accesses (partial_alter (λ o, o ≫= λ l, keep_nonempty (drop_slot slot l)) behavior
    (accesses s)) s.

Definition removeAccessesOf (behavior : BehaviorId) (s : ComponentStorage)
  : ComponentStorage := set_accesses (delete behavior (accesses s)) s.

Definition removeAccessesTo (slot : ComponentSlotId) (s : ComponentStorage)
  : ComponentStorage :=
  set_accesses (omap (λ l, keep_nonempty (drop_slot slot l)) (accesses s)) s.

Definition storage_get (id : Slot) (s : ComponentStorage) : option T :=
  mjoin (components s !! N.to_nat id).

Definition storage_has (id : Slot) (s : ComponentStorage) : bool :=
  match storage_get id s with Some _ => true | None => false end.

Definition storage_remove (id : Slot) (recycle : bool) : stm ComponentStorage unit :=
  s ← sget;
  sreject_if (len (components s) <=? id) out_of_range "invalid component slot id";;
  sreject_if (negb (storage_has id s)) runtime_error "component slot already removed";;
  sput (MkComponentStorage (<[N.to_nat id := None]> (components s))
    (if recycle then id :: availableSlots s else availableSlots s) (accesses s) (count s));;
  smodify (removeAccessesTo (legacy_handle id));;
  smodify (λ s, MkComponentStorage (components s) (availableSlots s) (accesses s) (count s - 1)).

Definition addAccess (behavior : BehaviorId) (m : Mode) (slot : ComponentSlotId)
  : stm ComponentStorage unit :=
  s ← sget;
  sreject_if (negb (storage_has (handle_slot slot) s)) runtime_error
    "component slot not found";;
  sput (set_accesses (<[behavior := default [] (accesses s !! behavior) ++ [MkAccess m slot]]>
    (accesses s)) s).

(** [operator[]] *)
Definition storage_at (id : Slot) (s : ComponentStorage) : res T :=
  match components s !! N.to_nat id with
  | None => throw out_of_range "invalid component slot id"
  | Some None => throw runtime_error "component slot removed"
  | Some (Some component) => Ok component
  end.

Definition storage_replace (id : Slot) (component : T) : stm ComponentStorage unit :=
  s ← sget;
  sreject_if (negb (storage_has id s)) runtime_error "component slot removed";;
  sput (MkComponentStorage (<[N.to_nat id := Some component]> (components s))
    (availableSlots s) (accesses s) (count s)).
End Storage.
Arguments ComponentStorage T : clear implicits.

Definition new_ComponentStorage {T} : ComponentStorage T := MkComponentStorage [] [] ∅ 0.

(** ** Schemas and codecs *)

Record ComponentSchema := MkSchema { schema_name : string; schema_version : N }.
#[export] Instance ComponentSchema_eq_dec : EqDecision ComponentSchema.
Proof. solve_decision. Defined.

Record ComponentCodec (T : Type) := MkComponentCodec {
  codec_encode : T → res value;
  codec_decode : value → res T
}.
Arguments MkComponentCodec {T}.
Arguments codec_encode {T}.
Arguments codec_decode {T}.

Record EffectCodec (T : Type) := MkEffectCodec {
  codec_route : string;
  effect_encode : string → T → res (option ResolvedEffect);
  decodeObserved : value → res T
}.
Arguments MkEffectCodec {T}.
Arguments codec_route {T}.
Arguments effect_encode {T}.
Arguments decodeObserved {T}.

Section Codecs.
Context {T : Type}.

(** The component a value stands for, which must be the one value for it. *)
Definition decode_canonical (codec : ComponentCodec T) (v : value) : res (T * value) :=
  validate v;;
  decoded ← codec_decode codec v;
  canonical ← codec_encode codec decoded;
  validate canonical;;
  reject_if (negb (value_eqb canonical v)) invalid_argument "component codec is not canonical";;
  Ok (decoded, canonical).

(** [ComponentCodecModel::encode_slot] *)
Definition encode_slot (codec : ComponentCodec T) (slot : Slot) (s : ComponentStorage T)
  : res value :=
  component ← storage_at slot s;
  encoded ← codec_encode codec component;
  validate encoded;;
  Ok encoded.

(** The checks both [encode_effect]s make of what the codec returned. *)
Definition check_effect (route : string) (o : option ResolvedEffect)
  : res (option ResolvedEffect) :=
  match o with
  | None => Ok None
  | Some effect =>
      reject_if (negb (bool_decide (adapterRoute effect = route))) invalid_argument
        "effect codec returned an unstable adapter route";;
      validate (desiredValue effect);;
      Ok (Some effect)
  end.
End Codecs.

(** [EffectCodecModel]: with a copy of the component's codec. *)
Record EffectCodecModel (T : Type) := MkEffectCodecModel {
  effect_codec : EffectCodec T;
  effect_component_codec : ComponentCodec T
}.
Arguments MkEffectCodecModel {T}.
Arguments effect_codec {T}.
Arguments effect_component_codec {T}.

Section ModelCodec.
Context {T : Type} (model : EffectCodecModel T).

(** [EffectCodecModel::encode], [decode_observed] *)
Definition model_encode (name : string) (v : value) : res (option ResolvedEffect) :=
  '(decoded, _) ← decode_canonical (effect_component_codec model) v;
  effect ← effect_encode (effect_codec model) name decoded;
  check_effect (codec_route (effect_codec model)) effect.

Definition model_decode_observed (v : value) : res value :=
  validate v;;
  decoded ← decodeObserved (effect_codec model) v;
  canonical ← codec_encode (effect_component_codec model) decoded;
  validate canonical;;
  Ok canonical.
End ModelCodec.

(** [ComponentType<Component>]; [Component] is an argument of its own. *)
Record ComponentType := MkComponentType {
  type_id : ComponentTypeId;
  type_world : N;
  type_generation : N
}.
#[export] Instance ComponentType_eq_dec : EqDecision ComponentType.
Proof. solve_decision. Defined.

(** ** [class ComponentRegistry] *)

Section Registry.
Context {K : Type} `{EqDecision K} {El : K → Type}.

Definition dynamic_cast {F : K → Type} (k : K) (p : sigT F) : option (F k) :=
  match decide (projT1 p = k) with
  | left E => Some (eq_rect (projT1 p) F (projT2 p) k E)
  | right _ => None
  end.

Abbreviation any_storage := {k : K & ComponentStorage (El k)}.

Record ComponentRegistry := MkComponentRegistry {
  worldId : N;
  nextComponentType : ComponentTypeId;
  componentTypes : gmap string ComponentTypeId;
  typeNames : list string;
  storages : gmap ComponentTypeId any_storage;
  componentNames : gmap ComponentTypeId (gmap string ComponentSlotId);
  slotNames : gmap ComponentTypeId (gmap ComponentSlotId string);
  schemas : gmap ComponentTypeId ComponentSchema;
  codecs : gmap ComponentTypeId {k : K & ComponentCodec (El k)};
  effectCodecs : gmap ComponentTypeId {k : K & EffectCodecModel (El k)};
  slotGenerations : gmap ComponentTypeId (list N)
}.

Definition new_ComponentRegistry (world : N) : ComponentRegistry :=
  MkComponentRegistry world 0 ∅ [] ∅ ∅ ∅ ∅ ∅ ∅ ∅.

Definition set_storages x (r : ComponentRegistry) : ComponentRegistry :=
  MkComponentRegistry (worldId r) (nextComponentType r) (componentTypes r) (typeNames r)
    x (componentNames r) (slotNames r) (schemas r) (codecs r) (effectCodecs r)
    (slotGenerations r).
Definition set_componentNames x (r : ComponentRegistry) : ComponentRegistry :=
  MkComponentRegistry (worldId r) (nextComponentType r) (componentTypes r) (typeNames r)
    (storages r) x (slotNames r) (schemas r) (codecs r) (effectCodecs r)
    (slotGenerations r).
Definition set_slotNames x (r : ComponentRegistry) : ComponentRegistry :=
  MkComponentRegistry (worldId r) (nextComponentType r) (componentTypes r) (typeNames r)
    (storages r) (componentNames r) x (schemas r) (codecs r) (effectCodecs r)
    (slotGenerations r).
Definition set_schemas x (r : ComponentRegistry) : ComponentRegistry :=
  MkComponentRegistry (worldId r) (nextComponentType r) (componentTypes r) (typeNames r)
    (storages r) (componentNames r) (slotNames r) x (codecs r) (effectCodecs r)
    (slotGenerations r).
Definition set_codecs x (r : ComponentRegistry) : ComponentRegistry :=
  MkComponentRegistry (worldId r) (nextComponentType r) (componentTypes r) (typeNames r)
    (storages r) (componentNames r) (slotNames r) (schemas r) x (effectCodecs r)
    (slotGenerations r).
Definition set_effectCodecs x (r : ComponentRegistry) : ComponentRegistry :=
  MkComponentRegistry (worldId r) (nextComponentType r) (componentTypes r) (typeNames r)
    (storages r) (componentNames r) (slotNames r) (schemas r) (codecs r) x
    (slotGenerations r).
Definition set_slotGenerations x (r : ComponentRegistry) : ComponentRegistry :=
  MkComponentRegistry (worldId r) (nextComponentType r) (componentTypes r) (typeNames r)
    (storages r) (componentNames r) (slotNames r) (schemas r) (codecs r)
    (effectCodecs r) x.

(** *** Lookup *)

Definition component_storage (k : K) (type : ComponentTypeId) (r : ComponentRegistry)
  : res (ComponentStorage (El k)) :=
  match storages r !! type with
  | None => throw runtime_error "component type storage not found"
  | Some p =>
      match dynamic_cast (F := λ k, ComponentStorage (El k)) k p with
      | None => throw runtime_error "component storage type mismatch"
      | Some s => Ok s
      end
  end.

(** A change of the storage that [component_storage] returned a pointer to. *)
Definition with_storage {A} (k : K) (type : ComponentTypeId)
    (f : stm (ComponentStorage (El k)) A) : stm ComponentRegistry A := λ r,
  match component_storage k type r with
  | Err e => (Err e, r)
  | Ok s =>
      let '(x, s') := f s in
      (x, set_storages (<[type := existT k s']> (storages r)) r)
  end.

(** [component_type(ComponentType<Component>)] *)
Definition component_type (k : K) (type : ComponentType) (r : ComponentRegistry)
  : res ComponentTypeId :=
  reject_if (negb (type_world type =? 0) && negb (type_world type =? worldId r))
    runtime_error "component type belongs to another world";;
  reject_if (negb (type_world type =? 0) && negb (type_generation type =? 1))
    runtime_error "stale component type handle";;
  component_storage k (type_id type) r;;
  Ok (type_id type).

(** [component_type(const TypeName&)] *)
Definition component_type_named (name : string) (r : ComponentRegistry)
  : res ComponentTypeId :=
  match componentTypes r !! name with
  | None => throw runtime_error "component type not registered"
  | Some type => Ok type
  end.

Definition component_type_exists (type : ComponentTypeId) (r : ComponentRegistry) : bool :=
  (type <? len (typeNames r)) && bool_decide (is_Some (storages r !! type)).

Definition type_name (type : ComponentTypeId) (r : ComponentRegistry) : res string :=
  match typeNames r !! N.to_nat type with
  | None => throw runtime_error "component type not registered"
  | Some name => Ok name
  end.

Definition slot_is_current (type : ComponentTypeId) (slot : ComponentSlotId)
    (r : ComponentRegistry) : bool :=
  if (handle_generation slot =? 0) || negb (handle_world slot =? worldId r) then false
  else match slotGenerations r !! type with
       | None => false
       | Some generations =>
           bool_decide (generations !! N.to_nat (handle_slot slot) =
                        Some (handle_generation slot))
       end.

Definition validate_slot (type : ComponentTypeId) (slot : ComponentSlotId)
    (r : ComponentRegistry) : res Slot :=
  reject_if ((handle_generation slot =? 0) || negb (handle_world slot =? worldId r))
    runtime_error "component slot belongs to another world";;
  reject_if (negb (slot_is_current type slot r)) runtime_error
    "stale component slot handle";;
  Ok (handle_slot slot).

Definition named_slot (type : ComponentTypeId) (name : string) (r : ComponentRegistry)
  : res ComponentSlotId :=
  match componentNames r !! type with
  | None => throw runtime_error "component type not registered"
  | Some names =>
      match names !! name with
      | None => throw runtime_error "component name not registered"
      | Some slot => Ok slot
      end
  end.

(** [generations.resize(slot + 1, 1)] where it is shorter. *)
Definition make_slot_handle (type : ComponentTypeId) (slot : Slot)
  : stm ComponentRegistry ComponentSlotId :=
  r ← sget;
  match slotGenerations r !! type with
  | None => sthrow runtime_error "component type generations not registered"
  | Some generations =>
      let generations := generations ++
        replicate (S (N.to_nat slot) - length generations) 1 in
      sput (set_slotGenerations (<[type := generations]> (slotGenerations r)) r);;
      generation ← slift (vector_at generations slot);
      sreject_if (generation =? 0) overflow_error "component slot generation exhausted";;
      mret (MkHandle (worldId r) slot generation)
  end.

Definition advance_slot_generation (type : ComponentTypeId) (slot : ComponentSlotId)
  : stm ComponentRegistry bool :=
  r ← sget;
  rawSlot ← slift (validate_slot type slot r);
  match slotGenerations r !! type with
  | None => sthrow out_of_range "map::at"
  | Some generations =>
      generation ← slift (vector_at generations rawSlot);
      let next := if generation =? u32_max then 0 else generation + 1 in
      sput (set_slotGenerations (<[type := vector_set generations rawSlot next]>
        (slotGenerations r)) r);;
      mret (negb (generation =? u32_max))
  end.

Definition component_matches (type : ComponentTypeId) (name : string)
    (slot : ComponentSlotId) (r : ComponentRegistry) : bool :=
  match validate_slot type slot r with
  | Err _ => false
  | Ok _ => bool_decide ((componentNames r !! type ≫= λ names, names !! name) = Some slot)
  end.

Definition component_name (type : ComponentTypeId) (slot : ComponentSlotId)
    (r : ComponentRegistry) : res string :=
  validate_slot type slot r;;
  match slotNames r !! type with
  | None => throw runtime_error "component type not registered"
  | Some names =>
      match names !! slot with
      | None => throw runtime_error "component slot has no stable name"
      | Some name => Ok name
      end
  end.

(** *** Registration *)

(** [map::emplace]: nothing happens to an entry that is there. *)
Definition emplace {A} (key : N) (x : A) (m : gmap N A) : gmap N A :=
  match m !! key with None => <[key := x]> m | Some _ => m end.

(** The [catch] block: the type had no generations of its own yet. *)
Definition registration_failed {A} (type : ComponentTypeId) (msg : string)
  : stm ComponentRegistry A :=
  smodify (λ r, set_slotGenerations (delete type (slotGenerations r)) r);;
  sthrow logic_error msg.

Definition register_component_storage (k : K) (typeName : string)
  : stm ComponentRegistry ComponentType :=
  sreject_if (bool_decide (typeName = "")) runtime_error
    "component type name cannot be empty";;
  r ← sget;
  sreject_if (bool_decide (is_Some (componentTypes r !! typeName))) runtime_error
    "component type already registered";;
  sreject_if (MaxComponentTypes <=? nextComponentType r) runtime_error
    "maximum component types reached";;
  let type := nextComponentType r in
  if bool_decide (is_Some (storages r !! type))
  then registration_failed type "component storage already indexed"
  else if bool_decide (is_Some (componentNames r !! type))
  then registration_failed type "component name index already exists"
  else if bool_decide (is_Some (slotNames r !! type))
  then registration_failed type "component slot index already exists"
  else
    sput (MkComponentRegistry (worldId r) (type + 1)
      (<[typeName := type]> (componentTypes r)) (typeNames r ++ [typeName])
      (<[type := existT k new_ComponentStorage]> (storages r))
      (<[type := ∅]> (componentNames r)) (<[type := ∅]> (slotNames r))
      (emplace type (MkSchema typeName 0) (schemas r)) (codecs r) (effectCodecs r)
      (emplace type [] (slotGenerations r)));;
    mret (MkComponentType type (worldId r) 1).

(** A codec's functions may be missing from what the caller passes. *)
Definition register_component (k : K) (schemaName : string) (schemaVersion : N)
    (encode : option (El k → res value)) (decode : option (value → res (El k)))
  : stm ComponentRegistry ComponentType :=
  sreject_if (schemaVersion =? 0) invalid_argument
    "component schema version must be positive";;
  match encode, decode with
  | Some encode, Some decode =>
      type ← register_component_storage k schemaName;
      smodify (λ r, set_schemas (alter (λ s, MkSchema (schema_name s) schemaVersion)
        (type_id type) (schemas r)) r);;
      smodify (λ r, set_codecs (emplace (type_id type)
        (existT k (MkComponentCodec encode decode)) (codecs r)) r);;
      mret type
  | _, _ => sthrow invalid_argument "component codec must provide encode and decode"
  end.

(** *** Components *)

(** [names[type]], which adds an empty map where there is none. *)
Definition ensure {A B} `{Countable A} (type : N) (m : gmap N (gmap A B)) : gmap N (gmap A B) :=
  <[type := default ∅ (m !! type)]> m.

Definition index_name (type : ComponentTypeId) (name : string) (slot : ComponentSlotId)
  : stm ComponentRegistry unit :=
  r ← sget;
  match componentNames r !! type with
  | None => sthrow out_of_range "map::at"
  | Some names =>
      sreject_if (bool_decide (is_Some (names !! name))) logic_error
        "component name already indexed";;
      sput (set_componentNames (<[type := <[name := slot]> names]> (componentNames r)) r)
  end.

Definition index_slot (type : ComponentTypeId) (name : string) (slot : ComponentSlotId)
  : stm ComponentRegistry unit :=
  r ← sget;
  match slotNames r !! type with
  | None => sthrow out_of_range "map::at"
  | Some names =>
      sreject_if (bool_decide (is_Some (names !! slot))) logic_error
        "component slot already indexed";;
      sput (set_slotNames (<[type := <[slot := name]> names]> (slotNames r)) r)
  end.

Definition unindex_name (type : ComponentTypeId) (name : string) (r : ComponentRegistry)
  : ComponentRegistry :=
  set_componentNames (alter (delete name) type (componentNames r)) r.

Definition add_component (k : K) (type : ComponentType) (name : string) (component : El k)
  : stm ComponentRegistry unit :=
  sreject_if (bool_decide (name = "")) runtime_error "component name cannot be empty";;
  r ← sget;
  typeId ← slift (component_type k type r);
  smodify (λ r, set_componentNames (ensure typeId (componentNames r)) r);;
  r ← sget;
  sreject_if (bool_decide (is_Some (componentNames r !! typeId ≫= λ names, names !! name)))
    runtime_error "component name already registered";;
  rawSlot ← with_storage k typeId (storage_add component);
  slot ← make_slot_handle typeId rawSlot;
  stry (index_name typeId name slot;;
        stry (index_slot typeId name slot)
          (λ e, smodify (unindex_name typeId name);; slift (Err e)))
    (λ e, with_storage k typeId (storage_remove rawSlot true);; slift (Err e)).

Definition remove_component (k : K) (type : ComponentType) (name : string)
  : stm ComponentRegistry unit :=
  r ← sget;
  typeId ← slift (component_type k type r);
  slot ← slift (named_slot typeId name r);
  with_storage k typeId (smodify (removeAccessesTo slot));;
  r ← sget;
  rawSlot ← slift (validate_slot typeId slot r);
  recycle ← advance_slot_generation typeId slot;
  with_storage k typeId (storage_remove rawSlot recycle);;
  smodify (λ r, set_componentNames
    (<[typeId := delete name (default ∅ (componentNames r !! typeId))]> (componentNames r)) r);;
  smodify (λ r, set_slotNames
    (<[typeId := delete slot (default ∅ (slotNames r !! typeId))]> (slotNames r)) r).

Definition catch_runtime_error {A} (on_error : A) (m : res A) : res A :=
  match m with
  | Err e =>
      if bool_decide (exn_kind e = runtime_error) || bool_decide (exn_kind e = overflow_error)
      then Ok on_error else Err e
  | Ok a => Ok a
  end.

Definition has_component_named (k : K) (type : ComponentType) (name : string)
    (r : ComponentRegistry) : res bool :=
  catch_runtime_error false (
    typeId ← component_type k type r;
    match componentNames r !! typeId ≫= λ names, names !! name with
    | None => Ok false
    | Some slot => validate_slot typeId slot r;; Ok true
    end).

Definition component_slot (k : K) (type : ComponentType) (name : string)
    (r : ComponentRegistry) : res ComponentSlotId :=
  typeId ← component_type k type r; named_slot typeId name r.

(** [resolve_component]; [None] is a null pointer. *)
Definition resolve_component (k : K) (type : ComponentType) (slot : ComponentSlotId)
    (r : ComponentRegistry) : res (option (El k)) :=
  typeId ← component_type k type r;
  s ← component_storage k typeId r;
  rawSlot ← validate_slot typeId slot r;
  Ok (storage_get rawSlot s).

Definition get_component_named (k : K) (type : ComponentType) (name : string)
    (r : ComponentRegistry) : res (option (El k)) :=
  typeId ← component_type k type r;
  slot ← named_slot typeId name r;
  s ← component_storage k typeId r;
  rawSlot ← validate_slot typeId slot r;
  Ok (storage_get rawSlot s).

Definition replace_component (k : K) (type : ComponentType) (name : string)
    (component : El k) : stm ComponentRegistry unit :=
  r ← sget;
  typeId ← slift (component_type k type r);
  slot ← slift (named_slot typeId name r);
  slift (component_storage k typeId r);;
  rawSlot ← slift (validate_slot typeId slot r);
  with_storage k typeId (storage_replace rawSlot component).

(** *** Access rights *)

Definition grant_access (k : K) (type : ComponentType) (behavior : BehaviorId)
    (name : string) (m : ComponentAccessMode) : stm ComponentRegistry unit :=
  r ← sget;
  typeId ← slift (component_type k type r);
  slot ← slift (named_slot typeId name r);
  with_storage k typeId (smodify (removeAccess behavior slot);;
    addAccess behavior (storage_access_mode m) slot).

Definition revoke_access (k : K) (type : ComponentType) (behavior : BehaviorId)
    (name : string) : stm ComponentRegistry unit :=
  r ← sget;
  typeId ← slift (component_type k type r);
  slot ← slift (named_slot typeId name r);
  with_storage k typeId (smodify (removeAccess behavior slot)).

Definition remove_behavior (behavior : BehaviorId) (r : ComponentRegistry) : ComponentRegistry :=
  set_storages (fmap (M := gmap N) (λ p : any_storage,
    existT (projT1 p) (removeAccessesOf behavior (projT2 p)) : any_storage) (storages r)) r.

Definition get_components (k : K) (type : ComponentType) (behavior : BehaviorId)
    (r : ComponentRegistry) : res (gmap string ComponentSlotId) :=
  typeId ← component_type k type r;
  s ← component_storage k typeId r;
  match accesses s !! behavior, slotNames r !! typeId with
  | Some behaviorAccesses, Some names =>
      Ok (foldl (λ available a,
            if storage_has (handle_slot (access_slot a)) s then
              match names !! access_slot a with
              | Some name => <[name := access_slot a]> available
              | None => available
              end
            else available) ∅ behaviorAccesses)
  | _, _ => Ok ∅
  end.

Definition behaviors_with_access (k : K) (type : ComponentType) (r : ComponentRegistry)
  : res (list BehaviorId) :=
  typeId ← component_type k type r;
  s ← component_storage k typeId r;
  Ok (ordered (dom (filter (λ p, p.2 ≠ []) (accesses s)))).

Definition access_allows (wanted : Mode) (slot : ComponentSlotId) (a : ComponentSlotAccess)
  : bool :=
  bool_decide (access_slot a = slot) &&
  (bool_decide (mode a = wanted) || bool_decide (mode a = Mode_rw)).

(** [can_read] and [can_write] differ in the mode they look for. *)
Definition can_access_slot (wanted : Mode) (k : K) (type : ComponentType)
    (behavior : BehaviorId) (slot : ComponentSlotId) (r : ComponentRegistry) : res bool :=
  catch_runtime_error false (
    typeId ← component_type k type r;
    s ← component_storage k typeId r;
    validate_slot typeId slot r;;
    Ok (existsb (access_allows wanted slot) (default [] (accesses s !! behavior)))).

Definition can_access_named (wanted : Mode) (k : K) (type : ComponentType)
    (behavior : BehaviorId) (name : string) (r : ComponentRegistry) : res bool :=
  catch_runtime_error false (
    typeId ← component_type k type r;
    slot ← named_slot typeId name r;
    can_access_slot wanted k type behavior slot r).

Definition can_read := can_access_named Mode_r.
Definition can_write := can_access_named Mode_w.
Definition can_read_slot := can_access_slot Mode_r.
Definition can_write_slot := can_access_slot Mode_w.

(** *** Codecs *)

Definition component_codec (k : K) (type : ComponentType) (r : ComponentRegistry)
  : res (ComponentCodec (El k)) :=
  component_type k type r;;
  match codecs r !! type_id type with
  | None => throw runtime_error "component codec not registered"
  | Some p =>
      match dynamic_cast (F := λ k, ComponentCodec (El k)) k p with
      | None => throw runtime_error "component codec type mismatch"
      | Some codec => Ok codec
      end
  end.

Definition component_schema (k : K) (type : ComponentType) (r : ComponentRegistry)
  : res ComponentSchema :=
  component_type k type r;;
  match schemas r !! type_id type with
  | None => throw out_of_range "map::at"
  | Some schema => Ok schema
  end.

Definition encode_component (k : K) (type : ComponentType) (component : El k)
    (r : ComponentRegistry) : res value :=
  codec ← component_codec k type r;
  encoded ← codec_encode codec component;
  validate encoded;;
  Ok encoded.

Definition decode_component (k : K) (type : ComponentType) (v : value)
    (r : ComponentRegistry) : res (El k) :=
  validate v;;
  codec ← component_codec k type r;
  decoded ← codec_decode codec v;
  again ← codec_encode codec decoded;
  reject_if (negb (value_eqb again v)) invalid_argument "component codec is not canonical";;
  Ok decoded.

Definition has_component_codec (k : K) (type : ComponentType) (r : ComponentRegistry)
  : res bool :=
  component_type k type r;; Ok (bool_decide (is_Some (codecs r !! type_id type))).

Definition register_effect_codec (k : K) (type : ComponentType) (route : string)
    (encode : option (string → El k → res (option ResolvedEffect)))
    (decode_observed : option (value → res (El k))) : stm ComponentRegistry unit :=
  r ← sget;
  slift (component_type k type r);;
  match encode, decode_observed with
  | Some encode, Some decode_observed =>
      sreject_if (bool_decide (is_Some (effectCodecs r !! type_id type))) invalid_argument
        "effect codec already registered";;
      codec ← slift (component_codec k type r);
      sput (set_effectCodecs (<[type_id type :=
        existT k (MkEffectCodecModel (MkEffectCodec route encode decode_observed) codec)]>
        (effectCodecs r)) r)
  | _, _ => sthrow invalid_argument "effect codec must provide encode and decodeObserved"
  end.

Definition has_effect_codec (k : K) (type : ComponentType) (r : ComponentRegistry)
  : res bool :=
  component_type k type r;; Ok (bool_decide (is_Some (effectCodecs r !! type_id type))).

(** [encode_effect(ComponentType<Component>, ...)] *)
Definition encode_effect (k : K) (type : ComponentType) (name : string) (component : El k)
    (r : ComponentRegistry) : res (option ResolvedEffect) :=
  component_type k type r;;
  match effectCodecs r !! type_id type with
  | None => Ok None
  | Some p =>
      match dynamic_cast (F := λ k, EffectCodecModel (El k)) k p with
      | None => throw runtime_error "effect codec type mismatch"
      | Some model =>
          effect ← effect_encode (effect_codec model) name component;
          check_effect (codec_route (effect_codec model)) effect
      end
  end.

Definition require_type (type : ComponentTypeId) (r : ComponentRegistry) : res unit :=
  reject_if (negb (component_type_exists type r)) runtime_error
    "component type not registered".

(** The operations on a type whose C++ type is not known. *)
Definition effect_route (type : ComponentTypeId) (r : ComponentRegistry) : res string :=
  require_type type r;;
  match effectCodecs r !! type with
  | None => throw runtime_error "effect codec not registered"
  | Some (existT _ model) => Ok (codec_route (effect_codec model))
  end.

Definition encode_effect_value (type : ComponentTypeId) (name : string) (v : value)
    (r : ComponentRegistry) : res (option ResolvedEffect) :=
  require_type type r;;
  match effectCodecs r !! type with
  | None => Ok None
  | Some (existT _ model) => model_encode model name v
  end.

Definition decode_observed (type : ComponentTypeId) (v : value) (r : ComponentRegistry)
  : res value :=
  require_type type r;;
  match effectCodecs r !! type with
  | None => throw runtime_error "effect codec not registered"
  | Some (existT _ model) => model_decode_observed model v
  end.

(** [dynamic_cast<ComponentStorage<Component>&>] *)
Definition cast_storage (k : K) (p : any_storage) : res (ComponentStorage (El k)) :=
  match dynamic_cast (F := λ k, ComponentStorage (El k)) k p with
  | None => throw bad_cast "std::bad_cast"
  | Some s => Ok s
  end.

Definition encode_component_slot (type : ComponentTypeId) (slot : ComponentSlotId)
    (r : ComponentRegistry) : res value :=
  rawSlot ← validate_slot type slot r;
  match codecs r !! type, storages r !! type with
  | Some (existT k codec), Some p => s ← cast_storage k p; encode_slot codec rawSlot s
  | _, _ => throw runtime_error "component codec not registered"
  end.

(** With [ComponentCodecModel::replace_slot]. *)
Definition replace_component_value (type : ComponentTypeId) (slot : ComponentSlotId)
    (v : value) : stm ComponentRegistry value :=
  r ← sget;
  rawSlot ← slift (validate_slot type slot r);
  match codecs r !! type, storages r !! type with
  | Some (existT k codec), Some p =>
      '(decoded, canonical) ← slift (decode_canonical codec v);
      slift (cast_storage k p);;
      with_storage k type (storage_replace rawSlot decoded);;
      mret canonical
  | _, _ => sthrow runtime_error "component codec not registered"
  end.
End Registry.
Arguments ComponentRegistry {K} El.
