(* ===== verification/ComponentSpec.v ===== *)
(** * The component registry against its specification

    Abstractly a registered type is its C++ type, the components it holds by
    name, each with its handle, and the rights of behaviours to them.  [type_ok]
    relates the storage, the two name indexes and the generations of one type to
    that view; [registry_ok] relates the whole registry to a view per type.
    Each operation of [Components] has its specification here. *)
From S2P Require Import Prelude OrderedMap Values Effects Ids Components.

(** ** One type *)

Section OneType.
Context {T : Type}.
Implicit Types (s : ComponentStorage T) (held : gmap string (handle * T))
  (rights : gmap (handle * string) Mode).

(** What a behaviour may do with a slot, from the storage. *)
Definition rights_of s (behavior : handle) : list ComponentSlotAccess :=
  default [] (accesses s !! behavior).

(** The access lists against the rights by name. *)
Record access_ok s (names : gmap string handle) rights : Prop := {
  ac_current b a : a ∈ rights_of s b → ∃ n, names !! n = Some (access_slot a);
  ac_single b : NoDup (access_slot <$> rights_of s b);
  ac_nonempty b l : accesses s !! b = Some l → l ≠ [];
  ac_rights b n m : rights !! (b, n) = Some m ↔
    ∃ h, names !! n = Some h ∧ MkAccess m h ∈ rights_of s b
}.

Record type_ok (world : N) s (names : gmap string handle) (slots : gmap handle string)
    (gens : list N) held rights : Prop := {
  ty_names : names = fst <$> held;
  ty_slots h n : slots !! h = Some n ↔ names !! n = Some h;
  ty_length : length gens = length (components s);
  ty_capacity : len (components s) <= MaxComponentSlots;
  ty_held n h v : held !! n = Some (h, v) →
    handle_world h = world ∧ gens !! N.to_nat (handle_slot h) = Some (handle_generation h) ∧
    handle_generation h ≠ 0 ∧ components s !! N.to_nat (handle_slot h) = Some (Some v);
  ty_live i v : components s !! i = Some (Some v) →
    ∃ n h, held !! n = Some (h, v) ∧ N.to_nat (handle_slot h) = i;
  ty_nodup : NoDup (availableSlots s);
  ty_free i : i ∈ availableSlots s → components s !! N.to_nat i = Some None ∧
    ∃ g, gens !! N.to_nat i = Some g ∧ g ≠ 0;
  ty_gens : Forall (λ g, g <= u32_max) gens;
  ty_count : count s = N.of_nat (size held);
  ty_access : access_ok s names rights
}.

Lemma new_type_ok world : type_ok world (new_ComponentStorage (T := T)) ∅ ∅ [] ∅ ∅.
Proof.
  split; cbn; try done.
  - constructor.
  - intros i Hi. by apply elem_of_nil in Hi.
  - split; unfold rights_of; cbn.
    + intros b a Ha. by apply elem_of_nil in Ha.
    + intros b. constructor.
    + done.
    + intros b n m. split; [done|]. by intros (h & ? & _).
Qed.

Section Facts.
Context {world : N} {s : ComponentStorage T} {names : gmap string handle}
  {slots : gmap handle string} {gens : list N} {held : gmap string (handle * T)}
  {rights : gmap (handle * string) Mode}.
Hypothesis Hok : type_ok world s names slots gens held rights.

Lemma held_name n h v : held !! n = Some (h, v) → names !! n = Some h.
Proof. intros H. rewrite (ty_names _ _ _ _ _ _ _ Hok), lookup_fmap, H. done. Qed.

Lemma name_held n h : names !! n = Some h → ∃ v, held !! n = Some (h, v).
Proof.
  rewrite (ty_names _ _ _ _ _ _ _ Hok), lookup_fmap_Some. intros ([h' v] & <- & H).
  by exists v.
Qed.

Lemma names_inj n n' h : names !! n = Some h → names !! n' = Some h → n = n'.
Proof.
  rewrite <-!(ty_slots _ _ _ _ _ _ _ Hok). intros H1 H2. rewrite H1 in H2. by injection H2.
Qed.

(** Live handles are told apart by their slots. *)
Lemma held_slot_inj n n' h h' v v' :
  held !! n = Some (h, v) → held !! n' = Some (h', v') → handle_slot h = handle_slot h' →
  n = n' ∧ h = h'.
Proof.
  intros H H' E. destruct (ty_held _ _ _ _ _ _ _ Hok _ _ _ H) as (W & G & _ & _).
  destruct (ty_held _ _ _ _ _ _ _ Hok _ _ _ H') as (W' & G' & _ & _).
  assert (h = h') as ->.
  { rewrite <-E, G in G'. injection G' as G'. destruct h, h'. cbn in *. congruence. }
  split; [|done]. by eapply names_inj; eapply held_name.
Qed.

Lemma held_has n h v : held !! n = Some (h, v) → storage_has (handle_slot h) s = true.
Proof.
  intros H. destruct (ty_held _ _ _ _ _ _ _ Hok _ _ _ H) as (_ & _ & _ & Hc).
  unfold storage_has, storage_get. by rewrite Hc.
Qed.

Lemma held_get n h v : held !! n = Some (h, v) → storage_get (handle_slot h) s = Some v.
Proof.
  intros H. destruct (ty_held _ _ _ _ _ _ _ Hok _ _ _ H) as (_ & _ & _ & Hc).
  unfold storage_get. by rewrite Hc.
Qed.
End Facts.

(** *** Access lists *)

Lemma default_keep_nonempty l : default [] (keep_nonempty l) = l.
Proof. by destruct l. Qed.

Lemma rights_removeAccess b h s b' :
  rights_of (removeAccess b h s) b' =
  if decide (b' = b) then drop_slot h (rights_of s b) else rights_of s b'.
Proof.
  unfold rights_of, removeAccess. cbn. case_decide as E.
  - subst b'. rewrite lookup_partial_alter_eq. destruct (accesses s !! b); cbn; [|done].
    apply default_keep_nonempty.
  - by rewrite lookup_partial_alter_ne.
Qed.

Lemma rights_removeAccessesTo h s b :
  rights_of (removeAccessesTo h s) b = drop_slot h (rights_of s b).
Proof.
  unfold rights_of, removeAccessesTo. cbn. rewrite lookup_omap.
  destruct (accesses s !! b); cbn; [|done]. apply default_keep_nonempty.
Qed.

Lemma rights_removeAccessesOf b s b' :
  rights_of (removeAccessesOf b s) b' = if decide (b' = b) then [] else rights_of s b'.
Proof.
  unfold rights_of, removeAccessesOf. cbn. case_decide as E.
  - subst b'. by rewrite lookup_delete_eq.
  - by rewrite lookup_delete_ne.
Qed.

Lemma elem_of_drop_slot h a l : a ∈ drop_slot h l ↔ a ∈ l ∧ access_slot a ≠ h.
Proof. unfold drop_slot. rewrite list_elem_of_filter. naive_solver. Qed.

Lemma drop_slot_sublist h l : access_slot <$> drop_slot h l `sublist_of` access_slot <$> l.
Proof.
  unfold drop_slot. induction l as [|a l IH]; [done|]. rewrite filter_cons.
  destruct (decide (access_slot a ≠ h)); cbn; by constructor.
Qed.

(** Lists of accesses after some were dropped are as good as before. *)
Lemma nonempty_removed b h s b' l :
  (∀ b l, accesses s !! b = Some l → l ≠ []) →
  accesses (removeAccess b h s) !! b' = Some l → l ≠ [].
Proof.
  intros Hne. unfold removeAccess. cbn. destruct (decide (b' = b)) as [->|E].
  - rewrite lookup_partial_alter_eq. destruct (accesses s !! b) as [l'|]; cbn; [|done].
    destruct (drop_slot h l'); cbn; [done|]. by intros [= <-].
  - rewrite lookup_partial_alter_ne by done. apply Hne.
Qed.

Lemma nonempty_removed_to h s b l :
  accesses (removeAccessesTo h s) !! b = Some l → l ≠ [].
Proof.
  unfold removeAccessesTo. cbn. rewrite lookup_omap. destruct (accesses s !! b) as [l'|]; cbn; [|done].
  destruct (drop_slot h l'); cbn; [done|]. by intros [= <-].
Qed.

Lemma access_ok_same s s' names rights :
  accesses s' = accesses s → access_ok s names rights → access_ok s' names rights.
Proof.
  intros E [H1 H2 H3 H4]. assert (∀ b, rights_of s' b = rights_of s b) as Er
    by (intros b; unfold rights_of; by rewrite E).
  split; intros b; rewrite ?Er, ?E; [apply H1|apply H2|apply H3|apply H4].
Qed.

Lemma access_ok_name n h s names rights :
  names !! n = None → (∀ n', names !! n' ≠ Some h) → access_ok s names rights →
  access_ok s (<[n := h]> names) rights.
Proof.
  intros Hn Hh [H1 H2 H3 H4]. split; [|done|done|].
  - intros b a Ha. destruct (H1 b a Ha) as (n' & Hn'). exists n'.
    rewrite lookup_insert_ne; [done|]. congruence.
  - intros b n' m. destruct (decide (n' = n)) as [->|E].
    + rewrite lookup_insert_eq. split.
      * intros (h' & Hh' & _)%H4. congruence.
      * intros (h' & [= <-] & Ha). destruct (H1 _ _ Ha) as (n2 & Hn2). by destruct (Hh n2).
    + rewrite lookup_insert_ne by done. apply H4.
Qed.

Lemma access_ok_remove n h s names rights :
  names !! n = Some h → (∀ n', names !! n' = Some h → n' = n) → access_ok s names rights →
  access_ok (removeAccessesTo h s) (delete n names) (filter (λ p, p.1.2 ≠ n) rights).
Proof.
  intros Hn Hinj [H1 H2 H3 H4]. split.
  - intros b a. rewrite rights_removeAccessesTo, elem_of_drop_slot. intros [Ha Hne].
    destruct (H1 b a Ha) as (n' & Hn'). exists n'. rewrite lookup_delete_ne; congruence.
  - intros b. rewrite rights_removeAccessesTo. eapply sublist_NoDup; [apply H2|].
    apply drop_slot_sublist.
  - intros b l. apply nonempty_removed_to.
  - intros b n' m. rewrite rights_removeAccessesTo, map_lookup_filter_Some. cbn.
    rewrite H4. destruct (decide (n' = n)) as [->|E].
    + rewrite lookup_delete_eq. naive_solver.
    + rewrite lookup_delete_ne by done. setoid_rewrite elem_of_drop_slot. cbn. split.
      * intros [(h' & Hh' & Ha) _]. exists h'. split_and!; try done. intros ->. by apply E, Hinj.
      * intros (h' & Hh' & Ha & _). split; [|done]. by exists h'.
Qed.

Lemma access_ok_revoke b n h s names rights :
  names !! n = Some h → (∀ n', names !! n' = Some h → n' = n) → access_ok s names rights →
  access_ok (removeAccess b h s) names (delete (b, n) rights).
Proof.
  intros Hn Hinj [H1 H2 H3 H4]. split.
  - intros b' a. rewrite rights_removeAccess. case_decide as E; [|apply H1].
    rewrite elem_of_drop_slot. subst b'. intros [Ha _]. by apply (H1 b).
  - intros b'. rewrite rights_removeAccess. case_decide as E; [|apply H2].
    eapply sublist_NoDup; [apply H2|]. apply drop_slot_sublist.
  - intros b' l. by apply nonempty_removed.
  - intros b' n' m. rewrite rights_removeAccess. case_decide as E.
    + subst b'. setoid_rewrite elem_of_drop_slot. cbn. destruct (decide (n' = n)) as [->|En].
      * rewrite lookup_delete_eq. split; [done|]. intros (h' & Hh' & _ & Hne). congruence.
      * rewrite lookup_delete_ne by congruence. rewrite H4. split.
        -- intros (h' & Hh' & Ha). exists h'. split_and!; try done. intros ->. by apply En, Hinj.
        -- intros (h' & Hh' & Ha & _). by exists h'.
    + rewrite lookup_delete_ne by congruence. apply H4.
Qed.

Lemma access_ok_forget b s names rights :
  access_ok s names rights →
  access_ok (removeAccessesOf b s) names (filter (λ p, p.1.1 ≠ b) rights).
Proof.
  intros [H1 H2 H3 H4]. split.
  - intros b' a. rewrite rights_removeAccessesOf. case_decide; [|apply H1].
    intros Ha. by apply elem_of_nil in Ha.
  - intros b'. rewrite rights_removeAccessesOf. case_decide; [constructor|apply H2].
  - intros b' l. unfold removeAccessesOf. cbn. intros H. apply lookup_delete_Some in H as [_ H].
    by apply (H3 b').
  - intros b' n m. rewrite rights_removeAccessesOf, map_lookup_filter_Some. cbn. rewrite H4.
    case_decide as E.
    + split; [by intros [_ ?]|]. intros (h & _ & Ha). by apply elem_of_nil in Ha.
    + naive_solver.
Qed.

Lemma access_ok_grant b m n h s s1 names rights :
  names !! n = Some h → (∀ n', names !! n' = Some h → n' = n) → access_ok s names rights →
  s1 = removeAccess b h s →
  access_ok (set_accesses (<[b := default [] (accesses s1 !! b) ++ [MkAccess m h]]> (accesses s1)) s1)
    names (<[(b, n) := m]> rights).
Proof.
  intros Hn Hinj Hok ->. set (s2 := set_accesses _ _).
  assert (∀ b', rights_of s2 b' = if decide (b' = b)
    then drop_slot h (rights_of s b) ++ [MkAccess m h] else rights_of s b') as Hr.
  { intros b'. unfold s2, rights_of at 1. cbn [accesses set_accesses]. case_decide as E.
    - subst b'. rewrite lookup_insert_eq. cbn. f_equal.
      pose proof (rights_removeAccess b h s b) as E. rewrite decide_True in E by done. exact E.
    - rewrite lookup_insert_ne by done.
      pose proof (rights_removeAccess b h s b') as Er. rewrite decide_False in Er by done. exact Er. }
  pose proof Hok as [H1 H2 H3 H4]. split.
  - intros b' a. rewrite Hr. case_decide as E; [|apply H1].
    rewrite elem_of_app, elem_of_drop_slot, list_elem_of_singleton.
    intros [[Ha _]| ->]; [by apply (H1 b)|by exists n].
  - intros b'. rewrite Hr. case_decide as E; [|apply H2]. rewrite fmap_app. cbn.
    apply NoDup_app. split_and!.
    + eapply sublist_NoDup; [apply (H2 b)|]. apply drop_slot_sublist.
    + intros h' (a & -> & Ha)%list_elem_of_fmap. apply elem_of_drop_slot in Ha as [_ Ha].
      by rewrite list_elem_of_singleton.
    + apply NoDup_singleton.
  - intros b' l. unfold s2. cbn [accesses set_accesses]. destruct (decide (b' = b)) as [->|E].
    + rewrite lookup_insert_eq. intros [= <-]. by destruct (default _ _).
    + rewrite lookup_insert_ne by done. by apply nonempty_removed.
  - intros b' n' m'. rewrite Hr. case_decide as E.
    + subst b'. setoid_rewrite elem_of_app. setoid_rewrite elem_of_drop_slot.
      setoid_rewrite list_elem_of_singleton. cbn. destruct (decide (n' = n)) as [->|En].
      * rewrite lookup_insert_eq. split.
        -- intros [= ->]. exists h. split; [done|]. by right.
        -- intros (h' & Hh' & [[_ ?]|[= -> _]]); [congruence|done].
      * rewrite lookup_insert_ne by congruence. rewrite H4. split.
        -- intros (h' & Hh' & Ha). exists h'. split; [done|]. left. split; [done|].
           intros ->. by apply En, Hinj.
        -- intros (h' & Hh' & [[Ha _]|[= _ ->]]); [by exists h'|]. by destruct En; apply Hinj.
    + rewrite lookup_insert_ne by congruence. apply H4.
Qed.

(** Dropping a handle nobody has rights to. *)
Lemma access_ok_unused h s names rights :
  (∀ n, names !! n ≠ Some h) → access_ok s names rights →
  access_ok (removeAccessesTo h s) names rights.
Proof.
  intros Hh [H1 H2 H3 H4].
  assert (∀ b, rights_of (removeAccessesTo h s) b = rights_of s b) as Hr.
  { intros b. rewrite rights_removeAccessesTo. unfold drop_slot.
    assert (Forall (λ a, access_slot a ≠ h) (rights_of s b)) as Hall.
    { apply Forall_forall. intros a Ha E. destruct (H1 b a Ha) as (n & Hn).
      rewrite E in Hn. by apply (Hh n). }
    induction Hall as [|a l Ha _ IH]; [done|]. rewrite filter_cons, decide_True by done.
    by rewrite IH. }
  split; intros b; rewrite ?Hr; [apply H1|apply H2| |].
  - intros l. apply nonempty_removed_to.
  - apply H4.
Qed.

(** *** Slots *)

Implicit Types (names : gmap string handle) (slots : gmap handle string) (gens : list N).

Lemma type_ok_occupy world s s' names slots gens gens' held rights n i g c :
  type_ok world s names slots gens held rights → held !! n = None →
  (∀ v, components s !! N.to_nat i ≠ Some (Some v)) →
  (∀ j, components s' !! j = if decide (j = N.to_nat i) then Some (Some c) else components s !! j) →
  (∀ j, j ≠ N.to_nat i → gens' !! j = gens !! j) → gens' !! N.to_nat i = Some g → g ≠ 0 →
  Forall (λ g, g <= u32_max) gens' → length gens' = length (components s') →
  len (components s') <= MaxComponentSlots → NoDup (availableSlots s') →
  (∀ j, j ∈ availableSlots s' → j ∈ availableSlots s ∧ j ≠ i) →
  accesses s' = accesses s → count s' = count s + 1 →
  let h := MkHandle world i g in
  type_ok world s' (<[n := h]> names) (<[h := n]> slots) gens' (<[n := (h, c)]> held) rights.
Proof.
  intros Hok Hn Hvac Hcomp Hgens Hg Hg0 Hall Hlen Hcap Hnd Hav Hacc Hcount h.
  pose proof Hok as [Enames Eslots _ _ Hheld Hlive _ Hfree _ Hc Haccess].
  assert (∀ n' h' v, held !! n' = Some (h', v) → handle_slot h' ≠ i) as Hother.
  { intros n' h' v H E. destruct (Hheld _ _ _ H) as (_ & _ & _ & Hv). rewrite E in Hv. by apply Hvac in Hv. }
  assert (names !! n = None) as Hnames by (by rewrite Enames, lookup_fmap, Hn).
  assert (∀ n', names !! n' ≠ Some h) as Hfresh.
  { intros n' H. destruct (name_held Hok _ _ H) as (v & Hv). by apply Hother in Hv. }
  split; try done.
  - by rewrite fmap_insert, Enames.
  - intros h' n'. destruct (decide (h' = h)) as [->|Eh].
    + rewrite lookup_insert_eq. split.
      * intros [= <-]. apply lookup_insert_eq.
      * destruct (decide (n' = n)) as [->|En]; [done|]. rewrite lookup_insert_ne by done.
        intros H. by apply Hfresh in H.
    + rewrite lookup_insert_ne by done. rewrite Eslots. destruct (decide (n' = n)) as [->|En].
      * rewrite lookup_insert_eq. split; congruence.
      * by rewrite lookup_insert_ne.
  - intros n' h' v. destruct (decide (n' = n)) as [->|En].
    + rewrite lookup_insert_eq. intros [= <- <-]. cbn. rewrite Hcomp, decide_True by done.
      by split_and!.
    + rewrite lookup_insert_ne by done. intros H. pose proof (Hother _ _ _ H) as Hne.
      rewrite Hcomp, decide_False, Hgens by lia. by apply Hheld in H.
  - intros j v. rewrite Hcomp. case_decide as E.
    + intros [= <-]. exists n, h. rewrite lookup_insert_eq. by subst.
    + intros (n' & h' & H & <-)%Hlive. exists n', h'. rewrite lookup_insert_ne; [done|].
      intros <-. congruence.
  - intros j [Hj Hne]%Hav. rewrite Hcomp, decide_False, Hgens by lia. by apply Hfree.
  - rewrite map_size_insert_None by done. lia.
  - apply (access_ok_same s); [done|]. by apply access_ok_name.
Qed.

Lemma storage_add_spec world s names slots gens held rights n c :
  type_ok world s names slots gens held rights → held !! n = None →
  (∃ i s' g, let gens' := gens ++ replicate (S (N.to_nat i) - length gens) 1 in
     let h := MkHandle world i g in
     storage_add c s = (Ok i, s') ∧ gens' !! N.to_nat i = Some g ∧ g ≠ 0 ∧
     (∀ v, components s !! N.to_nat i ≠ Some (Some v)) ∧ (N.to_nat i <= length gens)%nat ∧
     type_ok world s' (<[n := h]> names) (<[h := n]> slots) gens' (<[n := (h, c)]> held) rights) ∨
  (∃ msg, storage_add c s = (throw runtime_error msg, s)) ∧ availableSlots s = [] ∧
    len (components s) = MaxComponentSlots.
Proof.
  intros Hok Hn. pose proof Hok as [_ _ Hlen Hcap _ _ Hnd Hfree Hall _ _].
  unfold storage_add. rewrite (stm_bind_eq _ _ s s s) by done.
  destruct (availableSlots s) as [|i rest] eqn:Hav.
  - destruct (N.leb_spec MaxComponentSlots (len (components s))) as [Hfull|Hroom].
    { right. split; [by eexists|]. split; [done|]. lia. }
    left. exists (len (components s)), (MkComponentStorage (components s ++ [Some c]) []
      (accesses s) (count s + 1)), 1. cbn zeta. unfold len. rewrite !Nat2N.id, Hlen.
    replace (S (length (components s)) - length (components s))%nat with 1%nat by lia.
    cbn [replicate]. assert ((gens ++ [1]) !! length (components s) = Some 1) as Hg
      by (rewrite <-Hlen; apply list_lookup_middle; lia).
    assert (∀ v, components s !! length (components s) ≠ Some (Some v)) as Hvac
      by (intros v; rewrite lookup_ge_None_2 by lia; done).
    do 4 (split; [done|]). split; [lia|].
    eapply (type_ok_occupy world s); rewrite ?Nat2N.id; try done; cbn.
    + intros j. case_decide as E; [subst; apply list_lookup_middle; lia|].
      destruct (decide (j < length (components s))%nat).
      * by rewrite lookup_app_l by done.
      * rewrite !lookup_ge_None_2; [done|lia|rewrite length_app; cbn; lia].
    + intros j Hj. destruct (decide (j < length gens)%nat).
      * by rewrite lookup_app_l by done.
      * rewrite !lookup_ge_None_2; [done|lia|rewrite length_app; cbn; lia].
    + apply Forall_app. split; [done|]. by constructor.
    + rewrite !length_app. cbn. lia.
    + rewrite len_app, len_singleton. lia.
    + intros j Hj. by apply elem_of_nil in Hj.
  - left. destruct (Hfree i) as (Hi & g & Hg & Hg0); [left|].
    exists i, (MkComponentStorage (<[N.to_nat i := Some c]> (components s)) rest (accesses s)
      (count s + 1)), g. cbn zeta.
    apply lookup_lt_Some in Hg as Hlt.
    replace (S (N.to_nat i) - length gens)%nat with O by lia. cbn [replicate]. rewrite app_nil_r.
    do 3 (split; [done|]). split; [congruence|]. split; [lia|].
    rewrite Hlen in Hlt. eapply (type_ok_occupy world s); try done; cbn.
    + congruence.
    + intros j. case_decide as E; [subst; by apply list_lookup_insert_eq|].
      by rewrite list_lookup_insert_ne.
    + by rewrite length_insert.
    + unfold len. by rewrite length_insert.
    + by apply NoDup_cons in Hnd as [_ ?].
    + intros j Hj. rewrite Hav. split; [by right|]. intros ->. by apply NoDup_cons in Hnd as [? _].
Qed.

(** The generation a slot gets when its component is removed; zero retires it. *)
Definition next_generation (g : N) : N := if g =? u32_max then 0 else g + 1.

Lemma storage_remove_spec world s names slots gens held rights n h v :
  type_ok world s names slots gens held rights → held !! n = Some (h, v) →
  let i := handle_slot h in let g := handle_generation h in
  ∃ s', storage_remove i (negb (g =? u32_max)) (removeAccessesTo h s) = (Ok tt, s') ∧
    type_ok world s' (delete n names) (delete h slots) (vector_set gens i (next_generation g))
      (delete n held) (filter (λ p, p.1.2 ≠ n) rights).
Proof.
  intros Hok Hn i g. destruct (ty_held _ _ _ _ _ _ _ Hok _ _ _ Hn) as (Hw & Hg & Hg0 & Hv).
  fold i g in Hg, Hg0, Hv. apply lookup_lt_Some in Hv as Hlt.
  unfold storage_remove. rewrite (stm_bind_eq _ _ _ _ _ (eq_refl : sget _ = _)).
  cbn [components removeAccessesTo set_accesses].
  rewrite (proj2 (N.leb_gt _ _)) by (unfold len; lia).
  rewrite (stm_bind_eq _ _ _ _ _ (sreject_if_false _ _ _)).
  assert (storage_has i (removeAccessesTo h s) = true) as ->
    by (unfold storage_has, storage_get; cbn; by rewrite Hv).
  rewrite (stm_bind_eq _ _ _ _ _ (sreject_if_false _ _ _)). eexists. split; [reflexivity|].
  pose proof Hok as [Enames Eslots Hlen Hcap Hheld Hlive Hnd Hfree Hall Hcount Haccess].
  pose proof (held_name Hok _ _ _ Hn) as Hnames.
  assert (∀ n' h' v', held !! n' = Some (h', v') → n' ≠ n → N.to_nat (handle_slot h') ≠ N.to_nat i)
    as Hother.
  { intros n' h' v' H Hne E. destruct (held_slot_inj Hok _ _ _ _ _ _ H Hn) as [? _]; [|done].
    by apply N2Nat.inj. }
  split; cbn [components removeAccessesTo set_accesses availableSlots accesses count].
  - by rewrite Enames, fmap_delete.
  - intros h' n'. destruct (decide (h' = h)) as [->|Eh].
    + rewrite lookup_delete_eq. split; [done|]. intros [Hne H]%lookup_delete_Some.
      by destruct Hne; eapply (names_inj Hok).
    + rewrite lookup_delete_ne by done. rewrite Eslots. rewrite lookup_delete_Some. naive_solver.
  - by rewrite length_vector_set, length_insert.
  - unfold len. by rewrite length_insert.
  - intros n' h' v' [Hne H]%lookup_delete_Some. pose proof (Hother _ _ _ H ltac:(done)) as Hs.
    unfold vector_set. rewrite !list_lookup_insert_ne by done. by apply Hheld in H.
  - intros j v'. destruct (decide (j = N.to_nat i)) as [->|E].
    + by rewrite list_lookup_insert_eq.
    + rewrite list_lookup_insert_ne by done. intros (n' & h' & H & <-)%Hlive.
      exists n', h'. rewrite lookup_delete_ne; [done|]. intros <-. rewrite Hn in H.
      by injection H as <- <-.
  - destruct (g =? u32_max); [done|]. apply NoDup_cons. split; [|done].
    intros (Hi & _)%Hfree. congruence.
  - intros j Hj. assert (j = i ∧ g ≠ u32_max ∨ j ≠ i ∧ j ∈ availableSlots s) as [[-> Hmax]|[Hne Hav]].
    { destruct (decide (j = i)) as [->|Hne].
      - left. split; [done|]. intros E. rewrite E in Hj. cbn in Hj.
        apply Hfree in Hj as [Hi _]. congruence.
      - right. split; [done|]. destruct (g =? u32_max); [done|].
        apply elem_of_cons in Hj as [?|?]; done. }
    + unfold vector_set. rewrite !list_lookup_insert_eq by lia. split; [done|].
      eexists. split; [done|]. unfold next_generation. rewrite (proj2 (N.eqb_neq _ _)) by done. lia.
    + unfold vector_set. rewrite !list_lookup_insert_ne by lia. by apply Hfree.
  - unfold vector_set. apply Forall_insert; [done|]. unfold next_generation.
    rewrite Forall_lookup in Hall. apply Hall in Hg. destruct (N.eqb_spec g u32_max); lia.
  - rewrite Hcount, map_size_delete_Some by (rewrite Hn; by eexists). lia.
  - apply (access_ok_same (removeAccessesTo (legacy_handle i) (removeAccessesTo h s))); [done|].
    apply access_ok_unused.
    + intros n' [_ H]%lookup_delete_Some. destruct (name_held Hok _ _ H) as (v' & Hv').
      apply Hheld in Hv' as (_ & _ & ? & _). done.
    + apply access_ok_remove; [done| |done]. intros n' H. by eapply (names_inj Hok).
Qed.

Lemma storage_replace_spec world s names slots gens held rights n h v c :
  type_ok world s names slots gens held rights → held !! n = Some (h, v) →
  ∃ s', storage_replace (handle_slot h) c s = (Ok tt, s') ∧
    type_ok world s' names slots gens (<[n := (h, c)]> held) rights.
Proof.
  intros Hok Hn. unfold storage_replace. rewrite (stm_bind_eq _ _ s s s) by done.
  rewrite (held_has Hok _ _ _ Hn). rewrite (stm_bind_eq _ _ _ _ _ (sreject_if_false _ _ _)).
  eexists. split; [reflexivity|].
  pose proof Hok as [Enames Eslots Hlen Hcap Hheld Hlive Hnd Hfree Hall Hcount Haccess].
  destruct (Hheld _ _ _ Hn) as (Hw & Hg & Hg0 & Hv). apply lookup_lt_Some in Hv as Hlt.
  split; cbn [components availableSlots accesses count]; try done.
  - rewrite Enames. apply map_eq. intros n'. rewrite !lookup_fmap.
    destruct (decide (n' = n)) as [->|E]; [by rewrite lookup_insert_eq, Hn|by rewrite lookup_insert_ne].
  - by rewrite length_insert.
  - unfold len. by rewrite length_insert.
  - intros n' h' v'. destruct (decide (n' = n)) as [->|E].
    + rewrite lookup_insert_eq. intros [= <- <-]. rewrite list_lookup_insert_eq by done. by split_and!.
    + rewrite lookup_insert_ne by done. intros H. rewrite list_lookup_insert_ne; [by apply Hheld in H|].
      intros Es%N2Nat.inj. by destruct (held_slot_inj Hok _ _ _ _ _ _ Hn H Es).
  - intros j v'. destruct (decide (j = N.to_nat (handle_slot h))) as [->|E].
    + rewrite list_lookup_insert_eq by done. intros [= <-]. exists n, h. by rewrite lookup_insert_eq.
    + rewrite list_lookup_insert_ne by done. intros (n' & h' & H & <-)%Hlive. exists n', h'.
      rewrite lookup_insert_ne; [done|]. intros <-. rewrite Hn in H. by injection H as <- <-.
  - intros j Hj. destruct (Hfree j Hj) as [Hi Hgj]. split; [|done].
    rewrite list_lookup_insert_ne; [done|]. intros E. congruence.
  - rewrite map_size_insert_Some; [done|]. rewrite Hn. by eexists.
  - by apply (access_ok_same s).
Qed.

Lemma access_change world s s' names slots gens held rights rights' :
  type_ok world s names slots gens held rights →
  components s' = components s → availableSlots s' = availableSlots s → count s' = count s →
  access_ok s' names rights' → type_ok world s' names slots gens held rights'.
Proof.
  intros [Enames Eslots Hlen Hcap Hheld Hlive Hnd Hfree Hall Hcount Haccess] E1 E2 E3 Hok.
  by split; rewrite ?E1, ?E2, ?E3.
Qed.
End OneType.

(** ** The registry *)

Section Registry.
Context {K : Type} `{EqDecision K} {El : K → Type}.
Implicit Types (r : ComponentRegistry El) (t : N).

Lemma dynamic_cast_same {F : K → Type} (k : K) (x : F k) :
  dynamic_cast k (existT k x) = Some x.
Proof. unfold dynamic_cast. cbn. by rewrite (decide_True_pi eq_refl). Qed.

Lemma dynamic_cast_other {F : K → Type} (k : K) (p : sigT F) :
  projT1 p ≠ k → dynamic_cast k p = None.
Proof. intros H. unfold dynamic_cast. by destruct (decide (projT1 p = k)). Qed.

Record type_view := MkView {
  class : K;
  held : gmap string (handle * El class);
  rights : gmap (handle * string) Mode
}.

(** A handle that will never be current again. *)
Definition spent (gens : list N) (h : handle) : Prop :=
  ∃ g, gens !! N.to_nat (handle_slot h) = Some g ∧ (g = 0 ∨ handle_generation h < g).

Record entry_ok r t (vw : type_view) (given : list (N * handle)) : Prop := {
  en_tables : ∃ s names slots gens,
    storages r !! t = Some (existT (class vw) s) ∧ componentNames r !! t = Some names ∧
    slotNames r !! t = Some slots ∧ slotGenerations r !! t = Some gens ∧
    type_ok (worldId r) s names slots gens (held vw) (rights vw) ∧
    (∀ h, (t, h) ∈ given → handle_world h = worldId r ∧ handle_generation h ≠ 0 ∧
       ((∃ n v, held vw !! n = Some (h, v)) ∨ spent gens h)) ∧
    (len (components s) <= len given);
  en_given n h v : held vw !! n = Some (h, v) → (t, h) ∈ given;
  en_schema : is_Some (schemas r !! t);
  en_codec p : codecs r !! t = Some p → projT1 p = class vw;
  en_effect p : effectCodecs r !! t = Some p → projT1 p = class vw
}.

Record registry_ok r (V : gmap N type_view) (given : list (N * handle)) : Prop := {
  rg_next : nextComponentType r <= MaxComponentTypes;
  rg_types t : is_Some (V !! t) ↔ t < nextComponentType r;
  rg_count : len (typeNames r) = nextComponentType r;
  rg_names n t : componentTypes r !! n = Some t ↔ typeNames r !! N.to_nat t = Some n;
  rg_absent t : V !! t = None → storages r !! t = None ∧ componentNames r !! t = None ∧
    slotNames r !! t = None ∧ slotGenerations r !! t = None ∧ schemas r !! t = None ∧
    codecs r !! t = None ∧ effectCodecs r !! t = None;
  rg_entry t vw : V !! t = Some vw → entry_ok r t vw given;
  rg_given t h : (t, h) ∈ given → is_Some (V !! t)
}.

(** The registry with the tables of one type replaced. *)
Definition updated r t (k : K) (s : ComponentStorage (El k)) (names : gmap string handle)
    (slots : gmap handle string) (gens : list N) : ComponentRegistry El :=
  MkComponentRegistry (worldId r) (nextComponentType r) (componentTypes r) (typeNames r)
    (<[t := existT k s]> (storages r)) (<[t := names]> (componentNames r))
    (<[t := slots]> (slotNames r)) (schemas r) (codecs r) (effectCodecs r)
    (<[t := gens]> (slotGenerations r)).

Lemma updated_id r t k s names slots gens :
  storages r !! t = Some (existT k s) → componentNames r !! t = Some names →
  slotNames r !! t = Some slots → slotGenerations r !! t = Some gens →
  r = updated r t k s names slots gens.
Proof.
  intros H1 H2 H3 H4. unfold updated. rewrite !insert_id by done. by destruct r.
Qed.

(** *** Operations on the tables of one type *)

Section Updated.
Context (r : ComponentRegistry El) (t : N) (k : K).
Implicit Types (s : ComponentStorage (El k)) (names : gmap string handle)
  (slots : gmap handle string) (gens : list N).

Lemma updated_storage s names slots gens :
  component_storage k t (updated r t k s names slots gens) = Ok s.
Proof.
  unfold component_storage. cbn. by rewrite lookup_insert_eq, dynamic_cast_same.
Qed.

Lemma updated_with_storage {A} (f : stm (ComponentStorage (El k)) A) s names slots gens :
  with_storage k t f (updated r t k s names slots gens) =
  ((f s).1, updated r t k (f s).2 names slots gens).
Proof.
  unfold with_storage. rewrite updated_storage. destruct (f s) as [x s'].
  unfold updated, set_storages. cbn. by rewrite insert_insert_eq.
Qed.

Lemma tables_with_storage {A} (f : stm (ComponentStorage (El k)) A) s names slots gens :
  r = updated r t k s names slots gens →
  with_storage k t f r = ((f s).1, updated r t k (f s).2 names slots gens).
Proof. intros E. rewrite E at 1. apply updated_with_storage. Qed.

Lemma updated_named_slot n s names slots gens :
  named_slot t n (updated r t k s names slots gens) =
  match names !! n with
  | None => throw runtime_error "component name not registered"
  | Some slot => Ok slot
  end.
Proof. unfold named_slot. cbn. by rewrite lookup_insert_eq. Qed.

Lemma updated_validate_slot h s names slots gens :
  handle_world h = worldId r → handle_generation h ≠ 0 →
  gens !! N.to_nat (handle_slot h) = Some (handle_generation h) →
  validate_slot t h (updated r t k s names slots gens) = Ok (handle_slot h).
Proof.
  intros Hw Hg Hc. unfold validate_slot, slot_is_current. cbn.
  rewrite (proj2 (N.eqb_neq _ _)), Hw, N.eqb_refl, lookup_insert_eq by done. cbn.
  by rewrite bool_decide_eq_true_2.
Qed.

Lemma updated_stale_slot h s names slots gens :
  handle_generation h ≠ 0 → gens !! N.to_nat (handle_slot h) ≠ Some (handle_generation h) →
  ∃ msg, validate_slot t h (updated r t k s names slots gens) = throw runtime_error msg.
Proof.
  intros Hg Hc. unfold validate_slot, slot_is_current. cbn.
  destruct (_ || _); cbn; [by eexists|].
  rewrite lookup_insert_eq, bool_decide_eq_false_2 by done. by eexists.
Qed.

Lemma updated_make_slot_handle i g s names slots gens :
  let gens' := gens ++ replicate (S (N.to_nat i) - length gens) 1 in
  gens' !! N.to_nat i = Some g → g ≠ 0 →
  make_slot_handle t i (updated r t k s names slots gens) =
  (Ok (MkHandle (worldId r) i g), updated r t k s names slots gens').
Proof.
  intros gens' Hg Hg0. unfold make_slot_handle.
  rewrite (stm_bind_eq _ _ _ _ _ (eq_refl : sget _ = _)). cbn [slotGenerations updated].
  rewrite lookup_insert_eq. fold gens'. set (r' := updated r t k s names slots gens').
  rewrite (stm_bind_eq _ _ _ tt r').
  2:{ unfold sput, set_slotGenerations, r', updated. cbn. by rewrite insert_insert_eq. }
  rewrite (stm_bind_eq _ _ r' g r') by (unfold slift; by rewrite (proj2 (vector_at_ok _ _ _) Hg)).
  rewrite (proj2 (N.eqb_neq _ _)) by done.
  by rewrite (stm_bind_eq _ _ _ _ _ (sreject_if_false _ _ _)).
Qed.

Lemma updated_advance h s names slots gens :
  handle_world h = worldId r → handle_generation h ≠ 0 →
  gens !! N.to_nat (handle_slot h) = Some (handle_generation h) →
  advance_slot_generation t h (updated r t k s names slots gens) =
  (Ok (negb (handle_generation h =? u32_max)),
   updated r t k s names slots
     (vector_set gens (handle_slot h) (next_generation (handle_generation h)))).
Proof.
  intros Hw Hg Hc. unfold advance_slot_generation.
  set (r0 := updated r t k s names slots gens).
  rewrite (stm_bind_eq _ _ r0 r0 r0) by done.
  rewrite (stm_bind_eq _ _ r0 (handle_slot h) r0)
    by (unfold slift, r0; by rewrite updated_validate_slot).
  unfold r0 at 1. cbn [slotGenerations updated]. rewrite lookup_insert_eq.
  rewrite (stm_bind_eq _ _ r0 (handle_generation h) r0)
    by (unfold slift; by rewrite (proj2 (vector_at_ok _ _ _) Hc)).
  fold (next_generation (handle_generation h)).
  unfold r0. unfold mbind, stm_bind, sput, set_slotGenerations, updated. cbn.
  by rewrite insert_insert_eq.
Qed.

Lemma updated_index_name n h s names slots gens :
  names !! n = None →
  index_name t n h (updated r t k s names slots gens) =
  (Ok tt, updated r t k s (<[n := h]> names) slots gens).
Proof.
  intros Hn. unfold index_name. rewrite (stm_bind_eq _ _ _ _ _ (eq_refl : sget _ = _)).
  cbn [componentNames updated]. rewrite lookup_insert_eq, Hn. cbn.
  unfold sput, set_componentNames, updated. cbn. by rewrite insert_insert_eq.
Qed.

Lemma updated_index_slot n h s names slots gens :
  slots !! h = None →
  index_slot t n h (updated r t k s names slots gens) =
  (Ok tt, updated r t k s names (<[h := n]> slots) gens).
Proof.
  intros Hn. unfold index_slot. rewrite (stm_bind_eq _ _ _ _ _ (eq_refl : sget _ = _)).
  cbn [slotNames updated]. rewrite lookup_insert_eq, Hn. cbn.
  unfold sput, set_slotNames, updated. cbn. by rewrite insert_insert_eq.
Qed.
End Updated.

(** *** The registry against its views *)

(** What a type's tables say of the handles given for it. *)
Definition given_ok (world : N) (gens : list N) {T} (held : gmap string (handle * T))
    (h : handle) : Prop :=
  handle_world h = world ∧ handle_generation h ≠ 0 ∧
  ((∃ n v, held !! n = Some (h, v)) ∨ spent gens h).

Lemma registry_tables r V given t vw :
  registry_ok r V given → V !! t = Some vw →
  ∃ s names slots gens, r = updated r t (class vw) s names slots gens ∧
    type_ok (worldId r) s names slots gens (held vw) (rights vw) ∧
    (∀ h, (t, h) ∈ given → given_ok (worldId r) gens (held vw) h) ∧
    len (components s) <= len given.
Proof.
  intros Hok Ht. destruct (en_tables _ _ _ _ (rg_entry _ _ _ Hok _ _ Ht))
    as (s & names & slots & gens & H1 & H2 & H3 & H4 & H5 & H6 & H7).
  exists s, names, slots, gens. split; [by apply updated_id|done].
Qed.

Lemma registry_ok_updated r V given t vw s names slots gens held' rights' given' :
  registry_ok r V given → V !! t = Some vw →
  type_ok (worldId r) s names slots gens held' rights' →
  (∀ p, p ∈ given → p ∈ given') → (∀ t' h, (t', h) ∈ given' → (t', h) ∈ given ∨ t' = t) →
  (∀ h, (t, h) ∈ given' → given_ok (worldId r) gens held' h) →
  len (components s) <= len given' → len given <= len given' →
  (∀ n h v, held' !! n = Some (h, v) → (t, h) ∈ given') →
  registry_ok (updated r t (class vw) s names slots gens)
    (<[t := MkView (class vw) held' rights']> V) given'.
Proof.
  intros Hok Ht Htype Hsub Hnew Hgiven Hlen Hmore Hheld.
  pose proof Hok as [Hnext Htypes Hcount Hnames Habsent Hentry Hg]. split; cbn; try done.
  - intros t'. rewrite lookup_insert_is_Some. rewrite <-Htypes. split.
    + intros [->|[_ ?]]; [rewrite Ht; by eexists|done].
    + destruct (decide (t = t')); auto.
  - intros t' H. apply lookup_insert_None in H as [H Hne].
    rewrite !lookup_insert_ne by done. by apply Habsent.
  - intros t' vw' H. destruct (decide (t' = t)) as [->|Hne].
    + rewrite lookup_insert_eq in H. injection H as <-.
      destruct (Hentry _ _ Ht) as [_ _ Hsch Hcod Heff]. split; cbn; try done.
      exists s, names, slots, gens. rewrite !lookup_insert_eq. by split_and!.
    + rewrite lookup_insert_ne in H by done. destruct (Hentry _ _ H) as [Htab Hgiv Hsch Hcod Heff].
      split; cbn; try done; [|by eauto].
      destruct Htab as (s2 & n2 & sl2 & g2 & H1 & H2 & H3 & H4 & H5 & H6 & H7).
      exists s2, n2, sl2, g2. rewrite !lookup_insert_ne by done. split_and!; try done; [|lia].
      intros h [Hh|?]%Hnew; [|done]. by apply H6.
  - intros t' h [Hh| ->]%Hnew.
    + apply Hg in Hh. apply lookup_insert_is_Some. destruct (decide (t = t')); auto.
    + rewrite lookup_insert_eq. by eexists.
Qed.

(** The handle of a type fits a registry, and the C++ type it is used with. *)
Definition type_fits (world : N) (V : gmap N type_view) (k : K) (type : ComponentType) : Prop :=
  (type_world type = 0 ∨ type_world type = world ∧ type_generation type = 1) ∧
  ∃ vw, V !! type_id type = Some vw ∧ class vw = k.

Lemma component_storage_spec r V given k t :
  registry_ok r V given →
  (∃ vw, V !! t = Some vw ∧ class vw = k ∧ ∃ s, component_storage k t r = Ok s) ∨
  (¬ (∃ vw, V !! t = Some vw ∧ class vw = k) ∧
   ∃ msg, component_storage k t r = throw runtime_error msg).
Proof.
  intros Hok. unfold component_storage. destruct (V !! t) as [vw|] eqn:HV.
  - destruct (en_tables _ _ _ _ (rg_entry _ _ _ Hok _ _ HV)) as (s & ? & ? & ? & -> & _).
    destruct (decide (class vw = k)) as [<-|Hne].
    + left. rewrite dynamic_cast_same. eauto.
    + right. rewrite dynamic_cast_other by done. split; [naive_solver|by eexists].
  - right. destruct (rg_absent _ _ _ Hok _ HV) as (-> & _). split; [naive_solver|by eexists].
Qed.

Lemma component_type_spec r V given k type :
  registry_ok r V given →
  (type_fits (worldId r) V k type ∧ component_type k type r = Ok (type_id type)) ∨
  (¬ type_fits (worldId r) V k type ∧ ∃ msg, component_type k type r = throw runtime_error msg).
Proof.
  intros Hok. unfold component_type, type_fits.
  destruct (component_storage_spec r V given k (type_id type) Hok) as [(vw & HV & Hk & s & ->)|[Hno [msg ->]]].
  - destruct (N.eqb_spec (type_world type) 0), (N.eqb_spec (type_world type) (worldId r)),
      (N.eqb_spec (type_generation type) 1); cbn;
      (left; split; [|done]; split; [lia|by exists vw]) ||
      (right; split; [intros [? _]; lia|by eexists]).
  - right. split; [by intros [_ ?]|].
    destruct (negb (type_world type =? 0) && negb (type_world type =? worldId r)); cbn; [by eexists|].
    destruct (_ && _); cbn; by eexists.
Qed.

Lemma component_type_fits r V given k type :
  registry_ok r V given → type_fits (worldId r) V k type →
  component_type k type r = Ok (type_id type).
Proof. intros Hok H. by destruct (component_type_spec r V given k type Hok) as [[_ ?]|[? _]]. Qed.

(** Handles of free slots were not given before. *)
Lemma free_slot_fresh {T} world (s : ComponentStorage T) names slots gens
    (held : gmap string (handle * T)) rights i g h :
  type_ok world s names slots gens held rights →
  (∀ v, components s !! N.to_nat i ≠ Some (Some v)) →
  (gens ++ replicate (S (N.to_nat i) - length gens) 1) !! N.to_nat i = Some g → g ≠ 0 →
  given_ok world gens held h → h ≠ MkHandle world i g.
Proof.
  intros Hok Hvac Hg Hg0 (_ & _ & [(n & v & Hn)|(g' & Hg' & Hlt)]) ->; cbn in *.
  - apply (ty_held _ _ _ _ _ _ _ Hok) in Hn as (_ & _ & _ & Hv). by apply Hvac in Hv.
  - rewrite lookup_app_l in Hg by by eapply lookup_lt_Some. rewrite Hg in Hg'.
    injection Hg' as <-. lia.
Qed.

(** Giving a handle keeps what was given, whatever slots were added. *)
Lemma spent_app gens l h : spent gens h → spent (gens ++ l) h.
Proof.
  intros (g & Hg & H). exists g. split; [|done].
  rewrite lookup_app_l; [done|]. by eapply lookup_lt_Some.
Qed.

Lemma add_component_spec r V given vw type n (c : El (class vw)) :
  registry_ok r V given → type_fits (worldId r) V (class vw) type →
  V !! type_id type = Some vw →
  (∃ h r', add_component (class vw) type n c r = (Ok tt, r') ∧
     n ≠ "" ∧ held vw !! n = None ∧ ((type_id type, h) ∉ given) ∧ worldId r' = worldId r ∧
     registry_ok r' (<[type_id type := MkView (class vw) (<[n := (h, c)]> (held vw)) (rights vw)]> V)
       ((type_id type, h) :: given)) ∨
  (∃ msg, add_component (class vw) type n c r = (throw runtime_error msg, r)) ∧
    (n = "" ∨ is_Some (held vw !! n) ∨ MaxComponentSlots <= len given).
Proof.
  intros Hok Hfits HV. set (t := type_id type) in *. unfold add_component.
  destruct (bool_decide_reflect (n = "")) as [->|Hn0].
  { right. split; [by eexists|by left]. }
  rewrite (stm_bind_eq _ _ _ _ _ (sreject_if_false _ _ _)).
  rewrite (stm_bind_eq _ _ r r r) by done.
  rewrite (stm_bind_eq _ _ r t r)
    by (unfold slift; by rewrite (component_type_fits r V given)).
  destruct (registry_tables _ _ _ _ _ Hok HV) as (s & names & slots & gens & Er & Htype & Hgiven & Hlen).
  assert (set_componentNames (ensure t (componentNames r)) r = r) as Eens.
  { rewrite Er. unfold set_componentNames, ensure, updated. cbn.
    by rewrite lookup_insert_eq, insert_insert_eq. }
  rewrite (stm_bind_eq _ _ r tt r) by (unfold smodify; by rewrite Eens).
  rewrite (stm_bind_eq _ _ r r r) by done.
  assert (componentNames r !! t = Some names) as Ht by (rewrite Er; exact (lookup_insert_eq _ _ _)).
  rewrite Ht. cbn [mbind option_bind].
  destruct (bool_decide_reflect (is_Some (names !! n))) as [[h Hh]|Hnone].
  { right. split; [by eexists|]. right. left. destruct (name_held Htype _ _ Hh) as [v ->].
    by eexists. }
  rewrite (stm_bind_eq _ _ _ _ _ (sreject_if_false _ _ _)).
  assert (held vw !! n = None) as Hheld.
  { destruct (held vw !! n) as [[h v]|] eqn:E; [|done]. apply (held_name Htype) in E.
    destruct Hnone. by eexists. }
  destruct (storage_add_spec _ _ _ _ _ _ _ n c Htype Hheld)
    as [(i & s' & g & Hadd & Hg & Hg0 & Hvac & Hi & Htype')|([msg Hadd] & Hav & Hfull)].
  2:{ right. split; [|right; right; lia]. exists msg.
      unfold mbind at 1, stm_bind at 1.
      rewrite (tables_with_storage _ _ _ _ _ _ _ _ Er), Hadd. cbn. by rewrite <-Er. }
  left. set (gens' := gens ++ _) in *. set (h := MkHandle (worldId r) i g) in *.
  rewrite (stm_bind_eq _ _ _ i (updated r t (class vw) s' names slots gens))
    by (rewrite (tables_with_storage _ _ _ _ _ _ _ _ Er); by rewrite Hadd).
  rewrite (stm_bind_eq _ _ _ h (updated r t (class vw) s' names slots gens'))
    by by apply updated_make_slot_handle.
  assert (names !! n = None) as Hnames by by apply eq_None_not_Some.
  assert (slots !! h = None) as Hslots.
  { destruct (slots !! h) as [n'|] eqn:E; [|done].
    apply (ty_slots _ _ _ _ _ _ _ Htype) in E. destruct (name_held Htype _ _ E) as [v Hv].
    apply (ty_held _ _ _ _ _ _ _ Htype) in Hv as (_ & _ & _ & Hv). by apply Hvac in Hv. }
  exists h, (updated r t (class vw) s' (<[n := h]> names) (<[h := n]> slots) gens'). split.
  { unfold stry. rewrite (stm_bind_eq _ _ _ _ _ (updated_index_name r t (class vw) n h _ _ _ _ Hnames)).
    by rewrite updated_index_slot. }
  assert ((t, h) ∉ given) as Hfresh.
  { intros Hin. by destruct (free_slot_fresh _ _ _ _ _ _ _ i g h Htype Hvac Hg Hg0 (Hgiven h Hin)). }
  split; [done|]. split; [done|]. split; [done|]. split; [done|].
  pose proof (ty_length _ _ _ _ _ _ _ Htype') as Hlen'.
  pose proof (ty_length _ _ _ _ _ _ _ Htype) as Hlen0.
  apply (registry_ok_updated r V given t vw); try done.
  - intros p Hp. by right.
  - intros t' h' [[= -> ->]|Hin]%elem_of_cons; auto.
  - intros h' [[= ->]|Hin]%elem_of_cons.
    + split; [done|]. split; [done|]. left. exists n, c. apply lookup_insert_eq.
    + destruct (Hgiven h' Hin) as (Hw & Hg' & Hcase). split; [done|]. split; [done|].
      destruct Hcase as [(n' & v & Hn')|Hs]; [left|right; by apply spent_app].
      exists n', v. rewrite lookup_insert_ne; [done|]. intros <-. congruence.
  - rewrite len_cons. assert (length gens' <= S (length gens))%nat as Hgrow
      by (unfold gens'; rewrite length_app, length_replicate; lia).
    unfold len in *. lia.
  - rewrite len_cons. lia.
  - intros n' h' v. destruct (decide (n' = n)) as [->|Hne].
    + rewrite lookup_insert_eq. intros [= <- _]. left.
    + rewrite lookup_insert_ne by done. intros H. right.
      by eapply (en_given _ _ _ _ (rg_entry _ _ _ Hok _ _ HV)).
Qed.

(** A change of rights or values only. *)
Lemma registry_ok_changed r V given t vw s s' names slots gens held' rights' :
  registry_ok r V given → V !! t = Some vw → r = updated r t (class vw) s names slots gens →
  (∀ h, (t, h) ∈ given → given_ok (worldId r) gens (held vw) h) →
  len (components s) <= len given → length (components s') = length (components s) →
  fst <$> held' = fst <$> held vw →
  type_ok (worldId r) s' names slots gens held' rights' →
  registry_ok (updated r t (class vw) s' names slots gens)
    (<[t := MkView (class vw) held' rights']> V) given.
Proof.
  intros Hok HV Er Hgiven Hlen Elen Eheld Htype.
  assert (∀ n h, (∃ v, held' !! n = Some (h, v)) ↔ (∃ v, held vw !! n = Some (h, v))) as Hsame.
  { intros n h. assert ((fst <$> held') !! n = (fst <$> held vw) !! n) as E by by rewrite Eheld.
    rewrite !lookup_fmap in E.
    destruct (held' !! n) as [[]|], (held vw !! n) as [[]|]; cbn in E; naive_solver. }
  apply (registry_ok_updated r V given t vw); try done.
  - auto.
  - intros h Hin. destruct (Hgiven h Hin) as (Hw & Hg & Hcase). split; [done|]. split; [done|].
    destruct Hcase as [(n & Hn)|Hs]; [left|by right]. exists n. by apply Hsame.
  - unfold len in *. lia.
  - intros n h v Hn. destruct (proj1 (Hsame n h) ltac:(eauto)) as (v' & Hv').
    by eapply (en_given _ _ _ _ (rg_entry _ _ _ Hok _ _ HV)).
Qed.

Lemma spent_vector_set gens h i g :
  gens !! N.to_nat i = Some g → g ≠ 0 → spent gens h →
  spent (vector_set gens i (next_generation g)) h.
Proof.
  intros Hg Hg0 (g' & Hg' & H). unfold spent, vector_set.
  destruct (decide (N.to_nat (handle_slot h) = N.to_nat i)) as [E|E].
  - rewrite E in *. rewrite Hg in Hg'. injection Hg' as <-.
    rewrite list_lookup_insert_eq by by eapply lookup_lt_Some. eexists. split; [done|].
    unfold next_generation. destruct (N.eqb_spec g u32_max); [by left|right]. lia.
  - rewrite list_lookup_insert_ne by done. by exists g'.
Qed.

(** A removed component's handle is spent. *)
Lemma spent_removed gens h :
  gens !! N.to_nat (handle_slot h) = Some (handle_generation h) →
  spent (vector_set gens (handle_slot h) (next_generation (handle_generation h))) h.
Proof.
  intros Hg. unfold spent, vector_set. eexists.
  rewrite list_lookup_insert_eq by by eapply lookup_lt_Some. split; [done|].
  unfold next_generation. destruct (N.eqb_spec (handle_generation h) u32_max); [by left|right]. lia.
Qed.

(** The start of every operation on a named component. *)
Lemma named_start {A} r V given vw type n
    (body : ComponentRegistry El → N → handle → stm (ComponentRegistry El) A)
    (f : stm (ComponentRegistry El) A) :
  registry_ok r V given → type_fits (worldId r) V (class vw) type →
  V !! type_id type = Some vw →
  f = (r ← sget; typeId ← slift (component_type (class vw) type r);
       slot ← slift (named_slot typeId n r); body r typeId slot) →
  match held vw !! n with
  | None => f r = (throw runtime_error "component name not registered", r)
  | Some (h, _) => f r = body r (type_id type) h r
  end.
Proof.
  intros Hok Hfits HV ->. rewrite (stm_bind_eq _ _ r r r) by done.
  rewrite (stm_bind_eq _ _ r (type_id type) r)
    by (unfold slift; by rewrite (component_type_fits r V given)).
  destruct (registry_tables _ _ _ _ _ Hok HV) as (s & names & slots & gens & Er & Htype & _).
  assert (named_slot (type_id type) n r =
    match names !! n with
    | None => throw runtime_error "component name not registered"
    | Some slot => Ok slot
    end) as E by (rewrite Er at 1; apply updated_named_slot).
  unfold mbind, stm_bind, slift. rewrite E.
  rewrite (ty_names _ _ _ _ _ _ _ Htype), lookup_fmap.
  by destruct (held vw !! n) as [[h v]|].
Qed.

Lemma remove_component_spec r V given vw type n :
  registry_ok r V given → type_fits (worldId r) V (class vw) type →
  V !! type_id type = Some vw →
  match held vw !! n with
  | None => remove_component (class vw) type n r =
      (throw runtime_error "component name not registered", r)
  | Some _ => ∃ r', remove_component (class vw) type n r = (Ok tt, r') ∧
      worldId r' = worldId r ∧
      registry_ok r' (<[type_id type := MkView (class vw) (delete n (held vw))
        (filter (λ p, p.1.2 ≠ n) (rights vw))]> V) given
  end.
Proof.
  intros Hok Hfits HV. pose proof (named_start r V given vw type n _ (remove_component (class vw) type n)
    Hok Hfits HV eq_refl) as Hstart.
  destruct (held vw !! n) as [[h v]|] eqn:Hn; [|exact Hstart]. rewrite Hstart. clear Hstart.
  set (t := type_id type) in *.
  destruct (registry_tables _ _ _ _ _ Hok HV) as (s & names & slots & gens & Er & Htype & Hgiven & Hlen).
  pose proof (ty_held _ _ _ _ _ _ _ Htype _ _ _ Hn) as (Hw & Hg & Hg0 & _).
  destruct (storage_remove_spec _ _ _ _ _ _ _ _ _ _ Htype Hn) as (s' & Hrem & Htype').
  rewrite (stm_bind_eq _ _ r tt (updated r t (class vw) (removeAccessesTo h s) names slots gens))
    by by rewrite (tables_with_storage _ _ _ _ _ _ _ _ Er).
  rewrite (stm_bind_eq _ _ _ _ _ (eq_refl : sget _ = _)).
  rewrite (stm_bind_eq (slift (validate_slot _ _ _)) _ _ (handle_slot h) _
    ltac:(unfold slift; rewrite updated_validate_slot by done; reflexivity)).
  rewrite (stm_bind_eq _ _ _ _ _ (updated_advance r t (class vw) h _ _ _ _ Hw Hg0 Hg)).
  rewrite (stm_bind_eq _ _ _ tt _
    ltac:(rewrite updated_with_storage, Hrem; reflexivity)).
  set (gens' := vector_set gens _ _) in *. eexists. split.
  { unfold mbind, stm_bind, smodify, set_componentNames, set_slotNames, updated. cbn.
    rewrite !lookup_insert_eq, !insert_insert_eq. reflexivity. }
  split; [done|].
  apply (registry_ok_updated r V given t vw s' (delete n names) (delete h slots) gens'); try done.
  - auto.
  - intros h' Hin. destruct (Hgiven h' Hin) as (Hw' & Hg' & Hcase). split; [done|]. split; [done|].
    destruct Hcase as [(n' & v' & Hn')|Hs]; [|right; by eapply spent_vector_set].
    destruct (decide (n' = n)) as [->|Hne].
    + right. rewrite Hn in Hn'. injection Hn' as <- <-. by apply spent_removed.
    + left. exists n', v'. by rewrite lookup_delete_ne.
  - pose proof (ty_length _ _ _ _ _ _ _ Htype') as H1.
    pose proof (ty_length _ _ _ _ _ _ _ Htype) as H2. unfold gens' in H1.
    rewrite length_vector_set in H1. unfold len in *. lia.
  - intros n' h' v' [_ H]%lookup_delete_Some.
    by eapply (en_given _ _ _ _ (rg_entry _ _ _ Hok _ _ HV)).
Qed.

Lemma names_single {T} world (s : ComponentStorage T) names slots gens
    (held : gmap string (handle * T)) rights n h :
  type_ok world s names slots gens held rights → names !! n = Some h →
  ∀ n', names !! n' = Some h → n' = n.
Proof. intros Hok Hn n' H. by eapply (names_inj Hok). Qed.

Lemma grant_access_spec r V given vw type b n m :
  registry_ok r V given → type_fits (worldId r) V (class vw) type →
  V !! type_id type = Some vw →
  match held vw !! n with
  | None => grant_access (class vw) type b n m r =
      (throw runtime_error "component name not registered", r)
  | Some _ => ∃ r', grant_access (class vw) type b n m r = (Ok tt, r') ∧
      worldId r' = worldId r ∧
      registry_ok r' (<[type_id type := MkView (class vw) (held vw)
        (<[(b, n) := storage_access_mode m]> (rights vw))]> V) given
  end.
Proof.
  intros Hok Hfits HV.
  pose proof (named_start r V given vw type n _ (grant_access (class vw) type b n m)
    Hok Hfits HV eq_refl) as Hstart.
  destruct (held vw !! n) as [[h v]|] eqn:Hn; [|exact Hstart]. rewrite Hstart. clear Hstart.
  destruct (registry_tables _ _ _ _ _ Hok HV) as (s & names & slots & gens & Er & Htype & Hgiven & Hlen).
  rewrite (tables_with_storage _ _ _ _ _ _ _ _ Er). pose proof (held_name Htype _ _ _ Hn) as Hname.
  set (s1 := removeAccess b h s).
  assert (addAccess b (storage_access_mode m) h s1 = (Ok tt, set_accesses (<[b := default []
    (accesses s1 !! b) ++ [MkAccess (storage_access_mode m) h]]> (accesses s1)) s1)) as Hadd.
  { unfold addAccess. rewrite (stm_bind_eq _ _ s1 s1 s1) by done.
    assert (storage_has (handle_slot h) s1 = true) as -> by exact (held_has Htype _ _ _ Hn).
    by rewrite (stm_bind_eq _ _ _ _ _ (sreject_if_false _ _ _)). }
  rewrite (stm_bind_eq (smodify (removeAccess b h)) _ s tt s1) by done. rewrite Hadd. cbn [fst snd].
  eexists. split; [reflexivity|]. split; [done|].
  apply (registry_ok_changed r V given _ vw s); try done.
  apply (access_change _ s _ _ _ _ _ (rights vw)); try done.
  eapply access_ok_grant; [done|by eapply names_single|by apply (ty_access _ _ _ _ _ _ _ Htype)|done].
Qed.

Lemma revoke_access_spec r V given vw type b n :
  registry_ok r V given → type_fits (worldId r) V (class vw) type →
  V !! type_id type = Some vw →
  match held vw !! n with
  | None => revoke_access (class vw) type b n r =
      (throw runtime_error "component name not registered", r)
  | Some _ => ∃ r', revoke_access (class vw) type b n r = (Ok tt, r') ∧
      worldId r' = worldId r ∧
      registry_ok r' (<[type_id type := MkView (class vw) (held vw)
        (delete (b, n) (rights vw))]> V) given
  end.
Proof.
  intros Hok Hfits HV.
  pose proof (named_start r V given vw type n _ (revoke_access (class vw) type b n)
    Hok Hfits HV eq_refl) as Hstart.
  destruct (held vw !! n) as [[h v]|] eqn:Hn; [|exact Hstart]. rewrite Hstart. clear Hstart.
  destruct (registry_tables _ _ _ _ _ Hok HV) as (s & names & slots & gens & Er & Htype & Hgiven & Hlen).
  rewrite (tables_with_storage _ _ _ _ _ _ _ _ Er). pose proof (held_name Htype _ _ _ Hn) as Hname.
  cbn [fst snd smodify]. eexists. split; [reflexivity|]. split; [done|].
  apply (registry_ok_changed r V given _ vw s); try done.
  apply (access_change _ s _ _ _ _ _ (rights vw)); try done.
  eapply access_ok_revoke; [done|by eapply names_single|by apply (ty_access _ _ _ _ _ _ _ Htype)].
Qed.

Lemma replace_component_spec r V given vw type n (c : El (class vw)) :
  registry_ok r V given → type_fits (worldId r) V (class vw) type →
  V !! type_id type = Some vw →
  match held vw !! n with
  | None => replace_component (class vw) type n c r =
      (throw runtime_error "component name not registered", r)
  | Some (h, _) => ∃ r', replace_component (class vw) type n c r = (Ok tt, r') ∧
      worldId r' = worldId r ∧
      registry_ok r' (<[type_id type := MkView (class vw) (<[n := (h, c)]> (held vw))
        (rights vw)]> V) given
  end.
Proof.
  intros Hok Hfits HV.
  pose proof (named_start r V given vw type n _ (replace_component (class vw) type n c)
    Hok Hfits HV eq_refl) as Hstart.
  destruct (held vw !! n) as [[h v]|] eqn:Hn; [|exact Hstart]. rewrite Hstart. clear Hstart.
  destruct (registry_tables _ _ _ _ _ Hok HV) as (s & names & slots & gens & Er & Htype & Hgiven & Hlen).
  pose proof (ty_held _ _ _ _ _ _ _ Htype _ _ _ Hn) as (Hw & Hg & Hg0 & _).
  rewrite (stm_bind_eq _ _ r s r) by (unfold slift; rewrite Er at 1; by rewrite updated_storage).
  rewrite (stm_bind_eq _ _ r (handle_slot h) r)
    by (unfold slift; rewrite Er at 1; by rewrite updated_validate_slot).
  destruct (storage_replace_spec _ _ _ _ _ _ _ _ _ _ c Htype Hn) as (s' & Hrep & Htype').
  rewrite (tables_with_storage _ _ _ _ _ _ _ _ Er), Hrep. cbn [fst snd].
  eexists. split; [reflexivity|]. split; [done|].
  apply (registry_ok_changed r V given _ vw s); try done.
  - by rewrite <-(ty_length _ _ _ _ _ _ _ Htype), <-(ty_length _ _ _ _ _ _ _ Htype').
  - by rewrite <-(ty_names _ _ _ _ _ _ _ Htype'), <-(ty_names _ _ _ _ _ _ _ Htype).
Qed.

(** A slot that passes validation and is in use is the slot of a component. *)
Lemma current_held {T} world (s : ComponentStorage T) names slots gens
    (held : gmap string (handle * T)) rights h v :
  type_ok world s names slots gens held rights → handle_world h = world →
  gens !! N.to_nat (handle_slot h) = Some (handle_generation h) →
  storage_get (handle_slot h) s = Some v → ∃ n, held !! n = Some (h, v).
Proof.
  intros Hok Hw Hg Hv. unfold storage_get in Hv.
  destruct (components s !! N.to_nat (handle_slot h)) as [[v'|]|] eqn:E; [|done..].
  injection Hv as ->. destruct (ty_live _ _ _ _ _ _ _ Hok _ _ E) as (n & h' & Hn & Es).
  exists n. destruct (ty_held _ _ _ _ _ _ _ Hok _ _ _ Hn) as (Hw' & Hg' & _).
  rewrite Es, Hg in Hg'. injection Hg' as Hg'.
  assert (h' = h) as ->; [|done]. destruct h, h'. cbn in *. apply N2Nat.inj in Es. congruence.
Qed.

Lemma validate_slot_ok r V given t h i :
  registry_ok r V given → validate_slot t h r = Ok i →
  i = handle_slot h ∧ handle_world h = worldId r ∧ handle_generation h ≠ 0 ∧
  ∃ vw gens, V !! t = Some vw ∧ slotGenerations r !! t = Some gens ∧
    gens !! N.to_nat (handle_slot h) = Some (handle_generation h).
Proof.
  intros Hok. unfold validate_slot, slot_is_current.
  destruct (N.eqb_spec (handle_generation h) 0) as [|Hg]; [done|].
  destruct (N.eqb_spec (handle_world h) (worldId r)) as [Hw|]; [|done]. cbn [orb negb].
  destruct (slotGenerations r !! t) as [gens|] eqn:E; [|done].
  destruct (bool_decide_reflect (gens !! N.to_nat (handle_slot h) = Some (handle_generation h)))
    as [Hc|]; [|done]. cbn. intros [= <-]. split_and!; try done.
  destruct (V !! t) as [vw|] eqn:HV; [by exists vw, gens|].
  destruct (rg_absent _ _ _ Hok t HV) as (_ & _ & _ & ? & _). congruence.
Qed.

Lemma replace_component_value_spec r V given t h v :
  registry_ok r V given →
  match replace_component_value t h v r with
  | (Ok canonical, r') => canonical = v ∧ worldId r' = worldId r ∧
      encode_component_slot t h r' = Ok v ∧
      ∃ vw n old c, V !! t = Some vw ∧ held vw !! n = Some (h, old) ∧
        registry_ok r' (<[t := MkView (class vw) (<[n := (h, c)]> (held vw)) (rights vw)]> V) given
  | (Err _, r') => r' = r
  end.
Proof.
  intros Hok. unfold replace_component_value. rewrite (stm_bind_eq _ _ r r r) by done.
  unfold mbind at 1, stm_bind at 1, slift at 1.
  destruct (validate_slot t h r) as [i|e] eqn:Hvs; [|done].
  destruct (validate_slot_ok _ _ _ _ _ _ Hok Hvs) as (-> & Hw & Hg0 & vw & gens & HV & Egens & Hg).
  destruct (codecs r !! t) as [[k codec]|] eqn:Hcodec; [|done].
  assert (k = class vw) as -> by by apply (en_codec _ _ _ _ (rg_entry _ _ _ Hok _ _ HV)) in Hcodec.
  destruct (registry_tables _ _ _ _ _ Hok HV) as (s & names & slots & gens' & Er & Htype & Hgiven & Hlen).
  assert (gens' = gens) as ->.
  { rewrite Er in Egens. unfold updated in Egens. cbn in Egens.
    rewrite lookup_insert_eq in Egens. by injection Egens. }
  assert (storages r !! t = Some (existT (class vw) s)) as Hs
    by (rewrite Er; exact (lookup_insert_eq _ _ _)).
  rewrite Hs. destruct (decode_canonical codec v) as [[c canonical]|e] eqn:Hdec; [|done].
  rewrite (stm_bind_eq _ _ r (c, canonical) r) by done. cbn iota beta.
  rewrite (stm_bind_eq _ _ r s r)
    by (unfold slift, cast_storage; by rewrite dynamic_cast_same).
  destruct (storage_get (handle_slot h) s) as [old|] eqn:Hget.
  2:{ assert (storage_replace (handle_slot h) c s =
        (throw runtime_error "component slot removed", s)) as Hfail.
      { unfold storage_replace. rewrite (stm_bind_eq _ _ s s s) by done.
        unfold storage_has. by rewrite Hget. }
      unfold mbind at 1, stm_bind at 1. rewrite (tables_with_storage _ _ _ _ _ _ _ _ Er), Hfail.
      cbn [fst snd]. by rewrite <-Er. }
  destruct (current_held _ _ _ _ _ _ _ _ _ Htype Hw Hg Hget) as [n Hn].
  destruct (storage_replace_spec _ _ _ _ _ _ _ _ _ _ c Htype Hn) as (s' & Hrep & Htype').
  rewrite (stm_bind_eq _ _ r tt (updated r t (class vw) s' names slots gens))
    by (by rewrite (tables_with_storage _ _ _ _ _ _ _ _ Er), Hrep).
  cbn [mret stm_ret].
  assert (canonical = v ∧ codec_encode codec c = Ok v ∧ validate v = Ok tt) as (-> & Henc & Hval).
  { unfold decode_canonical in Hdec. destruct (validate v) as [[]|] eqn:Hv; [|done]. cbn in Hdec.
    destruct (codec_decode codec v); [|done]. cbn in Hdec.
    destruct (codec_encode codec _) as [again|] eqn:Hagain; [|done]. cbn in Hdec.
    destruct (validate again); [|done]. cbn in Hdec. unfold value_eqb in Hdec.
    destruct (bool_decide_reflect (again = v)) as [->|]; [|done]. cbn in Hdec.
    by injection Hdec as <- <-. }
  split; [done|]. split; [done|]. split.
  - unfold encode_component_slot. rewrite updated_validate_slot by done. cbn [mbind res_bind].
    cbn [codecs storages updated]. rewrite Hcodec, lookup_insert_eq. unfold cast_storage.
    rewrite dynamic_cast_same. cbn [mbind res_bind]. unfold encode_slot, storage_at.
    pose proof (ty_held _ _ _ _ _ _ _ Htype' n h c ltac:(apply lookup_insert_eq)) as (_ & _ & _ & ->).
    cbn. rewrite Henc. cbn. by rewrite Hval.
  - exists vw, n, old, c. split; [done|]. split; [done|].
    apply (registry_ok_changed r V given t vw s); try done.
    + by rewrite <-(ty_length _ _ _ _ _ _ _ Htype), <-(ty_length _ _ _ _ _ _ _ Htype').
    + by rewrite <-(ty_names _ _ _ _ _ _ _ Htype'), <-(ty_names _ _ _ _ _ _ _ Htype).
Qed.

(** *** Registration, behaviours, codecs *)

Definition forget (b : handle) (vw : type_view) : type_view :=
  MkView (class vw) (held vw) (filter (λ p, p.1.1 ≠ b) (rights vw)).

Lemma remove_behavior_spec r V given b :
  registry_ok r V given → registry_ok (remove_behavior b r) (forget b <$> V) given.
Proof.
  intros [Hnext Htypes Hcount Hnames Habsent Hentry Hg]. split; cbn; try done.
  - intros t. by rewrite lookup_fmap, fmap_is_Some.
  - intros t. rewrite !lookup_fmap. intros HV%fmap_None. rewrite fmap_None. by apply Habsent.
  - intros t vw'. rewrite lookup_fmap. intros (vw & HV & ->)%fmap_Some.
    destruct (Hentry _ _ HV) as [(s & names & slots & gens & H1 & H2 & H3 & H4 & H5 & H6 & H7) ? ? ? ?].
    split; cbn; try done. exists (removeAccessesOf b s), names, slots, gens.
    rewrite lookup_fmap, H1. split_and!; try done.
    apply (access_change _ s _ _ _ _ _ (rights vw)); try done.
    apply access_ok_forget, (ty_access _ _ _ _ _ _ _ H5).
  - intros t h Hin. rewrite lookup_fmap, fmap_is_Some. by eapply Hg.
Qed.

Lemma register_component_storage_spec r V given k name :
  registry_ok r V given →
  match register_component_storage k name r with
  | (Ok type, r') => type = MkComponentType (nextComponentType r) (worldId r) 1 ∧
      V !! type_id type = None ∧ worldId r' = worldId r ∧
      componentTypes r' = <[name := type_id type]> (componentTypes r) ∧
      codecs r' = codecs r ∧ effectCodecs r' = effectCodecs r ∧
      registry_ok r' (<[type_id type := MkView k ∅ ∅]> V) given
  | (Err _, r') => r' = r ∧ (name = "" ∨ is_Some (componentTypes r !! name) ∨
      nextComponentType r = MaxComponentTypes)
  end.
Proof.
  intros Hok. pose proof Hok as [Hnext Htypes Hcount Hnames Habsent Hentry Hg].
  unfold register_component_storage.
  destruct (bool_decide_reflect (name = "")) as [->|Hn0]; [split; [done|by left]|].
  rewrite (stm_bind_eq _ _ _ _ _ (sreject_if_false _ _ _)), (stm_bind_eq _ _ r r r) by done.
  destruct (bool_decide_reflect (is_Some (componentTypes r !! name))) as [|Hnew];
    [split; [done|by right; left]|].
  rewrite (stm_bind_eq _ _ _ _ _ (sreject_if_false _ _ _)).
  destruct (N.leb_spec MaxComponentTypes (nextComponentType r)) as [Hmax|Hroom];
    [split; [done|right; right; lia]|].
  rewrite (stm_bind_eq _ _ _ _ _ (sreject_if_false _ _ _)).
  set (t := nextComponentType r). assert (V !! t = None) as HV.
  { destruct (V !! t) eqn:E; [|done]. assert (t < nextComponentType r) by (apply Htypes; by rewrite E).
    unfold t in *. lia. }
  destruct (Habsent t HV) as (E1 & E2 & E3 & E4 & E5 & E6 & E7).
  rewrite E1, E2, E3, !bool_decide_eq_false_2 by by intros [].
  unfold emplace. rewrite E4, E5. cbn. split_and!; try done.
  split; cbn; try done.
  - change MaxComponentTypes with 64 in *. lia.
  - intros t'. rewrite lookup_insert_is_Some'. rewrite Htypes. unfold t. split; [intros [<-|]; lia|].
    intros Hlt. destruct (decide (t' = nextComponentType r)) as [->|]; [by left|right; lia].
  - rewrite len_snoc. unfold t. lia.
  - intros n t'. assert (N.to_nat t = length (typeNames r)) as Et by (unfold t, len in *; lia).
    destruct (decide (n = name)) as [->|Hne].
    + rewrite lookup_insert_eq. split.
      * intros [= <-]. rewrite Et. apply list_lookup_middle. done.
      * intros [H|[Hle H]]%lookup_app_Some.
        -- apply Hnames in H. destruct Hnew. by eexists.
        -- apply lookup_lt_Some in H as Hlt. cbn in Hlt. f_equal. unfold t, len in *. lia.
    + rewrite lookup_insert_ne by done. rewrite Hnames. split.
      * intros H. by rewrite lookup_app_l by by eapply lookup_lt_Some.
      * intros [H|[Hle H]]%lookup_app_Some; [done|].
        apply list_lookup_singleton_Some in H as [_ H]. congruence.
  - intros t' H. apply lookup_insert_None in H as [H Hne].
    rewrite !lookup_insert_ne by done. by apply Habsent.
  - intros t' vw' H. destruct (decide (t' = t)) as [->|Hne].
    + rewrite lookup_insert_eq in H. injection H as <-. split; cbn.
      * exists new_ComponentStorage, ∅, ∅, []. rewrite !lookup_insert_eq. split_and!; try done.
        -- apply new_type_ok.
        -- intros h Hin. apply Hg in Hin. rewrite HV in Hin. by destruct Hin.
        -- cbn. rewrite len_nil. lia.
      * done.
      * rewrite lookup_insert_eq. by eexists.
      * intros p Hp. congruence.
      * intros p Hp. congruence.
    + rewrite lookup_insert_ne in H by done. destruct (Hentry _ _ H) as [Htab ? Hsch ? ?].
      split; cbn; try done.
      * by rewrite !lookup_insert_ne.
      * by rewrite lookup_insert_ne.
  - intros t' h Hin. apply Hg in Hin. rewrite lookup_insert_is_Some'. by right.
Qed.

Lemma registry_ok_codecs r r' V given :
  registry_ok r V given →
  worldId r' = worldId r → nextComponentType r' = nextComponentType r →
  componentTypes r' = componentTypes r → typeNames r' = typeNames r →
  storages r' = storages r → componentNames r' = componentNames r →
  slotNames r' = slotNames r → slotGenerations r' = slotGenerations r →
  (∀ t, is_Some (schemas r' !! t) ↔ is_Some (schemas r !! t)) →
  (∀ t p, codecs r' !! t = Some p → codecs r !! t = Some p ∨
     ∃ vw, V !! t = Some vw ∧ projT1 p = class vw) →
  (∀ t p, effectCodecs r' !! t = Some p → effectCodecs r !! t = Some p ∨
     ∃ vw, V !! t = Some vw ∧ projT1 p = class vw) →
  registry_ok r' V given.
Proof.
  intros [Hnext Htypes Hcount Hnames Habsent Hentry Hg] E1 E2 E3 E4 E5 E6 E7 E8 Hsch Hcod Heff.
  split; rewrite ?E2, ?E3, ?E4; try done.
  - intros t HV. destruct (Habsent t HV) as (A1 & A2 & A3 & A4 & A5 & A6 & A7).
    rewrite E5, E6, E7, E8. split_and!; try done.
    + apply eq_None_not_Some. rewrite Hsch, A5. by intros [].
    + destruct (codecs r' !! t) as [p|] eqn:E; [|done]. apply Hcod in E as [|(vw & ? & _)]; congruence.
    + destruct (effectCodecs r' !! t) as [p|] eqn:E; [|done].
      apply Heff in E as [|(vw & ? & _)]; congruence.
  - intros t vw HV. destruct (Hentry t vw HV) as [Htab Hgiv Hs Hc He].
    split; rewrite ?E1, ?E5, ?E6, ?E7, ?E8; try done.
    + by apply Hsch.
    + intros p [Hp|(vw' & HV' & E)]%Hcod; [by apply Hc|congruence].
    + intros p [Hp|(vw' & HV' & E)]%Heff; [by apply He|congruence].
Qed.

Lemma register_component_spec r V given k name version encode decode :
  registry_ok r V given →
  match register_component k name version encode decode r with
  | (Ok type, r') => type = MkComponentType (nextComponentType r) (worldId r) 1 ∧
      V !! type_id type = None ∧ worldId r' = worldId r ∧
      componentTypes r' = <[name := type_id type]> (componentTypes r) ∧
      registry_ok r' (<[type_id type := MkView k ∅ ∅]> V) given
  | (Err _, r') => r' = r ∧ (version = 0 ∨ encode = None ∨ decode = None ∨ name = "" ∨
      is_Some (componentTypes r !! name) ∨ nextComponentType r = MaxComponentTypes)
  end.
Proof.
  intros Hok. unfold register_component.
  destruct (N.eqb_spec version 0) as [->|Hv]; [split; [done|by left]|].
  rewrite (stm_bind_eq _ _ _ _ _ (sreject_if_false _ _ _)).
  destruct encode as [encode|]; [|split; [done|auto]].
  destruct decode as [decode|]; [|split; [done|auto]].
  pose proof (register_component_storage_spec r V given k name Hok) as H.
  unfold mbind at 1, stm_bind at 1.
  destruct (register_component_storage k name r) as [[type|e] r1].
  2:{ destruct H as [-> H]. split; [done|]. auto. }
  destruct H as (-> & HV & Hw & Hct & Hc & He & Hok1). set (t := nextComponentType r) in *.
  cbn. split_and!; try done.
  apply (registry_ok_codecs r1); try done.
  - intros t'. cbn. destruct (decide (t' = t)) as [->|Hne].
    + rewrite lookup_alter_eq. by rewrite fmap_is_Some.
    + by rewrite lookup_alter_ne.
  - intros t' p. cbn. unfold emplace. destruct (codecs r1 !! t) eqn:Et; [by left|].
    destruct (decide (t' = t)) as [->|Hne].
    + rewrite lookup_insert_eq. intros [= <-]. right. eexists. by rewrite lookup_insert_eq.
    + rewrite lookup_insert_ne by done. by left.
  - intros t' p H. by left.
Qed.

Lemma register_effect_codec_spec r V given k type route encode decode :
  registry_ok r V given →
  match register_effect_codec k type route encode decode r with
  | (Ok _, r') => worldId r' = worldId r ∧ componentTypes r' = componentTypes r ∧
      registry_ok r' V given
  | (Err _, r') => r' = r
  end.
Proof.
  intros Hok. unfold register_effect_codec. rewrite (stm_bind_eq _ _ r r r) by done.
  unfold mbind at 1, stm_bind at 1, slift at 1.
  destruct (component_type_spec r V given k type Hok) as [[[_ (vw & HV & Hk)] ->]|[_ [msg ->]]]; [|done].
  destruct encode as [encode|]; [|done]. destruct decode as [decode|]; [|done].
  destruct (bool_decide (is_Some (effectCodecs r !! type_id type))); [done|].
  rewrite (stm_bind_eq _ _ _ _ _ (sreject_if_false _ _ _)).
  unfold mbind at 1, stm_bind at 1, slift at 1.
  destruct (component_codec k type r) as [codec|e]; [|done].
  split; [done|]. split; [done|]. apply (registry_ok_codecs r); try done.
  - intros t p H. by left.
  - intros t p. cbn. destruct (decide (t = type_id type)) as [->|Hne].
    + rewrite lookup_insert_eq. intros [= <-]. right. by exists vw.
    + rewrite lookup_insert_ne by done. by left.
Qed.

Lemma new_components_ok world : registry_ok (new_ComponentRegistry world) ∅ [].
Proof.
  split; cbn; try done.
  - intros t. rewrite lookup_empty. split; [by intros []|lia].
  - intros t h Hin. by apply elem_of_nil in Hin.
Qed.

(** *** Queries *)

Lemma registry_slots r V given t vw h :
  registry_ok r V given → V !! t = Some vw →
  (∀ n v, held vw !! n = Some (h, v) →
     validate_slot t h r = Ok (handle_slot h) ∧ component_name t h r = Ok n ∧
     component_matches t n h r = true) ∧
  ((t, h) ∈ given → (∀ n v, held vw !! n ≠ Some (h, v)) →
     ∃ msg, validate_slot t h r = throw runtime_error msg).
Proof.
  intros Hok HV.
  destruct (registry_tables _ _ _ _ _ Hok HV) as (s & names & slots & gens & Er & Htype & Hgiven & _).
  split.
  - intros n v Hn. destruct (ty_held _ _ _ _ _ _ _ Htype _ _ _ Hn) as (Hw & Hg & Hg0 & _).
    pose proof (held_name Htype _ _ _ Hn) as Hname.
    assert (validate_slot t h r = Ok (handle_slot h)) as Hvs
      by (rewrite Er; by apply updated_validate_slot).
    split; [done|]. unfold component_name, component_matches. rewrite Hvs. cbn.
    assert (slotNames r !! t = Some slots ∧ componentNames r !! t = Some names) as [-> ->]
      by (rewrite Er; cbn; by rewrite !lookup_insert_eq).
    rewrite (proj2 (ty_slots _ _ _ _ _ _ _ Htype h n)) by done. split; [done|].
    cbn. by apply bool_decide_eq_true_2.
  - intros Hin Hno. destruct (Hgiven h Hin) as (Hw & Hg0 & [(n & v & Hn)|(g & Hg & Hlt)]).
    + by destruct (Hno n v).
    + rewrite Er. apply updated_stale_slot; [done|]. rewrite Hg. intros [= ->]. lia.
Qed.
End Registry.
