(* ===== verification/ComponentRuns.v ===== *)
(** * Runs of the component registry
    (include/liquid/detail/ComponentRegistry.hpp, src/ComponentRegistry.cpp)

    What the registry promises, as steps on a view of its types, and the proof
    that every run of its operations implements it and that its queries answer
    from the view. *)
From S2P Require Import Prelude OrderedMap Values Effects Ids Components ComponentSpec.

Section Runs.
Context {K : Type} `{EqDecision K} {El : K → Type}.
Implicit Types (r : ComponentRegistry El) (V : gmap N (@type_view K El))
  (vw : @type_view K El) (G : list (N * handle)).

(** ** Queries *)

(** What a mode allows. *)
Definition mode_allows (wanted m : Mode) : bool :=
  bool_decide (m = wanted) || bool_decide (m = Mode_rw).

Record answers r V G : Prop := {
  an_get k type n vw : type_fits (worldId r) V k type → V !! type_id type = Some vw →
    get_component_named (class vw) type n r = match held vw !! n with
      | Some (_, v) => Ok (Some v)
      | None => throw runtime_error "component name not registered"
      end;
  an_slot k type n vw : type_fits (worldId r) V k type → V !! type_id type = Some vw →
    component_slot (class vw) type n r = match held vw !! n with
      | Some (h, _) => Ok h
      | None => throw runtime_error "component name not registered"
      end;
  an_resolve type h vw n v : type_fits (worldId r) V (class vw) type →
    V !! type_id type = Some vw → held vw !! n = Some (h, v) →
    resolve_component (class vw) type h r = Ok (Some v) ∧
    component_name (type_id type) h r = Ok n;
  an_stale k type h : (type_id type, h) ∈ G →
    (∀ vw n v, V !! type_id type = Some vw → held vw !! n ≠ Some (h, v)) →
    ∃ msg, resolve_component k type h r = throw runtime_error msg;
  an_access wanted type b n vw : type_fits (worldId r) V (class vw) type →
    V !! type_id type = Some vw →
    can_access_named wanted (class vw) type b n r = Ok match rights vw !! (b, n) with
      | Some m => mode_allows wanted m
      | None => false
      end;
  an_components type b vw : type_fits (worldId r) V (class vw) type →
    V !! type_id type = Some vw →
    ∃ available, get_components (class vw) type b r = Ok available ∧
      ∀ n h, available !! n = Some h ↔
        (∃ v, held vw !! n = Some (h, v)) ∧ is_Some (rights vw !! (b, n));
  an_misfit k type : ¬ type_fits (worldId r) V k type →
    (∀ n, ∃ msg, get_component_named k type n r = throw runtime_error msg) ∧
    (∀ h, ∃ msg, resolve_component k type h r = throw runtime_error msg) ∧
    (∀ wanted b n, can_access_named wanted k type b n r = Ok false)
}.

Lemma type_fits_class V world k type vw :
  type_fits world V k type → V !! type_id type = Some vw → k = class vw.
Proof. intros [_ (vw' & H & <-)] HV. by simplify_eq. Qed.

Section Answers.
Context {r : ComponentRegistry El} {V G}.
Hypothesis Hok : registry_ok r V G.

(** The tables behind a type handle that fits. *)
Lemma query_tables type vw :
  type_fits (worldId r) V (class vw) type → V !! type_id type = Some vw →
  component_type (class vw) type r = Ok (type_id type) ∧
  ∃ s names slots gens, component_storage (class vw) (type_id type) r = Ok s ∧
    componentNames r !! type_id type = Some names ∧ slotNames r !! type_id type = Some slots ∧
    type_ok (worldId r) s names slots gens (held vw) (rights vw).
Proof.
  intros Hfits HV. split; [by eapply component_type_fits|].
  destruct (registry_tables _ _ _ _ _ Hok HV) as (s & names & slots & gens & Er & Htype & _).
  exists s, names, slots, gens. split; [rewrite Er; apply updated_storage|].
  split; [rewrite Er; exact (lookup_insert_eq _ _ _)|].
  split; [rewrite Er; exact (lookup_insert_eq _ _ _)|done].
Qed.

Lemma query_named type vw n names :
  componentNames r !! type_id type = Some names → names = fst <$> held vw →
  named_slot (type_id type) n r = match held vw !! n with
    | Some (h, _) => Ok h
    | None => throw runtime_error "component name not registered"
    end.
Proof.
  intros E ->. unfold named_slot. rewrite E, lookup_fmap. by destruct (held vw !! n) as [[]|].
Qed.

Lemma query_get type vw n :
  type_fits (worldId r) V (class vw) type → V !! type_id type = Some vw →
  get_component_named (class vw) type n r = match held vw !! n with
    | Some (_, v) => Ok (Some v)
    | None => throw runtime_error "component name not registered"
    end.
Proof.
  intros Hfits HV. destruct (query_tables type vw Hfits HV)
    as (Et & s & names & slots & gens & Es & En & _ & Htype).
  unfold get_component_named. rewrite Et. cbn [mbind res_bind].
  rewrite (query_named type vw n names En (ty_names _ _ _ _ _ _ _ Htype)).
  destruct (held vw !! n) as [[h v]|] eqn:Hn; [|done]. cbn [mbind res_bind]. rewrite Es.
  destruct (registry_slots r V G (type_id type) vw h Hok HV) as [Hs _].
  destruct (Hs n v Hn) as [-> _]. cbn. f_equal. by eapply (held_get Htype).
Qed.

Lemma query_resolve type h vw n v :
  type_fits (worldId r) V (class vw) type → V !! type_id type = Some vw →
  held vw !! n = Some (h, v) →
  resolve_component (class vw) type h r = Ok (Some v) ∧ component_name (type_id type) h r = Ok n.
Proof.
  intros Hfits HV Hn. destruct (query_tables type vw Hfits HV)
    as (Et & s & names & slots & gens & Es & _ & _ & Htype).
  destruct (registry_slots r V G (type_id type) vw h Hok HV) as [Hs _].
  destruct (Hs n v Hn) as (Hvs & Hname & _). split; [|done].
  unfold resolve_component. rewrite Et. cbn [mbind res_bind]. rewrite Es. cbn [mbind res_bind].
  rewrite Hvs. cbn. f_equal. by eapply (held_get Htype).
Qed.

Lemma query_misfit {A} k type (f : N → res A) :
  ¬ type_fits (worldId r) V k type →
  ∃ msg, (component_type k type r ≫= f) = throw runtime_error msg.
Proof.
  intros Hno. destruct (component_type_spec r V G k type Hok) as [[? _]|[_ [msg ->]]]; [done|].
  by exists msg.
Qed.

Lemma query_stale k type h :
  (type_id type, h) ∈ G →
  (∀ vw n v, V !! type_id type = Some vw → held vw !! n ≠ Some (h, v)) →
  ∃ msg, resolve_component k type h r = throw runtime_error msg.
Proof.
  intros Hin Hno. unfold resolve_component.
  destruct (component_type_spec r V G k type Hok) as [[Hfits ->]|[_ [msg ->]]]; [|by exists msg].
  pose proof Hfits as [_ (vw & HV & <-)]. cbn [mbind res_bind].
  destruct (query_tables type vw Hfits HV) as (_ & s & _ & _ & _ & -> & _).
  cbn [mbind res_bind]. destruct (registry_slots r V G (type_id type) vw h Hok HV) as [_ Hs].
  destruct (Hs Hin) as [msg ->]; [by intros; apply Hno|]. by exists msg.
Qed.

Lemma single_mode (l : list ComponentSlotAccess) h m m' :
  NoDup (access_slot <$> l) → MkAccess m h ∈ l → MkAccess m' h ∈ l → m = m'.
Proof.
  intros Hnd H H'. induction l as [|a l IH]; [by apply elem_of_nil in H|].
  apply NoDup_cons in Hnd as [Ha Hnd]. apply elem_of_cons in H as [<-|H];
    apply elem_of_cons in H' as [E|H'].
  - by injection E.
  - destruct Ha. apply list_elem_of_fmap. by exists (MkAccess m' h).
  - subst a. destruct Ha. apply list_elem_of_fmap. by exists (MkAccess m h).
  - by apply IH.
Qed.

Lemma query_access_slot wanted type b n vw h (v : El (class vw)) :
  type_fits (worldId r) V (class vw) type → V !! type_id type = Some vw →
  held vw !! n = Some (h, v) →
  can_access_slot wanted (class vw) type b h r = Ok match rights vw !! (b, n) with
    | Some m => mode_allows wanted m
    | None => false
    end.
Proof.
  intros Hfits HV Hn. destruct (query_tables type vw Hfits HV)
    as (Et & s & names & slots & gens & Es & En & _ & Htype).
  pose proof (ty_access _ _ _ _ _ _ _ Htype) as [Hcur Hsingle _ Hrights].
  unfold can_access_slot. rewrite Et. cbn [mbind res_bind]. rewrite Es.
  cbn [mbind res_bind]. destruct (registry_slots r V G (type_id type) vw h Hok HV) as [Hs _].
  destruct (Hs n v Hn) as [-> _]. cbn. f_equal. change (default [] (accesses s !! b)) with (rights_of s b).
  pose proof (held_name Htype _ _ _ Hn) as Hname.
  destruct (rights vw !! (b, n)) as [m|] eqn:Hm.
  - apply Hrights in Hm as (h' & Hh' & Ha). assert (h' = h) as -> by congruence.
    unfold mode_allows. destruct (existsb _ _) eqn:Hex; symmetry.
    + apply existsb_exists in Hex as ([m' h'] & Hin & Hal). apply list_elem_of_In in Hin.
      unfold access_allows in Hal. cbn in Hal. apply andb_true_iff in Hal as [E Hal].
      apply bool_decide_eq_true in E as ->. by rewrite (single_mode _ _ _ _ (Hsingle b) Ha Hin).
    + destruct (bool_decide (m = wanted) || bool_decide (m = Mode_rw)) eqn:Hal; [|done].
      rewrite <-Hex. symmetry. apply existsb_exists. exists (MkAccess m h).
      apply list_elem_of_In in Ha. split; [done|]. unfold access_allows. cbn.
      by rewrite bool_decide_eq_true_2.
  - destruct (existsb _ _) eqn:Hex; [|done]. exfalso.
    apply existsb_exists in Hex as ([m' h'] & Hin & Hal). apply list_elem_of_In in Hin.
    unfold access_allows in Hal. cbn in Hal. apply andb_true_iff in Hal as [E _].
    apply bool_decide_eq_true in E as ->.
    assert (rights vw !! (b, n) = Some m') as E' by (apply Hrights; by exists h). congruence.
Qed.

Lemma query_access wanted type b n vw :
  type_fits (worldId r) V (class vw) type → V !! type_id type = Some vw →
  can_access_named wanted (class vw) type b n r = Ok match rights vw !! (b, n) with
    | Some m => mode_allows wanted m
    | None => false
    end.
Proof.
  intros Hfits HV. destruct (query_tables type vw Hfits HV)
    as (Et & s & names & slots & gens & _ & En & _ & Htype).
  unfold can_access_named. rewrite Et. cbn [mbind res_bind].
  rewrite (query_named type vw n names En (ty_names _ _ _ _ _ _ _ Htype)).
  destruct (held vw !! n) as [[h v]|] eqn:Hn.
  - cbn [mbind res_bind]. rewrite (query_access_slot wanted type b n vw h v Hfits HV Hn).
    done.
  - pose proof (ty_access _ _ _ _ _ _ _ Htype) as [_ _ _ Hrights]. cbn.
    destruct (rights vw !! (b, n)) as [m|] eqn:Hm; [|done].
    apply Hrights in Hm as (h & Hh & _). destruct (name_held Htype _ _ Hh). congruence.
Qed.

(** A right is a right to a component. *)
Lemma rights_held t vw b n m :
  V !! t = Some vw → rights vw !! (b, n) = Some m → is_Some (held vw !! n).
Proof.
  intros HV Hm. destruct (registry_tables _ _ _ _ _ Hok HV) as (s & names & slots & gens & Er & Htype & _).
  pose proof (ty_access _ _ _ _ _ _ _ Htype) as [_ _ _ Hrights].
  destruct (proj1 (Hrights b n m) Hm) as (h & Hh & _).
  destruct (name_held Htype _ _ Hh) as (v & Hv). by exists (h, v).
Qed.

(** The behaviours with some right to a type. *)
Lemma query_affected type vw :
  type_fits (worldId r) V (class vw) type → V !! type_id type = Some vw →
  ∃ affected, behaviors_with_access (class vw) type r = Ok affected ∧ NoDup affected ∧
    ∀ b, b ∈ affected ↔ ∃ n m, rights vw !! (b, n) = Some m.
Proof.
  intros Hfits HV. destruct (query_tables type vw Hfits HV)
    as (Et & s & names & slots & gens & Es & En & _ & Htype).
  pose proof (ty_access _ _ _ _ _ _ _ Htype) as [Hcur _ Hne Hrights].
  unfold behaviors_with_access. rewrite Et. cbn [mbind res_bind]. rewrite Es. cbn [mbind res_bind].
  eexists. split; [done|]. split; [apply NoDup_ordered|]. intros b.
  rewrite elem_of_ordered, elem_of_dom. unfold is_Some. setoid_rewrite map_lookup_filter_Some.
  cbn [snd]. split.
  - intros (l & Hl & Hl0). destruct l as [|a l]; [done|].
    assert (a ∈ rights_of s b) as Ha by (unfold rights_of; rewrite Hl; left).
    destruct (Hcur b a Ha) as (n & Hn). exists n, (mode a). apply Hrights.
    exists (access_slot a). split; [done|]. by destruct a.
  - intros (n & m & Hm). apply Hrights in Hm as (h & _ & Ha). unfold rights_of in Ha.
    destruct (accesses s !! b) as [l|]; [|by apply elem_of_nil in Ha].
    exists l. split; [done|]. intros ->. by apply elem_of_nil in Ha.
Qed.

(** What resolves is a component of the type. *)
Lemma query_resolved k type h v :
  resolve_component k type h r = Ok (Some v) →
  type_fits (worldId r) V k type ∧
  ∃ vw n v', V !! type_id type = Some vw ∧ class vw = k ∧ held vw !! n = Some (h, v').
Proof.
  unfold resolve_component. intros Hr.
  destruct (component_type_spec r V G k type Hok) as [[Hfits E]|[_ [msg E]]]; rewrite E in Hr;
    [|discriminate Hr].
  split; [done|]. pose proof Hfits as [_ (vw & HV & <-)]. cbn [mbind res_bind] in Hr.
  destruct (registry_tables _ _ _ _ _ Hok HV) as (s & names & slots & gens & Er & Htype & _).
  assert (component_storage (class vw) (type_id type) r = Ok s) as Es
    by (rewrite Er; apply updated_storage).
  rewrite Es in Hr. cbn [mbind res_bind] in Hr.
  destruct (validate_slot (type_id type) h r) as [i|e] eqn:Ev; [|discriminate Hr].
  destruct (validate_slot_ok r V G _ _ _ Hok Ev) as (-> & Hw & _ & vw' & gens' & HV' & Eg & Hg).
  cbn in Hr. injection Hr as Hr.
  assert (slotGenerations r !! type_id type = Some gens) as Eg'
    by (rewrite Er; exact (lookup_insert_eq _ _ _)).
  assert (gens' = gens) as -> by congruence.
  destruct (current_held _ _ _ _ _ _ _ _ _ Htype Hw Hg Hr) as (n & Hn).
  by exists vw, n, v.
Qed.

Lemma available_loop (names : gmap handle string) (has : handle → bool)
    (l : list ComponentSlotAccess) (m0 : gmap string handle) n h :
  (∀ h h' n, names !! h = Some n → names !! h' = Some n → h = h') →
  (∀ a, a ∈ l → has (access_slot a) = true ∧ is_Some (names !! access_slot a)) →
  (∀ n h, m0 !! n = Some h → names !! h = Some n) →
  foldl (λ available a,
     if has (access_slot a) then
       match names !! access_slot a with
       | Some name => <[name := access_slot a]> available
       | None => available
       end
     else available) m0 l !! n = Some h ↔
  m0 !! n = Some h ∨ names !! h = Some n ∧ h ∈ access_slot <$> l.
Proof.
  intros Hinj. revert m0. induction l as [|a l IH]; intros m0 Hl Hm0; cbn.
  { split; [by left|]. intros [?|[_ H]]; [done|]. by apply elem_of_nil in H. }
  destruct (Hl a ltac:(left)) as [-> [name Hname]]. rewrite Hname. rewrite IH.
  - rewrite elem_of_cons. destruct (decide (n = name)) as [->|Hne].
    + rewrite lookup_insert_eq. split.
      * intros [[= <-]|[H1 H2]]; right; auto.
      * intros [H|[H1 [->|H2]]]; [|by left|auto]. left. f_equal.
        by eapply Hinj; [exact Hname|apply Hm0].
    + rewrite lookup_insert_ne by done. split; [naive_solver|].
      intros [H|[H1 [->|H2]]]; [by left|congruence|by right].
  - intros a' Ha'. apply Hl. by right.
  - intros n' h'. destruct (decide (n' = name)) as [->|Hne].
    + rewrite lookup_insert_eq. by intros [= <-].
    + rewrite lookup_insert_ne by done. apply Hm0.
Qed.

Lemma query_components type b vw :
  type_fits (worldId r) V (class vw) type → V !! type_id type = Some vw →
  ∃ available, get_components (class vw) type b r = Ok available ∧
    ∀ n h, available !! n = Some h ↔
      (∃ v, held vw !! n = Some (h, v)) ∧ is_Some (rights vw !! (b, n)).
Proof.
  intros Hfits HV. destruct (query_tables type vw Hfits HV)
    as (Et & s & names & slots & gens & Es & _ & Esl & Htype).
  pose proof (ty_access _ _ _ _ _ _ _ Htype) as [Hcur Hsingle _ Hrights].
  unfold get_components. rewrite Et. cbn [mbind res_bind]. rewrite Es, Esl. cbn [mbind res_bind].
  assert (∀ n h, (∃ v, held vw !! n = Some (h, v)) ∧ is_Some (rights vw !! (b, n)) ↔
    slots !! h = Some n ∧ h ∈ access_slot <$> rights_of s b) as Hboth.
  { intros n h. rewrite (ty_slots _ _ _ _ _ _ _ Htype). split.
    - intros [[v Hn] [m Hm]]. apply (held_name Htype) in Hn. split; [done|].
      apply Hrights in Hm as (h' & Hh' & Ha). assert (h' = h) as -> by congruence.
      apply list_elem_of_fmap. by exists (MkAccess m h).
    - intros [Hn ([m h'] & -> & Ha)%list_elem_of_fmap]. cbn in *.
      split; [by apply (name_held Htype)|]. exists m. apply Hrights. by exists h'. }
  destruct (accesses s !! b) as [l|] eqn:Hl.
  2:{ exists ∅. split; [done|]. intros n h. rewrite Hboth. unfold rights_of. rewrite Hl. cbn.
      rewrite lookup_empty. split; [done|]. intros [_ H]. by apply elem_of_nil in H. }
  eexists. split; [done|]. intros n h.
  rewrite (available_loop slots (λ h, storage_has (handle_slot h) s)).
  - rewrite Hboth, lookup_empty. unfold rights_of. rewrite Hl. cbn. naive_solver.
  - intros h1 h2 n'. rewrite !(ty_slots _ _ _ _ _ _ _ Htype). congruence.
  - intros a Ha. destruct (Hcur b a ltac:(unfold rights_of; by rewrite Hl)) as (n' & Hn').
    destruct (name_held Htype _ _ Hn') as (v & Hv). split; [by eapply (held_has Htype)|].
    exists n'. by apply (ty_slots _ _ _ _ _ _ _ Htype).
  - intros n' h'. by rewrite lookup_empty.
Qed.

Lemma components_answer : answers r V G.
Proof.
  split.
  - intros k type n vw Hfits HV. pose proof (type_fits_class _ _ _ _ _ Hfits HV) as ->.
    by apply query_get.
  - intros k type n vw Hfits HV. pose proof (type_fits_class _ _ _ _ _ Hfits HV) as ->.
    destruct (query_tables type vw Hfits HV) as (Et & s & names & slots & gens & Es & En & _ & Htype).
    unfold component_slot. rewrite Et. cbn [mbind res_bind].
    by apply (query_named type vw n names En), (ty_names _ _ _ _ _ _ _ Htype).
  - apply query_resolve.
  - apply query_stale.
  - apply query_access.
  - apply query_components.
  - intros k type Hno. split_and!.
    + intros n. by apply query_misfit.
    + intros h. by apply query_misfit.
    + intros wanted b n. unfold can_access_named.
      destruct (query_misfit k type (λ typeId, slot ← named_slot typeId n r;
        can_access_slot wanted k type b slot r) Hno) as [msg ->]. done.
Qed.
End Answers.

(** ** Operations *)

Inductive operation :=
  | Register (k : K) (name : string) (version : N) (encode : option (El k → res value))
      (decode : option (value → res (El k)))
  | RegisterEffect (k : K) (type : ComponentType) (route : string)
      (encode : option (string → El k → res (option ResolvedEffect)))
      (decode : option (value → res (El k)))
  | Add (k : K) (type : ComponentType) (name : string) (component : El k)
  | Remove (k : K) (type : ComponentType) (name : string)
  | Replace (k : K) (type : ComponentType) (name : string) (component : El k)
  | ReplaceValue (type : N) (slot : handle) (v : value)
  | Grant (k : K) (type : ComponentType) (behavior : handle) (name : string)
      (m : ComponentAccessMode)
  | Revoke (k : K) (type : ComponentType) (behavior : handle) (name : string)
  | RemoveBehavior (behavior : handle).

Inductive outcome :=
  | Registered (type : ComponentType)
  | Encoded (v : value)
  | Finished.

Definition perform (op : operation) : stm (ComponentRegistry El) outcome :=
  match op with
  | Register k name version encode decode =>
      type ← register_component k name version encode decode; mret (Registered type)
  | RegisterEffect k type route encode decode =>
      register_effect_codec k type route encode decode;; mret Finished
  | Add k type name c => add_component k type name c;; mret Finished
  | Remove k type name => remove_component k type name;; mret Finished
  | Replace k type name c => replace_component k type name c;; mret Finished
  | ReplaceValue type slot v => v ← replace_component_value type slot v; mret (Encoded v)
  | Grant k type b name m => grant_access k type b name m;; mret Finished
  | Revoke k type b name => revoke_access k type b name;; mret Finished
  | RemoveBehavior b => smodify (remove_behavior b);; mret Finished
  end.

Fixpoint perform_all (ops : list operation) r : list (res outcome) * ComponentRegistry El :=
  match ops with
  | [] => ([], r)
  | op :: ops =>
      let '(x, r) := perform op r in
      let '(xs, r) := perform_all ops r in (x :: xs, r)
  end.

(** ** Specification *)

(** The types by id with their components and rights, and every handle given
    for a component so far. *)
Record registry_view := MkRegistryView {
  view_of : gmap N (@type_view K El);
  given : list (N * handle)
}.

(** When a named component is there to be worked on. *)
Definition at_name (world : N) V (k : K) (type : ComponentType) (n : string)
    vw (h : handle) (v : El (class vw)) : Prop :=
  type_fits world V k type ∧ V !! type_id type = Some vw ∧ held vw !! n = Some (h, v).

Definition nothing_at (world : N) V (k : K) (type : ComponentType) (n : string) : Prop :=
  ¬ ∃ vw h v, at_name world V k type n vw h v.

(** The grounds on which an operation may be refused. *)
Definition refusable (world : N) V G (op : operation) : Prop :=
  match op with
  | Add k type n _ => ¬ type_fits world V k type ∨ n = "" ∨
      ¬ nothing_at world V k type n ∨ MaxComponentSlots <= len G
  | Remove k type n | Replace k type n _ | Grant k type _ n _ | Revoke k type _ n =>
      nothing_at world V k type n
  | RemoveBehavior _ => False
  | _ => True
  end.

Inductive spec_step (world : N) : registry_view → operation → res outcome → registry_view → Prop :=
  | spec_registered V G k name version encode decode type :
      V !! type_id type = None → type_world type = world → type_generation type = 1 →
      spec_step world (MkRegistryView V G) (Register k name version encode decode)
        (Ok (Registered type)) (MkRegistryView (<[type_id type := MkView k ∅ ∅]> V) G)
  | spec_effect a k type route encode decode :
      spec_step world a (RegisterEffect k type route encode decode) (Ok Finished) a
  | spec_added V G vw type n (c : El (class vw)) h :
      type_fits world V (class vw) type → V !! type_id type = Some vw → n ≠ "" →
      held vw !! n = None → ((type_id type, h) ∉ G) →
      spec_step world (MkRegistryView V G) (Add (class vw) type n c) (Ok Finished)
        (MkRegistryView (<[type_id type := MkView (class vw) (<[n := (h, c)]> (held vw))
           (rights vw)]> V) ((type_id type, h) :: G))
  | spec_removed V G vw type n h v :
      at_name world V (class vw) type n vw h v →
      spec_step world (MkRegistryView V G) (Remove (class vw) type n) (Ok Finished)
        (MkRegistryView (<[type_id type := MkView (class vw) (delete n (held vw))
           (filter (λ p, p.1.2 ≠ n) (rights vw))]> V) G)
  | spec_replaced V G vw type n (c : El (class vw)) h v :
      at_name world V (class vw) type n vw h v →
      spec_step world (MkRegistryView V G) (Replace (class vw) type n c) (Ok Finished)
        (MkRegistryView (<[type_id type := MkView (class vw) (<[n := (h, c)]> (held vw))
           (rights vw)]> V) G)
  | spec_replaced_value V G vw t n (c : El (class vw)) h v w :
      V !! t = Some vw → held vw !! n = Some (h, v) →
      spec_step world (MkRegistryView V G) (ReplaceValue t h w) (Ok (Encoded w))
        (MkRegistryView (<[t := MkView (class vw) (<[n := (h, c)]> (held vw)) (rights vw)]> V) G)
  | spec_granted V G vw type b n m h v :
      at_name world V (class vw) type n vw h v →
      spec_step world (MkRegistryView V G) (Grant (class vw) type b n m) (Ok Finished)
        (MkRegistryView (<[type_id type := MkView (class vw) (held vw)
           (<[(b, n) := storage_access_mode m]> (rights vw))]> V) G)
  | spec_revoked V G vw type b n h v :
      at_name world V (class vw) type n vw h v →
      spec_step world (MkRegistryView V G) (Revoke (class vw) type b n) (Ok Finished)
        (MkRegistryView (<[type_id type := MkView (class vw) (held vw)
           (delete (b, n) (rights vw))]> V) G)
  | spec_forgotten V G b :
      spec_step world (MkRegistryView V G) (RemoveBehavior b) (Ok Finished)
        (MkRegistryView (forget b <$> V) G)
  (** A refused operation changes nothing. *)
  | spec_refused V G op e :
      refusable world V G op →
      spec_step world (MkRegistryView V G) op (Err e) (MkRegistryView V G).

Inductive spec_run (world : N)
  : registry_view → list operation → list (res outcome) → registry_view → Prop :=
  | spec_run_nil a : spec_run world a [] [] a
  | spec_run_cons a b c op ops x xs :
      spec_step world a op x b → spec_run world b ops xs c →
      spec_run world a (op :: ops) (x :: xs) c.

(** ** The registry implements its specification *)

(** An operation through a type handle that does not fit does nothing. *)
Definition through (op : operation) : option (K * ComponentType) :=
  match op with
  | RegisterEffect k type _ _ _ | Add k type _ _ | Remove k type _ | Replace k type _ _
  | Grant k type _ _ _ | Revoke k type _ _ => Some (k, type)
  | _ => None
  end.

Lemma misfit_refused r V G op k type :
  registry_ok r V G → through op = Some (k, type) → ¬ type_fits (worldId r) V k type →
  ∃ msg, perform op r = (throw runtime_error msg, r).
Proof.
  intros Hok Hop Hno. destruct (component_type_spec r V G k type Hok) as [[? _]|[_ [msg Ht]]]; [done|].
  assert (∀ {A B} (body : ComponentRegistry El → N → stm (ComponentRegistry El) A)
    (rest : A → stm (ComponentRegistry El) B),
    ((r ← sget; typeId ← slift (component_type k type r); body r typeId) ≫= rest) r =
    (throw runtime_error msg, r)) as Hstart.
  { intros A B body rest. unfold mbind, stm_bind, sget, slift. by rewrite Ht. }
  destruct op; cbn in Hop; simplify_eq; cbn [perform].
  - exists msg. apply Hstart.
  - unfold add_component. destruct (bool_decide (name = "")); [by eexists|].
    exists msg. apply Hstart.
  - exists msg. apply Hstart.
  - exists msg. apply Hstart.
  - exists msg. apply Hstart.
  - exists msg. apply Hstart.
Qed.

Definition implements r V G op (y : res outcome * ComponentRegistry El) : Prop :=
  worldId y.2 = worldId r ∧
  ∃ V' G', spec_step (worldId r) (MkRegistryView V G) op y.1 (MkRegistryView V' G') ∧
    registry_ok y.2 V' G'.

Lemma refused_implements r V G op e :
  registry_ok r V G → refusable (worldId r) V G op → implements r V G op (Err e, r).
Proof. intros Hok Hr. split; [done|]. exists V, G. split; [by constructor|done]. Qed.

(** The operations on a component that is named. *)
Lemma named_implements {A} (op : operation) r V G k type n (f : stm (ComponentRegistry El) A)
    (W : ∀ vw, handle → gmap N (@type_view K El)) :
  registry_ok r V G → through op = Some (k, type) →
  perform op = (f;; mret Finished) →
  (nothing_at (worldId r) V k type n → refusable (worldId r) V G op) →
  (∀ vw, type_fits (worldId r) V (class vw) type → V !! type_id type = Some vw → k = class vw →
     match held vw !! n with
     | None => ∃ e, f r = (Err e, r)
     | Some (h, v) => ∃ a r', f r = (Ok a, r') ∧ worldId r' = worldId r ∧
         spec_step (worldId r) (MkRegistryView V G) op (Ok Finished)
           (MkRegistryView (W vw h) G) ∧ registry_ok r' (W vw h) G
     end) →
  implements r V G op (perform op r).
Proof.
  intros Hok Hop Hperf Href Hspec.
  destruct (component_type_spec r V G k type Hok) as [[Hfits _]|[Hno _]].
  - pose proof Hfits as [_ (vw & HV & E)]. symmetry in E.
    specialize (Hspec vw ltac:(by rewrite <-E) HV E).
    rewrite Hperf. unfold mbind, stm_bind. destruct (held vw !! n) as [[h v]|] eqn:Hn.
    + destruct Hspec as (a & r' & -> & Hw & Hstep & Hok'). split; [done|].
      by exists (W vw h), G.
    + destruct Hspec as [e ->]. apply refused_implements; [done|]. apply Href.
      intros (vw' & h & v & _ & HV' & Hn'). rewrite HV in HV'. injection HV' as <-. congruence.
  - destruct (misfit_refused r V G op k type Hok Hop Hno) as [msg ->].
    apply refused_implements; [done|]. apply Href. by intros (vw & h & v & ? & _).
Qed.

Lemma perform_component r V G op :
  registry_ok r V G → implements r V G op (perform op r).
Proof.
  intros Hok. destruct op as [k name version encode decode|k type route encode decode|k type n c
    |k type n|k type n c|t h v|k type b n m|k type b n|b].
  - pose proof (register_component_spec r V G k name version encode decode Hok) as H.
    cbn [perform]. unfold mbind, stm_bind.
    destruct (register_component k name version encode decode r) as [[type|e] r'].
    + destruct H as (-> & HV & Hw & _ & Hok'). split; [done|]. do 2 eexists.
      split; [|exact Hok']. by apply spec_registered.
    + destruct H as [-> _]. by apply refused_implements.
  - pose proof (register_effect_codec_spec r V G k type route encode decode Hok) as H.
    cbn [perform]. unfold mbind, stm_bind.
    destruct (register_effect_codec k type route encode decode r) as [[[]|e] r'].
    + destruct H as (Hw & _ & Hok'). split; [done|]. exists V, G. split; [constructor|done].
    + subst r'. by apply refused_implements.
  - destruct (component_type_spec r V G k type Hok) as [[Hfits _]|[Hno _]].
    + pose proof Hfits as [_ (vw & HV & <-)]. cbn [perform]. unfold mbind, stm_bind.
      destruct (add_component_spec r V G vw type n c Hok Hfits HV)
        as [(h & r' & -> & Hn0 & Hn & Hfresh & Hw & Hok')|([msg ->] & Hwhy)].
      * split; [done|]. do 2 eexists. split; [|exact Hok']. by constructor.
      * apply refused_implements; [done|]. cbn. destruct Hwhy as [|[[[h v] Hn]|]]; [auto| |auto].
        right. right. left. intros Hnothing. apply Hnothing. by exists vw, h, v.
    + destruct (misfit_refused r V G (Add k type n c) k type Hok eq_refl Hno) as [msg ->].
      apply refused_implements; [done|by left].
  - eapply (named_implements (Remove k type n) r V G k type n (remove_component k type n)
      (λ vw h, <[type_id type := MkView (class vw) (delete n (held vw))
           (filter (λ p, p.1.2 ≠ n) (rights vw))]> V)); try done.
    intros vw Hfits HV ->. pose proof (remove_component_spec r V G vw type n Hok Hfits HV) as H.
    destruct (held vw !! n) as [[h v]|] eqn:Hn; [|by eexists].
    destruct H as (r' & E & Hw & Hok'). exists tt, r'. split_and!; try done.
    by apply (spec_removed _ _ _ _ _ _ h v).
  - destruct (component_type_spec r V G k type Hok) as [[Hfits _]|[Hno _]].
    + pose proof Hfits as [_ (vw & HV & <-)].
      pose proof (replace_component_spec r V G vw type n c Hok Hfits HV) as H.
      cbn [perform]. unfold mbind, stm_bind. destruct (held vw !! n) as [[h v]|] eqn:Hn.
      * destruct H as (r' & -> & Hw & Hok'). split; [done|]. do 2 eexists.
        split; [|exact Hok']. by apply (spec_replaced _ _ _ _ _ _ _ h v).
      * rewrite H. apply refused_implements; [done|].
        intros (vw' & h & v & _ & HV' & Hn'). rewrite HV in HV'. injection HV' as <-. congruence.
    + destruct (misfit_refused r V G (Replace k type n c) k type Hok eq_refl Hno) as [msg ->].
      apply refused_implements; [done|]. by intros (vw & h & v & ? & _).
  - pose proof (replace_component_value_spec r V G t h v Hok) as H. cbn [perform].
    unfold mbind, stm_bind. destruct (replace_component_value t h v r) as [[w|e] r'].
    + destruct H as (-> & Hw & _ & vw & n & old & c & HV & Hn & Hok'). split; [done|].
      do 2 eexists. split; [|exact Hok']. by eapply spec_replaced_value.
    + subst r'. by apply refused_implements.
  - eapply (named_implements (Grant k type b n m) r V G k type n (grant_access k type b n m)
      (λ vw h, <[type_id type := MkView (class vw) (held vw)
           (<[(b, n) := storage_access_mode m]> (rights vw))]> V)); try done.
    intros vw Hfits HV ->. pose proof (grant_access_spec r V G vw type b n m Hok Hfits HV) as H.
    destruct (held vw !! n) as [[h v]|] eqn:Hn; [|by eexists].
    destruct H as (r' & E & Hw & Hok'). exists tt, r'. split_and!; try done.
    by apply (spec_granted _ _ _ _ _ _ _ _ h v).
  - eapply (named_implements (Revoke k type b n) r V G k type n (revoke_access k type b n)
      (λ vw h, <[type_id type := MkView (class vw) (held vw)
           (delete (b, n) (rights vw))]> V)); try done.
    intros vw Hfits HV ->. pose proof (revoke_access_spec r V G vw type b n Hok Hfits HV) as H.
    destruct (held vw !! n) as [[h v]|] eqn:Hn; [|by eexists].
    destruct H as (r' & E & Hw & Hok'). exists tt, r'. split_and!; try done.
    by apply (spec_revoked _ _ _ _ _ _ _ h v).
  - cbn. split; [done|]. exists (forget b <$> V), G. split; [constructor|].
    by apply remove_behavior_spec.
Qed.

Lemma perform_all_components r V G ops :
  registry_ok r V G →
  let '(xs, r') := perform_all ops r in
  worldId r' = worldId r ∧ ∃ V' G',
    spec_run (worldId r) (MkRegistryView V G) ops xs (MkRegistryView V' G') ∧
    registry_ok r' V' G'.
Proof.
  revert r V G. induction ops as [|op ops IH]; intros r V G Hok.
  { split; [done|]. exists V, G. split; [constructor|done]. }
  cbn [perform_all]. pose proof (perform_component r V G op Hok) as (Hw & V1 & G1 & Hstep & Hok1).
  destruct (perform op r) as [x r1]. cbn [fst snd] in *. specialize (IH r1 V1 G1 Hok1).
  destruct (perform_all ops r1) as [xs r2]. destruct IH as (Hw2 & V2 & G2 & Hrun & Hok2).
  split; [congruence|]. exists V2, G2. split; [|done]. rewrite Hw in Hrun.
  by eapply spec_run_cons.
Qed.

(** *** What steps keep *)

(** The component a handle of a type stands for. *)
Definition held_by V (t : N) (h : handle) : Prop :=
  ∃ vw n v, V !! t = Some vw ∧ held vw !! n = Some (h, v).

Lemma spec_step_keeps world a op x b :
  spec_step world a op x b →
  (∀ p, p ∈ given a → p ∈ given b) ∧
  (∀ t h, (t, h) ∈ given a → held_by (view_of b) t h → held_by (view_of a) t h) ∧
  (∀ t vw, view_of a !! t = Some vw → ∃ vw', view_of b !! t = Some vw' ∧ class vw' = class vw) ∧
  (NoDup (given a) → NoDup (given b)).
Proof.
  assert (∀ V t vw vw', V !! t = Some vw → class vw' = class vw →
    ∀ t' vw0, V !! t' = Some vw0 → ∃ vw1, <[t := vw']> V !! t' = Some vw1 ∧ class vw1 = class vw0)
    as Hclass.
  { intros V t vw vw' HV E t' vw0 H. destruct (decide (t' = t)) as [->|Hne].
    - rewrite lookup_insert_eq. exists vw'. split; [done|]. congruence.
    - rewrite lookup_insert_ne by done. by exists vw0. }
  assert (∀ V t vw vw', V !! t = Some vw →
    (∀ n h v, held vw' !! n = Some (h, v) → ∃ n' v', held vw !! n' = Some (h, v')) →
    ∀ t' h, held_by (<[t := vw']> V) t' h → held_by V t' h) as Hheld.
  { intros V t vw vw' HV Hsub t' h (vw1 & n & v & H & Hn). destruct (decide (t' = t)) as [->|Hne].
    - rewrite lookup_insert_eq in H. injection H as <-. destruct (Hsub _ _ _ Hn) as (n' & v' & Hn').
      by exists vw, n', v'.
    - rewrite lookup_insert_ne in H by done. by exists vw1, n, v. }
  assert (∀ vw n (c v : El (class vw)) h R, held vw !! n = Some (h, v) →
    ∀ n1 h1 v1, held (MkView (class vw) (<[n := (h, c)]> (held vw)) R) !! n1 = Some (h1, v1) →
      ∃ n' v', held vw !! n' = Some (h1, v')) as Hins.
  { intros vw n c v h R Hn n1 h1 v1. cbn. destruct (decide (n1 = n)) as [->|Hne].
    - rewrite lookup_insert_eq. intros [= <- _]. by exists n, v.
    - rewrite lookup_insert_ne by done. eauto. }
  intros Hstep. destruct Hstep as [V G k name version encode decode type HV _ _|a k type route encode decode
    |V G vw type n c h _ HV _ Hn Hfresh|V G vw type n h v (_ & HV & Hn)
    |V G vw type n c h v (_ & HV & Hn)|V G vw t n c h v w HV Hn|V G vw type b n m h v (_ & HV & Hn)
    |V G vw type b n h v (_ & HV & Hn)|V G b|V G op e _]; cbn [view_of given].
  - split_and!; try done.
    + intros t h _ (vw & n & v & H & Hn). destruct (decide (t = type_id type)) as [->|Hne].
      * rewrite lookup_insert_eq in H. injection H as <-. cbn [held] in Hn.
        by rewrite lookup_empty in Hn.
      * rewrite lookup_insert_ne in H by done. by exists vw, n, v.
    + intros t vw H. exists vw. rewrite lookup_insert_ne; [done|]. intros <-. congruence.
  - split_and!; try done. eauto.
  - split_and!.
    + intros p Hp. by right.
    + intros t h' Hin (vw1 & n1 & v1 & H & Hn1).
      destruct (decide (t = type_id type)) as [->|Hne].
      * rewrite lookup_insert_eq in H. injection H as <-. cbn in Hn1.
        destruct (decide (n1 = n)) as [->|Hne1].
        -- rewrite lookup_insert_eq in Hn1. by injection Hn1 as <- _.
        -- rewrite lookup_insert_ne in Hn1 by done. by exists vw, n1, v1.
      * rewrite lookup_insert_ne in H by done. by exists vw1, n1, v1.
    + by eapply Hclass.
    + intros Hnd. by constructor.
  - split_and!; try done; [intros t h' _; eapply Hheld; [done|]|by eapply Hclass].
    cbn. intros n1 h1 v1 [_ H1]%lookup_delete_Some. eauto.
  - split_and!; try done; [intros t h' _; eapply Hheld; [done|]|by eapply Hclass].
    by eapply Hins.
  - split_and!; try done; [intros t' h' _; eapply Hheld; [done|]|by eapply Hclass].
    by eapply Hins.
  - split_and!; try done; [intros t h' _; eapply Hheld; [done|]|by eapply Hclass].
    cbn. eauto.
  - split_and!; try done; [intros t h' _; eapply Hheld; [done|]|by eapply Hclass].
    cbn. eauto.
  - split_and!; try done.
    + intros t h _ (vw & n & v & H & Hn). rewrite lookup_fmap in H.
      apply fmap_Some in H as (vw0 & H & ->). by exists vw0, n, v.
    + intros t vw H. exists (forget b vw). by rewrite lookup_fmap, H.
  - split_and!; try done. eauto.
Qed.

Lemma spec_run_keeps world a ops xs b :
  spec_run world a ops xs b →
  (∀ p, p ∈ given a → p ∈ given b) ∧
  (∀ t h, (t, h) ∈ given a → held_by (view_of b) t h → held_by (view_of a) t h) ∧
  (∀ t vw, view_of a !! t = Some vw → ∃ vw', view_of b !! t = Some vw' ∧ class vw' = class vw) ∧
  (NoDup (given a) → NoDup (given b)).
Proof.
  induction 1 as [a|a b c op ops x xs Hstep _ (H1 & H2 & H3 & H4)]; [split_and!; eauto|].
  apply spec_step_keeps in Hstep as (S1 & S2 & S3 & S4). split_and!; [by auto| | |by auto].
  - intros t h Hin Hc. apply S2; [done|]. apply H2; [by apply S1|done].
  - intros t vw H. destruct (S3 t vw H) as (vw' & H' & E). destruct (H3 t vw' H') as (vw2 & ? & ?).
    exists vw2. split; [done|congruence].
Qed.

Definition reached (world : N) (ops : list operation) : ComponentRegistry El :=
  (perform_all ops (new_ComponentRegistry world)).2.

Lemma reached_ok world ops :
  ∃ xs V G, perform_all ops (new_ComponentRegistry world) = (xs, reached world ops) ∧
    spec_run world (MkRegistryView ∅ []) ops xs (MkRegistryView V G) ∧
    worldId (reached world ops) = world ∧ registry_ok (reached world ops) V G.
Proof.
  pose proof (perform_all_components _ _ _ ops (new_components_ok (El := El) world)) as H.
  unfold reached. destruct (perform_all ops (new_ComponentRegistry world)) as [xs r].
  destruct H as (Hw & V & G & Hrun & Hok). exists xs, V, G. by split_and!.
Qed.

(** ** Properties *)

(** C17. The component registry is a map: every run of its operations, refused
    ones included, has the results of a run of the specification, in which an
    operation changes just the component, the rights or the type it names and a
    refused one, which always has its grounds, changes nothing; every query
    answers from the specification's view; no handle is given twice. *)
Theorem components_refine_views world ops :
  let '(xs, r) := perform_all ops (new_ComponentRegistry world) in
  ∃ V G, spec_run world (MkRegistryView ∅ []) ops xs (MkRegistryView V G) ∧
    answers r V G ∧ NoDup G.
Proof.
  destruct (reached_ok world ops) as (xs & V & G & -> & Hrun & _ & Hok). exists V, G.
  split; [done|]. split; [by apply components_answer|].
  apply (spec_run_keeps _ _ _ _ _ Hrun). cbn. constructor.
Qed.

(** Handles never revive: the handle of a component resolves to it, and
    from the moment the component is removed it is refused for ever, whatever
    is added, under the same name or in the same slot, through any handle of
    the type. *)
Theorem removed_handle_stays_stale world ops1 ops2 k type n h :
  let r1 := reached world ops1 in
  component_slot k type n r1 = Ok h →
  (∃ c, resolve_component k type h r1 = Ok (Some c)) ∧
  ∃ r2, remove_component k type n r1 = (Ok tt, r2) ∧
    ∀ k' type', type_id type' = type_id type →
      ∃ msg, resolve_component k' type' h (perform_all ops2 r2).2 = throw runtime_error msg.
Proof.
  intros r1 Hslot. destruct (reached_ok world ops1) as (_ & V & G & _ & _ & Hw & Hok).
  fold r1 in Hw, Hok. destruct (component_type_spec r1 V G k type Hok) as [[Hfits _]|[_ [msg E]]].
  2:{ unfold component_slot in Hslot. by rewrite E in Hslot. }
  pose proof Hfits as [_ (vw & HV & <-)].
  rewrite (an_slot _ _ _ (components_answer Hok) _ _ n vw Hfits HV) in Hslot.
  destruct (held vw !! n) as [[h' c]|] eqn:Hn; [injection Hslot as ->|done].
  split; [exists c; by eapply (an_resolve _ _ _ (components_answer Hok))|].
  pose proof (remove_component_spec r1 V G vw type n Hok Hfits HV) as Hrem. rewrite Hn in Hrem.
  destruct Hrem as (r2 & Hrem & _ & Hok2). exists r2. split; [done|]. intros k' type' Et.
  pose proof (perform_all_components r2 _ _ ops2 Hok2) as H.
  destruct (perform_all ops2 r2) as [xs r3]. destruct H as (_ & V3 & G3 & Hrun & Hok3).
  apply spec_run_keeps in Hrun as (Hgiven & Hheld & _). cbn [view_of given] in *.
  assert ((type_id type, h) ∈ G) as Hin
    by by eapply (en_given _ _ _ _ (rg_entry _ _ _ Hok _ _ HV)).
  apply (an_stale _ _ _ (components_answer Hok3)); rewrite Et; [by apply Hgiven|].
  intros vw3 n3 v3 HV3 Hn3. destruct (Hheld _ _ Hin ltac:(by exists vw3, n3, v3))
    as (vw2 & n2 & v2 & HV2 & Hn2). rewrite lookup_insert_eq in HV2. injection HV2 as <-.
  cbn [held] in Hn2. apply lookup_delete_Some in Hn2 as [Hne Hn2].
  destruct (registry_tables _ _ _ _ _ Hok HV) as (s & names & slots & gens & _ & Htype & _).
  by destruct (held_slot_inj Htype _ _ _ _ _ _ Hn Hn2 eq_refl).
Qed.

(** Types are never confused: what was registered with one C++ type keeps
    it; through any handle of that type's id a program that believes in another
    type is refused every operation, which then changes nothing, reads nothing
    and has no rights. *)
Theorem component_types_never_confused world ops1 ops2 k name version encode decode type r2 k' type' :
  register_component k name version encode decode (reached world ops1) = (Ok type, r2) →
  k' ≠ k → type_id type' = type_id type →
  let r := (perform_all ops2 r2).2 in
  component_type k type r = Ok (type_id type) ∧
  (∀ op, through op = Some (k', type') → ∃ msg, perform op r = (throw runtime_error msg, r)) ∧
  (∀ n, ∃ msg, get_component_named k' type' n r = throw runtime_error msg) ∧
  (∀ h, ∃ msg, resolve_component k' type' h r = throw runtime_error msg) ∧
  (∀ wanted b n, can_access_named wanted k' type' b n r = Ok false).
Proof.
  intros Hreg Hne Et r. destruct (reached_ok world ops1) as (_ & V & G & _ & _ & Hw & Hok).
  pose proof (register_component_spec _ V G k name version encode decode Hok) as H.
  rewrite Hreg in H. destruct H as (-> & _ & Hw2 & _ & Hok2). set (t := nextComponentType _) in *.
  pose proof (perform_all_components r2 _ _ ops2 Hok2) as H. unfold r.
  destruct (perform_all ops2 r2) as [xs r3]. destruct H as (Hw3 & V3 & G3 & Hrun & Hok3).
  apply spec_run_keeps in Hrun as (_ & _ & Hclass & _). cbn [view_of type_id snd] in *.
  destruct (Hclass t (MkView k ∅ ∅) ltac:(apply lookup_insert_eq)) as (vw & HV & Ek). cbn in Ek.
  assert (¬ type_fits (worldId r3) V3 k' type') as Hno.
  { rewrite <-Et in HV. intros [_ (vw' & HV' & E)]. rewrite HV in HV'. injection HV' as <-. congruence. }
  split; [apply (component_type_fits r3 V3 G3); [done|]|].
  { split; [right; cbn; split; [by rewrite Hw3, Hw2|done]|]. by exists vw. }
  split; [intros op Hop; by eapply misfit_refused|].
  by apply (an_misfit _ _ _ (components_answer Hok3)).
Qed.

(** Values in, values out: when a value replaces a component, the codec
    has shown to be canonical on it, the value returned is the one given, and
    encoding the component again yields it; when it does not, nothing changes. *)
Theorem replace_value_roundtrip world ops t h v :
  match replace_component_value t h v (reached world ops) with
  | (Ok canonical, r') => canonical = v ∧ encode_component_slot t h r' = Ok v
  | (Err _, r') => r' = reached world ops
  end.
Proof.
  destruct (reached_ok world ops) as (_ & V & G & _ & _ & _ & Hok).
  pose proof (replace_component_value_spec _ V G t h v Hok) as H.
  destruct (replace_component_value t h v (reached world ops)) as [[w|e] r'];
    [by destruct H as (-> & _ & ? & _)|done].
Qed.
End Runs.

(** ** Concrete runs *)

(** A host with two component types. *)
Definition sample_type (k : bool) : Type := if k then N else string.

Definition brightness : @operation bool sample_type :=
  Register true "brightness" 1 (Some (λ n, Ok (VUnsigned n))) (Some as_unsigned_integer).
Definition brightness_type : ComponentType := MkComponentType 0 7 1.
Definition lamp_ops : list (@operation bool sample_type) :=
  [brightness; Add true brightness_type "lamp" (5 : sample_type true)].

Lemma removed_handle_stays_stale_witness :
  let r1 := reached 7 lamp_ops in
  component_slot true brightness_type "lamp" r1 = Ok (MkHandle 7 0 1) ∧
  (∃ c, resolve_component true brightness_type (MkHandle 7 0 1) r1 = Ok (Some c)) ∧
  ∃ r2, remove_component true brightness_type "lamp" r1 = (Ok tt, r2) ∧
    ∀ k' type', type_id type' = type_id brightness_type →
      ∃ msg, resolve_component k' type' (MkHandle 7 0 1)
        (perform_all [Add true brightness_type "lamp" (9 : sample_type true)] r2).2 =
        throw runtime_error msg.
Proof.
  split; [vm_compute; reflexivity|].
  apply (removed_handle_stays_stale 7 lamp_ops
    [Add true brightness_type "lamp" (9 : sample_type true)] true brightness_type "lamp"
    (MkHandle 7 0 1)).
  vm_compute; reflexivity.
Defined.

Lemma component_types_never_confused_witness :
  let r2 := (register_component true "brightness" 1 (Some (λ n, Ok (VUnsigned n)))
    (Some as_unsigned_integer) (reached 7 ([] : list (@operation bool sample_type)))).2 in
  let r := (perform_all [Add true brightness_type "lamp" (5 : sample_type true)] r2).2 in
  component_type true brightness_type r = Ok 0 ∧
  (∀ op, through op = Some (false, brightness_type) →
     ∃ msg, perform op r = (throw runtime_error msg, r)) ∧
  (∀ n, ∃ msg, get_component_named false brightness_type n r = throw runtime_error msg) ∧
  (∀ h, ∃ msg, resolve_component false brightness_type h r = throw runtime_error msg) ∧
  (∀ wanted b n, can_access_named wanted false brightness_type b n r = Ok false).
Proof.
  apply (component_types_never_confused 7 [] [Add true brightness_type "lamp" (5 : sample_type true)]
    true "brightness" 1 (Some (λ n, Ok (VUnsigned n))) (Some as_unsigned_integer) brightness_type
    _ false brightness_type); [reflexivity|done|done].
Defined.
