(* ===== verification/Hoare.v ===== *)
(** * Reasoning about stateful computations

    A computation of [stm] has one outcome from each state.  [wp m Q s] says
    that this outcome, a value or an exception with the state reached, satisfies
    [Q]; the rules below follow the constructs computations are written with.
    [keeps R m] says that [m], whatever its outcome, moves along the preorder
    [R]; [zoom] runs a computation of a part of the state on the whole. *)
From S2P Require Import Prelude.

Section Wp.
Context {S : Type}.

Definition wp {A} (m : stm S A) (Q : res A → S → Prop) (s : S) : Prop :=
  Q (m s).1 (m s).2.

(** The postcondition of the first part of a sequence. *)
Definition then_wp {A B} (f : A → stm S B) (Q : res B → S → Prop) (x : res A) (s : S) : Prop :=
  match x with Ok a => wp (f a) Q s | Err e => Q (Err e) s end.

Lemma wp_bind {A B} (m : stm S A) (f : A → stm S B) Q s :
  wp m (then_wp f Q) s → wp (m ≫= f) Q s.
Proof. unfold wp, then_wp, mbind, stm_bind. by destruct (m s) as [[a|e] s']. Qed.

Lemma wp_bind_eq {A B} (m : stm S A) (f : A → stm S B) a Q s s' :
  m s = (Ok a, s') → wp (f a) Q s' → wp (m ≫= f) Q s.
Proof. intros Hm Hf. apply wp_bind. unfold wp at 1. by rewrite Hm. Qed.

Lemma wp_mono {A} (m : stm S A) (P Q : res A → S → Prop) s :
  wp m P s → (∀ x s', P x s' → Q x s') → wp m Q s.
Proof. unfold wp. auto. Qed.

Lemma wp_elim {A} (m : stm S A) Q s x s' : wp m Q s → m s = (x, s') → Q x s'.
Proof. unfold wp. by intros H Hm; rewrite Hm in H. Qed.

Lemma wp_intro {A} (m : stm S A) (Q : res A → S → Prop) s :
  (∀ x s', m s = (x, s') → Q x s') → wp m Q s.
Proof. unfold wp. intros H. destruct (m s) as [x s'] eqn:E. by apply H. Qed.

Lemma wp_ret {A} (a : A) (Q : res A → S → Prop) s : Q (Ok a) s → wp (mret a) Q s.
Proof. done. Qed.

Lemma wp_get Q s : Q (Ok s) s → wp sget Q s.
Proof. done. Qed.

Lemma wp_put Q s s' : Q (Ok tt) s' → wp (sput s') Q s.
Proof. done. Qed.

Lemma wp_modify Q f s : Q (Ok tt) (f s) → wp (smodify f) Q s.
Proof. done. Qed.

Lemma wp_lift {A} (x : res A) (Q : res A → S → Prop) s : Q x s → wp (slift x) Q s.
Proof. done. Qed.

Lemma wp_throw {A} k msg (Q : res A → S → Prop) s : Q (throw k msg) s → wp (sthrow k msg) Q s.
Proof. done. Qed.

Lemma wp_reject c k msg (Q : res unit → S → Prop) s :
  (c = true → Q (throw k msg) s) → (c = false → Q (Ok tt) s) → wp (sreject_if c k msg) Q s.
Proof. unfold wp, sreject_if, slift, reject_if. destruct c; auto. Qed.

Lemma wp_try {A} (m : stm S A) (h : exn → stm S A) Q s :
  wp m (λ x s', match x with Ok a => Q (Ok a) s' | Err e => wp (h e) Q s' end) s →
  wp (stry m h) Q s.
Proof. unfold wp, stry. by destruct (m s) as [[a|e] s']. Qed.

(** A loop with an invariant over the elements still to come; an exception
    leaves the loop. *)
Lemma wp_for {A} (f : A → stm S unit) l (I : list A → S → Prop) (Q : res unit → S → Prop) s :
  I l s →
  (∀ x k s, I (x :: k) s →
     wp (f x) (λ y s', match y with Ok _ => I k s' | Err e => Q (Err e) s' end) s) →
  (∀ s, I [] s → Q (Ok tt) s) →
  wp (sfor f l) Q s.
Proof.
  intros HI Hstep Hdone. revert s HI. induction l as [|x l IH]; intros s HI; cbn; [by apply wp_ret, Hdone|].
  apply wp_bind. eapply wp_mono; [by apply Hstep|].
  intros [[]|e] s' H; cbn; [by apply IH|done].
Qed.

(** ** Preorders *)

Definition keeps {A} (R : S → S → Prop) (m : stm S A) : Prop := ∀ s, R s (m s).2.

Context (R : S → S → Prop) `{!PreOrder R}.

Lemma keeps_ret {A} (a : A) : keeps R (mret a).
Proof. intros s. cbn. reflexivity. Qed.

Lemma keeps_lift {A} (x : res A) : keeps R (slift x).
Proof. intros s. cbn. reflexivity. Qed.

Lemma keeps_throw {A} kind msg : keeps R (sthrow (A := A) kind msg).
Proof. intros s. cbn. reflexivity. Qed.

Lemma keeps_get : keeps R sget.
Proof. intros s. cbn. reflexivity. Qed.

Lemma keeps_bind {A B} (m : stm S A) (f : A → stm S B) :
  keeps R m → (∀ a, keeps R (f a)) → keeps R (m ≫= f).
Proof.
  intros Hm Hf s. specialize (Hm s). unfold mbind, stm_bind.
  destruct (m s) as [[a|e] s']; [|done]. cbn in Hm. etransitivity; [exact Hm|apply Hf].
Qed.

Lemma keeps_try {A} (m : stm S A) h : keeps R m → (∀ e, keeps R (h e)) → keeps R (stry m h).
Proof.
  intros Hm Hh s. specialize (Hm s). unfold stry.
  destruct (m s) as [[a|e] s']; [done|]. cbn in Hm. etransitivity; [exact Hm|apply Hh].
Qed.

Lemma keeps_for {A} (f : A → stm S unit) l : (∀ x, keeps R (f x)) → keeps R (sfor f l).
Proof.
  intros Hf. induction l as [|x l IH]; cbn; [apply keeps_ret|].
  apply keeps_bind; [apply Hf|done].
Qed.
End Wp.

(** Moves that keep a predicate. *)
Definition within {S} (P : S → Prop) (s s' : S) : Prop := P s → P s'.

#[export] Instance within_preorder {S} (P : S → Prop) : PreOrder (within P).
Proof. unfold within. split; [intros s; tauto|intros a b c; tauto]. Qed.

Create HintDb keeps.
#[export] Hint Resolve keeps_ret keeps_lift keeps_throw keeps_get : keeps.

(** Follows a computation from step to step. *)
Ltac keep_steps :=
  repeat first
    [ solve [eauto with keeps typeclass_instances]
    | apply keeps_bind; [apply _| |intros ?]
    | apply keeps_try; [apply _| |intros ?]
    | match goal with
      | |- keeps _ (if ?c then _ else _) => destruct c
      | |- keeps _ (match ?x with _ => _ end) => destruct x
      end ].

(** ** Loops that hand on a value *)

(** A loop over [l] that hands on a value. *)
Fixpoint sfold {T B X} (body : B → X → stm T B) (l : list X) (b : B) : stm T B :=
  match l with
  | [] => mret b
  | x :: l => b ← body b x; sfold body l b
  end.

Lemma wp_sfold {T B X} (body : B → X → stm T B) l b (I : list X → B → T → Prop)
    (Q : res B → T → Prop) s :
  I l b s →
  (∀ x k b s, I (x :: k) b s →
     wp (body b x) (λ y s', match y with Ok b' => I k b' s' | Err e => Q (Err e) s' end) s) →
  (∀ b s, I [] b s → Q (Ok b) s) →
  wp (sfold body l b) Q s.
Proof.
  intros HI Hstep Hdone. revert b s HI. induction l as [|x l IH]; intros b s HI; cbn.
  - by apply wp_ret, Hdone.
  - apply wp_bind. eapply wp_mono; [by apply Hstep|].
    intros [b'|e] s' Hs'; cbn; [by apply IH|done].
Qed.

Lemma keeps_sfold {T B X} (R : T → T → Prop) `{!PreOrder R} (body : B → X → stm T B) l b :
  (∀ b x, keeps R (body b x)) → keeps R (sfold body l b).
Proof.
  intros Hb. revert b. induction l as [|x l IH]; intros b; cbn; [apply keeps_ret, _|].
  apply keeps_bind; [apply _|apply Hb|done].
Qed.

Lemma keeps_srepeat {T B} (R : T → T → Prop) `{!PreOrder R} n (f : B → stm T B) b :
  (∀ b, keeps R (f b)) → keeps R (srepeat n f b).
Proof.
  intros Hf. revert b. induction n as [|n IH]; intros b; cbn; [apply keeps_ret, _|].
  apply keeps_bind; [apply _|apply Hf|done].
Qed.

(** ** Computations from one state *)

Lemma bind_agrees {T B X} (m : stm T B) (f g : B → stm T X) s :
  wp m (λ x s', ∀ a, x = Ok a → f a s' = g a s') s → (m ≫= f) s = (m ≫= g) s.
Proof. unfold wp, mbind, stm_bind. destruct (m s) as [[a|e] s']; cbn; [|done]. intros Hf. by apply Hf. Qed.

Lemma keeps_get_bind {T X} (R : T → T → Prop) (f : T → stm T X) :
  (∀ s, R s (f s s).2) → keeps R (s ← sget; f s).
Proof. intros Hf s. exact (Hf s). Qed.

(** ** Exceptions collected over a loop *)

Section Capture.
Context {S A : Type}.

(** [try { m } catch (...) { ... }] where the handler remembers the exception. *)
Definition captured {B} (m : stm S B) : stm S (option exn) := λ s,
  match m s with
  | (Ok _, s) => (Ok None, s)
  | (Err e, s) => (Ok (Some e), s)
  end.

(** [capture_first_exception] *)
Definition capture_first_exception (firstException e : option exn) : option exn :=
  match firstException with Some _ => firstException | None => e end.

(** [if (firstException) std::rethrow_exception(firstException);] *)
Definition rethrow (firstException : option exn) : stm S unit := λ s,
  match firstException with Some e => (Err e, s) | None => (Ok tt, s) end.

(** A loop whose body hands over what it caught. *)
Fixpoint for_capturing (f : A → stm S (option exn)) (l : list A)
    (firstException : option exn) : stm S unit :=
  match l with
  | [] => rethrow firstException
  | x :: l => e ← f x; for_capturing f l (capture_first_exception firstException e)
  end.

(** When the body itself never throws, the loop runs to its end. *)
Lemma wp_for_capturing f l first (I : list A → S → Prop) (Q : res unit → S → Prop) s :
  I l s →
  (∀ x k s, I (x :: k) s → wp (f x) (λ y s', (∃ e, y = Ok e) ∧ I k s') s) →
  (∀ x s, I [] s → Q x s) →
  wp (for_capturing f l first) Q s.
Proof.
  intros HI Hstep Hdone. revert s first HI. induction l as [|x l IH]; intros s first HI; cbn.
  - unfold wp, rethrow. by destruct first; apply Hdone.
  - apply wp_bind. eapply wp_mono; [by apply Hstep|]. intros y s' [[e ->] HI']. cbn. by apply IH.
Qed.

Lemma wp_captured {B} (m : stm S B) (Q : res (option exn) → S → Prop) s :
  wp m (λ x s', Q (Ok (match x with Ok _ => None | Err e => Some e end)) s') s →
  wp (captured m) Q s.
Proof. unfold wp, captured. by destruct (m s) as [[b|e] s']. Qed.
End Capture.

(** ** Parts of a state *)

Section Zoom.
Context {S T : Type} (get : S → T) (put : T → S → S).

Definition zoom {A} (m : stm T A) : stm S A := λ s,
  let '(x, t) := m (get s) in (x, put t s).

Lemma wp_zoom {A} (m : stm T A) (Q : res A → S → Prop) s :
  wp m (λ x t, Q x (put t s)) (get s) → wp (zoom m) Q s.
Proof. unfold wp, zoom. by destruct (m (get s)). Qed.

Lemma zoom_eq {A} (m : stm T A) s x t : m (get s) = (x, t) → zoom m s = (x, put t s).
Proof. unfold zoom. by intros ->. Qed.
End Zoom.
