(* ===== verification/Systems.v ===== *)
(** * The system registry
    (include/liquid/System.hpp, include/liquid/detail/SystemRegistry.hpp,
     src/SystemRegistry.cpp)

    Systems are registered by C++ type with the signature a behaviour's
    accessible component types must cover to belong to them; belonging and
    leaving call back into the system, and so does running it.

    [Y] are the C++ types of the host's systems ([std::type_index]), [W] is the
    whole world, of which the registry is a part ([SystemHost]): the code of a
    system, given per type by [code] because its methods are virtual, may do
    anything to that world.  The fields of the host's own system classes belong
    to [W] as well.  While such code runs [dispatchDepth] is positive and the
    registry refuses to change; iterating it is therefore modelled over the
    vector as it was at the start. *)
From stdpp Require Import pretty.
From S2P Require Import Prelude Ids Hoare.

Inductive SystemPhase := InputPhase | BehaviorPhase | DecisionPhase.

#[export] Instance SystemPhase_eq_dec : EqDecision SystemPhase.
Proof. solve_decision. Defined.

(** [SystemRecord] with the base class [System] of the object it points to. *)
Record SystemRecord := MkSystemRecord {
  signature : N;
  stableName : string;
  version : N;
  phase : SystemPhase;
  behaviours : gset BehaviorId
}.

Definition set_signature (s : N) (r : SystemRecord) : SystemRecord :=
  MkSystemRecord s (stableName r) (version r) (phase r) (behaviours r).
Definition set_behaviours (b : gset BehaviorId) (r : SystemRecord) : SystemRecord :=
  MkSystemRecord (signature r) (stableName r) (version r) (phase r) b.

Record SystemRegistry (Y : Type) `{Countable Y} := MkSystemRegistry {
  systems : gmap Y SystemRecord;
  registrationOrder : list Y;
  dispatchDepth : N
}.
Arguments MkSystemRegistry {Y _ _}.
Arguments systems {Y _ _}.
Arguments registrationOrder {Y _ _}.
Arguments dispatchDepth {Y _ _}.

(** The registry as a part of a world. *)
Class SystemHost (Y W : Type) `{Countable Y} := {
  host_systems : W → SystemRegistry Y;
  host_set_systems : SystemRegistry Y → W → W;
  host_get_set r w : host_systems (host_set_systems r w) = r;
  host_set_get w : host_set_systems (host_systems w) w = w;
  host_set_set r r' w : host_set_systems r (host_set_systems r' w) = host_set_systems r w
}.

(** The virtual methods of a system. *)
Record SystemCode (W : Type) := MkSystemCode {
  on_behavior_added : BehaviorId → stm W unit;
  on_behavior_removed : BehaviorId → stm W unit;
  run_system : N → N → stm W unit
}.
Arguments MkSystemCode {W}.
Arguments on_behavior_added {W}.
Arguments on_behavior_removed {W}.
Arguments run_system {W}.

(** Those of the base class do nothing. *)
Definition default_system {W} : SystemCode W :=
  MkSystemCode (λ _, mret tt) (λ _, mret tt) (λ _ _, mret tt).

Section Registry.
Context {Y W : Type} `{Countable Y} `{!SystemHost Y W}.
Implicit Types (r : SystemRegistry Y) (w : W).

Definition new_SystemRegistry : SystemRegistry Y := MkSystemRegistry ∅ [] 0.

Definition set_systems x r : SystemRegistry Y :=
  MkSystemRegistry x (registrationOrder r) (dispatchDepth r).
Definition set_depth d r : SystemRegistry Y :=
  MkSystemRegistry (systems r) (registrationOrder r) d.

Definition on_host {A} (m : stm (SystemRegistry Y) A) : stm W A :=
  zoom host_systems host_set_systems m.

(** [DispatchGuard]: the destructor runs on both ways out. *)
Definition guarded {A} (m : stm W A) : stm W A := λ w,
  let r := host_systems w in
  let '(x, w) := m (host_set_systems (set_depth (dispatchDepth r + 1) r) w) in
  let r := host_systems w in
  (x, host_set_systems (set_depth (dispatchDepth r - 1) r) w).

Definition ensure_structural_mutation_allowed : stm W unit := λ w,
  sreject_if (0 <? dispatchDepth (host_systems w)) logic_error
    "system registry topology cannot change during dispatch" w.

Definition dispatching r : bool := 0 <? dispatchDepth r.
Definition system_count r : N := N.of_nat (size (systems r)).

(** [systems.at(type)] *)
Definition systems_at (type : Y) r : res SystemRecord :=
  match systems r !! type with
  | Some record => Ok record
  | None => throw out_of_range "unordered_map::at"
  end.

(** [systems.find(type)], or the exception every query throws. *)
Definition find_system (type : Y) r : res SystemRecord :=
  match systems r !! type with
  | Some record => Ok record
  | None => throw runtime_error "system not registered"
  end.

Definition put_record (type : Y) (record : SystemRecord) : stm W unit :=
  on_host (smodify (λ r, set_systems (<[type := record]> (systems r)) r)).

(** [register_system<SystemType>]; [construct] is the constructor. *)
Definition register_system (type : Y) (sig : N) (ph : SystemPhase) (name : string) (ver : N)
    (construct : stm W unit) : stm W unit :=
  ensure_structural_mutation_allowed;;
  w ← sget;
  sreject_if (bool_decide (is_Some (systems (host_systems w) !! type))) runtime_error
    "system already registered";;
  sreject_if (bool_decide (name = "") || (ver =? 0)) invalid_argument
    "system stable name and version are required";;
  construct;;
  w ← sget;
  sreject_if (bool_decide (is_Some (systems (host_systems w) !! type))) runtime_error
    "system already registered";;
  put_record type (MkSystemRecord sig name ver ph ∅);;
  on_host (smodify (λ r, MkSystemRegistry (systems r) (registrationOrder r ++ [type])
    (dispatchDepth r))).

Definition destroy_system (type : Y) : stm W unit :=
  ensure_structural_mutation_allowed;;
  w ← sget;
  slift (find_system type (host_systems w));;
  on_host (smodify (λ r, MkSystemRegistry (delete type (systems r))
    (filter (λ t, t ≠ type) (registrationOrder r)) (dispatchDepth r))).

Definition exists_system (type : Y) r : bool := bool_decide (is_Some (systems r !! type)).

Definition set_system_signature (type : Y) (sig : N) : stm W unit :=
  ensure_structural_mutation_allowed;;
  w ← sget;
  record ← slift (find_system type (host_systems w));
  put_record type (set_signature sig record).

Definition system_signature (type : Y) r : res N := signature <$> find_system type r.

(** [get_system]: the registered object; its dynamic type is the one it was
    registered with. *)
Definition get_system (type : Y) r : res SystemRecord := find_system type r.

Definition has_behavior (type : Y) (behavior : BehaviorId) r : res bool :=
  record ← find_system type r; Ok (bool_decide (behavior ∈ behaviours record)).
Definition behavior_count (type : Y) r : res N :=
  record ← find_system type r; Ok (N.of_nat (size (behaviours record))).

(** [(behaviorSignature & record.signature) == record.signature] *)
Definition covers (sig : N) (record : SystemRecord) : bool :=
  N.land sig (signature record) =? signature record.

Context (code : Y → SystemCode W).

(** [emplace] and the callback it leads to, and the same for [erase]. *)
Definition admit_behavior (type : Y) (record : SystemRecord) (behavior : BehaviorId)
    (callback : stm W unit → stm W (option exn)) : stm W (option exn) :=
  put_record type (set_behaviours ({[behavior]} ∪ behaviours record) record);;
  if decide (behavior ∈ behaviours record) then mret None
  else callback (on_behavior_added (code type) behavior).

Definition dismiss_behavior (type : Y) (record : SystemRecord) (behavior : BehaviorId)
    (callback : stm W unit → stm W (option exn)) : stm W (option exn) :=
  put_record type (set_behaviours (behaviours record ∖ {[behavior]}) record);;
  if decide (behavior ∈ behaviours record)
  then callback (on_behavior_removed (code type) behavior) else mret None.

(** A callback outside a [try] block. *)
Definition uncaught (m : stm W unit) : stm W (option exn) := guarded m;; mret None.

Definition add_behavior (type : Y) (behavior : BehaviorId) : stm W unit :=
  ensure_structural_mutation_allowed;;
  w ← sget;
  record ← slift (find_system type (host_systems w));
  admit_behavior type record behavior uncaught;; mret tt.

Definition remove_behavior_from (type : Y) (behavior : BehaviorId) : stm W unit :=
  ensure_structural_mutation_allowed;;
  w ← sget;
  record ← slift (find_system type (host_systems w));
  dismiss_behavior type record behavior uncaught;; mret tt.

Definition update_behavior (behavior : BehaviorId) (behaviorSignature : N) : stm W unit :=
  ensure_structural_mutation_allowed;;
  guarded (
    w ← sget;
    for_capturing (λ type,
      w ← sget;
      record ← slift (systems_at type (host_systems w));
      if covers behaviorSignature record then admit_behavior type record behavior captured
      else dismiss_behavior type record behavior captured)
      (registrationOrder (host_systems w)) None).

Definition remove_behavior (behavior : BehaviorId) : stm W unit :=
  ensure_structural_mutation_allowed;;
  guarded (
    w ← sget;
    for_capturing (λ type,
      w ← sget;
      record ← slift (systems_at type (host_systems w));
      dismiss_behavior type record behavior captured)
      (registrationOrder (host_systems w)) None).

(** The out-parameters of [run_systems], written whether or not the caller
    passed them. *)
Record progress := MkProgress { completedSystems : N; failingSystem : string }.

Definition on_world {A} (m : stm W A) : stm (W * progress) A := λ s,
  let '(x, w) := m s.1 in (x, (w, s.2)).
Definition set_completed n : stm (W * progress) unit :=
  smodify (λ s, (s.1, MkProgress n (failingSystem s.2))).
Definition set_failing name : stm (W * progress) unit :=
  smodify (λ s, (s.1, MkProgress (completedSystems s.2) name)).

Definition system_label (record : SystemRecord) : string :=
  stableName record +:+ "@" +:+ pretty (version record).

Fixpoint run_loop (frame now : N) (ph : SystemPhase) (order : list Y) (systemsRun : N)
  : stm (W * progress) N :=
  match order with
  | [] => mret systemsRun
  | type :: order =>
      s ← sget;
      record ← slift (systems_at type (host_systems s.1));
      if bool_decide (phase record ≠ ph) then run_loop frame now ph order systemsRun
      else
        set_failing (system_label record);;
        on_world (run_system (code type) frame now);;
        set_completed (systemsRun + 1);;
        run_loop frame now ph order (systemsRun + 1)
  end.

(** [DispatchGuard] around a computation with out-parameters. *)
Definition guarded_progress {A} (m : stm (W * progress) A) : stm (W * progress) A := λ s,
  let r := host_systems s.1 in
  let '(x, s) := m (host_set_systems (set_depth (dispatchDepth r + 1) r) s.1, s.2) in
  let r := host_systems s.1 in
  (x, (host_set_systems (set_depth (dispatchDepth r - 1) r) s.1, s.2)).

Definition run_systems (frame now : N) (ph : SystemPhase) : stm (W * progress) N :=
  on_world ensure_structural_mutation_allowed;;
  guarded_progress (
    set_completed 0;;
    s ← sget;
    systemsRun ← run_loop frame now ph (registrationOrder (host_systems s.1)) 0;
    set_failing "";;
    mret systemsRun).
End Registry.

(** * Facts *)

(** Every registered type is in the order once. *)
Definition registry_wf {Y} `{Countable Y} (r : SystemRegistry Y) : Prop :=
  NoDup (registrationOrder r) ∧
  ∀ type, type ∈ registrationOrder r ↔ is_Some (systems r !! type).

Section Facts.
Context {Y W : Type} `{Countable Y} `{!SystemHost Y W} (code : Y → SystemCode W).
Implicit Types (r : SystemRegistry Y) (w : W).

(** Membership as the signature dictates it, and without a behaviour. *)
Definition membership (b : BehaviorId) (sig : N) (record : SystemRecord) : SystemRecord :=
  set_behaviours (if covers sig record then {[b]} ∪ behaviours record
                  else behaviours record ∖ {[b]}) record.
Definition without_behavior (b : BehaviorId) (record : SystemRecord) : SystemRecord :=
  set_behaviours (behaviours record ∖ {[b]}) record.

Definition map_systems (g : SystemRecord → SystemRecord) r : SystemRegistry Y :=
  set_systems (g <$> systems r) r.

Lemma registry_wf_map g r : registry_wf r → registry_wf (map_systems g r).
Proof. intros [Hnd Hin]. split; [done|]. intros type. cbn. by rewrite lookup_fmap, fmap_is_Some, Hin. Qed.

(** What the code of systems does while the registry is dispatching: it leaves
    the registry alone and moves along a preorder that ignores the registry. *)
Context (R : W → W → Prop) `{!PreOrder R}.
Hypothesis R_systems : ∀ r w, R w (host_set_systems r w).

Definition well_behaved (m : stm W unit) : Prop :=
  ∀ w, 0 < dispatchDepth (host_systems w) →
    host_systems (m w).2 = host_systems w ∧ R w (m w).2.

Hypothesis added_ok : ∀ y b, well_behaved (on_behavior_added (code y) b).
Hypothesis removed_ok : ∀ y b, well_behaved (on_behavior_removed (code y) b).

Lemma captured_ok m w (Q : res (option exn) → W → Prop) :
  well_behaved m → 0 < dispatchDepth (host_systems w) →
  (∀ e w', host_systems w' = host_systems w → R w w' → Q (Ok e) w') → wp (captured m) Q w.
Proof.
  intros Hm Hd HQ. apply wp_captured, wp_intro. intros x w' E.
  destruct (Hm w Hd) as [Hs HR]. rewrite E in Hs, HR. by apply HQ.
Qed.

Lemma put_record_wp type record w (Q : res unit → W → Prop) :
  Q (Ok tt) (host_set_systems (set_systems (<[type := record]> (systems (host_systems w)))
    (host_systems w)) w) → wp (put_record type record) Q w.
Proof. done. Qed.

Lemma ensure_allowed w :
  dispatchDepth (host_systems w) = 0 → ensure_structural_mutation_allowed w = (Ok tt, w).
Proof. unfold ensure_structural_mutation_allowed. by intros ->. Qed.

(** A body that changes the record of its system by [g], calling back or not. *)
Definition changes_record (g : SystemRecord → SystemRecord) (type : Y)
    (m : stm W (option exn)) : Prop :=
  ∀ w record, systems (host_systems w) !! type = Some record →
    0 < dispatchDepth (host_systems w) →
    wp m (λ y w', (∃ e, y = Ok e) ∧ R w w' ∧ host_systems w' =
      set_systems (<[type := g record]> (systems (host_systems w))) (host_systems w)) w.

Lemma changed_with_callback type record w (m : stm W unit) (c : bool) :
  well_behaved m → 0 < dispatchDepth (host_systems w) →
  let r' := set_systems (<[type := record]> (systems (host_systems w))) (host_systems w) in
  wp (put_record type record;; if c then captured m else mret None)
    (λ y w', (∃ e, y = Ok e) ∧ R w w' ∧ host_systems w' = r') w.
Proof.
  intros Hm Hd r'. apply wp_bind, put_record_wp. cbn [then_wp]. destruct c.
  - apply captured_ok; [done|by rewrite host_get_set|].
    intros e w' Hs HR. rewrite host_get_set in Hs. split_and!; [eauto| |done].
    etransitivity; [apply R_systems|exact HR].
  - apply wp_ret. split_and!; [eauto|apply R_systems|by rewrite host_get_set].
Qed.

Lemma admit_changes type b w record :
  0 < dispatchDepth (host_systems w) →
  wp (admit_behavior code type record b captured)
    (λ y w', (∃ e, y = Ok e) ∧ R w w' ∧ host_systems w' =
      set_systems (<[type := set_behaviours ({[b]} ∪ behaviours record) record]>
        (systems (host_systems w))) (host_systems w)) w.
Proof.
  intros Hd. pose proof (changed_with_callback type
    (set_behaviours ({[b]} ∪ behaviours record) record) w _
    (negb (bool_decide (b ∈ behaviours record))) (added_ok type b) Hd) as Hwp.
  unfold admit_behavior. by case_decide as Hb;
    [rewrite bool_decide_eq_true_2 in Hwp|rewrite bool_decide_eq_false_2 in Hwp].
Qed.

Lemma dismiss_changes type b : changes_record (without_behavior b) type
  (w ← sget; record ← slift (systems_at type (host_systems w));
   dismiss_behavior code type record b captured).
Proof.
  intros w record Hr Hd. unfold systems_at.
  pose proof (changed_with_callback type (without_behavior b record) w _
    (bool_decide (b ∈ behaviours record)) (removed_ok type b) Hd) as Hwp.
  apply wp_bind, wp_get, wp_bind, wp_lift. rewrite Hr. cbn [then_wp].
  unfold dismiss_behavior. by case_decide as Hb;
    [rewrite bool_decide_eq_true_2 in Hwp|rewrite bool_decide_eq_false_2 in Hwp].
Qed.

Lemma update_changes type b sig : changes_record (membership b sig) type
  (w ← sget; record ← slift (systems_at type (host_systems w));
   if covers sig record then admit_behavior code type record b captured
   else dismiss_behavior code type record b captured).
Proof.
  intros w record Hr Hd. unfold membership. destruct (covers sig record) eqn:Hc.
  - apply wp_bind, wp_get, wp_bind, wp_lift. unfold systems_at. rewrite Hr. cbn [then_wp].
    rewrite Hc. by apply admit_changes.
  - pose proof (dismiss_changes type b w record Hr Hd) as Hwp. revert Hwp.
    unfold wp, mbind, stm_bind, sget, slift, systems_at. rewrite Hr, Hc. done.
Qed.

(** A dispatch over all systems. *)
Lemma dispatch_spec (g : SystemRecord → SystemRecord) (body : Y → stm W (option exn)) w :
  (∀ type, changes_record g type (body type)) →
  registry_wf (host_systems w) → dispatchDepth (host_systems w) = 0 →
  wp (ensure_structural_mutation_allowed;;
      guarded (w ← sget; for_capturing body (registrationOrder (host_systems w)) None))
    (λ _ w', host_systems w' = map_systems g (host_systems w) ∧ R w w') w.
Proof.
  intros Hbody [Hnd Hin] Hd. eapply wp_bind_eq; [by apply ensure_allowed|].
  set (r0 := host_systems w) in *. set (w1 := host_set_systems (set_depth 1 r0) w).
  cut (wp (w ← sget; for_capturing body (registrationOrder (host_systems w)) None)
    (λ _ w', host_systems w' = set_depth 1 (map_systems g r0) ∧ R w w') w1).
  { unfold wp at 1 2, guarded. fold r0. rewrite Hd. change (0 + 1) with 1. fold w1.
    destruct (mbind (M:=stm W) _ _ w1) as [x w2]. cbn [fst snd]. intros [-> HR].
    rewrite host_get_set. split.
    - destruct r0; cbn in *. by rewrite Hd.
    - etransitivity; [exact HR|apply R_systems]. }
  apply wp_bind, wp_get. cbn [then_wp]. unfold w1 at 1. rewrite host_get_set.
  cbn [registrationOrder set_depth].
  apply (wp_for_capturing _ _ _ (λ k w', NoDup k ∧ (∀ t, t ∈ k → t ∈ registrationOrder r0) ∧
    R w w' ∧ registrationOrder (host_systems w') = registrationOrder r0 ∧
    dispatchDepth (host_systems w') = 1 ∧ ∀ t, systems (host_systems w') !! t =
      (if decide (t ∈ k) then systems r0 !! t else g <$> systems r0 !! t))).
  - unfold w1. rewrite host_get_set. split_and!; [done|done|apply R_systems|done..|].
    intros t. case_decide as Ht; [done|]. cbn. destruct (systems r0 !! t) eqn:E; [|done].
    destruct Ht. apply Hin. eauto.
  - intros type k w2 (Hnd' & Hsub & HR & Ho & Hd' & Hs).
    destruct (proj1 (Hin type) (Hsub type ltac:(left))) as [record Hr].
    eapply wp_mono; [apply (Hbody type w2 record)|].
    + rewrite Hs, decide_True by left. done.
    + lia.
    + intros y w3 (Hy & HR' & Hs'). apply NoDup_cons in Hnd' as [Hnot Hnd'].
      split_and!; [done|done|intros t Ht; apply Hsub; by right|by etransitivity|
        by rewrite Hs'|by rewrite Hs'|].
      intros t. rewrite Hs'. cbn. destruct (decide (t = type)) as [->|Hne].
      * by rewrite lookup_insert_eq, decide_False, Hr.
      * rewrite lookup_insert_ne by done. rewrite Hs.
        repeat case_decide; try done; set_solver.
  - intros x w2 (_ & _ & HR & Ho & Hd' & Hs). split; [|done].
    destruct (host_systems w2) as [ss o d], r0 as [ss0 o0 d0]. cbn in *. subst.
    unfold map_systems, set_systems, set_depth. cbn. f_equal. apply map_eq. intros t.
    rewrite Hs, lookup_fmap, decide_False by apply not_elem_of_nil. done.
Qed.

Lemma dispatch_update_spec b sig w :
  registry_wf (host_systems w) → dispatchDepth (host_systems w) = 0 →
  wp (update_behavior code b sig)
    (λ _ w', host_systems w' = map_systems (membership b sig) (host_systems w) ∧ R w w') w.
Proof. apply dispatch_spec. intros type. apply update_changes. Qed.

Lemma dispatch_remove_spec b w :
  registry_wf (host_systems w) → dispatchDepth (host_systems w) = 0 →
  wp (remove_behavior code b)
    (λ _ w', host_systems w' = map_systems (without_behavior b) (host_systems w) ∧ R w w') w.
Proof. apply dispatch_spec. intros type. apply dismiss_changes. Qed.

(** ** Running *)

Hypothesis run_ok : ∀ y frame now, well_behaved (run_system (code y) frame now).

(** The systems of a phase, in the order they were registered. *)
Definition due (ph : SystemPhase) r (order : list Y) : list Y :=
  filter (λ type, phase <$> systems r !! type = Some ph) order.

(** Each of them ran and returned. *)
Inductive executed (frame now : N) : list Y → W → W → Prop :=
  | executed_nil w : executed frame now [] w w
  | executed_cons type order w w' w'' :
      run_system (code type) frame now w = (Ok tt, w') → executed frame now order w' w'' →
      executed frame now (type :: order) w w''.

(** What a run leaves: all ran, or one threw and the ones after it did not run. *)
Definition ran (frame now : N) (types : list Y) r (n : N) w (x : res N) (s : W * progress) : Prop :=
  match x with
  | Ok m => executed frame now types w s.1 ∧ m = n + len types ∧ completedSystems s.2 = m
  | Err e => ∃ before type after w' record, types = before ++ type :: after ∧
      executed frame now before w w' ∧ run_system (code type) frame now w' = (Err e, s.1) ∧
      systems r !! type = Some record ∧
      s.2 = MkProgress (n + len before) (system_label record)
  end.

Lemma run_loop_spec frame now ph order n w p :
  (∀ type, type ∈ order → is_Some (systems (host_systems w) !! type)) →
  0 < dispatchDepth (host_systems w) → completedSystems p = n →
  wp (run_loop code frame now ph order n)
    (λ x s, R w s.1 ∧ host_systems s.1 = host_systems w ∧
       ran frame now (due ph (host_systems w) order) (host_systems w) n w x s) (w, p).
Proof.
  revert n w p. induction order as [|type order IH]; intros n w p Hreg Hd Hp.
  - apply wp_ret. split_and!; [done|done|]. cbn. rewrite len_nil, N.add_0_r.
    split; [constructor|done].
  - destruct (Hreg type ltac:(left)) as [record Hr].
    assert (∀ t, t ∈ order → is_Some (systems (host_systems w) !! t)) as Hreg'.
    { intros t Ht. apply Hreg. by right. }
    cbn [run_loop]. apply wp_bind, wp_get. cbn [then_wp].
    eapply wp_bind_eq; [unfold slift, systems_at; cbn [fst]; by rewrite Hr|].
    unfold due. rewrite filter_cons, Hr. cbn [fmap option_fmap option_map].
    case_bool_decide as Hph.
    { rewrite decide_False by congruence. by apply IH. }
    rewrite decide_True by congruence. fold (due ph (host_systems w) order).
    eapply wp_bind_eq; [done|].
    destruct (run_ok type frame now w Hd) as [Hs HR].
    apply wp_bind, wp_intro. unfold on_world. cbn [fst snd].
    destruct (run_system (code type) frame now w) as [[[]|e] w'] eqn:E; cbn in Hs, HR;
      intros x s' [= <- <-]; cbn [then_wp].
    + eapply wp_bind_eq; [done|]. eapply wp_mono; [apply IH; cbn; [by rewrite Hs|by rewrite Hs|done]|].
      intros x s (HR' & Hs' & Hran). cbn [fst] in HR', Hs', Hran. rewrite Hs in Hs', Hran.
      split_and!; [by etransitivity|done|]. destruct x as [m|e]; cbn in Hran |- *.
      * destruct Hran as (? & -> & ?). split_and!; [by econstructor|rewrite len_cons; lia|done].
      * destruct Hran as (before & t & after & w'' & rec & -> & ? & ? & ? & Hs2).
        exists (type :: before), t, after, w'', rec. split_and!; [done|by econstructor|done|done|].
        rewrite Hs2, len_cons. f_equal. lia.
    + cbn. split_and!; [done|done|]. exists [], type, (due ph (host_systems w) order), w, record.
      split_and!; [done|constructor|done|done|]. rewrite len_nil, N.add_0_r, <-Hp. done.
Qed.

(** The world with the registry's dispatch counter at [d]. *)
Definition at_depth (d : N) w : W :=
  host_set_systems (set_depth d (host_systems w)) w.

Lemma run_systems_spec frame now ph w p :
  registry_wf (host_systems w) → dispatchDepth (host_systems w) = 0 →
  wp (run_systems code frame now ph)
    (λ x s, R w s.1 ∧ host_systems s.1 = host_systems w ∧
       ∃ s1, s.1 = at_depth 0 s1.1 ∧
         ran frame now (due ph (host_systems w) (registrationOrder (host_systems w)))
           (host_systems w) 0 (at_depth 1 w) x s1 ∧
         s.2 = match x with Ok n => MkProgress n "" | Err _ => s1.2 end) (w, p).
Proof.
  intros [Hnd Hin] Hd. eapply wp_bind_eq.
  { unfold on_world. cbn [fst]. by rewrite ensure_allowed. }
  assert (host_systems (at_depth 1 w) = set_depth 1 (host_systems w)) as Hs1
    by (unfold at_depth; by rewrite host_get_set).
  cut (wp (set_completed 0;; s ← sget;
           systemsRun ← run_loop code frame now ph (registrationOrder (host_systems s.1)) 0;
           set_failing "";; mret systemsRun)
    (λ x s, R w s.1 ∧ host_systems s.1 = set_depth 1 (host_systems w) ∧
       ∃ p1, ran frame now (due ph (host_systems w) (registrationOrder (host_systems w)))
           (host_systems w) 0 (at_depth 1 w) x (s.1, p1) ∧
         s.2 = match x with Ok n => MkProgress n "" | Err _ => p1 end) (at_depth 1 w, p)).
  { unfold wp, guarded_progress. cbn [fst snd]. rewrite Hd. change (0 + 1) with 1.
    fold (at_depth 1 w). destruct (mbind (M:=stm (W * progress)) _ _ (at_depth 1 w, p)) as [x [w2 p2]].
    cbn [fst snd]. intros (HR & Hs & p1 & Hran & Hp). rewrite Hs. cbn [dispatchDepth set_depth].
    change (1 - 1) with 0.
    assert (host_set_systems (set_depth 0 (set_depth 1 (host_systems w))) w2 = at_depth 0 w2) as ->
      by (unfold at_depth; by rewrite Hs).
    split_and!.
    - etransitivity; [exact HR|apply R_systems].
    - unfold at_depth. rewrite host_get_set, Hs. destruct (host_systems w). cbn in *. by rewrite Hd.
    - by exists (w2, p1). }
  eapply wp_bind_eq; [done|]. apply wp_bind, wp_get. cbn [then_wp fst]. rewrite Hs1.
  cbn [registrationOrder set_depth]. apply wp_bind. eapply wp_mono.
  - apply run_loop_spec; rewrite ?Hs1; [|done|done]. intros t Ht. by apply Hin.
  - intros x [w2 p2] (HR & Hs & Hran). rewrite Hs1 in Hs, Hran. cbn [fst snd] in HR, Hs, Hran.
    assert (R w w2) as HR' by (etransitivity; [apply R_systems|exact HR]).
    destruct x as [m|e]; cbn [then_wp].
    + eapply wp_bind_eq; [done|]. apply wp_ret. split_and!; [done|done|].
      exists p2. split; [done|]. cbn in Hran |- *. by destruct Hran as (_ & _ & ->).
    + split_and!; [done|done|]. by exists p2.
Qed.
End Facts.
