(* ===== verification/Coordinator.v ===== *)
(** * The world and its coordinator
    (include/liquid/detail/WorldState.hpp, include/liquid/world/World.hpp,
     include/liquid/detail/Coordinator.hpp, src/world/Coordinator.cpp)

    The state of a [World] and the operations of its [Coordinator], which keep
    the registries of behaviours, components, intents and systems in step.

    [K] are the host's component types, [El k] the values of one; an intent's
    value is a pair of a type and a value, and [typeid] numbers the types for
    the storages of the intent registry.  [Y] are the host's system types.  The
    code of a system may reach the world, so the coordinator's methods act on
    the whole [World]; [D] are the fields of the host's own system classes. *)
From S2P Require Import Prelude Values Effects Ids Hoare Behaviors Intents Components Systems.

Record ComponentMutation := MkComponentMutation {
  mutation_target : ComponentTarget;
  mutation_name : string;
  before : value;
  after : value;
  mutation_removed : bool
}.

Record TopologyMutation := MkTopologyMutation {
  topology_key : string;
  topology_value : value;
  topology_removed : bool
}.

Record ScriptExecutionEvidence := MkScriptExecutionEvidence {
  script_owner : BehaviorId;
  script_now : IntentTime;
  script_source : string;
  sourceHash : string;
  sourceIncluded : bool;
  script_status : N;
  script_diagnostic : string;
  createdIntentCount : N
}.

Section Coordinator.
Context {K : Type} `{Countable K} {El : K → Type}.
Context {Y : Type} `{Countable Y} {D : Type}.

(** [std::type_index(typeid(Component))] *)
Definition typeid (k : K) : N := N.pos (encode k).

Record WorldState := MkWorldState {
  instanceId : N;
  componentRegistry : ComponentRegistry El;
  behaviorRegistry : BehaviorRegistry;
  intentRegistry : @IntentRegistry (sigT El);
  systemRegistry : SystemRegistry Y;
  behaviorSignatures : gmap BehaviorId N;
  behaviorAccessRevisions : gmap BehaviorId N;
  lastBehaviorAccessRevision : N
}.

Record World := MkWorld {
  state : WorldState;
  systemsRunning : bool;
  componentMutations : list ComponentMutation;
  topologyMutations : list TopologyMutation;
  scriptExecutions : list ScriptExecutionEvidence;
  scriptEvidenceEnabled : bool;
  intentTransactionActive : bool;
  ownerThread : N;
  systemFields : gmap Y D
}.

Definition new_WorldState (instance : N) : WorldState :=
  MkWorldState instance (new_ComponentRegistry instance) (new_BehaviorRegistry instance)
    (new_IntentRegistry instance instance) new_SystemRegistry ∅ ∅ 0.

Definition set_components x (s : WorldState) : WorldState :=
  MkWorldState (instanceId s) x (behaviorRegistry s) (intentRegistry s) (systemRegistry s)
    (behaviorSignatures s) (behaviorAccessRevisions s) (lastBehaviorAccessRevision s).
Definition set_behaviors x (s : WorldState) : WorldState :=
  MkWorldState (instanceId s) (componentRegistry s) x (intentRegistry s) (systemRegistry s)
    (behaviorSignatures s) (behaviorAccessRevisions s) (lastBehaviorAccessRevision s).
Definition set_intents x (s : WorldState) : WorldState :=
  MkWorldState (instanceId s) (componentRegistry s) (behaviorRegistry s) x (systemRegistry s)
    (behaviorSignatures s) (behaviorAccessRevisions s) (lastBehaviorAccessRevision s).
Definition set_system_registry x (s : WorldState) : WorldState :=
  MkWorldState (instanceId s) (componentRegistry s) (behaviorRegistry s) (intentRegistry s) x
    (behaviorSignatures s) (behaviorAccessRevisions s) (lastBehaviorAccessRevision s).
Definition set_signatures x (s : WorldState) : WorldState :=
  MkWorldState (instanceId s) (componentRegistry s) (behaviorRegistry s) (intentRegistry s)
    (systemRegistry s) x (behaviorAccessRevisions s) (lastBehaviorAccessRevision s).
Definition set_revisions x (s : WorldState) : WorldState :=
  MkWorldState (instanceId s) (componentRegistry s) (behaviorRegistry s) (intentRegistry s)
    (systemRegistry s) (behaviorSignatures s) x (lastBehaviorAccessRevision s).
Definition set_last_revision x (s : WorldState) : WorldState :=
  MkWorldState (instanceId s) (componentRegistry s) (behaviorRegistry s) (intentRegistry s)
    (systemRegistry s) (behaviorSignatures s) (behaviorAccessRevisions s) x.

Definition set_state x (w : World) : World :=
  MkWorld x (systemsRunning w) (componentMutations w) (topologyMutations w)
    (scriptExecutions w) (scriptEvidenceEnabled w) (intentTransactionActive w)
    (ownerThread w) (systemFields w).

#[export] Instance world_hosts_systems : SystemHost Y World.
Proof.
  refine {| host_systems := λ w, systemRegistry (state w);
            host_set_systems := λ r w, set_state (set_system_registry r (state w)) w |}.
  - done.
  - by intros [[] ? ? ? ? ? ? ? ?].
  - done.
Defined.

(** Computations of the parts, on the world. *)
Definition on_state {A} : stm WorldState A → stm World A := zoom state set_state.
Definition on_components {A} (m : stm (ComponentRegistry El) A) : stm World A :=
  on_state (zoom componentRegistry set_components m).
Definition on_behaviors {A} (m : stm BehaviorRegistry A) : stm World A :=
  on_state (zoom behaviorRegistry set_behaviors m).
Definition on_intents {A} (m : stm (@IntentRegistry (sigT El)) A) : stm World A :=
  on_state (zoom intentRegistry set_intents m).

(** Queries of a part. *)
Definition query {A} (q : WorldState → res A) : stm World A := λ w, (q (state w), w).
Definition query_components {A} (q : ComponentRegistry El → res A) : stm World A :=
  query (λ s, q (componentRegistry s)).

(** ** Guards and revisions *)

Definition require_behavior (id : BehaviorId) : stm World unit := λ w,
  sreject_if (negb (behavior_exists (behaviorRegistry (state w)) id)) runtime_error
    "behavior id not found" w.

Definition next_behavior_access_revision : stm World N :=
  w ← sget;
  let last := lastBehaviorAccessRevision (state w) in
  sreject_if (last =? u64_max) overflow_error "behavior access revision exhausted";;
  on_state (smodify (set_last_revision (last + 1)));;
  mret (last + 1).

(** [(void)state.behaviorAccessRevisions.at(behavior)] *)
Definition revision_at (behavior : BehaviorId) : stm World N :=
  query (λ s, match behaviorAccessRevisions s !! behavior with
              | Some revision => Ok revision
              | None => throw out_of_range "map::at"
              end).

(** [state.behaviorAccessRevisions.at(behavior) = revision] *)
Definition set_revision (behavior : BehaviorId) (revision : N) : stm World unit :=
  revision_at behavior;;
  on_state (smodify (λ s, set_revisions (<[behavior := revision]> (behaviorAccessRevisions s)) s)).

Definition behavior_access_revision (id : BehaviorId) : stm World N :=
  require_behavior id;;
  query (λ s, match behaviorAccessRevisions s !! id with
              | Some revision => Ok revision
              | None => throw logic_error "behavior access revision not found"
              end).

Definition behavior_signature (behavior : BehaviorId) (w : World) : N :=
  default 0 (behaviorSignatures (state w) !! behavior).

(** [std::bitset<64>::set] and [reset], on [state.behaviorSignatures[behavior]]. *)
Definition set_signature_bit (behavior : BehaviorId) (type : ComponentTypeId) (to : bool)
  : stm World unit :=
  w ← sget;
  let sig := behavior_signature behavior w in
  on_state (smodify (λ s, set_signatures (<[behavior := sig]> (behaviorSignatures s)) s));;
  sreject_if (MaxComponentTypes <=? type) out_of_range "bitset: position out of range";;
  let sig := if to then N.setbit sig type else N.clearbit sig type in
  on_state (smodify (λ s, set_signatures (<[behavior := sig]> (behaviorSignatures s)) s)).

(** ** Intents *)

Definition destroy_intents_for_target (type : ComponentTypeId) (slot : ComponentSlotId)
  : stm World unit :=
  w ← sget;
  sfor (λ id, on_intents (destroy id)) (intents_for type slot (intentRegistry (state w))).

Definition destroy_intents_for_owner_target (owner : BehaviorId) (type : ComponentTypeId)
    (slot : ComponentSlotId) : stm World unit :=
  w ← sget;
  sfor (λ id,
    o ← query (λ s, owner_of id (intentRegistry s));
    if decide (o = owner) then on_intents (destroy id) else mret tt)
    (intents_for type slot (intentRegistry (state w))).

(** The checks both [create_intent]s make, and the encoded value. *)
Definition checked_intent_value (owner : BehaviorId) (k : K) (type : ComponentType)
    (slot : ComponentSlotId) (v : El k) : stm World value :=
  require_behavior owner;;
  query_components (component_type k type);;
  found ← query_components (resolve_component k type slot);
  sreject_if (match found with None => true | Some _ => false end) runtime_error
    "component slot not found";;
  allowed ← query_components (can_write_slot k type owner slot);
  sreject_if (negb allowed) runtime_error "component write access denied";;
  has_codec ← query_components (has_component_codec k type);
  if (has_codec : bool) then query_components (encode_component k type v)
  else sthrow logic_error "component codec is required for intents".

Definition create_intent (owner : BehaviorId) (k : K) (type : ComponentType)
    (slot : ComponentSlotId) (lifetime : IntentLifetime) (v : El k)
    (priority : IntentPriority) (name : string) : stm World IntentId :=
  encodedValue ← checked_intent_value owner k type slot v;
  on_intents (create owner (type_id type) (typeid k) slot lifetime (existT k v) priority
    encodedValue name).

(** The overload for a transaction, which is at hand besides the world. *)
Definition create_intent_in (owner : BehaviorId) (k : K) (type : ComponentType)
    (slot : ComponentSlotId) (lifetime : IntentLifetime) (v : El k)
    (priority : IntentPriority) (name : string) : stm (World * Transaction) IntentId := λ s,
  match checked_intent_value owner k type slot v s.1 with
  | (Err e, w) => (Err e, (w, s.2))
  | (Ok encodedValue, w) =>
      let '(x, (r, t)) := create_in_transaction owner (type_id type) (typeid k) slot lifetime
        (existT k v) priority encodedValue name (intentRegistry (state w), s.2) in
      (x, (set_state (set_intents r (state w)) w, t))
  end.

Definition intent_count (owner : BehaviorId) : stm World N :=
  require_behavior owner;;
  query (λ s, Ok (owned_count owner (intentRegistry s))).

Definition resolve_intents (type : ComponentTypeId) (components : list (string * ComponentSlotId))
  : stm World (list (string * IntentId)) :=
  query (λ s, select type components (intentRegistry s)).

Definition resolution_request_is_current (type : ComponentTypeId)
    (components : list (string * ComponentSlotId)) (w : World) : bool :=
  let r := componentRegistry (state w) in
  component_type_exists type r &&
  forallb (λ p, component_matches type p.1 p.2 r) components.

(** ** Components *)

Definition replace_component (k : K) (type : ComponentType) (behavior : BehaviorId)
    (name : string) (component : El k) : stm World unit :=
  require_behavior behavior;;
  allowed ← query_components (can_write k type behavior name);
  sreject_if (negb allowed) runtime_error "component write access denied";;
  on_components (Components.replace_component k type name component).

Definition get_components (k : K) (type : ComponentType) (behavior : BehaviorId)
  : stm World (gmap string ComponentSlotId) :=
  require_behavior behavior;;
  query_components (Components.get_components k type behavior).

(** [read_component] and, for [Mode_w], [write_component]. *)
Definition access_component (wanted : Mode) (denied : string) (k : K) (type : ComponentType)
    (behavior : BehaviorId) (name : string) : stm World (option (El k)) :=
  require_behavior behavior;;
  slot ← query_components (component_slot k type name);
  allowed ← query_components (can_access_slot wanted k type behavior slot);
  sreject_if (negb allowed) runtime_error denied;;
  query_components (resolve_component k type slot).
Definition read_component := access_component Mode_r "component read access denied".
Definition write_component := access_component Mode_w "component write access denied".

(** ** Operations that call back into systems *)

Context (code : Y → SystemCode World).

Definition update_system_memberships (behavior : BehaviorId) : stm World unit :=
  w ← sget; Systems.update_behavior code behavior (behavior_signature behavior w).

Definition update_all_system_memberships : stm World unit :=
  w ← sget;
  for_capturing (λ behavior, captured (update_system_memberships behavior))
    (ordered (dom (behaviorSignatures (state w)))) None.

(** The insertions of [create_behavior], which must find no entry. *)
Definition emplace_signature (behavior : BehaviorId) : stm World unit :=
  w ← sget;
  sreject_if (bool_decide (is_Some (behaviorSignatures (state w) !! behavior))) logic_error
    "behavior signature already exists";;
  on_state (smodify (λ s, set_signatures (<[behavior := 0]> (behaviorSignatures s)) s)).

Definition emplace_revision (behavior : BehaviorId) (accessRevision : N) : stm World unit :=
  w ← sget;
  sreject_if (bool_decide (is_Some (behaviorAccessRevisions (state w) !! behavior))) logic_error
    "behavior access revision already exists";;
  on_state (smodify (λ s,
    set_revisions (<[behavior := accessRevision]> (behaviorAccessRevisions s)) s)).

Definition forget_behavior_entries (behavior : BehaviorId) : stm World unit :=
  on_state (smodify (λ s, set_signatures (delete behavior (behaviorSignatures s)) s));;
  on_state (smodify (λ s, set_revisions (delete behavior (behaviorAccessRevisions s)) s)).

Definition create_behavior : stm World BehaviorId :=
  accessRevision ← next_behavior_access_revision;
  behavior ← on_behaviors Behaviors.create_behavior;
  stry (on_intents (create_behavior_pool behavior);;
        emplace_signature behavior;;
        emplace_revision behavior accessRevision;;
        update_system_memberships behavior)
    (λ creationException,
       captured (Systems.remove_behavior code behavior);;
       forget_behavior_entries behavior;;
       on_intents (destroy_owned_by behavior);;
       on_behaviors (Behaviors.destroy_behavior behavior);;
       slift (Err creationException));;
  mret behavior.

Definition destroy_behavior (id : BehaviorId) : stm World unit :=
  require_behavior id;;
  on_components (smodify (Components.remove_behavior id));;
  forget_behavior_entries id;;
  callbackException ← captured (Systems.remove_behavior code id);
  on_intents (destroy_owned_by id);;
  on_behaviors (Behaviors.destroy_behavior id);;
  rethrow callbackException.

Definition register_system (type : Y) (sig : N) (ph : SystemPhase) (name : string) (ver : N)
    (construct : stm World unit) : stm World unit :=
  Systems.register_system type sig ph name ver construct;;
  stry update_all_system_memberships
    (λ e, Systems.destroy_system type;; slift (Err e)).

Definition set_system_signature (type : Y) (sig : N) : stm World unit :=
  Systems.set_system_signature type sig;;
  update_all_system_memberships.

(** The behaviours whose rights the removal of a slot takes away. *)
Fixpoint bump_revisions (k : K) (type : ComponentType) (slot : ComponentSlotId)
    (affectedBehaviors : list BehaviorId) : stm World (list (BehaviorId * N)) :=
  match affectedBehaviors with
  | [] => mret []
  | behavior :: affectedBehaviors =>
      canRead ← query_components (can_read_slot k type behavior slot);
      hasTargetAccess ← (if (canRead : bool) then mret true
                         else query_components (can_write_slot k type behavior slot));
      if (hasTargetAccess : bool) then
        revision_at behavior;;
        revision ← next_behavior_access_revision;
        accessRevisions ← bump_revisions k type slot affectedBehaviors;
        mret ((behavior, revision) :: accessRevisions)
      else bump_revisions k type slot affectedBehaviors
  end.

(** A behaviour left without a component of the type leaves the systems that
    ask for it. *)
Definition settle_behavior (k : K) (type : ComponentType) (typeId : ComponentTypeId)
    (callback : stm World unit → stm World (option exn)) (behavior : BehaviorId)
  : stm World (option exn) :=
  available ← query_components (Components.get_components k type behavior);
  if decide (available = ∅) then
    set_signature_bit behavior typeId false;;
    callback (update_system_memberships behavior)
  else mret None.

Definition remove_component (k : K) (type : ComponentType) (name : string) : stm World unit :=
  typeId ← query_components (component_type k type);
  slot ← query_components (component_slot k type name);
  affectedBehaviors ← query_components (behaviors_with_access k type);
  accessRevisions ← bump_revisions k type slot affectedBehaviors;
  destroy_intents_for_target typeId slot;;
  on_components (Components.remove_component k type name);;
  sfor (λ p, set_revision p.1 p.2) accessRevisions;;
  for_capturing (settle_behavior k type typeId captured) affectedBehaviors None.

(** [accessChanges] of [grant_component_access]. *)
Definition access_changes (m : ComponentAccessMode) (canRead canWrite : bool) : bool :=
  match m with
  | Read => negb canRead || canWrite
  | Write => canRead || negb canWrite
  | ReadWrite => negb canRead || negb canWrite
  end.

(** [if (changes) { (void)revisions.at(behavior); next = next_revision(); }] *)
Definition reserve_revision (behavior : BehaviorId) (changes : bool) : stm World N :=
  if changes then revision_at behavior;; next_behavior_access_revision else mret 0.
Definition apply_revision (behavior : BehaviorId) (changes : bool) (revision : N)
  : stm World unit := if changes then set_revision behavior revision else mret tt.

Definition grant_component_access (k : K) (type : ComponentType) (behavior : BehaviorId)
    (name : string) (m : ComponentAccessMode) : stm World unit :=
  require_behavior behavior;;
  typeId ← query_components (component_type k type);
  slot ← query_components (component_slot k type name);
  canRead ← query_components (can_read_slot k type behavior slot);
  canWrite ← query_components (can_write_slot k type behavior slot);
  let accessChanges := access_changes m canRead canWrite in
  nextRevision ← reserve_revision behavior accessChanges;
  on_components (grant_access k type behavior name m);;
  apply_revision behavior accessChanges nextRevision;;
  (if decide (m = Read) then destroy_intents_for_owner_target behavior typeId slot
   else mret tt);;
  set_signature_bit behavior typeId true;;
  update_system_memberships behavior.

Definition revoke_component_access (k : K) (type : ComponentType) (behavior : BehaviorId)
    (name : string) : stm World unit :=
  require_behavior behavior;;
  typeId ← query_components (component_type k type);
  slot ← query_components (component_slot k type name);
  canRead ← query_components (can_read_slot k type behavior slot);
  hadAccess ← (if (canRead : bool) then mret true
               else query_components (can_write_slot k type behavior slot));
  nextRevision ← reserve_revision behavior hadAccess;
  destroy_intents_for_owner_target behavior typeId slot;;
  on_components (revoke_access k type behavior name);;
  apply_revision behavior hadAccess nextRevision;;
  settle_behavior k type typeId (λ m, m;; mret None) behavior;;
  mret tt.
End Coordinator.
Arguments World {K} El Y {_ _} D.
Arguments WorldState {K} El Y {_ _}.
