(* ===== verification/CoordinatorQueries.v ===== *)
(** * The coordinator's queries
    (include/liquid/detail/Coordinator.hpp, src/world/Coordinator.cpp)

    What the coordinator forwards to one registry, as functions of the world's
    state: a value or the exception of the registry. *)
From S2P Require Import Prelude Values Effects Ids Behaviors Intents Components Systems Coordinator.

Section Queries.
Context {K : Type} `{Countable K} {El : K → Type}.
Context {Y : Type} `{Countable Y} {D : Type}.
Abbreviation State := (WorldState El Y).

Definition behavior_exists (id : BehaviorId) (s : State) : res bool :=
  Ok (Behaviors.behavior_exists (behaviorRegistry s) id).
Definition behavior_count (s : State) : res N :=
  Ok (Behaviors.behavior_count (behaviorRegistry s)).
Definition intent_exists (id : IntentId) (s : State) : res bool :=
  Ok (Intents.intent_exists id (intentRegistry s)).
Definition intent_owner (id : IntentId) (s : State) : res BehaviorId :=
  owner_of id (intentRegistry s).
Definition intent_target (id : IntentId) (s : State) : res ComponentTarget :=
  target_of id (intentRegistry s).
Definition intent_lifetime (id : IntentId) (s : State) : res IntentLifetime :=
  lifetime_of id (intentRegistry s).
Definition intent (id : IntentId) (s : State) : res Intent :=
  Intents.intent id (intentRegistry s).
Definition live_intent_ids (s : State) : res (list IntentId) :=
  Ok (Intents.live_intent_ids (intentRegistry s)).
Definition intents_owned_by (owner : BehaviorId) (s : State) : res (list IntentId) :=
  Ok (Intents.intents_owned_by owner (intentRegistry s)).
Definition intent_named (owner : BehaviorId) (name : string)
    (s : State) : res (option IntentId) :=
  Ok (Intents.intent_named owner name (intentRegistry s)).
Definition intents_for (type : ComponentTypeId) (slot : ComponentSlotId)
    (s : State) : res (list IntentId) :=
  Ok (Intents.intents_for type slot (intentRegistry s)).
Definition intent_target_index
    (s : State) : res (gmap ComponentTypeId (gmap ComponentSlotId (gset IntentId))) :=
  Ok (byTarget (tables (intentRegistry s))).
Definition intent_lifecycle_records (s : State) : res (list IntentLifecycleRecord) :=
  Ok (lifecycleRecords (intentRegistry s)).
Definition system_count (s : State) : res N :=
  Ok (Systems.system_count (systemRegistry s)).
Definition system_membership_dispatching (s : State) : res bool :=
  Ok (dispatching (systemRegistry s)).
Definition system_exists (type : Y) (s : State) : res bool :=
  Ok (exists_system type (systemRegistry s)).
Definition system_signature (type : Y) (s : State) : res N :=
  Systems.system_signature type (systemRegistry s).
Definition get_system (type : Y) (s : State) : res SystemRecord :=
  Systems.get_system type (systemRegistry s).
Definition system_has_behavior (type : Y) (behavior : BehaviorId) (s : State) : res bool :=
  has_behavior type behavior (systemRegistry s).
Definition system_behavior_count (type : Y) (s : State) : res N :=
  Systems.behavior_count type (systemRegistry s).
Definition component_type_named (typeName : string) (s : State) : res ComponentTypeId :=
  Components.component_type_named typeName (componentRegistry s).
Definition component_type (k : K) (type : ComponentType) (s : State) : res ComponentTypeId :=
  Components.component_type k type (componentRegistry s).
Definition component_schema (k : K) (type : ComponentType) (s : State) : res ComponentSchema :=
  Components.component_schema k type (componentRegistry s).
Definition decode_component (k : K) (type : ComponentType) (v : value)
    (s : State) : res (El k) :=
  Components.decode_component k type v (componentRegistry s).
Definition has_component_named (k : K) (type : ComponentType) (name : string)
    (s : State) : res bool :=
  Components.has_component_named k type name (componentRegistry s).
Definition get_component_named (k : K) (type : ComponentType) (name : string)
    (s : State) : res (option (El k)) :=
  Components.get_component_named k type name (componentRegistry s).
Definition resolve_component (k : K) (type : ComponentType) (slot : ComponentSlotId)
    (s : State) : res (option (El k)) :=
  Components.resolve_component k type slot (componentRegistry s).
Definition typed_intent (k : K) (type : ComponentType) (id : IntentId)
    (s : State) : res (@component_intent (sigT El)) :=
  Intents.typed_intent (type_id type) (typeid k) id (intentRegistry s).
Definition can_read_component (k : K) (type : ComponentType) (behavior : BehaviorId) (name : string)
    (s : State) : res bool :=
  can_read k type behavior name (componentRegistry s).
Definition can_write_component (k : K) (type : ComponentType) (behavior : BehaviorId) (name : string)
    (s : State) : res bool :=
  can_write k type behavior name (componentRegistry s).
Definition effect_route (type : ComponentTypeId) (s : State) : res string :=
  Components.effect_route type (componentRegistry s).
Definition encode_effect_value (type : ComponentTypeId) (name : string) (v : value)
    (s : State) : res (option ResolvedEffect) :=
  Components.encode_effect_value type name v (componentRegistry s).
Definition decode_observed (type : ComponentTypeId) (v : value) (s : State) : res value :=
  Components.decode_observed type v (componentRegistry s).
Definition component_exists (type : ComponentTypeId) (slot : ComponentSlotId)
    (s : State) : res bool :=
  Ok (slot_is_current type slot (componentRegistry s)).
Definition component_value (type : ComponentTypeId) (slot : ComponentSlotId)
    (s : State) : res value :=
  encode_component_slot type slot (componentRegistry s).
Definition component_name (type : ComponentTypeId) (slot : ComponentSlotId)
    (s : State) : res string :=
  Components.component_name type slot (componentRegistry s).
Definition component_slot (k : K) (type : ComponentType) (name : string)
    (s : State) : res ComponentSlotId :=
  Components.component_slot k type name (componentRegistry s).
Definition has_component_codec (k : K) (type : ComponentType) (s : State) : res bool :=
  Components.has_component_codec k type (componentRegistry s).
Definition encode_component (k : K) (type : ComponentType) (component : El k)
    (s : State) : res value :=
  Components.encode_component k type component (componentRegistry s).
Definition encode_effect (k : K) (type : ComponentType) (name : string) (component : El k)
    (s : State) : res (option ResolvedEffect) :=
  Components.encode_effect k type name component (componentRegistry s).
End Queries.
