(* ===== verification/World.v ===== *)
(** * The world
    (include/liquid/world/World.hpp, src/world/World.cpp, and the expiry
     overloads of src/IntentExpiration.cpp)

    The public face of the coordinator: it confines the world to the thread that
    made it, refuses changes of topology while systems are being dispatched or
    an intent transaction is open, and keeps the evidence of what changed for
    the event log.

    [caller] is the thread of the call ([std::this_thread::get_id()]).  What the
    programs of systems may do is modelled in Client.v. *)
From stdpp Require Import pretty.
From S2P Require Import Prelude OrderedMap Values Effects Ids Hoare Behaviors Intents Components Systems Coordinator.

(** [next_world_instance_id] over the process-wide counter: the exchange that
    succeeds is its only effect, so the retries are left out. *)
Definition next_world_instance_id : stm N N :=
  candidate ← sget;
  sreject_if (candidate =? u64_max) overflow_error "world instance id space exhausted";;
  sput (candidate + 1);;
  mret candidate.

Definition maximumBufferedWorldEvidence : N := 1000000.
Definition maximumBufferedScriptExecutions : N := 4096.

(** *** Evidence *)

(** [Value{Value::Object}] built by [emplace]. *)
Definition object_of (entries : list (string * value)) : value :=
  VObject (foldl (λ m p, (sm_emplace p.1 p.2 m).1) [] entries).

Definition handle_label (id : handle) : string :=
  pretty (handle_world id) +:+ ":" +:+ pretty (handle_slot id) +:+ ":" +:+
  pretty (handle_generation id).
Definition behavior_key (id : BehaviorId) : string := "behavior:" +:+ handle_label id.
Definition component_key (type : ComponentTypeId) (name : string) : string :=
  "component:" +:+ pretty type +:+ ":" +:+ name.
Definition access_key (id : BehaviorId) (type : ComponentTypeId) (name : string) : string :=
  "access:" +:+ handle_label id +:+ ":" +:+ pretty type +:+ ":" +:+ name.
Definition system_key (name : string) : string := "system:" +:+ name.

(** [std::bitset<64>::to_string]: the highest bit first. *)
Definition signature_string (sig : N) : string :=
  foldr (λ i s, String (if N.testbit sig (MaxComponentTypes - 1 - N.of_nat i)
                        then "1" else "0")%char s) ""
    (seq 0 (N.to_nat MaxComponentTypes)).

Definition phase_string (ph : SystemPhase) : string :=
  match ph with InputPhase => "input" | BehaviorPhase => "behavior" | DecisionPhase => "decision" end.

(** [static_cast<std::uint64_t>(mode)] *)
Definition access_mode_number (m : ComponentAccessMode) : N :=
  match m with Read => 0 | Write => 1 | ReadWrite => 2 end.

Section World.
Context {K : Type} `{Countable K} {El : K → Type}.
Context {Y : Type} `{Countable Y} {D : Type}.
Abbreviation World := (Coordinator.World El Y D).
Abbreviation IntentTransaction := (Transaction (C := sigT El)).
Implicit Types w : World.

Definition new_World (instance thread : N) : World :=
  MkWorld (new_WorldState instance) false [] [] [] false false thread ∅.

Definition set_running b w : World :=
  MkWorld (state w) b (componentMutations w) (topologyMutations w) (scriptExecutions w)
    (scriptEvidenceEnabled w) (intentTransactionActive w) (ownerThread w) (systemFields w).
Definition set_component_mutations l w : World :=
  MkWorld (state w) (systemsRunning w) l (topologyMutations w) (scriptExecutions w)
    (scriptEvidenceEnabled w) (intentTransactionActive w) (ownerThread w) (systemFields w).
Definition set_topology_mutations l w : World :=
  MkWorld (state w) (systemsRunning w) (componentMutations w) l (scriptExecutions w)
    (scriptEvidenceEnabled w) (intentTransactionActive w) (ownerThread w) (systemFields w).
Definition set_script_executions l b w : World :=
  MkWorld (state w) (systemsRunning w) (componentMutations w) (topologyMutations w) l b
    (intentTransactionActive w) (ownerThread w) (systemFields w).
Definition set_transaction_active b w : World :=
  MkWorld (state w) (systemsRunning w) (componentMutations w) (topologyMutations w)
    (scriptExecutions w) (scriptEvidenceEnabled w) b (ownerThread w) (systemFields w).
Definition set_fields f w : World :=
  MkWorld (state w) (systemsRunning w) (componentMutations w) (topologyMutations w)
    (scriptExecutions w) (scriptEvidenceEnabled w) (intentTransactionActive w) (ownerThread w) f.

Definition record_topology (key : string) (v : value) (removed : bool) : stm World unit :=
  w ← sget;
  sreject_if (maximumBufferedWorldEvidence <=? len (topologyMutations w)) length_error
    "topology evidence capacity exceeded";;
  sput (set_topology_mutations (topologyMutations w ++ [MkTopologyMutation key v removed]) w).

Definition record_component_mutation (m : ComponentMutation) : stm World unit :=
  w ← sget;
  sreject_if (maximumBufferedWorldEvidence <=? len (componentMutations w)) length_error
    "component evidence capacity exceeded";;
  sput (set_component_mutations (componentMutations w ++ [m]) w).

(** ** Guards *)

Context (caller : N).

Definition ensure_owner_thread : stm World unit := λ w,
  sreject_if (negb (caller =? ownerThread w)) logic_error
    "world used from a non-owner thread" w.

Definition ensure_structural_mutation_allowed : stm World unit :=
  ensure_owner_thread;;
  w ← sget;
  sreject_if (systemsRunning w || dispatching (host_systems w) || intentTransactionActive w)
    logic_error "world topology cannot change during dispatch or intent commit".

(** A query on the owner's thread. *)
Definition owned {A} (m : stm World A) : stm World A := ensure_owner_thread;; m.
Definition owned_query {A} (q : WorldState El Y → res A) : stm World A := owned (query q).

(** ** Intents *)

Definition destroy_intent (id : IntentId) : stm World unit :=
  owned (on_intents (destroy id)).

(** No [ensure_owner_thread]. *)
Definition create_intent (owner : BehaviorId) (k : K) (type : ComponentType)
    (slot : ComponentSlotId) (lifetime : IntentLifetime) (v : El k)
    (priority : IntentPriority) (name : string) : stm World IntentId :=
  Coordinator.create_intent owner k type slot lifetime v priority name.

Definition intent_count (owner : BehaviorId) : stm World N :=
  owned (Coordinator.intent_count owner).

Definition clear_intent_lifecycle_records : stm World unit :=
  owned (on_intents clear_lifecycle_records).

Definition resolve_intents (type : ComponentTypeId)
    (components : list (string * ComponentSlotId)) (now : IntentTime)
  : stm World (list (string * IntentId)) :=
  ensure_owner_thread;;
  w ← sget;
  sreject_if (negb (resolution_request_is_current type components w)) invalid_argument
    "intent resolution request contains a stale component target";;
  Coordinator.resolve_intents type components.

(** [destroy_expired_intents(Coordinator&, now)] behind the world's. *)
Definition destroy_expired_intents (now : IntentTime) : stm World N :=
  ensure_owner_thread;;
  expired ← query (λ s, expired_intent_ids now (intentRegistry s));
  sfor (λ id, on_intents (destroy id)) expired;;
  mret (len expired).

(** The targets of the index that some intent has, in the order of its maps. *)
Definition targeted_slots (index : gmap ComponentTypeId (gmap ComponentSlotId (gset IntentId)))
  : list (ComponentTypeId * ComponentSlotId) :=
  type ← merge_sort N.le (elements (dom index));
  slot ← ordered (dom (filter (λ p : handle * gset handle, p.2 ≠ ∅) (default ∅ (index !! type))));
  [(type, slot)].

(** [resolution_targets]: by type and name, the slots some intent targets. *)
Definition resolution_targets : stm World (gmap ComponentTypeId (gmap string ComponentSlotId)) :=
  owned_query (λ s,
    rfold (λ targets p,
      name ← component_name p.1 p.2 (componentRegistry s);
      let slots := default ∅ (targets !! p.1) in
      Ok (<[p.1 := match slots !! name with
                   | Some _ => slots
                   | None => <[name := p.2]> slots
                   end]> targets))
      (targeted_slots (byTarget (tables (intentRegistry s)))) ∅).

(** *** Transactions: the world's part; the transaction is at hand. *)

Definition begin_intent_transaction : stm World IntentTransaction :=
  ensure_owner_thread;;
  transaction ← on_intents begin_transaction;
  smodify (set_transaction_active true);;
  mret transaction.

Definition with_transaction {A} (m : stm (@IntentRegistry (sigT El) * IntentTransaction) A)
  : stm (World * IntentTransaction) A := λ s,
  let '(x, (r, t)) := m (intentRegistry (state s.1), s.2) in
  (x, (set_state (set_intents r (state s.1)) s.1, t)).
Definition owned_transaction : stm (World * IntentTransaction) unit := λ s,
  let '(x, w) := ensure_owner_thread s.1 in (x, (w, s.2)).

Definition cancel_intent_transaction (id : IntentId) : stm (World * IntentTransaction) unit :=
  owned_transaction;; with_transaction (cancel id).

Definition commit_intent_transaction : stm (World * IntentTransaction) unit :=
  owned_transaction;;
  with_transaction commit;;
  smodify (λ s, (set_transaction_active false s.1, s.2)).

(** [None] is [std::terminate]. *)
Definition rollback_intent_transaction (s : World * Transaction)
  : option (World * IntentTransaction) :=
  '(r, t) ← rollback (intentRegistry (state s.1), s.2);
  Some (set_transaction_active false (set_state (set_intents r (state s.1)) s.1), t).

Definition create_intent_transaction (owner : BehaviorId) (k : K) (type : ComponentType)
    (slot : ComponentSlotId) (lifetime : IntentLifetime) (v : El k)
    (priority : IntentPriority) (name : string) : stm (World * IntentTransaction) IntentId :=
  owned_transaction;;
  create_intent_in owner k type slot lifetime v priority name.

(** ** Components *)

Definition get_components (k : K) (type : ComponentType) (behavior : BehaviorId)
  : stm World (gmap string ComponentSlotId) :=
  owned (Coordinator.get_components k type behavior).

Definition read_component (k : K) (type : ComponentType) (behavior : BehaviorId)
    (name : string) : stm World (option (El k)) :=
  owned (Coordinator.read_component k type behavior name).

(** [if (!current) throw ...] *)
Definition current_component (k : K) (type : ComponentType) (behavior : BehaviorId)
    (name : string) : stm World (El k) :=
  current ← read_component k type behavior name;
  match current with
  | None => sthrow runtime_error "component not found"
  | Some c => mret c
  end.

Definition replace_component (k : K) (type : ComponentType) (behavior : BehaviorId)
    (name : string) (replacement : El k) : stm World unit :=
  ensure_owner_thread;;
  current ← current_component k type behavior name;
  before ← query_components (encode_component k type current);
  after ← query_components (encode_component k type replacement);
  validated ← query_components (decode_component k type after);
  available ← get_components k type behavior;
  slot ← slift (match (available : gmap string handle) !! name with
                | Some slot => Ok slot
                | None => throw out_of_range "map::at"
                end);
  Coordinator.replace_component k type behavior name validated;;
  record_component_mutation
    (MkComponentMutation (MkComponentTarget (type_id type) slot) name before after false).

Definition update_component (k : K) (type : ComponentType) (behavior : BehaviorId)
    (name : string) (update : El k → stm World (El k)) : stm World unit :=
  current ← current_component k type behavior name;
  currentValue ← query_components (encode_component k type current);
  staged ← query_components (decode_component k type currentValue);
  staged ← update staged;
  replace_component k type behavior name staged.

Definition replace_component_value (target : ComponentTarget) (name : string)
    (replacement : value) : stm World value :=
  ensure_owner_thread;;
  before ← query_components (encode_component_slot (target_type target) (target_slot target));
  if value_eqb before replacement then mret before
  else
    after ← on_components (Components.replace_component_value (target_type target)
              (target_slot target) replacement);
    record_component_mutation (MkComponentMutation target name before after false);;
    mret after.

Definition resolve_effect (k : K) (type : ComponentType) (behavior : BehaviorId)
    (name : string) : stm World (option ResolvedEffect) :=
  ensure_owner_thread;;
  component ← read_component k type behavior name;
  match component with
  | None => mret None
  | Some c => query_components (encode_effect k type name c)
  end.

Definition component_target (k : K) (type : ComponentType) (name : string)
  : stm World ComponentTarget :=
  ensure_owner_thread;;
  slot ← query_components (component_slot k type name);
  mret (MkComponentTarget (type_id type) slot).

(** *** Script evidence *)

Definition enable_script_evidence : stm World unit :=
  owned (smodify (λ w, set_script_executions (scriptExecutions w) true w)).

Definition record_script_execution (evidence : ScriptExecutionEvidence) : stm World unit :=
  ensure_owner_thread;;
  w ← sget;
  if negb (scriptEvidenceEnabled w) then mret tt
  else
    sreject_if (maximumBufferedScriptExecutions <=? len (scriptExecutions w)) length_error
      "script execution evidence capacity exceeded";;
    sput (set_script_executions (scriptExecutions w ++ [evidence]) true w).

Definition clear_component_mutations : stm World unit :=
  owned (smodify (set_component_mutations [])).
Definition clear_topology_mutations : stm World unit :=
  owned (smodify (set_topology_mutations [])).
Definition clear_script_execution_evidence : stm World unit :=
  owned (smodify (λ w, set_script_executions [] (scriptEvidenceEnabled w) w)).

(** *** Registration without callbacks *)

Definition register_component (k : K) (schemaName : string) (schemaVersion : N)
    (encode : option (El k → res value)) (decode : option (value → res (El k)))
  : stm World ComponentType :=
  ensure_structural_mutation_allowed;;
  type ← on_components (Components.register_component k schemaName schemaVersion encode decode);
  record_topology ("component_type:" +:+ schemaName) (object_of
    [("name", VString schemaName); ("version", VUnsigned schemaVersion);
     ("type", VUnsigned (type_id type)); ("world", VUnsigned (type_world type))]) false;;
  mret type.

Definition register_effect_codec (k : K) (type : ComponentType) (route : string)
    (encode : option (string → El k → res (option ResolvedEffect)))
    (decode_observed : option (value → res (El k))) : stm World unit :=
  ensure_structural_mutation_allowed;;
  on_components (Components.register_effect_codec k type route encode decode_observed).

Definition component_evidence (type : ComponentType) (name : string) (slot : handle) : value :=
  object_of
    [("type", VUnsigned (type_id type)); ("name", VString name);
     ("slot_world", VUnsigned (handle_world slot)); ("slot", VUnsigned (handle_slot slot));
     ("generation", VUnsigned (handle_generation slot))].

Definition add_component (k : K) (type : ComponentType) (name : string) (component : El k)
  : stm World unit :=
  ensure_structural_mutation_allowed;;
  has_codec ← query_components (has_component_codec k type);
  encoded ← (if (has_codec : bool)
             then v ← query_components (encode_component k type component); mret (Some v)
             else mret None);
  on_components (Components.add_component k type name component);;
  slot ← query_components (component_slot k type name);
  (match encoded with
   | Some v => record_component_mutation
       (MkComponentMutation (MkComponentTarget (type_id type) slot) name VNull v false)
   | None => mret tt
   end);;
  record_topology (component_key (type_id type) name) (component_evidence type name slot) false.

(** ** Operations that call back into systems *)

Context (code : Y → SystemCode World).

Definition create_behavior : stm World BehaviorId :=
  ensure_owner_thread;;
  ensure_structural_mutation_allowed;;
  behavior ← Coordinator.create_behavior code;
  record_topology (behavior_key behavior) (object_of
    [("world", VUnsigned (handle_world behavior)); ("slot", VUnsigned (handle_slot behavior));
     ("generation", VUnsigned (handle_generation behavior))]) false;;
  mret behavior.

(** The evidence is recorded also when a callback threw after the destruction. *)
Definition destroy_behavior (id : BehaviorId) : stm World unit :=
  ensure_owner_thread;;
  ensure_structural_mutation_allowed;;
  w ← sget;
  let existed := Behaviors.behavior_exists (behaviorRegistry (state w)) id in
  let record_tombstone := record_topology (behavior_key id) VNull true in
  stry (Coordinator.destroy_behavior code id)
    (λ e, w ← sget;
       (if existed && negb (Behaviors.behavior_exists (behaviorRegistry (state w)) id)
        then record_tombstone else mret tt);;
       slift (Err e));;
  record_tombstone.

Definition register_system (type : Y) (sig : N) (ph : SystemPhase) (name : string) (ver : N)
    (construct : stm World unit) : stm World unit :=
  ensure_structural_mutation_allowed;;
  Coordinator.register_system code type sig ph name ver construct;;
  record_topology (system_key name) (object_of
    [("name", VString name); ("version", VUnsigned ver);
     ("signature", VString (signature_string sig)); ("phase", VString (phase_string ph))]) false.

Definition destroy_system (type : Y) (name : string) : stm World unit :=
  ensure_structural_mutation_allowed;;
  Systems.destroy_system type;;
  record_topology (system_key name) VNull true.

Definition set_system_signature (type : Y) (name : string) (ver sig : N) : stm World unit :=
  ensure_structural_mutation_allowed;;
  Coordinator.set_system_signature code type sig;;
  record_topology (system_key name) (object_of
    [("name", VString name); ("version", VUnsigned ver);
     ("signature", VString (signature_string sig))]) false.

Definition remove_component (k : K) (type : ComponentType) (name : string) : stm World unit :=
  ensure_structural_mutation_allowed;;
  slot ← query_components (component_slot k type name);
  has_codec ← query_components (has_component_codec k type);
  encoded ← (if (has_codec : bool) then
               component ← query_components (get_component_named k type name);
               match component with
               | None => sthrow logic_error "component disappeared before removal"
               | Some c => v ← query_components (encode_component k type c); mret (Some v)
               end
             else mret None);
  let record_removal :=
    (match encoded with
     | Some v => record_component_mutation
         (MkComponentMutation (MkComponentTarget (type_id type) slot) name v VNull true)
     | None => mret tt
     end);;
    record_topology (component_key (type_id type) name) VNull true in
  stry (Coordinator.remove_component code k type name)
    (λ e, has ← query_components (has_component_named k type name);
       (if negb has then record_removal else mret tt);;
       slift (Err e));;
  record_removal.

Definition grant_component_access (k : K) (type : ComponentType) (behavior : BehaviorId)
    (name : string) (m : ComponentAccessMode) : stm World unit :=
  ensure_structural_mutation_allowed;;
  Coordinator.grant_component_access code k type behavior name m;;
  record_topology (access_key behavior (type_id type) name) (object_of
    [("behavior_world", VUnsigned (handle_world behavior));
     ("behavior_slot", VUnsigned (handle_slot behavior));
     ("behavior_generation", VUnsigned (handle_generation behavior));
     ("type", VUnsigned (type_id type)); ("component", VString name);
     ("mode", VUnsigned (access_mode_number m))]) false.

Definition revoke_component_access (k : K) (type : ComponentType) (behavior : BehaviorId)
    (name : string) : stm World unit :=
  ensure_structural_mutation_allowed;;
  Coordinator.revoke_component_access code k type behavior name;;
  record_topology (access_key behavior (type_id type) name) VNull true.

Definition run_systems (frame now : N) (ph : SystemPhase) : stm (World * progress) N :=
  on_world ensure_owner_thread;;
  s ← sget;
  sreject_if (systemsRunning s.1) logic_error "world system execution is not reentrant";;
  on_world (smodify (set_running true));;
  stry (systemsRun ← Systems.run_systems code frame now ph;
        on_world (smodify (set_running false));;
        mret systemsRun)
    (λ e, on_world (smodify (set_running false));; slift (Err e)).
End World.
