(* ===== verification/WorldQueries.v ===== *)
(** * The world's queries (include/liquid/world/World.hpp, src/world/World.cpp)

    The [const] operations of the world: on the owner's thread they answer as
    the coordinator does; from any other they are refused. *)
From S2P Require Import Prelude Values Effects Ids Hoare Behaviors Intents Components Systems Coordinator CoordinatorQueries World.

Section Queries.
Context {K : Type} `{Countable K} {El : K → Type}.
Context {Y : Type} `{Countable Y} {D : Type}.
Abbreviation World := (Coordinator.World El Y D).
Context (caller : N).

Definition behavior_exists (id : BehaviorId) : stm World bool :=
  owned_query caller (CoordinatorQueries.behavior_exists id).
Definition behavior_count : stm World N :=
  owned_query caller CoordinatorQueries.behavior_count.
Definition intent_exists (id : IntentId) : stm World bool :=
  owned_query caller (CoordinatorQueries.intent_exists id).
Definition intent_owner (id : IntentId) : stm World BehaviorId :=
  owned_query caller (CoordinatorQueries.intent_owner id).
Definition intent_target (id : IntentId) : stm World ComponentTarget :=
  owned_query caller (CoordinatorQueries.intent_target id).
Definition intent_lifetime (id : IntentId) : stm World IntentLifetime :=
  owned_query caller (CoordinatorQueries.intent_lifetime id).
Definition intent (id : IntentId) : stm World Intent :=
  owned_query caller (CoordinatorQueries.intent id).
Definition live_intent_ids : stm World (list IntentId) :=
  owned_query caller CoordinatorQueries.live_intent_ids.
Definition intents_owned_by (owner : BehaviorId) : stm World (list IntentId) :=
  owned_query caller (CoordinatorQueries.intents_owned_by owner).
Definition intent_named (owner : BehaviorId) (name : string) : stm World (option IntentId) :=
  owned_query caller (CoordinatorQueries.intent_named owner name).
Definition intents_for (type : ComponentTypeId) (slot : ComponentSlotId)
    : stm World (list IntentId) :=
  owned_query caller (CoordinatorQueries.intents_for type slot).
Definition intent_target_index
    : stm World (gmap ComponentTypeId (gmap ComponentSlotId (gset IntentId))) :=
  owned_query caller CoordinatorQueries.intent_target_index.
Definition intent_lifecycle_records : stm World (list IntentLifecycleRecord) :=
  owned_query caller CoordinatorQueries.intent_lifecycle_records.
Definition system_count : stm World N :=
  owned_query caller CoordinatorQueries.system_count.
Definition system_exists (type : Y) : stm World bool :=
  owned_query caller (CoordinatorQueries.system_exists type).
Definition system_signature (type : Y) : stm World N :=
  owned_query caller (CoordinatorQueries.system_signature type).
Definition get_system (type : Y) : stm World SystemRecord :=
  owned_query caller (CoordinatorQueries.get_system type).
Definition system_has_behavior (type : Y) (behavior : BehaviorId) : stm World bool :=
  owned_query caller (CoordinatorQueries.system_has_behavior type behavior).
Definition system_behavior_count (type : Y) : stm World N :=
  owned_query caller (CoordinatorQueries.system_behavior_count type).
Definition component_type_named (typeName : string) : stm World ComponentTypeId :=
  owned_query caller (CoordinatorQueries.component_type_named typeName).
Definition component_type (k : K) (type : ComponentType) : stm World ComponentTypeId :=
  owned_query caller (CoordinatorQueries.component_type k type).
Definition component_schema (k : K) (type : ComponentType) : stm World ComponentSchema :=
  owned_query caller (CoordinatorQueries.component_schema k type).
Definition decode_component (k : K) (type : ComponentType) (v : value) : stm World (El k) :=
  owned_query caller (CoordinatorQueries.decode_component k type v).
Definition has_component_named (k : K) (type : ComponentType) (name : string)
    : stm World bool :=
  owned_query caller (CoordinatorQueries.has_component_named k type name).
Definition get_component_named (k : K) (type : ComponentType) (name : string)
    : stm World (option (El k)) :=
  owned_query caller (CoordinatorQueries.get_component_named k type name).
Definition resolve_component (k : K) (type : ComponentType) (slot : ComponentSlotId)
    : stm World (option (El k)) :=
  owned_query caller (CoordinatorQueries.resolve_component k type slot).
Definition typed_intent (k : K) (type : ComponentType) (id : IntentId)
    : stm World (@component_intent (sigT El)) :=
  owned_query caller (CoordinatorQueries.typed_intent k type id).
Definition can_read_component (k : K) (type : ComponentType) (behavior : BehaviorId) (name : string)
    : stm World bool :=
  owned_query caller (CoordinatorQueries.can_read_component k type behavior name).
Definition can_write_component (k : K) (type : ComponentType) (behavior : BehaviorId) (name : string)
    : stm World bool :=
  owned_query caller (CoordinatorQueries.can_write_component k type behavior name).
Definition effect_route (type : ComponentTypeId) : stm World string :=
  owned_query caller (CoordinatorQueries.effect_route type).
Definition encode_effect_value (target : ComponentTarget) (name : string) (desired : value)
    : stm World (option ResolvedEffect) :=
  owned_query caller (CoordinatorQueries.encode_effect_value (target_type target) name desired).
Definition decode_observed (target : ComponentTarget) (observed : value) : stm World value :=
  owned_query caller (CoordinatorQueries.decode_observed (target_type target) observed).
Definition component_exists (target : ComponentTarget) : stm World bool :=
  owned_query caller (CoordinatorQueries.component_exists (target_type target) (target_slot target)).
Definition component_value (target : ComponentTarget) : stm World value :=
  owned_query caller (CoordinatorQueries.component_value (target_type target) (target_slot target)).
Definition instance_id : stm World N := owned_query caller (λ s, Ok (instanceId s)).
Definition behavior_access_revision (id : BehaviorId) : stm World N :=
  owned caller (Coordinator.behavior_access_revision id).
Definition behavior_signature (behavior : BehaviorId) : stm World N :=
  owned caller (λ w, (Ok (Coordinator.behavior_signature behavior w), w)).
Definition resolution_request_is_current (type : ComponentTypeId)
    (components : list (string * ComponentSlotId)) : stm World bool :=
  owned caller (λ w, (Ok (Coordinator.resolution_request_is_current type components w), w)).

(** The evidence. *)
Definition component_mutations : stm World (list ComponentMutation) :=
  owned caller (λ w, (Ok (componentMutations w), w)).
Definition topology_mutations : stm World (list TopologyMutation) :=
  owned caller (λ w, (Ok (topologyMutations w), w)).
Definition script_execution_evidence : stm World (list ScriptExecutionEvidence) :=
  owned caller (λ w, (Ok (scriptExecutions w), w)).
End Queries.
