(* ===== verification/CoordinatorSpec.v ===== *)
(** * The coordinator against its invariant

    [parts_ok] says that the four registries of a world are well formed and
    that every live intent is authorized: its owner is a live behaviour with
    the right to write the live component it targets, whose type is that of the
    intent's value.  The intents in [X] are exempt: those about to be destroyed
    because their authority has gone.  [coordinated] adds what the coordinator maintains between them:
    a behaviour's signature names the types it has rights to, and a system has
    the behaviours whose signatures cover its own.

    [quiet] is the preorder along which everything moves that is not a change of
    topology, callbacks of systems included. *)
From S2P Require Import Prelude OrderedMap Values Effects Ids Hoare Behaviors Intents IntentSpec Components ComponentSpec ComponentRuns Systems Coordinator.

(** The next step of a computation is a query of a registry: its result. *)
Ltac wp_ask x E :=
  apply wp_bind; unfold wp at 1;
  match goal with |- then_wp _ _ ?q _ =>
    let q' := eval cbv [query query_components fst snd] in q in change q with q' end;
  match goal with |- then_wp _ _ ?q _ => destruct q as [x|] eqn:E end; cbn [then_wp query fst snd].

Section Spec.
Context {K : Type} `{Countable K} {El : K → Type}.
Context {Y : Type} `{Countable Y} {D : Type}.
Abbreviation World := (Coordinator.World El Y D).
Implicit Types (w : World) (V : gmap N (@type_view K El)) (G : list (N * handle))
  (L : gmap handle (@component_intent (sigT El))) (X : @component_intent (sigT El) → Prop)
  (rec : @component_intent (sigT El)).

(** ** Views *)

Definition class_at V (t : N) : option K := class <$> V !! t.
Definition handle_at V (t : N) (n : string) : option handle :=
  V !! t ≫= λ vw, fst <$> held vw !! n.
Definition right_at V (t : N) (b : handle) (n : string) : option Mode :=
  V !! t ≫= λ vw, rights vw !! (b, n).

(** The same types, components and rights: only values may differ. *)
Record same_shape V V' : Prop := {
  ss_class t : class_at V' t = class_at V t;
  ss_handle t n : handle_at V' t n = handle_at V t n;
  ss_right t b n : right_at V' t b n = right_at V t b n
}.

#[export] Instance same_shape_preorder : PreOrder same_shape.
Proof.
  split; [done|]. intros V1 V2 V3 [H1 H2 H3] [H1' H2' H3'].
  split; intros; by rewrite ?H1', ?H2', ?H3'.
Qed.

Lemma class_at_insert V t vw t' :
  class_at (<[t := vw]> V) t' = if decide (t' = t) then Some (class vw) else class_at V t'.
Proof.
  unfold class_at. case_decide as E; [subst; by rewrite lookup_insert_eq|by rewrite lookup_insert_ne].
Qed.

Lemma handle_at_insert V t vw t' n :
  handle_at (<[t := vw]> V) t' n =
  if decide (t' = t) then fst <$> held vw !! n else handle_at V t' n.
Proof.
  unfold handle_at. case_decide as E; [subst; by rewrite lookup_insert_eq|by rewrite lookup_insert_ne].
Qed.

Lemma right_at_insert V t vw t' b n :
  right_at (<[t := vw]> V) t' b n =
  if decide (t' = t) then rights vw !! (b, n) else right_at V t' b n.
Proof.
  unfold right_at. case_decide as E; [subst; by rewrite lookup_insert_eq|by rewrite lookup_insert_ne].
Qed.

Lemma handle_at_Some V t n h :
  handle_at V t n = Some h ↔ ∃ vw v, V !! t = Some vw ∧ held vw !! n = Some (h, v).
Proof.
  unfold handle_at. rewrite bind_Some. setoid_rewrite fmap_Some. split.
  - intros (vw & HV & [h' v] & Hn & ->). by exists vw, v.
  - intros (vw & v & HV & Hn). exists vw. split; [done|]. by exists (h, v).
Qed.

Lemma handle_at_view V t vw n : V !! t = Some vw → handle_at V t n = fst <$> held vw !! n.
Proof. unfold handle_at. by intros ->. Qed.

Lemma right_at_view V t vw b n : V !! t = Some vw → right_at V t b n = rights vw !! (b, n).
Proof. unfold right_at. by intros ->. Qed.

(** New values for the components of a type. *)
Lemma same_shape_values V t vw (held' : gmap string (handle * El (class vw))) :
  V !! t = Some vw → fst <$> held' = fst <$> held vw →
  same_shape V (<[t := MkView (class vw) held' (rights vw)]> V).
Proof.
  intros HV Eh. split.
  - intros t'. rewrite class_at_insert. case_decide as E; [|done]. subst.
    unfold class_at. by rewrite HV.
  - intros t' n. rewrite handle_at_insert. case_decide as E; [|done]. subst.
    rewrite (handle_at_view _ _ _ _ HV). cbn. by rewrite <-!lookup_fmap, Eh.
  - intros t' b n. rewrite right_at_insert. case_decide as E; [|done]. subst.
    by rewrite (right_at_view _ _ _ _ _ HV).
Qed.

(** ** The invariant of the registries *)

Definition authorized V (A : gset handle) rec : Prop :=
  let target := intent_target (base rec) in
  let owner := intent_owner (base rec) in
  owner ∈ A ∧ ∃ n m, handle_at V (target_type target) n = Some (target_slot target) ∧
    right_at V (target_type target) owner n = Some m ∧ mode_allows Mode_w m = true ∧
    class_at V (target_type target) = Some (projT1 (component_value rec)).

Lemma authorized_shape V V' A rec : same_shape V V' → authorized V A rec → authorized V' A rec.
Proof.
  intros [H1 H2 H3] (HA & n & m & Hh & Hr & Hm & Hc). split; [done|]. exists n, m.
  by rewrite H1, H2, H3.
Qed.

Record parts_ok X w V G L : Prop := {
  po_components : ComponentSpec.registry_ok (componentRegistry (state w)) V G;
  po_behaviors : behaviors_ok (behaviorRegistry (state w));
  po_intents : IntentSpec.registry_ok (intentRegistry (state w)) L;
  po_components_world : Components.worldId (componentRegistry (state w)) = instanceId (state w);
  po_closed : transactionActive (intentRegistry (state w)) = false;
  po_authorized id rec : L !! id = Some rec → ¬ X rec →
    authorized V (active (behaviorRegistry (state w))) rec;
  po_rights t b n m : right_at V t b n = Some m → b ∈ active (behaviorRegistry (state w))
}.

(** No intent is exempt. *)
Definition nobody (rec : @component_intent (sigT El)) : Prop := False.

Lemma parts_exempt X X' w V G L :
  (∀ id rec, L !! id = Some rec → X rec → X' rec) → parts_ok X w V G L → parts_ok X' w V G L.
Proof.
  intros HX []. split; try done. intros id rec Hid Hno. apply (po_authorized0 id); [done|].
  intros Hrec. by apply Hno, (HX id).
Qed.

(** What only changes of topology touch. *)
Record same_frame w w' : Prop := {
  sf_instance : instanceId (state w') = instanceId (state w);
  sf_behaviors : behaviorRegistry (state w') = behaviorRegistry (state w);
  sf_signatures : behaviorSignatures (state w') = behaviorSignatures (state w);
  sf_revisions : behaviorAccessRevisions (state w') = behaviorAccessRevisions (state w);
  sf_last : lastBehaviorAccessRevision (state w') = lastBehaviorAccessRevision (state w);
  sf_running : systemsRunning w' = systemsRunning w;
  sf_transaction : intentTransactionActive w' = intentTransactionActive w;
  sf_owner : ownerThread w' = ownerThread w
}.

#[export] Instance same_frame_preorder : PreOrder same_frame.
Proof. split; [done|]. intros w1 w2 w3 [] []. split; congruence. Qed.

Definition lifecycle w : list IntentLifecycleRecord :=
  lifecycleRecords (intentRegistry (state w)).

Definition quiet w w' : Prop :=
  same_frame w w' ∧ ∀ X V G L, parts_ok X w V G L →
    ∃ V' L', parts_ok X w' V' G L' ∧ same_shape V V' ∧ lifecycle w `prefix_of` lifecycle w'.

#[export] Instance quiet_preorder : PreOrder quiet.
Proof.
  split.
  - intros w. split; [done|]. intros X V G L Hp. by exists V, L.
  - intros w1 w2 w3 [Hf1 H1] [Hf2 H2]. split; [by etransitivity|]. intros X V G L Hp.
    destruct (H1 X V G L Hp) as (V' & L' & Hp' & Hs & Hl).
    destruct (H2 X V' G L' Hp') as (V'' & L'' & Hp'' & Hs' & Hl').
    exists V'', L''. split_and!; [done|by etransitivity|by etransitivity].
Qed.

(** Worlds that differ in the systems, the evidence and the fields only. *)
Record same_parts w w' : Prop := {
  sp_components : componentRegistry (state w') = componentRegistry (state w);
  sp_behaviors : behaviorRegistry (state w') = behaviorRegistry (state w);
  sp_intents : intentRegistry (state w') = intentRegistry (state w);
  sp_instance : instanceId (state w') = instanceId (state w)
}.

Lemma parts_ok_same X w w' V G L : same_parts w w' → parts_ok X w V G L → parts_ok X w' V G L.
Proof. intros [E1 E2 E3 E4] []. split; rewrite ?E1, ?E2, ?E3, ?E4; done. Qed.

Lemma quiet_same w w' : same_frame w w' → same_parts w w' → quiet w w'.
Proof.
  intros Hf Hs. split; [done|]. intros X V G L Hp. exists V, L. split_and!; [|done|].
  - by eapply parts_ok_same.
  - unfold lifecycle. by rewrite (sp_intents _ _ Hs).
Qed.

Lemma quiet_systems (r : SystemRegistry Y) w : quiet w (host_set_systems r w).
Proof. by apply quiet_same. Qed.

(** *** Intents *)

Lemma parts_intents X w V G L (r : @IntentRegistry (sigT El)) L' :
  parts_ok X w V G L → IntentSpec.registry_ok r L' →
  transactionActive r = transactionActive (intentRegistry (state w)) →
  (∀ id rec, L' !! id = Some rec → L !! id = Some rec ∨
     authorized V (active (behaviorRegistry (state w))) rec) →
  parts_ok X (set_state (set_intents r (state w)) w) V G L'.
Proof.
  intros [] Hr Et Hsub. split; cbn; try done; [congruence|].
  intros id rec Hid HX. destruct (Hsub id rec Hid); [by eapply po_authorized0|done].
Qed.

(** An operation of the intent registry that only removes intents. *)
Definition removes {A} (m : stm (@IntentRegistry (sigT El)) A) : Prop :=
  ∀ r L, IntentSpec.registry_ok r L → transactionActive r = false →
    let '(_, r') := m r in IntentSpec.advances r r' ∧
    ∃ L', IntentSpec.registry_ok r' L' ∧ L' ⊆ L.

Lemma quiet_removes {A} (m : stm _ A) w : removes m → quiet w (on_intents m w).2.
Proof.
  intros Hm. unfold on_intents, on_state, zoom.
  destruct (m (intentRegistry (state w))) as [x r] eqn:E. cbn. split; [done|].
  intros X V G L Hp. specialize (Hm _ L (po_intents _ _ _ _ _ Hp) (po_closed _ _ _ _ _ Hp)).
  rewrite E in Hm. destruct Hm as (Hadv & L' & Hr & Hsub). exists V, L'. split_and!; [|done|].
  - apply (parts_intents _ _ _ _ L); [done|done|apply Hadv|].
    intros id rec Hid. left. by eapply lookup_weaken.
  - apply Hadv.
Qed.

Lemma destroy_removes id : removes (destroy id).
Proof.
  intros r L Hr Ht. pose proof (destroy_spec r L id Hr Ht) as Hd.
  destruct (destroy id r) as [[u|e] r'].
  - destruct Hd as (rec & Hrec & Hr' & Hadv & _). split; [done|].
    exists (delete id L). split; [done|apply delete_subseteq].
  - destruct Hd as [-> _]. split; [reflexivity|]. by exists L.
Qed.

Lemma without_subseteq ids L : without ids L ⊆ L.
Proof. apply map_filter_subseteq. Qed.

Lemma destroy_all_removes ids : removes (sfor destroy ids).
Proof.
  intros r L Hr Ht. pose proof (destroy_all_spec ids r L Hr Ht) as Hd.
  destruct (sfor destroy ids r) as [x r'].
  destruct Hd as (Hadv & dn & rest & _ & Hr' & _). split; [done|].
  exists (without dn L). split; [done|apply without_subseteq].
Qed.

(** *** Reading *)

Lemma wp_query {A} (q : WorldState El Y → res A) (Q : res A → World → Prop) w :
  Q (q (state w)) w → wp (query q) Q w.
Proof. done. Qed.

Lemma wp_require b (Q : res unit → World → Prop) w :
  (b ∉ active (behaviorRegistry (state w)) → Q (throw runtime_error "behavior id not found") w) →
  (b ∈ active (behaviorRegistry (state w)) → Q (Ok tt) w) → wp (require_behavior b) Q w.
Proof.
  unfold wp, require_behavior, behavior_exists. intros H1 H2.
  case_bool_decide; cbn; auto.
Qed.

Lemma checked_intent_value_spec owner k type slot (v : El k) w :
  wp (checked_intent_value owner k type slot v) (λ x w', w' = w ∧ ∀ e, x = Ok e →
    owner ∈ active (behaviorRegistry (state w)) ∧
    (∃ c, resolve_component k type slot (componentRegistry (state w)) = Ok (Some c)) ∧
    can_write_slot k type owner slot (componentRegistry (state w)) = Ok true) w.
Proof.
  unfold checked_intent_value, query_components.
  apply wp_bind, wp_require; intros Hb; [done|]; cbn [then_wp].
  wp_ask t Et; [|done]. wp_ask found Ef; [|done].
  apply wp_bind, wp_reject; intros Hf; [done|]. cbn [then_wp].
  destruct found as [c|]; [|done]. wp_ask allowed Ea; [|done].
  apply wp_bind, wp_reject; intros Hal; [done|]. cbn [then_wp].
  apply negb_false_iff in Hal as ->. wp_ask has Eh; [|done].
  destruct has; [|done]. apply wp_query. split; [done|]. eauto.
Qed.

Lemma typed_resolved X w V G L k type slot owner (v c : El k) :
  parts_ok X w V G L → owner ∈ active (behaviorRegistry (state w)) →
  resolve_component k type slot (componentRegistry (state w)) = Ok (Some c) →
  can_write_slot k type owner slot (componentRegistry (state w)) = Ok true →
  ∀ rec, intent_owner (base rec) = owner →
    intent_target (base rec) = MkComponentTarget (type_id type) slot →
    component_value rec = existT k v → authorized V (active (behaviorRegistry (state w))) rec.
Proof.
  intros Hp HA Hres Hcan rec Eo Et Ev.
  destruct (query_resolved (po_components _ _ _ _ _ Hp) _ _ _ _ Hres)
    as (Hfits & vw & n & v' & HV & <- & Hn).
  unfold can_write_slot in Hcan.
  rewrite (query_access_slot (po_components _ _ _ _ _ Hp) Mode_w type owner n vw slot v' Hfits HV Hn)
    in Hcan.
  destruct (rights vw !! (owner, n)) as [m|] eqn:Hm; [|discriminate Hcan].
  injection Hcan as Hcan. unfold authorized. rewrite Eo, Et, Ev. cbn. split; [done|].
  exists n, m. rewrite (handle_at_view _ _ _ _ HV), Hn, (right_at_view _ _ _ _ _ HV).
  unfold class_at. by rewrite HV.
Qed.

(** *** Plain operations *)

Lemma quiet_create_intent owner k type slot lifetime (v : El k) priority name w :
  quiet w (create_intent owner k type slot lifetime v priority name w).2.
Proof.
  pose proof (checked_intent_value_spec owner k type slot v w) as Hc.
  unfold create_intent, mbind, stm_bind. unfold wp in Hc.
  destruct (checked_intent_value owner k type slot v w) as [[e|e] w'];
    cbn [fst snd] in Hc; destruct Hc as [-> Hc]; [|reflexivity].
  destruct (Hc e eq_refl) as (HA & [c Hres] & Hcan).
  unfold on_intents, on_state, zoom, create, mbind, stm_bind, ensure_no_active_transaction.
  destruct (transactionActive (intentRegistry (state w))) eqn:Ht; cbn [sreject_if slift reject_if throw].
  { cbn. apply quiet_same; by destruct w as [[]]. }
  destruct (create_impl owner (type_id type) (typeid k) slot lifetime (existT k v) priority e name
    (intentRegistry (state w))) as [x r] eqn:E.
  cbn [snd]. split; [done|]. intros X V G L Hp.
  pose proof (create_impl_spec _ _ owner (type_id type) (typeid k) slot lifetime (existT k v)
    priority e name (po_intents _ _ _ _ _ Hp)) as Hs.
  rewrite E in Hs. destruct Hs as [Hadv Hs].
  assert (lifecycle w `prefix_of` lifecycleRecords r) as Hl by apply Hadv.
  destruct x as [id|e'].
  - destruct Hs as (Hnew & _ & Hr & _).
    exists V, (<[id := made owner (type_id type) slot lifetime (existT k v) priority e name id
      (lastSequence (tables (intentRegistry (state w))) + 1)]> L).
    split_and!; [|done|done]. apply (parts_intents _ _ _ _ L); [done|done|apply Hadv|].
    intros id' rec. destruct (decide (id' = id)) as [->|Hne].
    + rewrite lookup_insert_eq. intros [= <-]. right. by eapply typed_resolved.
    + rewrite lookup_insert_ne by done. by left.
  - destruct Hs as [Hr _]. exists V, L. split_and!; [|done|done].
    apply (parts_intents _ _ _ _ L); [done|done|apply Hadv|]. by left.
Qed.

(** New values in the component registry. *)
Lemma parts_components X w V G L (r : ComponentRegistry El) V' :
  parts_ok X w V G L → ComponentSpec.registry_ok r V' G → same_shape V V' →
  Components.worldId r = Components.worldId (componentRegistry (state w)) →
  parts_ok X (set_state (set_components r (state w)) w) V' G L.
Proof.
  intros [] Hr Hs Ew. split; cbn; try done; [congruence| |].
  - intros id rec Hid HX. eapply authorized_shape; [done|by eapply po_authorized0].
  - intros t b n m. rewrite (ss_right _ _ Hs). apply po_rights0.
Qed.

(** An operation of the component registry that changes values only. *)
Definition revalues {A} (m : stm (ComponentRegistry El) A) : Prop :=
  ∀ r V G, ComponentSpec.registry_ok r V G →
    let '(_, r') := m r in Components.worldId r' = Components.worldId r ∧
    ∃ V', ComponentSpec.registry_ok r' V' G ∧ same_shape V V'.

Lemma quiet_revalues {A} (m : stm _ A) w : revalues m → quiet w (on_components m w).2.
Proof.
  intros Hm. unfold on_components, on_state, zoom.
  destruct (m (componentRegistry (state w))) as [x r] eqn:E. cbn. split; [done|].
  intros X V G L Hp. specialize (Hm _ V G (po_components _ _ _ _ _ Hp)).
  rewrite E in Hm. destruct Hm as (Hw & V' & Hr & Hs). exists V', L.
  split_and!; [by eapply parts_components|done|done].
Qed.

Lemma replace_revalues k type name (c : El k) :
  revalues (Components.replace_component k type name c).
Proof.
  intros r V G Hr. destruct (component_type_spec r V G k type Hr) as [[Hfits _]|[Hno _]].
  - pose proof Hfits as [_ (vw & HV & <-)].
    pose proof (replace_component_spec r V G vw type name c Hr Hfits HV) as Hs.
    destruct (held vw !! name) as [[h v]|] eqn:Hn.
    + destruct Hs as (r' & -> & Hw & Hr'). split; [done|]. eexists. split; [exact Hr'|].
      apply same_shape_values; [done|]. rewrite fmap_insert. cbn. apply insert_id.
      by rewrite lookup_fmap, Hn.
    + rewrite Hs. split; [done|]. by exists V.
  - destruct (misfit_refused r V G (Replace k type name c) k type Hr eq_refl Hno) as [msg Hm].
    cbn in Hm. unfold mbind, stm_bind in Hm.
    destruct (Components.replace_component k type name c r) as [[u|e] r']; [discriminate Hm|].
    injection Hm as _ ->. split; [done|]. by exists V.
Qed.

Lemma replace_value_revalues t h v :
  revalues (Components.replace_component_value (El := El) t h v).
Proof.
  intros r V G Hr. pose proof (replace_component_value_spec r V G t h v Hr) as Hs.
  destruct (Components.replace_component_value t h v r) as [[canonical|e] r'].
  - destruct Hs as (_ & Hw & _ & vw & n & old & c & HV & Hn & Hr'). split; [done|].
    eexists. split; [exact Hr'|]. apply same_shape_values; [done|]. rewrite fmap_insert. cbn.
    apply insert_id. by rewrite lookup_fmap, Hn.
  - subst r'. split; [done|]. by exists V.
Qed.

Lemma quiet_replace_component k type b name (c : El k) w :
  quiet w (replace_component k type b name c w).2.
Proof.
  revert w. change (keeps quiet (replace_component k type b name c)).
  unfold replace_component. apply keeps_bind; [apply _|by intros w; apply quiet_same|intros _].
  apply keeps_bind; [apply _|by intros w; apply quiet_same|intros allowed].
  apply keeps_bind; [apply _|by intros w; apply quiet_same|intros _].
  intros w. apply quiet_revalues, replace_revalues.
Qed.

(** ** Coordination *)

Definition has_access V (b : handle) (t : N) : Prop := ∃ n m, right_at V t b n = Some m.

(** A signature names the types its behaviour has rights to. *)
Definition signature_of V (b : handle) (sig : N) : Prop :=
  ∀ t, N.testbit sig t = true ↔ has_access V b t.

Record entries_ok w : Prop := {
  en_signatures b : is_Some (behaviorSignatures (state w) !! b) ↔
    b ∈ active (behaviorRegistry (state w));
  en_revisions b : is_Some (behaviorAccessRevisions (state w) !! b) ↔
    b ∈ active (behaviorRegistry (state w));
  en_last b revision : behaviorAccessRevisions (state w) !! b = Some revision →
    revision <= lastBehaviorAccessRevision (state w)
}.

Definition sigs_ok w V : Prop :=
  ∀ b sig, behaviorSignatures (state w) !! b = Some sig → signature_of V b sig.

Definition members_ok w : Prop :=
  ∀ type record, systems (systemRegistry (state w)) !! type = Some record →
  ∀ b, b ∈ behaviours record ↔
    b ∈ active (behaviorRegistry (state w)) ∧ covers (behavior_signature b w) record = true.

(** No dispatch is going on. *)
Definition calm w : Prop :=
  registry_wf (systemRegistry (state w)) ∧ dispatchDepth (systemRegistry (state w)) = 0.

Record coordinated w V G L : Prop := {
  co_parts : parts_ok nobody w V G L;
  co_entries : entries_ok w;
  co_sigs : sigs_ok w V;
  co_members : members_ok w;
  co_calm : calm w
}.

(** What a behaviour reaches is the same in two views. *)
Definition same_reach V V' (b : handle) : Prop :=
  ∀ t n, right_at V' t b n = right_at V t b n ∧
    (is_Some (right_at V t b n) →
       handle_at V' t n = handle_at V t n ∧ class_at V' t = class_at V t).

(** A behaviour's access revision is new, or what the behaviour reaches is the same. *)
Record tracks w V w' V' : Prop := {
  tr_last : lastBehaviorAccessRevision (state w) <= lastBehaviorAccessRevision (state w');
  tr_revision b r' : behaviorAccessRevisions (state w') !! b = Some r' →
    lastBehaviorAccessRevision (state w) < r' ∨
    behaviorAccessRevisions (state w) !! b = Some r' ∧ same_reach V V' b
}.

Lemma same_reach_trans V1 V2 V3 b :
  same_reach V1 V2 b → same_reach V2 V3 b → same_reach V1 V3 b.
Proof.
  intros H1 H2 t n. destruct (H1 t n) as [Hr1 Hh1], (H2 t n) as [Hr2 Hh2].
  rewrite Hr2, Hr1. split; [done|]. intros Hs. destruct (Hh1 Hs) as [<- <-].
  apply Hh2. by rewrite Hr1.
Qed.

Lemma tracks_trans w1 V1 w2 V2 w3 V3 :
  tracks w1 V1 w2 V2 → tracks w2 V2 w3 V3 → tracks w1 V1 w3 V3.
Proof.
  intros [Hl1 H1] [Hl2 H2]. split; [lia|]. intros b r Hb.
  destruct (H2 b r Hb) as [?|[Hb2 Hs2]]; [left; lia|].
  destruct (H1 b r Hb2) as [?|[Hb1 Hs1]]; [by left|right]. split; [done|].
  by eapply same_reach_trans.
Qed.

Record same_flags w w' : Prop := {
  fl_instance : instanceId (state w') = instanceId (state w);
  fl_running : systemsRunning w' = systemsRunning w;
  fl_transaction : intentTransactionActive w' = intentTransactionActive w;
  fl_owner : ownerThread w' = ownerThread w
}.

Definition evidence_full w : Prop := maximumBufferedLifecycleRecords <= len (lifecycle w).

(** What a change of topology leaves: a coordinated world, unless the buffer of
    intent evidence is full. *)
Definition settles w V w' : Prop :=
  evidence_full w' ∨
  ∃ V' G' L', coordinated w' V' G' L' ∧ tracks w V w' V' ∧ same_flags w w'.

Lemma same_reach_shape V V' b : same_shape V V' → same_reach V V' b.
Proof. intros [H1 H2 H3] t n. by rewrite H1, H2, H3. Qed.

Lemma tracks_shape w V w' V' :
  same_shape V V' → behaviorAccessRevisions (state w') = behaviorAccessRevisions (state w) →
  lastBehaviorAccessRevision (state w) <= lastBehaviorAccessRevision (state w') →
  tracks w V w' V'.
Proof.
  intros Hs Hr Hl. split; [done|]. intros b r' Hb. rewrite Hr in Hb. right.
  split; [done|]. by apply same_reach_shape.
Qed.

Lemma settles_refl w V G L : coordinated w V G L → settles w V w.
Proof.
  intros Hc. right. exists V, G, L. split_and!; [done| |done].
  by apply tracks_shape.
Qed.

Lemma sigs_ok_shape w w' V V' :
  same_shape V V' → behaviorSignatures (state w') = behaviorSignatures (state w) →
  sigs_ok w V → sigs_ok w' V'.
Proof.
  intros Hs Es Hsig b sig Hb. rewrite Es in Hb. intros t. rewrite (Hsig b sig Hb t).
  unfold has_access. by setoid_rewrite (ss_right _ _ Hs).
Qed.

(** A quiet step of a world whose systems stay as they are. *)
Lemma coordinated_quiet w w' V G L :
  quiet w w' → systemRegistry (state w') = systemRegistry (state w) → coordinated w V G L →
  ∃ V' L', coordinated w' V' G L' ∧ same_shape V V'.
Proof.
  intros [Hf Hq] Es [Hp He Hsig Hm Hcalm]. destruct (Hq nobody V G L Hp) as (V' & L' & Hp' & Hs & _).
  exists V', L'. split; [|done]. destruct Hf. split; [done| | | |].
  - destruct He. split; intros b; [..|intros revision];
      rewrite ?sf_signatures0, ?sf_revisions0, ?sf_behaviors0, ?sf_last0;
      [apply en_signatures0|apply en_revisions0|apply en_last0].
  - by eapply sigs_ok_shape.
  - intros type record. rewrite Es. intros Hr b. rewrite (Hm type record Hr b).
    unfold behavior_signature. by rewrite sf_behaviors0, sf_signatures0.
  - unfold calm. by rewrite Es.
Qed.

Lemma settles_quiet w w' V G L :
  quiet w w' → systemRegistry (state w') = systemRegistry (state w) → coordinated w V G L →
  settles w V w'.
Proof.
  intros Hq Es Hc. destruct (coordinated_quiet _ _ _ _ _ Hq Es Hc) as (V' & L' & Hc' & Hs).
  right. exists V', G, L'. destruct Hq as [[] _].
  split_and!; [done|apply tracks_shape; [done|done|lia]|by split].
Qed.

(** *** Revisions *)

Definition bumped w : World :=
  set_state (set_last_revision (lastBehaviorAccessRevision (state w) + 1) (state w)) w.

Lemma wp_next_revision (Q : res N → World → Prop) w :
  Q (throw overflow_error "behavior access revision exhausted") w →
  Q (Ok (lastBehaviorAccessRevision (state w) + 1)) (bumped w) →
  wp next_behavior_access_revision Q w.
Proof.
  intros H1 H2. apply wp_bind, wp_get. cbn [then_wp]. apply wp_bind, wp_reject; intros Hl; [done|].
  cbn [then_wp]. eapply wp_bind_eq; [done|]. by apply wp_ret.
Qed.

Lemma coordinated_bumped w V G L : coordinated w V G L → coordinated (bumped w) V G L.
Proof.
  intros [Hp [H1 H2 H3] Hsig Hm Hcalm]. split; [by apply (parts_ok_same _ w)| |done..].
  split; [done|done|]. intros b revision Hb. specialize (H3 b revision Hb). cbn. lia.
Qed.

Lemma tracks_bumped w V w' V' : tracks (bumped w) V w' V' → tracks w V w' V'.
Proof.
  intros [H1 H2]. split; [cbn in H1; lia|]. intros b r' Hb.
  destruct (H2 b r' Hb) as [Hl|?]; [left; cbn in Hl; lia|by right].
Qed.

Lemma settles_bumped w V w' : settles (bumped w) V w' → settles w V w'.
Proof.
  intros [?|(V' & G' & L' & Hc & Ht & [])]; [by left|]. right. exists V', G', L'.
  split_and!; [done|by apply tracks_bumped|by split].
Qed.
End Spec.
