(* ===== verification/CoordinatorTopology.v ===== *)
(** * Changes of topology keep the world coordinated

    For each operation of the coordinator that changes behaviours, components,
    rights or systems: it leaves a coordinated world, whatever the callbacks of
    the systems do, unless the buffer of intent evidence is full.  What the
    callbacks may do is a hypothesis of the section: they leave the system
    registry alone and are [quiet]; [Client] shows it of every program over the
    world's operations. *)
From S2P Require Import Prelude OrderedMap Values Effects Ids Hoare Behaviors Intents IntentSpec Components ComponentSpec ComponentRuns Systems Coordinator CoordinatorSpec.

Section Topology.
Context {K : Type} `{Countable K} {El : K → Type}.
Context {Y : Type} `{Countable Y} {D : Type}.
Abbreviation World := (Coordinator.World El Y D).
Implicit Types (w : World) (V : gmap N (@type_view K El)) (G : list (N * handle))
  (L : gmap handle (@component_intent (sigT El))) (rec : @component_intent (sigT El)).
Context (code : Y → SystemCode World).
Hypothesis added_ok : ∀ y b, well_behaved quiet (on_behavior_added (code y) b).
Hypothesis removed_ok : ∀ y b, well_behaved quiet (on_behavior_removed (code y) b).

Lemma update_memberships_wp b w :
  calm w →
  wp (update_system_memberships code b) (λ _ w',
    systemRegistry (state w') =
      map_systems (membership b (behavior_signature b w)) (systemRegistry (state w)) ∧
    quiet w w') w.
Proof.
  intros [Hwf Hd]. apply wp_bind, wp_get. cbn [then_wp].
  by apply (dispatch_update_spec code quiet quiet_systems added_ok removed_ok).
Qed.

Lemma captured_remove_wp b w :
  calm w →
  wp (captured (Systems.remove_behavior code b)) (λ x w', (∃ e, x = Ok e) ∧
    systemRegistry (state w') = map_systems (without_behavior b) (systemRegistry (state w)) ∧
    quiet w w') w.
Proof.
  intros [Hwf Hd]. apply wp_captured. eapply wp_mono.
  - by apply (dispatch_remove_spec code quiet quiet_systems added_ok removed_ok).
  - intros x w' [Hs Hq]. eauto.
Qed.

(** *** System records *)

Lemma map_systems_lookup g (r : SystemRegistry Y) type record' :
  systems (map_systems g r) !! type = Some record' ↔
  ∃ record, systems r !! type = Some record ∧ record' = g record.
Proof. cbn. rewrite lookup_fmap, fmap_Some. done. Qed.

Lemma map_systems_compose f g (r : SystemRegistry Y) :
  map_systems f (map_systems g r) = map_systems (f ∘ g) r.
Proof. unfold map_systems, set_systems. cbn. by rewrite map_fmap_compose. Qed.

Lemma map_systems_ext f g (r : SystemRegistry Y) :
  (∀ type record, systems r !! type = Some record → f record = g record) →
  map_systems f r = map_systems g r.
Proof.
  intros Hfg. unfold map_systems, set_systems. f_equal. apply map_fmap_ext. exact Hfg.
Qed.

Lemma map_systems_id f (r : SystemRegistry Y) :
  (∀ type record, systems r !! type = Some record → f record = record) → map_systems f r = r.
Proof.
  intros Hf. rewrite (map_systems_ext _ (λ record, record)) by exact Hf.
  unfold map_systems, set_systems. rewrite map_fmap_id. by destruct r.
Qed.

Lemma covers_set_behaviours sig x record : covers sig (set_behaviours x record) = covers sig record.
Proof. done. Qed.

Lemma calm_map g w w' :
  systemRegistry (state w') = map_systems g (systemRegistry (state w)) → calm w → calm w'.
Proof. intros E [Hwf Hd]. unfold calm. rewrite E. split; [by apply registry_wf_map|done]. Qed.

Lemma without_absent b record : b ∉ behaviours record → without_behavior b record = record.
Proof.
  intros Hb. destruct record as [sig name ver ph bs]. unfold without_behavior, set_behaviours.
  cbn in *. by assert (bs ∖ {[b]} = bs) as -> by set_solver.
Qed.

Lemma without_membership b sig record :
  without_behavior b (membership b sig record) = without_behavior b record.
Proof.
  destruct record as [sig' name ver ph bs]. unfold without_behavior, membership, set_behaviours.
  cbn. f_equal. destruct (covers _ _); set_solver.
Qed.

Lemma covers_zero record : covers 0 record = bool_decide (signature record = 0).
Proof.
  unfold covers. rewrite N.land_0_l. case_bool_decide as E; [by rewrite E|].
  apply N.eqb_neq. congruence.
Qed.

(** *** Behaviours *)

Lemma parts_behaviors X w V G L bs :
  parts_ok X w V G L → behaviors_ok bs →
  (∀ t b n m, right_at V t b n = Some m → b ∈ active bs) →
  parts_ok X (set_state (set_behaviors bs (state w)) w) V G L.
Proof.
  intros [] Hbs Hr. split; cbn; try done.
  intros id rec Hid HX. destruct (po_authorized id rec Hid HX) as (_ & n & m & ? & Hm & ?).
  split; [by eapply Hr|]. by exists n, m.
Qed.

(** A world in which [b] is being created, and nothing else differs from [w]. *)
Record creating w V G (b : handle) w1 : Prop := {
  cr_parts : ∃ V1 L1, parts_ok nobody w1 V1 G L1 ∧ same_shape V V1;
  cr_active : active (behaviorRegistry (state w1)) =
    {[b]} ∪ active (behaviorRegistry (state w));
  cr_new : b ∉ active (behaviorRegistry (state w));
  cr_signatures b' : b' ≠ b →
    behaviorSignatures (state w1) !! b' = behaviorSignatures (state w) !! b';
  cr_revisions b' : b' ≠ b →
    behaviorAccessRevisions (state w1) !! b' = behaviorAccessRevisions (state w) !! b';
  cr_last : lastBehaviorAccessRevision (state w1) = lastBehaviorAccessRevision (state w) + 1;
  cr_systems : map_systems (without_behavior b) (systemRegistry (state w1)) =
    systemRegistry (state w);
  cr_calm : calm w1;
  cr_flags : same_flags w w1
}.

Lemma creating_quiet w V G b w1 w2 :
  creating w V G b w1 → quiet w1 w2 → calm w2 →
  map_systems (without_behavior b) (systemRegistry (state w2)) = systemRegistry (state w) →
  creating w V G b w2.
Proof.
  intros [(V1 & L1 & Hp & Hs)] [[] Hq] Hcalm Hsys.
  destruct (Hq _ _ _ _ Hp) as (V2 & L2 & Hp2 & Hs2 & _). split; try done.
  - exists V2, L2. split; [done|by etransitivity].
  - congruence.
  - intros b' Hb'. rewrite sf_signatures. auto.
  - intros b' Hb'. rewrite sf_revisions. auto.
  - congruence.
  - destruct cr_flags0. split; congruence.
Qed.

(** Steps that change the entries of [b] only. *)
Lemma creating_entries w V G b w1 sigs revs :
  creating w V G b w1 →
  (∀ b', b' ≠ b → sigs !! b' = behaviorSignatures (state w1) !! b') →
  (∀ b', b' ≠ b → revs !! b' = behaviorAccessRevisions (state w1) !! b') →
  creating w V G b (set_state (set_revisions revs (set_signatures sigs (state w1))) w1).
Proof.
  intros [(V1 & L1 & Hp & Hs)] H1 H2. split; try done.
  - exists V1, L1. split; [|done]. by apply (parts_ok_same _ w1).
  - intros b' Hb'. cbn. rewrite H1; auto.
  - intros b' Hb'. cbn. rewrite H2; auto.
  - destruct cr_flags0. by split.
Qed.

Lemma destroy_owned_wp X b w V G L :
  parts_ok X w V G L →
  wp (on_intents (destroy_owned_by b)) (λ x w',
    (∃ r, w' = set_state (set_intents r (state w)) w) ∧
    match x with
    | Ok _ => parts_ok (λ rec, X rec ∧ intent_owner (base rec) ≠ b) w' V G (disowned b L)
    | Err _ => evidence_full w'
    end) w.
Proof.
  intros Hp. unfold wp, on_intents, on_state, zoom.
  pose proof (destroy_owned_by_spec b _ L (po_intents _ _ _ _ _ Hp) (po_closed _ _ _ _ _ Hp)) as Hd.
  destruct (destroy_owned_by b (intentRegistry (state w))) as [[u|e] r].
  - destruct Hd as [Hadv Hr]. cbn. split; [by eexists|].
    destruct Hp. split; cbn; try done; [by rewrite (adv_transaction _ _ Hadv)|].
    intros id rec [Hid Ho]%disowned_lookup HX. eapply po_authorized; [done|]. naive_solver.
  - destruct Hd as [_ [Hfull _]]. split; [by eexists|exact Hfull].
Qed.

Lemma destroy_behavior_wp b w :
  behaviors_ok (behaviorRegistry (state w)) → b ∈ active (behaviorRegistry (state w)) →
  wp (on_behaviors (Behaviors.destroy_behavior b)) (λ x w', x = Ok tt ∧
    ∃ bs, w' = set_state (set_behaviors bs (state w)) w ∧ behaviors_ok bs ∧
      active bs = active (behaviorRegistry (state w)) ∖ {[b]}) w.
Proof.
  intros Hok Hb. unfold wp, on_behaviors, on_state, zoom.
  pose proof (Behaviors.destroy_behavior_spec _ b Hok) as Hd.
  destruct (Behaviors.destroy_behavior b (behaviorRegistry (state w))) as [[[]|e] bs]; cbn.
  - destruct Hd as (_ & Hbs & Ha & _). split; [done|]. by exists bs.
  - by destruct Hd as [_ Hd].
Qed.

(** The [catch] block of [create_behavior]. *)
Lemma undo_creation w V G L b w1 e :
  coordinated w V G L → creating w V G b w1 →
  wp (captured (Systems.remove_behavior code b);;
      forget_behavior_entries b;;
      on_intents (destroy_owned_by b);;
      on_behaviors (Behaviors.destroy_behavior b);;
      slift (A := unit) (Err e)) (λ x w', (∃ e', x = Err e') ∧ settles w V w') w1.
Proof.
  intros Hc Hcr. apply wp_bind. eapply wp_mono; [apply captured_remove_wp, Hcr|].
  intros x w2 ([e' ->] & Hsys & Hq). cbn [then_wp].
  rewrite (cr_systems _ _ _ _ _ Hcr) in Hsys.
  assert (creating w V G b w2) as Hcr2.
  { eapply creating_quiet; [exact Hcr|exact Hq| |].
    - unfold calm. rewrite Hsys. apply (co_calm _ _ _ _ Hc).
    - rewrite Hsys. apply map_systems_id. intros type record Hr.
      apply without_absent. intros Hb.
      apply (co_members _ _ _ _ Hc type _ Hr b) in Hb as [Hb _]. by apply (cr_new _ _ _ _ _ Hcr). }
  clear Hcr. eapply wp_bind_eq; [done|].
  pose proof (creating_entries _ _ _ _ _ (delete b (behaviorSignatures (state w2)))
    (delete b (behaviorAccessRevisions (state w2))) Hcr2
    (λ b' Hne, lookup_delete_ne _ _ _ (not_eq_sym Hne))
    (λ b' Hne, lookup_delete_ne _ _ _ (not_eq_sym Hne))) as Hcr3.
  set (w3 := set_state _ _) in Hcr3 |- *.
  destruct (cr_parts _ _ _ _ _ Hcr3) as (V3 & L3 & Hp3 & Hs3).
  apply wp_bind. eapply wp_mono; [by eapply destroy_owned_wp|].
  intros x w4 [[r ->] Hx]. destruct x as [u|e4]; cbn [then_wp]; [|split; [by eexists|by left]].
  apply (parts_exempt _ nobody) in Hx; [|by intros ??? []].
  assert (b ∈ active (behaviorRegistry (state w3))) as Hb
    by (rewrite (cr_active _ _ _ _ _ Hcr3); set_solver).
  apply wp_bind. eapply wp_mono.
  { apply destroy_behavior_wp; [apply Hp3|exact Hb]. }
  intros x w5 (-> & bs & -> & Hbs & Ha). cbn [then_wp]. apply wp_lift. split; [by eexists|right].
  cbn [state set_state set_intents behaviorRegistry] in Ha.
  rewrite (cr_active _ _ _ _ _ Hcr3) in Ha.
  assert (active bs = active (behaviorRegistry (state w))) as Ha'.
  { rewrite Ha. pose proof (cr_new _ _ _ _ _ Hcr3). set_solver. }
  exists V3, G, (disowned b L3). split_and!.
  - destruct Hc as [Hp He Hsig Hm Hcalm]. split.
    + apply parts_behaviors; [done|done|]. intros t b' n m. rewrite (ss_right _ _ Hs3), Ha'.
      apply (po_rights _ _ _ _ _ Hp).
    + destruct He. split; cbn.
      * intros b'. rewrite Ha', <-en_signatures.
        destruct (decide (b' = b)) as [->|Hne].
        -- rewrite lookup_delete_eq. split; [by intros []|]. intros Hs%en_signatures.
           by destruct (cr_new _ _ _ _ _ Hcr3).
        -- rewrite lookup_delete_ne by done. by rewrite (cr_signatures _ _ _ _ _ Hcr2).
      * intros b'. rewrite Ha', <-en_revisions.
        destruct (decide (b' = b)) as [->|Hne].
        -- rewrite lookup_delete_eq. split; [by intros []|]. intros Hs%en_revisions.
           by destruct (cr_new _ _ _ _ _ Hcr3).
        -- rewrite lookup_delete_ne by done. by rewrite (cr_revisions _ _ _ _ _ Hcr2).
      * intros b' revision [Hne Hb']%lookup_delete_Some.
        rewrite (cr_revisions _ _ _ _ _ Hcr2) in Hb' by done.
        rewrite (cr_last _ _ _ _ _ Hcr2). specialize (en_last _ _ Hb'). lia.
    + intros b' sig. cbn. intros [Hne Hb']%lookup_delete_Some.
      rewrite (cr_signatures _ _ _ _ _ Hcr2) in Hb' by done.
      intros t. rewrite (Hsig _ _ Hb' t). unfold has_access.
      by setoid_rewrite (ss_right _ _ Hs3).
    + intros type record. cbn. rewrite Hsys. intros Hr b'. rewrite (Hm type record Hr b'), Ha'.
      split; intros [Hact Hcov]; (split; [done|]); rewrite <-Hcov; f_equal;
        unfold behavior_signature; cbn; (rewrite lookup_delete_ne
          by (intros ->; by destruct (cr_new _ _ _ _ _ Hcr3)));
        rewrite (cr_signatures _ _ _ _ _ Hcr2) by (intros ->; by destruct (cr_new _ _ _ _ _ Hcr3));
        done.
    + unfold calm. cbn. by rewrite Hsys.
  - split; cbn; [rewrite (cr_last _ _ _ _ _ Hcr2); lia|].
    intros b' r2 [Hne H2]%lookup_delete_Some.
    rewrite (cr_revisions _ _ _ _ _ Hcr2) in H2 by done.
    right. split; [done|]. by apply same_reach_shape.
  - destruct (cr_flags _ _ _ _ _ Hcr2). by split.
Qed.

Lemma pool_removes b : removes (create_behavior_pool (C := sigT El) b).
Proof.
  intros r L Hr Ht. pose proof (create_behavior_pool_spec b r L Hr Ht) as Hd.
  destruct (create_behavior_pool b r) as [[u|e] r'].
  - destruct Hd as [Hadv [Hr' _]]. split; [done|]. exists (disowned b L).
    split; [done|apply map_filter_subseteq].
  - destruct Hd as [Hadv (_ & gone & _ & Hr')]. split; [done|]. exists (without gone L).
    split; [done|apply without_subseteq].
Qed.

(** Steps on the intents alone. *)
Lemma on_intents_systems {A} (m : stm _ A) w :
  systemRegistry (state (on_intents m w).2) = systemRegistry (state w).
Proof. unfold on_intents, on_state, zoom. by destruct (m _). Qed.

Lemma creating_pool w V G b w1 :
  creating w V G b w1 → creating w V G b (on_intents (create_behavior_pool b) w1).2.
Proof.
  intros Hcr. eapply creating_quiet; [exact Hcr|apply quiet_removes, pool_removes|..].
  - unfold calm. rewrite on_intents_systems. apply Hcr.
  - rewrite on_intents_systems. apply Hcr.
Qed.

Lemma emplace_signature_eq b w :
  behaviorSignatures (state w) !! b = None →
  emplace_signature b w =
  (Ok tt, set_state (set_signatures (<[b := 0]> (behaviorSignatures (state w))) (state w)) w).
Proof.
  intros Hb. unfold emplace_signature. rewrite (stm_bind_eq _ _ w w w) by done.
  rewrite bool_decide_eq_false_2 by (rewrite Hb; by intros []). done.
Qed.

Lemma emplace_revision_eq b revision w :
  behaviorAccessRevisions (state w) !! b = None →
  emplace_revision b revision w =
  (Ok tt, set_state (set_revisions (<[b := revision]> (behaviorAccessRevisions (state w)))
            (state w)) w).
Proof.
  intros Hb. unfold emplace_revision. rewrite (stm_bind_eq _ _ w w w) by done.
  rewrite bool_decide_eq_false_2 by (rewrite Hb; by intros []). done.
Qed.

(** The entries and the membership of the new behaviour. *)
Lemma create_entries w V G b revision w1 :
  creating w V G b w1 →
  behaviorSignatures (state w1) !! b = None → behaviorAccessRevisions (state w1) !! b = None →
  wp (emplace_signature b;; emplace_revision b revision;; update_system_memberships code b)
    (λ x w', creating w V G b w' ∧ behaviorSignatures (state w') !! b = Some 0 ∧
       behaviorAccessRevisions (state w') !! b = Some revision ∧
       ∃ w2, map_systems (without_behavior b) (systemRegistry (state w2)) =
         systemRegistry (state w) ∧ systemRegistry (state w') =
         map_systems (membership b 0) (systemRegistry (state w2))) w1.
Proof.
  intros Hcr Hs Hr. eapply wp_bind_eq; [by apply emplace_signature_eq|].
  eapply wp_bind_eq; [by apply emplace_revision_eq|]. cbn [state set_state set_signatures
    behaviorAccessRevisions].
  pose proof (creating_entries _ _ _ _ _ (<[b := 0]> (behaviorSignatures (state w1)))
    (<[b := revision]> (behaviorAccessRevisions (state w1))) Hcr
    (λ b' Hne, lookup_insert_ne _ _ _ _ (not_eq_sym Hne))
    (λ b' Hne, lookup_insert_ne _ _ _ _ (not_eq_sym Hne))) as Hcr2.
  set (w2 := set_state (set_revisions _ (set_signatures _ _)) w1) in Hcr2.
  change (set_state _ _) with w2.
  eapply wp_mono; [apply update_memberships_wp, Hcr2|].
  intros x w3 [Hsys Hq]. destruct (proj1 Hq) as [_ _ Es Er _ _ _ _].
  assert (behavior_signature b w2 = 0) as E0.
  { unfold behavior_signature, w2. cbn. by rewrite lookup_insert_eq. }
  rewrite E0 in Hsys. rewrite Es, Er. unfold w2 at 1 2. cbn. rewrite !lookup_insert_eq.
  split_and!; [|done|done|by exists w2; split; [apply Hcr2|]].
  eapply creating_quiet; [exact Hcr2|exact Hq|by eapply calm_map; [|apply Hcr2]|].
  rewrite Hsys, map_systems_compose, <-(cr_systems _ _ _ _ _ Hcr2).
  apply map_systems_ext. intros type record _. apply without_membership.
Qed.

Lemma created_coordinated w V G L b revision w1 (r2 : SystemRegistry Y) :
  coordinated w V G L → creating w V G b w1 →
  behaviorSignatures (state w1) !! b = Some 0 →
  behaviorAccessRevisions (state w1) !! b = Some revision →
  lastBehaviorAccessRevision (state w) < revision <= lastBehaviorAccessRevision (state w1) →
  map_systems (without_behavior b) r2 = systemRegistry (state w) →
  systemRegistry (state w1) = map_systems (membership b 0) r2 →
  settles w V w1.
Proof.
  intros [Hp [He1 He2 He3] Hsig Hm Hcalm] Hcr Hs Hr Hle Hw2 Hsys.
  destruct (cr_parts _ _ _ _ _ Hcr) as (V1 & L1 & Hp1 & Hshape).
  pose proof (cr_active _ _ _ _ _ Hcr) as Ha. pose proof (cr_new _ _ _ _ _ Hcr) as Hnew.
  right. exists V1, G, L1. split_and!.
  - split; [done| | | |apply Hcr].
    + split.
      * intros b'. rewrite Ha, elem_of_union, elem_of_singleton, <-He1.
        destruct (decide (b' = b)) as [->|Hne]; [rewrite Hs; naive_solver|].
        rewrite (cr_signatures _ _ _ _ _ Hcr) by done. naive_solver.
      * intros b'. rewrite Ha, elem_of_union, elem_of_singleton, <-He2.
        destruct (decide (b' = b)) as [->|Hne]; [rewrite Hr; naive_solver|].
        rewrite (cr_revisions _ _ _ _ _ Hcr) by done. naive_solver.
      * intros b' r. destruct (decide (b' = b)) as [->|Hne]; [rewrite Hr; intros [= <-]; apply Hle|].
        rewrite (cr_revisions _ _ _ _ _ Hcr) by done. intros Hb'.
        rewrite (cr_last _ _ _ _ _ Hcr). specialize (He3 _ _ Hb'). lia.
    + intros b' sig. destruct (decide (b' = b)) as [->|Hne].
      * rewrite Hs. intros [= <-] t. rewrite N.bits_0. split; [done|].
        intros (n & m & Hright). rewrite (ss_right _ _ Hshape) in Hright.
        by apply (po_rights _ _ _ _ _ Hp) in Hright.
      * rewrite (cr_signatures _ _ _ _ _ Hcr) by done. intros Hb' t.
        rewrite (Hsig _ _ Hb' t). unfold has_access. by setoid_rewrite (ss_right _ _ Hshape).
    + intros type record. rewrite Hsys, map_systems_lookup. intros (record2 & H2 & ->) b'.
      assert (systems (systemRegistry (state w)) !! type = Some (without_behavior b record2)) as H0'
        by (rewrite <-Hw2; apply map_systems_lookup; eauto).
      pose proof (Hm _ _ H0' b') as Hb'. unfold without_behavior in Hb'. cbn in Hb'.
      change (covers (behavior_signature b' w1) (membership b 0 record2))
        with (covers (behavior_signature b' w1) record2).
      rewrite Ha. unfold membership. cbn [behaviours set_behaviours].
      rewrite elem_of_union, elem_of_singleton. destruct (decide (b' = b)) as [->|Hne].
      * unfold behavior_signature. rewrite Hs. cbn [default id from_option].
        destruct (covers 0 record2); set_solver.
      * change (covers (behavior_signature b' w) (set_behaviours _ record2))
          with (covers (behavior_signature b' w) record2) in Hb'.
        rewrite elem_of_difference, elem_of_singleton in Hb'.
        assert (behavior_signature b' w1 = behavior_signature b' w) as ->
          by (unfold behavior_signature; by rewrite (cr_signatures _ _ _ _ _ Hcr)).
        destruct (covers 0 record2); set_solver.
  - split; [rewrite (cr_last _ _ _ _ _ Hcr); lia|]. intros b' r' H2'.
    destruct (decide (b' = b)) as [->|Hne].
    + left. rewrite Hr in H2'. injection H2' as <-. apply Hle.
    + rewrite (cr_revisions _ _ _ _ _ Hcr) in H2' by done. right. split; [done|by apply same_reach_shape].
  - apply Hcr.
Qed.

Theorem create_behavior_settles w V G L :
  coordinated w V G L → wp (create_behavior code) (λ _ w', settles w V w') w.
Proof.
  intros Hc. apply wp_bind, wp_next_revision; [by eapply settles_refl|]. cbn [then_wp].
  apply wp_bind. unfold wp at 1, on_behaviors, on_state, zoom.
  pose proof (Behaviors.create_behavior_spec _ (po_behaviors _ _ _ _ _ (co_parts _ _ _ _ Hc))) as Hb.
  change (behaviorRegistry (state (bumped w))) with (behaviorRegistry (state w)).
  destruct (Behaviors.create_behavior (behaviorRegistry (state w))) as [[b|e] bs].
  2:{ destruct Hb as [-> _]. cbn [fst snd then_wp].
      assert (set_state (set_behaviors (behaviorRegistry (state w)) (state (bumped w))) (bumped w)
        = bumped w) as -> by (by destruct w as [[]]).
      eapply settles_bumped, settles_refl, coordinated_bumped, Hc. }
  destruct Hb as (Hbs & Ha & Hnew & _). cbn [fst snd then_wp].
  set (w1 := set_state (set_behaviors bs (state (bumped w))) (bumped w)).
  assert (creating w V G b w1) as Hcr.
  { destruct Hc as [Hp He Hsig Hm Hcalm]. split; try done.
    - exists V, L. split; [|done]. apply parts_behaviors; [by apply (parts_ok_same _ w)|done|].
      intros t b' n m Hr. rewrite Ha. apply (po_rights _ _ _ _ _ Hp) in Hr. set_solver.
    - apply map_systems_id. intros type record Hr. apply without_absent. intros Hb.
      apply (Hm _ _ Hr) in Hb as [Hb _]. done. }
  apply wp_bind, wp_try, wp_bind. eapply wp_intro. intros x w2 Ex.
  pose proof (creating_pool _ _ _ _ _ Hcr) as Hcr2. rewrite Ex in Hcr2. cbn [snd] in Hcr2.
  assert (same_frame w1 w2) as Hf.
  { pose proof (quiet_removes _ w1 (pool_removes b)) as [Hf _]. by rewrite Ex in Hf. }
  assert (∀ e, wp (captured (Systems.remove_behavior code b);; forget_behavior_entries b;;
      on_intents (destroy_owned_by b);; on_behaviors (Behaviors.destroy_behavior b);;
      slift (A := unit) (Err e)) (then_wp (λ _, mret b) (λ _ w', settles w V w')) w2) as Hundo.
  { intros e. eapply wp_mono; [by eapply undo_creation|]. by intros y w' [[e' ->] Hs]. }
  destruct x as [u|e]; cbn [then_wp]; [|apply Hundo].
  eapply wp_mono; [apply (create_entries w V G); [exact Hcr2|..]|].
  - rewrite (sf_signatures _ _ Hf). apply eq_None_not_Some. intros Hs.
    apply (co_entries _ _ _ _ Hc) in Hs. done.
  - rewrite (sf_revisions _ _ Hf). apply eq_None_not_Some. intros Hs.
    apply (co_entries _ _ _ _ Hc) in Hs. done.
  - intros y w3 (Hcr3 & Hs & Hr & w4 & Hw4 & Hsys). destruct y as [[]|e]; cbn [then_wp].
    + apply wp_ret. eapply (created_coordinated w V G L b _ w3); try done.
      rewrite (cr_last _ _ _ _ _ Hcr3). lia.
    + eapply wp_mono; [by eapply undo_creation|]. by intros y w' [[e' ->] Hs'].
Qed.

(** *** Destruction *)

Lemma class_at_forget V b t : class_at (forget b <$> V) t = class_at V t.
Proof. unfold class_at. rewrite lookup_fmap. by destruct (V !! t). Qed.

Lemma handle_at_forget V b t n : handle_at (forget b <$> V) t n = handle_at V t n.
Proof. unfold handle_at. rewrite lookup_fmap. by destruct (V !! t). Qed.

Lemma right_at_forget V b t b' n :
  right_at (forget b <$> V) t b' n = if decide (b' = b) then None else right_at V t b' n.
Proof.
  unfold right_at. rewrite lookup_fmap. destruct (V !! t) as [vw|]; cbn; [|by case_decide].
  case_decide as E.
  - subst b'. apply map_lookup_filter_None_2. right. cbn. naive_solver.
  - destruct (rights vw !! (b', n)) as [m|] eqn:Hm.
    + by apply map_lookup_filter_Some_2.
    + apply map_lookup_filter_None_2. by left.
Qed.

(** Taking a behaviour's rights leaves its intents without authority. *)
Lemma parts_forget b w V G L :
  parts_ok nobody w V G L →
  parts_ok (λ rec, intent_owner (base rec) = b) (set_state (set_components (Components.remove_behavior b
    (componentRegistry (state w))) (state w)) w) (forget b <$> V) G L.
Proof.
  intros []. split; cbn; try done.
  - by apply remove_behavior_spec.
  - intros id rec Hid HX.
    destruct (po_authorized id rec Hid (λ F, F)) as (HA & n & m & Hh & Hr & Hm & Hc).
    split; [done|]. exists n, m. rewrite handle_at_forget, right_at_forget, class_at_forget.
    by rewrite decide_False.
  - intros t b' n m. rewrite right_at_forget. case_decide; [done|]. apply po_rights.
Qed.

Definition forgotten b w : World :=
  set_state (set_revisions (delete b (behaviorAccessRevisions (state w)))
    (set_signatures (delete b (behaviorSignatures (state w))) (state w))) w.

Theorem destroy_behavior_settles b w V G L :
  coordinated w V G L → wp (destroy_behavior code b) (λ _ w', settles w V w') w.
Proof.
  intros Hc. apply wp_bind, wp_require; intros Hb; [by eapply settles_refl|]. cbn [then_wp].
  pose proof Hc as [Hp [He1 He2 He3] Hsig Hm Hcalm]. pose proof (parts_forget b _ _ _ _ Hp) as Hp1.
  set (w1 := set_state (set_components _ (state w)) w) in Hp1.
  apply (wp_bind_eq _ _ tt _ _ w1); [done|].
  set (w2 := forgotten b w1). apply (wp_bind_eq _ _ tt _ _ w2); [done|].
  assert (parts_ok (λ rec, intent_owner (base rec) = b) w2 (forget b <$> V) G L) as Hp2 by (by apply (parts_ok_same _ w1)).
  apply wp_bind. eapply wp_mono; [by apply captured_remove_wp|].
  intros x w3 ([e ->] & Hsys & [[Ei Eb Es Er Elast Erun Etx Eo] Hq]). cbn [then_wp].
  destruct (Hq _ _ _ _ Hp2) as (V3 & L3 & Hp3 & Hshape & _).
  apply wp_bind. eapply wp_mono; [by eapply destroy_owned_wp|].
  intros x w4 [[r ->] Hx]. destruct x as [u|e4]; cbn [then_wp]; [|by left].
  apply (parts_exempt _ nobody) in Hx; [|by intros id rec _ []].
  apply wp_bind. eapply wp_mono.
  { apply destroy_behavior_wp; [apply Hp3|]. cbn. rewrite Eb. exact Hb. }
  intros x w5 (-> & bs & -> & Hbs & Ha). cbn [then_wp]. cbn in Ha. rewrite Eb in Ha.
  change (behaviorRegistry (state w2)) with (behaviorRegistry (state w)) in Ha.
  unfold wp, rethrow.
  match goal with |- context [set_state (set_behaviors bs ?s) ?v] =>
    set (w6 := set_state (set_behaviors bs s) v) end.
  cut (settles w V w6); [by destruct e|]. right.
  assert (∀ t b' n, right_at V3 t b' n = if decide (b' = b) then None else right_at V t b' n) as Hright
    by (intros; by rewrite (ss_right _ _ Hshape), right_at_forget).
  exists V3, G, (disowned b L3). split_and!.
  - split.
    + apply parts_behaviors; [done|done|]. intros t b' n m. rewrite Hright, Ha.
      case_decide; [done|]. intros Hr%(po_rights _ _ _ _ _ Hp). set_solver.
    + split; cbn.
      * intros b'. rewrite Es, Ha. cbn. destruct (decide (b' = b)) as [->|Hne].
        -- rewrite lookup_delete_eq. split; [by intros []|set_solver].
        -- rewrite lookup_delete_ne, He1 by done. set_solver.
      * intros b'. rewrite Er, Ha. cbn. destruct (decide (b' = b)) as [->|Hne].
        -- rewrite lookup_delete_eq. split; [by intros []|set_solver].
        -- rewrite lookup_delete_ne, He2 by done. set_solver.
      * intros b' revision. rewrite Er, Elast. cbn. intros [_ Hb']%lookup_delete_Some. by eapply He3.
    + intros b' sig. cbn. rewrite Es. cbn. intros [Hne Hb']%lookup_delete_Some t.
      rewrite (Hsig _ _ Hb' t). unfold has_access.
      assert (∀ n, right_at V3 t b' n = right_at V t b' n) as Hr
        by (intros; by rewrite Hright, decide_False by done).
      by setoid_rewrite Hr.
    + intros type record. cbn. rewrite Hsys, map_systems_lookup. intros (rec0 & H1 & ->) b'.
      change (covers (behavior_signature b' w6) (without_behavior b rec0))
        with (covers (behavior_signature b' w6) rec0).
      cbn [behaviours without_behavior set_behaviours]. rewrite Ha.
      change (systems (systemRegistry (state w2))) with (systems (systemRegistry (state w))) in H1.
      pose proof (Hm _ _ H1 b') as Hb'. destruct (decide (b' = b)) as [->|Hne]; [set_solver|].
      assert (behavior_signature b' w6 = behavior_signature b' w) as ->
        by (unfold behavior_signature, w6; cbn; rewrite Es; cbn; by rewrite lookup_delete_ne).
      set_solver.
    + eapply calm_map; [|exact Hcalm]. exact Hsys.
  - split; cbn; [rewrite Elast; done|]. intros b' r2. rewrite Er. cbn.
    intros [Hne H2]%lookup_delete_Some. right.
    split; [done|]. intros t n. rewrite Hright, decide_False by done. split; [done|].
    intros _. by rewrite (ss_handle _ _ Hshape), handle_at_forget, (ss_class _ _ Hshape), class_at_forget.
  - by split.
Qed.
End Topology.
