(* ===== verification/CoordinatorAccess.v ===== *)
(** * Changes of components, rights and systems keep the world coordinated

    The other changes of topology: components added and removed, rights granted
    and revoked, systems registered, destroyed and given another signature. *)
From S2P Require Import Prelude OrderedMap Values Effects Ids Hoare Behaviors Intents IntentSpec Components ComponentSpec ComponentRuns Systems Coordinator CoordinatorSpec CoordinatorTopology.

Section Access.
Context {K : Type} `{Countable K} {El : K → Type}.
Context {Y : Type} `{Countable Y} {D : Type}.
Abbreviation World := (Coordinator.World El Y D).
Implicit Types (w : World) (V : gmap N (@type_view K El)) (G : list (N * handle))
  (L : gmap handle (@component_intent (sigT El))) (X : @component_intent (sigT El) → Prop)
  (rec : @component_intent (sigT El)) (k : K) (type : ComponentType).

(** ** What the coordinator asks the component registry *)

Definition fits (world : N) V k type : Prop :=
  (type_world type = 0 ∨ type_world type = world ∧ type_generation type = 1) ∧
  class_at V (type_id type) = Some k.

Lemma fits_type world V k type : fits world V k type ↔ type_fits world V k type.
Proof.
  unfold fits, type_fits, class_at. rewrite fmap_Some. split.
  - intros (Hw & vw & HV & ->). split; [done|]. by exists vw.
  - intros (Hw & vw & HV & <-). split; [done|]. by exists vw.
Qed.

Lemma fits_shape world V V' k type : same_shape V V' → fits world V k type → fits world V' k type.
Proof. intros [Hc _ _] [Hw Hk]. split; [done|by rewrite Hc]. Qed.

Section Queries.
Context {X w V G L} (Hp : parts_ok X w V G L).
Let world := instanceId (state w).

Lemma ask_type k type :
  fits world V k type ∧ component_type k type (componentRegistry (state w)) = Ok (type_id type) ∨
  ¬ fits world V k type ∧
    ∃ msg, component_type k type (componentRegistry (state w)) = throw runtime_error msg.
Proof.
  rewrite fits_type. unfold world. rewrite <-(po_components_world _ _ _ _ _ Hp).
  apply component_type_spec with G, Hp.
Qed.

Context {k type} (Hfits : fits world V k type).

Lemma fits_view : ∃ vw, V !! type_id type = Some vw ∧ class vw = k ∧
  type_fits (Components.worldId (componentRegistry (state w))) V (class vw) type.
Proof.
  apply fits_type in Hfits. destruct Hfits as [Hw (vw & HV & <-)]. exists vw.
  split_and!; [done|done|]. split; [by rewrite (po_components_world _ _ _ _ _ Hp)|]. by exists vw.
Qed.

Lemma ask_slot n :
  component_slot k type n (componentRegistry (state w)) =
  match handle_at V (type_id type) n with
  | Some h => Ok h
  | None => throw runtime_error "component name not registered"
  end.
Proof.
  destruct fits_view as (vw & HV & <- & Ht). rewrite (handle_at_view _ _ _ _ HV).
  rewrite (an_slot _ _ _ (components_answer (po_components _ _ _ _ _ Hp)) _ _ n vw Ht HV).
  by destruct (held vw !! n) as [[]|].
Qed.

Lemma ask_access wanted b n h :
  handle_at V (type_id type) n = Some h →
  can_access_slot wanted k type b h (componentRegistry (state w)) =
  Ok match right_at V (type_id type) b n with Some m => mode_allows wanted m | None => false end.
Proof.
  intros Hn. destruct fits_view as (vw & HV & <- & Ht).
  rewrite (handle_at_view _ _ _ _ HV) in Hn. rewrite (right_at_view _ _ _ _ _ HV).
  destruct (held vw !! n) as [[h' v]|] eqn:Eh; [|discriminate Hn]. injection Hn as ->.
  by apply (query_access_slot (po_components _ _ _ _ _ Hp) wanted type b n vw h v).
Qed.

Lemma right_held t b n m : right_at V t b n = Some m → ∃ h, handle_at V t n = Some h.
Proof.
  unfold right_at, handle_at. rewrite bind_Some. intros (vw & HV & Hm).
  destruct (rights_held (po_components _ _ _ _ _ Hp) _ _ _ _ _ HV Hm) as [[h v] Hv].
  exists h. by rewrite HV; cbn; rewrite Hv.
Qed.

Lemma ask_components b :
  ∃ available, Components.get_components k type b (componentRegistry (state w)) = Ok available ∧
    (available = ∅ → ¬ has_access V b (type_id type)) ∧
    (available ≠ ∅ → has_access V b (type_id type)).
Proof.
  destruct fits_view as (vw & HV & <- & Ht).
  destruct (ComponentRuns.query_components (po_components _ _ _ _ _ Hp) type b vw Ht HV) as (av & -> & Hav).
  exists av. split; [done|]. split.
  - intros -> (n & m & Hm). destruct (right_held _ _ _ _ Hm) as [h Hh].
    rewrite (right_at_view _ _ _ _ _ HV) in Hm. rewrite (handle_at_view _ _ _ _ HV) in Hh.
    destruct (held vw !! n) as [[h' v]|] eqn:Eh; [|discriminate Hh].
    assert ((∅ : gmap string handle) !! n = Some h') as Hn by (apply Hav; split; eauto).
    by rewrite lookup_empty in Hn.
  - intros (n & h & Hn)%map_choose. apply Hav in Hn as [_ [m Hm]]. exists n, m.
    by rewrite (right_at_view _ _ _ _ _ HV).
Qed.

Lemma ask_affected :
  ∃ affected, behaviors_with_access k type (componentRegistry (state w)) = Ok affected ∧
    NoDup affected ∧ ∀ b, b ∈ affected ↔ has_access V b (type_id type).
Proof.
  destruct fits_view as (vw & HV & <- & Ht).
  destruct (query_affected (po_components _ _ _ _ _ Hp) type vw Ht HV) as (l & -> & Hnd & Hl).
  exists l. split_and!; [done|done|]. intros b. rewrite Hl. unfold has_access.
  by setoid_rewrite (right_at_view _ _ _ _ _ HV).
Qed.

Lemma type_bound : type_id type < MaxComponentTypes.
Proof.
  destruct fits_view as (vw & HV & _). pose proof (po_components _ _ _ _ _ Hp) as Hr.
  assert (type_id type < nextComponentType (componentRegistry (state w))) as Hlt.
  { apply (rg_types _ _ _ Hr). by exists vw. }
  pose proof (rg_next _ _ _ Hr). lia.
Qed.
End Queries.

(** A query whose answer is known. *)
Lemma wp_asked {A B} (q : ComponentRegistry El → res A) (f : A → stm World B)
    (Q : res B → World → Prop) x w :
  q (componentRegistry (state w)) = x → then_wp f Q x w → wp (query_components q ≫= f) Q w.
Proof. intros <- HQ. by apply wp_bind. Qed.

(** ** Memberships *)

Context (code : Y → SystemCode World).
Hypothesis added_ok : ∀ y b, well_behaved quiet (on_behavior_added (code y) b).
Hypothesis removed_ok : ∀ y b, well_behaved quiet (on_behavior_removed (code y) b).

(** The memberships of all behaviours but those still to be updated. *)
Definition members_but (todo : list handle) w : Prop :=
  ∀ y record, systems (systemRegistry (state w)) !! y = Some record →
  ∀ b, b ∉ todo → b ∈ behaviours record ↔
    b ∈ active (behaviorRegistry (state w)) ∧ covers (behavior_signature b w) record = true.

Lemma members_but_nil w : members_but [] w ↔ members_ok w.
Proof.
  split; intros Hm y record Hr b; [|intros _]; apply (Hm y record Hr b).
  apply not_elem_of_nil.
Qed.

Lemma members_updated b todo w w' :
  members_but (b :: todo) w → b ∈ active (behaviorRegistry (state w)) → same_frame w w' →
  systemRegistry (state w') =
    map_systems (membership b (behavior_signature b w)) (systemRegistry (state w)) →
  members_but todo w'.
Proof.
  intros Hm Hb Hf Hsys y record. rewrite Hsys, map_systems_lookup.
  intros (rec0 & H0' & ->) b' Hb'.
  assert (behavior_signature b' w' = behavior_signature b' w) as ->
    by (unfold behavior_signature; by rewrite (sf_signatures _ _ Hf)).
  rewrite (sf_behaviors _ _ Hf).
  change (covers (behavior_signature b' w) (membership b (behavior_signature b w) rec0))
    with (covers (behavior_signature b' w) rec0).
  unfold membership. cbn [behaviours set_behaviours]. destruct (decide (b' = b)) as [->|Hne].
  - destruct (covers (behavior_signature b w) rec0); set_solver.
  - assert (b' ∉ b :: todo) as Hnot by set_solver. pose proof (Hm y rec0 H0' b' Hnot).
    destruct (covers (behavior_signature b w) rec0); set_solver.
Qed.

(** The world with another signature for a behaviour. *)
Definition with_signature (b : handle) (sig : N) w : World :=
  set_state (set_signatures (<[b := sig]> (behaviorSignatures (state w))) (state w)) w.

Definition signature_bit (b : handle) (t : N) (to : bool) w : N :=
  if to then N.setbit (behavior_signature b w) t else N.clearbit (behavior_signature b w) t.

Lemma set_signature_bit_eq b t to w :
  t < MaxComponentTypes →
  set_signature_bit b t to w = (Ok tt, with_signature b (signature_bit b t to w) w).
Proof.
  intros Ht. unfold set_signature_bit. rewrite (stm_bind_eq _ _ w w w) by done.
  rewrite (stm_bind_eq _ _ w tt (with_signature b (behavior_signature b w) w)) by done.
  rewrite (proj2 (N.leb_gt _ _) Ht). rewrite (stm_bind_eq _ _ _ _ _ (sreject_if_false _ _ _)).
  unfold on_state, zoom, smodify, with_signature. cbn. by rewrite insert_insert_eq.
Qed.

Lemma behavior_signature_with b sig w b' :
  behavior_signature b' (with_signature b sig w) =
  if decide (b' = b) then sig else behavior_signature b' w.
Proof.
  unfold behavior_signature, with_signature. cbn. case_decide as E.
  - subst. by rewrite lookup_insert_eq.
  - by rewrite lookup_insert_ne.
Qed.

Lemma members_with_signature b sig todo w :
  members_but todo w → members_but (b :: todo) (with_signature b sig w).
Proof.
  intros Hm y record Hr b' [Hne Hb']%not_elem_of_cons.
  rewrite behavior_signature_with, decide_False by done. by apply (Hm y).
Qed.

Lemma entries_with_signature b sig w :
  b ∈ active (behaviorRegistry (state w)) → entries_ok w → entries_ok (with_signature b sig w).
Proof.
  intros Hb [H1 H2 H3]. split; cbn; try done. intros b'.
  destruct (decide (b' = b)) as [->|Hne].
  - rewrite lookup_insert_eq. split; [done|by eexists].
  - by rewrite lookup_insert_ne.
Qed.

Lemma entries_frame w w' : same_frame w w' → entries_ok w → entries_ok w'.
Proof.
  intros [] [H1 H2 H3]. split; intros b; [..|intros revision];
    rewrite ?sf_signatures, ?sf_revisions, ?sf_behaviors, ?sf_last; [apply H1|apply H2|apply H3].
Qed.

(** What stays when only signatures, memberships and values change. *)
Record same_revisions w w' : Prop := {
  sr_revisions : behaviorAccessRevisions (state w') = behaviorAccessRevisions (state w);
  sr_last : lastBehaviorAccessRevision (state w') = lastBehaviorAccessRevision (state w);
  sr_behaviors : behaviorRegistry (state w') = behaviorRegistry (state w);
  sr_flags : same_flags w w'
}.

#[export] Instance same_revisions_preorder : PreOrder same_revisions.
Proof.
  split; [done|]. intros w1 w2 w3 [H1 H2 H3 []] [H1' H2' H3' []].
  split; [congruence..|split; congruence].
Qed.

Lemma same_frame_revisions w w' : same_frame w w' → same_revisions w w'.
Proof. intros []. by split; [..|split]. Qed.

(** *** All behaviours *)

Lemma update_all_wp w V G L :
  parts_ok nobody w V G L → entries_ok w → sigs_ok w V → calm w →
  (∀ y record b, systems (systemRegistry (state w)) !! y = Some record →
     b ∈ behaviours record → b ∈ active (behaviorRegistry (state w))) →
  wp (update_all_system_memberships code) (λ _ w', ∃ V' L',
    coordinated w' V' G L' ∧ same_shape V V' ∧ same_revisions w w' ∧
    (∀ y, is_Some (systems (systemRegistry (state w')) !! y) ↔
      is_Some (systems (systemRegistry (state w)) !! y)) ∧
    registrationOrder (systemRegistry (state w')) =
      registrationOrder (systemRegistry (state w))) w.
Proof.
  intros Hp He Hsig Hcalm Hact. apply wp_bind, wp_get. cbn [then_wp].
  apply (wp_for_capturing _ _ _ (λ todo w', members_but todo w' ∧ quiet w w' ∧ calm w' ∧
    (∀ b, b ∈ todo → b ∈ active (behaviorRegistry (state w))) ∧
    (∀ y, is_Some (systems (systemRegistry (state w')) !! y) ↔
      is_Some (systems (systemRegistry (state w)) !! y)) ∧
    registrationOrder (systemRegistry (state w')) =
      registrationOrder (systemRegistry (state w)))).
  - split_and!; try done.
    + intros y record Hr b. rewrite elem_of_ordered, elem_of_dom, (en_signatures _ He).
      intros Hb. split; [|by intros [??]]. intros Hin. by destruct Hb; eapply Hact.
    + intros b. by rewrite elem_of_ordered, elem_of_dom, (en_signatures _ He).
  - intros b todo w1 (Hm & Hq & Hcalm1 & Htodo & Hdom & Hord). apply wp_captured.
    eapply wp_mono; [by apply update_memberships_wp|]. intros x w2 [Hsys Hq2].
    split; [eauto|]. split_and!.
    + eapply members_updated; [exact Hm| |apply Hq2|exact Hsys].
      rewrite (sf_behaviors _ _ (proj1 Hq)). apply Htodo. left.
    + by etransitivity.
    + by eapply calm_map.
    + intros b' Hb'. apply Htodo. by right.
    + intros y. rewrite Hsys, <-Hdom. cbn. by rewrite lookup_fmap, fmap_is_Some.
    + by rewrite Hsys.
  - intros x w1 (Hm & Hq & Hcalm1 & _ & Hdom & Hord). destruct Hq as [Hf Hq].
    destruct (Hq _ _ _ _ Hp) as (V' & L' & Hp' & Hs & _). exists V', L'.
    split_and!; [|done|by apply same_frame_revisions|done|done].
    split; [done|by eapply entries_frame| |by apply members_but_nil|done].
    eapply sigs_ok_shape; [done|apply Hf|done].
Qed.

(** *** One behaviour *)

(** Coordinated but for what the signatures say. *)
Record steady w V G L : Prop := {
  st_parts : parts_ok nobody w V G L;
  st_entries : entries_ok w;
  st_members : members_ok w;
  st_calm : calm w
}.

Lemma coordinated_steady w V G L : coordinated w V G L ↔ steady w V G L ∧ sigs_ok w V.
Proof. split; [by intros []|by intros [[] ?]]. Qed.

(** A callback runs its computation and adds what [E] says to the outcome. *)
Definition calls_back {B} (E : res B → Prop) (callback : stm World unit → stm World B) : Prop :=
  ∀ m Q w, wp m (λ _ w', Q w') w → wp (callback m) (λ x w', E x ∧ Q w') w.

Lemma captured_calls_back : calls_back (λ x, ∃ e, x = Ok e) captured.
Proof. intros m Q w Hm. apply wp_captured. eapply wp_mono; [exact Hm|]. eauto. Qed.

Lemma plain_calls_back : calls_back (λ _, True) (λ m, m).
Proof. intros m Q w Hm. by eapply wp_mono. Qed.

Lemma uncaught_calls_back : calls_back (λ _, True) (λ m, m;; mret (None : option exn)).
Proof. intros m Q w Hm. apply wp_bind. eapply wp_mono; [exact Hm|]. by intros [[]|e] w' HQ. Qed.

(** The steps of a signature's change. *)
Record resigned w V G b sig w' V' L' : Prop := {
  rs_steady : steady w' V' G L';
  rs_shape : same_shape V V';
  rs_revisions : same_revisions w w';
  rs_signatures : behaviorSignatures (state w') = <[b := sig]> (behaviorSignatures (state w))
}.

Lemma resign_wp {B} (E : res B → Prop) callback b t to w V G L :
  calls_back E callback → steady w V G L → b ∈ active (behaviorRegistry (state w)) →
  t < MaxComponentTypes →
  wp (set_signature_bit b t to;; callback (update_system_memberships code b))
    (λ x w', E x ∧ ∃ V' L', resigned w V G b (signature_bit b t to w) w' V' L') w.
Proof.
  intros Hcall [Hp He Hm Hcalm] Hb Ht. eapply wp_bind_eq; [by apply set_signature_bit_eq|].
  set (w1 := with_signature b (signature_bit b t to w) w).
  assert (calm w1) as Hcalm1 by exact Hcalm.
  apply Hcall. eapply wp_mono; [by apply update_memberships_wp|]. intros _ w2 [Hsys [Hf Hq]].
  destruct (Hq nobody V G L) as (V' & L' & Hp' & Hs & _); [by apply (parts_ok_same _ w)|].
  exists V', L'. split;
    [|done|transitivity w1; [done|by apply same_frame_revisions]|apply (sf_signatures _ _ Hf)].
  split; [done| | |by eapply calm_map].
  - by eapply entries_frame, entries_with_signature.
  - apply members_but_nil. apply (members_updated b [] w1); [|exact Hb|done|done].
    apply members_with_signature, members_but_nil, Hm.
Qed.

Lemma signature_bit_spec b t to w sig t' :
  signature_bit b t to w = sig →
  N.testbit sig t' = if decide (t' = t) then to else N.testbit (behavior_signature b w) t'.
Proof.
  intros <-. unfold signature_bit. case_decide as E.
  - subst. destruct to; [apply N.setbit_eq|apply N.clearbit_eq].
  - destruct to; [apply N.setbit_neq|apply N.clearbit_neq]; congruence.
Qed.

(** *** Stale signatures *)

(** The bit of [t] may be left over in the signatures of [todo]. *)
Definition sigs_but (t : N) (todo : list handle) w V : Prop :=
  ∀ b sig, behaviorSignatures (state w) !! b = Some sig → ∀ t',
    (has_access V b t' → N.testbit sig t' = true) ∧
    (N.testbit sig t' = true → has_access V b t' ∨ t' = t ∧ b ∈ todo).

Lemma sigs_but_nil t w V : sigs_but t [] w V → sigs_ok w V.
Proof.
  intros Hs b sig Hb t'. destruct (Hs b sig Hb t') as [H1 H2]. split; [|done].
  intros [?|[_ []%not_elem_of_nil]]%H2. done.
Qed.

Lemma has_access_shape V V' b t : same_shape V V' → has_access V' b t ↔ has_access V b t.
Proof. intros Hs. unfold has_access. by setoid_rewrite (ss_right _ _ Hs). Qed.

Lemma sigs_but_shape t todo w w' V V' :
  same_shape V V' → behaviorSignatures (state w') = behaviorSignatures (state w) →
  sigs_but t todo w V → sigs_but t todo w' V'.
Proof.
  intros Hs Es Hb b sig. rewrite Es. intros Hsig t'. rewrite (has_access_shape _ _ _ _ Hs).
  by apply Hb.
Qed.

Lemma signature_entry b w sig :
  behaviorSignatures (state w) !! b = Some sig → behavior_signature b w = sig.
Proof. unfold behavior_signature. by intros ->. Qed.

(** What a loop that settles behaviours maintains. *)
Definition settling w V G (t : N) (todo : list handle) w' : Prop :=
  ∃ V' L', steady w' V' G L' ∧ sigs_but t todo w' V' ∧ same_shape V V' ∧ same_revisions w w'.

Lemma settle_wp E callback k type b todo w0 V0 G w :
  calls_back E callback → E (Ok None) → fits (instanceId (state w0)) V0 k type →
  b ∈ active (behaviorRegistry (state w0)) →
  settling w0 V0 G (type_id type) (b :: todo) w →
  wp (settle_behavior code k type (type_id type) callback b)
    (λ x w', E x ∧ settling w0 V0 G (type_id type) todo w') w.
Proof.
  intros Hcall HE Hfits Hb (V & L & Hst & Hsig & Hs & Hr).
  pose proof Hr as [_ _ Eb [Ei _ _ _]].
  assert (fits (instanceId (state w)) V k type) as Hfits' by (rewrite Ei; by eapply fits_shape).
  destruct (ask_components (st_parts _ _ _ _ Hst) Hfits' b) as (available & Ea & Hno & Hyes).
  eapply wp_asked; [exact Ea|]. cbn [then_wp].
  case_decide as Eav.
  - eapply wp_mono.
    + eapply resign_wp; [exact Hcall|exact Hst|by rewrite Eb|].
      exact (type_bound (st_parts _ _ _ _ Hst) Hfits').
    + intros y w' (Hy & V' & L' & [Hst' Hs' Hr' Es']). split; [done|].
      exists V', L'. split_and!; [done| |by etransitivity|by etransitivity].
      intros b' sig. rewrite Es'. intros Hb' t'. rewrite (has_access_shape _ _ _ _ Hs').
      destruct (decide (b' = b)) as [->|Hne].
      * rewrite lookup_insert_eq in Hb'. injection Hb' as Hb'.
        rewrite (signature_bit_spec b (type_id type) false w sig t' Hb').
        case_decide as Et; [subst t'; split; [by intros ?%(Hno Eav)|done]|].
        destruct (proj2 (en_signatures _ (st_entries _ _ _ _ Hst) b)) as [sig0 Hsig0];
          [by rewrite Eb|]. rewrite (signature_entry _ _ _ Hsig0).
        destruct (Hsig _ _ Hsig0 t') as [H1 H2]. split; [done|]. intros [?|[? _]]%H2; by left.
      * rewrite lookup_insert_ne in Hb' by done. destruct (Hsig _ _ Hb' t') as [H1 H2].
        split; [done|]. intros [?|[? ?]]%H2; [by left|right; set_solver].
  - apply wp_ret. split; [done|]. exists V, L. split_and!; [done| |done|done].
    intros b' sig Hb' t'. destruct (Hsig _ _ Hb' t') as [H1 H2]. split; [done|].
    intros [?|[-> [->|?]%elem_of_cons]]%H2; [by left| |by right].
    left. by apply Hyes.
Qed.
End Access.
