(* ===== verification/CoordinatorRights.v ===== *)
(** * Removing components and changing rights

    [remove_component], [grant_component_access] and [revoke_component_access]
    leave the world coordinated: the intents that lose their authority are
    destroyed, the revisions of the behaviours concerned grow, and signatures
    and memberships follow the rights. *)
From S2P Require Import Prelude OrderedMap Values Effects Ids Hoare Behaviors Intents IntentSpec Components ComponentSpec ComponentRuns Systems Coordinator CoordinatorSpec CoordinatorTopology CoordinatorAccess.

Section Rights.
Context {K : Type} `{Countable K} {El : K → Type}.
Context {Y : Type} `{Countable Y} {D : Type}.
Abbreviation World := (Coordinator.World El Y D).
Implicit Types (w : World) (V : gmap N (@type_view K El)) (G : list (N * handle))
  (L : gmap handle (@component_intent (sigT El))) (X : @component_intent (sigT El) → Prop)
  (rec : @component_intent (sigT El)) (k : K) (type : ComponentType).

(** ** Intents of a target *)

Definition targets (t : N) (h : handle) rec : Prop :=
  intent_target (base rec) = MkComponentTarget t h.

(** All of them, or those of one owner. *)
Definition concerns (owner : option handle) rec : Prop :=
  match owner with Some b => intent_owner (base rec) = b | None => True end.

Definition destroy_chosen (owner : option handle) (id : IntentId) : stm World unit :=
  match owner with
  | None => on_intents (destroy id)
  | Some b =>
      o ← query (λ s, owner_of id (intentRegistry s));
      if decide (o = b) then on_intents (destroy id) else mret tt
  end.

Definition with_intents r w : World := set_state (set_intents r (state w)) w.

Lemma destroy_one_wp X id w V G L :
  parts_ok X w V G L →
  wp (on_intents (destroy id)) (λ x w', (∃ r, w' = with_intents r w) ∧
    match x with
    | Ok _ => parts_ok X w' V G (delete id L)
    | Err _ => L !! id = None ∨ evidence_full w'
    end) w.
Proof.
  intros Hp. unfold wp, on_intents, on_state, zoom.
  pose proof (destroy_spec _ L id (po_intents _ _ _ _ _ Hp) (po_closed _ _ _ _ _ Hp)) as Hd.
  destruct (destroy id (intentRegistry (state w))) as [[u|e] r]; cbn [fst snd].
  - destruct Hd as (rec & _ & Hr & Hadv & _). split; [by eexists|].
    eapply parts_intents; [exact Hp|exact Hr|apply Hadv|].
    intros id' rec' [_ Hid']%lookup_delete_Some. by left.
  - destruct Hd as [-> Hd]. split; [by eexists|]. exact Hd.
Qed.

Lemma owner_asked X id w V G L rec :
  parts_ok X w V G L → L !! id = Some rec →
  owner_of id (intentRegistry (state w)) = Ok (intent_owner (base rec)).
Proof.
  intros Hp Hid. unfold owner_of. rewrite (intent_ok _ _ id (po_intents _ _ _ _ _ Hp)).
  by rewrite Hid.
Qed.

Lemma elem_of_intents_for X w V G L t h id :
  parts_ok X w V G L →
  id ∈ intents_for t h (intentRegistry (state w)) ↔ ∃ rec, L !! id = Some rec ∧ targets t h rec.
Proof.
  intros Hp. destruct (po_intents _ _ _ _ _ Hp) as [Hix _].
  rewrite <-(ix_target _ _ _ Hix (MkComponentTarget t h) id). unfold intents_for, target_ids. cbn.
  destruct (byTarget (tables (intentRegistry (state w))) !! t) as [slots|]; cbn; [|set_solver].
  destruct (slots !! h); cbn; [apply elem_of_ordered|set_solver].
Qed.

Lemma NoDup_intents_for t h (r : @IntentRegistry (sigT El)) : NoDup (intents_for t h r).
Proof.
  unfold intents_for. destruct (byTarget _ !! t ≫= _); [apply NoDup_ordered|constructor].
Qed.

(** The loop of both functions that destroy the intents of a target. *)
Lemma destroy_chosen_wp owner X w V G L t h :
  parts_ok X w V G L →
  wp (sfor (destroy_chosen owner) (intents_for t h (intentRegistry (state w)))) (λ x w',
    (∃ r, w' = with_intents r w) ∧
    match x with
    | Ok _ => ∃ L', parts_ok X w' V G L' ∧ ∀ id rec, L' !! id = Some rec → targets t h rec →
        ¬ concerns owner rec
    | Err _ => evidence_full w'
    end) w.
Proof.
  intros Hp. apply (wp_for _ _ (λ todo w', (∃ r, w' = with_intents r w) ∧ NoDup todo ∧
    ∃ L', parts_ok X w' V G L' ∧
      (∀ id, id ∈ todo → ∃ rec, L' !! id = Some rec ∧ targets t h rec) ∧
      (∀ id rec, L' !! id = Some rec → targets t h rec → concerns owner rec → id ∈ todo))).
  - split_and!; [|apply NoDup_intents_for|].
    { exists (intentRegistry (state w)). by destruct w as [[]]. }
    exists L. split_and!; [done| |].
    + intros id. by apply (elem_of_intents_for _ _ _ _ _ _ _ _ Hp).
    + intros id rec Hid Ht _. apply (elem_of_intents_for _ _ _ _ _ _ _ _ Hp). by exists rec.
  - intros id todo w1 ([r ->] & Hnd & L1 & Hp1 & Hin & Hall). apply NoDup_cons in Hnd as [Hnot Hnd].
    destruct (Hin id ltac:(left)) as (rec & Hid & Ht).
    assert (wp (on_intents (destroy id)) (λ y s', match y with
      | Ok _ => (∃ r', s' = with_intents r' w) ∧ NoDup todo ∧ ∃ L', parts_ok X s' V G L' ∧
          (∀ id, id ∈ todo → ∃ rec, L' !! id = Some rec ∧ targets t h rec) ∧
          (∀ id rec, L' !! id = Some rec → targets t h rec → concerns owner rec → id ∈ todo)
      | Err _ => (∃ r', s' = with_intents r' w) ∧ evidence_full s' end) (with_intents r w)) as Hdestroy.
    { eapply wp_mono; [by apply destroy_one_wp|]. intros y w2 [[r2 ->] Hy].
      destruct y as [u|e]; [|split; [by exists r2|]; destruct Hy as [Hy|Hy]; [congruence|done]].
      split_and!; [by exists r2|done|]. exists (delete id L1). split_and!; [done| |].
      - intros id' Hid'. destruct (Hin id' ltac:(by right)) as (rec' & Hl & Ht'). exists rec'.
        split; [|done]. rewrite lookup_delete_ne; [done|]. by intros ->.
      - intros id' rec' [Hne Hl]%lookup_delete_Some Ht' Hc.
        specialize (Hall _ _ Hl Ht' Hc). set_solver. }
    destruct owner as [b|]; [|exact Hdestroy]. cbn [destroy_chosen].
    eapply wp_bind_eq; [unfold query; by rewrite (owner_asked _ _ _ _ _ _ _ Hp1 Hid)|].
    case_decide as Eo; [exact Hdestroy|]. apply wp_ret. split_and!; [by exists r|done|].
    exists L1. split_and!; [done|intros id' Hid'; apply Hin; by right|].
    intros id' rec' Hl Ht' Hc. specialize (Hall _ _ Hl Ht' Hc).
    apply elem_of_cons in Hall as [->|?]; [|done]. rewrite Hid in Hl. injection Hl as <-. done.
  - intros w1 (Hr & _ & L1 & Hp1 & _ & Hall). split; [done|]. exists L1. split; [done|].
    intros id rec Hid Ht Hc. by specialize (Hall _ _ Hid Ht Hc) as ?%not_elem_of_nil.
Qed.

(** *** Access revisions *)

Definition raised (m : N) w : World := set_state (set_last_revision m (state w)) w.

Lemma revision_at_eq b w :
  is_Some (behaviorAccessRevisions (state w) !! b) → ∃ r, revision_at b w = (Ok r, w).
Proof. intros [r Hr]. exists r. unfold revision_at, query. by rewrite Hr. Qed.

Lemma parts_raised X m w V G L : parts_ok X w V G L → parts_ok X (raised m w) V G L.
Proof. by apply parts_ok_same. Qed.

Lemma entries_raised m w :
  lastBehaviorAccessRevision (state w) <= m → entries_ok w → entries_ok (raised m w).
Proof. intros Hle [H1 H2 H3]. split; [done|done|]. intros b r Hr%H3. cbn. lia. Qed.

Lemma steady_raised m w V G L :
  lastBehaviorAccessRevision (state w) <= m → steady w V G L → steady (raised m w) V G L.
Proof. intros Hle []. split; [by apply parts_raised|by apply entries_raised|done..]. Qed.

(** Some right, asked as the code asks. *)
Lemma access_asked X w V G L k type b n h {B} (f : bool → stm World B) (Q : res B → World → Prop) :
  parts_ok X w V G L → fits (instanceId (state w)) V k type →
  handle_at V (type_id type) n = Some h →
  wp (f (bool_decide (is_Some (right_at V (type_id type) b n)))) Q w →
  wp (canRead ← query_components (can_read_slot k type b h);
      (if (canRead : bool) then mret true else query_components (can_write_slot k type b h)) ≫= f) Q w.
Proof.
  intros Hp Hfits Hn HQ. eapply wp_asked; [by apply (ask_access Hp Hfits)|]. cbn [then_wp].
  destruct (right_at V (type_id type) b n) as [m|] eqn:Hm.
  - rewrite bool_decide_eq_true_2 in HQ by eauto. destruct (mode_allows Mode_r m) eqn:Er; [done|].
    eapply wp_asked; [by apply (ask_access Hp Hfits)|]. rewrite Hm. destruct m; done.
  - rewrite bool_decide_eq_false_2 in HQ by by intros []. cbn.
    eapply wp_asked; [by apply (ask_access Hp Hfits)|]. by rewrite Hm.
Qed.

Lemma bump_wp k type h n l w V G L :
  parts_ok nobody w V G L → entries_ok w → fits (instanceId (state w)) V k type →
  handle_at V (type_id type) n = Some h →
  wp (bump_revisions k type h l) (λ x w', ∃ m, w' = raised m w ∧
    lastBehaviorAccessRevision (state w) <= m ∧
    match x with
    | Ok rs =>
        (∀ b revision, (b, revision) ∈ rs → is_Some (right_at V (type_id type) b n) ∧
           lastBehaviorAccessRevision (state w) < revision <= m) ∧
        (∀ b, b ∈ l → is_Some (right_at V (type_id type) b n) → ∃ revision, (b, revision) ∈ rs)
    | Err _ => True
    end) w.
Proof.
  intros Hp He Hfits Hn. revert w Hp He Hfits. induction l as [|b l IH]; intros w Hp He Hfits.
  { apply wp_ret. exists (lastBehaviorAccessRevision (state w)).
    split_and!; [by destruct w as [[]]|lia|set_solver..]. }
  cbn [bump_revisions]. eapply access_asked; [done..|]. case_bool_decide as Hb; cbn.
  2:{ eapply wp_mono; [by apply IH|]. intros x w' (m & -> & Hle & Hx). exists m.
      split_and!; [done|done|]. destruct x; [|done]. destruct Hx as [Hx1 Hx2]. split; [done|].
      intros b' [->|?]%elem_of_cons Hr; [done|by apply Hx2]. }
  destruct (revision_at_eq b w) as [r0 Hr0].
  { apply He. destruct Hb as [m Hm]. by eapply po_rights. }
  eapply wp_bind_eq; [exact Hr0|]. apply wp_bind, wp_next_revision; cbn [then_wp].
  { exists (lastBehaviorAccessRevision (state w)). split_and!; [by destruct w as [[]]|lia|done]. }
  set (w1 := bumped w). apply wp_bind. eapply wp_mono; [apply IH|].
  - by apply (parts_raised _ (lastBehaviorAccessRevision (state w) + 1)).
  - apply entries_raised; [lia|done].
  - done.
  - intros x w' (m & -> & Hle & Hx). cbn in Hle.
    assert (raised m w1 = raised m w) as -> by done.
    destruct x as [rs|e]; cbn [then_wp].
    + apply wp_ret. destruct Hx as [Hx1 Hx2]. exists m. split_and!; [done|lia|..].
      * intros b' revision [[= -> ->]|Hin]%elem_of_cons; [split; [done|lia]|].
        destruct (Hx1 _ _ Hin) as [? Hrange]. cbn in Hrange. split; [done|lia].
      * intros b' [->|Hb']%elem_of_cons Hr; [eexists; by left|].
        destruct (Hx2 _ Hb' Hr) as [revision ?]. exists revision. by right.
    + exists m. split_and!; [done|lia|done].
Qed.

Definition revised (R : gmap handle N) w : World := set_state (set_revisions R (state w)) w.

Lemma set_revision_eq b revision w :
  is_Some (behaviorAccessRevisions (state w) !! b) →
  set_revision b revision w =
    (Ok tt, revised (<[b := revision]> (behaviorAccessRevisions (state w))) w).
Proof.
  intros [r Hr]%revision_at_eq. unfold set_revision. by rewrite (stm_bind_eq _ _ _ _ _ Hr).
Qed.

(** The entries after some were set. *)
Definition given_new (rs : list (handle * N)) (R R' : gmap handle N) : Prop :=
  (∀ b, is_Some (R' !! b) ↔ is_Some (R !! b)) ∧
  ∀ b r, R' !! b = Some r → (b, r) ∈ rs ∨ R !! b = Some r ∧ ∀ r', (b, r') ∉ rs.

Lemma set_revisions_wp rs w :
  (∀ b r, (b, r) ∈ rs → is_Some (behaviorAccessRevisions (state w) !! b)) →
  wp (sfor (λ p, set_revision p.1 p.2) rs) (λ x w', x = Ok tt ∧ ∃ R', w' = revised R' w ∧
    given_new rs (behaviorAccessRevisions (state w)) R') w.
Proof.
  revert w. induction rs as [|[b r] rs IH]; intros w Hrs.
  { apply wp_ret. split; [done|]. exists (behaviorAccessRevisions (state w)).
    split; [by destruct w as [[]]|]. split; [done|]. intros b r Hr. right. split; [done|set_solver]. }
  pose proof (Hrs b r ltac:(left)) as Hb.
  cbn [sfor fst snd]. eapply wp_bind_eq; [by apply set_revision_eq|].
  eapply wp_mono; [apply IH|].
  - intros b' r' Hin. cbn. destruct (decide (b' = b)) as [->|Hne].
    + rewrite lookup_insert_eq. by eexists.
    + rewrite lookup_insert_ne by done. apply (Hrs b' r'). by right.
  - intros x w' (-> & R' & -> & Hdom & Hval). split; [done|]. exists R'. split; [done|]. split.
    + intros b'. rewrite Hdom. cbn. destruct (decide (b' = b)) as [->|Hne].
      * rewrite lookup_insert_eq. split; [done|by eexists].
      * by rewrite lookup_insert_ne.
    + intros b' r' Hb'. destruct (Hval b' r' Hb') as [?|[Hold Hnot]]; [left; by right|].
      cbn in Hold. destruct (decide (b' = b)) as [->|Hne].
      * rewrite lookup_insert_eq in Hold. injection Hold as ->. left. left.
      * rewrite lookup_insert_ne in Hold by done. right. split; [done|]. intros r2.
        rewrite elem_of_cons. intros [[= -> ->]|Hin]; [done|by destruct (Hnot r2)].
Qed.

(** *** Another view *)

Lemma parts_view X X' w V G L c V' G' :
  parts_ok X w V G L → ComponentSpec.registry_ok c V' G' →
  Components.worldId c = instanceId (state w) →
  (∀ rec, X rec → X' rec) →
  (∀ id rec, L !! id = Some rec → ¬ X' rec →
     authorized V (active (behaviorRegistry (state w))) rec →
     authorized V' (active (behaviorRegistry (state w))) rec) →
  (∀ t b n m, right_at V' t b n = Some m → b ∈ active (behaviorRegistry (state w))) →
  parts_ok X' (set_state (set_components c (state w)) w) V' G' L.
Proof.
  intros [] Hc Ew HX Hauth Hrights. split; cbn; try done.
  intros id rec Hid Hno. apply (Hauth id); [done|done|]. eapply po_authorized; [done|]. auto.
Qed.

Lemma tracks_then w V w1 V1 w2 V2 :
  tracks w V w1 V1 → same_shape V1 V2 → same_revisions w1 w2 → tracks w V w2 V2.
Proof.
  intros [Hl Ht] [Hk Hh Hr] [Er El' _ _]. split; [by rewrite El'|]. intros b r'. rewrite Er.
  intros Hb'. destruct (Ht b r' Hb') as [?|[Hb Hsame]]; [by left|right].
  split; [done|]. intros t n. rewrite Hr, Hh, Hk. apply Hsame.
Qed.

Lemma same_flags_trans w1 w2 w3 : same_flags w1 w2 → same_flags w2 w3 → same_flags w1 w3.
Proof. intros [] []. split; congruence. Qed.

Lemma settled_settles t w V w1 V1 G1 w2 :
  tracks w V w1 V1 → same_flags w w1 → settling w1 V1 G1 t [] w2 → settles w V w2.
Proof.
  intros Ht Hf (V2 & L2 & Hst & Hsig & Hs & Hr). right. exists V2, G1, L2. split_and!.
  - apply coordinated_steady. split; [done|by eapply sigs_but_nil].
  - by eapply tracks_then.
  - eapply same_flags_trans; [exact Hf|apply Hr].
Qed.

Lemma settling_start t todo w V G L :
  steady w V G L → sigs_but t todo w V → settling w V G t todo w.
Proof. intros. by exists V, L. Qed.

Lemma settles_raised m w V G L :
  lastBehaviorAccessRevision (state w) <= m → coordinated w V G L → settles w V (raised m w).
Proof.
  intros Hle Hc. right. exists V, G, L. split_and!.
  - apply coordinated_steady in Hc as [Hst Hsig]. apply coordinated_steady.
    split; [by apply steady_raised|done].
  - by apply tracks_shape.
  - done.
Qed.

(** Signatures of before, when rights to [t] may have gone. *)
Lemma sigs_but_lost t todo w V w' V' :
  sigs_ok w V → behaviorSignatures (state w') = behaviorSignatures (state w) →
  (∀ b t', has_access V' b t' → has_access V b t') →
  (∀ b t', has_access V b t' → has_access V' b t' ∨ t' = t ∧ b ∈ todo) →
  sigs_but t todo w' V'.
Proof.
  intros Hsig Es Hsub Hlost b sig. rewrite Es. intros Hb t'. split.
  - intros Ha. apply (Hsig b sig Hb t'). by apply Hsub.
  - intros Hbit%(Hsig b sig Hb t'). by apply Hlost.
Qed.

(** *** Removing a component *)

Section Removed.
Context (V : gmap N (@type_view K El)) (t : N) (vw : @type_view K El) (n : string) (HV : V !! t = Some vw).
Let V' := <[t := MkView (class vw) (delete n (held vw))
  (filter (λ p, p.1.2 ≠ n) (rights vw))]> V.

Lemma removed_class t' : class_at V' t' = class_at V t'.
Proof.
  unfold V'. rewrite class_at_insert. case_decide as E; [|done]. subst. unfold class_at. by rewrite HV.
Qed.

Lemma removed_handle t' n' :
  handle_at V' t' n' = if decide (t' = t ∧ n' = n) then None else handle_at V t' n'.
Proof.
  unfold V'. rewrite handle_at_insert. destruct (decide (t' = t)) as [->|Hne].
  - cbn. rewrite (handle_at_view _ _ _ _ HV). destruct (decide (n' = n)) as [->|Hn].
    + by rewrite decide_True, lookup_delete_eq.
    + rewrite decide_False by naive_solver. by rewrite lookup_delete_ne.
  - by rewrite decide_False by naive_solver.
Qed.

Lemma removed_right t' b n' :
  right_at V' t' b n' = if decide (t' = t ∧ n' = n) then None else right_at V t' b n'.
Proof.
  unfold V'. rewrite right_at_insert. destruct (decide (t' = t)) as [->|Hne].
  - cbn [rights]. rewrite (right_at_view _ _ _ _ _ HV). destruct (decide (n' = n)) as [->|Hn].
    + rewrite decide_True by done. apply map_lookup_filter_None_2. right. by intros ? _ [].
    + rewrite decide_False by naive_solver.
      destruct (rights vw !! (b, n')) as [m|] eqn:Hm.
      * by apply map_lookup_filter_Some_2.
      * apply map_lookup_filter_None_2. by left.
  - by rewrite decide_False by naive_solver.
Qed.
End Removed.

(** *** Adjusting one right *)

Section Adjusted.
Context (V : gmap N (@type_view K El)) (t : N) (vw : @type_view K El) (b : handle) (n : string).
Context (HV : V !! t = Some vw) (rights' : gmap (handle * string) Mode) (o : option Mode).
Context (Hrights' : ∀ p, rights' !! p = if decide (p = (b, n)) then o else rights vw !! p).
Let V' := <[t := MkView (class vw) (held vw) rights']> V.

Lemma adjusted_class t' : class_at V' t' = class_at V t'.
Proof.
  unfold V'. rewrite class_at_insert. case_decide as E; [|done]. subst. unfold class_at. by rewrite HV.
Qed.

Lemma adjusted_handle t' n' : handle_at V' t' n' = handle_at V t' n'.
Proof.
  unfold V'. rewrite handle_at_insert. case_decide as E; [|done]. subst.
  by rewrite (handle_at_view _ _ _ _ HV).
Qed.

Lemma adjusted_right t' b' n' :
  right_at V' t' b' n' = if decide (t' = t ∧ b' = b ∧ n' = n) then o else right_at V t' b' n'.
Proof.
  unfold V'. rewrite right_at_insert. destruct (decide (t' = t)) as [->|Hne].
  - cbn [rights]. rewrite Hrights', (right_at_view _ _ _ _ _ HV).
    case_decide as E; [injection E as -> ->; by rewrite decide_True|].
    rewrite decide_False; [done|]. intros (_ & -> & ->). done.
  - by rewrite decide_False by naive_solver.
Qed.
End Adjusted.

(** What the adjustment of a right does to a view. *)
Record adjusts V V' (t : N) (b : handle) (n : string) (o : option Mode) : Prop := {
  aj_class t' : class_at V' t' = class_at V t';
  aj_handle t' n' : handle_at V' t' n' = handle_at V t' n';
  aj_right t' b' n' :
    right_at V' t' b' n' = if decide (t' = t ∧ b' = b ∧ n' = n) then o else right_at V t' b' n'
}.

Lemma adjusts_access V V' t b n o b' t' :
  adjusts V V' t b n o → (b' ≠ b ∨ t' ≠ t) → has_access V' b' t' ↔ has_access V b' t'.
Proof.
  intros [_ _ Hr] Hne. unfold has_access. setoid_rewrite Hr.
  by split; intros (n' & m & Hm); exists n', m; rewrite decide_False in * by naive_solver.
Qed.

Lemma adjusts_reach V V' t b n o b' :
  adjusts V V' t b n o → (b' ≠ b ∨ right_at V t b n = o) → same_reach V V' b'.
Proof.
  intros [Hk Hh Hr] Hor t' n'. rewrite Hh, Hr, Hk. case_decide as E; [|done].
  destruct E as (-> & -> & ->). destruct Hor as [|Ho]; [done|]. by rewrite Ho.
Qed.

Lemma parts_adjusted X w V G L c V' t b n h o :
  parts_ok nobody w V G L → ComponentSpec.registry_ok c V' G →
  Components.worldId c = instanceId (state w) →
  adjusts V V' t b n o → handle_at V t n = Some h → b ∈ active (behaviorRegistry (state w)) →
  (∀ id rec, L !! id = Some rec → ¬ X rec → targets t h rec → concerns (Some b) rec →
     ∃ m, o = Some m ∧ mode_allows Mode_w m = true) →
  parts_ok X (set_state (set_components c (state w)) w) V' G L.
Proof.
  intros Hp Hc Ew [Hk Hh Hr] Hn Hb Ho. eapply parts_view; [exact Hp|done|done|by intros ? []| |].
  - intros id rec Hid HX (HA & n' & m' & Hh' & Hr' & Hm' & Hk'). split; [done|]. exists n'.
    setoid_rewrite Hk. setoid_rewrite Hh. setoid_rewrite Hr.
    case_decide as E; [|by exists m']. destruct E as (Et & Eb & ->).
    assert (targets t h rec) as Ht.
    { unfold targets. rewrite Et, Hn in Hh'. injection Hh' as ->.
      destruct (intent_target (base rec)); cbn in *; by subst. }
    destruct (Ho id rec Hid HX Ht Eb) as (m & -> & Hm). by exists m.
  - intros t' b' n' m. rewrite Hr. case_decide as E; [by destruct E as (_ & -> & _)|].
    apply (po_rights _ _ _ _ _ Hp).
Qed.

(** Revisions reserved and applied. *)
Lemma reserve_revision_wp b (c : bool) w :
  is_Some (behaviorAccessRevisions (state w) !! b) →
  wp (reserve_revision b c) (λ x w', ∃ m, w' = raised m w ∧
    lastBehaviorAccessRevision (state w) <= m ∧
    match x with
    | Ok revision => ∀ b' r, (b', r) ∈ (if c then [(b, revision)] else []) →
        lastBehaviorAccessRevision (state w) < r <= m
    | Err _ => True
    end) w.
Proof.
  intros Hb. assert (raised (lastBehaviorAccessRevision (state w)) w = w) as Er by (by destruct w as [[]]).
  destruct c; [|apply wp_ret; exists (lastBehaviorAccessRevision (state w)); split_and!; [done|lia|set_solver]].
  destruct (revision_at_eq b w Hb) as [r Hr]. eapply wp_bind_eq; [exact Hr|].
  apply wp_next_revision.
  - exists (lastBehaviorAccessRevision (state w)). split_and!; [done|lia|done].
  - exists (lastBehaviorAccessRevision (state w) + 1). split_and!; [done|lia|].
    intros b' r' [= -> ->]%list_elem_of_singleton. lia.
Qed.

Lemma apply_revision_wp b (c : bool) revision w :
  is_Some (behaviorAccessRevisions (state w) !! b) →
  wp (apply_revision b c revision) (λ x w', x = Ok tt ∧ ∃ R', w' = revised R' w ∧
    given_new (if c then [(b, revision)] else []) (behaviorAccessRevisions (state w)) R') w.
Proof.
  intros Hb. destruct c; cbn.
  - unfold wp. rewrite (set_revision_eq _ _ _ Hb). cbn. split; [done|]. eexists. split; [done|].
    split; intros b'; (destruct (decide (b' = b)) as [->|Hne];
      [rewrite lookup_insert_eq|rewrite lookup_insert_ne by done]); try done.
    + intros r [= ->]. left. left.
    + intros r Hr. right. split; [done|]. intros r'. by intros [= -> _]%list_elem_of_singleton.
  - apply wp_ret. split; [done|]. exists (behaviorAccessRevisions (state w)).
    split; [by destruct w as [[]]|]. split; [done|]. intros b' r Hr. right. split; [done|set_solver].
Qed.

Context (code : Y → SystemCode World).
Hypothesis added_ok : ∀ y b, well_behaved quiet (on_behavior_added (code y) b).
Hypothesis removed_ok : ∀ y b, well_behaved quiet (on_behavior_removed (code y) b).

Lemma on_components_eq m w c :
  m (componentRegistry (state w)) = (Ok tt, c) →
  on_components m w = (Ok tt, set_state (set_components c (state w)) w).
Proof. intros E. unfold on_components, on_state, zoom. by rewrite E. Qed.

(** The entries [b] is to have after a change of what [affected] reach. *)
Lemma tracks_removed w V rs R' m V' :
  (∀ b r, (b, r) ∈ rs → lastBehaviorAccessRevision (state w) < r <= m) →
  lastBehaviorAccessRevision (state w) <= m →
  given_new rs (behaviorAccessRevisions (state w)) R' →
  (∀ b, (∀ r, (b, r) ∉ rs) → same_reach V V' b) →
  ∀ w', behaviorAccessRevisions (state w') = R' → lastBehaviorAccessRevision (state w') = m →
  tracks w V w' V'.
Proof.
  intros Hrs Hle [_ Hval] Hreach w' <- <-. split; [done|]. intros b r' Hb'.
  destruct (Hval b r' Hb') as [Hin|[Hsame Hnot]].
  - left. specialize (Hrs _ _ Hin). lia.
  - right. split; [done|by apply Hreach].
Qed.

Lemma entries_revised rs R' m w :
  entries_ok w → lastBehaviorAccessRevision (state w) <= m →
  (∀ b r, (b, r) ∈ rs → lastBehaviorAccessRevision (state w) < r <= m) →
  given_new rs (behaviorAccessRevisions (state w)) R' →
  ∀ w', same_flags w w' → behaviorSignatures (state w') = behaviorSignatures (state w) →
    behaviorRegistry (state w') = behaviorRegistry (state w) →
    behaviorAccessRevisions (state w') = R' → lastBehaviorAccessRevision (state w') = m →
    entries_ok w'.
Proof.
  intros [H1 H2 H3] Hle Hrs [Hdom Hval] w' _ Es Eb Er El'. split; intros b; rewrite ?Es, ?Er, ?Eb.
  - apply H1.
  - by rewrite Hdom.
  - intros r Hr. rewrite El'. destruct (Hval b r Hr) as [Hin|[Hold _]].
    + specialize (Hrs _ _ Hin). lia.
    + specialize (H3 _ _ Hold). lia.
Qed.

Theorem remove_component_settles k type n w V G L :
  coordinated w V G L → wp (remove_component code k type n) (λ _ w', settles w V w') w.
Proof.
  intros Hc. pose proof Hc as [Hp He Hsig Hm Hcalm].
  destruct (ask_type Hp k type) as [[Hfits Et]|[_ [msg Et]]].
  2:{ eapply wp_asked; [exact Et|by eapply settles_refl]. }
  eapply wp_asked; [exact Et|]. cbn [then_wp]. set (t := type_id type) in *.
  eapply wp_asked; [by apply (ask_slot Hp Hfits)|]. fold t.
  destruct (handle_at V t n) as [h|] eqn:Hn; cbn [then_wp throw]; [|by eapply settles_refl].
  destruct (ask_affected Hp Hfits) as (affected & Ea & Hnd & Haff). fold t in Haff.
  eapply wp_asked; [exact Ea|]. cbn [then_wp].
  apply wp_bind. eapply wp_mono; [by eapply bump_wp|]. intros x w1 (m & -> & Hle & Hx). fold t in Hx.
  destruct x as [rs|e]; cbn [then_wp]; [|by eapply settles_raised].
  destruct Hx as [Hrs Hall]. pose proof (parts_raised _ m _ _ _ _ Hp) as Hp1.
  apply wp_bind. eapply (wp_mono (λ s, destroy_intents_for_target t h s)).
  { apply wp_bind, wp_get. cbn [then_wp]. apply (destroy_chosen_wp None _ _ _ _ _ t h Hp1). }
  intros x w2 [[r ->] Hx]. destruct x as [u|e]; cbn [then_wp]; [|by left].
  destruct Hx as (L2 & Hp2 & Hnone). set (w2 := with_intents r (raised m w)) in *.
  apply fits_type in Hfits as Hft. destruct Hft as [Hw0 (vw & HV & <-)].
  pose proof (remove_component_spec _ _ _ vw type n (po_components _ _ _ _ _ Hp2)) as Hrem.
  rewrite (po_components_world _ _ _ _ _ Hp2) in Hrem.
  specialize (Hrem ltac:(by apply fits_type) HV).
  rewrite (handle_at_view _ _ _ _ HV) in Hn.
  destruct (held vw !! n) as [[h' v]|] eqn:Ev; [injection Hn as ->|done].
  destruct Hrem as (c & Hrem & Ew & Hc3).
  set (V3 := <[type_id type := _]> V) in Hc3.
  assert (∀ t' n', handle_at V3 t' n' = if decide (t' = t ∧ n' = n) then None else handle_at V t' n')
    as Hhandle by (by intros; eapply removed_handle).
  assert (∀ t' b n', right_at V3 t' b n' = if decide (t' = t ∧ n' = n) then None else right_at V t' b n')
    as Hright by (by intros; eapply removed_right).
  assert (∀ t', class_at V3 t' = class_at V t') as Hclass by (by intros; eapply removed_class).
  clearbody V3.
  eapply wp_bind_eq; [by apply on_components_eq|]. set (w3 := set_state (set_components c (state w2)) w2).
  apply wp_bind. eapply wp_mono; [apply set_revisions_wp|].
  { intros b r' Hin. apply He. destruct (Hrs b r' Hin) as [[m' Hm'] _]. by eapply po_rights. }
  intros x w4 (-> & R' & -> & Hnew). cbn [then_wp]. set (w4 := revised R' w3).
  assert (parts_ok nobody w4 V3 G L2) as Hp4.
  { apply (parts_ok_same _ w3); [done|]. eapply parts_view; [exact Hp2|exact Hc3|exact Ew|by intros| |].
    - intros id rec Hid _ (HA & n' & m' & Hh' & Hr' & Hm' & Hk'). split; [done|].
      exists n', m'. rewrite Hhandle, Hright, Hclass.
      destruct (decide (target_type (intent_target (base rec)) = t ∧ n' = n)) as [[Et' ->]|]; [|done].
      destruct (Hnone id rec Hid); [|done]. unfold targets.
      rewrite Et', (handle_at_view _ _ _ _ HV), Ev in Hh'. injection Hh' as ->.
      destruct (intent_target (base rec)). cbn in *. by subst.
    - intros t' b n' m'. rewrite Hright. case_decide; [done|]. apply (po_rights _ _ _ _ _ Hp). }
  assert (settling w4 V3 G t affected w4) as Hstart.
  { apply (settling_start _ _ _ _ _ L2).
    - split; [done| |exact Hm|done]. eapply (entries_revised rs R' m w); try done.
      intros b r' Hin. by destruct (Hrs _ _ Hin).
    - eapply sigs_but_lost; [exact Hsig|done| |].
      + intros b t' (n' & m' & Hm'). rewrite Hright in Hm'. case_decide; [done|]. by exists n', m'.
      + intros b t' Ha. destruct (decide (t' = t)) as [->|Hne]; [right; split; [done|by apply Haff]|].
        left. destruct Ha as (n' & m' & Hm'). exists n', m'. rewrite Hright, decide_False; naive_solver. }
  assert (fits (instanceId (state w4)) V3 (class vw) type) as Hfits4.
  { destruct Hfits. split; [done|by rewrite Hclass]. }
  assert (tracks w V w4 V3) as Htracks.
  { eapply (tracks_removed w V rs R' m); try done; [intros b r' Hin; apply (Hrs _ _ Hin)|].
    intros b Hb t' n'. rewrite Hright, Hhandle, Hclass. destruct (decide (t' = t ∧ n' = n)) as [[-> ->]|]; [|done].
    destruct (right_at V t b n) as [m'|] eqn:Hm'; [|by split; [|intros []]].
    destruct (Hall b) as [r' Hin]; [apply Haff; by exists n, m'|done|by destruct (Hb r')]. }
  apply (wp_for_capturing _ _ _ (λ todo w', settling w4 V3 G t todo w' ∧
    ∀ b, b ∈ todo → b ∈ affected)).
  - done.
  - intros b todo w5 [Hset Hsub]. eapply wp_mono.
    + apply (settle_wp code added_ok removed_ok (λ x, ∃ e, x = Ok e) captured (class vw) type b todo
        w4 V3 G w5 captured_calls_back ltac:(by eexists) Hfits4); [|exact Hset].
      destruct (proj1 (Haff b) (Hsub b ltac:(left))) as (n' & m' & Hm'). by eapply (po_rights _ _ _ _ _ Hp).
    + intros x w6 [Hx Hset']. split; [done|]. split; [done|]. intros b' Hb'. apply Hsub. by right.
  - intros x w5 [Hset _]. eapply settled_settles; [exact Htracks| |exact Hset]. done.
Qed.

(** *** Granting and revoking *)

Definition allowed (wanted : Mode) (o : option Mode) : bool :=
  match o with Some m => mode_allows wanted m | None => false end.

Lemma access_unchanged m o :
  access_changes m (allowed Mode_r o) (allowed Mode_w o) = false → o = Some (storage_access_mode m).
Proof. by destruct m, o as [[]|]. Qed.

Lemma write_kept m : m ≠ Read → mode_allows Mode_w (storage_access_mode m) = true.
Proof. by destruct m. Qed.

(** The new view of the registry, and that it is one of an adjustment. *)
Lemma adjust_components X w V G L k type b n h m :
  parts_ok X w V G L → fits (instanceId (state w)) V k type →
  handle_at V (type_id type) n = Some h →
  (∃ c V', grant_access k type b n m (componentRegistry (state w)) = (Ok tt, c) ∧
     Components.worldId c = instanceId (state w) ∧ ComponentSpec.registry_ok c V' G ∧
     adjusts V V' (type_id type) b n (Some (storage_access_mode m))) ∧
  (∃ c V', revoke_access k type b n (componentRegistry (state w)) = (Ok tt, c) ∧
     Components.worldId c = instanceId (state w) ∧ ComponentSpec.registry_ok c V' G ∧
     adjusts V V' (type_id type) b n None).
Proof.
  intros Hp Hfits Hn. apply fits_type in Hfits as Hft. pose proof Hft as [_ (vw & HV & <-)].
  rewrite (handle_at_view _ _ _ _ HV) in Hn.
  destruct (held vw !! n) as [[h' v]|] eqn:Ev; [injection Hn as ->|done].
  rewrite <-(po_components_world _ _ _ _ _ Hp) in Hft. split.
  - pose proof (grant_access_spec _ _ _ vw type b n m (po_components _ _ _ _ _ Hp) Hft HV) as Hs.
    rewrite Ev in Hs. destruct Hs as (c & -> & Hw & Hc). eexists c, _. split; [done|].
    rewrite Hw. split; [apply Hp|]. split; [exact Hc|].
    assert (∀ p, <[(b, n) := storage_access_mode m]> (rights vw) !! p =
      if decide (p = (b, n)) then Some (storage_access_mode m) else rights vw !! p) as Hl.
    { intros p. case_decide as E; [subst; apply lookup_insert_eq|by apply lookup_insert_ne]. }
    split; intros; [by apply adjusted_class|by apply adjusted_handle|by apply adjusted_right].
  - pose proof (revoke_access_spec _ _ _ vw type b n (po_components _ _ _ _ _ Hp) Hft HV) as Hs.
    rewrite Ev in Hs. destruct Hs as (c & -> & Hw & Hc). eexists c, _. split; [done|].
    rewrite Hw. split; [apply Hp|]. split; [exact Hc|].
    assert (∀ p, delete (b, n) (rights vw) !! p =
      if decide (p = (b, n)) then None else rights vw !! p) as Hl.
    { intros p. case_decide as E; [subst; apply lookup_delete_eq|by apply lookup_delete_ne]. }
    split; intros; [by apply adjusted_class|by apply adjusted_handle|by apply adjusted_right].
Qed.

Theorem grant_component_access_settles k type b n m w V G L :
  coordinated w V G L →
  wp (grant_component_access code k type b n m) (λ _ w', settles w V w') w.
Proof.
  intros Hc. pose proof Hc as [Hp He Hsig Hm Hcalm].
  apply wp_bind, wp_require; intros Hb; [by eapply settles_refl|]. cbn [then_wp].
  destruct (ask_type Hp k type) as [[Hfits Et]|[_ [msg Et]]].
  2:{ eapply wp_asked; [exact Et|by eapply settles_refl]. }
  eapply wp_asked; [exact Et|]. cbn [then_wp]. set (t := type_id type) in *.
  eapply wp_asked; [by apply (ask_slot Hp Hfits)|]. fold t.
  destruct (handle_at V t n) as [h|] eqn:Hn; cbn [then_wp throw]; [|by eapply settles_refl].
  eapply wp_asked; [by apply (ask_access Hp Hfits)|]. cbn [then_wp].
  eapply wp_asked; [by apply (ask_access Hp Hfits)|]. cbn [then_wp]. fold t.
  fold (allowed Mode_r (right_at V t b n)) (allowed Mode_w (right_at V t b n)).
  set (c := access_changes _ _ _).
  assert (is_Some (behaviorAccessRevisions (state w) !! b)) as Hrev by by apply He.
  apply wp_bind. eapply wp_mono; [by apply reserve_revision_wp|]. intros x w1 (mx & -> & Hle & Hx).
  destruct x as [revision|e]; cbn [then_wp]; [|by eapply settles_raised].
  set (rs := if c then _ else _) in Hx. pose proof (parts_raised _ mx _ _ _ _ Hp) as Hp1.
  destruct (adjust_components _ _ _ _ _ k type b n h m Hp1 Hfits Hn)
    as [(cr & V2 & Hgrant & Ew & Hc2 & Haj) _]. fold t in Haj.
  eapply wp_bind_eq; [by apply on_components_eq|]. set (w2 := set_state _ _).
  apply wp_bind. eapply wp_mono; [by apply apply_revision_wp|].
  intros x w3 (-> & R' & -> & Hnew). cbn [then_wp]. fold rs in Hnew. set (w3 := revised R' w2).
  pose (X := λ rec, m = Read ∧ targets t h rec ∧ concerns (Some b) rec).
  assert (parts_ok X w3 V2 G L) as Hp3.
  { apply (parts_ok_same _ w2); [done|]. eapply parts_adjusted; [exact Hp1|done..|].
    intros id rec _ HX Ht Hc'. eexists. split; [done|]. apply write_kept. intros ->. by apply HX. }
  assert (∀ r L', parts_ok nobody (with_intents r w3) V2 G L' →
    wp (set_signature_bit b t true;; update_system_memberships code b)
      (λ _ w', settles w V w') (with_intents r w3)) as Hfinish.
  { intros r L' Hp4. set (w4 := with_intents r w3) in *.
    assert (steady w4 V2 G L') as Hst4.
    { split; [done| |exact Hm|done]. by eapply (entries_revised rs R' mx w). }
    assert (tracks w V w4 V2) as Htracks.
    { eapply (tracks_removed w V rs R' mx); try done. intros b' Hb'.
      eapply adjusts_reach; [done|]. destruct (decide (b' = b)) as [->|]; [right|by left].
      apply access_unchanged. unfold rs, c in Hb'. destruct (access_changes _ _ _); [|done].
      destruct (Hb' revision). left. }
    eapply wp_mono.
    { eapply (resign_wp code added_ok removed_ok (λ _, True) (λ m, m));
        [apply plain_calls_back|exact Hst4|exact Hb|exact (type_bound Hp Hfits)]. }
    intros x w5 (_ & V5 & L5 & [Hst5 Hs5 Hr5 Es5]). right. exists V5, G, L5. split_and!.
    - apply coordinated_steady. split; [done|]. intros b' sig'. rewrite Es5. intros Hb' t'.
      rewrite (has_access_shape _ _ _ _ Hs5). destruct (decide (b' = b)) as [->|Hne].
      + rewrite lookup_insert_eq in Hb'. injection Hb' as Hb'.
        rewrite (signature_bit_spec b t true w4 sig' t' Hb'). case_decide as Ett.
        * subst t'. split; [|done]. intros _. exists n, (storage_access_mode m).
          by rewrite (aj_right _ _ _ _ _ _ Haj), decide_True.
        * rewrite (adjusts_access _ _ _ _ _ _ _ _ Haj) by by right.
          destruct (proj2 (en_signatures _ He b) Hb) as [sig0 Hsig0].
          rewrite (signature_entry b w4 sig0 Hsig0). by apply Hsig.
      + rewrite lookup_insert_ne in Hb' by done.
        rewrite (adjusts_access _ _ _ _ _ _ _ _ Haj) by by left. by apply Hsig.
    - by eapply tracks_then.
    - eapply same_flags_trans; [|apply Hr5]. done. }
  apply wp_bind. case_decide as Em.
  - eapply (wp_mono (λ s, destroy_intents_for_owner_target b t h s)).
    { apply wp_bind, wp_get. cbn [then_wp]. apply (destroy_chosen_wp (Some b) _ _ _ _ _ t h Hp3). }
    intros x w4 [[r ->] Hx4]. destruct x as [u|e]; cbn [then_wp]; [|by left].
    destruct Hx4 as (L4 & Hp4 & Hnone). apply (Hfinish r L4). eapply parts_exempt; [|exact Hp4].
    intros id rec Hid (_ & Ht & Hcon). by destruct (Hnone id rec Hid Ht).
  - apply wp_ret. cbn [then_wp]. assert (w3 = with_intents (intentRegistry (state w3)) w3) as -> by done.
    apply (Hfinish _ L). apply (parts_ok_same _ w3); [done|]. eapply parts_exempt; [|exact Hp3].
    by intros id rec _ [? _].
Qed.

Theorem revoke_component_access_settles k type b n w V G L :
  coordinated w V G L →
  wp (revoke_component_access code k type b n) (λ _ w', settles w V w') w.
Proof.
  intros Hc. pose proof Hc as [Hp He Hsig Hm Hcalm].
  apply wp_bind, wp_require; intros Hb; [by eapply settles_refl|]. cbn [then_wp].
  destruct (ask_type Hp k type) as [[Hfits Et]|[_ [msg Et]]].
  2:{ eapply wp_asked; [exact Et|by eapply settles_refl]. }
  eapply wp_asked; [exact Et|]. cbn [then_wp]. set (t := type_id type) in *.
  eapply wp_asked; [by apply (ask_slot Hp Hfits)|]. fold t.
  destruct (handle_at V t n) as [h|] eqn:Hn; cbn [then_wp throw]; [|by eapply settles_refl].
  eapply access_asked; [done..|]. fold t. set (c := bool_decide _).
  assert (is_Some (behaviorAccessRevisions (state w) !! b)) as Hrev by by apply He.
  apply wp_bind. eapply wp_mono; [by apply reserve_revision_wp|]. intros x w1 (mx & -> & Hle & Hx).
  destruct x as [revision|e]; cbn [then_wp]; [|by eapply settles_raised].
  set (rs := if c then _ else _) in Hx. pose proof (parts_raised _ mx _ _ _ _ Hp) as Hp1.
  apply wp_bind. eapply (wp_mono (λ s, destroy_intents_for_owner_target b t h s)).
  { apply wp_bind, wp_get. cbn [then_wp]. apply (destroy_chosen_wp (Some b) _ _ _ _ _ t h Hp1). }
  intros x w2 [[r ->] Hx2]. destruct x as [u|e]; cbn [then_wp]; [|by left].
  destruct Hx2 as (L2 & Hp2 & Hnone). set (w2 := with_intents r (raised mx w)) in *.
  destruct (adjust_components _ _ _ _ _ k type b n h Read Hp2 Hfits Hn)
    as [_ (cr & V3 & Hrevoke & Ew & Hc3 & Haj)]. fold t in Haj.
  eapply wp_bind_eq; [by apply on_components_eq|]. set (w3 := set_state _ _).
  apply wp_bind. eapply wp_mono; [by apply apply_revision_wp|].
  intros x w4 (-> & R' & -> & Hnew). cbn [then_wp]. fold rs in Hnew. set (w4 := revised R' w3).
  assert (parts_ok nobody w4 V3 G L2) as Hp4.
  { apply (parts_ok_same _ w3); [done|]. eapply parts_adjusted; [exact Hp2|done..|].
    intros id rec Hid _ Ht Hcon. by destruct (Hnone id rec Hid Ht). }
  assert (settling w4 V3 G t [b] w4) as Hstart.
  { apply (settling_start _ _ _ _ _ L2).
    - split; [done| |exact Hm|done]. by eapply (entries_revised rs R' mx w).
    - eapply sigs_but_lost; [exact Hsig|done| |].
      + intros b' t' (n' & m' & Hm'). rewrite (aj_right _ _ _ _ _ _ Haj) in Hm'.
        case_decide; [done|]. by exists n', m'.
      + intros b' t' Ha. destruct (decide (b' = b ∧ t' = t)) as [[-> ->]|Hne].
        * right. split; [done|left].
        * left. rewrite (adjusts_access _ _ _ _ _ _ _ _ Haj); [done|].
          destruct (decide (b' = b)); [right|by left]. naive_solver. }
  assert (tracks w V w4 V3) as Htracks.
  { eapply (tracks_removed w V rs R' mx); try done. intros b' Hb'.
    eapply adjusts_reach; [done|]. destruct (decide (b' = b)) as [->|]; [right|by left].
    unfold rs, c in Hb'. case_bool_decide as Hr; [by destruct (Hb' revision); left|].
    by apply eq_None_not_Some. }
  apply wp_bind. eapply wp_mono.
  - eapply (settle_wp code added_ok removed_ok (λ _, True) _ k type b [] w4 V3 G w4);
      [apply uncaught_calls_back|done| |exact Hb|exact Hstart].
    destruct Hfits. split; [done|by rewrite (aj_class _ _ _ _ _ _ Haj)].
  - intros x w5 [_ Hset]. cut (settles w V w5); [by destruct x|].
    eapply settled_settles; [exact Htracks|done|exact Hset].
Qed.
End Rights.
