(* ===== verification/CoordinatorSetup.v ===== *)
(** * Systems, component types and components

    Registering and destroying systems, giving them another signature,
    registering component types and their codecs and adding components leave
    the world coordinated. *)
From S2P Require Import Prelude OrderedMap Values Effects Ids Hoare Behaviors Intents IntentSpec Components ComponentSpec ComponentRuns Systems Coordinator CoordinatorSpec CoordinatorTopology CoordinatorAccess CoordinatorRights.

Section Setup.
Context {K : Type} `{Countable K} {El : K → Type}.
Context {Y : Type} `{Countable Y} {D : Type}.
Abbreviation World := (Coordinator.World El Y D).
Implicit Types (w : World) (V : gmap N (@type_view K El)) (G : list (N * handle))
  (L : gmap handle (@component_intent (sigT El))) (k : K) (y : Y).
Context (code : Y → SystemCode World).
Hypothesis added_ok : ∀ y b, well_behaved quiet (on_behavior_added (code y) b).
Hypothesis removed_ok : ∀ y b, well_behaved quiet (on_behavior_removed (code y) b).

(** ** Systems *)

Definition with_systems (r : SystemRegistry Y) w : World := host_set_systems r w.

(** Only active behaviours belong to systems. *)
Definition members_active w : Prop :=
  ∀ y record b, systems (systemRegistry (state w)) !! y = Some record →
    b ∈ behaviours record → b ∈ active (behaviorRegistry (state w)).

Lemma coordinated_active w V G L : coordinated w V G L → members_active w.
Proof. intros Hc y record b Hy Hb. by apply (co_members _ _ _ _ Hc _ _ Hy) in Hb as [? _]. Qed.

(** Coordinated, with the same types, components, rights and behaviours. *)
Definition reshaped w V G w' : Prop :=
  ∃ V' L', coordinated w' V' G L' ∧ same_shape V V' ∧ same_revisions w w'.

Lemma reshaped_settles w V G w' : reshaped w V G w' → settles w V w'.
Proof.
  intros (V' & L' & Hc & Hs & [Hr Hl _ Hf]). right. exists V', G, L'. split_and!; [done| |done].
  apply tracks_shape; [done|done|lia].
Qed.

Lemma reshaped_refl w V G L : coordinated w V G L → reshaped w V G w.
Proof. intros Hc. by exists V, L. Qed.

Lemma reshaped_via w V G w1 V1 w2 :
  same_shape V V1 → same_revisions w w1 → reshaped w1 V1 G w2 → reshaped w V G w2.
Proof.
  intros Hs1 Hr1 (V2 & L2 & Hc2 & Hs2 & Hr2).
  exists V2, L2. split_and!; [done|by etransitivity|by etransitivity].
Qed.

Lemma reshaped_quiet w w' V G L :
  quiet w w' → systemRegistry (state w') = systemRegistry (state w) → coordinated w V G L →
  reshaped w V G w'.
Proof.
  intros Hq Es Hc. destruct (coordinated_quiet _ _ _ _ _ Hq Es Hc) as (V' & L' & Hc' & Hs).
  exists V', L'. split_and!; [done|done|]. by apply same_frame_revisions, Hq.
Qed.

(** The registries and entries of a coordinated world, with other systems. *)
Lemma update_all_reshaped w V G L (r : SystemRegistry Y) :
  coordinated w V G L → registry_wf r → dispatchDepth r = 0 → members_active (with_systems r w) →
  wp (update_all_system_memberships code) (λ _ w', reshaped w V G w') (with_systems r w).
Proof.
  intros [Hp [H1 H2 H3] Hsig Hm Hcalm] Hwf Hd Hact. eapply wp_mono.
  { apply (update_all_wp code added_ok removed_ok _ V G L); [by apply (parts_ok_same _ w)|by split|done|done|].
    exact Hact. }
  intros x w' (V' & L' & Hc' & Hs & Hr & _). exists V', L'. split_and!; [done|done|].
  transitivity (with_systems r w); [done|exact Hr].
Qed.

Lemma registered_wf y record (r : SystemRegistry Y) :
  registry_wf r → systems r !! y = None →
  registry_wf (MkSystemRegistry (<[y := record]> (systems r)) (registrationOrder r ++ [y])
    (dispatchDepth r)).
Proof.
  intros [Hnd Hin] Hnone. split; cbn.
  - apply NoDup_app. split_and!; [done| |apply NoDup_singleton].
    intros t Ht ->%list_elem_of_singleton. apply Hin in Ht as []. congruence.
  - intros t. rewrite elem_of_app, list_elem_of_singleton, Hin.
    destruct (decide (t = y)) as [->|Hne].
    + rewrite lookup_insert_eq. split; [by eexists|by right].
    + rewrite lookup_insert_ne by done. naive_solver.
Qed.

Lemma destroyed_wf y (r : SystemRegistry Y) :
  registry_wf r →
  registry_wf (MkSystemRegistry (delete y (systems r))
    (filter (λ t, t ≠ y) (registrationOrder r)) (dispatchDepth r)).
Proof.
  intros [Hnd Hin]. split; cbn; [by apply NoDup_filter|]. intros t.
  rewrite list_elem_of_filter, Hin. destruct (decide (t = y)) as [->|Hne].
  - rewrite lookup_delete_eq. split; [by intros []|by intros []].
  - rewrite lookup_delete_ne by done. naive_solver.
Qed.

Lemma destroy_system_reshaped y w V G L :
  coordinated w V G L → wp (Systems.destroy_system y) (λ _ w', reshaped w V G w') w.
Proof.
  intros Hc. pose proof Hc as [Hp [H1 H2 H3] Hsig Hm [Hwf Hd]].
  eapply wp_bind_eq; [by apply ensure_allowed|]. apply wp_bind, wp_get. cbn [then_wp].
  unfold find_system. change (host_systems w) with (systemRegistry (state w)).
  destruct (systems (systemRegistry (state w)) !! y) as [record|] eqn:Er.
  2:{ by eapply wp_bind, wp_lift, reshaped_refl. }
  eapply wp_bind_eq; [done|]. unfold wp, on_host, zoom, smodify. cbn [fst snd].
  exists V, L. split_and!; [|done|done].
  split; [by apply (parts_ok_same _ w)|by split|done| |].
  - intros y' rec0. cbn. intros [_ Hy]%lookup_delete_Some. exact (Hm y' rec0 Hy).
  - split; [by apply destroyed_wf|done].
Qed.

Theorem destroy_system_settles y w V G L :
  coordinated w V G L → wp (Systems.destroy_system y) (λ _ w', settles w V w') w.
Proof.
  intros Hc. eapply wp_mono; [by eapply destroy_system_reshaped|].
  intros x w'. apply reshaped_settles.
Qed.

(** The constructor of a system may use the world, but not change its topology. *)
Definition constructs (construct : stm World unit) : Prop :=
  ∀ w, systemRegistry (state (construct w).2) = systemRegistry (state w) ∧
       quiet w (construct w).2.

(** The new record, before anyone belongs to it. *)
Lemma register_record_wp y sig ph name ver construct w V G L :
  constructs construct → coordinated w V G L →
  wp (Systems.register_system y sig ph name ver construct) (λ x w',
    match x with
    | Err _ => reshaped w V G w'
    | Ok _ => ∃ w1 V1 L1 r, w' = with_systems r w1 ∧ coordinated w1 V1 G L1 ∧ same_shape V V1 ∧
        same_revisions w w1 ∧ registry_wf r ∧ dispatchDepth r = 0 ∧ members_active (with_systems r w1)
    end) w.
Proof.
  intros Hcon Hc. pose proof Hc as [_ _ _ _ [Hwf Hd]].
  eapply wp_bind_eq; [by apply ensure_allowed|]. apply wp_bind, wp_get. cbn [then_wp].
  apply wp_bind, wp_reject; intros Hno; [by eapply reshaped_refl|]. cbn [then_wp].
  apply wp_bind, wp_reject; intros Hname; [by eapply reshaped_refl|]. cbn [then_wp].
  destruct (Hcon w) as [Hsys Hq]. apply wp_bind, wp_intro. intros x w1 E.
  rewrite E in Hsys, Hq. cbn [snd] in Hsys, Hq.
  pose proof (reshaped_quiet _ _ _ _ _ Hq Hsys Hc) as Hre.
  destruct x as [u|e]; cbn [then_wp]; [|done]. apply wp_bind, wp_get. cbn [then_wp].
  apply wp_bind, wp_reject; intros _; [done|]. cbn [then_wp]. eapply wp_bind_eq; [done|].
  unfold wp, on_host, zoom, smodify. cbn [fst snd].
  destruct (coordinated_quiet _ _ _ _ _ Hq Hsys Hc) as (V1 & L1 & Hc1 & Hs1).
  exists w1, V1, L1, (MkSystemRegistry (<[y := MkSystemRecord sig name ver ph ∅]>
    (systems (systemRegistry (state w1)))) (registrationOrder (systemRegistry (state w1)) ++ [y])
    (dispatchDepth (systemRegistry (state w1)))).
  split; [reflexivity|]. apply bool_decide_eq_false in Hno.
  pose proof (co_calm _ _ _ _ Hc1) as [Hwf1 Hd1]. split_and!;
    [done|done|by apply same_frame_revisions, Hq| |done|].
  - apply registered_wf; [done|]. rewrite Hsys. by apply eq_None_not_Some.
  - intros y' record b. cbn. intros [[-> <-]|[_ Hy]]%lookup_insert_Some; [set_solver|].
    by eapply coordinated_active.
Qed.

Theorem register_system_settles y sig ph name ver construct w V G L :
  constructs construct → coordinated w V G L →
  wp (register_system code y sig ph name ver construct) (λ _ w', settles w V w') w.
Proof.
  intros Hcon Hc. apply wp_bind. eapply wp_mono; [by eapply register_record_wp|].
  intros x w1 Hx. destruct x as [u|e]; cbn [then_wp]; [|by eapply reshaped_settles].
  destruct Hx as (w2 & V2 & L2 & r & -> & Hc2 & Hs2 & Hr2 & Hwf & Hd & Hact).
  apply wp_try. eapply wp_mono; [by apply (update_all_reshaped w2 V2 G L2 r)|].
  intros z w3 Hre3. apply (reshaped_via _ _ _ _ _ _ Hs2 Hr2) in Hre3.
  destruct z as [v|e]; [by eapply reshaped_settles|].
  destruct Hre3 as (V3 & L3 & Hc3 & Hs3 & Hr3).
  apply wp_bind. eapply wp_mono; [by eapply destroy_system_reshaped|]. intros z w4 Hre4.
  cut (settles w V w4); [by destruct z|]. by apply (reshaped_settles _ _ G), (reshaped_via _ _ _ w3 V3).
Qed.

Theorem set_system_signature_settles y sig w V G L :
  coordinated w V G L → wp (set_system_signature code y sig) (λ _ w', settles w V w') w.
Proof.
  intros Hc. pose proof Hc as [_ _ _ _ [Hwf Hd]]. apply wp_bind.
  eapply wp_bind_eq; [by apply ensure_allowed|]. apply wp_bind, wp_get. cbn [then_wp].
  unfold find_system. change (host_systems w) with (systemRegistry (state w)).
  destruct (systems (systemRegistry (state w)) !! y) as [record|] eqn:Er.
  2:{ by eapply wp_bind, wp_lift, settles_refl. }
  eapply wp_bind_eq; [done|]. unfold wp at 1, put_record, on_host, zoom, smodify. cbn [fst snd then_wp].
  eapply wp_mono; [apply (update_all_reshaped w V G L)|]; [done| |exact Hd| |].
  - destruct Hwf as [Hnd Hin]. split; [done|]. intros y'. cbn. rewrite Hin.
    destruct (decide (y' = y)) as [->|Hne].
    + rewrite lookup_insert_eq, Er. done.
    + by rewrite lookup_insert_ne.
  - intros y' record' b. cbn. intros [[-> <-]|[_ Hy]]%lookup_insert_Some.
    + by apply (coordinated_active _ _ _ _ Hc _ _ b Er).
    + by eapply coordinated_active.
  - intros x w'. apply reshaped_settles.
Qed.

(** ** Component types and components *)

(** Types and components may come; rights stay. *)
Record extends V V' : Prop := {
  xt_class t k : class_at V t = Some k → class_at V' t = Some k;
  xt_handle t n h : handle_at V t n = Some h → handle_at V' t n = Some h;
  xt_right t b n : right_at V' t b n = right_at V t b n
}.

Lemma extends_insert V t vw vw' :
  V !! t = Some vw ∧ class vw' = class vw ∨ V !! t = None →
  (∀ n h, handle_at V t n = Some h → fst <$> held vw' !! n = Some h) →
  (∀ b n, rights vw' !! (b, n) = right_at V t b n) →
  extends V (<[t := vw']> V).
Proof.
  intros HV Hh Hr. split.
  - intros t' k. rewrite class_at_insert. case_decide as E; [|done]. subst. unfold class_at.
    destruct HV as [[HV Ek]|HV]; rewrite HV; cbn; congruence.
  - intros t' n h. rewrite handle_at_insert. case_decide as E; [|done]. subst. apply Hh.
  - intros t' b n. rewrite right_at_insert. case_decide as E; [|done]. subst. apply Hr.
Qed.

Lemma extends_settles w V G L c V' G' :
  coordinated w V G L → ComponentSpec.registry_ok c V' G' →
  Components.worldId c = instanceId (state w) → extends V V' →
  settles w V (set_state (set_components c (state w)) w).
Proof.
  intros [Hp [H1 H2 H3] Hsig Hm Hcalm] Hc Ew [Xk Xh Xr]. right. exists V', G', L. split_and!.
  - split; [|by split| |done|done].
    + eapply parts_view; [exact Hp|done|done|done| |].
      * intros id rec _ _ (HA & n & m & Hh & Hr & Hw & Hk). split; [done|]. exists n, m.
        rewrite Xr. split_and!; [by apply Xh|done|done|by apply Xk].
      * intros t b n m. rewrite Xr. apply (po_rights _ _ _ _ _ Hp).
    + intros b sig Hb t. rewrite (Hsig b sig Hb t). unfold has_access. by setoid_rewrite Xr.
  - split; [done|]. intros b r' Hb'. right. split; [done|].
    intros t n. rewrite Xr. split; [done|]. intros [m Hr].
    destruct (right_held Hp _ _ _ _ Hr) as [h Hh]. rewrite Hh, (Xh _ _ _ Hh). split; [done|].
    destruct (class_at V t) as [k|] eqn:Hk; [by apply Xk|]. unfold handle_at in Hh.
    unfold class_at in Hk. apply fmap_None in Hk. by rewrite Hk in Hh.
  - done.
Qed.

(** An operation of the component registry that fails without effect. *)
Lemma grows_settles {A} (m : stm (ComponentRegistry El) A) w V G L :
  coordinated w V G L →
  (let '(x, c) := m (componentRegistry (state w)) in
   match x with
   | Ok _ => ∃ V' G', ComponentSpec.registry_ok c V' G' ∧
       Components.worldId c = Components.worldId (componentRegistry (state w)) ∧ extends V V'
   | Err _ => c = componentRegistry (state w)
   end) →
  wp (on_components m) (λ _ w', settles w V w') w.
Proof.
  intros Hc Hm. unfold wp, on_components, on_state, zoom.
  destruct (m (componentRegistry (state w))) as [[a|e] c]; cbn [fst snd].
  - destruct Hm as (V' & G' & Hok & Ew & Hx). eapply extends_settles; [done|done| |done].
    rewrite Ew. apply (co_parts _ _ _ _ Hc).
  - subst c. assert (set_state (set_components (componentRegistry (state w)) (state w)) w = w) as ->
      by (by destruct w as [[]]). by eapply settles_refl.
Qed.

Theorem register_component_settles k name ver enc dec w V G L :
  coordinated w V G L →
  wp (on_components (Components.register_component k name ver enc dec)) (λ _ w', settles w V w') w.
Proof.
  intros Hc. eapply grows_settles; [done|].
  pose proof (register_component_spec _ V G k name ver enc dec
    (po_components _ _ _ _ _ (co_parts _ _ _ _ Hc))) as Hs.
  destruct (Components.register_component k name ver enc dec _) as [[type|e] c]; [|apply Hs].
  destruct Hs as (_ & HV & Ew & _ & Hok). exists (<[type_id type := MkView k ∅ ∅]> V), G.
  split_and!; [done|done|]. apply (extends_insert _ _ (MkView k ∅ ∅)); [by right| |].
  - intros n h. unfold handle_at. by rewrite HV.
  - intros b n. unfold right_at. by rewrite HV.
Qed.

Lemma extends_refl V : extends V V.
Proof. done. Qed.

Theorem register_effect_codec_settles k type route enc dec w V G L :
  coordinated w V G L →
  wp (on_components (Components.register_effect_codec k type route enc dec))
    (λ _ w', settles w V w') w.
Proof.
  intros Hc. eapply grows_settles; [done|].
  pose proof (register_effect_codec_spec _ V G k type route enc dec
    (po_components _ _ _ _ _ (co_parts _ _ _ _ Hc))) as Hs.
  destruct (Components.register_effect_codec k type route enc dec _) as [[u|e] c]; [|apply Hs].
  destruct Hs as (Ew & _ & Hok). exists V, G. split_and!; [done|done|apply extends_refl].
Qed.

Theorem add_component_settles k type name (component : El k) w V G L :
  coordinated w V G L →
  wp (on_components (Components.add_component k type name component)) (λ _ w', settles w V w') w.
Proof.
  intros Hc. eapply grows_settles; [done|]. pose proof (co_parts _ _ _ _ Hc) as Hp.
  pose proof (po_components _ _ _ _ _ Hp) as Hok.
  destruct (component_type_spec _ V G k type Hok) as [[Hfits _]|[Hno _]].
  - pose proof Hfits as [_ (vw & HV & <-)].
    destruct (add_component_spec _ V G vw type name component Hok Hfits HV)
      as [(h & c & -> & _ & Hnew & _ & Ew & Hok')|[[msg ->] _]]; [|done].
    eexists _, _. split_and!; [exact Hok'|done|]. apply (extends_insert _ _ vw); [by left| |].
    + intros n h'. rewrite (handle_at_view _ _ _ _ HV). cbn. intros Hn.
      destruct (decide (n = name)) as [->|Hne]; [by rewrite Hnew in Hn|].
      by rewrite lookup_insert_ne.
    + intros b n. cbn. by rewrite (right_at_view _ _ _ _ _ HV).
  - destruct (misfit_refused _ V G (Add k type name component) k type Hok eq_refl Hno) as [msg Hm].
    cbn in Hm. unfold mbind, stm_bind in Hm.
    destruct (Components.add_component k type name component _) as [[u|e] r']; [discriminate Hm|].
    by injection Hm as _ ->.
Qed.
End Setup.
