(* ===== verification/WorldSpec.v ===== *)
(** * The world's operations keep it coordinated

    [undisturbed] says that the systems stay as they are and everything else
    moves along [quiet]: so do all operations that are not changes of topology.
    Each change of topology is allowed on the owner's thread while nothing is
    dispatched, is otherwise refused without effect, and [settles]. *)
From S2P Require Import Prelude OrderedMap Values Effects Ids Hoare Behaviors Intents IntentSpec Components ComponentSpec ComponentRuns Systems Coordinator World CoordinatorSpec CoordinatorTopology CoordinatorAccess CoordinatorRights CoordinatorSetup.

Section WorldSpec.
Context {K : Type} `{Countable K} {El : K → Type}.
Context {Y : Type} `{Countable Y} {D : Type}.
Abbreviation World := (Coordinator.World El Y D).
Implicit Types (w : World) (V : gmap N (@type_view K El)) (G : list (N * handle))
  (L : gmap handle (@component_intent (sigT El))) (k : K) (type : ComponentType).
Context (caller : N).

Definition undisturbed w w' : Prop :=
  systemRegistry (state w') = systemRegistry (state w) ∧ quiet w w'.

#[export] Instance undisturbed_preorder : PreOrder undisturbed.
Proof.
  split; [done|]. intros w1 w2 w3 [H1 Q1] [H2 Q2]. split; [congruence|by etransitivity].
Qed.

(** Worlds that differ in the evidence and the fields of systems. *)
Definition same_state w w' : Prop := state w' = state w ∧ same_flags w w'.

Lemma same_state_undisturbed w w' : same_state w w' → undisturbed w w'.
Proof.
  intros [E []]. split; [by rewrite E|]. apply quiet_same; split; by rewrite ?E.
Qed.

#[export] Instance same_state_preorder : PreOrder same_state.
Proof.
  split; [done|]. intros w1 w2 w3 [H1 []] [H2 []]. split; [congruence|split; congruence].
Qed.

Section Reads.
Context (R : World → World → Prop) `{!PreOrder R}.

Lemma keeps_query {A} (q : WorldState El Y → res A) : keeps R (query q).
Proof. intros w. cbn. reflexivity. Qed.

Lemma keeps_components {A} (q : ComponentRegistry El → res A) : keeps R (query_components q).
Proof. intros w. cbn. reflexivity. Qed.

Lemma keeps_reject c kind msg : keeps R (sreject_if c kind msg).
Proof. intros w. unfold sreject_if, slift. cbn. reflexivity. Qed.

Lemma keeps_owner_thread : keeps R (ensure_owner_thread caller).
Proof. intros w. unfold ensure_owner_thread, sreject_if, slift. cbn. reflexivity. Qed.

Lemma keeps_require b : keeps R (require_behavior b).
Proof. intros w. unfold require_behavior, sreject_if, slift. cbn. reflexivity. Qed.

Lemma keeps_guard : keeps R (World.ensure_structural_mutation_allowed caller).
Proof.
  unfold World.ensure_structural_mutation_allowed. apply keeps_bind; [done|apply keeps_owner_thread|].
  intros _. apply keeps_bind; [done|by apply keeps_get|]. intros w. apply keeps_reject.
Qed.
End Reads.

Lemma keeps_evidence f : (∀ w, same_state w (f w)) → keeps undisturbed (smodify f).
Proof. intros Hf w. apply same_state_undisturbed, Hf. Qed.

Lemma keeps_intents {A} (m : stm _ A) : removes m → keeps undisturbed (on_intents m).
Proof. intros Hm w. split; [apply on_intents_systems|by apply quiet_removes]. Qed.

Lemma keeps_values {A} (m : stm _ A) : revalues m → keeps undisturbed (on_components m).
Proof.
  intros Hm w. split; [|by apply quiet_revalues]. unfold on_components, on_state, zoom.
  by destruct (m _).
Qed.

Lemma records_component_mutation m :
  keeps same_state (record_component_mutation (El := El) (Y := Y) (D := D) m).
Proof.
  intros w. unfold record_component_mutation, mbind, stm_bind, sget, sreject_if, slift, reject_if.
  by destruct (_ <=? _).
Qed.

Lemma records_topology key v removed :
  keeps same_state (record_topology (El := El) (Y := Y) (D := D) key v removed).
Proof.
  intros w. unfold record_topology, mbind, stm_bind, sget, sreject_if, slift, reject_if.
  by destruct (_ <=? _).
Qed.

Lemma keeps_record_component_mutation m :
  keeps undisturbed (record_component_mutation (El := El) (Y := Y) (D := D) m).
Proof. intros w. apply same_state_undisturbed, records_component_mutation. Qed.

Lemma keeps_create_intent owner k type slot lifetime (v : El k) priority name :
  keeps undisturbed (Coordinator.create_intent owner k type slot lifetime v priority name).
Proof.
  intros w. split; [|apply quiet_create_intent].
  pose proof (checked_intent_value_spec owner k type slot v w) as Hc.
  unfold Coordinator.create_intent, mbind, stm_bind. unfold wp in Hc.
  destruct (checked_intent_value owner k type slot v w) as [[e|e] w']; cbn [fst snd] in Hc;
    destruct Hc as [-> _]; [apply on_intents_systems|done].
Qed.
End WorldSpec.

#[export] Hint Resolve keeps_query keeps_components keeps_reject keeps_owner_thread keeps_require
  keeps_guard records_component_mutation records_topology keeps_record_component_mutation keeps_create_intent : keeps.

Section Plain.
Context {K : Type} `{Countable K} {El : K → Type}.
Context {Y : Type} `{Countable Y} {D : Type}.
Abbreviation World := (Coordinator.World El Y D).
Context (caller : N).

Lemma keeps_replace k type b name (v : El k) :
  keeps (undisturbed (El := El) (Y := Y) (D := D)) (Coordinator.replace_component k type b name v).
Proof.
  unfold Coordinator.replace_component. keep_steps. apply keeps_values, replace_revalues.
Qed.

Lemma keeps_read_component k type b name :
  keeps (undisturbed (El := El) (Y := Y) (D := D)) (World.read_component caller k type b name).
Proof.
  unfold World.read_component, owned, Coordinator.read_component, access_component. keep_steps.
Qed.
#[local] Hint Resolve keeps_replace keeps_read_component : keeps.

Lemma keeps_current_component k type b name :
  keeps (undisturbed (El := El) (Y := Y) (D := D)) (current_component caller k type b name).
Proof. unfold current_component. keep_steps. Qed.

Lemma keeps_get_components k type b :
  keeps (undisturbed (El := El) (Y := Y) (D := D)) (World.get_components caller k type b).
Proof. unfold World.get_components, owned, Coordinator.get_components. keep_steps. Qed.
#[local] Hint Resolve keeps_current_component keeps_get_components : keeps.

Lemma keeps_replace_component k type b name (v : El k) :
  keeps (undisturbed (El := El) (Y := Y) (D := D)) (World.replace_component caller k type b name v).
Proof. unfold World.replace_component. keep_steps. Qed.
#[local] Hint Resolve keeps_replace_component : keeps.

Lemma keeps_update_component k type b name update :
  (∀ v, keeps undisturbed (update v)) →
  keeps (undisturbed (El := El) (Y := Y) (D := D)) (World.update_component caller k type b name update).
Proof. intros Hu. unfold World.update_component. keep_steps. Qed.

Lemma keeps_resolve_effect k type b name :
  keeps (undisturbed (El := El) (Y := Y) (D := D)) (World.resolve_effect caller k type b name).
Proof. unfold World.resolve_effect. keep_steps. Qed.

Lemma keeps_destroy_intent id :
  keeps (undisturbed (El := El) (Y := Y) (D := D)) (World.destroy_intent caller id).
Proof. unfold World.destroy_intent, owned. keep_steps. apply keeps_intents, destroy_removes. Qed.

Lemma keeps_intent_count b :
  keeps (undisturbed (El := El) (Y := Y) (D := D)) (World.intent_count caller b).
Proof. unfold World.intent_count, owned, Coordinator.intent_count. keep_steps. Qed.

Lemma keeps_destroy_expired now :
  keeps (undisturbed (El := El) (Y := Y) (D := D)) (World.destroy_expired_intents caller now).
Proof.
  unfold World.destroy_expired_intents. keep_steps. apply keeps_for; [apply _|]. intros id.
  apply keeps_intents, destroy_removes.
Qed.

Lemma keeps_replace_component_value target name v :
  keeps (undisturbed (El := El) (Y := Y) (D := D)) (World.replace_component_value caller target name v).
Proof.
  unfold World.replace_component_value. keep_steps. apply keeps_values, replace_value_revalues.
Qed.
End Plain.

(** ** Changes of topology *)

Section Structural.
Context {K : Type} `{Countable K} {El : K → Type}.
Context {Y : Type} `{Countable Y} {D : Type}.
Abbreviation World := (Coordinator.World El Y D).
Implicit Types (w : World) (V : gmap N (@type_view K El)) (G : list (N * handle))
  (L : gmap handle (@component_intent (sigT El))) (k : K) (type : ComponentType).
Context (caller : N).

(** Nothing is dispatched, no transaction is open, and the caller is the owner. *)
Definition at_rest w : Prop :=
  caller = ownerThread w ∧ systemsRunning w = false ∧
  dispatchDepth (systemRegistry (state w)) = 0 ∧ intentTransactionActive w = false.

Lemma guard_spec w :
  World.ensure_structural_mutation_allowed caller w = (Ok tt, w) ∧ at_rest w ∨
  ¬ at_rest w ∧ ∃ msg, World.ensure_structural_mutation_allowed caller w = (throw logic_error msg, w).
Proof.
  unfold at_rest, World.ensure_structural_mutation_allowed, ensure_owner_thread, mbind, stm_bind,
    sget, sreject_if, slift, reject_if, dispatching.
  change (host_systems w) with (systemRegistry (state w)).
  destruct (N.eqb_spec caller (ownerThread w)) as [->|Hne]; cbn [negb].
  2:{ right. split; [naive_solver|]. by eexists. }
  destruct (systemsRunning w) eqn:Er; cbn [orb]; [right; split; [naive_solver|by eexists]|].
  destruct (N.ltb_spec 0 (dispatchDepth (systemRegistry (state w)))) as [Hd|Hd]; cbn [orb].
  { right. split; [intros (_ & _ & Hd' & _); lia|by eexists]. }
  destruct (intentTransactionActive w) eqn:Ei; [right; split; [naive_solver|by eexists]|].
  left. split_and!; [done|done|done|lia|done].
Qed.

Lemma coordinated_same_state w w' V G L :
  same_state w w' → coordinated w V G L → coordinated w' V G L.
Proof.
  intros [E _] [Hp [H1 H2 H3] Hsig Hm Hcalm].
  assert (parts_ok nobody w' V G L) as Hp' by (apply (parts_ok_same _ w); [by split; rewrite E|done]).
  split; [done|split; by rewrite E|by unfold sigs_ok; rewrite E| |by unfold calm; rewrite E].
  unfold members_ok, behavior_signature. rewrite E. exact Hm.
Qed.

Lemma settles_same_state w V w1 w2 : settles w V w1 → same_state w1 w2 → settles w V w2.
Proof.
  intros [Hf|(V' & G' & L' & Hc & [Hl Hr] & Hfl)] Hs.
  - left. unfold evidence_full, lifecycle in *. by rewrite (proj1 Hs).
  - right. exists V', G', L'. split_and!; [by eapply coordinated_same_state| |].
    + split; by rewrite (proj1 Hs).
    + eapply same_flags_trans; [done|apply Hs].
Qed.

Lemma settles_bind {A B} w V (m : stm World A) (f : A → stm World B) w0 :
  wp m (λ _ w', settles w V w') w0 → (∀ a, keeps same_state (f a)) →
  wp (m ≫= f) (λ _ w', settles w V w') w0.
Proof.
  intros Hm Hf. apply wp_bind. eapply wp_mono; [exact Hm|]. intros [a|e] w1 Hs; [|done].
  eapply settles_same_state; [exact Hs|apply Hf].
Qed.

Lemma settles_try {A} w V (m : stm World A) h w0 :
  wp m (λ _ w', settles w V w') w0 → (∀ e, keeps same_state (h e)) →
  wp (stry m h) (λ _ w', settles w V w') w0.
Proof.
  intros Hm Hh. apply wp_try. eapply wp_mono; [exact Hm|]. intros [a|e] w1 Hs; [done|].
  eapply settles_same_state; [exact Hs|apply Hh].
Qed.

(** Steps before the change that do not touch the world. *)
Lemma settles_after {A B} (m : stm World A) (f : A → stm World B) w V G L :
  coordinated w V G L → keeps eq m → (∀ a, wp (f a) (λ _ w', settles w V w') w) →
  wp (m ≫= f) (λ _ w', settles w V w') w.
Proof.
  intros Hc Hm Hf. apply wp_bind, wp_intro. intros x w' E. specialize (Hm w). rewrite E in Hm.
  cbn in Hm. subst w'. destruct x; [apply Hf|by eapply settles_refl].
Qed.

Context (code : Y → SystemCode World).
Hypothesis added_ok : ∀ y b, well_behaved quiet (on_behavior_added (code y) b).
Hypothesis removed_ok : ∀ y b, well_behaved quiet (on_behavior_removed (code y) b).

Context {w V G L} (Hc : coordinated w V G L).
Abbreviation settled m := (wp m (λ _ w', settles w V w') w) (only parsing).

Ltac settle_steps thm :=
  repeat (eapply (settles_after _ _ _ _ _ _ Hc); [solve [keep_steps]|intros ?]);
  first [ eapply settles_bind; [thm|intros ?; solve [keep_steps]]
        | eapply settles_bind; [apply settles_try; [thm|intros ?; solve [keep_steps]]|
            intros ?; solve [keep_steps]]
        | thm ].

Lemma create_behavior_settled : settled (World.create_behavior caller code).
Proof. unfold World.create_behavior. settle_steps ltac:(by eapply create_behavior_settles). Qed.

Lemma destroy_behavior_settled id : settled (World.destroy_behavior caller code id).
Proof. unfold World.destroy_behavior. settle_steps ltac:(by eapply destroy_behavior_settles). Qed.

Lemma register_system_settled y sig ph name ver construct :
  constructs construct →
  settled (World.register_system caller code y sig ph name ver construct).
Proof.
  intros Hcon. unfold World.register_system. settle_steps ltac:(by eapply register_system_settles).
Qed.

Lemma destroy_system_settled y name : settled (World.destroy_system caller y name).
Proof. unfold World.destroy_system. settle_steps ltac:(by eapply destroy_system_settles). Qed.

Lemma set_system_signature_settled y name ver sig :
  settled (World.set_system_signature caller code y name ver sig).
Proof.
  unfold World.set_system_signature. settle_steps ltac:(by eapply set_system_signature_settles).
Qed.

Lemma register_component_settled k name ver enc dec :
  settled (World.register_component caller k name ver enc dec).
Proof.
  unfold World.register_component. settle_steps ltac:(by eapply register_component_settles).
Qed.

Lemma register_effect_codec_settled k type route enc dec :
  settled (World.register_effect_codec caller k type route enc dec).
Proof.
  unfold World.register_effect_codec. settle_steps ltac:(by eapply register_effect_codec_settles).
Qed.

Lemma add_component_settled k type name (v : El k) :
  settled (World.add_component caller k type name v).
Proof. unfold World.add_component. settle_steps ltac:(by eapply add_component_settles). Qed.

Lemma remove_component_settled k type name :
  settled (World.remove_component caller code k type name).
Proof. unfold World.remove_component. settle_steps ltac:(by eapply remove_component_settles). Qed.

Lemma grant_component_access_settled k type b name m :
  settled (World.grant_component_access caller code k type b name m).
Proof.
  unfold World.grant_component_access. settle_steps ltac:(by eapply grant_component_access_settles).
Qed.

Lemma revoke_component_access_settled k type b name :
  settled (World.revoke_component_access caller code k type b name).
Proof.
  unfold World.revoke_component_access.
  settle_steps ltac:(by eapply revoke_component_access_settles).
Qed.
End Structural.

(** ** Running the systems *)

Section Running.
Context {K : Type} `{Countable K} {El : K → Type}.
Context {Y : Type} `{Countable Y} {D : Type}.
Abbreviation World := (Coordinator.World El Y D).
Implicit Types (w : World).
Context (caller : N) (code : Y → SystemCode World).
Hypothesis run_ok : ∀ y frame now, well_behaved quiet (run_system (code y) frame now).

(** What a run leaves, and which systems ran. *)
Definition ran_systems (frame now : N) (ph : SystemPhase) w (x : res N) (s : World * progress) : Prop :=
  ∃ s1, s.1 = set_running false (at_depth 0 s1.1) ∧
    ran code frame now
      (due ph (systemRegistry (state w)) (registrationOrder (systemRegistry (state w))))
      (systemRegistry (state w)) 0 (at_depth 1 (set_running true w)) x s1 ∧
    s.2 = match x with Ok n => MkProgress n "" | Err _ => s1.2 end.

Lemma quiet_running w w' :
  systemsRunning w = false → quiet (set_running true w) w' → quiet w (set_running false w').
Proof.
  intros Hr [[E1 E2 E3 E4 E5 E6 E7 E8] Hq]. split; [by split; try done; rewrite Hr|].
  intros X V G L Hp. destruct (Hq X V G L) as (V' & L' & Hp' & Hs & Hl); [by apply (parts_ok_same _ w)|].
  exists V', L'. split_and!; [by apply (parts_ok_same _ w')|done|done].
Qed.

Lemma run_systems_wp frame now ph w p :
  calm w →
  wp (World.run_systems caller code frame now ph) (λ x s, undisturbed w s.1 ∧
    ((∃ msg, x = throw logic_error msg ∧ s = (w, p) ∧ (caller ≠ ownerThread w ∨ systemsRunning w = true)) ∨
     caller = ownerThread w ∧ systemsRunning w = false ∧ ran_systems frame now ph w x s)) (w, p).
Proof.
  intros [Hwf Hd]. unfold World.run_systems. apply wp_bind.
  unfold wp at 1, on_world, ensure_owner_thread, sreject_if, slift, reject_if. cbn [fst snd].
  destruct (N.eqb_spec caller (ownerThread w)) as [Ho|Ho]; cbn [negb fst snd then_wp throw].
  2:{ split; [reflexivity|]. left. eexists. split; [done|]. split; [done|by left]. }
  apply wp_bind, wp_get. cbn [then_wp fst]. apply wp_bind, wp_reject; intros Hr; cbn [then_wp].
  { split; [reflexivity|]. left. eexists. split; [done|]. split; [done|by right]. }
  set (w1 := set_running true w). apply (wp_bind_eq _ _ tt _ _ (w1, p)); [done|].
  apply wp_try, wp_bind. eapply wp_mono.
  { apply (run_systems_spec code quiet quiet_systems run_ok frame now ph w1 p); [exact Hwf|exact Hd]. }
  intros x [w2 p2] (HR & Hs & s1 & Es1 & Hran & Ep). cbn [fst snd] in *.
  assert (undisturbed w (set_running false w2)) as Hu.
  { split; [exact Hs|]. by apply quiet_running. }
  assert (∀ y, ran code frame now (due ph (systemRegistry (state w))
      (registrationOrder (systemRegistry (state w)))) (systemRegistry (state w)) 0
      (at_depth 1 w1) y s1 → p2 = match y with Ok n => MkProgress n "" | Err _ => s1.2 end →
    ran_systems frame now ph w y (set_running false w2, p2)) as Hdone.
  { intros y Hy Hp2. exists s1. cbn [fst snd]. by rewrite Es1. }
  destruct x as [n|e]; cbn [then_wp].
  - eapply wp_bind_eq; [done|]. apply wp_ret. split; [exact Hu|]. right.
    split_and!; [done|done|]. by apply Hdone.
  - eapply wp_bind_eq; [done|]. apply wp_lift. split; [exact Hu|]. right.
    split_and!; [done|done|]. by apply Hdone.
Qed.
End Running.
