(* ===== verification/Client.v ===== *)
(** * Programs over the world

    The hosts of a world: programs that call its public operations, from outside
    and from the callbacks of their own systems, and the runtime that owns it.
    Whatever they do, on whatever threads, the world stays coordinated. *)
From S2P Require Import Prelude OrderedMap Values Effects Ids Hoare Behaviors Intents IntentSpec Components ComponentSpec ComponentRuns Systems Coordinator World CoordinatorSpec CoordinatorTopology CoordinatorAccess CoordinatorRights CoordinatorSetup WorldSpec.

Section Client.
Context {K : Type} `{Countable K} {El : K → Type}.
Context {Y : Type} `{Countable Y} {D : Type}.
Abbreviation World := (Coordinator.World El Y D).
Implicit Types (w : World) (V : gmap N (@type_view K El)) (G : list (N * handle))
  (L : gmap handle (@component_intent (sigT El))).

(** ** Calls *)

(** The public operations that leave the topology alone.  [Query] stands for
    all the [const] ones, which read the state on the owner's thread. *)
Inductive plain : Type → Type :=
  | CreateIntent (owner : BehaviorId) (k : K) (type : ComponentType) (slot : ComponentSlotId)
      (lifetime : IntentLifetime) (v : El k) (priority : IntentPriority) (name : string)
      : plain IntentId
  | DestroyIntent (id : IntentId) : plain unit
  | IntentCount (owner : BehaviorId) : plain N
  | GetComponents (k : K) (type : ComponentType) (behavior : BehaviorId)
      : plain (gmap string ComponentSlotId)
  | ReadComponent (k : K) (type : ComponentType) (behavior : BehaviorId) (name : string)
      : plain (option (El k))
  | ReplaceComponent (k : K) (type : ComponentType) (behavior : BehaviorId) (name : string)
      (replacement : El k) : plain unit
  | UpdateComponent (k : K) (type : ComponentType) (behavior : BehaviorId) (name : string)
      (update : El k → res (El k)) : plain unit
  | ResolveEffect (k : K) (type : ComponentType) (behavior : BehaviorId) (name : string)
      : plain (option ResolvedEffect)
  | Query {A} (q : WorldState El Y → res A) : plain A
  | ClearComponentMutations : plain unit
  | ClearTopologyMutations : plain unit
  | ClearScriptEvidence : plain unit.

Definition perform_plain (caller : N) {A} (op : plain A) : stm World A :=
  match op with
  | CreateIntent owner k type slot lifetime v priority name =>
      World.create_intent owner k type slot lifetime v priority name
  | DestroyIntent id => World.destroy_intent caller id
  | IntentCount owner => World.intent_count caller owner
  | GetComponents k type behavior => World.get_components caller k type behavior
  | ReadComponent k type behavior name => World.read_component caller k type behavior name
  | ReplaceComponent k type behavior name v =>
      World.replace_component caller k type behavior name v
  | UpdateComponent k type behavior name update =>
      World.update_component caller k type behavior name (λ v, slift (update v))
  | ResolveEffect k type behavior name => World.resolve_effect caller k type behavior name
  | Query q => owned_query caller q
  | ClearComponentMutations => clear_component_mutations caller
  | ClearTopologyMutations => clear_topology_mutations caller
  | ClearScriptEvidence => clear_script_execution_evidence caller
  end.

(** Host code: it calls operations, goes on with their results or exceptions,
    and uses the fields of its systems.  In a callback, where [dispatched] is
    [true], it may also call an operation that changes the topology; that is
    refused (see [topology_frozen]), so which one it is does not matter. *)
Inductive script (dispatched : bool) (A : Type) : Type :=
  | Done (x : res A)
  | Call {B} (op : plain B) (next : res B → script dispatched A)
  | Look (next : gmap Y D → script dispatched A)
  | Store (fields : gmap Y D) (next : script dispatched A)
  | Topology (H : dispatched = true) (next : exn → script dispatched A).
Arguments Done {dispatched A}.
Arguments Call {dispatched A B}.
Arguments Look {dispatched A}.
Arguments Store {dispatched A}.
Arguments Topology {dispatched A}.

Fixpoint run_script (caller : N) {d A} (p : script d A) : stm World A :=
  match p with
  | Done x => slift x
  | Call op next => λ w, let '(x, w) := perform_plain caller op w in run_script caller (next x) w
  | Look next => λ w, run_script caller (next (systemFields w)) w
  | Store fields next => smodify (set_fields fields);; run_script caller next
  | Topology _ next => λ w,
      match World.ensure_structural_mutation_allowed caller w with
      | (Err e, w) => run_script caller (next e) w
      | (Ok _, w) => (throw logic_error "unreachable", w)
      end
  end.

(** The classes of a host's systems. *)
Record program := MkProgram {
  on_added : BehaviorId → script true unit;
  on_removed : BehaviorId → script true unit;
  on_run : N → N → script true unit
}.
Context (host : Y → program).

Definition code_of (caller : N) (y : Y) : SystemCode World :=
  MkSystemCode (λ b, run_script caller (on_added (host y) b))
    (λ b, run_script caller (on_removed (host y) b))
    (λ frame now, run_script caller (on_run (host y) frame now)).

(** The operations that change the topology.  The constructors of systems are
    programs that do not. *)
Inductive structural :=
  | CreateBehavior
  | DestroyBehavior (id : BehaviorId)
  | RegisterSystem (y : Y) (sig : N) (ph : SystemPhase) (name : string) (ver : N)
      (construct : script false unit)
  | DestroySystem (y : Y) (name : string)
  | SetSystemSignature (y : Y) (name : string) (ver sig : N)
  | RegisterComponent (k : K) (schemaName : string) (schemaVersion : N)
      (encode : option (El k → res value)) (decode : option (value → res (El k)))
  | RegisterEffectCodec (k : K) (type : ComponentType) (route : string)
      (encode : option (string → El k → res (option ResolvedEffect)))
      (decode_observed : option (value → res (El k)))
  | AddComponent (k : K) (type : ComponentType) (name : string) (component : El k)
  | RemoveComponent (k : K) (type : ComponentType) (name : string)
  | GrantAccess (k : K) (type : ComponentType) (behavior : BehaviorId) (name : string)
      (m : ComponentAccessMode)
  | RevokeAccess (k : K) (type : ComponentType) (behavior : BehaviorId) (name : string).

Definition ignoring {A} (m : stm World A) : stm World unit := m;; mret tt.

Definition perform_structural (caller : N) (op : structural) : stm World unit :=
  let code := code_of caller in
  match op with
  | CreateBehavior => ignoring (World.create_behavior caller code)
  | DestroyBehavior id => World.destroy_behavior caller code id
  | RegisterSystem y sig ph name ver construct =>
      World.register_system caller code y sig ph name ver (run_script caller construct)
  | DestroySystem y name => World.destroy_system caller y name
  | SetSystemSignature y name ver sig => World.set_system_signature caller code y name ver sig
  | RegisterComponent k name ver enc dec =>
      ignoring (World.register_component caller k name ver enc dec)
  | RegisterEffectCodec k type route enc dec =>
      World.register_effect_codec caller k type route enc dec
  | AddComponent k type name component => World.add_component caller k type name component
  | RemoveComponent k type name => World.remove_component caller code k type name
  | GrantAccess k type behavior name m =>
      World.grant_component_access caller code k type behavior name m
  | RevokeAccess k type behavior name =>
      World.revoke_component_access caller code k type behavior name
  end.

(** What is done to a world from outside; the operations of the last group are
    the runtime's. *)
Inductive operation :=
  | Structural (op : structural)
  | Plain {A} (op : plain A)
  | Host (p : script false unit)
  | RunSystems (frame now : N) (ph : SystemPhase)
  | ReplaceValue (target : ComponentTarget) (name : string) (replacement : value)
  | DestroyExpired (now : IntentTime)
  | ClearLifecycle
  | EnableScriptEvidence
  | RecordScript (evidence : ScriptExecutionEvidence).

(** [run_systems] without its out-parameters. *)
Definition run_phase (caller frame now : N) (ph : SystemPhase) : stm World unit := λ w,
  let '(x, s) := World.run_systems caller (code_of caller) frame now ph (w, MkProgress 0 "") in
  (_ ← x; Ok tt, s.1).

Definition perform (caller : N) (op : operation) : stm World unit :=
  match op with
  | Structural op => perform_structural caller op
  | Plain op => ignoring (perform_plain caller op)
  | Host p => run_script caller p
  | RunSystems frame now ph => run_phase caller frame now ph
  | ReplaceValue target name v => ignoring (World.replace_component_value caller target name v)
  | DestroyExpired now => ignoring (World.destroy_expired_intents caller now)
  | ClearLifecycle => World.clear_intent_lifecycle_records caller
  | EnableScriptEvidence => enable_script_evidence caller
  | RecordScript evidence => record_script_execution caller evidence
  end.

(** Operations by threads, one after the other; the callers catch what they
    throw. *)
Fixpoint run (steps : list (N * operation)) w : World :=
  match steps with
  | [] => w
  | (caller, op) :: steps => run steps (perform caller op w).2
  end.

(** The buffer of intent evidence never is full. *)
Fixpoint roomy (steps : list (N * operation)) w : Prop :=
  match steps with
  | [] => True
  | (caller, op) :: steps =>
      let w' := (perform caller op w).2 in len (lifecycle w') < maximumBufferedLifecycleRecords ∧ roomy steps w'
  end.

(** ** Nothing but changes of topology disturbs *)

Lemma plain_undisturbed caller {A} (op : plain A) : keeps undisturbed (perform_plain caller op).
Proof.
  destruct op; cbn [perform_plain].
  - apply keeps_create_intent.
  - apply keeps_destroy_intent.
  - apply keeps_intent_count.
  - apply keeps_get_components.
  - apply keeps_read_component.
  - apply keeps_replace_component.
  - apply keeps_update_component. intros v. keep_steps.
  - apply keeps_resolve_effect.
  - unfold owned_query, owned. keep_steps.
  - unfold clear_component_mutations, owned. keep_steps. apply keeps_evidence; by repeat split.
  - unfold clear_topology_mutations, owned. keep_steps. apply keeps_evidence; by repeat split.
  - unfold clear_script_execution_evidence, owned. keep_steps. apply keeps_evidence; by repeat split.
Qed.

Lemma script_undisturbed caller {d A} (p : script d A) : keeps undisturbed (run_script caller p).
Proof.
  induction p as [x|B op next IH|next IH|fields p IH|E next IH]; cbn [run_script].
  - keep_steps.
  - intros w. pose proof (plain_undisturbed caller op w) as Hop.
    destruct (perform_plain caller op w) as [x w']. etransitivity; [exact Hop|apply IH].
  - intros w. apply IH.
  - apply keeps_bind; [apply _|apply keeps_evidence; by repeat split|done].
  - intros w. pose proof (keeps_guard caller undisturbed w) as Hg.
    destruct (World.ensure_structural_mutation_allowed caller w) as [[u|e] w'];
      [exact Hg|]. etransitivity; [exact Hg|apply IH].
Qed.

Lemma script_well_behaved caller {d} (p : script d unit) : well_behaved quiet (run_script caller p).
Proof. intros w _. apply script_undisturbed. Qed.

Lemma script_constructs caller (p : script false unit) : constructs (run_script caller p).
Proof. intros w. apply script_undisturbed. Qed.

(** ** Every step settles *)

Lemma ignoring_settles {A} w V (m : stm World A) w0 :
  wp m (λ _ w', settles w V w') w0 → wp (ignoring m) (λ _ w', settles w V w') w0.
Proof. intros Hm. apply settles_bind; [done|]. intros _. keep_steps. Qed.

Lemma structural_settles caller op w V G L :
  coordinated w V G L → wp (perform_structural caller op) (λ _ w', settles w V w') w.
Proof.
  intros Hc. assert (∀ y b, well_behaved quiet (on_behavior_added (code_of caller y) b)) as Ha
    by (intros; apply script_well_behaved).
  assert (∀ y b, well_behaved quiet (on_behavior_removed (code_of caller y) b)) as Hr
    by (intros; apply script_well_behaved).
  destruct op; cbn [perform_structural].
  - by eapply ignoring_settles, create_behavior_settled.
  - by eapply destroy_behavior_settled.
  - eapply register_system_settled; [done|done|done|apply script_constructs].
  - by eapply destroy_system_settled.
  - by eapply set_system_signature_settled.
  - by eapply ignoring_settles, register_component_settled.
  - by eapply register_effect_codec_settled.
  - by eapply add_component_settled.
  - by eapply remove_component_settled.
  - by eapply grant_component_access_settled.
  - by eapply revoke_component_access_settled.
Qed.

Lemma undisturbed_settles w w' V G L : undisturbed w w' → coordinated w V G L → settles w V w'.
Proof. intros [Hs Hq] Hc. by eapply settles_quiet. Qed.

Lemma phase_undisturbed caller frame now ph w V G L :
  coordinated w V G L → undisturbed w (run_phase caller frame now ph w).2.
Proof.
  intros Hc. unfold run_phase.
  assert (∀ y frame now, well_behaved quiet (run_system (code_of caller y) frame now)) as Hrun
    by (intros; apply script_well_behaved).
  pose proof (run_systems_wp caller (code_of caller) Hrun frame now ph w (MkProgress 0 "")
    (co_calm _ _ _ _ Hc)) as Hwp. unfold wp in Hwp.
  destruct (World.run_systems caller (code_of caller) frame now ph (w, MkProgress 0 "")) as [x s].
  apply Hwp.
Qed.

Lemma clear_lifecycle_settles caller w V G L :
  coordinated w V G L → settles w V (World.clear_intent_lifecycle_records caller w).2.
Proof.
  intros Hc. pose proof Hc as [Hp [H1 H2 H3] Hsig Hm Hcalm].
  unfold World.clear_intent_lifecycle_records, owned.
  unfold mbind at 1, stm_bind at 1, ensure_owner_thread, sreject_if, slift, reject_if.
  destruct (negb (caller =? ownerThread w)); [by eapply settles_refl|].
  unfold on_intents, on_state, zoom, clear_lifecycle_records.
  rewrite (stm_bind_eq _ _ (intentRegistry (state w)) tt (intentRegistry (state w))).
  2:{ unfold ensure_no_active_transaction, sreject_if, slift, reject_if.
      by rewrite (po_closed _ _ _ _ _ Hp). }
  cbn [smodify fst snd]. right. exists V, G, L. split_and!; [|by apply tracks_shape|done].
  split; [|by split|done|done|done]. apply (parts_intents _ _ _ _ L); [done| |done|by left].
  by destruct (po_intents _ _ _ _ _ Hp).
Qed.

Lemma records_script caller ev :
  keeps same_state (record_script_execution (El := El) (Y := Y) (D := D) caller ev).
Proof.
  intros w. unfold record_script_execution, mbind, stm_bind, ensure_owner_thread, sget, sreject_if,
    slift, reject_if.
  destruct (negb (caller =? ownerThread w)); [done|]. destruct (negb (scriptEvidenceEnabled w)); [done|].
  by destruct (_ <=? _).
Qed.

Lemma perform_settles caller op w V G L :
  coordinated w V G L → settles w V (perform caller op w).2.
Proof.
  intros Hc. destruct op as [op|A op|p|frame now ph|target name v|now| | |ev]; cbn [perform].
  - by eapply structural_settles.
  - eapply undisturbed_settles; [|done]. unfold ignoring.
    apply keeps_bind; [apply _|apply plain_undisturbed|intros _; keep_steps].
  - eapply undisturbed_settles; [|done]. apply script_undisturbed.
  - eapply undisturbed_settles; [|done]. by eapply phase_undisturbed.
  - eapply undisturbed_settles; [|done]. unfold ignoring.
    apply keeps_bind; [apply _|apply keeps_replace_component_value|intros _; keep_steps].
  - eapply undisturbed_settles; [|done]. unfold ignoring.
    apply keeps_bind; [apply _|apply keeps_destroy_expired|intros _; keep_steps].
  - by eapply clear_lifecycle_settles.
  - eapply undisturbed_settles; [|done]. unfold enable_script_evidence, owned.
    apply keeps_bind; [apply _|keep_steps|intros _; apply keeps_evidence; by repeat split].
  - eapply undisturbed_settles; [|done]. apply same_state_undisturbed, records_script.
Qed.

(** ** Runs *)

Lemma new_world_coordinated instance thread :
  coordinated (new_World (K := K) (El := El) (Y := Y) (D := D) instance thread) ∅ [] ∅.
Proof.
  split.
  - split; cbn; try done; [apply new_components_ok|apply new_behaviors_ok|apply new_registry_ok].
  - split; cbn; [..|done]; intros b; by split; [intros []|intros ?%elem_of_empty].
  - intros b sig. by cbn.
  - intros y record. by cbn.
  - split; [|done]. split; [constructor|]. intros y. cbn. split; [by intros ?%elem_of_nil|by intros []].
Qed.

Lemma run_coordinated steps w V G L :
  coordinated w V G L → roomy steps w →
  ∃ V' G' L', coordinated (run steps w) V' G' L' ∧ tracks w V (run steps w) V' ∧
    same_flags w (run steps w).
Proof.
  revert w V G L. induction steps as [|[caller op] steps IH]; intros w V G L Hc Hroom.
  - exists V, G, L. cbn. split_and!; [done|by apply tracks_shape|done].
  - destruct Hroom as [Hlen Hroom]. cbn [run].
    destruct (perform_settles caller op _ _ _ _ Hc) as [Hfull|(V1 & G1 & L1 & Hc1 & Ht1 & Hf1)].
    { unfold evidence_full in Hfull. lia. }
    destruct (IH _ _ _ _ Hc1 Hroom) as (V2 & G2 & L2 & Hc2 & Ht2 & Hf2).
    exists V2, G2, L2. split_and!; [done|by eapply tracks_trans|by eapply same_flags_trans].
Qed.

(** A world that programs have used. *)
Definition used (instance thread : N) (steps : list (N * operation)) : World :=
  run steps (new_World instance thread).

Lemma run_app steps steps' w : run (steps ++ steps') w = run steps' (run steps w).
Proof. revert w. induction steps as [|[caller op] steps IH]; intros w; cbn; [done|apply IH]. Qed.

Lemma roomy_app steps steps' w :
  roomy (steps ++ steps') w → roomy steps w ∧ roomy steps' (run steps w).
Proof.
  revert w. induction steps as [|[caller op] steps IH]; intros w; cbn; [done|].
  intros [Hlen Hroom]. by destruct (IH _ Hroom).
Qed.

Lemma revision_known b r w :
  (behavior_access_revision b w).1 = Ok r → behaviorAccessRevisions (state w) !! b = Some r.
Proof.
  unfold behavior_access_revision, require_behavior, mbind, stm_bind, query, sreject_if, slift,
    reject_if. destruct (negb _); cbn; [done|].
  destruct (behaviorAccessRevisions (state w) !! b); [by intros [= ->]|done].
Qed.

Lemma used_coordinated instance thread steps :
  roomy steps (new_World instance thread) →
  ∃ V G L, coordinated (used instance thread steps) V G L ∧
    instanceId (state (used instance thread steps)) = instance.
Proof.
  intros Hroom.
  destruct (run_coordinated steps _ _ _ _ (new_world_coordinated instance thread) Hroom)
    as (V & G & L & Hc & _ & [Hi _ _ _]). by exists V, G, L.
Qed.
End Client.
Arguments Done {K El Y _ _ D dispatched A}.
Arguments Call {K El Y _ _ D dispatched A B}.
Arguments Look {K El Y _ _ D dispatched A}.
Arguments Store {K El Y _ _ D dispatched A}.
Arguments Topology {K El Y _ _ D dispatched A}.
