(* ===== verification/ClientRuns.v ===== *)
(** * Properties of the world in use

    What holds after any run of programs on a world, stated by the queries the
    code offers, with concrete runs on a host of two component types. *)
From S2P Require Import Prelude OrderedMap Values Effects Ids Hoare Behaviors Intents IntentSpec Components ComponentSpec ComponentRuns Systems Coordinator World CoordinatorSpec CoordinatorTopology CoordinatorAccess CoordinatorRights CoordinatorSetup WorldSpec Client.

Section Queries.
Context {K : Type} `{Countable K} {El : K → Type}.
Context {Y : Type} `{Countable Y} {D : Type}.
Abbreviation World := (Coordinator.World El Y D).
Implicit Types (w : World) (V : gmap N (@type_view K El)) (G : list (N * handle))
  (L : gmap handle (@component_intent (sigT El))) (k : K) (type : ComponentType).

(** ** Answers to the queries of a coordinated world *)

(** The handle of a type that its registration returned. *)
Definition registered (instance t : N) : ComponentType := MkComponentType t instance 1.

Lemma fits_registered instance V t k :
  class_at V t = Some k → fits instance V k (registered instance t).
Proof. intros Hk. split; [by right|done]. Qed.

Lemma fits_decides instance V k type : fits instance V k type ∨ ¬ fits instance V k type.
Proof.
  unfold fits. destruct (decide (class_at V (type_id type) = Some k)) as [Hk|Hk];
    [|right; naive_solver].
  destruct (decide (type_world type = 0)); [left; naive_solver|].
  destruct (decide (type_world type = instance ∧ type_generation type = 1)); [left|right]; naive_solver.
Qed.

Section Answers.
Context {X w V G L} (Hp : parts_ok X w V G L).
Let instance := instanceId (state w).

Lemma named_access wanted k type b n :
  (fits instance V k type → can_access_named wanted k type b n (componentRegistry (state w)) =
     Ok (allowed wanted (right_at V (type_id type) b n))) ∧
  (¬ fits instance V k type →
     can_access_named wanted k type b n (componentRegistry (state w)) = Ok false).
Proof.
  pose proof (components_answer (po_components _ _ _ _ _ Hp)) as Ha. split.
  - intros Hf. destruct (fits_view Hp Hf) as (vw & HV & <- & Hfits).
    rewrite (an_access _ _ _ Ha wanted type b n vw Hfits HV).
    by rewrite (right_at_view _ _ _ _ _ HV).
  - intros Hno. eapply (an_misfit _ _ _ Ha). intros Hfits. apply Hno.
    rewrite fits_type. unfold instance. by rewrite <-(po_components_world _ _ _ _ _ Hp).
Qed.

Lemma named_slot k type n h :
  component_slot k type n (componentRegistry (state w)) = Ok h ↔
  fits instance V k type ∧ handle_at V (type_id type) n = Some h.
Proof.
  destruct (ask_type Hp k type) as [[Hf _]|[Hno [msg E]]].
  - rewrite (ask_slot Hp Hf). destruct (handle_at V (type_id type) n); split; try done.
    + by intros [= ->].
    + by intros [_ [= ->]].
    + by intros [_ ?].
  - split; [|naive_solver]. unfold component_slot. by rewrite E.
Qed.

Lemma live_component t n h k :
  class_at V t = Some k → handle_at V t n = Some h →
  ∃ c, resolve_component k (registered instance t) h (componentRegistry (state w)) = Ok (Some c).
Proof.
  intros Hk Hh. pose proof (fits_registered instance _ _ _ Hk) as Hf.
  destruct (fits_view Hp Hf) as (vw & HV & <- & Hfits). cbn in HV.
  rewrite (handle_at_view _ _ _ _ HV) in Hh.
  destruct (held vw !! n) as [[h' v]|] eqn:Hn; [injection Hh as ->|done]. exists v.
  by eapply (an_resolve _ _ _ (components_answer (po_components _ _ _ _ _ Hp))).
Qed.

Lemma access_queried b t :
  has_access V b t ↔ ∃ k available,
    Components.get_components k (registered instance t) b (componentRegistry (state w)) = Ok available ∧
    available ≠ ∅.
Proof.
  split.
  - intros Ha. destruct (class_at V t) as [k|] eqn:Hk.
    + destruct (ask_components Hp (fits_registered instance _ _ _ Hk) b) as (av & E & Hno & _).
      exists k, av. split; [done|]. intros ->. by apply Hno.
    + destruct Ha as (n & m & Hm). unfold right_at in Hm. unfold class_at in Hk.
      apply fmap_None in Hk. by rewrite Hk in Hm.
  - intros (k & av & E & Hav). destruct (ask_type Hp k (registered instance t)) as [[Hf _]|[_ [msg E']]].
    + destruct (ask_components Hp Hf b) as (av' & Eav & _ & Hyes). rewrite E in Eav.
      injection Eav as ->. by apply Hyes.
    + unfold Components.get_components in E. by rewrite E' in E.
Qed.
End Answers.

Lemma covers_bits sig record :
  covers sig record = true ↔
  ∀ t, N.testbit (signature record) t = true → N.testbit sig t = true.
Proof.
  unfold covers. rewrite N.eqb_eq. split.
  - intros E t. rewrite <-E, N.land_spec. by intros [? _]%andb_prop.
  - intros Hb. apply N.bits_inj. intros t. rewrite N.land_spec.
    destruct (N.testbit (signature record) t) eqn:Et; [|by rewrite andb_false_r].
    by rewrite (Hb t Et).
Qed.

Lemma signature_queried w V G L b t :
  coordinated w V G L → b ∈ active (behaviorRegistry (state w)) →
  N.testbit (behavior_signature b w) t = true ↔ has_access V b t.
Proof.
  intros Hc Hb. destruct (proj2 (en_signatures _ (co_entries _ _ _ _ Hc) b) Hb) as [sig Hsig].
  rewrite (signature_entry _ _ _ Hsig). by apply (co_sigs _ _ _ _ Hc).
Qed.

Lemma behavior_exists_iff w b :
  behavior_exists (behaviorRegistry (state w)) b = true ↔ b ∈ active (behaviorRegistry (state w)).
Proof. unfold behavior_exists. by rewrite bool_decide_eq_true. Qed.
End Queries.

(** ** Refusals *)

Section Refusals.
Context {K : Type} `{Countable K} {El : K → Type}.
Context {Y : Type} `{Countable Y} {D : Type}.
Abbreviation World := (Coordinator.World El Y D).
Implicit Types (w : World).

Definition refuses {A} (m : stm World A) w : Prop := ∃ msg, m w = (throw logic_error msg, w).

Lemma refuses_bind {A B} (m : stm World A) (f : A → stm World B) w :
  refuses m w → refuses (m ≫= f) w.
Proof. intros [msg E]. exists msg. unfold mbind, stm_bind. by rewrite E. Qed.

Lemma refuses_owner {A} caller (f : unit → stm World A) w :
  refuses (f tt) w → refuses (ensure_owner_thread caller ≫= f) w.
Proof.
  intros Hf. destruct (negb (caller =? ownerThread w)) eqn:E.
  - apply refuses_bind. eexists. unfold ensure_owner_thread, sreject_if, slift, reject_if. by rewrite E.
  - destruct Hf as [msg Hf]. exists msg. rewrite (stm_bind_eq _ _ w tt w); [done|].
    unfold ensure_owner_thread, sreject_if, slift, reject_if. by rewrite E.
Qed.
End Refusals.

(** ** Properties *)

Section Properties.
Context {K : Type} `{Countable K} {El : K → Type}.
Context {Y : Type} `{Countable Y} {D : Type}.
Abbreviation World := (Coordinator.World El Y D).
Implicit Types (w : World) (k : K) (type : ComponentType).
Context (host : Y → program (El := El) (Y := Y) (D := D)).
Abbreviation used := (used host).
Abbreviation roomy := (roomy host).



(** Nothing changes the topology while systems are dispatched, a transaction
    is open or a foreign thread calls: every such operation is refused and
    leaves the world exactly as it is. *)
Theorem topology_frozen caller op w :
  caller ≠ ownerThread w ∨ systemsRunning w = true ∨ dispatching (systemRegistry (state w)) = true ∨
    intentTransactionActive w = true →
  refuses (perform_structural host caller op) w.
Proof.
  intros Hbusy. assert (refuses (World.ensure_structural_mutation_allowed caller) w) as Hg.
  { destruct (guard_spec caller w) as [[_ (Ho & Hr & Hd & Ht)]|[_ [msg E]]]; [|by exists msg].
    unfold dispatching in Hbusy. rewrite Hd, Hr, Ht in Hbusy. naive_solver. }
  destruct op; cbn [perform_structural]; unfold ignoring;
    first [ by apply refuses_bind | by apply refuses_bind, refuses_bind
          | apply refuses_bind, refuses_owner, refuses_bind, Hg
          | apply refuses_owner, refuses_bind, Hg ].
Qed.

(** C12. Running the systems of a phase, whatever their code does, leaves the
    behaviours, the systems and their members, every right and every component's
    handle as they were. *)
Theorem run_systems_keeps_topology instance thread steps caller frame now ph :
  roomy steps (new_World instance thread) →
  let w := used instance thread steps in
  let w' := (run_phase host caller frame now ph w).2 in
  systemRegistry (state w') = systemRegistry (state w) ∧
  behaviorRegistry (state w') = behaviorRegistry (state w) ∧
  (∀ b, behavior_access_revision b w' = ((behavior_access_revision b w).1, w')) ∧
  (∀ wanted k type b n, can_access_named wanted k type b n (componentRegistry (state w')) =
     can_access_named wanted k type b n (componentRegistry (state w))) ∧
  ∀ k type n h, component_slot k type n (componentRegistry (state w')) = Ok h ↔
    component_slot k type n (componentRegistry (state w)) = Ok h.
Proof.
  intros Hroom w w'.
  destruct (used_coordinated host instance thread steps Hroom) as (V & G & L & Hc & _).
  destruct (phase_undisturbed host caller frame now ph _ _ _ _ Hc) as [Hsys [Hf Hq]].
  fold w w' in Hsys, Hf, Hq. pose proof (co_parts _ _ _ _ Hc) as Hp. fold w in Hp.
  destruct (Hq _ _ _ _ Hp) as (V' & L' & Hp' & [Hk Hh Hr] & _). destruct Hf as [Ei Eb Es Er _ _ _ _].
  assert (∀ k type, fits (instanceId (state w')) V' k type ↔ fits (instanceId (state w)) V k type) as Hfits
    by (intros; unfold fits; by rewrite Ei, Hk).
  split_and!; [done|done| | |].
  - intros b. unfold behavior_access_revision, require_behavior, mbind, stm_bind, query, sreject_if,
      slift, reject_if. rewrite Eb. by destruct (negb _); cbn; rewrite ?Er.
  - intros wanted k type b n. destruct (named_access Hp wanted k type b n) as [H1 H2].
    destruct (named_access Hp' wanted k type b n) as [H1' H2'].
    destruct (fits_decides (instanceId (state w)) V k type) as [Hfit|Hno].
    + rewrite (H1 Hfit), Hr in *. by rewrite H1' by by apply Hfits.
    + rewrite (H2 Hno). apply H2'. by rewrite Hfits.
  - intros k type n h. by rewrite (named_slot Hp), (named_slot Hp'), Hfits, Hh.
Qed.

(** C11. A behaviour's access revision tells whether it may use what it knew of
    its rights: it never decreases, and while it is the same the behaviour has
    the rights it had, to the same components. *)
Theorem access_revision_tracks_rights instance thread steps steps' b r r' :
  roomy (steps ++ steps') (new_World instance thread) →
  let w := used instance thread steps in
  let w' := used instance thread (steps ++ steps') in
  (behavior_access_revision b w).1 = Ok r → (behavior_access_revision b w').1 = Ok r' →
  r <= r' ∧
  (r' = r → ∀ k type n,
     (∀ wanted, can_access_named wanted k type b n (componentRegistry (state w')) =
        can_access_named wanted k type b n (componentRegistry (state w))) ∧
     ∀ wanted h, can_access_named wanted k type b n (componentRegistry (state w)) = Ok true →
       component_slot k type n (componentRegistry (state w)) = Ok h →
       component_slot k type n (componentRegistry (state w')) = Ok h).
Proof.
  intros Hroom w w' Hb Hb'. unfold w, w', Client.used in *. rewrite run_app in *.
  apply roomy_app in Hroom as [Hroom Hroom'].
  destruct (used_coordinated host instance thread steps Hroom) as (V & G & L & Hc & _).
  unfold Client.used in Hc. set (w0 := run host steps (new_World instance thread)) in *.
  destruct (run_coordinated host steps' _ _ _ _ Hc Hroom') as (V' & G' & L' & Hc' & [_ Ht] & [Ei _ _ _]).
  set (w1 := run host steps' w0) in *.
  apply revision_known in Hb, Hb'. specialize (Ht b r' Hb').
  pose proof (en_last _ (co_entries _ _ _ _ Hc) b r Hb) as Hle.
  split; [destruct Ht as [?|[Heq _]]; [lia|rewrite Hb in Heq; injection Heq as ->; lia]|].
  intros -> k type n. destruct Ht as [?|[_ Hreach]]; [lia|].
  destruct (Hreach (type_id type) n) as [Hr Hh].
  pose proof (co_parts _ _ _ _ Hc) as Hp. pose proof (co_parts _ _ _ _ Hc') as Hp'.
  assert (is_Some (right_at V (type_id type) b n) →
    fits (instanceId (state w1)) V' k type ↔ fits (instanceId (state w0)) V k type) as Hfits.
  { intros Hs. unfold fits. destruct (Hh Hs) as [_ ->]. by rewrite Ei. }
  assert (∀ wanted, can_access_named wanted k type b n (componentRegistry (state w0)) = Ok true →
    fits (instanceId (state w0)) V k type ∧ is_Some (right_at V (type_id type) b n)) as Hcan.
  { intros wanted. destruct (named_access Hp wanted k type b n) as [H1 H2].
    destruct (fits_decides (instanceId (state w0)) V k type) as [Hf|Hno]; [|by rewrite (H2 Hno)].
    rewrite (H1 Hf). destruct (right_at V (type_id type) b n); [by eauto|done]. }
  split.
  - intros wanted. destruct (named_access Hp wanted k type b n) as [H1 H2].
    destruct (named_access Hp' wanted k type b n) as [H1' H2']. rewrite Hr in H1'.
    destruct (right_at V (type_id type) b n) as [m|] eqn:Hm.
    + specialize (Hfits ltac:(by eexists)).
      destruct (fits_decides (instanceId (state w0)) V k type) as [Hf|Hno].
      * by rewrite (H1 Hf), H1' by by apply Hfits.
      * rewrite (H2 Hno). apply H2'. by rewrite Hfits.
    + destruct (fits_decides (instanceId (state w0)) V k type) as [Hf|Hno];
        destruct (fits_decides (instanceId (state w1)) V' k type) as [Hf'|Hno'];
        rewrite ?(H1 Hf), ?(H2 Hno), ?(H1' Hf'), ?(H2' Hno'); done.
  - intros wanted h Hyes. destruct (Hcan wanted Hyes) as [Hf Hs].
    rewrite (named_slot Hp), (named_slot Hp'), (Hfits Hs). by destruct (Hh Hs) as [-> _].
Qed.

(** The systems of a phase run in the order they were registered, once each,
    until one throws: the ones before it ran to their end, the ones after it not
    at all, and the progress reported names the systems done and the failing
    one. *)
Theorem systems_run_in_order instance thread steps frame now ph p :
  roomy steps (new_World instance thread) →
  let w := used instance thread steps in
  let '(x, s) := World.run_systems thread (code_of host thread) frame now ph (w, p) in
  systemsRunning w = false ∧ ran_systems (code_of host thread) frame now ph w x s.
Proof.
  intros Hroom w.
  destruct (run_coordinated host steps _ _ _ _ (new_world_coordinated instance thread) Hroom)
    as (V & G & L & Hc & _ & [_ Hrun _ Howner]). fold (used instance thread steps) in *. fold w in Hrun, Howner.
  assert (∀ y frame now, well_behaved quiet (run_system (code_of host thread y) frame now)) as Hok
    by (intros; apply script_well_behaved).
  pose proof (run_systems_wp thread (code_of host thread) Hok frame now ph w p (co_calm _ _ _ _ Hc)) as Hwp.
  unfold wp in Hwp.
  destruct (World.run_systems thread (code_of host thread) frame now ph (w, p)) as [x s].
  cbn [fst snd] in Hwp. destruct Hwp as [_ [(msg & _ & _ & [Hne|Hr])|(_ & Hr & Hran)]].
  - by destruct Hne.
  - by rewrite Hr in Hrun.
  - done.
Qed.
End Properties.

(** ** A home: one lamp, one behaviour, one system that dims the lamp *)

Definition lamp_handle : handle := MkHandle 7 0 1.
Definition dimmer_behavior : BehaviorId := MkHandle 7 0 1.

Definition idle : program (El := sample_type) (Y := bool) (D := N) :=
  MkProgram (λ _, Done (Ok tt)) (λ _, Done (Ok tt)) (λ _ _, Done (Ok tt)).

Definition dim : plain (El := sample_type) (Y := bool) IntentId :=
  CreateIntent dimmer_behavior true brightness_type lamp_handle (MkIntentLifetime Persistent 0)
    (3 : sample_type true) Medium "dim".

Definition home (y : bool) : program (El := sample_type) (Y := bool) (D := N) :=
  if y then MkProgram (on_added idle) (on_removed idle)
    (λ _ _, Call dim (λ x, Done (_ ← x; Ok tt)))
  else idle.

Definition furnish : list (N * operation (El := sample_type) (Y := bool) (D := N)) :=
  [(1, Structural (RegisterComponent true "brightness" 1 (Some (λ n, Ok (VUnsigned n)))
         (Some as_unsigned_integer)));
   (1, Structural (AddComponent true brightness_type "lamp" (5 : sample_type true)));
   (1, Structural CreateBehavior);
   (1, Structural (GrantAccess true brightness_type dimmer_behavior "lamp" ReadWrite))].

Definition home_steps : list (N * operation (El := sample_type) (Y := bool) (D := N)) :=
  furnish ++
  [(1, Structural (RegisterSystem true 1 DecisionPhase "dimmer" 1 (Done (Ok tt))));
   (1, RunSystems 1 0 DecisionPhase)].

Lemma home_roomy : roomy home home_steps (new_World 7 1).
Proof. vm_compute. repeat split. Qed.

Definition home_intent : IntentId :=
  hd lamp_handle (live_intent_ids (intentRegistry (state (used home 7 1 home_steps)))).



Lemma topology_frozen_witness :
  let w := set_running true (used home 7 1 home_steps) in
  refuses (perform_structural home 1 CreateBehavior) w.
Proof. apply (topology_frozen home 1 CreateBehavior). right; left; reflexivity. Defined.

Lemma run_systems_keeps_topology_witness :
  let w := used home 7 1 home_steps in
  let w' := (run_phase home 1 2 0 DecisionPhase w).2 in
  systemRegistry (state w') = systemRegistry (state w) ∧
  behaviorRegistry (state w') = behaviorRegistry (state w) ∧
  (∀ b, behavior_access_revision b w' = ((behavior_access_revision b w).1, w')) ∧
  (∀ wanted k type b n, can_access_named wanted k type b n (componentRegistry (state w')) =
     can_access_named wanted k type b n (componentRegistry (state w))) ∧
  ∀ k type n h, component_slot k type n (componentRegistry (state w')) = Ok h ↔
    component_slot k type n (componentRegistry (state w)) = Ok h.
Proof. apply (run_systems_keeps_topology home 7 1 home_steps 1 2 0 DecisionPhase home_roomy). Defined.

Definition revocation : list (N * operation (El := sample_type) (Y := bool) (D := N)) :=
  [(1, Structural (RevokeAccess true brightness_type dimmer_behavior "lamp"))].

Lemma revocation_roomy : roomy home (home_steps ++ revocation) (new_World 7 1).
Proof. vm_compute. repeat split. Qed.

Lemma access_revision_tracks_rights_witness :
  let w := used home 7 1 home_steps in
  let w' := used home 7 1 (home_steps ++ revocation) in
  ∃ r r', r' ≠ r ∧ r <= r' ∧
  (r' = r → ∀ k type n,
     (∀ wanted, can_access_named wanted k type dimmer_behavior n (componentRegistry (state w')) =
        can_access_named wanted k type dimmer_behavior n (componentRegistry (state w))) ∧
     ∀ wanted h, can_access_named wanted k type dimmer_behavior n (componentRegistry (state w)) = Ok true →
       component_slot k type n (componentRegistry (state w)) = Ok h →
       component_slot k type n (componentRegistry (state w')) = Ok h).
Proof.
  exists 2, 3. split; [done|].
  apply (access_revision_tracks_rights home 7 1 home_steps revocation dimmer_behavior 2 3
    revocation_roomy); vm_compute; reflexivity.
Defined.

Lemma systems_run_in_order_witness :
  let w := used home 7 1 home_steps in
  let '(x, s) := World.run_systems 1 (code_of home 1) 2 0 DecisionPhase (w, MkProgress 0 "") in
  systemsRunning w = false ∧ ran_systems (code_of home 1) 2 0 DecisionPhase w x s.
Proof. apply (systems_run_in_order home 7 1 home_steps 2 0 DecisionPhase (MkProgress 0 "") home_roomy). Defined.
