(* ===== verification/ClientFindings.v ===== *)
(** * Where the world does less than it says

    A public operation without the check of the owner's thread, a destruction
    that stops halfway, and a change of rights that leaves no evidence. *)
From S2P Require Import Prelude OrderedMap Values Effects Ids Hoare Behaviors Intents IntentSpec Components ComponentSpec ComponentRuns Systems Coordinator World CoordinatorSpec CoordinatorTopology CoordinatorAccess CoordinatorRights CoordinatorSetup WorldSpec Client ClientRuns.

Section Findings.
Context {K : Type} `{Countable K} {El : K → Type}.
Context {Y : Type} `{Countable Y} {D : Type}.
Abbreviation World := (Coordinator.World El Y D).
Implicit Types (w : World) (V : gmap N (@type_view K El)) (G : list (N * handle))
  (L : gmap handle (@component_intent (sigT El))).
Context (host : Y → program (El := El) (Y := Y) (D := D)).

Definition creates_intent {A} (op : plain (El := El) (Y := Y) A) : bool :=
  match op with CreateIntent _ _ _ _ _ _ _ _ => true | _ => false end.

Definition not_owner {A} : res A := throw logic_error "world used from a non-owner thread".

Lemma foreign_bind {A} caller (f : unit → stm World A) w :
  caller ≠ ownerThread w → (ensure_owner_thread caller ≫= f) w = (not_owner, w).
Proof.
  intros Hne%N.eqb_neq. unfold mbind, stm_bind, ensure_owner_thread, sreject_if, slift, reject_if.
  by rewrite Hne.
Qed.

Lemma bind_not_owner {A B} (m : stm World A) (f : A → stm World B) w :
  m w = (not_owner, w) → (m ≫= f) w = (not_owner, w).
Proof. intros E. unfold mbind, stm_bind. by rewrite E. Qed.

(** Every operation a program may call refuses a foreign thread before it
    does anything, but for the creation of intents, which serves any thread as
    it serves the owner. *)
Theorem foreign_threads_refused_but_for_intents caller w :
  caller ≠ ownerThread w →
  (∀ A (op : plain A), creates_intent op = false → perform_plain caller op w = (not_owner, w)) ∧
  (∀ A (op : plain A), creates_intent op = true →
     perform_plain caller op w = perform_plain (ownerThread w) op w).
Proof.
  intros Hne. split; intros A op; destruct op; try done; intros _; cbn [perform_plain];
    try by apply foreign_bind.
  unfold World.update_component, current_component.
  by apply bind_not_owner, bind_not_owner, foreign_bind.
Qed.

(** ** A destruction that stops halfway *)

Definition full_evidence {A} : res A :=
  throw length_error "intent lifecycle evidence capacity exceeded".

Lemma destroy_full id rec (r : @IntentRegistry (sigT El)) L :
  IntentSpec.registry_ok r L → transactionActive r = false → L !! id = Some rec →
  maximumBufferedLifecycleRecords <= len (lifecycleRecords r) → destroy id r = (full_evidence, r).
Proof.
  intros Hr Ht Hid Hfull%N.leb_le. unfold destroy.
  rewrite (stm_bind_eq _ _ r tt r) by (unfold ensure_no_active_transaction; by rewrite Ht).
  rewrite (stm_bind_eq _ _ r r r) by done.
  rewrite (stm_bind_eq _ _ r (base rec) r) by (unfold slift; by rewrite (intent_ok _ _ _ Hr), Hid).
  rewrite (stm_bind_eq _ _ r (target_type (intent_target (base rec))) r).
  2:{ unfold slift. rewrite (ix_types _ _ _ (rg_indexes _ _ Hr)), lookup_fmap, Hid. done. }
  unfold push_lifecycle, mbind, stm_bind, sreject_if, slift, reject_if. by rewrite Hfull.
Qed.

Lemma destroy_owned_full b id ids (r : @IntentRegistry (sigT El)) L :
  IntentSpec.registry_ok r L → transactionActive r = false → intents_owned_by b r = id :: ids →
  maximumBufferedLifecycleRecords <= len (lifecycleRecords r) →
  destroy_owned_by b r = (full_evidence, r).
Proof.
  intros Hr Ht Hids Hfull. unfold destroy_owned_by, intents_owned_by in *.
  rewrite (stm_bind_eq _ _ r tt r) by (unfold ensure_no_active_transaction; by rewrite Ht).
  rewrite (stm_bind_eq _ _ r r r) by done.
  destruct (byOwner (tables r) !! b) as [owned|] eqn:Eo; [|done].
  assert (id ∈ ordered owned) as Hin by (rewrite Hids; left).
  apply elem_of_ordered, (ix_owner _ _ _ (rg_indexes _ _ Hr) _ _ Eo) in Hin as (rec & Hid & _).
  rewrite Hids. unfold mbind, stm_bind. cbn [sfor]. unfold mbind, stm_bind.
  by rewrite (destroy_full id rec r L Hr Ht Hid Hfull).
Qed.

Lemma remove_without_systems code b w :
  calm w → registrationOrder (systemRegistry (state w)) = [] →
  captured (Systems.remove_behavior code b) w = (Ok None, w).
Proof.
  intros [_ Hd] Ho. destruct w as [[inst comps bs ints [ss o d] sigs revs lst] ? ? ? ? ? ? ? ?].
  cbn in Hd, Ho. subst. done.
Qed.

(** What [destroy_behavior] leaves when it stops at the intents. *)
Definition half_destroyed b w : World :=
  forgotten b (set_state (set_components (Components.remove_behavior b
    (componentRegistry (state w))) (state w)) w).

(** When the buffer of intent evidence is full, destroying a behaviour that
    owns intents fails halfway: the behaviour still exists but has no access
    revision any more, and its intents live on although it has lost every right
    that backed them. *)
Theorem destruction_stops_halfway caller b w :
  (∃ V G L, coordinated w V G L) → at_rest caller w → evidence_full w →
  registrationOrder (systemRegistry (state w)) = [] →
  behavior_exists (behaviorRegistry (state w)) b = true →
  intents_owned_by b (intentRegistry (state w)) ≠ [] →
  let '(x, w') := World.destroy_behavior caller (code_of host caller) b w in
  x = full_evidence ∧ behavior_exists (behaviorRegistry (state w')) b = true ∧
  (behavior_access_revision b w').1 = throw logic_error "behavior access revision not found" ∧
  intents_owned_by b (intentRegistry (state w')) = intents_owned_by b (intentRegistry (state w)) ∧
  ∀ wanted k type n,
    can_access_named wanted k type b n (componentRegistry (state w')) = Ok false.
Proof.
  intros (V & G & L & Hc) Hrest Hfull Ho Hb Hids. pose proof (co_parts _ _ _ _ Hc) as Hp.
  destruct (intents_owned_by b (intentRegistry (state w))) as [|id ids] eqn:Eids; [done|].
  assert (Coordinator.destroy_behavior (code_of host caller) b w = (full_evidence, half_destroyed b w))
    as Hdestroy.
  { unfold Coordinator.destroy_behavior.
    rewrite (stm_bind_eq _ _ w tt w) by
      (unfold require_behavior, sreject_if, slift, reject_if; by rewrite Hb).
    rewrite (stm_bind_eq _ _ w tt (set_state (set_components (Components.remove_behavior b
      (componentRegistry (state w))) (state w)) w)) by done.
    rewrite (stm_bind_eq _ _ _ tt (half_destroyed b w)) by done.
    rewrite (stm_bind_eq _ _ _ None (half_destroyed b w)).
    2:{ apply remove_without_systems; [exact (co_calm _ _ _ _ Hc)|exact Ho]. }
    unfold mbind, stm_bind, on_intents, on_state, zoom.
    change (intentRegistry (state (half_destroyed b w))) with (intentRegistry (state w)).
    rewrite (destroy_owned_full b id ids _ L (po_intents _ _ _ _ _ Hp) (po_closed _ _ _ _ _ Hp) Eids Hfull).
    done. }
  assert (World.destroy_behavior caller (code_of host caller) b w = (full_evidence, half_destroyed b w)) as ->.
  { unfold World.destroy_behavior. destruct Hrest as (Hown & Hr & Hd & Ht).
    rewrite (stm_bind_eq _ _ w tt w) by
      (unfold ensure_owner_thread, sreject_if, slift, reject_if; by rewrite Hown, N.eqb_refl).
    destruct (guard_spec caller w) as [[Eg _]|[Hno _]]; [|by destruct Hno].
    rewrite (stm_bind_eq _ _ w tt w) by exact Eg. rewrite (stm_bind_eq _ _ w w w) by done.
    unfold mbind, stm_bind, stry. rewrite Hdestroy. cbn. by rewrite Hb. }
  split_and!; [done|exact Hb| |exact Eids|].
  - unfold behavior_access_revision, require_behavior, mbind, stm_bind, query, sreject_if, slift,
      reject_if. cbn. rewrite Hb. cbn. by rewrite lookup_delete_eq.
  - intros wanted k type n.
    assert (parts_ok (λ rec, intent_owner (base rec) = b) (half_destroyed b w) (forget b <$> V) G L) as Hp'.
    { eapply parts_ok_same; [|by eapply parts_forget]. done. }
    destruct (named_access Hp' wanted k type b n) as [H1 H2].
    destruct (fits_decides (instanceId (state (half_destroyed b w))) (forget b <$> V) k type) as [Hf|Hno].
    + by rewrite (H1 Hf), right_at_forget, decide_True.
    + by apply H2.
Qed.
End Findings.

(** ** At home *)

(** The dimmer's intent, created from outside. *)
Definition dim_steps : list (N * operation (El := sample_type) (Y := bool) (D := N)) :=
  furnish ++ [(1, Plain dim)].

Lemma foreign_threads_refused_but_for_intents_witness :
  let w := used home 7 1 furnish in
  2 ≠ ownerThread w ∧
  perform_plain 2 (DestroyIntent home_intent) w = (not_owner, w) ∧
  perform_plain 2 dim w = perform_plain 1 dim w.
Proof.
  pose proof (foreign_threads_refused_but_for_intents 2 (used home 7 1 furnish)) as [H1 H2];
    [vm_compute; discriminate|].
  split; [vm_compute; discriminate|]. split; [by apply H1|exact (H2 _ dim eq_refl)].
Defined.

Lemma dim_roomy : roomy home dim_steps (new_World 7 1).
Proof. vm_compute. repeat split. Qed.

(** A world with a full buffer. *)
Definition filled (w : World sample_type bool N) : World sample_type bool N :=
  set_state (set_intents (set_lifecycle
    (replicate (N.to_nat maximumBufferedLifecycleRecords)
      (MkLifecycle true (MkIntent home_intent dimmer_behavior (MkComponentTarget 0 lamp_handle)
         (MkIntentLifetime Persistent 0) Medium 1 VNull "dim")))
    (intentRegistry (state w))) (state w)) w.

Lemma filled_coordinated w V G L : coordinated w V G L → coordinated (filled w) V G L.
Proof.
  intros [Hp [H1 H2 H3] Hsig Hm Hcalm]. split; [|by split|done|done|done].
  apply (parts_intents _ _ _ _ L); [done| |done|by left]. by destruct (po_intents _ _ _ _ _ Hp).
Qed.

Lemma filled_full w : evidence_full (filled w).
Proof.
  unfold evidence_full, lifecycle, len. cbn [filled state set_state set_intents intentRegistry
    lifecycleRecords set_lifecycle]. rewrite length_replicate. by rewrite N2Nat.id.
Qed.

(** The rest of the world is as it was. *)
Lemma filled_rest caller b w :
  at_rest caller w → registrationOrder (systemRegistry (state w)) = [] →
  behavior_exists (behaviorRegistry (state w)) b = true →
  intents_owned_by b (intentRegistry (state w)) ≠ [] →
  at_rest caller (filled w) ∧ registrationOrder (systemRegistry (state (filled w))) = [] ∧
  behavior_exists (behaviorRegistry (state (filled w))) b = true ∧
  intents_owned_by b (intentRegistry (state (filled w))) ≠ [].
Proof. done. Qed.

Lemma dimmed_rest :
  let w := used home 7 1 dim_steps in
  at_rest 1 w ∧ registrationOrder (systemRegistry (state w)) = [] ∧
  behavior_exists (behaviorRegistry (state w)) dimmer_behavior = true ∧
  intents_owned_by dimmer_behavior (intentRegistry (state w)) ≠ [].
Proof. vm_compute. repeat split. discriminate. Qed.

Lemma destruction_stops_halfway_witness :
  let w := filled (used home 7 1 dim_steps) in
  let '(x, w') := World.destroy_behavior 1 (code_of home 1) dimmer_behavior w in
  x = full_evidence ∧ behavior_exists (behaviorRegistry (state w')) dimmer_behavior = true ∧
  (behavior_access_revision dimmer_behavior w').1 =
    throw logic_error "behavior access revision not found" ∧
  intents_owned_by dimmer_behavior (intentRegistry (state w')) =
    intents_owned_by dimmer_behavior (intentRegistry (state w)) ∧
  ∀ wanted k type n,
    can_access_named wanted k type dimmer_behavior n (componentRegistry (state w')) = Ok false.
Proof.
  destruct dimmed_rest as (H1 & H2 & H3 & H4).
  destruct (filled_rest 1 dimmer_behavior _ H1 H2 H3 H4) as (F1 & F2 & F3 & F4).
  apply (destruction_stops_halfway home 1 dimmer_behavior (filled (used home 7 1 dim_steps)));
    [|exact F1|apply filled_full|exact F2|exact F3|exact F4].
  destruct (used_coordinated home 7 1 dim_steps dim_roomy) as (V & G & L & Hc & _).
  exists V, G, L. by apply filled_coordinated.
Defined.

(** A system that refuses its behaviours. *)
Definition grumpy (y : bool) : program (El := sample_type) (Y := bool) (D := N) :=
  MkProgram (λ _, Done (throw runtime_error "go away")) (on_removed idle) (on_run idle).

Definition unwelcome : list (N * operation (El := sample_type) (Y := bool) (D := N)) :=
  [(1, Structural (RegisterComponent true "brightness" 1 (Some (λ n, Ok (VUnsigned n)))
         (Some as_unsigned_integer)));
   (1, Structural (AddComponent true brightness_type "lamp" (5 : sample_type true)));
   (1, Structural CreateBehavior);
   (1, Structural (RegisterSystem true 1 DecisionPhase "grumpy" 1 (Done (Ok tt))))].

(** The exception of a membership callback hides a change of rights: the
    right is granted and stays granted, but no topology evidence of it is
    recorded. *)
Theorem thrown_grant_leaves_no_evidence :
  let w := used grumpy 7 1 unwelcome in
  let granted := perform grumpy 1
    (Structural (GrantAccess true brightness_type dimmer_behavior "lamp" Read)) w in
  let rights w := can_access_named Mode_r true brightness_type dimmer_behavior "lamp"
    (componentRegistry (state w)) in
  (rights w, rights granted.2) = (Ok false, Ok true) ∧
  granted.1 = throw runtime_error "go away" ∧
  topologyMutations granted.2 = topologyMutations w.
Proof. vm_compute. repeat split. Qed.
