(* ===== verification/WorldBounds.v ===== *)
(** * Counters and buffers of the world stay within their bounds

    For every operation, in whatever state and with whatever programs: access
    revisions and intent sequences never pass 2^64 - 1, and no buffer of
    evidence passes its capacity. *)
From S2P Require Import Prelude OrderedMap Values Effects Ids Hoare Behaviors Intents IntentSpec Components ComponentSpec ComponentRuns Systems Coordinator World WorldSpec Client ClientRuns.

(** ** Constructs *)

Section Constructs.
Context {S : Type} (R : S → S → Prop) `{!PreOrder R}.

Lemma keeps_captured {A} (m : stm S A) : keeps R m → keeps R (captured m).
Proof. intros Hm s. specialize (Hm s). unfold captured. by destruct (m s) as [[a|e] s']. Qed.

Lemma keeps_rethrow e : keeps R (rethrow e).
Proof. intros s. unfold rethrow. by destruct e. Qed.

Lemma keeps_for_capturing {A} (f : A → stm S (option exn)) l e :
  (∀ x, keeps R (f x)) → keeps R (for_capturing f l e).
Proof.
  intros Hf. revert e. induction l as [|x l IH]; intros e; cbn; [apply keeps_rethrow|].
  apply keeps_bind; [done|apply Hf|intros e'; apply IH].
Qed.

Lemma keeps_sreject c k msg : keeps R (sreject_if c k msg).
Proof. intros s. unfold sreject_if, slift. cbn. reflexivity. Qed.
End Constructs.

#[export] Hint Resolve keeps_captured keeps_rethrow keeps_for_capturing keeps_sreject : keeps.

(** ** Intents *)

Section Intents.
Context {C : Type}.
Implicit Types (r : @IntentRegistry C).

Definition intents_bounded r : Prop :=
  len (lifecycleRecords r) <= maximumBufferedLifecycleRecords ∧ lastSequence (tables r) <= u64_max.
Abbreviation fine := (keeps (within intents_bounded)).

Lemma fine_modify f : (∀ r, lifecycleRecords (f r) = lifecycleRecords r ∧
  lastSequence (tables (f r)) = lastSequence (tables r)) → fine (smodify f).
Proof. intros Hf r [H1 H2]. cbn. destruct (Hf r) as [E1 E2]. split; congruence. Qed.

Lemma fine_push created i : fine (push_lifecycle created i).
Proof.
  intros r [H1 H2]. unfold push_lifecycle, mbind, stm_bind, sreject_if, slift, reject_if.
  destruct (N.leb_spec maximumBufferedLifecycleRecords (len (lifecycleRecords r))) as [Hl|Hl]; [done|].
  split; [|done]. cbn. rewrite len_app, len_cons, len_nil. lia.
Qed.

Lemma fine_no_transaction : fine ensure_no_active_transaction.
Proof. by intros r. Qed.

Lemma fine_sequence : fine next_intent_sequence.
Proof.
  intros r [H1 H2]. unfold next_intent_sequence, mbind, stm_bind, sget, sreject_if, slift, reject_if.
  destruct (N.eqb_spec (lastSequence (tables r)) u64_max) as [Hl|Hl]; [done|].
  split; [done|]. cbn. lia.
Qed.

Lemma fine_storage_for type class : fine (storage_for_type type class).
Proof.
  unfold storage_for_type. keep_steps; by apply fine_modify.
Qed.

Lemma fine_next_id : fine next_intent_id.
Proof.
  unfold next_intent_id. keep_steps; by apply fine_modify.
Qed.

Lemma fine_modify_storage type f : fine (modify_storage type f).
Proof. unfold modify_storage. keep_steps; by apply fine_modify. Qed.

Lemma fine_retire id : fine (retire_intent_id id).
Proof. unfold retire_intent_id. keep_steps; by apply fine_modify. Qed.

#[local] Hint Resolve fine_push fine_no_transaction fine_sequence fine_storage_for fine_next_id
  fine_modify_storage fine_retire : keeps.

Lemma erase_sequence i (t : Tables) : lastSequence (erase_from_indexes i t) = lastSequence t.
Proof. unfold erase_from_indexes. by destruct (bool_decide _). Qed.

Lemma fine_destroy id : fine (destroy id).
Proof.
  unfold destroy. keep_steps; apply fine_modify; intros r;
    first [done|split; [done|apply erase_sequence]].
Qed.
#[local] Hint Resolve fine_destroy keeps_for : keeps.

Lemma fine_destroy_owned b : fine (destroy_owned_by b).
Proof. unfold destroy_owned_by. keep_steps; by apply fine_modify. Qed.
#[local] Hint Resolve fine_destroy_owned : keeps.

Lemma fine_pool b : fine (create_behavior_pool b).
Proof. unfold create_behavior_pool. keep_steps; by apply fine_modify. Qed.

Lemma fine_clear : fine clear_lifecycle_records.
Proof. unfold clear_lifecycle_records. keep_steps; intros r [_ H2]; by split. Qed.

(** The same with the flags of a creation at hand. *)
Definition flagged_bounded (s : @IntentRegistry C * create_flags) : Prop := intents_bounded s.1.
Abbreviation fine_with := (keeps (within flagged_bounded)).

Lemma fine_with_registry {A} (m : stm _ A) : fine m → fine_with (with_registry m).
Proof. intros Hm [r f] Hr. specialize (Hm r Hr). unfold with_registry. cbn. by destruct (m r). Qed.

Lemma fine_set_flags f : fine_with (set_flags f).
Proof. intros [r f'] Hr. exact Hr. Qed.
#[local] Hint Resolve fine_with_registry fine_set_flags : keeps.

Lemma fine_index address rec : fine_with (index_intent address rec).
Proof. unfold index_intent. keep_steps; by apply fine_with_registry, fine_modify. Qed.

Lemma fine_index_or_undo address rec : fine (index_or_undo address rec).
Proof.
  intros r Hr. pose proof (fine_index address rec (r, MkCreateFlags false false false) Hr) as Hi.
  unfold index_or_undo. destruct (index_intent address rec _) as [[id|e] [r' f]]; [exact Hi|].
  destruct Hi as [H1 H2]. cbn [fst snd] in *. unfold undo_create, release_intent_id. split; [done|].
  cbn [tables set_objects set_tables].
  by destruct (ownerIndexed f), (bool_decide _), (typeIndexed f); cbn; case_match.
Qed.
#[local] Hint Resolve fine_index_or_undo : keeps.

Lemma fine_create owner type class slot lifetime v priority encoded name :
  fine (create owner type class slot lifetime v priority encoded name).
Proof. unfold create, create_impl. keep_steps. Qed.
End Intents.
#[export] Hint Resolve fine_destroy fine_destroy_owned fine_pool fine_clear fine_create keeps_for : keeps.

(** ** Systems *)

Section Systems.
Context {Y W : Type} `{Countable Y} `{!SystemHost Y W}.
Context (R : W → W → Prop) `{!PreOrder R}.
Hypothesis R_systems : ∀ r w, R w (host_set_systems r w).
Context (code : Y → SystemCode W).
Hypothesis added_ok : ∀ y b, keeps R (on_behavior_added (code y) b).
Hypothesis removed_ok : ∀ y b, keeps R (on_behavior_removed (code y) b).

Lemma keeps_host {A} (m : stm (SystemRegistry Y) A) : keeps R (on_host m).
Proof. intros w. unfold on_host, zoom. destruct (m _). apply R_systems. Qed.

Lemma keeps_put type record : keeps R (put_record type record).
Proof. apply keeps_host. Qed.

Lemma keeps_allowed : keeps R Systems.ensure_structural_mutation_allowed.
Proof. intros w. unfold Systems.ensure_structural_mutation_allowed, sreject_if, slift. cbn. reflexivity. Qed.

Lemma keeps_guarded {A} (m : stm W A) : keeps R m → keeps R (guarded m).
Proof.
  intros Hm w. unfold guarded.
  pose proof (Hm (host_set_systems (set_depth (dispatchDepth (host_systems w) + 1) (host_systems w)) w))
    as Hw. destruct (m _) as [x w']. cbn in Hw |- *. etransitivity; [apply R_systems|].
  etransitivity; [exact Hw|apply R_systems].
Qed.
#[local] Hint Resolve keeps_put keeps_allowed keeps_host keeps_guarded added_ok removed_ok : keeps.

Lemma keeps_update_behavior b sig : keeps R (Systems.update_behavior code b sig).
Proof.
  unfold Systems.update_behavior, admit_behavior, dismiss_behavior. keep_steps.
  apply keeps_guarded. keep_steps. apply keeps_for_capturing; [done|]. intros y. keep_steps.
Qed.

Lemma keeps_remove_behavior b : keeps R (Systems.remove_behavior code b).
Proof.
  unfold Systems.remove_behavior, dismiss_behavior. keep_steps.
  apply keeps_guarded. keep_steps. apply keeps_for_capturing; [done|]. intros y. keep_steps.
Qed.

Lemma keeps_register_system y sig ph name ver construct :
  keeps R construct → keeps R (Systems.register_system y sig ph name ver construct).
Proof. intros Hc. unfold Systems.register_system. keep_steps. Qed.

Lemma keeps_destroy_system y : keeps R (Systems.destroy_system y).
Proof. unfold Systems.destroy_system. keep_steps. Qed.

Lemma keeps_set_system_signature y sig : keeps R (Systems.set_system_signature y sig).
Proof. unfold Systems.set_system_signature. keep_steps. Qed.
End Systems.

(** ** The world *)

Section World.
Context {K : Type} `{Countable K} {El : K → Type}.
Context {Y : Type} `{Countable Y} {D : Type}.
Abbreviation World := (Coordinator.World El Y D).
Implicit Types (w : World).

Record bounded w : Prop := {
  bd_intents : intents_bounded (intentRegistry (state w));
  bd_revision : lastBehaviorAccessRevision (state w) <= u64_max;
  bd_topology : len (topologyMutations w) <= maximumBufferedWorldEvidence;
  bd_components : len (componentMutations w) <= maximumBufferedWorldEvidence;
  bd_scripts : len (scriptExecutions w) <= maximumBufferedScriptExecutions
}.
Abbreviation sound := (keeps (within bounded)).

Lemma sound_systems (r : SystemRegistry Y) w : within bounded w (host_set_systems r w).
Proof. by intros []. Qed.

Lemma sound_intents {A} (m : stm _ A) : keeps (within intents_bounded) m → sound (on_intents m).
Proof.
  intros Hm w []. specialize (Hm _ bd_intents0). unfold on_intents, on_state, zoom.
  by destruct (m _).
Qed.

Lemma sound_components {A} (m : stm (ComponentRegistry El) A) : sound (on_components m).
Proof. intros w []. unfold on_components, on_state, zoom. by destruct (m _). Qed.

Lemma sound_behaviors {A} (m : stm BehaviorRegistry A) : sound (on_behaviors m).
Proof. intros w []. unfold on_behaviors, on_state, zoom. by destruct (m _). Qed.

Lemma sound_state f : (∀ s, intentRegistry (f s) = intentRegistry s ∧
  lastBehaviorAccessRevision (f s) = lastBehaviorAccessRevision s) → sound (on_state (smodify f)).
Proof.
  intros Hf w []. destruct (Hf (state w)) as [E1 E2].
  by split; cbn; rewrite ?E1, ?E2.
Qed.

Lemma sound_next_revision : sound next_behavior_access_revision.
Proof.
  intros w []. unfold next_behavior_access_revision, mbind, stm_bind, sget, sreject_if, slift, reject_if.
  destruct (N.eqb_spec (lastBehaviorAccessRevision (state w)) u64_max); [done|].
  split; cbn; try done. lia.
Qed.

Lemma sound_topology key v removed : sound (record_topology key v removed).
Proof.
  intros w []. unfold record_topology, mbind, stm_bind, sget, sreject_if, slift, reject_if.
  destruct (N.leb_spec maximumBufferedWorldEvidence (len (topologyMutations w))); [done|].
  split; cbn; try done. rewrite len_app, len_cons, len_nil. lia.
Qed.

Lemma sound_component_mutation m : sound (record_component_mutation m).
Proof.
  intros w []. unfold record_component_mutation, mbind, stm_bind, sget, sreject_if, slift, reject_if.
  destruct (N.leb_spec maximumBufferedWorldEvidence (len (componentMutations w))); [done|].
  split; cbn; try done. rewrite len_app, len_cons, len_nil. lia.
Qed.

Lemma sound_script caller ev : sound (record_script_execution caller ev).
Proof.
  intros w []. unfold record_script_execution, ensure_owner_thread, mbind, stm_bind, sget, sreject_if,
    slift, reject_if.
  destruct (negb (caller =? ownerThread w)); [done|]. destruct (negb (scriptEvidenceEnabled w)); [done|].
  destruct (N.leb_spec maximumBufferedScriptExecutions (len (scriptExecutions w))); [done|].
  split; cbn; try done. rewrite len_app, len_cons, len_nil. lia.
Qed.
#[local] Hint Resolve sound_intents sound_components sound_behaviors sound_next_revision
  sound_topology sound_component_mutation sound_script : keeps.

Lemma sound_replace k type b name (v : El k) : sound (Coordinator.replace_component k type b name v).
Proof. unfold Coordinator.replace_component. keep_steps. Qed.

Context (caller : N).

Lemma sound_read k type b name : sound (World.read_component caller k type b name).
Proof. unfold World.read_component, owned, Coordinator.read_component, access_component. keep_steps. Qed.
#[local] Hint Resolve sound_replace sound_read : keeps.

Lemma sound_create_intent owner k type slot lifetime (v : El k) priority name :
  sound (Coordinator.create_intent owner k type slot lifetime v priority name).
Proof. unfold Coordinator.create_intent, checked_intent_value. keep_steps. Qed.

Lemma sound_current k type b name : sound (current_component caller k type b name).
Proof. unfold current_component. keep_steps. Qed.

Lemma sound_get k type b : sound (World.get_components caller k type b).
Proof. unfold World.get_components, owned, Coordinator.get_components. keep_steps. Qed.
#[local] Hint Resolve sound_current sound_get : keeps.

Lemma sound_replace_component k type b name (v : El k) :
  sound (World.replace_component caller k type b name v).
Proof. unfold World.replace_component. keep_steps. Qed.
#[local] Hint Resolve sound_replace_component sound_create_intent : keeps.

Lemma sound_clear f : (∀ w, within bounded w (f w)) → sound (smodify f).
Proof. intros Hf w. apply Hf. Qed.

Lemma sound_plain {A} (op : plain A) : sound (perform_plain caller op).
Proof.
  destruct op; cbn [perform_plain]; unfold World.create_intent, World.destroy_intent,
    World.intent_count, Coordinator.intent_count, World.update_component, World.resolve_effect,
    owned_query, clear_component_mutations, clear_topology_mutations, clear_script_execution_evidence,
    owned; keep_steps; apply sound_clear; intros w' []; by split.
Qed.

Lemma sound_run_script {d A} (p : script d A) : sound (run_script caller p).
Proof.
  induction p as [x|B op next IH|next IH|fields p IH|E next IH]; cbn [run_script].
  - keep_steps.
  - intros w. pose proof (sound_plain op w) as Hop.
    destruct (perform_plain caller op w) as [x w']. etransitivity; [exact Hop|apply IH].
  - intros w. apply IH.
  - apply keeps_bind; [apply _| |done]. apply sound_clear. by intros w [].
  - intros w. pose proof (keeps_guard caller (within bounded) w) as Hg.
    destruct (World.ensure_structural_mutation_allowed caller w) as [[u|e] w'];
      [exact Hg|]. etransitivity; [exact Hg|apply IH].
Qed.

(** *** The coordinator *)

Context (code : Y → SystemCode World).
Hypothesis added_ok : ∀ y b, sound (on_behavior_added (code y) b).
Hypothesis removed_ok : ∀ y b, sound (on_behavior_removed (code y) b).
Hypothesis run_ok : ∀ y frame now, sound (run_system (code y) frame now).

Lemma sound_update b : sound (update_system_memberships code b).
Proof.
  apply keeps_bind; [apply _|keep_steps|intros w].
  by apply (keeps_update_behavior (within bounded) sound_systems).
Qed.

Lemma sound_leave b : sound (Systems.remove_behavior code b).
Proof. by apply (keeps_remove_behavior (within bounded) sound_systems). Qed.
#[local] Hint Resolve sound_update sound_leave : keeps.

Lemma sound_update_all : sound (update_all_system_memberships code).
Proof.
  unfold update_all_system_memberships. keep_steps.
Qed.

Lemma sound_set_revision b revision : sound (set_revision b revision).
Proof. unfold set_revision, revision_at. keep_steps; by apply sound_state. Qed.

Lemma sound_set_signature_bit b t to : sound (set_signature_bit b t to).
Proof. unfold set_signature_bit. keep_steps; by apply sound_state. Qed.

Lemma sound_forget b : sound (forget_behavior_entries b).
Proof. unfold forget_behavior_entries. keep_steps; by apply sound_state. Qed.
#[local] Hint Resolve sound_update_all sound_set_revision sound_set_signature_bit sound_forget : keeps.

Lemma sound_create_behavior : sound (Coordinator.create_behavior code).
Proof.
  unfold Coordinator.create_behavior, emplace_signature, emplace_revision.
  keep_steps; by apply sound_state.
Qed.

Lemma sound_destroy_behavior b : sound (Coordinator.destroy_behavior code b).
Proof. unfold Coordinator.destroy_behavior. keep_steps. Qed.

Lemma sound_register_system y sig ph name ver construct :
  sound construct → sound (Coordinator.register_system code y sig ph name ver construct).
Proof.
  intros Hc. apply keeps_bind; [apply _|by apply (keeps_register_system (within bounded) sound_systems)|].
  intros _. apply keeps_try; [apply _|keep_steps|intros e].
  apply keeps_bind; [apply _|apply (keeps_destroy_system (within bounded) sound_systems)|keep_steps].
Qed.

Lemma sound_settle k type t callback b :
  (∀ m, sound m → sound (callback m)) → sound (settle_behavior code k type t callback b).
Proof. intros Hc. unfold settle_behavior. keep_steps. Qed.

Lemma sound_bump k type h l : sound (bump_revisions k type h l).
Proof.
  induction l as [|b l IH]; cbn [bump_revisions]; [keep_steps|]. unfold revision_at. keep_steps.
Qed.

Lemma sound_targets t h : sound (destroy_intents_for_target t h).
Proof. unfold destroy_intents_for_target. keep_steps. Qed.

Lemma sound_owner_targets b t h : sound (destroy_intents_for_owner_target b t h).
Proof.
  unfold destroy_intents_for_owner_target. keep_steps; (apply keeps_for; [apply _|]; intros id; keep_steps).
Qed.

Lemma sound_reserve b c : sound (reserve_revision b c).
Proof. unfold reserve_revision, revision_at. keep_steps. Qed.

Lemma sound_apply b c revision : sound (apply_revision b c revision).
Proof. unfold apply_revision. keep_steps. Qed.
#[local] Hint Resolve sound_settle sound_bump sound_targets sound_owner_targets sound_reserve
  sound_apply : keeps.

Lemma sound_remove_component k type name : sound (Coordinator.remove_component code k type name).
Proof.
  unfold Coordinator.remove_component. keep_steps.
Qed.

Lemma sound_grant k type b name m : sound (Coordinator.grant_component_access code k type b name m).
Proof. unfold Coordinator.grant_component_access. keep_steps. Qed.

Lemma sound_revoke k type b name : sound (Coordinator.revoke_component_access code k type b name).
Proof.
  unfold Coordinator.revoke_component_access. keep_steps; (apply sound_settle; intros m Hm; keep_steps).
Qed.
#[local] Hint Resolve sound_create_behavior sound_destroy_behavior sound_register_system
  sound_remove_component sound_grant sound_revoke : keeps.

(** *** The world's own operations *)

Lemma sound_guarded_progress {A} (m : stm (World * progress) A) :
  keeps (λ s s', within bounded s.1 s'.1) m →
  keeps (λ s s', within bounded s.1 s'.1) (guarded_progress m).
Proof.
  intros Hm [w p] Hw. unfold guarded_progress. cbn [fst snd].
  specialize (Hm (host_set_systems (set_depth (dispatchDepth (host_systems w) + 1) (host_systems w)) w, p)
    (sound_systems _ _ Hw)).
  destruct (m _) as [x [w' p']]. by apply sound_systems.
Qed.

Definition within_progress (s s' : World * progress) : Prop := within bounded s.1 s'.1.

#[export] Instance within_progress_preorder : PreOrder within_progress.
Proof. unfold within_progress, within. split; [intros s; tauto|intros a b c; tauto]. Qed.

Lemma sound_on_world {A} (m : stm World A) : sound m → keeps within_progress (on_world m).
Proof.
  intros Hm [w p] Hw. unfold on_world. cbn. specialize (Hm w Hw). by destruct (m w).
Qed.

Lemma sound_completed n : keeps within_progress (set_completed n).
Proof. intros [w p] Hw. exact Hw. Qed.

Lemma sound_failing name : keeps within_progress (set_failing name).
Proof. intros [w p] Hw. exact Hw. Qed.
#[local] Hint Resolve sound_completed sound_failing : keeps.

Lemma sound_run_loop frame now ph order n :
  keeps within_progress (run_loop code frame now ph order n).
Proof.
  revert n. induction order as [|y order IH]; intros n; cbn [run_loop]; [keep_steps|].
  apply keeps_bind; [apply _|keep_steps|intros s].
  apply keeps_bind; [apply _|keep_steps|intros record].
  destruct (bool_decide _); [apply IH|].
  apply keeps_bind; [apply _|keep_steps|intros _].
  apply keeps_bind; [apply _|by apply sound_on_world|intros _].
  apply keeps_bind; [apply _|keep_steps|intros _]. apply IH.
Qed.

Lemma sound_run_registry frame now ph : keeps within_progress (Systems.run_systems code frame now ph).
Proof.
  apply keeps_bind; [apply _|apply sound_on_world, keeps_allowed, _|intros _].
  apply sound_guarded_progress. change (keeps within_progress (set_completed 0;;
    s ← sget; systemsRun ← run_loop code frame now ph (registrationOrder (host_systems s.1)) 0;
    set_failing "";; mret systemsRun)).
  apply keeps_bind; [apply _|keep_steps|intros _].
  apply keeps_bind; [apply _|keep_steps|intros s].
  apply keeps_bind; [apply _|apply sound_run_loop|intros n].
  apply keeps_bind; [apply _|keep_steps|intros _]. keep_steps.
Qed.

Lemma sound_flag b : sound (smodify (set_running b)).
Proof. by intros w []. Qed.

Lemma sound_run_systems frame now ph :
  keeps within_progress (World.run_systems caller code frame now ph).
Proof.
  apply keeps_bind; [apply _|apply sound_on_world, keeps_owner_thread, _|intros _].
  apply keeps_bind; [apply _|keep_steps|intros s].
  apply keeps_bind; [apply _|keep_steps|intros _].
  apply keeps_bind; [apply _|apply sound_on_world, sound_flag|intros _].
  apply keeps_try; [apply _| |intros e].
  - apply keeps_bind; [apply _|apply sound_run_registry|intros n].
    apply keeps_bind; [apply _|apply sound_on_world, sound_flag|keep_steps].
  - apply keeps_bind; [apply _|apply sound_on_world, sound_flag|keep_steps].
Qed.

Lemma sound_destroy_system y : sound (Systems.destroy_system y).
Proof. apply (keeps_destroy_system (within bounded) sound_systems). Qed.

Lemma sound_set_system_signature y sig : sound (Coordinator.set_system_signature code y sig).
Proof.
  apply keeps_bind; [apply _|apply (keeps_set_system_signature (within bounded) sound_systems)|].
  intros _. apply sound_update_all.
Qed.
#[local] Hint Resolve sound_destroy_system sound_set_system_signature : keeps.

Lemma sound_world_ops :
  sound (World.create_behavior caller code) ∧ (∀ b, sound (World.destroy_behavior caller code b)) ∧
  (∀ y sig ph name ver construct, sound construct →
     sound (World.register_system caller code y sig ph name ver construct)) ∧
  (∀ y name, sound (World.destroy_system caller y name)) ∧
  (∀ y name ver sig, sound (World.set_system_signature caller code y name ver sig)) ∧
  (∀ k type name, sound (World.remove_component caller code k type name)) ∧
  (∀ k type b name m, sound (World.grant_component_access caller code k type b name m)) ∧
  (∀ k type b name, sound (World.revoke_component_access caller code k type b name)).
Proof.
  unfold World.create_behavior, World.destroy_behavior, World.register_system, World.destroy_system,
    World.set_system_signature, World.remove_component, World.grant_component_access,
    World.revoke_component_access.
  split_and!; intros; keep_steps.
Qed.

Lemma sound_registrations :
  (∀ k name ver enc dec, sound (World.register_component caller k name ver enc dec)) ∧
  (∀ k type route enc dec, sound (World.register_effect_codec caller k type route enc dec)) ∧
  (∀ k type name (v : El k), sound (World.add_component caller k type name v)).
Proof.
  unfold World.register_component, World.register_effect_codec, World.add_component.
  split_and!; intros; keep_steps.
Qed.
End World.

(** ** Programs *)

Section Programs.
Context {K : Type} `{Countable K} {El : K → Type}.
Context {Y : Type} `{Countable Y} {D : Type}.
Abbreviation World := (Coordinator.World El Y D).
Implicit Types (w : World).
Context (host : Y → program (El := El) (Y := Y) (D := D)).
Abbreviation sound := (keeps (within bounded)).
#[local] Hint Resolve sound_intents sound_components sound_component_mutation : keeps.

Lemma sound_ignoring {A} (m : stm World A) : sound m → sound (ignoring m).
Proof. intros Hm. unfold ignoring. keep_steps. Qed.

Lemma sound_structural caller op : sound (perform_structural host caller op).
Proof.
  destruct (sound_world_ops caller (code_of host caller)) as (H1 & H2 & H3 & H4 & H5 & H6 & H7 & H8);
    [intros; apply sound_run_script..|].
  destruct (sound_registrations (El := El) (Y := Y) (D := D) caller) as (R1 & R2 & R3).
  destruct op; cbn [perform_structural]; auto using sound_ignoring, sound_run_script.
Qed.

Lemma sound_perform caller op : sound (perform host caller op).
Proof.
  destruct op as [op|A op|p|frame now ph|target name v|now| | |ev]; cbn [perform].
  - apply sound_structural.
  - apply sound_ignoring, sound_plain.
  - apply sound_run_script.
  - intros w Hw. unfold run_phase.
    assert (∀ y frame now, keeps (within bounded) (run_system (code_of host caller y) frame now)) as Hrun
      by (intros; apply sound_run_script).
    pose proof (sound_run_systems caller (code_of host caller) Hrun frame now ph (w, MkProgress 0 "") Hw)
      as Hr. destruct (World.run_systems caller (code_of host caller) frame now ph _). exact Hr.
  - apply sound_ignoring. unfold World.replace_component_value. keep_steps.
  - apply sound_ignoring. unfold World.destroy_expired_intents. keep_steps.
  - unfold World.clear_intent_lifecycle_records, owned. keep_steps.
  - unfold enable_script_evidence, owned. keep_steps. by intros w [].
  - apply sound_script.
Qed.

(** Whatever is done to a world, by whatever programs, its counters and
    buffers stay within their bounds: the access revisions given out and the
    sequence of intents never pass the largest 64-bit number, and the buffers of
    topology, component, script and intent evidence never pass the capacities
    the code declares. *)
Theorem world_within_bounds instance thread steps :
  bounded (used host instance thread steps).
Proof.
  assert (∀ w, bounded w → bounded (run host steps w)) as Hrun.
  { induction steps as [|[caller op] steps IH]; intros w Hw; cbn [run]; [done|].
    by apply IH, (sound_perform caller op). }
  apply Hrun. by repeat split.
Qed.
End Programs.
