(* ===== verification/RuntimeEffects.v ===== *)
(** * Effects of a runtime: commands, dispatch and feedback
    (src/runtime/RuntimeInternals.hpp, RuntimeEffectsState.cpp,
     RuntimeEffectsFeedback.cpp)

    [RuntimeEffectsState] turns resolved effects into commands, hands them to
    adapters, takes in reports and observations, and records each step in the
    event store before it changes its own tables.

    The host's objects are around it: the store ([S]), the adapters by the
    address of their [shared_ptr] ([A] is one adapter's state), and the memory
    of the feedback channels. *)
From stdpp Require Import pretty.
From S2P Require Import Prelude OrderedMap Values ValueCodec Effects Events EventStore Feedback Adapters Hoare Replay.

(** [target_key]: the texts of a route and of a target. *)
Definition TargetKey : Set := (string * string)%type.
Definition target_key (route target : string) : TargetKey := (route, target).

Definition status_name (status : CommandStatus) : string :=
  match status with
  | Pending => "pending" | Applied => "applied" | Rejected => "rejected"
  | Failed => "failed" | TimedOut => "timed-out" | Superseded => "superseded"
  | Indeterminate => "indeterminate"
  end.

Definition parse_status (s : string) : res CommandStatus :=
  if String.eqb s "pending" then Ok Pending
  else if String.eqb s "applied" then Ok Applied
  else if String.eqb s "rejected" then Ok Rejected
  else if String.eqb s "failed" then Ok Failed
  else if String.eqb s "timed-out" then Ok TimedOut
  else if String.eqb s "superseded" then Ok Superseded
  else if String.eqb s "indeterminate" then Ok Indeterminate
  else store_error "recorded command status is invalid".

Definition event_payload (fields : list (string * value)) : res value :=
  Value_object (emplace_all fields []).

Definition active (status : CommandStatus) : bool :=
  bool_decide (status = Pending) || bool_decide (status = Indeterminate).

(** ** [class RuntimeEffectsState] *)

Record CommandState := MkCommandState {
  cs_command : EffectCommand;
  cs_adapter : option N;
  cs_capabilities : AdapterCapabilities;
  cs_status : CommandStatus;
  cs_retryIndex : N;
  cs_terminalReport : option EffectReport
}.

Definition with_adapter (p : N) (c : AdapterCapabilities) (s : CommandState) : CommandState :=
  MkCommandState (cs_command s) (Some p) c (cs_status s) (cs_retryIndex s) (cs_terminalReport s).
Definition with_status (status : CommandStatus) (s : CommandState) : CommandState :=
  MkCommandState (cs_command s) (cs_adapter s) (cs_capabilities s) status (cs_retryIndex s)
    (cs_terminalReport s).
Definition with_retry (i : N) (s : CommandState) : CommandState :=
  MkCommandState (cs_command s) (cs_adapter s) (cs_capabilities s) (cs_status s) i
    (cs_terminalReport s).
Definition with_terminal (r : EffectReport) (s : CommandState) : CommandState :=
  MkCommandState (cs_command s) (cs_adapter s) (cs_capabilities s) (cs_status s)
    (cs_retryIndex s) (Some r).

(** The members that never change after construction. *)
Record EffectsOptions := MkEffectsOptions {
  es_session : SessionId;
  timing : FeedbackTiming;
  retry : RetryPolicy;
  sender : FeedbackSender;
  receiver : FeedbackReceiver;
  maximumRetainedCommands : N;
  maximumDeferredReports : N
}.

Record RuntimeEffectsState := MkEffectsState {
  options : EffectsOptions;
  adapters : gmap string N;
  commands : gmap N CommandState;
  latestByTarget : gmap TargetKey N;
  authoritativeByTarget : gmap TargetKey N;
  observed : gmap TargetKey value;
  observedRevisions : gmap TargetKey StateRevision;
  terminalOrder : list N;
  deferredSynchronousReports : list EffectReport;
  nextCommand : N
}.

Definition set_adapters x (s : RuntimeEffectsState) : RuntimeEffectsState :=
  MkEffectsState (options s) x (commands s) (latestByTarget s) (authoritativeByTarget s)
    (observed s) (observedRevisions s) (terminalOrder s) (deferredSynchronousReports s)
    (nextCommand s).
Definition set_commands x (s : RuntimeEffectsState) : RuntimeEffectsState :=
  MkEffectsState (options s) (adapters s) x (latestByTarget s) (authoritativeByTarget s)
    (observed s) (observedRevisions s) (terminalOrder s) (deferredSynchronousReports s)
    (nextCommand s).
Definition set_latest x (s : RuntimeEffectsState) : RuntimeEffectsState :=
  MkEffectsState (options s) (adapters s) (commands s) x (authoritativeByTarget s)
    (observed s) (observedRevisions s) (terminalOrder s) (deferredSynchronousReports s)
    (nextCommand s).
(** The three tables of what targets were observed to be. *)
Definition set_authority authority o revisions (s : RuntimeEffectsState) : RuntimeEffectsState :=
  MkEffectsState (options s) (adapters s) (commands s) (latestByTarget s) authority
    o revisions (terminalOrder s) (deferredSynchronousReports s) (nextCommand s).
Definition set_terminal_order x (s : RuntimeEffectsState) : RuntimeEffectsState :=
  MkEffectsState (options s) (adapters s) (commands s) (latestByTarget s)
    (authoritativeByTarget s) (observed s) (observedRevisions s) x
    (deferredSynchronousReports s) (nextCommand s).
Definition set_deferred x (s : RuntimeEffectsState) : RuntimeEffectsState :=
  MkEffectsState (options s) (adapters s) (commands s) (latestByTarget s)
    (authoritativeByTarget s) (observed s) (observedRevisions s) (terminalOrder s) x
    (nextCommand s).
Definition set_next_command x (s : RuntimeEffectsState) : RuntimeEffectsState :=
  MkEffectsState (options s) (adapters s) (commands s) (latestByTarget s)
    (authoritativeByTarget s) (observed s) (observedRevisions s) (terminalOrder s)
    (deferredSynchronousReports s) x.

(** [RuntimeEffectsState] as its constructor starts. *)
Definition blank (o : EffectsOptions) : RuntimeEffectsState :=
  MkEffectsState o ∅ ∅ ∅ ∅ ∅ ∅ [] [] 1.

(** The order in which [std::map] iterates numbered commands. *)
Definition command_ids {C} (m : gmap N C) : list N := merge_sort N.le (elements (dom m)).

(** *** Payloads of the events *)

Definition status_payload (id : CommandId) (status : CommandStatus) (reason : string)
  : res value :=
  reason ← Value_string reason;
  event_payload
    [("key", VString ("command:" +:+ to_string id)); ("value", VString (status_name status));
     ("command_id", VUnsigned id); ("status", VString (status_name status));
     ("reason", reason)].

Definition report_payload (r : EffectReport) (disposition : string) : res value :=
  route ← Value_string (report_route r);
  target ← Value_string (report_target r);
  event_payload
    [("command_id", VUnsigned (report_command r)); ("session", VUnsigned (report_session r));
     ("route", route); ("target", target);
     ("status", VString (status_name (report_status r)));
     ("disposition", VString disposition)].

Definition observed_payload (route target : string) (v : value) (revision : StateRevision)
    (id : CommandId) : res value :=
  key ← Value_string (route +:+ ":" +:+ target);
  route ← Value_string route;
  target ← Value_string target;
  event_payload
    [("key", key); ("value", v); ("command_id", VUnsigned id); ("route", route);
     ("target", target); ("state_revision", VUnsigned revision); ("observed", v)].

Definition external_payload (o : ExternalObservation) (disposition : string) : res value :=
  route ← Value_string (observation_route o);
  target ← Value_string (observation_target o);
  event_payload
    [("session", VUnsigned (observation_session o)); ("route", route); ("target", target);
     ("state_revision", VUnsigned (observation_revision o));
     ("observed_at", VUnsigned (observedAtMs o)); ("observed", observedValue o);
     ("disposition", VString disposition)].

Definition external_state_payload (o : ExternalObservation) : res value :=
  key ← Value_string (observation_route o +:+ ":" +:+ observation_target o);
  route ← Value_string (observation_route o);
  target ← Value_string (observation_target o);
  event_payload
    [("key", key); ("value", observedValue o); ("route", route); ("target", target);
     ("state_revision", VUnsigned (observation_revision o)); ("observed", observedValue o);
     ("source", VString "external")].

Definition attempt_payload (id : CommandId) (attempt now : N) : res value :=
  event_payload
    [("command_id", VUnsigned id); ("attempt", VUnsigned attempt); ("now", VUnsigned now)].

Definition issued_payload (c : EffectCommand) (now : N) : res value :=
  route ← Value_string (adapterRoute (effect c));
  target ← Value_string (target (effect c));
  event_payload
    [("key", VString ("command:" +:+ to_string (command_id c))); ("value", VString "pending");
     ("command_id", VUnsigned (command_id c)); ("route", route); ("target", target);
     ("desired", desiredValue (effect c)); ("issued_at", VUnsigned now)].

(** ** Members that only touch the tables *)

Definition effects_command_status (id : CommandId) (s : RuntimeEffectsState)
  : option CommandStatus := cs_status <$> commands s !! id.

Definition effects_observed_state (route target : string) (s : RuntimeEffectsState)
  : option value := observed s !! target_key route target.

(** The body of the loop of [prune_terminal_history] behind [pop_front]. *)
Definition drop_terminal (id : N) (s : RuntimeEffectsState) : RuntimeEffectsState :=
  match commands s !! id with
  | None => s
  | Some state =>
      if active (cs_status state) then s
      else
        let e := effect (cs_command state) in
        let key := target_key (adapterRoute e) (target e) in
        let s := if bool_decide (latestByTarget s !! key = Some id)
                 then set_latest (delete key (latestByTarget s)) s else s in
        set_commands (delete id (commands s)) s
  end.

(** The [while] loop: every turn takes an element of [terminalOrder]. *)
Fixpoint prune_loop (targetSize : N) (order : list N) (s : RuntimeEffectsState)
  : RuntimeEffectsState :=
  match order with
  | [] => set_terminal_order [] s
  | id :: rest =>
      if targetSize <? N.of_nat (size (commands s))
      then prune_loop targetSize rest (drop_terminal id (set_terminal_order rest s))
      else set_terminal_order order s
  end.

Definition prune_terminal_history (reserveCommandSlot : bool) : stm RuntimeEffectsState unit :=
  s ← sget;
  let targetSize := maximumRetainedCommands (options s) - N.b2n reserveCommandSlot in
  sput (prune_loop targetSize (terminalOrder s) s);;
  s ← sget;
  sreject_if (targetSize <? N.of_nat (size (commands s))) EventStoreError
    "active command capacity exceeded".

(** A [CommandState&] into [commands], by its key. *)
Definition command_at (id : N) : stm RuntimeEffectsState CommandState := λ s,
  match commands s !! id with
  | Some state => (Ok state, s)
  | None => (throw out_of_range "map::at", s)
  end.
Definition update_command (id : N) (f : CommandState → CommandState)
  : stm RuntimeEffectsState unit :=
  smodify (λ s, set_commands (alter f id (commands s)) s).

Definition set_status (id : N) (status : CommandStatus) : stm RuntimeEffectsState unit :=
  state ← command_at id;
  update_command id (with_status status);;
  if active (cs_status state) && negb (active status)
  then smodify (λ s, set_terminal_order (terminalOrder s ++ [command_id (cs_command state)]) s)
  else mret tt.

Definition report_is_authoritative (r : EffectReport) (s : RuntimeEffectsState) : bool :=
  let key := target_key (report_route r) (report_target r) in
  bool_decide (report_status r = Applied) &&
  bool_decide (authoritativeByTarget s !! key = Some (report_command r)) &&
  bool_decide (observedRevisions s !! key = Some (report_revision r)) &&
  match observed s !! key, report_observed r with
  | Some v, Some w => value_eqb v w
  | _, _ => false
  end.

Definition observation_is_authoritative (o : ExternalObservation) (s : RuntimeEffectsState)
  : bool :=
  let key := target_key (observation_route o) (observation_target o) in
  bool_decide (observedRevisions s !! key = Some (observation_revision o)) &&
  match observed s !! key with
  | Some v => value_eqb v (observedValue o)
  | None => false
  end.

Definition validate_effect (s : RuntimeEffectsState) (uniqueTargets : gset TargetKey)
    (e : ResolvedEffect) : res (gset TargetKey) :=
  validate (desiredValue e);;
  reject_if (bool_decide (adapters s !! adapterRoute e = None)) invalid_argument
    "resolved effect has no registered adapter route";;
  let key := target_key (adapterRoute e) (target e) in
  reject_if (bool_decide (key ∈ uniqueTargets)) invalid_argument
    "frame contains more than one resolved effect for a target";;
  Ok ({[key]} ∪ uniqueTargets).

Definition validate_effects (effects : list ResolvedEffect) (s : RuntimeEffectsState)
  : res unit :=
  rfold (validate_effect s) effects ∅;; Ok tt.

(** ** The runtime's effects among the host's objects *)

Record Effects (A S : Type) := MkEffects {
  members : RuntimeEffectsState;
  store : S;
  objects : gmap N A;
  channels : heap
}.
Arguments MkEffects {A S}.
Arguments members {A S}.
Arguments store {A S}.
Arguments objects {A S}.
Arguments channels {A S}.

Section Effects.
Context {A : Type} `{EffectAdapter A} {S : Type} `{EventStore S}.
Abbreviation E := (Effects A S).

Definition set_members m (e : E) : E := MkEffects m (store e) (objects e) (channels e).
Definition set_store x (e : E) : E := MkEffects (members e) x (objects e) (channels e).
Definition set_channels x (e : E) : E := MkEffects (members e) (store e) (objects e) x.

Definition on_members {X} : stm RuntimeEffectsState X → stm E X := zoom members set_members.
Definition on_store {X} : stm S X → stm E X := zoom store set_store.
Definition on_channels {X} : stm heap X → stm E X := zoom channels set_channels.
Definition members_query {X} (f : RuntimeEffectsState → X) : stm E X :=
  λ e, (Ok (f (members e)), e).
Definition get_members : stm E RuntimeEffectsState := members_query (λ s, s).

(** An adapter behind a [shared_ptr] at [p], with the channels it may send to.
    The pointer keeps the object alive. *)
Definition on_adapter {X} (p : N) (m : stm (A * heap) X) : stm E X := λ e,
  match objects e !! p with
  | Some a =>
      let '(x, (a, h)) := m (a, channels e) in
      (x, MkEffects (members e) (store e) (<[p := a]> (objects e)) h)
  | None => (throw logic_error "undefined behaviour: dangling adapter", e)
  end.

(** *** Recording *)

Definition append (type : event_type) (payload : value) (durability : Durability) : stm E unit :=
  on_store (store_append (MkEventData type 1 payload) durability);; mret tt.

(** [append(type, event_payload({...}))] *)
Definition record (type : event_type) (payload : res value) : stm E unit :=
  payload ← slift payload; append type payload Buffered.

Definition flush : stm E unit := on_store store_flush.

Definition transition (id : N) (status : CommandStatus) (reason : string) : stm E unit :=
  state ← on_members (command_at id);
  record EventType.CommandStatusChanged
    (status_payload (command_id (cs_command state)) status reason);;
  on_members (set_status id status).

Definition record_status (id : N) (reason : string) : stm E unit :=
  state ← on_members (command_at id);
  record EventType.CommandStatusChanged
    (status_payload (command_id (cs_command state)) (cs_status state) reason).

Definition record_report (r : EffectReport) (disposition : string) : stm E unit :=
  record EventType.ReportReceived (report_payload r disposition).

(** *** Feedback *)

Definition commit_authoritative (route target : string) (v : value)
    (revision : StateRevision) (id : CommandId) : stm E unit :=
  record EventType.ObservedStateChanged (observed_payload route target v revision id);;
  let key := target_key route target in
  on_members (smodify (λ s,
    set_authority (<[key := id]> (authoritativeByTarget s)) (<[key := v]> (observed s))
      (<[key := revision]> (observedRevisions s)) s)).

(** [*report.observedValue], which validation provides for an applied report *)
Definition reported_value (r : EffectReport) : res value :=
  match report_observed r with
  | Some v => Ok v
  | None => throw logic_error "undefined behaviour: empty optional"
  end.

(** What an accepted, applied report does to the observed state. *)
Definition observe_report (r : EffectReport) : stm E unit :=
  let key := target_key (report_route r) (report_target r) in
  s ← get_members;
  v ← slift (reported_value r);
  let commit := commit_authoritative (report_route r) (report_target r) v
                  (report_revision r) (report_command r) in
  match observedRevisions s !! key with
  | Some revision =>
      if report_revision r <? revision then mret tt
      else if revision =? report_revision r then
        if bool_decide (observed s !! key = Some v) then mret tt
        else record_report r "rejected-conflicting-state-revision"
      else commit
  | None => commit
  end.

Definition apply_report (accepted : list EffectReport) (r : EffectReport)
  : stm E (list EffectReport) :=
  slift (validate_effect_report r);;
  s ← get_members;
  match (if report_session r =? es_session (options s) then commands s !! report_command r
         else None) with
  | None => record_report r "rejected-unknown-or-cross-session";; mret accepted
  | Some state =>
      let e := effect (cs_command state) in
      if bool_decide (report_route r ≠ adapterRoute e) || bool_decide (report_target r ≠ target e)
      then record_report r "rejected-mismatched-target";; mret accepted
      else
        match cs_terminalReport state with
        | Some terminal =>
            record_report r (if bool_decide (terminal = r) then "duplicate"
                             else "rejected-conflicting-duplicate");;
            mret accepted
        | None =>
            let wasSuperseded := bool_decide (cs_status state = Superseded) in
            if wasSuperseded && negb (bool_decide (report_status r = Applied))
            then record_report r "rejected-stale-terminal";; mret accepted
            else
              record_report r "accepted";;
              (if wasSuperseded then mret tt
               else transition (report_command r) (report_status r) (report_diagnostic r));;
              on_members (update_command (report_command r) (with_terminal r));;
              (if bool_decide (report_status r = Applied) then observe_report r else mret tt);;
              mret (accepted ++ [r])
        end
  end.

(** What [apply_observation] makes of an observation. *)
Definition observation_disposition (o : ExternalObservation) (s : RuntimeEffectsState) : string :=
  let key := target_key (observation_route o) (observation_target o) in
  if negb (observation_session o =? es_session (options s)) ||
     bool_decide (adapters s !! observation_route o = None)
  then "rejected-unknown-or-cross-session"
  else
    match observedRevisions s !! key with
    | Some revision =>
        if observation_revision o <? revision then "stale"
        else if revision =? observation_revision o then
          if bool_decide (observed s !! key = Some (observedValue o)) then "duplicate"
          else "rejected-conflicting-revision"
        else "accepted"
    | None => "accepted"
    end.

Definition apply_observation (accepted : list ExternalObservation) (o : ExternalObservation)
  : stm E (list ExternalObservation) :=
  slift (validate_external_observation o);;
  let key := target_key (observation_route o) (observation_target o) in
  disposition ← members_query (observation_disposition o);
  record EventType.ExternalObservationReceived (external_payload o disposition);;
  if negb (String.eqb disposition "accepted") then mret accepted
  else
    record EventType.ObservedStateChanged (external_state_payload o);;
    on_members (smodify (λ s,
      set_authority (authoritativeByTarget s) (<[key := observedValue o]> (observed s))
        (<[key := observation_revision o]> (observedRevisions s)) s));;
    mret (accepted ++ [o]).

Definition pop_deferred : stm E unit :=
  on_members (smodify (λ s, set_deferred (tail (deferredSynchronousReports s)) s)).

(** The loops over what a channel holds: [fuel] turns, of which the last finds
    the channel empty. *)
Fixpoint receive_reports (fuel : nat) (accepted : list EffectReport)
  : stm E (list EffectReport) :=
  match fuel with
  | O => sthrow fuel_exhausted "receive_reports"
  | Datatypes.S fuel =>
      s ← get_members;
      received ← on_channels (try_receive (receiver (options s)));
      match received with
      | None => mret accepted
      | Some r =>
          accepted ← stry (apply_report accepted r) (λ e,
            on_members (smodify (λ s, set_deferred (r :: deferredSynchronousReports s) s));;
            slift (Err e));
          receive_reports fuel accepted
      end
  end.

Fixpoint receive_observations (fuel : nat) (accepted : list ExternalObservation)
  : stm E (list ExternalObservation) :=
  match fuel with
  | O => sthrow fuel_exhausted "receive_observations"
  | Datatypes.S fuel =>
      s ← get_members;
      received ← on_channels (try_receive_observation (receiver (options s)));
      match received with
      | None => mret accepted
      | Some o =>
          accepted ← apply_observation accepted o;
          receive_observations fuel accepted
      end
  end.

(** The reports and observations waiting in the runtime's channel. *)
Definition waiting (e : E) : nat :=
  match receiver (options (members e)) with
  | Some address =>
      match channels e !! address with
      | Some (Some s) => length (reports s) + length (observations s)
      | _ => 0
      end
  | None => 0
  end.

Definition take_feedback (fuel : nat)
  : stm E (list EffectReport * list ExternalObservation) :=
  s ← get_members;
  accepted ← sfold (λ accepted r, accepted ← apply_report accepted r; pop_deferred;; mret accepted)
    (deferredSynchronousReports s) [];
  accepted ← receive_reports fuel accepted;
  observations ← receive_observations fuel [];
  mret (accepted, observations).

(** Every turn takes something out of the channel, and the last finds it empty. *)
Definition process_feedback : stm E (list EffectReport * list ExternalObservation) := λ e,
  take_feedback (Datatypes.S (waiting e)) e.

(** *** Dispatch *)

(** What a dispatch tells apart about an exception of the adapter: those of the
    event store pass through. *)
Definition store_failure (e : exn) : bool :=
  bool_decide (exn_kind e = EventStoreError) || bool_decide (exn_kind e = RecoverableTailError).

(** The handlers around the call of an adapter. *)
Definition dispatch_failed (id : N) (e : exn) : stm E unit :=
  if store_failure e then slift (Err e)
  else
    let diagnostic := if bool_decide (exn_kind e = unknown_exception)
                      then "adapter threw an unknown exception" else exn_what e in
    state ← on_members (command_at id);
    if negb (nativeIdempotency (cs_capabilities state))
    then transition id Indeterminate diagnostic
    else record_status id diagnostic.

(** What a dispatch does with the adapter's answer. *)
Definition take_result (id : N) (result : DispatchResult) (accepted : list EffectReport)
  : stm E (list EffectReport) :=
  s ← get_members;
  match disposition result with
  | DispatchRejected => transition id Rejected (dispatch_diagnostic result);; mret accepted
  | DispatchFailed => transition id Failed (dispatch_diagnostic result);; mret accepted
  | DispatchAccepted =>
      match immediateReport result with
      | None => mret accepted
      | Some r =>
          if bool_decide (timing (options s) = Immediate) then apply_report accepted r
          else if maximumDeferredReports (options s) <=? len (deferredSynchronousReports s)
          then transition id Indeterminate "synchronous feedback staging capacity exceeded";;
               mret accepted
          else on_members (smodify (λ s,
                 set_deferred (deferredSynchronousReports s ++ [r]) s));;
               mret accepted
      end
  end.

(** The call itself: [state.adapter->dispatch(...)] and the check of its answer. *)
Definition call_adapter (adapter : N) (c : EffectCommand) : stm E DispatchResult :=
  s ← get_members;
  result ← on_adapter adapter (Adapters.dispatch c (sender (options s)));
  slift (validate_dispatch_result_for_command result c);;
  mret result.

Definition dispatch (id : N) (adapter : N) (now : N) (accepted : list EffectReport)
  : stm E (list EffectReport) :=
  state ← on_members (command_at id);
  record EventType.CommandAttempted
    (attempt_payload (command_id (cs_command state)) (cs_retryIndex state + 1) now);;
  flush;;
  result ← stry (result ← call_adapter adapter (cs_command state); mret (Some result))
             (λ e, dispatch_failed id e;; mret None);
  match result with
  | None => mret accepted
  | Some result => take_result id result accepted
  end.

(** The body of the loop of [retry_due]. *)
Definition retry_one (now : N) (accepted : list EffectReport) (id : N)
  : stm E (list EffectReport) :=
  s ← get_members;
  state ← on_members (command_at id);
  match cs_status state, cs_adapter state with
  | Pending, Some adapter =>
      let issuedAt := issuedAtMs (cs_command state) in
      let elapsed := if issuedAt <=? now then now - issuedAt else 0 in
      if u64_of_i64 (overallTimeout (retry (options s))) <=? elapsed
      then transition id TimedOut "overall timeout elapsed";; mret accepted
      else
        delay ← slift (delay_before_retry (retry (options s)) (cs_retryIndex state));
        match delay with
        | None => mret accepted
        | Some delay =>
            if elapsed <? u64_of_i64 delay then mret accepted
            else
              on_members (update_command id (with_retry (cs_retryIndex state + 1)));;
              dispatch id adapter now accepted
        end
  | _, _ => mret accepted
  end.

Definition retry_due (now : N) (accepted : list EffectReport) : stm E (list EffectReport) :=
  s ← get_members;
  sfold (retry_one now) (command_ids (commands s)) accepted.

(** What [issue] does about the command last issued to a target: [false] when
    the new desire needs no command. *)
Definition supersede_prior (e : ResolvedEffect) : stm E bool :=
  s ← get_members;
  match latestByTarget s !! target_key (adapterRoute e) (target e) with
  | None => mret true
  | Some latest =>
      prior ← on_members (command_at latest);
      if bool_decide (cs_status prior = Indeterminate) then mret false
      else if active (cs_status prior) &&
              value_eqb (desiredValue (effect (cs_command prior))) (desiredValue e)
      then mret false
      else if bool_decide (cs_status prior = Pending)
      then transition latest Superseded "newer desired value selected";; mret true
      else mret true
  end.

(** The command is numbered, checked and recorded. *)
Definition new_command (adapter : N) (e : ResolvedEffect) (now : N) : stm E EffectCommand :=
  s ← get_members;
  sreject_if ((nextCommand s =? 0) || (nextCommand s =? u64_max)) overflow_error
    "command sequence exhausted";;
  on_members (smodify (set_next_command (nextCommand s + 1)));;
  let command := MkEffectCommand (es_session (options s)) (nextCommand s) e now in
  slift (validate_effect_command command);;
  o ← sget;
  capabilities ← slift (match objects o !! adapter with
    | Some a => Ok (capabilities a)
    | None => throw logic_error "undefined behaviour: dangling adapter"
    end);
  record EventType.CommandIssued (issued_payload command now);;
  s ← get_members;
  sreject_if (bool_decide (is_Some (commands s !! command_id command))) logic_error
    "duplicate command ID";;
  on_members (smodify (λ s, set_commands
    (<[command_id command :=
         MkCommandState command (Some adapter) capabilities Pending 0 None]> (commands s)) s));;
  on_members (smodify (λ s, set_latest
    (<[target_key (adapterRoute e) (target e) := command_id command]> (latestByTarget s)) s));;
  mret command.

Definition issue (e : ResolvedEffect) (now : N) (accepted : list EffectReport)
  : stm E (option EffectCommand * list EffectReport) :=
  slift (validate (desiredValue e));;
  s ← get_members;
  adapter ← slift (match adapters s !! adapterRoute e with
    | Some adapter => Ok adapter
    | None => throw invalid_argument "resolved effect has no registered adapter route"
    end);
  needed ← supersede_prior e;
  s ← get_members;
  if negb needed || bool_decide (observed s !! target_key (adapterRoute e) (target e)
                                 = Some (desiredValue e))
  then mret (None, accepted)
  else
    on_members (prune_terminal_history true);;
    command ← new_command adapter e now;
    accepted ← dispatch (command_id command) adapter now accepted;
    mret (Some command, accepted).

Definition clear_desire (route target : string) : stm E unit :=
  s ← get_members;
  match latestByTarget s !! target_key route target with
  | None => mret tt
  | Some latest =>
      prior ← on_members (command_at latest);
      if bool_decide (cs_status prior = Pending)
      then transition latest Superseded "selected desire disappeared"
      else mret tt
  end.

(** *** Registration of adapters *)

(** The commands whose dispatch by an earlier process cannot be repeated. *)
Definition uncertain_command (r : string) (c : AdapterCapabilities) (s : RuntimeEffectsState)
    (id : N) : bool :=
  match commands s !! id with
  | Some state => bool_decide (adapterRoute (effect (cs_command state)) = r) &&
      bool_decide (cs_status state = Pending) && negb (nativeIdempotency c)
  | None => false
  end.
Definition uncertain (r : string) (c : AdapterCapabilities) (s : RuntimeEffectsState) : list N :=
  filter (λ id, uncertain_command r c s id = true) (command_ids (commands s)).

Definition uncertain_event (c : AdapterCapabilities) (id : N) : res EventData :=
  payload ← status_payload id Indeterminate
    (if readAfterWriteReconciliation c then "host reconciliation required after restart"
     else "adapter cannot safely retry after restart");
  Ok (MkEventData EventType.CommandStatusChanged 1 payload).

(** The body of the last loop. *)
Definition adopt (p : N) (r : string) (c : AdapterCapabilities) (indeterminate : list N)
    (id : N) : stm E unit :=
  state ← on_members (command_at id);
  if bool_decide (adapterRoute (effect (cs_command state)) ≠ r) then mret tt
  else
    on_members (update_command id (with_adapter p c));;
    if bool_decide (id ∈ indeterminate) then on_members (set_status id Indeterminate) else mret tt.

Definition register_adapter (adapter : option N) : stm E unit :=
  e ← sget;
  '(p, a) ← slift (match adapter with
    | None => throw invalid_argument "adapter ownership must not be null"
    | Some p => match objects e !! p with
                | Some a => Ok (p, a)
                | None => throw logic_error "undefined behaviour: dangling adapter"
                end
    end);
  let r := route a in
  let c := capabilities a in
  sreject_if (bool_decide (is_Some (adapters (members e) !! r))) invalid_argument
    "adapter route is already registered";;
  let indeterminate := uncertain r c (members e) in
  statusEvents ← slift (rfold (λ l id, x ← uncertain_event c id; Ok (l ++ [x])) indeterminate []);
  on_members (smodify (λ s, set_adapters (<[r := p]> (adapters s)) s));;
  stry (on_store (store_append_batch statusEvents Durable);; mret tt) (λ x,
    on_members (smodify (λ s, set_adapters (delete r (adapters s)) s));;
    slift (Err x));;
  s ← get_members;
  sfor (adopt p r c indeterminate) (command_ids (commands s)).

(** *** Reconciliation and checkpoints *)

Definition reconcile_indeterminate (route target : string) (observedValue : value)
  : stm E unit :=
  slift (validate observedValue);;
  let key := target_key route target in
  s ← get_members;
  latest ← slift (match latestByTarget s !! key with
    | Some latest => Ok latest
    | None => throw logic_error "target has no indeterminate command to reconcile"
    end);
  state ← on_members (command_at latest);
  sreject_if (bool_decide (cs_status state ≠ Indeterminate)) logic_error
    "target has no indeterminate command to reconcile";;
  let command := cs_command state in
  let status := if value_eqb (desiredValue (effect command)) observedValue
                then Applied else Failed in
  revision ← slift (match observedRevisions s !! key with
    | None => Ok (command_id command)
    | Some prior =>
        reject_if (prior =? u64_max) overflow_error "state revision exhausted";;
        Ok (prior + 1)
    end);
  let terminal := Report (es_session (options s)) (command_id command) route target status
    (if bool_decide (status = Applied) then Some observedValue else None)
    "host reconciliation" (issuedAtMs command) revision in
  transition latest status "host reconciliation";;
  commit_authoritative route target observedValue revision (command_id command);;
  on_members (update_command latest (with_terminal terminal));;
  flush.

Definition effects_checkpoint : stm E RecordId :=
  e ← sget;
  state ← slift (project (store_metadata (store e)) (store_read_all (store e)));
  payload ← slift (checkpoint_payload state);
  checkpointId ← on_store (EventStore.checkpoint payload Durable);
  flush;;
  mret checkpointId.
End Effects.
