(* ===== verification/RuntimeRestore.v ===== *)
(** * Starting a runtime's effects from an event store
    (src/runtime/RuntimeEffectsRestore.cpp and the constructor of
     RuntimeEffectsState in RuntimeEffectsState.cpp)

    A runtime that opens a store with records rebuilds its tables from them.
    Restoring changes only the members of the object under construction, which
    an exception discards, so it is a fallible function on them. *)
From S2P Require Import Prelude OrderedMap Values Effects Events EventStore Feedback Adapters Hoare Replay RuntimeEffects.

(** ** Fields of recorded payloads *)

Definition required_field (o : object) (name context : string) : res value :=
  match sm_find name o with
  | None => store_error (context +:+ " is missing " +:+ name)
  | Some v => Ok v
  end.

Definition required_unsigned (o : object) (name context : string) : res N :=
  v ← required_field o name context;
  reject_if (negb (bool_decide (kind v = KUnsignedInteger))) EventStoreError
    (context +:+ " field is not unsigned: " +:+ name);;
  as_unsigned_integer v.

Definition required_string (o : object) (name context : string) : res string :=
  v ← required_field o name context;
  reject_if (negb (bool_decide (kind v = KString))) EventStoreError
    (context +:+ " field is not a string: " +:+ name);;
  as_string v.

Definition required_object_payload (r : EventRecord) (context : string) : res object :=
  reject_if (negb (bool_decide (kind (payload r) = KObject))) EventStoreError
    (context +:+ " payload must be an object");;
  as_object (payload r).

Definition recorded_command_object (o : object) : object :=
  match sm_find "value" o with
  | Some (VObject nested) => nested
  | _ => o
  end.

(** ** Restoring *)

(** The tables and [maximumCommandId]. *)
Definition Restoring : Type := (RuntimeEffectsState * N)%type.

Definition recorded_status (o : object) : res CommandStatus :=
  match sm_find "status" o with
  | None => Ok Pending
  | Some v =>
      reject_if (negb (bool_decide (kind v = KString))) EventStoreError
        "recorded command status is not a string";;
      name ← as_string v;
      parse_status name
  end.

Definition no_capabilities : AdapterCapabilities := MkAdapterCapabilities false false false.

Definition restore_command (x : Restoring) (o : object) : res Restoring :=
  let '(s, maximumCommandId) := x in
  let command := recorded_command_object o in
  id ← required_unsigned command "command_id" "recorded command";
  route ← required_string command "route" "recorded command";
  route ← AdapterRoute route;
  target ← required_string command "target" "recorded command";
  target ← EffectTarget target;
  desired ← required_field command "desired" "recorded command";
  issuedAt ← required_unsigned command "issued_at" "recorded command";
  let c := MkEffectCommand (es_session (options s)) id
             (MkResolvedEffect route target desired) issuedAt in
  validate_effect_command c;;
  status ← recorded_status command;
  let s := set_commands
    (<[id := MkCommandState c None no_capabilities status 0 None]> (commands s)) s in
  let key := target_key route target in
  let s := if match latestByTarget s !! key with
              | None => true | Some latest => latest <? id
              end
           then set_latest (<[key := id]> (latestByTarget s)) s else s in
  Ok (s, N.max maximumCommandId id).

Definition restore_attempt (s : RuntimeEffectsState) (o : object) : res RuntimeEffectsState :=
  id ← required_unsigned o "command_id" "recorded command attempt";
  state ← match commands s !! id with
          | None => store_error "attempt references unknown command"
          | Some state => Ok state
          end;
  attempt ← required_unsigned o "attempt" "recorded command attempt";
  reject_if ((attempt =? 0) || (EffectLimits.maxRetryDelays + 1 <? attempt)) EventStoreError
    "recorded command attempt is out of range";;
  Ok (set_commands (<[id := with_retry (N.max (cs_retryIndex state) (attempt - 1)) state]>
        (commands s)) s).

Definition restore_status (s : RuntimeEffectsState) (o : object) : res RuntimeEffectsState :=
  id ← required_unsigned o "command_id" "recorded command status";
  state ← match commands s !! id with
          | None => store_error "status references unknown command"
          | Some state => Ok state
          end;
  name ← required_string o "status" "recorded command status";
  status ← parse_status name;
  Ok (set_commands (<[id := with_status status state]> (commands s)) s).

Definition restore_observed_record (s : RuntimeEffectsState) (o : object)
  : res RuntimeEffectsState :=
  route ← required_string o "route" "recorded observed state";
  route ← AdapterRoute route;
  target ← required_string o "target" "recorded observed state";
  target ← EffectTarget target;
  let key := target_key route target in
  v ← required_field o "observed" "recorded observed state";
  revision ← required_unsigned o "state_revision" "recorded observed state";
  reject_if (negb (valid revision)) EventStoreError "recorded observed revision is invalid";;
  let s := set_authority (authoritativeByTarget s) (<[key := v]> (observed s))
             (<[key := revision]> (observedRevisions s)) s in
  match sm_find "command_id" o with
  | None => Ok s
  | Some idField =>
      reject_if (negb (bool_decide (kind idField = KUnsignedInteger))) EventStoreError
        "recorded observed command id must be unsigned";;
      id ← as_unsigned_integer idField;
      reject_if (bool_decide (commands s !! id = None)) EventStoreError
        "observed state references unknown command";;
      Ok (set_authority (<[key := id]> (authoritativeByTarget s)) (observed s)
            (observedRevisions s) s)
  end.

(** The body of the loop of [restore_observed_checkpoint]. *)
Definition restore_observed_entry (values : object) (s : RuntimeEffectsState)
    (entry : string * value) : res RuntimeEffectsState :=
  o ← as_object entry.2;
  route ← required_string o "route" "checkpoint observed authority";
  target ← required_string o "target" "checkpoint observed authority";
  reject_if (negb (String.eqb entry.1 (route +:+ ":" +:+ target))) EventStoreError
    "checkpoint observed-authority key is inconsistent";;
  same ← match sm_find entry.1 values with
         | None => Ok false
         | Some v =>
             w ← required_field o "observed" "checkpoint observed authority";
             Ok (value_eqb v w)
         end;
  reject_if (negb same) EventStoreError
    "checkpoint observed state does not match its authority record";;
  restore_observed_record s o.

Definition restore_observed_checkpoint (s : RuntimeEffectsState) (authority values : object)
  : res RuntimeEffectsState :=
  s ← rfold (restore_observed_entry values) authority s;
  reject_if (negb (N.of_nat (size (observed s)) =? len values)) EventStoreError
    "checkpoint observed state is missing an authority record";;
  Ok s.

(** The body of the loop over a checkpoint's commands. *)
Definition restore_checkpoint_command (x : Restoring) (entry : string * value) : res Restoring :=
  o ← as_object entry.2;
  x ← restore_command x o;
  id ← required_unsigned (recorded_command_object o) "command_id" "checkpoint command";
  reject_if (negb (String.eqb entry.1 ("command:" +:+ to_string id))) EventStoreError
    "checkpoint command key does not match command ID";;
  Ok x.

(** The body of the loop over a checkpoint's attempts. *)
Definition restore_checkpoint_attempt (s : RuntimeEffectsState) (encoded : value)
  : res RuntimeEffectsState :=
  o ← as_object encoded;
  type ← required_unsigned o "type" "checkpoint command attempt";
  reject_if (negb (type =? EventType.CommandAttempted)) EventStoreError
    "checkpoint command_attempts contains another event type";;
  v ← required_field o "payload" "checkpoint command attempt";
  reject_if (negb (bool_decide (kind v = KObject))) EventStoreError
    "checkpoint command attempt payload must be an object";;
  o ← as_object v;
  restore_attempt s o.

(** The tables a checkpoint replaces. *)
Definition forget_tables (s : RuntimeEffectsState) : RuntimeEffectsState :=
  set_terminal_order [] (set_authority ∅ ∅ ∅ (set_latest ∅ (set_commands ∅ s))).

Definition restore_from_checkpoint (s : RuntimeEffectsState) (r : EventRecord) : res Restoring :=
  o ← required_object_payload r "checkpoint";
  validate_checkpoint_anchor (payload r) (es_session (options s)) (sequence r);;
  recorded ← checkpoint_object o "commands";
  '(s, maximumCommandId) ← rfold restore_checkpoint_command recorded (forget_tables s, 0);
  attempts ← checkpoint_array o "command_attempts";
  s ← rfold restore_checkpoint_attempt attempts s;
  authority ← checkpoint_object o "observed_authority";
  values ← checkpoint_object o "observed_state";
  s ← restore_observed_checkpoint s authority values;
  Ok (s, maximumCommandId).

(** The body of the loop over the records. *)
Definition restore_record (x : Restoring) (r : EventRecord) : res Restoring :=
  let '(s, maximumCommandId) := x in
  if type r =? EventType.Checkpoint then restore_from_checkpoint s r
  else if type r =? EventType.CommandIssued then
    o ← required_object_payload r "recorded command";
    restore_command x o
  else if type r =? EventType.CommandAttempted then
    o ← required_object_payload r "recorded command attempt";
    s ← restore_attempt s o; Ok (s, maximumCommandId)
  else if type r =? EventType.CommandStatusChanged then
    o ← required_object_payload r "recorded command status";
    s ← restore_status s o; Ok (s, maximumCommandId)
  else if type r =? EventType.ObservedStateChanged then
    o ← required_object_payload r "recorded observed state";
    s ← restore_observed_record s o; Ok (s, maximumCommandId)
  else Ok x.

(** The last loop: terminal commands in the order of their ids. *)
Definition is_terminal (s : RuntimeEffectsState) (id : N) : bool :=
  match commands s !! id with
  | Some state => negb (active (cs_status state))
  | None => false
  end.
Definition restored_order (s : RuntimeEffectsState) : list N :=
  filter (λ id, is_terminal s id = true) (command_ids (commands s)).

Definition restore (m : EventStoreMetadata) (records : list EventRecord)
    (s : RuntimeEffectsState) : res RuntimeEffectsState :=
  project m records;;
  '(s, maximumCommandId) ← rfold restore_record records (s, 0);
  reject_if (maximumCommandId =? u64_max) EventStoreError "command sequence exhausted";;
  let s := set_next_command (maximumCommandId + 1) s in
  let s := set_terminal_order (terminalOrder s ++ restored_order s) s in
  match prune_terminal_history false s with
  | (Ok _, s) => Ok s
  | (Err e, _) => Err e
  end.

(** ** The constructor *)

Record RuntimeOptions := MkRuntimeOptions {
  sessionId : SessionId;
  ro_feedbackTiming : FeedbackTiming;
  retryPolicy : RetryPolicy;
  feedbackCapacity : N;
  maxRetainedCommands : N;
  allowVolatileEffects : bool
}.

Section Constructor.
Context {A : Type} `{EffectAdapter A} {S : Type} `{EventStore S}.
Implicit Types (o : RuntimeOptions).

(** The members' initialisers. *)
Definition initial_options o : stm heap EffectsOptions :=
  '(tx, rx) ← make_feedback_channel (feedbackCapacity o);
  mret (MkEffectsOptions (sessionId o) (ro_feedbackTiming o) (retryPolicy o) tx rx
          (maxRetainedCommands o) (feedbackCapacity o)).

(** The checks before a store is chosen. *)
Definition check_options o : res unit :=
  reject_if (negb (valid (sessionId o))) invalid_argument "runtime requires a valid session ID";;
  RetryPolicy_validate (retryPolicy o);;
  reject_if (maxRetainedCommands o =? 0) invalid_argument
    "retained command capacity must be positive".

Definition started_payload o : res value :=
  event_payload
    [("session", VUnsigned (sessionId o));
     ("feedback_timing", VString (if bool_decide (ro_feedbackTiming o = Immediate)
                                  then "immediate" else "deferred"));
     ("engine_version", VString "0.1.0")].

(** The rest of the constructor, behind the choice of the store. *)
Definition open_store o : stm (Effects A S) unit :=
  e ← sget;
  let m := store_metadata (store e) in
  sreject_if (negb (session m =? sessionId o) ||
              bool_decide (feedbackTiming m ≠ ro_feedbackTiming o)) invalid_argument
    "runtime options do not match event-store session metadata";;
  let existing := store_read_all (store e) in
  if bool_decide (existing = [])
  then record EventType.SessionStarted (started_payload o);; flush
  else
    s ← slift (restore m existing (members e));
    on_members (sput s).
End Constructor.

(** What a throwing constructor leaves of the channel it made. *)
Definition abandon_channel (o : EffectsOptions) (h : heap) : heap :=
  (destroy_receiver (receiver o) h).2.

(** [RuntimeEffectsState(options)] with [options.eventStore] pointing to the
    host's store in the state: the members are made, then the store opened. *)
Definition new_RuntimeEffectsState {A S} `{EffectAdapter A} `{EventStore S}
    (o : RuntimeOptions) (e : Effects A S) : res unit * Effects A S :=
  match initial_options o (channels e) with
  | (Err x, h) => (Err x, set_channels h e)
  | (Ok m, h) =>
      match (slift (check_options o);; open_store o)
              (MkEffects (blank m) (store e) (objects e) h) with
      | (Err x, e) => (Err x, set_channels (abandon_channel m (channels e)) e)
      | r => r
      end
  end.

(** The same with [options.eventStore == nullptr]: a memory store of its own. *)
Definition owned_metadata (o : RuntimeOptions) : EventStoreMetadata :=
  MkMetadata (sessionId o) "0.1.0" (ro_feedbackTiming o) 1 currentFileFormatVersion.

Definition owned_store (o : RuntimeOptions) : res MemoryEventStore :=
  reject_if (negb (allowVolatileEffects o)) invalid_argument
    "effect dispatch requires an event store; volatile mode must be explicit";;
  new_MemoryEventStore (owned_metadata o) EventLimits.maxRecordsRead.

Definition new_volatile_RuntimeEffectsState {A} `{EffectAdapter A} (o : RuntimeOptions)
    (objects : gmap N A) (h : heap) : res (Effects A MemoryEventStore) * heap :=
  match initial_options o h with
  | (Err x, h) => (Err x, h)
  | (Ok m, h) =>
      match (check_options o;; owned_store o) with
      | Err x => (Err x, abandon_channel m h)
      | Ok memory =>
          match open_store o (MkEffects (blank m) memory objects h) with
          | (Ok _, e) => (Ok e, channels e)
          | (Err x, e) => (Err x, abandon_channel m (channels e))
          end
      end
  end.
