(* ===== verification/RuntimeLog.v ===== *)
(** * The tables of a runtime's effects and its event log

    [tables_ok] is the invariant of the tables of [RuntimeEffectsState].
    [agrees] relates them to the tables restored from the log: what is recorded
    is what is in memory, except that memory forgets commands that ended.  The
    lemmas follow one event into both. *)
From S2P Require Import Prelude OrderedMap Values Effects Events EventStore Feedback Adapters Hoare Replay RuntimeEffects RuntimeRestore.

(** What the constructors of [AdapterRoute] and [EffectTarget] guarantee of the
    texts in an effect and in an observation. *)
Definition typed_texts (route target : string) : Prop :=
  AdapterRoute route = Ok route ∧ EffectTarget target = Ok target.
Definition typed_effect (e : ResolvedEffect) : Prop := typed_texts (adapterRoute e) (target e).
Definition typed_observation (o : ExternalObservation) : Prop :=
  typed_texts (observation_route o) (observation_target o).

Definition command_key (st : CommandState) : TargetKey :=
  target_key (adapterRoute (effect (cs_command st))) (target (effect (cs_command st))).

Lemma command_ids_elem {C} (m : gmap N C) id : id ∈ command_ids m ↔ is_Some (m !! id).
Proof.
  unfold command_ids. rewrite merge_sort_Permutation, elem_of_elements. apply elem_of_dom.
Qed.

Lemma NoDup_command_ids {C} (m : gmap N C) : NoDup (command_ids m).
Proof. unfold command_ids. rewrite merge_sort_Permutation. apply NoDup_elements. Qed.

(** ** Payloads *)

Lemma parse_status_name status : parse_status (status_name status) = Ok status.
Proof. by destruct status. Qed.

Lemma event_payload_ok fields v :
  event_payload fields = Ok v → v = VObject (emplace_all fields []).
Proof.
  unfold event_payload, Value_object, checked. rewrite unit_bind_ok. by intros [_ [= <-]].
Qed.

Lemma payload_field fields v name x :
  event_payload fields = Ok v → sm_find name fields = Some x →
  ∃ o, v = VObject o ∧ sm_find name o = Some x.
Proof.
  intros ->%event_payload_ok Hf. eexists. split; [done|].
  by rewrite find_emplace_all.
Qed.

Lemma payload_object fields v :
  event_payload fields = Ok v →
  ∃ o, v = VObject o ∧ ∀ name, sm_find name o = sm_find name fields.
Proof.
  intros ->%event_payload_ok. eexists. split; [done|]. intros name. by rewrite find_emplace_all.
Qed.

Lemma object_payload q ty n o context :
  required_object_payload (MkEventRecord q ty n (VObject o)) context = Ok o.
Proof. done. Qed.

Lemma required_field_ok o name context v :
  sm_find name o = Some v → required_field o name context = Ok v.
Proof. unfold required_field. by intros ->. Qed.

Lemma required_unsigned_ok o name context n :
  sm_find name o = Some (VUnsigned n) → required_unsigned o name context = Ok n.
Proof. unfold required_unsigned, required_field. by intros ->. Qed.

Lemma required_string_ok o name context s :
  sm_find name o = Some (VString s) → required_string o name context = Ok s.
Proof. unfold required_string, required_field. by intros ->. Qed.

Ltac go := cbn [mbind res_bind negb reject_if fst snd].

(** ** One event restored *)

Lemma restore_status_step s mx (id : N) status reason v q st :
  status_payload id status reason = Ok v → commands s !! id = Some st →
  restore_record (s, mx) (MkEventRecord q EventType.CommandStatusChanged 1 v) =
    Ok (set_commands (<[id := with_status status st]> (commands s)) s, mx).
Proof.
  unfold status_payload. intros Hv Hst. apply res_bind_ok in Hv as (r & _ & Hv).
  apply payload_object in Hv as (o & -> & Hf). unfold restore_record. cbn -[restore_status].
  rewrite object_payload. cbn -[restore_status].
  unfold restore_status. rewrite (required_unsigned_ok _ "command_id" _ id) by by rewrite Hf.
  go. rewrite Hst. go.
  rewrite (required_string_ok _ "status" _ (status_name status)) by by rewrite Hf.
  go. by rewrite parse_status_name.
Qed.

Lemma restore_attempt_step s mx (id : N) r now v q st :
  attempt_payload id (r + 1) now = Ok v → commands s !! id = Some st →
  r <= EffectLimits.maxRetryDelays →
  restore_record (s, mx) (MkEventRecord q EventType.CommandAttempted 1 v) =
    Ok (set_commands (<[id := with_retry (N.max (cs_retryIndex st) r) st]> (commands s)) s, mx).
Proof.
  unfold attempt_payload. intros Hv Hst Hr.
  apply payload_object in Hv as (o & -> & Hf). unfold restore_record. cbn -[restore_attempt].
  rewrite object_payload. cbn -[restore_attempt].
  unfold restore_attempt. rewrite (required_unsigned_ok _ "command_id" _ id) by by rewrite Hf.
  go. rewrite Hst. go. rewrite (required_unsigned_ok _ "attempt" _ (r + 1)) by by rewrite Hf.
  go. rewrite (proj2 (N.eqb_neq (r + 1) 0)) by lia.
  rewrite (proj2 (N.ltb_ge _ _)) by (change (EffectLimits.maxRetryDelays + 1) with 33;
    unfold EffectLimits.maxRetryDelays in *; lia).
  go. by replace (r + 1 - 1) with r by lia.
Qed.

(** A recorded issue, before the command's tables are changed. *)
Definition issued_state (c : EffectCommand) : CommandState :=
  MkCommandState c None no_capabilities Pending 0 None.

Lemma restore_issued_step s mx c v q :
  issued_payload c (issuedAtMs c) = Ok v →
  typed_effect (effect c) → validate_effect_command c = Ok tt →
  command_session c = es_session (options s) →
  (∀ key l, latestByTarget s !! key = Some l → l < command_id c) →
  restore_record (s, mx) (MkEventRecord q EventType.CommandIssued 1 v) =
    Ok (set_latest (<[command_key (issued_state c) := command_id c]> (latestByTarget s))
          (set_commands (<[command_id c := issued_state c]> (commands s)) s),
        N.max mx (command_id c)).
Proof.
  unfold issued_payload. intros Hv [Hr Ht] Hc Hs Hl.
  apply res_bind_ok in Hv as (? & [-> _]%Value_string_ok & Hv).
  apply res_bind_ok in Hv as (? & [-> _]%Value_string_ok & Hv).
  apply payload_object in Hv as (o & -> & Hf).
  unfold restore_record. cbn -[restore_command].
  rewrite object_payload. cbn -[restore_command]. unfold restore_command.
  assert (recorded_command_object o = o) as -> by (unfold recorded_command_object; by rewrite Hf).
  rewrite (required_unsigned_ok _ "command_id" _ (command_id c)) by by rewrite Hf. go.
  rewrite (required_string_ok _ "route" _ (adapterRoute (effect c))) by by rewrite Hf.
  go. rewrite Hr. go.
  rewrite (required_string_ok _ "target" _ (target (effect c))) by by rewrite Hf.
  go. rewrite Ht. go.
  rewrite (required_field_ok _ "desired" _ (desiredValue (effect c))) by by rewrite Hf. go.
  rewrite (required_unsigned_ok _ "issued_at" _ (issuedAtMs c)) by by rewrite Hf. go.
  rewrite <-Hs.
  assert (MkEffectCommand (command_session c) (command_id c)
            (MkResolvedEffect (adapterRoute (effect c)) (target (effect c))
               (desiredValue (effect c))) (issuedAtMs c) = c) as -> by by destruct c as [?? [] ?].
  rewrite Hc. go.
  assert (recorded_status o = Ok Pending) as -> by (unfold recorded_status; by rewrite Hf).
  go. unfold command_key, issued_state. cbn [cs_command].
  cbn [latestByTarget set_commands].
  destruct (latestByTarget s !! _) as [l|] eqn:E; [|done].
  by rewrite (proj2 (N.ltb_lt _ _)) by by eapply Hl.
Qed.

(** What a recorded observation does to the tables; [id] names the command it
    comes from. *)
Definition observe_tables (key : TargetKey) (v : value) (revision : StateRevision)
    (id : option N) (s : RuntimeEffectsState) : RuntimeEffectsState :=
  set_authority (match id with
                 | Some id => <[key := id]> (authoritativeByTarget s)
                 | None => authoritativeByTarget s
                 end)
    (<[key := v]> (observed s)) (<[key := revision]> (observedRevisions s)) s.

Lemma restore_observed_fields s o route target v revision id :
  typed_texts route target → revision ≠ 0 →
  sm_find "route" o = Some (VString route) → sm_find "target" o = Some (VString target) →
  sm_find "observed" o = Some v → sm_find "state_revision" o = Some (VUnsigned revision) →
  sm_find "command_id" o = VUnsigned <$> id → (∀ i, id = Some i → is_Some (commands s !! i)) →
  restore_observed_record s o = Ok (observe_tables (target_key route target) v revision id s).
Proof.
  intros [Hr Ht] Hrev Fr Ft Fo Fs Fi Hid. unfold restore_observed_record.
  rewrite (required_string_ok _ _ _ _ Fr). go. rewrite Hr. go.
  rewrite (required_string_ok _ _ _ _ Ft). go. rewrite Ht. go.
  unfold required_field. rewrite Fo. go. rewrite (required_unsigned_ok _ _ _ _ Fs). go.
  unfold valid. rewrite (proj2 (N.eqb_neq revision 0)) by done. go. rewrite Fi.
  destruct id as [i|]; cbn; [|done]. rewrite bool_decide_false; [done|].
  destruct (Hid i eq_refl) as [st Hst]. cbn in Hst. by rewrite Hst.
Qed.

Lemma restore_observed_step s mx route target v revision (id : N) w q :
  observed_payload route target v revision id = Ok w →
  typed_texts route target → revision ≠ 0 → is_Some (commands s !! id) →
  restore_record (s, mx) (MkEventRecord q EventType.ObservedStateChanged 1 w) =
    Ok (observe_tables (target_key route target) v revision (Some id) s, mx).
Proof.
  unfold observed_payload. intros Hw Ht Hr Hid.
  apply res_bind_ok in Hw as (? & [-> _]%Value_string_ok & Hw).
  apply res_bind_ok in Hw as (? & [-> _]%Value_string_ok & Hw).
  apply res_bind_ok in Hw as (? & [-> _]%Value_string_ok & Hw).
  apply payload_object in Hw as (o & -> & Hf). unfold restore_record. cbn -[restore_observed_record].
  rewrite object_payload. cbn -[restore_observed_record].
  erewrite (restore_observed_fields s o route target v revision (Some id));
    [done|done|done|by rewrite Hf..|by intros i [= <-]].
Qed.

Lemma restore_external_step s mx o w q :
  external_state_payload o = Ok w → typed_observation o → observation_revision o ≠ 0 →
  restore_record (s, mx) (MkEventRecord q EventType.ObservedStateChanged 1 w) =
    Ok (observe_tables (target_key (observation_route o) (observation_target o))
          (observedValue o) (observation_revision o) None s, mx).
Proof.
  unfold external_state_payload. intros Hw Ht Hr.
  apply res_bind_ok in Hw as (? & [-> _]%Value_string_ok & Hw).
  apply res_bind_ok in Hw as (? & [-> _]%Value_string_ok & Hw).
  apply res_bind_ok in Hw as (? & [-> _]%Value_string_ok & Hw).
  apply payload_object in Hw as (fields & -> & Hf). unfold restore_record. cbn -[restore_observed_record].
  rewrite object_payload. cbn -[restore_observed_record].
  erewrite (restore_observed_fields s fields _ _ _ _ None); [done|done|done|by rewrite Hf..|done].
Qed.

(** ** The invariant of the tables *)

Record command_ok (o : EffectsOptions) (bound id : N) (st : CommandState) : Prop := {
  co_id : command_id (cs_command st) = id;
  co_range : 0 < id <= bound;
  co_session : command_session (cs_command st) = es_session o;
  co_typed : typed_effect (effect (cs_command st));
  co_valid : validate_effect_command (cs_command st) = Ok tt;
  co_retry : cs_retryIndex st <= EffectLimits.maxRetryDelays
}.

(** [latestByTarget] names existing commands of the target, the newest there is. *)
Record latest_ok (s : RuntimeEffectsState) : Prop := {
  lo_exists : ∀ key l, latestByTarget s !! key = Some l →
    ∃ st, commands s !! l = Some st ∧ command_key st = key;
  lo_newest : ∀ key l id st, latestByTarget s !! key = Some l →
    commands s !! id = Some st → command_key st = key → id <= l;
  lo_pending : ∀ id st, commands s !! id = Some st → cs_status st = Pending →
    latestByTarget s !! command_key st = Some id
}.

Record options_ok (o : EffectsOptions) : Prop := {
  oo_policy : RetryPolicy_validate (retry o) = Ok tt;
  oo_session : es_session o ≠ 0;
  oo_limits : 0 < maximumRetainedCommands o ∧ 0 < maximumDeferredReports o
}.

Record tables_ok (s : RuntimeEffectsState) : Prop := {
  to_policy : RetryPolicy_validate (retry (options s)) = Ok tt;
  to_session : es_session (options s) ≠ 0;
  to_limits : 0 < maximumRetainedCommands (options s) ∧ 0 < maximumDeferredReports (options s);
  to_next : 0 < nextCommand s <= u64_max;
  to_commands : ∀ id st, commands s !! id = Some st →
    command_ok (options s) (nextCommand s - 1) id st;
  to_latest : latest_ok s;
  to_terminal : ∀ id st, commands s !! id = Some st → active (cs_status st) = false →
    id ∈ terminalOrder s;
  to_capacity : N.of_nat (size (commands s)) <= maximumRetainedCommands (options s);
  to_deferred : len (deferredSynchronousReports s) <= maximumDeferredReports (options s)
}.

(** What is in memory of a command is what was recorded; an attempt that could
    not be recorded may be counted in memory only. *)
Record same_command (st st' : CommandState) : Prop := {
  sc_command : cs_command st' = cs_command st;
  sc_status : cs_status st' = cs_status st;
  sc_retry : cs_retryIndex st' <= cs_retryIndex st
}.

(** [log] and [maxid] are what restoring the log yields for the tables [m]. *)
Record agrees (m log : RuntimeEffectsState) (maxid : N) : Prop := {
  ag_options : options log = options m;
  ag_blank : terminalOrder log = [] ∧ deferredSynchronousReports log = [] ∧ adapters log = ∅;
  ag_next : maxid < nextCommand m;
  ag_log_commands : ∀ id st, commands log !! id = Some st → command_ok (options m) maxid id st;
  ag_log_latest : latest_ok log;
  ag_indexed : ∀ id st, commands log !! id = Some st →
    is_Some (latestByTarget log !! command_key st);
  ag_commands : ∀ id st, commands m !! id = Some st →
    ∃ st', commands log !! id = Some st' ∧ same_command st st';
  ag_forgotten : ∀ id st', commands log !! id = Some st' → commands m !! id = None →
    active (cs_status st') = false;
  ag_latest : ∀ key l, latestByTarget m !! key = Some l → latestByTarget log !! key = Some l;
  ag_kept : ∀ key l, latestByTarget log !! key = Some l → is_Some (commands m !! l) →
    latestByTarget m !! key = Some l;
  ag_observed : observed log = observed m;
  ag_revisions : observedRevisions log = observedRevisions m;
  ag_authority : authoritativeByTarget log = authoritativeByTarget m
}.

(** Changes of one command that keep what it commands. *)
Definition set_command (id : N) (st : CommandState) (s : RuntimeEffectsState)
  : RuntimeEffectsState := set_commands (<[id := st]> (commands s)) s.

Lemma set_command_lookup s id st1 j x :
  commands (set_command id st1 s) !! j = Some x ↔
  j = id ∧ x = st1 ∨ j ≠ id ∧ commands s !! j = Some x.
Proof.
  cbn. destruct (decide (j = id)) as [->|Hj].
  - rewrite lookup_insert_eq. naive_solver.
  - rewrite lookup_insert_ne by done. naive_solver.
Qed.

Section SetCommand.
Context (s : RuntimeEffectsState) (id : N) (st st1 : CommandState).
Context (Hst : commands s !! id = Some st) (Hc : cs_command st1 = cs_command st).

Lemma set_command_key : command_key st1 = command_key st.
Proof. unfold command_key. by rewrite Hc. Qed.

Lemma set_command_size : size (commands (set_command id st1 s)) = size (commands s).
Proof. cbn. by rewrite map_size_insert_Some by by rewrite Hst. Qed.

Lemma set_command_latest :
  latest_ok s → (cs_status st1 = Pending → cs_status st = Pending) → latest_ok (set_command id st1 s).
Proof.
  intros [He Hn Hp] Hs. pose proof set_command_key as Hk. split.
  - intros key l Hl. change (latestByTarget (set_command id st1 s)) with (latestByTarget s) in Hl.
    destruct (He _ _ Hl) as (x & Hx & Hkx).
    destruct (decide (l = id)) as [->|Hne].
    + exists st1. cbn. rewrite lookup_insert_eq. split; [done|]. rewrite Hk. congruence.
    + exists x. cbn. by rewrite lookup_insert_ne.
  - intros key l j x Hl Hj Hkx. apply set_command_lookup in Hj as [[-> ->]|[Hne Hj]].
    + eapply Hn; [exact Hl|exact Hst|congruence].
    + by eapply Hn.
  - intros j x Hj Hx. change (latestByTarget (set_command id st1 s)) with (latestByTarget s).
    apply set_command_lookup in Hj as [[-> ->]|[Hne Hj]].
    + rewrite Hk. apply Hp; [done|by apply Hs].
    + by apply Hp.
Qed.
End SetCommand.

(** *** Changes of the tables *)

Lemma tables_set_command s id st st1 :
  tables_ok s → commands s !! id = Some st → cs_command st1 = cs_command st →
  (cs_status st1 = Pending → cs_status st = Pending) →
  cs_retryIndex st1 <= EffectLimits.maxRetryDelays →
  (active (cs_status st1) = false → id ∈ terminalOrder s) →
  tables_ok (set_command id st1 s).
Proof.
  intros [Hp Hs Hl Hn Hc Hlat Ht Hcap Hd] Hst Hcmd Hpend Hr Hterm.
  constructor; [done|done|done|done| | | |by rewrite (set_command_size _ _ _ _ Hst)|done].
  - intros j x [[-> ->]|[_ Hj]]%set_command_lookup; [|by apply Hc].
    destruct (Hc _ _ Hst) as [Hi Hra Hse Hty Hva _]. by split; rewrite ?Hcmd.
  - by eapply set_command_latest.
  - intros j x [[-> ->]|[_ Hj]]%set_command_lookup; [done|by apply Ht].
Qed.

Lemma tables_push_terminal s l : tables_ok s → tables_ok (set_terminal_order (terminalOrder s ++ l) s).
Proof.
  intros [Hp Hs Hl Hn Hc Hlat Ht Hcap Hd]. constructor; try done.
  - by destruct Hlat; split.
  - intros id st Hst Ha. cbn. apply elem_of_app. left. by eapply Ht.
Qed.

Lemma agrees_set_command m log mx id st st' st1 st1' :
  agrees m log mx → commands m !! id = Some st → commands log !! id = Some st' →
  cs_command st1 = cs_command st → same_command st1 st1' →
  (cs_status st1' = Pending → cs_status st' = Pending) →
  cs_retryIndex st1' <= EffectLimits.maxRetryDelays →
  agrees (set_command id st1 m) (set_command id st1' log) mx.
Proof.
  intros Hag Hst Hst' Hc Hsame Hpend Hr.
  destruct (ag_commands _ _ _ Hag _ _ Hst) as (y & Hy & Hsy).
  assert (y = st') as -> by congruence.
  assert (cs_command st1' = cs_command st') as Hc'
    by (rewrite (sc_command _ _ Hsame), (sc_command _ _ Hsy); done).
  destruct Hag as [Ho Hb Hn Hlc Hll Hix Hcs Hf Hla Hk Hob Hre Hau]. constructor; try done.
  - intros j x [[-> ->]|[_ Hj]]%set_command_lookup; [|by apply Hlc].
    destruct (Hlc _ _ Hst') as [Hi Hra Hse Hty Hva _]. by split; rewrite ?Hc'.
  - by eapply set_command_latest.
  - intros j x [[-> ->]|[_ Hj]]%set_command_lookup; [|by eapply Hix].
    rewrite (set_command_key _ _ Hc'). by eapply Hix.
  - intros j x [[-> ->]|[Hne Hj]]%set_command_lookup.
    + exists st1'. split; [|done]. cbn. by rewrite lookup_insert_eq.
    + destruct (Hcs _ _ Hj) as (x' & Hx' & ?). exists x'. cbn. by rewrite lookup_insert_ne.
  - intros j x [[-> ->]|[Hne Hj]]%set_command_lookup Hm; cbn in Hm.
    + by rewrite lookup_insert_eq in Hm.
    + rewrite lookup_insert_ne in Hm by done. by eapply Hf.
  - intros key l Hl Hin. apply Hk; [done|]. cbn in Hin.
    destruct (decide (l = id)) as [->|Hne]; [by rewrite Hst|by rewrite lookup_insert_ne in Hin].
Qed.

Lemma set_command_same s id st : commands s !! id = Some st → set_command id st s = s.
Proof. intros Hst. unfold set_command. rewrite insert_id by done. by destruct s. Qed.

(** A change in memory only. *)
Lemma agrees_set_memory m log mx id st st' st1 :
  agrees m log mx → commands m !! id = Some st → commands log !! id = Some st' →
  cs_command st1 = cs_command st → same_command st1 st' →
  agrees (set_command id st1 m) log mx.
Proof.
  intros Hag Hst Hst' Hc Hsame. rewrite <-(set_command_same log id st') by done.
  eapply agrees_set_command; try done. by destruct (ag_log_commands _ _ _ Hag _ _ Hst').
Qed.

(** The tables of observations. *)
Lemma tables_observe s key v r id : tables_ok s → tables_ok (observe_tables key v r id s).
Proof. intros []. constructor; try done. by destruct to_latest0; split. Qed.

Lemma agrees_observe m log mx key v r id :
  agrees m log mx → agrees (observe_tables key v r id m) (observe_tables key v r id log) mx.
Proof.
  intros [Ho Hb Hn Hlc Hll Hix Hcs Hf Hla Hk Hob Hre Hau]. constructor; try done.
  - by destruct Hll; split.
  - cbn. by rewrite Hob.
  - cbn. by rewrite Hre.
  - cbn. rewrite Hau. by destruct id.
Qed.

(** ** Pruning *)

(** [s'] is [s] without some commands that ended. *)
Record pruned (s s' : RuntimeEffectsState) : Prop := {
  pr_options : options s' = options s;
  pr_next : nextCommand s' = nextCommand s;
  pr_observed : observed s' = observed s ∧ observedRevisions s' = observedRevisions s ∧
    authoritativeByTarget s' = authoritativeByTarget s;
  pr_rest : adapters s' = adapters s ∧
    deferredSynchronousReports s' = deferredSynchronousReports s;
  pr_commands : ∀ id st, commands s' !! id = Some st → commands s !! id = Some st;
  pr_ended : ∀ id st, commands s !! id = Some st → commands s' !! id = None →
    active (cs_status st) = false;
  pr_latest : ∀ key l, latestByTarget s' !! key = Some l →
    latestByTarget s !! key = Some l ∧ is_Some (commands s' !! l);
  pr_kept : ∀ key l, latestByTarget s !! key = Some l → is_Some (commands s' !! l) →
    latestByTarget s' !! key = Some l
}.

Lemma pruned_refl s : latest_ok s → pruned s s.
Proof.
  intros [He Hn Hp]. constructor; try done.
  - intros id st H. by rewrite H.
  - intros key l Hl. split; [done|]. by destruct (He _ _ Hl) as (st & -> & _).
Qed.

Lemma pruned_trans s1 s2 s3 : pruned s1 s2 → pruned s2 s3 → pruned s1 s3.
Proof.
  intros [O1 N1 (B1 & R1 & A1) (D1 & F1) C1 E1 L1 K1] [O2 N2 (B2 & R2 & A2) (D2 & F2) C2 E2 L2 K2].
  constructor; try (split_and?; congruence).
  - eauto.
  - intros id st H1 H3. destruct (commands s2 !! id) as [st2|] eqn:H2; [|by eapply E1].
    pose proof (C1 _ _ H2) as E. rewrite E in H1. injection H1 as <-. by eapply E2.
  - intros key l Hl. destruct (L2 _ _ Hl) as [Hl2 Hin]. by destruct (L1 _ _ Hl2).
  - intros key l Hl Hin. apply K2; [|done]. apply K1; [done|].
    destruct Hin as [st Hst]. exists st. by apply C2.
Qed.

Lemma pruned_latest_ok s s' : latest_ok s → pruned s s' → latest_ok s'.
Proof.
  intros [He Hn Hp] P. split.
  - intros key l Hl. destruct (pr_latest _ _ P _ _ Hl) as [Hl' [st Hst]].
    destruct (He _ _ Hl') as (st' & Hst' & Hk). exists st. split; [done|].
    pose proof (pr_commands _ _ P _ _ Hst). congruence.
  - intros key l id st Hl Hst. destruct (pr_latest _ _ P _ _ Hl) as [Hl' _].
    eapply Hn; [done|]. by apply (pr_commands _ _ P).
  - intros id st Hst Hs. apply (pr_kept _ _ P); [|by rewrite Hst].
    apply Hp; [by apply (pr_commands _ _ P)|done].
Qed.

Lemma agrees_pruned m m' log mx : agrees m log mx → pruned m m' → agrees m' log mx.
Proof.
  intros [Ho Hb Hn Hlc Hll Hix Hcs Hf Hla Hk Hob Hre Hau] P.
  destruct (pr_observed _ _ P) as (P1 & P2 & P3).
  constructor; rewrite ?(pr_options _ _ P), ?(pr_next _ _ P), ?P1, ?P2, ?P3; try done.
  - intros id st Hst. apply Hcs. by apply (pr_commands _ _ P).
  - intros id st' Hst' Hnone. destruct (commands m !! id) as [st|] eqn:Hst; [|by eapply Hf].
    destruct (Hcs _ _ Hst) as (x & Hx & [_ Hsx _]). assert (x = st') as -> by congruence.
    rewrite Hsx. by eapply (pr_ended _ _ P).
  - intros key l Hl. apply Hla. by destruct (pr_latest _ _ P _ _ Hl).
  - intros key l Hl Hin. apply (pr_kept _ _ P); [|done]. apply Hk; [done|].
    destruct Hin as [st Hst]. exists st. by apply (pr_commands _ _ P).
Qed.

Lemma drop_terminal_pruned s id : latest_ok s → pruned s (drop_terminal id s).
Proof.
  intros Hlat. pose proof Hlat as [He Hn Hp]. unfold drop_terminal.
  destruct (commands s !! id) as [st|] eqn:Hst; [|by apply pruned_refl].
  destruct (active (cs_status st)) eqn:Ha; [by apply pruned_refl|].
  fold (command_key st). case_bool_decide as Hb; constructor; cbn; try done.
  - intros j x [Hne Hx]%lookup_delete_Some. done.
  - intros j x Hx [Heq|Hx']%lookup_delete_None; congruence.
  - intros key l [Hne Hl]%lookup_delete_Some. split; [done|].
    destruct (He _ _ Hl) as (x & Hx & Hkx). rewrite lookup_delete_ne; [by rewrite Hx|].
    intros <-. congruence.
  - intros key l Hl [x [Hne Hx]%lookup_delete_Some]. rewrite lookup_delete_ne; [done|].
    intros <-. congruence.
  - intros j x [Hne Hx]%lookup_delete_Some. done.
  - intros j x Hx [Heq|Hx']%lookup_delete_None; congruence.
  - intros key l Hl. split; [done|].
    destruct (He _ _ Hl) as (x & Hx & Hkx). rewrite lookup_delete_ne; [by rewrite Hx|].
    intros <-. congruence.
Qed.

Lemma pruned_order s s' order : pruned s s' → pruned s (set_terminal_order order s').
Proof. by intros []. Qed.
Lemma order_pruned s s' order : pruned (set_terminal_order order s) s' → pruned s s'.
Proof. by intros []. Qed.

Lemma drop_terminal_order id s : terminalOrder (drop_terminal id s) = terminalOrder s.
Proof.
  unfold drop_terminal. destruct (commands s !! id) as [st|]; [|done].
  destruct (active (cs_status st)); [done|]. by case_bool_decide.
Qed.

Definition ended_listed (order : list N) (s : RuntimeEffectsState) : Prop :=
  ∀ id st, commands s !! id = Some st → active (cs_status st) = false → id ∈ order.

Lemma ended_listed_drop id order s :
  ended_listed (id :: order) s → ended_listed order (drop_terminal id s).
Proof.
  intros Hl j x Hx Ha. unfold drop_terminal in Hx.
  destruct (commands s !! id) as [st|] eqn:Hst; cbn in Hx.
  - destruct (active (cs_status st)) eqn:Hact.
    + specialize (Hl _ _ Hx Ha). apply elem_of_cons in Hl as [->|]; [congruence|done].
    + assert (delete id (commands s) !! j = Some x) as [Hne Hx']%lookup_delete_Some
        by by destruct (bool_decide _).
      specialize (Hl _ _ Hx' Ha). by apply elem_of_cons in Hl as [->|].
  - specialize (Hl _ _ Hx Ha). apply elem_of_cons in Hl as [->|]; [congruence|done].
Qed.

(** Pruning forgets commands that ended until few enough are left, or no
    command that ended is. *)
Lemma prune_loop_spec target order s :
  latest_ok s → ended_listed order s →
  let s' := prune_loop target order s in
  pruned s s' ∧ ended_listed (terminalOrder s') s' ∧
  (N.of_nat (size (commands s')) <= target ∨
   ∀ id st, commands s' !! id = Some st → active (cs_status st) = true).
Proof.
  revert s. induction order as [|id order IH]; intros s Hlat Hl; cbn.
  - split; [by apply pruned_order, pruned_refl|]. split; [exact Hl|]. right. intros id st Hst.
    destruct (active (cs_status st)) eqn:Ha; [done|]. by apply (Hl _ _ Hst) in Ha as ?%elem_of_nil.
  - destruct (N.ltb_spec target (N.of_nat (size (commands s)))) as [Hlt|Hle].
    + assert (latest_ok (set_terminal_order order s)) as Hlat' by (by destruct Hlat; split).
      pose proof (drop_terminal_pruned _ id Hlat') as Hd.
      destruct (IH (drop_terminal id (set_terminal_order order s))) as (P & L & C).
      * by eapply pruned_latest_ok.
      * apply ended_listed_drop. exact Hl.
      * split; [|done]. apply (order_pruned s _ order). by eapply pruned_trans.
    + split; [by apply pruned_order, pruned_refl|]. split; [exact Hl|]. by left.
Qed.

Lemma pruned_size s s' : pruned s s' → (size (commands s') <= size (commands s))%nat.
Proof.
  intros P. apply map_subseteq_size, map_subseteq_spec. intros id st. apply (pr_commands _ _ P).
Qed.

Lemma tables_pruned s s' : tables_ok s → pruned s s' → ended_listed (terminalOrder s') s' → tables_ok s'.
Proof.
  intros [Hp Hs Hl Hn Hc Hlat Ht Hcap Hd] P Hel. destruct (pr_rest _ _ P) as [_ Hdef].
  constructor; rewrite ?(pr_options _ _ P), ?(pr_next _ _ P), ?Hdef; try done.
  - intros id st Hst. apply Hc. by apply (pr_commands _ _ P).
  - by eapply pruned_latest_ok.
  - pose proof (pruned_size _ _ P). lia.
Qed.

(** ** Issuing *)

Definition add_command (id : N) (st : CommandState) (s : RuntimeEffectsState)
  : RuntimeEffectsState :=
  set_latest (<[command_key st := id]> (latestByTarget s)) (set_commands (<[id := st]> (commands s)) s).

Section AddCommand.
Context (s : RuntimeEffectsState) (id : N) (st : CommandState).
Context (Hnew : ∀ j x, commands s !! j = Some x → j < id).
Context (Hfree : ∀ j x, commands s !! j = Some x → command_key x = command_key st →
  cs_status x ≠ Pending).

Lemma add_command_none : commands s !! id = None.
Proof. destruct (commands s !! id) eqn:E; [|done]. apply Hnew in E. lia. Qed.

Lemma add_command_lookup j x :
  commands (add_command id st s) !! j = Some x ↔
  j = id ∧ x = st ∨ j < id ∧ commands s !! j = Some x.
Proof.
  cbn. rewrite lookup_insert_Some. split.
  - intros [[<- <-]|[Hne Hj]]; [by left|]. right. split; [by eapply Hnew|done].
  - intros [[-> ->]|[Hlt Hj]]; [by left|]. right. split; [lia|done].
Qed.

Lemma add_command_latest : latest_ok s → latest_ok (add_command id st s).
Proof.
  intros [He Hn Hp]. split.
  - intros key l. cbn. rewrite lookup_insert_Some. intros [[<- <-]|[Hne Hl]].
    + exists st. by rewrite lookup_insert_eq.
    + destruct (He _ _ Hl) as (x & Hx & Hk). exists x. split; [|done].
      rewrite lookup_insert_ne; [done|]. apply Hnew in Hx. lia.
  - intros key l j x Hl Hj Hk. apply add_command_lookup in Hj. cbn in Hl.
    apply lookup_insert_Some in Hl as [[<- <-]|[Hne Hl]].
    + destruct Hj as [[-> ->]|[Hlt Hj]]; lia.
    + destruct Hj as [[-> ->]|[Hlt Hj]]; [congruence|]. by eapply Hn.
  - intros j x Hj Hs. apply add_command_lookup in Hj as [[-> ->]|[Hlt Hj]]; cbn.
    + by rewrite lookup_insert_eq.
    + rewrite lookup_insert_ne; [by apply Hp|]. intros Hk. by eapply Hfree.
Qed.
End AddCommand.

Lemma tables_next s n : tables_ok s → nextCommand s <= n <= u64_max → tables_ok (set_next_command n s).
Proof.
  intros [Hp Hs Hl Hn Hc Hlat Ht Hcap Hd] Hle. constructor; try done.
  - cbn. lia.
  - intros id st Hst. destruct (Hc _ _ Hst). constructor; try done. cbn. lia.
  - by destruct Hlat; split.
Qed.

Lemma agrees_next m log mx n : agrees m log mx → nextCommand m <= n → agrees (set_next_command n m) log mx.
Proof. intros [] Hle. constructor; try done. cbn. lia. Qed.

Lemma tables_add_command s id st :
  tables_ok s → (∀ j x, commands s !! j = Some x → j < id) →
  (∀ j x, commands s !! j = Some x → command_key x = command_key st → cs_status x ≠ Pending) →
  command_ok (options s) (nextCommand s - 1) id st → cs_status st = Pending →
  N.of_nat (size (commands s)) < maximumRetainedCommands (options s) →
  tables_ok (add_command id st s).
Proof.
  intros [Hp Hs Hl Hn Hc Hlat Ht Hcap Hd] Hnew Hfree Hcmd Hpend Hsize. constructor; try done.
  - intros j x [[-> ->]|[_ Hj]]%add_command_lookup; [done|by apply Hc|done].
  - by apply add_command_latest.
  - intros j x [[-> ->]|[_ Hj]]%add_command_lookup Ha; [by rewrite Hpend in Ha|by eapply Ht|done].
  - cbn. rewrite map_size_insert_None by by eapply add_command_none. lia.
Qed.

Lemma agrees_add_command m log mx id st st' :
  agrees m log mx → mx < id → id < nextCommand m → same_command st st' →
  (∀ j x, commands m !! j = Some x → command_key x = command_key st → cs_status x ≠ Pending) →
  (∀ j x, commands m !! j = Some x → j < id) →
  command_ok (options m) id id st' →
  agrees (add_command id st m) (add_command id st' log) (N.max mx id).
Proof.
  intros Hag Hmx Hid Hsame Hfree Hmem Hcmd.
  assert (command_key st' = command_key st) as Hk by (unfold command_key; by rewrite (sc_command _ _ Hsame)).
  assert (∀ j x, commands log !! j = Some x → j < id) as Hlog.
  { intros j x Hj. destruct (ag_log_commands _ _ _ Hag _ _ Hj) as [_ [_ ?] _ _ _ _]. lia. }
  assert (∀ j x, commands log !! j = Some x → command_key x = command_key st' →
            cs_status x ≠ Pending) as Hfree'.
  { intros j x Hj Hkx Hpx. destruct (commands m !! j) as [y|] eqn:Hy.
    - destruct (ag_commands _ _ _ Hag _ _ Hy) as (x' & Hx' & [Hc1 Hs1 _]).
      assert (x' = x) as -> by congruence. apply (Hfree _ _ Hy); [|congruence].
      unfold command_key in *. congruence.
    - pose proof (ag_forgotten _ _ _ Hag _ _ Hj Hy) as Ha. by rewrite Hpx in Ha. }
  destruct Hag as [Ho Hb Hn Hlc Hll Hix Hcs Hf Hla Hke Hob Hre Hau]. constructor; try done.
  - cbn. lia.
  - intros j x [[-> ->]|[_ Hj]]%add_command_lookup; [| |done].
    + destruct Hcmd. constructor; try done. lia.
    + destruct (Hlc _ _ Hj). constructor; try done. lia.
  - by apply add_command_latest.
  - intros j x [[-> ->]|[_ Hj]]%add_command_lookup; [| |done].
    + cbn. by rewrite lookup_insert_eq.
    + cbn. destruct (decide (command_key st' = command_key x)) as [->|Hne].
      * by rewrite lookup_insert_eq.
      * rewrite lookup_insert_ne by done. by eapply Hix.
  - intros j x [[-> ->]|[Hlt Hj]]%add_command_lookup; [| |done].
    + exists st'. cbn. by rewrite lookup_insert_eq.
    + destruct (Hcs _ _ Hj) as (x' & Hx' & ?). exists x'. cbn. rewrite lookup_insert_ne by lia. done.
  - intros j x [[-> ->]|[_ Hj]]%add_command_lookup Hnone; [| |done]; cbn in Hnone.
    + by rewrite lookup_insert_eq in Hnone.
    + apply lookup_insert_None in Hnone as [Hnone _]. by eapply Hf.
  - intros key l. cbn. rewrite Hk, !lookup_insert_Some. intros [?|[Hne Hl]]; [by left|]. right. auto.
  - intros key l. cbn. rewrite Hk, !lookup_insert_Some. intros [?|[Hne Hl]] Hin; [by left|]. right.
    split; [done|]. apply Hke; [done|]. rewrite lookup_insert_ne in Hin; [done|]. intros <-.
    destruct (lo_exists _ Hll _ _ Hl) as (x & Hx & _). apply Hlog in Hx. lia.
Qed.

(** ** Restoring yields tables in order *)

Lemma restored_order_listed s :
  terminalOrder s = [] → ended_listed (terminalOrder s ++ restored_order s) s.
Proof.
  intros Ho id st Hst Ha. rewrite Ho. unfold restored_order. apply list_elem_of_filter.
  split; [unfold is_terminal; by rewrite Hst, Ha|]. apply command_ids_elem. by rewrite Hst.
Qed.

(** What a restarted runtime has of the tables [m] before. *)
Record resumes (m s : RuntimeEffectsState) : Prop := {
  rs_commands : ∀ id st, commands m !! id = Some st → active (cs_status st) = true →
    ∃ st', commands s !! id = Some st' ∧ same_command st st';
  rs_no_more : ∀ id st', commands s !! id = Some st' → active (cs_status st') = true →
    ∃ st, commands m !! id = Some st ∧ same_command st st';
  rs_latest : ∀ key id st, commands m !! id = Some st → active (cs_status st) = true →
    latestByTarget m !! key = Some id ↔ latestByTarget s !! key = Some id;
  rs_observed : observed s = observed m ∧ observedRevisions s = observedRevisions m ∧
    authoritativeByTarget s = authoritativeByTarget m;
  rs_next : nextCommand s <= nextCommand m;
  rs_numbers : ∀ id st, commands m !! id = Some st → id < nextCommand s
}.

(** The active commands of the log are the active commands in memory. *)
Lemma agrees_active m log mx id st' :
  agrees m log mx → commands log !! id = Some st' → active (cs_status st') = true →
  ∃ st, commands m !! id = Some st ∧ same_command st st'.
Proof.
  intros Hag Hst' Ha. destruct (commands m !! id) as [st|] eqn:Hst.
  - exists st. split; [done|]. destruct (ag_commands _ _ _ Hag _ _ Hst) as (x & Hx & Hs). congruence.
  - pose proof (ag_forgotten _ _ _ Hag _ _ Hst' Hst). congruence.
Qed.

Section Restart.
Context (m log : RuntimeEffectsState) (mx : N).
Context (Hag : agrees m log mx) (Hopt : options_ok (options m)) (Hmax : nextCommand m <= u64_max).

Definition restored_tables : RuntimeEffectsState :=
  let s := set_next_command (mx + 1) log in
  set_terminal_order (terminalOrder s ++ restored_order s) s.

Lemma restored_latest : latest_ok restored_tables.
Proof. by destruct (ag_log_latest _ _ _ Hag). Qed.

Lemma restored_agrees : agrees restored_tables log mx.
Proof.
  destruct Hag as [Ho Hb Hn Hlc Hll Hix Hcs Hf Hla Hk Hob Hre Hau]. constructor; try done.
  - cbn. lia.
  - intros id st Hst. change (options restored_tables) with (options log). rewrite Ho. by apply Hlc.
  - intros id st Hst. exists st. done.
  - intros id st Hst Hnone. change (commands log !! id = None) in Hnone. congruence.
Qed.

(** What the restored tables are pruned to; it is enough when the active
    commands are not too many, and they are those in memory. *)
Definition restored_kept : RuntimeEffectsState :=
  prune_loop (maximumRetainedCommands (options m)) (terminalOrder restored_tables) restored_tables.
Definition few_enough : Prop :=
  N.of_nat (size (commands restored_kept)) <= maximumRetainedCommands (options m).

Lemma restored_prune :
  prune_terminal_history false restored_tables =
  (reject_if (maximumRetainedCommands (options m) <? N.of_nat (size (commands restored_kept)))
     EventStoreError "active command capacity exceeded", restored_kept).
Proof.
  assert (maximumRetainedCommands (options restored_tables) - N.b2n false =
    maximumRetainedCommands (options m)) as Htarget.
  { cbn [N.b2n]. rewrite N.sub_0_r. f_equal. apply (ag_options _ _ _ Hag). }
  unfold restored_kept. rewrite <-Htarget. done.
Qed.

Lemma restored_pruned :
  pruned restored_tables restored_kept ∧
  ended_listed (terminalOrder restored_kept) restored_kept ∧
  (few_enough ∨ ∀ id st, commands restored_kept !! id = Some st → active (cs_status st) = true).
Proof.
  apply prune_loop_spec; [apply restored_latest|]. destruct (ag_blank _ _ _ Hag) as (Hb & _).
  intros id st Hst Ha.
  exact (restored_order_listed (set_next_command (mx + 1) log) Hb id st Hst Ha).
Qed.

Lemma restored_few :
  N.of_nat (size (commands m)) <= maximumRetainedCommands (options m) → few_enough.
Proof.
  intros Hcap. destruct restored_pruned as (P & _ & [?|Hact]); [done|].
  unfold few_enough. etrans; [|exact Hcap].
  assert (dom (commands restored_kept) ⊆ dom (commands m)) as Hdom.
  { intros id [st Hst]%elem_of_dom. pose proof (Hact _ _ Hst) as Ha.
    apply (pr_commands _ _ P) in Hst. change (commands log !! id = Some st) in Hst.
    destruct (agrees_active _ _ _ _ _ Hag Hst Ha) as (x & Hx & _).
    apply elem_of_dom. by rewrite Hx. }
  apply subseteq_size in Hdom. rewrite !size_dom in Hdom. clear Hmax. lia.
Qed.

Lemma restored_tables_ok : few_enough → tables_ok restored_kept.
Proof.
  intros Hfew. destruct restored_pruned as (P & L & _). destruct Hopt as [Hp Hs Hl].
  destruct (ag_blank _ _ _ Hag) as (_ & Hbd & _). destruct (pr_rest _ _ P) as [_ Hdef].
  assert (options restored_kept = options m) as Ho'
    by (rewrite (pr_options _ _ P); apply (ag_options _ _ _ Hag)).
  assert (nextCommand restored_kept = mx + 1) as Hn' by (by rewrite (pr_next _ _ P)).
  pose proof (ag_next _ _ _ Hag). constructor; rewrite ?Ho', ?Hn'; try done.
  - lia.
  - intros id st Hst. replace (mx + 1 - 1) with mx by lia. apply (ag_log_commands _ _ _ Hag).
    by apply (pr_commands _ _ P) in Hst.
  - eapply pruned_latest_ok; [apply restored_latest|done].
  - rewrite Hdef. change (deferredSynchronousReports restored_tables) with
      (deferredSynchronousReports log). rewrite Hbd, len_nil. lia.
Qed.

Lemma restored_kept_agrees : agrees restored_kept log mx.
Proof. eapply agrees_pruned; [apply restored_agrees|apply restored_pruned]. Qed.

Lemma restored_resumes : resumes m restored_kept.
Proof.
  set (s' := restored_kept). destruct restored_pruned as (P & _). fold s' in P. destruct (pr_observed _ _ P) as (P1 & P2 & P3).
  assert (∀ id st, commands m !! id = Some st → active (cs_status st) = true →
    ∃ st', commands s' !! id = Some st' ∧ same_command st st') as Hact.
  { intros id st Hst Ha. destruct (ag_commands _ _ _ Hag _ _ Hst) as (x & Hx & Hs).
    exists x. split; [|done]. destruct (commands s' !! id) as [y|] eqn:Hy.
    - apply (pr_commands _ _ P) in Hy. change (commands log !! id = Some y) in Hy. congruence.
    - pose proof (pr_ended _ _ P id x Hx Hy) as Hx'. rewrite (sc_status _ _ Hs) in Hx'. congruence. }
  constructor.
  - done.
  - intros id st' Hst' Ha. apply (pr_commands _ _ P) in Hst'. by eapply agrees_active.
  - intros key id st Hst Ha. destruct (Hact _ _ Hst Ha) as (x & Hx & _). split; intros Hl.
    + apply (pr_kept _ _ P); [|by rewrite Hx]. by apply (ag_latest _ _ _ Hag).
    + apply (ag_kept _ _ _ Hag); [|by rewrite Hst]. by apply (pr_latest _ _ P).
  - destruct Hag as [Ho Hb Hn Hlc Hll Hix Hcs Hf Hla Hk Hob Hre Hau].
    rewrite P1, P2, P3. cbn. done.
  - rewrite (pr_next _ _ P). cbn. pose proof (ag_next _ _ _ Hag). lia.
  - intros id st Hst. destruct (ag_commands _ _ _ Hag _ _ Hst) as (x & Hx & _).
    destruct (ag_log_commands _ _ _ Hag _ _ Hx) as [_ [_ ?] _ _ _ _].
    rewrite (pr_next _ _ P). cbn. lia.
Qed.
End Restart.

(** Restoring succeeds when the active commands fit, and yields tables that
    agree with the log. *)
Lemma restore_cases meta records m log mx w :
  rfold restore_record records (blank (options m), 0) = Ok (log, mx) → agrees m log mx →
  nextCommand m <= u64_max → project meta records = Ok w →
  restore meta records (blank (options m)) =
  (reject_if (maximumRetainedCommands (options m) <? N.of_nat (size (commands (restored_kept m log mx))))
     EventStoreError "active command capacity exceeded";; Ok (restored_kept m log mx)).
Proof.
  intros Hr Hag Hmax Hw. unfold restore. rewrite Hw. go. rewrite Hr. go.
  pose proof (ag_next _ _ _ Hag).
  rewrite (proj2 (N.eqb_neq mx u64_max)) by lia. go.
  fold (restored_tables log mx). rewrite (restored_prune m log mx Hag).
  by destruct (maximumRetainedCommands (options m) <? _).
Qed.
