(* ===== verification/RuntimeEffectsSpec.v ===== *)
(** * The operations of a runtime's effects keep tables and log in step

    [good] says that the tables are in order, that the waiting observations name
    well-formed routes and targets, and that restoring the log would yield the
    tables.  Every operation keeps it, however it ends: when the store, an
    adapter or a check throws, what is recorded and what is in memory still
    agree. *)
From S2P Require Import Prelude OrderedMap Values ValueCodec Effects Events EventStore Feedback Adapters Hoare Replay RuntimeEffects RuntimeRestore RuntimeLog.

(** What the types of the observations in the channels guarantee. *)
Definition channels_typed (h : heap) : Prop :=
  ∀ address s, h !! address = Some (Some s) → Forall typed_observation (observations s).

(** Adapters send observations of that type, too. *)
Class TypedAdapter (A : Type) `{EffectAdapter A} := {
  dispatch_typed c f a h x w :
    channels_typed h → Adapters.dispatch c f (a, h) = (x, w) → channels_typed w.2
}.

Section Good.
Context {A : Type} `{TypedAdapter A} {S : Type} `{EventStoreLaws S store_ok}.
Abbreviation E := (Effects A S).
Implicit Types (e : E) (m log : RuntimeEffectsState).

Definition logs e log mx : Prop :=
  rfold restore_record (store_read_all (store e)) (blank (options (members e)), 0) = Ok (log, mx).

(** The store belongs to the session. *)
Record store_fits e : Prop := {
  sf_ok : store_ok (store e);
  sf_session : session (store_metadata (store e)) = es_session (options (members e));
  sf_timing : feedbackTiming (store_metadata (store e)) = timing (options (members e))
}.

Record good e : Prop := {
  gd_tables : tables_ok (members e);
  gd_channels : channels_typed (channels e);
  gd_store : store_fits e;
  gd_log : ∃ log mx, logs e log mx ∧ agrees (members e) log mx
}.

Abbreviation sound := (keeps (within good)).

Lemma sound_of_wp {X} (m : stm E X) : (∀ e, good e → wp m (λ _ e', good e') e) → sound m.
Proof. done. Qed.

(** ** Recording *)

Definition only_store e e' : Prop :=
  members e' = members e ∧ objects e' = objects e ∧ channels e' = channels e.

Definition extended e e' (r : EventRecord) : Prop :=
  store_ok (store e') ∧ store_metadata (store e') = store_metadata (store e) ∧
  store_read_all (store e') = store_read_all (store e) ++ [r].

(** A good state after an event that restoring follows into [log'], with tables
    that agree with it. *)
Lemma good_extended e e' r m' log mx log' mx' :
  good e → only_store e e' → extended e e' r → logs e log mx →
  restore_record (log, mx) r = Ok (log', mx') →
  options m' = options (members e) → tables_ok m' → agrees m' log' mx' →
  good (set_members m' e').
Proof.
  intros [Ht Hc [Hs Hss Hst] _] (Hm & Ho & Hch) (Hok & Hmd & Hr) Hl Hre Hopt Ht' Ha.
  constructor; cbn; [done|by rewrite Hch| |].
  - split; cbn; rewrite ?Hmd, ?Hopt; done.
  - exists log', mx'. split; [|done]. unfold logs. cbn. rewrite Hopt, Hr, rfold_app.
    unfold logs in Hl. rewrite Hl. cbn [mbind res_bind rfold]. by rewrite Hre.
Qed.

Lemma good_same_log e e' :
  good e → only_store e e' → store_ok (store e') →
  store_metadata (store e') = store_metadata (store e) →
  store_read_all (store e') = store_read_all (store e) → good e'.
Proof.
  intros [Ht Hc [Hs Hss Hst] (log & mx & Hl & Ha)] (Hm & Ho & Hch) Hok Hmd Hr.
  constructor; rewrite ?Hm, ?Hch; try done.
  - split; rewrite ?Hm, ?Hmd; done.
  - exists log, mx. unfold logs. by rewrite Hm, Hr.
Qed.

(** Tables that agree with the same log. *)
Lemma good_tables e m' :
  good e → options m' = options (members e) → tables_ok m' →
  (∀ log mx, agrees (members e) log mx → agrees m' log mx) → good (set_members m' e).
Proof.
  intros [Ht Hc [Hs Hss Hst] (log & mx & Hl & Ha)] Ho Ht' Ha'.
  constructor; cbn; try done.
  - split; cbn; rewrite ?Ho; done.
  - exists log, mx. unfold logs. cbn. rewrite Ho. split; [done|by apply Ha'].
Qed.

Lemma good_channels e h : good e → channels_typed h → good (set_channels h e).
Proof. intros [? ? [] ?] ?. by constructor. Qed.

Lemma append_wp type p d e :
  good e →
  wp (append type p d) (λ x e', only_store e e' ∧
    match x with
    | Ok _ => ∃ q, q ≠ 0 ∧ extended e e' (MkEventRecord q type 1 p)
    | Err _ => good e'
    end) e.
Proof.
  intros Hg. pose proof (gd_store _ Hg) as [Hok _ _]. apply wp_intro. intros x e'.
  unfold append, on_store, zoom, mbind, stm_bind. rewrite (append_is_batch _ _ _).
  destruct (store_append_batch [MkEventData type 1 p] d (store e)) as [[ids|ex] s'] eqn:E;
    unfold mbind, stm_bind; rewrite E; intros [= <- <-].
  - destruct (append_batch_appends _ _ _ _ _ Hok E) as (Hok' & _ & Hmd & first & _ & Hr & Hf).
    split; [done|]. exists first. split; [by apply Hf|]. done.
  - destruct (append_batch_fails _ _ _ _ _ Hok E) as (Hok' & Hr & Hmd).
    split; [done|]. by apply (good_same_log e).
Qed.

Lemma record_wp type (p : res value) e :
  good e →
  wp (record type p) (λ x e', only_store e e' ∧
    match x with
    | Ok _ => ∃ v q, p = Ok v ∧ q ≠ 0 ∧ extended e e' (MkEventRecord q type 1 v)
    | Err _ => good e'
    end) e.
Proof.
  intros Hg. unfold record. apply wp_bind. apply wp_lift. destruct p as [v|ex]; cbn; [|by split].
  eapply wp_mono; [by apply append_wp|]. intros [[]|ex] e' [Ho Hx]; (split; [done|]); [|done].
  destruct Hx as (q & ? & ?). by exists v, q.
Qed.

(** Events that restoring passes over. *)
Definition passed_over (type : event_type) : bool :=
  negb (bool_decide (type ∈ [EventType.Checkpoint; EventType.CommandIssued;
    EventType.CommandAttempted; EventType.CommandStatusChanged; EventType.ObservedStateChanged])).

Lemma restore_passed_over x r : passed_over (type r) = true → restore_record x r = Ok x.
Proof.
  unfold passed_over, restore_record. rewrite negb_true_iff, bool_decide_eq_false.
  rewrite !elem_of_cons, elem_of_nil. destruct x as [s mx]. intros Hn.
  repeat (rewrite (proj2 (N.eqb_neq _ _)) by (intros E; apply Hn; rewrite E; tauto)). done.
Qed.

Lemma set_members_same e : set_members (members e) e = e.
Proof. by destruct e. Qed.

Lemma record_passed_over type p e :
  passed_over type = true → good e →
  wp (record type p) (λ _ e', only_store e e' ∧ good e') e.
Proof.
  intros Hp Hg. eapply wp_mono; [by apply record_wp|]. intros [[]|ex] e' [Ho Hx]; (split; [done|]); [|done].
  destruct Hx as (v & q & _ & _ & Hx). pose proof (gd_log _ Hg) as (log & mx & Hl & Ha).
  rewrite <-(set_members_same e'). pose proof Ho as (Hm & _).
  apply (good_extended e e' (MkEventRecord q type 1 v) (members e') log mx log mx); try done.
  - by apply restore_passed_over.
  - by rewrite Hm.
  - rewrite Hm. apply Hg.
  - by rewrite Hm.
Qed.

Lemma sound_passed_over type p : passed_over type = true → sound (record type p).
Proof. intros Hp e Hg. exact (proj2 (record_passed_over type p e Hp Hg)). Qed.

Lemma sound_flush : sound flush.
Proof.
  intros e Hg. unfold flush, on_store, zoom.
  destruct (store_flush (store e)) as [x s'] eqn:E.
  destruct (flush_keeps _ _ _ (sf_ok _ (gd_store _ Hg)) E) as (Hok & Hr & Hm).
  by apply (good_same_log e).
Qed.

(** ** One command *)

Lemma wp_on_members {X} (f : stm RuntimeEffectsState X) (Q : res X → E → Prop) e :
  wp f (λ x m, Q x (set_members m e)) (members e) → wp (on_members f) Q e.
Proof. apply wp_zoom. Qed.

Lemma wp_command_at id (Q : res CommandState → E → Prop) e :
  (∀ st, commands (members e) !! id = Some st → Q (Ok st) e) →
  (commands (members e) !! id = None → Q (throw out_of_range "map::at") e) →
  wp (on_members (command_at id)) Q e.
Proof.
  intros Hs Hn. apply wp_on_members. unfold wp, command_at.
  destruct (commands (members e) !! id) as [st|] eqn:E; cbn; rewrite set_members_same; auto.
Qed.

Lemma keeps_command_at (R : E → E → Prop) `{!PreOrder R} id : keeps R (on_members (command_at id)).
Proof. intros e. by apply (wp_command_at id (λ _ e', R e e') e). Qed.

Lemma wp_get_members (Q : res RuntimeEffectsState → E → Prop) e :
  Q (Ok (members e)) e → wp get_members Q e.
Proof. done. Qed.

Lemma keeps_get_members (R : E → E → Prop) `{!PreOrder R} : keeps R get_members.
Proof. intros e. cbn. reflexivity. Qed.

(** [set_status] on a command that is there. *)
Definition after_status (id : N) (status : CommandStatus) (st : CommandState) m :=
  let m' := set_command id (with_status status st) m in
  if active (cs_status st) && negb (active status)
  then set_terminal_order (terminalOrder m ++ [command_id (cs_command st)]) m' else m'.

Lemma update_command_eq id f st m :
  commands m !! id = Some st →
  set_commands (alter f id (commands m)) m = set_command id (f st) m.
Proof.
  intros Hst. unfold set_command. f_equal. apply map_eq. intros j.
  destruct (decide (j = id)) as [->|Hne].
  - by rewrite lookup_alter_eq, lookup_insert_eq, Hst.
  - by rewrite lookup_alter_ne, lookup_insert_ne.
Qed.

Lemma set_status_eq id status st m :
  commands m !! id = Some st → set_status id status m = (Ok tt, after_status id status st m).
Proof.
  intros Hst. unfold set_status. erewrite stm_bind_eq by (unfold command_at; by rewrite Hst).
  unfold update_command. erewrite stm_bind_eq by done.
  rewrite (update_command_eq id _ st) by done. unfold after_status.
  by destruct (active _ && _).
Qed.

Lemma after_status_tables id status st m :
  tables_ok m → commands m !! id = Some st → status ≠ Pending →
  tables_ok (after_status id status st m).
Proof.
  intros Ht Hst Hp. destruct (to_commands _ Ht _ _ Hst) as [Hid _ _ _ _ Hr].
  unfold after_status. destruct (active (cs_status st)) eqn:Ha; cbn [andb].
  - destruct (active status) eqn:Hs; cbn [negb].
    + eapply tables_set_command; try done. cbn. congruence.
    + pose proof (tables_push_terminal _ [command_id (cs_command st)] Ht) as Ht'.
      apply (tables_set_command _ id st (with_status status st)) in Ht'; try done.
      intros _. cbn. rewrite Hid. apply elem_of_app. right. by left.
  - eapply tables_set_command; try done. intros _. by eapply to_terminal.
Qed.

Lemma after_status_agrees id status st m log mx st' :
  agrees m log mx → commands m !! id = Some st → commands log !! id = Some st' → status ≠ Pending →
  agrees (after_status id status st m) (set_command id (with_status status st') log) mx.
Proof.
  intros Ha Hst Hst' Hp.
  destruct (ag_commands _ _ _ Ha _ _ Hst) as (x & Hx & [Hc Hs Hr]).
  assert (x = st') as -> by congruence.
  assert (agrees (set_command id (with_status status st) m)
            (set_command id (with_status status st') log) mx) as Ha'.
  { eapply agrees_set_command; try done. by destruct (ag_log_commands _ _ _ Ha _ _ Hst'). }
  unfold after_status. destruct (active (cs_status st) && negb (active status)); [|done].
  by destruct Ha'; constructor.
Qed.

Lemma sound_transition id status reason : status ≠ Pending → sound (transition id status reason).
Proof.
  intros Hp. apply sound_of_wp. intros e Hg. unfold transition. apply wp_bind, wp_command_at; [|done].
  intros st Hst. cbn [then_wp]. apply wp_bind. eapply wp_mono; [by apply record_wp|].
  intros [[]|ex] e' [Ho Hx]; cbn [then_wp]; [|done].
  destruct Hx as (v & q & Hv & _ & Hx). pose proof Ho as (Hm & _).
  apply wp_on_members. unfold wp. rewrite Hm, (set_status_eq id status st) by done. cbn [fst snd].
  pose proof (gd_log _ Hg) as (log & mx & Hl & Ha).
  destruct (ag_commands _ _ _ Ha _ _ Hst) as (st' & Hst' & Hsame).
  pose proof (co_id _ _ _ _ (to_commands _ (gd_tables _ Hg) _ _ Hst)) as Hid. rewrite Hid in Hv.
  eapply good_extended; [done|done|done|done|by eapply restore_status_step|..].
  - unfold after_status. by destruct (_ && _).
  - apply after_status_tables; [apply Hg|done|done].
  - by apply after_status_agrees.
Qed.

Lemma sound_record_status id reason : sound (record_status id reason).
Proof.
  apply sound_of_wp. intros e Hg. unfold record_status. apply wp_bind, wp_command_at; [|done].
  intros st Hst. cbn [then_wp]. eapply wp_mono; [by apply record_wp|].
  intros [[]|ex] e' [Ho Hx]; [|done].
  destruct Hx as (v & q & Hv & _ & Hx). pose proof Ho as (Hm & _).
  pose proof (gd_log _ Hg) as (log & mx & Hl & Ha).
  destruct (ag_commands _ _ _ Ha _ _ Hst) as (st' & Hst' & Hsame).
  pose proof (co_id _ _ _ _ (to_commands _ (gd_tables _ Hg) _ _ Hst)) as Hid. rewrite Hid in Hv.
  rewrite <-(set_members_same e'). rewrite Hm.
  eapply good_extended; [done|done|done|done|by eapply restore_status_step|done|apply Hg|].
  rewrite <-(sc_status _ _ Hsame).
  assert (with_status (cs_status st') st' = st') as -> by by destruct st'.
  change (set_commands (<[id := st']> (commands log)) log) with (set_command id st' log).
  by rewrite (set_command_same log id st').
Qed.

(** A change of one command that nothing records. *)
Lemma sound_update_command id f :
  (∀ st, cs_command (f st) = cs_command st ∧ cs_status (f st) = cs_status st ∧
     cs_retryIndex (f st) = cs_retryIndex st) →
  sound (on_members (update_command id f)).
Proof.
  intros Hf. apply sound_of_wp. intros e Hg. apply wp_on_members. unfold update_command. apply wp_modify.
  destruct (commands (members e) !! id) as [st|] eqn:Hst.
  - destruct (Hf st) as (F1 & F2 & F3).
    rewrite (update_command_eq id f st) by done.
    apply good_tables; [done|done| |].
    + apply (tables_set_command _ id st); [apply Hg|done|done|congruence| |].
      * rewrite F3. by destruct (to_commands _ (gd_tables _ Hg) _ _ Hst).
      * rewrite F2. intros Ha. by eapply (to_terminal _ (gd_tables _ Hg)).
    + intros log mx Ha. destruct (ag_commands _ _ _ Ha _ _ Hst) as (st' & Hst' & [S1 S2 S3]).
      eapply agrees_set_memory; try done. by split; rewrite ?F1, ?F2, ?F3.
  - assert (alter f id (commands (members e)) = commands (members e)) as ->.
    { apply map_eq. intros j. destruct (decide (j = id)) as [->|Hne].
      - by rewrite lookup_alter_eq, Hst.
      - by rewrite lookup_alter_ne. }
    assert (set_commands (commands (members e)) (members e) = members e) as -> by by destruct (members e).
    by rewrite set_members_same.
Qed.

(** ** What stays of the commands *)

(** No command disappears or comes to command something else. *)
Record steady e e' : Prop := {
  st_options : options (members e') = options (members e);
  st_commands : ∀ id st, commands (members e) !! id = Some st →
    ∃ st', commands (members e') !! id = Some st' ∧ cs_command st' = cs_command st;
  st_deferred : deferredSynchronousReports (members e') = deferredSynchronousReports (members e);
  st_channels : channels e' = channels e
}.

#[export] Instance steady_preorder : PreOrder steady.
Proof.
  split; [intros e; split; eauto|]. intros e1 e2 e3 [O1 C1 D1 H1'] [O2 C2 D2 H2'].
  split; [congruence| |congruence|congruence]. intros id st Hst. destruct (C1 _ _ Hst) as (x & Hx & E1).
  destruct (C2 _ _ Hx) as (y & Hy & E2). exists y. split; [done|congruence].
Qed.

Lemma only_store_steady e e' : only_store e e' → steady e e'.
Proof. intros (Hm & _ & Hc). split; rewrite ?Hm; eauto. Qed.

Lemma steady_append type p d : keeps steady (append type p d).
Proof.
  intros e. unfold append, on_store, zoom, mbind, stm_bind.
  by destruct (store_append _ d (store e)) as [[x|ex] s']; apply only_store_steady.
Qed.

Lemma steady_record type p : keeps steady (record type p).
Proof.
  unfold record. apply keeps_bind; [apply _|intros e; reflexivity|intros v; apply steady_append].
Qed.

Lemma steady_members (f : RuntimeEffectsState → RuntimeEffectsState) :
  (∀ m, options (f m) = options m ∧ commands (f m) = commands m ∧
     deferredSynchronousReports (f m) = deferredSynchronousReports m) →
  keeps steady (on_members (smodify f)).
Proof.
  intros Hf e. destruct (Hf (members e)) as (F1 & F2 & F3).
  split; cbn; [done|rewrite F2; eauto|done|done].
Qed.

Lemma steady_set_command id st st1 e m' :
  commands (members e) !! id = Some st → cs_command st1 = cs_command st →
  options m' = options (members e) → commands m' = commands (set_command id st1 (members e)) →
  deferredSynchronousReports m' = deferredSynchronousReports (members e) →
  steady e (set_members m' e).
Proof.
  intros Hst Hc Ho Hm Hd. split; cbn [members set_members]; [done| |done|done]. intros j x Hx. rewrite Hm. cbn.
  destruct (decide (j = id)) as [->|Hne].
  - rewrite lookup_insert_eq. exists st1. split; [done|congruence].
  - rewrite lookup_insert_ne by done. eauto.
Qed.

Lemma steady_set_status id status : keeps steady (on_members (set_status id status)).
Proof.
  intros e. apply (wp_on_members (set_status id status) (λ _ e', steady e e')). unfold wp.
  destruct (commands (members e) !! id) as [st|] eqn:Hst.
  - rewrite (set_status_eq _ _ st) by done. cbn [fst snd].
    apply (steady_set_command id st (with_status status st)); try done;
      unfold after_status; by destruct (_ && _).
  - unfold set_status, command_at, mbind, stm_bind. rewrite Hst. unfold throw. cbn [fst snd].
    by rewrite set_members_same.
Qed.

Lemma steady_update_command id f :
  (∀ st, cs_command (f st) = cs_command st) → keeps steady (on_members (update_command id f)).
Proof.
  intros Hf e. apply (wp_on_members (update_command id f) (λ _ e', steady e e')).
  unfold update_command. apply wp_modify. split; cbn; [done| |done|done]. intros j x Hx.
  destruct (decide (j = id)) as [->|Hne].
  - rewrite lookup_alter_eq, Hx. cbn. eauto.
  - rewrite lookup_alter_ne by done. eauto.
Qed.

Lemma steady_transition id status reason : keeps steady (transition id status reason).
Proof.
  unfold transition. apply keeps_bind; [apply _|apply keeps_command_at; apply _|intros st].
  apply keeps_bind; [apply _|apply steady_record|intros _; apply steady_set_status].
Qed.

Lemma wp_keeps_sound {X} (R : E → E → Prop) (f : stm E X) e :
  keeps R f → sound f → good e → wp f (λ _ e', R e e' ∧ good e') e.
Proof. intros HR Hs Hg. split; [apply HR|by apply Hs]. Qed.

Lemma sound_get_members : sound get_members.
Proof. by intros e. Qed.
Lemma sound_query {X} (f : RuntimeEffectsState → X) : sound (members_query f).
Proof. by intros e. Qed.
Lemma sound_command_at id : sound (on_members (command_at id)).
Proof. apply keeps_command_at, _. Qed.

(** Members that neither the log nor the order of the tables depends on. *)
Lemma sound_deferred f :
  (∀ m, tables_ok m → len (f (deferredSynchronousReports m)) <= maximumDeferredReports (options m)) →
  sound (on_members (smodify (λ s, set_deferred (f (deferredSynchronousReports s)) s))).
Proof.
  intros Hf. apply sound_of_wp. intros e Hg. apply wp_on_members, wp_modify.
  pose proof (gd_tables _ Hg) as Ht. apply good_tables; [done|done| |].
  - pose proof (Hf _ Ht) as Hdf. destruct Ht as [Hp Hs Hl Hn Hc Hlat Hte Hcap Hd].
    constructor; try done. by destruct Hlat; split.
  - intros log mx []. by constructor.
Qed.

(** ** Feedback *)

Lemma sound_record_report r disposition : sound (record_report r disposition).
Proof. by apply sound_passed_over. Qed.

(** A recorded observation, in the log and in the tables. *)
Lemma observe_wp e e' key v revision id w q :
  good e → only_store e e' → extended e e' (MkEventRecord q EventType.ObservedStateChanged 1 w) →
  (∀ log mx, agrees (members e) log mx →
     restore_record (log, mx) (MkEventRecord q EventType.ObservedStateChanged 1 w) =
       Ok (observe_tables key v revision id log, mx)) →
  good (set_members (observe_tables key v revision id (members e')) e').
Proof.
  intros Hg Ho Hx Hr. pose proof (gd_log _ Hg) as (log & mx & Hl & Ha).
  pose proof Ho as (Hm & _). rewrite Hm.
  eapply good_extended; [done|done|done|done|by apply Hr|done|apply tables_observe, Hg|].
  by apply agrees_observe.
Qed.

Lemma commit_wp route target v revision (id : N) e :
  good e → typed_texts route target → revision ≠ 0 → is_Some (commands (members e) !! id) →
  wp (commit_authoritative route target v revision id) (λ _ e', good e') e.
Proof.
  intros Hg Ht Hr [st Hst]. unfold commit_authoritative.
  apply wp_bind. eapply wp_mono; [by apply record_wp|].
  intros [[]|ex] e' [Ho Hx]; cbn [then_wp]; [|done]. destruct Hx as (w & q & Hw & _ & Hx).
  apply wp_on_members, wp_modify. change (smodify _) with
    (smodify (observe_tables (target_key route target) v revision (Some id))).
  apply (observe_wp e e' (target_key route target) v revision (Some id) w q); [done..|].
  intros log mx Ha. apply (restore_observed_step log mx route target v revision id); try done.
  destruct (ag_commands _ _ _ Ha _ _ Hst) as (st' & Hst' & _). by rewrite Hst'.
Qed.

Lemma observe_report_wp r e st :
  good e → validate_effect_report r = Ok tt → report_status r = Applied →
  commands (members e) !! report_command r = Some st →
  report_route r = adapterRoute (effect (cs_command st)) →
  report_target r = target (effect (cs_command st)) →
  wp (observe_report r) (λ _ e', good e') e.
Proof.
  intros Hg (_ & _ & _ & Hob & Hrev & _)%validate_effect_report_ok Happ Hst Hrt Htg.
  destruct (proj1 Hob Happ) as [v Hv]. unfold observe_report.
  apply wp_bind, wp_get_members. cbn [then_wp]. apply wp_bind, wp_lift.
  unfold reported_value. rewrite Hv. cbn [then_wp].
  assert (typed_texts (report_route r) (report_target r)) as Hty.
  { rewrite Hrt, Htg. apply (co_typed _ _ _ _ (to_commands _ (gd_tables _ Hg) _ _ Hst)). }
  assert (wp (commit_authoritative (report_route r) (report_target r) v (report_revision r)
            (report_command r)) (λ _ e', good e') e) as Hc.
  { apply commit_wp; [done|done|by apply Hrev|exact (mk_is_Some _ _ Hst)]. }
  destruct (observedRevisions (members e) !! _) as [revision|]; [|done].
  destruct (_ <? _); [by apply wp_ret|]. destruct (_ =? _); [|done].
  case_bool_decide; [by apply wp_ret|]. by apply sound_record_report.
Qed.

Lemma sound_apply_report accepted r : sound (apply_report accepted r).
Proof.
  apply sound_of_wp. intros e Hg. unfold apply_report. apply wp_bind, wp_lift.
  destruct (validate_effect_report r) as [[]|ex] eqn:Hval; cbn [then_wp]; [|done].
  pose proof Hval as (_ & _ & Hnp & _)%validate_effect_report_ok.
  apply wp_bind, wp_get_members. cbn [then_wp].
  assert (∀ d, wp (record_report r d;; mret accepted) (λ _ e', good e') e) as Hrec.
  { intros d. apply (keeps_bind (within good)); [apply sound_record_report|intros []; apply keeps_ret, _|done]. }
  destruct (if _ =? _ then _ else None) as [st|] eqn:Hst; [|apply Hrec].
  assert (commands (members e) !! report_command r = Some st) as Hst'.
  { by destruct (_ =? _). }
  clear Hst. case_bool_decide as Hr1; [apply Hrec|]. case_bool_decide as Hr2; [apply Hrec|].
  cbn [orb].
  destruct (cs_terminalReport st) as [terminal|]; [apply Hrec|].
  destruct (bool_decide (cs_status st = Superseded) && _); [apply Hrec|].
  (* the report is accepted *)
  apply wp_bind. eapply wp_mono.
  { apply (wp_keeps_sound steady); [apply steady_record|apply sound_record_report|done]. }
  intros [[]|ex] e1 [S1 G1]; cbn [then_wp]; [|done].
  apply wp_bind. eapply wp_mono.
  { apply (wp_keeps_sound steady (if bool_decide _ then mret tt else _)); [| |exact G1].
    - destruct (bool_decide _); [apply keeps_ret; apply _|apply steady_transition].
    - destruct (bool_decide _); [by intros ?|by apply sound_transition]. }
  intros [[]|ex] e2 [S2 G2]; cbn [then_wp]; [|done].
  apply wp_bind. eapply wp_mono.
  { apply (wp_keeps_sound steady); [by apply steady_update_command|by apply sound_update_command|done]. }
  intros [[]|ex] e3 [S3 G3]; cbn [then_wp]; [|done].
  apply wp_bind. apply (wp_mono _ (λ _ e', good e')); [|by intros [[]|ex] e4 G4].
  case_bool_decide as Happ; [|by apply wp_ret].
  assert (steady e e3) as Hst13 by (etrans; [exact S1|]; by etrans).
  destruct (st_commands _ _ Hst13 _ _ Hst') as (st3 & Hst3 & Hc3).
  eapply observe_report_wp; [done|done|done|done|by rewrite Hc3..].
Qed.

Lemma sound_apply_observation accepted o :
  typed_observation o → sound (apply_observation accepted o).
Proof.
  intros Hty. apply sound_of_wp. intros e Hg. unfold apply_observation. apply wp_bind, wp_lift.
  destruct (validate_external_observation o) as [[]|ex] eqn:Hval; cbn [then_wp]; [|done].
  assert (observation_revision o ≠ 0) as Hrev.
  { unfold validate_external_observation in Hval. rewrite !guard_ok in Hval.
    unfold valid in Hval. destruct Hval as (_ & Hv & _). lia. }
  apply wp_bind. apply (wp_intro (members_query _)). intros x e0 [= <- <-]. cbn [then_wp].
  apply wp_bind. eapply wp_mono; [by apply (record_passed_over _ _ e)|].
  intros [[]|ex] e1 [_ G1]; cbn [then_wp]; [|done].
  destruct (negb _); [by apply wp_ret|].
  apply wp_bind. eapply wp_mono; [by apply record_wp|].
  intros [[]|ex] e2 [Ho Hx]; cbn [then_wp]; [|done]. destruct Hx as (w & q & Hw & _ & Hx).
  apply wp_bind, wp_on_members, wp_modify. cbn [then_wp]. apply wp_ret.
  apply (observe_wp e1 e2 _ (observedValue o) (observation_revision o) None w q); [done..|].
  intros log mx Ha. by apply restore_external_step.
Qed.
End Good.
