(* ===== verification/RuntimeEffectsRuns.v ===== *)
(** * Every operation of a runtime's effects keeps tables and log in step

    The operations a frame consists of, after the recording of single events in
    [RuntimeEffectsSpec]: taking in feedback, dispatching, retrying, issuing,
    the registration of adapters and reconciliation. *)
From stdpp Require Import fin_maps.
From S2P Require Import Prelude OrderedMap Values ValueCodec Effects Events EventStore Feedback Adapters Hoare Replay RuntimeEffects RuntimeRestore RuntimeLog RuntimeEffectsSpec.

(** ** Commands that look the same to the log *)

Record alike (st st' : CommandState) : Prop := {
  al_command : cs_command st' = cs_command st;
  al_status : cs_status st' = cs_status st;
  al_retry : cs_retryIndex st' = cs_retryIndex st
}.

Lemma agrees_alike m m' log mx :
  agrees m log mx →
  options m' = options m → nextCommand m' = nextCommand m → latestByTarget m' = latestByTarget m →
  observed m' = observed m → observedRevisions m' = observedRevisions m →
  authoritativeByTarget m' = authoritativeByTarget m →
  (∀ id, option_relation alike (λ _, False) (λ _, False) (commands m !! id) (commands m' !! id)) →
  agrees m' log mx.
Proof.
  intros [Ho Hb Hn Hlc Hll Hix Hcs Hf Hla Hk Hob Hre Hau] E1 E2 E3 E4 E5 E6 Hc.
  constructor; rewrite ?E1, ?E2, ?E3, ?E4, ?E5, ?E6; try done.
  - intros id st Hst. specialize (Hc id). rewrite Hst in Hc.
    destruct (commands m !! id) as [x|] eqn:Hx; [|done]. destruct Hc as [A1 A2 A3].
    destruct (Hcs _ _ Hx) as (y & Hy & [S1 S2 S3]). exists y. split; [done|]. split; congruence.
  - intros id st Hst Hnone. specialize (Hc id). rewrite Hnone in Hc.
    destruct (commands m !! id) as [x|] eqn:Hx; [done|]. by eapply Hf.
  - intros key l Hl [x Hx]. apply Hk; [done|]. specialize (Hc l). rewrite Hx in Hc.
    by destruct (commands m !! l).
Qed.

(** Commands that a new adapter makes indeterminate. *)
Definition mark_one (s : RuntimeEffectsState) (id : N) : RuntimeEffectsState :=
  set_commands (alter (with_status Indeterminate) id (commands s)) s.
Definition mark (ids : list N) (s : RuntimeEffectsState) : RuntimeEffectsState :=
  foldl mark_one s ids.

Lemma mark_frame ids s :
  options (mark ids s) = options s ∧ nextCommand (mark ids s) = nextCommand s ∧
  latestByTarget (mark ids s) = latestByTarget s ∧ observed (mark ids s) = observed s ∧
  observedRevisions (mark ids s) = observedRevisions s ∧
  authoritativeByTarget (mark ids s) = authoritativeByTarget s.
Proof.
  unfold mark. revert s. induction ids as [|id ids IH]; intros s; cbn [foldl]; [done|].
  destruct (IH (mark_one s id)) as (-> & -> & -> & -> & -> & ->). done.
Qed.

Lemma mark_lookup ids s id :
  commands (mark ids s) !! id =
  (if decide (id ∈ ids) then with_status Indeterminate <$> commands s !! id else commands s !! id).
Proof.
  unfold mark. revert s. induction ids as [|j ids IH]; intros s; cbn [foldl].
  - by rewrite decide_False by apply not_elem_of_nil.
  - rewrite IH. unfold mark_one. cbn [commands set_commands].
    destruct (decide (id = j)) as [->|Hne].
    + rewrite lookup_alter_eq. destruct (decide (j ∈ j :: ids)) as [_|Hn]; [|by destruct Hn; left].
      case_decide; [|done]. by destruct (commands s !! j).
    + rewrite lookup_alter_ne by done. by destruct (decide (id ∈ ids)), (decide (id ∈ j :: ids)) as [Hx|Hx];
        rewrite elem_of_cons in Hx; try tauto.
Qed.

Section Runs.
Context {A : Type} `{TypedAdapter A} {S : Type} `{EventStoreLaws S store_ok}.
Abbreviation E := (Effects A S).
Implicit Types (e : E) (m log : RuntimeEffectsState).
Abbreviation good := (good (A := A) (S := S) (store_ok := store_ok)).
Abbreviation sound := (keeps (within good)).
Abbreviation steady := (steady (A := A) (S := S)).

(** ** Channels *)

Lemma sound_channels {X} (f : stm heap X) :
  keeps (within channels_typed) f → sound (on_channels f).
Proof.
  intros Hf e Hg. specialize (Hf (channels e) (gd_channels _ Hg)). unfold on_channels, zoom.
  destruct (f (channels e)) as [x h]. by apply good_channels.
Qed.

Lemma heap_insert (h : heap) address s : <[address := s]> h !! address = Some s.
Proof. apply lookup_insert_eq. Qed.

Lemma channels_typed_insert h address s :
  channels_typed h → Forall typed_observation (observations s) →
  channels_typed (<[address := Some s]> h).
Proof.
  intros Hh Hs a x [[<- [= <-]]|[_ Hx]]%lookup_insert_Some; [done|by eapply Hh].
Qed.

(** What receiving does to the channels. *)
Lemma try_receive_cases receiver h :
  (try_receive receiver h = (Ok None, h) ∧
   (∀ address s, receiver = Some address → h !! address = Some (Some s) → reports s = [])) ∨
  ∃ address s r rest, receiver = Some address ∧ h !! address = Some (Some s) ∧
    reports s = r :: rest ∧
    try_receive receiver h = (Ok (Some r), <[address := Some (with_reports rest s)]> h).
Proof.
  unfold try_receive, mbind, stm_bind, lock. cbn. destruct receiver as [a|]; [|by left].
  destruct (h !! a) as [[s|]|] eqn:Ha; cbn.
  - destruct (reports s) as [|r rest] eqn:Hr; [left|right].
    + split; [done|]. intros ? ? [= <-]. congruence.
    + by exists a, s, r, rest.
  - left. split; [done|]. intros ? ? [= <-]. congruence.
  - left. split; [done|]. intros ? ? [= <-]. congruence.
Qed.

Lemma try_receive_observation_cases receiver h :
  (try_receive_observation receiver h = (Ok None, h) ∧
   (∀ address s, receiver = Some address → h !! address = Some (Some s) → observations s = [])) ∨
  ∃ address s o rest, receiver = Some address ∧ h !! address = Some (Some s) ∧
    observations s = o :: rest ∧
    try_receive_observation receiver h = (Ok (Some o), <[address := Some (with_observations rest s)]> h).
Proof.
  unfold try_receive_observation, mbind, stm_bind, lock. cbn. destruct receiver as [a|]; [|by left].
  destruct (h !! a) as [[s|]|] eqn:Ha; cbn.
  - destruct (observations s) as [|o rest] eqn:Hr; [left|right].
    + split; [done|]. intros ? ? [= <-]. congruence.
    + by exists a, s, o, rest.
  - left. split; [done|]. intros ? ? [= <-]. congruence.
  - left. split; [done|]. intros ? ? [= <-]. congruence.
Qed.

(** ** Reports and observations *)

Lemma steady_record_report r d : keeps steady (record_report r d).
Proof. apply steady_record. Qed.

Lemma steady_query {X} (f : RuntimeEffectsState → X) : keeps steady (members_query f).
Proof. intros e. cbn. reflexivity. Qed.

#[local] Hint Resolve steady_record_report steady_query steady_record steady_transition
  keeps_get_members keeps_command_at : keeps.

Lemma steady_commit route target v revision id :
  keeps steady (commit_authoritative route target v revision id).
Proof. unfold commit_authoritative. keep_steps. by apply steady_members. Qed.
#[local] Hint Resolve steady_commit : keeps.

Lemma steady_observe_report r : keeps steady (observe_report r).
Proof. unfold observe_report, get_members. keep_steps. Qed.
#[local] Hint Resolve steady_observe_report : keeps.

Lemma steady_apply_report accepted r : keeps steady (apply_report accepted r).
Proof. unfold apply_report, get_members. keep_steps. by apply steady_update_command. Qed.

Lemma steady_apply_observation accepted o : keeps steady (apply_observation accepted o).
Proof. unfold apply_observation. keep_steps. by apply steady_members. Qed.

(** Both at once, for one that is applied. *)
Lemma apply_report_wp accepted r e :
  good e → wp (apply_report accepted r) (λ _ e', steady e e' ∧ good e') e.
Proof. intros Hg. apply wp_keeps_sound; [apply steady_apply_report|by apply sound_apply_report|done]. Qed.

Lemma apply_observation_wp accepted o e :
  good e → typed_observation o →
  wp (apply_observation accepted o) (λ _ e', steady e e' ∧ good e') e.
Proof.
  intros Hg Ho. apply wp_keeps_sound; [apply steady_apply_observation| |done].
  by apply sound_apply_observation.
Qed.
(** *** The loops over a channel *)

Definition unread (f : FeedbackState → nat) e : nat :=
  match receiver (options (members e)) with
  | Some address => match channels e !! address with Some (Some s) => f s | _ => 0 end
  | None => 0
  end.
Definition unread_reports e : nat := unread (λ s, length (reports s)) e.
Definition unread_observations e : nat := unread (λ s, length (observations s)) e.

Lemma waiting_unread e : waiting e = (unread_reports e + unread_observations e)%nat.
Proof.
  unfold waiting, unread_reports, unread_observations, unread.
  destruct (receiver _) as [a|]; [|done]. by destruct (channels e !! a) as [[s|]|].
Qed.

Lemma steady_unread f e e' : steady e e' → unread f e' = unread f e.
Proof. intros Hs. unfold unread. by rewrite (st_options _ _ Hs), (st_channels _ _ Hs). Qed.

Lemma set_channels_same e : set_channels (channels e) e = e.
Proof. by destruct e. Qed.

Lemma receive_report_wp (Q : res (option EffectReport) → E → Prop) e :
  good e →
  (unread_reports e = 0%nat → Q (Ok None) e) →
  (∀ r e', good e' → members e' = members e →
     unread_reports e = Datatypes.S (unread_reports e') →
     unread_observations e' = unread_observations e → Q (Ok (Some r)) e') →
  wp (on_channels (try_receive (receiver (options (members e))))) Q e.
Proof.
  intros Hg Hnone Hsome. unfold on_channels, wp, zoom.
  destruct (try_receive_cases (receiver (options (members e))) (channels e))
    as [[-> Hr]|(a & s & r & rest & Ha & Hs & Hr & ->)]; cbn [fst snd].
  - rewrite set_channels_same. apply Hnone. unfold unread_reports, unread.
    destruct (receiver _) as [a|] eqn:Ha; [|done].
    destruct (channels e !! a) as [[s|]|] eqn:Hs; try done. by rewrite (Hr a s).
  - pose proof (gd_channels _ Hg _ _ Hs) as Hty.
    apply Hsome; [apply good_channels, channels_typed_insert; [done|apply (gd_channels _ Hg)|exact Hty]|done|..];
      unfold unread_reports, unread_observations, unread; cbn; rewrite Ha, Hs;
      by rewrite heap_insert, ?Hr.
Qed.

Lemma receive_observation_wp (Q : res (option ExternalObservation) → E → Prop) e :
  good e →
  (unread_observations e = 0%nat → Q (Ok None) e) →
  (∀ o e', good e' → members e' = members e → typed_observation o →
     unread_observations e = Datatypes.S (unread_observations e') →
     unread_reports e' = unread_reports e → Q (Ok (Some o)) e') →
  wp (on_channels (try_receive_observation (receiver (options (members e))))) Q e.
Proof.
  intros Hg Hnone Hsome. unfold on_channels, wp, zoom.
  destruct (try_receive_observation_cases (receiver (options (members e))) (channels e))
    as [[-> Hr]|(a & s & o & rest & Ha & Hs & Hr & ->)]; cbn [fst snd].
  - rewrite set_channels_same. apply Hnone. unfold unread_observations, unread.
    destruct (receiver _) as [a|] eqn:Ha; [|done].
    destruct (channels e !! a) as [[s|]|] eqn:Hs; try done. by rewrite (Hr a s).
  - pose proof (gd_channels _ Hg _ _ Hs) as Hty. rewrite Hr in Hty.
    apply Forall_cons in Hty as [Ho Hty].
    apply Hsome; [apply good_channels, channels_typed_insert; [done|apply (gd_channels _ Hg)|exact Hty]|done|done|..];
      unfold unread_reports, unread_observations, unread; cbn; rewrite Ha, Hs;
      by rewrite heap_insert, ?Hr.
Qed.

Lemma pop_deferred_wp (Q : res unit → E → Prop) e :
  Q (Ok tt) (set_members (set_deferred (tail (deferredSynchronousReports (members e))) (members e)) e) →
  wp pop_deferred Q e.
Proof. done. Qed.

Lemma good_deferred e l :
  good e → len l <= maximumDeferredReports (options (members e)) →
  good (set_members (set_deferred l (members e)) e).
Proof.
  intros Hg Hl. apply good_tables; [done|done| |].
  - destruct (gd_tables _ Hg) as [Hp Hs Hli Hn Hc Hlat Hte Hcap Hd].
    constructor; try done. by destruct Hlat; split.
  - intros log mx []. by constructor.
Qed.

Lemma receive_reports_wp fuel accepted e :
  good e → deferredSynchronousReports (members e) = [] →
  wp (receive_reports fuel accepted) (λ x e', good e' ∧
    ∀ a, x = Ok a → deferredSynchronousReports (members e') = [] ∧ unread_reports e' = 0%nat ∧
      options (members e') = options (members e) ∧
      unread_observations e' = unread_observations e) e.
Proof.
  revert accepted e. induction fuel as [|fuel IH]; intros accepted e Hg Hd; cbn [receive_reports].
  { apply wp_throw. done. }
  apply wp_bind, wp_get_members. cbn [then_wp]. apply wp_bind, receive_report_wp; [done|..].
  - intros Hnone. cbn [then_wp]. apply wp_ret. split; [done|]. by intros a [= <-].
  - intros r e1 G1 M1 _ Uo. cbn [then_wp]. apply wp_bind, wp_try.
    eapply wp_mono; [by apply apply_report_wp|]. intros [acc|ex] e2 [S2 G2]; cbn [then_wp].
    + assert (deferredSynchronousReports (members e2) = []) as D2.
      { by rewrite (st_deferred _ _ S2), M1. }
      eapply wp_mono; [by apply IH|]. intros x e3 [G3 H3]. split; [done|].
      intros a Ha. destruct (H3 a Ha) as (? & ? & Ho & Hu). split_and!; [done|done|..].
      * by rewrite Ho, (st_options _ _ S2), M1.
      * unfold unread_observations in *. by rewrite Hu, (steady_unread _ _ _ S2).
    + apply wp_bind, wp_on_members, wp_modify. cbn [then_wp]. apply wp_lift. cbn [then_wp].
      split; [|done]. apply good_deferred; [done|].
      rewrite (st_deferred _ _ S2), M1, Hd. pose proof (to_limits _ (gd_tables _ G2)).
      unfold len. cbn. lia.
Qed.

Lemma receive_observations_wp fuel accepted e :
  good e →
  wp (receive_observations fuel accepted) (λ x e', good e' ∧
    ∀ a, x = Ok a →
      deferredSynchronousReports (members e') = deferredSynchronousReports (members e) ∧
      unread_reports e' = unread_reports e ∧ unread_observations e' = 0%nat) e.
Proof.
  revert accepted e. induction fuel as [|fuel IH]; intros accepted e Hg; cbn [receive_observations].
  { apply wp_throw. done. }
  apply wp_bind, wp_get_members. cbn [then_wp]. apply wp_bind, receive_observation_wp; [done|..].
  - intros Hnone. cbn [then_wp]. apply wp_ret. split; [done|]. by intros a [= <-].
  - intros o e1 G1 M1 Ho _ Ur. cbn [then_wp]. apply wp_bind.
    eapply wp_mono; [by apply apply_observation_wp|]. intros [acc|ex] e2 [S2 G2]; cbn [then_wp]; [|done].
    eapply wp_mono; [by apply IH|]. intros x e3 [G3 H3]. split; [done|].
    intros a Ha. destruct (H3 a Ha) as (Hd & Hu & ?). split_and!; [| |done].
    + by rewrite Hd, (st_deferred _ _ S2), M1.
    + unfold unread_reports in *. by rewrite Hu, (steady_unread _ _ _ S2).
Qed.

(** Taking in the feedback leaves nothing of it, unless it throws. *)
Lemma put_off_wp e (Q : res (list EffectReport) → E → Prop) :
  good e →
  (∀ acc e', good e' → deferredSynchronousReports (members e') = [] → waiting e' = waiting e →
     Q (Ok acc) e') →
  (∀ x e', good e' → Q (Err x) e') →
  wp (sfold (λ accepted r, accepted ← apply_report accepted r; pop_deferred;; mret accepted)
    (deferredSynchronousReports (members e)) []) Q e.
Proof.
  intros Hg Hok Herr.
  apply (wp_sfold _ _ _ (λ k _ e', good e' ∧ deferredSynchronousReports (members e') = k ∧
    waiting e' = waiting e)); [done|..].
  - intros r k acc e1 (G1 & D1 & W1). apply wp_bind. eapply wp_mono; [by apply apply_report_wp|].
    intros [acc'|ex] e2 [S2 G2]; cbn [then_wp]; [|by apply Herr].
    apply wp_bind, pop_deferred_wp. cbn [then_wp]. apply wp_ret.
    rewrite (st_deferred _ _ S2), D1. split_and!; [|done|].
    + apply good_deferred; [done|].
      pose proof (to_deferred _ (gd_tables _ G2)) as Hd. rewrite (st_deferred _ _ S2), D1 in Hd.
      unfold len in *. cbn in *. lia.
    + rewrite <-W1. unfold waiting. cbn. by rewrite (st_options _ _ S2), (st_channels _ _ S2).
  - intros acc e1 (G1 & D1 & W1). by apply Hok.
Qed.

Lemma take_feedback_wp fuel e :
  good e →
  wp (take_feedback fuel) (λ x e', good e' ∧ ∀ a, x = Ok a →
    deferredSynchronousReports (members e') = [] ∧ waiting e' = 0%nat) e.
Proof.
  intros Hg. unfold take_feedback. apply wp_bind, wp_get_members. cbn [then_wp]. apply wp_bind.
  apply put_off_wp; [done| |done]. intros acc e1 G1 D1 _. cbn [then_wp]. apply wp_bind.
  eapply wp_mono; [by apply receive_reports_wp|]. intros [acc'|ex] e2 [G2 R2]; cbn [then_wp]; [|done].
  destruct (R2 _ eq_refl) as (D2 & U2 & _). apply wp_bind.
  eapply wp_mono; [by apply receive_observations_wp|].
  intros [obs|ex] e3 [G3 R3]; cbn [then_wp]; [|done]. apply wp_ret.
  destruct (R3 _ eq_refl) as (D3 & U3 & U3'). split; [done|]. intros _ _.
  by rewrite D3, D2, waiting_unread, U3, U2, U3'.
Qed.

Lemma sound_process_feedback : sound process_feedback.
Proof. intros e Hg. by destruct (take_feedback_wp (Datatypes.S (waiting e)) e Hg). Qed.

(** [waiting] turns are enough: with more, the loops do the same. *)
Lemma receive_reports_fuel fuel more accepted e :
  good e → deferredSynchronousReports (members e) = [] →
  (unread_reports e < fuel)%nat → (fuel <= more)%nat →
  receive_reports more accepted e = receive_reports fuel accepted e.
Proof.
  revert more accepted e. induction fuel as [|fuel IH]; intros more accepted e Hg Hd Hf Hm; [lia|].
  destruct more as [|more]; [lia|]. cbn [receive_reports]. apply bind_agrees, wp_get_members.
  intros s [= <-]. apply bind_agrees, receive_report_wp; [done|by intros _ ? [= <-]|].
  intros r e1 G1 M1 Ur _ ? [= <-]. apply bind_agrees, wp_try.
  eapply wp_mono; [by apply apply_report_wp|]. intros [acc|ex] e2 [S2 G2].
  - intros ? [= <-]. apply IH; [done| | |lia].
    + by rewrite (st_deferred _ _ S2), M1.
    + unfold unread_reports in *. rewrite (steady_unread _ _ _ S2). lia.
  - apply wp_bind, wp_on_members, wp_modify. cbn [then_wp]. by apply wp_lift.
Qed.

Lemma receive_observations_fuel fuel more accepted e :
  good e → (unread_observations e < fuel)%nat → (fuel <= more)%nat →
  receive_observations more accepted e = receive_observations fuel accepted e.
Proof.
  revert more accepted e. induction fuel as [|fuel IH]; intros more accepted e Hg Hf Hm; [lia|].
  destruct more as [|more]; [lia|]. cbn [receive_observations]. apply bind_agrees, wp_get_members.
  intros s [= <-]. apply bind_agrees, receive_observation_wp; [done|by intros _ ? [= <-]|].
  intros o e1 G1 M1 Ho Uo _ ? [= <-]. apply bind_agrees.
  eapply wp_mono; [by apply apply_observation_wp|]. intros x e2 [S2 G2] acc ->.
  apply IH; [done| |lia]. unfold unread_observations in *. rewrite (steady_unread _ _ _ S2). lia.
Qed.

Lemma take_feedback_fuel fuel e :
  good e → (waiting e < fuel)%nat → take_feedback fuel e = process_feedback e.
Proof.
  intros Hg Hf. unfold process_feedback, take_feedback. apply bind_agrees, wp_get_members.
  intros s [= <-]. apply bind_agrees, put_off_wp; [done| |done].
  intros acc e1 G1 D1 W1 ? [= <-]. rewrite <-W1 in *. rewrite waiting_unread in *.
  set (enough := Datatypes.S (unread_reports e1 + unread_observations e1)).
  transitivity ((accepted ← receive_reports enough acc; observations ← receive_observations fuel [];
    mret (accepted, observations)) e1).
  - unfold mbind, stm_bind. by rewrite (receive_reports_fuel enough fuel acc e1 G1 D1) by lia.
  - apply bind_agrees. eapply wp_mono; [by apply receive_reports_wp|].
    intros x e2 [G2 R2] acc' ->. destruct (R2 _ eq_refl) as (_ & _ & _ & U2).
    unfold mbind, stm_bind. by rewrite (receive_observations_fuel enough fuel [] e2 G2) by lia.
Qed.

(** ** Dispatch *)

#[local] Hint Resolve sound_transition sound_record_status sound_flush sound_get_members
  sound_command_at sound_apply_report sound_process_feedback : keeps.
#[local] Hint Extern 1 (_ ≠ Pending) => discriminate : keeps.

Lemma call_adapter_wp p c e :
  good e →
  wp (call_adapter p c) (λ x e', good e' ∧ members e' = members e ∧ store e' = store e ∧
    ∀ d, x = Ok d → validate_dispatch_result_for_command d c = Ok tt) e.
Proof.
  intros Hg. unfold call_adapter. apply wp_bind, wp_get_members. cbn [then_wp]. apply wp_bind.
  unfold on_adapter, wp. destruct (objects e !! p) as [a|]; [|done].
  destruct (Adapters.dispatch c _ (a, channels e)) as [x [a' h]] eqn:Hd.
  assert (channels_typed h) as Hh by exact (dispatch_typed _ _ _ _ _ _ (gd_channels _ Hg) Hd).
  assert (good (MkEffects (members e) (store e) (<[p:=a']> (objects e)) h)) as Hg'.
  { destruct Hg as [? ? [] ?]. by constructor. }
  destruct x as [d|ex]; cbn [then_wp fst snd]; [|done]. apply wp_bind, wp_lift.
  destruct (validate_dispatch_result_for_command d c) as [[]|ex] eqn:Hv; cbn [then_wp]; [|done].
  apply wp_ret. split_and!; [done..|]. by intros ? [= <-].
Qed.

Lemma sound_call_adapter p c : sound (call_adapter p c).
Proof. intros e Hg. by destruct (call_adapter_wp p c e Hg). Qed.
#[local] Hint Resolve sound_call_adapter : keeps.

Lemma sound_dispatch_failed id ex : sound (dispatch_failed id ex).
Proof. unfold dispatch_failed. keep_steps. Qed.
#[local] Hint Resolve sound_dispatch_failed : keeps.

Lemma sound_take_result id d accepted : sound (take_result id d accepted).
Proof.
  apply sound_of_wp. intros e Hg. unfold take_result. apply wp_bind, wp_get_members. cbn [then_wp].
  assert (∀ status reason, status ≠ Pending →
    wp (transition id status reason;; mret accepted) (λ _ e', good e') e) as Htr.
  { intros status reason Hs. apply (keeps_bind (within good)); [by apply sound_transition| |done].
    intros []. apply keeps_ret, _. }
  destruct (disposition d); [|by apply Htr..].
  destruct (immediateReport d) as [r|]; [|by apply wp_ret].
  case_bool_decide; [by apply sound_apply_report|].
  destruct (_ <=? _) eqn:Hcap; [by apply Htr|].
  apply wp_bind, wp_on_members, wp_modify. cbn [then_wp]. apply wp_ret, good_deferred; [done|].
  unfold len in *. rewrite length_app. cbn. lia.
Qed.
#[local] Hint Resolve sound_take_result : keeps.

Lemma record_attempt_wp id st now e :
  good e → commands (members e) !! id = Some st →
  wp (record EventType.CommandAttempted
        (attempt_payload (command_id (cs_command st)) (cs_retryIndex st + 1) now))
    (λ _ e', only_store e e' ∧ good e') e.
Proof.
  intros Hg Hst. eapply wp_mono; [by apply record_wp|]. intros [[]|ex] e' [Ho Hx]; [|done].
  split; [done|]. destruct Hx as (v & q & Hv & _ & Hx). pose proof Ho as (Hm & _).
  destruct (gd_log _ Hg) as (log & mx & Hl & Ha).
  destruct (ag_commands _ _ _ Ha _ _ Hst) as (st' & Hst' & [S1 S2 S3]).
  destruct (to_commands _ (gd_tables _ Hg) _ _ Hst) as [Hid _ _ _ _ Hr]. rewrite Hid in Hv.
  rewrite <-(set_members_same e'), Hm.
  eapply good_extended; [done..|by eapply restore_attempt_step|done|apply Hg|].
  rewrite <-(set_command_same (members e) id st) by done.
  eapply agrees_set_command; [done..| |done|cbn; lia]. split; [done|done|cbn; lia].
Qed.

Lemma sound_dispatch id p now accepted : sound (RuntimeEffects.dispatch id p now accepted).
Proof.
  apply sound_of_wp. intros e Hg. unfold RuntimeEffects.dispatch. apply wp_bind, wp_command_at; [|done].
  intros st Hst. cbn [then_wp]. apply wp_bind. eapply wp_mono; [by apply (record_attempt_wp id)|].
  intros [[]|ex] e1 [_ G1]; cbn [then_wp]; [|done].
  apply (keeps_bind (within good)); [apply sound_flush| |done]. intros _. keep_steps.
Qed.
#[local] Hint Resolve sound_dispatch : keeps.

(** ** Retries *)

Lemma good_set_command e id st st1 :
  good e → commands (members e) !! id = Some st → cs_command st1 = cs_command st →
  cs_status st1 = cs_status st → cs_retryIndex st <= cs_retryIndex st1 →
  cs_retryIndex st1 <= EffectLimits.maxRetryDelays →
  good (set_members (set_command id st1 (members e)) e).
Proof.
  intros Hg Hst Hc Hs Hle Hr. apply good_tables; [done|done| |].
  - apply (tables_set_command _ id st); [apply Hg|done|done|congruence|done|].
    rewrite Hs. intros Ha. by eapply (to_terminal _ (gd_tables _ Hg)).
  - intros log mx Ha. destruct (ag_commands _ _ _ Ha _ _ Hst) as (st' & Hst' & [S1 S2 S3]).
    eapply agrees_set_memory; [done..|]. split; [congruence|congruence|lia].
Qed.

Lemma delay_before_retry_bound p i d :
  delay_before_retry p i = Ok (Some d) → i + 1 <= EffectLimits.maxRetryDelays.
Proof.
  unfold delay_before_retry. rewrite unit_bind_ok, RetryPolicy_validate_ok.
  intros [(Hl & _) Hd]. destruct (len (retryDelays p) <=? i) eqn:Hi; [done|].
  apply N.leb_gt in Hi. lia.
Qed.

Lemma sound_retry_one now accepted id : sound (retry_one now accepted id).
Proof.
  apply sound_of_wp. intros e Hg. unfold retry_one. apply wp_bind, wp_get_members. cbn [then_wp].
  apply wp_bind, wp_command_at; [|done]. intros st Hst. cbn [then_wp].
  destruct (cs_status st) eqn:Hpend; try by apply wp_ret.
  destruct (cs_adapter st) as [p|]; [|by apply wp_ret].
  destruct (_ <=? _).
  { apply (keeps_bind (within good)); [by apply sound_transition| |done]. intros []. apply keeps_ret, _. }
  apply wp_bind, wp_lift.
  destruct (delay_before_retry _ _) as [[d|]|ex] eqn:Hd; cbn [then_wp]; [|by apply wp_ret|done].
  destruct (_ <? _); [by apply wp_ret|].
  apply wp_bind, wp_on_members. unfold update_command. apply wp_modify. cbn [then_wp].
  rewrite (update_command_eq id _ st) by done. apply sound_dispatch.
  apply delay_before_retry_bound in Hd. apply (good_set_command e id st); try done; cbn; lia.
Qed.

Lemma sound_retry_due now accepted : sound (retry_due now accepted).
Proof.
  unfold retry_due. apply keeps_bind; [apply _|apply sound_get_members|]. intros m.
  apply keeps_sfold; [apply _|]. intros. apply sound_retry_one.
Qed.

(** ** Issuing *)

Lemma prune_wp b e :
  good e →
  wp (on_members (prune_terminal_history b)) (λ x e', good e' ∧ pruned (members e) (members e') ∧
    ∀ a, x = Ok a → N.of_nat (size (commands (members e'))) <=
      maximumRetainedCommands (options (members e)) - N.b2n b) e.
Proof.
  intros Hg. apply wp_on_members. unfold prune_terminal_history.
  apply wp_bind, wp_get. cbn [then_wp]. apply wp_bind, wp_put. cbn [then_wp].
  pose proof (gd_tables _ Hg) as Ht.
  destruct (prune_loop_spec (maximumRetainedCommands (options (members e)) - N.b2n b)
    (terminalOrder (members e)) (members e) (to_latest _ Ht) (to_terminal _ Ht)) as (P & L & _).
  apply wp_bind, wp_get. cbn [then_wp].
  assert (good (set_members (prune_loop (maximumRetainedCommands (options (members e)) - N.b2n b)
    (terminalOrder (members e)) (members e)) e)) as Hg'.
  { apply good_tables; [done|apply (pr_options _ _ P)|by eapply tables_pruned|].
    intros log mx Ha. by eapply agrees_pruned. }
  apply wp_reject; intros Hsize; (split; [done|]); (split; [done|]); intros a Ha; [done|].
  by apply N.ltb_ge.
Qed.

Lemma sound_prune b : sound (on_members (prune_terminal_history b)).
Proof. intros e Hg. by destruct (prune_wp b e Hg). Qed.

(** What stands in the way of a new command for [key]. *)
Definition no_pending (key : TargetKey) e : Prop :=
  ∀ id st, commands (members e) !! id = Some st → command_key st = key → cs_status st ≠ Pending.

Lemma only_store_record type p e : wp (record type p) (λ _ e', only_store e e') e.
Proof.
  unfold wp, record, append, mbind, stm_bind, slift, on_store, zoom.
  destruct p as [v|ex]; [|done]. by destruct (store_append _ _ (store e)) as [[x|ex] s'].
Qed.

(** A command that changes its status. *)
Lemma transition_wp id status reason st e :
  good e → commands (members e) !! id = Some st → status ≠ Pending →
  wp (transition id status reason) (λ x e', good e' ∧
    ∀ a, x = Ok a → members e' = after_status id status st (members e)) e.
Proof.
  intros Hg Hst Hp. split; [by apply sound_transition|].
  change (wp (transition id status reason)
    (λ x e', ∀ a, x = Ok a → members e' = after_status id status st (members e)) e).
  unfold transition. apply wp_bind, wp_command_at; [|by intros _ ?].
  intros st' Hst'. assert (st' = st) as -> by congruence. cbn [then_wp].
  apply wp_bind. eapply wp_mono; [apply only_store_record|].
  intros [x|ex] e1 (Hm & _); cbn [then_wp]; [|done].
  apply wp_on_members. unfold wp. rewrite Hm, (set_status_eq id status st) by done. done.
Qed.

Lemma supersede_prior_wp (f : ResolvedEffect) e :
  good e →
  wp (supersede_prior f) (λ x e', good e' ∧
    (x = Ok true → no_pending (target_key (adapterRoute f) (target f)) e')) e.
Proof.
  intros Hg. unfold supersede_prior. apply wp_bind, wp_get_members. cbn [then_wp].
  set (key := target_key _ _). pose proof (to_latest _ (gd_tables _ Hg)) as [He Hn Hp].
  destruct (latestByTarget (members e) !! key) as [l|] eqn:Hl.
  2:{ apply wp_ret. split; [done|]. intros _ id st Hst Hk Hpend.
      pose proof (Hp _ _ Hst Hpend) as Hx. rewrite Hk in Hx. congruence. }
  apply wp_bind, wp_command_at; [|done]. intros st Hst. cbn [then_wp].
  assert (∀ id x, commands (members e) !! id = Some x → command_key x = key →
    cs_status x = Pending → id = l) as Hone.
  { intros id x Hx Hk Hpx. pose proof (Hp _ _ Hx Hpx) as Hy. rewrite Hk in Hy. congruence. }
  case_bool_decide; [by apply wp_ret|]. destruct (active _ && _); [by apply wp_ret|].
  case_bool_decide as Hpend.
  - apply wp_bind. eapply wp_mono; [by apply (transition_wp l Superseded _ st)|].
    intros [[]|ex] e1 [G1 M1]; cbn [then_wp]; [|done]. apply wp_ret. split; [done|].
    intros _ id x Hx Hk Hpx. rewrite (M1 _ eq_refl) in Hx.
    assert (commands (set_command l (with_status Superseded st) (members e)) !! id = Some x) as Hx'.
    { revert Hx. unfold after_status. by destruct (_ && _). }
    apply set_command_lookup in Hx' as [[-> ->]|[Hne Hx']]; [done|]. by eapply Hne, Hone.
  - apply wp_ret. split; [done|]. intros _ id x Hx Hk Hpx.
    pose proof (Hone _ _ Hx Hk Hpx) as ->. congruence.
Qed.

Lemma new_command_wp p (f : ResolvedEffect) now e :
  good e → typed_effect f → no_pending (target_key (adapterRoute f) (target f)) e →
  N.of_nat (size (commands (members e))) < maximumRetainedCommands (options (members e)) →
  wp (new_command p f now) (λ _ e', good e') e.
Proof.
  intros Hg Hty Hfree Hsize. unfold new_command. apply wp_bind, wp_get_members. cbn [then_wp].
  apply wp_bind, wp_reject; [done|]. intros [_ Hnx]%orb_false_iff. apply N.eqb_neq in Hnx.
  cbn [then_wp]. apply wp_bind, wp_on_members, wp_modify. cbn [then_wp].
  pose proof (gd_tables _ Hg) as Ht. pose proof (to_next _ Ht) as Hn.
  set (n := nextCommand (members e)) in *.
  set (e1 := set_members (set_next_command (n + 1) (members e)) e).
  assert (good e1) as G1.
  { apply good_tables; [done|done|apply tables_next; [done|lia]|].
    intros log mx Ha. apply agrees_next; [done|]. fold n. lia. }
  apply wp_bind, wp_lift.
  destruct (validate_effect_command _) as [[]|ex] eqn:Hval; cbn [then_wp]; [|done].
  apply wp_bind, wp_get. cbn [then_wp]. apply wp_bind, wp_lift.
  destruct (objects e1 !! p) as [a|]; cbn [then_wp]; [|done].
  set (c := MkEffectCommand _ _ f now) in *.
  apply wp_bind. eapply wp_mono; [by apply record_wp|]. intros [[]|ex] e2 [Ho Hx]; cbn [then_wp]; [|done].
  destruct Hx as (v & q & Hv & _ & Hx). pose proof Ho as (Hm & _).
  apply wp_bind, wp_get_members. cbn [then_wp].
  assert (∀ j x, commands (members e) !! j = Some x → j < n) as Hnew.
  { intros j x Hj. destruct (co_range _ _ _ _ (to_commands _ Ht _ _ Hj)). lia. }
  apply wp_bind, wp_reject.
  { intros [x Hj]%bool_decide_eq_true. rewrite Hm in Hj. apply Hnew in Hj. cbn in Hj. lia. }
  intros _. cbn [then_wp]. apply wp_bind, wp_on_members, wp_modify. cbn [then_wp].
  apply wp_bind, wp_on_members, wp_modify. cbn [then_wp]. apply wp_ret. cbn [command_id].
  set (st := MkCommandState c (Some p) (capabilities a) Pending 0 None).
  destruct (gd_log _ Hg) as (log & mx & Hl & Ha). pose proof (ag_next _ _ _ Ha) as Hmx.
  assert (agrees (members e1) log mx) as Ha1 by (apply agrees_next; [done|fold n; lia]).
  assert (command_ok (options (members e)) n n (issued_state c)) as Hcmd.
  { constructor; try done; cbn; lia. }
  change (good (set_members (add_command n st (members e2)) e2)). rewrite Hm.
  eapply (good_extended e1 e2); [done..| |done| |].
  - apply (restore_issued_step log mx c v q); try done.
    + cbn. by rewrite (ag_options _ _ _ Ha).
    + intros key l Hkl. destruct (lo_exists _ (ag_log_latest _ _ _ Ha) _ _ Hkl) as (x & Hlx & _).
      destruct (co_range _ _ _ _ (ag_log_commands _ _ _ Ha _ _ Hlx)). cbn. fold n. lia.
  - apply tables_add_command; try done; [apply G1|].
    destruct Hcmd. constructor; try done. cbn. fold n. lia.
  - apply (agrees_add_command _ log mx n st (issued_state c)); try done; cbn; fold n; lia.
Qed.

Lemma sound_issue (f : ResolvedEffect) now accepted : typed_effect f → sound (issue f now accepted).
Proof.
  intros Hty. apply sound_of_wp. intros e Hg. unfold issue. apply wp_bind, wp_lift.
  destruct (validate _) as [[]|ex]; cbn [then_wp]; [|done].
  apply wp_bind, wp_get_members. cbn [then_wp]. apply wp_bind, wp_lift.
  destruct (adapters _ !! _) as [p|]; cbn [then_wp]; [|done].
  apply wp_bind. eapply wp_mono; [by apply supersede_prior_wp|].
  intros [needed|ex] e1 [G1 F1]; cbn [then_wp]; [|done]. apply wp_bind, wp_get_members. cbn [then_wp].
  destruct (negb needed || _) eqn:Hneeded; [by apply wp_ret|].
  apply orb_false_iff in Hneeded as [->%negb_false_iff _]. specialize (F1 eq_refl).
  apply wp_bind. eapply wp_mono; [by apply prune_wp|].
  intros [[]|ex] e2 (G2 & P2 & C2); cbn [then_wp]; [|done]. specialize (C2 _ eq_refl).
  destruct (to_limits _ (gd_tables _ G1)) as [Hlim _].
  apply wp_bind. eapply wp_mono.
  { apply new_command_wp; [done|done| |].
    - intros id st Hst. eapply F1. by apply (pr_commands _ _ P2).
    - rewrite (pr_options _ _ P2). cbn in C2. lia. }
  intros [c|ex] e3 G3; cbn [then_wp]; [|done].
  apply (keeps_bind (within good)); [apply sound_dispatch|intros; apply keeps_ret, _|done].
Qed.

Lemma sound_clear_desire r t : sound (clear_desire r t).
Proof. unfold clear_desire. keep_steps. Qed.

(** ** Reconciliation *)

Lemma sound_reconcile r t v : sound (reconcile_indeterminate r t v).
Proof.
  apply sound_of_wp. intros e Hg. unfold reconcile_indeterminate. apply wp_bind, wp_lift.
  destruct (validate v) as [[]|ex]; cbn [then_wp]; [|done]. apply wp_bind, wp_get_members. cbn [then_wp].
  apply wp_bind, wp_lift. pose proof (gd_tables _ Hg) as Ht.
  destruct (latestByTarget (members e) !! _) as [l|] eqn:Hl; cbn [then_wp]; [|done].
  apply wp_bind, wp_command_at; [|done]. intros st Hst. cbn [then_wp].
  apply wp_bind, wp_reject; [done|]. intros _. cbn [then_wp].
  destruct (to_commands _ Ht _ _ Hst) as [Hid Hrange _ Hty _ _].
  assert (typed_texts r t) as Htexts.
  { destruct (lo_exists _ (to_latest _ Ht) _ _ Hl) as (x & Hx & Hk).
    assert (x = st) as -> by congruence. unfold command_key in Hk. by injection Hk as <- <-. }
  set (status := if value_eqb _ _ then Applied else Failed).
  assert (status ≠ Pending) as Hp by (unfold status; by destruct (value_eqb _ _)).
  apply wp_bind, wp_lift.
  assert (∀ revision, revision ≠ 0 →
    wp (transition l status "host reconciliation";;
        commit_authoritative r t v revision (command_id (cs_command st));;
        on_members (update_command l (with_terminal (Report (es_session (options (members e)))
          (command_id (cs_command st)) r t status
          (if bool_decide (status = Applied) then Some v else None) "host reconciliation"
          (issuedAtMs (cs_command st)) revision)));; flush) (λ _ e', good e') e) as Hrest.
  { intros revision Hrev. apply wp_bind. eapply wp_mono; [by apply (transition_wp l _ _ st)|].
    intros [[]|ex] e1 [G1 M1]; cbn [then_wp]; [|done]. apply wp_bind. eapply wp_mono.
    { apply commit_wp; [done|done|done|]. rewrite (M1 _ eq_refl), Hid. unfold after_status.
      eexists. destruct (_ && _); apply lookup_insert_eq. }
    intros [[]|ex] e2 G2; cbn [then_wp]; [|done]. apply (keeps_bind (within good)); [|intros _; apply sound_flush|done].
    by apply sound_update_command. }
  destruct (observedRevisions (members e) !! _) as [prior|]; cbn [then_wp].
  - destruct (prior =? u64_max) eqn:Hprior; cbn [then_wp reject_if mbind res_bind]; [exact Hg|].
    apply (Hrest (prior + 1)). lia.
  - apply (Hrest (command_id (cs_command st))). rewrite Hid. lia.
Qed.

(** ** Registration of adapters *)

Lemma uncertain_events c ids l0 l :
  rfold (λ l id, x ← uncertain_event c id; Ok (l ++ [x])) ids l0 = Ok l →
  ∃ l', l = l0 ++ l' ∧ Forall2 (λ id x, uncertain_event c id = Ok x) ids l'.
Proof.
  revert l0. induction ids as [|id ids IH]; intros l0; cbn [rfold].
  - intros [= <-]. exists []. rewrite app_nil_r. split; [done|constructor].
  - destruct (uncertain_event c id) as [x|ex] eqn:Hx; go; [|done].
    intros (l' & -> & Hl')%IH. exists (x :: l'). rewrite <-app_assoc. split; [done|]. by constructor.
Qed.

(** Restoring follows the recorded batch. *)
Lemma restore_uncertain c ids events m log mx q :
  Forall2 (λ id x, uncertain_event c id = Ok x) ids events → agrees m log mx →
  (∀ id, id ∈ ids → is_Some (commands m !! id)) →
  ∃ log', rfold restore_record (records_from q events) (log, mx) = Ok (log', mx) ∧
    agrees (mark ids m) log' mx.
Proof.
  intros Hf. revert m log q. induction Hf as [|id x ids events Hx Hf IH]; intros m log q Ha Hin.
  { by exists log. }
  destruct (Hin id) as [st Hst]; [by left|].
  destruct (ag_commands _ _ _ Ha _ _ Hst) as (st' & Hst' & [S1 S2 S3]).
  unfold uncertain_event in Hx. apply res_bind_ok in Hx as (v & Hv & [= <-]).
  assert (agrees (mark_one m id) (set_command id (with_status Indeterminate st') log) mx) as Ha1.
  { unfold mark_one. rewrite (update_command_eq id _ st) by done.
    eapply agrees_set_command; [done..| |done|].
    - by split.
    - by destruct (ag_log_commands _ _ _ Ha _ _ Hst'). }
  destruct (IH _ _ (q + 1) Ha1) as (log' & Hr & Ha').
  { intros j Hj. destruct (Hin j) as [y Hy]; [by right|].
    apply (mk_is_Some _ (if decide (j = id) then with_status Indeterminate y else y)).
    destruct (decide (j = id)) as [->|Hne]; unfold mark_one; cbn.
    - by rewrite lookup_alter_eq, Hy.
    - by rewrite lookup_alter_ne. }
  exists log'. split; [|done]. cbn [records_from rfold data_type data_version data_payload].
  rewrite (restore_status_step log mx id Indeterminate _ v q st' Hv Hst'). done.
Qed.

(** While the last loop runs, the log is ahead: of the commands [k] still to
    come, those in [l] are indeterminate there already. *)
Record catching_up (r : string) (l k : list N) e : Prop := {
  cu_there : ∀ id, id ∈ k → ∃ st, commands (members e) !! id = Some st ∧
    (id ∈ l → adapterRoute (effect (cs_command st)) = r);
  cu_tables : tables_ok (members e);
  cu_channels : channels_typed (channels e);
  cu_store : store_fits (store_ok := store_ok) e;
  cu_log : ∃ log mx, logs e log mx ∧ agrees (mark (filter (λ id, id ∈ l) k) (members e)) log mx
}.

Lemma adopted (l : list N) (id : N) (k : list N) m st st1 log mx :
  commands m !! id = Some st → cs_command st1 = cs_command st → cs_retryIndex st1 = cs_retryIndex st →
  cs_status st1 = (if decide (id ∈ l) then Indeterminate else cs_status st) →
  agrees (mark (filter (λ id, id ∈ l) (id :: k)) m) log mx →
  agrees (mark (filter (λ id, id ∈ l) k) (set_command id st1 m)) log mx.
Proof.
  intros Hst Hc Hr Hs Ha.
  destruct (mark_frame (filter (λ id, id ∈ l) k) (set_command id st1 m)) as (F1 & F2 & F3 & F4 & F5 & F6).
  destruct (mark_frame (filter (λ id, id ∈ l) (id :: k)) m) as (G1 & G2 & G3 & G4 & G5 & G6).
  eapply agrees_alike; [exact Ha|by rewrite F1, G1|by rewrite F2, G2|by rewrite F3, G3|
    by rewrite F4, G4|by rewrite F5, G5|by rewrite F6, G6|].
  intros j. rewrite !mark_lookup. cbn [commands set_command set_commands].
  destruct (decide (j = id)) as [->|Hne].
  - rewrite Hst, (lookup_insert_eq (M := gmap N)).
    destruct (decide (id ∈ l)) as [Hin|Hin].
    + destruct (decide (id ∈ filter _ (id :: k))) as [_|Hn].
      2:{ destruct Hn. apply list_elem_of_filter. split; [done|by left]. }
      destruct (decide (id ∈ filter _ k)); cbn; by split.
    + destruct (decide (id ∈ filter _ (id :: k))) as [[? _]%list_elem_of_filter|_]; [done|].
      destruct (decide (id ∈ filter _ k)) as [[? _]%list_elem_of_filter|_]; [done|]. cbn. by split.
  - rewrite (lookup_insert_ne (M := gmap N)) by done.
    assert (j ∈ filter (λ id, id ∈ l) (id :: k) ↔ j ∈ filter (λ id, id ∈ l) k) as Hiff.
    { rewrite !list_elem_of_filter, elem_of_cons. naive_solver. }
    destruct (decide (j ∈ filter _ (id :: k))), (decide (j ∈ filter _ k)); try tauto;
      destruct (commands m !! j); cbn; done || by split.
Qed.

Lemma catching_up_step r l id k st st1 e :
  catching_up r l (id :: k) e → commands (members e) !! id = Some st →
  cs_command st1 = cs_command st → cs_retryIndex st1 = cs_retryIndex st →
  cs_status st1 = (if decide (id ∈ l) then Indeterminate else cs_status st) →
  catching_up r l k (set_members (set_command id st1 (members e)) e).
Proof.
  intros [Hth Ht Hch [Hok Hse Hti] (log & mx & Hl & Ha)] Hst Hc Hr Hs. constructor; cbn; [|..|done|by split|].
  - intros j Hj. destruct (Hth j) as (x & Hx & Hxr); [by right|].
    destruct (decide (j = id)) as [->|Hne].
    + exists st1. rewrite (lookup_insert_eq (M := gmap N)). split; [done|].
      rewrite Hc. by assert (st = x) as -> by congruence.
    + exists x. by rewrite (lookup_insert_ne (M := gmap N)).
  - destruct (to_commands _ Ht _ _ Hst) as [_ _ _ _ _ Hretry].
    apply (tables_set_command _ id st); [done..| | |].
    + rewrite Hs. by case_decide.
    + by rewrite Hr.
    + rewrite Hs. case_decide; [done|]. intros Hend. by eapply (to_terminal _ Ht).
  - exists log, mx. split; [done|]. by eapply adopted.
Qed.

Lemma adopt_wp p r c l id k e :
  catching_up r l (id :: k) e →
  wp (adopt p r c l id) (λ x e', x = Ok tt ∧ catching_up r l k e') e.
Proof.
  intros Hcu. destruct (cu_there _ _ _ _ Hcu id) as (st & Hst & Hr); [by left|].
  unfold adopt. apply wp_bind, wp_command_at; [|congruence].
  intros x Hx. assert (x = st) as -> by congruence. cbn [then_wp]. case_bool_decide as Hne.
  - apply wp_ret. split; [done|]. rewrite <-(set_members_same e), <-(set_command_same (members e) id st) by done.
    apply (catching_up_step r l id k st st e); try done. rewrite decide_False; naive_solver.
  - apply wp_bind, wp_on_members. unfold update_command. apply wp_modify. cbn [then_wp].
    rewrite (update_command_eq id _ st) by done. case_bool_decide as Hin.
    + apply wp_on_members. cbn [members set_members]. unfold wp.
      rewrite (set_status_eq id Indeterminate (with_adapter p c st)) by apply lookup_insert_eq.
      split; [done|]. cbn [snd]. unfold after_status. rewrite andb_false_r.
      assert (∀ st2, set_command id st2 (set_command id (with_adapter p c st) (members e)) =
        set_command id st2 (members e)) as -> by (intros; unfold set_command; cbn; by rewrite insert_insert_eq).
      apply (catching_up_step r l id k st _ e); try done. by rewrite decide_True.
    + apply wp_ret. split; [done|]. apply (catching_up_step r l id k st _ e); try done.
      by rewrite decide_False.
Qed.

Lemma agrees_mark_equiv l1 l2 m log mx :
  (∀ id, id ∈ l1 ↔ id ∈ l2) → agrees (mark l1 m) log mx → agrees (mark l2 m) log mx.
Proof.
  intros Hl Ha.
  destruct (mark_frame l1 m) as (F1 & F2 & F3 & F4 & F5 & F6).
  destruct (mark_frame l2 m) as (G1 & G2 & G3 & G4 & G5 & G6).
  eapply agrees_alike; [exact Ha|by rewrite F1, G1|by rewrite F2, G2|by rewrite F3, G3|
    by rewrite F4, G4|by rewrite F5, G5|by rewrite F6, G6|].
  intros id. rewrite !mark_lookup.
  destruct (decide (id ∈ l1)) as [H1'|H1'], (decide (id ∈ l2)) as [H2'|H2']; rewrite Hl in H1';
    try done; destruct (commands m !! id); cbn; done || by split.
Qed.

Lemma caught_up r l e : catching_up r l [] e → good e.
Proof. by intros [_ Ht Hc Hs Hl]. Qed.

Lemma good_adapters e x : good e → good (set_members (set_adapters x (members e)) e).
Proof.
  intros Hg. apply good_tables; [done|done| |].
  - destruct (gd_tables _ Hg) as [Hp Hs Hli Hn Hc Hlat Hte Hcap Hd].
    constructor; try done. by destruct Hlat; split.
  - intros log mx []. by constructor.
Qed.

(** A batch of status events is recorded, or nothing is. *)
Lemma batch_wp r c events e :
  good e →
  let l := uncertain r c (members e) in
  Forall2 (λ id x, uncertain_event c id = Ok x) l events →
  wp (on_store (store_append_batch events Durable)) (λ x e', members e' = members e ∧
    match x with
    | Ok _ => catching_up r l (command_ids (commands (members e'))) e'
    | Err _ => good e'
    end) e.
Proof.
  intros Hg l Hf. unfold on_store, wp, zoom. pose proof (gd_store _ Hg) as [Hok Hse Hti].
  destruct (store_append_batch events Durable (store e)) as [[ids|ex] s'] eqn:E; cbn [fst snd].
  2:{ destruct (append_batch_fails _ _ _ _ _ Hok E) as (Hok' & Hr & Hmd).
      split; [done|]. by apply (good_same_log e). }
  destruct (append_batch_appends _ _ _ _ _ Hok E) as (Hok' & _ & Hmd & first & _ & Hr & _).
  split; [done|]. destruct (gd_log _ Hg) as (log & mx & Hl & Ha).
  assert (∀ id, id ∈ l → ∃ st, commands (members e) !! id = Some st ∧
            adapterRoute (effect (cs_command st)) = r) as Hin.
  { intros id [Hid _]%list_elem_of_filter. unfold uncertain_command in Hid.
    destruct (commands (members e) !! id) as [st|]; [|done]. exists st. split; [done|].
    apply andb_true_iff in Hid as [Hid _]. apply andb_true_iff in Hid as [Hid _].
    by apply bool_decide_eq_true in Hid. }
  destruct (restore_uncertain c l events (members e) log mx first Hf Ha) as (log' & Hlog & Ha').
  { intros id Hid. destruct (Hin _ Hid) as (st & -> & _). done. }
  constructor; cbn.
  - intros id [st Hst]%command_ids_elem. exists st. split; [done|]. intros Hid.
    destruct (Hin _ Hid) as (x & Hx & Hxr). by assert (x = st) as -> by congruence.
  - apply Hg.
  - apply Hg.
  - split; cbn; rewrite ?Hmd; done.
  - exists log', mx. split.
    + unfold logs. cbn. rewrite Hr, rfold_app. unfold logs in Hl. by rewrite Hl.
    + eapply agrees_mark_equiv; [|exact Ha']. intros id. rewrite list_elem_of_filter, command_ids_elem.
      split; [|naive_solver]. intros Hid. split; [done|]. by destruct (Hin _ Hid) as (? & -> & _).
Qed.

Lemma sound_register_adapter p : sound (RuntimeEffects.register_adapter p).
Proof.
  apply sound_of_wp. intros e Hg. unfold RuntimeEffects.register_adapter.
  apply wp_bind, wp_get. cbn [then_wp]. apply wp_bind, wp_lift.
  destruct p as [p|]; cbn [then_wp]; [|done].
  destruct (objects e !! p) as [a|]; cbn [then_wp]; [|done].
  apply wp_bind, wp_reject; [done|]. intros _. cbn [then_wp]. apply wp_bind, wp_lift.
  destruct (rfold _ _ []) as [events|ex] eqn:Hev; cbn [then_wp]; [|done].
  apply uncertain_events in Hev as (l' & -> & Hf). cbn [app].
  apply wp_bind, wp_on_members, wp_modify. cbn [then_wp].
  apply wp_bind, wp_try, wp_bind. eapply wp_mono.
  { apply (batch_wp (route a) (capabilities a)); [by apply good_adapters|exact Hf]. }
  intros [ids|ex] e2 [M2 R2]; cbn [then_wp].
  - apply wp_ret. cbn [then_wp]. apply wp_bind, wp_get_members. cbn [then_wp].
    eapply (wp_for _ _ (catching_up (route a) _)); [exact R2| |].
    + intros id k e3 Hcu. eapply wp_mono; [by apply adopt_wp|]. by intros x e4 [-> ?].
    + intros e3. apply caught_up.
  - apply wp_bind, wp_on_members, wp_modify. cbn [then_wp]. apply wp_lift. cbn [then_wp].
    by apply good_adapters.
Qed.
End Runs.
