(* ===== verification/RuntimeRestart.v ===== *)
(** * Starting a runtime's effects, and starting them again

    A new store makes a runtime whose tables and log agree.  A runtime that
    starts over the log of another, with options of its own, finds the active
    commands and the observed state of that runtime. *)
From stdpp Require Import fin_maps.
From S2P Require Import Prelude OrderedMap Values ValueCodec Effects Events EventStore Feedback Adapters Hoare Replay RuntimeEffects RuntimeRestore RuntimeLog RuntimeEffectsSpec RuntimeEffectsRuns.

(** ** Restoring under other options

    Of the options, restoring one record only reads the session. *)

Definition with_options (o : EffectsOptions) (s : RuntimeEffectsState) : RuntimeEffectsState :=
  MkEffectsState o (adapters s) (commands s) (latestByTarget s) (authoritativeByTarget s)
    (observed s) (observedRevisions s) (terminalOrder s) (deferredSynchronousReports s)
    (nextCommand s).

Definition res_map {X Y} (f : X → Y) (x : res X) : res Y := x ← x; Ok (f x).

Lemma res_map_bind {X Y Z} (x : res X) (g : X → res Y) (f : Y → Z) :
  res_map f (x ≫= g) = x ≫= (λ a, res_map f (g a)).
Proof. by destruct x. Qed.

Lemma bind_ext {X Y} (x : res X) (f g : X → res Y) : (∀ a, f a = g a) → x ≫= f = x ≫= g.
Proof. intros Hf. destruct x; [apply Hf|done]. Qed.

(** Follows both sides through the steps they have in common. *)
Ltac follow :=
  repeat first
    [ reflexivity
    | rewrite res_map_bind
    | apply bind_ext; intros ?
    | match goal with
      | |- context [match ?x with Some _ => _ | None => _ end] => destruct x
      | |- context [if ?c then _ else _] => destruct c
      end ].

Section Options.
Context (o : EffectsOptions).
Abbreviation w := (with_options o).
Abbreviation w2 := (λ x : Restoring, (with_options o x.1, x.2)).

Lemma restore_attempt_options s p : restore_attempt (w s) p = res_map w (restore_attempt s p).
Proof. unfold restore_attempt. cbn [commands with_options]. follow. Qed.

Lemma restore_status_options s p : restore_status (w s) p = res_map w (restore_status s p).
Proof. unfold restore_status. cbn [commands with_options]. follow. Qed.

Lemma restore_observed_options s p :
  restore_observed_record (w s) p = res_map w (restore_observed_record s p).
Proof. unfold restore_observed_record. cbn [commands with_options]. follow. Qed.

Lemma restore_command_options s mx p :
  es_session o = es_session (options s) →
  restore_command (w s, mx) p = res_map w2 (restore_command (s, mx) p).
Proof.
  intros Ho. unfold restore_command. cbn [commands options latestByTarget set_commands with_options].
  rewrite Ho. follow.
Qed.

Lemma rfold_options {X} (f : RuntimeEffectsState → X → res RuntimeEffectsState) l s :
  (∀ x s, f (w s) x = res_map w (f s x)) → rfold f l (w s) = res_map w (rfold f l s).
Proof.
  intros Hf. revert s. induction l as [|x l IH]; intros s; cbn [rfold]; [done|].
  rewrite Hf, res_map_bind. destruct (f s x) as [s'|e]; [apply IH|done].
Qed.

Lemma restore_observed_entry_options values s p :
  restore_observed_entry values (w s) p = res_map w (restore_observed_entry values s p).
Proof.
  unfold restore_observed_entry.
  follow; apply restore_observed_options.
Qed.

Lemma restore_observed_checkpoint_options s a v :
  restore_observed_checkpoint (w s) a v = res_map w (restore_observed_checkpoint s a v).
Proof.
  unfold restore_observed_checkpoint.
  rewrite (rfold_options (restore_observed_entry v)) by (intros; apply restore_observed_entry_options).
  destruct (rfold _ a s) as [s'|e]; [|done]. unfold res_map. go. cbn [observed with_options].
  by destruct (negb _).
Qed.

Lemma restore_checkpoint_attempt_options s p :
  restore_checkpoint_attempt (w s) p = res_map w (restore_checkpoint_attempt s p).
Proof. unfold restore_checkpoint_attempt. follow. apply restore_attempt_options. Qed.

End Options.

(** The same of a step of restoring, which may rely on the session. *)
Definition regardless (f : Restoring → res Restoring) : Prop :=
  ∀ o s mx, es_session o = es_session (options s) →
  f (with_options o s, mx) = res_map (λ x, (with_options o x.1, x.2)) (f (s, mx)).

Lemma with_own_options s : with_options (options s) s = s.
Proof. by destruct s. Qed.

Lemma regardless_keeps f s mx s' mx' :
  regardless f → f (s, mx) = Ok (s', mx') → options s' = options s.
Proof.
  intros Hf Hs. specialize (Hf (options s) s mx eq_refl). rewrite with_own_options, Hs in Hf.
  unfold res_map in Hf. cbn in Hf. injection Hf as Hf. by rewrite Hf.
Qed.

Lemma regardless_rfold {X} (f : Restoring → X → res Restoring) l :
  (∀ x, regardless (λ b, f b x)) → regardless (rfold f l).
Proof.
  intros Hf o s mx. revert s mx. induction l as [|x l IH]; intros s mx Ho; cbn [rfold]; [done|].
  rewrite (Hf x o s mx Ho). destruct (f (s, mx) x) as [[s' mx']|e] eqn:Hs; [|done].
  unfold res_map at 1. go. apply IH. by rewrite (regardless_keeps _ _ _ _ _ (Hf x) Hs).
Qed.

Lemma restore_checkpoint_command_regardless p : regardless (λ b, restore_checkpoint_command b p).
Proof.
  intros o s mx Ho. unfold restore_checkpoint_command. rewrite res_map_bind. apply bind_ext. intros x.
  rewrite restore_command_options by done. destruct (restore_command (s, mx) x) as [[s' mx']|e]; [|done].
  unfold res_map at 1. go. follow.
Qed.

Lemma restore_from_checkpoint_options o s r :
  es_session o = es_session (options s) →
  restore_from_checkpoint (with_options o s) r =
  res_map (λ x, (with_options o x.1, x.2)) (restore_from_checkpoint s r).
Proof.
  intros Ho. unfold restore_from_checkpoint. cbn [options with_options]. rewrite Ho.
  rewrite ?res_map_bind. apply bind_ext. intros p. rewrite ?res_map_bind. apply bind_ext. intros [].
  rewrite ?res_map_bind. apply bind_ext. intros l.
  change (forget_tables (with_options o s)) with (with_options o (forget_tables s)).
  rewrite (regardless_rfold restore_checkpoint_command l restore_checkpoint_command_regardless o
    (forget_tables s) 0 Ho).
  destruct (rfold restore_checkpoint_command l _) as [[s' mx']|e]; [|done].
  unfold res_map at 1. go. rewrite ?res_map_bind. apply bind_ext. intros attempts.
  rewrite (rfold_options o restore_checkpoint_attempt)
    by (intros; apply restore_checkpoint_attempt_options).
  destruct (rfold restore_checkpoint_attempt attempts s') as [s2|e]; [|done].
  unfold res_map at 1. go. rewrite ?res_map_bind. apply bind_ext. intros authority.
  rewrite ?res_map_bind. apply bind_ext. intros values.
  rewrite restore_observed_checkpoint_options.
  by destruct (restore_observed_checkpoint s2 authority values).
Qed.

Lemma restore_record_regardless r : regardless (λ b, restore_record b r).
Proof.
  intros o s mx Ho. unfold restore_record.
  destruct (_ =? _); [by apply restore_from_checkpoint_options|].
  destruct (_ =? _).
  { rewrite res_map_bind. apply bind_ext. intros p. by apply restore_command_options. }
  destruct (_ =? _).
  { rewrite res_map_bind. apply bind_ext. intros p. rewrite restore_attempt_options.
    by destruct (restore_attempt s p). }
  destruct (_ =? _).
  { rewrite res_map_bind. apply bind_ext. intros p. rewrite restore_status_options.
    by destruct (restore_status s p). }
  destruct (_ =? _); [|done].
  rewrite res_map_bind. apply bind_ext. intros p. rewrite restore_observed_options.
  by destruct (restore_observed_record s p).
Qed.

(** ** Tables under other options *)

Lemma agrees_with_options o m log mx :
  agrees m log mx → es_session o = es_session (options m) →
  agrees (with_options o m) (with_options o log) mx.
Proof.
  intros [Ho Hb Hn Hlc Hll Hix Hcs Hf Hla Hk Hob Hre Hau] Hs. constructor; try done.
  - intros id st Hst. destruct (Hlc _ _ Hst) as [? ? Hcs' ? ? ?]. constructor; try done.
    cbn. by rewrite Hcs', Hs.
  - by destruct Hll; split.
Qed.

Lemma blank_agrees o : agrees (blank o) (blank o) 0.
Proof.
  constructor; cbn; try done; try (by intros ? ? Hx; rewrite lookup_empty in Hx).
Qed.

Lemma blank_tables o :
  RetryPolicy_validate (retry o) = Ok tt → es_session o ≠ 0 → 0 < maximumDeferredReports o →
  0 < maximumRetainedCommands o → tables_ok (blank o).
Proof.
  intros Hp Hs Hd Hr. constructor; cbn; try done; try (by intros ? ? Hx; rewrite lookup_empty in Hx).
  - rewrite map_size_empty. lia.
  - rewrite len_nil. lia.
Qed.

(** ** The constructor *)

Section Start.
Context {A : Type} `{TypedAdapter A} {S : Type} `{EventStoreLaws S store_ok}.
Abbreviation E := (Effects A S).
Abbreviation good := (good (A := A) (S := S) (store_ok := store_ok)).
Implicit Types (o : RuntimeOptions) (e : E).

(** The options a runtime is made with, and those its members have. *)
Record fits o (m : EffectsOptions) : Prop := {
  ft_session : es_session m = sessionId o;
  ft_timing : timing m = ro_feedbackTiming o;
  ft_retry : retry m = retryPolicy o;
  ft_retained : maximumRetainedCommands m = maxRetainedCommands o;
  ft_deferred : maximumDeferredReports m = feedbackCapacity o
}.

Lemma initial_options_ok o h m h' :
  initial_options o h = (Ok m, h') →
  fits o m ∧ 0 < feedbackCapacity o ∧ (channels_typed h → channels_typed h').
Proof.
  unfold initial_options, make_feedback_channel, mbind, stm_bind, sreject_if, slift, reject_if.
  destruct (feedbackCapacity o =? 0) eqn:Hc; [done|]. cbn. intros [= <- <-].
  split; [by split|]. split; [lia|]. intros Hh. by apply channels_typed_insert.
Qed.

Lemma initial_options_total o h : feedbackCapacity o ≠ 0 → ∃ m h', initial_options o h = (Ok m, h').
Proof.
  intros Hc. unfold initial_options, make_feedback_channel, mbind, stm_bind, sreject_if, slift, reject_if.
  rewrite (proj2 (N.eqb_neq _ _) Hc). cbn. eauto.
Qed.

Lemma check_options_ok o :
  check_options o = Ok tt ↔
  sessionId o ≠ 0 ∧ RetryPolicy_validate (retryPolicy o) = Ok tt ∧ maxRetainedCommands o ≠ 0.
Proof.
  unfold check_options. rewrite guard_ok, unit_bind_ok, reject_if_ok, negb_valid, N.eqb_neq. done.
Qed.

(** A store without records. *)
Lemma blank_good o m e h :
  fits o m → check_options o = Ok tt → 0 < feedbackCapacity o → store_ok (store e) →
  session (store_metadata (store e)) = sessionId o →
  feedbackTiming (store_metadata (store e)) = ro_feedbackTiming o →
  store_read_all (store e) = [] → channels_typed h →
  good (MkEffects (blank m) (store e) (objects e) h).
Proof.
  intros [F1 F2 F3 F4 F5] (Hs & Hp & Hr)%check_options_ok Hc Hok Hse Hti Hrd Hh. constructor; cbn.
  - apply blank_tables; [by rewrite F3|by rewrite F1|rewrite F5; lia|rewrite F4; lia].
  - done.
  - split; cbn; [done|by rewrite F1|by rewrite F2].
  - exists (blank m), 0. split; [|apply blank_agrees]. unfold logs. cbn. by rewrite Hrd.
Qed.

Lemma new_good o e e' :
  store_ok (store e) → store_read_all (store e) = [] → channels_typed (channels e) →
  new_RuntimeEffectsState o e = (Ok tt, e') → good e'.
Proof.
  intros Hok Hrd Hh. unfold new_RuntimeEffectsState.
  destruct (initial_options o (channels e)) as [[m|x] h] eqn:Hm; [|done].
  destruct (initial_options_ok _ _ _ _ Hm) as (Hf & Hc & Hh').
  set (e1 := MkEffects (blank m) (store e) (objects e) h).
  assert (wp (slift (check_options o);; open_store o) (λ x e', x = Ok tt → good e') e1) as Hwp.
  { apply wp_bind, wp_lift. destruct (check_options o) as [[]|x] eqn:Hck; cbn [then_wp]; [|done].
    unfold open_store. apply wp_bind, wp_get. cbn [then_wp].
    apply wp_bind, wp_reject; [done|].
    intros [Hse Hti]%orb_false_iff. apply negb_false_iff, N.eqb_eq in Hse.
    apply bool_decide_eq_false in Hti. apply dec_stable in Hti. cbn [then_wp].
    rewrite bool_decide_eq_true_2 by done.
    assert (good e1) as G1 by (apply (blank_good o); auto).
    intros _. revert G1. apply (keeps_bind (within good)); [by apply sound_passed_over|].
    intros _. apply sound_flush. }
  destruct ((slift (check_options o);; open_store o) e1) as [[[]|x] e2] eqn:Ho; [|done].
  intros [= <-]. exact (wp_elim _ _ _ _ _ Hwp Ho eq_refl).
Qed.

(** A store that the effects [e] of an earlier runtime worked on, and the
    options [m] of the new one. *)
Section Restart.
Context (o : RuntimeOptions) (e : E) (m : EffectsOptions).
Context (Hg : good e) (Hfits : fits o m) (Hcap : 0 < feedbackCapacity o).
Context (Hck : check_options o = Ok tt) (Hse : sessionId o = es_session (options (members e))).

Lemma restart_options : options_ok m.
Proof.
  destruct Hfits as [F1 F2 F3 F4 F5]. pose proof Hck as (Hs0 & Hp & Hr)%check_options_ok.
  split; rewrite ?F1, ?F3, ?F4, ?F5; [done|done|]. split; lia.
Qed.

Lemma restart_log log mx :
  logs e log mx → agrees (members e) log mx →
  rfold restore_record (store_read_all (store e)) (blank m, 0) = Ok (with_options m log, mx) ∧
  agrees (with_options m (members e)) (with_options m log) mx.
Proof.
  intros Hl Ha. assert (es_session m = es_session (options (members e))) as Hsm.
  { destruct Hfits as [F1 _ _ _ _]. congruence. }
  split; [|by apply agrees_with_options].
  pose proof (regardless_rfold restore_record (store_read_all (store e)) restore_record_regardless m
    (blank (options (members e))) 0 Hsm) as Hcomm. unfold logs in Hl. by rewrite Hl in Hcomm.
Qed.

Lemma restart_cases log mx w :
  logs e log mx → agrees (members e) log mx →
  project (store_metadata (store e)) (store_read_all (store e)) = Ok w →
  let kept := restored_kept (with_options m (members e)) (with_options m log) mx in
  restore (store_metadata (store e)) (store_read_all (store e)) (blank m) =
    (reject_if (maximumRetainedCommands m <? N.of_nat (size (commands kept)))
       EventStoreError "active command capacity exceeded";; Ok kept) ∧
  resumes (members e) kept ∧
  (few_enough (with_options m (members e)) (with_options m log) mx →
   ∀ objs h, session (store_metadata (store e)) = sessionId o →
     feedbackTiming (store_metadata (store e)) = ro_feedbackTiming o → channels_typed h →
     good (MkEffects kept (store e) objs h)) ∧
  (N.of_nat (size (commands (members e))) <= maxRetainedCommands o →
   few_enough (with_options m (members e)) (with_options m log) mx).
Proof.
  intros Hl Ha Hw kept. destruct (restart_log _ _ Hl Ha) as [Hl1 Ha1].
  pose proof (to_next _ (gd_tables _ Hg)) as [_ Hmax].
  assert (options kept = m) as Hos.
  { unfold kept. rewrite (pr_options _ _ (proj1 (restored_pruned _ _ _ Ha1))). done. }
  split_and!.
  - apply (restore_cases _ _ (with_options m (members e)) _ _ w); done.
  - destruct (restored_resumes _ _ _ Ha1 Hmax). by constructor.
  - intros Hfew objs h Hms Hmt Hh. constructor; cbn [members store objects channels].
    + apply restored_tables_ok; [done|exact restart_options|done|done].
    + done.
    + destruct Hfits as [F1 F2 _ _ _]. split; cbn [members store]; rewrite ?Hos, ?F1, ?F2; [apply Hg|done|done].
    + exists (with_options m log), mx. split; [|by apply restored_kept_agrees].
      unfold logs. cbn [members store]. by rewrite Hos.
  - intros Hsize. apply restored_few; [done|]. cbn. destruct Hfits as [_ _ _ F4 _]. by rewrite F4.
Qed.
End Restart.

Lemma open_existing o e m s' :
  check_options o = Ok tt → store_read_all (store e) ≠ [] →
  session (store_metadata (store e)) = sessionId o →
  feedbackTiming (store_metadata (store e)) = ro_feedbackTiming o →
  restore (store_metadata (store e)) (store_read_all (store e)) m = s' → members e = m →
  (slift (check_options o);; open_store o) e =
  match s' with Ok s => (Ok tt, set_members s e) | Err x => (Err x, e) end.
Proof.
  intros Hck Hrd Hs Ht Hr Hm.
  unfold open_store, mbind, stm_bind, slift, sget, sreject_if, reject_if, on_members, zoom, sput.
  rewrite Hck, Hs, Ht, N.eqb_refl, bool_decide_eq_false_2 by (intros []; done).
  cbn [negb orb]. rewrite bool_decide_eq_false_2 by done. rewrite Hm, Hr. by destruct s'.
Qed.

(** What a constructor that returns has checked. *)
Lemma new_checked o e e' :
  new_RuntimeEffectsState o e = (Ok tt, e') →
  ∃ m h, initial_options o (channels e) = (Ok m, h) ∧ check_options o = Ok tt ∧
    session (store_metadata (store e)) = sessionId o ∧
    feedbackTiming (store_metadata (store e)) = ro_feedbackTiming o ∧
    (slift (check_options o);; open_store o) (MkEffects (blank m) (store e) (objects e) h) = (Ok tt, e').
Proof.
  unfold new_RuntimeEffectsState.
  destruct (initial_options o (channels e)) as [[m|x] h] eqn:Hm; [|done].
  destruct ((slift (check_options o);; open_store o) _) as [[[]|x] e1] eqn:Ho; [|done].
  intros [= <-]. exists m, h. revert Ho. unfold mbind, stm_bind, slift.
  destruct (check_options o) as [[]|x]; [|done]. unfold open_store at 1.
  unfold mbind at 1 2, stm_bind at 1 2, sget, sreject_if, slift, reject_if. cbn [store].
  destruct (negb _ || _) eqn:Hcond; [done|]. intros Ho.
  apply orb_false_iff in Hcond as [Hse%negb_false_iff%N.eqb_eq Hti%bool_decide_eq_false%dec_stable].
  split_and!; [done..|]. rewrite <-Ho. unfold open_store, mbind, stm_bind, sget, sreject_if, slift, reject_if.
  cbn [store]. by rewrite Hse, Hti, N.eqb_refl, bool_decide_eq_false_2 by (intros []; done).
Qed.

Lemma restart_good o e e0 e' :
  good e → store e0 = store e → channels_typed (channels e0) →
  new_RuntimeEffectsState o e0 = (Ok tt, e') →
  good e' ∧ (store_read_all (store e) ≠ [] → store e' = store e ∧ resumes (members e) (members e')).
Proof.
  intros Hg He0 Hh Hn.
  destruct (decide (store_read_all (store e) = [])) as [Hempty|Hrd].
  { split; [|done]. apply (new_good o e0); [|by rewrite He0|done|done].
    rewrite He0. apply (gd_store _ Hg). }
  destruct (new_checked _ _ _ Hn) as (m & h & Hm & Hck & Hse & Hti & Ho).
  destruct (initial_options_ok _ _ _ _ Hm) as (Hf & Hcap & Hh'). rewrite He0 in Hse, Hti, Ho.
  rewrite (open_existing o (MkEffects (blank m) (store e) (objects e0) h) (blank m) _
    Hck Hrd Hse Hti eq_refl eq_refl) in Ho. cbn [store] in Ho.
  destruct (gd_log _ Hg) as (log & mx & Hl & Ha). pose proof (sf_session _ (gd_store _ Hg)) as Hs.
  destruct (restore _ _ _) as [s|x] eqn:Hr; [|done]. injection Ho as <-. pose proof Hr as Hr'.
  unfold restore in Hr'. apply res_bind_ok in Hr' as (w & Hw & _).
  destruct (restart_cases o e m Hg Hf Hcap Hck (eq_trans (eq_sym Hse) Hs) log mx w Hl Ha Hw)
    as (Hcase & Hres & Hgood & _).
  rewrite Hcase in Hr. apply unit_bind_ok in Hr as [Hfew%reject_if_ok%N.ltb_ge [= <-]].
  split; [|done]. apply Hgood; auto.
Qed.

Lemma restart_succeeds o e e0 w :
  good e → store e0 = store e → store_read_all (store e) ≠ [] →
  project (store_metadata (store e)) (store_read_all (store e)) = Ok w →
  check_options o = Ok tt → feedbackCapacity o ≠ 0 →
  sessionId o = es_session (options (members e)) →
  ro_feedbackTiming o = timing (options (members e)) →
  N.of_nat (size (commands (members e))) <= maxRetainedCommands o →
  ∃ e', new_RuntimeEffectsState o e0 = (Ok tt, e').
Proof.
  intros Hg He0 Hrd Hw Hck Hc Hse Hti Hsize. unfold new_RuntimeEffectsState.
  destruct (initial_options_total o (channels e0) Hc) as (m & h & Hm). rewrite Hm.
  destruct (initial_options_ok _ _ _ _ Hm) as (Hf & Hcap & Hh').
  destruct (gd_log _ Hg) as (log & mx & Hl & Ha). destruct (gd_store _ Hg) as [_ Hss Hst].
  destruct (restart_cases o e m Hg Hf Hcap Hck Hse log mx w Hl Ha Hw) as (Hcase & _ & _ & Hfew).
  specialize (Hfew Hsize). unfold few_enough in Hfew. cbn [options with_options] in Hfew.
  rewrite (proj2 (N.ltb_ge _ _) Hfew) in Hcase.
  rewrite He0, (open_existing o (MkEffects (blank m) (store e) (objects e0) h) (blank m) _
    Hck Hrd (eq_trans Hss (eq_sym Hse)) (eq_trans Hst (eq_sym Hti)) Hcase eq_refl).
  cbn [reject_if mbind res_bind]. eauto.
Qed.
End Start.
