(* ===== verification/RuntimeOperations.v ===== *)
(** * What holds of a runtime's effects however they are used

    The operations the frame loop and the host call, in any order, from the
    constructor on: a restart recovers what matters of the tables, the tables
    stay within their limits, an adapter hears of a command only after the log
    does, and what was observed of a target never goes back in time. *)
From stdpp Require Import fin_maps.
From S2P Require Import Prelude OrderedMap Values ValueCodec Effects Events EventStore Feedback Adapters Hoare Replay RuntimeEffects RuntimeRestore RuntimeLog RuntimeEffectsSpec RuntimeEffectsRuns RuntimeRestart.

(** ** The simulated adapter sends reports only *)

Lemma try_send_report_typed f r : keeps (within channels_typed) (try_send_report f r).
Proof.
  intros h Hh. unfold try_send_report, lock, mbind, stm_bind, slift.
  destruct (validate_effect_report r) as [[]|ex]; cbn; [|done].
  destruct f as [a|]; [|done]. destruct (h !! a) as [[s|]|] eqn:Ha; cbn; [|done..].
  destruct (shutdown_flag s); [done|]. destruct (_ <=? _); [done|]. cbn.
  apply channels_typed_insert; [done|]. exact (Hh _ _ Ha).
Qed.

Lemma try_send_observation_typed f o :
  typed_observation o → keeps (within channels_typed) (try_send_observation f o).
Proof.
  intros Ho h Hh. unfold try_send_observation, lock, mbind, stm_bind, slift.
  destruct (validate_external_observation o) as [[]|ex]; cbn; [|done].
  destruct f as [a|]; [|done]. destruct (h !! a) as [[s|]|] eqn:Ha; cbn; [|done..].
  destruct (shutdown_flag s); [done|]. destruct (_ <=? _); [done|]. cbn.
  apply channels_typed_insert; [done|]. apply Forall_app. split; [exact (Hh _ _ Ha)|by constructor].
Qed.

Abbreviation adapter_typed := (within (λ w : adapter_world, channels_typed w.2)).

Lemma modify_adapter_typed f : keeps adapter_typed (modify_adapter f).
Proof. intros [a h] Hh. exact Hh. Qed.
Lemma get_adapter_typed : keeps adapter_typed get_adapter.
Proof. intros [a h] Hh. exact Hh. Qed.
Lemma in_heap_typed {X} (m : stm heap X) :
  keeps (within channels_typed) m → keeps adapter_typed (in_heap m).
Proof. intros Hm [a h] Hh. specialize (Hm h Hh). unfold in_heap. cbn in *. by destruct (m h). Qed.

#[local] Hint Resolve modify_adapter_typed get_adapter_typed in_heap_typed try_send_report_typed
  keeps_srepeat : keeps.

Lemma return_cached_typed c r : keeps adapter_typed (return_cached c r).
Proof. unfold return_cached, cache_outcome, sthrow. keep_steps. Qed.
#[local] Hint Resolve return_cached_typed : keeps.

Lemma send_duplicate_typed r f u : keeps adapter_typed (send_duplicate r f u).
Proof. unfold send_duplicate, queue_report. keep_steps. Qed.
#[local] Hint Resolve send_duplicate_typed : keeps.

Lemma apply_desired_typed c : keeps adapter_typed (apply_desired c).
Proof. unfold apply_desired. keep_steps. Qed.
#[local] Hint Resolve apply_desired_typed : keeps.

Lemma emit_report_typed c f r : keeps adapter_typed (emit_report c f r).
Proof.
  unfold emit_report, queue_report. keep_steps; apply keeps_srepeat; try apply _; intros; keep_steps.
Qed.
#[local] Hint Resolve emit_report_typed : keeps.

Lemma dispatch_command_typed c f : keeps adapter_typed (dispatch_command c f).
Proof. unfold dispatch_command, sreject_if. keep_steps. Qed.
#[local] Hint Resolve dispatch_command_typed : keeps.

Lemma simulated_dispatch_typed c f : keeps adapter_typed (simulated_dispatch c f).
Proof. unfold simulated_dispatch, sreject_if. keep_steps. Qed.

#[export] Instance InMemoryAdapter_typed : TypedAdapter InMemoryAdapter.
Proof.
  constructor. intros c f a h x w Hh Hd. pose proof (simulated_dispatch_typed c f (a, h) Hh) as Hw.
  change (simulated_dispatch c f (a, h) = (x, w)) in Hd. by rewrite Hd in Hw.
Qed.

Section Operations.
Context {A : Type} `{TypedAdapter A} {S : Type} `{EventStoreLaws S store_ok}.
Abbreviation E := (Effects A S).
Abbreviation good := (good (A := A) (S := S) (store_ok := store_ok)).
Abbreviation sound := (keeps (within good)).
Implicit Types (e : E).

(** ** Operations

    The methods of [RuntimeEffectsState] that the runtime calls, the events the
    runtime records about the world, and what adapters send. *)
Inductive operation :=
| ProcessFeedback
| Issue (e : ResolvedEffect) (now : N) (accepted : list EffectReport)
| RetryDue (now : N) (accepted : list EffectReport)
| ClearDesire (route target : string)
| PruneTerminalHistory (reserveCommandSlot : bool)
| RegisterAdapter (adapter : option N)
| ReconcileIndeterminate (route target : string) (v : value)
| RecordEvidence (type : event_type) (payload : res value)
| Flush.

Definition perform (op : operation) : stm E unit :=
  match op with
  | ProcessFeedback => process_feedback;; mret tt
  | Issue e now accepted => issue e now accepted;; mret tt
  | RetryDue now accepted => retry_due now accepted;; mret tt
  | ClearDesire r t => clear_desire r t
  | PruneTerminalHistory b => on_members (prune_terminal_history b)
  | RegisterAdapter p => RuntimeEffects.register_adapter p
  | ReconcileIndeterminate r t v => reconcile_indeterminate r t v
  | RecordEvidence type p => record type p
  | Flush => flush
  end.

(** What the types of the arguments guarantee, and that the events about the
    world are not those about effects. *)
Definition typed_operation (op : operation) : Prop :=
  match op with
  | Issue e _ _ => typed_effect e
  | RecordEvidence type _ => passed_over type = true
  | _ => True
  end.

Lemma perform_sound op : typed_operation op → sound (perform op).
Proof.
  intros Hop. destruct op; cbn [perform typed_operation] in *;
    try (apply keeps_bind; [apply _| |intros ?; apply keeps_ret, _]).
  - apply sound_process_feedback.
  - by apply sound_issue.
  - apply sound_retry_due.
  - apply sound_clear_desire.
  - apply sound_prune.
  - apply sound_register_adapter.
  - apply sound_reconcile.
  - by apply sound_passed_over.
  - apply sound_flush.
Qed.

(** The effects of a runtime at some time: opened on a store without records;
    after an operation, whether it returned or threw; after the adapters or
    other threads did something to themselves or to the channels; opened again
    over the store that an earlier runtime left, by a host with other options,
    objects and channels. *)
Inductive used : E → Prop :=
| used_new o e0 e :
    store_ok (store e0) → store_read_all (store e0) = [] → channels_typed (channels e0) →
    new_RuntimeEffectsState o e0 = (Ok tt, e) → used e
| used_perform op e : used e → typed_operation op → used (perform op e).2
| used_elsewhere objs h e :
    used e → channels_typed h → used (MkEffects (members e) (store e) objs h)
| used_restart o e e0 e' :
    used e → store e0 = store e → channels_typed (channels e0) →
    new_RuntimeEffectsState o e0 = (Ok tt, e') → used e'.

Lemma used_good e : used e → good e.
Proof.
  induction 1 as [o e0 e Hok Hrd Hh Hn|op e _ IH Hop|objs h e _ IH Hh|o e e0 e' _ IH He0 Hh Hn].
  - by eapply new_good.
  - by apply perform_sound.
  - destruct IH as [? ? [] ?]. by constructor.
  - by eapply restart_good.
Qed.

(** ** The log only grows *)

Definition grows e e' : Prop :=
  store_ok (store e) →
  store_ok (store e') ∧ ∃ l, store_read_all (store e') = store_read_all (store e) ++ l.

#[export] Instance grows_preorder : PreOrder grows.
Proof.
  split; [intros e Hok; split; [done|exists []; by rewrite app_nil_r]|].
  intros e1 e2 e3 G1 G2 Hok. destruct (G1 Hok) as [Hok2 [l1 E1]].
  destruct (G2 Hok2) as [Hok3 [l2 E2]]. split; [done|]. exists (l1 ++ l2). by rewrite app_assoc, <-E1.
Qed.

Lemma grows_same_store e e' : store e' = store e → grows e e'.
Proof. intros Hs Hok. rewrite Hs. split; [done|]. exists []. by rewrite app_nil_r. Qed.

Lemma grows_members {X} (f : stm RuntimeEffectsState X) : keeps grows (on_members f).
Proof. intros e. apply grows_same_store. unfold on_members, zoom. by destruct (f (members e)). Qed.
Lemma grows_channels {X} (f : stm heap X) : keeps grows (on_channels f).
Proof. intros e. apply grows_same_store. unfold on_channels, zoom. by destruct (f (channels e)). Qed.
Lemma grows_query {X} (f : RuntimeEffectsState → X) : keeps grows (members_query f).
Proof. intros e. by apply grows_same_store. Qed.
Lemma grows_adapter {X} p (f : stm (A * heap) X) : keeps grows (on_adapter p f).
Proof.
  intros e. apply grows_same_store. unfold on_adapter. destruct (objects e !! p) as [a|]; [|done].
  by destruct (f (a, channels e)) as [x [a' h]].
Qed.

Lemma grows_batch events d : keeps grows (on_store (store_append_batch events d)).
Proof.
  intros e Hok. unfold on_store, zoom.
  destruct (store_append_batch events d (store e)) as [[ids|x] s'] eqn:E; cbn.
  - destruct (append_batch_appends _ _ _ _ _ Hok E) as (Hok' & _ & _ & first & _ & Hr & _).
    split; [done|]. by eexists.
  - destruct (append_batch_fails _ _ _ _ _ Hok E) as (Hok' & Hr & _). rewrite Hr.
    split; [done|]. exists []. by rewrite app_nil_r.
Qed.

Lemma grows_append event d : keeps grows (on_store (store_append event d)).
Proof.
  intros e Hok. pose proof (grows_batch [event] d e Hok) as Hb. revert Hb.
  unfold on_store, zoom. rewrite append_is_batch. unfold mbind, stm_bind.
  by destruct (store_append_batch [event] d (store e)) as [[ids|x] s'].
Qed.

Lemma grows_flush : keeps grows flush.
Proof.
  intros e Hok. unfold flush, on_store, zoom. destruct (store_flush (store e)) as [x s'] eqn:E.
  destruct (flush_keeps _ _ _ Hok E) as (Hok' & Hr & _). cbn. rewrite Hr.
  split; [done|]. exists []. by rewrite app_nil_r.
Qed.

#[local] Hint Resolve grows_members grows_channels grows_query grows_adapter grows_append
  grows_flush : keeps.

Ltac grow := unfold get_members; keep_steps.

Lemma grows_record type p : keeps grows (record type p).
Proof. unfold record, append. grow. Qed.
#[local] Hint Resolve grows_record : keeps.

Lemma grows_transition id status reason : keeps grows (transition id status reason).
Proof. unfold transition. grow. Qed.
Lemma grows_record_status id reason : keeps grows (record_status id reason).
Proof. unfold record_status. grow. Qed.
Lemma grows_record_report r d : keeps grows (record_report r d).
Proof. unfold record_report. grow. Qed.
#[local] Hint Resolve grows_transition grows_record_status grows_record_report : keeps.

Lemma grows_apply_report accepted r : keeps grows (apply_report accepted r).
Proof. unfold apply_report, observe_report, commit_authoritative. grow. Qed.
#[local] Hint Resolve grows_apply_report : keeps.

Lemma grows_take_result id d accepted : keeps grows (take_result id d accepted).
Proof. unfold take_result. grow. Qed.
Lemma grows_dispatch_failed id x : keeps grows (dispatch_failed id x).
Proof. unfold dispatch_failed. grow. Qed.
Lemma grows_call_adapter p c : keeps grows (call_adapter p c).
Proof. unfold call_adapter. grow. Qed.
#[local] Hint Resolve grows_take_result grows_dispatch_failed grows_call_adapter : keeps.

(** ** The log hears of an attempt before the adapter *)

(** [s1] is the store with the attempt recorded: flushing it succeeds, it is
    what the store [s'] has grown from, and restoring it finds the command with
    this attempt. *)
Record written_ahead e (id : N) (st : CommandState) (now : N) (s1 s' : S) : Prop := {
  wa_attempt : ∃ q v, attempt_payload id (cs_retryIndex st + 1) now = Ok v ∧
    store_read_all s1 = store_read_all (store e) ++ [MkEventRecord q EventType.CommandAttempted 1 v];
  wa_flushed : ∃ s2, store_flush s1 = (Ok tt, s2);
  wa_grown : ∃ l, store_read_all s' = store_read_all s1 ++ l;
  wa_restored : ∃ log mx st',
    rfold restore_record (store_read_all s1) (blank (options (members e)), 0) = Ok (log, mx) ∧
    commands log !! id = Some st' ∧ cs_command st' = cs_command st ∧
    cs_status st' = cs_status st ∧ cs_retryIndex st' = cs_retryIndex st
}.

Lemma record_attempt_restored id st now e :
  good e → commands (members e) !! id = Some st →
  wp (record EventType.CommandAttempted
        (attempt_payload (command_id (cs_command st)) (cs_retryIndex st + 1) now))
    (λ x e', objects e' = objects e ∧ channels e' = channels e ∧ store_ok (store e') ∧
       (x = Ok tt → ∀ s2 s', store_flush (store e') = (Ok tt, s2) →
         (∃ l, store_read_all s' = store_read_all (store e') ++ l) →
         written_ahead e id st now (store e') s')) e.
Proof.
  intros Hg Hst. eapply wp_mono; [by apply record_wp|]. intros x e' [(Hm & Ho & Hc) Hx].
  split; [done|]. split; [done|]. destruct x as [[]|ex]; [|split; [apply (gd_store _ Hx)|done]].
  destruct Hx as (v & q & Hv & _ & Hok & Hmd & Hr). split; [done|]. intros _ s2 s' Hfl Hl.
  destruct (gd_log _ Hg) as (log & mx & Hlog & Ha). unfold logs in Hlog.
  destruct (ag_commands _ _ _ Ha _ _ Hst) as (st' & Hst' & [S1 S2 S3]).
  destruct (to_commands _ (gd_tables _ Hg) _ _ Hst) as [Hid _ _ _ _ Hretry]. rewrite Hid in Hv.
  constructor; [by exists q, v|by exists s2|done|].
  eexists _, mx, _. split_and!.
  - rewrite Hr, rfold_app, Hlog. cbn [mbind res_bind rfold].
    by rewrite (restore_attempt_step log mx id _ now v q st' Hv Hst' Hretry).
  - cbn. apply lookup_insert_eq.
  - done.
  - done.
  - cbn. lia.
Qed.

(** C2. An adapter hears of a command only after the log does: if a dispatch
    changed an adapter or sent anything on a channel, then before that the
    attempt was recorded and the store flushed, and whatever happens next, the
    log that was flushed stays and restores the command with its attempts. *)
Theorem dispatch_writes_ahead (id p now : N) accepted e st :
  used e → commands (members e) !! id = Some st →
  let e' := (RuntimeEffects.dispatch id p now accepted e).2 in
  objects e' ≠ objects e ∨ channels e' ≠ channels e →
  ∃ s1, written_ahead e id st now s1 (store e').
Proof.
  intros Hu Hst e' Hcalled. pose proof (used_good _ Hu) as Hg.
  assert (wp (RuntimeEffects.dispatch id p now accepted) (λ _ e',
    (objects e' = objects e ∧ channels e' = channels e) ∨
    ∃ s1, written_ahead e id st now s1 (store e')) e) as Hwp; [|by destruct Hwp as [[? ?]|?]; [destruct Hcalled|]].
  unfold RuntimeEffects.dispatch. apply wp_bind, wp_command_at; [|congruence].
  intros x Hx. assert (x = st) as -> by congruence. cbn [then_wp]. apply wp_bind.
  eapply wp_mono; [by apply (record_attempt_restored id)|].
  intros [[]|ex] e1 (Ho & Hc & Hok & Hwa); cbn [then_wp]; [|auto]. specialize (Hwa eq_refl).
  apply wp_bind. unfold flush, on_store, wp at 1, zoom.
  destruct (store_flush (store e1)) as [[[]|ex] s2] eqn:Hfl; cbn [then_wp fst snd]; [|auto].
  destruct (flush_keeps _ _ _ Hok Hfl) as (Hok2 & Hr2 & _).
  assert (∀ X (f : stm E X), keeps grows f → wp f (λ _ e', (objects e' = objects e ∧ channels e' = channels e) ∨
    ∃ s1, written_ahead e id st now s1 (store e')) (set_store s2 e1)) as Hrest.
  { intros X f Hf. destruct (Hf (set_store s2 e1) Hok2) as [_ [l Hl]]. right. exists (store e1).
    apply (Hwa s2); [done|]. exists l. by rewrite <-Hr2. }
  apply Hrest. grow.
Qed.

(** ** What was observed never goes back *)

Definition forward e e' : Prop :=
  ∀ key (r : N), observedRevisions (members e) !! key = Some r →
  ∃ r' : N, observedRevisions (members e') !! key = Some r' ∧ r <= r'.

#[export] Instance forward_preorder : PreOrder forward.
Proof.
  split; [intros e key r Hr; exists r; split; [done|lia]|].
  intros e1 e2 e3 F1 F2 key r Hr. destruct (F1 _ _ Hr) as (r1 & Hr1 & ?).
  destruct (F2 _ _ Hr1) as (r2 & Hr2 & ?). exists r2. split; [done|lia].
Qed.

Lemma forward_refl e : forward e e.
Proof. reflexivity. Qed.

Lemma forward_same e e' :
  observedRevisions (members e') = observedRevisions (members e) → forward e e'.
Proof. intros Hs key r Hr. rewrite Hs. exists r. split; [done|lia]. Qed.

Lemma forward_store {X} (f : stm S X) : keeps forward (on_store f).
Proof. intros e. apply forward_same. unfold on_store, zoom. by destruct (f (store e)). Qed.
Lemma forward_channels {X} (f : stm heap X) : keeps forward (on_channels f).
Proof. intros e. apply forward_same. unfold on_channels, zoom. by destruct (f (channels e)). Qed.
Lemma forward_query {X} (f : RuntimeEffectsState → X) : keeps forward (members_query f).
Proof. intros e. by apply forward_same. Qed.
Lemma forward_adapter {X} p (f : stm (A * heap) X) : keeps forward (on_adapter p f).
Proof.
  intros e. apply forward_same. unfold on_adapter. destruct (objects e !! p) as [a|]; [|done].
  by destruct (f (a, channels e)) as [x [a' h]].
Qed.
Lemma forward_get : keeps forward (get_members (A := A) (S := S)).
Proof. apply forward_query. Qed.

(** Computations of the members that leave the revisions alone. *)
Definition revisions_kept {X} (f : stm RuntimeEffectsState X) : Prop :=
  ∀ m, observedRevisions (f m).2 = observedRevisions m.

Lemma forward_members {X} (f : stm RuntimeEffectsState X) :
  revisions_kept f → keeps forward (on_members f).
Proof.
  intros Hf e. apply forward_same. specialize (Hf (members e)). unfold on_members, zoom.
  by destruct (f (members e)).
Qed.

Lemma revisions_modify f : (∀ m, observedRevisions (f m) = observedRevisions m) → revisions_kept (smodify f).
Proof. done. Qed.
Lemma revisions_command_at id : revisions_kept (command_at id).
Proof. intros m. unfold command_at. by destruct (commands m !! id). Qed.
Lemma revisions_update id f : revisions_kept (update_command id f).
Proof. done. Qed.
Lemma revisions_set_status id status : revisions_kept (set_status id status).
Proof.
  intros m. destruct (commands m !! id) as [st|] eqn:Hst.
  - rewrite (set_status_eq _ _ st) by done. unfold after_status. by destruct (_ && _).
  - unfold set_status, command_at, mbind, stm_bind. by rewrite Hst.
Qed.
Lemma revisions_prune b : revisions_kept (prune_terminal_history b).
Proof.
  intros m. unfold prune_terminal_history, mbind, stm_bind, sget, sput, sreject_if, slift. cbn [fst snd].
  generalize (maximumRetainedCommands (options m) - N.b2n b) as target.
  generalize (terminalOrder m) as order. intros order target.
  assert (∀ m, observedRevisions (prune_loop target order m) = observedRevisions m) as Hp; [|by rewrite Hp].
  clear m. induction order as [|id order IH]; intros m; cbn [prune_loop]; [done|].
  destruct (_ <? _); [|done]. rewrite IH. unfold drop_terminal. cbn [commands set_terminal_order].
  destruct (commands m !! id) as [st|]; [|done]. destruct (active _); [done|]. by case_bool_decide.
Qed.

#[local] Hint Resolve forward_store forward_channels forward_query forward_adapter forward_get
  forward_members revisions_modify revisions_command_at revisions_update revisions_set_status
  revisions_prune : keeps.

Lemma forward_record type p : keeps forward (record type p).
Proof. unfold record, append. keep_steps. Qed.
Lemma forward_flush : keeps forward flush.
Proof. apply forward_store. Qed.
#[local] Hint Resolve forward_record forward_flush : keeps.
Lemma forward_transition id status reason : keeps forward (transition id status reason).
Proof. unfold transition. keep_steps. Qed.
Lemma forward_record_status id reason : keeps forward (record_status id reason).
Proof. unfold record_status. keep_steps. Qed.
Lemma forward_record_report r d : keeps forward (record_report r d).
Proof. unfold record_report. keep_steps. Qed.
#[local] Hint Resolve forward_transition forward_record_status forward_record_report : keeps.

(** The one place where a revision changes, after a comparison. *)
Lemma forward_commit route target v (revision : N) id e :
  (∀ r : N, observedRevisions (members e) !! target_key route target = Some r → r <= revision) →
  wp (commit_authoritative route target v revision id) (λ _ e', forward e e') e.
Proof.
  intros Hr. unfold commit_authoritative. apply wp_bind. eapply wp_mono; [apply only_store_record|].
  intros [x|ex] e1 (Hm & _); cbn [then_wp]; [|apply forward_same; by rewrite Hm].
  apply wp_on_members, wp_modify. intros key r Hk. cbn. rewrite Hm.
  destruct (decide (key = target_key route target)) as [->|Hne].
  - exists revision. rewrite lookup_insert_eq. split; [done|]. by apply Hr.
  - exists r. rewrite lookup_insert_ne by done. split; [done|lia].
Qed.

Lemma forward_observe_report r : keeps forward (observe_report r).
Proof.
  intros e. unfold observe_report.
  change (wp (s ← get_members; v ← slift (reported_value r);
    let commit := commit_authoritative (report_route r) (report_target r) v
                    (report_revision r) (report_command r) in
    match observedRevisions s !! target_key (report_route r) (report_target r) with
    | Some revision =>
        if report_revision r <? revision then mret tt
        else if revision =? report_revision r then
          if bool_decide (observed s !! target_key (report_route r) (report_target r) = Some v) then mret tt
          else record_report r "rejected-conflicting-state-revision"
        else commit
    | None => commit
    end) (λ _ e', forward e e') e).
  apply wp_bind, wp_get_members. cbn [then_wp]. apply wp_bind, wp_lift.
  destruct (reported_value r) as [v|ex]; cbn [then_wp]; [|reflexivity].
  destruct (observedRevisions (members e) !! _) as [revision|] eqn:Hrev.
  - destruct (report_revision r <? revision) eqn:Hlt; [apply wp_ret; reflexivity|].
    destruct (revision =? report_revision r); [case_bool_decide; [apply wp_ret; reflexivity|apply forward_record_report]|].
    apply forward_commit. intros x Hx. apply N.ltb_ge in Hlt. congruence.
  - apply forward_commit. congruence.
Qed.
#[local] Hint Resolve forward_observe_report : keeps.

Lemma forward_apply_report accepted r : keeps forward (apply_report accepted r).
Proof. unfold apply_report. keep_steps. Qed.
#[local] Hint Resolve forward_apply_report : keeps.

Lemma forward_apply_observation accepted o : keeps forward (apply_observation accepted o).
Proof.
  unfold apply_observation. apply keeps_bind; [apply _|apply keeps_lift, _|intros _].
  intros e. change (wp (disposition ← members_query (observation_disposition o);
    record EventType.ExternalObservationReceived (external_payload o disposition);;
    if negb (String.eqb disposition "accepted") then mret accepted
    else
      record EventType.ObservedStateChanged (external_state_payload o);;
      on_members (smodify (λ s, set_authority (authoritativeByTarget s)
        (<[target_key (observation_route o) (observation_target o) := observedValue o]> (observed s))
        (<[target_key (observation_route o) (observation_target o) := observation_revision o]>
           (observedRevisions s)) s));;
      mret (accepted ++ [o])) (λ _ e', forward e e') e).
  apply wp_bind. apply (wp_intro (members_query _)). intros x e0 [= <- <-]. cbn [then_wp].
  apply wp_bind. eapply wp_mono; [apply only_store_record|].
  intros [u|ex] e1 (Hm & _); cbn [then_wp]; [|apply forward_same; by rewrite Hm].
  destruct (negb _) eqn:Hacc; [apply wp_ret, forward_same; by rewrite Hm|].
  apply wp_bind. eapply wp_mono; [apply only_store_record|].
  intros [u'|ex] e2 (Hm2 & _); cbn [then_wp]; [|apply forward_same; by rewrite Hm2, Hm].
  apply wp_bind, wp_on_members, wp_modify. cbn [then_wp]. apply wp_ret.
  intros key r Hr. cbn. rewrite Hm2, Hm.
  destruct (decide (key = target_key (observation_route o) (observation_target o))) as [->|Hne].
  - exists (observation_revision o). rewrite lookup_insert_eq. split; [done|].
    apply negb_false_iff, String.eqb_eq in Hacc. revert Hacc. unfold observation_disposition.
    destruct (negb _ || _); [done|]. rewrite Hr.
    destruct (observation_revision o <? r) eqn:Hlt; [done|]. by apply N.ltb_ge in Hlt.
  - exists r. rewrite lookup_insert_ne by done. split; [done|lia].
Qed.
#[local] Hint Resolve forward_apply_observation : keeps.

Lemma forward_receive_reports fuel accepted : keeps forward (receive_reports fuel accepted).
Proof.
  revert accepted. induction fuel as [|fuel IH]; intros accepted; cbn [receive_reports]; unfold sthrow; keep_steps.
Qed.
Lemma forward_receive_observations fuel accepted : keeps forward (receive_observations fuel accepted).
Proof.
  revert accepted. induction fuel as [|fuel IH]; intros accepted; cbn [receive_observations]; unfold sthrow; keep_steps.
Qed.
#[local] Hint Resolve forward_receive_reports forward_receive_observations : keeps.

Lemma forward_process_feedback : keeps forward process_feedback.
Proof.
  intros e. unfold process_feedback. generalize (Datatypes.S (waiting e)) as fuel. intros fuel. revert e.
  change (keeps forward (take_feedback fuel)).
  unfold take_feedback, pop_deferred. keep_steps. apply keeps_sfold; [apply _|]. intros. keep_steps.
Qed.

Lemma forward_call_adapter p c : keeps forward (call_adapter p c).
Proof. unfold call_adapter. keep_steps. Qed.
Lemma forward_take_result id d accepted : keeps forward (take_result id d accepted).
Proof. unfold take_result. keep_steps. Qed.
Lemma forward_dispatch_failed id x : keeps forward (dispatch_failed id x).
Proof. unfold dispatch_failed. keep_steps. Qed.
#[local] Hint Resolve forward_call_adapter forward_take_result forward_dispatch_failed : keeps.
Lemma forward_dispatch id p now accepted : keeps forward (RuntimeEffects.dispatch id p now accepted).
Proof. unfold RuntimeEffects.dispatch. keep_steps. Qed.
#[local] Hint Resolve forward_dispatch : keeps.
Lemma forward_retry_due now accepted : keeps forward (retry_due now accepted).
Proof.
  unfold retry_due, retry_one. keep_steps. apply keeps_sfold; [apply _|]. intros. keep_steps.
Qed.
Lemma forward_issue f now accepted : keeps forward (issue f now accepted).
Proof. unfold issue, supersede_prior, new_command, sreject_if. keep_steps. Qed.
Lemma forward_clear_desire r t : keeps forward (clear_desire r t).
Proof. unfold clear_desire. keep_steps. Qed.
Lemma forward_register_adapter p : keeps forward (RuntimeEffects.register_adapter p).
Proof.
  unfold RuntimeEffects.register_adapter, adopt, sreject_if. keep_steps. apply keeps_for; [apply _|].
  intros. keep_steps.
Qed.

Lemma forward_reconcile r t v e :
  good e → wp (reconcile_indeterminate r t v) (λ _ e', forward e e') e.
Proof.
  intros Hg. unfold reconcile_indeterminate. apply wp_bind, wp_lift.
  destruct (validate v) as [[]|ex]; cbn [then_wp]; [|apply forward_refl]. apply wp_bind, wp_get_members. cbn [then_wp].
  apply wp_bind, wp_lift.
  destruct (latestByTarget (members e) !! _) as [l|] eqn:Hl; cbn [then_wp]; [|apply forward_refl].
  apply wp_bind, wp_command_at; [|intros _; apply forward_refl]. intros st Hst. cbn [then_wp].
  apply wp_bind, wp_reject; [intros _; apply forward_refl|]. intros _. cbn [then_wp]. apply wp_bind, wp_lift.
  set (status := if value_eqb _ _ then Applied else Failed).
  set (rest := λ revision : N, transition l status "host reconciliation";;
        commit_authoritative r t v revision (command_id (cs_command st));;
        on_members (update_command l (with_terminal (Report (es_session (options (members e)))
          (command_id (cs_command st)) r t status
          (if bool_decide (status = Applied) then Some v else None) "host reconciliation"
          (issuedAtMs (cs_command st)) revision)));; (flush : stm E unit)).
  assert (∀ revision : N,
    (∀ x : N, observedRevisions (members e) !! target_key r t = Some x → x <= revision) →
    wp (rest revision) (λ _ e', forward e e') e) as Hrest.
  { intros revision Hrev. unfold rest. apply wp_bind.
    assert (status ≠ Pending) as Hp by (unfold status; by destruct (value_eqb _ _)).
    pose proof (transition_wp l status "host reconciliation" st e Hg Hst Hp) as [_ Hm].
    pose proof (forward_transition l status "host reconciliation" e) as Hf. unfold wp.
    destruct (transition l status _ e) as [[[]|ex] e1]; cbn [fst snd then_wp] in *; [|done].
    specialize (Hm _ eq_refl). apply wp_bind. eapply wp_mono.
    { apply forward_commit. intros x Hx. apply Hrev. rewrite <-Hx, Hm. unfold after_status.
      by destruct (_ && _). }
    intros [[]|ex] e2 F2; cbn [then_wp]; [|by etrans].
    assert (forward e e2) as F by by etrans. clear -F.
    assert (keeps forward (on_members (update_command l (with_terminal (Report
      (es_session (options (members e))) (command_id (cs_command st)) r t status
      (if bool_decide (status = Applied) then Some v else None) "host reconciliation"
      (issuedAtMs (cs_command st)) revision)));; (flush : stm E unit))) as Hk by keep_steps.
    unfold wp. etrans; [exact F|apply Hk]. }
  destruct (observedRevisions (members e) !! _) as [prior|] eqn:Hprior; cbn [then_wp].
  - destruct (prior =? u64_max); cbn [then_wp reject_if mbind res_bind]; [apply forward_refl|].
    apply (Hrest (prior + 1)). intros x Hx. assert (prior = x) as -> by congruence. lia.
  - apply (Hrest (command_id (cs_command st))). congruence.
Qed.

(** C5. What is known of a target never goes back: whatever operation is
    performed, and whether it returns or throws, the revision last observed of a
    target stays known and does not decrease. *)
Theorem observed_never_back op e :
  used e → typed_operation op → ∀ key (r : N),
  observedRevisions (members e) !! key = Some r →
  ∃ r' : N, observedRevisions (members (perform op e).2) !! key = Some r' ∧ r <= r'.
Proof.
  intros Hu%used_good Hop. change (forward e (perform op e).2).
  destruct op; cbn [perform] in *.
  - apply (keeps_bind forward); [apply forward_process_feedback|intros; apply keeps_ret, _].
  - apply (keeps_bind forward); [apply forward_issue|intros; apply keeps_ret, _].
  - apply (keeps_bind forward); [apply forward_retry_due|intros; apply keeps_ret, _].
  - apply forward_clear_desire.
  - apply forward_members, revisions_prune.
  - apply forward_register_adapter.
  - by apply forward_reconcile.
  - apply forward_record.
  - apply forward_flush.
Qed.

(** ** Restarts *)

(** C3. A restart recovers what a runtime was doing.  Whatever operations a
    runtime performed, and however they ended, a runtime that is opened over
    its store starts, as long as the log can be projected, and finds every
    active command with its status and attempts, no other active command, the
    newest command of each target and everything that was observed; and it
    numbers its commands above all those there are. *)
Theorem restart_recovers o e e0 w :
  used e → store e0 = store e → store_read_all (store e) ≠ [] →
  project (store_metadata (store e)) (store_read_all (store e)) = Ok w →
  channels_typed (channels e0) →
  check_options o = Ok tt → feedbackCapacity o ≠ 0 →
  sessionId o = es_session (options (members e)) →
  ro_feedbackTiming o = timing (options (members e)) →
  N.of_nat (size (commands (members e))) <= maxRetainedCommands o →
  ∃ e', new_RuntimeEffectsState o e0 = (Ok tt, e') ∧ store e' = store e ∧
    resumes (members e) (members e').
Proof.
  intros Hu%used_good He0 Hrd Hw Hh Hck Hc Hse Hti Hsize.
  destruct (restart_succeeds o e e0 w Hu He0 Hrd Hw Hck Hc Hse Hti Hsize) as [e' Hn].
  exists e'. split; [done|]. by apply (restart_good o e e0 e' Hu He0 Hh Hn).
Qed.

(** ** Limits *)

(** C8. The tables stay within the limits the runtime was made with: retained
    commands, reports put off, attempts and the numbers of commands. *)
Theorem tables_within_limits e :
  used e →
  let m := members e in
  N.of_nat (size (commands m)) <= maximumRetainedCommands (options m) ∧
  len (deferredSynchronousReports m) <= maximumDeferredReports (options m) ∧
  0 < nextCommand m <= u64_max ∧
  ∀ id st, commands m !! id = Some st →
    0 < id < nextCommand m ∧ command_id (cs_command st) = id ∧
    cs_retryIndex st <= EffectLimits.maxRetryDelays ∧
    within_limits (desiredValue (effect (cs_command st))) = true.
Proof.
  intros Hu m. subst m. destruct (gd_tables _ (used_good _ Hu)) as [Hp Hs Hl Hn Hc Hlat Ht Hcap Hd].
  split_and!; [done|done|apply Hn|apply Hn|]. intros id st Hst.
  destruct (Hc _ _ Hst) as [Hid Hrange _ _ Hval Hretry]. split_and!; [lia|lia|done|done|].
  by apply validate_effect_command_ok in Hval as (_ & _ & ?).
Qed.

(** C6. At most one command of a target waits for its outcome, it is the newest
    of the target, and it is the one [latestByTarget] names; a command that
    ended is always listed for pruning. *)
Theorem one_pending_per_target e :
  used e →
  (∀ id st, commands (members e) !! id = Some st → cs_status st = Pending →
     latestByTarget (members e) !! command_key st = Some id ∧
     ∀ id' st', commands (members e) !! id' = Some st' → command_key st' = command_key st →
       id' <= id ∧ (cs_status st' = Pending → id' = id)) ∧
  (∀ id st, commands (members e) !! id = Some st → active (cs_status st) = false →
     id ∈ terminalOrder (members e)).
Proof.
  intros Hu. destruct (gd_tables _ (used_good _ Hu)) as [Hp Hs Hl Hn Hc [He Hnew Hpend] Ht Hcap Hd].
  split; [|done]. intros id st Hst Hs1. pose proof (Hpend _ _ Hst Hs1) as Hl1. split; [done|].
  intros id' st' Hst' Hk. split; [by eapply Hnew|]. intros Hs2.
  pose proof (Hpend _ _ Hst' Hs2) as Hl2. rewrite Hk in Hl2. congruence.
Qed.

(** ** Feedback *)

(** When taking in feedback returns, nothing of it is left: no report that
    was put off, none in the channel, and no observation. *)
Theorem feedback_taken_in e a e' :
  used e → process_feedback e = (Ok a, e') →
  deferredSynchronousReports (members e') = [] ∧ waiting e' = 0%nat.
Proof.
  intros Hu Hp. destruct (wp_elim _ _ _ _ _ (take_feedback_wp _ e (used_good _ Hu)) Hp) as [_ Hd].
  by apply (Hd a).
Qed.

(** The loops that empty the channel end: however many more turns they are
    given, taking in feedback does what it does with one turn more than there
    are reports and observations waiting. *)
Theorem feedback_loops_end fuel e :
  used e → (waiting e < fuel)%nat → take_feedback fuel e = process_feedback e.
Proof. intros Hu%used_good Hf. by apply take_feedback_fuel. Qed.

(** A list of operations, one after the other. *)
Fixpoint run (ops : list operation) (e : E) : E :=
  match ops with
  | [] => e
  | op :: ops => run ops (perform op e).2
  end.

Lemma used_run ops e : Forall typed_operation ops → used e → used (run ops e).
Proof.
  intros Hops. revert e. induction Hops as [|op ops Hop _ IH]; intros e Hu; cbn; [done|].
  by apply IH, used_perform.
Qed.
End Operations.

(** * Witnesses

    A runtime with one simulated adapter, whose immediate report is put off to
    the next frame while its duplicate arrives through the channel. *)

Definition sample_options : RuntimeOptions :=
  MkRuntimeOptions 7 Deferred (MkRetryPolicy [100; 200]%Z 1000) 4 3 false.
Definition sample_store : MemoryEventStore :=
  match new_MemoryEventStore (owned_metadata sample_options) 64 with
  | Ok s => s
  | Err _ => MkMemoryEventStore (owned_metadata sample_options) [] 0 0
  end.
Definition sample_device : InMemoryAdapter :=
  MkInMemoryAdapter "device" (MkAdapterCapabilities false false false)
    (MkAdapterBehavior 0 Applied 1 false false false None) default_AdapterLimits [] [] ∅ ∅ ∅.
Definition sample_host : Effects InMemoryAdapter MemoryEventStore :=
  MkEffects (blank (MkEffectsOptions 0 Deferred (MkRetryPolicy [] 0) None None 0 0))
    sample_store {[1 := sample_device]} ∅.
Definition sample_opened : Effects InMemoryAdapter MemoryEventStore :=
  (new_RuntimeEffectsState sample_options sample_host).2.
Definition sample_effect (b : bool) : ResolvedEffect := MkResolvedEffect "device" "lamp" (VBoolean b).
Definition sample_operations : list operation :=
  [RegisterAdapter (Some 1); Issue (sample_effect true) 10 []].
Definition sample_pending : Effects InMemoryAdapter MemoryEventStore :=
  run sample_operations sample_opened.
Definition sample_settled : Effects InMemoryAdapter MemoryEventStore :=
  run [ProcessFeedback; Issue (sample_effect false) 20 []; RetryDue 150 []] sample_pending.

Lemma sample_opened_used : used (store_ok := memory_ok) sample_opened.
Proof.
  apply (used_new sample_options sample_host); [by apply (new_memory_ok (owned_metadata sample_options) 64)|done|done|].
  rewrite (surjective_pairing (new_RuntimeEffectsState _ _)). by f_equal.
Qed.
Lemma sample_pending_used : used (store_ok := memory_ok) sample_pending.
Proof. apply used_run; [repeat constructor|apply sample_opened_used]. Qed.
Lemma sample_settled_used : used (store_ok := memory_ok) sample_settled.
Proof. apply used_run; [repeat constructor|apply sample_pending_used]. Qed.

(** The same session later, with other limits and new channels. *)
Definition sample_later : RuntimeOptions :=
  MkRuntimeOptions 7 Deferred (MkRetryPolicy [50]%Z 500) 2 2 false.
Definition sample_next_host : Effects InMemoryAdapter MemoryEventStore :=
  MkEffects (members sample_host) (store sample_settled) ∅ ∅.
Lemma restart_recovers_witness :
  ∃ e', new_RuntimeEffectsState sample_later sample_next_host = (Ok tt, e') ∧
    store e' = store sample_settled ∧ resumes (members sample_settled) (members e').
Proof.
  destruct (project (store_metadata (store sample_settled)) (store_read_all (store sample_settled)))
    as [w|x] eqn:Hw; [|by vm_compute in Hw].
  apply (restart_recovers (store_ok := memory_ok) sample_later sample_settled sample_next_host w);
    [exact sample_settled_used|reflexivity|by vm_compute|exact Hw|by intros ? ? ?|by vm_compute..].
Defined.

Lemma tables_within_limits_witness :
  ∃ st, commands (members sample_settled) !! 2 = Some st ∧ cs_retryIndex st = 1 ∧
    cs_retryIndex st <= EffectLimits.maxRetryDelays ∧ 0 < 2 < nextCommand (members sample_settled).
Proof.
  destruct (tables_within_limits (store_ok := memory_ok) sample_settled sample_settled_used)
    as (_ & _ & _ & Hc).
  destruct (commands (members sample_settled) !! 2) as [st|] eqn:Hst; [|by vm_compute in Hst].
  destruct (Hc _ _ Hst) as (Hid & _ & Hr & _). exists st. split; [reflexivity|].
  split; [|exact (conj Hr Hid)]. vm_compute in Hst. by injection Hst as <-.
Defined.

Lemma one_pending_per_target_witness :
  ∃ st, commands (members sample_settled) !! 2 = Some st ∧ cs_status st = Pending ∧
    latestByTarget (members sample_settled) !! command_key st = Some 2.
Proof.
  destruct (commands (members sample_settled) !! 2) as [st|] eqn:Hst; [|by vm_compute in Hst].
  assert (cs_status st = Pending) as Hp by (vm_compute in Hst; by injection Hst as <-).
  exists st. split; [done|]. split; [done|].
  by apply (one_pending_per_target (store_ok := memory_ok) sample_settled sample_settled_used).
Defined.

(** The command is dispatched once more; the duplicate of its report shows. *)
Lemma dispatch_writes_ahead_witness :
  ∃ st s1, commands (members sample_pending) !! 1 = Some st ∧
    written_ahead sample_pending 1 st 30 s1
      (store (RuntimeEffects.dispatch 1 1 30 [] sample_pending).2).
Proof.
  assert (channels (RuntimeEffects.dispatch 1 1 30 [] sample_pending).2 ≠ channels sample_pending) as Hne.
  { intros Heq. apply (f_equal (λ h, waiting (set_channels h sample_pending))) in Heq. by vm_compute in Heq. }
  assert (is_Some (commands (members sample_pending) !! 1)) as [st Hst] by (vm_compute; eauto).
  pose proof (dispatch_writes_ahead (store_ok := memory_ok) 1 1 30 [] sample_pending st
    sample_pending_used Hst (or_intror Hne)) as [s1 Hs1].
  exists st, s1. exact (conj Hst Hs1).
Defined.

Lemma observed_never_back_witness :
  observedRevisions (members sample_settled) !! target_key "device" "lamp" = Some 1 ∧
  ∃ r : N, observedRevisions (members (perform ProcessFeedback sample_settled).2)
    !! target_key "device" "lamp" = Some r ∧ 1 <= r.
Proof.
  assert (observedRevisions (members sample_settled) !! target_key "device" "lamp" = Some 1) as Hr
    by by vm_compute.
  split; [done|].
  by apply (observed_never_back (store_ok := memory_ok) ProcessFeedback sample_settled sample_settled_used I).
Defined.

Lemma feedback_taken_in_witness :
  waiting sample_settled = 2%nat ∧
  ∃ a, (process_feedback sample_settled).1 = Ok a ∧
    waiting (process_feedback sample_settled).2 = 0%nat.
Proof.
  split; [by vm_compute|]. destruct (process_feedback sample_settled) as [[a|x] e'] eqn:Hp.
  - exists a. split; [done|].
    by apply (feedback_taken_in (store_ok := memory_ok) sample_settled a e' sample_settled_used Hp).
  - apply (f_equal (λ p, is_ok p.1)) in Hp. by vm_compute in Hp.
Defined.

Lemma feedback_loops_end_witness :
  waiting sample_settled = 2%nat ∧ take_feedback 9 sample_settled = process_feedback sample_settled.
Proof.
  assert (waiting sample_settled = 2%nat) as Hw by by vm_compute. split; [done|].
  apply (feedback_loops_end (store_ok := memory_ok) 9 sample_settled sample_settled_used).
  rewrite Hw. lia.
Defined.
