(* ===== verification/Runtime.v ===== *)
(** * Frames of a runtime
    (include/liquid/Runtime.hpp, src/runtime/Runtime.cpp,
     src/runtime/RuntimeEvidence.cpp)

    A [Runtime] owns a world and, when it was given [RuntimeOptions], the
    effects of [RuntimeEffects].  A frame takes in feedback, expires intents,
    runs the systems, resolves intents, carries out what was selected, records
    evidence of it all, and is either completed or faults the runtime.

    [caller] is the thread of the call, [code] what the systems do to the world
    they run in. *)
From stdpp Require Import pretty.
From S2P Require Import Prelude OrderedMap Values Events EventStore Feedback Adapters Replay Effects Ids Hoare Behaviors Intents Components Systems Coordinator World WorldQueries RuntimeEffects.

#[export] Instance ComponentTarget_countable : Countable ComponentTarget :=
  inj_countable' (λ t, (target_type t, target_slot t)) (λ p, MkComponentTarget p.1 p.2)
    (λ t, match t with MkComponentTarget _ _ => eq_refl end).

(** [ComponentTarget::operator<] *)
Definition target_le (a b : ComponentTarget) : Prop :=
  target_type a < target_type b ∨
  target_type a = target_type b ∧ handle_le (target_slot a) (target_slot b).
#[export] Instance target_le_dec : RelDecision target_le.
Proof. intros a b. unfold target_le. apply _. Defined.

(** The entries of a [std::map], as it iterates them. *)
Definition numbered_entries {V} (m : gmap N V) : list (N * V) :=
  omap (λ k, v ← m !! k; Some (k, v)) (command_ids m).
Definition target_entries {V} (m : gmap ComponentTarget V) : list (ComponentTarget * V) :=
  omap (λ k, v ← m !! k; Some (k, v)) (merge_sort target_le (elements (dom m))).

Definition Resolutions := gmap ComponentTypeId (gmap string ComponentSlotId).

Record FrameLog := MkFrameLog {
  log_frame : N;
  log_now : N;
  completed : bool;
  phases : list string;
  expired_intents : N;
  resolution_requests : N;
  selected_intents : N;
  systems_run : N;
  intent_selections : list (ComponentTypeId * list (string * IntentId));
  failure_phase : string;
  failure_message : string;
  failure_system : string
}.

Definition new_FrameLog : FrameLog := MkFrameLog 0 0 false [] 0 0 0 0 [] "" "" "".

Definition push_phase name l : FrameLog :=
  MkFrameLog (log_frame l) (log_now l) (completed l) (phases l ++ [name]) (expired_intents l)
    (resolution_requests l) (selected_intents l) (systems_run l) (intent_selections l)
    (failure_phase l) (failure_message l) (failure_system l).
Definition add_expired n l : FrameLog :=
  MkFrameLog (log_frame l) (log_now l) (completed l) (phases l) (expired_intents l + n)
    (resolution_requests l) (selected_intents l) (systems_run l) (intent_selections l)
    (failure_phase l) (failure_message l) (failure_system l).
Definition set_requests n l : FrameLog :=
  MkFrameLog (log_frame l) (log_now l) (completed l) (phases l) (expired_intents l)
    n (selected_intents l) (systems_run l) (intent_selections l)
    (failure_phase l) (failure_message l) (failure_system l).
Definition add_selections type selected l : FrameLog :=
  MkFrameLog (log_frame l) (log_now l) (completed l) (phases l) (expired_intents l)
    (resolution_requests l) (selected_intents l + len selected) (systems_run l)
    (intent_selections l ++ [(type, selected)])
    (failure_phase l) (failure_message l) (failure_system l).
Definition add_systems_run n l : FrameLog :=
  MkFrameLog (log_frame l) (log_now l) (completed l) (phases l) (expired_intents l)
    (resolution_requests l) (selected_intents l) (systems_run l + n) (intent_selections l)
    (failure_phase l) (failure_message l) (failure_system l).
Definition set_completed b l : FrameLog :=
  MkFrameLog (log_frame l) (log_now l) b (phases l) (expired_intents l)
    (resolution_requests l) (selected_intents l) (systems_run l) (intent_selections l)
    (failure_phase l) (failure_message l) (failure_system l).
Definition set_failure phase message l : FrameLog :=
  MkFrameLog (log_frame l) (log_now l) (completed l) (phases l) (expired_intents l)
    (resolution_requests l) (selected_intents l) (systems_run l) (intent_selections l)
    phase message (failure_system l).
Definition set_failure_system name l : FrameLog :=
  MkFrameLog (log_frame l) (log_now l) (completed l) (phases l) (expired_intents l)
    (resolution_requests l) (selected_intents l) (systems_run l) (intent_selections l)
    (failure_phase l) (failure_message l) name.
Definition set_frame_now frame now l : FrameLog :=
  MkFrameLog frame now (completed l) (phases l) (expired_intents l)
    (resolution_requests l) (selected_intents l) (systems_run l) (intent_selections l)
    (failure_phase l) (failure_message l) (failure_system l).

(** [error.what()] in the handler of [std::exception], else the other text. *)
Definition what_or (other : string) (e : exn) : string :=
  if bool_decide (exn_kind e = unknown_exception) then other else exn_what e.

Record FrameInput := MkFrameInput {
  input_now : N;
  resolutions : Resolutions;
  resolvedEffects : list ResolvedEffect
}.

Record FrameResult := MkFrameResult {
  result_frame : FrameLog;
  result_commands : list EffectCommand;
  result_reports : list EffectReport;
  result_observations : list ExternalObservation
}.

Inductive ComponentControl := SelectionOnly | InternalState | ExternalEffect.
#[export] Instance ComponentControl_eq_dec : EqDecision ComponentControl.
Proof. solve_decision. Defined.

Record ExternalComponentBinding := MkBinding {
  binding_component : ComponentTarget;
  binding_name : string;
  binding_route : string;
  binding_target : string
}.
#[export] Instance binding_eq_dec : EqDecision ExternalComponentBinding.
Proof. solve_decision. Defined.

(** ** [class Runtime] *)

Section Runtime.
Context {K : Type} `{Countable K} {El : K → Type}.
Context {Y : Type} `{Countable Y} {D : Type}.
Context {A : Type} `{EffectAdapter A} {S : Type} `{EventStore S}.
Abbreviation World := (Coordinator.World El Y D).

(** [effectsState] comes with the host's objects it works on. *)
Record Runtime := MkRuntime {
  ownedWorld : World;
  currentFrame : N;
  latestFrameLog : FrameLog;
  frameInProgress : bool;
  faultedState : bool;
  runtimeOwner : N;
  effectsState : option (Effects A S);
  componentControls : gmap ComponentTarget ComponentControl;
  effectBindings : gmap ComponentTarget ExternalComponentBinding;
  componentsByEffectTarget : gmap TargetKey ComponentTarget
}.
Implicit Types rt : Runtime.

Definition set_world w rt : Runtime :=
  MkRuntime w (currentFrame rt) (latestFrameLog rt) (frameInProgress rt) (faultedState rt)
    (runtimeOwner rt) (effectsState rt) (componentControls rt) (effectBindings rt)
    (componentsByEffectTarget rt).
Definition set_current_frame n rt : Runtime :=
  MkRuntime (ownedWorld rt) n (latestFrameLog rt) (frameInProgress rt) (faultedState rt)
    (runtimeOwner rt) (effectsState rt) (componentControls rt) (effectBindings rt)
    (componentsByEffectTarget rt).
Definition set_latest_log l rt : Runtime :=
  MkRuntime (ownedWorld rt) (currentFrame rt) l (frameInProgress rt) (faultedState rt)
    (runtimeOwner rt) (effectsState rt) (componentControls rt) (effectBindings rt)
    (componentsByEffectTarget rt).
Definition set_in_progress b rt : Runtime :=
  MkRuntime (ownedWorld rt) (currentFrame rt) (latestFrameLog rt) b (faultedState rt)
    (runtimeOwner rt) (effectsState rt) (componentControls rt) (effectBindings rt)
    (componentsByEffectTarget rt).
Definition set_faulted b rt : Runtime :=
  MkRuntime (ownedWorld rt) (currentFrame rt) (latestFrameLog rt) (frameInProgress rt) b
    (runtimeOwner rt) (effectsState rt) (componentControls rt) (effectBindings rt)
    (componentsByEffectTarget rt).
Definition set_effects e rt : Runtime :=
  MkRuntime (ownedWorld rt) (currentFrame rt) (latestFrameLog rt) (frameInProgress rt)
    (faultedState rt) (runtimeOwner rt) e (componentControls rt) (effectBindings rt)
    (componentsByEffectTarget rt).
Definition set_controls m rt : Runtime :=
  MkRuntime (ownedWorld rt) (currentFrame rt) (latestFrameLog rt) (frameInProgress rt)
    (faultedState rt) (runtimeOwner rt) (effectsState rt) m (effectBindings rt)
    (componentsByEffectTarget rt).
Definition set_bindings m byTarget rt : Runtime :=
  MkRuntime (ownedWorld rt) (currentFrame rt) (latestFrameLog rt) (frameInProgress rt)
    (faultedState rt) (runtimeOwner rt) (effectsState rt) (componentControls rt) m byTarget.

(** [Runtime()], [Runtime(initialFrame)] *)
Definition new_Runtime (w : World) (thread initialFrame : N) : Runtime :=
  MkRuntime w initialFrame new_FrameLog false false thread None ∅ ∅ ∅.

(** [Runtime(options)], over the effects its constructor makes. *)
Definition configured_Runtime (w : World) (thread : N) (e : Effects A S) : Runtime :=
  MkRuntime (enable_script_evidence thread w).2 0 new_FrameLog false false thread (Some e) ∅ ∅ ∅.

Definition on_owned {X} : stm World X → stm Runtime X := zoom ownedWorld set_world.

(** A call on [*effectsState]; its absence is what the callers check for. *)
Definition on_effects {X} (m : stm (Effects A S) X) : stm Runtime X := λ rt,
  match effectsState rt with
  | None => (throw logic_error "runtime effects were not configured", rt)
  | Some e => let '(x, e) := m e in (x, set_effects (Some e) rt)
  end.
Definition ensure_effects (msg : string) : stm Runtime unit :=
  rt ← sget;
  match effectsState rt with
  | Some _ => mret tt
  | None => sthrow logic_error msg
  end.

Context (caller : N) (code : Y → SystemCode World).

Definition ensure_runtime_thread : stm Runtime unit := λ rt,
  sreject_if (negb (caller =? runtimeOwner rt)) logic_error
    "runtime used from a non-owner thread" rt.

Definition on_session : stm Runtime SessionId :=
  on_effects (members_query (λ s, es_session (options s))).

(** *** Evidence of the world *)

(** The loop over the two prefixes: the text of the world's number behind the
    first that fits is replaced by the session's. *)
Fixpoint replace_world (prefixes : list string) (world logicalWorld key : string) : string :=
  match prefixes with
  | [] => key
  | prefix :: rest =>
      let actualPrefix := prefix +:+ world +:+ ":" in
      if String.prefix actualPrefix key
      then prefix +:+ logicalWorld +:+
           String.substring (String.length prefix + String.length world) (String.length key) key
      else replace_world rest world logicalWorld key
  end.

Definition serialized_topology (t : TopologyMutation) (runtimeWorld : N) (session : SessionId)
  : res (string * value) :=
  let key := replace_world ["behavior:"; "access:"] (pretty runtimeWorld) (pretty session)
               (topology_key t) in
  v ← match topology_value t with
      | VObject normalized =>
          Value_object (foldl (λ o field,
            match sm_find field o with
            | Some _ => sm_assign field (VUnsigned session) o
            | None => o
            end) normalized ["world"; "slot_world"; "behavior_world"])
      | v => Ok v
      end;
  Ok (key, v).

Definition topology_payload (t : TopologyMutation) (runtimeWorld : N) (session : SessionId)
  : res value :=
  '(key, v) ← serialized_topology t runtimeWorld session;
  key ← Value_string key;
  event_payload [("key", key); ("value", v);
                 ("removed", VBoolean (Coordinator.topology_removed t))].

Definition mutation_payload (m : ComponentMutation) (session : SessionId) : res value :=
  let target := mutation_target m in
  key ← Value_string (pretty (target_type target) +:+ ":" +:+ mutation_name m);
  name ← Value_string (mutation_name m);
  event_payload
    [("key", key); ("value", after m); ("type", VUnsigned (target_type target));
     ("slot_world", VUnsigned session);
     ("slot", VUnsigned (handle_slot (target_slot target)));
     ("generation", VUnsigned (handle_generation (target_slot target)));
     ("name", name); ("before", before m); ("after", after m)].

Definition lifecycle_key (id : IntentId) (session : SessionId) : value :=
  VString ("intent:" +:+ pretty session +:+ ":" +:+ pretty (handle_slot id) +:+ ":" +:+
           pretty (handle_generation id)).

Definition destroyed_payload (i : Intent) (session : SessionId) : res value :=
  event_payload
    [("key", lifecycle_key (intent_id i) session); ("intent_world", VUnsigned session);
     ("intent_slot", VUnsigned (handle_slot (intent_id i)));
     ("intent_generation", VUnsigned (handle_generation (intent_id i)))].

Definition created_payload (i : Intent) (session : SessionId) : res value :=
  let target := target_slot (Ids.intent_target i) in
  name ← Value_string (intent_name i);
  event_payload
    [("key", lifecycle_key (intent_id i) session); ("value", intent_encoded i);
     ("intent_world", VUnsigned session);
     ("intent_slot", VUnsigned (handle_slot (intent_id i)));
     ("intent_generation", VUnsigned (handle_generation (intent_id i)));
     ("owner_world", VUnsigned session);
     ("owner_slot", VUnsigned (handle_slot (Ids.intent_owner i)));
     ("owner_generation", VUnsigned (handle_generation (Ids.intent_owner i)));
     ("type", VUnsigned (target_type (Ids.intent_target i)));
     ("target_world", VUnsigned session); ("target_slot", VUnsigned (handle_slot target));
     ("target_generation", VUnsigned (handle_generation target));
     ("priority", VUnsigned (priority_value (intent_priority i))); ("name", name);
     ("sequence", VUnsigned (intent_sequence i));
     ("lifetime", VString (match lifetime_kind (Ids.intent_lifetime i) with
                           | Persistent => "persistent" | UntilTime => "until-time" end));
     ("expires_at", VUnsigned (expiresAt (Ids.intent_lifetime i)))].

Definition script_payload (e : ScriptExecutionEvidence) (session : SessionId) : res value :=
  let owner := script_owner e in
  hash ← Value_string (sourceHash e);
  source ← (if sourceIncluded e then source ← Value_string (script_source e); Ok [("source", source)]
            else Ok []);
  diagnostic ← Value_string (script_diagnostic e);
  event_payload
    ([("key", VString ("script:" +:+ pretty session +:+ ":" +:+ pretty (handle_slot owner) +:+
               ":" +:+ pretty (handle_generation owner) +:+ ":" +:+ pretty (script_now e)));
      ("owner_world", VUnsigned session); ("owner_slot", VUnsigned (handle_slot owner));
      ("owner_generation", VUnsigned (handle_generation owner));
      ("now", VUnsigned (script_now e)); ("source_included", VBoolean (sourceIncluded e));
      ("source_hash", hash)] ++ source ++
     [("status", VUnsigned (script_status e)); ("diagnostic", diagnostic);
      ("created_intents", VUnsigned (createdIntentCount e))]).

Definition on_record (type : event_type) (payload : res value) : stm Runtime unit :=
  on_effects (record type payload).

Definition record_topology_evidence (t : TopologyMutation) : stm Runtime unit :=
  world ← on_owned (instance_id caller);
  session ← on_session;
  on_record EventType.TopologyChanged (topology_payload t world session).
Definition record_mutation_evidence (m : ComponentMutation) : stm Runtime unit :=
  session ← on_session;
  on_record (if mutation_removed m then EventType.ComponentRemoved
             else EventType.ComponentMutated) (mutation_payload m session).
Definition record_lifecycle_evidence (l : IntentLifecycleRecord) : stm Runtime unit :=
  session ← on_session;
  if created l then on_record EventType.IntentCreated (created_payload (lifecycle_intent l) session)
  else on_record EventType.IntentDestroyed (destroyed_payload (lifecycle_intent l) session).
Definition record_script_evidence (e : ScriptExecutionEvidence) : stm Runtime unit :=
  session ← on_session;
  on_record EventType.ScriptExecuted (script_payload e session).

Definition record_world_evidence : stm Runtime unit :=
  topology ← on_owned (topology_mutations caller);
  sfor record_topology_evidence topology;;
  on_owned (clear_topology_mutations caller);;
  mutations ← on_owned (component_mutations caller);
  sfor record_mutation_evidence mutations;;
  on_owned (clear_component_mutations caller);;
  lifecycle ← on_owned (intent_lifecycle_records caller);
  sfor record_lifecycle_evidence lifecycle;;
  on_owned (clear_intent_lifecycle_records caller);;
  scripts ← on_owned (script_execution_evidence caller);
  sfor record_script_evidence scripts;;
  on_owned (clear_script_execution_evidence caller).

(** *** Bindings of components to physical targets *)

Definition erase_control (component : ComponentTarget) : stm Runtime unit :=
  smodify (λ rt, set_controls (delete component (componentControls rt)) rt).

Definition unbind_effect_component (component : ComponentTarget) : stm Runtime unit :=
  rt ← sget;
  match effectBindings rt !! component with
  | None => mret tt
  | Some binding =>
      let key := target_key (binding_route binding) (binding_target binding) in
      let byTarget := if bool_decide (componentsByEffectTarget rt !! key = Some component)
                      then delete key (componentsByEffectTarget rt)
                      else componentsByEffectTarget rt in
      sput (set_bindings (delete component (effectBindings rt)) byTarget rt)
  end.

Definition current_effect_binding (route target : string)
  : stm Runtime (option ExternalComponentBinding) :=
  rt ← sget;
  let key := target_key route target in
  match componentsByEffectTarget rt !! key with
  | None => mret None
  | Some component =>
      match effectBindings rt !! component with
      | Some binding =>
          if bool_decide (binding_route binding = route) && bool_decide (binding_target binding = target)
          then
            alive ← on_owned (component_exists caller (binding_component binding));
            if negb alive then
              unbind_effect_component component;; erase_control component;; mret None
            else mret (Some binding)
          else
            sput (set_bindings (effectBindings rt)
                    (delete key (componentsByEffectTarget rt)) rt);; mret None
      | None =>
          sput (set_bindings (effectBindings rt)
                  (delete key (componentsByEffectTarget rt)) rt);; mret None
      end
  end.

(** The components whose binding is dead, in the order of the bindings. *)
Definition dead_components (dead : list ComponentTarget)
    (entry : ComponentTarget * ExternalComponentBinding) : stm Runtime (list ComponentTarget) :=
  alive ← on_owned (component_exists caller entry.1);
  mret (if (alive : bool) then dead else dead ++ [entry.1]).

Definition retire_dead_effect_bindings : stm Runtime unit :=
  rt ← sget;
  dead ← sfold dead_components (target_entries (effectBindings rt)) [];
  sfor (λ component, unbind_effect_component component;; erase_control component) dead.

(** An authoritative outcome of a bound target becomes the component's value. *)
Definition project_observed (route target : string) (v : value) : stm Runtime unit :=
  binding ← current_effect_binding route target;
  match binding with
  | None => mret tt
  | Some binding =>
      projected ← on_owned (decode_observed caller (binding_component binding) v);
      on_owned (replace_component_value caller (binding_component binding)
                  (binding_name binding) projected);;
      mret tt
  end.

Definition project_authoritative_report (r : EffectReport) : stm Runtime unit :=
  authoritative ← on_effects (members_query (report_is_authoritative r));
  if negb authoritative then mret tt
  else
    v ← slift (reported_value r);
    project_observed (report_route r) (report_target r) v.
Definition project_authoritative_reports (l : list EffectReport) : stm Runtime unit :=
  sfor project_authoritative_report l.

Definition project_authoritative_observation (o : ExternalObservation) : stm Runtime unit :=
  authoritative ← on_effects (members_query (observation_is_authoritative o));
  if negb authoritative then mret tt
  else project_observed (observation_route o) (observation_target o) (observedValue o).
Definition project_authoritative_observations (l : list ExternalObservation)
  : stm Runtime unit := sfor project_authoritative_observation l.

(** *** The phases of a frame *)

Definition check_resolution (entry : ComponentTypeId * gmap string ComponentSlotId)
  : stm Runtime unit :=
  current ← on_owned (resolution_request_is_current caller entry.1 (named_entries entry.2));
  sreject_if (negb current) invalid_argument
    "intent resolution request contains a stale component target".

Definition validate_frame_start (now : N) (r : Resolutions) : stm Runtime unit :=
  rt ← sget;
  sreject_if (currentFrame rt =? u64_max) overflow_error "frame number exhausted";;
  sreject_if (faultedState rt) logic_error "runtime is faulted after an incomplete frame";;
  sreject_if (frameInProgress rt) logic_error "runtime frame execution is not reentrant";;
  sreject_if ((0 <? currentFrame rt) && (now <? log_now (latestFrameLog rt))) invalid_argument
    "runtime time cannot move backwards";;
  sfor check_resolution (numbered_entries r).

(** The runtime with the locals of [execute_frame_phases]: the log, and
    [completedInPhase] with the system [log.failure_system] names. *)
Definition Phase : Type := (Runtime * FrameLog * progress)%type.

Definition in_runtime {X} (m : stm Runtime X) : stm Phase X :=
  zoom (λ s, s.1.1) (λ rt s, (rt, s.1.2, s.2)) m.
Definition change_log (f : FrameLog → FrameLog) : stm Phase unit :=
  smodify (λ s, (s.1.1, f s.1.2, s.2)).

(** The systems of a phase and what the log keeps of their run. *)
Definition run_phase (name : string) (ph : SystemPhase) (now : N) : stm Phase unit :=
  change_log (push_phase name);;
  s ← sget;
  zoom (λ s, (ownedWorld s.1.1, s.2)) (λ wp s, (set_world wp.1 s.1.1, s.1.2, wp.2))
    (World.run_systems caller code (currentFrame s.1.1) now ph);;
  smodify (λ s, (s.1.1, add_systems_run (completedSystems s.2) s.1.2,
                 MkProgress 0 (failingSystem s.2))).

(** Every type and name of [r] is assigned over those of [targets]. *)
Definition merge_targets (targets r : Resolutions) : Resolutions :=
  union_with (λ old new, Some (new ∪ old)) targets r.

Definition resolve_type (now : N) (entry : ComponentTypeId * gmap string ComponentSlotId)
  : stm Phase unit :=
  selected ← in_runtime (on_owned
    (resolve_intents caller entry.1 (named_entries entry.2) now));
  change_log (add_selections entry.1 selected).

(** The body of the [try] block. *)
Definition frame_phases (now : N) (r : Resolutions) : stm Phase unit :=
  change_log (push_phase "begin_frame");;
  change_log (push_phase "expire_intents");;
  n ← in_runtime (on_owned (destroy_expired_intents caller now));
  change_log (add_expired n);;
  run_phase "run_input_systems" InputPhase now;;
  run_phase "run_behavior_systems" BehaviorPhase now;;
  run_phase "run_decision_systems" DecisionPhase now;;
  change_log (push_phase "resolve_intents");;
  n ← in_runtime (on_owned (destroy_expired_intents caller now));
  change_log (add_expired n);;
  targets ← in_runtime (on_owned (resolution_targets caller));
  let targets := merge_targets targets r in
  change_log (set_requests (N.of_nat (size targets)));;
  sfor (resolve_type now) (numbered_entries targets);;
  change_log (push_phase "end_frame");;
  change_log (set_completed true).

(** The log as a handler finishes it. *)
Definition failed_log (e : exn) (log : FrameLog) (p : progress) : FrameLog :=
  let phase := match last (phases log) with Some phase => phase | None => "begin_frame" end in
  set_failure_system (failingSystem p)
    (set_failure phase (what_or "unknown exception" e)
       (add_systems_run (completedSystems p) log)).

Definition execute_frame_phases (now : N) (r : Resolutions) : stm Runtime FrameLog := λ rt,
  let log := set_frame_now (currentFrame rt) now new_FrameLog in
  match frame_phases now r (rt, log, MkProgress 0 "") with
  | (Ok _, (rt, log, p)) => (Ok (set_failure_system (failingSystem p) log), rt)
  | (Err e, (rt, log, p)) => (Err e, set_latest_log (failed_log e log p) rt)
  end.

(** [run_frame(now, resolutions)] *)
Definition run_frame_at (now : N) (r : Resolutions) : stm Runtime FrameLog :=
  ensure_runtime_thread;;
  validate_frame_start now r;;
  smodify (set_in_progress true);;
  stry (log ← execute_frame_phases now r; smodify (set_latest_log log)) (λ e,
    smodify (set_in_progress false);;
    smodify (set_faulted true);;
    slift (Err e));;
  smodify (set_in_progress false);;
  smodify (λ rt, set_current_frame (currentFrame rt + 1) rt);;
  rt ← sget;
  mret (latestFrameLog rt).

(** *** Selections *)

(** The effects so far and the external components selected so far. *)
Definition Selected : Type := (list ResolvedEffect * gset ComponentTarget)%type.

Definition apply_selection (acc : Selected) (entry : string * IntentId) : stm Runtime Selected :=
  let '(name, id) := entry in
  selected ← on_owned (intent caller id);
  let target := Ids.intent_target selected in
  rt ← sget;
  match default SelectionOnly (componentControls rt !! target) with
  | SelectionOnly => mret acc
  | InternalState =>
      on_owned (replace_component_value caller target name (intent_encoded selected));;
      mret acc
  | ExternalEffect =>
      binding ← slift (match effectBindings rt !! target with
        | Some binding => Ok binding
        | None => throw logic_error "external component selection has no effect binding"
        end);
      e ← on_owned (encode_effect_value caller target name (intent_encoded selected));
      match e with
      | None => mret acc
      | Some e =>
          sreject_if (bool_decide (adapterRoute e ≠ binding_route binding) ||
                      bool_decide (Effects.target e ≠ binding_target binding)) invalid_argument
            "effect codec output does not match the stable binding";;
          mret (acc.1 ++ [e], {[target]} ∪ acc.2)
      end
  end.

Definition apply_selections (frame : FrameLog) : stm Runtime (list ResolvedEffect) :=
  acc ← sfold (λ acc selections, sfold apply_selection selections.2 acc)
    (intent_selections frame) ([], ∅);
  rt ← sget;
  sfor (λ entry : ComponentTarget * ExternalComponentBinding,
    if bool_decide (entry.1 ∈ acc.2) then mret tt
    else on_effects (clear_desire (binding_route entry.2) (binding_target entry.2)))
    (target_entries (effectBindings rt));;
  mret acc.1.

(** *** Frames with effects *)

(** The locals of [run_frame(FrameInput)] that its handler uses. *)
Record Attempt := MkAttempt { attempt_frame : FrameLog; worldEvidenceAttempted : bool }.

Definition frame_started_payload (frame now : N) : res value :=
  event_payload [("frame", VUnsigned frame); ("now", VUnsigned now)].

Definition selection_payload (type : ComponentTypeId) (name : string) (id : IntentId)
    (session : SessionId) : res value :=
  key ← Value_string (pretty type +:+ ":" +:+ name);
  name ← Value_string name;
  event_payload
    [("key", key); ("value", VUnsigned session); ("type", VUnsigned type); ("name", name);
     ("intent_world", VUnsigned session); ("intent_slot", VUnsigned (handle_slot id));
     ("intent_generation", VUnsigned (handle_generation id))].

Definition record_selections (frame : FrameLog) : stm Runtime unit :=
  sfor (λ selections : ComponentTypeId * list (string * IntentId),
    sfor (λ entry : string * IntentId,
      session ← on_session;
      on_record EventType.ResolutionSelected
        (selection_payload selections.1 entry.1 entry.2 session)) selections.2)
    (intent_selections frame).

(** The commands issued for the effects, and the reports received meanwhile. *)
Definition issue_all (now : N) (acc : list EffectCommand * list EffectReport)
    (e : ResolvedEffect) : stm Runtime (list EffectCommand * list EffectReport) :=
  '(command, reports) ← on_effects (issue e now acc.2);
  mret (match command with Some c => acc.1 ++ [c] | None => acc.1 end, reports).

Definition in_frame {X} (m : stm Runtime X) : stm (Runtime * Attempt) X :=
  zoom fst (λ rt s, (rt, s.2)) m.

(** The body of the [try] block. *)
Definition frame_body (input : FrameInput) : stm (Runtime * Attempt) FrameResult :=
  let now := input_now input in
  s ← sget;
  in_frame (on_record EventType.FrameStarted (frame_started_payload (currentFrame s.1) now));;
  '(reports, observations) ← in_frame (on_effects process_feedback);
  in_frame retire_dead_effect_bindings;;
  in_frame (project_authoritative_reports reports);;
  in_frame (project_authoritative_observations observations);;
  frame ← in_frame (execute_frame_phases now (resolutions input));
  smodify (λ s, (s.1, MkAttempt frame (worldEvidenceAttempted s.2)));;
  selected ← in_frame (apply_selections frame);
  let effects := selected ++ resolvedEffects input in
  in_frame (on_effects (λ e, (validate_effects effects (members e), e)));;
  in_frame (record_selections frame);;
  '(commands, reports) ← in_frame (sfold (issue_all now) effects ([], reports));
  reports ← in_frame (on_effects (retry_due now reports));
  in_frame (project_authoritative_reports reports);;
  smodify (λ s, (s.1, MkAttempt (attempt_frame s.2) true));;
  in_frame record_world_evidence;;
  in_frame (on_effects (on_members (prune_terminal_history false)));;
  in_frame (on_record EventType.FrameCompleted (frame_started_payload (log_frame frame) now));;
  in_frame (on_effects flush);;
  mret (MkFrameResult frame commands reports observations).

Definition publish_frame_failure (frame : FrameLog) (frameNumber now : N) (failure : exn)
  : FrameLog :=
  let frame := set_completed false frame in
  if bool_decide (failure_phase frame = "")
  then set_failure "effects_and_persistence" (what_or "unknown failure" failure)
         (set_frame_now frameNumber now frame)
  else frame.

Definition failed_payload (frame : FrameLog) (frameNumber now : N) : res value :=
  phase ← Value_string (failure_phase frame);
  message ← Value_string (failure_message frame);
  system ← Value_string (failure_system frame);
  event_payload
    [("frame", VUnsigned frameNumber); ("now", VUnsigned now); ("phase", phase);
     ("message", message); ("system", system);
     ("expired_intents", VUnsigned (expired_intents frame));
     ("selected_intents", VUnsigned (selected_intents frame));
     ("systems_run", VUnsigned (systems_run frame))].

(** The handler: the runtime is faulted, the failure published, and evidence
    of it recorded as far as that is possible. *)
Definition frame_failed (frameBeingRun now : N) (attempt : Attempt) (failure : exn)
  : stm Runtime unit :=
  smodify (set_faulted true);;
  rt ← sget;
  let latest := latestFrameLog rt in
  let frame := attempt_frame attempt in
  let frame := if negb (completed frame) && negb (completed latest) &&
                  (log_frame latest =? frameBeingRun) then latest else frame in
  let frame := publish_frame_failure frame frameBeingRun now failure in
  smodify (set_latest_log frame);;
  stry ((if worldEvidenceAttempted attempt then mret tt else record_world_evidence);;
        on_record EventType.FrameFailed (failed_payload frame frameBeingRun now);;
        on_effects flush)
    (λ _, mret tt);;
  smodify (set_in_progress false).

(** [run_frame(FrameInput)] *)
Definition run_frame (input : FrameInput) : stm Runtime FrameResult :=
  ensure_runtime_thread;;
  ensure_effects "runtime effects were not configured";;
  validate_frame_start (input_now input) (resolutions input);;
  on_effects (λ e, (validate_effects (resolvedEffects input) (members e), e));;
  smodify (set_in_progress true);;
  rt ← sget;
  let frameBeingRun := currentFrame rt in
  result ← (λ rt,
    match frame_body input (rt, MkAttempt new_FrameLog false) with
    | (Ok result, (rt, _)) => (Ok result, rt)
    | (Err failure, (rt, attempt)) =>
        (frame_failed frameBeingRun (input_now input) attempt failure;; slift (Err failure)) rt
    end);
  smodify (set_latest_log (result_frame result));;
  smodify (set_in_progress false);;
  smodify (λ rt, set_current_frame (currentFrame rt + 1) rt);;
  mret result.

(** *** Between frames *)

Definition runtime_effects {X} (m : stm (Effects A S) X) : stm Runtime X :=
  ensure_runtime_thread;;
  ensure_effects "runtime effects were not configured";;
  on_effects m.

Definition register_adapter (adapter : option N) : stm Runtime unit :=
  runtime_effects (RuntimeEffects.register_adapter adapter).
Definition feedback_sender : stm Runtime FeedbackSender :=
  runtime_effects (members_query (λ s, sender (options s))).
Definition observed_state (route target : string) : stm Runtime (option value) :=
  runtime_effects (members_query (effects_observed_state route target)).
Definition command_status (id : CommandId) : stm Runtime (option CommandStatus) :=
  runtime_effects (members_query (effects_command_status id)).
Definition reconcile_indeterminate (route target : string) (v : value) : stm Runtime unit :=
  runtime_effects (RuntimeEffects.reconcile_indeterminate route target v).

Definition checkpoint : stm Runtime RecordId :=
  ensure_runtime_thread;;
  ensure_effects "runtime effects were not configured";;
  rt ← sget;
  sreject_if (frameInProgress rt) logic_error
    "runtime checkpoint is unavailable during a frame";;
  record_world_evidence;;
  on_effects effects_checkpoint.

Definition frame_number : stm Runtime N :=
  ensure_runtime_thread;; rt ← sget; mret (currentFrame rt).
Definition faulted : stm Runtime bool :=
  ensure_runtime_thread;; rt ← sget; mret (faultedState rt).
Definition last_frame_log : stm Runtime FrameLog :=
  ensure_runtime_thread;; rt ← sget; mret (latestFrameLog rt).

(** [world()], and what the host then does with it. *)
Definition on_world {X} (m : stm World X) : stm Runtime X :=
  ensure_runtime_thread;; on_owned m.

Definition configure_component (k : K) (type : ComponentType) (name : string)
    (control : ComponentControl) : stm Runtime unit :=
  ensure_runtime_thread;;
  ensure_effects "component controls require an effects-configured runtime";;
  rt ← sget;
  sreject_if (frameInProgress rt) logic_error "component control cannot change during a frame";;
  sreject_if (bool_decide (control = ExternalEffect)) invalid_argument
    "external components require bind_effect_component";;
  target ← on_owned (component_target caller k type name);
  smodify (λ rt, set_controls (<[target := control]> (componentControls rt)) rt);;
  unbind_effect_component target.

Definition bind_effect_component (k : K) (type : ComponentType) (name : string)
    (target : string) : stm Runtime unit :=
  ensure_runtime_thread;;
  ensure_effects "effect bindings require an effects-configured runtime";;
  rt ← sget;
  sreject_if (frameInProgress rt) logic_error "effect binding cannot change during a frame";;
  component ← on_owned (component_target caller k type name);
  route ← on_owned (effect_route caller (type_id type));
  let key := target_key route target in
  existing ← current_effect_binding route target;
  sreject_if (match existing with
              | Some b => bool_decide (binding_component b ≠ component)
              | None => false
              end) invalid_argument "effect route and target are already bound";;
  unbind_effect_component component;;
  smodify (λ rt, set_controls (<[component := ExternalEffect]> (componentControls rt)) rt);;
  smodify (λ rt, set_bindings
    (<[component := MkBinding component name route target]> (effectBindings rt))
    (<[key := component]> (componentsByEffectTarget rt)) rt).
End Runtime.
