(* ===== verification/RuntimeFrames.v ===== *)
(** * What a frame does to its runtime

    A frame is refused without a trace, is completed with all its phases, or
    faults the runtime for good; and the bindings of components to physical
    targets stay one to one. *)
From stdpp Require Import fin_maps.
From S2P Require Import Prelude OrderedMap Values Events EventStore Feedback Adapters Replay Effects Ids Hoare Behaviors Intents Components Systems Coordinator World WorldQueries RuntimeEffects Runtime.

Section Frames.
Context {K : Type} `{Countable K} {El : K → Type}.
Context {Y : Type} `{Countable Y} {D : Type}.
Context {A : Type} `{EffectAdapter A} {S : Type} `{EventStore S}.
Abbreviation World := (Coordinator.World El Y D).
Abbreviation Runtime := (Runtime (El := El) (Y := Y) (D := D) (A := A) (S := S)).
Context (caller : N) (code : Y → SystemCode World).
Implicit Types (rt : Runtime).

(** ** What the steps of a frame leave alone *)

Record frame_kept rt rt' : Prop := {
  fk_frame : currentFrame rt' = currentFrame rt;
  fk_progress : frameInProgress rt' = frameInProgress rt;
  fk_faulted : faultedState rt' = faultedState rt;
  fk_owner : runtimeOwner rt' = runtimeOwner rt;
  fk_effects : is_Some (effectsState rt) → is_Some (effectsState rt')
}.

#[export] Instance frame_kept_preorder : PreOrder frame_kept.
Proof.
  split; [by split|]. intros a b c [A1 A2 A3 A4 A5] [B1 B2 B3 B4 B5].
  split; [congruence..|auto].
Qed.

Lemma kept_owned {X} (f : stm World X) : keeps frame_kept (on_owned f).
Proof. intros rt. unfold on_owned, zoom. by destruct (f (ownedWorld rt)). Qed.

Lemma kept_effects {X} (f : stm (Effects A S) X) : keeps frame_kept (on_effects f).
Proof.
  intros rt. unfold on_effects. destruct (effectsState rt) as [e|] eqn:He; cbn; [|done].
  destruct (f e). by split.
Qed.

(** ** The phases of a frame *)

Definition all_phases : list string :=
  ["begin_frame"; "expire_intents"; "run_input_systems"; "run_behavior_systems";
   "run_decision_systems"; "resolve_intents"; "end_frame"].

(** The first [k] phases of the frame [n] were entered, with the systems of the
    world acting on the world only. *)
Record in_phase rt (n now : N) (k : nat) (s : Phase (El := El) (Y := Y) (D := D) (A := A) (S := S)) : Prop := {
  ip_runtime : ∃ w, s.1.1 = set_world w rt;
  ip_phases : phases s.1.2 = take k all_phases;
  ip_completed : completed s.1.2 = false;
  ip_failure : failure_phase s.1.2 = "";
  ip_frame : log_frame s.1.2 = n ∧ log_now s.1.2 = now
}.

(** Where an exception leaves a frame. *)
Definition left_in rt n now (s : Phase) : Prop := ∃ k, (0 < k)%nat ∧ in_phase rt n now k s.

Section Steps.
Context (rt : Runtime) (n now : N).
Abbreviation inside k := (in_phase rt n now k).
Definition step (k k' : nat) {X} (f : stm Phase X) : Prop :=
  ∀ s, inside k s → wp f (λ x s', match x with Ok _ => inside k' s' | Err _ => left_in rt n now s' end) s.

Lemma step_bind k k1 k2 {X Z} (f : stm Phase X) (g : X → stm Phase Z) :
  step k k1 f → (∀ x, step k1 k2 (g x)) → step k k2 (f ≫= g).
Proof.
  intros Hf Hg s Hs. apply wp_bind. eapply wp_mono; [by apply Hf|].
  intros [x|e] s' Hs'; cbn; [by apply Hg|done].
Qed.

Lemma step_push name k : all_phases !! k = Some name → step k (k + 1) (change_log (push_phase name)).
Proof.
  intros Hk s [Hr Hp Hc Hf Hn]. constructor; try done. cbn. rewrite Hp.
  rewrite Nat.add_1_r. symmetry. by apply take_S_r.
Qed.

Lemma step_log k f :
  (∀ l, phases (f l) = phases l ∧ completed (f l) = completed l ∧ failure_phase (f l) = failure_phase l ∧
     log_frame (f l) = log_frame l ∧ log_now (f l) = log_now l) → step k k (change_log f).
Proof.
  intros Hf s [Hr Hp Hc Hfl [Hn Hw]]. destruct (Hf s.1.2) as (F1 & F2 & F3 & F4 & F5).
  constructor; cbn; rewrite ?F1, ?F2, ?F3, ?F4, ?F5; done.
Qed.

Lemma step_owned k {X} (f : stm World X) : (0 < k)%nat → step k k (in_runtime (on_owned f)).
Proof.
  intros Hk s Hs. assert (inside k (in_runtime (on_owned f) s).2) as Hs'.
  { destruct Hs as [[w Hr] Hp Hc Hf Hn]. unfold in_runtime, on_owned, zoom.
    destruct (f (ownedWorld s.1.1)) as [x w']. constructor; try done. cbn. rewrite Hr. by exists w'. }
  unfold wp. destruct (in_runtime (on_owned f) s).1; [done|]. by exists k.
Qed.

Lemma step_for k {X} (f : X → stm Phase unit) l : (∀ x, step k k (f x)) → step k k (sfor f l).
Proof.
  intros Hf. induction l as [|x l IH]; [by intros s Hs|]. cbn. by eapply step_bind.
Qed.

Lemma step_run_phase name ph k :
  all_phases !! k = Some name → step k (k + 1) (run_phase caller code name ph now).
Proof.
  intros Hk. unfold run_phase. eapply step_bind; [by apply step_push|intros []].
  intros s Hs. apply wp_bind, wp_get. cbn [then_wp]. apply wp_bind.
  destruct Hs as [[w Hr] Hp Hc Hf Hn].
  unfold zoom, wp. destruct (World.run_systems caller code _ now ph _) as [x wp'].
  assert (inside (k + 1) (set_world wp'.1 s.1.1, s.1.2, wp'.2)) as Hs'.
  { constructor; try done. cbn. rewrite Hr. by exists wp'.1. }
  destruct x as [c|e]; cbn [then_wp fst snd]; [|by exists (k + 1)%nat; split; [lia|]].
  apply wp_modify. by destruct Hs'; constructor.
Qed.

Lemma wp_step k k1 {X Z} (f : stm Phase X) (g : X → stm Phase Z) Q s :
  step k k1 f → inside k s → (∀ x s, inside k1 s → wp (g x) Q s) →
  (∀ e s, left_in rt n now s → Q (Err e) s) → wp (f ≫= g) Q s.
Proof.
  intros Hf Hs Hg Hq. apply wp_bind. eapply wp_mono; [by apply Hf|].
  intros [x|e] s' Hs'; cbn; [by apply Hg|by apply Hq].
Qed.

Lemma step_resolve k entry : (0 < k)%nat → step k k (resolve_type caller now entry).
Proof.
  intros Hk. unfold resolve_type. eapply step_bind; [by apply step_owned|]. intros x.
  by apply step_log.
Qed.

Ltac next_phase tac := eapply wp_step; [|eassumption| |]; [tac|intros ? ? ?|done].

(** Every phase in its order, or an exception in one of them. *)
Lemma frame_phases_wp r s :
  inside 0 s →
  wp (frame_phases caller code now r) (λ x s', match x with
    | Ok _ => (∃ w, s'.1.1 = set_world w rt) ∧ phases s'.1.2 = all_phases ∧ completed s'.1.2 = true ∧
        failure_phase s'.1.2 = "" ∧ log_frame s'.1.2 = n ∧ log_now s'.1.2 = now
    | Err _ => left_in rt n now s'
    end) s.
Proof.
  intros Hs. unfold frame_phases.
  next_phase ltac:(by apply (step_push _ 0)). next_phase ltac:(by apply (step_push _ 1)).
  next_phase ltac:(apply step_owned; lia). next_phase ltac:(by apply step_log).
  next_phase ltac:(by apply (step_run_phase _ _ 2)). next_phase ltac:(by apply (step_run_phase _ _ 3)).
  next_phase ltac:(by apply (step_run_phase _ _ 4)). next_phase ltac:(by apply (step_push _ 5)).
  next_phase ltac:(apply step_owned; lia). next_phase ltac:(by apply step_log).
  next_phase ltac:(apply step_owned; lia). next_phase ltac:(by apply step_log).
  next_phase ltac:(apply step_for; intros; apply step_resolve; lia). next_phase ltac:(by apply (step_push _ 6)).
  match goal with Hi : inside (6 + 1) ?s |- _ => destruct Hi as [Hr Hp Hc Hf [Hn Hw]] end.
  apply wp_modify. done.
Qed.
End Steps.

(** ** The rest of a frame *)

Definition log_failed (l : FrameLog) : Prop := completed l = false ∧ failure_phase l ≠ "".

(** A frame's phases return a completed log, or leave a failed one. *)
Lemma execute_wp now r rt :
  wp (execute_frame_phases caller code now r) (λ x rt', frame_kept rt rt' ∧
    match x with
    | Ok l => phases l = all_phases ∧ completed l = true ∧ failure_phase l = "" ∧
        log_frame l = currentFrame rt ∧ log_now l = now
    | Err _ => completed (latestFrameLog rt') = false ∧
        log_frame (latestFrameLog rt') = currentFrame rt ∧
        ∃ k, (0 < k)%nat ∧ phases (latestFrameLog rt') = take k all_phases ∧
          failure_phase (latestFrameLog rt') = default "" (last (take k all_phases))
    end) rt.
Proof.
  unfold wp, execute_frame_phases.
  assert (in_phase rt (currentFrame rt) now 0
    (rt, set_frame_now (currentFrame rt) now new_FrameLog, MkProgress 0 "")) as Hin.
  { constructor; try done. exists (ownedWorld rt). by destruct rt. }
  pose proof (frame_phases_wp rt (currentFrame rt) now r _ Hin) as Hwp.
  unfold wp in Hwp. destruct (frame_phases caller code now r _) as [[[]|e] [[rt' l] p]]; cbn [fst snd] in *.
  - destruct Hwp as ([w Hw] & Hp & Hc & Hf & Hn & Ht). cbn in Hw, Hp, Hc, Hf, Hn, Ht. subst rt'. done.
  - destruct Hwp as (k & Hk & [[w Hw] Hp Hc Hf [Hn Ht]]).
    cbn in Hw, Hp, Hc, Hf, Hn, Ht. subst rt'. split; [done|]. cbn. split; [done|]. split; [done|]. exists k.
    split; [done|]. split; [done|]. rewrite Hp.
    destruct (last (take k all_phases)) eqn:Hlast; [done|]. apply last_None in Hlast.
    by destruct k; [lia|].
Qed.

(** Changes of the controls and bindings. *)
Lemma kept_erase c : keeps frame_kept (erase_control c).
Proof. intros rt. by split. Qed.
Lemma kept_unbind c : keeps frame_kept (unbind_effect_component c).
Proof.
  apply keeps_get_bind. intros rt. destruct (effectBindings rt !! c); by split.
Qed.
#[local] Hint Resolve kept_owned kept_effects kept_erase kept_unbind : keeps.

Lemma kept_current_binding r t : keeps frame_kept (current_effect_binding caller r t).
Proof.
  apply keeps_get_bind. intros rt.
  destruct (componentsByEffectTarget rt !! _) as [c|]; [|by split].
  destruct (effectBindings rt !! c) as [b|]; [|by split].
  destruct (_ && _); [|by split].
  change (frame_kept rt (((alive ← on_owned (component_exists caller (binding_component b));
    if negb alive then unbind_effect_component c;; erase_control c;; mret None else mret (Some b))
    : stm Runtime _) rt).2). revert rt.
  change (keeps frame_kept (alive ← on_owned (component_exists caller (binding_component b));
    if negb alive then unbind_effect_component c;; erase_control c;; mret None else mret (Some b))).
  keep_steps.
Qed.
#[local] Hint Resolve kept_current_binding : keeps.

Ltac kept := repeat first
  [ progress keep_steps
  | apply keeps_sfold; [apply _|intros ? ?]
  | apply keeps_for; [apply _|intros ?] ].

Lemma kept_retire : keeps frame_kept (retire_dead_effect_bindings caller).
Proof. unfold retire_dead_effect_bindings, dead_components. kept. Qed.
Lemma kept_project_observed r t v : keeps frame_kept (project_observed caller r t v).
Proof. unfold project_observed. kept. Qed.
#[local] Hint Resolve kept_retire kept_project_observed : keeps.
Lemma kept_project_reports l : keeps frame_kept (project_authoritative_reports caller l).
Proof. unfold project_authoritative_reports, project_authoritative_report. kept. Qed.
Lemma kept_project_observations l : keeps frame_kept (project_authoritative_observations caller l).
Proof. unfold project_authoritative_observations, project_authoritative_observation. kept. Qed.
Lemma kept_world_evidence : keeps frame_kept (record_world_evidence caller).
Proof.
  unfold record_world_evidence, record_topology_evidence, record_mutation_evidence,
    record_lifecycle_evidence, record_script_evidence, on_record, on_session. kept.
Qed.
Lemma kept_apply_selections l : keeps frame_kept (apply_selections caller l).
Proof. unfold apply_selections, apply_selection, sreject_if. kept. Qed.
Lemma kept_record_selections l : keeps frame_kept (record_selections l).
Proof. unfold record_selections, on_record, on_session. kept. Qed.
Lemma kept_issue_all now l acc : keeps frame_kept (sfold (issue_all now) l acc).
Proof. unfold issue_all. kept. Qed.
Lemma kept_execute now r : keeps frame_kept (execute_frame_phases caller code now r).
Proof. intros rt. exact (proj1 (execute_wp now r rt)). Qed.
#[local] Hint Resolve kept_project_reports kept_project_observations kept_world_evidence
  kept_apply_selections kept_record_selections kept_issue_all kept_execute : keeps.

(** *** The body *)

(** The locals the handler uses name no failure yet. *)
Definition in_body rt (s : Runtime * Attempt) : Prop :=
  frame_kept rt s.1 ∧ failure_phase (attempt_frame s.2) = "".

Lemma wp_body rt {X Z} (f : stm Runtime X) (g : X → stm (Runtime * Attempt) Z) Q s :
  keeps frame_kept f → in_body rt s →
  (∀ x s', in_body rt s' → wp (g x) Q s') → (∀ e s', in_body rt s' → Q (Err e) s') →
  wp (in_frame f ≫= g) Q s.
Proof.
  intros Hf [Hk Ha] Hg Hq. apply wp_bind. unfold in_frame, zoom, wp.
  pose proof (Hf s.1) as Hs. destruct (f s.1) as [[x|e] rt'] eqn:E; cbn [then_wp fst snd] in *.
  - apply Hg. split; cbn; [by etrans|done].
  - apply Hq. split; cbn; [by etrans|done].
Qed.

Definition frame_done rt now (l : FrameLog) : Prop :=
  phases l = all_phases ∧ completed l = true ∧ failure_phase l = "" ∧
  log_frame l = currentFrame rt ∧ log_now l = now.

Ltac next_step := eapply wp_body; [solve [kept]|eassumption| |intros ? ? ?; by split].

Lemma frame_body_wp input rt :
  wp (frame_body caller code input) (λ x s', in_body rt s' ∧
    ∀ r, x = Ok r → frame_done rt (input_now input) (result_frame r))
    (rt, MkAttempt new_FrameLog false).
Proof.
  assert (in_body rt (rt, MkAttempt new_FrameLog false)) as Hs by (split; [reflexivity|done]).
  unfold frame_body. apply wp_bind, wp_get. cbn [then_wp].
  next_step. intros [] s1 Hs1. next_step. intros [reports obs] s2 Hs2. next_step. intros [] s3 Hs3.
  next_step. intros [] s4 Hs4. next_step. intros [] s5 Hs5.
  apply wp_bind. unfold in_frame, zoom, wp at 1.
  pose proof (execute_wp (input_now input) (resolutions input) s5.1) as [Hk Hx].
  destruct (execute_frame_phases caller code _ _ s5.1) as [[frame|e] rt6]; cbn [then_wp fst snd] in *.
  2:{ destruct Hs5 as [Hk5 Ha]. split; [|done]. split; [by etrans|done]. }
  destruct Hs5 as [Hk5 Ha]. destruct Hx as (P1 & P2 & P3 & P4 & P5).
  assert (frame_done rt (input_now input) frame) as Hdone.
  { split_and!; [done..| |done]. rewrite P4. apply (fk_frame _ _ Hk5). }
  apply wp_bind, wp_modify. cbn [then_wp].
  assert (in_body rt (rt6, MkAttempt frame (worldEvidenceAttempted s5.2))) as Hs6
    by (split; [by etrans|done]).
  cbn [fst snd]. next_step. intros selected s7 Hs7. next_step. intros [] s8 Hs8. next_step. intros [] s9 Hs9.
  next_step. intros [cmds reports'] s10 Hs10. next_step. intros reports'' s11 Hs11. next_step. intros [] s12 Hs12.
  apply wp_bind, wp_modify. cbn [then_wp].
  assert (in_body rt (s12.1, MkAttempt (attempt_frame s12.2) true)) as Hs13 by exact Hs12.
  next_step. intros [] s14 Hs14. next_step. intros [] s15 Hs15. next_step. intros [] s16 Hs16. next_step. intros [] s17 Hs17.
  apply wp_ret. split; [done|]. by intros r [= <-].
Qed.

(** *** The handler *)

Definition frame_lost rt rt' : Prop :=
  faultedState rt' = true ∧ frameInProgress rt' = false ∧ currentFrame rt' = currentFrame rt ∧
  completed (latestFrameLog rt') = false ∧ failure_phase (latestFrameLog rt') ≠ "" ∧
  log_frame (latestFrameLog rt') = currentFrame rt.

(** Recording evidence leaves the published log alone, too. *)
Definition log_kept rt rt' : Prop :=
  frame_kept rt rt' ∧ latestFrameLog rt' = latestFrameLog rt.

#[export] Instance log_kept_preorder : PreOrder log_kept.
Proof.
  split; [by intros rt|]. intros a b c [A1 A2] [B1 B2]. split; [by etrans|congruence].
Qed.

Lemma log_kept_owned {X} (f : stm World X) : keeps log_kept (on_owned f).
Proof. intros rt. split; [apply kept_owned|]. unfold on_owned, zoom. by destruct (f (ownedWorld rt)). Qed.
Lemma log_kept_effects {X} (f : stm (Effects A S) X) : keeps log_kept (on_effects f).
Proof.
  intros rt. split; [apply kept_effects|]. unfold on_effects. destruct (effectsState rt) as [e|]; [|done].
  by destruct (f e).
Qed.
#[local] Hint Resolve log_kept_owned log_kept_effects : keeps.

Lemma log_kept_world_evidence : keeps log_kept (record_world_evidence caller).
Proof.
  unfold record_world_evidence, record_topology_evidence, record_mutation_evidence,
    record_lifecycle_evidence, record_script_evidence, on_record, on_session. kept.
Qed.
#[local] Hint Resolve log_kept_world_evidence : keeps.

Lemma wp_agrees {T X} (f g : stm T X) (Q : res X → T → Prop) t : f t = g t → wp f Q t → wp g Q t.
Proof. unfold wp. by intros ->. Qed.

(** [try { ... } catch (...) {}] *)
Lemma wp_quiet {T} (R : T → T → Prop) (m : stm T unit) (Q : res unit → T → Prop) t :
  keeps R m → (∀ t', R t t' → Q (Ok tt) t') → wp (stry m (λ _, mret tt)) Q t.
Proof.
  intros Hm Hq. apply wp_try. unfold wp. specialize (Hm t).
  destruct (m t) as [[[]|e] t']; by apply Hq.
Qed.

Lemma publish_failed frame n now e :
  (failure_phase frame ≠ "" → log_frame frame = n) →
  let l := publish_frame_failure frame n now e in
  completed l = false ∧ failure_phase l ≠ "" ∧ log_frame l = n.
Proof.
  intros Hf l. unfold l, publish_frame_failure. case_bool_decide as Hp; [done|].
  split; [done|]. split; [done|]. by apply Hf.
Qed.

Lemma frame_failed_wp rt0 rt now attempt failure :
  in_body rt0 (rt, attempt) →
  wp (frame_failed caller (currentFrame rt0) now attempt failure)
    (λ x rt', x = Ok tt ∧ frame_lost rt0 rt') rt.
Proof.
  intros [[Hf _ _ _ _] Ha]. cbn in Hf, Ha. unfold frame_failed.
  apply wp_bind, wp_modify. cbn [then_wp]. apply wp_bind, wp_get. cbn [then_wp].
  apply wp_bind, wp_modify. cbn [then_wp].
  set (frame := if _ && _ && _ then _ else _).
  assert (failure_phase frame ≠ "" → log_frame frame = currentFrame rt0) as Hframe.
  { unfold frame. cbn [latestFrameLog set_faulted].
    destruct (_ && (log_frame (latestFrameLog rt) =? _)) eqn:Hc; [|done].
    apply andb_true_iff in Hc as [_ Hc%N.eqb_eq]. done. }
  destruct (publish_failed frame (currentFrame rt0) now failure Hframe) as (L1 & L2 & L3).
  set (log := publish_frame_failure _ _ _ _) in *.
  set (rt1 := set_latest_log log (set_faulted true rt)).
  apply wp_bind, (wp_quiet log_kept); [unfold on_record; kept|].
  intros rt2 [[K1 K2 K3 K4 K5] K6]. cbn [then_wp]. apply wp_modify. split; [done|].
  split_and!; cbn; rewrite ?K1, ?K3, ?K6; done.
Qed.

(** ** Refused frames *)

Lemma same_owned_query {X} (f : World → res X) :
  keeps eq (on_owned (Y := Y) (D := D) (A := A) (S := S) (owned caller (λ w, (f w, w)))).
Proof.
  intros rt. unfold on_owned, zoom, owned, ensure_owner_thread, mbind, stm_bind, sreject_if, slift.
  destruct (reject_if _ _ _); by destruct rt.
Qed.

Lemma same_effects_query {X} (f : Effects A S → res X) :
  keeps eq (on_effects (Y := Y) (D := D) (λ e, (f e, e)) : stm Runtime X).
Proof.
  intros rt. unfold on_effects. destruct (effectsState rt) as [e|] eqn:He; [|done].
  cbn. destruct rt. cbn in *. by rewrite He.
Qed.

Lemma same_check_resolution entry : keeps eq (check_resolution caller entry : stm Runtime unit).
Proof.
  unfold check_resolution, sreject_if. apply keeps_bind; [apply _|apply same_owned_query|intros x].
  apply keeps_lift, _.
Qed.

Lemma wp_thread (Q : res unit → Runtime → Prop) rt :
  (∀ x, Q (Err x) rt) → Q (Ok tt) rt → wp (ensure_runtime_thread caller) Q rt.
Proof.
  intros Hx Hok. unfold wp, ensure_runtime_thread, sreject_if, slift, reject_if.
  destruct (negb _); [apply Hx|exact Hok].
Qed.

(** What a frame that may start has passed. *)
Lemma validate_wp now r rt :
  wp (validate_frame_start caller now r) (λ x rt', rt' = rt ∧
    (x = Ok tt → faultedState rt = false ∧ frameInProgress rt = false ∧ currentFrame rt ≠ u64_max)) rt.
Proof.
  unfold validate_frame_start. apply wp_bind, wp_get. cbn [then_wp].
  apply wp_bind, wp_reject; [done|]. intros H1'%N.eqb_neq. cbn [then_wp].
  apply wp_bind, wp_reject; [done|]. intros H2'. cbn [then_wp].
  apply wp_bind, wp_reject; [done|]. intros H3'. cbn [then_wp].
  apply wp_bind, wp_reject; [done|]. intros _. cbn [then_wp].
  assert (keeps eq (sfor (check_resolution caller) (numbered_entries r) : stm Runtime unit)) as Hk.
  { apply keeps_for; [apply _|]. intros. apply same_check_resolution. }
  split; [symmetry; apply Hk|done].
Qed.

(** From where the frame is in progress. *)
Definition frame_attempt (input : FrameInput) : stm Runtime FrameResult := λ rt,
  match frame_body caller code input (rt, MkAttempt new_FrameLog false) with
  | (Ok result, (rt, _)) => (Ok result, rt)
  | (Err failure, (rt', attempt)) =>
      (frame_failed caller (currentFrame rt) (input_now input) attempt failure;; slift (Err failure)) rt'
  end.

Lemma frame_attempt_wp input rt :
  wp (frame_attempt input) (λ x rt', match x with
    | Ok r => frame_kept rt rt' ∧ frame_done rt (input_now input) (result_frame r)
    | Err _ => frame_lost rt rt'
    end) rt.
Proof.
  unfold frame_attempt, wp. pose proof (frame_body_wp input rt) as [Hb Hr].
  destruct (frame_body caller code input _) as [[r|e] [rt1 attempt]]; cbn [fst snd] in *.
  - split; [apply Hb|by apply Hr].
  - pose proof (frame_failed_wp rt rt1 (input_now input) attempt e Hb) as Hw.
    unfold mbind, stm_bind, wp in *.
    destruct (frame_failed caller _ _ attempt e rt1) as [x rt2]. cbn [fst snd] in Hw.
    by destruct Hw as [-> ?].
Qed.

(** C4. A frame is refused, completed or fatal.  Refused, it leaves no trace;
    completed, all its phases ran in their order and the next frame has the
    next number; otherwise the runtime is faulted, so that it refuses every
    later frame, and its log names the frame and where it failed. *)
Theorem frame_outcome input rt :
  let x := (run_frame caller code input rt).1 in
  let rt' := (run_frame caller code input rt).2 in
  match x with
  | Ok r =>
      faultedState rt = false ∧ frameInProgress rt = false ∧ currentFrame rt ≠ u64_max ∧
      faultedState rt' = false ∧ frameInProgress rt' = false ∧
      currentFrame rt' = currentFrame rt + 1 ∧
      latestFrameLog rt' = result_frame r ∧ frame_done rt (input_now input) (result_frame r)
  | Err _ => rt' = rt ∨
      faultedState rt = false ∧ frameInProgress rt = false ∧ frame_lost rt rt'
  end.
Proof.
  cbv zeta. match goal with |- context [match ?m with Ok r => @?f r | Err e => @?g e end] =>
    change (wp (run_frame caller code input) (λ x rt', match x with
      | Ok r => faultedState rt = false ∧ frameInProgress rt = false ∧ currentFrame rt ≠ u64_max ∧
          faultedState rt' = false ∧ frameInProgress rt' = false ∧
          currentFrame rt' = currentFrame rt + 1 ∧
          latestFrameLog rt' = result_frame r ∧ frame_done rt (input_now input) (result_frame r)
      | Err _ => rt' = rt ∨ faultedState rt = false ∧ frameInProgress rt = false ∧ frame_lost rt rt'
      end) rt) end.
  unfold run_frame. apply wp_bind, wp_thread; [by left|]. cbn [then_wp].
  apply wp_bind. unfold ensure_effects. apply wp_bind, wp_get. cbn [then_wp].
  destruct (effectsState rt) as [e|]; [|by left]. apply wp_ret. cbn [then_wp].
  apply wp_bind. eapply wp_mono; [apply validate_wp|].
  intros [[]|x] rt0 [-> Hv]; cbn [then_wp]; [|by left]. destruct (Hv eq_refl) as (V1 & V2 & V3).
  apply wp_bind. pose proof (same_effects_query (λ e, validate_effects (resolvedEffects input) (members e)) rt) as Hsame.
  unfold wp at 1. destruct (on_effects _ rt) as [[[]|x] rt1]; cbn [then_wp fst snd] in *; subst rt1; [|by left].
  apply wp_bind, wp_modify. cbn [then_wp]. apply wp_bind, wp_get. cbn [then_wp]. apply wp_bind.
  apply (wp_agrees (frame_attempt input)); [done|].
  eapply wp_mono; [exact (frame_attempt_wp input (set_in_progress true rt))|].
  intros [r|x] rt2; cbn [then_wp].
  - intros [[K1 K2 K3 K4 K5] Hd]. do 3 (apply wp_bind, wp_modify; cbn [then_wp]). apply wp_ret.
    cbn in *. split_and!; congruence || done.
  - intros Hl. by right.
Qed.
End Frames.
