(* ===== verification/RuntimeBindings.v ===== *)
(** * Components and the physical targets they are bound to

    The three tables of a runtime agree, whatever the host calls: a component is
    bound iff its control is [ExternalEffect], and a target leads back to the
    one component that is bound to it. *)
From stdpp Require Import fin_maps.
From S2P Require Import Prelude OrderedMap Values Events EventStore Feedback Adapters Replay Effects Ids Hoare Behaviors Intents Components ComponentRuns Systems Coordinator World WorldQueries Client ClientRuns RuntimeEffects RuntimeRestore RuntimeOperations Runtime RuntimeFrames.

Definition binding_key (b : ExternalComponentBinding) : TargetKey :=
  target_key (binding_route b) (binding_target b).

Section Bindings.
Context {K : Type} `{Countable K} {El : K → Type}.
Context {Y : Type} `{Countable Y} {D : Type}.
Context {A : Type} `{EffectAdapter A} {S : Type} `{EventStore S}.
Abbreviation World := (Coordinator.World El Y D).
Abbreviation Runtime := (Runtime (El := El) (Y := Y) (D := D) (A := A) (S := S)).
Context (caller : N) (code : Y → SystemCode World).
Implicit Types (rt : Runtime).

Record bindings_ok rt : Prop := {
  bo_named : ∀ c b, effectBindings rt !! c = Some b →
    binding_component b = c ∧ componentControls rt !! c = Some ExternalEffect ∧
    componentsByEffectTarget rt !! binding_key b = Some c;
  bo_bound : ∀ key c, componentsByEffectTarget rt !! key = Some c →
    ∃ b, effectBindings rt !! c = Some b ∧ binding_key b = key;
  bo_external : ∀ c, componentControls rt !! c = Some ExternalEffect →
    is_Some (effectBindings rt !! c)
}.

(** The tables without [c], whose control becomes [control]. *)
Definition unbound (c : ComponentTarget) rt : Runtime :=
  match effectBindings rt !! c with
  | None => rt
  | Some b =>
      set_bindings (delete c (effectBindings rt))
        (if bool_decide (componentsByEffectTarget rt !! binding_key b = Some c)
         then delete (binding_key b) (componentsByEffectTarget rt)
         else componentsByEffectTarget rt) rt
  end.

Lemma unbind_eq c rt : unbind_effect_component c rt = (Ok tt, unbound c rt).
Proof.
  unfold unbind_effect_component, unbound, mbind, stm_bind, sget, sput.
  by destruct (effectBindings rt !! c).
Qed.

Lemma unbound_bindings c rt j b :
  effectBindings (unbound c rt) !! j = Some b ↔ j ≠ c ∧ effectBindings rt !! j = Some b.
Proof.
  unfold unbound. destruct (effectBindings rt !! c) as [x|] eqn:Hc.
  - cbn. rewrite lookup_delete_Some. naive_solver.
  - split; [intros Hj; split; [congruence|done]|by intros [_ ?]].
Qed.

Lemma unbound_targets c rt key j :
  bindings_ok rt →
  componentsByEffectTarget (unbound c rt) !! key = Some j ↔
  j ≠ c ∧ componentsByEffectTarget rt !! key = Some j.
Proof.
  intros [Hn Hb He]. unfold unbound. destruct (effectBindings rt !! c) as [x|] eqn:Hc.
  - destruct (Hn _ _ Hc) as (_ & _ & Hx). rewrite bool_decide_eq_true_2 by done. cbn.
    rewrite lookup_delete_Some. split.
    + intros [Hk Hj]. split; [|done]. intros ->. destruct (Hb _ _ Hj) as (y & Hy & <-). congruence.
    + intros [Hj Hk]. split; [|done]. intros <-. congruence.
  - split; [|by intros [_ ?]]. intros Hj. split; [|done]. intros ->.
    destruct (Hb _ _ Hj) as (y & Hy & _). congruence.
Qed.

Lemma unbound_controls c rt : componentControls (unbound c rt) = componentControls rt.
Proof. unfold unbound. by destruct (effectBindings rt !! c). Qed.

(** Unbinding together with a control that is not external. *)
Lemma unbound_ok c rt f :
  bindings_ok rt →
  (∀ j, j ≠ c → f !! j = componentControls rt !! j) → f !! c ≠ Some ExternalEffect →
  bindings_ok (set_controls f (unbound c rt)).
Proof.
  intros Hok Hf Hc. pose proof Hok as [Hn Hb He]. constructor; cbn.
  - intros j b [Hj Hbj]%unbound_bindings. destruct (Hn _ _ Hbj) as (E1 & E2 & E3).
    split; [done|]. rewrite Hf by done. split; [done|]. by apply unbound_targets.
  - intros key j [Hj Hk]%unbound_targets; [|done]. destruct (Hb _ _ Hk) as (b & Hbj & Hkey).
    exists b. split; [by apply unbound_bindings|done].
  - intros j Hj. destruct (decide (j = c)) as [->|Hne]; [done|]. rewrite Hf in Hj by done.
    destruct (He _ Hj) as [b Hbj]. exists b. by apply unbound_bindings.
Qed.

Abbreviation safe := (keeps (within bindings_ok)).

(** What leaves the tables alone. *)
Lemma bindings_same rt rt' :
  effectBindings rt' = effectBindings rt → componentControls rt' = componentControls rt →
  componentsByEffectTarget rt' = componentsByEffectTarget rt → within bindings_ok rt rt'.
Proof. intros E1 E2 E3 [Hn Hb He]. constructor; rewrite ?E1, ?E2, ?E3; done. Qed.

Lemma safe_owned {X} (f : stm World X) : safe (on_owned f).
Proof. intros rt. unfold on_owned, zoom. destruct (f (ownedWorld rt)). by apply bindings_same. Qed.
Lemma safe_effects {X} (f : stm (Effects A S) X) : safe (on_effects f).
Proof.
  intros rt. unfold on_effects. destruct (effectsState rt) as [e|]; [|by apply bindings_same].
  destruct (f e). by apply bindings_same.
Qed.
Lemma safe_modify (f : Runtime → Runtime) : (∀ rt, within bindings_ok rt (f rt)) → safe (smodify f).
Proof. intros Hf rt. apply Hf. Qed.

(** A component that is retired. *)
Definition retired (c : ComponentTarget) rt : Runtime :=
  set_controls (delete c (componentControls rt)) (unbound c rt).

Lemma retire_eq {X} c (g : stm Runtime X) rt :
  (unbind_effect_component c;; erase_control c;; g) rt = g (retired c rt).
Proof. unfold mbind, stm_bind. rewrite unbind_eq. cbn. by rewrite unbound_controls. Qed.

Lemma retired_bindings_ok c rt : bindings_ok rt → bindings_ok (retired c rt).
Proof.
  intros Hok. apply unbound_ok; [done| |].
  - intros j Hj. by rewrite lookup_delete_ne.
  - by rewrite lookup_delete_eq.
Qed.

Lemma safe_retire {X} c (g : stm Runtime X) :
  safe g → safe (unbind_effect_component c;; erase_control c;; g).
Proof. intros Hg rt Hok. rewrite retire_eq. by apply Hg, retired_bindings_ok. Qed.

Lemma safe_reconfigured c control :
  control ≠ ExternalEffect →
  safe (smodify (λ rt, set_controls (<[c := control]> (componentControls rt)) rt);;
        unbind_effect_component c).
Proof.
  intros Hc rt Hok. unfold mbind, stm_bind. cbn [smodify]. rewrite unbind_eq. cbn [snd].
  assert (unbound c (set_controls (<[c:=control]> (componentControls rt)) rt) =
    set_controls (<[c:=control]> (componentControls rt)) (unbound c rt)) as ->.
  { unfold unbound. cbn. by destruct (effectBindings rt !! c). }
  apply unbound_ok; [done| |].
  - intros j Hj. by rewrite lookup_insert_ne.
  - rewrite lookup_insert_eq. congruence.
Qed.

#[local] Hint Resolve safe_owned safe_effects : keeps.

(** The binding of a target, if its component lives. *)
Lemma current_binding_wp r t rt :
  bindings_ok rt →
  wp (current_effect_binding caller r t) (λ x rt', bindings_ok rt' ∧
    (∀ b, x = Ok (Some b) →
       componentsByEffectTarget rt' !! target_key r t = Some (binding_component b)) ∧
    (x = Ok None → componentsByEffectTarget rt' !! target_key r t = None)) rt.
Proof.
  intros Hok. pose proof Hok as [Hn Hb He]. unfold current_effect_binding.
  apply wp_bind, wp_get. cbn [then_wp].
  destruct (componentsByEffectTarget rt !! target_key r t) as [c|] eqn:Hc; [|by apply wp_ret].
  destruct (Hb _ _ Hc) as (b & Hbc & [= Hr Ht]). rewrite Hbc, Hr, Ht.
  rewrite !bool_decide_eq_true_2 by done. cbn [andb]. destruct (Hn _ _ Hbc) as (Hname & _ & _).
  apply wp_bind. unfold on_owned, zoom, wp at 1.
  destruct (component_exists caller _ (ownedWorld rt)) as [[alive|x] w]; cbn [then_wp fst snd].
  2:{ split; [by apply (bindings_same rt)|done]. }
  assert (bindings_ok (set_world w rt)) as Hok' by by apply (bindings_same rt).
  destruct alive; cbn [negb].
  - apply wp_ret. split; [done|]. split; [|done]. intros ? [= <-]. cbn. by rewrite Hname.
  - unfold wp. rewrite retire_eq. cbn [mret stm_ret fst snd]. split; [by apply retired_bindings_ok|].
    split; [done|]. intros _. cbn [retired componentsByEffectTarget set_controls].
    destruct (componentsByEffectTarget (unbound c (set_world w rt)) !! target_key r t) as [j|] eqn:Hj; [|done].
    apply unbound_targets in Hj as [Hne Hj]; [|done]. cbn in Hj. congruence.
Qed.

Lemma safe_current_binding r t : safe (current_effect_binding caller r t).
Proof. intros rt Hok. by destruct (current_binding_wp r t rt Hok). Qed.
#[local] Hint Resolve safe_current_binding : keeps.

(** A new binding of a component whose target is free or its own. *)
Lemma bound_ok c b rt :
  bindings_ok rt → binding_component b = c →
  (∀ j, componentsByEffectTarget rt !! binding_key b = Some j → j = c) →
  bindings_ok
    (set_bindings (<[c := b]> (effectBindings (unbound c rt)))
       (<[binding_key b := c]> (componentsByEffectTarget (unbound c rt)))
       (set_controls (<[c := ExternalEffect]> (componentControls (unbound c rt))) (unbound c rt))).
Proof.
  intros Hok Hname Hfree. pose proof Hok as [Hn Hb He].
  constructor; cbn; rewrite ?unbound_controls.
  - intros j x. destruct (decide (j = c)) as [->|Hne].
    + rewrite !lookup_insert_eq. intros [= <-]. by rewrite lookup_insert_eq.
    + rewrite !lookup_insert_ne by done. intros [_ Hx]%unbound_bindings.
      destruct (Hn _ _ Hx) as (E1 & E2 & E3). split; [done|]. split; [done|].
      rewrite lookup_insert_ne; [by apply unbound_targets|]. intros Heq. rewrite <-Heq in E3.
      apply Hne. by apply Hfree.
  - intros key j. rewrite lookup_insert_Some. intros [[<- <-]|[Hk Hx]].
    + exists b. by rewrite lookup_insert_eq.
    + apply unbound_targets in Hx as [Hj Hx]; [|done]. destruct (Hb _ _ Hx) as (y & Hy & Hkey). exists y. rewrite lookup_insert_ne by done.
      split; [by apply unbound_bindings|done].
  - intros j. destruct (decide (j = c)) as [->|Hne].
    + rewrite !lookup_insert_eq. eauto.
    + rewrite !lookup_insert_ne by done. intros [x Hx]%He. exists x. by apply unbound_bindings.
Qed.

Lemma safe_thread : safe (ensure_runtime_thread caller).
Proof.
  intros rt. unfold ensure_runtime_thread, sreject_if, slift, reject_if.
  destruct (negb _); by apply bindings_same.
Qed.
Lemma safe_ensure_effects msg : safe (ensure_effects msg).
Proof.
  intros rt. unfold ensure_effects, mbind, stm_bind. cbn.
  destruct (effectsState rt); by apply bindings_same.
Qed.
#[local] Hint Resolve safe_thread safe_ensure_effects : keeps.

(** ** The operations of the host *)

Lemma safe_reject {X} c kind msg (g : stm Runtime X) :
  (c = false → safe g) → safe (sreject_if c kind msg;; g).
Proof.
  intros Hg rt Hok. unfold mbind, stm_bind, sreject_if, slift, reject_if.
  destruct c; [done|]. by apply Hg.
Qed.

Lemma safe_configure k type name control :
  safe (configure_component caller k type name control).
Proof.
  unfold configure_component. do 2 (apply keeps_bind; [apply _|auto with keeps|intros ?]).
  apply keeps_bind; [apply _|apply keeps_get, _|intros rt0].
  apply safe_reject. intros _. apply safe_reject. intros Hc%bool_decide_eq_false.
  apply keeps_bind; [apply _|auto with keeps|intros target]. by apply safe_reconfigured.
Qed.

Lemma safe_bind k type name target : safe (bind_effect_component caller k type name target).
Proof.
  unfold bind_effect_component. do 2 (apply keeps_bind; [apply _|auto with keeps|intros ?]).
  apply keeps_bind; [apply _|apply keeps_get, _|intros rt0]. apply safe_reject. intros _.
  apply keeps_bind; [apply _|auto with keeps|intros component].
  apply keeps_bind; [apply _|auto with keeps|intros route].
  intros rt Hok. pose proof (current_binding_wp route target rt Hok) as (Hok' & Hsome & Hnone).
  unfold mbind at 1, stm_bind at 1. revert Hok' Hsome Hnone.
  destruct (current_effect_binding caller route target rt) as [[existing|x] rt1]; cbn [fst snd]; [|done].
  intros Hok' Hsome Hnone. unfold sreject_if, slift, reject_if, mbind, stm_bind.
  destruct (match existing with Some b => _ | None => false end) eqn:Hex; cbn [fst snd]; [done|].
  rewrite unbind_eq. cbn [smodify fst snd].
  apply (bound_ok component (MkBinding component name route target) rt1); [done|done|].
  intros j Hj. unfold binding_key in Hj. cbn in Hj. destruct existing as [b|].
  - rewrite (Hsome b eq_refl) in Hj. apply bool_decide_eq_false in Hex. apply dec_stable in Hex. congruence.
  - rewrite (Hnone eq_refl) in Hj. done.
Qed.

(** ** Frames *)

Lemma safe_set (f : Runtime → Runtime) :
  (∀ rt, effectBindings (f rt) = effectBindings rt ∧ componentControls (f rt) = componentControls rt ∧
     componentsByEffectTarget (f rt) = componentsByEffectTarget rt) → safe (smodify f).
Proof. intros Hf rt. destruct (Hf rt) as (E1 & E2 & E3). by apply bindings_same. Qed.

Lemma safe_retire_dead : safe (retire_dead_effect_bindings caller).
Proof.
  unfold retire_dead_effect_bindings, dead_components. apply keeps_bind; [apply _|apply keeps_get, _|intros rt].
  apply keeps_bind; [apply _| |intros dead].
  - apply keeps_sfold; [apply _|]. intros. keep_steps.
  - apply keeps_for; [apply _|]. intros c rt' Hok.
    pose proof (safe_retire c (mret tt) (keeps_ret _ tt) rt' Hok) as Hr.
    unfold mbind, stm_bind in *. rewrite unbind_eq in *. exact Hr.
Qed.

Lemma safe_project_observed r t v : safe (project_observed caller r t v).
Proof. unfold project_observed. keep_steps. Qed.
#[local] Hint Resolve safe_retire_dead safe_project_observed : keeps.

Ltac safely := repeat first
  [ progress keep_steps
  | apply safe_set; done
  | apply keeps_sfold; [apply _|intros ? ?]
  | apply keeps_for; [apply _|intros ?] ].

Lemma safe_project_reports l : safe (project_authoritative_reports caller l).
Proof. unfold project_authoritative_reports, project_authoritative_report. safely. Qed.
Lemma safe_project_observations l : safe (project_authoritative_observations caller l).
Proof. unfold project_authoritative_observations, project_authoritative_observation. safely. Qed.
Lemma safe_world_evidence : safe (record_world_evidence caller).
Proof.
  unfold record_world_evidence, record_topology_evidence, record_mutation_evidence,
    record_lifecycle_evidence, record_script_evidence, on_record, on_session. safely.
Qed.
Lemma safe_apply_selections l : safe (apply_selections caller l).
Proof. unfold apply_selections, apply_selection, sreject_if. safely. Qed.
Lemma safe_record_selections l : safe (record_selections l).
Proof. unfold record_selections, on_record, on_session. safely. Qed.
Lemma safe_issue_all now l acc : safe (sfold (issue_all now) l acc).
Proof. unfold issue_all. safely. Qed.
#[local] Hint Resolve safe_project_reports safe_project_observations safe_world_evidence
  safe_apply_selections safe_record_selections safe_issue_all : keeps.

(** The phases, with the locals beside the runtime. *)
Abbreviation phase_safe := (keeps (within (λ s : Phase, bindings_ok s.1.1))).

Lemma phase_in_runtime {X} (f : stm Runtime X) : safe f → phase_safe (in_runtime f).
Proof. intros Hf s Hs. specialize (Hf s.1.1 Hs). unfold in_runtime, zoom. by destruct (f s.1.1). Qed.
Lemma phase_change_log f : phase_safe (change_log f).
Proof. by intros s Hs. Qed.
Lemma phase_run_phase name ph now : phase_safe (run_phase caller code name ph now).
Proof.
  unfold run_phase. apply keeps_bind; [apply _|apply phase_change_log|intros _].
  apply keeps_bind; [apply _|apply keeps_get, _|intros s0].
  apply keeps_bind; [apply _| |intros _ s Hs; exact Hs].
  intros s Hs. unfold zoom. destruct (World.run_systems _ _ _ _ _ _) as [x wp].
  by apply (bindings_same s.1.1).
Qed.
#[local] Hint Resolve phase_in_runtime phase_change_log phase_run_phase : keeps.

Lemma phase_frame_phases now r : phase_safe (frame_phases caller code now r).
Proof. unfold frame_phases, resolve_type. safely. Qed.

Lemma safe_execute now r : safe (execute_frame_phases caller code now r).
Proof.
  intros rt Hok. unfold execute_frame_phases.
  pose proof (phase_frame_phases now r (rt, set_frame_now (currentFrame rt) now new_FrameLog, MkProgress 0 "") Hok) as Hp.
  destruct (frame_phases caller code now r _) as [[u|e] [[rt' l] p]]; [done|].
  by apply (bindings_same rt').
Qed.
#[local] Hint Resolve safe_execute : keeps.

Abbreviation body_safe := (keeps (within (λ s : Runtime * Attempt, bindings_ok s.1))).

Lemma body_in_frame {X} (f : stm Runtime X) : safe f → body_safe (in_frame f).
Proof. intros Hf s Hs. specialize (Hf s.1 Hs). unfold in_frame, zoom. by destruct (f s.1). Qed.
Lemma body_modify f : (∀ s, (f s).1 = s.1) → body_safe (smodify f).
Proof. intros Hf s Hs. unfold smodify. cbn. by rewrite Hf. Qed.

Lemma body_frame_body input : body_safe (frame_body caller code input).
Proof.
  unfold frame_body, on_record.
  repeat first
    [ progress keep_steps
    | apply body_in_frame; solve [safely]
    | apply body_modify; done ].
Qed.

Lemma safe_frame_failed n now attempt e : safe (frame_failed caller n now attempt e).
Proof. unfold frame_failed, on_record. safely. Qed.

Lemma safe_validate now r : safe (validate_frame_start caller now r).
Proof. intros rt Hok. by destruct (validate_wp caller now r rt) as [-> _]. Qed.
#[local] Hint Resolve safe_validate safe_frame_failed : keeps.

Lemma safe_run_frame input : safe (run_frame caller code input).
Proof.
  unfold run_frame. repeat first [progress safely | intros rt Hok].
  pose proof (body_frame_body input (rt, MkAttempt new_FrameLog false) Hok) as Hb.
  destruct (frame_body caller code input _) as [[r|e] [rt1 attempt]]; [done|].
  match goal with |- bindings_ok (?m rt1).2 => assert (safe m) as Hm by safely end.
  by apply Hm.
Qed.

Lemma safe_run_frame_at now r : safe (run_frame_at caller code now r).
Proof. unfold run_frame_at. safely. Qed.

Lemma safe_checkpoint : safe (Runtime.checkpoint caller).
Proof. unfold Runtime.checkpoint, sreject_if. safely. Qed.

Lemma safe_runtime_effects {X} (f : stm (Effects A S) X) : safe (runtime_effects caller f).
Proof. unfold runtime_effects. safely. Qed.

(** ** Whatever the host does *)

(** A runtime after some calls of its methods, returned or thrown; [on_world] is
    whatever the host and its systems do with the world. *)
Inductive hosted : Runtime → Prop :=
| hosted_new w thread initialFrame : hosted (new_Runtime w thread initialFrame)
| hosted_configured w thread e : hosted (configured_Runtime w thread e)
| hosted_frame input rt : hosted rt → hosted (run_frame caller code input rt).2
| hosted_frame_at now r rt : hosted rt → hosted (run_frame_at caller code now r rt).2
| hosted_effects {X} (f : stm (Effects A S) X) rt : hosted rt → hosted (runtime_effects caller f rt).2
| hosted_checkpoint rt : hosted rt → hosted (Runtime.checkpoint caller rt).2
| hosted_world {X} (f : stm World X) rt : hosted rt → hosted (on_world caller f rt).2
| hosted_configure k type name control rt :
    hosted rt → hosted (configure_component caller k type name control rt).2
| hosted_bind k type name target rt :
    hosted rt → hosted (bind_effect_component caller k type name target rt).2.

Lemma hosted_ok rt : hosted rt → bindings_ok rt.
Proof.
  assert (∀ w, bindings_ok (new_Runtime w 0 0)) as Hnew.
  { intros w. constructor; cbn; intros ? Hx; try intros Hy; by rewrite lookup_empty in *. }
  induction 1.
  - by apply (bindings_same (new_Runtime w 0 0)).
  - by apply (bindings_same (new_Runtime w 0 0)).
  - by apply safe_run_frame.
  - by apply safe_run_frame_at.
  - by apply safe_runtime_effects.
  - by apply safe_checkpoint.
  - apply (keeps_bind (within bindings_ok)); [apply safe_thread|intros; apply safe_owned|done].
  - by apply safe_configure.
  - by apply safe_bind.
Qed.

(** C7. Bindings are one to one.  After any calls, a component is controlled
    externally exactly when it is bound, the binding is kept under its own
    component, the target leads back to it, and so no target is bound to two
    components. *)
Theorem bindings_one_to_one rt :
  hosted rt →
  (∀ c, componentControls rt !! c = Some ExternalEffect ↔ is_Some (effectBindings rt !! c)) ∧
  (∀ key c, componentsByEffectTarget rt !! key = Some c ↔
     ∃ b, effectBindings rt !! c = Some b ∧ binding_component b = c ∧ binding_key b = key) ∧
  (∀ c1 b1 c2 b2, effectBindings rt !! c1 = Some b1 → effectBindings rt !! c2 = Some b2 →
     binding_key b1 = binding_key b2 → c1 = c2).
Proof.
  intros [Hn Hb He]%hosted_ok. split_and!.
  - intros c. split; [apply He|]. intros [b Hbc]. by destruct (Hn _ _ Hbc) as (_ & ? & _).
  - intros key c. split.
    + intros (b & Hbc & Hk)%Hb. exists b. by destruct (Hn _ _ Hbc) as (? & _).
    + intros (b & Hbc & _ & <-). by destruct (Hn _ _ Hbc) as (_ & _ & ?).
  - intros c1 b1 c2 b2 H1' H2' Hk. destruct (Hn _ _ H1') as (_ & _ & E1).
    destruct (Hn _ _ H2') as (_ & _ & E2). congruence.
Qed.
End Bindings.

(** * Witnesses

    The home of [ClientRuns] with its lamp wired to the simulated device of
    [RuntimeOperations]: a frame in which the dimmer's intent is selected and
    becomes a command. *)

Definition wired_home : list (N * Client.operation (El := sample_type) (Y := bool) (D := N)) :=
  furnish ++
  [(1, Structural (RegisterEffectCodec true brightness_type "device"
     (Some (λ _ n, Ok (Some (MkResolvedEffect "device" "lamp" (VUnsigned n)))))
     (Some as_unsigned_integer)));
   (1, Structural (RegisterSystem true 1 DecisionPhase "dimmer" 1 (Done (Ok tt))))].

Abbreviation HomeRuntime :=
  (Runtime.Runtime (El := sample_type) (Y := bool) (D := N) (A := InMemoryAdapter) (S := MemoryEventStore)).

Definition home_runtime : HomeRuntime :=
  (bind_effect_component 1 true brightness_type "lamp" "lamp"
    (runtime_effects 1 (RuntimeEffects.register_adapter (Some 1))
       (configured_Runtime (Client.used home 7 1 wired_home) 1 sample_opened)).2).2.
Definition home_frame : FrameInput := MkFrameInput 10 ∅ [].
Definition home_dimmed : HomeRuntime := (run_frame 1 (code_of home 1) home_frame home_runtime).2.

Lemma home_dimmed_hosted : hosted 1 (code_of home 1) home_dimmed.
Proof. apply hosted_frame, hosted_bind, hosted_effects, hosted_configured. Qed.

Lemma bindings_one_to_one_witness :
  ∃ b, effectBindings home_dimmed !! MkComponentTarget 0 lamp_handle = Some b ∧
    binding_key b = target_key "device" "lamp" ∧
    componentsByEffectTarget home_dimmed !! target_key "device" "lamp" =
      Some (MkComponentTarget 0 lamp_handle).
Proof.
  destruct (bindings_one_to_one 1 (code_of home 1) home_dimmed home_dimmed_hosted) as (_ & Hkey & _).
  exists (MkBinding (MkComponentTarget 0 lamp_handle) "lamp" "device" "lamp").
  assert (effectBindings home_dimmed !! MkComponentTarget 0 lamp_handle =
    Some (MkBinding (MkComponentTarget 0 lamp_handle) "lamp" "device" "lamp")) as Hb by by vm_compute.
  split; [exact Hb|]. split; [reflexivity|]. apply Hkey. eauto.
Defined.

(** The frame is completed, and its command is on its way to the device. *)
Lemma home_frame_completed :
  ∃ r, (run_frame 1 (code_of home 1) home_frame home_runtime).1 = Ok r ∧
    map (λ c, desiredValue (effect c)) (result_commands r) = [VUnsigned 3] ∧
    currentFrame home_dimmed = 1.
Proof. eexists. split; [by vm_compute|]. by vm_compute. Qed.
