(* ===== verification/LuaSchema.v ===== *)
(** * Schemas of Lua values
    (include/liquid/scripting/LuaValueSchema.hpp, src/scripting/LuaValueSchema.cpp)

    A schema is an immutable tree that the factories check while they build it;
    [validate_lua_value] walks a value along its schema and reports the first
    place that does not fit.

    A [double] is its IEEE-754 bit pattern, as in [Values]. *)
From stdpp Require Import pretty.
From S2P Require Import Prelude OrderedMap Values.

Definition LuaSchemaMaxContainerNesting : N := 16.
Definition LuaSchemaMaxNodes : N := 4096.
Definition LuaSchemaMaxFields : N := 256.
Definition LuaSchemaMaxArrayItems : N := 4096.
Definition LuaSchemaMaxStringBytes : N := 65536.
Definition LuaSchemaMaxEnumEntries : N := 256.
Definition LuaSchemaMaxEnumBytes : N := 65536.
Definition LuaMaxDescriptionBytes : N := 1024.
Definition LuaMaxNameBytes : N := 256.
Definition LuaMaxValueNodes : N := 16384.
Definition LuaMaxSchemaDiagnosticBytes : N := 4096.

(** ** [class LuaValue]: its [Storage], alternative by alternative *)
Inductive LuaValue :=
| LBool (b : bool)
| LInteger (z : Z)
| LNumber (bits : N)
| LString (s : string)
| LArray (items : list LuaValue)
| LTable (entries : list (string * LuaValue)).

(** [storage().index()] *)
Definition storage_index (v : LuaValue) : N :=
  match v with
  | LBool _ => 0 | LInteger _ => 1 | LNumber _ => 2 | LString _ => 3
  | LArray _ => 4 | LTable _ => 5
  end.

Inductive LuaSchemaKind :=
| Boolean | Integer | Number | String_ | Array | Object.
#[export] Instance LuaSchemaKind_eq_dec : EqDecision LuaSchemaKind.
Proof. solve_decision. Defined.

(** [static_cast<std::size_t>(kind)] *)
Definition kind_index (k : LuaSchemaKind) : N :=
  match k with
  | Boolean => 0 | Integer => 1 | Number => 2 | String_ => 3 | Array => 4 | Object => 5
  end.

(** [struct LuaSchemaField], of any type of schemas *)
Record LuaSchemaField (S : Type) := MkField {
  field_name : string;
  field_schema : S;
  required : bool
}.
Arguments MkField {S}.
Arguments field_name {S}.
Arguments field_schema {S}.
Arguments required {S}.

(** [struct LuaValueSchema::Node]. A [LuaValueSchema] shares constant nodes, so
    it is the tree they stand for. *)
Inductive Node := MkNode {
  kind : LuaSchemaKind;
  description : string;
  integerMinimum : option Z;
  integerMaximum : option Z;
  numberMinimum : option N;
  numberMaximum : option N;
  minimumBytes : N;
  maximumBytes : N;
  enumeration : option (list string);
  item_ : option Node;
  minimumItems : N;
  maximumItems : N;
  fields : list (LuaSchemaField Node);
  nodeCount : N;
  containerDepth : N;
  enumBytes : N;
  descriptionBytes : N;
  logicalBytes : N
}.
Abbreviation LuaValueSchema := Node.

(** [Node root; root.kind = k; root.description = d;] *)
Definition new_Node (k : LuaSchemaKind) (d : string) : Node :=
  MkNode k d None None None None 0 0 None None 0 0 [] 0 0 0 0 0.
Definition set_integers lo hi (n : Node) : Node :=
  MkNode (kind n) (description n) lo hi (numberMinimum n) (numberMaximum n) (minimumBytes n)
    (maximumBytes n) (enumeration n) (item_ n) (minimumItems n) (maximumItems n) (fields n)
    (nodeCount n) (containerDepth n) (enumBytes n) (descriptionBytes n) (logicalBytes n).
Definition set_numbers lo hi (n : Node) : Node :=
  MkNode (kind n) (description n) (integerMinimum n) (integerMaximum n) lo hi (minimumBytes n)
    (maximumBytes n) (enumeration n) (item_ n) (minimumItems n) (maximumItems n) (fields n)
    (nodeCount n) (containerDepth n) (enumBytes n) (descriptionBytes n) (logicalBytes n).
Definition set_strings lo hi entries (n : Node) : Node :=
  MkNode (kind n) (description n) (integerMinimum n) (integerMaximum n) (numberMinimum n)
    (numberMaximum n) lo hi entries (item_ n) (minimumItems n) (maximumItems n) (fields n)
    (nodeCount n) (containerDepth n) (enumBytes n) (descriptionBytes n) (logicalBytes n).
Definition set_items i lo hi (n : Node) : Node :=
  MkNode (kind n) (description n) (integerMinimum n) (integerMaximum n) (numberMinimum n)
    (numberMaximum n) (minimumBytes n) (maximumBytes n) (enumeration n) i lo hi (fields n)
    (nodeCount n) (containerDepth n) (enumBytes n) (descriptionBytes n) (logicalBytes n).
Definition set_fields l (n : Node) : Node :=
  MkNode (kind n) (description n) (integerMinimum n) (integerMaximum n) (numberMinimum n)
    (numberMaximum n) (minimumBytes n) (maximumBytes n) (enumeration n) (item_ n)
    (minimumItems n) (maximumItems n) l
    (nodeCount n) (containerDepth n) (enumBytes n) (descriptionBytes n) (logicalBytes n).

(** The five totals of the expanded tree. *)
Record Totals := MkTotals {
  t_nodes : N; t_depth : N; t_enum : N; t_description : N; t_logical : N
}.
Definition node_totals (n : Node) : Totals :=
  MkTotals (nodeCount n) (containerDepth n) (enumBytes n) (descriptionBytes n) (logicalBytes n).
Definition set_totals (t : Totals) (n : Node) : Node :=
  MkNode (kind n) (description n) (integerMinimum n) (integerMaximum n) (numberMinimum n)
    (numberMaximum n) (minimumBytes n) (maximumBytes n) (enumeration n) (item_ n)
    (minimumItems n) (maximumItems n) (fields n)
    (t_nodes t) (t_depth t) (t_enum t) (t_description t) (t_logical t).

(** ** UTF-8 *)

(** The length of the sequence that a byte outside ASCII starts, and the bits
    it contributes. *)
Definition lead_length (lead : N) : option (nat * N) :=
  if (0xC2 <=? lead) && (lead <=? 0xDF) then Some (2%nat, N.land lead 0x1F)
  else if (0xE0 <=? lead) && (lead <=? 0xEF) then Some (3%nat, N.land lead 0x0F)
  else if (0xF0 <=? lead) && (lead <=? 0xF4) then Some (4%nat, N.land lead 0x07)
  else None.

(** The loop over the [count] bytes behind the first; [None] is
    [return false]. *)
Fixpoint continue_sequence (count : nat) (codePoint : N) (rest : list byte)
  : option (N * list byte) :=
  match count, rest with
  | O, _ => Some (codePoint, rest)
  | S count, next :: rest =>
      let next := Byte.to_N next in
      if negb (N.land next 0xC0 =? 0x80) then None
      else continue_sequence count (N.lor (N.shiftl codePoint 6) (N.land next 0x3F)) rest
  | S _, [] => None
  end.

(** The loop over [index]: [rest] is the text from there on. Every turn takes
    at least one byte. *)
Fixpoint utf8_from (fuel : nat) (rest : list byte) : bool :=
  match fuel, rest with
  | _, [] => true
  | O, _ => false
  | S fuel, b :: behind =>
      let lead := Byte.to_N b in
      if lead <? 0x80 then utf8_from fuel behind
      else match lead_length lead with
      | None => false
      | Some (count, codePoint) =>
          if (length rest <? count)%nat then false
          else match continue_sequence (count - 1) codePoint behind with
          | None => false
          | Some (codePoint, behind) =>
              if ((count =? 3)%nat && (codePoint <? 0x800)) ||
                 ((count =? 4)%nat && (codePoint <? 0x10000)) then false
              else if (0x10FFFF <? codePoint) ||
                      ((0xD800 <=? codePoint) && (codePoint <=? 0xDFFF)) then false
              else utf8_from fuel behind
          end
      end
  end.

Definition valid_utf8 (text : string) : bool :=
  let bytes := list_byte_of_string text in utf8_from (length bytes) bytes.

(** ** Building schemas *)

Definition checked_schema_add (left right : N) : res N :=
  reject_if (u64_max - left <? right) invalid_argument "Lua schema totals overflow";;
  Ok (left + right).

(** [text.find('\0') != npos] *)
Fixpoint has_nul (s : string) : bool :=
  match s with
  | EmptyString => false
  | String c s => bool_decide (c = "000"%char) || has_nul s
  end.

Definition validate_description (d : string) : res unit :=
  reject_if (LuaMaxDescriptionBytes <? slen d) invalid_argument
    "Lua schema description exceeds 1024 bytes";;
  reject_if (has_nul d) invalid_argument "Lua schema description cannot contain NUL";;
  reject_if (negb (valid_utf8 d)) invalid_argument "Lua schema description must be valid UTF-8".

Definition add_child_totals (t : Totals) (child : Node) : res Totals :=
  nodes ← checked_schema_add (t_nodes t) (nodeCount child);
  below ← checked_schema_add (containerDepth child) 1;
  enums ← checked_schema_add (t_enum t) (enumBytes child);
  descriptions ← checked_schema_add (t_description t) (descriptionBytes child);
  logical ← checked_schema_add (t_logical t) (logicalBytes child);
  Ok (MkTotals nodes (N.max (t_depth t) below) enums descriptions logical).

(** [bytes = checked_schema_add(bytes, checked_schema_add(fixed, text.size()))] *)
Definition add_text (fixed bytes : N) (text : string) : res N :=
  more ← checked_schema_add fixed (slen text);
  checked_schema_add bytes more.

Definition bound_bytes {A} (bound : option A) : N := match bound with Some _ => 8 | None => 0 end.

Definition own_logical_bytes (n : Node) : res N :=
  bytes ← checked_schema_add 8 (slen (description n));
  bytes ← match kind n with
    | Boolean => Ok bytes
    | Integer => Ok (wrap 64 (bytes + (bound_bytes (integerMinimum n) + bound_bytes (integerMaximum n))))
    | Number => Ok (wrap 64 (bytes + (bound_bytes (numberMinimum n) + bound_bytes (numberMaximum n))))
    | String_ => Ok (wrap 64 (bytes + 16))
    | Array => Ok (wrap 64 (bytes + 16))
    | Object => rfold (λ bytes f, add_text 9 bytes (field_name f)) (fields n) bytes
    end;
  match enumeration n with
  | None => Ok bytes
  | Some entries => rfold (add_text 8) entries bytes
  end.

(** The totals [finish_node] computes. *)
Definition expanded_totals (n : Node) : res Totals :=
  logical ← own_logical_bytes n;
  enums ← match enumeration n with
    | None => Ok 0
    | Some entries => rfold (λ total entry, checked_schema_add total (slen entry)) entries 0
    end;
  let t := MkTotals 1 0 enums (slen (description n)) logical in
  match kind n with
  | Array =>
      match item_ n with
      | Some child => add_child_totals t child
      | None => throw logic_error "undefined behaviour: empty optional"
      end
  | Object =>
      rfold (λ t f, add_child_totals t (field_schema f)) (fields n)
        (MkTotals 1 1 enums (slen (description n)) logical)
  | _ => Ok t
  end.

Definition finish_node (n : Node) : res LuaValueSchema :=
  validate_description (description n);;
  t ← expanded_totals n;
  reject_if (LuaSchemaMaxNodes <? t_nodes t) invalid_argument
    "Lua schema exceeds 4096 expanded nodes";;
  reject_if (LuaSchemaMaxContainerNesting <? t_depth t) invalid_argument
    "Lua schema exceeds 16 nested containers";;
  reject_if (LuaSchemaMaxEnumBytes <? t_enum t) invalid_argument
    "Lua schema enum entries exceed 65536 aggregate bytes";;
  Ok (set_totals t n).

(** [*left < *right] on the doubles with these bit patterns *)
Definition is_nan (bits : N) : bool := 0x7FF0000000000000 <? N.land bits 0x7FFFFFFFFFFFFFFF.
Definition double_order (bits : N) : Z :=
  let magnitude := Z.of_N (N.land bits 0x7FFFFFFFFFFFFFFF) in
  if N.testbit bits 63 then (- magnitude)%Z else magnitude.
Definition double_lt (left right : N) : bool :=
  negb (is_nan left) && negb (is_nan right) && (double_order left <? double_order right)%Z.

(** [minimum && maximum && *maximum < *minimum] *)
Definition bounds_crossed {A} (lt : A → A → bool) (minimum maximum : option A) : bool :=
  match minimum, maximum with
  | Some lo, Some hi => lt hi lo
  | _, _ => false
  end.
Definition infinite_bound (bound : option N) : bool :=
  match bound with Some d => negb (is_finite d) | None => false end.

Definition schema_boolean (d : string) : res LuaValueSchema := finish_node (new_Node Boolean d).

Definition schema_integer (minimum maximum : option Z) (d : string) : res LuaValueSchema :=
  reject_if (bounds_crossed Z.ltb minimum maximum) invalid_argument
    "Lua Integer schema minimum exceeds maximum";;
  finish_node (set_integers minimum maximum (new_Node Integer d)).

Definition schema_number (minimum maximum : option N) (d : string) : res LuaValueSchema :=
  reject_if (infinite_bound minimum || infinite_bound maximum) invalid_argument
    "Lua Number schema bounds must be finite";;
  reject_if (bounds_crossed double_lt minimum maximum) invalid_argument
    "Lua Number schema minimum exceeds maximum";;
  finish_node (set_numbers minimum maximum (new_Node Number d)).

(** [std::sort] and [std::adjacent_find] on texts *)
Definition str_le (a b : string) : Prop := a = b ∨ str_lt a b.
#[export] Instance str_le_dec : RelDecision str_le.
Proof. intros a b. unfold str_le. apply _. Defined.
Fixpoint adjacent_equal (l : list string) : bool :=
  match l with
  | a :: (b :: _) as l => bool_decide (a = b) || adjacent_equal l
  | _ => false
  end.

Definition check_enumeration (entries : list string) : res unit :=
  reject_if (bool_decide (entries = [])) invalid_argument "Lua String schema enum cannot be empty";;
  reject_if (LuaSchemaMaxEnumEntries <? len entries) invalid_argument
    "Lua String schema enum exceeds 256 entries";;
  reject_if (adjacent_equal (merge_sort str_le entries)) invalid_argument
    "Lua String schema enum contains a duplicate entry".

Definition schema_string (minimum maximum : N) (entries : option (list string)) (d : string)
  : res LuaValueSchema :=
  reject_if (maximum <? minimum) invalid_argument "Lua String schema minimum exceeds maximum";;
  reject_if (LuaSchemaMaxStringBytes <? maximum) invalid_argument
    "Lua String schema maximum exceeds 65536 bytes";;
  match entries with Some entries => check_enumeration entries | None => Ok tt end;;
  finish_node (set_strings minimum maximum entries (new_Node String_ d)).

Definition schema_array (item : LuaValueSchema) (minimum maximum : N) (d : string)
  : res LuaValueSchema :=
  reject_if (maximum <? minimum) invalid_argument "Lua Array schema minimum exceeds maximum";;
  reject_if (LuaSchemaMaxArrayItems <? maximum) invalid_argument
    "Lua Array schema maximum exceeds 4096 items";;
  finish_node (set_items (Some item) minimum maximum (new_Node Array d)).

(** Two fields compare by their names; the order of equal ones does not matter,
    because they are rejected. *)
Definition field_le (a b : LuaSchemaField Node) : Prop := str_le (field_name a) (field_name b).
#[export] Instance field_le_dec : RelDecision field_le.
Proof. intros a b. unfold field_le. apply _. Defined.

Definition schema_object (l : list (LuaSchemaField LuaValueSchema)) (d : string)
  : res LuaValueSchema :=
  reject_if (LuaSchemaMaxFields <? len l) invalid_argument "Lua Object schema exceeds 256 fields";;
  rfold (λ _ f, reject_if (LuaMaxNameBytes <? slen (field_name f)) invalid_argument
    "Lua Object schema field name exceeds 256 bytes") l tt;;
  let sorted := merge_sort field_le l in
  reject_if (adjacent_equal (map field_name sorted)) invalid_argument
    "Lua Object schema contains a duplicate field name";;
  finish_node (set_fields sorted (new_Node Object d)).

(** [item()]; the other accessors are the fields of [Node]. *)
Definition item (s : LuaValueSchema) : res LuaValueSchema :=
  match item_ s with
  | Some i => Ok i
  | None => throw logic_error "Lua schema is not an Array"
  end.

(** ** Index segments *)

Definition in_range (lo hi n : N) : bool := (lo <=? n) && (n <=? hi).

Definition is_identifier_start (c : Ascii.ascii) : bool :=
  let n := N_of_ascii c in
  in_range 65 90 n || in_range 97 122 n || bool_decide (c = "_"%char).
Definition is_identifier_byte (c : Ascii.ascii) : bool :=
  is_identifier_start c || in_range 48 57 (N_of_ascii c).

Definition Keywords : list string :=
  ["and"; "break"; "do"; "else"; "elseif"; "end"; "false"; "for"; "function"; "goto"; "if";
   "in"; "local"; "nil"; "not"; "or"; "repeat"; "return"; "then"; "true"; "until"; "while"].

Fixpoint all_identifier_bytes (s : string) : bool :=
  match s with
  | EmptyString => true
  | String c s => is_identifier_byte c && all_identifier_bytes s
  end.

Definition is_lua_identifier (name : string) : bool :=
  match name with
  | EmptyString => false
  | String c _ =>
      is_identifier_start c && all_identifier_bytes name && negb (bool_decide (name ∈ Keywords))
  end.

Definition quote : Ascii.ascii := "034"%char.
Definition backslash : Ascii.ascii := "092"%char.

(** [static_cast<char>('0' + d)] *)
Definition digit (d : N) : Ascii.ascii := ascii_of_N (48 + d).

(** What the loop appends for one character. *)
Definition escape (c : Ascii.ascii) : string :=
  let byte := N_of_ascii c in
  if bool_decide (c = quote) || bool_decide (c = backslash)
  then String backslash (String c EmptyString)
  else if in_range 0x20 0x7E byte then String c EmptyString
  else String backslash (String (digit (byte / 100))
         (String (digit ((byte / 10) mod 10)) (String (digit (byte mod 10)) EmptyString))).

Fixpoint escape_all (s : string) : string :=
  match s with
  | EmptyString => EmptyString
  | String c s => escape c +:+ escape_all s
  end.

Definition render_index_segment (name : string) : string :=
  if is_lua_identifier name then "." +:+ name
  else String "["%char (String quote (escape_all name)) +:+ String quote "]".
Definition lua_index_segment (name : string) : string := render_index_segment name.

Definition bounded_schema_text (text : string) : string :=
  if slen text <=? LuaMaxSchemaDiagnosticBytes then text
  else String.substring 0 (N.to_nat (LuaMaxSchemaDiagnosticBytes - 3)) text +:+ "...".

Definition kind_name (index : N) : string :=
  default "unknown"
    (["Boolean"; "Integer"; "Number"; "String"; "Array"; "Object"] !! N.to_nat index).

(** ** Metadata of a binding *)

Record LuaModelBindingMetadata := MkMetadata {
  read_schema : LuaValueSchema;
  write_schema : LuaValueSchema;
  bindingDescription : string
}.
Definition new_LuaModelBindingMetadata (read write : LuaValueSchema) (d : string)
  : res LuaModelBindingMetadata :=
  validate_description d;; Ok (MkMetadata read write d).
Definition symmetric_metadata (s : LuaValueSchema) (d : string) : res LuaModelBindingMetadata :=
  new_LuaModelBindingMetadata s s d.

(** ** Validation: [class SchemaWalk] *)

Inductive LuaSchemaErrorCode := KindError | RangeError | MissingField | UnknownField | LimitError.
#[export] Instance LuaSchemaErrorCode_eq_dec : EqDecision LuaSchemaErrorCode.
Proof. solve_decision. Defined.

Record LuaSchemaError := MkSchemaError {
  code : LuaSchemaErrorCode;
  error_path : string;
  diagnostic : string
}.

Record SchemaWalk := MkWalk {
  walk_error : option LuaSchemaError;
  visitedNodes : N;
  path : string
}.

Definition set_visited n (w : SchemaWalk) : SchemaWalk := MkWalk (walk_error w) n (path w).
Definition set_path p (w : SchemaWalk) : SchemaWalk := MkWalk (walk_error w) (visitedNodes w) p.
Definition set_walk_error e (w : SchemaWalk) : SchemaWalk := MkWalk (Some e) (visitedNodes w) (path w).

(** The path is left behind; the methods return [false]. *)
Definition fail (c : LuaSchemaErrorCode) (message : string) : stm SchemaWalk bool :=
  w ← sget;
  let at_ := if String.eqb (path w) "" then "root" else path w in
  sput (set_walk_error (MkSchemaError c (bounded_schema_text (path w))
    (bounded_schema_text ("Lua value at " +:+ at_ +:+ ": " +:+ message))) w);;
  mret false.

(** [path += segment] and [path.resize(length)], which only ever shortens it *)
Definition push_path (segment : string) : stm SchemaWalk unit :=
  smodify (λ w, set_path (path w +:+ segment) w).
Definition resize_path (length : nat) : stm SchemaWalk unit :=
  smodify (λ w, set_path (String.substring 0 length (path w)) w).

Definition fail_at (segment : string) (c : LuaSchemaErrorCode) (message : string)
  : stm SchemaWalk bool := push_path segment;; fail c message.

(** Whether there is a bound that the value is outside of *)
Definition violates {A} (outside : A → bool) (bound : option A) : bool :=
  match bound with Some b => outside b | None => false end.

Definition visit_integer (s : LuaValueSchema) (z : Z) : stm SchemaWalk bool :=
  if violates (Z.ltb z) (integerMinimum s) || violates (λ b, Z.ltb b z) (integerMaximum s)
  then fail RangeError "integer is outside the declared bounds"
  else mret true.

Definition visit_number (s : LuaValueSchema) (d : N) : stm SchemaWalk bool :=
  if negb (is_finite d) then fail KindError "expected a finite Number"
  else if violates (double_lt d) (numberMinimum s) || violates (λ b, double_lt b d) (numberMaximum s)
  then fail RangeError "number is outside the declared bounds"
  else mret true.

Definition visit_string (s : LuaValueSchema) (text : string) : stm SchemaWalk bool :=
  if (slen text <? minimumBytes s) || (maximumBytes s <? slen text)
  then fail RangeError "string byte length is outside the declared bounds"
  else if violates (λ entries, bool_decide (text ∉ entries)) (enumeration s)
  then fail RangeError "string is not a declared enum entry"
  else mret true.

Section Visit.
Context (visit : LuaValueSchema → LuaValue → stm SchemaWalk bool).

(** The loop of [visit_array] from [index] on. *)
Fixpoint visit_items (s : LuaValueSchema) (parentLength : nat) (items : list LuaValue) (index : N)
  : stm SchemaWalk bool :=
  match items with
  | [] => mret true
  | v :: items =>
      push_path ("[" +:+ pretty (index + 1) +:+ "]");;
      i ← slift (item s);
      fits ← visit i v;
      if negb fits then mret false
      else resize_path parentLength;; visit_items s parentLength items (index + 1)
  end.

(** The loop of [visit_object]: [entries] and [fields] are what the iterators
    have before them. *)
Fixpoint visit_fields (parentLength : nat) (entries : list (string * LuaValue))
  : list (LuaSchemaField LuaValueSchema) → stm SchemaWalk bool :=
  fix skip fields :=
    match entries, fields with
    | [], [] => mret true
    | entry :: _, [] => fail_at (render_index_segment entry.1) UnknownField
        "field is not declared by the schema"
    | [], field :: fields =>
        if required field
        then fail_at (render_index_segment (field_name field)) MissingField
               "required field is absent"
        else skip fields
    | entry :: entries, field :: fields =>
        if bool_decide (str_lt entry.1 (field_name field))
        then fail_at (render_index_segment entry.1) UnknownField
               "field is not declared by the schema"
        else if bool_decide (str_lt (field_name field) entry.1)
        then if required field
             then fail_at (render_index_segment (field_name field)) MissingField
                    "required field is absent"
             else skip fields
        else
          push_path (render_index_segment (field_name field));;
          fits ← visit (field_schema field) entry.2;
          if negb fits then mret false
          else resize_path parentLength;; visit_fields parentLength entries fields
    end.
End Visit.

Definition long_key (entry : string * LuaValue) : bool := LuaMaxNameBytes <? slen entry.1.

Fixpoint visit (s : LuaValueSchema) (v : LuaValue) : stm SchemaWalk bool :=
  w ← sget;
  sput (set_visited (visitedNodes w + 1) w);;
  if LuaMaxValueNodes <? visitedNodes w + 1 then fail LimitError "value exceeds 16384 nodes"
  else if negb (storage_index v =? kind_index (kind s)) then
    fail KindError ("expected " +:+ kind_name (kind_index (kind s)) +:+ ", got " +:+
                    kind_name (storage_index v))
  else
    (* [switch (schema.kind())], which is the kind of the value here *)
    match v with
    | LBool _ => mret true
    | LInteger z => visit_integer s z
    | LNumber d => visit_number s d
    | LString text => visit_string s text
    | LArray items =>
        if (len items <? minimumItems s) || (maximumItems s <? len items)
        then fail RangeError "array length is outside the declared bounds"
        else visit_items visit s (String.length (path w)) items 0
    | LTable table =>
        if existsb long_key table then fail LimitError "object key exceeds 256 bytes"
        else visit_fields visit (String.length (path w)) table (fields s)
    end.

Definition validate_lua_value (s : LuaValueSchema) (v : LuaValue) : res (option LuaSchemaError) :=
  match visit s v (MkWalk None 0 "") with
  | (Ok _, w) => Ok (walk_error w)
  | (Err e, _) => Err e
  end.
