(* ===== verification/LuaSchemaSpec.v ===== *)
(** * What schemas of Lua values promise

    The totals of a schema are those of its expanded tree and within the
    ceilings; validation accepts exactly the values that conform and reports a
    place that does not; the index segments in its reports can be read back. *)
From stdpp Require Import pretty.
From S2P Require Import Prelude OrderedMap Values LuaSchema.

(** ** Two implementations of the UTF-8 check *)

Lemma lead_length_lead b :
  lead_length b = (λ x : nat * N, (S x.1, x.2)) <$> utf8_lead b.
Proof. unfold lead_length, utf8_lead. by repeat case_match. Qed.

Lemma continue_sequence_agrees n c l : continue_sequence n c l = utf8_continue n c l.
Proof.
  revert c l. induction n as [|n IH]; intros c [|b l]; cbn; try done.
Qed.

Lemma utf8_from_agrees fuel l : utf8_from fuel l = utf8_loop fuel l.
Proof.
  revert l. induction fuel as [|fuel IH]; intros [|b l]; cbn -[N.ltb N.leb Nat.ltb lead_length]; try done.
  destruct (N.ltb_spec (Byte.to_N b) 0x80), (N.leb_spec (Byte.to_N b) 0x7f); try lia; [apply IH|].
  rewrite lead_length_lead. destruct (utf8_lead (Byte.to_N b)) as [[n c]|]; cbn -[N.ltb N.leb Nat.ltb]; [|done].
  rewrite Nat.sub_0_r, continue_sequence_agrees.
  change (S (length l) <? S n)%nat with (length l <? n)%nat. destruct (length l <? n)%nat; [done|].
  destruct (utf8_continue n c l) as [[p l']|]; [|done]. unfold utf8_bad_code_point.
  rewrite IH. change (S n =? 3)%nat with (n =? 2)%nat. change (S n =? 4)%nat with (n =? 3)%nat.
  by destruct (n =? 2)%nat, (n =? 3)%nat, (p <? 0x800), (p <? 0x10000), (0x10ffff <? p),
    (0xd800 <=? p), (p <=? 0xdfff).
Qed.

(** The UTF-8 check of the schemas is the one of recorded values: both
    accept the same texts, so a description never fails where a value passes. *)
Theorem valid_utf8_agrees text : valid_utf8 text = Values.valid_utf8 text.
Proof. apply utf8_from_agrees. Qed.

(** ** Schemas the factories build *)

Inductive built : LuaValueSchema → Prop :=
| built_boolean d s : schema_boolean d = Ok s → built s
| built_integer lo hi d s : schema_integer lo hi d = Ok s → built s
| built_number lo hi d s : schema_number lo hi d = Ok s → built s
| built_string lo hi l d s : schema_string lo hi l d = Ok s → built s
| built_array i lo hi d s : built i → schema_array i lo hi d = Ok s → built s
| built_object l d s :
    Forall (λ f, built (field_schema f)) l → schema_object l d = Ok s → built s.

Section BuiltInd.
Context (P : LuaValueSchema → Prop).
Context (HB : ∀ d s, schema_boolean d = Ok s → P s)
  (HI : ∀ lo hi d s, schema_integer lo hi d = Ok s → P s)
  (HN : ∀ lo hi d s, schema_number lo hi d = Ok s → P s)
  (HS : ∀ lo hi l d s, schema_string lo hi l d = Ok s → P s)
  (HA : ∀ i lo hi d s, P i → schema_array i lo hi d = Ok s → P s)
  (HO : ∀ l d s, Forall (λ f, P (field_schema f)) l → schema_object l d = Ok s → P s).

Fixpoint built_ind' s (H : built s) : P s :=
  match H with
  | built_boolean d s H => HB d s H
  | built_integer lo hi d s H => HI lo hi d s H
  | built_number lo hi d s H => HN lo hi d s H
  | built_string lo hi l d s H => HS lo hi l d s H
  | built_array i lo hi d s Hi H => HA i lo hi d s (built_ind' i Hi) H
  | built_object l d s Hl H => HO l d s
      ((fix go l (Hl : Forall (λ f, built (field_schema f)) l) : Forall (λ f, P (field_schema f)) l :=
          match Hl with
          | List.Forall_nil _ => Forall_nil_2 _
          | @List.Forall_cons _ _ f l Hf Hl => Forall_cons_2 _ _ _ (built_ind' _ Hf) (go l Hl)
          end) l Hl) H
  end.
End BuiltInd.

(** *** The totals of an expanded tree *)

Definition entry_bytes (n : Node) : N := sum_of slen (default [] (enumeration n)).

Fixpoint tree_nodes (n : Node) : N :=
  1 + match item_ n with Some i => tree_nodes i | None => 0 end +
  sum_of (λ f, tree_nodes (field_schema f)) (fields n).
Fixpoint tree_depth (n : Node) : N :=
  N.max (match item_ n with Some i => tree_depth i + 1 | None => 0 end)
    (match kind n with
     | Object => N.max 1 (max_of (λ f, tree_depth (field_schema f) + 1) (fields n))
     | _ => 0
     end).
Fixpoint tree_enum (n : Node) : N :=
  entry_bytes n + match item_ n with Some i => tree_enum i | None => 0 end +
  sum_of (λ f, tree_enum (field_schema f)) (fields n).
Fixpoint tree_description (n : Node) : N :=
  slen (description n) + match item_ n with Some i => tree_description i | None => 0 end +
  sum_of (λ f, tree_description (field_schema f)) (fields n).

(** The payload of one node, as the contract counts it. *)
Definition own_bytes (n : Node) : N :=
  8 + slen (description n) +
  match kind n with
  | Boolean => 0
  | Integer => bound_bytes (integerMinimum n) + bound_bytes (integerMaximum n)
  | Number => bound_bytes (numberMinimum n) + bound_bytes (numberMaximum n)
  | String_ | Array => 16
  | Object => sum_of (λ f, 9 + slen (field_name f)) (fields n)
  end + sum_of (λ e, 8 + slen e) (default [] (enumeration n)).
Fixpoint tree_logical (n : Node) : N :=
  own_bytes n + match item_ n with Some i => tree_logical i | None => 0 end +
  sum_of (λ f, tree_logical (field_schema f)) (fields n).

Definition item_sum (f : Node → N) (n : Node) : N := match item_ n with Some i => f i | None => 0 end.
Definition field_sum (f : Node → N) (n : Node) : N := sum_of (λ x, f (field_schema x)) (fields n).

Lemma tree_nodes_eq n : tree_nodes n = 1 + item_sum tree_nodes n + field_sum tree_nodes n.
Proof. by destruct n. Qed.
Lemma tree_depth_eq n : tree_depth n =
  N.max (item_sum (λ i, tree_depth i + 1) n)
    (match kind n with
     | Object => N.max 1 (max_of (λ f, tree_depth (field_schema f) + 1) (fields n))
     | _ => 0
     end).
Proof. by destruct n. Qed.
Lemma tree_enum_eq n : tree_enum n = entry_bytes n + item_sum tree_enum n + field_sum tree_enum n.
Proof. by destruct n. Qed.
Lemma tree_description_eq n : tree_description n =
  slen (description n) + item_sum tree_description n + field_sum tree_description n.
Proof. by destruct n. Qed.
Lemma tree_logical_eq n : tree_logical n =
  own_bytes n + item_sum tree_logical n + field_sum tree_logical n.
Proof. by destruct n. Qed.

Definition tree_totals (n : Node) : Totals :=
  MkTotals (tree_nodes n) (tree_depth n) (tree_enum n) (tree_description n) (tree_logical n).

Lemma checked_schema_add_ok a b c : checked_schema_add a b = Ok c → c = a + b.
Proof. unfold checked_schema_add. intros H. by invert_res. Qed.
Lemma add_text_ok k a text c : add_text k a text = Ok c → c = a + (k + slen text).
Proof. unfold add_text. intros H. invert_res. by repeat match goal with H : checked_schema_add _ _ = Ok _ |- _ => apply checked_schema_add_ok in H end; subst. Qed.
Lemma rfold_sum_ok {A} (step : N → A → res N) (f : A → N) l a c :
  (∀ a x c, step a x = Ok c → c = a + f x) → rfold step l a = Ok c → c = a + sum_of f l.
Proof.
  intros Hs. revert a. induction l as [|x l IH]; intros a; cbn [rfold]; [intros [= ->]; cbn; lia|].
  rewrite sum_of_cons. intros (b & Hb%Hs & Hc%IH)%res_bind_ok. lia.
Qed.

Definition summed (s : Node) : Prop := node_totals s = tree_totals s.

Definition child_totals (t : Totals) (nodes depth enums descriptions logical : N) : Totals :=
  MkTotals (t_nodes t + nodes) (N.max (t_depth t) depth) (t_enum t + enums)
    (t_description t + descriptions) (t_logical t + logical).

Lemma add_child_totals_ok t c t' :
  summed c → add_child_totals t c = Ok t' →
  t' = child_totals t (tree_nodes c) (tree_depth c + 1) (tree_enum c) (tree_description c)
         (tree_logical c).
Proof.
  intros [= H1 H2 H3 H4 H5] H. unfold add_child_totals in H. invert_res.
  repeat match goal with H : checked_schema_add _ _ = Ok _ |- _ => apply checked_schema_add_ok in H end.
  subst. unfold child_totals. by rewrite H1, H2, H3, H4, H5.
Qed.

Lemma add_children_ok l t t' :
  Forall (λ f, summed (field_schema f)) l →
  rfold (λ t f, add_child_totals t (field_schema f)) l t = Ok t' →
  t' = child_totals t (sum_of (λ f, tree_nodes (field_schema f)) l)
         (max_of (λ f, tree_depth (field_schema f) + 1) l)
         (sum_of (λ f, tree_enum (field_schema f)) l)
         (sum_of (λ f, tree_description (field_schema f)) l)
         (sum_of (λ f, tree_logical (field_schema f)) l).
Proof.
  intros Hl. revert t. induction Hl as [|f l Hf Hl IH]; intros t; cbn [rfold].
  - intros [= <-]. destruct t. unfold child_totals. cbn. f_equal; lia.
  - intros (t1 & Ht%add_child_totals_ok & Hr%IH)%res_bind_ok; [|done]. subst.
    unfold child_totals. rewrite !sum_of_cons, max_of_cons.
    cbn [t_nodes t_depth t_enum t_description t_logical]. f_equal; lia.
Qed.

(** What [finish_node] is given: only arrays have items, only objects fields. *)
Record shaped (n : Node) : Prop := {
  sh_item : kind n ≠ Array → item_ n = None;
  sh_fields : kind n ≠ Object → fields n = [];
  sh_child : ∀ i, item_ n = Some i → summed i;
  sh_children : Forall (λ f, summed (field_schema f)) (fields n)
}.

Lemma own_logical_bytes_ok n b :
  slen (description n) <= LuaMaxDescriptionBytes → own_logical_bytes n = Ok b → b = own_bytes n.
Proof.
  intros Hd H. unfold own_logical_bytes in H. invert_res.
  apply checked_schema_add_ok in Ha. subst.
  assert (a0 = 8 + slen (description n) + match kind n with
    | Boolean => 0
    | Integer => bound_bytes (integerMinimum n) + bound_bytes (integerMaximum n)
    | Number => bound_bytes (numberMinimum n) + bound_bytes (numberMaximum n)
    | String_ | Array => 16
    | Object => sum_of (λ f, 9 + slen (field_name f)) (fields n)
    end) as ->.
  { assert (∀ A (b : option A), bound_bytes b <= 8) as Hb by (intros ? []; cbn; lia).
    assert (∀ k, k <= 16 → wrap 64 (8 + slen (description n) + k) = 8 + slen (description n) + k) as Hw.
    { intros k Hk. apply N.mod_small. unfold LuaMaxDescriptionBytes in Hd. lia. }
    pose proof (Hb _ (integerMinimum n)). pose proof (Hb _ (integerMaximum n)).
    pose proof (Hb _ (numberMinimum n)). pose proof (Hb _ (numberMaximum n)).
    destruct (kind n); try (injection Ha0 as <-; try rewrite Hw by lia; lia).
    eapply rfold_sum_ok in Ha0; [exact Ha0|]. intros. by apply add_text_ok. }
  unfold own_bytes. destruct (enumeration n) as [l|]; cbn [default]; [|injection H as <-; cbn; lia].
  eapply rfold_sum_ok in H; [exact H|]. intros. by apply add_text_ok.
Qed.

Lemma expanded_totals_ok n t :
  slen (description n) <= LuaMaxDescriptionBytes → shaped n →
  expanded_totals n = Ok t → t = tree_totals n.
Proof.
  intros Hd [Hi Hf Hc Hcs] H. unfold expanded_totals in H. invert_res.
  apply own_logical_bytes_ok in Ha; [|done]. subst a.
  assert (a0 = entry_bytes n) as ->.
  { unfold entry_bytes. destruct (enumeration n) as [l|]; cbn [default]; [|by injection Ha0].
    eapply rfold_sum_ok in Ha0; [by rewrite N.add_0_l in Ha0|]. intros. by apply checked_schema_add_ok. }
  unfold tree_totals.
  rewrite tree_nodes_eq, tree_depth_eq, tree_enum_eq, tree_description_eq, tree_logical_eq.
  unfold item_sum, field_sum.
  destruct (kind n) eqn:Hk; try (rewrite (Hi ltac:(done)), (Hf ltac:(done)); cbn [sum_of foldr];
    injection H as <-; f_equal; lia).
  - rewrite (Hf ltac:(done)). destruct (item_ n) as [c|]; [|done].
    apply add_child_totals_ok in H; [|by apply Hc]. subst t. unfold child_totals.
    cbn [sum_of foldr t_nodes t_depth t_enum t_description t_logical]. f_equal; lia.
  - rewrite (Hi ltac:(done)). apply add_children_ok in H; [|done]. subst t. unfold child_totals.
    cbn [t_nodes t_depth t_enum t_description t_logical]. f_equal; lia.
Qed.

(** *** What holds of a schema that was built *)

Lemma tree_totals_set t n : tree_totals (set_totals t n) = tree_totals n.
Proof. by destruct n. Qed.
Lemma trees_set t n :
  tree_nodes (set_totals t n) = tree_nodes n ∧ tree_depth (set_totals t n) = tree_depth n ∧
  tree_enum (set_totals t n) = tree_enum n ∧
  tree_description (set_totals t n) = tree_description n ∧
  tree_logical (set_totals t n) = tree_logical n.
Proof. by destruct n. Qed.

(** The most one node contributes to the payload beside its enumeration. *)
Definition node_bytes : N := 70936.

Record within_ceilings (s : LuaValueSchema) : Prop := {
  wc_summed : summed s;
  wc_nodes : tree_nodes s <= LuaSchemaMaxNodes;
  wc_depth : tree_depth s <= LuaSchemaMaxContainerNesting;
  wc_enum : tree_enum s <= LuaSchemaMaxEnumBytes;
  wc_description : tree_description s <= LuaMaxDescriptionBytes * tree_nodes s;
  wc_logical : tree_logical s <= node_bytes * tree_nodes s + tree_enum s
}.

Record ordered (s : LuaValueSchema) : Prop := {
  or_item : kind s = Array → is_Some (item_ s);
  or_fields : kind s ≠ Object → fields s = [];
  or_sorted : StronglySorted str_lt (map field_name (fields s));
  or_names : Forall (λ f, slen (field_name f) <= LuaMaxNameBytes) (fields s)
}.

(** What the factories check of a node before they finish it. *)
Record checked_node (n : Node) : Prop := {
  cn_shaped : shaped n;
  cn_ordered : ordered n;
  cn_few : len (fields n) <= LuaSchemaMaxFields;
  cn_entries : len (default [] (enumeration n)) <= LuaSchemaMaxEnumEntries;
  cn_item : ∀ i, item_ n = Some i → within_ceilings i;
  cn_children : Forall (λ f, within_ceilings (field_schema f)) (fields n)
}.

Lemma own_bytes_bound n :
  checked_node n → slen (description n) <= LuaMaxDescriptionBytes →
  own_bytes n <= node_bytes + entry_bytes n.
Proof.
  intros [_ [_ _ _ Hn] Hf He _ _] Hd. unfold own_bytes, entry_bytes, node_bytes.
  pose proof (sum_of_add (λ _ : string, 8) slen (default [] (enumeration n))) as Hs.
  rewrite sum_of_const in Hs.
  assert (sum_of (λ f, 9 + slen (field_name f)) (fields n) <= 265 * len (fields n)).
  { rewrite <-sum_of_const. apply sum_of_le. eapply Forall_impl; [exact Hn|].
    intros f. cbn. unfold LuaMaxNameBytes. lia. }
  assert (∀ A (b : option A), bound_bytes b <= 8) as Hb
    by (intros A b; destruct b; unfold bound_bytes; lia).
  pose proof (Hb _ (integerMinimum n)). pose proof (Hb _ (integerMaximum n)).
  pose proof (Hb _ (numberMinimum n)). pose proof (Hb _ (numberMaximum n)).
  unfold LuaMaxDescriptionBytes, LuaSchemaMaxFields, LuaSchemaMaxEnumEntries in *.
  destruct (kind n); lia.
Qed.

Lemma finish_node_ok n s :
  finish_node n = Ok s →
  slen (description n) <= LuaMaxDescriptionBytes ∧ ∃ t, expanded_totals n = Ok t ∧
  t_nodes t <= LuaSchemaMaxNodes ∧ t_depth t <= LuaSchemaMaxContainerNesting ∧
  t_enum t <= LuaSchemaMaxEnumBytes ∧ s = set_totals t n.
Proof.
  intros H. unfold finish_node, validate_description in H. invert_res.
  repeat match goal with H : (_ <? _) = false |- _ => apply N.ltb_ge in H end.
  split; [done|]. by eexists.
Qed.

Lemma finish_node_sound n s :
  checked_node n → finish_node n = Ok s → within_ceilings s ∧ ordered s.
Proof.
  intros Hn (Hd & t & Ht & H1 & H2 & H3 & ->)%finish_node_ok.
  pose proof (expanded_totals_ok n t Hd (cn_shaped _ Hn) Ht) as ->.
  destruct (trees_set (tree_totals n) n) as (Q1 & Q2 & Q3 & Q4 & Q5). cbn [t_nodes t_depth t_enum tree_totals] in *. split.
  - pose proof (cn_item _ Hn) as Hi. pose proof (cn_children _ Hn) as Hc. split; rewrite ?Q1, ?Q2, ?Q3, ?Q4, ?Q5; try done.
    + unfold summed. by rewrite tree_totals_set.
    + rewrite tree_description_eq, tree_nodes_eq. unfold item_sum, field_sum.
      rewrite !N.mul_add_distr_l, <-sum_of_mul.
      assert (sum_of (λ x, tree_description (field_schema x)) (fields n) <=
              sum_of (λ x, LuaMaxDescriptionBytes * tree_nodes (field_schema x)) (fields n)).
      { apply sum_of_le. eapply Forall_impl; [exact Hc|]. intros f []. done. }
      destruct (item_ n) as [i|]; [destruct (Hi i eq_refl)|]; lia.
    + rewrite tree_logical_eq, tree_nodes_eq, tree_enum_eq. unfold item_sum, field_sum.
      rewrite !N.mul_add_distr_l, <-sum_of_mul.
      pose proof (own_bytes_bound n Hn Hd).
      assert (sum_of (λ x, tree_logical (field_schema x)) (fields n) <=
              sum_of (λ x, node_bytes * tree_nodes (field_schema x) + tree_enum (field_schema x)) (fields n)) as Hl.
      { apply sum_of_le. eapply Forall_impl; [exact Hc|]. intros f []. done. }
      rewrite sum_of_add in Hl.
      destruct (item_ n) as [i|]; [destruct (Hi i eq_refl)|]; lia.
  - destruct (cn_ordered _ Hn). by split.
Qed.

#[export] Instance str_le_trans : Transitive str_le.
Proof. intros a b c [->|H1] [->|H2]; [by left|by right|by right|right; by etrans]. Qed.
#[export] Instance str_le_total : Total str_le.
Proof.
  intros a b. unfold str_le. destruct (String.compare a b) eqn:E.
  - apply str_compare_eq in E. by left; left.
  - by left; right.
  - apply str_compare_gt in E. by right; right.
Qed.
#[export] Instance field_le_trans : Transitive field_le.
Proof. intros a b c. unfold field_le. apply str_le_trans. Qed.
#[export] Instance field_le_total : Total field_le.
Proof. intros a b. unfold field_le. apply str_le_total. Qed.

Lemma StronglySorted_names l :
  StronglySorted field_le l → StronglySorted str_le (map field_name l).
Proof.
  induction 1 as [|f l Hl IH Hf]; cbn; constructor; [done|]. rewrite Forall_map. exact Hf.
Qed.

Lemma adjacent_distinct l :
  StronglySorted str_le l → adjacent_equal l = false → StronglySorted str_lt l.
Proof.
  induction 1 as [|a l Hl IH Ha]; [constructor|]. destruct l as [|b l].
  { intros _. repeat constructor. }
  change (adjacent_equal (a :: b :: l)) with (bool_decide (a = b) || adjacent_equal (b :: l)).
  intros [Hab%bool_decide_eq_false Hd]%orb_false_iff. specialize (IH Hd).
  constructor; [done|]. inversion Ha as [|x k Hb _]; subst.
  assert (str_lt a b) as Hlt by (destruct Hb; [congruence|done]).
  constructor; [done|]. inversion IH as [|x k _ Hbl]; subst.
  eapply Forall_impl; [exact Hbl|]. intros c. by apply str_lt_trans.
Qed.

Lemma rfold_rejects {A} (P : A → bool) k msg l u :
  rfold (λ _ x, reject_if (P x) k msg) l tt = Ok u → Forall (λ x, P x = false) l.
Proof.
  induction l as [|x l IH]; [constructor|]. cbn [rfold].
  intros ([] & Hx%reject_if_ok & Hl)%res_bind_ok. constructor; [done|by apply IH].
Qed.

Lemma object_fields_ok l d s :
  schema_object l d = Ok s →
  let sorted := merge_sort field_le l in
  len sorted <= LuaSchemaMaxFields ∧ StronglySorted str_lt (map field_name sorted) ∧
  Forall (λ f, slen (field_name f) <= LuaMaxNameBytes) sorted ∧ sorted ≡ₚ l ∧
  finish_node (set_fields sorted (new_Node Object d)) = Ok s.
Proof.
  intros H sorted. unfold schema_object in H. invert_res. fold sorted in Ha1, H.
  assert (sorted ≡ₚ l) as Hp by apply merge_sort_Permutation.
  apply N.ltb_ge in Ha. apply rfold_rejects in Ha0. split_and!.
  - unfold len in *. by rewrite Hp.
  - apply adjacent_distinct; [|done]. apply StronglySorted_names, (StronglySorted_merge_sort field_le).
  - rewrite Hp. eapply Forall_impl; [exact Ha0|]. cbn. intros f. apply N.ltb_ge.
  - done.
  - done.
Qed.

Lemma summed_child i : within_ceilings i → summed i.
Proof. by intros []. Qed.

Lemma leaf_checked n :
  kind n ≠ Array → kind n ≠ Object → item_ n = None → fields n = [] →
  len (default [] (enumeration n)) <= LuaSchemaMaxEnumEntries → checked_node n.
Proof.
  intros Ha Ho Hi Hf He. split; [split|split|..]; try done; rewrite ?Hi, ?Hf; try done; constructor.
Qed.

Lemma built_sound s : built s → within_ceilings s ∧ ordered s.
Proof.
  induction 1 as [d s H|lo hi d s H|lo hi d s H|lo hi l d s H|i lo hi d s [IH _] H|l d s IH H]
    using built_ind'.
  1-4: (unfold schema_boolean, schema_integer, schema_number, schema_string in H; invert_res;
    eapply finish_node_sound; [|exact H]; apply leaf_checked; try done).
  - destruct l as [l|]; [|done]. unfold check_enumeration in Ha1. invert_res.
    cbn. by apply N.ltb_ge.
  - unfold schema_array in H. invert_res. eapply finish_node_sound; [|exact H].
    split; [split|split|..]; cbn; try done; try apply SSorted_nil; try apply Forall_nil_2;
      try (by eexists); intros j [= <-]; [by apply summed_child|done].
  - apply object_fields_ok in H as (Hf & Hs & Hn & Hp & H).
    assert (Forall (λ f, within_ceilings (field_schema f)) (merge_sort field_le l)) as Hc.
    { rewrite Hp. eapply Forall_impl; [exact IH|]. by intros f []. }
    eapply finish_node_sound; [|exact H]. split; [split|split|..]; cbn; try done.
    eapply Forall_impl; [exact Hc|]. intros f. apply summed_child.
Qed.

(** The totals a schema carries are those of its expanded tree, they are
    within the declared ceilings, and the sums never left the range of 64 bits. *)
Theorem schema_totals s :
  built s →
  node_totals s = tree_totals s ∧
  nodeCount s <= LuaSchemaMaxNodes ∧ containerDepth s <= LuaSchemaMaxContainerNesting ∧
  enumBytes s <= LuaSchemaMaxEnumBytes ∧ descriptionBytes s <= 2 ^ 22 ∧ logicalBytes s <= 2 ^ 29.
Proof.
  intros [[Hs Hn Hd He Ht Hl] _]%built_sound. split; [done|].
  injection Hs as -> -> -> -> ->.
  unfold LuaSchemaMaxNodes, LuaSchemaMaxEnumBytes, LuaMaxDescriptionBytes, node_bytes in *.
  split_and!; try done; lia.
Qed.

(** ** A schema for a lamp *)

Definition built_or {S} (s : S) (x : res S) : S := match x with Ok s => s | Err _ => s end.
Definition lamp_level : LuaValueSchema :=
  built_or (new_Node Boolean "") (schema_integer (Some 0%Z) (Some 100%Z) "percent").
Definition lamp_mode : LuaValueSchema :=
  built_or (new_Node Boolean "") (schema_string 1 8 (Some ["steady"; "blink"]) "").
Definition lamp_tags : LuaValueSchema :=
  built_or (new_Node Boolean "") (schema_array lamp_mode 0 2 "").
Definition lamp_fields : list (LuaSchemaField LuaValueSchema) :=
  [MkField "mode" lamp_mode true; MkField "level" lamp_level true; MkField "the tags" lamp_tags false].
Definition lamp_schema : LuaValueSchema :=
  built_or (new_Node Boolean "") (schema_object lamp_fields "a lamp").

Lemma lamp_built : built lamp_schema.
Proof.
  apply (built_object lamp_fields "a lamp"); [|by vm_compute].
  repeat constructor.
  - by apply (built_string 1 8 (Some ["steady"; "blink"]) "").
  - by apply (built_integer (Some 0%Z) (Some 100%Z) "percent").
  - apply (built_array lamp_mode 0 2 ""); [|by vm_compute].
    by apply (built_string 1 8 (Some ["steady"; "blink"]) "").
Qed.

Lemma schema_totals_witness :
  node_totals lamp_schema = MkTotals 5 2 22 13 215 ∧
  node_totals lamp_schema = tree_totals lamp_schema ∧ nodeCount lamp_schema <= LuaSchemaMaxNodes.
Proof.
  split; [by vm_compute|]. destruct (schema_totals lamp_schema lamp_built) as (? & ? & _). done.
Defined.
