(* ===== verification/LuaSegments.v ===== *)
(** * Index segments can be read back

    [render_index_segment] writes a name the way Lua source indexes a table.
    Reading it by the rules of Lua (a name behind a dot; a quoted string with
    escapes between brackets) gives the name back, so reports and access
    expressions are unambiguous. *)
From S2P Require Import Prelude OrderedMap LuaSchema.

(** ** Reading *)

(** A Lua name is read as far as it goes. *)
Fixpoint span_name (s : string) : string * string :=
  match s with
  | String c s' =>
      if is_identifier_byte c then (String c (span_name s').1, (span_name s').2) else ("", s)
  | EmptyString => ("", "")
  end.

Definition digit_value (c : Ascii.ascii) : option N :=
  let n := N_of_ascii c in if in_range 48 57 n then Some (n - 48) else None.

Definition prepend (c : Ascii.ascii) (x : option (string * string)) : option (string * string) :=
  x ← x; Some (String c x.1, x.2).

(** A quoted string up to its closing quote: [\ddd] is the byte of that
    number, a backslash before another character stands for that character. *)
Fixpoint read_quoted (s : string) : option (string * string) :=
  match s with
  | EmptyString => None
  | String c s =>
      if bool_decide (c = quote) then Some ("", s)
      else if bool_decide (c = backslash) then
        match s with
        | EmptyString => None
        | String d s =>
            match digit_value d with
            | None => prepend d (read_quoted s)
            | Some hundreds =>
                match s with
                | String t (String u s) =>
                    match digit_value t, digit_value u with
                    | Some tens, Some ones =>
                        prepend (ascii_of_N (100 * hundreds + 10 * tens + ones)) (read_quoted s)
                    | _, _ => None
                    end
                | _ => None
                end
            end
        end
      else prepend c (read_quoted s)
  end.

Definition read_segment (s : string) : option (string * string) :=
  match s with
  | String c s =>
      if bool_decide (c = "."%char) then
        match span_name s with
        | ("", _) => None
        | x => Some x
        end
      else if bool_decide (c = "["%char) then
        match s with
        | String q s =>
            if bool_decide (q = quote) then
              match read_quoted s with
              | Some (name, String b s) => if bool_decide (b = "]"%char) then Some (name, s) else None
              | _ => None
              end
            else None
        | EmptyString => None
        end
      else None
  | EmptyString => None
  end.

(** A sequence of segments; each takes at least one character. *)
Fixpoint read_segments (fuel : nat) (s : string) : option (list string) :=
  match s with
  | EmptyString => Some []
  | _ =>
      match fuel with
      | O => None
      | S fuel =>
          x ← read_segment s;
          names ← read_segments fuel x.2;
          Some (x.1 :: names)
      end
  end.
Definition read_path (s : string) : option (list string) := read_segments (String.length s) s.

Definition render_path (names : list string) : string :=
  foldr (λ name text, render_index_segment name +:+ text) "" names.

(** ** Names *)

Definition no_name_start (s : string) : Prop :=
  match s with String c _ => is_identifier_byte c = false | EmptyString => True end.

Lemma span_name_app name rest :
  all_identifier_bytes name = true → no_name_start rest →
  span_name (name +:+ rest) = (name, rest).
Proof.
  intros Hn Hr. induction name as [|c name IH].
  - destruct rest as [|c rest]; [done|]. cbn in Hr.
    change (span_name ("" +:+ String c rest)) with (span_name (String c rest)).
    cbn [span_name]. by rewrite Hr.
  - cbn in Hn. apply andb_true_iff in Hn as [Hc Hn].
    change (span_name (String c name +:+ rest)) with
      (if is_identifier_byte c then (String c (span_name (name +:+ rest)).1, (span_name (name +:+ rest)).2)
       else ("", String c (name +:+ rest))).
    by rewrite Hc, IH.
Qed.

(** ** Escapes *)

Lemma digit_value_digit d : d < 10 → digit_value (digit d) = Some d.
Proof.
  intros Hd. unfold digit_value, digit, in_range. rewrite N_ascii_embedding by lia.
  replace (48 <=? 48 + d) with true by (symmetry; apply N.leb_le; lia).
  replace (48 + d <=? 57) with true by (symmetry; apply N.leb_le; lia).
  cbn. f_equal. lia.
Qed.

Lemma read_quoted_code h t u s :
  read_quoted (String backslash (String h (String t (String u s)))) =
  match digit_value h with
  | None => prepend h (read_quoted (String t (String u s)))
  | Some hundreds =>
      match digit_value t, digit_value u with
      | Some tens, Some ones =>
          prepend (ascii_of_N (100 * hundreds + 10 * tens + ones)) (read_quoted s)
      | _, _ => None
      end
  end.
Proof. done. Qed.

Lemma read_escape c rest :
  read_quoted (escape c +:+ rest) = prepend c (read_quoted rest).
Proof.
  unfold escape. destruct (decide (c = quote)) as [->|Hq]; [done|].
  destruct (decide (c = backslash)) as [->|Hb]; [done|].
  rewrite !bool_decide_false by done. cbn [orb].
  destruct (in_range 0x20 0x7E (N_of_ascii c)).
  - change (String c "" +:+ rest) with (String c rest). cbn [read_quoted].
    by rewrite !bool_decide_false by done.
  - pose proof (N_ascii_bounded c) as Hc. set (n := N_of_ascii c) in *.
    change (String backslash (String (digit (n / 100)) (String (digit ((n / 10) mod 10))
      (String (digit (n mod 10)) EmptyString))) +:+ rest) with (String backslash (String (digit (n / 100))
      (String (digit ((n / 10) mod 10)) (String (digit (n mod 10)) rest)))).
    rewrite read_quoted_code.
    assert (n / 100 < 10) by (apply N.Div0.div_lt_upper_bound; lia).
    pose proof (N.mod_lt (n / 10) 10 ltac:(done)). pose proof (N.mod_lt n 10 ltac:(done)).
    rewrite !digit_value_digit by done. f_equal.
    replace (100 * (n / 100) + 10 * ((n / 10) mod 10) + n mod 10) with n.
    { unfold n. apply ascii_N_embedding. }
    rewrite (N.div_mod n 10) at 1 by done.
    rewrite (N.div_mod (n / 10) 10) at 1 by done.
    rewrite N.Div0.div_div. change (10 * 10) with 100. lia.
Qed.

Lemma read_escape_all name rest :
  read_quoted (escape_all name +:+ String quote rest) = Some (name, rest).
Proof.
  induction name as [|c name IH]; [done|]. cbn [escape_all].
  by rewrite string_app_assoc, read_escape, IH.
Qed.

(** ** Segments and paths *)

Lemma read_segment_render name rest :
  no_name_start rest → read_segment (render_index_segment name +:+ rest) = Some (name, rest).
Proof.
  intros Hr. unfold render_index_segment. destruct (is_lua_identifier name) eqn:Hn.
  - change (("." +:+ name) +:+ rest) with (String "."%char (name +:+ rest)).
    unfold is_lua_identifier in Hn. destruct name as [|c name]; [done|].
    apply andb_true_iff in Hn as [[_ Hn]%andb_true_iff _]. cbn [read_segment].
    rewrite bool_decide_true by done. by rewrite span_name_app.
  - rewrite string_app_assoc.
    change (read_segment _) with
      (match read_quoted (escape_all name +:+ String quote (String "]"%char rest)) with
       | Some (name, String b s) => if bool_decide (b = "]"%char) then Some (name, s) else None
       | _ => None
       end).
    by rewrite read_escape_all.
Qed.

Lemma render_path_start names : no_name_start (render_path names).
Proof.
  destruct names as [|name names]; [done|]. cbn [render_path foldr].
  unfold render_index_segment. by destruct (is_lua_identifier name).
Qed.

Lemma read_segments_render fuel names :
  (String.length (render_path names) <= fuel)%nat →
  read_segments fuel (render_path names) = Some names.
Proof.
  revert fuel. induction names as [|name names IH]; intros fuel Hf; [by destruct fuel|].
  cbn [render_path foldr] in *. fold (render_path names) in *.
  rewrite string_app_length in Hf.
  assert (∃ c s, render_index_segment name = String c s) as (c & s & Hs).
  { unfold render_index_segment. destruct (is_lua_identifier name); by do 2 eexists. }
  destruct fuel as [|fuel]; [rewrite Hs in Hf; cbn in Hf; lia|].
  change (read_segments (S fuel) (render_index_segment name +:+ render_path names)) with
    (match render_index_segment name +:+ render_path names with
     | EmptyString => Some []
     | _ => x ← read_segment (render_index_segment name +:+ render_path names);
            names ← read_segments fuel x.2; Some (x.1 :: names)
     end).
  rewrite read_segment_render by apply render_path_start. rewrite Hs in *. cbn in Hf.
  change (String c s +:+ render_path names) with (String c (s +:+ render_path names)).
  cbn [mbind option_bind fst snd]. by rewrite IH by lia.
Qed.

(** What is written as a sequence of index segments is read back by the rules of
    Lua as the same names, whatever bytes they are made of: identifiers,
    keywords, quotes, control characters and bytes outside ASCII. *)
Theorem path_read_back names : read_path (render_path names) = Some names.
Proof. by apply read_segments_render. Qed.

(** Two sequences of names are never written the same. *)
Lemma render_path_inj a b : render_path a = render_path b → a = b.
Proof.
  intros E. assert (Some a = Some b) as [= ->]; [|done].
  rewrite <-(read_segments_render _ a (le_n _)), E. by apply read_segments_render.
Qed.
