(* ===== verification/LuaValidation.v ===== *)
(** * Validation accepts what conforms, and reports a place that does not

    [conforms] says without order or state what it is for a value to fit a
    schema, [offends] that a place in a value breaks it.  The walk of
    [validate_lua_value] decides the first and, when it fails, names one of the
    second. *)
From stdpp Require Import pretty.
From S2P Require Import Prelude OrderedMap Values LuaSchema LuaSchemaSpec.

(** ** Values *)

Section LuaValueInd.
Context (P : LuaValue → Prop).
Context (HB : ∀ b, P (LBool b)) (HI : ∀ z, P (LInteger z)) (HN : ∀ d, P (LNumber d))
  (HS : ∀ s, P (LString s)) (HA : ∀ l, Forall P l → P (LArray l))
  (HT : ∀ m, Forall (λ e, P e.2) m → P (LTable m)).

Fixpoint LuaValue_ind' (v : LuaValue) : P v :=
  match v with
  | LBool b => HB b
  | LInteger z => HI z
  | LNumber d => HN d
  | LString s => HS s
  | LArray l => HA l
      ((fix go l : Forall P l :=
          match l with
          | [] => Forall_nil_2 _
          | x :: l => Forall_cons_2 _ _ _ (LuaValue_ind' x) (go l)
          end) l)
  | LTable m => HT m
      ((fix go m : Forall (λ e, P e.2) m :=
          match m with
          | [] => Forall_nil_2 _
          | e :: m => Forall_cons_2 _ _ _ (LuaValue_ind' e.2) (go m)
          end) m)
  end.
End LuaValueInd.

Fixpoint lua_nodes (v : LuaValue) : N :=
  match v with
  | LArray l => 1 + sum_of lua_nodes l
  | LTable m => 1 + sum_of (λ e, lua_nodes e.2) m
  | _ => 1
  end.

(** What [std::map] guarantees of the tables in a value. *)
Fixpoint lua_typed (v : LuaValue) : bool :=
  match v with
  | LArray l => forallb lua_typed l
  | LTable m => bool_decide (sm_sorted m) && forallb (λ e, lua_typed e.2) m
  | _ => true
  end.

(** ** Conforming *)

Definition bounded_integer (s : LuaValueSchema) (z : Z) : Prop :=
  (∀ b, integerMinimum s = Some b → (b <= z)%Z) ∧ (∀ b, integerMaximum s = Some b → (z <= b)%Z).
Definition bounded_number (s : LuaValueSchema) (d : N) : Prop :=
  (∀ b, numberMinimum s = Some b → double_lt d b = false) ∧
  (∀ b, numberMaximum s = Some b → double_lt b d = false).
Definition bounded_string (s : LuaValueSchema) (text : string) : Prop :=
  minimumBytes s <= slen text <= maximumBytes s ∧ ∀ l, enumeration s = Some l → text ∈ l.
Definition bounded_array (s : LuaValueSchema) (l : list LuaValue) : Prop :=
  minimumItems s <= len l <= maximumItems s.

Inductive conforms : LuaValueSchema → LuaValue → Prop :=
| conforms_bool s b : kind s = Boolean → conforms s (LBool b)
| conforms_integer s z : kind s = Integer → bounded_integer s z → conforms s (LInteger z)
| conforms_number s d :
    kind s = Number → is_finite d = true → bounded_number s d → conforms s (LNumber d)
| conforms_string s text : kind s = String_ → bounded_string s text → conforms s (LString text)
| conforms_array s i l :
    kind s = Array → item_ s = Some i → bounded_array s l → (∀ v, v ∈ l → conforms i v) →
    conforms s (LArray l)
| conforms_table s m :
    kind s = Object →
    (∀ k v, (k, v) ∈ m → ∃ f, f ∈ fields s ∧ field_name f = k ∧ conforms (field_schema f) v) →
    (∀ f, f ∈ fields s → required f = true → field_name f ∈ m.*1) →
    conforms s (LTable m).

(** ** Offending *)

(** A value that by itself breaks its schema, and as what that is reported. *)
Inductive misfit : LuaValueSchema → LuaValue → LuaSchemaErrorCode → Prop :=
| misfit_kind s v : storage_index v ≠ kind_index (kind s) → misfit s v KindError
| misfit_infinite s d : kind s = Number → is_finite d = false → misfit s (LNumber d) KindError
| misfit_integer s z : kind s = Integer → ¬ bounded_integer s z → misfit s (LInteger z) RangeError
| misfit_number s d : kind s = Number → ¬ bounded_number s d → misfit s (LNumber d) RangeError
| misfit_string s text :
    kind s = String_ → ¬ bounded_string s text → misfit s (LString text) RangeError
| misfit_array s l : kind s = Array → ¬ bounded_array s l → misfit s (LArray l) RangeError
| misfit_key s k v m :
    kind s = Object → (k, v) ∈ m → LuaMaxNameBytes < slen k → misfit s (LTable m) LimitError.

(** Steps into a value, and how a report shows them. *)
Inductive place := AtIndex (n : N) | AtField (name : string).
Definition render_place (p : place) : string :=
  match p with
  | AtIndex n => "[" +:+ pretty (n + 1) +:+ "]"
  | AtField name => render_index_segment name
  end.
Definition render_places (l : list place) : string :=
  foldr (λ p text, render_place p +:+ text) "" l.

Inductive offends : LuaValueSchema → LuaValue → list place → LuaSchemaErrorCode → Prop :=
| offends_here s v c : misfit s v c → offends s v [] c
| offends_missing s m f :
    kind s = Object → f ∈ fields s → required f = true → field_name f ∉ m.*1 →
    offends s (LTable m) [AtField (field_name f)] MissingField
| offends_unknown s m k v :
    kind s = Object → (k, v) ∈ m → (∀ f, f ∈ fields s → field_name f ≠ k) →
    offends s (LTable m) [AtField k] UnknownField
| offends_item s i l n v p c :
    kind s = Array → item_ s = Some i → l !! n = Some v → offends i v p c →
    offends s (LArray l) (AtIndex (N.of_nat n) :: p) c
| offends_field s m f v p c :
    kind s = Object → f ∈ fields s → (field_name f, v) ∈ m → offends (field_schema f) v p c →
    offends s (LTable m) (AtField (field_name f) :: p) c.

(** ** Parts of built schemas *)

Lemma fields_set t n : fields (set_totals t n) = fields n ∧ item_ (set_totals t n) = item_ n ∧
  kind (set_totals t n) = kind n.
Proof. done. Qed.

Lemma built_parts s :
  built s → (∀ i, item_ s = Some i → built i) ∧ (∀ f, f ∈ fields s → built (field_schema f)).
Proof.
  intros Hb. destruct Hb as [d s H|lo hi d s H|lo hi d s H|lo hi l d s H|i lo hi d s Hi H|l d s Hl H].
  1-4: unfold schema_boolean, schema_integer, schema_number, schema_string in H; invert_res;
    apply finish_node_ok in H as (_ & t & _ & _ & _ & _ & ->); cbn;
    split; [done|intros f Hf; by apply elem_of_nil in Hf].
  - unfold schema_array in H. invert_res. apply finish_node_ok in H as (_ & t & _ & _ & _ & _ & ->).
    cbn. split; [by intros j [= <-]|intros f Hf; by apply elem_of_nil in Hf].
  - apply object_fields_ok in H as (_ & _ & _ & Hp & (_ & t & _ & _ & _ & _ & ->)%finish_node_ok).
    cbn. split; [done|]. intros f. rewrite Hp. rewrite Forall_forall in Hl. apply Hl.
Qed.

Lemma built_item s : built s → kind s = Array → ∃ i, item_ s = Some i ∧ built i.
Proof.
  intros Hb Hk. destruct (built_sound s Hb) as [_ [Hi _ _ _]]. destruct (Hi Hk) as [i Hs].
  exists i. split; [done|]. by apply (proj1 (built_parts s Hb)).
Qed.


Lemma same_field (l : list (LuaSchemaField Node)) f g :
  StronglySorted str_lt (map field_name l) → f ∈ l → g ∈ l → field_name f = field_name g → f = g.
Proof.
  induction l as [|h l IH]; cbn; [by intros _ ?%elem_of_nil|].
  inversion 1 as [|? ? Hs Hh]; subst. rewrite Forall_forall in Hh.
  assert (∀ x, x ∈ l → field_name x ≠ field_name h) as Hne.
  { intros x Hx E. apply (str_lt_irrefl (field_name h)). rewrite <-E at 2. apply Hh.
    by apply (list_elem_of_fmap_2 (@field_name Node)). }
  rewrite !elem_of_cons. intros [->|Hf] [->|Hg] E; [done| | |by apply IH].
  - by destruct (Hne g Hg).
  - by destruct (Hne f Hf).
Qed.

Lemma offends_not_conforms s v p c : built s → offends s v p c → ¬ conforms s v.
Proof.
  intros Hb Ho. revert Hb.
  induction Ho as [s v c Hm|s m f Hk Hf Hr Hn|s m k v Hk Hv Hn|s i l n v p c Hk Hi Hl _ IH
    |s m f v p c Hk Hf Hv _ IH]; intros Hb Hc.
  - destruct Hm as [s v Hk|s d Hk Hd|s z Hk Hd|s d Hk Hd|s text Hk Hd|s l Hk Hd|s k v m Hk Hv Hd];
      inversion Hc; subst; try congruence;
      try (by apply Hk; match goal with H : kind _ = _ |- _ => rewrite H end).
    destruct (built_sound s Hb) as [_ [_ _ _ Hn]]. rewrite Forall_forall in Hn.
    match goal with H : ∀ k v, (k, v) ∈ m → _ |- _ => destruct (H k v Hv) as (f & Hf & <- & _) end.
    specialize (Hn f Hf). cbn in Hn. lia.
  - inversion Hc; subst. by apply Hn; auto.
  - inversion Hc; subst. match goal with H : ∀ k v, (k, v) ∈ m → _ |- _ => destruct (H k v Hv) as (f & Hf & E & _) end.
    by apply (Hn f).
  - inversion Hc as [| | | |? j ? ? Hj ? Hall|]; subst. assert (j = i) as -> by congruence.
    apply IH; [by apply (proj1 (built_parts s Hb))|]. apply Hall. by eapply list_elem_of_lookup_2.
  - inversion Hc as [| | | | |? ? ? Hall]; subst. destruct (Hall _ _ Hv) as (g & Hg & E & Hgc).
    assert (g = f) as ->. { eapply same_field; [apply (built_sound s Hb)|done..]. }
    apply IH; [|done]. by apply (proj2 (built_parts s Hb)).
Qed.

(** ** The walk *)

Definition error_at (c : LuaSchemaErrorCode) (place message : string) : LuaSchemaError :=
  MkSchemaError c (bounded_schema_text place)
    (bounded_schema_text ("Lua value at " +:+ (if String.eqb place "" then "root" else place) +:+
                          ": " +:+ message)).

(** The walk failed at a place below the path [at_] it was at. *)
Definition walk_failed (P : list place → LuaSchemaErrorCode → Prop) (at_ : string) (w : SchemaWalk)
  : Prop :=
  ∃ places c message, P places c ∧
    walk_error w = Some (error_at c (at_ +:+ render_places places) message).

(** It stops at the limit of nodes, too. *)
Definition or_limit (total : N) (P : list place → LuaSchemaErrorCode → Prop) places c : Prop :=
  P places c ∨ c = LimitError ∧ LuaMaxValueNodes < total.

Lemma fail_eq c message w :
  fail c message w = (Ok false, set_walk_error (error_at c (path w) message) w).
Proof. done. Qed.

Lemma failed_here (P : list place → LuaSchemaErrorCode → Prop) c message at_ w :
  path w = at_ → P [] c → walk_failed P at_ (set_walk_error (error_at c (path w) message) w).
Proof. intros <- Hp. exists [], c, message. split; [done|]. by rewrite string_app_nil_r. Qed.

Lemma failed_at (P : list place → LuaSchemaErrorCode → Prop) p c message w :
  P [p] c →
  ∃ w', fail_at (render_place p) c message w = (Ok false, w') ∧ walk_failed P (path w) w'.
Proof.
  intros Hp. exists (set_walk_error (error_at c (path w +:+ render_place p) message)
    (set_path (path w +:+ render_place p) w)). split; [reflexivity|]. exists [p], c, message. split; [done|]. cbn.
  by rewrite string_app_nil_r.
Qed.

(** What a walk of [total] nodes from [w] on comes to. *)
Definition outcome (fits : Prop) (P : list place → LuaSchemaErrorCode → Prop) (total : N)
    (w : SchemaWalk) (x : res bool * SchemaWalk) : Prop :=
  (x.1 = Ok true ∧ x.2 = set_visited (visitedNodes w + total) w ∧ fits ∧
   visitedNodes w + total <= LuaMaxValueNodes) ∨
  (x.1 = Ok false ∧ walk_failed (or_limit (visitedNodes w + total) P) (path w) x.2).

Lemma failed_weaken (P Q : list place → LuaSchemaErrorCode → Prop) at_ w :
  (∀ l c, P l c → Q l c) → walk_failed P at_ w → walk_failed Q at_ w.
Proof. intros H (l & c & m & Hp & He). exists l, c, m. auto. Qed.

(** A failure in a part is one of the whole, with the step into the part. *)
Lemma failed_below (P Q : list place → LuaSchemaErrorCode → Prop) p at_ w :
  (∀ l c, P l c → Q (p :: l) c) → walk_failed P (at_ +:+ render_place p) w → walk_failed Q at_ w.
Proof.
  intros H (l & c & m & Hp & He). exists (p :: l), c, m. split; [by apply H|].
  by rewrite He, string_app_assoc.
Qed.

(** A step into a part: the path grows by it, and shrinks again if the part
    fits; then the rest of the walk goes on where it was. *)
Lemma outcome_part (F G : Prop) (P Q : list place → LuaSchemaErrorCode → Prop) p n total i v w
    (rest : stm SchemaWalk bool) :
  (∀ w, outcome F P n w (visit i v w)) →
  (∀ l c, P l c → Q (p :: l) c) →
  (F → visitedNodes w + n <= LuaMaxValueNodes →
   outcome G Q total (set_visited (visitedNodes w + n) w) (rest (set_visited (visitedNodes w + n) w))) →
  outcome (F ∧ G) Q (n + total) w
    ((push_path (render_place p);;
      fits ← visit i v;
      if negb fits then mret false else resize_path (String.length (path w));; rest) w).
Proof.
  intros Hv Hq Hr. unfold mbind, stm_bind, push_path, smodify.
  specialize (Hv (set_path (path w +:+ render_place p) w)).
  destruct (visit i v _) as [x w2]. unfold outcome in Hv. cbn [fst snd visitedNodes path set_path] in Hv.
  destruct Hv as [(-> & -> & Hf & Hn)|(-> & Hw)]; cbn [negb].
  - unfold resize_path, smodify. cbn [path set_visited set_path]. rewrite substring_app.
    specialize (Hr Hf Hn). revert Hr.
    change (set_path (path w) (set_visited (visitedNodes w + n) (set_path (path w +:+ render_place p) w)))
      with (set_visited (visitedNodes w + n) w).
    unfold outcome. cbn [visitedNodes set_visited path]. rewrite N.add_assoc.
    intros [(-> & -> & Hg & Ht)|Hw]; [left|by right]. by split_and!.
  - right. split; [done|]. cbn [fst snd]. eapply failed_below; [|exact Hw].
    intros l c [Hp|[-> Hl]]; [left; by apply Hq|right; split; [done|lia]].
Qed.

Lemma outcome_iff (F G : Prop) P total w x :
  (F ↔ G) → outcome F P total w x → outcome G P total w x.
Proof. intros E [(? & ? & ? & ?)|?]; [left; by split_and!; [..|apply E|]|by right]. Qed.
Lemma outcome_weaken (P Q : list place → LuaSchemaErrorCode → Prop) F total w x :
  (∀ l c, P l c → Q l c) → outcome F P total w x → outcome F Q total w x.
Proof.
  intros H [?|[? Hw]]; [by left|right]. split; [done|]. eapply failed_weaken; [|exact Hw].
  intros l c [?|?]; [left; auto|by right].
Qed.
Lemma outcome_fits (F : Prop) P w :
  F → visitedNodes w <= LuaMaxValueNodes → outcome F P 0 w ((mret true : stm SchemaWalk bool) w).
Proof.
  intros Hf Hn. left. rewrite N.add_0_r. split_and!; try done. by destruct w.
Qed.
Lemma outcome_fails F (P : list place → LuaSchemaErrorCode → Prop) p c message total w :
  P [p] c → outcome F P total w (fail_at (render_place p) c message w).
Proof.
  intros Hp. destruct (failed_at P p c message w Hp) as (w' & -> & Hw). right. split; [done|].
  eapply failed_weaken; [|exact Hw]. by left.
Qed.

(** *** Arrays *)

Definition items_offend (i : LuaValueSchema) (index : N) (l : list LuaValue)
    (places : list place) (c : LuaSchemaErrorCode) : Prop :=
  ∃ n v p, l !! n = Some v ∧ places = AtIndex (index + N.of_nat n) :: p ∧ offends i v p c.

Lemma visit_items_ok s i l index w :
  item_ s = Some i →
  Forall (λ v, ∀ w, outcome (conforms i v) (offends i v) (lua_nodes v) w (visit i v w)) l →
  visitedNodes w <= LuaMaxValueNodes →
  outcome (∀ v, v ∈ l → conforms i v) (items_offend i index l) (sum_of lua_nodes l) w
    (visit_items visit s (String.length (path w)) l index w).
Proof.
  intros Hi Hl. revert index w. induction Hl as [|v l Hv _ IH]; intros index w Hn.
  { apply outcome_fits; [|done]. by intros v ?%elem_of_nil. }
  rewrite sum_of_cons. cbn [visit_items]. unfold item. rewrite Hi.
  change ("[" +:+ pretty (index + 1) +:+ "]") with (render_place (AtIndex index)).
  apply (outcome_iff (conforms i v ∧ ∀ v, v ∈ l → conforms i v)).
  { setoid_rewrite elem_of_cons. naive_solver. }
  apply (outcome_part _ _ (offends i v)); [done| |].
  - intros p c Hp. exists 0%nat, v, p. by rewrite N.add_0_r.
  - intros _ Hn'. eapply outcome_weaken; [|apply (IH (index + 1) (set_visited _ w) Hn')].
    intros p c (n & v' & q & Hl' & -> & Hp). exists (S n), v', q. split_and!; try done.
    do 2 f_equal. lia.
Qed.

(** *** Objects: the merge of fields and entries *)

Abbreviation fields_of := (list (LuaSchemaField LuaValueSchema)).
Abbreviation entries_of := (list (string * LuaValue)).

Definition fields_fit (fs : fields_of) (es : entries_of) : Prop :=
  (∀ k v, (k, v) ∈ es → ∃ f, f ∈ fs ∧ field_name f = k ∧ conforms (field_schema f) v) ∧
  (∀ f, f ∈ fs → required f = true → field_name f ∈ es.*1).

Inductive fields_offend (fs : fields_of) (es : entries_of)
  : list place → LuaSchemaErrorCode → Prop :=
| fo_missing f :
    f ∈ fs → required f = true → field_name f ∉ es.*1 →
    fields_offend fs es [AtField (field_name f)] MissingField
| fo_unknown k v :
    (k, v) ∈ es → (∀ f, f ∈ fs → field_name f ≠ k) → fields_offend fs es [AtField k] UnknownField
| fo_below f v p c :
    f ∈ fs → (field_name f, v) ∈ es → offends (field_schema f) v p c →
    fields_offend fs es (AtField (field_name f) :: p) c.

(** The key lies before everything still to come. *)
Definition before_names (k : string) (fs : fields_of) : Prop :=
  ∀ f, f ∈ fs → field_name f ≠ k.
Definition before_keys (k : string) (es : entries_of) : Prop := k ∉ es.*1.

Lemma before_names_lt k fs :
  Forall (str_lt k) (map field_name fs) → before_names k fs.
Proof.
  rewrite Forall_map, Forall_forall. intros H f Hf E. specialize (H f Hf). cbn in H.
  rewrite E in H. by apply str_lt_irrefl in H.
Qed.
Lemma before_keys_lt k (es : entries_of) : Forall (str_lt k) es.*1 → before_keys k es.
Proof. rewrite Forall_forall. intros H E. by apply (str_lt_irrefl k), H. Qed.

(** A field that no entry has adds nothing if it is not required. *)
Lemma skip_field_fit f fs es :
  required f = false → before_keys (field_name f) es → fields_fit fs es ↔ fields_fit (f :: fs) es.
Proof.
  intros Hr Hk. unfold fields_fit. setoid_rewrite elem_of_cons. split.
  - intros [H1 H2]. split; [naive_solver|]. intros g [->|Hg]; [congruence|auto].
  - intros [H1 H2]. split; [|auto]. intros k v Hv. destruct (H1 k v Hv) as (g & [->|Hg] & E & Hc); [|eauto].
    destruct Hk. rewrite E. by apply (list_elem_of_fmap_2 fst _ (k, v)).
Qed.
Lemma skip_field_offend f fs es p c :
  before_keys (field_name f) es → fields_offend fs es p c → fields_offend (f :: fs) es p c.
Proof.
  intros Hk [g Hg Hr Hn|k v Hv Hn|g v q c' Hg Hv Ho].
  - apply fo_missing; [by right|done..].
  - eapply fo_unknown; [done|]. intros g [->|Hg]%elem_of_cons; [|by apply Hn].
    intros <-. apply Hk. by apply (list_elem_of_fmap_2 fst _ (_, v)).
  - eapply fo_below; [by right|done..].
Qed.

(** A field and the entry of its name are a part of their own. *)
Lemma match_field_fit f v fs es :
  before_names (field_name f) fs → before_keys (field_name f) es →
  conforms (field_schema f) v ∧ fields_fit fs es ↔ fields_fit (f :: fs) ((field_name f, v) :: es).
Proof.
  intros Hn Hk. unfold fields_fit, before_keys in *. cbn [fmap list_fmap fst]. setoid_rewrite elem_of_cons. split.
  - intros (Hc & H1 & H2). split; [|naive_solver].
    intros k w [[= -> ->]|Hw]; [by exists f; auto|]. destruct (H1 k w Hw) as (g & ? & ? & ?). eauto.
  - intros [H1 H2]. split_and!.
    + destruct (H1 (field_name f) v) as (g & [->|Hg] & E & Hc); [by left|done|by destruct (Hn g Hg)].
    + intros k w Hw. destruct (H1 k w) as (g & [->|Hg] & E & Hc); [by right| |eauto].
      destruct Hk. rewrite E. by apply (list_elem_of_fmap_2 fst _ (k, w)).
    + intros g Hg Hr. destruct (H2 g) as [E|?]; [by right|done| |done]. by destruct (Hn g Hg).
Qed.
Lemma match_field_offend f v fs es p c :
  before_names (field_name f) fs → before_keys (field_name f) es →
  fields_offend fs es p c → fields_offend (f :: fs) ((field_name f, v) :: es) p c.
Proof.
  intros Hn Hk [g Hg Hr Hnot|k w Hw Hnone|g w q c' Hg Hw Ho].
  - apply fo_missing; [by right|done|]. cbn. intros [E|?]%elem_of_cons; [|done]. by apply (Hn g).
  - eapply fo_unknown; [by right|]. intros g [->|Hg]%elem_of_cons; [|by apply Hnone].
    intros <-. apply Hk. by apply (list_elem_of_fmap_2 fst _ (_, w)).
  - eapply fo_below; [by right|by right|done].
Qed.

Lemma str_lt_cases a b : str_lt a b ∨ str_lt b a ∨ a = b.
Proof.
  destruct (String.compare a b) eqn:E; [right; right; by apply str_compare_eq|by left|].
  right; left. by apply str_compare_gt.
Qed.

Lemma visit_fields_ok es fs w :
  Forall (λ e, ∀ s w, built s →
    outcome (conforms s e.2) (offends s e.2) (lua_nodes e.2) w (visit s e.2 w)) es →
  sm_sorted es → StronglySorted str_lt (map field_name fs) →
  (∀ f, f ∈ fs → built (field_schema f)) → visitedNodes w <= LuaMaxValueNodes →
  outcome (fields_fit fs es) (fields_offend fs es) (sum_of (λ e, lua_nodes e.2) es) w
    (visit_fields visit (String.length (path w)) es fs w).
Proof.
  intros Hes. revert fs w. induction Hes as [|[k v] es Hv Hes IHes]; intros fs w Hk Hfs Hb Hn.
  - induction fs as [|f fs IH].
    { apply outcome_fits; [|done]. split; [by intros ? ? ?%elem_of_nil|by intros ? ?%elem_of_nil]. }
    cbn [visit_fields]. inversion Hfs as [|? ? Hs Hf]; subst.
    destruct (required f) eqn:Hr.
    { apply (outcome_fails _ _ (AtField (field_name f))), fo_missing; [by left|done|].
      by intros ?%elem_of_nil. }
    apply (outcome_iff (fields_fit fs [])).
    { apply skip_field_fit; [done|]. by intros ?%elem_of_nil. }
    eapply outcome_weaken; [|apply IH; [done|intros g Hg; apply Hb; by right]].
    intros p c. apply skip_field_offend. by intros ?%elem_of_nil.
  - apply sm_sorted_cons in Hk as [Hk Hlt]. rewrite sum_of_cons. cbn [snd] in *.
    induction fs as [|f fs IH].
    { apply (outcome_fails _ _ (AtField k)). eapply fo_unknown; [by left|]. by intros ? ?%elem_of_nil. }
    inversion Hfs as [|? ? Hs Hf]; subst. cbn [visit_fields fst].
    destruct (str_lt_cases k (field_name f)) as [Hlt'|[Hlt'| ->]].
    + rewrite bool_decide_true by done. apply (outcome_fails _ _ (AtField k)).
      eapply fo_unknown; [by left|]. intros g [->|Hg]%elem_of_cons.
      * intros E. rewrite E in Hlt'. by apply str_lt_irrefl in Hlt'.
      * apply (before_names_lt k fs); [|done]. eapply Forall_impl; [exact Hf|]. intros x. by apply str_lt_trans.
    + rewrite bool_decide_false by (by apply str_lt_asym). rewrite bool_decide_true by done.
      assert (before_keys (field_name f) ((k, v) :: es)) as Hkeys.
      { apply before_keys_lt. cbn. constructor; [done|]. eapply Forall_impl; [exact Hlt|]. intros x. by apply str_lt_trans. }
      destruct (required f) eqn:Hr.
      { apply (outcome_fails _ _ (AtField (field_name f))), fo_missing; [by left|done|done]. }
      apply (outcome_iff (fields_fit fs ((k, v) :: es))); [by apply skip_field_fit|].
      eapply outcome_weaken; [|apply IH; [done|intros g Hg; apply Hb; by right]].
      intros p c. by apply skip_field_offend.
    + rewrite !bool_decide_false by apply str_lt_irrefl.
      apply before_names_lt in Hf. apply before_keys_lt in Hlt.
      change (render_index_segment (field_name f)) with (render_place (AtField (field_name f))).
      eapply outcome_iff; [by apply match_field_fit|].
      apply (outcome_part _ _ (offends (field_schema f) v)).
      * intros w'. apply Hv, Hb. by left.
      * intros p c Hp. by eapply fo_below; [left|left|].
      * intros _ Hn'. eapply outcome_weaken; [intros p c; by apply match_field_offend|].
        apply (IHes fs (set_visited _ w)); [done|done|intros g Hg; apply Hb; by right|done].
Qed.

(** *** Whole values *)

Lemma lua_nodes_pos v : 1 <= lua_nodes v.
Proof. destruct v; cbn [lua_nodes]; lia. Qed.

Lemma outcome_entered F P n w x :
  outcome F P n (set_visited (visitedNodes w + 1) w) x → outcome F P (1 + n) w x.
Proof. unfold outcome. cbn. rewrite N.add_assoc. tauto. Qed.

Lemma outcome_here F (P : list place → LuaSchemaErrorCode → Prop) c message n total w :
  or_limit (visitedNodes w + total) P [] c →
  outcome F P total w (fail c message (set_visited n w)).
Proof.
  intros Hp. right. rewrite fail_eq. split; [done|]. cbn [snd].
  by apply (failed_here _ c message (path w) (set_visited n w)).
Qed.

(** A leaf either fits or does not. *)
Lemma outcome_leaf (F : Prop) s v (test : bool) c message w :
  lua_nodes v = 1 → visitedNodes w + 1 <= LuaMaxValueNodes →
  (test = false → F) → (test = true → misfit s v c) →
  outcome F (offends s v) (lua_nodes v) w
    ((if test then fail c message else mret true) (set_visited (visitedNodes w + 1) w)).
Proof.
  intros -> Hn Hf Hm. destruct test.
  - apply outcome_here. left. by apply offends_here, Hm.
  - left. cbn. by split_and!; [| |apply Hf|].
Qed.

Lemma violates_false {A} (outside : A → bool) b :
  violates outside b = false ↔ ∀ x, b = Some x → outside x = false.
Proof. destruct b as [x|]; cbn; [|by split]. split; [by intros H y [= <-]|auto]. Qed.

Lemma bounded_integer_test s z :
  violates (Z.ltb z) (integerMinimum s) || violates (λ b, Z.ltb b z) (integerMaximum s) = false ↔
  bounded_integer s z.
Proof.
  rewrite orb_false_iff, !violates_false. unfold bounded_integer.
  by setoid_rewrite Z.ltb_ge.
Qed.
Lemma bounded_number_test s d :
  violates (double_lt d) (numberMinimum s) || violates (λ b, double_lt b d) (numberMaximum s) = false ↔
  bounded_number s d.
Proof. by rewrite orb_false_iff, !violates_false. Qed.

Lemma fields_fit_conforms s m :
  kind s = Object → fields_fit (fields s) m ↔ conforms s (LTable m).
Proof.
  intros Hk. split; [intros []; by apply conforms_table|]. by inversion 1; subst.
Qed.
Lemma fields_offend_offends s m p c :
  kind s = Object → fields_offend (fields s) m p c → offends s (LTable m) p c.
Proof.
  intros Hk [f Hf Hr Hn|k v Hv Hn|f v q c' Hf Hv Ho].
  - by apply offends_missing.
  - by eapply offends_unknown.
  - by eapply offends_field.
Qed.

Lemma kind_index_inj a b : kind_index a = kind_index b → a = b.
Proof. by destruct a, b. Qed.

Lemma visit_enter s v w :
  visit s v w =
  (if LuaMaxValueNodes <? visitedNodes w + 1 then fail LimitError "value exceeds 16384 nodes"
   else if negb (storage_index v =? kind_index (kind s)) then
     fail KindError ("expected " +:+ kind_name (kind_index (kind s)) +:+ ", got " +:+
                     kind_name (storage_index v))
   else match v with
    | LBool _ => mret true
    | LInteger z => visit_integer s z
    | LNumber d => visit_number s d
    | LString text => visit_string s text
    | LArray items =>
        if (len items <? minimumItems s) || (maximumItems s <? len items)
        then fail RangeError "array length is outside the declared bounds"
        else visit_items visit s (String.length (path w)) items 0
    | LTable table =>
        if existsb long_key table then fail LimitError "object key exceeds 256 bytes"
        else visit_fields visit (String.length (path w)) table (fields s)
    end) (set_visited (visitedNodes w + 1) w).
Proof. by destruct v. Qed.

Lemma visit_integer_ok s z w :
  kind s = Integer → visitedNodes w + 1 <= LuaMaxValueNodes →
  outcome (conforms s (LInteger z)) (offends s (LInteger z)) 1 w
    (visit_integer s z (set_visited (visitedNodes w + 1) w)).
Proof.
  intros Hk Hn. apply (outcome_leaf _ s (LInteger z)); [done|done| |].
  - intros H%bounded_integer_test. by apply conforms_integer.
  - intros H. apply misfit_integer; [done|]. by rewrite <-bounded_integer_test, H.
Qed.

Lemma visit_number_ok s d w :
  kind s = Number → visitedNodes w + 1 <= LuaMaxValueNodes →
  outcome (conforms s (LNumber d)) (offends s (LNumber d)) 1 w
    (visit_number s d (set_visited (visitedNodes w + 1) w)).
Proof.
  intros Hk Hn. unfold visit_number. destruct (is_finite d) eqn:Hd; cbn [negb].
  - apply (outcome_leaf _ s (LNumber d)); [done|done| |].
    + intros H%bounded_number_test. by apply conforms_number.
    + intros H. apply misfit_number; [done|]. by rewrite <-bounded_number_test, H.
  - apply outcome_here. left. by apply offends_here, misfit_infinite.
Qed.

Lemma visit_string_ok s text w :
  kind s = String_ → visitedNodes w + 1 <= LuaMaxValueNodes →
  outcome (conforms s (LString text)) (offends s (LString text)) 1 w
    (visit_string s text (set_visited (visitedNodes w + 1) w)).
Proof.
  intros Hk Hn. unfold visit_string.
  destruct ((slen text <? minimumBytes s) || (maximumBytes s <? slen text)) eqn:Hlen.
  - apply outcome_here. left. apply offends_here, misfit_string; [done|]. intros [Hb _].
    apply orb_true_iff in Hlen as [?%N.ltb_lt|?%N.ltb_lt]; lia.
  - apply orb_false_iff in Hlen as [H1%N.ltb_ge H2%N.ltb_ge].
    match goal with |- context [violates ?test (enumeration s)] =>
      assert (violates test (enumeration s) = false ↔ ∀ l, enumeration s = Some l → text ∈ l) as Hin
    end.
    { rewrite violates_false. setoid_rewrite bool_decide_eq_false. split.
      - intros H l Hl. apply dec_stable. by apply H.
      - intros H l Hl Hnot. by apply Hnot, H. }
    apply (outcome_leaf _ s (LString text)); [done|done| |].
    + intros H. pose proof (proj1 Hin H). by apply conforms_string.
    + intros H. apply misfit_string; [done|]. intros [_ Hb]. pose proof (proj2 Hin Hb). congruence.
Qed.

Lemma visit_ok v s w :
  lua_typed v = true → built s →
  outcome (conforms s v) (offends s v) (lua_nodes v) w (visit s v w).
Proof.
  revert s w. induction v as [b|z|d|text|l IH|m IH] using LuaValue_ind'; intros s w Ht Hb;
    rewrite visit_enter;
    (destruct (N.ltb_spec LuaMaxValueNodes (visitedNodes w + 1)) as [Hlim|Hlim];
      [apply outcome_here; right; split; [done|]; cbn [lua_nodes]; lia|]);
    (match goal with |- context [storage_index ?v =? ?k] =>
       destruct (N.eqb_spec (storage_index v) k) as [Hk|Hk] end;
      [cbn [negb]|apply outcome_here; left; by apply offends_here, misfit_kind]).
  - left. cbn. split_and!; [done|done| |done]. apply conforms_bool. by apply kind_index_inj.
  - apply visit_integer_ok; [by apply kind_index_inj|done].
  - apply visit_number_ok; [by apply kind_index_inj|done].
  - apply visit_string_ok; [by apply kind_index_inj|done].
  - assert (kind s = Array) as Hk' by (by apply kind_index_inj).
    destruct (built_item s Hb Hk') as (i & Hi & Hbi). cbn [lua_nodes].
    destruct ((len l <? minimumItems s) || (maximumItems s <? len l)) eqn:Hlen.
    { apply outcome_here. left. apply offends_here, misfit_array; [done|]. unfold bounded_array.
      apply orb_true_iff in Hlen as [?%N.ltb_lt|?%N.ltb_lt]; lia. }
    apply orb_false_iff in Hlen as [H1%N.ltb_ge H2%N.ltb_ge]. apply outcome_entered.
    eapply outcome_iff; [|eapply outcome_weaken;
      [|apply (visit_items_ok s i l 0 (set_visited (visitedNodes w + 1) w)); [done| |done]]].
    + split; [intros H; by apply (conforms_array s i)|].
      inversion 1 as [| | | |? j ? ? Hj ? Hall|]; subst. by assert (j = i) as -> by congruence.
    + intros p c (n & v & q & Hv & -> & Hq). rewrite N.add_0_l. by eapply offends_item.
    + cbn in Ht. rewrite forallb_forall in Ht. rewrite Forall_forall in IH.
      apply Forall_forall. intros v Hv w'. apply IH; [done| |done]. by apply Ht, list_elem_of_In.
  - assert (kind s = Object) as Hk' by (by apply kind_index_inj). cbn [lua_nodes].
    cbn in Ht. apply andb_true_iff in Ht as [Hs%bool_decide_eq_true Ht].
    destruct (existsb long_key m) eqn:Hkey.
    { apply existsb_exists in Hkey as ([k v] & Hv%list_elem_of_In & Hl%N.ltb_lt).
      apply outcome_here. left. by eapply offends_here, misfit_key. }
    apply outcome_entered.
    eapply outcome_iff; [by apply fields_fit_conforms|eapply outcome_weaken;
      [intros p c; by apply fields_offend_offends|]].
    apply (visit_fields_ok m (fields s) (set_visited (visitedNodes w + 1) w)); [|done|
      apply (built_sound s Hb)|apply (built_parts s Hb)|done].
    rewrite forallb_forall in Ht. rewrite Forall_forall in IH.
    apply Forall_forall. intros e He s' w' Hb'. apply IH; [done| |done]. by apply Ht, list_elem_of_In.
Qed.

(** ** The theorems *)

(** C37. Validation accepts exactly the values that conform to the schema and
    have no more nodes than allowed; it never throws. *)
Theorem validate_iff_conforms s v :
  built s → lua_typed v = true →
  (validate_lua_value s v = Ok None ↔ conforms s v ∧ lua_nodes v <= LuaMaxValueNodes) ∧
  ∃ e, validate_lua_value s v = Ok e.
Proof.
  intros Hb Ht. unfold validate_lua_value. pose proof (visit_ok v s (MkWalk None 0 "") Ht Hb) as Ho.
  destruct (visit s v _) as [x w]. unfold outcome in Ho. cbn [fst snd visitedNodes] in Ho.
  destruct Ho as [(-> & -> & Hc & Hn)|(-> & p & c & m & Hp & ->)].
  - split; [|by eexists]. by split.
  - split; [|by eexists]. split; [done|]. intros [Hc Hn]. exfalso.
    destruct Hp as [Hp|[_ Hp]]; [|lia]. by eapply offends_not_conforms.
Qed.


(** ** Values for the lamp *)

Definition lamp_value : LuaValue :=
  LTable [("level", LInteger 40); ("mode", LString "blink")].
Definition wrong_lamp : LuaValue :=
  LTable [("level", LInteger 40); ("mode", LString "blink");
          ("the tags", LArray [LString "steady"; LString "dance"])].

Lemma validate_iff_conforms_witness :
  validate_lua_value lamp_schema lamp_value = Ok None ∧ conforms lamp_schema lamp_value.
Proof.
  split; [by vm_compute|].
  apply (validate_iff_conforms lamp_schema lamp_value lamp_built eq_refl). by vm_compute.
Defined.

