(* ===== verification/LuaManifest.v ===== *)
(** * Capability manifests
    (include/liquid/scripting/LuaCapabilityManifest.hpp,
     src/scripting/LuaCapabilityManifest.cpp, and the limits of
     LuaBehaviorRunner.hpp)

    A builder collects the capabilities of one capture and charges each against
    the ceilings of the whole manifest, so a caller gets one complete manifest
    or one error. *)
From S2P Require Import Prelude OrderedMap Values Ids Components LuaSchema.

Definition LuaManifestMaxCapabilities : N := 128.
Definition LuaManifestMaxDescriptionBytes : N := 65536.
Definition LuaManifestMaxLogicalBytes : N := 1024 * 1024.
Definition LuaMaxAccessExpressionBytes : N := 4096.
Definition LuaMaxManifestDiagnosticBytes : N := 4096.
Definition LuaAuthoringContract : string := "liquid.lua.authoring/1".

Record LuaExecutionLimits := MkExecutionLimits {
  maxSourceBytes : N; maxMemoryBytes : N; maxInstructions : N; maxDiagnosticBytes : N;
  maxCreatedIntents : N; maxCancelledIntents : N; maxWatches : N; maxTableDepth : N;
  maxTableEntries : N; limit_maxStringBytes : N; maxBufferedValueBytes : N;
  recordFullSource : bool
}.
Definition default_limits : LuaExecutionLimits :=
  MkExecutionLimits (64 * 1024) (8 * 1024 * 1024) 100000 (4 * 1024) 64 64 64 16 4096 (64 * 1024)
    (8 * 1024 * 1024) true.

Record LuaManifestCapability := MkCapability {
  scriptTypeName : string;
  componentName : string;
  accessExpression : string;
  mode : ComponentAccessMode;
  cap_description : string;
  readSchema : option LuaValueSchema;
  readValue : option LuaValue;
  writeSchema : option LuaValueSchema
}.
Definition set_expression e (c : LuaManifestCapability) : LuaManifestCapability :=
  MkCapability (scriptTypeName c) (componentName c) e (mode c) (cap_description c) (readSchema c)
    (readValue c) (writeSchema c).

(** [LuaManifestCapture::Entry] *)
Record Entry := MkEntry {
  bindingIndex : N;
  entry_type : ComponentTypeId;
  entry_slot : ComponentSlotId
}.

Inductive LuaManifestCaptureKind := BehaviorCapture | ProspectiveScope.

Record LuaManifestCapture := MkCapture {
  captureKind : LuaManifestCaptureKind;
  worldInstance : N;
  behaviorId : BehaviorId;
  capture_accessRevision : N;
  runnerId : N;
  effectiveLimits : LuaExecutionLimits;
  capturedEntries : list Entry
}.
Definition new_behavior_capture (world : N) (behavior : BehaviorId) (revision runner : N)
    (limits : LuaExecutionLimits) : LuaManifestCapture :=
  MkCapture BehaviorCapture world behavior revision runner limits [].
Definition new_scope_capture (world runner : N) (limits : LuaExecutionLimits)
  : LuaManifestCapture :=
  MkCapture ProspectiveScope world (MkHandle 0 0 0) 0 runner limits [].
Definition set_entries l (c : LuaManifestCapture) : LuaManifestCapture :=
  MkCapture (captureKind c) (worldInstance c) (behaviorId c) (capture_accessRevision c)
    (runnerId c) (effectiveLimits c) l.

Inductive LuaManifestErrorCode :=
| InvalidBehavior | SnapshotUnavailable | SchemaMismatch | LimitExceeded | HostError | InvalidGrant.
#[export] Instance LuaManifestErrorCode_eq_dec : EqDecision LuaManifestErrorCode.
Proof. solve_decision. Defined.

Record LuaManifestError := MkManifestError {
  manifest_code : LuaManifestErrorCode;
  manifest_diagnostic : string
}.

Record LuaCapabilityManifest := MkManifest {
  nowMs : IntentTime;
  manifest_entries : list LuaManifestCapability;
  captureData : LuaManifestCapture;
  manifest_logicalBytes : N
}.

(** ** The logical payload *)

Definition limit_error (text : string) : LuaManifestError :=
  let d := "Lua capability manifest: " +:+ text in
  MkManifestError LimitExceeded
    (if LuaMaxManifestDiagnosticBytes <? slen d
     then String.substring 0 (N.to_nat (LuaMaxManifestDiagnosticBytes - 3)) d +:+ "..."
     else d).
Definition logical_limit_error : LuaManifestError :=
  limit_error "manifest exceeds 1 MiB logical bytes".

Definition quoted (s : string) : string := String quote (s +:+ String quote "").
Definition authoring_notes : list string :=
  ["Each run executes in a fresh Lua VM; no state persists between runs.";
   "The host fixes the owner behavior and the time (now_ms); scripts cannot choose either.";
   "Lifecycle callbacks must use named proposals (a stable `name`).";
   "Proposal lifetime is persistent by default (`lifetime = " +:+ quoted "persistent" +:+ "`) " +:+
     "or lasts until now_ms + `duration_ms` (until-time).";
   "An accepted proposal is not a claim of physical success.";
   "Lua keeps integer and float distinct: 1 is an Integer and 1.0 is a Number.";
   "A literal {} is an Object. Host-encoded arrays keep a private array marker and " +:+
     "round-trip unchanged, but Lua has no constructor for a new empty array."].

Definition LogicalScalarBytes : N := 8.
Definition LogicalFlagBytes : N := 1.
Definition LogicalElementBytes : N := 8.
Definition ManifestFields : N := 5.
Definition LimitSizeFields : N := 11.
Definition LimitFlagFields : N := 1.
Definition CapabilityFields : N := 8.
Definition CapabilityOptionalFields : N := 3.
Definition CapabilityFixedBytes : N :=
  LogicalElementBytes + CapabilityFields * LogicalElementBytes + LogicalScalarBytes +
  CapabilityOptionalFields * LogicalFlagBytes.

Definition manifest_fixed_bytes : N :=
  foldl (λ bytes note, bytes + (LogicalElementBytes + slen note))
    (ManifestFields * LogicalElementBytes + slen LuaAuthoringContract + LogicalScalarBytes +
     (LimitSizeFields + LimitFlagFields) * LogicalElementBytes +
     LimitSizeFields * LogicalScalarBytes + LimitFlagFields * LogicalFlagBytes)
    authoring_notes.

(** [nodes] and the [LogicalBudget], which are passed by reference. *)
Record Counting := MkCounting { nodes : N; used : N }.

(** [LogicalBudget::add] *)
Definition budget_add (bytes : N) : stm Counting bool :=
  c ← sget;
  if wrap 64 (LuaManifestMaxLogicalBytes + 2 ^ 64 - used c) <? bytes then mret false
  else sput (MkCounting (nodes c) (used c + bytes));; mret true.

(** A loop that returns the first error. *)
Section FirstError.
Context {S A E : Type} (body : A → stm S (option E)).

Fixpoint first_error (l : list A) : stm S (option E) :=
  match l with
  | [] => mret None
  | x :: l =>
      e ← body x;
      match e with
      | Some e => mret (Some e)
      | None => first_error l
      end
  end.
End FirstError.

(** [if (!budget.add(bytes)) return logical_limit_error();] *)
Definition charge (bytes : N) : stm Counting (option LuaManifestError) :=
  fits ← budget_add bytes;
  mret (if (fits : bool) then None else Some logical_limit_error).

Fixpoint count_value (v : LuaValue) : stm Counting (option LuaManifestError) :=
  c ← sget;
  sput (MkCounting (nodes c + 1) (used c));;
  if LuaMaxValueNodes <? nodes c + 1
  then mret (Some (limit_error "manifest exceeds 16384 copied value nodes"))
  else match v with
  | LArray items =>
      first_error (λ v,
        e ← charge LogicalElementBytes;
        match e with Some e => mret (Some e) | None => count_value v end) items
  | LTable table =>
      first_error (λ entry : string * LuaValue,
        e ← first_error charge [LogicalElementBytes; slen entry.1];
        match e with Some e => mret (Some e) | None => count_value entry.2 end) table
  | LBool _ => charge LogicalFlagBytes
  | LString text => charge (slen text)
  | LInteger _ | LNumber _ => charge LogicalScalarBytes
  end.

(** ** [class LuaCapabilityManifest::Builder] *)

Record Builder := MkBuilder {
  builder_now : IntentTime;
  builder_capture : LuaManifestCapture;
  items : list (LuaManifestCapability * Entry);
  valueNodes : N;
  descriptionBytes : N;
  logicalBytes : N
}.

Definition new_Builder (now : IntentTime) (capture : LuaManifestCapture) : Builder :=
  MkBuilder now capture [] 0 0 manifest_fixed_bytes.

Definition access_expression (c : LuaManifestCapability) : string :=
  "access" +:+ lua_index_segment (scriptTypeName c) +:+ lua_index_segment (componentName c).

(** [descriptions] and the two sizes of schemas *)
Definition capability_descriptions (c : LuaManifestCapability) : N :=
  let size s := match s with Some s => LuaSchema.descriptionBytes s | None => 0 end in
  wrap 64 (slen (cap_description c) + size (readSchema c) + size (writeSchema c)).
Definition schema_bytes (s : option LuaValueSchema) : N :=
  match s with Some s => LuaSchema.logicalBytes s | None => 0 end.

(** [if (c) return limit_error(text);] *)
Definition refuse_if (c : bool) (text : string) (k : stm Builder (option LuaManifestError))
  : stm Builder (option LuaManifestError) :=
  if c then mret (Some (limit_error text)) else k.

Definition add (c : LuaManifestCapability) (entry : Entry)
  : stm Builder (option LuaManifestError) :=
  b ← sget;
  refuse_if (LuaMaxNameBytes <? slen (scriptTypeName c)) "script type name exceeds 256 bytes" (
  refuse_if (LuaMaxNameBytes <? slen (componentName c)) "component name exceeds 256 bytes" (
  refuse_if (LuaManifestMaxCapabilities <=? len (items b)) "manifest exceeds 128 capabilities" (
  let expression := access_expression c in
  refuse_if (LuaMaxAccessExpressionBytes <? slen expression)
    "access expression exceeds 4096 bytes" (
  let '(counted, budget) :=
    match readValue c with
    | Some v => count_value v (MkCounting (valueNodes b) (logicalBytes b))
    | None => (Ok None, MkCounting (valueNodes b) (logicalBytes b))
    end in
  e ← slift counted;
  match e with
  | Some e => mret (Some e)
  | None =>
      let descriptions := capability_descriptions c in
      refuse_if (LuaManifestMaxDescriptionBytes -
                 N.min (descriptionBytes b) LuaManifestMaxDescriptionBytes <? descriptions)
        "manifest descriptions exceed 65536 bytes" (
      let '(charged, budget) := first_error charge
        [CapabilityFixedBytes; slen (scriptTypeName c); slen (componentName c); slen expression;
         slen (cap_description c); schema_bytes (readSchema c); schema_bytes (writeSchema c)]
        budget in
      e ← slift charged;
      match e with
      | Some e => mret (Some e)
      | None =>
          sput (MkBuilder (builder_now b) (builder_capture b)
            (items b ++ [(set_expression expression c, entry)])
            (nodes budget) (wrap 64 (descriptionBytes b + descriptions)) (used budget));;
          mret None
      end)
  end)))).

(** [std::stable_sort] by the two names *)
Definition capability_lt (a b : LuaManifestCapability) : bool :=
  if String.eqb (scriptTypeName a) (scriptTypeName b)
  then bool_decide (str_lt (componentName a) (componentName b))
  else bool_decide (str_lt (scriptTypeName a) (scriptTypeName b)).
Fixpoint insert_stable (x : LuaManifestCapability * Entry)
    (l : list (LuaManifestCapability * Entry)) : list (LuaManifestCapability * Entry) :=
  match l with
  | [] => [x]
  | y :: l => if capability_lt y.1 x.1 then y :: insert_stable x l else x :: y :: l
  end.
Definition stable_sort : list (LuaManifestCapability * Entry) →
    list (LuaManifestCapability * Entry) := foldr insert_stable [].

Definition LuaManifestResult : Type := (LuaCapabilityManifest + LuaManifestError)%type.

Definition finish : stm Builder LuaManifestResult :=
  b ← sget;
  let sorted := stable_sort (items b) in
  sput (MkBuilder (builder_now b) (builder_capture b) [] (valueNodes b) (descriptionBytes b)
    (logicalBytes b));;
  mret (inl (MkManifest (builder_now b) (map fst sorted)
    (set_entries (map snd sorted) (builder_capture b)) (logicalBytes b))).

(** [LuaManifestResult::ok], [manifest] and [error] *)
Definition result_ok (r : LuaManifestResult) : bool := match r with inl _ => true | inr _ => false end.
Definition result_manifest (r : LuaManifestResult) : res LuaCapabilityManifest :=
  match r with
  | inl m => Ok m
  | inr _ => throw logic_error "Lua capability manifest capture failed"
  end.
Definition result_error (r : LuaManifestResult) : res LuaManifestError :=
  match r with
  | inl _ => throw logic_error "Lua capability manifest capture succeeded"
  | inr e => Ok e
  end.
