(* ===== verification/LuaManifestSpec.v ===== *)
(** * What capability manifests promise

    A capability is admitted exactly when the whole manifest stays within its
    ceilings, a refused one leaves the builder as it was, and the manifest lists
    what was admitted, sorted and under access expressions of their own. *)
From S2P Require Import Prelude OrderedMap Values Ids Components LuaSchema LuaSchemaSpec LuaSegments LuaValidation LuaManifest.

(** ** The payload of a value, as the contract counts it *)

Fixpoint value_bytes (v : LuaValue) : N :=
  match v with
  | LBool _ => 1
  | LInteger _ | LNumber _ => 8
  | LString text => slen text
  | LArray l => sum_of (λ v, 8 + value_bytes v) l
  | LTable m => sum_of (λ e, 8 + slen e.1 + value_bytes e.2) m
  end.

Definition within (c : Counting) : Prop :=
  nodes c <= LuaMaxValueNodes ∧ used c <= LuaManifestMaxLogicalBytes.

(** A computation that adds [n] nodes and [b] bytes, or fails because they do
    not fit. *)
Definition counts (n b : N) (m : stm Counting (option LuaManifestError)) : Prop :=
  ∀ c, within c →
  let c' := MkCounting (nodes c + n) (used c + b) in
  m c = (Ok None, c') ∧ within c' ∨
  (∃ text, (m c).1 = Ok (Some (limit_error text))) ∧ ¬ within c'.

Lemma counts_charge b : counts 0 b (charge b).
Proof.
  intros c [Hn Hu]. unfold charge, budget_add, mbind, stm_bind, sget. rewrite N.add_0_r.
  assert (wrap 64 (LuaManifestMaxLogicalBytes + 2 ^ 64 - used c) = LuaManifestMaxLogicalBytes - used c) as ->.
  { unfold wrap, LuaManifestMaxLogicalBytes in *.
    replace (1024 * 1024 + 2 ^ 64 - used c) with (1024 * 1024 - used c + 1 * 2 ^ 64) by lia.
    rewrite N.Div0.mod_add. apply N.mod_small. lia. }
  destruct (N.ltb_spec (LuaManifestMaxLogicalBytes - used c) b) as [Hb|Hb].
  - right. split; [by eexists|]. intros [_ H]. cbn in H. lia.
  - left. split; [done|]. split; cbn; lia.
Qed.

Lemma counts_bind n1 b1 n2 b2 (m1 m2 : stm Counting (option LuaManifestError)) :
  counts n1 b1 m1 → counts n2 b2 m2 →
  counts (n1 + n2) (b1 + b2)
    (e ← m1; match e with Some e => mret (Some e) | None => m2 end).
Proof.
  intros H1 H2 c Hc. unfold mbind, stm_bind. rewrite !N.add_assoc.
  destruct (H1 c Hc) as [[-> Hw]|[[text Ht] Hw]].
  - destruct (H2 _ Hw) as [[-> Hw2]|[[text Ht] Hw2]]; [by left|right]. split; [by exists text|done].
  - right. destruct (m1 c) as [x c1]. cbn in Ht. subst x. split; [by exists text|].
    intros [Ha Hb]. apply Hw. cbn in *. split; cbn; lia.
Qed.

Lemma counts_first_error {A} (body : A → stm Counting (option LuaManifestError)) (n b : A → N) l :
  (∀ x, x ∈ l → counts (n x) (b x) (body x)) →
  counts (sum_of n l) (sum_of b l) (first_error body l).
Proof.
  induction l as [|x l IH]; intros Hb.
  - intros c Hc. left. cbn. rewrite !N.add_0_r. by destruct c.
  - rewrite !sum_of_cons. cbn [first_error]. apply counts_bind; [apply Hb; by left|].
    apply IH. intros y Hy. apply Hb. by right.
Qed.

Lemma counts_charges l : counts 0 (sum_of id l) (first_error charge l).
Proof.
  rewrite <-(sum_of_zero l). apply counts_first_error. intros x _. apply counts_charge.
Qed.

(** One more node before the rest. *)
Lemma counts_node n b (m : stm Counting (option LuaManifestError)) :
  counts n b m →
  counts (1 + n) b (c ← sget; sput (MkCounting (nodes c + 1) (used c));;
    if LuaMaxValueNodes <? nodes c + 1
    then mret (Some (limit_error "manifest exceeds 16384 copied value nodes")) else m).
Proof.
  intros Hm c [Hn Hu]. unfold mbind, stm_bind, sget, sput. rewrite N.add_assoc.
  destruct (N.ltb_spec LuaMaxValueNodes (nodes c + 1)) as [Hl|Hl].
  - right. split; [by eexists|]. intros [H _]. cbn in H. lia.
  - apply (Hm (MkCounting (nodes c + 1) (used c))). by split.
Qed.

Lemma counts_value v : counts (lua_nodes v) (value_bytes v) (count_value v).
Proof.
  induction v as [b|z|d|text|l IH|m IH] using LuaValue_ind'.
  - apply (counts_node 0), counts_charge.
  - apply (counts_node 0), counts_charge.
  - apply (counts_node 0), counts_charge.
  - apply (counts_node 0), counts_charge.
  - apply (counts_node (sum_of lua_nodes l)). apply counts_first_error. intros v Hv.
    rewrite Forall_forall in IH. apply (counts_bind 0); [apply counts_charge|by apply IH].
  - apply (counts_node (sum_of (λ e, lua_nodes e.2) m)). apply counts_first_error. intros e He.
    rewrite Forall_forall in IH. apply (counts_bind 0); [|by apply IH].
    replace (8 + slen e.1) with (sum_of id [LogicalElementBytes; slen e.1]); [apply counts_charges|].
    cbn. unfold LogicalElementBytes, id. lia.
Qed.

(** ** What one capability adds *)

Definition read_nodes (c : LuaManifestCapability) : N :=
  match readValue c with Some v => lua_nodes v | None => 0 end.
Definition read_bytes (c : LuaManifestCapability) : N :=
  match readValue c with Some v => value_bytes v | None => 0 end.
Definition schema_descriptions (s : option LuaValueSchema) : N :=
  match s with Some s => LuaSchema.descriptionBytes s | None => 0 end.
Definition descriptions_of (c : LuaManifestCapability) : N :=
  slen (cap_description c) + schema_descriptions (readSchema c) + schema_descriptions (writeSchema c).
Definition bytes_of (c : LuaManifestCapability) : N :=
  read_bytes c + (CapabilityFixedBytes + slen (scriptTypeName c) + slen (componentName c) +
  slen (access_expression c) + slen (cap_description c) + schema_bytes (readSchema c) +
  schema_bytes (writeSchema c)).

Lemma read_bytes_le c : read_bytes c <= bytes_of c.
Proof. unfold bytes_of. lia. Qed.

(** The same over all capabilities admitted so far. *)
Definition total (f : LuaManifestCapability → N) (l : list (LuaManifestCapability * Entry)) : N :=
  sum_of (λ x, f x.1) l.

(** What the types and the factories of schemas guarantee. *)
Record typed_capability (c : LuaManifestCapability) : Prop := {
  tc_description : slen (cap_description c) < 2 ^ 63;
  tc_read : ∀ s, readSchema c = Some s → built s;
  tc_write : ∀ s, writeSchema c = Some s → built s
}.

Lemma capability_descriptions_eq c :
  typed_capability c → capability_descriptions c = descriptions_of c.
Proof.
  intros [Hd Hr Hw]. unfold capability_descriptions, descriptions_of, schema_descriptions, wrap.
  assert (∀ o, (∀ s, o = Some s → built s) →
    match o with Some s => LuaSchema.descriptionBytes s | None => 0 end <= 2 ^ 22) as Hs.
  { intros [s|] H; [|lia]. destruct (built_sound s (H s eq_refl)) as [[Hsum Hn _ _ Hb _] _].
    injection Hsum as _ _ _ -> _. unfold LuaSchemaMaxNodes, LuaMaxDescriptionBytes in *. lia. }
  pose proof (Hs _ Hr). pose proof (Hs _ Hw). apply N.mod_small. lia.
Qed.

(** The whole manifest with one more capability. *)
Record admissible (l : list (LuaManifestCapability * Entry)) (c : LuaManifestCapability) : Prop := {
  ad_type : slen (scriptTypeName c) <= LuaMaxNameBytes;
  ad_name : slen (componentName c) <= LuaMaxNameBytes;
  ad_count : len l < LuaManifestMaxCapabilities;
  ad_expression : slen (access_expression c) <= LuaMaxAccessExpressionBytes;
  ad_nodes : total read_nodes l + read_nodes c <= LuaMaxValueNodes;
  ad_descriptions : total descriptions_of l + descriptions_of c <= LuaManifestMaxDescriptionBytes;
  ad_bytes : manifest_fixed_bytes + total bytes_of l + bytes_of c <= LuaManifestMaxLogicalBytes
}.

(** ** Builders *)

Record accounted (b : Builder) : Prop := {
  ac_nodes : valueNodes b = total read_nodes (items b) ∧ valueNodes b <= LuaMaxValueNodes;
  ac_descriptions : descriptionBytes b = total descriptions_of (items b) ∧
    descriptionBytes b <= LuaManifestMaxDescriptionBytes;
  ac_bytes : logicalBytes b = manifest_fixed_bytes + total bytes_of (items b) ∧
    logicalBytes b <= LuaManifestMaxLogicalBytes;
  ac_count : len (items b) <= LuaManifestMaxCapabilities;
  ac_expressions : Forall (λ x, accessExpression x.1 = access_expression x.1) (items b)
}.

Definition pushed (c : LuaManifestCapability) (entry : Entry) (b : Builder) : Builder :=
  MkBuilder (builder_now b) (builder_capture b)
    (items b ++ [(set_expression (access_expression c) c, entry)])
    (valueNodes b + read_nodes c) (descriptionBytes b + descriptions_of c)
    (logicalBytes b + bytes_of c).

Lemma total_snoc f l c entry :
  (∀ e, f (set_expression e c) = f c) →
  total f (l ++ [(set_expression (access_expression c) c, entry)]) = total f l + f c.
Proof.
  intros Hf. unfold total. induction l as [|x l IH]; cbn [app]; rewrite !sum_of_cons.
  - cbn. rewrite Hf. lia.
  - rewrite IH. lia.
Qed.

Lemma pushed_accounted c entry b :
  accounted b → admissible (items b) c → accounted (pushed c entry b).
Proof.
  intros [[Hn Hnl] [Hd Hdl] [Hb Hbl] Hc He] [_ _ Ac _ An Ad Ab].
  split; cbn [pushed valueNodes descriptionBytes logicalBytes items]; rewrite ?total_snoc by done; rewrite ?Hn, ?Hd, ?Hb.
  - split; [done|lia].
  - split; [done|lia].
  - split; lia.
  - rewrite len_snoc. lia.
  - apply Forall_app. split; [done|]. by constructor.
Qed.

(** The value of a capability, if it has one. *)
Definition count_read (c : LuaManifestCapability) : stm Counting (option LuaManifestError) :=
  match readValue c with Some v => count_value v | None => mret None end.
Lemma counts_read c : counts (read_nodes c) (read_bytes c) (count_read c).
Proof.
  unfold count_read, read_nodes, read_bytes. destruct (readValue c) as [v|]; [apply counts_value|].
  intros [n u] Hc. left. cbn. rewrite !N.add_0_r. done.
Qed.

(** [add] leaves a refusal without effect. *)
Definition refused (x : res (option LuaManifestError) * Builder) (b : Builder) : Prop :=
  ∃ text, x = (Ok (Some (limit_error text)), b).

Lemma refuse_if_spec (test : bool) text k b (P : res (option LuaManifestError) * Builder → Prop) :
  (test = true → P (Ok (Some (limit_error text)), b)) → (test = false → P (k b)) →
  P (refuse_if test text k b).
Proof. destruct test; cbn; auto. Qed.

Lemma add_spec c entry b :
  accounted b → typed_capability c →
  add c entry b = (Ok None, pushed c entry b) ∧ admissible (items b) c ∨
  refused (add c entry b) b ∧ ¬ admissible (items b) c.
Proof.
  intros [[Hn Hnl] [Hd Hdl] [Hb Hbl] Hc He] Hty. unfold add.
  change ((sget ≫= ?k) b) with (k b b).
  apply refuse_if_spec; [intros H%N.ltb_lt|intros H1%N.ltb_ge].
  { right. split; [by eexists|]. intros [? _ _ _ _ _ _]. lia. }
  apply refuse_if_spec; [intros H%N.ltb_lt|intros H2%N.ltb_ge].
  { right. split; [by eexists|]. intros [_ ? _ _ _ _ _]. lia. }
  apply refuse_if_spec; [intros H%N.leb_le|intros H3%N.leb_gt].
  { right. split; [by eexists|]. intros [_ _ ? _ _ _ _]. lia. }
  apply refuse_if_spec; [intros H%N.ltb_lt|intros H4%N.ltb_ge].
  { right. split; [by eexists|]. intros [_ _ _ ? _ _ _]. lia. }
  assert (within (MkCounting (valueNodes b) (logicalBytes b))) as Hw0 by done.
  pose proof (counts_read c _ Hw0) as Hr. unfold count_read in Hr. cbn [nodes used] in Hr.
  assert ((match readValue c with
    | Some v => count_value v (MkCounting (valueNodes b) (logicalBytes b))
    | None => (Ok None, MkCounting (valueNodes b) (logicalBytes b))
    end) = count_read c (MkCounting (valueNodes b) (logicalBytes b))) as ->
    by (unfold count_read; by destruct (readValue c)).
  fold (count_read c) in Hr.
  destruct Hr as [[-> Hw1]|[[text Ht] Hw1]].
  2:{ destruct (count_read c _) as [x k]. cbn in Ht. subst x. right. split; [by exists text|].
    intros [_ _ _ _ An _ Ab]. apply Hw1. pose proof (read_bytes_le c). split; cbn [nodes used]; lia. }
  unfold slift, mbind, stm_bind. rewrite capability_descriptions_eq by done.
  apply refuse_if_spec; [intros H%N.ltb_lt|intros H5%N.ltb_ge].
  { right. split; [by eexists|]. intros [_ _ _ _ _ Ad _]. lia. }
  pose proof (counts_charges [CapabilityFixedBytes; slen (scriptTypeName c); slen (componentName c);
    slen (access_expression c); slen (cap_description c); schema_bytes (readSchema c);
    schema_bytes (writeSchema c)] _ Hw1) as Hch. cbn [nodes used] in Hch.
  assert (sum_of id [CapabilityFixedBytes; slen (scriptTypeName c); slen (componentName c);
    slen (access_expression c); slen (cap_description c); schema_bytes (readSchema c);
    schema_bytes (writeSchema c)] + read_bytes c = bytes_of c) as Hsum
    by (unfold bytes_of; rewrite !sum_of_cons; unfold id; change (sum_of _ []) with 0; lia).
  destruct Hch as [[-> Hw2]|[[text Ht] Hw2]].
  - left. assert (wrap 64 (descriptionBytes b + descriptions_of c) = descriptionBytes b + descriptions_of c) as Hwrap.
    { apply N.mod_small. unfold LuaManifestMaxDescriptionBytes in *. lia. }
    destruct Hw2 as [Hw2 Hw2']. cbn [nodes used] in *. split; [|split; try done; lia].
    cbn [items builder_now builder_capture nodes used]. unfold sput, mret, stm_ret, pushed.
    rewrite Hwrap. do 2 f_equal; [lia|]. rewrite <-Hsum. lia.
  - destruct (first_error charge _ _) as [x k]. cbn in Ht. subst x. right. split; [by exists text|].
    intros [_ _ _ _ An _ Ab]. apply Hw2. split; cbn [nodes used]; [lia|]. rewrite <-Hsum in Ab. lia.
Qed.

(** Builders between their construction and [finish]. *)
Inductive building : Builder → Prop :=
| building_new now capture : building (new_Builder now capture)
| building_add c entry b :
    typed_capability c → building b → building (add c entry b).2.

Lemma building_accounted b : building b → accounted b.
Proof.
  induction 1 as [now capture|c entry b Hty _ IH].
  - split; cbn [new_Builder valueNodes descriptionBytes logicalBytes items]; [by split|by split| |done|constructor].
    change (total bytes_of []) with 0. split; [lia|by vm_compute].
  - destruct (add_spec c entry b IH Hty) as [[-> Ha]|[[text ->] _]]; [|done].
    by apply pushed_accounted.
Qed.

(** A capability is admitted exactly when the manifest with it stays within
    every ceiling, counted over all it holds; then the totals grow by what it
    adds, and otherwise the builder stays as it was and the error says that a
    limit was exceeded. *)
Theorem add_iff_within_ceilings c entry b :
  building b → typed_capability c →
  add c entry b = (Ok None, pushed c entry b) ∧ admissible (items b) c ∨
  (∃ e, add c entry b = (Ok (Some e), b) ∧ manifest_code e = LimitExceeded) ∧
  ¬ admissible (items b) c.
Proof.
  intros Hb Hty. destruct (add_spec c entry b (building_accounted b Hb) Hty) as [?|[[text ->] Hn]];
    [by left|right]. split; [|done]. by eexists.
Qed.

(** ** The finished manifest *)

Definition capability_le (a b : LuaManifestCapability) : Prop := capability_lt b a = false.

Lemma capability_lt_spec a b :
  capability_lt a b = true ↔
  str_lt (scriptTypeName a) (scriptTypeName b) ∨
  scriptTypeName a = scriptTypeName b ∧ str_lt (componentName a) (componentName b).
Proof.
  unfold capability_lt. destruct (String.eqb_spec (scriptTypeName a) (scriptTypeName b)) as [E|E];
    rewrite bool_decide_eq_true.
  - rewrite E. split; [by right|]. intros [H|[_ H]]; [by apply str_lt_irrefl in H|done].
  - split; [by left|]. intros [H|[? _]]; done.
Qed.

Lemma capability_lt_asym a b : capability_lt a b = true → capability_lt b a = false.
Proof.
  intros H%capability_lt_spec. apply not_true_is_false. intros H'%capability_lt_spec.
  destruct H as [H|[E H]], H' as [H'|[E' H']].
  - by apply (str_lt_asym _ _ H).
  - rewrite E' in H. by apply str_lt_irrefl in H.
  - rewrite E in H'. by apply str_lt_irrefl in H'.
  - by apply (str_lt_asym _ _ H).
Qed.

Lemma capability_le_trans a b c : capability_le a b → capability_le b c → capability_le a c.
Proof.
  unfold capability_le. intros H1 H2. apply not_true_is_false. intros H%capability_lt_spec.
  apply not_true_iff_false in H1, H2. rewrite capability_lt_spec in H1, H2.
  destruct (str_lt_cases (scriptTypeName a) (scriptTypeName b)) as [Hab|[Hab|Hab]]; [|by apply H1; left|];
  destruct (str_lt_cases (scriptTypeName b) (scriptTypeName c)) as [Hbc|[Hbc|Hbc]]; try (by apply H2; left).
  - destruct H as [H|[E _]].
    + eapply str_lt_asym; [exact H|]. by etrans.
    + rewrite E in Hbc. by apply (str_lt_asym _ _ Hab).
  - rewrite Hbc in Hab. destruct H as [H|[E _]]; [by apply (str_lt_asym _ _ H)|].
    rewrite E in Hab. by apply str_lt_irrefl in Hab.
  - rewrite Hab in *. destruct H as [H|[E _]]; [by apply (str_lt_asym _ _ H)|].
    rewrite E in Hbc. by apply str_lt_irrefl in Hbc.
  - rewrite Hab, Hbc in *. destruct H as [H|[_ H]]; [by apply str_lt_irrefl in H|].
    destruct (str_lt_cases (componentName a) (componentName b)) as [Nab|[Nab|Nab]]; [|by apply H1; right|];
    destruct (str_lt_cases (componentName b) (componentName c)) as [Nbc|[Nbc|Nbc]]; try (by apply H2; right).
    + eapply str_lt_asym; [exact H|]. by etrans.
    + rewrite Nbc in Nab. by apply (str_lt_asym _ _ H).
    + rewrite Nab in *. by apply (str_lt_asym _ _ H).
    + rewrite Nab, Nbc in H. by apply str_lt_irrefl in H.
Qed.

Lemma insert_stable_permutation x l : insert_stable x l ≡ₚ x :: l.
Proof.
  induction l as [|y l IH]; cbn; [done|]. destruct (capability_lt y.1 x.1); [|done].
  rewrite IH. apply Permutation_swap.
Qed.
Lemma stable_sort_permutation l : stable_sort l ≡ₚ l.
Proof.
  unfold stable_sort. induction l as [|x l IH]; cbn; [done|]. by rewrite insert_stable_permutation, IH.
Qed.

Definition item_le (a b : LuaManifestCapability * Entry) : Prop := capability_le a.1 b.1.
Lemma insert_stable_sorted x l :
  StronglySorted item_le l → StronglySorted item_le (insert_stable x l).
Proof.
  induction 1 as [|y l Hl IH Hy]; cbn; [by repeat constructor|].
  destruct (capability_lt y.1 x.1) eqn:E.
  - constructor; [done|]. rewrite insert_stable_permutation. constructor; [|done].
    unfold item_le, capability_le. by apply capability_lt_asym.
  - constructor; [by constructor|]. constructor; [done|].
    eapply Forall_impl; [exact Hy|]. intros z. unfold item_le. by apply capability_le_trans.
Qed.
Lemma stable_sort_sorted l : StronglySorted item_le (stable_sort l).
Proof.
  unfold stable_sort. induction l as [|x l IH]; cbn; [constructor|]. by apply insert_stable_sorted.
Qed.

Lemma string_app_inj (a b c : string) : a +:+ b = a +:+ c → b = c.
Proof. induction a as [|x a IH]; [done|]. intros E. apply IH. by injection E. Qed.

Lemma access_expression_inj a b :
  access_expression a = access_expression b →
  scriptTypeName a = scriptTypeName b ∧ componentName a = componentName b.
Proof.
  intros E. unfold access_expression, lua_index_segment in E. apply string_app_inj in E.
  assert (render_path [scriptTypeName a; componentName a] =
          render_path [scriptTypeName b; componentName b]) as Hp.
  { cbn [render_path foldr]. by rewrite !string_app_nil_r. }
  apply render_path_inj in Hp. by injection Hp.
Qed.

(** A finished manifest lists every admitted capability once, sorted by
    script type and component, next to the entry of its capture; a capability's
    access expression addresses its names and no others; and the size it
    reports is that of its contents, within the ceiling. *)
Theorem manifest_complete b :
  building b →
  ∃ m b', finish b = (Ok (inl m), b') ∧
    zip (manifest_entries m) (capturedEntries (captureData m)) ≡ₚ items b ∧
    StronglySorted capability_le (manifest_entries m) ∧
    (∀ c, c ∈ manifest_entries m → accessExpression c = access_expression c) ∧
    (∀ c d, c ∈ manifest_entries m → d ∈ manifest_entries m →
       accessExpression c = accessExpression d →
       scriptTypeName c = scriptTypeName d ∧ componentName c = componentName d) ∧
    manifest_logicalBytes m = manifest_fixed_bytes + sum_of bytes_of (manifest_entries m) ∧
    manifest_logicalBytes m <= LuaManifestMaxLogicalBytes.
Proof.
  intros Hb. destruct (building_accounted b Hb) as [_ _ [Hl Hmax] _ He].
  exists (MkManifest (builder_now b) (map fst (stable_sort (items b)))
    (set_entries (map snd (stable_sort (items b))) (builder_capture b)) (logicalBytes b)),
    (finish b).2.
  split; [reflexivity|].
  cbn [manifest_entries captureData capturedEntries set_entries manifest_logicalBytes].
  pose proof (stable_sort_permutation (items b)) as Hp. pose proof (stable_sort_sorted (items b)) as Hs.
  set (l := stable_sort (items b)) in *. clearbody l.
  assert (∀ c, c ∈ map fst l → accessExpression c = access_expression c) as Hx.
  { intros c (x & -> & Hin)%list_elem_of_fmap. rewrite Hp in Hin. rewrite Forall_forall in He. by apply He. }
  split_and!; try done.
  - replace (zip (map fst l) (map snd l)) with l; [done|]. clear. induction l as [|[c e] l IH]; cbn; [done|]. by f_equal.
  - clear -Hs. induction Hs as [|x l _ IH Hx]; cbn; constructor; [done|]. by rewrite Forall_map.
  - intros c d Hc Hd. rewrite (Hx c Hc), (Hx d Hd). apply access_expression_inj.
  - rewrite Hl. f_equal. clear -Hp. unfold total. rewrite <-Hp. clear Hp.
    induction l as [|x l IH]; [done|]. cbn [map]. by rewrite !sum_of_cons, IH.
Qed.

(** ** A manifest with two lamps *)

Definition lamp_capability (name : string) : LuaManifestCapability :=
  MkCapability "Light" name "" ReadWrite "a lamp" (Some lamp_schema) (Some lamp_value)
    (Some lamp_schema).
Definition lamp_builder : Builder :=
  new_Builder 5 (new_scope_capture 1 2 default_limits).
Definition two_lamps : Builder :=
  (add (lamp_capability "desk") (MkEntry 0 3 (MkHandle 1 0 0))
    (add (lamp_capability "while") (MkEntry 1 3 (MkHandle 1 1 0)) lamp_builder).2).2.

Lemma lamp_capability_typed name : typed_capability (lamp_capability name).
Proof. split; [done|..]; intros s [= <-]; apply lamp_built. Qed.
Lemma two_lamps_building : building two_lamps.
Proof. repeat first [apply building_add; [apply lamp_capability_typed|]|apply building_new]. Qed.

Lemma add_iff_within_ceilings_witness :
  add (lamp_capability "hall") (MkEntry 2 3 (MkHandle 1 2 0)) two_lamps =
    (Ok None, pushed (lamp_capability "hall") (MkEntry 2 3 (MkHandle 1 2 0)) two_lamps) ∧
  valueNodes (pushed (lamp_capability "hall") (MkEntry 2 3 (MkHandle 1 2 0)) two_lamps) = 9.
Proof.
  split; [|by vm_compute].
  destruct (add_iff_within_ceilings (lamp_capability "hall") (MkEntry 2 3 (MkHandle 1 2 0)) two_lamps
    two_lamps_building (lamp_capability_typed _)) as [[H _]|[(e & H & _) _]]; [exact H|].
  exfalso. revert H. by vm_compute.
Defined.

Lemma manifest_complete_witness :
  ∃ m b', finish two_lamps = (Ok (inl m), b') ∧
    map accessExpression (manifest_entries m) =
      ["access.Light.desk"; "access.Light" +:+ render_index_segment "while"] ∧
    StronglySorted capability_le (manifest_entries m).
Proof.
  destruct (manifest_complete two_lamps two_lamps_building) as (m & b' & H & _ & Hs & _).
  exists m, b'. split; [done|]. split; [|done].
  unfold finish in H. vm_compute in H. injection H as <- _. by vm_compute.
Defined.
