(* ===== verification/LuaLimits.v ===== *)
(** * The limits of a runner on the values it copies
    (src/scripting/LuaBehaviorRunner.cpp: [consume_buffered_bytes],
     [measure_lua_value], [schema_worst_case], [validate_schema_against_limits])

    A runner refuses, when a type is described to it, a schema that admits values
    too large to copy, and measures every value it copies.  The theorem of this
    file says that the first makes the second succeed. *)
From S2P Require Import Prelude OrderedMap Values LuaSchema LuaSchemaSpec LuaValidation LuaManifest.

Section Limits.
(** [sizeof(LuaValue)], which the compiler chooses *)
Context (size_of_LuaValue : N).

(** ** Measuring a value *)

(** [entries] and [bufferedBytes], which are passed by reference. *)
Record Measured := MkMeasured { measured_entries : N; bufferedBytes : N }.

(** [throw ExecutionFailure(LuaExecutionStatus::HostError, message)], a
    [std::runtime_error]; all failures of this file have that status. *)
Definition execution_failure {A} (message : string) : stm Measured A :=
  sthrow runtime_error message.

Definition consume_buffered_bytes (amount limit : N) (diagnostic : string) : stm Measured unit :=
  m ← sget;
  if (limit <? amount) || (limit - amount <? bufferedBytes m) then execution_failure diagnostic
  else sput (MkMeasured (measured_entries m) (bufferedBytes m + amount)).

Definition count_entry (limits : LuaExecutionLimits) : stm Measured unit :=
  m ← sget;
  let entries := wrap 64 (measured_entries m + 1) in
  sput (MkMeasured entries (bufferedBytes m));;
  if maxTableEntries limits <? entries
  then execution_failure "encoded component exceeds table entry limit" else mret tt.

Section Loop.
Context {S A : Type} (body : A → stm S unit).
Fixpoint each (l : list A) : stm S unit :=
  match l with
  | [] => mret tt
  | x :: l => body x;; each l
  end.
End Loop.

Fixpoint measure_lua_value (limits : LuaExecutionLimits) (v : LuaValue) (depth : N)
  : stm Measured unit :=
  let consume amount := consume_buffered_bytes amount (maxBufferedValueBytes limits)
    "encoded components exceed buffered data limit" in
  if maxTableDepth limits <? depth
  then execution_failure "encoded component exceeds table depth limit"
  else
    consume size_of_LuaValue;;
    match v with
    | LString text =>
        if limit_maxStringBytes limits <? slen text
        then execution_failure "encoded component exceeds string size limit"
        else consume (slen text)
    | LArray l =>
        each (λ child,
          count_entry limits;;
          measure_lua_value limits child (depth + 1)) l
    | LTable m =>
        each (λ entry : string * LuaValue,
          if limit_maxStringBytes limits <? slen entry.1
          then execution_failure "encoded component key exceeds string size limit"
          else
            count_entry limits;;
            consume (slen entry.1);;
            measure_lua_value limits entry.2 (depth + 1)) m
    | _ => mret tt
    end.

(** ** The largest value of a schema *)

Definition checked_metadata_add (left right : N) : res N :=
  reject_if (u64_max - left <? right) invalid_argument
    "Lua binding metadata worst-case totals overflow";;
  Ok (left + right).
Definition checked_metadata_multiply (left right : N) : res N :=
  reject_if (negb (left =? 0) && (u64_max / left <? right)) invalid_argument
    "Lua binding metadata worst-case totals overflow";;
  Ok (left * right).

Record SchemaWorstCase := MkWorst {
  worst_entries : N;
  worst_bufferedBytes : N;
  worst_stringBytes : N
}.
Definition new_SchemaWorstCase : SchemaWorstCase := MkWorst 0 size_of_LuaValue 0.

(** What the loop over the fields does with one of them. *)
Definition add_field_worst (worst : SchemaWorstCase) (name : string) (child : SchemaWorstCase)
  : res SchemaWorstCase :=
  more ← checked_metadata_add 1 (worst_entries child);
  entries ← checked_metadata_add (worst_entries worst) more;
  bytes ← checked_metadata_add (slen name) (worst_bufferedBytes child);
  buffered ← checked_metadata_add (worst_bufferedBytes worst) bytes;
  Ok (MkWorst entries buffered
    (N.max (N.max (worst_stringBytes worst) (slen name)) (worst_stringBytes child))).

Fixpoint schema_worst_case (s : LuaValueSchema) : res SchemaWorstCase :=
  let worst := new_SchemaWorstCase in
  match kind s with
  | String_ =>
      bytes ← checked_metadata_add (worst_bufferedBytes worst) (maximumBytes s);
      Ok (MkWorst 0 bytes (maximumBytes s))
  | Array =>
      match item_ s with
      | None => throw logic_error "undefined behaviour: empty optional"
      | Some i =>
          item ← schema_worst_case i;
          each ← checked_metadata_add 1 (worst_entries item);
          entries ← checked_metadata_multiply (maximumItems s) each;
          bytes ← checked_metadata_multiply (maximumItems s) (worst_bufferedBytes item);
          buffered ← checked_metadata_add (worst_bufferedBytes worst) bytes;
          Ok (MkWorst entries buffered (worst_stringBytes item))
      end
  | Object =>
      rfold (λ worst f,
        child ← schema_worst_case (field_schema f);
        add_field_worst worst (field_name f) child) (fields s) worst
  | _ => Ok worst
  end.

Definition validate_schema_against_limits (s : LuaValueSchema) (limits : LuaExecutionLimits)
    (role : string) : res unit :=
  let prefix := "Lua binding " +:+ role +:+ " schema " in
  reject_if (maxTableDepth limits <? containerDepth s) invalid_argument
    (prefix +:+ "exceeds the runner table depth limit");;
  worst ← schema_worst_case s;
  reject_if (maxTableEntries limits <? worst_entries worst) invalid_argument
    (prefix +:+ "exceeds the runner table entry limit");;
  reject_if (limit_maxStringBytes limits <? worst_stringBytes worst) invalid_argument
    (prefix +:+ "exceeds the runner string size limit");;
  reject_if (maxBufferedValueBytes limits <? worst_bufferedBytes worst) invalid_argument
    (prefix +:+ "exceeds the runner buffered data limit").

(** ** The worst case, part by part *)

Definition worst_of (s : LuaValueSchema) : SchemaWorstCase :=
  match schema_worst_case s with Ok w => w | Err _ => new_SchemaWorstCase end.

Lemma worst_of_ok s w : schema_worst_case s = Ok w → worst_of s = w.
Proof. unfold worst_of. by intros ->. Qed.

Lemma checked_metadata_add_ok a b c : checked_metadata_add a b = Ok c → c = a + b.
Proof. unfold checked_metadata_add. intros H. by invert_res. Qed.
Lemma checked_metadata_multiply_ok a b c : checked_metadata_multiply a b = Ok c → c = a * b.
Proof. unfold checked_metadata_multiply. intros H. by invert_res. Qed.

Ltac invert_worst :=
  invert_res;
  repeat match goal with
  | H : checked_metadata_add _ _ = Ok _ |- _ => apply checked_metadata_add_ok in H; subst
  | H : checked_metadata_multiply _ _ = Ok _ |- _ => apply checked_metadata_multiply_ok in H; subst
  end.

Lemma worst_fields l worst w :
  rfold (λ worst f,
    child ← schema_worst_case (field_schema f);
    add_field_worst worst (field_name f) child) l worst = Ok w →
  Forall (λ f, is_ok (schema_worst_case (field_schema f)) = true) l ∧
  worst_entries w = worst_entries worst +
    sum_of (λ f, 1 + worst_entries (worst_of (field_schema f))) l ∧
  worst_bufferedBytes w = worst_bufferedBytes worst +
    sum_of (λ f, slen (field_name f) + worst_bufferedBytes (worst_of (field_schema f))) l ∧
  worst_stringBytes worst <= worst_stringBytes w ∧
  Forall (λ f, slen (field_name f) <= worst_stringBytes w ∧
    worst_stringBytes (worst_of (field_schema f)) <= worst_stringBytes w) l.
Proof.
  revert worst. induction l as [|f l IH]; intros worst; cbn [rfold].
  { intros [= ->]. split_and!; try constructor; unfold sum_of; cbn; lia. }
  intros (worst' & H & Hl)%res_bind_ok. apply IH in Hl as (Hok & -> & -> & Hs & Hall).
  unfold add_field_worst in H. invert_worst. apply worst_of_ok in Ha as Hw.
  cbn [worst_entries worst_bufferedBytes worst_stringBytes] in *.
  rewrite !sum_of_cons, Hw. split_and!; try lia.
  - constructor; [by rewrite Ha|done].
  - constructor; [rewrite Hw; lia|done].
Qed.

(** What the worst case of a schema says of its parts. *)
Definition worst_parts (s : LuaValueSchema) (w : SchemaWorstCase) : Prop :=
  match kind s with
  | String_ => worst_bufferedBytes w = size_of_LuaValue + maximumBytes s ∧
      worst_stringBytes w = maximumBytes s
  | Array => ∀ i, item_ s = Some i →
      is_ok (schema_worst_case i) = true ∧
      worst_entries w = maximumItems s * (1 + worst_entries (worst_of i)) ∧
      worst_bufferedBytes w = size_of_LuaValue + maximumItems s * worst_bufferedBytes (worst_of i) ∧
      worst_stringBytes w = worst_stringBytes (worst_of i)
  | Object =>
      Forall (λ f, is_ok (schema_worst_case (field_schema f)) = true) (fields s) ∧
      worst_entries w = sum_of (λ f, 1 + worst_entries (worst_of (field_schema f))) (fields s) ∧
      worst_bufferedBytes w = size_of_LuaValue +
        sum_of (λ f, slen (field_name f) + worst_bufferedBytes (worst_of (field_schema f))) (fields s) ∧
      Forall (λ f, slen (field_name f) <= worst_stringBytes w ∧
        worst_stringBytes (worst_of (field_schema f)) <= worst_stringBytes w) (fields s)
  | _ => worst_bufferedBytes w = size_of_LuaValue
  end.

Lemma worst_case_parts s w : schema_worst_case s = Ok w → worst_parts s w.
Proof.
  destruct s as [k d lo hi nlo nhi bmin bmax en it imin imax fs c1 c2 c3 c4 c5].
  cbn [schema_worst_case kind item_ fields]. unfold worst_parts. cbn [kind item_ fields maximumBytes maximumItems].
  destruct k; intros H; try (by invert_worst).
  - destruct it as [i|]; [|done]. invert_worst. intros j [= <-].
    cbn [worst_entries worst_bufferedBytes worst_stringBytes new_SchemaWorstCase].
    by rewrite (worst_of_ok _ _ Ha), Ha.
  - apply worst_fields in H as (Hok & He & Hb & _ & Hs). by rewrite He, Hb.
Qed.

(** ** A value within the worst case is measured without failure *)

Context (limits : LuaExecutionLimits) (Hwidth : maxTableEntries limits < 2 ^ 64).

(** There is room in what was measured so far, at this depth, for what [w] allows. *)
Record room (depth below : N) (w : SchemaWorstCase) (m : Measured) : Prop := {
  ro_depth : depth + below <= maxTableDepth limits;
  ro_entries : measured_entries m + worst_entries w <= maxTableEntries limits;
  ro_bytes : bufferedBytes m + worst_bufferedBytes w <= maxBufferedValueBytes limits;
  ro_strings : worst_stringBytes w <= limit_maxStringBytes limits
}.

(** What is measured from [m] on is at most this many entries and bytes. *)
Definition measured_within (entries bytes : N) (m m' : Measured) : Prop :=
  measured_entries m' <= measured_entries m + entries ∧
  bufferedBytes m' <= bufferedBytes m + bytes.
Definition measures (f : stm Measured unit) (entries bytes : N) (m : Measured) : Prop :=
  ∃ m', f m = (Ok tt, m') ∧ measured_within entries bytes m m'.

Lemma consume_measures amount limit d m :
  bufferedBytes m + amount <= limit → measures (consume_buffered_bytes amount limit d) 0 amount m.
Proof.
  intros H. unfold measures, consume_buffered_bytes, mbind, stm_bind, sget.
  destruct (N.ltb_spec limit amount), (N.ltb_spec (limit - amount) (bufferedBytes m)); try lia.
  eexists. split; [reflexivity|]. split; cbn; lia.
Qed.

Lemma count_measures m :
  measured_entries m + 1 <= maxTableEntries limits → measures (count_entry limits) 1 0 m.
Proof.
  intros H. unfold measures, count_entry, mbind, stm_bind, sget, sput, wrap.
  rewrite N.mod_small by lia. destruct (N.ltb_spec (maxTableEntries limits) (measured_entries m + 1)); [lia|].
  eexists. split; [reflexivity|]. split; cbn; lia.
Qed.

Lemma measures_bind f g e1 b1 e2 b2 m :
  measures f e1 b1 m →
  (∀ m', measured_within e1 b1 m m' → measures g e2 b2 m') →
  measures (f;; g) (e1 + e2) (b1 + b2) m.
Proof.
  intros (m1 & Hf & H1) Hg. destruct (Hg m1 H1) as (m2 & Hg' & H2).
  exists m2. unfold mbind, stm_bind. rewrite Hf. split; [done|].
  unfold measured_within in *. lia.
Qed.

Lemma measures_mono f e b e' b' m : measures f e b m → e <= e' → b <= b' → measures f e' b' m.
Proof. intros (m' & Hf & ? & ?) He Hb. exists m'. split; [done|]. split; lia. Qed.

(** The loop over the parts, each of which keeps to what its own bounds allow. *)
Lemma each_measures {A B} (f : A → stm Measured unit) (entries bytes : B → N) l bounds m :
  Forall2 (λ x b, ∀ m',
     measured_entries m' + entries b <= maxTableEntries limits →
     bufferedBytes m' + bytes b <= maxBufferedValueBytes limits →
     measures (f x) (entries b) (bytes b) m') l bounds →
  measured_entries m + sum_of entries bounds <= maxTableEntries limits →
  bufferedBytes m + sum_of bytes bounds <= maxBufferedValueBytes limits →
  measures (each f l) (sum_of entries bounds) (sum_of bytes bounds) m.
Proof.
  intros Hl. revert m. induction Hl as [|x b l bounds Hx _ IH]; intros m.
  { intros _ _. exists m. split; [done|]. split; unfold sum_of; cbn; lia. }
  rewrite !sum_of_cons. intros He Hb. cbn [each]. eapply measures_bind; [apply Hx; lia|].
  intros m' [He' Hb']. apply IH; lia.
Qed.

Lemma choose_all {A B} (R : A → B → Prop) l :
  (∀ x, x ∈ l → ∃ y, R x y) → ∃ k, Forall2 R l k.
Proof.
  induction l as [|x l IH]; intros H; [by exists []|].
  destruct (H x) as [y Hy]; [by left|]. destruct IH as [k Hk]; [intros z Hz; apply H; by right|].
  exists (y :: k). by constructor.
Qed.

Lemma sorted_keys_distinct (l : list string) : StronglySorted str_lt l → NoDup l.
Proof.
  induction 1 as [|k l _ IH Hk]; constructor; [|done]. intros Hin.
  rewrite Forall_forall in Hk. by apply (str_lt_irrefl k), Hk.
Qed.

(** The fields that the entries of a conforming table belong to. *)
Lemma entry_fields s m :
  built s → sm_sorted m →
  (∀ k v, (k, v) ∈ m → ∃ f, f ∈ fields s ∧ field_name f = k ∧ conforms (field_schema f) v) →
  ∃ fs, Forall2 (λ e f, f ∈ fields s ∧ field_name f = e.1 ∧ conforms (field_schema f) e.2) m fs ∧
    ∀ g, sum_of g fs <= sum_of g (fields s).
Proof.
  intros Hb Hs Hm. destruct (choose_all (λ (e : string * LuaValue) f,
    f ∈ fields s ∧ field_name f = e.1 ∧ conforms (field_schema f) e.2) m) as [fs Hfs].
  { intros [k v] Hkv. by apply Hm. }
  exists fs. split; [done|]. intros g.
  assert (field_name <$> fs = m.*1) as Hnames.
  { clear Hm Hs. induction Hfs as [|e f m fs (_ & Hf & _) _ IH]; [done|]. cbn. by rewrite Hf, IH. }
  assert (NoDup fs) as Hnd.
  { apply (NoDup_fmap_1 field_name). rewrite Hnames. by apply sorted_keys_distinct. }
  apply sum_of_submseteq, NoDup_submseteq; [done|]. intros f Hf.
  clear -Hfs Hf. induction Hfs as [|e g m fs (Hg & _) _ IH]; [by apply elem_of_nil in Hf|].
  apply elem_of_cons in Hf as [->|Hf]; [done|by apply IH].
Qed.

(** The depth of the parts of a schema. *)
Lemma item_depth s i : item_ s = Some i → tree_depth i + 1 <= tree_depth s.
Proof. intros Hi. rewrite (tree_depth_eq s). unfold item_sum. rewrite Hi. lia. Qed.
Lemma field_depth s f : kind s = Object → f ∈ fields s → tree_depth (field_schema f) + 1 <= tree_depth s.
Proof.
  intros Hk Hf. rewrite (tree_depth_eq s), Hk.
  assert (tree_depth (field_schema f) + 1 <= max_of (λ f, tree_depth (field_schema f) + 1) (fields s)); [|lia].
  unfold max_of. induction (fields s) as [|g l IH]; [by apply elem_of_nil in Hf|].
  cbn [foldr]. apply elem_of_cons in Hf as [->|Hf]; [lia|]. apply IH in Hf. lia.
Qed.

(** A part of a value, within what its schema allows. *)
Lemma part_measures rest depth e b m :
  depth <= maxTableDepth limits → bufferedBytes m + size_of_LuaValue <= maxBufferedValueBytes limits →
  (∀ m', measured_within 0 size_of_LuaValue m m' → measures rest e b m') →
  measures (if maxTableDepth limits <? depth
    then execution_failure "encoded component exceeds table depth limit"
    else consume_buffered_bytes size_of_LuaValue (maxBufferedValueBytes limits)
           "encoded components exceed buffered data limit";; rest) e (size_of_LuaValue + b) m.
Proof.
  intros Hd Hb Hrest. destruct (N.ltb_spec (maxTableDepth limits) depth); [lia|].
  change e with (0 + e). eapply measures_bind; [by apply consume_measures|done].
Qed.

Lemma nothing_measures m : measures (mret tt) 0 0 m.
Proof. exists m. split; [done|]. split; lia. Qed.

Lemma measure_room v : ∀ s w depth m,
  lua_typed v = true → built s → conforms s v → schema_worst_case s = Ok w →
  room depth (tree_depth s) w m →
  measures (measure_lua_value limits v depth) (worst_entries w) (worst_bufferedBytes w) m.
Proof.
  induction v as [b|z|d|text|l IH|t IH] using LuaValue_ind'; intros s w depth m Ht Hb Hc Hw [Rd Re Rb Rs];
    apply worst_case_parts in Hw; unfold worst_parts in Hw; inversion Hc as [? ? Hk|? ? Hk|? ? Hk|? ? Hk Hbd|? i ? Hk Hi Hbd Hall|? ? Hk Hall _]; subst; rewrite Hk in Hw;
    cbn [measure_lua_value].
  1-3: (eapply measures_mono; [apply (part_measures (mret tt) depth 0 0); [lia|lia|intros; apply nothing_measures]|lia|lia]).
  - destruct Hw as [Hwb Hws], Hbd as [[_ Hlen] _].
    eapply measures_mono; [apply (part_measures _ depth 0 (slen text)); [lia|lia|]|lia|lia].
    intros m' [_ Hm']. destruct (N.ltb_spec (limit_maxStringBytes limits) (slen text)); [lia|].
    apply consume_measures. lia.
  - destruct (Hw i Hi) as (Hok & He & Hwb & Hws). destruct Hbd as [_ Hlen].
    destruct (schema_worst_case i) as [wi|] eqn:Ewi; [|done]. rewrite (worst_of_ok _ _ Ewi) in *.
    pose proof (item_depth s i Hi) as Hdi.
    pose proof (sum_of_const (1 + worst_entries wi) l) as Hse. pose proof (sum_of_const (worst_bufferedBytes wi) l) as Hsb.
    pose proof (N.mul_le_mono_r _ _ (1 + worst_entries wi) Hlen) as He'.
    pose proof (N.mul_le_mono_r _ _ (worst_bufferedBytes wi) Hlen) as Hb'.
    eapply measures_mono; [apply (part_measures _ depth (sum_of (λ _, 1 + worst_entries wi) l)
      (sum_of (λ _, worst_bufferedBytes wi) l)); [lia|lia|]|lia|lia].
    intros m' [Hme Hmb]. apply each_measures; [|lia|lia].
    apply Forall_Forall2_diag, Forall_forall. intros v Hv m2 Hm2e Hm2b.
    change (worst_bufferedBytes wi) with (0 + worst_bufferedBytes wi).
    eapply measures_bind; [apply count_measures; lia|]. intros m3 [Hm3e Hm3b].
    rewrite Forall_forall in IH. eapply IH; [done| |by apply (proj1 (built_parts s Hb) i)|by apply Hall|done|split; lia].
    cbn in Ht. rewrite forallb_forall in Ht. by apply Ht, list_elem_of_In.
  - destruct Hw as (Hok & He & Hwb & Hws). cbn in Ht. apply andb_true_iff in Ht as [Hsm%bool_decide_eq_true Ht].
    destruct (entry_fields s t Hb Hsm Hall) as (fs & Hfs & Hsub).
    pose proof (Hsub (λ f, 1 + worst_entries (worst_of (field_schema f)))) as He'.
    pose proof (Hsub (λ f, slen (field_name f) + worst_bufferedBytes (worst_of (field_schema f)))) as Hb'.
    set (entries := sum_of (λ f, 1 + worst_entries (worst_of (field_schema f))) fs) in *.
    set (bytes := sum_of (λ f, slen (field_name f) + worst_bufferedBytes (worst_of (field_schema f))) fs) in *.
    eapply measures_mono; [apply (part_measures _ depth entries bytes); [lia|lia|]|lia|lia].
    intros m' [Hme Hmb].
    apply (each_measures _ (λ f, 1 + worst_entries (worst_of (field_schema f)))
      (λ f, slen (field_name f) + worst_bufferedBytes (worst_of (field_schema f))) t fs); [|lia|lia].
    rewrite forallb_forall in Ht. rewrite Forall_forall in IH. rewrite Forall_forall in Hok. rewrite Forall_forall in Hws.
    eapply Forall2_impl_in; [exact Hfs|]. intros e f He2 (Hf & Hn & Hcf) m2 Hm2e Hm2b.
    pose proof (field_depth s f Hk Hf) as Hdf. destruct (Hws f Hf) as [Hs1 Hs2]. specialize (Hok f Hf).
    destruct (schema_worst_case (field_schema f)) as [wf|] eqn:Ewf; [|done]. rewrite (worst_of_ok _ _ Ewf) in *.
    rewrite Hn in *. destruct (N.ltb_spec (limit_maxStringBytes limits) (slen e.1)); [lia|].
    change (slen e.1 + _) with (0 + (slen e.1 + worst_bufferedBytes wf)).
    eapply measures_bind; [apply count_measures; lia|]. intros m3 [Hm3e Hm3b].
    change (worst_entries wf) with (0 + worst_entries wf).
    eapply measures_bind; [apply consume_measures; lia|]. intros m4 [Hm4e Hm4b].
    eapply IH; [done| |by apply (proj2 (built_parts s Hb) f)|done|done|split; lia].
    by apply Ht, list_elem_of_In.
Qed.

Lemma validated_conforms s v :
  built s → lua_typed v = true → validate_lua_value s v = Ok None → conforms s v.
Proof.
  intros Hb Ht. unfold validate_lua_value. pose proof (visit_ok v s (MkWalk None 0 "") Ht Hb) as Ho.
  destruct (visit s v _) as [x w]. unfold LuaValidation.outcome in Ho. cbn [fst snd] in Ho.
  destruct Ho as [(-> & -> & Hc & _)|(-> & p & c & msg & _ & ->)]; [by intros _|done].
Qed.

(** C39. What a runner admits as the schema of a described type never makes it
    fail: a value that validates against the schema is measured without an
    error, within every limit of the runner, however the value is nested. *)
Theorem validated_values_fit s v role :
  built s → lua_typed v = true →
  validate_schema_against_limits s limits role = Ok tt → validate_lua_value s v = Ok None →
  ∃ m, measure_lua_value limits v 0 (MkMeasured 0 0) = (Ok tt, m) ∧
    measured_entries m <= maxTableEntries limits ∧ bufferedBytes m <= maxBufferedValueBytes limits.
Proof.
  intros Hb Ht Hs Hv. apply validated_conforms in Hv; [|done..].
  unfold validate_schema_against_limits in Hs. invert_res.
  repeat match goal with H : (_ <? _) = false |- _ => apply N.ltb_ge in H end.
  destruct (built_sound s Hb) as [[Hsum _ _ _ _ _] _].
  assert (containerDepth s = tree_depth s) as Hdepth by by injection Hsum.
  destruct (measure_room v s a0 0 (MkMeasured 0 0) Ht Hb Hv Ha0) as (m & Hm & He & Hbytes).
  { split; cbn; lia. }
  cbn in He, Hbytes. exists m. split_and!; [done|lia|lia].
Qed.
End Limits.

(** ** The lamp, on a platform where a [LuaValue] takes 56 bytes *)

Lemma validated_values_fit_witness :
  measure_lua_value 56 default_limits lamp_value 0 (MkMeasured 0 0) = (Ok tt, MkMeasured 2 182) ∧
  ∃ m, measure_lua_value 56 default_limits lamp_value 0 (MkMeasured 0 0) = (Ok tt, m) ∧
    measured_entries m <= 4096 ∧ bufferedBytes m <= 8388608.
Proof.
  split; [by vm_compute|].
  apply (validated_values_fit 56 default_limits eq_refl lamp_schema lamp_value "read" lamp_built);
    by vm_compute.
Defined.
