(* ===== verification/LuaRunner.v ===== *)
(** * What a Lua runner captures of a world
    (include/liquid/scripting/LuaBehaviorRunner.hpp,
     src/scripting/LuaBehaviorRunner.cpp, without the execution of scripts)

    Bindings expose component types to scripts.  From the bindings and a world
    the runner captures manifests: of what a behaviour holds, or of what a host
    is about to grant.  A codec's functions and the closures of a binding are
    functions; [caller] is the thread of a call. *)
From stdpp Require Import pretty.
From S2P Require Import Prelude OrderedMap Values Ids Hoare Behaviors Components Coordinator World WorldQueries LuaSchema LuaManifest LuaLimits.

Record LuaScopeGrant := MkGrant {
  grant_scriptTypeName : string;
  grant_componentName : string;
  grant_mode : ComponentAccessMode
}.

Record LuaScopeTarget := MkScopeTarget {
  scope_type : ComponentTypeId;
  scope_slot : ComponentSlotId
}.
#[export] Instance LuaScopeTarget_eq_dec : EqDecision LuaScopeTarget.
Proof. solve_decision. Defined.

Record CapabilityDescription := MkDescription {
  desc_binding : N;
  desc_name : string;
  desc_slot : ComponentSlotId;
  readable : bool;
  writable : bool
}.

(** [Impl::CachedCapabilities] *)
Record CachedCapabilities := MkCached {
  cached_revision : N;
  descriptions : list CapabilityDescription
}.

Definition MaximumCachedCapabilityEntries : N := 256.

Definition bounded_l0_diagnostic (d : string) : string :=
  if slen d <=? LuaMaxManifestDiagnosticBytes then d
  else String.substring 0 (N.to_nat (LuaMaxManifestDiagnosticBytes - 3)) d +:+ "...".

(** [NextRunnerId.fetch_add(1)] *)
Definition next_runner_id : stm N N :=
  id ← sget; sput (wrap 64 (id + 1));; mret id.

(** [exception.what()] in [catch (const std::exception&)], or the text that
    [catch (...)] uses. *)
Definition what_or (unknown : string) (e : exn) : string :=
  if decide (exn_kind e = unknown_exception) then unknown else exn_what e.

Definition failure (c : LuaManifestErrorCode) (message : string) : LuaManifestError :=
  MkManifestError c (bounded_l0_diagnostic message).

Section Runner.
Context {K : Type} `{Countable K} {El : K → Type}.
Context {Y : Type} `{Countable Y} {D : Type}.
Abbreviation World := (Coordinator.World El Y D).
Context (size_of_LuaValue : N).

(** ** Bindings

    [makePending], which the execution of scripts uses, is left out. *)
Record Binding := MkBinding {
  scriptName : string;
  binding_type : ComponentTypeId;
  describe : N → BehaviorId → N → stm World (list CapabilityDescription);
  binding_snapshot : N → BehaviorId → string → stm World LuaValue;
  resolveTarget : N → string → stm World (option ComponentSlotId);
  encodeTarget : N → ComponentSlotId → stm World LuaValue;
  metadata : option LuaModelBindingMetadata
}.

(** [LuaComponentCodec] *)
Record LuaComponentCodec (k : K) := MkCodec {
  lua_encode : option (El k → res LuaValue);
  lua_decode : option (LuaValue → res (El k))
}.
Arguments lua_encode {k}.
Arguments lua_decode {k}.
Arguments MkCodec {k}.

(** The loop of [describe] over the components a behaviour reaches. *)
Fixpoint describe_each (caller : N) (k : K) (type : ComponentType) (owner : BehaviorId)
    (bindingIndex : N) (l : list (string * ComponentSlotId))
  : stm World (list CapabilityDescription) :=
  match l with
  | [] => mret []
  | (name, slot) :: l =>
      r ← can_read_component caller k type owner name;
      w ← can_write_component caller k type owner name;
      rest ← describe_each caller k type owner bindingIndex l;
      mret (if (r : bool) || (w : bool) then MkDescription bindingIndex name slot r w :: rest else rest)
  end.

Definition make_binding (k : K) (type : ComponentType) (name : string) (codec : LuaComponentCodec k)
  : res Binding :=
  match lua_encode codec, lua_decode codec with
  | Some encode, Some _ => Ok (MkBinding name (type_id type)
      (λ caller owner bindingIndex,
        available ← World.get_components caller k type owner;
        describe_each caller k type owner bindingIndex (named_entries available))
      (λ caller owner name,
        component ← World.read_component caller k type owner name;
        match component with
        | None => sthrow runtime_error "component snapshot is unavailable"
        | Some c => slift (encode c)
        end)
      (λ caller name,
        there ← WorldQueries.has_component_named caller k type name;
        if negb there then mret None
        else target ← component_target caller k type name; mret (Some (target_slot target)))
      (λ caller slot,
        component ← WorldQueries.resolve_component caller k type slot;
        match component with
        | None => sthrow runtime_error "component snapshot is unavailable"
        | Some c => slift (encode c)
        end)
      None)
  | _, _ => throw invalid_argument "Lua component codec requires encode and decode functions"
  end.

Definition set_metadata (m : LuaModelBindingMetadata) (b : Binding) : Binding :=
  MkBinding (scriptName b) (binding_type b) (describe b) (binding_snapshot b) (resolveTarget b)
    (encodeTarget b) (Some m).

(** ** [LuaBehaviorRunner::Impl] *)

Record Runner := MkRunner {
  limits : LuaExecutionLimits;
  bindings : list Binding;
  cache : gmap (N * BehaviorId) CachedCapabilities;
  cachedWorld : option N;
  started : bool;
  runner_id : N
}.

Definition new_LuaBehaviorRunner (executionLimits : LuaExecutionLimits) : stm N Runner :=
  id ← next_runner_id; mret (MkRunner executionLimits [] ∅ None false id).

Definition set_bindings l (r : Runner) : Runner :=
  MkRunner (limits r) l (cache r) (cachedWorld r) (started r) (runner_id r).
Definition set_cache c (r : Runner) : Runner :=
  MkRunner (limits r) (bindings r) c (cachedWorld r) (started r) (runner_id r).
Definition set_cached_world i (r : Runner) : Runner :=
  MkRunner (limits r) (bindings r) (cache r) (Some i) (started r) (runner_id r).
Definition set_started (r : Runner) : Runner :=
  MkRunner (limits r) (bindings r) (cache r) (cachedWorld r) true (runner_id r).

(** The checks of [register_binding] against the bindings there are. *)
Definition check_existing (b existing : Binding) : res unit :=
  reject_if (String.eqb (scriptName existing) (scriptName b)) runtime_error
    "Lua component binding name already registered";;
  reject_if (binding_type existing =? binding_type b) runtime_error
    "Lua component type already registered".

Definition check_metadata (r : Runner) (b : Binding) : res unit :=
  match metadata b with
  | None => Ok tt
  | Some m =>
      reject_if (LuaMaxNameBytes <? slen (scriptName b)) invalid_argument
        "Lua described binding name exceeds 256 bytes";;
      validate_schema_against_limits size_of_LuaValue (read_schema m) (limits r) "read";;
      validate_schema_against_limits size_of_LuaValue (write_schema m) (limits r) "write"
  end.

Definition register_binding (b : Binding) : stm Runner unit :=
  r ← sget;
  sreject_if (started r) logic_error "Lua component bindings are frozen after first execution";;
  sreject_if (String.eqb (scriptName b) "") invalid_argument
    "Lua component binding name cannot be empty";;
  sreject_if (has_nul (scriptName b)) invalid_argument
    "Lua component binding name cannot contain NUL";;
  sreject_if (binding_type b =? InvalidComponentTypeId) invalid_argument
    "Lua component binding type is invalid";;
  slift (check_metadata r b);;
  slift (rfold (λ _ existing, check_existing b existing) (bindings r) tt);;
  sput (set_bindings (bindings r ++ [b]) r).

(** The two overloads of [expose_component] *)
Definition expose_component (k : K) (type : ComponentType) (name : string)
    (codec : LuaComponentCodec k) (m : option LuaModelBindingMetadata) : stm Runner unit :=
  b ← slift (make_binding k type name codec);
  register_binding match m with Some m => set_metadata m b | None => b end.

(** ** Captures

    A call has the runner and a world before it. *)
Record Hosted := MkHosted { runner : Runner; world : World }.
Definition set_runner r (h : Hosted) : Hosted := MkHosted r (world h).
Definition set_world w (h : Hosted) : Hosted := MkHosted (runner h) w.
Definition on_runner {A} : stm Runner A → stm Hosted A := zoom runner set_runner.
Definition on_world {A} : stm World A → stm Hosted A := zoom world set_world.

Context (caller : N).

(** The loop that erases the entries of behaviours that are gone. *)
Definition prune_cache : stm Hosted unit :=
  h ← sget;
  sfor (λ entry : (N * BehaviorId) * CachedCapabilities,
    alive ← on_world (behavior_exists caller entry.1.2);
    if (alive : bool) then mret tt
    else on_runner (smodify (λ r, set_cache (delete entry.1 (cache r)) r)))
    (map_to_list (cache (runner h)));;
  on_runner (smodify (λ r,
    if MaximumCachedCapabilityEntries <=? N.of_nat (size (cache r)) then set_cache ∅ r else r)).

(** The loop over the bindings from index [i] on. *)
Fixpoint describe_all (owner : BehaviorId) (i : N) (l : list Binding)
  : stm World (list CapabilityDescription) :=
  match l with
  | [] => mret []
  | b :: l =>
      here ← describe b caller owner i;
      rest ← describe_all owner (i + 1) l;
      mret (here ++ rest)
  end.

Definition refresh_capabilities (key : N * BehaviorId) (revision : N)
  : stm Hosted (list CapabilityDescription) :=
  h ← sget;
  l ← on_world (describe_all key.2 0 (bindings (runner h)));
  on_runner (smodify (λ r, set_cache (<[key := MkCached revision l]> (cache r)) r));;
  mret l.

Definition capabilities_for (owner : BehaviorId) : stm Hosted (list CapabilityDescription) :=
  instance ← on_world (WorldQueries.instance_id caller);
  on_runner (smodify (λ r,
    if decide (cachedWorld r = Some instance) then r
    else set_cached_world instance (set_cache ∅ r)));;
  revision ← on_world (behavior_access_revision caller owner);
  h ← sget;
  let key := (instance, owner) in
  match cache (runner h) !! key with
  | Some entry =>
      if cached_revision entry =? revision then mret (descriptions entry)
      else refresh_capabilities key revision
  | None =>
      (if MaximumCachedCapabilityEntries <=? N.of_nat (size (cache (runner h)))
       then prune_cache else mret tt);;
      refresh_capabilities key revision
  end.

(** A [try] around one read of the world. *)
Definition attempt {A} (m : stm World A) : stm Hosted (A + exn) := λ h,
  match on_world m h with
  | (Ok a, h) => (Ok (inl a), h)
  | (Err e, h) => (Ok (inr e), h)
  end.

(** Reading, measuring and validating the value of one readable capability;
    [buffered] are the bytes of the values before it. *)
Definition capture_value (read : stm World LuaValue) (prefix : string) (s : LuaValueSchema)
    (buffered : N) : stm Hosted (LuaValue * N + LuaManifestError) :=
  h ← sget;
  x ← attempt read;
  match x with
  | inr e => mret (inr (failure SnapshotUnavailable
      (if decide (exn_kind e = unknown_exception) then prefix +:+ "snapshot is unavailable"
       else prefix +:+ "snapshot is unavailable: " +:+ exn_what e)))
  | inl v =>
      match measure_lua_value size_of_LuaValue (limits (runner h)) v 0 (MkMeasured 0 buffered) with
      | (Err e, _) => mret (inr (failure LimitExceeded (exn_what e)))
      | (Ok _, m) =>
          e ← slift (validate_lua_value s v);
          mret match e with
          | Some e => inr (failure SchemaMismatch ("read schema: " +:+ diagnostic e))
          | None => inl (v, bufferedBytes m)
          end
      end
  end.

(** [builder.add(capability, entry)], after which the loop goes on. *)
Definition add_capability (c : LuaManifestCapability) (entry : Entry) (acc : Builder * N)
  : stm Hosted (Builder * N + LuaManifestError) :=
  let '(x, b) := LuaManifest.add c entry acc.1 in
  e ← slift x;
  mret match e with Some e => inr e | None => inl (b, acc.2) end.

(** One capability: the part of the loop bodies the two captures share. *)
Definition capture_one (b : Binding) (m : LuaModelBindingMetadata) (bindingIndex : N) (name : string)
    (slot : ComponentSlotId) (mode : ComponentAccessMode) (read : stm World LuaValue)
    (prefix : string) (acc : Builder * N) : stm Hosted (Builder * N + LuaManifestError) :=
  let canRead := bool_decide (mode ≠ Write) in
  let canWrite := bool_decide (mode ≠ Read) in
  v ← (if canRead
       then x ← capture_value read prefix (read_schema m) acc.2;
            mret match x with inl (v, n) => inl (Some v, n) | inr e => inr e end
       else mret (inl (None, acc.2)));
  match v with
  | inr e => mret (inr e)
  | inl (v, buffered) =>
      add_capability
        (MkCapability (scriptName b) name "" mode (bindingDescription m)
          (if canRead then Some (read_schema m) else None) v
          (if canWrite then Some (write_schema m) else None))
        (MkEntry bindingIndex (binding_type b) slot) (acc.1, buffered)
  end.

(** A loop that stops at the first error. *)
Section CaptureAll.
Context {A : Type} (step : A → Builder * N → stm Hosted (Builder * N + LuaManifestError)).
Fixpoint capture_all (l : list A) (acc : Builder * N) : stm Hosted (Builder * N + LuaManifestError) :=
  match l with
  | [] => mret (inl acc)
  | x :: l =>
      r ← step x acc;
      match r with
      | inl acc => capture_all l acc
      | inr e => mret (inr e)
      end
  end.
End CaptureAll.

(** [builder.finish()], and the freeze of the bindings. *)
Definition finish_capture (x : Builder * N + LuaManifestError) : stm Hosted LuaManifestResult :=
  match x with
  | inr e => mret (inr e)
  | inl (b, _) =>
      result ← slift (finish b).1;
      (if result_ok result then on_runner (smodify set_started) else mret tt);;
      mret result
  end.

(** The [try] around a whole capture *)
Definition capturing (unknown : string) (m : stm Hosted LuaManifestResult)
  : stm Hosted LuaManifestResult :=
  stry m (λ e, mret (inr (failure HostError (what_or unknown e)))).

(** [std::numeric_limits<lua_Integer>::max()] *)
Definition lua_integer_max : N := 9223372036854775807.

Definition description_mode (d : CapabilityDescription) : ComponentAccessMode :=
  if readable d && writable d then ReadWrite else if readable d then Read else Write.

(** The body of the loop of [capability_manifest]. *)
Definition capture_description (behavior : BehaviorId) (d : CapabilityDescription)
    (acc : Builder * N) : stm Hosted (Builder * N + LuaManifestError) :=
  h ← sget;
  match bindings (runner h) !! N.to_nat (desc_binding d) with
  | None => sthrow out_of_range "vector::at"
  | Some b =>
      match metadata b with
      | None => mret (inl acc)
      | Some m => capture_one b m (desc_binding d) (desc_name d) (desc_slot d) (description_mode d)
          (binding_snapshot b caller behavior (desc_name d)) "Lua capability " acc
      end
  end.

Definition capability_manifest (behavior : BehaviorId) (now : IntentTime)
  : stm Hosted LuaManifestResult :=
  capturing "unknown Lua capability manifest host error" (
    there ← on_world (behavior_exists caller behavior);
    if negb there then
      mret (inr (failure InvalidBehavior "Lua capability manifest behavior does not exist"))
    else if lua_integer_max <? now then
      mret (inr (failure HostError "Lua capability manifest time is outside the Lua integer range"))
    else
      instance ← on_world (WorldQueries.instance_id caller);
      revision ← on_world (behavior_access_revision caller behavior);
      h ← sget;
      let builder := new_Builder now
        (new_behavior_capture instance behavior revision (runner_id (runner h)) (limits (runner h))) in
      l ← capabilities_for behavior;
      x ← capture_all (capture_description behavior) l (builder, 0);
      finish_capture x).

(** ** Prospective scopes *)

Fixpoint find_binding (name : string) (i : N) (l : list Binding) : option (N * Binding) :=
  match l with
  | [] => None
  | b :: l => if String.eqb (scriptName b) name then Some (i, b) else find_binding name (i + 1) l
  end.

Definition same_target (a b : LuaScopeGrant) : bool :=
  String.eqb (grant_scriptTypeName a) (grant_scriptTypeName b) &&
  String.eqb (grant_componentName a) (grant_componentName b).

(** The labels "grants[i] " *)
Definition grant_label (index : N) : string := "grants[" +:+ pretty index +:+ "] ".

(** [admit_grant] of [grants[index]], where [earlier] are the grants before it.
    A mode outside the enumeration, which the source also refuses, is none. *)
Definition admit_grant (earlier : list LuaScopeGrant) (index : N) (grant : LuaScopeGrant)
  : stm Hosted ((N * Binding * LuaModelBindingMetadata * ComponentSlotId) + LuaManifestError) :=
  let refuse {A} c message : stm Hosted (A + LuaManifestError) :=
    mret (inr (failure c (grant_label index +:+ message))) in
  h ← sget;
  if String.eqb (grant_scriptTypeName grant) "" then refuse InvalidGrant "has an empty script type name"
  else if String.eqb (grant_componentName grant) "" then refuse InvalidGrant "has an empty component name"
  else if LuaMaxNameBytes <? slen (grant_scriptTypeName grant) then
    refuse LimitExceeded "script type name exceeds 256 bytes"
  else if LuaMaxNameBytes <? slen (grant_componentName grant) then
    refuse LimitExceeded "component name exceeds 256 bytes"
  else if existsb (λ e, same_target e grant) earlier then
    refuse InvalidGrant "duplicates an earlier grant target"
  else match find_binding (grant_scriptTypeName grant) 0 (bindings (runner h)) with
  | None => refuse InvalidGrant "names an unknown script type"
  | Some (i, b) =>
      match metadata b with
      | None => refuse InvalidGrant "names a type registered without metadata"
      | Some m =>
          slot ← on_world (resolveTarget b caller (grant_componentName grant));
          match slot with
          | None => refuse InvalidGrant "names a missing component"
          | Some slot => mret (inl (i, b, m, slot))
          end
      end
  end.

(** The loop of [scope_manifest] from the [index]-th grant on. *)
Fixpoint capture_grants (earlier : list LuaScopeGrant) (index : N) (l : list LuaScopeGrant)
    (acc : Builder * N) : stm Hosted (Builder * N + LuaManifestError) :=
  match l with
  | [] => mret (inl acc)
  | grant :: l =>
      x ← admit_grant earlier index grant;
      match x with
      | inr e => mret (inr e)
      | inl (i, b, m, slot) =>
          r ← capture_one b m i (grant_componentName grant) slot (grant_mode grant)
            (encodeTarget b caller slot) (grant_label index) acc;
          match r with
          | inr e => mret (inr e)
          | inl acc => capture_grants (earlier ++ [grant]) (index + 1) l acc
          end
      end
  end.

Definition scope_manifest (grants : list LuaScopeGrant) (now : IntentTime)
  : stm Hosted LuaManifestResult :=
  capturing "unknown Lua scope manifest host error" (
    if lua_integer_max <? now then
      mret (inr (failure HostError "Lua scope manifest time is outside the Lua integer range"))
    else if bool_decide (grants = []) then
      mret (inr (failure InvalidGrant "Lua scope manifest requires at least one grant"))
    else if LuaManifestMaxCapabilities <? len grants then
      mret (inr (failure LimitExceeded "Lua scope manifest has too many grants"))
    else
      instance ← on_world (WorldQueries.instance_id caller);
      h ← sget;
      let builder := new_Builder now
        (new_scope_capture instance (runner_id (runner h)) (limits (runner h))) in
      x ← capture_grants [] 0 grants (builder, 0);
      finish_capture x).

(** The loop of [scope_targets]. *)
Fixpoint resolve_grants (earlier : list LuaScopeGrant) (index : N) (l : list LuaScopeGrant)
  : stm Hosted (option (list LuaScopeTarget)) :=
  match l with
  | [] => mret (Some [])
  | grant :: l =>
      x ← admit_grant earlier index grant;
      match x with
      | inr _ => mret None
      | inl (_, b, _, slot) =>
          rest ← resolve_grants (earlier ++ [grant]) (index + 1) l;
          mret match rest with
          | Some targets => Some (MkScopeTarget (binding_type b) slot :: targets)
          | None => None
          end
      end
  end.

Definition scope_targets (grants : list LuaScopeGrant) : stm Hosted (option (list LuaScopeTarget)) :=
  if bool_decide (grants = []) || (LuaManifestMaxCapabilities <? len grants) then mret None
  else resolve_grants [] 0 grants.

(** ** Snapshots *)

(** The first of the capabilities that [snapshot] looks for. *)
Definition watched (r : Runner) (type name : string) (d : CapabilityDescription) : bool :=
  match bindings r !! N.to_nat (desc_binding d) with
  | Some b => String.eqb (scriptName b) type && String.eqb (desc_name d) name && readable d
  | None => false
  end.

Definition snapshot (owner : BehaviorId) (type name : string) : stm Hosted (option LuaValue) :=
  there ← on_world (behavior_exists caller owner);
  h ← sget;
  if negb there then mret None
  else match find_binding type 0 (bindings (runner h)) with
  | None => mret None
  | Some (_, b) =>
      l ← capabilities_for owner;
      if existsb (watched (runner h) type name) l
      then v ← on_world (binding_snapshot b caller owner name); mret (Some v)
      else mret None
  end.

Definition cached_capability_entries (r : Runner) : N := N.of_nat (size (cache r)).
End Runner.
