(* ===== verification/LuaRunnerSpec.v ===== *)
(** * What captures read and return

    A capture leaves the world alone and, but for its cache and the freeze, the
    runner; [granted] says what a scope manifest holds for a grant. *)
From stdpp Require Import pretty.
From S2P Require Import Prelude OrderedMap Values Ids Hoare Behaviors Components Coordinator World WorldQueries CoordinatorSpec WorldSpec LuaSchema LuaSchemaSpec LuaValidation LuaManifest LuaManifestSpec LuaLimits LuaRunner.

(** ** Computations that change nothing *)

Section Leaves.
Context {S : Type}.
Definition leaves {A} (s : S) (m : stm S A) : Prop := (m s).2 = s.

Lemma leaves_ret {A} (a : A) s : leaves s (mret a).
Proof. done. Qed.
Lemma leaves_lift {A} (x : res A) s : leaves s (slift x).
Proof. done. Qed.
Lemma leaves_throw {A} c msg s : leaves s (sthrow (A := A) c msg).
Proof. done. Qed.
Lemma leaves_get s : leaves s sget.
Proof. done. Qed.
Lemma leaves_bind {A B} (m : stm S A) (f : A → stm S B) s :
  leaves s m → (∀ a, m s = (Ok a, s) → leaves s (f a)) → leaves s (m ≫= f).
Proof.
  unfold leaves, mbind, stm_bind. destruct (m s) as [[a|e] s'] eqn:E; cbn; intros ->; [|done].
  intros Hf. by apply Hf.
Qed.
Lemma leaves_get_bind {B} (f : S → stm S B) s : leaves s (f s) → leaves s (s ← sget; f s).
Proof. done. Qed.
Lemma leaves_keeps {A} (m : stm S A) s : keeps eq m → leaves s m.
Proof. intros Hm. symmetry. apply Hm. Qed.
Lemma leaves_outcome {A} (m : stm S A) s : leaves s m → m s = ((m s).1, s).
Proof. unfold leaves. destruct (m s) as [x s']. cbn. by intros ->. Qed.
Lemma leaves_bind_ok {A B} (m : stm S A) (f : A → stm S B) s y :
  leaves s m → ((m ≫= f) s).1 = Ok y → ∃ a, (m s).1 = Ok a ∧ (f a s).1 = Ok y.
Proof.
  unfold leaves, mbind, stm_bind. destruct (m s) as [[a|e] s']; cbn; [|done].
  intros -> Hy. by exists a.
Qed.
End Leaves.

Create HintDb leaves.
#[export] Hint Resolve leaves_ret leaves_lift leaves_throw leaves_get : leaves.

Ltac leaves_steps :=
  repeat first
    [ solve [eauto with leaves]
    | match goal with
      | |- leaves _ (sget ≫= _) => apply leaves_get_bind
      | |- leaves _ (_ ≫= _) => apply leaves_bind; [|intros ? ?]
      | |- leaves _ (if ?c then _ else _) => destruct c
      | |- leaves _ (match ?x with _ => _ end) => destruct x
      end ].

Section Spec.
Context {K : Type} `{Countable K} {El : K → Type}.
Context {Y : Type} `{Countable Y} {D : Type}.
Abbreviation World := (Coordinator.World El Y D).
Abbreviation Binding := (LuaRunner.Binding (El := El) (Y := Y) (D := D)).
Abbreviation Runner := (LuaRunner.Runner (El := El) (Y := Y) (D := D)).
Abbreviation Hosted := (LuaRunner.Hosted (El := El) (Y := Y) (D := D)).
Implicit Types (h : Hosted) (b : Binding).
Context (size_of_LuaValue : N).

(** ** Bindings that the host exposed *)

Record exposed b : Prop := {
  ex_made : ∃ k type codec b0, make_binding k type (scriptName b) codec = Ok b0 ∧
    binding_type b = type_id type ∧ describe b = describe b0 ∧
    binding_snapshot b = binding_snapshot b0 ∧
    resolveTarget b = resolveTarget b0 ∧ encodeTarget b = encodeTarget b0;
  ex_schemas m : metadata b = Some m → built (read_schema m) ∧ built (write_schema m)
}.

Lemma reading_each caller k type owner i l :
  keeps eq (describe_each (El := El) (Y := Y) (D := D) caller k type owner i l).
Proof.
  induction l as [|[name slot] l IH]; cbn [describe_each]; [keep_steps|].
  unfold can_read_component, can_write_component, owned_query, owned. keep_steps.
Qed.

Lemma exposed_reads b caller owner i name slot :
  exposed b →
  keeps eq (describe b caller owner i) ∧ keeps eq (binding_snapshot b caller owner name) ∧
  keeps eq (resolveTarget b caller name) ∧ keeps eq (encodeTarget b caller slot).
Proof.
  intros [(k & type & [enc dec] & b0 & Hb & _ & -> & -> & -> & ->) _].
  unfold make_binding in Hb. cbn in Hb. destruct enc as [enc|], dec as [dec|]; try done.
  injection Hb as <-. cbn [describe binding_snapshot resolveTarget encodeTarget].
  pose proof (reading_each caller k type owner i) as Heach.
  split_and!; unfold World.get_components, World.read_component, Coordinator.get_components,
    Coordinator.read_component, access_component, WorldQueries.has_component_named, component_target,
    WorldQueries.resolve_component, owned_query, owned; keep_steps.
Qed.

Lemma make_binding_fields k type name (codec : LuaComponentCodec (El := El) k) b :
  make_binding k type name codec = Ok b →
  scriptName b = name ∧ binding_type b = type_id type ∧ metadata b = None.
Proof. unfold make_binding. repeat case_match; try done. by intros [= <-]. Qed.

Record runner_ok (r : Runner) : Prop := {
  rn_exposed : Forall exposed (bindings r);
  rn_names : NoDup (scriptName <$> bindings r);
  rn_types : NoDup (binding_type <$> bindings r)
}.

Lemma new_runner_ok e s : ∃ r, (new_LuaBehaviorRunner (El := El) (Y := Y) (D := D) e s).1 = Ok r ∧ runner_ok r.
Proof. eexists. split; [reflexivity|]. split; constructor. Qed.

Lemma exposing_keeps r k type name codec m :
  runner_ok r → (∀ m', m = Some m' → built (read_schema m') ∧ built (write_schema m')) →
  let x := expose_component size_of_LuaValue k type name codec m r in
  runner_ok x.2 ∧ (is_ok x.1 = false → x.2 = r).
Proof.
  intros [He Hn Ht] Hm. unfold expose_component, mbind, stm_bind, slift.
  destruct (make_binding k type name codec) as [b0|e] eqn:Eb; cbn [fst snd]; [|by split].
  destruct (make_binding_fields _ _ _ _ _ Eb) as (Esn & Ety & Emd).
  set (b := match m with Some m => set_metadata m b0 | None => b0 end).
  assert (exposed b) as Hb.
  { split.
    - exists k, type, codec, b0. subst b. destruct m; cbn; by rewrite ?Esn.
    - intros m' Hm'. subst b. destruct m as [m|]; cbn in Hm'; [injection Hm' as <-; by apply Hm|].
      by rewrite Emd in Hm'. }
  unfold register_binding, mbind, stm_bind, sget, sreject_if, slift, reject_if.
  repeat (match goal with |- context [if ?c then _ else _] => destruct c end; [by split|]).
  destruct (check_metadata _ _ _) as [[]|]; [|by split]. cbn [fst snd].
  destruct (rfold _ (bindings r) tt) as [[]|] eqn:Ec; [|by split].
  assert (Forall (λ e, scriptName e ≠ scriptName b ∧ binding_type e ≠ binding_type b) (bindings r)) as Hd.
  { clear -Ec. revert Ec. induction (bindings r) as [|e l IH]; [constructor|]. cbn [rfold].
    intros ([] & Hx & Hl)%res_bind_ok. constructor; [|by apply IH].
    unfold check_existing in Hx. invert_res. split; [by apply String.eqb_neq|by apply N.eqb_neq]. }
  split; [|done]. cbn. split; cbn.
  - apply Forall_app. split; [done|by constructor].
  - rewrite fmap_app. apply NoDup_app. split_and!; [done| |repeat constructor; by intros ?%elem_of_nil].
    intros n (e & -> & Hel)%list_elem_of_fmap Heq%list_elem_of_singleton.
    rewrite Forall_forall in Hd. by destruct (Hd e Hel).
  - rewrite fmap_app. apply NoDup_app. split_and!; [done| |repeat constructor; by intros ?%elem_of_nil].
    intros n (e & -> & Hel)%list_elem_of_fmap Heq%list_elem_of_singleton.
    rewrite Forall_forall in Hd. by destruct (Hd e Hel).
Qed.

(** ** Captures leave everything as it is *)

Lemma leaves_on_world {A} (m : stm World A) h : leaves (world h) m → leaves h (on_world m).
Proof.
  unfold leaves, on_world, zoom. destruct (m (world h)) as [x w]. cbn. intros ->. by destruct h.
Qed.

Lemma on_world_eq {A} (m : stm World A) h : leaves (world h) m → on_world m h = ((m (world h)).1, h).
Proof.
  unfold leaves, on_world, zoom. destruct (m (world h)) as [x w]. cbn. intros ->. by destruct h.
Qed.

Lemma leaves_attempt {A} (m : stm World A) h : leaves (world h) m → leaves h (attempt m).
Proof.
  intros Hm%leaves_on_world. unfold leaves, attempt in *.
  destruct (on_world m h) as [[a|e] h']; exact Hm.
Qed.
#[local] Hint Resolve leaves_on_world leaves_attempt : leaves.

Context (caller : N).

Lemma leaves_add c entry acc h : leaves h (add_capability (El := El) (Y := Y) (D := D) c entry acc).
Proof. unfold add_capability. destruct (LuaManifest.add c entry acc.1). leaves_steps. Qed.
#[local] Hint Resolve leaves_add : leaves.

Lemma leaves_capture_one b m i name slot mode read prefix acc h :
  leaves (world h) read → leaves h (capture_one size_of_LuaValue b m i name slot mode read prefix acc).
Proof.
  intros Hr. unfold capture_one, capture_value. cbv zeta. leaves_steps.
Qed.

Lemma find_binding_ok name i l j b :
  find_binding (El := El) (Y := Y) (D := D) name i l = Some (j, b) →
  i <= j ∧ l !! N.to_nat (j - i) = Some b ∧ scriptName b = name.
Proof.
  revert i. induction l as [|b' l IH]; intros i; cbn; [done|].
  destruct (String.eqb_spec (scriptName b') name) as [E|_].
  - intros [= -> ->]. rewrite N.sub_diag. split_and!; [lia|done|done].
  - intros (Hle & Hl & Hn)%IH. split_and!; [lia| |done].
    by replace (N.to_nat (j - i)) with (S (N.to_nat (j - (i + 1)))) by lia.
Qed.

(** The target that a grant resolves to. *)
Record admitted h (g : LuaScopeGrant) (i : N) b (m : LuaModelBindingMetadata)
    (slot : ComponentSlotId) : Prop := {
  am_binding : bindings (runner h) !! N.to_nat i = Some b;
  am_name : scriptName b = grant_scriptTypeName g;
  am_metadata : metadata b = Some m;
  am_slot : (resolveTarget b caller (grant_componentName g) (world h)).1 = Ok (Some slot)
}.

Lemma admit_grant_ok earlier index g h :
  runner_ok (runner h) →
  leaves h (admit_grant caller earlier index g) ∧
  ∀ i b m slot, (admit_grant caller earlier index g h).1 = Ok (inl (i, b, m, slot)) →
    admitted h g i b m slot ∧ existsb (λ e, same_target e g) earlier = false.
Proof.
  intros [He _ _]. unfold leaves, admit_grant. rewrite (stm_bind_eq _ _ h h h) by done.
  destruct (String.eqb _ ""); [done|]. destruct (String.eqb _ ""); [done|].
  destruct (_ <? _); [done|]. destruct (_ <? _); [done|].
  destruct (existsb _ earlier); [done|].
  destruct (find_binding _ 0 _) as [[i b]|] eqn:Ef; [|done].
  destruct (metadata b) as [m|] eqn:Em; [|done].
  apply find_binding_ok in Ef as (_ & Hb & Hn). rewrite N.sub_0_r in Hb.
  assert (leaves (world h) (resolveTarget b caller (grant_componentName g))) as Hr.
  { apply leaves_keeps. rewrite Forall_forall in He.
    by destruct (exposed_reads b caller (MkHandle 0 0 0) 0 (grant_componentName g) (MkHandle 0 0 0)
      (He b (list_elem_of_lookup_2 _ _ _ Hb))) as (_ & _ & ? & _). }
  unfold mbind, stm_bind. rewrite (on_world_eq _ _ Hr).
  destruct (resolveTarget b caller _ (world h)) as [[[slot|]|e] w] eqn:Es; cbn [fst snd]; try done.
  split; [done|]. intros j b' m' slot' [= <- <- <- <-]. split; [|done]. by split; [..|rewrite Es].
Qed.

(** ** What a manifest holds *)

(** A capability captured from a binding in a mode, with what [read] returned. *)
Record captured_as b (m : LuaModelBindingMetadata) (name : string) (cm : ComponentAccessMode)
    (value : res LuaValue) (c : LuaManifestCapability) : Prop := {
  ca_type : scriptTypeName c = scriptName b;
  ca_name : componentName c = name;
  ca_mode : mode c = cm;
  ca_description : cap_description c = bindingDescription m;
  ca_unread : cm = Write → readSchema c = None ∧ readValue c = None;
  ca_value : cm ≠ Write → readSchema c = Some (read_schema m) ∧
    ∃ v, value = Ok v ∧ readValue c = Some v ∧ validate_lua_value (read_schema m) v = Ok None;
  ca_write : writeSchema c = if decide (cm = Read) then None else Some (write_schema m)
}.

(** What the metadata of a binding guarantees. *)
Definition metadata_typed (m : LuaModelBindingMetadata) : Prop :=
  slen (bindingDescription m) < 2 ^ 63 ∧ built (read_schema m) ∧ built (write_schema m).

Lemma capture_value_ok read prefix s n h :
  leaves (world h) read →
  ∀ v n', (capture_value size_of_LuaValue read prefix s n h).1 = Ok (inl (v, n')) →
  (read (world h)).1 = Ok v ∧ validate_lua_value s v = Ok None.
Proof.
  intros Hr v n'. unfold capture_value. rewrite (stm_bind_eq _ _ h h h) by done.
  unfold mbind, stm_bind, attempt. rewrite (on_world_eq _ _ Hr).
  destruct (read (world h)) as [[v'|e] w]; cbn [fst snd]; [|done].
  destruct (measure_lua_value _ _ v' 0 _) as [[u|e] k]; cbn; [|done].
  destruct (validate_lua_value s v') as [[e|]|e] eqn:Ev; cbn; try done.
  by intros [= -> _].
Qed.

Lemma capture_one_ok b m i name slot cm read prefix acc acc' h :
  leaves (world h) read → building acc.1 → metadata_typed m →
  (capture_one size_of_LuaValue b m i name slot cm read prefix acc h).1 = Ok (inl acc') →
  ∃ c, acc'.1 = pushed c (MkEntry i (binding_type b) slot) acc.1 ∧ building acc'.1 ∧
    captured_as b m name cm (read (world h)).1 c.
Proof.
  intros Hr Hb (Hd & Hrs & Hws). unfold capture_one. cbv zeta.
  match goal with |- context [?m ≫= _] => set (captured := m) end.
  assert (leaves h captured) as Hl.
  { subst captured. unfold capture_value. leaves_steps. }
  unfold mbind, stm_bind. rewrite (leaves_outcome _ _ Hl).
  destruct (captured h).1 as [[[v n]|e]|e] eqn:Ec; cbn [fst snd]; try done.
  unfold add_capability. match goal with |- context [LuaManifest.add ?c0 ?e0 _] => set (c := c0); set (entry := e0) end.
  cbn [fst]. assert (typed_capability c) as Hty.
  { split; cbn; [done|..]; intros s; destruct (bool_decide (cm ≠ Write)), (bool_decide (cm ≠ Read)); intros Hs;
      first [discriminate Hs|by injection Hs as <-]. }
  assert (captured_as b m name cm (read (world h)).1 c) as Hc.
  { subst captured. destruct (bool_decide_reflect (cm ≠ Write)) as [Hm|Hm].
    - unfold mbind, stm_bind in Ec.
      destruct (capture_value _ _ _ _ _ h) as [[[[v' n']|e]|e] h'] eqn:Ev; try done.
      injection Ec as <- <-. destruct (capture_value_ok read prefix (read_schema m) acc.2 h Hr v' n') as [Hv Hs].
      { by rewrite Ev. }
      split; cbn; try done.
      + intros _. split; [done|]. by exists v'.
      + destruct (bool_decide_reflect (cm ≠ Read)), (decide (cm = Read)); congruence || tauto.
    - injection Ec as <- <-. assert (cm = Write) as -> by (destruct (decide (cm = Write)); tauto).
      split; cbn; done. }
  clearbody c. destruct (add_spec c entry acc.1 (building_accounted _ Hb) Hty) as [[E _]|[[text E] _]].
  - pose proof (building_add c entry _ Hty Hb) as Hb'. rewrite E in Hb' |- *. cbn [fst snd] in *.
    intros [= <-]. exists c. cbn [fst]. split_and!; done.
  - rewrite E. cbn. done.
Qed.

(** What a scope manifest holds for a grant, next to the entry of its capture. *)
Definition granted h (g : LuaScopeGrant) (x : LuaManifestCapability * Entry) : Prop :=
  ∃ i b m slot, admitted h g i b m slot ∧ x.2 = MkEntry i (binding_type b) slot ∧
    captured_as b m (grant_componentName g) (grant_mode g) (encodeTarget b caller slot (world h)).1 x.1.

Definition bindings_typed (r : Runner) : Prop :=
  ∀ b m, b ∈ bindings r → metadata b = Some m → slen (bindingDescription m) < 2 ^ 63.

Lemma metadata_ok r b m :
  runner_ok r → bindings_typed r → b ∈ bindings r → metadata b = Some m → metadata_typed m.
Proof.
  intros [He _ _] Ht Hb Hm. split; [by eapply Ht|]. rewrite Forall_forall in He.
  by apply (ex_schemas b (He b Hb)).
Qed.

Lemma exposed_target b h slot :
  runner_ok (runner h) → b ∈ bindings (runner h) → leaves (world h) (encodeTarget b caller slot).
Proof.
  intros [He _ _] Hb. rewrite Forall_forall in He. apply leaves_keeps.
  by destruct (exposed_reads b caller (MkHandle 0 0 0) 0 "" slot (He b Hb)) as (_ & _ & _ & ?).
Qed.

Lemma set_expression_set e e' c : set_expression e (set_expression e' c) = set_expression e c.
Proof. done. Qed.

(** The items of a builder, as they were given to it. *)
Definition with_expression (x : LuaManifestCapability * Entry) : LuaManifestCapability * Entry :=
  (set_expression (access_expression x.1) x.1, x.2).

(** The names a grant is about. *)
Definition names_of (g : LuaScopeGrant) : string * string :=
  (grant_scriptTypeName g, grant_componentName g).

Lemma same_target_names (a b : LuaScopeGrant) : same_target a b = true ↔ names_of a = names_of b.
Proof.
  unfold same_target, names_of. rewrite andb_true_iff, !String.eqb_eq. split; [by intros [-> ->]|].
  by intros [= -> ->].
Qed.

Lemma fresh_target earlier g :
  NoDup (names_of <$> earlier) → existsb (λ e, same_target e g) earlier = false →
  NoDup (names_of <$> earlier ++ [g]).
Proof.
  intros Hnd Hno. rewrite fmap_app. apply NoDup_app. split_and!; [done| |repeat constructor; by intros ?%elem_of_nil].
  intros n (e & -> & He)%list_elem_of_fmap Heq%list_elem_of_singleton.
  assert (existsb (λ e, same_target e g) earlier = true); [|congruence].
  apply existsb_exists. exists e. split; [by apply list_elem_of_In|by apply same_target_names].
Qed.

Definition target_of (x : LuaManifestCapability * Entry) : LuaScopeTarget :=
  MkScopeTarget (entry_type x.2) (entry_slot x.2).

(** What the loop over the grants [l] did to the builder. *)
Record collected h (l : list LuaScopeGrant) (u u' : Builder)
    (caps : list (LuaManifestCapability * Entry)) : Prop := {
  co_granted : Forall2 (granted h) l caps;
  co_items : items u' = items u ++ map with_expression caps;
  co_capture : builder_capture u' = builder_capture u;
  co_now : builder_now u' = builder_now u;
  co_building : building u'
}.

Lemma capture_grants_ok h l : ∀ earlier index acc,
  runner_ok (runner h) → bindings_typed (runner h) → building acc.1 → NoDup (names_of <$> earlier) →
  leaves h (capture_grants size_of_LuaValue caller earlier index l acc) ∧
  ∀ acc', (capture_grants size_of_LuaValue caller earlier index l acc h).1 = Ok (inl acc') →
    NoDup (names_of <$> earlier ++ l) ∧ ∃ caps, collected h l acc.1 acc'.1 caps ∧
      resolve_grants caller earlier index l h = (Ok (Some (map target_of caps)), h).
Proof.
  induction l as [|g l IH]; intros earlier index acc Hr Ht Hb Hnd.
  { split; [done|]. intros acc' [= <-]. rewrite app_nil_r. split; [done|]. exists []. split; [|done].
    split; [constructor|by rewrite app_nil_r|done|done|done]. }
  cbn [capture_grants resolve_grants]. destruct (admit_grant_ok earlier index g h Hr) as [Hl Ha].
  unfold leaves, mbind, stm_bind. rewrite (leaves_outcome _ _ Hl).
  destruct (admit_grant caller earlier index g h).1 as [[[[[i b] m] slot]|e]|e] eqn:Eg; cbn [fst snd]; [|by split..].
  destruct (Ha i b m slot eq_refl) as [Hadm Hnew].
  pose proof (list_elem_of_lookup_2 _ _ _ (am_binding _ _ _ _ _ _ Hadm)) as Hin.
  pose proof (exposed_target b h slot Hr Hin) as Hread.
  pose proof (metadata_ok _ b m Hr Ht Hin (am_metadata _ _ _ _ _ _ Hadm)) as Hm.
  set (one := capture_one _ _ _ _ _ _ _ _ _ _).
  assert (leaves h one) as Hone by by apply leaves_capture_one.
  rewrite (leaves_outcome _ _ Hone).
  destruct (one h).1 as [[acc1|e]|e] eqn:E1; cbn [fst snd]; [|by split..].
  destruct (capture_one_ok _ _ _ _ _ _ _ _ _ _ _ Hread Hb Hm E1) as (c & Hpush & Hb1 & Hc).
  destruct (IH (earlier ++ [g]) (index + 1) acc1 Hr Ht Hb1 (fresh_target _ _ Hnd Hnew)) as [Hrest Hok].
  split; [exact Hrest|]. intros acc' E. destruct (Hok acc' E) as (Hnd' & caps & [Hg Hi Hcap Hnow Hb'] & Hres).
  rewrite <-app_assoc in Hnd'. split; [done|].
  exists ((c, MkEntry i (binding_type b) slot) :: caps). split.
  - split.
    + constructor; [|done]. by exists i, b, m, slot.
    + rewrite Hi, Hpush. cbn [pushed items map]. by rewrite <-app_assoc.
    + by rewrite Hcap, Hpush.
    + by rewrite Hnow, Hpush.
    + done.
  - rewrite Hres. done.
Qed.

Lemma leaves_resolve h l : ∀ earlier index,
  runner_ok (runner h) → leaves h (resolve_grants caller earlier index l).
Proof.
  induction l as [|g l IH]; intros earlier index Hr; cbn [resolve_grants]; [done|].
  destruct (admit_grant_ok earlier index g h Hr) as [Hl _]. apply leaves_bind; [done|].
  intros [[[[i b] m] slot]|e] _; [|done]. apply leaves_bind; [by apply IH|]. by intros [].
Qed.

Lemma leaves_targets h grants : runner_ok (runner h) → leaves h (scope_targets caller grants).
Proof.
  intros Hr. unfold scope_targets. destruct (_ || _); [done|]. by apply leaves_resolve.
Qed.

Lemma finish_capture_ok (b : Builder) n h :
  finish_capture (inl (b, n)) h =
    (Ok (inl (MkManifest (builder_now b) (map fst (stable_sort (items b)))
       (set_entries (map snd (stable_sort (items b))) (builder_capture b)) (logicalBytes b))),
     set_runner (set_started (runner h)) h).
Proof. done. Qed.

(** A capture returns a result: a manifest, after which the bindings are frozen,
    or an error, after which everything is as before. *)
Definition after (r : LuaManifestResult) h : Hosted :=
  match r with inl _ => set_runner (set_started (runner h)) h | inr _ => h end.

Lemma outcome_refused (x : res LuaManifestResult * Hosted) e h (P : LuaCapabilityManifest → Prop) :
  x = (Ok (inr e), h) → ∃ r, x = (Ok r, after r h) ∧ ∀ m, r = inl m → P m.
Proof. intros ->. by exists (inr e). Qed.

Lemma scope_manifest_outcome grants now h :
  runner_ok (runner h) → bindings_typed (runner h) →
  ∃ r, scope_manifest size_of_LuaValue caller grants now h = (Ok r, after r h) ∧
    ∀ m, r = inl m →
      nowMs m = now ∧ NoDup (names_of <$> grants) ∧
      ∃ caps, Forall2 (granted h) grants caps ∧
        zip (manifest_entries m) (capturedEntries (captureData m)) ≡ₚ map with_expression caps ∧
        scope_targets caller grants h = (Ok (Some (map target_of caps)), h).
Proof.
  intros Hr Ht. unfold scope_manifest, capturing, stry.
  destruct (lua_integer_max <? now); [by eapply outcome_refused|].
  destruct (bool_decide (grants = [])) eqn:Enil; [by eapply outcome_refused|].
  destruct (LuaManifestMaxCapabilities <? len grants) eqn:Emany; [by eapply outcome_refused|].
  assert (leaves h (on_world (WorldQueries.instance_id (El := El) (Y := Y) (D := D) caller))) as Hi.
  { apply leaves_on_world, leaves_keeps. unfold WorldQueries.instance_id, owned_query, owned. keep_steps. }
  unfold mbind at 1, stm_bind at 1. rewrite (leaves_outcome _ _ Hi).
  destruct (on_world (WorldQueries.instance_id caller) h).1 as [instance|e]; cbn [fst snd]; [|by eapply outcome_refused].
  rewrite (stm_bind_eq _ _ h h h) by done.
  set (b0 := new_Builder _ _).
  destruct (capture_grants_ok h grants [] 0 (b0, 0) Hr Ht (building_new _ _) (NoDup_nil_2)) as [Hl Hok].
  unfold mbind, stm_bind. rewrite (leaves_outcome _ _ Hl).
  destruct (capture_grants _ _ _ _ _ _ h).1 as [[[b n]|e]|e]; cbn [fst snd]; [|by eapply outcome_refused..].
  rewrite finish_capture_ok. exists (inl (MkManifest (builder_now b) (map fst (stable_sort (items b)))
    (set_entries (map snd (stable_sort (items b))) (builder_capture b)) (logicalBytes b))).
  split; [done|]. intros m [= <-].
  destruct (Hok (b, n) eq_refl) as (Hnd & caps & [Hg Hit Hcap Hnow Hb] & Hres).
  cbn [nowMs manifest_entries captureData capturedEntries set_entries]. cbn [fst] in *.
  split_and!; [by rewrite Hnow|done|]. exists caps. split_and!; [done| |].
  - rewrite zip_fst_snd, stable_sort_permutation, Hit. done.
  - unfold scope_targets. by rewrite Enil, Emany.
Qed.

(** ** Manifests of behaviours *)

(** What a manifest holds for a described capability. *)
Definition listed h (owner : BehaviorId) (d : CapabilityDescription)
    (x : LuaManifestCapability * Entry) : Prop :=
  ∃ b m, bindings (runner h) !! N.to_nat (desc_binding d) = Some b ∧ metadata b = Some m ∧
    x.2 = MkEntry (desc_binding d) (binding_type b) (desc_slot d) ∧
    captured_as b m (desc_name d) (description_mode d)
      (binding_snapshot b caller owner (desc_name d) (world h)).1 x.1.

(** Whether the binding of a description has metadata. *)
Definition has_metadata (r : Runner) (d : CapabilityDescription) : bool :=
  match bindings r !! N.to_nat (desc_binding d) with
  | Some b => match metadata b with Some _ => true | None => false end
  | None => false
  end.

Lemma exposed_snapshot b h owner name :
  runner_ok (runner h) → b ∈ bindings (runner h) → leaves (world h) (binding_snapshot b caller owner name).
Proof.
  intros [He _ _] Hb. rewrite Forall_forall in He. apply leaves_keeps.
  by destruct (exposed_reads b caller owner 0 name (MkHandle 0 0 0) (He b Hb)) as (_ & ? & _ & _).
Qed.

Lemma capture_descriptions_ok h owner l : ∀ acc,
  runner_ok (runner h) → bindings_typed (runner h) → building acc.1 →
  leaves h (capture_all (capture_description size_of_LuaValue caller owner) l acc) ∧
  ∀ acc', (capture_all (capture_description size_of_LuaValue caller owner) l acc h).1 = Ok (inl acc') →
    ∃ caps, Forall2 (listed h owner) (List.filter (has_metadata (runner h)) l) caps ∧
      items acc'.1 = items acc.1 ++ map with_expression caps ∧
      builder_now acc'.1 = builder_now acc.1.
Proof.
  induction l as [|d l IH]; intros acc Hr Ht Hb.
  { split; [done|]. intros acc' [= <-]. exists []. split_and!; [constructor|by rewrite app_nil_r|done]. }
  cbn [capture_all List.filter]. set (one := capture_description _ _ _ d acc).
  assert (leaves h one ∧ ∀ acc1, (one h).1 = Ok (inl acc1) → building acc1.1 ∧
    ∃ caps, Forall2 (listed h owner) (if has_metadata (runner h) d then [d] else []) caps ∧
      items acc1.1 = items acc.1 ++ map with_expression caps ∧ builder_now acc1.1 = builder_now acc.1)
    as [Hl Hone].
  { subst one. unfold capture_description, has_metadata. unfold leaves. rewrite (stm_bind_eq _ _ h h h) by done.
    destruct (bindings (runner h) !! N.to_nat (desc_binding d)) as [b|] eqn:Eb; [|done].
    destruct (metadata b) as [m|] eqn:Em.
    2:{ split; [done|]. intros acc1 [= <-]. split; [done|]. exists [].
        split_and!; [constructor|by rewrite app_nil_r|done]. }
    pose proof (list_elem_of_lookup_2 _ _ _ Eb) as Hin.
    pose proof (exposed_snapshot b h owner (desc_name d) Hr Hin) as Hread.
    split; [by apply leaves_capture_one|]. intros acc1 E1.
    destruct (capture_one_ok _ _ _ _ _ _ _ _ _ _ _ Hread Hb (metadata_ok _ b m Hr Ht Hin Em) E1)
      as (c & Hpush & Hb1 & Hc).
    split; [done|]. exists [(c, MkEntry (desc_binding d) (binding_type b) (desc_slot d))].
    rewrite Hpush. split_and!; [|done|done]. repeat constructor. by exists b, m. }
  unfold leaves, mbind, stm_bind. rewrite (leaves_outcome _ _ Hl).
  destruct (one h).1 as [[acc1|e]|e] eqn:E1; cbn [fst snd]; [|by split..].
  destruct (Hone acc1 eq_refl) as (Hb1 & caps1 & Hc1 & Hi1 & Hn1).
  destruct (IH acc1 Hr Ht Hb1) as [Hrest Hok]. split; [exact Hrest|].
  intros acc' E. destruct (Hok acc' E) as (caps2 & Hc2 & Hi2 & Hn2).
  exists (caps1 ++ caps2). split_and!.
  - replace (if has_metadata (runner h) d then d :: List.filter (has_metadata (runner h)) l
      else List.filter (has_metadata (runner h)) l)
      with ((if has_metadata (runner h) d then [d] else []) ++ List.filter (has_metadata (runner h)) l)
      by by destruct (has_metadata (runner h) d).
    by apply Forall2_app.
  - by rewrite Hi2, Hi1, map_app, app_assoc.
  - by rewrite Hn2, Hn1.
Qed.
End Spec.
