(* ===== verification/LuaRunnerRuns.v ===== *)
(** * A runner beside a world in use

    Whatever programs do to the world between the captures, the cache of
    capabilities is never stale, and a manifest shows the rights of the moment. *)
From stdpp Require Import pretty.
From S2P Require Import Prelude OrderedMap Values Ids Hoare Behaviors Intents Components ComponentSpec ComponentRuns Coordinator World WorldQueries CoordinatorSpec CoordinatorAccess CoordinatorRights WorldSpec Client ClientRuns LuaSchema LuaSchemaSpec LuaValidation LuaManifest LuaManifestSpec LuaLimits LuaRunner LuaRunnerSpec.

Section Descriptions.
Context {K : Type} `{Countable K} {El : K → Type}.
Context {Y : Type} `{Countable Y} {D : Type}.
Abbreviation World := (Coordinator.World El Y D).
Abbreviation Binding := (LuaRunner.Binding (El := El) (Y := Y) (D := D)).
Abbreviation Runner := (LuaRunner.Runner (El := El) (Y := Y) (D := D)).
Abbreviation Hosted := (LuaRunner.Hosted (El := El) (Y := Y) (D := D)).
Implicit Types (h : Hosted) (b : Binding) (V : gmap N (@type_view K El)) (w : World).

(** ** What the view of a world says a binding describes *)

Definition describe_right V (t : N) (owner : BehaviorId) (i : N) (e : string * ComponentSlotId)
  : option CapabilityDescription :=
  let r := allowed Mode_r (right_at V t owner e.1) in
  let w := allowed Mode_w (right_at V t owner e.1) in
  if r || w then Some (MkDescription i e.1 e.2 r w) else None.

Definition described V (owner : BehaviorId) (i : N) b (l : list CapabilityDescription) : Prop :=
  ∃ available : gmap string ComponentSlotId,
    (∀ n s, available !! n = Some s ↔
       handle_at V (binding_type b) n = Some s ∧ is_Some (right_at V (binding_type b) owner n)) ∧
    l = omap (describe_right V (binding_type b) owner i) (named_entries available).

Fixpoint describing V (owner : BehaviorId) (i : N) (bs : list Binding) (l : list CapabilityDescription)
  : Prop :=
  match bs with
  | [] => l = []
  | b :: bs => ∃ here rest, described V owner i b here ∧ describing V owner (i + 1) bs rest ∧ l = here ++ rest
  end.

Lemma described_unique V owner i b l l' :
  described V owner i b l → described V owner i b l' → l = l'.
Proof.
  intros (a & Ha & ->) (a' & Ha' & ->). replace a' with a; [done|].
  apply map_eq. intros n. apply option_eq. intros s. by rewrite Ha, Ha'.
Qed.

Lemma describing_unique V owner bs : ∀ i l l',
  describing V owner i bs l → describing V owner i bs l' → l = l'.
Proof.
  induction bs as [|b bs IH]; intros i l l'; cbn; [by intros -> ->|].
  intros (a & r & Ha & Hr & ->) (a' & r' & Ha' & Hr' & ->).
  by rewrite (described_unique _ _ _ _ _ _ Ha Ha'), (IH _ _ _ Hr Hr').
Qed.

(** It stays the same while what the behaviour reaches does. *)
Lemma described_reach V V' owner i b l :
  same_reach V V' owner → described V owner i b l → described V' owner i b l.
Proof.
  intros Hs (a & Ha & ->). exists a. split.
  - intros n s. rewrite Ha. destruct (Hs (binding_type b) n) as [-> Hh]. split.
    + intros [Hn Hr]. split; [|done]. by destruct (Hh Hr) as [-> _].
    + intros [Hn Hr]. split; [|done]. by destruct (Hh Hr) as [<- _].
  - apply list_omap_ext. apply Forall2_same_length_lookup_2; [done|].
    intros j x y Hx Hy. rewrite Hx in Hy. injection Hy as <-. unfold describe_right.
    by destruct (Hs (binding_type b) x.1) as [-> _].
Qed.

Lemma describing_reach V V' owner bs : ∀ i l,
  same_reach V V' owner → describing V owner i bs l → describing V' owner i bs l.
Proof.
  induction bs as [|b bs IH]; intros i l Hs; cbn; [done|].
  intros (a & r & Ha & Hr & ->). exists a, r.
  split_and!; [by eapply described_reach|by apply IH|done].
Qed.

(** ** What the closures return *)

Context (caller : N).

Lemma owned_query_ok {A} (q : WorldState El Y → res A) w x :
  (owned_query (D := D) caller q w).1 = Ok x → q (state w) = Ok x.
Proof.
  unfold owned_query, owned, mbind, stm_bind, ensure_owner_thread, sreject_if, slift, reject_if.
  by destruct (negb _).
Qed.

Lemma leaves_owned_query {A} (q : WorldState El Y → res A) w : leaves w (owned_query (D := D) caller q).
Proof. apply leaves_keeps. unfold owned_query, owned. keep_steps. Qed.

Lemma describe_each_ok X w V G L k type owner i l x :
  parts_ok X w V G L → fits (instanceId (state w)) V k type →
  (describe_each caller k type owner i l w).1 = Ok x →
  x = omap (describe_right V (type_id type) owner i) l.
Proof.
  intros Hp Hf. revert x. induction l as [|[n s] l IH]; intros x; cbn [describe_each]; [by intros [= <-]|].
  intros (r & Hr%owned_query_ok & E)%leaves_bind_ok; [|apply leaves_owned_query].
  apply leaves_bind_ok in E as (u & Hu%owned_query_ok & E); [|apply leaves_owned_query].
  apply leaves_bind_ok in E as (rest & Hrest%IH & E).
  2:{ apply leaves_keeps, reading_each. }
  unfold CoordinatorQueries.can_read_component, CoordinatorQueries.can_write_component, can_read, can_write in *.
  rewrite (proj1 (named_access Hp Mode_r k type owner n) Hf) in Hr.
  rewrite (proj1 (named_access Hp Mode_w k type owner n) Hf) in Hu.
  injection Hr as <-. injection Hu as <-. injection E as <-. subst rest.
  cbn [omap list_omap]. unfold describe_right. cbn [fst snd].
  by destruct (allowed Mode_r (right_at V (type_id type) owner n)),
    (allowed Mode_w (right_at V (type_id type) owner n)).
Qed.

Lemma describe_described X w V G L b owner i l :
  exposed b → parts_ok X w V G L → (describe b caller owner i w).1 = Ok l → described V owner i b l.
Proof.
  intros [(k & type & [[enc|] [dec|]] & b0 & Hb & Et & Ed & _) _] Hp; try done. rewrite Ed. clear Ed.
  unfold make_binding in Hb. cbn in Hb.
  injection Hb as <-. cbn [describe].
  intros (available & Hav & E)%leaves_bind_ok.
  2:{ apply leaves_keeps. unfold World.get_components, owned, Coordinator.get_components. keep_steps. }
  assert (Components.get_components k type owner (componentRegistry (state w)) = Ok available) as Hq.
  { revert Hav. unfold World.get_components, owned. intros (_ & _ & Hav)%leaves_bind_ok.
    2:{ apply leaves_keeps. keep_steps. }
    unfold Coordinator.get_components in Hav. apply leaves_bind_ok in Hav as (_ & _ & Hav); [done|].
    apply leaves_keeps. keep_steps. }
  destruct (ask_type Hp k type) as [[Hf _]|[_ [msg Em]]].
  2:{ unfold Components.get_components in Hq. by rewrite Em in Hq. }
  exists available. rewrite Et. split; [|by eapply describe_each_ok].
  destruct (fits_view Hp Hf) as (vw & HV & <- & Ht).
  destruct (ComponentRuns.query_components (po_components _ _ _ _ _ Hp) type owner vw Ht HV) as (av & Eav & Hspec).
  rewrite Hq in Eav. injection Eav as <-. intros n s. rewrite Hspec.
  rewrite (handle_at_view _ _ _ _ HV), (right_at_view _ _ _ _ _ HV), fmap_Some.
  split; intros [Hn Hr]; (split; [|done]).
  - destruct Hn as [v Hn]. by exists (s, v).
  - destruct Hn as ([s' v] & Hn & ->). by exists v.
Qed.

Lemma describe_all_describing X w V G L owner bs : ∀ i l,
  Forall exposed bs → parts_ok X w V G L → (describe_all caller owner i bs w).1 = Ok l →
  describing V owner i bs l.
Proof.
  induction bs as [|b bs IH]; intros i l He Hp; cbn [describe_all describing]; [by intros [= <-]|].
  inversion He as [|? ? Hb Hbs]; subst.
  intros (here & Hhere & E)%leaves_bind_ok.
  2:{ apply leaves_keeps. by apply (exposed_reads b caller owner i "" (MkHandle 0 0 0)). }
  apply leaves_bind_ok in E as (rest & Hrest & [= <-]).
  2:{ apply leaves_keeps. clear -Hbs. revert i. induction Hbs as [|b' bs Hb' _ IH']; intros i; cbn; [keep_steps|].
      apply keeps_bind; [apply _|by apply (exposed_reads b' caller owner (i + 1) "" (MkHandle 0 0 0))|].
      intros a. apply keeps_bind; [apply _|apply IH'|]. intros a'. keep_steps. }
  exists here, rest. split_and!; [by eapply describe_described|by apply IH|done].
Qed.

(** ** The cache *)

Record cache_ok V w (r : Runner) : Prop := {
  ch_entries (instance : N) (owner : BehaviorId) e : cache r !! (instance, owner) = Some e →
    instance = instanceId (state w) ∧
    cached_revision e <= lastBehaviorAccessRevision (state w) ∧
    (behaviorAccessRevisions (state w) !! owner = Some (cached_revision e) →
       describing V owner 0 (bindings r) (descriptions e));
  ch_size : N.of_nat (size (cache r)) <= MaximumCachedCapabilityEntries
}.

(** A runner that differs in its cache only. *)
Record same_runner (r r' : Runner) : Prop := {
  sr_bindings : bindings r' = bindings r;
  sr_limits : limits r' = limits r;
  sr_id : runner_id r' = runner_id r;
  sr_started : started r' = started r
}.
#[local] Instance same_runner_preorder : PreOrder same_runner.
Proof. split; [done|]. intros r1 r2 r3 [] []. split; congruence. Qed.

Lemma cache_ok_tracks V w V' w' r :
  cache_ok V w r → tracks w V w' V' → instanceId (state w') = instanceId (state w) → cache_ok V' w' r.
Proof.
  intros [He Hs] [Hlast Hrev] Ei. split; [|done]. intros inst b e Hin.
  destruct (He inst b e Hin) as (-> & Hle & Hd). split_and!; [done|lia|].
  intros Hb. destruct (Hrev b _ Hb) as [Hlt|[Hsame Hreach]]; [lia|].
  eapply describing_reach; [exact Hreach|by apply Hd].
Qed.

Lemma cache_ok_fewer V w r r' :
  cache_ok V w r → same_runner r r' → cache r' ⊆ cache r → cache_ok V w r'.
Proof.
  intros [He Hs] [Eb _ _ _] Hsub. split.
  - intros inst b e Hin. rewrite Eb. by eapply He, lookup_weaken.
  - pose proof (map_subseteq_size _ _ Hsub). lia.
Qed.

(** A call that, whatever its outcome, only affects the cache. *)
Definition caching {A} (Q : res A → Runner → Prop) (m : stm Hosted A) h : Prop :=
  wp m (λ x h', world h' = world h ∧ same_runner (runner h) (runner h') ∧ Q x (runner h')) h.

Lemma wp_read {A} (m : stm World A) (Q : res A → Hosted → Prop) h :
  leaves (world h) m → Q (m (world h)).1 h → wp (on_world m) Q h.
Proof. intros Hl HQ. unfold wp. by rewrite (on_world_eq _ _ Hl). Qed.

Lemma wp_runner f (Q : res unit → Hosted → Prop) h :
  Q (Ok tt) (set_runner (f (runner h)) h) → wp (on_runner (smodify f)) Q h.
Proof. done. Qed.

Lemma prune_cache_ok h :
  caching (λ x r', cache r' ⊆ cache (runner h) ∧
    (is_ok x = true → N.of_nat (size (cache r')) < MaximumCachedCapabilityEntries))
    (prune_cache caller) h.
Proof.
  unfold caching, prune_cache. eapply wp_bind_eq; [done|]. apply wp_bind.
  eapply (wp_for _ _ (λ _ h', world h' = world h ∧ same_runner (runner h) (runner h') ∧
    cache (runner h') ⊆ cache (runner h))); [done| |].
  - intros entry k h1 (Ew & Es & Hsub). apply wp_bind, wp_read.
    { apply leaves_owned_query. }
    destruct (behavior_exists caller entry.1.2 (world h1)).1 as [[]|e]; cbn [then_wp].
    + by apply wp_ret.
    + apply wp_runner. cbn. split_and!; [done|by etrans; [exact Es|split]|].
      etrans; [apply delete_subseteq|done].
    + split_and!; [done..|by intros].
  - intros h1 (Ew & Es & Hsub). cbn [then_wp]. apply wp_runner. cbn.
    destruct (N.leb_spec MaximumCachedCapabilityEntries (N.of_nat (size (cache (runner h1))))).
    + split_and!; [done|by etrans; [exact Es|split]| |].
      * cbn. apply map_empty_subseteq.
      * intros _. cbn. rewrite map_size_empty. done.
    + split_and!; [done|done|done|lia].
Qed.

(** A world in which the cache may be trusted. *)
Record trusted V h : Prop := {
  ts_parts : ∃ X G L, parts_ok X (world h) V G L;
  ts_entries : entries_ok (world h);
  ts_runner : runner_ok (runner h);
  ts_cache : cache_ok V (world h) (runner h)
}.

Lemma trusted_caching V h h' :
  trusted V h → world h' = world h → same_runner (runner h) (runner h') →
  cache_ok V (world h) (runner h') → trusted V h'.
Proof.
  intros [Hp He [H1 H2 H3] _] Ew [Eb _ _ _] Hc. split; rewrite ?Ew; try done. by split; rewrite Eb.
Qed.

Lemma revision_asked owner w r :
  (WorldQueries.behavior_access_revision (El := El) (Y := Y) (D := D) caller owner w).1 = Ok r →
  behaviorAccessRevisions (state w) !! owner = Some r.
Proof.
  unfold WorldQueries.behavior_access_revision, owned. intros (_ & _ & Hr)%leaves_bind_ok.
  - by apply revision_known.
  - apply leaves_keeps. keep_steps.
Qed.

Lemma leaves_revision owner w :
  leaves w (WorldQueries.behavior_access_revision (El := El) (Y := Y) (D := D) caller owner).
Proof.
  apply leaves_keeps. unfold WorldQueries.behavior_access_revision, owned,
    Coordinator.behavior_access_revision. keep_steps.
Qed.

Lemma leaves_describe_all owner i bs w : Forall exposed bs → leaves w (describe_all caller owner i bs).
Proof.
  intros Hbs. apply leaves_keeps. revert i.
  induction Hbs as [|b bs Hb _ IH]; intros i; cbn [describe_all]; [keep_steps|].
  apply keeps_bind; [apply _|by apply (exposed_reads b caller owner i "" (MkHandle 0 0 0))|].
  intros a. apply keeps_bind; [apply _|apply IH|]. intros a'. keep_steps.
Qed.

Lemma refresh_ok V owner revision h :
  trusted V h → behaviorAccessRevisions (state (world h)) !! owner = Some revision →
  N.of_nat (size (cache (runner h))) < MaximumCachedCapabilityEntries ∨
    is_Some (cache (runner h) !! (instanceId (state (world h)), owner)) →
  caching (λ x r', cache_ok V (world h) r' ∧ ∀ l, x = Ok l → describing V owner 0 (bindings (runner h)) l)
    (refresh_capabilities caller (instanceId (state (world h)), owner) revision) h.
Proof.
  intros [(X & G & L & Hp) He [Hex Hn Ht] [Hc Hs]] Hrev Hroom. unfold caching, refresh_capabilities.
  eapply wp_bind_eq; [done|]. apply wp_bind, wp_read; [by apply leaves_describe_all|]. cbn [snd].
  destruct (describe_all caller owner 0 (bindings (runner h)) (world h)).1 as [l|e] eqn:El'; cbn [then_wp].
  2:{ split_and!; try done. }
  eapply describe_all_describing in El'; [|done|exact Hp].
  apply wp_bind, wp_runner. cbn [then_wp]. apply wp_ret. split_and!; [done|by split| |by intros l' [= <-]].
  cbn [set_runner runner]. split; cbn [set_cache cache bindings].
  - intros inst b e. rewrite lookup_insert_Some. intros [[[= <- <-] <-]|[_ Hin]]; [|by apply Hc].
    cbn. split_and!; [done|by apply (en_last _ He owner)|done].
  - destruct Hroom as [Hroom|[e Hin]].
    + destruct (cache (runner h) !! (instanceId (state (world h)), owner)) eqn:E.
      * rewrite map_size_insert_Some by (by eexists). lia.
      * rewrite map_size_insert_None by done. lia.
    + by rewrite map_size_insert_Some by (by eexists).
Qed.

Lemma capabilities_for_ok V owner h :
  trusted V h →
  caching (λ x r', cache_ok V (world h) r' ∧ ∀ l, x = Ok l → describing V owner 0 (bindings (runner h)) l)
    (capabilities_for caller owner) h.
Proof.
  intros Hts. pose proof (ts_cache _ _ Hts) as Hcache. unfold caching, capabilities_for.
  apply wp_bind, wp_read; [apply leaves_owned_query|].
  destruct (WorldQueries.instance_id caller (world h)).1 as [instance|e] eqn:Ei; cbn [then_wp]; [|by split_and!].
  apply owned_query_ok in Ei. injection Ei as <-. apply wp_bind, wp_runner. cbn [then_wp].
  set (r1 := if decide _ then _ else _). set (h1 := set_runner r1 h).
  assert (same_runner (runner h) r1 ∧ cache r1 ⊆ cache (runner h)) as [Hs1 Hc1].
  { subst r1. destruct (decide _); [done|]. split; [by split|]. apply map_empty_subseteq. }
  assert (cache_ok V (world h) r1) as Hc1' by by apply (cache_ok_fewer V (world h) (runner h)).
  assert (trusted V h1) as Ht1 by by apply (trusted_caching V h).
  apply wp_bind, wp_read; [apply leaves_revision|].
  destruct (WorldQueries.behavior_access_revision caller owner (world h1)).1 as [revision|e] eqn:Er;
    cbn [then_wp]; [|by split_and!].
  apply revision_asked in Er. eapply wp_bind_eq; [done|]. cbv zeta.
  assert (∀ h2, world h2 = world h → same_runner (runner h) (runner h2) → cache_ok V (world h) (runner h2) →
    N.of_nat (size (cache (runner h2))) < MaximumCachedCapabilityEntries ∨
      is_Some (cache (runner h2) !! (instanceId (state (world h)), owner)) →
    wp (refresh_capabilities caller (instanceId (state (world h)), owner) revision)
      (λ x h', world h' = world h ∧ same_runner (runner h) (runner h') ∧ cache_ok V (world h) (runner h') ∧
        ∀ l, x = Ok l → describing V owner 0 (bindings (runner h)) l) h2) as Hrefresh.
  { intros h2 Ew Es Hc2 Hroom. assert (trusted V h2) as Ht2 by by apply (trusted_caching V h).
    rewrite <-Ew in Hroom |- *. eapply wp_mono; [apply (refresh_ok V owner revision h2 Ht2); [by rewrite Ew|done]|].
    intros x h' (Ew' & Es' & Hc' & Hx). rewrite (sr_bindings _ _ Es) in Hx.
    split_and!; [done|by etrans|done|done]. }
  change (runner h1) with r1. destruct (cache r1 !! _) as [e|] eqn:Ee.
  - destruct (N.eqb_spec (cached_revision e) revision) as [Heq|_]; [|by apply Hrefresh; [..|right]].
    apply wp_ret. split_and!; [done|done|done|]. intros l [= <-].
    destruct (ch_entries _ _ _ Hc1' _ _ _ Ee) as (_ & _ & Hd). rewrite (sr_bindings _ _ Hs1) in Hd.
    apply Hd. by rewrite Heq.
  - apply wp_bind. destruct (N.leb_spec MaximumCachedCapabilityEntries (N.of_nat (size (cache r1)))) as [Hle|Hlt].
    2:{ apply wp_ret. cbn [then_wp]. apply Hrefresh; [done|done|done|by left]. }
    eapply wp_mono; [apply prune_cache_ok|]. intros x h2 (Ew & Es & Hsub & Hsize).
    assert (cache_ok V (world h) (runner h2)) as Hc2 by by apply (cache_ok_fewer V (world h) r1).
    assert (same_runner (runner h) (runner h2)) as Hs2 by by etrans.
    destruct x as [[]|e]; cbn [then_wp]; [|by split_and!].
    apply Hrefresh; [done|done|done|left; by apply Hsize].
Qed.

(** ** Manifests *)

Context (size_of_LuaValue : N).

(** A call that leaves the world and what the runner was told. *)
Record undisturbed_host V h h' : Prop := {
  uh_world : world h' = world h;
  uh_bindings : bindings (runner h') = bindings (runner h);
  uh_limits : limits (runner h') = limits (runner h);
  uh_cache : cache_ok V (world h) (runner h')
}.

Lemma caching_undisturbed V h h' :
  world h' = world h → same_runner (runner h) (runner h') → cache_ok V (world h) (runner h') →
  undisturbed_host V h h'.
Proof. intros Ew [] Hc. by split. Qed.

Lemma cache_ok_started V w r : cache_ok V w r → cache_ok V w (set_started r).
Proof. by intros []; split. Qed.

Lemma capability_manifest_body V owner now h :
  trusted V h → bindings_typed (runner h) →
  ∃ r h', capability_manifest size_of_LuaValue caller owner now h = (Ok r, h') ∧ undisturbed_host V h h' ∧
    ∀ m, r = inl m → nowMs m = now ∧ ∃ l caps,
      describing V owner 0 (bindings (runner h)) l ∧
      Forall2 (listed caller h owner) (List.filter (has_metadata (runner h)) l) caps ∧
      zip (manifest_entries m) (capturedEntries (captureData m)) ≡ₚ map with_expression caps.
Proof.
  intros Hts Hty. pose proof (ts_cache _ _ Hts) as Hcache. unfold capability_manifest, capturing, stry.
  match goal with |- context [?body h] => set (m := body) end.
  assert (wp m (λ x h', undisturbed_host V h h' ∧ ∀ k, x = Ok (inl k) → nowMs k = now ∧ ∃ l caps,
      describing V owner 0 (bindings (runner h)) l ∧
      Forall2 (listed caller h owner) (List.filter (has_metadata (runner h)) l) caps ∧
      zip (manifest_entries k) (capturedEntries (captureData k)) ≡ₚ map with_expression caps) h) as Hm.
  2:{ destruct (m h) as [[r|e] h'] eqn:E; destruct (wp_elim _ _ _ _ _ Hm E) as [Hu Hk].
      - exists r, h'. split_and!; [done|done|]. intros k ->. by apply Hk.
      - by eexists (inr _), h'. }
  assert (undisturbed_host V h h) as Hsame by by split.
  subst m. apply wp_bind, wp_read; [apply leaves_owned_query|].
  destruct (behavior_exists caller owner (world h)).1 as [[]|e]; cbn [then_wp negb]; [|by split..].
  destruct (lua_integer_max <? now); [by split|].
  apply wp_bind, wp_read; [apply leaves_owned_query|].
  destruct (WorldQueries.instance_id caller (world h)).1 as [instance|e]; cbn [then_wp]; [|by split].
  apply wp_bind, wp_read; [apply leaves_revision|].
  destruct (WorldQueries.behavior_access_revision caller owner (world h)).1 as [revision|e]; cbn [then_wp]; [|by split].
  eapply wp_bind_eq; [done|]. set (b0 := new_Builder _ _).
  apply wp_bind. eapply wp_mono; [by apply capabilities_for_ok|]. intros x h1 (Ew & Es & Hc1 & Hl).
  pose proof (caching_undisturbed V h h1 Ew Es Hc1) as Hu.
  assert (trusted V h1) as Hts1 by by apply (trusted_caching V h).
  destruct x as [l|e]; cbn [then_wp]; [|by split].
  assert (bindings_typed (runner h1)) as Hty1 by (unfold bindings_typed; by rewrite (sr_bindings _ _ Es)).
  destruct (capture_descriptions_ok size_of_LuaValue caller h1 owner l (b0, 0) (ts_runner _ _ Hts1) Hty1 (building_new _ _))
    as [Hleaves Hok].
  apply wp_bind. unfold wp. rewrite (leaves_outcome _ _ Hleaves). cbn [fst snd].
  destruct (capture_all _ _ _ h1).1 as [[[b n]|e]|e]; cbn [then_wp]; [|by split..].
  unfold wp. rewrite finish_capture_ok. cbn [fst snd]. destruct (Hok (b, n) eq_refl) as (caps & Hg & Hi & Hn).
  split.
  - destruct Hu. split; try done. by apply cache_ok_started.
  - intros k [= <-]. cbn [nowMs manifest_entries captureData capturedEntries set_entries fst] in *.
    split; [by rewrite Hn|]. exists l, caps. split_and!; [by apply Hl| |].
    + unfold listed, has_metadata in *. by rewrite Ew, (sr_bindings _ _ Es) in Hg.
    + by rewrite zip_fst_snd, stable_sort_permutation, Hi.
Qed.
End Descriptions.

(** ** Histories *)

Section Runs.
Context {K : Type} `{Countable K} {El : K → Type}.
Context {Y : Type} `{Countable Y} {D : Type}.
Abbreviation Hosted := (LuaRunner.Hosted (El := El) (Y := Y) (D := D)).
Abbreviation Runner := (LuaRunner.Runner (El := El) (Y := Y) (D := D)).
Context (size_of_LuaValue : N) (host : Y → program (El := El) (Y := Y) (D := D)).

(** What is done to a world and to the runner beside it. *)
Inductive hosted_operation :=
| OnWorld (op : Client.operation (El := El) (Y := Y) (D := D))
| CapabilityManifest (behavior : BehaviorId) (now : IntentTime)
| ScopeManifest (grants : list LuaScopeGrant) (now : IntentTime)
| ScopeTargets (grants : list LuaScopeGrant)
| Snapshot (owner : BehaviorId) (type name : string).

Definition perform_hosted (caller : N) (op : hosted_operation) (h : Hosted) : Hosted :=
  match op with
  | OnWorld op => set_world (Client.perform host caller op (world h)).2 h
  | CapabilityManifest behavior now => (capability_manifest size_of_LuaValue caller behavior now h).2
  | ScopeManifest grants now => (scope_manifest size_of_LuaValue caller grants now h).2
  | ScopeTargets grants => (scope_targets caller grants h).2
  | Snapshot owner type name => (snapshot caller owner type name h).2
  end.

Fixpoint run_hosted (steps : list (N * hosted_operation)) (h : Hosted) : Hosted :=
  match steps with
  | [] => h
  | (caller, op) :: steps => run_hosted steps (perform_hosted caller op h)
  end.

(** The buffer of intent evidence never is full. *)
Fixpoint roomy_hosted (steps : list (N * hosted_operation)) (h : Hosted) : Prop :=
  match steps with
  | [] => True
  | (caller, op) :: steps =>
      let h' := perform_hosted caller op h in
      len (lifecycle (world h')) < maximumBufferedLifecycleRecords ∧ roomy_hosted steps h'
  end.

(** What holds of a runner and a world that were used together. *)
Definition hosted_ok (h : Hosted) : Prop :=
  bindings_typed (runner h) ∧
  ∃ V G L, coordinated (world h) V G L ∧ trusted V h.

Lemma coordinated_trusted V G L (h : Hosted) :
  coordinated (world h) V G L → runner_ok (runner h) → cache_ok V (world h) (runner h) → trusted V h.
Proof. intros Hc Hr Hca. split; [|apply Hc|done|done]. eexists _, G, L. apply Hc. Qed.

Lemma undisturbed_ok V G L (h h' : Hosted) :
  bindings_typed (runner h) → coordinated (world h) V G L → trusted V h → undisturbed_host V h h' →
  hosted_ok h'.
Proof.
  intros Hty Hc [_ _ [H1 H2 H3] _] [Ew Eb _ Hca]. split; [unfold bindings_typed; by rewrite Eb|].
  exists V, G, L. rewrite Ew. split; [done|]. apply (coordinated_trusted V G L); rewrite ?Ew; try done.
  by split; rewrite Eb.
Qed.

Lemma perform_hosted_ok caller op h :
  hosted_ok h → len (lifecycle (world (perform_hosted caller op h))) < maximumBufferedLifecycleRecords →
  hosted_ok (perform_hosted caller op h) ∧ bindings (runner (perform_hosted caller op h)) = bindings (runner h).
Proof.
  intros (Hty & V & G & L & Hc & Hts) Hroom. assert (∀ h', undisturbed_host V h h' → hosted_ok h' ∧
    bindings (runner h') = bindings (runner h)) as Hun.
  { intros h' Hu. split; [by eapply undisturbed_ok|]. apply Hu. }
  pose proof (ts_cache _ _ Hts) as Hca. pose proof (ts_runner _ _ Hts) as Hr.
  destruct op as [op|behavior now|grants now|grants|owner type name]; cbn [perform_hosted] in *.
  - split; [|done]. split; [done|]. cbn [set_world world] in *.
    destruct (perform_settles host caller op _ _ _ _ Hc) as [Hfull|(V' & G' & L' & Hc' & Ht & Hf)].
    { unfold evidence_full in Hfull. lia. }
    exists V', G', L'. split; [done|]. apply (coordinated_trusted V' G' L'); [done|done|].
    eapply cache_ok_tracks; [done|done|apply Hf].
  - destruct (capability_manifest_body caller size_of_LuaValue V behavior now h Hts Hty) as (r & h' & E & Hu & _).
    rewrite E. by apply Hun.
  - destruct (scope_manifest_outcome size_of_LuaValue caller grants now h Hr Hty) as (r & E & _).
    rewrite E. apply Hun. destruct r; cbn [snd after]; split; try done. by apply cache_ok_started.
  - rewrite (leaves_targets caller h grants Hr). apply Hun. by split.
  - apply Hun. unfold snapshot.
    match goal with |- undisturbed_host V h (?m h).2 => change (wp m (λ _ h', undisturbed_host V h h') h) end.
    apply wp_bind, wp_read; [apply leaves_owned_query|].
    assert (undisturbed_host V h h) as Hsame by by split.
    destruct (behavior_exists caller owner (world h)).1 as [[]|e]; cbn [then_wp]; [| |done];
      (eapply wp_bind_eq; [done|]); cbn [negb]; [|done].
    destruct (find_binding type 0 (bindings (runner h))) as [[i b]|] eqn:Ef; [|done].
    apply find_binding_ok in Ef as (_ & Hb & _).
    apply wp_bind. eapply wp_mono; [by apply capabilities_for_ok|]. intros x h1 (Ew & Es & Hc1 & _).
    pose proof (caching_undisturbed V h h1 Ew Es Hc1) as Hu.
    destruct x as [l|e]; cbn [then_wp]; [|done]. destruct (existsb _ l); [|done].
    apply wp_bind, wp_read.
    { rewrite Ew. apply exposed_snapshot; [done|]. by apply list_elem_of_lookup_2 in Hb. }
    by destruct (binding_snapshot b caller owner name (world h1)).1.
Qed.

Lemma run_hosted_ok steps : ∀ h,
  hosted_ok h → roomy_hosted steps h →
  hosted_ok (run_hosted steps h) ∧ bindings (runner (run_hosted steps h)) = bindings (runner h).
Proof.
  induction steps as [|[caller op] steps IH]; intros h Hok; cbn [run_hosted]; [done|].
  intros [Hlen Hroom]. destruct (perform_hosted_ok caller op h Hok Hlen) as [Hok' Eb].
  destruct (IH _ Hok' Hroom) as [H1 H2]. split; [done|]. by rewrite H2.
Qed.

(** *** Runners as hosts prepare them *)

Record exposure := MkExposure {
  ex_class : K;
  ex_type : ComponentType;
  ex_name : string;
  ex_codec : LuaComponentCodec (El := El) ex_class;
  ex_metadata : option LuaModelBindingMetadata
}.

Definition expose (e : exposure) : stm Runner unit :=
  expose_component size_of_LuaValue (ex_class e) (ex_type e) (ex_name e) (ex_codec e) (ex_metadata e).

(** The host exposes types before it uses the runner; it catches what is thrown. *)
Definition prepared (executionLimits : LuaExecutionLimits) (id : N) (l : list exposure) : Runner :=
  foldl (λ r e, (expose e r).2) (MkRunner executionLimits [] ∅ None false id) l.

Definition exposure_typed (e : exposure) : Prop :=
  ∀ m, ex_metadata e = Some m → metadata_typed m.

Lemma expose_fields e r :
  let r' := (expose e r).2 in
  (bindings r' = bindings r ∨
   ∃ b, bindings r' = bindings r ++ [b] ∧ metadata b = ex_metadata e) ∧ cache r' = cache r.
Proof.
  unfold expose, expose_component, mbind, stm_bind, slift. destruct e as [k type name codec m]; cbn.
  destruct (make_binding k type name codec) as [b0|] eqn:Eb; cbn; [|by split; [left|]].
  apply make_binding_fields in Eb as (_ & _ & Emd).
  unfold register_binding, mbind, stm_bind, sget, sreject_if, slift, reject_if.
  repeat (match goal with |- context [if ?c then throw _ _ else _] => destruct c end; [by split; [left|]|]).
  destruct (check_metadata _ _ _) as [[]|]; [|by split; [left|]].
  destruct (rfold _ (bindings r) tt) as [[]|]; [|by split; [left|]].
  split; [right|done]. eexists. split; [reflexivity|]. by destruct m.
Qed.

Lemma prepared_ok executionLimits id l :
  Forall exposure_typed l →
  let r := prepared executionLimits id l in runner_ok r ∧ bindings_typed r ∧ cache r = ∅.
Proof.
  intros Hl. unfold prepared. set (r0 := MkRunner _ _ _ _ _ _).
  assert (runner_ok r0 ∧ bindings_typed r0 ∧ cache r0 = ∅) as Hstart.
  { split_and!; [split; constructor| |done]. intros b m Hb. by apply elem_of_nil in Hb. }
  clearbody r0. revert r0 Hstart. induction Hl as [|e l He _ IH]; intros r (Hr & Ht & Hc); cbn [foldl]; [done|].
  apply IH. destruct (expose_fields e r) as [Hb Hc']. split_and!; [| |by rewrite Hc'].
  - apply exposing_keeps; [done|]. intros m Hm. by destruct (He m Hm).
  - unfold bindings_typed. destruct Hb as [->|(b & -> & Em)]; [done|]. intros b' m Hin Hm'.
    apply elem_of_app in Hin as [Hin|Hin%list_elem_of_singleton]; [by eapply Ht|].
    rewrite Hin, Em in Hm'. by destruct (He m Hm').
Qed.

(** A prepared runner beside a new world, after any steps. *)
Definition used_hosted (executionLimits : LuaExecutionLimits) (id : N) (l : list exposure)
    (instance thread : N) (steps : list (N * hosted_operation)) : Hosted :=
  run_hosted steps (MkHosted (prepared executionLimits id l) (new_World instance thread)).

Lemma used_hosted_ok executionLimits id l instance thread steps :
  Forall exposure_typed l →
  roomy_hosted steps (MkHosted (prepared executionLimits id l) (new_World instance thread)) →
  hosted_ok (used_hosted executionLimits id l instance thread steps).
Proof.
  intros Hl Hroom. apply run_hosted_ok; [|done]. destruct (prepared_ok executionLimits id l Hl) as (Hr & Ht & Hc).
  split; [done|]. exists ∅, [], ∅. pose proof (new_world_coordinated (El := El) (Y := Y) (D := D) instance thread) as Hw.
  split; [exact Hw|]. apply (coordinated_trusted ∅ [] ∅); [exact Hw|done|]. cbn [runner world].
  split; rewrite Hc; [|by rewrite map_size_empty]. intros inst b e He. by rewrite lookup_empty in He.
Qed.

(** ** The theorems *)

Section Theorems.
Context (executionLimits : LuaExecutionLimits) (id : N) (l : list exposure) (Hl : Forall exposure_typed l).
Context (instance thread : N) (steps : list (N * hosted_operation)).
Abbreviation h := (used_hosted executionLimits id l instance thread steps).
Abbreviation start := (MkHosted (prepared executionLimits id l) (new_World instance thread)).

(** C33. A scope manifest serves the grants: it has one capability for every grant
    and no other, in the granted mode, with the value that the component has and
    that fits the schema if the grant allows reading, and with no value and no
    read if it does not; [scope_targets] names the same targets.  The world is
    left alone, and a capture that fails leaves the runner alone too; none
    throws. *)
Theorem scope_manifest_serves_grants caller grants now :
  roomy_hosted steps start →
  ∃ r, scope_manifest size_of_LuaValue caller grants now h = (Ok r, after r h) ∧
    ∀ m, r = inl m →
      nowMs m = now ∧ NoDup (names_of <$> grants) ∧
      ∃ caps, Forall2 (granted caller h) grants caps ∧
        zip (manifest_entries m) (capturedEntries (captureData m)) ≡ₚ map with_expression caps ∧
        scope_targets caller grants h = (Ok (Some (map target_of caps)), h).
Proof.
  intros Hroom. destruct (used_hosted_ok executionLimits id l instance thread steps Hl Hroom)
    as (Ht & V & G & L & _ & Hts).
  apply scope_manifest_outcome; [apply Hts|done].
Qed.

End Theorems.
End Runs.

(** ** A lamp and its label *)

Definition lamp_codec : LuaComponentCodec (El := sample_type) true :=
  MkCodec true (Some (λ n : N, Ok (LInteger (Z.of_N n))))
    (Some (λ v, match v with LInteger z => Ok (Z.to_N z) | _ => throw runtime_error "Lua value is not an integer" end)).
Definition label_codec : LuaComponentCodec (El := sample_type) false :=
  MkCodec false (Some (λ s : string, Ok (LString s)))
    (Some (λ v, match v with LString s => Ok s | _ => throw runtime_error "Lua value is not a string" end)).

Definition lamp_exposure : exposure (El := sample_type) :=
  MkExposure true brightness_type "Light" lamp_codec (Some (MkMetadata lamp_level lamp_level "how bright")).
Definition label_type : ComponentType := MkComponentType 1 7 1.
Definition label_exposure : exposure (El := sample_type) :=
  MkExposure false label_type "Label" label_codec (Some (MkMetadata lamp_mode lamp_mode "")).

Definition label_steps : list (N * Client.operation (El := sample_type) (Y := bool) (D := N)) :=
  [(1, Structural (RegisterComponent false "label" 1 (Some (λ s, Ok (VString s))) (Some as_string)));
   (1, Structural (AddComponent false label_type "lamp" ("blink" : sample_type false)));
   (1, Structural (GrantAccess false label_type dimmer_behavior "lamp" Read))].

(** A capture between two grants: the second narrows the right. *)
Definition lamp_history : list (N * hosted_operation (El := sample_type) (Y := bool) (D := N)) :=
  map (λ s, (s.1, OnWorld s.2)) furnish ++
  [(1, CapabilityManifest dimmer_behavior 5);
   (1, OnWorld (Structural (GrantAccess true brightness_type dimmer_behavior "lamp" Read)))].

Lemma lamp_exposure_typed : Forall exposure_typed [lamp_exposure].
Proof.
  constructor; [|constructor]. intros m [= <-]. split; [done|].
  assert (built lamp_level); [|done]. by apply (built_integer (Some 0%Z) (Some 100%Z) "percent").
Qed.

Lemma lamp_history_roomy :
  roomy_hosted 56 home lamp_history
    (MkHosted (prepared 56 default_limits 1 [lamp_exposure]) (new_World 7 1)).
Proof. vm_compute. repeat split. Qed.

Abbreviation lamp_host := (used_hosted 56 home default_limits 1 [lamp_exposure] 7 1 lamp_history).

Lemma scope_manifest_serves_grants_witness :
  let grants := [MkGrant "Light" "lamp" Read] in
  ∃ m, (scope_manifest 56 1 grants 9 lamp_host).1 = Ok (inl m) ∧
    map readValue (manifest_entries m) = [Some (LInteger 5)] ∧
    map writeSchema (manifest_entries m) = [None] ∧ nowMs m = 9 ∧ NoDup (names_of <$> grants).
Proof.
  intros grants.
  destruct (scope_manifest_serves_grants 56 home default_limits 1 [lamp_exposure] lamp_exposure_typed 7 1
    lamp_history 1 grants 9 lamp_history_roomy) as (r & E & Hm).
  destruct r as [m|e].
  - exists m. rewrite E. destruct (Hm m eq_refl) as (Hn & Hd & _).
    assert ((scope_manifest 56 1 grants 9 lamp_host).1 = Ok (inl m)) as E1 by by rewrite E.
    vm_compute in E1. injection E1 as <-. split_and!; [done|by vm_compute|by vm_compute|done|done].
  - exfalso. assert ((scope_manifest 56 1 grants 9 lamp_host).1 = Ok (inr e)) as E1 by by rewrite E.
    by vm_compute in E1.
Defined.

Definition captured_manifest (x : res LuaManifestResult) : option LuaCapabilityManifest :=
  match x with Ok (inl m) => Some m | _ => None end.


(** *** A defect: a type exposed after a query stays invisible

    A snapshot fills the cache without freezing the bindings.  A type exposed
    after it is accepted, but manifests of the behaviour leave it out, although
    the behaviour may read its component, until the access revision changes. *)
Theorem late_binding_invisible :
  let w := Client.used home 7 1 (furnish ++ label_steps) in
  let h0 := MkHosted (prepared 56 default_limits 1 [lamp_exposure]) w in
  let h1 := (snapshot 1 dimmer_behavior "Light" "lamp" h0).2 in
  let exposed_label := expose 56 label_exposure (runner h1) in
  let h2 := set_runner exposed_label.2 h1 in
  exposed_label.1 = Ok tt ∧
  map scriptTypeName ∘ manifest_entries <$>
    captured_manifest (capability_manifest 56 1 dimmer_behavior 9 h2).1 = Some ["Light"] ∧
  map desc_binding ∘ List.filter (has_metadata (runner h2)) <$>
    (describe_all 1 dimmer_behavior 0 (bindings (runner h2)) w).1 = Ok [0; 1].
Proof. split_and!; by vm_compute. Qed.
