(* ===== verification/EvaluationTypes.v ===== *)
(** * What evaluations are about
    (include/liquid/authoring/Evaluation.hpp, src/authoring/PayloadAccounting.hpp,
     and the results of scripts in LuaBehaviorRunner.hpp)

    The data that sessions and evaluations share, and the accounting of what
    they retain. *)
From S2P Require Import Prelude OrderedMap Values Effects Events Adapters Ids Components LuaManifest LuaRunner.

(** ** The logical payload *)

Module Payload.
Definition LogicalScalarBytes : N := 8.
Definition LogicalFlagBytes : N := 1.
Definition LogicalElementBytes : N := 8.
End Payload.
Export Payload.

Definition saturating_add (total bytes : N) : N :=
  if u64_max - total <? bytes then u64_max else total + bytes.

(** The loop [for (x : l) bytes = saturating_add(bytes, f(x));] *)
Definition saturating_sum {A} (f : A → N) (l : list A) (bytes : N) : N :=
  foldl (λ bytes x, saturating_add bytes (f x)) bytes l.

(** ** Identifiers and limits *)

(** [StrongId], whose number 0 is never issued *)
Definition ScopeId := N.
Definition ProposalId := N.
Definition EvaluationId := N.
Definition ScopeRevision := N.

Record EvaluationFixtureId := MkFixture { stableName : string; fixture_version : N }.
#[export] Instance fixture_eq_dec : EqDecision EvaluationFixtureId.
Proof. solve_decision. Defined.
#[export] Instance fixture_countable : Countable EvaluationFixtureId :=
  inj_countable' (λ f, (stableName f, fixture_version f)) (λ p, MkFixture p.1 p.2)
    (λ f, match f with MkFixture _ _ => eq_refl end).

Definition AuthoringMaxDiagnosticBytes : N := 4096.
Definition AuthoringSessionIdHexDigits : N := 32.

Record AuthoringLimits := MkAuthoringLimits {
  maxActiveScopes : N; maxProposals : N; maxEvaluations : N; maxManagedBehaviors : N;
  authoring_maxSourceBytes : N; maxRationaleBytes : N; maxScopeCapabilities : N;
  maxLabelBytes : N; maxManifestBytes : N; maxEvaluationCases : N; maxEvaluationFrames : N;
  maxEvaluationRecords : N; maxEvaluationRecordBytes : N; maxEvaluationResponseBytes : N;
  maxSessionPayloadBytes : N; maxIdValue : N
}.
Definition default_AuthoringLimits : AuthoringLimits :=
  MkAuthoringLimits 64 128 256 64 65536 2048 128 256 (1024 * 1024) 16 256 8192
    (N.shiftl 8 20) (N.shiftl 1 20) (N.shiftl 64 20) u64_max.

(** ** Results of scripts and of cases *)

Module LuaExecutionStatus.
Inductive status :=
| Success | InvalidBehavior | SourceLimitExceeded | SyntaxError | RuntimeError
| InstructionLimitExceeded | MemoryLimitExceeded | IntentLimitExceeded | InvalidProposal
| CommitFailed | HostError.
End LuaExecutionStatus.

Record LuaExecutionResult := MkExecutionResult {
  execution_status : LuaExecutionStatus.status;
  execution_diagnostic : string;
  createdIntents : list IntentId;
  cancelledIntents : list IntentId;
  watches : list (string * string)
}.

Module EvaluationStatus.
Inductive status := Passed | Failed | LimitExceeded | HostError.
#[export] Instance status_eq_dec : EqDecision status.
Proof. solve_decision. Defined.
End EvaluationStatus.
Export (hints) EvaluationStatus.

Module CaseStatus.
Inductive status := Passed | Failed | LimitExceeded | HostError | NotRun.
#[export] Instance status_eq_dec : EqDecision status.
Proof. solve_decision. Defined.
End CaseStatus.
Export (hints) CaseStatus.

Record EvaluationFrameSummary := MkFrameSummary {
  summary_now : IntentTime;
  frameCompleted : bool;
  lifecycleStatus : option LuaExecutionStatus.status;
  summary_created : N;
  summary_cancelled : N;
  liveCandidateIntents : N;
  candidateSelected : bool;
  summary_commandsIssued : N;
  reportStatuses : list CommandStatus;
  summary_observations : N;
  assertionPassed : bool
}.
Definition new_FrameSummary (now : IntentTime) : EvaluationFrameSummary :=
  MkFrameSummary now false None 0 0 0 false 0 [] 0 false.
Definition set_assertionPassed b (s : EvaluationFrameSummary) : EvaluationFrameSummary :=
  MkFrameSummary (summary_now s) (frameCompleted s) (lifecycleStatus s) (summary_created s)
    (summary_cancelled s) (liveCandidateIntents s) (candidateSelected s)
    (summary_commandsIssued s) (reportStatuses s) (summary_observations s) b.

Record EvaluationTargetSummary := MkTargetSummary {
  summary_scriptTypeName : string;
  summary_componentName : string;
  summary_mode : ComponentAccessMode;
  summary_value : option value
}.

Record EvaluationCaseResult := MkCaseResult {
  case_name : string;
  case_status : CaseStatus.status;
  framesScheduled : N;
  framesRun : N;
  case_diagnostic : string;
  frames : list EvaluationFrameSummary;
  finalState : list EvaluationTargetSummary
}.

Record EvaluationRecord := MkEvaluationRecord {
  record_id : EvaluationId;
  record_session : string;
  record_proposal : ProposalId;
  record_scope : ScopeId;
  record_scopeRevision : ScopeRevision;
  record_fixture : EvaluationFixtureId;
  record_status : EvaluationStatus.status;
  complete : bool;
  cases : list EvaluationCaseResult
}.

Record EvaluationTraceEntry := MkTraceEntry {
  caseIndex : N;
  trace_type : event_type;
  trace_version : N;
  trace_payload : value
}.

Record EvaluationWorldFrameTotals := MkFrameTotals {
  totals_now : IntentTime;
  totals_commandsIssued : N;
  totals_reports : N;
  totals_observations : N
}.
Record EvaluationWorldTotals := MkWorldTotals {
  totals_evaluation : EvaluationId;
  totals_complete : bool;
  totals_cases : list (list EvaluationWorldFrameTotals)
}.

(** ** What a case is given *)

Record EvaluationEffectAddress := MkEffectAddress {
  address_scriptTypeName : string;
  address_componentName : string;
  address_route : string;
  address_target : string
}.

(** ** Lemmas *)

Lemma saturating_add_spec a b :
  a <= u64_max → saturating_add a b = N.min (a + b) u64_max.
Proof. unfold saturating_add. intros H. destruct (N.ltb_spec (u64_max - a) b); lia. Qed.

Lemma saturating_add_le a b : a <= u64_max → saturating_add a b <= u64_max.
Proof. intros H. rewrite saturating_add_spec by done. lia. Qed.

Lemma saturating_add_mono a a' b b' :
  a <= a' → b <= b' → a' <= u64_max → saturating_add a b <= saturating_add a' b'.
Proof. intros. rewrite !saturating_add_spec by lia. lia. Qed.

(** Sums that stay below the maximum are exact. *)
Lemma saturating_add_exact a b : a + b < u64_max → saturating_add a b = a + b.
Proof. intros H. rewrite saturating_add_spec by lia. lia. Qed.

(** A sum below the maximum had no saturated part. *)
Lemma saturating_add_below a b :
  a <= u64_max → saturating_add a b < u64_max → saturating_add a b = a + b ∧ a < u64_max ∧ b < u64_max.
Proof. intros Ha. rewrite saturating_add_spec by done. lia. Qed.

Lemma saturating_sum_cons {A} (f : A → N) x l b :
  saturating_sum f (x :: l) b = saturating_sum f l (saturating_add b (f x)).
Proof. done. Qed.

Lemma saturating_sum_app {A} (f : A → N) l k b :
  saturating_sum f (l ++ k) b = saturating_sum f k (saturating_sum f l b).
Proof. unfold saturating_sum. apply foldl_app. Qed.

Lemma saturating_sum_spec {A} (f : A → N) l b :
  b <= u64_max → saturating_sum f l b = N.min (b + sum_of f l) u64_max.
Proof.
  revert b. induction l as [|x l IH]; intros b Hb; [cbn; lia|].
  rewrite saturating_sum_cons, IH by by apply saturating_add_le.
  rewrite saturating_add_spec, sum_of_cons by done. lia.
Qed.

(** ** The last element *)

(** A change of [frames.back()] *)
Fixpoint update_back {A} (g : A → A) (l : list A) : list A :=
  match l with
  | [] => []
  | [x] => [g x]
  | x :: l => x :: update_back g l
  end.

Lemma update_back_snoc {A} (g : A → A) l x : update_back g (l ++ [x]) = l ++ [g x].
Proof.
  induction l as [|y l IH]; [done|]. cbn [app]. rewrite <-IH. by destruct l.
Qed.

(** ** Bounded diagnostics *)

Definition continuation_at (s : string) (i : nat) : bool :=
  match String.get i s with
  | Some c => N.land (N_of_ascii c) 0xC0 =? 0x80
  | None => false
  end.
(** [while (cut > 0 && continuation byte at cut) --cut;] *)
Fixpoint cut_back (s : string) (cut : nat) : nat :=
  match cut with
  | O => O
  | S k => if continuation_at s cut then cut_back s k else cut
  end.
(** The text within [budget] bytes, ending in an ellipsis where it was cut. *)
Definition truncated (message : string) (budget : N) : string :=
  if slen message <=? budget then message
  else String.substring 0 (cut_back message (N.to_nat (budget - 3))) message +:+ "...".

Lemma substring_slen m n s : (String.length (String.substring m n s) <= n)%nat.
Proof.
  revert m n. induction s as [|c s IH]; intros [|m] [|n]; cbn; try lia; [|apply IH..].
  specialize (IH O n). lia.
Qed.

Lemma cut_back_le s cut : (cut_back s cut <= cut)%nat.
Proof. induction cut as [|k IH]; cbn; [done|]. destruct continuation_at; lia. Qed.

Lemma truncated_length message budget : slen (truncated message budget) <= N.max budget 3.
Proof.
  unfold truncated. destruct (N.leb_spec (slen message) budget); [lia|]. unfold slen.
  rewrite string_app_length. pose proof (substring_slen 0 (cut_back message (N.to_nat (budget - 3))) message).
  pose proof (cut_back_le message (N.to_nat (budget - 3))). change (String.length "...") with 3%nat. lia.
Qed.
