(* ===== verification/LuaLifecycle.v ===== *)
(** * The Lua lifecycle system
    (include/liquid/scripting/LuaLifecycleSystem.hpp,
     src/scripting/LuaLifecycleSystem.cpp)

    A system that runs, for each of its behaviours, the script that a component
    holds: it selects the script, finds out which watched components changed, and
    tells the script whether it starts.  Scripts are run by the runner;
    [LifecycleHost] is what the system asks of it and of the world. *)
From S2P Require Import Prelude OrderedMap Values Ids Hoare Components Coordinator World WorldQueries LuaSchema LuaRunner EvaluationTypes.

(** ** Scripts and their codec *)

Record LuaBehaviorScript := MkScript { script_source : string; script_revision : N }.

Definition encode_script (script : LuaBehaviorScript) : value :=
  object_of [("revision", VUnsigned (script_revision script)); ("source", VString (script_source script))].

Definition decode_script (v : value) : res LuaBehaviorScript :=
  encoded ← as_object v;
  match sm_find "source" encoded, sm_find "revision" encoded with
  | Some source, Some revision =>
      reject_if (negb (len encoded =? 2)) invalid_argument "LuaBehaviorScript requires source and revision";;
      rawRevision ← as_unsigned_integer revision;
      reject_if ((rawRevision =? 0) || (u32_max <? rawRevision)) invalid_argument
        "LuaBehaviorScript revision is out of range";;
      text ← as_string source;
      Ok (MkScript text rawRevision)
  | _, _ => throw invalid_argument "LuaBehaviorScript requires source and revision"
  end.

(** ** Equality of Lua values: the defaulted [operator==], which compares doubles
    as IEEE-754 does *)
Definition double_eq (left right : N) : bool :=
  negb (is_nan left) && negb (is_nan right) && (double_order left =? double_order right)%Z.

Fixpoint lua_value_eq (v w : LuaValue) : bool :=
  match v, w with
  | LBool b, LBool b' => Bool.eqb b b'
  | LInteger z, LInteger z' => (z =? z')%Z
  | LNumber d, LNumber d' => double_eq d d'
  | LString s, LString s' => String.eqb s s'
  | LArray l, LArray l' =>
      (fix items (l l' : list LuaValue) : bool :=
         match l, l' with
         | [], [] => true
         | x :: l, y :: l' => lua_value_eq x y && items l l'
         | _, _ => false
         end) l l'
  | LTable m, LTable m' =>
      (fix entries (m m' : list (string * LuaValue)) : bool :=
         match m, m' with
         | [], [] => true
         | (k, x) :: m, (k', y) :: m' => String.eqb k k' && lua_value_eq x y && entries m m'
         | _, _ => false
         end) m m'
  | _, _ => false
  end.

(** ** What the system asks of the world and the runner *)

Record ComponentChange := MkChange {
  change_type : string; change_name : string; change_before : LuaValue; change_after : LuaValue
}.

(** The arguments of [LuaBehaviorRunner::execute_lifecycle] *)
Record LifecycleCall := MkCall {
  call_owner : BehaviorId;
  call_frame : N;
  call_now : IntentTime;
  call_delta : IntentTime;
  call_start : bool;
  call_changes : list ComponentChange;
  call_source : string
}.

Class LifecycleHost (H : Type) := {
  lifecycle_components : ComponentType → BehaviorId → stm H (list (string * ComponentSlotId));
  lifecycle_can_read : ComponentType → BehaviorId → string → stm H bool;
  lifecycle_read : ComponentType → BehaviorId → string → stm H (option LuaBehaviorScript);
  lifecycle_snapshot : BehaviorId → string → string → stm H (option LuaValue);
  execute_lifecycle : LifecycleCall → stm H LuaExecutionResult
}.

Definition succeeded (r : LuaExecutionResult) : bool :=
  match execution_status r with LuaExecutionStatus.Success => true | _ => false end.

(** ** The system *)

(** The one value of [LuaScriptSelection]; others come from casts. *)
Definition SingleReadable : Z := 0.

Record BehaviorState := MkBehaviorState {
  scriptSlotName : string;
  scriptSlot : ComponentSlotId;
  state_revision : N;
  state_source : string;
  started : bool;
  lastSuccessfulTime : IntentTime;
  state_watches : list (string * string);
  snapshots : gmap (string * string) LuaValue;
  lastResult : LuaExecutionResult
}.

Definition new_LuaExecutionResult : LuaExecutionResult :=
  MkExecutionResult LuaExecutionStatus.Success "" [] [] [].
Definition new_BehaviorState : BehaviorState :=
  MkBehaviorState "" InvalidComponentSlotId 0 "" false 0 [] ∅ new_LuaExecutionResult.

Record LuaLifecycleSystem := MkLifecycleSystem {
  scriptType : ComponentType;
  scriptName : option string;
  states : gmap BehaviorId BehaviorState
}.

Definition set_states m (s : LuaLifecycleSystem) : LuaLifecycleSystem :=
  MkLifecycleSystem (scriptType s) (scriptName s) m.

(** The two constructors; [runner] says whether the pointer is one. *)
Definition new_named (type : ComponentType) (runner : bool) (componentName : string) : res LuaLifecycleSystem :=
  reject_if (type_id type =? InvalidComponentTypeId) invalid_argument
    "Lua lifecycle script component type is invalid";;
  reject_if (bool_decide (componentName = "")) invalid_argument
    "Lua lifecycle script component name cannot be empty";;
  reject_if (negb runner) invalid_argument "Lua lifecycle runner cannot be null";;
  Ok (MkLifecycleSystem type (Some componentName) ∅).

Definition new_selecting (type : ComponentType) (runner : bool) (selection : Z) : res LuaLifecycleSystem :=
  reject_if (type_id type =? InvalidComponentTypeId) invalid_argument
    "Lua lifecycle script component type is invalid";;
  reject_if (negb runner) invalid_argument "Lua lifecycle runner cannot be null";;
  reject_if (negb (selection =? SingleReadable)%Z) invalid_argument
    "Lua lifecycle script selection is invalid";;
  Ok (MkLifecycleSystem type None ∅).

(** [ScriptSelection], with or without a failure *)
Inductive ScriptSelection :=
| Selected (script : LuaBehaviorScript) (name : string) (slot : ComponentSlotId)
| SelectionFailure (failure : string).

Section System.
Context {H : Type} `{LifecycleHost H}.

(** The loop of [select_single_readable]: how many are readable, and the last. *)
Fixpoint count_readable (type : ComponentType) (b : BehaviorId) (l : list (string * ComponentSlotId))
    (acc : N * string * ComponentSlotId) : stm H (N * string * ComponentSlotId) :=
  match l with
  | [] => mret acc
  | (name, slot) :: l =>
      r ← lifecycle_can_read type b name;
      count_readable type b l (if (r : bool) then (acc.1.1 + 1, name, slot) else acc)
  end.

Definition unavailable : ScriptSelection :=
  SelectionFailure "lifecycle script selection: script component is unavailable".

Definition select_single_readable (type : ComponentType) (b : BehaviorId) : stm H ScriptSelection :=
  stry (
    l ← lifecycle_components type b;
    '(readable, name, slot) ← count_readable type b l (0, "", InvalidComponentSlotId);
    if readable =? 0 then
      mret (SelectionFailure "lifecycle script selection: no readable LuaBehaviorScript component")
    else if 1 <? readable then
      mret (SelectionFailure "lifecycle script selection: multiple readable LuaBehaviorScript components")
    else
      script ← lifecycle_read type b name;
      match script with
      | Some script => mret (Selected script name slot)
      | None => mret unavailable
      end) (λ _, mret unavailable).

Record Lifecycle := MkLifecycle { system : LuaLifecycleSystem; host : H }.
Definition set_system s (l : Lifecycle) : Lifecycle := MkLifecycle s (host l).
Definition set_host h (l : Lifecycle) : Lifecycle := MkLifecycle (system l) h.
Definition on_lifecycle_host {A} : stm H A → stm Lifecycle A := zoom host set_host.

Definition put_state (b : BehaviorId) (st : BehaviorState) : stm Lifecycle unit :=
  smodify (λ l, set_system (set_states (<[b := st]> (states (system l))) (system l)) l).

(** [on_behavior_removed], and the [erase] of [run] *)
Definition forget (b : BehaviorId) : stm Lifecycle unit :=
  smodify (λ l, set_system (set_states (delete b (states (system l))) (system l)) l).
Definition on_behavior_removed (b : BehaviorId) : stm Lifecycle unit := forget b.

(** [states[behavior]] *)
Definition state_at (b : BehaviorId) (s : LuaLifecycleSystem) : BehaviorState :=
  default new_BehaviorState (states s !! b).

(** The state a script goes on from: its own, or a new one. *)
Definition current_state (script : LuaBehaviorScript) (name : string) (slot : ComponentSlotId)
    (st : BehaviorState) : BehaviorState :=
  if negb (String.eqb (scriptSlotName st) name) || bool_decide (scriptSlot st ≠ slot) ||
     negb (state_revision st =? script_revision script) ||
     negb (String.eqb (state_source st) (script_source script))
  then MkBehaviorState name slot (script_revision script) (script_source script) false 0 [] ∅
         new_LuaExecutionResult
  else st.

(** The loop that compares the watched components with their snapshots. *)
Fixpoint collect_changes (b : BehaviorId) (st : BehaviorState) (l : list (string * string))
    : stm H (list ComponentChange) :=
  match l with
  | [] => mret []
  | (type, name) :: l =>
      now ← lifecycle_snapshot b type name;
      rest ← collect_changes b st l;
      mret match now, snapshots st !! (type, name) with
           | Some now, Some before =>
               if lua_value_eq before now then rest else MkChange type name before now :: rest
           | _, _ => rest
           end
  end.

(** The watches of a run that are not yet there are appended. *)
Definition add_watches (l k : list (string * string)) : list (string * string) :=
  foldl (λ l watch, if bool_decide (watch ∈ l) then l else l ++ [watch]) l k.

Definition set_lastResult r (st : BehaviorState) : BehaviorState :=
  MkBehaviorState (scriptSlotName st) (scriptSlot st) (state_revision st) (state_source st)
    (started st) (lastSuccessfulTime st) (state_watches st) (snapshots st) r.
Definition set_snapshots m (st : BehaviorState) : BehaviorState :=
  MkBehaviorState (scriptSlotName st) (scriptSlot st) (state_revision st) (state_source st)
    (started st) (lastSuccessfulTime st) (state_watches st) m (lastResult st).
(** What a success changes before the snapshots are taken again. *)
Definition advance (now : IntentTime) (r : LuaExecutionResult) (st : BehaviorState) : BehaviorState :=
  MkBehaviorState (scriptSlotName st) (scriptSlot st) (state_revision st) (state_source st)
    true now (add_watches (state_watches st) (watches r)) ∅ r.

(** [snapshots.emplace] for every watch that can be read *)
Definition take_snapshot (b : BehaviorId) (watch : string * string) : stm Lifecycle unit :=
  v ← on_lifecycle_host (lifecycle_snapshot b watch.1 watch.2);
  l ← sget;
  let st := state_at b (system l) in
  match v, snapshots st !! watch with
  | Some v, None => put_state b (set_snapshots (<[watch := v]> (snapshots st)) st)
  | _, _ => mret tt
  end.

(** The rest of an iteration of [run], with the script selected *)
Definition run_script (frame : N) (now : IntentTime) (b : BehaviorId) (script : LuaBehaviorScript)
    (name : string) (slot : ComponentSlotId) : stm Lifecycle unit :=
  l ← sget;
  let st := current_state script name slot (state_at b (system l)) in
  put_state b st;;
  changes ← on_lifecycle_host (collect_changes b st (state_watches st));
  let delta := if started st then wrap 64 (now + 2 ^ 64 - lastSuccessfulTime st) else 0 in
  result ← on_lifecycle_host (execute_lifecycle
    (MkCall b frame now delta (negb (started st)) changes (script_source script)));
  if succeeded result then
    put_state b (advance now result st);;
    sfor (take_snapshot b) (add_watches (state_watches st) (watches result))
  else put_state b (set_lastResult result st).

Definition run_behavior (frame : N) (now : IntentTime) (b : BehaviorId) : stm Lifecycle unit :=
  l ← sget;
  match scriptName (system l) with
  | Some name =>
      script ← stry (on_lifecycle_host (lifecycle_read (scriptType (system l)) b name)) (λ _, mret None);
      match script with
      | Some script => run_script frame now b script "" InvalidComponentSlotId
      | None => forget b
      end
  | None =>
      selected ← on_lifecycle_host (select_single_readable (scriptType (system l)) b);
      match selected with
      | Selected script name slot => run_script frame now b script name slot
      | SelectionFailure failure =>
          put_state b (set_lastResult
            (MkExecutionResult LuaExecutionStatus.HostError failure [] [] []) new_BehaviorState)
      end
  end.

(** [run]; [members] are the behaviours of the base class. *)
Definition run (members : gset BehaviorId) (frame : N) (now : IntentTime) : stm Lifecycle unit :=
  sfor (run_behavior frame now) (ordered members).

Definition last_result (b : BehaviorId) (s : LuaLifecycleSystem) : option LuaExecutionResult :=
  lastResult <$> states s !! b.
End System.

(** ** The runner beside a world, as a host *)
Section Runner.
Context {K : Type} `{Countable K} {El : K → Type}.
Context {Y : Type} `{Countable Y} {D : Type}.
Abbreviation Hosted := (LuaRunner.Hosted (El := El) (Y := Y) (D := D)).
(** The C++ type [LuaBehaviorScript], and the execution of scripts *)
Context (caller : N) (k : K) (of_element : El k → LuaBehaviorScript).
Context (execute : LifecycleCall → stm Hosted LuaExecutionResult).

Definition RunnerLifecycle : LifecycleHost Hosted := {|
  lifecycle_components type b :=
    l ← on_world (World.get_components caller k type b); mret (named_entries l);
  lifecycle_can_read type b name := on_world (WorldQueries.can_read_component caller k type b name);
  lifecycle_read type b name :=
    c ← on_world (World.read_component caller k type b name); mret (of_element <$> c);
  lifecycle_snapshot := LuaRunner.snapshot caller;
  execute_lifecycle := execute
|}.
End Runner.

(** ** Calls on record

    Any host can be watched: [recording] keeps the calls made to scripts with
    what came of them. *)
Section Recording.
Context {H : Type} (L : LifecycleHost H).

Record Recorded := MkRecorded {
  recorded_host : H;
  calls : list (LifecycleCall * res LuaExecutionResult)
}.
Definition set_recorded_host h (r : Recorded) : Recorded := MkRecorded h (calls r).
Definition unrecorded {A} : stm H A → stm Recorded A := zoom recorded_host set_recorded_host.

#[local] Instance recording : LifecycleHost Recorded := {|
  lifecycle_components type b := unrecorded (lifecycle_components type b);
  lifecycle_can_read type b name := unrecorded (lifecycle_can_read type b name);
  lifecycle_read type b name := unrecorded (lifecycle_read type b name);
  lifecycle_snapshot b type name := unrecorded (lifecycle_snapshot b type name);
  execute_lifecycle c := λ r,
    let '(x, h) := execute_lifecycle c (recorded_host r) in (x, MkRecorded h (calls r ++ [(c, x)]))
|}.

Abbreviation Watched := (Lifecycle (H := Recorded)).
Abbreviation Log := (list (LifecycleCall * res LuaExecutionResult)).
Implicit Types (l : Watched) (log : Log) (b : BehaviorId) (st : BehaviorState) (c : LifecycleCall).

(** The calls to a behaviour's scripts that succeeded, and the last of them *)
Definition success (e : LifecycleCall * res LuaExecutionResult) : option (LifecycleCall * LuaExecutionResult) :=
  match e.2 with Ok r => if succeeded r then Some (e.1, r) else None | Err _ => None end.
Definition successes b log : list (LifecycleCall * LuaExecutionResult) :=
  filter (λ e, call_owner e.1 = b) (omap success log).
Definition last_success b log : option (LifecycleCall * LuaExecutionResult) := last (successes b log).

Lemma successes_snoc b log e :
  successes b (log ++ [e]) =
  successes b log ++ match success e with
    | Some p => if decide (call_owner p.1 = b) then [p] else []
    | None => []
    end.
Proof.
  unfold successes. rewrite omap_app, filter_app. f_equal. cbn.
  destruct (success e) as [p|]; [|done]. cbn. by case_decide.
Qed.

Lemma last_success_snoc b log e :
  last_success b (log ++ [e]) =
  match success e with
  | Some p => if decide (call_owner p.1 = b) then Some p else last_success b log
  | None => last_success b log
  end.
Proof.
  unfold last_success. rewrite successes_snoc. destruct (success e) as [p|]; [|by rewrite app_nil_r].
  case_decide; [by rewrite last_snoc|by rewrite app_nil_r].
Qed.

(** A watch that a successful run of this source declared *)
Definition declared b (source : string) log (watch : string * string) : Prop :=
  ∃ c r, (c, r) ∈ successes b log ∧ call_source c = source ∧ watch ∈ watches r.

Lemma declared_snoc b source log e watch :
  declared b source log watch → declared b source (log ++ [e]) watch.
Proof. intros (c & r & Hin & Hc). exists c, r. split; [|done]. rewrite successes_snoc, elem_of_app. by left. Qed.

(** ** One iteration *)

Lemma unrecorded_calls {A} (m : stm H A) r : calls (unrecorded m r).2 = calls r.
Proof. unfold unrecorded, zoom. by destruct (m _). Qed.

Lemma snapshot_calls b type name r : calls (lifecycle_snapshot b type name r).2 = calls r.
Proof. apply unrecorded_calls. Qed.

Definition same_calls (r r' : Recorded) : Prop := calls r' = calls r.
#[local] Instance same_calls_preorder : PreOrder same_calls.
Proof. unfold same_calls. split; [by intros ?|by intros ??? -> ->]. Qed.

Lemma unrecorded_same {A} (m : stm H A) : keeps same_calls (unrecorded m).
Proof. intros r. apply unrecorded_calls. Qed.
#[local] Hint Resolve unrecorded_same : keeps.

(** A change is of a watch and of a value that differs. *)
Definition real_change (l : list (string * string)) (ch : ComponentChange) : Prop :=
  (change_type ch, change_name ch) ∈ l ∧ lua_value_eq (change_before ch) (change_after ch) = false.

Lemma collect_changes_spec b st k r :
  wp (collect_changes b st k) (λ x r', calls r' = calls r ∧ ∀ cs, x = Ok cs → Forall (real_change k) cs) r.
Proof.
  revert r. induction k as [|[type name] k IH]; intros r; cbn [collect_changes]; [apply wp_ret; naive_solver|].
  apply wp_bind, wp_intro. intros x r1 E.
  pose proof (snapshot_calls b type name r) as E1. rewrite E in E1. cbn in E1.
  destruct x as [v|e]; cbn; [|done]. apply wp_bind. eapply wp_mono; [apply IH|].
  intros [cs|e] r2 [E2 Hcs]; cbn; [|split; congruence]. apply wp_ret. split; [congruence|].
  intros cs' [= <-]. specialize (Hcs cs eq_refl).
  assert (Forall (real_change ((type, name) :: k)) cs) as Hk.
  { eapply Forall_impl; [exact Hcs|]. intros ch [Hin Hne]. split; [by right|done]. }
  destruct v as [now|]; [|done]. destruct (snapshots st !! (type, name)) as [before|]; [|done].
  destruct (lua_value_eq before now) eqn:En; [done|]. constructor; [|done]. split; [by left|done].
Qed.

(** A state that is of a script and a slot, and goes on with them *)
Definition of_script (script : LuaBehaviorScript) (name : string) (slot : ComponentSlotId) st : Prop :=
  scriptSlotName st = name ∧ scriptSlot st = slot ∧
  state_revision st = script_revision script ∧ state_source st = script_source script.

Lemma current_state_of script name slot st : of_script script name slot (current_state script name slot st).
Proof.
  unfold current_state. destruct (_ || _) eqn:E; [done|].
  apply orb_false_iff in E as [[[En Es]%orb_false_iff Er]%orb_false_iff Et].
  apply negb_false_iff in En as En%String.eqb_eq. apply negb_false_iff in Er as Er%N.eqb_eq.
  apply negb_false_iff in Et as Et%String.eqb_eq. apply bool_decide_eq_false in Es. by apply dec_stable in Es.
Qed.

Lemma of_script_current script name slot st :
  of_script script name slot st → current_state script name slot st = st.
Proof.
  intros (<- & <- & Er & Et). unfold current_state.
  by rewrite Er, Et, !String.eqb_refl, N.eqb_refl, bool_decide_false by tauto.
Qed.

Lemma current_state_source script name slot st :
  state_source (current_state script name slot st) = script_source script.
Proof. apply current_state_of. Qed.

(** What a call to a script in a state passes *)
Definition asked b st (source : string) c : Prop :=
  call_owner c = b ∧ call_source c = source ∧ call_start c = negb (started st) ∧
  call_delta c = (if started st then wrap 64 (call_now c + 2 ^ 64 - lastSuccessfulTime st) else 0) ∧
  Forall (real_change (state_watches st)) (call_changes c).

(** What an iteration does to the behaviour's state and to the log *)
Definition ran b script name slot l l' : Prop :=
  let st := current_state script name slot (state_at b (system l)) in
  ∃ st', system l' = set_states (<[b := st']> (states (system l))) (system l) ∧
    (calls (host l') = calls (host l) ∧ st' = st ∨
     ∃ c x, calls (host l') = calls (host l) ++ [(c, x)] ∧ asked b st (script_source script) c ∧
       match success (c, x) with
       | Some (_, r) => ∃ m, st' = set_snapshots m (advance (call_now c) r st)
       | None => ∃ r, st' = set_lastResult r st
       end).

Definition snapshotting b st s0 log l : Prop :=
  calls (host l) = log ∧ ∃ m, system l = set_states (<[b := set_snapshots m st]> (states s0)) s0.

Lemma take_snapshots_spec b st s0 log l watches :
  snapshotting b st s0 log l →
  wp (sfor (take_snapshot b) watches) (λ _ l', snapshotting b st s0 log l') l.
Proof.
  intros Hl. apply (wp_for _ watches (λ _, snapshotting b st s0 log)); [done| |done].
  clear l Hl. intros watch _ l [El [m Em]]. unfold take_snapshot. apply wp_bind, wp_zoom, wp_intro.
  intros x r E. pose proof (snapshot_calls b watch.1 watch.2 (host l)) as Er. rewrite E in Er. cbn in Er.
  assert (snapshotting b st s0 log (set_host r l)) as Hs by (split; [cbn; congruence|by exists m]).
  destruct x as [v|e]; cbn; [|done]. apply wp_bind, wp_get. cbn.
  unfold state_at. rewrite Em. cbn. rewrite lookup_insert_eq. cbn.
  destruct v as [v|]; [|done]. destruct (m !! watch); [done|].
  apply wp_modify. split; [cbn; congruence|]. exists (<[watch := v]> m). cbn. rewrite Em. cbn.
  by rewrite insert_insert_eq.
Qed.

Lemma set_lastResult_self st : st = set_lastResult (lastResult st) st.
Proof. by destruct st. Qed.

Lemma run_script_spec frame now b script name slot l :
  wp (run_script frame now b script name slot) (λ _ l', ran b script name slot l l') l.
Proof.
  unfold run_script. apply wp_bind, wp_get. cbn [then_wp].
  set (st := current_state _ _ _ _). apply wp_bind, wp_modify. cbn [then_wp].
  apply wp_bind, wp_zoom. eapply wp_mono; [apply collect_changes_spec|]. cbn.
  intros [changes|e] r1 [E1 Hch]; cbn [then_wp]; [|by exists st; split; [done|left]].
  apply wp_bind, wp_zoom, wp_intro. intros x r2 E2. cbn in E2.
  set (c := MkCall b _ _ _ _ _ _) in E2.
  assert (calls r2 = calls (host l) ++ [(c, x)]) as Hc.
  { rewrite <-E1. destruct (execute_lifecycle c (recorded_host r1)) as [y h]. by injection E2 as <- <-. }
  assert (asked b st (script_source script) c) as Ha by (split_and!; try done; by apply Hch).
  destruct x as [r|e]; cbn [then_wp].
  - destruct (succeeded r) eqn:Es.
    + apply wp_bind, wp_modify. cbn [then_wp]. eapply wp_mono.
      { apply (take_snapshots_spec b (advance now r st) (system l) (calls (host l) ++ [(c, Ok r)])).
        split; [done|]. exists ∅. cbn. by rewrite insert_insert_eq. }
      intros _ l' [Hl [m Hm]]. exists (set_snapshots m (advance now r st)). split; [done|]. right.
      exists c, (Ok r). split_and!; [done|done|]. unfold success. cbn. rewrite Es. by exists m.
    + apply wp_modify. exists (set_lastResult r st). split; [cbn; by rewrite insert_insert_eq|]. right.
      exists c, (Ok r). split_and!; [done|done|]. unfold success. cbn. rewrite Es. by exists r.
  - exists st. split; [done|]. right. exists c, (Err e). split_and!; [done|done|].
    exists (lastResult st). apply set_lastResult_self.
Qed.

(** A behaviour that no script is found for *)
Definition idle b l l' : Prop :=
  calls (host l') = calls (host l) ∧
  (system l' = set_states (delete b (states (system l))) (system l) ∨
   ∃ r, system l' = set_states (<[b := set_lastResult r new_BehaviorState]> (states (system l))) (system l)).

Lemma count_readable_same type b k acc : keeps same_calls (count_readable type b k acc).
Proof.
  revert acc. induction k as [|[name slot] k IH]; intros acc; cbn; [apply keeps_ret; apply _|].
  apply keeps_bind; [apply _|apply unrecorded_same|]. intros []; apply IH.
Qed.

Lemma select_same type b : keeps same_calls (select_single_readable type b).
Proof.
  unfold select_single_readable.
  apply keeps_try; [apply _| |intros e; apply keeps_ret; apply _].
  apply keeps_bind; [apply _|apply unrecorded_same|]. intros k.
  apply keeps_bind; [apply _|apply count_readable_same|]. intros [[n name] slot].
  destruct (n =? 0); [apply keeps_ret; apply _|]. destruct (1 <? n); [apply keeps_ret; apply _|].
  apply keeps_bind; [apply _|apply unrecorded_same|]. intros []; apply keeps_ret; apply _.
Qed.

Lemma ran_from b script name slot l r l' :
  calls r = calls (host l) → ran b script name slot (set_host r l) l' → ran b script name slot l l'.
Proof. unfold ran. cbn. by intros ->. Qed.

(** The script that a behaviour has under a name *)
Definition reads b (n : string) l (script : LuaBehaviorScript) : Prop :=
  (lifecycle_read (scriptType (system l)) b n (recorded_host (host l))).1 = Ok (Some script).

Lemma run_behavior_spec frame now b l :
  wp (run_behavior frame now b) (λ _ l',
    (idle b l l' ∧ ∀ n script, scriptName (system l) = Some n → ¬ reads b n l script) ∨
    ∃ script name slot, ran b script name slot l l' ∧
      ∀ n, scriptName (system l) = Some n → name = "" ∧ slot = InvalidComponentSlotId ∧ reads b n l script) l.
Proof.
  unfold run_behavior. apply wp_bind, wp_get. cbn [then_wp].
  destruct (scriptName (system l)) as [n|] eqn:En.
  - apply wp_bind, wp_try, wp_zoom, wp_intro. intros x r E.
    pose proof (unrecorded_calls (lifecycle_read (scriptType (system l)) b n) (host l)) as Er.
    assert ((unrecorded (lifecycle_read (scriptType (system l)) b n) (host l)) = (x, r)) as E' by exact E.
    rewrite E' in Er. cbn in Er.
    assert ((lifecycle_read (scriptType (system l)) b n (recorded_host (host l))).1 = x) as Ex.
    { change x with (x, r).1. rewrite <-E'. unfold unrecorded, zoom. by destruct (lifecycle_read _ b n (recorded_host (host l))). }
    destruct x as [[script|]|e]; cbn.
    + eapply wp_mono; [apply run_script_spec|]. cbn. intros ? l' Hr. right. exists script, "", InvalidComponentSlotId.
      split; [by eapply ran_from|]. by intros m [= <-].
    + apply wp_modify. left. split; [split; [done|by left]|]. intros m script [= <-]. unfold reads. by rewrite Ex.
    + apply wp_modify. left. split; [split; [done|by left]|]. intros m script [= <-]. unfold reads. by rewrite Ex.
  - apply wp_bind, wp_zoom, wp_intro. intros x r E.
    pose proof (select_same (scriptType (system l)) b (host l)) as Er. unfold same_calls in Er.
    rewrite E in Er. cbn in Er. destruct x as [[script name slot|failure]|e]; cbn.
    + eapply wp_mono; [apply run_script_spec|]. cbn. intros ? l' Hr. right. exists script, name, slot.
      split; [by eapply ran_from|done].
    + apply wp_modify. left. split; [|done]. split; [done|]. right. by eexists.
    + exfalso. revert E. cbn. unfold select_single_readable, stry.
      match goal with |- match ?m with _ => _ end = _ → _ => destruct m as [[a|e'] h'] end; intros Hx; discriminate Hx.
Qed.

(** ** Histories *)

(** What happens to a system: it is run, a behaviour leaves it, and between these
    the world changes in any way. *)
Inductive lifecycle_step :=
| RunStep (members : gset BehaviorId) (frame : N) (now : IntentTime)
| RemovedStep (b : BehaviorId)
| WorldStep (f : H → H).

Definition perform_lifecycle (o : lifecycle_step) : stm Watched unit :=
  match o with
  | RunStep members frame now => run members frame now
  | RemovedStep b => on_behavior_removed b
  | WorldStep f => on_lifecycle_host (smodify (λ r, set_recorded_host (f (recorded_host r)) r))
  end.

(** The steps go on after an exception. *)
Definition after_steps (s : LuaLifecycleSystem) (h : H) (steps : list lifecycle_step) : Watched :=
  foldl (λ l o, (perform_lifecycle o l).2) (MkLifecycle s (MkRecorded h [])) steps.

Lemma after_steps_invariant (I : Watched → Prop) (good : lifecycle_step → Prop) s h steps :
  I (MkLifecycle s (MkRecorded h [])) → Forall good steps →
  (∀ o l, good o → I l → I (perform_lifecycle o l).2) → I (after_steps s h steps).
Proof.
  unfold after_steps. intros Hi Hg Hstep. revert Hi. generalize (MkLifecycle s (MkRecorded h [])) as l.
  induction Hg as [|o steps Ho _ IH]; intros l Hl; cbn; [done|]. apply IH. by apply Hstep.
Qed.

(** Running keeps what each iteration keeps. *)
Lemma run_invariant (I : Watched → Prop) members frame now l :
  (∀ b l, I l → wp (run_behavior frame now b) (λ _ l', I l') l) → I l → I (run members frame now l).2.
Proof.
  intros Hb Hl. unfold run. change (wp (sfor (run_behavior frame now) (ordered members)) (λ _ l', I l') l).
  apply (wp_for _ _ (λ _, I)); [done| |done]. intros b _ l1 H1. eapply wp_mono; [by apply Hb|]. cbn.
  by intros [[]|e] l2 H2.
Qed.

Lemma new_named_Ok type runner n s :
  new_named type runner n = Ok s → s = MkLifecycleSystem type (Some n) ∅.
Proof.
  unfold new_named, reject_if. destruct (_ =? _); [done|]. case_bool_decide; [done|].
  destruct runner; [|done]. by intros [= <-].
Qed.

Lemma new_selecting_Ok type runner n s :
  new_selecting type runner n = Ok s → s = MkLifecycleSystem type None ∅.
Proof.
  unfold new_selecting, reject_if. destruct (_ =? _); [done|]. destruct runner; [|done].
  destruct (negb _); [done|]. by intros [= <-].
Qed.

(** ** A script goes on from its last success *)

Definition told log c : Prop :=
  if call_start c then call_delta c = 0 ∧ call_changes c = []
  else ∃ p r, last_success (call_owner c) log = Some (p, r) ∧ call_source p = call_source c ∧
    call_delta c = wrap 64 (call_now c + 2 ^ 64 - call_now p) ∧
    Forall (λ ch, declared (call_owner c) (call_source c) log (change_type ch, change_name ch) ∧
      lua_value_eq (change_before ch) (change_after ch) = false) (call_changes c).

(** A state remembers the last success of the script it is of. *)
Definition resumable b log st : Prop :=
  if started st then ∃ p r, last_success b log = Some (p, r) ∧ call_source p = state_source st ∧
    call_now p = lastSuccessfulTime st ∧ Forall (declared b (state_source st) log) (state_watches st)
  else state_watches st = [].

Definition told_all log : Prop := ∀ i c x, log !! i = Some (c, x) → told (take i log) c.

Record remembered l : Prop := {
  rm_told : told_all (calls (host l));
  rm_states b : resumable b (calls (host l)) (state_at b (system l))
}.

Lemma told_all_snoc log c x : told_all log → told log c → told_all (log ++ [(c, x)]).
Proof.
  intros Hl Hc i c' x'. destruct (decide (i < length log)%nat) as [Hi|Hi].
  - rewrite lookup_app_l, take_app_le by lia. apply Hl.
  - rewrite lookup_app_r by lia. intros [Hz [= -> ->]]%list_lookup_singleton_Some.
    by replace i with (length log) by lia; rewrite take_app_length.
Qed.

Lemma resumable_current b log script name slot st :
  resumable b log st → resumable b log (current_state script name slot st).
Proof. unfold current_state. by destruct (_ || _). Qed.

Lemma asked_told b log st c :
  resumable b log st → asked b st (state_source st) c → told log c.
Proof.
  unfold resumable, told. intros Hr (Eo & Es & Est & Ed & Hch). rewrite Est, Ed, Eo, Es.
  destruct (started st); cbn.
  - destruct Hr as (p & r & Hp & Hs & Ht & Hw). exists p, r. rewrite Ht. split_and!; try done.
    eapply Forall_impl; [exact Hch|]. intros ch [Hin Hne]. split; [|done].
    rewrite Forall_forall in Hw. by apply Hw.
  - split; [done|]. rewrite Hr in Hch. destruct (call_changes c) as [|ch cs]; [done|].
    apply Forall_cons in Hch as [[Hin _] _]. by apply elem_of_nil in Hin.
Qed.

Lemma resumable_snoc b log st e :
  resumable b log st → (∀ p, success e = Some p → call_owner p.1 ≠ b) → resumable b (log ++ [e]) st.
Proof.
  unfold resumable. intros Hr He. destruct (started st); [|done].
  destruct Hr as (p & r & Hp & Hs & Ht & Hw). exists p, r. split_and!; try done.
  - rewrite last_success_snoc. destruct (success e) as [q|] eqn:Eq; [|done].
    rewrite decide_False; [done|by apply He].
  - eapply Forall_impl; [exact Hw|]. intros w. apply declared_snoc.
Qed.

Lemma elem_of_add_watches k : ∀ ws w, w ∈ add_watches ws k → w ∈ ws ∨ w ∈ k.
Proof.
  unfold add_watches. induction k as [|w' k IH]; intros ws w; cbn; [by left|].
  intros [Hin|Hin]%IH; [|right; by right]. case_bool_decide; [by left|].
  apply elem_of_app in Hin as [Hin|Hin%list_elem_of_singleton]; [by left|]. right. subst. by left.
Qed.

Lemma resumable_advance b log st c r m :
  resumable b log st → asked b st (state_source st) c → succeeded r = true →
  resumable b (log ++ [(c, Ok r)]) (set_snapshots m (advance (call_now c) r st)).
Proof.
  intros Hr (Eo & Es & _) Hok.
  assert (success (c, Ok r) = Some (c, r)) as E by (unfold success; cbn; by rewrite Hok).
  unfold resumable. cbn. exists c, r. rewrite last_success_snoc, E. cbn. rewrite decide_True by done.
  split_and!; try done. apply Forall_forall. intros w [Hin|Hin]%elem_of_add_watches.
  - apply declared_snoc. unfold resumable in Hr. destruct (started st).
    + destruct Hr as (p & r' & _ & _ & _ & Hw). rewrite Forall_forall in Hw. by apply Hw.
    + rewrite Hr in Hin. by apply elem_of_nil in Hin.
  - exists c, r. split; [|done]. rewrite successes_snoc, E, elem_of_app. cbn.
    rewrite decide_True by done. right. by apply list_elem_of_singleton.
Qed.

Lemma state_at_insert b b' st s :
  state_at b' (set_states (<[b := st]> (states s)) s) = if decide (b = b') then st else state_at b' s.
Proof.
  unfold state_at. cbn. case_decide as E; [subst; by rewrite lookup_insert_eq|by rewrite lookup_insert_ne].
Qed.

Lemma state_at_delete b b' s :
  state_at b' (set_states (delete b (states s)) s) = if decide (b = b') then new_BehaviorState else state_at b' s.
Proof.
  unfold state_at. cbn. case_decide as E; [subst; by rewrite lookup_delete_eq|by rewrite lookup_delete_ne].
Qed.

Lemma idle_remembered b l l' : remembered l → idle b l l' → remembered l'.
Proof.
  intros [Ht Hs] [El Es]. split; [by rewrite El|]. intros b'. rewrite El.
  destruct Es as [->|[r ->]]; rewrite ?state_at_delete, ?state_at_insert; case_decide; first [apply Hs|done].
Qed.

Lemma ran_remembered b script name slot l l' : remembered l → ran b script name slot l l' → remembered l'.
Proof.
  intros [Ht Hs]. unfold ran. set (st := current_state _ _ _ _). intros (st' & Esys & Hrun).
  assert (resumable b (calls (host l)) st) as Hst by by apply resumable_current.
  assert (state_source st = script_source script) as Esrc by apply current_state_source.
  destruct Hrun as [[El ->]|(c & x & El & Ha & Hst')].
  { split; [by rewrite El|]. intros b'. rewrite El, Esys, state_at_insert. case_decide as E; [by subst|apply Hs]. }
  rewrite <-Esrc in Ha. pose proof (asked_told _ _ _ _ Hst Ha) as Hc. pose proof Ha as (Eo & _).
  split; [rewrite El; by apply told_all_snoc|]. intros b'. rewrite El, Esys, state_at_insert. case_decide as E.
  - subst b'. unfold success in Hst'. destruct x as [r|e]; cbn in Hst'.
    + destruct (succeeded r) eqn:Er; destruct Hst' as [y ->]; [by apply resumable_advance|].
      apply resumable_snoc; [done|]. unfold success. cbn. by rewrite Er.
    + destruct Hst' as [y ->]. by apply resumable_snoc.
  - apply resumable_snoc; [apply Hs|]. unfold success. cbn. intros p.
    destruct x as [r|e]; [|done]. destruct (succeeded r); [|done]. intros [= <-]. cbn. congruence.
Qed.

Lemma step_remembered o l : remembered l → remembered (perform_lifecycle o l).2.
Proof.
  destruct o as [members frame now|b|f]; cbn [perform_lifecycle].
  - apply run_invariant. clear l. intros b l Hl. eapply wp_mono; [apply run_behavior_spec|]. cbn.
    intros ? l' [[Hi _]|(script & name & slot & Hr & _)]; [by eapply idle_remembered|by eapply ran_remembered].
  - intros Hl. eapply (idle_remembered b); [done|]. split; [done|by left].
  - by intros [Ht Hs].
Qed.

(** C35. However a lifecycle system is used and its world changes, a script that is
    not told to start is told exactly what it missed: the last successful call
    for its behaviour ran the same source, the time that it is told has passed is
    the time since that call, and every change it hears of is of a component
    that a successful run of this source asked to watch and whose value is not
    the one remembered.  A script told to start hears of no time and no change. *)
Theorem scripts_resume_from_last_success type runner selected s h steps i c x :
  (∃ name, selected = new_named type runner name) ∨ (∃ n, selected = new_selecting type runner n) →
  selected = Ok s →
  calls (host (after_steps s h steps)) !! i = Some (c, x) →
  told (take i (calls (host (after_steps s h steps)))) c.
Proof.
  intros Hsel Es. apply rm_told. apply (after_steps_invariant remembered (λ _, True)).
  - assert (states s = ∅) as E.
    { destruct Hsel as [[name E]|[n E]]; rewrite Es in E; symmetry in E;
        [by apply new_named_Ok in E as ->|by apply new_selecting_Ok in E as ->]. }
    split; cbn; [by intros ??? ?|]. intros b. unfold state_at. by rewrite E, lookup_empty.
  - by apply Forall_true.
  - intros o l _. apply step_remembered.
Qed.

(** ** A script starts until it has succeeded once *)

Section Starting.
Context (type : ComponentType) (n : string) (b : BehaviorId) (script : LuaBehaviorScript).
(** The behaviour's script is there to be read, and stays the same. *)
Context (Hread : ∀ h : H, (lifecycle_read type b n h).1 = Ok (Some script)).

Definition succeeded_before log : bool := bool_decide (is_Some (last_success b log)).

Record starting l : Prop := {
  sg_type : scriptType (system l) = type;
  sg_name : scriptName (system l) = Some n;
  sg_calls : ∀ i c x, calls (host l) !! i = Some (c, x) → call_owner c = b →
    call_start c = negb (succeeded_before (take i (calls (host l))));
  sg_state : started (state_at b (system l)) = succeeded_before (calls (host l));
  sg_kept : started (state_at b (system l)) = true →
    of_script script "" InvalidComponentSlotId (state_at b (system l))
}.

Lemma starts_snoc log c x :
  (∀ i c x, log !! i = Some (c, x) → call_owner c = b → call_start c = negb (succeeded_before (take i log))) →
  (call_owner c = b → call_start c = negb (succeeded_before log)) →
  ∀ i c' x', (log ++ [(c, x)]) !! i = Some (c', x') → call_owner c' = b →
    call_start c' = negb (succeeded_before (take i (log ++ [(c, x)]))).
Proof.
  intros Hl Hc i c' x'. destruct (decide (i < length log)%nat) as [Hi|Hi].
  - rewrite lookup_app_l, take_app_le by lia. apply Hl.
  - rewrite lookup_app_r by lia. intros [Hz [= -> ->]]%list_lookup_singleton_Some.
    by replace i with (length log) by lia; rewrite take_app_length.
Qed.

(** Calls of another behaviour change nothing. *)
Lemma starting_other b' l l' log' s' c x :
  b' ≠ b → starting l → call_owner c = b' → system l' = s' → calls (host l') = log' →
  scriptType s' = type → scriptName s' = Some n → state_at b s' = state_at b (system l) →
  log' = calls (host l) ∨ log' = calls (host l) ++ [(c, x)] → starting l'.
Proof.
  intros Hne [Ht Hn Hc Hs Hk] Eo <- <- Et En Est Hlog.
  assert (succeeded_before (calls (host l')) = succeeded_before (calls (host l))) as Eb.
  { destruct Hlog as [->| ->]; [done|]. unfold succeeded_before. rewrite last_success_snoc. unfold success. cbn.
    destruct x as [r|e]; [|done]. destruct (succeeded r); [|done]. cbn. by rewrite decide_False by congruence. }
  split; [done|done| |by rewrite Est, Eb|by rewrite Est].
  destruct Hlog as [->| ->]; [done|]. apply starts_snoc; [done|congruence].
Qed.

Lemma starting_ran l l' : starting l → ran b script "" InvalidComponentSlotId l l' → starting l'.
Proof.
  intros [Ht Hn Hc Hs Hk]. unfold ran. set (st := current_state _ _ _ _). intros (st' & Esys & Hrun).
  assert (of_script script "" InvalidComponentSlotId st) as Hof by apply current_state_of.
  assert (started st = succeeded_before (calls (host l))) as Hst.
  { destruct (started (state_at b (system l))) eqn:Est.
    - unfold st. by rewrite (of_script_current _ _ _ _ (Hk eq_refl)), Est.
    - unfold st, current_state. destruct (_ || _); [by rewrite <-Hs|]. by rewrite Est. }
  destruct Hrun as [[El ->]|(c & x & El & (Eo & _ & Estart & _) & Hst')].
  { split; rewrite ?Esys, ?state_at_insert, ?decide_True, ?El by done; try done. }
  assert (∀ i c' x', calls (host l') !! i = Some (c', x') → call_owner c' = b →
    call_start c' = negb (succeeded_before (take i (calls (host l'))))) as Hcalls.
  { rewrite El. apply starts_snoc; [done|]. intros _. by rewrite Estart, Hst. }
  assert (succeeded_before (calls (host l')) =
    match success (c, x) with Some _ => true | None => succeeded_before (calls (host l)) end) as Hsb.
  { rewrite El. unfold succeeded_before. rewrite last_success_snoc. unfold success. cbn.
    destruct x as [r|e]; [|done]. destruct (succeeded r); [|done]. cbn. by rewrite decide_True. }
  split; [by rewrite Esys|by rewrite Esys|done| |];
    rewrite Esys, state_at_insert, decide_True, ?Hsb by done; unfold success in *; cbn in *;
    destruct x as [r|e]; [destruct (succeeded r) eqn:Er| |destruct (succeeded r) eqn:Er|];
    destruct Hst' as [y ->]; done.
Qed.

Lemma starting_step o l : o ≠ RemovedStep b → starting l → starting (perform_lifecycle o l).2.
Proof.
  destruct o as [members frame now|b'|f]; cbn [perform_lifecycle]; intros Ho.
  - apply run_invariant. clear l. intros b' l Hl. eapply wp_mono; [apply run_behavior_spec|]. cbn.
    pose proof Hl as [Ht Hn _ _ _]. intros ? l' [[[El Es] Hno]|(sc & name & slot & Hr & Hsc)].
    + assert (b' ≠ b) as Hne.
      { intros ->. apply (Hno n script Hn). unfold reads. rewrite Ht. apply Hread. }
      destruct Es as [Es|[r Es]]; apply (starting_other b' l l' _ _ (MkCall b' 0 0 0 true [] "") (throw logic_error "") Hne Hl
        eq_refl Es El); rewrite ?state_at_delete, ?state_at_insert, ?decide_False by done; try done; by left.
    + destruct (decide (b' = b)) as [->|Hne].
      * destruct (Hsc n Hn) as (-> & -> & Er). assert (sc = script) as ->; [|by apply (starting_ran l)].
        unfold reads in Er. rewrite Ht, Hread in Er. by injection Er.
      * destruct Hr as (st' & Esys & [[El _]|(c & y & El & (Eo & _) & _)]).
        -- apply (starting_other b' l l' _ _ (MkCall b' 0 0 0 true [] "") (throw logic_error "") Hne Hl
             eq_refl Esys El); rewrite ?state_at_insert, ?decide_False by done; try done; by left.
        -- apply (starting_other b' l l' _ _ c y Hne Hl Eo Esys El);
             rewrite ?state_at_insert, ?decide_False by done; try done; by right.
  - assert (b' ≠ b) as Hne by congruence. intros Hl. pose proof Hl as [Ht Hn _ _ _].
    apply (starting_other b' l (on_behavior_removed b' l).2 (calls (host l)) (set_states (delete b' (states (system l))) (system l))
      (MkCall b' 0 0 0 true [] "") (throw logic_error "") Hne Hl eq_refl eq_refl eq_refl);
      rewrite ?state_at_delete, ?decide_False by done; try done; by left.
  - by intros [Ht Hn Hc Hs Hk].
Qed.

Lemma starting_new h : starting (MkLifecycle (MkLifecycleSystem type (Some n) ∅) (MkRecorded h [])).
Proof. by split; cbn; unfold state_at; cbn; rewrite ?lookup_empty. Qed.

(** C36. A behaviour whose script is there to be read and stays the same is told to
    start in every call up to the first that succeeds, whatever its other calls
    end in, and in no call after it, as long as it belongs to the system. *)
Theorem script_starts_until_success runner s h steps i c x :
  new_named type runner n = Ok s → Forall (λ o, o ≠ RemovedStep b) steps →
  calls (host (after_steps s h steps)) !! i = Some (c, x) → call_owner c = b →
  (call_start c = true ↔ successes b (take i (calls (host (after_steps s h steps)))) = []).
Proof.
  intros Es Hsteps Hi Ho. apply new_named_Ok in Es as ->.
  rewrite (sg_calls _ (after_steps_invariant starting (λ o, o ≠ RemovedStep b) _ h steps
    (starting_new h) Hsteps starting_step) i c x Hi Ho).
  unfold succeeded_before, last_success. case_bool_decide as E; cbn; (split; intros Hs; [|]); try done.
  - exfalso. rewrite Hs in E. by destruct E.
  - destruct (successes _ _) as [|p k] using rev_ind; [done|]. destruct E. rewrite last_snoc. by eexists.
Qed.
End Starting.
End Recording.

(** ** The codec *)

(** A value decodes as a script exactly if it is the encoding of that script and
    the revision is one a script may have. *)
Lemma script_codec_exact m script :
  sm_sorted m →
  decode_script (VObject m) = Ok script ↔
  VObject m = encode_script script ∧ 1 <= script_revision script <= u32_max.
Proof.
  intros Hm. split.
  - unfold decode_script. cbn.
    destruct (sm_find "source" m) as [v|] eqn:Ev; [|done]. destruct (sm_find "revision" m) as [w|] eqn:Ew; [|done].
    unfold reject_if. destruct (len m =? 2) eqn:El; [|done]. apply N.eqb_eq in El. unfold len in El.
    destruct m as [|[k x] [|[k' x'] [|]]]; cbn in El; try lia. cbn. destruct w as [| | |rev| | | | |]; try done. cbn.
    match goal with |- context [if ?c then _ else _] => destruct c eqn:Er end; [done|].
    destruct v as [| | | | |text| | |]; try done. cbn. intros [= <-].
    apply orb_false_iff in Er as [E0%N.eqb_neq E1%N.ltb_ge]. split; [|cbn; lia].
    unfold sm_sorted in Hm. cbn in Hm. apply StronglySorted_inv in Hm as [_ Hlt%Forall_cons]. destruct Hlt as [Hlt _].
    cbn in Ev, Ew. repeat case_decide; simplify_eq; done.
  - intros [-> [H1 H2]]. unfold decode_script, reject_if. destruct script as [text rev].
    change (encode_script _) with (VObject [("revision", VUnsigned rev); ("source", VString text)]).
    assert (rev ≠ 0) as H0%N.eqb_neq by (cbn in H1; lia). apply N.ltb_ge in H2.
    cbn -[u32_max N.ltb N.eqb len]. change (len _ =? 2) with true. cbn -[u32_max N.ltb N.eqb].
    cbn [script_revision] in H2.
    repeat case_decide; try done. cbn -[u32_max N.ltb N.eqb]. by rewrite H0, H2.
Qed.

(** ** A system at work *)

(** A world with one counter, which the script watches; its first run fails. *)
Definition sample_lifecycle : LifecycleHost N := {|
  lifecycle_components _ _ := mret [("lifecycle", MkHandle 1 1 1)];
  lifecycle_can_read _ _ _ := mret true;
  lifecycle_read _ _ _ := mret (Some (MkScript "return count" 1));
  lifecycle_snapshot _ _ _ := λ n, (Ok (Some (LInteger (Z.of_N n))), n);
  execute_lifecycle c := λ n, (Ok (MkExecutionResult
    (if call_frame c =? 1 then LuaExecutionStatus.RuntimeError else LuaExecutionStatus.Success)
    "" [] [] [("Counter", "count")]), n + 1)
|}.
Definition sample_type : ComponentType := MkComponentType 1 1 0.
Definition sample_behavior : BehaviorId := MkHandle 1 0 1.
Definition sample_system : LuaLifecycleSystem := MkLifecycleSystem sample_type (Some "lifecycle") ∅.
Definition sample_steps : list (lifecycle_step (H := N)) :=
  [RunStep {[sample_behavior]} 1 10; RunStep {[sample_behavior]} 2 20; WorldStep (λ n, n + 3);
   RunStep {[sample_behavior]} 3 35].
Definition sample_call : LifecycleCall :=
  MkCall sample_behavior 3 35 15 false [MkChange "Counter" "count" (LInteger 2) (LInteger 5)] "return count".
Definition sample_result : res LuaExecutionResult :=
  Ok (MkExecutionResult LuaExecutionStatus.Success "" [] [] [("Counter", "count")]).

Example sample_starts :
  (call_start ∘ fst) <$> calls (host (after_steps sample_lifecycle sample_system 0 sample_steps)) =
  [true; true; false].
Proof. vm_compute. reflexivity. Qed.

Lemma scripts_resume_from_last_success_witness :
  told (take 2 (calls (host (after_steps sample_lifecycle sample_system 0 sample_steps)))) sample_call.
Proof.
  apply (scripts_resume_from_last_success sample_lifecycle sample_type true
    (new_named sample_type true "lifecycle") sample_system 0 sample_steps 2 sample_call sample_result).
  - left. exists "lifecycle". reflexivity.
  - vm_compute. reflexivity.
  - vm_compute. reflexivity.
Defined.

Lemma script_starts_until_success_witness :
  call_start sample_call = true ↔
  successes sample_behavior
    (take 2 (calls (host (after_steps sample_lifecycle sample_system 0 sample_steps)))) = [].
Proof.
  apply (script_starts_until_success sample_lifecycle sample_type "lifecycle" sample_behavior
    (MkScript "return count" 1) (λ _, eq_refl) true sample_system 0 sample_steps 2 sample_call sample_result).
  - vm_compute. reflexivity.
  - repeat constructor; discriminate.
  - vm_compute. reflexivity.
  - reflexivity.
Defined.
