(* ===== verification/EvaluationAccounting.v ===== *)
(** * The logical size of evaluation evidence
    (src/authoring/Evaluation.cpp: response accounting and [bound_response])

    Every scalar, flag, string and element of a record costs a fixed number of
    logical bytes; [bound_response] keeps a record within its limit by dropping
    evidence. *)
From S2P Require Import Prelude OrderedMap Values Effects Events Adapters Ids Components LuaManifest LuaRunner EvaluationTypes.

Definition elements_bytes (count each : N) : N :=
  if u64_max / each <? count then u64_max else count * each.

Definition scalar_bytes (v : value) : N :=
  match v with
  | VBoolean _ => 1
  | VSigned _ | VUnsigned _ | VDouble _ => Payload.LogicalScalarBytes
  | VString s => slen s
  | VBytes bs => len bs
  | VNull | VArray _ | VObject _ => 0
  end.

(** [logical_bytes] with the loops of [collection_bytes] *)
Fixpoint logical_bytes (v : value) : N :=
  match v with
  | VArray items =>
      saturating_sum (λ item, saturating_add Payload.LogicalScalarBytes (logical_bytes item)) items 0
  | VObject entries =>
      saturating_sum (λ e, saturating_add (Payload.LogicalScalarBytes + slen e.1) (logical_bytes e.2))
        entries 0
  | v => scalar_bytes v
  end.

Definition frame_bytes (frame : EvaluationFrameSummary) : N :=
  let bytes := 11 * Payload.LogicalElementBytes + 6 * Payload.LogicalScalarBytes +
    3 * Payload.LogicalFlagBytes + Payload.LogicalFlagBytes in
  let bytes := match lifecycleStatus frame with Some _ => bytes + Payload.LogicalScalarBytes | None => bytes end in
  saturating_add bytes
    (elements_bytes (len (reportStatuses frame))
      (Payload.LogicalElementBytes + Payload.LogicalScalarBytes)).

Definition target_bytes (target : EvaluationTargetSummary) : N :=
  let bytes := saturating_add (slen (summary_scriptTypeName target))
    (slen (summary_componentName target)) in
  let bytes := saturating_add bytes
    (4 * Payload.LogicalElementBytes + Payload.LogicalScalarBytes + Payload.LogicalFlagBytes) in
  match summary_value target with
  | Some v => saturating_add bytes (logical_bytes v)
  | None => bytes
  end.

Definition case_bytes (result : EvaluationCaseResult) : N :=
  let bytes := saturating_add (slen (case_name result))
    (7 * Payload.LogicalElementBytes + 3 * Payload.LogicalScalarBytes) in
  let bytes := saturating_add bytes (slen (case_diagnostic result)) in
  let bytes := saturating_sum
    (λ f, saturating_add Payload.LogicalElementBytes (frame_bytes f)) (frames result) bytes in
  saturating_sum (λ t, saturating_add Payload.LogicalElementBytes (target_bytes t))
    (finalState result) bytes.

Definition record_header_bytes (fixtureName : string) : N :=
  saturating_add
    ((9 + 2) * Payload.LogicalElementBytes + 7 * Payload.LogicalScalarBytes + Payload.LogicalFlagBytes)
    (slen fixtureName).

Definition record_bytes (record : EvaluationRecord) : N :=
  saturating_sum (λ c, saturating_add Payload.LogicalElementBytes (case_bytes c)) (cases record)
    (record_header_bytes (stableName (record_fixture record))).

(** ** [bound_response] *)

Definition set_complete b (r : EvaluationRecord) : EvaluationRecord :=
  MkEvaluationRecord (record_id r) (record_session r) (record_proposal r) (record_scope r)
    (record_scopeRevision r) (record_fixture r) (record_status r) b (cases r).
Definition set_record_status s (r : EvaluationRecord) : EvaluationRecord :=
  MkEvaluationRecord (record_id r) (record_session r) (record_proposal r) (record_scope r)
    (record_scopeRevision r) (record_fixture r) s (complete r) (cases r).
Definition set_cases l (r : EvaluationRecord) : EvaluationRecord :=
  MkEvaluationRecord (record_id r) (record_session r) (record_proposal r) (record_scope r)
    (record_scopeRevision r) (record_fixture r) (record_status r) (complete r) l.

Definition clear_evidence (c : EvaluationCaseResult) : EvaluationCaseResult :=
  MkCaseResult (case_name c) (case_status c) (framesScheduled c) (framesRun c) "" [] [].

(** The record is passed by reference. *)
Definition bound_response (record : EvaluationRecord) (limit : N) : N * EvaluationRecord :=
  let bytes := record_bytes record in
  if bytes <=? limit then (bytes, set_complete true record)
  else
    let record := set_record_status EvaluationStatus.LimitExceeded (set_complete false record) in
    let record := set_cases (map clear_evidence (cases record)) record in
    let bytes := record_bytes record in
    if limit <? bytes then
      let record := set_cases [] record in (record_bytes record, record)
    else (bytes, record).

(** ** Lemmas *)

Lemma record_header_bytes_le name : record_header_bytes name <= u64_max.
Proof. by apply saturating_add_le. Qed.

Lemma saturating_sum_le {A} (f : A → N) l b : b <= u64_max → saturating_sum f l b <= u64_max.
Proof. intros Hb. rewrite saturating_sum_spec by done. lia. Qed.

Lemma saturating_sum_grows {A} (f : A → N) l b : b <= u64_max → b <= saturating_sum f l b.
Proof. intros Hb. rewrite saturating_sum_spec by done. lia. Qed.

Lemma record_bytes_le r : record_bytes r <= u64_max.
Proof. apply saturating_sum_le, record_header_bytes_le. Qed.

(** Only the cases count towards the size beyond the header. *)
Lemma record_bytes_ext r r' :
  record_fixture r' = record_fixture r → cases r' = cases r → record_bytes r' = record_bytes r.
Proof. unfold record_bytes. by intros -> ->. Qed.

Lemma record_bytes_no_cases r : record_bytes (set_cases [] r) = record_header_bytes (stableName (record_fixture r)).
Proof. done. Qed.

Lemma bound_response_charge r limit :
  (bound_response r limit).1 <= N.max limit (record_header_bytes (stableName (record_fixture r))).
Proof.
  unfold bound_response. cbv zeta.
  destruct (N.leb_spec (record_bytes r) limit); cbn [fst]; [lia|].
  destruct (N.ltb_spec limit (record_bytes (set_cases (map clear_evidence (cases
    (set_record_status EvaluationStatus.LimitExceeded (set_complete false r))))
    (set_record_status EvaluationStatus.LimitExceeded (set_complete false r))))); cbn [fst]; [|lia].
  rewrite record_bytes_no_cases. cbn [set_cases set_record_status set_complete record_fixture]. lia.
Qed.

Lemma bound_response_fields r limit :
  let r' := (bound_response r limit).2 in
  record_id r' = record_id r ∧ record_fixture r' = record_fixture r.
Proof. unfold bound_response. cbv zeta. by repeat case_match. Qed.

(** A record within the bound says what it said; the others are no success,
    and hold no evidence. *)
Theorem bound_response_never_partial r limit :
  let '(bytes, r') := bound_response r limit in
  bytes = record_bytes r' ∧ bytes <= N.max limit (record_header_bytes (stableName (record_fixture r))) ∧
  if complete r' then record_bytes r <= limit ∧ r' = set_complete true r
  else limit < record_bytes r ∧ record_status r' = EvaluationStatus.LimitExceeded ∧
    (cases r' = map clear_evidence (cases r) ∨ cases r' = []).
Proof.
  pose proof (bound_response_charge r limit) as Hb. revert Hb. unfold bound_response. cbv zeta.
  destruct (N.leb_spec (record_bytes r) limit) as [Hle|Hlt]; cbn [fst]; intros Hb.
  { split_and!; [by apply record_bytes_ext|done|]. by split. }
  destruct (limit <? _); cbn [fst] in *; (split_and!; [done|done|]); cbn; auto.
Qed.
