(* ===== verification/EvaluationStore.v ===== *)
(** * The evidence store of an evaluation
    (src/authoring/BoundedEvaluationStore.hpp)

    A memory store whose appends are charged to the budget that all cases of one
    evaluation share.  It is another instance of the store interface and its
    laws; [charged] says what the budget accounts for. *)
From S2P Require Import Prelude OrderedMap Values Hoare Effects Events Replay EventStore EvaluationTypes EvaluationAccounting.

Definition EventHeaderBytes : N :=
  Payload.LogicalElementBytes + 4 * Payload.LogicalElementBytes + 3 * Payload.LogicalScalarBytes.

Record EvaluationRunBudget := MkBudget {
  maxRecords : N;
  maxBytes : N;
  budget_records : N;
  budget_bytes : N;
  budget_exhausted : bool
}.
Definition set_exhausted (b : EvaluationRunBudget) : EvaluationRunBudget :=
  MkBudget (maxRecords b) (maxBytes b) (budget_records b) (budget_bytes b) true.

(** The store, with the budget it refers to. *)
Record BoundedEvaluationStore := MkBounded {
  inner : MemoryEventStore;
  budget : EvaluationRunBudget
}.
Definition set_inner i (s : BoundedEvaluationStore) : BoundedEvaluationStore := MkBounded i (budget s).
Definition set_budget b (s : BoundedEvaluationStore) : BoundedEvaluationStore := MkBounded (inner s) b.
Definition on_inner {A} : stm MemoryEventStore A → stm BoundedEvaluationStore A := zoom inner set_inner.

(** [MemoryEventStore]'s default capacity *)
Definition new_BoundedEvaluationStore (metadata : EventStoreMetadata) (b : EvaluationRunBudget)
  : res BoundedEvaluationStore :=
  store ← new_MemoryEventStore metadata EventLimits.maxRecordsRead;
  Ok (MkBounded store b).

Definition exhausted (s : BoundedEvaluationStore) : bool := budget_exhausted (budget s).

Definition event_bytes (payload : value) : N :=
  saturating_add EventHeaderBytes (logical_bytes payload).

Definition admit_events (events : list EventData) : stm BoundedEvaluationStore N :=
  s ← sget;
  let bytes := saturating_sum (λ e, event_bytes (data_payload e)) events 0 in
  let b := budget s in
  if budget_exhausted b || (maxRecords b - budget_records b <? len events) ||
     (maxBytes b - budget_bytes b <? bytes)
  then
    smodify (set_budget (set_exhausted b));;
    sthrow EventStoreError "evaluation event-store budget exhausted"
  else mret bytes.

Definition charge (records bytes : N) : stm BoundedEvaluationStore unit :=
  smodify (λ s, let b := budget s in
    set_budget (MkBudget (maxRecords b) (maxBytes b) (budget_records b + records)
      (budget_bytes b + bytes) (budget_exhausted b)) s).

Definition bounded_append (event : EventData) (durability : Durability)
  : stm BoundedEvaluationStore RecordId :=
  bytes ← admit_events [event];
  id ← on_inner (memory_append event durability);
  charge 1 bytes;;
  mret id.

Definition bounded_append_batch (events : list EventData) (durability : Durability)
  : stm BoundedEvaluationStore (list RecordId) :=
  bytes ← admit_events events;
  ids ← on_inner (memory_append_batch events durability);
  charge (len events) bytes;;
  mret ids.

#[export] Instance BoundedEvaluationStore_store : EventStore BoundedEvaluationStore := {
  store_metadata s := storeMetadata (inner s);
  store_append := bounded_append;
  store_append_batch := bounded_append_batch;
  store_read_all s := memory_records (inner s);
  store_flush := mret tt;
  store_retain_from_checkpoint q := on_inner (memory_retain_from_checkpoint q)
}.

(** ** The budget *)

Definition record_size (r : EventRecord) : N := event_bytes (payload r).

Record budget_ok (b : EvaluationRunBudget) : Prop := {
  bo_records : budget_records b <= maxRecords b;
  bo_bytes : budget_bytes b <= maxBytes b;
  bo_width : maxRecords b < u64_max ∧ maxBytes b < u64_max
}.

(** Store and budget agree; [recorded] and [bytes] were charged before the store
    was made. *)
Record charged (recorded bytes : N) (s : BoundedEvaluationStore) : Prop := {
  ch_memory : memory_ok (inner s);
  ch_budget : budget_ok (budget s);
  ch_records : budget_records (budget s) = recorded + len (memory_records (inner s));
  ch_bytes : budget_bytes (budget s) = bytes + sum_of record_size (memory_records (inner s))
}.

Lemma event_bytes_le v : event_bytes v <= u64_max.
Proof. by apply saturating_add_le. Qed.

Lemma sum_record_sizes first events :
  sum_of record_size (records_from first events) = sum_of (λ e, event_bytes (data_payload e)) events.
Proof.
  revert first. induction events as [|e events IH]; intros first; [done|].
  cbn [records_from]. rewrite !sum_of_cons. unfold record_size at 1. cbn. by rewrite IH.
Qed.

(** What admission says: nothing is admitted beyond the budget. *)
Lemma admit_spec events s :
  budget_ok (budget s) →
  (∃ bytes, admit_events events s = (Ok bytes, s) ∧ budget_exhausted (budget s) = false ∧
     bytes = sum_of (λ e, event_bytes (data_payload e)) events ∧
     budget_records (budget s) + len events <= maxRecords (budget s) ∧
     budget_bytes (budget s) + bytes <= maxBytes (budget s)) ∨
  admit_events events s = (throw EventStoreError "evaluation event-store budget exhausted",
    set_budget (set_exhausted (budget s)) s).
Proof.
  intros [Hr Hb [_ Hw]]. unfold admit_events, mbind, stm_bind, sget.
  destruct (budget_exhausted (budget s)); cbn [orb]; [by right|].
  destruct (N.ltb_spec (maxRecords (budget s) - budget_records (budget s)) (len events)) as [|Hl];
    cbn [orb]; [by right|].
  rewrite saturating_sum_spec by done.
  match goal with |- context [maxBytes ?b - budget_bytes ?b <? ?x] =>
    destruct (N.ltb_spec (maxBytes b - budget_bytes b) x) as [|Hx] end; [by right|].
  left. eexists. split; [reflexivity|]. split_and!; lia || done.
Qed.

Lemma budget_ok_exhausted b : budget_ok b → budget_ok (set_exhausted b).
Proof. by intros []. Qed.

Lemma charged_exhausted n k s : charged n k s → charged n k (set_budget (set_exhausted (budget s)) s).
Proof. intros []. split; try done. by apply budget_ok_exhausted. Qed.

Lemma bounded_append_batch_spec events d n k s :
  charged n k s →
  wp (bounded_append_batch events d) (λ x s',
    charged n k s' ∧ maxRecords (budget s') = maxRecords (budget s) ∧
    maxBytes (budget s') = maxBytes (budget s) ∧
    (budget_exhausted (budget s) = true → budget_exhausted (budget s') = true) ∧
    match x with
    | Ok ids => Forall (λ e, validate_event e = Ok tt) events ∧
        store_metadata s' = store_metadata s ∧ ∃ first,
        ids = sequence <$> records_from first events ∧
        store_read_all s' = store_read_all s ++ records_from first events ∧ (events ≠ [] → first ≠ 0)
    | Err _ => inner s' = inner s
    end) s.
Proof.
  intros Hc. pose proof (ch_budget _ _ _ Hc) as Hb. unfold bounded_append_batch.
  destruct (admit_spec events s Hb) as [(bytes & E & Hex & -> & Hr & Hby)|E].
  2:{ unfold wp, mbind, stm_bind. rewrite E. cbn. split_and!; try done. by apply charged_exhausted. }
  eapply wp_bind_eq; [exact E|]. apply wp_bind. unfold wp at 1, on_inner, zoom.
  destruct (memory_append_batch events d (inner s)) as [[ids|e] i] eqn:Em; cbn [then_wp fst snd].
  - unfold charge. eapply wp_bind_eq; [reflexivity|]. apply wp_ret.
    destruct Hc as [Hm _ Hrec Hbytes].
    destruct (append_batch_appends (H := MemoryEventStore_store) events d (inner s) ids i Hm Em)
      as (Hm' & Hv & Emeta & first & -> & Eread & Hf).
    cbn [store_read_all MemoryEventStore_store] in Eread. cbn [store_metadata MemoryEventStore_store] in Emeta.
    cbn [set_budget set_inner budget inner maxRecords maxBytes budget_exhausted store_read_all store_metadata BoundedEvaluationStore_store].
    split_and!; try done; [|by exists first].
    split; cbn [set_budget set_inner inner budget budget_records budget_bytes];
      [done| |rewrite Eread, len_app, len_records_from; lia|].
    + destruct Hb as [? ? ?]. by split.
    + rewrite Eread, sum_of_app, sum_record_sizes. lia.
  - pose proof (memory_append_batch_err _ _ _ _ _ (ch_memory _ _ _ Hc) Em) as ->.
    assert (set_inner (inner s) s = s) as -> by by destruct s. done.
Qed.

Lemma bounded_append_is_batch event d s :
  bounded_append event d s = (ids ← bounded_append_batch [event] d; mret (hd 0 ids)) s.
Proof.
  unfold bounded_append, bounded_append_batch, mbind, stm_bind.
  destruct (admit_events [event] s) as [[bytes|e] s1]; [|done].
  unfold on_inner, zoom, memory_append, mbind, stm_bind.
  by destruct (memory_append_batch [event] d (inner s1)) as [[ids|e] i].
Qed.

(** The store keeps the promises of every store. *)
#[export] Instance BoundedEvaluationStore_laws :
  EventStoreLaws BoundedEvaluationStore (λ s, ∃ n k, charged n k s).
Proof.
  split.
  - intros events d s ids s' (n & k & Hc) E.
    destruct (wp_elim _ _ _ _ _ (bounded_append_batch_spec events d n k s Hc) E)
      as (Hc' & _ & _ & _ & Hv & Hm & first & -> & Hr & Hf).
    split_and!; [by exists n, k|done|done|]. by exists first.
  - intros events d s e s' (n & k & Hc) E.
    destruct (wp_elim _ _ _ _ _ (bounded_append_batch_spec events d n k s Hc) E) as (Hc' & _ & _ & _ & Ei).
    split_and!; [by exists n, k|cbn; by rewrite Ei|cbn; by rewrite Ei].
  - intros event d s. apply bounded_append_is_batch.
  - intros s r s' Hok [= <- <-]. by split_and!.
Qed.

(** ** Hosts that only append

    [appends s s']: appended to [s], whatever calls failed, the store is [s']. *)
Inductive append_step : relation BoundedEvaluationStore :=
| appended_one event d s : append_step s (bounded_append event d s).2
| appended_batch events d s : append_step s (bounded_append_batch events d s).2.

Definition appends : relation BoundedEvaluationStore := rtc append_step.
#[export] Instance appends_preorder : PreOrder appends.
Proof. unfold appends. apply _. Qed.

(** What the budget says only grows in use. *)
Record spends (s s' : BoundedEvaluationStore) : Prop := {
  sp_records : maxRecords (budget s') = maxRecords (budget s);
  sp_bytes : maxBytes (budget s') = maxBytes (budget s);
  sp_exhausted : budget_exhausted (budget s) = true → budget_exhausted (budget s') = true;
  sp_read : ∃ records, store_read_all s' = store_read_all s ++ records
}.
#[export] Instance spends_preorder : PreOrder spends.
Proof.
  split.
  - intros s. split; try done. exists []. by rewrite app_nil_r.
  - intros a b c [H1 H2 H3 (r & H4)] [H5 H6 H7 (r' & H8)]. split; [congruence|congruence|auto|].
    exists (r ++ r'). by rewrite H8, H4, app_assoc.
Qed.

Lemma append_step_charged n k s s' :
  append_step s s' → charged n k s → charged n k s' ∧ spends s s'.
Proof.
  intros Hs Hc. assert (∃ events d, s' = (bounded_append_batch events d s).2) as (events & d & ->).
  { destruct Hs as [event d s|events d s]; [|by exists events, d]. exists [event], d.
    rewrite bounded_append_is_batch. unfold mbind, stm_bind. by destruct (bounded_append_batch _ _ _) as [[]]. }
  pose proof (bounded_append_batch_spec events d n k s Hc) as Hw. unfold wp in Hw.
  destruct Hw as (Hc' & H1 & H2 & H3 & Hx). split; [done|]. split; [done|done|done|].
  destruct (bounded_append_batch events d s) as [[ids|e] s']; cbn [fst snd] in *.
  - destruct Hx as (_ & _ & first & _ & Hr & _). by exists (records_from first events).
  - exists []. rewrite app_nil_r. cbn. by rewrite Hx.
Qed.

Lemma appends_charged n k s s' : appends s s' → charged n k s → charged n k s' ∧ spends s s'.
Proof.
  intros Ha. induction Ha as [s|a b c Hab _ IH]; intros Hc; [by split|].
  destruct (append_step_charged n k a b Hab Hc) as [Hb Hs]. destruct (IH Hb) as [Hc' Hs'].
  split; [done|by trans b].
Qed.

Lemma new_bounded_charged m b s :
  budget_ok b → new_BoundedEvaluationStore m b = Ok s →
  charged (budget_records b) (budget_bytes b) s ∧ budget s = b ∧ store_read_all s = [].
Proof.
  intros Hb. unfold new_BoundedEvaluationStore. intros H. invert_res.
  pose proof (new_memory_ok _ _ _ Ha) as Hm. unfold new_MemoryEventStore in Ha. invert_res.
  split; [|done]. split; [done|done|..]; cbn; unfold len, sum_of; cbn; lia.
Qed.

(** *** Retention is not charged

    Retention appends a record of its own without asking the budget.  From a
    checkpoint that is already the first record it only adds. *)
Definition retained_sample : BoundedEvaluationStore :=
  let store := (memory_retain_from_checkpoint 4 sample_store).2 in
  MkBounded store (MkBudget 8 4096 (len (memory_records store))
    (sum_of record_size (memory_records store)) false).

Lemma retention_uncharged :
  let s := (store_retain_from_checkpoint 4 retained_sample).2 in
  (store_retain_from_checkpoint 4 retained_sample).1 = Ok tt ∧
  budget_records (budget retained_sample) = len (store_read_all retained_sample) ∧
  budget_records (budget s) < len (store_read_all s) ∧
  budget_bytes (budget s) < sum_of record_size (store_read_all s).
Proof. by vm_compute. Qed.
