(* ===== verification/EvaluationTrace.v ===== *)
(** * The normalized trace of an evaluation
    (src/authoring/Evaluation.cpp: trace normalization and [world_totals])

    A kept trace replaces handles, which differ from run to run, by the order in
    which they appear, separately for every kind of handle.  Two logs have the
    same trace exactly if they differ in their handles only. *)
From S2P Require Import Prelude OrderedMap Values Effects Events EvaluationTypes EvaluationAccounting EvaluationStore.

(** [key.ends_with(suffix)] *)
Definition ends_with (key suffix : string) : bool :=
  let n := String.length key in let k := String.length suffix in
  (k <=? n)%nat && String.eqb (String.substring (n - k) k key) suffix.

Definition handle_key (key : string) : bool :=
  String.eqb key "slot" || String.eqb key "generation" || String.eqb key "session" ||
  String.eqb key "world" ||
  ends_with key "_slot" || ends_with key "_generation" || ends_with key "_world".

(** Per family the ordinal of each handle seen; it is only looked up. *)
Abbreviation Ordinals := (gmap string (gmap N N)).

(** [family.emplace(n, family.size() + 1).first->second]; a map has fewer
    entries than its size can count. *)
Definition ordinal (key : string) (n : N) (o : Ordinals) : N * Ordinals :=
  let family := default ∅ (o !! key) in
  match family !! n with
  | Some seen => (seen, <[key := family]> o)
  | None => let next := N.of_nat (size family) + 1 in
      (next, <[key := <[n := next]> family]> o)
  end.

(** A loop that makes a list and changes the ordinals. *)
Section Thread.
Context {A B : Type} (f : A → Ordinals → B * Ordinals).
Fixpoint thread (l : list A) (o : Ordinals) : list B * Ordinals :=
  match l with
  | [] => ([], o)
  | x :: l =>
      let '(y, o) := f x o in
      let '(ys, o) := thread l o in (y :: ys, o)
  end.
End Thread.

Fixpoint normalize_value (v : value) (key : string) (o : Ordinals) : value * Ordinals :=
  match v with
  | VUnsigned n =>
      if handle_key key then let '(i, o) := ordinal key n o in (VUnsigned i, o) else (v, o)
  | VArray items =>
      let '(items, o) := thread (λ item, normalize_value item key) items o in (VArray items, o)
  | VObject entries =>
      let '(entries, o) := thread (λ (e : string * value) o,
        let '(item, o) := normalize_value e.2 e.1 o in ((e.1, item), o)) entries o in
      (VObject entries, o)
  | v => (v, o)
  end.

Definition normalize_record (case : N) (r : EventRecord) (o : Ordinals)
  : EvaluationTraceEntry * Ordinals :=
  let '(v, o) := normalize_value (payload r) "" o in
  (MkTraceEntry case (type r) (version r) v, o).

Definition append_trace (case : N) (records : list EventRecord) (trace : list EvaluationTraceEntry)
  : list EvaluationTraceEntry :=
  trace ++ (thread (normalize_record case) records ∅).1.

(** ** Renaming handles *)

Fixpoint rename (ρ : string → N → N) (key : string) (v : value) : value :=
  match v with
  | VUnsigned n => if handle_key key then VUnsigned (ρ key n) else v
  | VArray items => VArray (map (rename ρ key) items)
  | VObject entries => VObject (map (λ e, (e.1, rename ρ e.1 e.2)) entries)
  | v => v
  end.

(** The handle [n] of the family [k] occurs in [v] under [key]. *)
Fixpoint occurs (k : string) (n : N) (key : string) (v : value) : Prop :=
  match v with
  | VUnsigned m => handle_key key = true ∧ k = key ∧ n = m
  | VArray items => foldr (λ item P, occurs k n key item ∨ P) False items
  | VObject entries => foldr (λ e P, occurs k n e.1 e.2 ∨ P) False entries
  | _ => False
  end.

Lemma occurs_array k n key l : occurs k n key (VArray l) ↔ ∃ v, v ∈ l ∧ occurs k n key v.
Proof.
  cbn. induction l as [|x l IH]; cbn.
  { split; [done|]. by intros (? & ?%elem_of_nil & _). }
  rewrite IH. setoid_rewrite elem_of_cons. naive_solver.
Qed.

Lemma occurs_object k n key m :
  occurs k n key (VObject m) ↔ ∃ e, e ∈ m ∧ occurs k n e.1 e.2.
Proof.
  cbn. induction m as [|x m IH]; cbn.
  { split; [done|]. by intros (? & ?%elem_of_nil & _). }
  rewrite IH. setoid_rewrite elem_of_cons. naive_solver.
Qed.

Lemma rename_ext ρ σ key v :
  (∀ k n, occurs k n key v → ρ k n = σ k n) → rename ρ key v = rename σ key v.
Proof.
  revert key. induction v as [|b|z|n|d|s|bs|l IH|m IH] using value_ind'; intros key H; cbn; try done.
  - destruct (handle_key key) eqn:E; [|done]. by rewrite (H key n).
  - f_equal. apply map_ext_in. intros x Hx%list_elem_of_In. rewrite Forall_forall in IH.
    apply IH; [done|]. intros k n Ho. apply H, occurs_array. eauto.
  - f_equal. apply map_ext_in. intros x Hx%list_elem_of_In. rewrite Forall_forall in IH.
    f_equal. apply IH; [done|]. intros k n Ho. apply H, occurs_object. eauto.
Qed.

Lemma rename_rename ρ σ key v :
  rename ρ key (rename σ key v) = rename (λ k n, ρ k (σ k n)) key v.
Proof.
  revert key. induction v as [|b|z|n|d|s|bs|l IH|m IH] using value_ind'; intros key; cbn; try done.
  - destruct (handle_key key) eqn:E; cbn; [by rewrite E|by rewrite E].
  - f_equal. rewrite map_map. apply map_ext_in. intros x Hx%list_elem_of_In.
    rewrite Forall_forall in IH. by apply IH.
  - f_equal. rewrite map_map. apply map_ext_in. intros x Hx%list_elem_of_In.
    rewrite Forall_forall in IH. cbn. f_equal. by apply IH.
Qed.

Lemma rename_id key v : rename (λ _ n, n) key v = v.
Proof.
  revert key. induction v as [|b|z|n|d|s|bs|l IH|m IH] using value_ind'; intros key; cbn; try done.
  - by destruct (handle_key key).
  - f_equal. rewrite <-(map_id l) at 2. apply map_ext_in. intros x Hx%list_elem_of_In.
    rewrite Forall_forall in IH. by apply IH.
  - f_equal. rewrite <-(map_id m) at 2. apply map_ext_in. intros [k x] Hx%list_elem_of_In.
    rewrite Forall_forall in IH. cbn. f_equal. by apply (IH (k, x)).
Qed.

Lemma occurs_rename ρ k i key v :
  occurs k i key (rename ρ key v) ↔ ∃ n, occurs k n key v ∧ i = ρ k n.
Proof.
  revert key. induction v as [|b|z|n|d|s|bs|l IH|m IH] using value_ind'; intros key;
    try (cbn; naive_solver).
  - cbn. destruct (handle_key key) eqn:E; cbn; rewrite E; naive_solver.
  - cbn [rename]. rewrite occurs_array. setoid_rewrite occurs_array. rewrite Forall_forall in IH.
    setoid_rewrite list_elem_of_fmap. split.
    + intros (w & (v & -> & Hv) & Ho). apply IH in Ho as (n & Ho & ->); [|done]. eauto.
    + intros (n & (v & Hv & Ho) & ->). exists (rename ρ key v). split; [eauto|]. apply IH; eauto.
  - cbn [rename]. rewrite occurs_object. setoid_rewrite occurs_object. rewrite Forall_forall in IH.
    setoid_rewrite list_elem_of_fmap. split.
    + intros (w & ([k' v] & -> & Hv) & Ho). cbn in Ho. apply (IH (k', v)) in Ho as (n & Ho & ->); [|done]. eauto.
    + intros (n & ([k' v] & Hv & Ho) & ->). exists (k', rename ρ k' v). split; [by exists (k', v)|].
      apply (IH (k', v)); eauto.
Qed.

(** ** Ordinals name handles one to one *)

Definition family (o : Ordinals) (k : string) : gmap N N := default ∅ (o !! k).
Definition extends (o o' : Ordinals) : Prop :=
  ∀ k n i, family o k !! n = Some i → family o' k !! n = Some i.
#[export] Instance extends_preorder : PreOrder extends.
Proof. split; [by intros o k n i|intros a b c H1 H2 k n i H; auto]. Qed.

Record one_to_one (o : Ordinals) : Prop := {
  oo_injective k n m i : family o k !! n = Some i → family o k !! m = Some i → n = m;
  oo_range k n i : family o k !! n = Some i → i <= N.of_nat (size (family o k))
}.

Lemma family_insert_eq o k f : family (<[k := f]> o) k = f.
Proof. unfold family. by rewrite lookup_insert_eq. Qed.
Lemma family_insert_ne o k k' f : k ≠ k' → family (<[k := f]> o) k' = family o k'.
Proof. intros. unfold family. by rewrite lookup_insert_ne. Qed.

Lemma ordinal_seen k n o i :
  family o k !! n = Some i → ordinal k n o = (i, <[k := family o k]> o).
Proof. intros H. unfold ordinal. fold (family o k). by rewrite H. Qed.
Lemma ordinal_new k n o :
  family o k !! n = None →
  ordinal k n o = (N.of_nat (size (family o k)) + 1,
    <[k := <[n := N.of_nat (size (family o k)) + 1]> (family o k)]> o).
Proof. intros H. unfold ordinal. fold (family o k). by rewrite H. Qed.

Lemma family_empty k : family ∅ k = ∅.
Proof. unfold family. by rewrite lookup_empty. Qed.

Lemma family_same o k k' : family (<[k := family o k]> o) k' = family o k'.
Proof.
  destruct (decide (k = k')) as [<-|]; [by rewrite family_insert_eq|by rewrite family_insert_ne].
Qed.

Lemma ordinal_spec k n o :
  one_to_one o →
  let '(i, o') := ordinal k n o in one_to_one o' ∧ extends o o' ∧ family o' k !! n = Some i.
Proof.
  intros [Hi Hr]. destruct (family o k !! n) as [i|] eqn:E.
  - rewrite (ordinal_seen _ _ _ _ E). split_and!.
    + split; intros k'; rewrite family_same; [apply Hi|apply Hr].
    + intros k' m j. by rewrite family_same.
    + by rewrite family_same.
  - rewrite (ordinal_new _ _ _ E). set (next := _ + 1). split_and!.
    + split; intros k'; (destruct (decide (k = k')) as [<-|Hk];
        [rewrite family_insert_eq|by rewrite family_insert_ne; eauto]).
      * intros a b i Ha Hb. apply lookup_insert_Some in Ha, Hb.
        destruct Ha as [[<- <-]|[_ Ha]], Hb as [[<- Hb]|[_ Hb]]; [done| | |by eapply Hi].
        -- apply Hr in Hb. lia.
        -- subst i. apply Hr in Ha. lia.
      * intros a i Ha. rewrite map_size_insert, E. apply lookup_insert_Some in Ha as [[<- <-]|[_ Ha]]; [lia|].
        apply Hr in Ha. lia.
    + intros k' m j Hm. destruct (decide (k = k')) as [<-|Hk]; [|by rewrite family_insert_ne].
      rewrite family_insert_eq, lookup_insert_ne; [done|congruence].
    + by rewrite family_insert_eq, lookup_insert_eq.
Qed.

(** The renaming that ordinals stand for. *)
Definition named_by (o : Ordinals) (k : string) (n : N) : N := default 0 (family o k !! n).

Definition normal (o : Ordinals) (key : string) (v v' : value) : Prop :=
  v' = rename (named_by o) key v ∧ ∀ k n, occurs k n key v → is_Some (family o k !! n).

(** A step names what it sees, and later steps keep the names. *)
Definition names {A B} (f : A → Ordinals → B * Ordinals) (R : Ordinals → A → B → Prop) (x : A) : Prop :=
  ∀ o, one_to_one o →
  one_to_one (f x o).2 ∧ extends o (f x o).2 ∧ ∀ o', extends (f x o).2 o' → R o' x (f x o).1.

Lemma thread_names {A B} (f : A → Ordinals → B * Ordinals) R l :
  Forall (names f R) l → names (thread f) (λ o, Forall2 (R o)) l.
Proof.
  induction 1 as [|x l Hx _ IH]; intros o Ho; cbn.
  { split_and!; [done|done|by constructor]. }
  destruct (Hx o Ho) as (H1 & H2 & H3). destruct (f x o) as [y o1]. cbn [fst snd] in *.
  destruct (IH o1 H1) as (H4 & H5 & H6). destruct (thread f l o1) as [ys o2]. cbn [fst snd] in *.
  split_and!; [done|by trans o1|]. intros o' Ho'. constructor; [apply H3; by trans o2|by apply H6].
Qed.

Lemma normal_array o key l l' :
  Forall2 (normal o key) l l' → normal o key (VArray l) (VArray l').
Proof.
  intros Hl. split.
  - cbn. f_equal. induction Hl as [|v v' l l' [-> _] _ IH]; [done|]. cbn. by rewrite IH.
  - intros k n (v & Hv & Ho)%occurs_array.
    destruct (Forall2_partner _ _ _ _ Hl Hv) as (v' & _ & _ & H). by apply H.
Qed.

Lemma normal_object o key (m m' : list (string * value)) :
  Forall2 (λ e e' : string * value, e'.1 = e.1 ∧ normal o e.1 e.2 e'.2) m m' →
  normal o key (VObject m) (VObject m').
Proof.
  intros Hm. split.
  - cbn. f_equal. induction Hm as [|[k v] [k' v'] m m' [Hk [Hv _]] _ IH]; [done|]. cbn in *. by subst.
  - intros k n (v & Hv & Ho)%occurs_object.
    destruct (Forall2_partner _ _ _ _ Hm Hv) as (v' & _ & _ & _ & H). by apply H.
Qed.

Lemma normalize_names v key : names (λ v, normalize_value v key) (λ o, normal o key) v.
Proof.
  revert key. induction v as [|b|z|n|d|s|bs|l IH|m IH] using value_ind'; intros key o Ho;
    try (cbn; split_and!; [done|done|]; by split).
  - cbn. destruct (handle_key key) eqn:E; [|split_and!; [done|done|]; split; cbn; [by rewrite E|naive_solver congruence]].
    pose proof (ordinal_spec key n o Ho) as Hs. destruct (ordinal key n o) as [i o'].
    destruct Hs as (H1 & H2 & H3). cbn. split_and!; [done|done|]. intros o'' He.
    apply He in H3. split; cbn; rewrite E.
    + unfold named_by. by rewrite H3.
    + intros k m (_ & -> & ->). by eexists.
  - cbn. rewrite Forall_forall in IH.
    destruct (thread_names (λ v, normalize_value v key) (λ o, normal o key) l) with o as (H1 & H2 & H3);
      [by apply Forall_forall; intros x Hx; apply IH|done|].
    destruct (thread _ l o) as [l' o']. cbn in *. split_and!; [done|done|]. intros o'' He.
    by apply normal_array, H3.
  - cbn. rewrite Forall_forall in IH.
    destruct (thread_names (λ (e : string * value) o,
        let '(item, o) := normalize_value e.2 e.1 o in ((e.1, item), o))
      (λ o e e', e'.1 = e.1 ∧ normal o e.1 e.2 e'.2) m) with o as (H1 & H2 & H3); [|done|].
    { apply Forall_forall. intros e He o1 Ho1. destruct (IH e He e.1 o1 Ho1) as (H1 & H2 & H3).
      destruct (normalize_value e.2 e.1 o1) as [item o2]. cbn in *. split_and!; [done|done|]. auto. }
    destruct (thread _ m o) as [m' o']. cbn in *. split_and!; [done|done|]. intros o'' He.
    by apply normal_object, H3.
Qed.

(** ** Renamed logs have the same trace *)

Section Renaming.
Context (ρ : string → N → N) (P : string → N → Prop)
  (Hρ : ∀ k n m, P k n → P k m → ρ k n = ρ k m → n = m).

Definition matched (o1 o2 : Ordinals) : Prop :=
  ∀ k, size (family o1 k) = size (family o2 k) ∧
    ∀ n, P k n → family o2 k !! ρ k n = family o1 k !! n.

Definition follows {A A' B} (f : A → Ordinals → B * Ordinals) (g : A' → Ordinals → B * Ordinals)
    (x : A) (x' : A') : Prop :=
  ∀ o1 o2, matched o1 o2 →
  (g x' o2).1 = (f x o1).1 ∧ matched (f x o1).2 (g x' o2).2.

Lemma thread_follows {A A' B} (f : A → Ordinals → B * Ordinals) (g : A' → Ordinals → B * Ordinals) l l' :
  Forall2 (follows f g) l l' → follows (thread f) (thread g) l l'.
Proof.
  induction 1 as [|x x' l l' Hx _ IH]; intros o1 o2 Ho; cbn; [done|].
  destruct (Hx o1 o2 Ho) as [Hy Ho1]. destruct (f x o1) as [y o1'], (g x' o2) as [y' o2']. cbn in *.
  subst y'. destruct (IH o1' o2' Ho1) as [Hys Ho2].
  destruct (thread f l o1') as [ys a], (thread g l' o2') as [ys' b]. cbn in *. by subst.
Qed.

Lemma ordinal_follows k n o1 o2 :
  P k n → matched o1 o2 →
  (ordinal k (ρ k n) o2).1 = (ordinal k n o1).1 ∧ matched (ordinal k n o1).2 (ordinal k (ρ k n) o2).2.
Proof.
  intros Hn Ho. destruct (Ho k) as [Hsize Hk]. pose proof (Hk n Hn) as E.
  destruct (family o1 k !! n) as [i|] eqn:E1.
  - rewrite (ordinal_seen _ _ _ _ E1), (ordinal_seen _ _ _ _ E). split; [done|].
    intros k'. cbn. rewrite !family_same. apply Ho.
  - rewrite (ordinal_new _ _ _ E1), (ordinal_new _ _ _ E). cbn. rewrite Hsize. split; [done|].
    intros k'. destruct (decide (k = k')) as [<-|Hne]; [|rewrite !family_insert_ne by done; apply Ho].
    rewrite !family_insert_eq, !map_size_insert, E1, E, Hsize. split; [done|]. intros m Hm.
    destruct (decide (n = m)) as [<-|Hnm]; [by rewrite !lookup_insert_eq|].
    rewrite !lookup_insert_ne; [by apply Hk|done|]. intros Heq. by destruct Hnm; apply (Hρ k).
Qed.

Lemma normalize_follows v key :
  (∀ k n, occurs k n key v → P k n) →
  follows (λ v, normalize_value v key) (λ v, normalize_value v key) v (rename ρ key v).
Proof.
  revert key. induction v as [|b|z|n|d|s|bs|l IH|m IH] using value_ind'; intros key HP o1 o2 Ho; try done.
  - cbn. destruct (handle_key key) eqn:E; cbn; rewrite E; [|done].
    assert (P key n) as Hn by by apply HP. destruct (ordinal_follows key n o1 o2 Hn Ho) as [H1 H2].
    destruct (ordinal key n o1), (ordinal key (ρ key n) o2). cbn in *. by subst.
  - cbn. rewrite Forall_forall in IH.
    destruct (thread_follows (λ v, normalize_value v key) (λ v, normalize_value v key) l
      (map (rename ρ key) l)) with o1 o2 as [H1 H2]; [|done|].
    { apply Forall2_fmap_r, Forall_Forall2_diag, Forall_forall. intros x Hx. apply IH; [done|].
      intros k n Hn. apply HP, occurs_array. eauto. }
    destruct (thread _ l o1), (thread _ (map _ l) o2). cbn in *. by subst.
  - cbn. rewrite Forall_forall in IH.
    set (f := λ (e : string * value) o, let '(item, o) := normalize_value e.2 e.1 o in ((e.1, item), o)).
    destruct (thread_follows f f m (map (λ e, (e.1, rename ρ e.1 e.2)) m)) with o1 o2 as [H1 H2]; [|done|].
    { apply Forall2_fmap_r, Forall_Forall2_diag, Forall_forall. intros e He a b Hab. subst f. cbn.
      destruct (IH e He e.1) with a b as [H1 H2]; [|done|].
      { intros k n Hn. apply HP, occurs_object. eauto. }
      cbn in *. destruct (normalize_value e.2 e.1 a), (normalize_value (rename ρ e.1 e.2) e.1 b).
      cbn in *. by subst. }
    destruct (thread f m o1), (thread f (map _ m) o2). cbn in *. by subst.
Qed.
End Renaming.

(** ** Logs that differ in their handles only *)

Definition renamed (ρ : string → N → N) (r r' : EventRecord) : Prop :=
  type r' = type r ∧ version r' = version r ∧ payload r' = rename ρ "" (payload r).
Definition log_handle (l : list EventRecord) (k : string) (n : N) : Prop :=
  ∃ r, r ∈ l ∧ occurs k n "" (payload r).
Definition same_but_handles (l l' : list EventRecord) : Prop :=
  ∃ ρ, (∀ k n m, log_handle l k n → log_handle l k m → ρ k n = ρ k m → n = m) ∧
    Forall2 (renamed ρ) l l'.

(** The entry of a record under the final ordinals. *)
Definition entry_of (case : N) (o : Ordinals) (r : EventRecord) (e : EvaluationTraceEntry) : Prop :=
  caseIndex e = case ∧ trace_type e = type r ∧ trace_version e = version r ∧
  normal o "" (payload r) (trace_payload e).

Lemma trace_entries case l :
  ∃ o, one_to_one o ∧ Forall2 (entry_of case o) l (append_trace case l []).
Proof.
  unfold append_trace. cbn [app].
  destruct (thread_names (normalize_record case) (entry_of case) l) with (∅ : Ordinals) as (H1 & _ & H3).
  - apply Forall_forall. intros r _ o Ho. destruct (normalize_names (payload r) "" o Ho) as (H1 & H2 & H3).
    unfold normalize_record. destruct (normalize_value (payload r) "" o) as [v o']. cbn in *.
    split_and!; [done|done|]. intros o'' He. by split_and!; [..|apply H3].
  - by split; intros k n *; rewrite family_empty, lookup_empty.
  - eexists. split; [exact H1|]. by apply H3.
Qed.

(** The number an ordinal stands for. *)
Definition unnamed (o : Ordinals) (k : string) (i : N) : N :=
  match list_find (λ p : N * N, p.2 = i) (map_to_list (family o k)) with
  | Some (_, (n, _)) => n
  | None => 0
  end.

Lemma unnamed_named o k n i : one_to_one o → family o k !! n = Some i → unnamed o k i = n.
Proof.
  intros Ho Hn. unfold unnamed.
  destruct (list_find (λ p : N * N, p.2 = i) (map_to_list (family o k))) as [[j [m i']]|] eqn:E.
  - apply list_find_Some in E as (Hj & Hi & _). cbn in Hi. subst i'.
    apply list_elem_of_lookup_2, elem_of_map_to_list in Hj. by eapply (oo_injective o Ho).
  - apply list_find_None in E. apply elem_of_map_to_list in Hn. rewrite Forall_forall in E.
    by destruct (E (n, i)).
Qed.

Lemma payload_from_entry case o r e :
  one_to_one o → entry_of case o r e → payload r = rename (unnamed o) "" (trace_payload e).
Proof.
  intros Ho (_ & _ & _ & -> & Hk). rewrite rename_rename, <-(rename_id "" (payload r)) at 1.
  apply rename_ext. intros k n [i Hi]%Hk. unfold named_by. rewrite Hi. cbn. symmetry. by apply unnamed_named.
Qed.

Lemma same_trace_renamed case l l' :
  append_trace case l [] = append_trace case l' [] → same_but_handles l l'.
Proof.
  intros E. destruct (trace_entries case l) as (o & Ho & Hl), (trace_entries case l') as (o' & Ho' & Hl').
  rewrite <-E in Hl'. set (t := append_trace case l []) in *. clearbody t. clear E.
  assert (∀ k n, log_handle l k n → ∃ i n', family o k !! n = Some i ∧ family o' k !! n' = Some i) as Hname.
  { intros k n (r & Hr & Hn). destruct (Forall2_partner _ _ _ _ Hl Hr) as (e & He & _ & _ & _ & Hv & Hk).
    destruct (Hk k n Hn) as [i Hi]. exists i.
    assert (occurs k i "" (trace_payload e)) as Hoc.
    { rewrite Hv. apply occurs_rename. exists n. split; [done|]. unfold named_by. by rewrite Hi. }
    apply Forall2_flip in Hl'.
    destruct (Forall2_partner _ _ _ _ Hl' He) as (r' & _ & _ & _ & _ & Hv' & Hk').
    rewrite Hv' in Hoc. apply occurs_rename in Hoc as (n' & Hn' & ->). exists n'. split; [done|].
    destruct (Hk' k n' Hn') as [j Hj]. unfold named_by. by rewrite Hj. }
  exists (λ k n, unnamed o' k (named_by o k n)). split.
  - intros k n m Hn Hm. destruct (Hname k n Hn) as (i & n' & Hi & Hi'), (Hname k m Hm) as (j & m' & Hj & Hj').
    unfold named_by. rewrite Hi, Hj. cbn. rewrite (unnamed_named o' k n' i), (unnamed_named o' k m' j) by done.
    intros <-. rewrite Hi' in Hj'. injection Hj' as <-. by apply (oo_injective o Ho k n m i).
  - clear Hname. revert l' Hl'. induction Hl as [|r e l t He _ IH]; intros l' Hl'.
    { apply Forall2_nil_inv_r in Hl' as ->. constructor. }
    apply Forall2_cons_inv_r in Hl' as (r' & l'' & He' & Hl' & ->). constructor; [|by apply IH].
    pose proof (payload_from_entry _ _ _ _ Ho' He') as Hp.
    destruct He as (_ & Ht & Hv & Hn & _), He' as (_ & Ht' & Hv' & _).
    split_and!; [congruence|congruence|]. rewrite Hp, Hn. apply rename_rename.
Qed.

(** C31. A trace identifies an execution up to its handles: two logs have the same
    trace exactly if one is the other with its handles renamed one to one, every
    kind of handle by itself. *)
Theorem trace_forgets_handles_only case l l' :
  append_trace case l [] = append_trace case l' [] ↔ same_but_handles l l'.
Proof.
  split; [apply same_trace_renamed|]. intros (ρ & Hρ & Hl). unfold append_trace. cbn [app].
  destruct (thread_follows ρ (log_handle l) (normalize_record case) (normalize_record case) l l')
    with (∅ : Ordinals) (∅ : Ordinals) as [H _]; [| |done].
  - apply (Forall2_impl_in _ _ _ _ Hl). intros r r' Hr (Ht & Hv & Hp) o1 o2 Ho.
    destruct (normalize_follows ρ (log_handle l) Hρ (payload r) "") with o1 o2 as [H1 H2];
      [by intros k n Hn; exists r|done|].
    unfold normalize_record. rewrite Hp. cbn in H1, H2.
    destruct (normalize_value (payload r) "" o1), (normalize_value (rename ρ "" (payload r)) "" o2).
    cbn in *. by rewrite H1, Ht, Hv.
  - intros k. by rewrite family_empty.
Qed.

(** ** What a trace costs *)

Lemma logical_bytes_rename ρ key v : logical_bytes (rename ρ key v) = logical_bytes v.
Proof.
  revert key. induction v as [|b|z|n|d|s|bs|l IH|m IH] using value_ind'; intros key; try done.
  - cbn. by destruct (handle_key key).
  - cbn [rename logical_bytes]. rewrite !saturating_sum_spec by done. f_equal. f_equal.
    rewrite Forall_forall in IH. change (map (rename ρ key) l) with (rename ρ key <$> l).
    rewrite sum_of_fmap. apply sum_of_ext. intros x Hx. cbn. by rewrite IH.
  - cbn [rename logical_bytes]. rewrite !saturating_sum_spec by done. f_equal. f_equal.
    rewrite Forall_forall in IH. change (map ?f m) with (f <$> m).
    rewrite sum_of_fmap. apply sum_of_ext. intros x Hx. cbn. by rewrite IH.
Qed.

Definition trace_size (e : EvaluationTraceEntry) : N := event_bytes (trace_payload e).

Lemma append_trace_app case l trace : append_trace case l trace = trace ++ append_trace case l [].
Proof. done. Qed.

Lemma append_trace_size case l : sum_of trace_size (append_trace case l []) = sum_of record_size l.
Proof.
  destruct (trace_entries case l) as (o & _ & Hl).
  induction Hl as [|r e l t (_ & _ & _ & Hp & _) _ IH]; [done|]. rewrite !sum_of_cons, IH.
  unfold trace_size, record_size, event_bytes. by rewrite Hp, logical_bytes_rename.
Qed.
