(* ===== verification/EvaluationTotals.v ===== *)
(** * Whole-world totals of an evaluation
    (src/authoring/Evaluation.cpp: [world_totals])

    The accepted effects of every frame, counted from the kept trace.  [framed]
    says what the counts of one case mean. *)
From S2P Require Import Prelude OrderedMap Values Effects Events EvaluationTypes.

Implicit Types (e : EvaluationTraceEntry) (f : EvaluationWorldFrameTotals).

Definition payload_accepted (v : value) : res bool :=
  m ← as_object v;
  Ok match sm_find "disposition" m with
     | Some d => value_eqb d (VString "accepted")
     | None => false
     end.

(** [entry.payload.as_object().at("now").as_unsigned_integer()] *)
Definition frame_time (v : value) : res N :=
  m ← as_object v;
  match sm_find "now" m with
  | Some now => as_unsigned_integer now
  | None => throw out_of_range "map::at"
  end.

Definition add_command f : EvaluationWorldFrameTotals :=
  MkFrameTotals (totals_now f) (totals_commandsIssued f + 1) (totals_reports f) (totals_observations f).
Definition add_report f : EvaluationWorldFrameTotals :=
  MkFrameTotals (totals_now f) (totals_commandsIssued f) (totals_reports f + 1) (totals_observations f).
Definition add_observation f : EvaluationWorldFrameTotals :=
  MkFrameTotals (totals_now f) (totals_commandsIssued f) (totals_reports f) (totals_observations f + 1).

(** What one entry does to the frames of its case and whether one is open. *)
Definition tally_case (s : list EvaluationWorldFrameTotals * bool) e
  : res (list EvaluationWorldFrameTotals * bool) :=
  let '(frames, opened) := s in
  if trace_type e =? EventType.FrameStarted then
    now ← frame_time (trace_payload e);
    Ok (frames ++ [MkFrameTotals now 0 0 0], true)
  else if negb opened then Ok s
  else if (trace_type e =? EventType.FrameCompleted) || (trace_type e =? EventType.FrameFailed) then
    Ok (frames, false)
  else if trace_type e =? EventType.CommandIssued then Ok (update_back add_command frames, opened)
  else if trace_type e =? EventType.ReportReceived then
    a ← payload_accepted (trace_payload e);
    Ok (if (a : bool) then update_back add_report frames else frames, opened)
  else if trace_type e =? EventType.ExternalObservationReceived then
    a ← payload_accepted (trace_payload e);
    Ok (if (a : bool) then update_back add_observation frames else frames, opened)
  else Ok s.

(** [totals.cases] and [open], indexed by case. *)
Abbreviation Tally := (list (list EvaluationWorldFrameTotals * bool)).
Definition tally_entry (t : Tally) e : res Tally :=
  let i := N.to_nat (caseIndex e) in
  match t !! i with
  | None => throw out_of_range "undefined behaviour: index out of range"
  | Some s => s ← tally_case s e; Ok (<[i := s]> t)
  end.

Definition traced_cases (record : EvaluationRecord) (trace : list EvaluationTraceEntry) : N :=
  foldl (λ n e, N.max n (caseIndex e + 1)) (len (cases record)) trace.

Definition case_accounted (result : EvaluationCaseResult)
    (s : list EvaluationWorldFrameTotals * bool) : bool :=
  negb s.2 && (len s.1 =? framesRun result) &&
  negb (bool_decide (case_status result = CaseStatus.LimitExceeded) && (framesRun result =? 0)).

Definition world_totals (record : EvaluationRecord) (trace : list EvaluationTraceEntry)
  : res EvaluationWorldTotals :=
  let n := traced_cases record trace in
  t ← rfold tally_entry trace (replicate (N.to_nat n) ([], false));
  Ok (MkWorldTotals (record_id record)
    (negb (bool_decide (cases record = [])) && (n =? len (cases record)) &&
     forallb (λ p, case_accounted p.1 p.2) (zip (cases record) t))
    (t.*1)).

(** ** The meaning of totals *)

Definition is_start e : Prop := trace_type e = EventType.FrameStarted.
Definition is_end e : Prop :=
  trace_type e = EventType.FrameCompleted ∨ trace_type e = EventType.FrameFailed.
Definition is_command e : bool := trace_type e =? EventType.CommandIssued.
Definition is_accepted (t : event_type) e : bool :=
  (trace_type e =? t) && match payload_accepted (trace_payload e) with Ok a => a | Err _ => false end.

Definition counted (p : EvaluationTraceEntry → bool) (body : list EvaluationTraceEntry) : N :=
  len (List.filter p body).
(** The totals of a frame that began at [now] with the entries [body]. *)
Definition body_totals (now : N) (body : list EvaluationTraceEntry) : EvaluationWorldFrameTotals :=
  MkFrameTotals now (counted is_command body)
    (counted (is_accepted EventType.ReportReceived) body)
    (counted (is_accepted EventType.ExternalObservationReceived) body).

(** The entries of a case as frames, all of them over: each from its start to
    its end, or to the start of the next one. *)
Inductive framed : list EvaluationTraceEntry → list EvaluationWorldFrameTotals → Prop :=
| framed_outside l : Forall (λ e, ¬ is_start e) l → framed l []
| framed_ended before s now body e rest fs :
    Forall (λ e, ¬ is_start e) before →
    is_start s → frame_time (trace_payload s) = Ok now →
    Forall (λ e, ¬ is_start e ∧ ¬ is_end e) body → is_end e →
    framed rest fs →
    framed (before ++ s :: body ++ e :: rest) (body_totals now body :: fs)
| framed_cut before s now body s' rest fs :
    Forall (λ e, ¬ is_start e) before →
    is_start s → frame_time (trace_payload s) = Ok now →
    Forall (λ e, ¬ is_start e ∧ ¬ is_end e) body → is_start s' →
    framed (s' :: rest) fs →
    framed (before ++ s :: body ++ s' :: rest) (body_totals now body :: fs).

(** Continuing a frame: its totals so far are [f], and come to [f']. *)
Definition adds (f : EvaluationWorldFrameTotals) (body : list EvaluationTraceEntry) : EvaluationWorldFrameTotals :=
  MkFrameTotals (totals_now f) (totals_commandsIssued f + counted is_command body)
    (totals_reports f + counted (is_accepted EventType.ReportReceived) body)
    (totals_observations f + counted (is_accepted EventType.ExternalObservationReceived) body).

Inductive continued (f : EvaluationWorldFrameTotals)
  : list EvaluationTraceEntry → list EvaluationWorldFrameTotals → Prop :=
| continued_ended body e rest fs :
    Forall (λ e, ¬ is_start e ∧ ¬ is_end e) body → is_end e → framed rest fs →
    continued f (body ++ e :: rest) (adds f body :: fs)
| continued_cut body s rest fs :
    Forall (λ e, ¬ is_start e ∧ ¬ is_end e) body → is_start s → framed (s :: rest) fs →
    continued f (body ++ s :: rest) (adds f body :: fs).

Lemma framed_start s now l fs :
  is_start s → frame_time (trace_payload s) = Ok now →
  continued (MkFrameTotals now 0 0 0) l fs → framed (s :: l) fs.
Proof.
  intros Hs Hn Hc. inversion Hc; subst; [by apply (framed_ended [])|by apply (framed_cut [])].
Qed.

Lemma framed_skip e l fs : ¬ is_start e → framed l fs → framed (e :: l) fs.
Proof.
  intros He Hl. inversion Hl; subst.
  - apply framed_outside. by constructor.
  - apply (framed_ended (e :: before)); try done. by constructor.
  - apply (framed_cut (e :: before)); try done. by constructor.
Qed.

Lemma adds_cons f e body f' :
  adds f [e] = f' → adds f (e :: body) = adds f' body.
Proof.
  intros <-. unfold adds, counted. cbn [List.filter]. cbn [totals_now totals_commandsIssued totals_reports totals_observations].
  f_equal; match goal with |- context [List.filter ?p body] => destruct (p e) end; rewrite ?len_cons; cbn; rewrite ?N.add_0_r; lia.
Qed.

Lemma continued_skip e f f' l fs :
  ¬ is_start e → ¬ is_end e → adds f [e] = f' → continued f' l fs → continued f (e :: l) fs.
Proof.
  intros Hs He Hf Hl. inversion Hl; subst.
  - rewrite <-(adds_cons f e body _ eq_refl). apply (continued_ended f (e :: body)); [by constructor|done|done].
  - rewrite <-(adds_cons f e body _ eq_refl). apply (continued_cut f (e :: body)); [by constructor|done|done].
Qed.

(** What the entries inside a frame do. *)
Lemma tally_case_open fs f e s :
  tally_case (fs ++ [f], true) e = Ok s →
  (is_start e ∧ ∃ now, frame_time (trace_payload e) = Ok now ∧
     s = ((fs ++ [f]) ++ [MkFrameTotals now 0 0 0], true)) ∨
  (¬ is_start e ∧ is_end e ∧ s = (fs ++ [f], false)) ∨
  (¬ is_start e ∧ ¬ is_end e ∧ s = (fs ++ [adds f [e]], true)).
Proof.
  unfold tally_case, is_start, is_end, adds, counted, is_command, is_accepted. cbn [negb List.filter].
  destruct (N.eqb_spec (trace_type e) EventType.FrameStarted) as [Hs|Hs].
  { intros H. invert_res. left. eauto. }
  destruct (N.eqb_spec (trace_type e) EventType.FrameCompleted), (N.eqb_spec (trace_type e) EventType.FrameFailed);
    cbn [orb]; [intros [= <-]; right; left; tauto..|].
  intros H. right. right. split; [done|]. split; [tauto|].
  destruct (N.eqb_spec (trace_type e) EventType.CommandIssued) as [Hc|].
  { injection H as <-. rewrite update_back_snoc. rewrite !Hc. cbn. unfold add_command.
    change (len [e]) with 1. change (len (@nil EvaluationTraceEntry)) with 0. by rewrite !N.add_0_r. }
  destruct (N.eqb_spec (trace_type e) EventType.ReportReceived) as [Hr|].
  { invert_res. rewrite Ha, Hr. cbn [andb]. change (EventType.ReportReceived =? EventType.ExternalObservationReceived) with false.
    cbn [andb]. destruct a; rewrite ?update_back_snoc; unfold add_report;
      change (len [e]) with 1; change (len (@nil EvaluationTraceEntry)) with 0; rewrite !N.add_0_r; by destruct f. }
  destruct (N.eqb_spec (trace_type e) EventType.ExternalObservationReceived) as [Ho|].
  { invert_res. rewrite Ha. cbn [andb]. destruct a; rewrite ?update_back_snoc; unfold add_observation;
      change (len [e]) with 1; change (len (@nil EvaluationTraceEntry)) with 0; rewrite !N.add_0_r; by destruct f. }
  injection H as <-. cbn [andb]. change (len (@nil EvaluationTraceEntry)) with 0. rewrite !N.add_0_r. by destruct f.
Qed.

Lemma tally_case_closed fs e s :
  tally_case (fs, false) e = Ok s →
  (is_start e ∧ ∃ now, frame_time (trace_payload e) = Ok now ∧ s = (fs ++ [MkFrameTotals now 0 0 0], true)) ∨
  (¬ is_start e ∧ s = (fs, false)).
Proof.
  unfold tally_case, is_start. destruct (N.eqb_spec (trace_type e) EventType.FrameStarted); intros H.
  - invert_res. left. eauto.
  - injection H as <-. by right.
Qed.

(** The frames of a case whose last frame is over. *)
Lemma tallied_frames l :
  (∀ fs fs', rfold tally_case l (fs, false) = Ok (fs', false) → ∃ k, fs' = fs ++ k ∧ framed l k) ∧
  (∀ fs f fs', rfold tally_case l (fs ++ [f], true) = Ok (fs', false) →
     ∃ k, fs' = fs ++ k ∧ continued f l k).
Proof.
  induction l as [|e l [IHc IHo]]; split.
  - intros fs fs' [= <-]. exists []. rewrite app_nil_r. split; [done|by constructor].
  - by intros.
  - intros fs fs' (s & Hs & H)%res_bind_ok.
    destruct (tally_case_closed _ _ _ Hs) as [(He & now & Hn & ->)|(He & ->)].
    + apply IHo in H as (k & -> & Hk). exists k. split; [done|]. by eapply framed_start.
    + apply IHc in H as (k & -> & Hk). exists k. split; [done|]. by apply framed_skip.
  - intros fs f fs' (s & Hs & H)%res_bind_ok.
    destruct (tally_case_open _ _ _ _ Hs) as [(He & now & Hn & ->)|[(He & Hend & ->)|(He & Hend & ->)]].
    + apply IHo in H as (k & -> & Hk). exists (f :: k). rewrite <-app_assoc. split; [done|].
      rewrite <-(app_nil_l (e :: l)). replace f with (adds f []) at 2.
      * apply continued_cut; [by constructor|done|by eapply framed_start].
      * unfold adds, counted. change (len (List.filter _ [])) with 0. rewrite !N.add_0_r. by destruct f.
    + apply IHc in H as (k & -> & Hk). exists (f :: k). rewrite <-app_assoc. split; [done|].
      rewrite <-(app_nil_l (e :: l)). replace f with (adds f []) at 2.
      * by apply continued_ended; [constructor|..].
      * unfold adds, counted. change (len (List.filter _ [])) with 0. rewrite !N.add_0_r. by destruct f.
    + apply IHo in H as (k & -> & Hk). exists k. split; [done|]. by eapply continued_skip.
Qed.

(** The entries of one case. *)
Definition of_case (i : nat) (trace : list EvaluationTraceEntry) : list EvaluationTraceEntry :=
  List.filter (λ e, caseIndex e =? N.of_nat i) trace.

Lemma tally_per_case trace t t' :
  rfold tally_entry trace t = Ok t' →
  length t' = length t ∧
  ∀ i s, t !! i = Some s → ∃ s', t' !! i = Some s' ∧ rfold tally_case (of_case i trace) s = Ok s'.
Proof.
  revert t. induction trace as [|e trace IH]; intros t H; [injection H as <-; split; [done|eauto]|].
  apply res_bind_ok in H as (t1 & H1 & H). unfold tally_entry in H1.
  destruct (t !! N.to_nat (caseIndex e)) as [s0|] eqn:E; [|done].
  apply res_bind_ok in H1 as (s1 & Hs & [= <-]). destruct (IH _ H) as [Hlen Hcase].
  rewrite length_insert in Hlen. split; [done|]. intros i s Hi. unfold of_case. cbn [List.filter].
  destruct (N.eqb_spec (caseIndex e) (N.of_nat i)) as [Ec|Ec].
  - rewrite Ec, Nnat.Nat2N.id in E, Hcase. rewrite Hi in E. injection E as <-.
    destruct (Hcase i s1) as (s' & Hs' & Hf); [by apply list_lookup_insert_eq, lookup_lt_Some with s|].
    exists s'. split; [done|]. cbn. by rewrite Hs.
  - apply Hcase. rewrite list_lookup_insert_ne; [done|]. intros E'. apply Ec. by rewrite <-E', Nnat.N2Nat.id.
Qed.

Lemma world_totals_complete record trace totals :
  world_totals record trace = Ok totals → totals_complete totals = true →
  length (totals_cases totals) = length (cases record) ∧
  ∀ i c fs, cases record !! i = Some c → totals_cases totals !! i = Some fs →
    framed (of_case i trace) fs ∧ len fs = framesRun c.
Proof.
  unfold world_totals. intros (t & Ht & [= <-])%res_bind_ok. cbn [totals_complete totals_cases].
  intros [[_ Hn%N.eqb_eq]%andb_true_iff Hall]%andb_true_iff. apply tally_per_case in Ht as [Hlen Hcase].
  rewrite length_replicate, Hn in Hlen. unfold len in Hlen. rewrite Nnat.Nat2N.id in Hlen.
  split; [by rewrite length_fmap|]. intros i c fs Hc Hfs.
  apply list_lookup_fmap_Some in Hfs as ([fs' o] & -> & Hi). cbn.
  destruct (Hcase i ([], false)) as (s' & Hs' & Hf).
  { apply lookup_replicate. split; [done|]. rewrite Hn. unfold len. rewrite Nnat.Nat2N.id.
    by eapply lookup_lt_Some. }
  rewrite Hi in Hs'. injection Hs' as <-.
  rewrite forallb_forall in Hall. specialize (Hall (c, (fs', o))).
  assert (In (c, (fs', o)) (zip (cases record) t)) as Hin.
  { apply list_elem_of_In, list_elem_of_lookup. exists i. by rewrite lookup_zip_with, Hc; cbn; rewrite Hi. }
  apply Hall in Hin. unfold case_accounted in Hin. cbn in Hin.
  apply andb_true_iff in Hin as [[Ho Hrun%N.eqb_eq]%andb_true_iff _].
  destruct o; [done|]. split; [|done].
  destruct (tallied_frames (of_case i trace)) as [H _]. by apply H in Hf as (k & -> & ?).
Qed.

(** ** Totals of recorded evidence *)

(** The payloads that runtimes record. *)
Definition shaped e : Prop :=
  (is_start e → is_ok (frame_time (trace_payload e)) = true) ∧
  (trace_type e = EventType.ReportReceived ∨ trace_type e = EventType.ExternalObservationReceived →
   is_ok (as_object (trace_payload e)) = true).

Lemma tally_case_ok s e : shaped e → is_ok (tally_case s e) = true.
Proof.
  intros [Hs Ha]. destruct s as [fs o]. unfold tally_case, payload_accepted, is_start in *.
  destruct (N.eqb_spec (trace_type e) EventType.FrameStarted).
  { destruct (frame_time _); [done|by specialize (Hs e0)]. }
  destruct o; cbn [negb]; [|done]. destruct (_ || _); [done|]. destruct (_ =? _); [done|].
  destruct (N.eqb_spec (trace_type e) EventType.ReportReceived) as [Hr|].
  { destruct (as_object _); [done|]. specialize (Ha (or_introl Hr)). done. }
  destruct (N.eqb_spec (trace_type e) EventType.ExternalObservationReceived) as [Hr|]; [|done].
  destruct (as_object _); [done|]. by specialize (Ha (or_intror Hr)).
Qed.

Lemma traced_cases_bound record trace e :
  e ∈ trace → caseIndex e < traced_cases record trace.
Proof.
  unfold traced_cases. generalize (len (cases record)).
  assert (∀ l n, n <= foldl (λ n e, N.max n (caseIndex e + 1)) n l) as Hmono.
  { induction l as [|x l IH]; intros n; cbn; [lia|]. etrans; [|apply IH]. lia. }
  induction trace as [|x trace IH]; intros n; [by intros ?%elem_of_nil|].
  intros [->|Hin]%elem_of_cons; cbn; [|by apply IH].
  specialize (Hmono trace (N.max n (caseIndex x + 1))). lia.
Qed.

Lemma tally_total trace t :
  Forall shaped trace → Forall (λ e, caseIndex e < len t) trace →
  is_ok (rfold tally_entry trace t) = true.
Proof.
  revert t. induction trace as [|e trace IH]; intros t; [done|].
  intros [Hs Hss]%Forall_cons [Hi His]%Forall_cons. cbn [rfold].
  destruct (lookup_lt_is_Some_2 t (N.to_nat (caseIndex e))) as [s Es]; [unfold len in Hi; lia|].
  pose proof (tally_case_ok s e Hs) as Ho. destruct (tally_case s e) as [s'|] eqn:Ec; [|done].
  assert (tally_entry t e = Ok (<[N.to_nat (caseIndex e) := s']> t)) as ->.
  { unfold tally_entry. by rewrite Es, Ec. }
  cbn. apply IH; [done|].
  unfold len. by rewrite length_insert.
Qed.

(** C32. The totals of an evaluation are exact where they say that they are
    complete: asked for any record and trace whose payloads are those of a
    runtime, they are returned, and complete ones have for every case the frames
    it ran, each with the number of commands and of accepted reports and
    observations between its start and its end. *)
Theorem complete_totals_exact record trace :
  Forall shaped trace →
  ∃ totals, world_totals record trace = Ok totals ∧
    (totals_complete totals = true →
     length (totals_cases totals) = length (cases record) ∧
     ∀ i c fs, cases record !! i = Some c → totals_cases totals !! i = Some fs →
       framed (of_case i trace) fs ∧ len fs = framesRun c).
Proof.
  intros Hs. destruct (world_totals record trace) as [totals|x] eqn:E.
  - exists totals. split; [done|]. by apply world_totals_complete.
  - exfalso. unfold world_totals in E.
    pose proof (tally_total trace (replicate (N.to_nat (traced_cases record trace)) ([], false)) Hs) as Ho.
    destruct (rfold _ trace _) as [|y]; [done|]. assert (false = true); [|done]. apply Ho, Forall_forall.
    intros e He. unfold len. rewrite length_replicate, N2Nat.id. by apply traced_cases_bound.
Qed.

Definition totals_trace : list EvaluationTraceEntry :=
  [MkTraceEntry 0 EventType.SessionStarted 1 VNull;
   MkTraceEntry 0 EventType.FrameStarted 1 (VObject [("now", VUnsigned 7)]);
   MkTraceEntry 0 EventType.CommandIssued 1 (VObject []);
   MkTraceEntry 0 EventType.ReportReceived 1 (VObject [("disposition", VString "accepted")]);
   MkTraceEntry 0 EventType.ReportReceived 1 (VObject [("disposition", VString "duplicate")]);
   MkTraceEntry 0 EventType.FrameCompleted 1 (VObject [])].
Definition totals_record : EvaluationRecord :=
  MkEvaluationRecord 1 "" 1 1 1 (MkFixture "lamp" 1) EvaluationStatus.Passed true
    [MkCaseResult "on" CaseStatus.Passed 1 1 "" [new_FrameSummary 7] []].

Lemma complete_totals_exact_witness :
  ∃ totals, world_totals totals_record totals_trace = Ok totals ∧ totals_complete totals = true ∧
    totals_cases totals = [[MkFrameTotals 7 1 1 0]] ∧ framed (of_case 0 totals_trace) [MkFrameTotals 7 1 1 0].
Proof.
  destruct (complete_totals_exact totals_record totals_trace) as (totals & E & H).
  { repeat (apply Forall_cons; split); [..|by constructor];
      (split; [intros Hs; first [done|discriminate Hs]|intros [Hs|Hs]; first [done|discriminate Hs]]). }
  assert (totals = MkWorldTotals 1 true [[MkFrameTotals 7 1 1 0]]) as -> by (vm_compute in E; congruence).
  destruct (H eq_refl) as [_ Hc]. exists (MkWorldTotals 1 true [[MkFrameTotals 7 1 1 0]]).
  split_and!; [exact E|done|done|]. by apply (Hc O (MkCaseResult "on" CaseStatus.Passed 1 1 "" [new_FrameSummary 7] [])).
Defined.
