(* ===== verification/EvaluationManifest.v ===== *)
(** * Comparing manifests (src/authoring/Evaluation.cpp)

    An evaluation runs only in a world that grants exactly what the scope was
    granted: same limits, same capabilities, same schemas.  Handles and the
    values read are not compared. *)
From stdpp Require Import pretty.
From S2P Require Import Prelude OrderedMap Values Components LuaSchema LuaManifest.

(** [==] of two [double]s *)
Definition double_eq (a b : N) : bool :=
  negb (is_nan a) && negb (is_nan b) && (double_order a =? double_order b)%Z.
Definition same_bound (a b : option N) : bool :=
  match a, b with
  | Some a, Some b => double_eq a b
  | None, None => true
  | _, _ => false
  end.

(** [schema_bounds(left) == schema_bounds(right)] *)
Definition same_bounds (a b : LuaValueSchema) : bool :=
  bool_decide (kind a = kind b) && String.eqb (description a) (description b) &&
  bool_decide (integerMinimum a = integerMinimum b) && bool_decide (integerMaximum a = integerMaximum b) &&
  same_bound (numberMinimum a) (numberMinimum b) && same_bound (numberMaximum a) (numberMaximum b) &&
  (minimumBytes a =? minimumBytes b) && (maximumBytes a =? maximumBytes b) &&
  bool_decide (enumeration a = enumeration b) &&
  (minimumItems a =? minimumItems b) && (maximumItems a =? maximumItems b).

(** The loop of [same_fields], whose lengths agree. *)
Section SameFields.
Context {A : Type} (same : A → A → bool).
Fixpoint same_fields (l k : list A) : bool :=
  match l, k with
  | [], [] => true
  | x :: l, y :: k => same x y && same_fields l k
  | _, _ => false
  end.
End SameFields.

Fixpoint same_schema (a b : LuaValueSchema) : bool :=
  same_bounds a b &&
  match kind a with
  | Array =>
      match item_ a, item_ b with
      | Some i, Some j => same_schema i j
      | _, _ => false
      end
  | _ => true
  end &&
  same_fields (λ f g : LuaSchemaField LuaValueSchema,
    String.eqb (field_name f) (field_name g) && Bool.eqb (required f) (required g) &&
    same_schema (field_schema f) (field_schema g)) (fields a) (fields b).

Definition same_optional_schema (a b : option LuaValueSchema) : bool :=
  match a, b with
  | Some a, Some b => same_schema a b
  | None, None => true
  | _, _ => false
  end.

#[export] Instance LuaExecutionLimits_eq_dec : EqDecision LuaExecutionLimits.
Proof. solve_decision. Defined.

(** The order of [sorted_capabilities] *)
Definition capability_le (a b : LuaManifestCapability) : Prop := capability_lt b a = false.
#[export] Instance capability_le_dec : RelDecision capability_le.
Proof. intros a b. unfold capability_le. apply _. Defined.
Definition sorted_capabilities (m : LuaCapabilityManifest) : list LuaManifestCapability :=
  merge_sort capability_le (manifest_entries m).

Definition capability_mismatch (scope isolated : LuaManifestCapability) : option string :=
  let target := "capability " +:+ scriptTypeName scope +:+ "." +:+ componentName scope in
  if negb (String.eqb (scriptTypeName isolated) (scriptTypeName scope)) ||
     negb (String.eqb (componentName isolated) (componentName scope))
  then Some (target +:+ " is not granted in the isolated world")
  else if negb (bool_decide (mode isolated = mode scope))
  then Some (target +:+ " has a different access mode")
  else if negb (String.eqb (accessExpression isolated) (accessExpression scope)) ||
     negb (String.eqb (cap_description isolated) (cap_description scope))
  then Some (target +:+ " has different binding metadata")
  else if negb (same_optional_schema (readSchema isolated) (readSchema scope)) ||
     negb (same_optional_schema (writeSchema isolated) (writeSchema scope))
  then Some (target +:+ " has a different component schema")
  else None.

Fixpoint first_mismatch (expected actual : list LuaManifestCapability) : option string :=
  match expected, actual with
  | e :: expected, a :: actual =>
      match capability_mismatch e a with
      | Some m => Some m
      | None => first_mismatch expected actual
      end
  | _, _ => None
  end.

Definition manifest_mismatch (scope isolated : LuaCapabilityManifest) : option string :=
  if decide (effectiveLimits (captureData scope) = effectiveLimits (captureData isolated)) then
    let expected := sorted_capabilities scope in
    let actual := sorted_capabilities isolated in
    if negb (len expected =? len actual)
    then Some ("isolated world grants " +:+ pretty (len actual) +:+
      " capabilities; the captured scope has " +:+ pretty (len expected))
    else first_mismatch expected actual
  else Some "isolated authoring limits differ from the captured scope".

(** ** What agreement means *)

Definition same_capability (scope isolated : LuaManifestCapability) : Prop :=
  scriptTypeName isolated = scriptTypeName scope ∧ componentName isolated = componentName scope ∧
  mode isolated = mode scope ∧ accessExpression isolated = accessExpression scope ∧
  cap_description isolated = cap_description scope ∧
  same_optional_schema (readSchema isolated) (readSchema scope) = true ∧
  same_optional_schema (writeSchema isolated) (writeSchema scope) = true.

Lemma capability_mismatch_None scope isolated :
  capability_mismatch scope isolated = None ↔ same_capability scope isolated.
Proof.
  unfold capability_mismatch, same_capability.
  destruct (String.eqb_spec (scriptTypeName isolated) (scriptTypeName scope)),
    (String.eqb_spec (componentName isolated) (componentName scope)); cbn [negb orb]; try naive_solver.
  case_bool_decide; cbn [negb]; [|naive_solver].
  destruct (String.eqb_spec (accessExpression isolated) (accessExpression scope)),
    (String.eqb_spec (cap_description isolated) (cap_description scope)); cbn [negb orb]; try naive_solver.
  destruct (same_optional_schema (readSchema isolated) _), (same_optional_schema (writeSchema isolated) _);
    cbn; naive_solver.
Qed.

Lemma first_mismatch_None l k :
  length l = length k → first_mismatch l k = None ↔ Forall2 same_capability l k.
Proof.
  revert k. induction l as [|x l IH]; intros [|y k] Hlen; cbn in *; try discriminate.
  { split; [intros _; constructor|done]. }
  pose proof (capability_mismatch_None x y) as Hx. injection Hlen as Hlen. specialize (IH k Hlen).
  rewrite Forall2_cons. destruct (capability_mismatch x y); naive_solver.
Qed.

Lemma manifest_mismatch_None scope isolated :
  manifest_mismatch scope isolated = None ↔
  effectiveLimits (captureData scope) = effectiveLimits (captureData isolated) ∧
  Forall2 same_capability (sorted_capabilities scope) (sorted_capabilities isolated).
Proof.
  unfold manifest_mismatch. destruct (decide _) as [Hl|Hl]; [|naive_solver].
  destruct (N.eqb_spec (len (sorted_capabilities scope)) (len (sorted_capabilities isolated))) as [E|E];
    cbn [negb].
  - rewrite first_mismatch_None by (unfold len in E; lia). naive_solver.
  - split; [done|]. intros [_ H%Forall2_length]. unfold len in E. lia.
Qed.
