(* ===== verification/EvaluationCase.v ===== *)
(** * Running the cases of an evaluation
    (src/authoring/Evaluation.cpp: [CaseExecution], [run_evaluation];
     the callbacks of include/liquid/authoring/Evaluation.hpp)

    A case runs a proposed script in a world of its own, which the host's factory
    makes.  [PreparedWorld] is what the evaluator asks of such a world and of the
    store that the world records in; the callbacks are arguments, like the code
    of systems elsewhere. *)
From stdpp Require Import pretty.
From S2P Require Import Prelude OrderedMap Values Hoare Effects Events EventStore Adapters Ids Components LuaSchema LuaManifest LuaRunner Runtime EvaluationTypes EvaluationAccounting EvaluationStore EvaluationTrace EvaluationManifest.

Definition EvaluationSessionId : N := 1.
Definition FixtureMismatch : string := "fixture mismatch: ".
Definition BudgetExhausted : string := "evaluation event-store budget exhausted".

Definition bounded_diagnostic (message : string) : string :=
  truncated (if String.eqb message "" then "evaluation case failed" else message)
    AuthoringMaxDiagnosticBytes.

(** [to_value]; the constructors of [Value] check what they are given. *)
Fixpoint to_value (v : LuaValue) : res value :=
  match v with
  | LBool b => Ok (VBoolean b)
  | LInteger z => Ok (VSigned z)
  | LNumber d => Value_double d
  | LString s => Value_string s
  | LArray items =>
      l ← rfold (λ l item, x ← to_value item; Ok (l ++ [x])) items [];
      Value_array l
  | LTable entries =>
      m ← rfold (λ m (e : string * LuaValue), x ← to_value e.2; Ok (sm_emplace e.1 x m).1) entries [];
      Value_object m
  end.

(** [LifecycleCaseStatus] *)
Definition lifecycle_case_status (s : LuaExecutionStatus.status) : CaseStatus.status :=
  match s with
  | LuaExecutionStatus.Success => CaseStatus.Passed
  | LuaExecutionStatus.InvalidBehavior | LuaExecutionStatus.SyntaxError
  | LuaExecutionStatus.RuntimeError | LuaExecutionStatus.InvalidProposal
  | LuaExecutionStatus.CommitFailed => CaseStatus.Failed
  | LuaExecutionStatus.SourceLimitExceeded | LuaExecutionStatus.InstructionLimitExceeded
  | LuaExecutionStatus.MemoryLimitExceeded | LuaExecutionStatus.IntentLimitExceeded =>
      CaseStatus.LimitExceeded
  | LuaExecutionStatus.HostError => CaseStatus.HostError
  end.

Definition record_status_of (s : CaseStatus.status) : EvaluationStatus.status :=
  match s with
  | CaseStatus.Passed => EvaluationStatus.Passed
  | CaseStatus.Failed => EvaluationStatus.Failed
  | CaseStatus.LimitExceeded => EvaluationStatus.LimitExceeded
  | CaseStatus.HostError | CaseStatus.NotRun => EvaluationStatus.HostError
  end.

Definition selected_any (frame : FrameLog) (candidateIntents : list IntentId) : bool :=
  existsb (λ t : ComponentTypeId * list (string * IntentId),
    existsb (λ c : string * IntentId, bool_decide (c.2 ∈ candidateIntents)) t.2)
    (intent_selections frame).

(** ** Cases *)

Record EvaluationPreparation := MkPreparation {
  preparation_source : string;
  preparation_grants : list LuaScopeGrant;
  preparation_inputs : value;
  preparation_adapters : list AdapterBehavior;
  preparation_timing : FeedbackTiming
}.

Record EvaluationFrameContext := MkContext {
  context_index : N;
  context_now : IntentTime;
  context_inputs : value;
  context_frame : option FrameResult;
  context_lifecycle : option LuaExecutionResult;
  context_records : list EventRecord
}.

Record EvaluationAssertion := MkAssertion { assertion_passed : bool; assertion_diagnostic : string }.

(** A [PreparedEvaluation] together with the store it records in. *)
Class PreparedWorld (P : Type) := {
  not_prepared : P;
  present : P → bool;
  prepared_frame : P → N;
  prepared_faulted : P → bool;
  prepared_grantedEffects : P → list EvaluationEffectAddress;
  prepared_adapters : P → list (option nat);
  prepared_manifest : IntentTime → stm (BoundedEvaluationStore * P) LuaManifestResult;
  prepared_deliver : nat → IntentTime → stm (BoundedEvaluationStore * P) unit;
  prepared_run_frame : IntentTime → stm (BoundedEvaluationStore * P) FrameResult;
  prepared_last_result : P → res (option LuaExecutionResult);
  prepared_intents : P → res (list IntentId);
  prepared_snapshot : string → string → stm (BoundedEvaluationStore * P) (option LuaValue)
}.

Section Case.
Context {P : Type} `{PreparedWorld P}.
Abbreviation Host := (BoundedEvaluationStore * P)%type.

Record EvaluationCase := MkCase {
  testcase_name : string;
  testcase_inputs : value;
  frameTimes : list IntentTime;
  testcase_timing : FeedbackTiming;
  testcase_adapters : list AdapterBehavior;
  prepare : option (EvaluationPreparation → stm BoundedEvaluationStore P);
  input : option (EvaluationFrameContext → stm Host unit);
  expect : option (EvaluationFrameContext → stm Host EvaluationAssertion)
}.

Record EvaluationSuite := MkSuite {
  suite_id : EvaluationFixtureId;
  suite_cases : list EvaluationCase
}.

(** Calling an empty [std::function] *)
Definition bad_function_call {S A} : stm S A := sthrow runtime_error "bad_function_call".

Record EvaluationRun := MkRun {
  run_suite : EvaluationSuite;
  run_source : string;
  run_grants : list LuaScopeGrant;
  run_scope : LuaCapabilityManifest;
  run_limits : AuthoringLimits
}.

Record EvaluationOutcome := MkOutcome {
  outcome_status : EvaluationStatus.status;
  outcome_cases : list EvaluationCaseResult;
  outcome_trace : list EvaluationTraceEntry;
  storeBytes : N
}.
Definition new_EvaluationOutcome : EvaluationOutcome :=
  MkOutcome EvaluationStatus.HostError [] [] 0.

(** ** [class CaseExecution] *)

Record CaseExecution := MkExecution {
  host : Host;
  result : EvaluationCaseResult;
  recordsSeen : nat;
  lastFrame : option FrameResult;
  lastLifecycle : option LuaExecutionResult;
  frameRecords : list EventRecord;
  grantedEffects : gmap (string * string) ComponentAccessMode
}.
Implicit Types x : CaseExecution.

Definition set_host c x : CaseExecution :=
  MkExecution c (result x) (recordsSeen x) (lastFrame x) (lastLifecycle x) (frameRecords x) (grantedEffects x).
Definition set_result r x : CaseExecution :=
  MkExecution (host x) r (recordsSeen x) (lastFrame x) (lastLifecycle x) (frameRecords x) (grantedEffects x).
Definition set_seen n l x : CaseExecution :=
  MkExecution (host x) (result x) n (lastFrame x) (lastLifecycle x) l (grantedEffects x).
Definition set_last_frame f x : CaseExecution :=
  MkExecution (host x) (result x) (recordsSeen x) f (lastLifecycle x) (frameRecords x) (grantedEffects x).
Definition set_last_lifecycle l x : CaseExecution :=
  MkExecution (host x) (result x) (recordsSeen x) (lastFrame x) l (frameRecords x) (grantedEffects x).
Definition set_granted g x : CaseExecution :=
  MkExecution (host x) (result x) (recordsSeen x) (lastFrame x) (lastLifecycle x) (frameRecords x) g.

Definition set_status s d (r : EvaluationCaseResult) : EvaluationCaseResult :=
  MkCaseResult (case_name r) s (framesScheduled r) (framesRun r) d (frames r) (finalState r).
(** [result.frames = l; result.framesRun = result.frames.size();] *)
Definition set_frames l (r : EvaluationCaseResult) : EvaluationCaseResult :=
  MkCaseResult (case_name r) (case_status r) (framesScheduled r) (len l) (case_diagnostic r) l (finalState r).
Definition set_final l (r : EvaluationCaseResult) : EvaluationCaseResult :=
  MkCaseResult (case_name r) (case_status r) (framesScheduled r) (framesRun r) (case_diagnostic r) (frames r) l.

Definition on_host {A} : stm Host A → stm CaseExecution A := zoom host set_host.
Definition store_of x : BoundedEvaluationStore := (host x).1.
Definition prepared x : P := (host x).2.

Context (run : EvaluationRun) (testCase : EvaluationCase).

(** The constructor *)
Definition new_CaseExecution (b : EvaluationRunBudget) : res CaseExecution :=
  store ← new_BoundedEvaluationStore
    (Events.MkMetadata EvaluationSessionId "0.1.0" (testcase_timing testCase) 1 currentFileFormatVersion) b;
  Ok (MkExecution (store, not_prepared)
    (MkCaseResult (testcase_name testCase) CaseStatus.Passed (len (frameTimes testCase)) 0 "" [] [])
    0 None None [] ∅).

(** Records the first stop only. *)
Definition stop (status : CaseStatus.status) (diagnostic : string) : stm CaseExecution bool :=
  x ← sget;
  (if decide (case_status (result x) = CaseStatus.Passed) then
     if exhausted (store_of x)
     then smodify (set_result (set_status CaseStatus.LimitExceeded (bounded_diagnostic BudgetExhausted) (result x)))
     else smodify (set_result (set_status status (bounded_diagnostic diagnostic) (result x)))
   else mret tt);;
  mret false.

Definition guarded (what : string) (step : stm CaseExecution bool) : stm CaseExecution bool :=
  stry step (λ e, stop CaseStatus.HostError
    (if decide (exn_kind e = unknown_exception) then what +:+ " failed with an unknown exception"
     else what +:+ " failed: " +:+ exn_what e)).

(** A step that runs when the one before succeeded. *)
Definition and_then (m k : stm CaseExecution bool) : stm CaseExecution bool :=
  b ← m; if (b : bool) then k else mret false.

Definition prepare_case : stm CaseExecution bool :=
  x ← sget;
  let preparation := MkPreparation (run_source run) (run_grants run) (testcase_inputs testCase)
    (testcase_adapters testCase) (testcase_timing testCase) in
  on_host (λ c,
    match prepare testCase with
    | None => bad_function_call c
    | Some f =>
        match f preparation c.1 with
        | (Ok p, store) => (Ok tt, (store, p))
        | (Err e, store) => (Err e, (store, c.2))
        end
    end);;
  x ← sget;
  if negb (present (prepared x)) then
    stop CaseStatus.HostError "case factory returned no runtime or runner"
  else
    smodify (set_seen (length (store_read_all (store_of x))) (frameRecords x));;
    mret true.

Definition check_manifest : stm CaseExecution bool :=
  isolated ← on_host (prepared_manifest (hd 0 (frameTimes testCase)));
  match isolated with
  | inr e => stop CaseStatus.HostError (FixtureMismatch +:+ manifest_diagnostic e)
  | inl m =>
      match manifest_mismatch (run_scope run) m with
      | Some mismatch => stop CaseStatus.HostError (FixtureMismatch +:+ mismatch)
      | None => mret true
      end
  end.

(** [std::find_if] over the grants *)
Definition grant_of (a : EvaluationEffectAddress) : option LuaScopeGrant :=
  List.find (λ g, String.eqb (grant_scriptTypeName g) (address_scriptTypeName a) &&
    String.eqb (grant_componentName g) (address_componentName a)) (run_grants run).

Fixpoint check_addresses (declared : list (string * string)) (l : list EvaluationEffectAddress)
  : stm CaseExecution bool :=
  match l with
  | [] => mret true
  | a :: l =>
      let component := (address_scriptTypeName a, address_componentName a) in
      let where_ := address_scriptTypeName a +:+ "." +:+ address_componentName a in
      match grant_of a with
      | None => stop CaseStatus.HostError (FixtureMismatch +:+ "effect address for an ungranted component")
      | Some grant =>
          if bool_decide (component ∈ declared) then
            stop CaseStatus.HostError
              (FixtureMismatch +:+ "effect address for " +:+ where_ +:+ " repeats its component")
          else
            x ← sget;
            let key := (address_route a, address_target a) in
            match grantedEffects x !! key with
            | Some _ => stop CaseStatus.HostError
                (FixtureMismatch +:+ "effect address for " +:+ where_ +:+ " repeats another target")
            | None =>
                smodify (set_granted (<[key := grant_mode grant]> (grantedEffects x)));;
                check_addresses (component :: declared) l
            end
      end
  end.
Definition check_granted_effects : stm CaseExecution bool :=
  x ← sget; check_addresses [] (prepared_grantedEffects (prepared x)).

Definition unchanged_frame (before : N) (what : string) : stm CaseExecution bool :=
  x ← sget;
  if present (prepared x) && (prepared_frame (prepared x) =? before) then mret true
  else stop CaseStatus.HostError (what +:+ " changed the evaluation frame or world").

Definition new_context (index : N) (now : IntentTime) : EvaluationFrameContext :=
  MkContext index now (testcase_inputs testCase) None None [].

Definition apply_input (index : N) (now : IntentTime) : stm CaseExecution bool :=
  match input testCase with
  | None => mret true
  | Some action =>
      x ← sget;
      let before := prepared_frame (prepared x) in
      on_host (action (new_context index now));;
      unchanged_frame before "input action"
  end.

Fixpoint deliver_all (now : IntentTime) (l : list (option nat)) : stm CaseExecution bool :=
  match l with
  | [] => mret true
  | None :: _ => stop CaseStatus.HostError "case factory returned a null adapter"
  | Some a :: l => on_host (prepared_deliver a now);; deliver_all now l
  end.
Definition deliver (now : IntentTime) : stm CaseExecution bool :=
  x ← sget; deliver_all now (prepared_adapters (prepared x)).

Definition push_summary (s : EvaluationFrameSummary) : stm CaseExecution unit :=
  smodify (λ x, set_result (set_frames (frames (result x) ++ [s]) (result x)) x).

Definition advance (now : IntentTime) : stm CaseExecution bool :=
  stry (frame ← on_host (prepared_run_frame now); smodify (set_last_frame (Some frame));; mret true)
    (λ e,
      push_summary (new_FrameSummary now);;
      stop CaseStatus.HostError ("evaluation frame failed: " +:+
        (if decide (exn_kind e = unknown_exception) then "unknown exception" else exn_what e))).

(** [catch (const std::exception&) { return nullptr; }] *)
Definition lifecycle_result : stm CaseExecution (option LuaExecutionResult) :=
  x ← sget;
  stry (slift (prepared_last_result (prepared x)))
    (λ e, if decide (exn_kind e = unknown_exception) then slift (Err e) else mret None).

Definition collect_records : stm CaseExecution unit :=
  x ← sget;
  let all := store_read_all (store_of x) in
  let first := (recordsSeen x `min` length all)%nat in
  smodify (set_seen (length all) (drop first all)).

Definition granted_mode x (route target : string) : option ComponentAccessMode :=
  grantedEffects x !! (route, target).

Definition summarize (frame : FrameResult) (now : IntentTime) : stm CaseExecution EvaluationFrameSummary :=
  x ← sget;
  live ← slift (prepared_intents (prepared x));
  let mode route target := granted_mode x route target in
  mret (MkFrameSummary now (completed (result_frame frame))
    (execution_status <$> lastLifecycle x)
    (match lastLifecycle x with Some l => len (createdIntents l) | None => 0 end)
    (match lastLifecycle x with Some l => len (cancelledIntents l) | None => 0 end)
    (len live) (selected_any (result_frame frame) live)
    (len (List.filter (λ c, bool_decide (is_Some
      (mode (adapterRoute (effect c)) (target (effect c))))) (result_commands frame)))
    (map report_status (List.filter (λ r, bool_decide (is_Some
      (mode (report_route r) (report_target r)))) (result_reports frame)))
    (len (List.filter (λ o, match mode (observation_route o) (observation_target o) with
      | Some m => bool_decide (m ≠ Write) | None => false end) (result_observations frame)))
    false).

Definition check_frame (frame : FrameResult) (index : N) : stm CaseExecution bool :=
  let at_ := "frame " +:+ pretty index +:+ ": " in
  x ← sget;
  if exhausted (store_of x) then stop CaseStatus.LimitExceeded BudgetExhausted
  else if negb (completed (result_frame frame)) || prepared_faulted (prepared x) then
    stop CaseStatus.HostError (at_ +:+ "frame did not complete: " +:+ failure_message (result_frame frame))
  else match lastLifecycle x with
  | None => stop CaseStatus.HostError (at_ +:+ "no lifecycle result for the candidate")
  | Some l =>
      if decide (lifecycle_case_status (execution_status l) = CaseStatus.Passed) then mret true
      else stop (lifecycle_case_status (execution_status l))
        (at_ +:+ "lifecycle failed: " +:+ execution_diagnostic l)
  end.

Definition observe (index : N) (now : IntentTime) : stm CaseExecution bool :=
  x ← sget;
  match lastFrame x with
  | None => sthrow logic_error "undefined behaviour: empty optional"
  | Some frame =>
      smodify (set_last_lifecycle None);;
      lifecycle ← lifecycle_result;
      smodify (set_last_lifecycle lifecycle);;
      collect_records;;
      summary ← summarize frame now;
      push_summary summary;;
      check_frame frame index
  end.

(** The change of [result.frames.back()] *)
Definition mark_assertion (b : bool) : stm CaseExecution unit :=
  smodify (λ x, set_result (set_frames
    (update_back (set_assertionPassed b) (frames (result x))) (result x)) x).

Definition check_expectation (index : N) (now : IntentTime) : stm CaseExecution bool :=
  x ← sget;
  let before := prepared_frame (prepared x) in
  let context := MkContext index now (testcase_inputs testCase) (lastFrame x) (lastLifecycle x) (frameRecords x) in
  assertion ← on_host (match expect testCase with None => bad_function_call | Some f => f context end);
  and_then (unchanged_frame before "expectation") (
    mark_assertion (assertion_passed assertion);;
    if negb (assertion_passed assertion) then
      stop CaseStatus.Failed
        ("assertion failed at frame " +:+ pretty index +:+ ": " +:+ assertion_diagnostic assertion)
    else mret true).

Definition run_frame_at (index : N) (now : IntentTime) : stm CaseExecution bool :=
  and_then (guarded "input action" (apply_input index now))
    (and_then (guarded "adapter delivery" (deliver now))
      (and_then (advance now)
        (and_then (guarded "frame evidence" (observe index now))
          (guarded "expectation" (check_expectation index now))))).

(** The loop of [run_frames] from the frame [index] on. *)
Fixpoint run_frames (index : N) (times : list IntentTime) : stm CaseExecution bool :=
  match times with
  | [] => mret true
  | now :: times => and_then (run_frame_at index now) (run_frames (index + 1) times)
  end.

Definition target_summary (grant : LuaScopeGrant) : stm CaseExecution EvaluationTargetSummary :=
  let summary v := MkTargetSummary (grant_scriptTypeName grant) (grant_componentName grant) (grant_mode grant) v in
  if decide (grant_mode grant = Write) then mret (summary None)
  else
    v ← on_host (prepared_snapshot (grant_scriptTypeName grant) (grant_componentName grant));
    match v with
    | None => sthrow runtime_error ("readable target " +:+ grant_scriptTypeName grant +:+ "." +:+
        grant_componentName grant +:+ " is unavailable")
    | Some v => v ← slift (to_value v); mret (summary (Some v))
    end.

Definition capture_final_state : stm CaseExecution unit :=
  captured ← guarded "final state" (
    sfor (λ g, t ← target_summary g;
      smodify (λ x, set_result (set_final (finalState (result x) ++ [t]) (result x)) x)) (run_grants run);;
    mret true);
  if (captured : bool) then mret tt else smodify (λ x, set_result (set_final [] (result x)) x).

Definition execute : stm CaseExecution EvaluationCaseResult :=
  ready ← and_then (guarded "case factory" prepare_case)
    (and_then (guarded "isolated manifest" check_manifest)
      (guarded "granted effects" check_granted_effects));
  (if (ready : bool) then
     run_frames 0 (frameTimes testCase);;
     x ← sget;
     if present (prepared x) then capture_final_state else mret tt
   else mret tt);;
  x ← sget;
  mret (result x).
End Case.

(** ** [run_evaluation] *)

Section Evaluation.
Context {P : Type} `{PreparedWorld P}.

Definition not_run (testCase : EvaluationCase (P := P)) : EvaluationCaseResult :=
  MkCaseResult (testcase_name testCase) CaseStatus.NotRun (len (frameTimes testCase)) 0 "" [] [].

Definition add_case (r : EvaluationCaseResult) (o : EvaluationOutcome) : EvaluationOutcome :=
  MkOutcome (outcome_status o) (outcome_cases o ++ [r]) (outcome_trace o) (storeBytes o).

(** The loop over the cases from [index] on, with the budget they share. *)
Fixpoint run_cases (run : EvaluationRun (P := P)) (index : N) (l : list EvaluationCase)
    (b : EvaluationRunBudget) (o : EvaluationOutcome) : res (EvaluationRunBudget * EvaluationOutcome) :=
  match l with
  | [] => Ok (b, o)
  | testCase :: l =>
      if decide (outcome_status o = EvaluationStatus.Passed) then
        execution ← new_CaseExecution testCase b;
        let '(r, execution) := execute run testCase execution in
        r ← r;
        let store := store_of execution in
        run_cases run (index + 1) l (budget store)
          (MkOutcome (record_status_of (case_status r)) (outcome_cases o ++ [r])
            (append_trace index (store_read_all store) (outcome_trace o)) (storeBytes o))
      else run_cases run (index + 1) l b (add_case (not_run testCase) o)
  end.

Definition run_evaluation (run : EvaluationRun (P := P)) : res EvaluationOutcome :=
  '(b, o) ← run_cases run 0 (suite_cases (run_suite run))
    (MkBudget (maxEvaluationRecords (run_limits run)) (maxEvaluationRecordBytes (run_limits run)) 0 0 false)
    (MkOutcome EvaluationStatus.Passed [] [] 0);
  Ok (MkOutcome (outcome_status o) (outcome_cases o) (outcome_trace o) (budget_bytes b)).
End Evaluation.
