(* ===== verification/EvaluationRuns.v ===== *)
(** * What evaluations report, and what they may record

    [case_ran] says what the result of a case means, [suite_ran] that of an
    evaluation.  Worlds and callbacks that reach the store only by appending
    ([PreparedWorldLaws], [appending]) keep the evidence within its budget. *)
From S2P Require Import Prelude OrderedMap Values Hoare Effects Events EventStore Adapters Ids Components LuaSchema LuaManifest LuaRunner Runtime EvaluationTypes EvaluationAccounting EvaluationStore EvaluationTrace EvaluationManifest EvaluationCase.

Section Runs.
Context {P : Type} `{PreparedWorld P}.
Abbreviation Execution := (CaseExecution (P := P)).
Abbreviation Case := (EvaluationCase (P := P)).
Abbreviation Run := (EvaluationRun (P := P)).
Implicit Types (x : Execution) (r : EvaluationCaseResult).

(** ** What results mean *)

Definition good_frame (s : EvaluationFrameSummary) : Prop :=
  frameCompleted s = true ∧ lifecycleStatus s = Some LuaExecutionStatus.Success ∧ assertionPassed s = true.

(** The final value of a grant is shown exactly if the grant reads. *)
Definition shows (g : LuaScopeGrant) (t : EvaluationTargetSummary) : Prop :=
  summary_scriptTypeName t = grant_scriptTypeName g ∧ summary_componentName t = grant_componentName g ∧
  summary_mode t = grant_mode g ∧ (is_Some (summary_value t) ↔ grant_mode g ≠ Write).

(** Frames in the order of their times; only the last one may be bad. *)
Definition frames_ran (times : list IntentTime) (l : list EvaluationFrameSummary) : Prop :=
  map summary_now l `prefix_of` times ∧
  ∃ good, Forall good_frame good ∧ (l = good ∨ ∃ s, l = good ++ [s]).

Record case_ran (grants : list LuaScopeGrant) (tc : Case) r : Prop := {
  cr_name : case_name r = testcase_name tc;
  cr_scheduled : framesScheduled r = len (frameTimes tc);
  cr_run : framesRun r = len (frames r);
  cr_frames : frames_ran (frameTimes tc) (frames r);
  cr_final : finalState r = [] ∨ Forall2 shows grants (finalState r);
  cr_status : case_status r ≠ CaseStatus.NotRun;
  cr_passed : case_status r = CaseStatus.Passed →
    Forall good_frame (frames r) ∧ map summary_now (frames r) = frameTimes tc ∧
    (frameTimes tc ≠ [] → Forall2 shows grants (finalState r))
}.

(** Cases run in order up to the first that does not pass. *)
Inductive suite_ran (grants : list LuaScopeGrant)
  : list Case → list EvaluationCaseResult → EvaluationStatus.status → Prop :=
| suite_passed : suite_ran grants [] [] EvaluationStatus.Passed
| suite_next tc r l rs s :
    case_ran grants tc r → case_status r = CaseStatus.Passed → suite_ran grants l rs s →
    suite_ran grants (tc :: l) (r :: rs) s
| suite_stopped tc r l :
    case_ran grants tc r → case_status r ≠ CaseStatus.Passed →
    suite_ran grants (tc :: l) (r :: map not_run l) (record_status_of (case_status r)).

(** ** Steps of a running case *)

Definition running r : Prop := case_status r = CaseStatus.Passed ∧ framesRun r = len (frames r).

(** The result [r], stopped *)
Definition stopped r x' : Prop :=
  ∃ s d, s ≠ CaseStatus.Passed ∧ s ≠ CaseStatus.NotRun ∧ result x' = set_status s d r.

(** A step succeeds and changes the result by [R], or changes it by [R'] and
    stops, or throws with the result as it was. *)
Definition steps (R R' : relation EvaluationCaseResult) (m : stm Execution bool) : Prop :=
  ∀ x, running (result x) → wp m (λ y x', match y with
    | Ok true => R (result x) (result x')
    | Ok false => ∃ r, R' (result x) r ∧ stopped r x'
    | Err _ => result x' = result x
    end) x.
Definition quiet (m : stm Execution bool) : Prop := steps eq eq m.

(** A step that does not throw. *)
Definition finishes (R R' : relation EvaluationCaseResult) (m : stm Execution bool) : Prop :=
  ∀ x, running (result x) → wp m (λ y x',
    (y = Ok true ∧ R (result x) (result x')) ∨
    (y = Ok false ∧ ∃ r, R' (result x) r ∧ stopped r x')) x.

(** Computations of the host and of other parts leave the result alone. *)
Definition same_result x x' : Prop := result x' = result x.
#[export] Instance same_result_preorder : PreOrder same_result.
Proof. split; [done|]. intros a b c. unfold same_result. congruence. Qed.

Lemma on_host_same {A} (m : stm (BoundedEvaluationStore * P) A) : keeps same_result (on_host m).
Proof. intros x. unfold on_host, zoom. by destruct (m (host x)). Qed.
Lemma modify_same (f : Execution → Execution) : (∀ x, result (f x) = result x) → keeps same_result (smodify f).
Proof. intros Hf x. apply Hf. Qed.
#[local] Hint Resolve on_host_same : keeps.
#[local] Hint Extern 1 (keeps same_result (smodify _)) => apply modify_same; done : keeps.

Lemma stop_stops s d :
  s ≠ CaseStatus.Passed → s ≠ CaseStatus.NotRun →
  ∀ x, running (result x) → wp (stop s d) (λ y x', y = Ok false ∧ stopped (result x) x') x.
Proof.
  intros Hs Hn x [Hx _]. unfold stop in *. eapply wp_bind_eq; [reflexivity|].
  destruct (decide _) as [_|]; [|done]. apply wp_bind. destruct (exhausted (store_of x)).
  - split; [done|]. by exists CaseStatus.LimitExceeded, (bounded_diagnostic BudgetExhausted).
  - split; [done|]. by exists s, (bounded_diagnostic d).
Qed.

Lemma steps_stop R (R' : relation EvaluationCaseResult) s d :
  s ≠ CaseStatus.Passed → s ≠ CaseStatus.NotRun → (∀ r, running r → R' r r) → steps R R' (stop s d).
Proof.
  intros Hs Hn HR x Hx. eapply wp_mono; [by apply stop_stops|]. intros y x' [-> Hst]. exists (result x). auto.
Qed.

Lemma quiet_true : quiet (mret true).
Proof. by intros x Hx. Qed.

(** A part that leaves the result alone, before a step. *)
Lemma steps_after {A} R R' (m : stm Execution A) (f : A → stm Execution bool) :
  keeps same_result m → (∀ a, steps R R' (f a)) → steps R R' (m ≫= f).
Proof.
  intros Hm Hf x Hx. apply wp_bind. apply wp_intro. intros y x' E. specialize (Hm x). rewrite E in Hm.
  unfold same_result in Hm. cbn in Hm. destruct y as [a|e]; cbn; [|exact Hm].
  rewrite <-Hm. apply Hf. by rewrite Hm.
Qed.

Lemma steps_get R R' (f : Execution → stm Execution bool) :
  (∀ x, steps R R' (f x)) → steps R R' (x ← sget; f x).
Proof. apply steps_after. intros x. by unfold same_result. Qed.

(** A quiet step before another. *)
Lemma steps_then R (R' : relation EvaluationCaseResult) m k :
  quiet m → steps R R' k → (∀ r, running r → R' r r) → steps R R' (and_then m k).
Proof.
  intros Hm Hk HR x Hx. unfold and_then. apply wp_bind. eapply wp_mono; [by apply Hm|].
  intros [[]|e] x'; cbn.
  - intros E. rewrite E. apply Hk. by rewrite <-E.
  - intros (r & <- & Hst). exists (result x). auto.
  - done.
Qed.

Lemma guarded_finishes what (R R' : relation EvaluationCaseResult) m :
  steps R R' m → (∀ r, running r → R' r r) → finishes R R' (guarded what m).
Proof.
  intros Hm HR x Hx. unfold guarded. apply wp_try. eapply wp_mono; [by apply Hm|].
  intros [[]|e] x'; [by left|by right|].
  intros E. eapply wp_mono; [apply stop_stops; [done|done|by rewrite E]|]. intros y x2 [-> Hst].
  right. split; [done|]. exists (result x). split; [by apply HR|]. by rewrite <-E.
Qed.

Lemma finishes_then (R1 R1' R2 R2' : relation EvaluationCaseResult) m k :
  finishes R1 R1' m → finishes R2 R2' k → (∀ r r', running r → R1 r r' → running r') →
  finishes (λ r r', ∃ q, R1 r q ∧ R2 q r') (λ r r', R1' r r' ∨ ∃ q, R1 r q ∧ R2' q r') (and_then m k).
Proof.
  intros Hm Hk HR x Hx. unfold and_then. apply wp_bind. eapply wp_mono; [by apply Hm|].
  intros y x' [[-> H1]|[-> (r & Hr & Hst)]]; cbn.
  - eapply wp_mono; [apply Hk; by eapply HR|].
    intros z x2 [[-> H2]|[-> (r & Hr & Hst)]]; [left; eauto|right]. split; [done|]. exists r. eauto.
  - right. split; [done|]. exists r. auto.
Qed.

Lemma finishes_mono (R R' Q Q' : relation EvaluationCaseResult) m :
  finishes R R' m → (∀ r r', running r → R r r' → Q r r') → (∀ r r', running r → R' r r' → Q' r r') →
  finishes Q Q' m.
Proof.
  intros Hm H1 H2 x Hx. eapply wp_mono; [by apply Hm|].
  intros y x' [[-> HR]|[-> (r & HR & Hst)]]; [left; auto|right]. split; [done|]. exists r. auto.
Qed.

Ltac quiet_steps :=
  repeat match goal with
  | |- quiet _ => unfold quiet
  | |- steps _ _ (mret true) => apply quiet_true
  | |- steps _ _ (stop _ _) => by apply steps_stop
  | |- steps _ _ (sget ≫= _) => apply steps_get; intros ?
  | |- steps _ _ (_ ≫= _) => apply steps_after; [|intros ?]
  | |- keeps same_result _ => solve [keep_steps]
  | |- steps _ _ (if ?c then _ else _) => destruct c
  | |- steps _ _ (match ?y with _ => _ end) => destruct y
  end.

Context (run : Run) (tc : Case).

Lemma prepare_quiet : quiet (prepare_case run tc).
Proof. unfold quiet, prepare_case. cbv zeta. quiet_steps. Qed.
Lemma check_manifest_quiet : quiet (check_manifest run tc).
Proof. unfold quiet, check_manifest. quiet_steps. Qed.
Lemma check_addresses_quiet l declared : quiet (check_addresses run declared l).
Proof.
  revert declared. induction l as [|a l IH]; intros declared; cbn [check_addresses]; unfold quiet; quiet_steps.
  apply IH.
Qed.
Lemma check_granted_quiet : quiet (check_granted_effects run).
Proof. unfold quiet, check_granted_effects. apply steps_get. intros x. apply check_addresses_quiet. Qed.
Lemma unchanged_quiet before what : quiet (unchanged_frame before what).
Proof. unfold quiet, unchanged_frame. quiet_steps. Qed.
Lemma apply_input_quiet i now : quiet (apply_input tc i now).
Proof. unfold quiet, apply_input. quiet_steps. apply unchanged_quiet. Qed.
Lemma deliver_quiet now : quiet (deliver now).
Proof.
  unfold quiet, deliver. apply steps_get. intros x.
  induction (prepared_adapters (prepared x)) as [|[a|] l IH]; cbn [deliver_all]; quiet_steps. apply IH.
Qed.

(** ** Frames *)

(** The result with the summaries [l] at its end *)
Definition with_frames (l : list EvaluationFrameSummary) r : EvaluationCaseResult :=
  set_frames (frames r ++ l) r.
Definition pushes (Q : EvaluationFrameSummary → Prop) r r' : Prop := ∃ s, Q s ∧ r' = with_frames [s] r.

Lemma running_with_frames l r : running r → running (with_frames l r).
Proof. by intros [Hs _]. Qed.
Lemma with_frames_nil r : running r → with_frames [] r = r.
Proof. intros [_ Hr]. unfold with_frames, set_frames. rewrite app_nil_r, <-Hr. by destruct r. Qed.
Lemma with_frames_app l k r : with_frames k (with_frames l r) = with_frames (l ++ k) r.
Proof. unfold with_frames. cbn. by rewrite <-app_assoc. Qed.

Definition at_time (now : IntentTime) (s : EvaluationFrameSummary) : Prop := summary_now s = now.
(** A frame that completed and whose script succeeded. *)
Definition observed (now : IntentTime) (s : EvaluationFrameSummary) : Prop :=
  summary_now s = now ∧ frameCompleted s = true ∧ lifecycleStatus s = Some LuaExecutionStatus.Success.

Lemma push_summary_result s x : wp (push_summary s) (λ y x', y = Ok tt ∧ result x' = with_frames [s] (result x) ∧
  lastLifecycle x' = lastLifecycle x) x.
Proof. done. Qed.

Lemma advance_finishes now : finishes eq (pushes (at_time now)) (advance now).
Proof.
  intros x Hx. unfold advance. apply wp_try.
  match goal with |- wp ?m _ x => assert (keeps same_result m) as Hk by keep_steps end.
  apply wp_intro. intros y x' E. specialize (Hk x). rewrite E in Hk. unfold same_result in Hk. cbn in Hk.
  destruct y as [[]|e]; [by left| |].
  { exfalso. unfold mbind, stm_bind in E. destruct (on_host _ x) as [[f|] x1]; [|done]. by injection E. }
  eapply wp_bind_eq; [reflexivity|]. eapply wp_mono; [apply stop_stops; [done|done|]|].
  - cbn. apply running_with_frames. by rewrite Hk.
  - cbn. intros z x2 [-> Hst]. right. split; [done|]. eexists. split; [|exact Hst].
    exists (new_FrameSummary now). by rewrite Hk.
Qed.

Lemma lifecycle_success st : lifecycle_case_status st = CaseStatus.Passed → st = LuaExecutionStatus.Success.
Proof. by destruct st. Qed.

Lemma check_frame_running frame i x :
  running (result x) →
  wp (check_frame frame i) (λ y x',
    (y = Ok true ∧ result x' = result x ∧ completed (result_frame frame) = true ∧
     execution_status <$> lastLifecycle x = Some LuaExecutionStatus.Success) ∨
    (y = Ok false ∧ stopped (result x) x')) x.
Proof.
  intros Hx. unfold check_frame. eapply wp_bind_eq; [reflexivity|]. cbv zeta.
  assert (∀ s d, s ≠ CaseStatus.Passed → s ≠ CaseStatus.NotRun → wp (stop s d) (λ y x',
    (y = Ok true ∧ result x' = result x ∧ completed (result_frame frame) = true ∧
     execution_status <$> lastLifecycle x = Some LuaExecutionStatus.Success) ∨
    (y = Ok false ∧ stopped (result x) x')) x) as Hstop.
  { intros s d Hs Hn. eapply wp_mono; [by apply stop_stops|]. auto. }
  destruct (exhausted (store_of x)); [by apply Hstop|].
  destruct (completed (result_frame frame)); cbn [negb orb]; [|by apply Hstop].
  destruct (prepared_faulted (prepared x)); [by apply Hstop|].
  destruct (lastLifecycle x) as [l|]; [|by apply Hstop].
  destruct (decide _) as [Hl|Hl].
  - left. split_and!; [done|done|done|]. cbn. by rewrite (lifecycle_success _ Hl).
  - apply Hstop; [done|]. by destruct (execution_status l).
Qed.

Lemma observe_steps i now :
  steps (pushes (observed now)) (λ r r', r' = r ∨ pushes (at_time now) r r') (observe i now).
Proof.
  unfold observe. apply steps_get. intros x0. destruct (lastFrame x0) as [frame|]; [|by intros x Hx].
  apply steps_after; [keep_steps|intros []].
  apply steps_after; [unfold lifecycle_result; keep_steps|intros lifecycle].
  apply steps_after; [keep_steps|intros []].
  apply steps_after; [unfold collect_records; apply keeps_get_bind; intros x; reflexivity|intros []].
  intros x Hx. unfold summarize. apply wp_bind. eapply wp_bind_eq; [reflexivity|].
  apply wp_bind. unfold wp at 1. cbn [slift fst snd]. destruct (prepared_intents (prepared x)) as [live|e]; cbn [then_wp]; [|done].
  cbv zeta. apply wp_ret. cbn [then_wp].
  match goal with |- wp (push_summary ?s0;; _) _ _ => set (s := s0) end.
  eapply wp_bind_eq; [reflexivity|]. cbv beta.
  eapply wp_mono; [apply check_frame_running; by apply running_with_frames|].
  intros y x' [(-> & -> & Hc & Hl)|[-> Hst]].
  - exists s. split; [|done]. subst s. split_and!; [done|exact Hc|exact Hl].
  - exists (with_frames [s] (result x)). split; [right; exists s; by split|exact Hst].
Qed.

Lemma expectation_steps i now :
  steps (λ r r', r' = set_frames (update_back (set_assertionPassed true) (frames r)) r)
    (λ r r', r' = r ∨ r' = set_frames (update_back (set_assertionPassed false) (frames r)) r)
    (check_expectation tc i now).
Proof.
  unfold check_expectation. apply steps_get. intros x0. cbv zeta. apply steps_after; [keep_steps|]. intros a.
  apply steps_then; [apply unchanged_quiet| |by left].
  intros x Hx. eapply wp_bind_eq; [reflexivity|]. destruct (assertion_passed a); cbn [negb].
  - by apply wp_ret.
  - eapply wp_mono; [apply stop_stops; [done|done|]|].
    + destruct Hx as [Hs _]. by split.
    + intros y x' [-> Hst]. eexists. split; [right; reflexivity|exact Hst].
Qed.

Lemma run_frame_finishes i now :
  finishes (pushes (λ s, good_frame s ∧ at_time now s))
    (λ r r', r' = r ∨ pushes (at_time now) r r') (run_frame_at tc i now).
Proof.
  eapply finishes_mono.
  - unfold run_frame_at. repeat apply finishes_then.
    + by apply guarded_finishes; [apply apply_input_quiet|].
    + by apply guarded_finishes; [apply deliver_quiet|].
    + apply advance_finishes.
    + apply guarded_finishes; [apply observe_steps|by left].
    + apply guarded_finishes; [apply expectation_steps|by left].
    + intros r r' Hr (s & _ & ->). by apply running_with_frames.
    + by intros r r' Hr <-.
    + by intros r r' Hr <-.
    + by intros r r' Hr <-.
  - intros r r' Hr (q & <- & q' & <- & q'' & <- & q3 & (s & (Hn & Hc & Hl) & ->) & ->).
    exists (set_assertionPassed true s). split; [by split_and!|].
    unfold with_frames. cbn [frames set_frames]. by rewrite update_back_snoc.
  - intros r r' Hr [<-|(q & <- & [<-|(q' & <- & [Hp|(q'' & <- & [[->|Hp]|(q3 & (s & (Hn & _) & ->) & [-> | ->])])])])].
    1,2,4: by left. 1,2: right; exact Hp.
    + right. by exists s.
    + right. exists (set_assertionPassed false s). split; [done|].
      unfold with_frames. cbn [frames set_frames]. by rewrite update_back_snoc.
Qed.

Lemma run_frames_finishes times i :
  finishes (λ r r', ∃ l, Forall good_frame l ∧ map summary_now l = times ∧ r' = with_frames l r)
    (λ r r', ∃ l, frames_ran times l ∧ r' = with_frames l r) (run_frames tc i times).
Proof.
  revert i. induction times as [|now times IH]; intros i.
  { intros x Hx. left. split; [done|]. exists []. split_and!; [constructor|done|]. by rewrite with_frames_nil. }
  cbn [run_frames]. eapply finishes_mono; [apply finishes_then; [apply run_frame_finishes|apply IH|]|..].
  - intros r r' Hr (s & _ & ->). by apply running_with_frames.
  - intros r r' Hr (q & (s & [Hg Hn] & ->) & l & Hl & Ht & ->). exists (s :: l). cbn.
    split_and!; [by constructor|by rewrite Hn, Ht|]. by rewrite with_frames_app.
  - intros r r' Hr [[->|(s & Hs & ->)]|(q & (s & [Hg Hn] & ->) & l & [Hp (good & Hgood & Hl)] & ->)].
    + exists []. split; [split; [apply prefix_nil|by exists []; auto]|]. by rewrite with_frames_nil.
    + exists [s]. split; [|done]. split; [cbn; rewrite Hs; apply prefix_cons, prefix_nil|].
      exists []. split; [done|]. right. by exists s.
    + exists (s :: l). rewrite with_frames_app. split; [|done]. split; [cbn; rewrite Hn; by apply prefix_cons|].
      exists (s :: good). split; [by constructor|].
      destruct Hl as [->|(s' & ->)]; [by left|]. right. by exists s'.
Qed.

(** ** The world is there after a frame *)

Definition leads (m : stm Execution bool) : Prop :=
  ∀ x, wp m (λ y x', y = Ok true → present (prepared x') = true) x.

Lemma leads_then m k : leads k → leads (and_then m k).
Proof.
  intros Hk x. unfold and_then. apply wp_bind, wp_intro. intros [[]|e] x' _; cbn; [apply Hk|done|done].
Qed.

Lemma stop_false s d x : ∃ x', stop s d x = (Ok false, x').
Proof.
  unfold stop, mbind, stm_bind, sget. destruct (decide _); [destruct (exhausted _)|]; by eexists.
Qed.

Lemma leads_guarded what m : leads m → leads (guarded what m).
Proof.
  intros Hm x. unfold guarded. apply wp_try. eapply wp_mono; [apply Hm|]. intros [b|e] x' Hx; [done|].
  unfold wp. match goal with |- context [stop ?s ?d ?x] => destruct (stop_false s d x) as [x2 ->] end. done.
Qed.

Lemma expectation_leads i now : leads (check_expectation tc i now).
Proof.
  intros x. unfold check_expectation. eapply wp_bind_eq; [reflexivity|]. apply wp_bind, wp_intro.
  intros [a|e] x1 _; cbn [then_wp]; [|done]. unfold and_then. apply wp_bind. unfold unchanged_frame.
  eapply wp_bind_eq; [reflexivity|]. destruct (present (prepared x1)) eqn:Ep; cbn [andb].
  - destruct (_ =? _).
    + eapply wp_bind_eq; [reflexivity|]. destruct (assertion_passed a); cbn [negb]; [by intros _|].
      unfold wp. match goal with |- context [stop ?s ?d ?x] => destruct (stop_false s d x) as [x2 ->] end. done.
    + unfold wp. match goal with |- context [stop ?s ?d ?x] => destruct (stop_false s d x) as [x2 ->] end. done.
  - unfold wp. match goal with |- context [stop ?s ?d ?x] => destruct (stop_false s d x) as [x2 ->] end. done.
Qed.

Lemma run_frames_leads times i : times ≠ [] → leads (run_frames tc i times).
Proof.
  revert i. induction times as [|now times IH]; intros i; [done|]. intros _. cbn [run_frames].
  destruct times as [|now' times]; [|apply leads_then, IH; done].
  intros x. unfold and_then. apply wp_bind. eapply wp_mono.
  - assert (leads (run_frame_at tc i now)) as Hl; [|apply Hl].
    unfold run_frame_at. do 4 apply leads_then. apply leads_guarded, expectation_leads.
  - by intros [[]|e] x' Hx.
Qed.

(** ** The final state *)

Lemma target_summary_shows g x :
  wp (target_summary g) (λ y x', result x' = result x ∧ ∀ t, y = Ok t → shows g t) x.
Proof.
  unfold target_summary. cbv zeta. destruct (decide (grant_mode g = Write)) as [Hw|Hw].
  { apply wp_ret. split; [done|]. intros t [= <-]. split_and!; try done. cbn. rewrite Hw. split; [by intros []|done]. }
  apply wp_bind. apply wp_intro. intros y x' E. pose proof (on_host_same (prepared_snapshot
    (grant_scriptTypeName g) (grant_componentName g)) x) as Hs. rewrite E in Hs. unfold same_result in Hs. cbn in Hs.
  destruct y as [[v|]|e]; cbn; [|done|done]. unfold wp, mbind, stm_bind, slift.
  destruct (to_value v) as [w|e]; cbn; [|done]. split; [done|]. intros t [= <-]. split_and!; try done.
Qed.

Lemma stop_any s d x :
  s ≠ CaseStatus.Passed → s ≠ CaseStatus.NotRun → case_status (result x) ≠ CaseStatus.NotRun →
  wp (stop s d) (λ y x', y = Ok false ∧ ∃ s' d', s' ≠ CaseStatus.Passed ∧ s' ≠ CaseStatus.NotRun ∧
    result x' = set_status s' d' (result x)) x.
Proof.
  intros Hs Hn Hx. unfold stop. eapply wp_bind_eq; [reflexivity|].
  destruct (decide _) as [_|Hne].
  - apply wp_bind. destruct (exhausted (store_of x)).
    + split; [done|]. by exists CaseStatus.LimitExceeded, (bounded_diagnostic BudgetExhausted).
    + split; [done|]. by exists s, (bounded_diagnostic d).
  - split; [done|]. exists (case_status (result x)), (case_diagnostic (result x)).
    split_and!; [done|done|]. change (result x = set_status (case_status (result x)) (case_diagnostic (result x)) (result x)).
    by destruct (result x).
Qed.

Definition final_captured x x' : Prop :=
  ∃ s d l, result x' = set_final l (set_status s d (result x)) ∧ s ≠ CaseStatus.NotRun ∧
    ((Forall2 shows (run_grants run) l ∧ s = case_status (result x)) ∨ (l = [] ∧ s ≠ CaseStatus.Passed)).

Lemma capture_final x :
  finalState (result x) = [] → case_status (result x) ≠ CaseStatus.NotRun →
  wp (capture_final_state run) (λ y x', y = Ok tt ∧ final_captured x x') x.
Proof.
  intros Hf Hn. unfold capture_final_state.
  set (recorded := λ l x', result x' = set_final l (result x)).
  assert (wp (sfor (λ g, t ← target_summary g;
      smodify (λ x, set_result (set_final (finalState (result x) ++ [t]) (result x)) x)) (run_grants run);;
    mret true) (λ y x', ∃ l, recorded l x' ∧ (y = Ok true ∧ Forall2 shows (run_grants run) l ∨ ∃ e, y = Err e)) x) as Hloop.
  { apply wp_bind. eapply (wp_for _ _ (λ rest x', ∃ before l, run_grants run = before ++ rest ∧
      Forall2 shows before l ∧ recorded l x')).
    - exists [], []. split_and!; [done|constructor|]. subst recorded. cbn. rewrite <-Hf. by destruct (result x).
    - intros g rest x1 (before & l & Hg & Hl & Hr). apply wp_bind. eapply wp_mono; [apply target_summary_shows|].
      intros [t|e] x2 [Hx2 Ht]; cbn [then_wp].
      + apply wp_modify. exists (before ++ [g]), (l ++ [t]). rewrite <-app_assoc. split_and!; [done| |].
        * apply Forall2_app; [done|]. constructor; [by apply Ht|constructor].
        * subst recorded. cbn in *. by rewrite Hx2, Hr.
      + exists l. subst recorded. cbn in *. split; [congruence|]. right. by exists e.
    - intros x1 (before & l & Hg & Hl & Hr). rewrite app_nil_r in Hg. subst before. exists l. split; [done|]. by left. }
  apply wp_bind. unfold guarded. apply wp_try. eapply wp_mono; [exact Hloop|].
  intros y x1 (l & Hr & [[-> Hl]|[e ->]]).
  - apply wp_ret. split; [done|]. exists (case_status (result x)), (case_diagnostic (result x)), l.
    split_and!; [by rewrite Hr; destruct (result x)|done|by left].
  - eapply wp_mono; [apply stop_any; [done|done|by rewrite Hr]|].
    intros y x2 [-> (s & d & Hs & Hs' & Hx2)]. cbn. split; [done|]. exists s, d, []. cbn.
    split_and!; [by rewrite Hx2, Hr|done|by right].
Qed.

(** ** Whole cases *)

Lemma frames_ran_nil times : frames_ran times [].
Proof. split; [apply prefix_nil|]. exists []. by auto. Qed.

Lemma frames_ran_good l : Forall good_frame l → frames_ran (map summary_now l) l.
Proof. intros Hl. split; [done|]. exists l. auto. Qed.

Definition fresh_result : EvaluationCaseResult :=
  MkCaseResult (testcase_name tc) CaseStatus.Passed (len (frameTimes tc)) 0 "" [] [].

(** The result of a case that ran the frames [l]. *)
Lemma case_ran_with l s d fs :
  frames_ran (frameTimes tc) l → s ≠ CaseStatus.NotRun →
  (fs = [] ∨ Forall2 shows (run_grants run) fs) →
  (s = CaseStatus.Passed → Forall good_frame l ∧ map summary_now l = frameTimes tc ∧
    (frameTimes tc ≠ [] → Forall2 shows (run_grants run) fs)) →
  case_ran (run_grants run) tc (set_final fs (set_status s d (with_frames l fresh_result))).
Proof. intros Hl Hs Hf Hp. by split. Qed.

Lemma execute_result x :
  result x = fresh_result →
  wp (execute run tc) (λ y _, ∃ r, y = Ok r ∧ case_ran (run_grants run) tc r) x.
Proof.
  intros Hx. unfold execute. assert (running (result x)) as Hr by by rewrite Hx.
  assert (fresh_result = with_frames [] fresh_result) as Enil by done.
  apply wp_bind. eapply wp_mono.
  { assert (finishes eq eq (and_then (guarded "case factory" (prepare_case run tc))
      (and_then (guarded "isolated manifest" (check_manifest run tc))
        (guarded "granted effects" (check_granted_effects run))))) as Hm; [|by apply Hm].
    eapply finishes_mono; [repeat apply finishes_then|..].
    - by apply guarded_finishes; [apply prepare_quiet|].
    - by apply guarded_finishes; [apply check_manifest_quiet|].
    - by apply guarded_finishes; [apply check_granted_quiet|].
    - by intros r r' ? <-.
    - by intros r r' ? <-.
    - naive_solver.
    - naive_solver. }
  intros y x1 [[-> E1]|[-> (r & <- & (s & d & Hs & Hs' & E1))]]; cbn [then_wp].
  2:{ eapply wp_bind_eq; [reflexivity|]. eapply wp_bind_eq; [reflexivity|]. apply wp_ret. eexists. split; [done|].
      rewrite E1, Hx, Enil. apply (case_ran_with [] s d []); [apply frames_ran_nil|done|by left|done]. }
  apply wp_bind. apply wp_bind. rewrite E1 in Hr. rewrite Hx in E1.
  pose proof (run_frames_finishes (frameTimes tc) 0 x1 Hr) as Hf.
  pose proof (run_frames_leads (frameTimes tc) 0) as Hl. unfold leads, wp in Hl. unfold wp in Hf |- *.
  specialize (λ H, Hl H x1). destruct (run_frames tc 0 (frameTimes tc) x1) as [y x2]. cbn [fst snd] in *.
  assert (∃ l s d, result x2 = set_status s d (with_frames l fresh_result) ∧ frames_ran (frameTimes tc) l ∧
    s ≠ CaseStatus.NotRun ∧ (∃ b, y = Ok b) ∧ (s = CaseStatus.Passed → y = Ok true ∧ Forall good_frame l ∧
      map summary_now l = frameTimes tc)) as (l & s & d & E2 & Hran & Hs & (b & ->) & Hp).
  { destruct Hf as [[-> (l & Hg & Ht & E2)]|[-> (r & (l & Hran & Er) & (s & d & Hs & Hs' & E2))]].
    - exists l, CaseStatus.Passed, "". rewrite E2, <-E1. split_and!; try done; [|by exists true].
      rewrite <-Ht. by apply frames_ran_good.
    - exists l, s, d. rewrite E2, Er, <-E1. split_and!; try done. by exists false. }
  cbn [then_wp]. fold (wp (S := Execution) (A := unit)). clear Hf.
  eapply wp_bind_eq; [reflexivity|].
  destruct (present (prepared x2)) eqn:Ep.
  - eapply wp_mono; [apply capture_final; rewrite E2; done|].
    intros z x3 [-> (s' & d' & fs & E3 & Hs' & Hcase)]. cbn [then_wp].
    eapply wp_bind_eq; [reflexivity|]. apply wp_ret. eexists. split; [done|]. rewrite E3, E2.
    apply (case_ran_with l s' d' fs); [done|done|naive_solver|]. intros Hpass.
    destruct Hcase as [[Hfs Hst]|[_ Hst]]; [|done]. rewrite E2 in Hst. cbn in Hst.
    destruct Hp as (_ & ? & ?); [congruence|]. by split_and!.
  - cbn [then_wp]. eapply wp_bind_eq; [reflexivity|]. apply wp_ret. eexists. split; [done|].
    change (case_ran (run_grants run) tc (result x2)). rewrite E2. apply (case_ran_with l s d []); [done|done|by left|]. intros Hpass.
    destruct (Hp Hpass) as ([= ->] & ? & ?). split_and!; [done|done|]. intros Hne.
    by specialize (Hl Hne eq_refl).
Qed.
End Runs.

(** ** Worlds that reach the store by appending only *)

Section Encapsulation.
Context {P : Type}.

Definition appended (c c' : BoundedEvaluationStore * P) : Prop := appends c.1 c'.1.
#[export] Instance appended_preorder : PreOrder appended.
Proof. unfold appended. split; [intros c; reflexivity|intros a b c H1 H2; by etrans]. Qed.

Class PreparedWorldLaws `{PreparedWorld P} := {
  manifest_appends now : keeps appended (prepared_manifest now);
  deliver_appends a now : keeps appended (prepared_deliver a now);
  frame_appends now : keeps appended (prepared_run_frame now);
  snapshot_appends type name : keeps appended (prepared_snapshot type name)
}.

(** Callbacks that keep to it too. *)
Record appending `{PreparedWorld P} (tc : EvaluationCase (P := P)) : Prop := {
  ap_prepare f preparation : prepare tc = Some f → keeps appends (f preparation);
  ap_input f context : input tc = Some f → keeps appended (f context);
  ap_expect f context : expect tc = Some f → keeps appended (f context)
}.

Context `{PreparedWorldLaws}.
Context (run : EvaluationRun (P := P)) (tc : EvaluationCase (P := P)) (Htc : appending tc).
Abbreviation Execution := (CaseExecution (P := P)).

Definition recorded (x x' : Execution) : Prop := appends (store_of x) (store_of x').
#[export] Instance recorded_preorder : PreOrder recorded.
Proof. unfold recorded. split; [intros c; reflexivity|intros a b c H1 H2; by etrans]. Qed.

Lemma on_host_recorded {A} (m : stm (BoundedEvaluationStore * P) A) :
  keeps appended m → keeps recorded (on_host m).
Proof. intros Hm x. specialize (Hm (host x)). unfold on_host, zoom. by destruct (m (host x)). Qed.
Lemma modify_recorded (f : Execution → Execution) :
  (∀ x, host (f x) = host x) → keeps recorded (smodify f).
Proof. intros Hf x. unfold recorded, store_of. cbn. by rewrite Hf. Qed.
#[local] Hint Resolve on_host_recorded manifest_appends deliver_appends frame_appends snapshot_appends : keeps.
#[local] Hint Extern 1 (keeps recorded (smodify _)) => apply modify_recorded; done : keeps.

Lemma stop_recorded s d : keeps recorded (stop s d).
Proof. unfold stop. keep_steps. Qed.
#[local] Hint Resolve stop_recorded : keeps.
Lemma guarded_recorded what m : keeps recorded m → keeps recorded (guarded what m).
Proof. intros Hm. unfold guarded. keep_steps. Qed.
Lemma and_then_recorded m k : keeps recorded m → keeps recorded k → keeps recorded (and_then (P := P) m k).
Proof. intros Hm Hk. unfold and_then. keep_steps. Qed.

Lemma prepare_recorded : keeps recorded (prepare_case run tc).
Proof.
  unfold prepare_case. apply keeps_bind; [apply _|keep_steps|]. intros x0. cbv zeta.
  apply keeps_bind; [apply _| |intros []; keep_steps].
  apply on_host_recorded. intros c. destruct (prepare tc) as [f|] eqn:Ef; [|done].
  pose proof (ap_prepare tc Htc f (MkPreparation (run_source run) (run_grants run) (testcase_inputs tc)
    (testcase_adapters tc) (testcase_timing tc)) Ef c.1) as Hp.
  by destruct (f _ c.1) as [[p|e] s].
Qed.
Lemma check_addresses_recorded l declared : keeps recorded (check_addresses run declared l).
Proof.
  revert declared. induction l as [|a l IH]; intros declared; cbn [check_addresses]; keep_steps.
Qed.
Lemma unchanged_recorded before what : keeps recorded (unchanged_frame (P := P) before what).
Proof. unfold unchanged_frame. keep_steps. Qed.
Lemma deliver_recorded now l : keeps recorded (deliver_all (P := P) now l).
Proof. induction l as [|[a|] l IH]; cbn [deliver_all]; keep_steps. Qed.
#[local] Hint Resolve guarded_recorded and_then_recorded prepare_recorded check_addresses_recorded
  unchanged_recorded deliver_recorded : keeps.

Lemma check_frame_recorded frame i : keeps recorded (check_frame (P := P) frame i).
Proof. unfold check_frame. cbv zeta. keep_steps. Qed.
#[local] Hint Resolve check_frame_recorded : keeps.

Lemma observe_recorded i now : keeps recorded (observe (P := P) i now).
Proof.
  unfold observe, lifecycle_result, collect_records, summarize, push_summary. cbv zeta. keep_steps.
Qed.

Lemma run_frame_recorded i now : keeps recorded (run_frame_at tc i now).
Proof.
  unfold run_frame_at. repeat apply and_then_recorded; try apply guarded_recorded.
  - unfold apply_input. destruct (input tc) as [f|] eqn:Ef; [|keep_steps].
    pose proof (λ c, ap_input tc Htc f c Ef). keep_steps.
  - unfold deliver. keep_steps.
  - unfold advance, push_summary. keep_steps.
  - apply observe_recorded.
  - unfold check_expectation. cbv zeta. destruct (expect tc) as [f|] eqn:Ef.
    + pose proof (λ c, ap_expect tc Htc f c Ef). unfold mark_assertion. keep_steps.
    + unfold mark_assertion. keep_steps.
Qed.

Lemma run_frames_recorded times i : keeps recorded (run_frames tc i times).
Proof.
  revert i. induction times as [|now times IH]; intros i; cbn [run_frames]; [keep_steps|].
  apply and_then_recorded; [apply run_frame_recorded|apply IH].
Qed.

Lemma capture_recorded : keeps recorded (capture_final_state run).
Proof.
  unfold capture_final_state. apply keeps_bind; [apply _| |intros ?; keep_steps].
  apply guarded_recorded, keeps_bind; [apply _| |intros ?; keep_steps].
  apply keeps_for; [apply _|]. intros g. unfold target_summary. cbv zeta. keep_steps.
Qed.
#[local] Hint Resolve run_frames_recorded capture_recorded : keeps.

Lemma execute_recorded : keeps recorded (execute run tc).
Proof.
  unfold execute, check_manifest, check_granted_effects. cbv zeta. keep_steps.
Qed.
End Encapsulation.
