(* ===== verification/EvaluationSuites.v ===== *)
(** * Whole evaluations

    [run_evaluation] always returns, its cases run in order up to the first that
    does not pass, and worlds that reach the store only by appending leave a
    trace whose size is what the shared budget charged. *)
From stdpp Require Import pretty.
From S2P Require Import Prelude OrderedMap Values Hoare Effects Events EventStore Adapters Ids Components LuaSchema LuaManifest LuaRunner Runtime EvaluationTypes EvaluationAccounting EvaluationStore EvaluationTrace EvaluationManifest EvaluationCase EvaluationRuns.

Section Suites.
Context {P : Type} `{PreparedWorld P}.
Implicit Types (run : EvaluationRun (P := P)) (l : list (EvaluationCase (P := P))).

(** The host is constructed for each case; it never refuses. *)
Lemma new_execution (tc : EvaluationCase (P := P)) b :
  ∃ x, new_CaseExecution tc b = Ok x ∧ result x = fresh_result tc ∧
    new_BoundedEvaluationStore (Events.MkMetadata EvaluationSessionId "0.1.0" (testcase_timing tc) 1
      currentFileFormatVersion) b = Ok (store_of x).
Proof.
  unfold new_CaseExecution, new_BoundedEvaluationStore, new_MemoryEventStore.
  assert (validate_metadata (Events.MkMetadata EvaluationSessionId "0.1.0" (testcase_timing tc) 1
    currentFileFormatVersion) = Ok tt) as -> by by apply validate_metadata_ok.
  cbn. by eexists.
Qed.

Lemma run_cases_stopped run l i b o :
  outcome_status o ≠ EvaluationStatus.Passed →
  run_cases run i l b o = Ok (b, MkOutcome (outcome_status o) (outcome_cases o ++ map not_run l)
    (outcome_trace o) (storeBytes o)).
Proof.
  revert i o. induction l as [|tc l IH]; intros i o Ho; cbn [run_cases map].
  { rewrite app_nil_r. by destruct o. }
  destruct (decide _) as [|_]; [done|]. rewrite IH by done. cbn. by rewrite <-app_assoc.
Qed.

Lemma record_status_passed s : record_status_of s = EvaluationStatus.Passed ↔ s = CaseStatus.Passed.
Proof. by destruct s. Qed.

(** One round of the loop *)
Lemma run_cases_cons run tc l i b o :
  outcome_status o = EvaluationStatus.Passed →
  ∃ x r x', new_CaseExecution tc b = Ok x ∧ execute run tc x = (Ok r, x') ∧ case_ran (run_grants run) tc r ∧
    run_cases run i (tc :: l) b o = run_cases run (i + 1) l (budget (store_of x'))
      (MkOutcome (record_status_of (case_status r)) (outcome_cases o ++ [r])
        (append_trace i (store_read_all (store_of x')) (outcome_trace o)) (storeBytes o)).
Proof.
  intros Ho. destruct (new_execution tc b) as (x & Ex & Hx & _).
  pose proof (execute_result run tc x Hx) as Hr. unfold wp in Hr.
  destruct (execute run tc x) as [y x'] eqn:E. cbn in Hr. destruct Hr as (r & -> & Hr).
  exists x, r, x'. split_and!; [done|done|done|]. cbn [run_cases].
  destruct (decide _) as [_|]; [|done]. rewrite Ex. unfold mbind at 1, res_bind. cbv beta iota. by rewrite E.
Qed.

Lemma run_cases_suite run l i b o :
  outcome_status o = EvaluationStatus.Passed →
  ∃ b' o' rs, run_cases run i l b o = Ok (b', o') ∧ outcome_cases o' = outcome_cases o ++ rs ∧
    suite_ran (run_grants run) l rs (outcome_status o').
Proof.
  revert i b o. induction l as [|tc l IH]; intros i b o Ho.
  { exists b, o, []. cbn. rewrite app_nil_r, Ho. split_and!; [done|done|constructor]. }
  destruct (run_cases_cons run tc l i b o Ho) as (x & r & x' & _ & _ & Hr & ->).
  destruct (decide (case_status r = CaseStatus.Passed)) as [Hp|Hp].
  - destruct (IH (i + 1) (budget (store_of x')) (MkOutcome (record_status_of (case_status r)) (outcome_cases o ++ [r])
      (append_trace i (store_read_all (store_of x')) (outcome_trace o)) (storeBytes o)))
      as (b' & o' & rs & -> & Ec & Hs); [cbn; by rewrite Hp|].
    exists b', o', (r :: rs). split_and!; [done| |by constructor]. cbn in Ec. by rewrite Ec, <-app_assoc.
  - rewrite run_cases_stopped by (cbn; by rewrite record_status_passed).
    eexists _, _, (r :: map not_run l). split; [reflexivity|]. cbn [outcome_cases outcome_status].
    rewrite <-app_assoc. split; [done|by constructor].
Qed.

Lemma run_evaluation_ran run o :
  run_evaluation run = Ok o →
  suite_ran (run_grants run) (suite_cases (run_suite run)) (outcome_cases o) (outcome_status o).
Proof.
  unfold run_evaluation.
  destruct (run_cases_suite run (suite_cases (run_suite run)) 0
    (MkBudget (maxEvaluationRecords (run_limits run)) (maxEvaluationRecordBytes (run_limits run)) 0 0 false)
    (MkOutcome EvaluationStatus.Passed [] [] 0)) as (b & o' & rs & -> & Ec & Hs); [done|].
  intros [= <-]. cbn [outcome_cases outcome_status]. by rewrite Ec.
Qed.

(** C30. An evaluation always has an outcome, whatever the worlds and callbacks of
    its cases do, and it means what it says: the cases ran in order up to the
    first that did not pass, the rest is reported as not run, and the overall
    status is that of the case that stopped it.  A case says that it passed only
    if every scheduled frame ran to completion, in order, with a successful
    lifecycle run and a confirmed expectation, and each grant that reads shows
    its final value. *)
Theorem evaluation_means_what_it_says run :
  ∃ o, run_evaluation run = Ok o ∧
    suite_ran (run_grants run) (suite_cases (run_suite run)) (outcome_cases o) (outcome_status o).
Proof.
  unfold run_evaluation.
  destruct (run_cases_suite run (suite_cases (run_suite run)) 0
    (MkBudget (maxEvaluationRecords (run_limits run)) (maxEvaluationRecordBytes (run_limits run)) 0 0 false)
    (MkOutcome EvaluationStatus.Passed [] [] 0)) as (b & o & rs & -> & Ec & Hs); [done|].
  eexists. split; [reflexivity|]. cbn [outcome_cases outcome_status]. by rewrite Ec.
Qed.
End Suites.

(** ** The budget *)

Section Budget.
Context {P : Type} `{PreparedWorldLaws P}.
Implicit Types (run : EvaluationRun (P := P)) (l : list (EvaluationCase (P := P))).

(** The trace so far is what the budget was charged for. *)
Record accounted (b : EvaluationRunBudget) (trace : list EvaluationTraceEntry) : Prop := {
  ac_ok : budget_ok b;
  ac_records : budget_records b = len trace;
  ac_bytes : budget_bytes b = sum_of trace_size trace
}.

Lemma append_trace_len case (l : list EventRecord) : len (append_trace case l []) = len l.
Proof.
  destruct (trace_entries case l) as (o & _ & Hl). unfold len. by rewrite (Forall2_length _ _ _ Hl).
Qed.

Lemma case_charged run (tc : EvaluationCase (P := P)) i b trace x r x' :
  appending tc → accounted b trace → new_CaseExecution tc b = Ok x → execute run tc x = (r, x') →
  let store := store_of x' in
  accounted (budget store) (append_trace i (store_read_all store) trace) ∧
  maxRecords (budget store) = maxRecords b ∧ maxBytes (budget store) = maxBytes b.
Proof.
  intros Htc [Hok Hr Hb] Ex E. destruct (new_execution tc b) as (x0 & E0 & _ & Es). rewrite E0 in Ex.
  injection Ex as ->. destruct (new_bounded_charged _ _ _ Hok Es) as (Hc & Hbud & _).
  pose proof (execute_recorded run tc Htc x) as Ha. rewrite E in Ha. cbn in Ha.
  destruct (appends_charged _ _ _ _ Ha Hc) as [[_ Hok' Hr' Hb'] [Hm1 Hm2 _ _]].
  rewrite Hbud in Hm1, Hm2. split; [|done]. rewrite append_trace_app. split; [done|..].
  - rewrite len_app, append_trace_len, Hr', Hr. done.
  - rewrite sum_of_app, append_trace_size, Hb', Hb. done.
Qed.

Lemma run_cases_accounted run l i b o b' o' :
  Forall appending l →
  accounted b (outcome_trace o) → run_cases run i l b o = Ok (b', o') →
  accounted b' (outcome_trace o') ∧ maxRecords b' = maxRecords b ∧ maxBytes b' = maxBytes b.
Proof.
  intros Hl. revert i b o. induction Hl as [|tc l Htc Hl IH]; intros i b o Hb.
  { by intros [= <- <-]. }
  destruct (decide (outcome_status o = EvaluationStatus.Passed)) as [Ho|Ho].
  - destruct (run_cases_cons run tc l i b o Ho) as (x & r & x' & Ex & E & _ & ->).
    destruct (case_charged run tc i b (outcome_trace o) x (Ok r) x' Htc Hb Ex E) as (Hb' & <- & <-).
    by apply IH.
  - rewrite run_cases_stopped by done. by intros [= <- <-].
Qed.

Lemma new_budget_accounted limits :
  maxEvaluationRecords limits < u64_max → maxEvaluationRecordBytes limits < u64_max →
  accounted (MkBudget (maxEvaluationRecords limits) (maxEvaluationRecordBytes limits) 0 0 false) [].
Proof. intros Hr Hb. by split; [split; cbn; lia|..]. Qed.

Lemma evaluation_accounted run o :
  maxEvaluationRecords (run_limits run) < u64_max → maxEvaluationRecordBytes (run_limits run) < u64_max →
  Forall appending (suite_cases (run_suite run)) → run_evaluation run = Ok o →
  storeBytes o = sum_of trace_size (outcome_trace o) ∧
  storeBytes o <= maxEvaluationRecordBytes (run_limits run) ∧
  len (outcome_trace o) <= maxEvaluationRecords (run_limits run).
Proof.
  intros Hr Hb Hl. unfold run_evaluation.
  destruct (run_cases _ _ _ _ _) as [[b o']|e] eqn:E; [|done]. unfold mbind, res_bind.
  intros [= <-]. cbn [storeBytes outcome_trace].
  destruct (run_cases_accounted _ _ _ _ (MkOutcome EvaluationStatus.Passed [] [] 0) _ _ Hl
    (new_budget_accounted (run_limits run) Hr Hb) E)
    as ([[H1 H2 _] Hrec Hby] & Hm1 & Hm2). cbn in Hm1, Hm2.
  rewrite <-Hrec, <-Hby, <-Hm1, <-Hm2. by split_and!.
Qed.

(** C29. Where worlds and callbacks reach the evidence store only by appending, the
    whole trace of an evaluation, all its cases together, stays within the
    record and byte limits of the run, and the bytes that the outcome reports
    are exactly the size of that trace. *)
Theorem evidence_within_budget run :
  maxEvaluationRecords (run_limits run) < u64_max → maxEvaluationRecordBytes (run_limits run) < u64_max →
  Forall appending (suite_cases (run_suite run)) →
  ∃ o, run_evaluation run = Ok o ∧
    storeBytes o = sum_of trace_size (outcome_trace o) ∧
    storeBytes o <= maxEvaluationRecordBytes (run_limits run) ∧
    len (outcome_trace o) <= maxEvaluationRecords (run_limits run).
Proof.
  intros Hr Hb Hl.
  destruct (run_cases_suite run (suite_cases (run_suite run)) 0
    (MkBudget (maxEvaluationRecords (run_limits run)) (maxEvaluationRecordBytes (run_limits run)) 0 0 false)
    (MkOutcome EvaluationStatus.Passed [] [] 0)) as (b & o & rs & E & _ & _); [done|].
  eassert (run_evaluation run = Ok _) as Eo by (unfold run_evaluation; rewrite E; reflexivity).
  eexists. split; [exact Eo|]. by apply evaluation_accounted.
Qed.
End Budget.

(** ** A world that records the frames it runs *)

Definition evaluated (n : N) : FrameResult :=
  MkFrameResult (MkFrameLog n n true [] 0 0 0 0 [] "" "" "") [] [] [].

(** A manifest of the grants, whose components have the slot generation [g]. *)
Definition sample_manifest (g : N) (grants : list LuaScopeGrant) (now : IntentTime) : LuaCapabilityManifest :=
  MkManifest now
    (map (λ gr, MkCapability (grant_scriptTypeName gr) (grant_componentName gr) "" (grant_mode gr) "" None None None) grants)
    (set_entries (imap (λ i gr, MkEntry 0 (if String.eqb (grant_scriptTypeName gr) "Script" then 9 else 7)
      (MkHandle (N.of_nat i) g 1)) grants) (new_scope_capture 1 1 default_limits))
    (64 * len grants).
Definition sample_grants : list LuaScopeGrant := [MkGrant "Label" "lamp" Read].

#[export] Instance sample_world : PreparedWorld (option N) := {
  not_prepared := None;
  present p := bool_decide (is_Some p);
  prepared_frame p := default 0 p;
  prepared_faulted _ := false;
  prepared_grantedEffects _ := [];
  prepared_adapters _ := [];
  prepared_manifest now := mret (inl (sample_manifest 0 sample_grants now));
  prepared_deliver _ _ := mret tt;
  prepared_run_frame now := zoom fst (λ s c, (s, c.2)) (
    store_append_batch [MkEventData EventType.FrameStarted 1 (VObject [("now", VUnsigned now)]);
      MkEventData EventType.FrameCompleted 1 (VObject [("now", VUnsigned now)])] Buffered);;
    smodify (λ c, (c.1, N.succ <$> c.2));; mret (evaluated now);
  prepared_last_result _ := Ok (Some (MkExecutionResult LuaExecutionStatus.Success "" [] [] []));
  prepared_intents _ := Ok [];
  prepared_snapshot _ _ := mret (Some (LBool true))
}.

#[export] Instance sample_world_laws : PreparedWorldLaws (P := option N).
Proof.
  split; try (intros; intros c; apply rtc_refl).
  intros now c. cbn [prepared_run_frame sample_world]. unfold mbind, stm_bind, zoom.
  pose proof (appended_batch [MkEventData EventType.FrameStarted 1 (VObject [("now", VUnsigned now)]);
      MkEventData EventType.FrameCompleted 1 (VObject [("now", VUnsigned now)])] Buffered c.1) as Ha.
  cbn [store_append_batch BoundedEvaluationStore_store].
  destruct (bounded_append_batch _ _ c.1) as [[ids|e] s]; cbn [snd] in Ha; apply rtc_once, Ha.
Qed.

Definition sample_case (name : string) (times : list IntentTime) : EvaluationCase (P := option N) :=
  MkCase name VNull times Deferred [] (Some (λ _, mret (Some 0))) None
    (Some (λ context, mret (MkAssertion (context_now context <? 9) "too late"))).

Lemma sample_case_appending name times : appending (sample_case name times).
Proof. split; cbn; try done; intros ? ? [= <-] s; apply rtc_refl. Qed.

Definition sample_suite : EvaluationSuite (P := option N) :=
  MkSuite (MkFixture "lamp" 1) [sample_case "early" [1; 2]; sample_case "late" [8; 9; 10]; sample_case "after" [1]].
Definition sample_run : EvaluationRun (P := option N) :=
  MkRun sample_suite "intent()" sample_grants (sample_manifest 0 sample_grants 0) default_AuthoringLimits.

Lemma evidence_within_budget_witness :
  ∃ o, run_evaluation sample_run = Ok o ∧ outcome_status o = EvaluationStatus.Failed ∧
    map case_status (outcome_cases o) = [CaseStatus.Passed; CaseStatus.Failed; CaseStatus.NotRun] ∧
    len (outcome_trace o) = 8 ∧ storeBytes o = sum_of trace_size (outcome_trace o) ∧ storeBytes o = 664.
Proof.
  destruct (evidence_within_budget sample_run) as (o & E & Hs & _).
  - by vm_compute.
  - by vm_compute.
  - repeat constructor; apply sample_case_appending.
  - assert (option_map (λ o, (outcome_status o, map case_status (outcome_cases o), len (outcome_trace o), storeBytes o))
      (match run_evaluation sample_run with Ok o => Some o | Err _ => None end) =
      Some (EvaluationStatus.Failed, [CaseStatus.Passed; CaseStatus.Failed; CaseStatus.NotRun], 8, 664)) as Eo
      by by vm_compute.
    rewrite E in Eo. cbn in Eo. injection Eo as E1 E2 E3 E4. exists o. by split_and!.
Defined.
