(* ===== verification/AuthoringChecks.v ===== *)
(** * What an authoring session accepts
    (src/authoring/AuthoringSession.cpp: the functions before [Impl], and
     [AuthoringSessionId]; AuthoringError and AuthoringResult of
     include/liquid/authoring/Types.hpp)

    Diagnostics, texts, limits, evaluation suites, and the charges of captures. *)
From stdpp Require Import pretty.
From S2P Require Import Prelude OrderedMap Values Effects Events Adapters Ids Components LuaSchema LuaManifest LuaRunner EvaluationTypes EvaluationAccounting EvaluationCase.

Module AuthoringErrorCode.
Inductive code :=
| InvalidInput | NotFound | AccessDenied | StaleScope | StaleApproval | Unsupported
| LimitExceeded | EvaluationFailed | HostError | NeedsIntervention.
#[export] Instance code_eq_dec : EqDecision code.
Proof. solve_decision. Defined.
End AuthoringErrorCode.
Export (hints) AuthoringErrorCode.

Record AuthoringError := MkAuthoringError {
  error_code : AuthoringErrorCode.code;
  error_diagnostic : string;
  fieldPath : option string
}.
Abbreviation AuthoringResult A := (A + AuthoringError)%type.

(** [make_error]; the third argument is the field path. *)
Definition make_error (code : AuthoringErrorCode.code) (message : string) (path : option string)
  : AuthoringError :=
  let message := if String.eqb message "" then "authoring request failed" else message in
  let pathBytes := match path with Some p => slen p | None => 0 end in
  let budget := if pathBytes <? AuthoringMaxDiagnosticBytes
    then AuthoringMaxDiagnosticBytes - pathBytes else 0 in
  MkAuthoringError code (truncated message budget) path.

(** ** Texts *)

Module Text.
Definition lead (lead : N) : option (nat * N) :=
  if (0xC2 <=? lead) && (lead <=? 0xDF) then Some (2%nat, N.land lead 0x1F)
  else if (0xE0 <=? lead) && (lead <=? 0xEF) then Some (3%nat, N.land lead 0x0F)
  else if (0xF0 <=? lead) && (lead <=? 0xF4) then Some (4%nat, N.land lead 0x07)
  else None.

(** The loop over [offset]; [None] is [return false]. *)
Fixpoint continuation (count : nat) (codePoint : N) (rest : list byte) : option (N * list byte) :=
  match count, rest with
  | O, _ => Some (codePoint, rest)
  | S _, [] => None
  | S count, next :: rest =>
      let next := Byte.to_N next in
      if negb (N.land next 0xC0 =? 0x80) then None
      else continuation count (N.lor (N.shiftl codePoint 6) (N.land next 0x3F)) rest
  end.

Definition bad_code_point (length : nat) (codePoint : N) : bool :=
  ((length =? 3)%nat && (codePoint <? 0x800)) || ((length =? 4)%nat && (codePoint <? 0x10000)) ||
  (0x10FFFF <? codePoint) || ((0xD800 <=? codePoint) && (codePoint <=? 0xDFFF)).

(** The loop over [index]; [rest] is the text from there on. *)
Fixpoint utf8_loop (fuel : nat) (rest : list byte) : bool :=
  match fuel, rest with
  | _, [] => true
  | O, _ => false
  | S fuel, b :: behind =>
      let first := Byte.to_N b in
      if first <? 0x80 then utf8_loop fuel behind
      else match lead first with
      | None => false
      | Some (count, codePoint) =>
          if (length rest <? count)%nat then false
          else match continuation (count - 1) codePoint behind with
          | None => false
          | Some (codePoint, behind) =>
              if bad_code_point count codePoint then false else utf8_loop fuel behind
          end
      end
  end.

Definition valid_utf8 (text : string) : bool :=
  let bytes := list_byte_of_string text in utf8_loop (length bytes) bytes.
End Text.

Definition check_text (text : string) (maxBytes : N) (required : bool) (path : string)
  : option AuthoringError :=
  let refuse message := Some (make_error AuthoringErrorCode.InvalidInput (path +:+ message) (Some path)) in
  if required && String.eqb text "" then refuse " must not be empty"
  else if maxBytes <? slen text then refuse (" exceeds " +:+ pretty maxBytes +:+ " bytes")
  else if has_nul text then refuse " contains a NUL byte"
  else if negb (Text.valid_utf8 text) then refuse " is not valid UTF-8"
  else None.

Definition grant_path (index : N) : string := "grants[" +:+ pretty index +:+ "]".

(** ** Identifiers and limits *)

Definition checked_next (last max : N) : option N :=
  if max <=? last then None else Some (last + 1).

Definition same_entry (a b : Entry) : bool :=
  (bindingIndex a =? bindingIndex b) && (entry_type a =? entry_type b) &&
  bool_decide (entry_slot a = entry_slot b).
Definition same_entries (left right : LuaManifestCapture) : bool :=
  let a := capturedEntries left in
  let b := capturedEntries right in
  (runnerId left =? runnerId right) && (len a =? len b) && forallb (λ p, same_entry p.1 p.2) (zip a b).

Definition valid_limits (limits : AuthoringLimits) : bool :=
  let defaults := default_AuthoringLimits in
  forallb (λ f : AuthoringLimits → N, negb ((f limits =? 0) || (f defaults <? f limits)))
    [maxActiveScopes; maxProposals; maxEvaluations; maxManagedBehaviors; authoring_maxSourceBytes;
     maxRationaleBytes; maxScopeCapabilities; maxLabelBytes; maxManifestBytes; maxEvaluationCases;
     maxEvaluationFrames; maxEvaluationRecords; maxEvaluationRecordBytes; maxEvaluationResponseBytes;
     maxSessionPayloadBytes] &&
  negb (maxIdValue limits =? 0).

Definition AuthoringSessionIdDigit (c : ascii) : bool :=
  let n := N_of_ascii c in
  ((48 <=? n) && (n <=? 57)) || ((97 <=? n) && (n <=? 102)).
(** [AuthoringSessionId::from_hex]; an identifier is its digits. *)
Definition from_hex (text : string) : AuthoringResult string :=
  let refused := inr (make_error AuthoringErrorCode.InvalidInput
    "session id must be exactly 32 lowercase hexadecimal digits" None) in
  if negb (slen text =? AuthoringSessionIdHexDigits) then refused
  else if negb (forallb AuthoringSessionIdDigit (list_ascii_of_string text)) then refused
  else inl text.

(** ** Suites *)

(** [std::is_sorted] *)
Fixpoint is_sorted (l : list N) : bool :=
  match l with
  | a :: (b :: _) as l => negb (b <? a) && is_sorted l
  | _ => true
  end.

Definition int64_max : N := 9223372036854775807.

Section Suites.
Context {P : Type}.

Definition check_case (c : EvaluationCase (P := P)) (limits : AuthoringLimits) (path : string)
  : option AuthoringError :=
  let refuse code message at_ := Some (make_error code message (Some (path +:+ at_))) in
  match check_text (testcase_name c) (maxLabelBytes limits) true (path +:+ ".name") with
  | Some error => Some error
  | None =>
      if negb (bool_decide (is_Some (prepare c)) && bool_decide (is_Some (expect c))) then
        refuse AuthoringErrorCode.InvalidInput "a case requires prepare and expect callbacks" ""
      else
        let times := frameTimes c in
        if bool_decide (times = []) then
          refuse AuthoringErrorCode.InvalidInput "a case requires at least one frame time" ".frameTimes"
        else if maxEvaluationFrames limits <? len times then
          refuse AuthoringErrorCode.LimitExceeded "case exceeds the frame limit" ".frameTimes"
        else if negb (is_sorted times) then
          refuse AuthoringErrorCode.InvalidInput "frame times must be nondecreasing" ".frameTimes"
        else if int64_max <? default 0 (last times) then
          refuse AuthoringErrorCode.InvalidInput "frame time is outside the signed 64-bit range" ".frameTimes"
        else None
  end.

(** The loop over the cases from [index] on. *)
Fixpoint check_cases (l : list (EvaluationCase (P := P))) (limits : AuthoringLimits) (index : N)
  : option AuthoringError :=
  match l with
  | [] => None
  | c :: l =>
      match check_case c limits ("cases[" +:+ pretty index +:+ "]") with
      | Some error => Some error
      | None => check_cases l limits (index + 1)
      end
  end.

Definition check_suite (suite : EvaluationSuite (P := P)) (limits : AuthoringLimits)
  : option AuthoringError :=
  match check_text (stableName (suite_id suite)) (maxLabelBytes limits) true "id.stableName" with
  | Some error => Some error
  | None =>
      if fixture_version (suite_id suite) =? 0 then
        Some (make_error AuthoringErrorCode.InvalidInput "fixture version must be nonzero" (Some "id.version"))
      else if bool_decide (suite_cases suite = []) then
        Some (make_error AuthoringErrorCode.InvalidInput "a suite requires at least one case" (Some "cases"))
      else if maxEvaluationCases limits <? len (suite_cases suite) then
        Some (make_error AuthoringErrorCode.LimitExceeded "suite exceeds the case limit" (Some "cases"))
      else check_cases (suite_cases suite) limits 0
  end.
End Suites.

(** ** Captures *)

Definition CaptureFixedBytes : N :=
  7 * Payload.LogicalElementBytes + 5 * Payload.LogicalScalarBytes +
  (11 + 1) * Payload.LogicalElementBytes + 11 * Payload.LogicalScalarBytes +
  1 * Payload.LogicalFlagBytes.
Definition CaptureEntryBytes : N :=
  Payload.LogicalElementBytes + 3 * (Payload.LogicalElementBytes + Payload.LogicalScalarBytes).

Definition capture_bytes (capture : LuaManifestCapture) : N :=
  saturating_sum (λ _, CaptureEntryBytes) (capturedEntries capture) CaptureFixedBytes.

(** ** Lemmas *)

(** The diagnostic and its path fit together. *)
Lemma make_error_fits code message path :
  let e := make_error code message path in
  let pathBytes := match fieldPath e with Some p => slen p | None => 0 end in
  pathBytes + 3 <= AuthoringMaxDiagnosticBytes →
  slen (error_diagnostic e) + pathBytes <= AuthoringMaxDiagnosticBytes.
Proof.
  cbv zeta. unfold make_error. cbv zeta. cbn [fieldPath error_diagnostic]. intros Hp.
  set (n := match path with Some p => slen p | None => 0 end) in *.
  destruct (N.ltb_spec n AuthoringMaxDiagnosticBytes) as [Hlt|Hge]; [|lia].
  match goal with |- context [truncated ?m ?b] => pose proof (truncated_length m b) end. lia.
Qed.

Lemma text_valid_utf8 text : Text.valid_utf8 text = LuaSchema.valid_utf8 text.
Proof.
  unfold Text.valid_utf8, LuaSchema.valid_utf8. generalize (length (list_byte_of_string text)).
  generalize (list_byte_of_string text). intros l fuel. revert l.
  assert (∀ n c l, Text.continuation n c l = continue_sequence n c l) as Hc.
  { induction n as [|n IH]; intros c [|b l]; cbn; try done. }
  induction fuel as [|fuel IH]; intros [|b l]; cbn -[N.ltb N.leb Nat.ltb]; try done.
  rewrite IH. change (Text.lead (Byte.to_N b)) with (lead_length (Byte.to_N b)).
  destruct (Byte.to_N b <? 0x80); [done|]. destruct (lead_length _) as [[n c]|]; [|done].
  destruct (_ <? n)%nat; [done|]. rewrite Hc. destruct (continue_sequence _ _ _) as [[p k]|]; [|done].
  rewrite IH. unfold Text.bad_code_point.
  by destruct (n =? 3)%nat, (n =? 4)%nat, (p <? 0x800), (p <? 0x10000), (0x10ffff <? p),
    (0xd800 <=? p), (p <=? 0xdfff).
Qed.

Lemma checked_next_Some last max n : checked_next last max = Some n ↔ n = last + 1 ∧ n <= max.
Proof.
  unfold checked_next. destruct (N.leb_spec max last); split; try done; [lia|intros [= <-]; lia|].
  intros [-> _]. done.
Qed.

Lemma capture_bytes_le c : capture_bytes c <= u64_max.
Proof. by apply saturating_sum_le. Qed.

Lemma valid_limits_spec limits :
  valid_limits limits = true ↔
  Forall (λ f : AuthoringLimits → N, 0 < f limits <= f default_AuthoringLimits)
    [maxActiveScopes; maxProposals; maxEvaluations; maxManagedBehaviors; authoring_maxSourceBytes;
     maxRationaleBytes; maxScopeCapabilities; maxLabelBytes; maxManifestBytes; maxEvaluationCases;
     maxEvaluationFrames; maxEvaluationRecords; maxEvaluationRecordBytes; maxEvaluationResponseBytes;
     maxSessionPayloadBytes] ∧ 0 < maxIdValue limits.
Proof.
  unfold valid_limits. rewrite andb_true_iff, forallb_forall, Forall_forall, negb_true_iff, N.eqb_neq.
  split; intros [Hl Hi]; (split; [|lia]); intros f Hf.
  - specialize (Hl f (proj1 (list_elem_of_In _ _) Hf)). apply negb_true_iff, orb_false_iff in Hl as [H1 H2]. lia.
  - apply list_elem_of_In in Hf. specialize (Hl f Hf). apply negb_true_iff, orb_false_iff. lia.
Qed.

(** The entries that two captures agree on. *)
Lemma same_entries_spec left right :
  same_entries left right = true ↔
  runnerId left = runnerId right ∧ capturedEntries left = capturedEntries right.
Proof.
  unfold same_entries. rewrite !andb_true_iff, N.eqb_eq, N.eqb_eq. unfold len.
  assert (∀ a b : Entry, same_entry a b = true ↔ a = b) as He.
  { intros [i t s] [i' t' s']. unfold same_entry. cbn. rewrite !andb_true_iff, !N.eqb_eq, bool_decide_eq_true.
    naive_solver. }
  split.
  - intros [[Hr Hl] Hz]. split; [done|]. apply Nat2N.inj in Hl. revert Hl Hz.
    generalize (capturedEntries left), (capturedEntries right). intros a.
    induction a as [|x a IH]; intros [|y b] Hl; try done. cbn. rewrite andb_true_iff, He. intros [-> Hz].
    f_equal. apply IH; [by injection Hl|done].
  - intros [-> ->]. split; [done|]. rewrite forallb_forall. intros [x y] Hin. cbn. apply He.
    apply list_elem_of_In in Hin. revert Hin. generalize (capturedEntries right). intros l.
    induction l as [|z l IH]; cbn; [by intros ?%elem_of_nil|]. rewrite elem_of_cons. naive_solver.
Qed.
