(* ===== verification/AuthoringSession.v ===== *)
(** * Authoring sessions
    (include/liquid/authoring/AuthoringSession.hpp,
     src/authoring/AuthoringSession.cpp)

    A session lets callers discover what a scope grants and submit proposals of
    scripts for it, which the host evaluates.  [ScopeHost] is what a session asks
    of the live world and its runner; [Authoring] is a session with that host. *)
From stdpp Require Import pretty.
From S2P Require Import Prelude OrderedMap Values Hoare Effects Events EventStore Adapters Ids Components LuaSchema LuaManifest LuaRunner Runtime EvaluationTypes EvaluationAccounting EvaluationStore EvaluationTrace EvaluationTotals EvaluationManifest EvaluationCase AuthoringChecks.

Class ScopeHost (H : Type) := {
  host_scope_manifest : list LuaScopeGrant → IntentTime → stm H LuaManifestResult;
  host_scope_targets : list LuaScopeGrant → stm H (option (list LuaScopeTarget));
  host_instance_id : stm H N;
  host_component_type : ComponentType → stm H ComponentTypeId
}.

Record ScopeView := MkScopeView {
  view_scope : ScopeId;
  view_revision : ScopeRevision;
  view_manifest : LuaCapabilityManifest
}.

Record CallerContext := MkCaller { caller_session : string; caller_owner : string }.

Record ProposalSubmission := MkSubmission {
  submission_scope : ScopeId;
  expectedScopeRevision : ScopeRevision;
  submission_source : string;
  submission_rationale : string;
  managedBehavior : option N;
  expectedManagedRevision : option N
}.

Record ManagedRevisionExpectation := MkManaged { managed_behavior : N; managed_expectedRevision : N }.

Record BehaviorProposal := MkProposal {
  proposal_id : ProposalId;
  proposal_session : string;
  proposal_scope : ScopeId;
  proposal_scopeRevision : ScopeRevision;
  contractVersion : string;
  proposal_source : string;
  proposal_rationale : string;
  managed : option ManagedRevisionExpectation
}.

Record EvaluationTrace := MkTrace { trace_evaluation : EvaluationId; trace_entries : list EvaluationTraceEntry }.

(** ** [AuthoringSession::Impl] *)

Record ScopeRecord := MkScopeRecord {
  scope_owner : string;
  scope_grants : list LuaScopeGrant;
  scope_revision : ScopeRevision;
  scope_capture : LuaManifestCapture;
  scope_targets : list LuaScopeTarget;
  payloadCharge : N
}.

Record Admission := MkAdmission {
  admission_manifest : LuaCapabilityManifest;
  admission_targets : list LuaScopeTarget
}.

Record ProposalRecord := MkProposalRecord {
  record_of_proposal : BehaviorProposal;
  proposal_owner : string;
  proposal_capture : LuaManifestCapture
}.

Inductive CaptureStage := AdmissionStage | Recapture.

Record EvaluationEntry := MkEvaluationEntry {
  entry_record : EvaluationRecord;
  entry_trace : list EvaluationTraceEntry
}.

Record EvaluationReservation := MkReservation { reservation_id : N; reservation_bytes : N }.

(** [map.emplace(key, value)] *)
Definition map_emplace {K} `{Countable K} {A} (k : K) (a : A) (m : gmap K A) : gmap K A :=
  match m !! k with Some _ => m | None => <[k := a]> m end.

(** Sums and differences of [std::size_t] *)
Definition size_add (a b : N) : N := wrap 64 (a + b).
Definition size_sub (a b : N) : N := wrap 64 (a + 2 ^ 64 - b).

Section Session.
Context {H : Type} `{ScopeHost H} {P : Type} `{PreparedWorld P}.

Record EvaluationTicket := MkTicket {
  ticket_proposal : BehaviorProposal;
  ticket_grants : list LuaScopeGrant;
  ticket_suite : EvaluationSuite (P := P);
  ticket_manifest : LuaCapabilityManifest;
  ticket_id : N;
  ticket_reservation : N
}.

Record Impl := MkImpl {
  impl_id : string;
  impl_limits : AuthoringLimits;
  scriptType : ComponentType;
  lastNow : option IntentTime;
  lastScope : N;
  lastProposal : N;
  scopes : gmap ScopeId ScopeRecord;
  proposals : gmap ProposalId ProposalRecord;
  suites : gmap EvaluationFixtureId (EvaluationSuite (P := P));
  lastEvaluation : N;
  evaluations : gmap EvaluationId EvaluationEntry;
  sessionPayloadBytes : N
}.
Implicit Types s : Impl.

Definition set_lastNow n s : Impl :=
  MkImpl (impl_id s) (impl_limits s) (scriptType s) n (lastScope s) (lastProposal s) (scopes s)
    (proposals s) (suites s) (lastEvaluation s) (evaluations s) (sessionPayloadBytes s).
Definition set_lastScope n s : Impl :=
  MkImpl (impl_id s) (impl_limits s) (scriptType s) (lastNow s) n (lastProposal s) (scopes s)
    (proposals s) (suites s) (lastEvaluation s) (evaluations s) (sessionPayloadBytes s).
Definition set_lastProposal n s : Impl :=
  MkImpl (impl_id s) (impl_limits s) (scriptType s) (lastNow s) (lastScope s) n (scopes s)
    (proposals s) (suites s) (lastEvaluation s) (evaluations s) (sessionPayloadBytes s).
Definition set_scopes m s : Impl :=
  MkImpl (impl_id s) (impl_limits s) (scriptType s) (lastNow s) (lastScope s) (lastProposal s) m
    (proposals s) (suites s) (lastEvaluation s) (evaluations s) (sessionPayloadBytes s).
Definition set_proposals m s : Impl :=
  MkImpl (impl_id s) (impl_limits s) (scriptType s) (lastNow s) (lastScope s) (lastProposal s) (scopes s)
    m (suites s) (lastEvaluation s) (evaluations s) (sessionPayloadBytes s).
Definition set_suites m s : Impl :=
  MkImpl (impl_id s) (impl_limits s) (scriptType s) (lastNow s) (lastScope s) (lastProposal s) (scopes s)
    (proposals s) m (lastEvaluation s) (evaluations s) (sessionPayloadBytes s).
Definition set_lastEvaluation n s : Impl :=
  MkImpl (impl_id s) (impl_limits s) (scriptType s) (lastNow s) (lastScope s) (lastProposal s) (scopes s)
    (proposals s) (suites s) n (evaluations s) (sessionPayloadBytes s).
Definition set_evaluations m s : Impl :=
  MkImpl (impl_id s) (impl_limits s) (scriptType s) (lastNow s) (lastScope s) (lastProposal s) (scopes s)
    (proposals s) (suites s) (lastEvaluation s) m (sessionPayloadBytes s).
Definition set_payload n s : Impl :=
  MkImpl (impl_id s) (impl_limits s) (scriptType s) (lastNow s) (lastScope s) (lastProposal s) (scopes s)
    (proposals s) (suites s) (lastEvaluation s) (evaluations s) n.

(** A session with the runtime and the runner it refers to *)
Record Authoring := MkAuthoring { session : Impl; live : H }.
Definition set_session s (a : Authoring) : Authoring := MkAuthoring s (live a).
Definition set_live h (a : Authoring) : Authoring := MkAuthoring (session a) h.
Definition on_live {A} : stm H A → stm Authoring A := zoom live set_live.
Definition update (f : Impl → Impl) : stm Authoring unit := smodify (λ a, set_session (f (session a)) a).

(** ** Results

    [AuthoringResult<T>] is a value or an error, which most callers pass on. *)

Definition fail {A} (code : AuthoringErrorCode.code) (message : string) (path : option string)
  : stm Authoring (AuthoringResult A) := mret (inr (make_error code message path)).
(** [if (optional error) return error;] *)
Definition check_then {A} (error : option AuthoringError) (k : stm Authoring (AuthoringResult A))
  : stm Authoring (AuthoringResult A) :=
  match error with Some e => mret (inr e) | None => k end.
(** [if (!result.ok()) return result.error();] *)
Definition reply_bind {A B} (m : stm Authoring (AuthoringResult A))
    (f : A → stm Authoring (AuthoringResult B)) : stm Authoring (AuthoringResult B) :=
  x ← m; match x with inl a => f a | inr e => mret (inr e) end.

(** ** Charges *)

Definition scope_charge (owner : string) (grants : list LuaScopeGrant) (admission : Admission) : N :=
  let bytes := saturating_add (5 * Payload.LogicalElementBytes + Payload.LogicalScalarBytes) (slen owner) in
  let bytes := foldl (λ bytes g,
    let bytes := saturating_add bytes
      (Payload.LogicalElementBytes + 3 * Payload.LogicalElementBytes + Payload.LogicalScalarBytes) in
    let bytes := saturating_add bytes (slen (grant_scriptTypeName g)) in
    saturating_add bytes (slen (grant_componentName g))) bytes grants in
  let bytes := saturating_sum (λ _, Payload.LogicalElementBytes +
    2 * (Payload.LogicalElementBytes + Payload.LogicalScalarBytes)) (admission_targets admission) bytes in
  let bytes := saturating_add bytes (capture_bytes (captureData (admission_manifest admission))) in
  saturating_add bytes (manifest_logicalBytes (admission_manifest admission)).

Definition proposal_charge (record : ProposalRecord) : N :=
  let p := record_of_proposal record in
  let bytes := (3 + 8) * Payload.LogicalElementBytes + 4 * Payload.LogicalScalarBytes +
    Payload.LogicalFlagBytes in
  let bytes := match managed p with
    | Some _ => bytes + 2 * (Payload.LogicalElementBytes + Payload.LogicalScalarBytes)
    | None => bytes
    end in
  let bytes := saturating_sum slen
    [contractVersion p; proposal_source p; proposal_rationale p; proposal_owner record] bytes in
  saturating_add bytes (capture_bytes (proposal_capture record)).

Definition payload_fits s (released charge : N) : bool :=
  let retained := size_sub (sessionPayloadBytes s) released in
  charge <=? size_sub (maxSessionPayloadBytes (impl_limits s)) retained.

(** ** Checks *)

Definition check_time s (now : IntentTime) : option AuthoringError :=
  if int64_max <? now then
    Some (make_error AuthoringErrorCode.InvalidInput "time is outside the signed 64-bit range" (Some "now"))
  else match lastNow s with
  | Some previous =>
      if now <? previous then
        Some (make_error AuthoringErrorCode.InvalidInput "time moved backwards" (Some "now"))
      else None
  | None => None
  end.

(** The loop over the grants from [index] on. *)
Fixpoint check_grant_texts (limits : AuthoringLimits) (index : N) (l : list LuaScopeGrant)
  : option AuthoringError :=
  match l with
  | [] => None
  | g :: l =>
      let path := grant_path index in
      match check_text (grant_scriptTypeName g) (maxLabelBytes limits) true path with
      | Some error => Some error
      | None =>
          match check_text (grant_componentName g) (maxLabelBytes limits) true path with
          | Some error => Some error
          | None => check_grant_texts limits (index + 1) l
          end
      end
  end.

Definition check_grants s (grants : list LuaScopeGrant) : option AuthoringError :=
  if bool_decide (grants = []) then
    Some (make_error AuthoringErrorCode.InvalidInput "a scope requires at least one grant" (Some "grants"))
  else if maxScopeCapabilities (impl_limits s) <? len grants then
    Some (make_error AuthoringErrorCode.LimitExceeded "scope exceeds the grant limit" (Some "grants"))
  else check_grant_texts (impl_limits s) 0 grants.

Definition capture_error (error : LuaManifestError) (stage : CaptureStage) : AuthoringError :=
  make_error
    (match manifest_code error with
     | LimitExceeded => AuthoringErrorCode.LimitExceeded
     | InvalidGrant =>
         match stage with
         | AdmissionStage => AuthoringErrorCode.InvalidInput
         | Recapture => AuthoringErrorCode.StaleScope
         end
     | SchemaMismatch =>
         match stage with
         | AdmissionStage => AuthoringErrorCode.InvalidInput
         | Recapture => AuthoringErrorCode.HostError
         end
     | InvalidBehavior | SnapshotUnavailable | HostError => AuthoringErrorCode.HostError
     end)
    (manifest_diagnostic error) None.

(** ** Captures *)

Definition resolve_targets (grants : list LuaScopeGrant) (unresolved : AuthoringErrorCode.code)
    (message : string) : stm Authoring (AuthoringResult (list LuaScopeTarget)) :=
  stry (targets ← on_live (host_scope_targets grants);
        match targets with
        | None => fail unresolved message (Some "scope")
        | Some targets => mret (inl targets)
        end)
    (λ e, fail AuthoringErrorCode.HostError (what_or "unknown scope target host error" e) None).

(** The first grant of a capability, by the loop over [grants] *)
Fixpoint grant_index (c : LuaManifestCapability) (index : N) (grants : list LuaScopeGrant) : option N :=
  match grants with
  | [] => None
  | g :: grants =>
      if String.eqb (grant_scriptTypeName g) (scriptTypeName c) &&
         String.eqb (grant_componentName g) (componentName c)
      then Some index else grant_index c (index + 1) grants
  end.

(** The loop over the entries of a manifest, which has as many capabilities. *)
Fixpoint script_exposed (type : ComponentTypeId) (grants : list LuaScopeGrant)
    (capabilities : list LuaManifestCapability) (entries : list Entry) : option AuthoringError :=
  match entries with
  | [] => None
  | e :: entries =>
      if negb (entry_type e =? type) then script_exposed type grants (tail capabilities) entries
      else Some (make_error AuthoringErrorCode.InvalidInput
        "script-control components are never exposed to an authoring scope"
        (Some match head capabilities ≫= λ c, grant_index c 0 grants with
              | Some grant => grant_path grant
              | None => "grants"
              end))
  end.

Definition admit_scope (grants : list LuaScopeGrant) (now : IntentTime)
  : stm Authoring (AuthoringResult Admission) :=
  result ← on_live (host_scope_manifest grants now);
  a ← sget;
  let s := session a in
  match result with
  | inr e => mret (inr (capture_error e AdmissionStage))
  | inl manifest =>
      check_then (script_exposed (type_id (scriptType s)) grants (manifest_entries manifest)
        (capturedEntries (captureData manifest))) (
      if maxManifestBytes (impl_limits s) <? manifest_logicalBytes manifest then
        fail AuthoringErrorCode.LimitExceeded "scope manifest exceeds the session manifest limit" (Some "grants")
      else
        reply_bind (resolve_targets grants AuthoringErrorCode.HostError
          "scope targets changed during admission") (λ targets,
        mret (inl (MkAdmission manifest targets))))
  end.

Definition stale {A} : stm Authoring (AuthoringResult A) :=
  fail AuthoringErrorCode.StaleScope "a scope target was removed or recreated" (Some "scope").

Definition recapture (record : ScopeRecord) (now : IntentTime)
  : stm Authoring (AuthoringResult LuaCapabilityManifest) :=
  reply_bind (resolve_targets (scope_grants record) AuthoringErrorCode.StaleScope
    "a scope target was removed or recreated") (λ targets,
  if negb (bool_decide (targets = scope_targets record)) then stale
  else
    result ← on_live (host_scope_manifest (scope_grants record) now);
    a ← sget;
    match result with
    | inr e => mret (inr (capture_error e Recapture))
    | inl manifest =>
        if negb (same_entries (captureData manifest) (scope_capture record)) then stale
        else if maxManifestBytes (impl_limits (session a)) <? manifest_logicalBytes manifest then
          fail AuthoringErrorCode.LimitExceeded "scope manifest exceeds the session manifest limit" (Some "scope")
        else mret (inl manifest)
    end).

Definition owned_scope s (caller : CallerContext) (scope : ScopeId) : option ScopeRecord :=
  if negb (String.eqb (caller_session caller) (impl_id s)) then None
  else match scopes s !! scope with
  | Some record => if String.eqb (scope_owner record) (caller_owner caller) then Some record else None
  | None => None
  end.

(** ** The constructor *)

Definition new_AuthoringSession (id : string) (type : ComponentType) (limits : AuthoringLimits)
  : stm H Impl :=
  (if type_id type =? InvalidComponentTypeId then
     sthrow invalid_argument "authoring session script type does not belong to this World"
   else
     instance ← host_instance_id;
     sreject_if (negb (type_world type =? instance)) invalid_argument
       "authoring session script type does not belong to this World");;
  stry (host_component_type type;; mret tt) (λ e,
    if decide (exn_kind e = unknown_exception) then slift (Err e)
    else sthrow invalid_argument
      "authoring session script type is not a current LuaBehaviorScript type of this World");;
  sreject_if (negb (valid_limits limits)) invalid_argument
    "authoring session limits must be nonzero and within the contract defaults";;
  mret (MkImpl id limits type None 0 0 ∅ ∅ ∅ 0 ∅ 0).

(** ** Scopes *)

Definition create_scope (owner : string) (grants : list LuaScopeGrant) (now : IntentTime)
  : stm Authoring (AuthoringResult ScopeView) :=
  a ← sget;
  let s := session a in
  check_then (check_time s now) (
  check_then (check_text owner (maxLabelBytes (impl_limits s)) true "owner") (
  check_then (check_grants s grants) (
  if maxActiveScopes (impl_limits s) <=? N.of_nat (size (scopes s)) then
    fail AuthoringErrorCode.LimitExceeded "session has no free active scope slot" None
  else match checked_next (lastScope s) (maxIdValue (impl_limits s)) with
  | None => fail AuthoringErrorCode.LimitExceeded "session scope id counter is exhausted" None
  | Some issued =>
      reply_bind (admit_scope grants now) (λ admission,
      let charge := scope_charge owner grants admission in
      if negb (payload_fits s 0 charge) then
        fail AuthoringErrorCode.LimitExceeded "scope exceeds the session payload ceiling" None
      else
        update (λ s, set_scopes (map_emplace issued (MkScopeRecord owner grants 1
          (captureData (admission_manifest admission)) (admission_targets admission) charge) (scopes s)) s);;
        update (λ s, set_payload (size_add (sessionPayloadBytes s) charge) s);;
        update (set_lastScope issued);;
        update (set_lastNow (Some now));;
        mret (inl (MkScopeView issued 1 (admission_manifest admission))))
  end))).

Definition no_scope {A} : stm Authoring (AuthoringResult A) :=
  fail AuthoringErrorCode.NotFound "scope does not exist" (Some "scope").
Definition not_current {A} (path : string) : stm Authoring (AuthoringResult A) :=
  fail AuthoringErrorCode.StaleScope "expected scope revision is not current" (Some path).

Definition replace_scope (scope : ScopeId) (expectedRevision : ScopeRevision)
    (grants : list LuaScopeGrant) (now : IntentTime) : stm Authoring (AuthoringResult ScopeView) :=
  a ← sget;
  let s := session a in
  match scopes s !! scope with
  | None => no_scope
  | Some record =>
      check_then (check_time s now) (
      if negb (scope_revision record =? expectedRevision) then not_current "expectedRevision"
      else
        check_then (check_grants s grants) (
        match checked_next (scope_revision record) u64_max with
        | None => fail AuthoringErrorCode.LimitExceeded "scope revision counter is exhausted" (Some "scope")
        | Some revision =>
            reply_bind (admit_scope grants now) (λ admission,
            let charge := scope_charge (scope_owner record) grants admission in
            if negb (payload_fits s (payloadCharge record) charge) then
              fail AuthoringErrorCode.LimitExceeded
                "replacement scope exceeds the session payload ceiling" (Some "grants")
            else
              let retained := size_add (size_sub (sessionPayloadBytes s) (payloadCharge record)) charge in
              update (λ s, set_scopes (<[scope := MkScopeRecord (scope_owner record) grants revision
                (captureData (admission_manifest admission)) (admission_targets admission) charge]>
                (scopes s)) s);;
              update (set_payload retained);;
              update (set_lastNow (Some now));;
              mret (inl (MkScopeView scope revision (admission_manifest admission))))
        end))
  end.

Definition revoke_scope (scope : ScopeId) (expectedRevision : ScopeRevision)
  : stm Authoring (AuthoringResult unit) :=
  a ← sget;
  let s := session a in
  match scopes s !! scope with
  | None => no_scope
  | Some record =>
      if negb (scope_revision record =? expectedRevision) then not_current "expectedRevision"
      else
        update (λ s, set_payload (size_sub (sessionPayloadBytes s) (payloadCharge record)) s);;
        update (λ s, set_scopes (delete scope (scopes s)) s);;
        mret (inl tt)
  end.

Definition no_scope_for_caller {A} : stm Authoring (AuthoringResult A) :=
  fail AuthoringErrorCode.NotFound "scope does not exist for this caller" (Some "scope").

Definition discover (caller : CallerContext) (scope : ScopeId) (now : IntentTime)
  : stm Authoring (AuthoringResult ScopeView) :=
  a ← sget;
  let s := session a in
  match owned_scope s caller scope with
  | None => no_scope_for_caller
  | Some record =>
      check_then (check_time s now) (
      reply_bind (recapture record now) (λ captured,
      update (set_lastNow (Some now));;
      mret (inl (MkScopeView scope (scope_revision record) captured))))
  end.

(** ** Proposals *)

Definition submit (caller : CallerContext) (submission : ProposalSubmission)
  : stm Authoring (AuthoringResult ProposalId) :=
  a ← sget;
  let s := session a in
  let limits := impl_limits s in
  match owned_scope s caller (submission_scope submission) with
  | None => no_scope_for_caller
  | Some record =>
      if negb (scope_revision record =? expectedScopeRevision submission) then
        not_current "expectedScopeRevision"
      else
        let sourceLimit := N.min (authoring_maxSourceBytes limits)
          (maxSourceBytes (effectiveLimits (scope_capture record))) in
        check_then (check_text (submission_source submission) sourceLimit true "source") (
        check_then (check_text (submission_rationale submission) (maxRationaleBytes limits) false "rationale") (
        if xorb (bool_decide (is_Some (managedBehavior submission)))
          (bool_decide (is_Some (expectedManagedRevision submission))) then
          fail AuthoringErrorCode.InvalidInput
            "managed behavior and expected managed revision must be supplied together"
            (Some (if bool_decide (is_Some (managedBehavior submission))
                   then "expectedManagedRevision" else "managedBehavior"))
        else if bool_decide (is_Some (managedBehavior submission)) then
          fail AuthoringErrorCode.NotFound "managed behavior does not exist in this scope" (Some "managedBehavior")
        else if maxProposals limits <=? N.of_nat (size (proposals s)) then
          fail AuthoringErrorCode.LimitExceeded "session proposal capacity is exhausted" None
        else match checked_next (lastProposal s) (maxIdValue limits) with
        | None => fail AuthoringErrorCode.LimitExceeded "session proposal id counter is exhausted" None
        | Some issued =>
            let candidate := MkProposalRecord
              (MkProposal issued (impl_id s) (submission_scope submission) (scope_revision record)
                LuaAuthoringContract (submission_source submission) (submission_rationale submission) None)
              (scope_owner record) (scope_capture record) in
            let charge := proposal_charge candidate in
            if negb (payload_fits s 0 charge) then
              fail AuthoringErrorCode.LimitExceeded "proposal exceeds the session payload ceiling" None
            else
              reply_bind (recapture record (default 0 (lastNow s))) (λ _,
              update (λ s, set_proposals (map_emplace issued candidate (proposals s)) s);;
              update (λ s, set_payload (size_add (sessionPayloadBytes s) charge) s);;
              update (set_lastProposal issued);;
              mret (inl issued))
        end))
  end.

Definition no_proposal {A} : stm Authoring (AuthoringResult A) :=
  fail AuthoringErrorCode.NotFound "proposal does not exist for this caller" (Some "proposal").

(** A proposal of the caller *)
Definition owned_proposal s (caller : CallerContext) (proposal : ProposalId) : option ProposalRecord :=
  if negb (String.eqb (caller_session caller) (impl_id s)) then None
  else match proposals s !! proposal with
  | Some record => if String.eqb (proposal_owner record) (caller_owner caller) then Some record else None
  | None => None
  end.

Definition proposal (caller : CallerContext) (id : ProposalId)
  : stm Authoring (AuthoringResult BehaviorProposal) :=
  a ← sget;
  match owned_proposal (session a) caller id with
  | None => no_proposal
  | Some record => mret (inl (record_of_proposal record))
  end.

(** ** Evaluations *)

Definition EvaluationEntryBytes : N := 2 * Payload.LogicalElementBytes.

Definition evaluation_reservation s (fixture : EvaluationFixtureId) : N :=
  let bytes := saturating_add EvaluationEntryBytes (record_header_bytes (stableName fixture)) in
  let bytes := saturating_add bytes (maxEvaluationResponseBytes (impl_limits s)) in
  saturating_add bytes (maxEvaluationRecordBytes (impl_limits s)).

Definition reserve_evaluation s (fixture : EvaluationFixtureId) : AuthoringResult EvaluationReservation :=
  let refused message := inr (make_error AuthoringErrorCode.LimitExceeded message None) in
  if maxEvaluations (impl_limits s) <=? N.of_nat (size (evaluations s)) then
    refused "session evaluation capacity is exhausted"
  else match checked_next (lastEvaluation s) (maxIdValue (impl_limits s)) with
  | None => refused "session evaluation id counter is exhausted"
  | Some issued =>
      let bytes := evaluation_reservation s fixture in
      if negb (payload_fits s 0 bytes) then
        refused "evaluation reservation exceeds the session payload limit"
      else inl (MkReservation issued bytes)
  end.

Definition register_evaluation_suite (suite : EvaluationSuite (P := P))
  : stm Authoring (AuthoringResult unit) :=
  a ← sget;
  let s := session a in
  if negb (lastProposal s =? 0) || negb (bool_decide (proposals s = ∅)) then
    fail AuthoringErrorCode.Unsupported
      "evaluation suites register only before the first accepted proposal" None
  else if bool_decide (is_Some (suites s !! suite_id suite)) then
    fail AuthoringErrorCode.InvalidInput "evaluation fixture id is already registered" (Some "id")
  else
    check_then (check_suite suite (impl_limits s)) (
    update (λ s, set_suites (map_emplace (suite_id suite) suite (suites s)) s);;
    mret (inl tt)).

(** The outcome of [run_evaluation], empty where it throws *)
Definition evaluation_outcome s (ticket : EvaluationTicket) : EvaluationOutcome :=
  match run_evaluation (MkRun (ticket_suite ticket) (proposal_source (ticket_proposal ticket))
    (ticket_grants ticket) (ticket_manifest ticket) (impl_limits s)) with
  | Ok outcome => outcome
  | Err _ => new_EvaluationOutcome
  end.

Definition keep_evaluation (ticket : EvaluationTicket) (fixture : EvaluationFixtureId)
  : stm Authoring EvaluationRecord :=
  a ← sget;
  let s := session a in
  let outcome := evaluation_outcome s ticket in
  let p := ticket_proposal ticket in
  let record := MkEvaluationRecord (ticket_id ticket) (impl_id s) (proposal_id p) (proposal_scope p)
    (proposal_scopeRevision p) fixture (outcome_status outcome) true (outcome_cases outcome) in
  let '(responseBytes, record) := bound_response record (maxEvaluationResponseBytes (impl_limits s)) in
  let charge := saturating_add (saturating_add EvaluationEntryBytes responseBytes) (storeBytes outcome) in
  update (λ s, set_evaluations (map_emplace (record_id record)
    (MkEvaluationEntry record (outcome_trace outcome)) (evaluations s)) s);;
  update (λ s, set_payload (size_sub (sessionPayloadBytes s)
    (size_sub (ticket_reservation ticket) charge)) s);;
  mret record.

Definition admit_evaluation (caller : CallerContext) (id : ProposalId) (fixture : EvaluationFixtureId)
  : stm Authoring (AuthoringResult EvaluationTicket) :=
  a ← sget;
  let s := session a in
  match owned_proposal s caller id with
  | None => no_proposal
  | Some found =>
      match suites s !! fixture with
      | None => fail AuthoringErrorCode.NotFound "evaluation fixture is not registered" (Some "fixture")
      | Some suite =>
          let record := record_of_proposal found in
          let revoked := fail AuthoringErrorCode.StaleScope
            "proposal scope was revoked or replaced" (Some "scope") in
          match scopes s !! proposal_scope record with
          | None => revoked
          | Some scope =>
              if negb (scope_revision scope =? proposal_scopeRevision record) then revoked
              else match reserve_evaluation s fixture with
              | inr e => mret (inr e)
              | inl reserved =>
                  reply_bind (recapture scope (default 0 (lastNow s))) (λ captured,
                  mret (inl (MkTicket record (scope_grants scope) suite captured
                    (reservation_id reserved) (reservation_bytes reserved))))
              end
          end
      end
  end.

Definition evaluate (caller : CallerContext) (id : ProposalId) (fixture : EvaluationFixtureId)
  : stm Authoring (AuthoringResult EvaluationRecord) :=
  admitted ← stry (admit_evaluation caller id fixture) (λ e,
    fail AuthoringErrorCode.HostError (what_or "unknown evaluation admission host error" e) None);
  match admitted with
  | inr e => mret (inr e)
  | inl ticket =>
      update (set_lastEvaluation (ticket_id ticket));;
      update (λ s, set_payload (size_add (sessionPayloadBytes s) (ticket_reservation ticket)) s);;
      stry (kept ← keep_evaluation ticket fixture; mret (inl kept)) (λ _,
        update (λ s, set_payload (size_sub (sessionPayloadBytes s) (ticket_reservation ticket)) s);;
        fail AuthoringErrorCode.HostError "evaluation result could not be kept" None)
  end.

Definition no_evaluation {A} : stm Authoring (AuthoringResult A) :=
  fail AuthoringErrorCode.NotFound "evaluation does not exist" (Some "evaluation").

Definition normalized_trace (id : EvaluationId) : stm Authoring (AuthoringResult EvaluationTrace) :=
  a ← sget;
  match evaluations (session a) !! id with
  | None => no_evaluation
  | Some found => mret (inl (MkTrace id (entry_trace found)))
  end.

(** [AuthoringSession::world_totals], which may throw *)
Definition session_world_totals (id : EvaluationId) : stm Authoring (AuthoringResult EvaluationWorldTotals) :=
  a ← sget;
  match evaluations (session a) !! id with
  | None => no_evaluation
  | Some found => totals ← slift (world_totals (entry_record found) (entry_trace found)); mret (inl totals)
  end.
End Session.
