(* ===== verification/AuthoringSpec.v ===== *)
(** * What a session asks of its host, and what its calls commit

    [ScopeHostLaws] is the promise of a host: captures and resolutions leave the
    world alone, and agree with each other.  [asks] and [replies] follow the calls
    of a session step by step.  Every call either replies with an error and leaves
    the session alone, or replies with a value and has committed exactly what the
    lemmas of the last section say. *)
From S2P Require Import Prelude OrderedMap Values Hoare Effects Events EventStore Adapters Ids Components LuaSchema LuaManifest LuaRunner Runtime EvaluationTypes EvaluationAccounting EvaluationStore EvaluationTrace EvaluationTotals EvaluationManifest EvaluationCase AuthoringChecks AuthoringSession.

(** ** Hosts *)

Definition entry_target (e : Entry) : LuaScopeTarget := MkScopeTarget (entry_type e) (entry_slot e).

(** A manifest shows the targets, each once. *)
Definition shows_targets (m : LuaCapabilityManifest) (targets : list LuaScopeTarget) : Prop :=
  map entry_target (capturedEntries (captureData m)) ≡ₚ targets.

Class ScopeHostLaws (H : Type) `{ScopeHost H} (usable : H → Prop) (same_world : relation H) := {
  same_world_preorder :: PreOrder same_world;
  manifest_law grants now h : usable h →
    let h' := (host_scope_manifest grants now h).2 in
    usable h' ∧ same_world h h' ∧
    ∃ r, (host_scope_manifest grants now h).1 = Ok r ∧ ∀ m, r = inl m →
      nowMs m = now ∧ ∃ targets, host_scope_targets grants h' = (Ok (Some targets), h') ∧
        shows_targets m targets;
  targets_law grants h : usable h → (host_scope_targets grants h).2 = h
}.

Section Asking.
Context {H : Type} {usable : H → Prop} {same_world : relation H} `{ScopeHostLaws H usable same_world} {P : Type} `{PreparedWorld P}.
Abbreviation Authoring := (AuthoringSession.Authoring (H := H) (P := P)).
Implicit Types a : Authoring.

(** ** Calls *)

(** The session is as it was; a value satisfies [Q]. *)
Definition asks {A} (m : stm Authoring (AuthoringResult A)) (Q : A → Authoring → Prop) a : Prop :=
  usable (live a) →
  wp m (λ y a', usable (live a') ∧ same_world (live a) (live a') ∧ session a' = session a ∧
    ∃ r, y = Ok r ∧ ∀ v, r = inl v → Q v a') a.

(** A value satisfies [Q]; otherwise the session is as it was. *)
Definition replies {A} (m : stm Authoring (AuthoringResult A)) (Q : A → Authoring → Prop) a : Prop :=
  usable (live a) →
  wp m (λ y a', usable (live a') ∧ same_world (live a) (live a') ∧
    ∃ r, y = Ok r ∧ match r with inl v => Q v a' | inr _ => session a' = session a end) a.

Lemma asks_fail {A} code msg path (Q : A → Authoring → Prop) a : asks (fail code msg path) Q a.
Proof. intros Hv. split_and!; [done|reflexivity|done|]. by eexists. Qed.

Lemma asks_error {A} e (Q : A → Authoring → Prop) a : asks (mret (inr e)) Q a.
Proof. intros Hv. split_and!; [done|reflexivity|done|]. by eexists. Qed.

Lemma asks_value {A} v (Q : A → Authoring → Prop) a : Q v a → asks (mret (inl v)) Q a.
Proof. intros HQ Hv. split_and!; [done|reflexivity|done|]. exists (inl v). split; [done|]. by intros ? [= <-]. Qed.

Lemma asks_check {A} e (k : stm Authoring (AuthoringResult A)) Q a :
  (e = None → asks k Q a) → asks (check_then e k) Q a.
Proof. destruct e; cbn; intros Hk; [apply asks_error|by apply Hk]. Qed.

Lemma asks_bind {A B} (m : stm Authoring (AuthoringResult A)) (f : A → stm Authoring (AuthoringResult B)) Q Q' a :
  asks m Q a →
  (∀ v a', Q v a' → session a' = session a → asks (f v) Q' a') →
  asks (reply_bind m f) Q' a.
Proof.
  intros Hm Hf Hv. unfold reply_bind. apply wp_bind. eapply wp_mono; [by apply Hm|].
  intros y a' (Hv' & Hw & Hs & r & -> & Hr). cbn. destruct r as [v|e].
  - eapply wp_mono; [by apply (Hf v a' (Hr v eq_refl) Hs)|]. cbn.
    intros y a2 (Hv2 & Hw2 & Hs2 & r2 & -> & Hr2). split_and!; [done|by etrans|congruence|]. by exists r2.
  - split_and!; [done|done|done|]. by exists (inr e).
Qed.

Lemma replies_asks {A} (m : stm Authoring (AuthoringResult A)) Q a :
  asks m Q a → replies m Q a.
Proof.
  intros Hm Hv. eapply wp_mono; [by apply Hm|]. cbn. intros y a' (Hv' & Hw & Hs & r & -> & Hr).
  split_and!; [done|done|]. exists r. split; [done|]. destruct r; auto.
Qed.

Lemma replies_fail {A} code msg path (Q : A → Authoring → Prop) a : replies (fail code msg path) Q a.
Proof. apply replies_asks, asks_fail. Qed.
Lemma replies_error {A} e (Q : A → Authoring → Prop) a : replies (mret (inr e)) Q a.
Proof. apply replies_asks, asks_error. Qed.

Lemma replies_check {A} e (k : stm Authoring (AuthoringResult A)) Q a :
  (e = None → replies k Q a) → replies (check_then e k) Q a.
Proof. destruct e; cbn; intros Hk; [apply replies_error|by apply Hk]. Qed.

Lemma replies_bind {A B} (m : stm Authoring (AuthoringResult A)) (f : A → stm Authoring (AuthoringResult B)) Q Q' a :
  asks m Q a →
  (∀ v a', Q v a' → session a' = session a → usable (live a') → replies (f v) Q' a') →
  replies (reply_bind m f) Q' a.
Proof.
  intros Hm Hf Hv. unfold reply_bind. apply wp_bind. eapply wp_mono; [by apply Hm|].
  intros y a' (Hv' & Hw & Hs & r & -> & Hr). cbn. destruct r as [v|e].
  - eapply wp_mono; [by apply (Hf v a' (Hr v eq_refl) Hs Hv')|]. cbn.
    intros y a2 (Hv2 & Hw2 & r2 & -> & Hr2). split_and!; [done|by etrans|].
    exists r2. split; [done|]. destruct r2; [done|congruence].
  - split_and!; [done|done|]. by exists (inr e).
Qed.

(** A last update of the session *)
Lemma replies_done {A} (v : A) (Q : A → Authoring → Prop) a a' :
  live a' = live a → Q v a' → (replies (λ _, (Ok (inl v), a')) Q a).
Proof. intros El HQ Hv. unfold wp. cbn. rewrite El. split_and!; [done|reflexivity|]. by exists (inl v). Qed.

(** ** What the host is asked *)

Lemma asks_targets grants code msg a :
  asks (resolve_targets grants code msg) (λ targets a', a' = a ∧
    host_scope_targets grants (live a) = (Ok (Some targets), live a)) a.
Proof.
  intros Hv. unfold resolve_targets, wp, stry, mbind, stm_bind, on_live, zoom.
  pose proof (targets_law grants (live a) Hv) as Ht.
  destruct (host_scope_targets grants (live a)) as [[[t|]|e] h]; cbn in Ht; subst h; cbn;
    (assert (set_live (live a) a = a) as -> by by destruct a);
    (split_and!; [done|reflexivity|done|]); eexists; (split; [reflexivity|]); try done.
  by intros v [= <-].
Qed.

(** What admission found out. *)
Record admitted (grants : list LuaScopeGrant) (now : IntentTime) (x : Admission) a : Prop := {
  ad_now : nowMs (admission_manifest x) = now;
  ad_targets : host_scope_targets grants (live a) = (Ok (Some (admission_targets x)), live a);
  ad_shown : shows_targets (admission_manifest x) (admission_targets x);
  ad_script : Forall (λ t, scope_type t ≠ type_id (scriptType (session a))) (admission_targets x);
  ad_size : manifest_logicalBytes (admission_manifest x) <= maxManifestBytes (impl_limits (session a))
}.

Lemma script_exposed_None type grants capabilities entries :
  script_exposed type grants capabilities entries = None →
  Forall (λ t, scope_type t ≠ type) (map entry_target entries).
Proof.
  revert capabilities. induction entries as [|e entries IH]; intros capabilities; cbn; [constructor|].
  destruct (N.eqb_spec (entry_type e) type); cbn; [done|]. intros Hr. constructor; [done|]. by eapply IH.
Qed.

Lemma asks_manifest {A} grants now (f : LuaManifestResult → stm Authoring (AuthoringResult A)) Q a :
  (∀ r a', session a' = session a →
    (∀ m, r = inl m → nowMs m = now ∧ ∃ targets,
      host_scope_targets grants (live a') = (Ok (Some targets), live a') ∧ shows_targets m targets) →
    asks (f r) Q a') →
  asks (r ← on_live (host_scope_manifest grants now); f r) Q a.
Proof.
  intros Hf Hv. apply wp_bind. unfold wp at 1, on_live, zoom.
  destruct (manifest_law grants now (live a) Hv) as (Hv' & Hw & r & Hr & Hm).
  destruct (host_scope_manifest grants now (live a)) as [y h]. cbn [fst snd] in *. subst y. cbn [then_wp].
  eapply wp_mono; [apply (Hf r (set_live h a)); done|]. cbn.
  intros y a2 (Hv2 & Hw2 & Hs2 & r2 & -> & Hr2). split_and!; [done|by etrans|done|]. by exists r2.
Qed.

Lemma asks_admit grants now a : asks (admit_scope grants now) (admitted grants now) a.
Proof.
  unfold admit_scope. apply asks_manifest. intros r a' Hs Hm. intros Hv. eapply wp_bind_eq; [reflexivity|]. revert Hv.
  destruct r as [m|e]; [|by apply asks_error]. cbv zeta. destruct (Hm m eq_refl) as (Hn & targets & Ht & Hp).
  apply asks_check. intros Hx. destruct (N.ltb_spec (maxManifestBytes (impl_limits (session a'))) (manifest_logicalBytes m));
    [by apply asks_fail|]. eapply asks_bind; [apply asks_targets|].
  intros t a2 [-> Ht'] _. apply asks_value. rewrite Ht' in Ht. injection Ht as ->.
  split; cbn; try done. apply script_exposed_None in Hx. by rewrite Hp in Hx.
Qed.

Lemma asks_recapture record now a :
  asks (recapture record now) (λ m a', nowMs m = now ∧
    host_scope_targets (scope_grants record) (live a) = (Ok (Some (scope_targets record)), live a) ∧
    capturedEntries (captureData m) = capturedEntries (scope_capture record) ∧
    manifest_logicalBytes m <= maxManifestBytes (impl_limits (session a))) a.
Proof.
  unfold recapture. eapply asks_bind; [apply asks_targets|]. intros t a1 [-> Ht] _.
  destruct (bool_decide_reflect (t = scope_targets record)) as [->|]; cbn [negb]; [|by apply asks_fail].
  apply asks_manifest. intros r a' Hs Hm. intros Hv. eapply wp_bind_eq; [reflexivity|]. revert Hv.
  destruct r as [m|e]; [|by apply asks_error]. destruct (Hm m eq_refl) as (Hn & _).
  destruct (same_entries _ _) eqn:Es; cbn [negb]; [|by apply asks_fail].
  destruct (N.ltb_spec (maxManifestBytes (impl_limits (session a'))) (manifest_logicalBytes m));
    [by apply asks_fail|]. apply asks_value. apply same_entries_spec in Es as [_ Es]. by rewrite <-Hs.
Qed.
End Asking.

Section Operations.
Context {H : Type} {usable : H → Prop} {same_world : relation H} `{ScopeHostLaws H usable same_world}.
Context {P : Type} `{PreparedWorld P}.
Abbreviation Authoring := (AuthoringSession.Authoring (H := H) (P := P)).
Abbreviation Impl := (AuthoringSession.Impl (P := P)).
Abbreviation Suite := (EvaluationSuite (P := P)).
Abbreviation asks := (asks (usable := usable) (same_world := same_world) (P := P)).
Abbreviation replies := (replies (usable := usable) (same_world := same_world) (P := P)).
Implicit Types (a : Authoring) (s : Impl).

(** The record of a scope that was admitted. *)
Definition admitted_scope (owner : string) (grants : list LuaScopeGrant) (revision : ScopeRevision)
    (x : Admission) : ScopeRecord :=
  MkScopeRecord owner grants revision (captureData (admission_manifest x)) (admission_targets x)
    (scope_charge owner grants x).

Definition created (scope : ScopeId) (record : ScopeRecord) (now : IntentTime) s : Impl :=
  set_lastNow (Some now) (set_lastScope scope
    (set_payload (size_add (sessionPayloadBytes s) (payloadCharge record))
      (set_scopes (map_emplace scope record (scopes s)) s))).
Definition replaced (scope : ScopeId) (old record : ScopeRecord) (now : IntentTime) s : Impl :=
  set_lastNow (Some now)
    (set_payload (size_add (size_sub (sessionPayloadBytes s) (payloadCharge old)) (payloadCharge record))
      (set_scopes (<[scope := record]> (scopes s)) s)).
Definition revoked (scope : ScopeId) (old : ScopeRecord) s : Impl :=
  set_scopes (delete scope (scopes s))
    (set_payload (size_sub (sessionPayloadBytes s) (payloadCharge old)) s).
Definition submitted (id : ProposalId) (record : ProposalRecord) s : Impl :=
  set_lastProposal id (set_payload (size_add (sessionPayloadBytes s) (proposal_charge record))
    (set_proposals (map_emplace id record (proposals s)) s)).
Definition registered (suite : Suite) s : Impl :=
  set_suites (map_emplace (suite_id suite) suite (suites s)) s.

(** A sequence of updates that ends a call *)
Ltac commit :=
  intros ?; repeat (eapply wp_bind_eq; [reflexivity|]); apply wp_ret;
  split_and!; [assumption|reflexivity|]; eexists; split; [reflexivity|].

(** Follows the checks of a call. *)
Ltac call_steps :=
  repeat match goal with
  | |- replies (check_then _ _) _ _ => apply replies_check; intros ?
  | |- replies (fail _ _ _) _ _ => apply replies_fail
  | |- replies (no_scope) _ _ => apply replies_fail
  | |- replies (no_scope_for_caller) _ _ => apply replies_fail
  | |- replies (no_proposal) _ _ => apply replies_fail
  | |- replies (not_current _) _ _ => apply replies_fail
  | |- replies (mret (inr _)) _ _ => apply replies_error
  | |- replies (if ?c then _ else _) _ _ => destruct c eqn:?
  end.

(** Reading the session first *)
Lemma replies_get {A} (f : Authoring → stm Authoring (AuthoringResult A)) Q a :
  replies (f a) Q a → replies (a ← sget; f a) Q a.
Proof. done. Qed.

Lemma create_scope_commits owner grants now a :
  replies (create_scope owner grants now) (λ v a', ∃ x,
    let s := session a in
    let record := admitted_scope owner grants 1 x in
    session a' = created (view_scope v) record now s ∧
    v = MkScopeView (lastScope s + 1) 1 (admission_manifest x) ∧
    check_time s now = None ∧ lastScope s + 1 <= maxIdValue (impl_limits s) ∧
    N.of_nat (size (scopes s)) < maxActiveScopes (impl_limits s) ∧
    payload_fits s 0 (payloadCharge record) = true ∧ admitted grants now x a') a.
Proof.
  unfold create_scope. apply replies_get. cbv zeta. call_steps.
  destruct (checked_next _ _) as [i|] eqn:Ei; [|apply replies_fail].
  apply checked_next_Some in Ei as [-> Hi]. eapply replies_bind; [apply asks_admit|].
  intros x a1 Hx Es Hv. call_steps. commit. exists x. cbn [set_session session live set_live].
  rewrite Es. split_and!; try done; [lia|by apply negb_false_iff|].
  destruct Hx as [X1 X2 X3 X4 X5]. by split; cbn; rewrite <-?Es.
Qed.

Lemma replace_scope_commits scope expected grants now a :
  replies (replace_scope scope expected grants now) (λ v a', ∃ old x,
    let s := session a in
    let record := admitted_scope (scope_owner old) grants (expected + 1) x in
    session a' = replaced scope old record now s ∧
    v = MkScopeView scope (expected + 1) (admission_manifest x) ∧
    scopes s !! scope = Some old ∧ scope_revision old = expected ∧ expected < u64_max ∧
    check_time s now = None ∧
    payload_fits s (payloadCharge old) (payloadCharge record) = true ∧ admitted grants now x a') a.
Proof.
  unfold replace_scope. apply replies_get. cbv zeta. destruct (scopes _ !! scope) as [old|] eqn:Eo; call_steps.
  destruct (checked_next _ _) as [i|] eqn:Ei; [|apply replies_fail].
  apply checked_next_Some in Ei as [-> Hi]. eapply replies_bind; [apply asks_admit|].
  intros x a1 Hx Es Hv. call_steps. commit. exists old, x. cbn [set_session session live set_live].
  match goal with Hr : negb (scope_revision old =? expected) = false |- _ =>
    apply negb_false_iff, N.eqb_eq in Hr; subst expected end.
  rewrite Es. split_and!; try done; [lia|by apply negb_false_iff|].
  destruct Hx as [X1 X2 X3 X4 X5]. by split; cbn; rewrite <-?Es.
Qed.

Lemma revoke_scope_commits scope expected a :
  replies (revoke_scope scope expected) (λ _ a', ∃ old,
    session a' = revoked scope old (session a) ∧ scopes (session a) !! scope = Some old ∧
    scope_revision old = expected) a.
Proof.
  unfold revoke_scope. apply replies_get. cbv zeta. destruct (scopes _ !! scope) as [old|] eqn:Eo; call_steps.
  commit. exists old. split_and!; [done|done|]. apply N.eqb_eq. by apply negb_false_iff.
Qed.

Lemma owned_scope_Some s caller scope record :
  owned_scope s caller scope = Some record ↔
  caller_session caller = impl_id s ∧ scopes s !! scope = Some record ∧ scope_owner record = caller_owner caller.
Proof.
  unfold owned_scope. destruct (String.eqb_spec (caller_session caller) (impl_id s)) as [E|E]; cbn; [|naive_solver].
  destruct (scopes s !! scope) as [r|]; [|naive_solver].
  destruct (String.eqb_spec (scope_owner r) (caller_owner caller)); naive_solver.
Qed.

Lemma discover_commits caller scope now a :
  replies (discover caller scope now) (λ v a', ∃ record,
    let s := session a in
    session a' = set_lastNow (Some now) s ∧ view_scope v = scope ∧ view_revision v = scope_revision record ∧
    owned_scope s caller scope = Some record ∧ check_time s now = None ∧
    nowMs (view_manifest v) = now ∧
    host_scope_targets (scope_grants record) (live a) = (Ok (Some (scope_targets record)), live a) ∧
    capturedEntries (captureData (view_manifest v)) = capturedEntries (scope_capture record) ∧
    manifest_logicalBytes (view_manifest v) <= maxManifestBytes (impl_limits s)) a.
Proof.
  unfold discover. apply replies_get. cbv zeta. destruct (owned_scope _ _ _) as [record|] eqn:Eo; call_steps.
  eapply replies_bind; [apply asks_recapture|]. intros m a1 (Hn & Ht & He & Hb) Es Hv. commit.
  exists record. cbn [set_session session live set_live view_scope view_revision view_manifest]. by rewrite Es.
Qed.

Lemma submit_commits caller submission a :
  replies (submit caller submission) (λ id a', ∃ record,
    let s := session a in
    let p := MkProposal id (impl_id s) (submission_scope submission) (scope_revision record)
      LuaAuthoringContract (submission_source submission) (submission_rationale submission) None in
    let candidate := MkProposalRecord p (scope_owner record) (scope_capture record) in
    session a' = submitted id candidate s ∧ id = lastProposal s + 1 ∧ id <= maxIdValue (impl_limits s) ∧
    owned_scope s caller (submission_scope submission) = Some record ∧
    scope_revision record = expectedScopeRevision submission ∧
    N.of_nat (size (proposals s)) < maxProposals (impl_limits s) ∧
    payload_fits s 0 (proposal_charge candidate) = true ∧
    host_scope_targets (scope_grants record) (live a) = (Ok (Some (scope_targets record)), live a)) a.
Proof.
  unfold submit. apply replies_get. cbv zeta. destruct (owned_scope _ _ _) as [record|] eqn:Eo; call_steps.
  destruct (checked_next _ _) as [i|] eqn:Ei; [|apply replies_fail].
  apply checked_next_Some in Ei as [-> Hi]. call_steps. eapply replies_bind; [apply asks_recapture|].
  intros m a1 (Hn & Ht & He & Hb) Es Hv. commit. exists record. cbn [set_session session live set_live].
  rewrite Es. split_and!; try done; [|lia|by apply negb_false_iff].
  match goal with Hr : negb (scope_revision record =? _) = false |- _ => by apply negb_false_iff, N.eqb_eq in Hr end.
Qed.

Lemma register_commits (suite : Suite) a :
  replies (register_evaluation_suite suite) (λ _ a',
    let s := session a in
    session a' = registered suite s ∧ lastProposal s = 0 ∧ proposals s = ∅ ∧
    suites s !! suite_id suite = None ∧ check_suite suite (impl_limits s) = None) a.
Proof.
  unfold register_evaluation_suite. apply replies_get. cbv zeta. call_steps. commit.
  match goal with Hr : _ || _ = false |- _ => apply orb_false_iff in Hr as [Hl Hp] end.
  split_and!; [done|by apply N.eqb_eq, negb_false_iff| |by eapply eq_None_not_Some, bool_decide_eq_false_1|done].
  apply negb_false_iff in Hp. by apply bool_decide_eq_true in Hp.
Qed.

(** ** Evaluations *)

Lemma owned_proposal_Some s caller id record :
  owned_proposal s caller id = Some record ↔
  caller_session caller = impl_id s ∧ proposals s !! id = Some record ∧ proposal_owner record = caller_owner caller.
Proof.
  unfold owned_proposal. destruct (String.eqb_spec (caller_session caller) (impl_id s)) as [E|E]; cbn; [|naive_solver].
  destruct (proposals s !! id) as [r|]; [|naive_solver].
  destruct (String.eqb_spec (proposal_owner r) (caller_owner caller)); naive_solver.
Qed.

Lemma reserve_evaluation_ok s fixture r :
  reserve_evaluation s fixture = inl r →
  reservation_id r = lastEvaluation s + 1 ∧ lastEvaluation s + 1 <= maxIdValue (impl_limits s) ∧
  reservation_bytes r = evaluation_reservation s fixture ∧
  N.of_nat (size (evaluations s)) < maxEvaluations (impl_limits s) ∧
  payload_fits s 0 (evaluation_reservation s fixture) = true.
Proof.
  unfold reserve_evaluation. cbv zeta. destruct (N.leb_spec (maxEvaluations (impl_limits s)) (N.of_nat (size (evaluations s))));
    [done|].
  destruct (checked_next _ _) as [i|] eqn:Ei; [|done]. apply checked_next_Some in Ei as [-> Hi].
  destruct (payload_fits _ _ _) eqn:Ep; [|done]. by intros [= <-].
Qed.

(** An evaluation that was admitted: of a proposal of the caller, against the
    suite, for the scope as it was proposed for. *)
Record admitted_evaluation (caller : CallerContext) (id : ProposalId) (fixture : EvaluationFixtureId)
    s (ticket : EvaluationTicket (P := P)) : Prop := {
  ae_proposal : ∃ found, owned_proposal s caller id = Some found ∧ ticket_proposal ticket = record_of_proposal found;
  ae_suite : suites s !! fixture = Some (ticket_suite ticket);
  ae_scope : ∃ scope, scopes s !! proposal_scope (ticket_proposal ticket) = Some scope ∧
    scope_revision scope = proposal_scopeRevision (ticket_proposal ticket) ∧
    ticket_grants ticket = scope_grants scope ∧
    capturedEntries (captureData (ticket_manifest ticket)) = capturedEntries (scope_capture scope);
  ae_id : ticket_id ticket = lastEvaluation s + 1 ∧ ticket_id ticket <= maxIdValue (impl_limits s);
  ae_count : N.of_nat (size (evaluations s)) < maxEvaluations (impl_limits s);
  ae_bytes : ticket_reservation ticket = evaluation_reservation s fixture;
  ae_fits : payload_fits s 0 (ticket_reservation ticket) = true
}.

Lemma asks_admit_evaluation caller id fixture a :
  asks (admit_evaluation caller id fixture) (λ ticket _, admitted_evaluation caller id fixture (session a) ticket) a.
Proof.
  unfold admit_evaluation. intros Hv. eapply wp_bind_eq; [reflexivity|]. revert Hv. cbv zeta.
  destruct (owned_proposal _ _ _) as [found|] eqn:Ef; [|apply asks_fail].
  destruct (suites _ !! _) as [suite|] eqn:Es; [|apply asks_fail].
  destruct (scopes _ !! _) as [scope|] eqn:Ec; [|apply asks_fail].
  destruct (N.eqb_spec (scope_revision scope) (proposal_scopeRevision (record_of_proposal found))) as [Er|];
    cbn [negb]; [|apply asks_fail].
  destruct (reserve_evaluation _ _) as [r|e] eqn:Erv; [|apply asks_error].
  apply reserve_evaluation_ok in Erv as (E1 & E2 & E3 & E4 & E5).
  eapply asks_bind; [apply asks_recapture|]. intros m a1 (Hn & Ht & He & Hb) Ess. apply asks_value.
  split; cbn; [by exists found|done|by exists scope|by rewrite E1|done|done|by rewrite E3].
Qed.

Lemma asks_try {A} (m : stm Authoring (AuthoringResult A)) h Q a : asks m Q a → asks (stry m h) Q a.
Proof.
  intros Hm Hv. apply wp_try. eapply wp_mono; [by apply Hm|]. cbn.
  intros y a' (Hv' & Hw & Hs & r & -> & Hr). split_and!; [done|done|done|]. by exists r.
Qed.

(** What an evaluation leaves: its record and the bytes of the response, of the
    trace and of the entry. *)
Definition unbounded_record (ticket : EvaluationTicket (P := P)) (fixture : EvaluationFixtureId) s : EvaluationRecord :=
  let p := ticket_proposal ticket in
  let outcome := evaluation_outcome s ticket in
  MkEvaluationRecord (ticket_id ticket) (impl_id s) (proposal_id p) (proposal_scope p)
    (proposal_scopeRevision p) fixture (outcome_status outcome) true (outcome_cases outcome).
Definition kept_record (ticket : EvaluationTicket (P := P)) (fixture : EvaluationFixtureId) s : N * EvaluationRecord :=
  bound_response (unbounded_record ticket fixture s) (maxEvaluationResponseBytes (impl_limits s)).
Definition kept_charge (ticket : EvaluationTicket (P := P)) (fixture : EvaluationFixtureId) s : N :=
  saturating_add (saturating_add EvaluationEntryBytes (kept_record ticket fixture s).1)
    (storeBytes (evaluation_outcome s ticket)).
Definition evaluated (ticket : EvaluationTicket (P := P)) (fixture : EvaluationFixtureId) s : Impl :=
  let record := (kept_record ticket fixture s).2 in
  set_payload (size_sub (size_add (sessionPayloadBytes s) (ticket_reservation ticket))
      (size_sub (ticket_reservation ticket) (kept_charge ticket fixture s)))
    (set_evaluations (map_emplace (record_id record)
        (MkEvaluationEntry record (outcome_trace (evaluation_outcome s ticket))) (evaluations s))
      (set_lastEvaluation (ticket_id ticket) s)).

Lemma keep_evaluation_eq ticket fixture a :
  keep_evaluation ticket fixture a =
  (Ok (kept_record ticket fixture (session a)).2, set_session
    (let s := session a in let record := (kept_record ticket fixture s).2 in
     set_payload (size_sub (sessionPayloadBytes s) (size_sub (ticket_reservation ticket) (kept_charge ticket fixture s)))
      (set_evaluations (map_emplace (record_id record)
        (MkEvaluationEntry record (outcome_trace (evaluation_outcome s ticket))) (evaluations s)) s)) a).
Proof.
  unfold keep_evaluation, kept_charge, kept_record, unbounded_record. unfold mbind, stm_bind, sget. cbv zeta.
  by destruct (bound_response _ _) as [n r].
Qed.

Lemma evaluate_commits caller id fixture a :
  replies (evaluate caller id fixture) (λ r a', ∃ ticket,
    session a' = evaluated ticket fixture (session a) ∧ r = (kept_record ticket fixture (session a)).2 ∧
    admitted_evaluation caller id fixture (session a) ticket) a.
Proof.
  unfold evaluate. apply (replies_bind (stry _ _) (λ ticket,
      update (set_lastEvaluation (ticket_id ticket));;
      update (λ s, set_payload (size_add (sessionPayloadBytes s) (ticket_reservation ticket)) s);;
      stry (kept ← keep_evaluation ticket fixture; mret (inl kept)) (λ _,
        update (λ s, set_payload (size_sub (sessionPayloadBytes s) (ticket_reservation ticket)) s);;
        fail AuthoringErrorCode.HostError "evaluation result could not be kept" None))
    _ _ _ (asks_try _ _ _ _ (asks_admit_evaluation caller id fixture a))).
  intros ticket a1 Hticket Es Hv Hv'. do 2 (eapply wp_bind_eq; [reflexivity|]).
  apply wp_try. eapply wp_bind_eq; [apply keep_evaluation_eq|]. apply wp_ret.
  split_and!; [done|reflexivity|]. eexists. split; [reflexivity|]. exists ticket.
  cbn [set_session session live]. by rewrite Es.
Qed.
End Operations.
