(* ===== verification/AuthoringRuns.v ===== *)
(** * Sessions along histories of calls

    [session_ok] relates the payload counter, the identifiers and the limits of a
    session to what it retains, and every commit keeps it.  [perform] is any call;
    a [history] is a sequence of calls with their replies, between which the live
    world moves on; [session_history] begins with the constructor. *)
From S2P Require Import Prelude OrderedMap Values Hoare Effects Events EventStore Adapters Ids Components LuaSchema LuaManifest LuaRunner Runtime EvaluationTypes EvaluationAccounting EvaluationStore EvaluationTrace EvaluationTotals EvaluationManifest EvaluationCase EvaluationRuns EvaluationSuites AuthoringChecks AuthoringSession AuthoringSpec.

(** ** Sums over tables *)

Section MapSum.
Context {K A : Type} `{Countable K} (f : A → N).
Definition map_sum (m : gmap K A) : N := sum_of (λ p, f p.2) (map_to_list m).
Lemma map_sum_empty : map_sum ∅ = 0.
Proof. unfold map_sum. by rewrite map_to_list_empty. Qed.
Lemma map_sum_insert k a m : m !! k = None → map_sum (<[k := a]> m) = f a + map_sum m.
Proof. intros Hk. unfold map_sum. by rewrite map_to_list_insert, sum_of_cons. Qed.
Lemma map_sum_delete k a m : m !! k = Some a → map_sum m = f a + map_sum (delete k m).
Proof. intros Hk. rewrite <-(insert_delete_id m k a Hk) at 1. by rewrite map_sum_insert by apply lookup_delete_eq. Qed.
Lemma map_sum_replace k a b m :
  m !! k = Some a → map_sum (<[k := b]> m) + f a = map_sum m + f b.
Proof.
  intros Hk. rewrite (map_sum_delete k a m Hk), <-insert_delete_eq, map_sum_insert by apply lookup_delete_eq. lia.
Qed.
End MapSum.

Lemma map_emplace_fresh {K A} `{Countable K} (k : K) (a : A) (m : gmap K A) :
  m !! k = None → map_emplace k a m = <[k := a]> m.
Proof. unfold map_emplace. by intros ->. Qed.

(** ** Sizes *)

Lemma size_add_exact a b : a + b <= u64_max → size_add a b = a + b.
Proof. intros Hb. unfold size_add, wrap. apply N.mod_small. unfold u64_max in Hb. lia. Qed.
Lemma size_sub_exact a b : b <= a → a <= u64_max → size_sub a b = a - b.
Proof.
  intros Hb Ha. unfold size_sub, wrap. replace (a + 2 ^ 64 - b) with ((a - b) + 1 * 2 ^ 64) by lia.
  rewrite N.Div0.mod_add. apply N.mod_small. unfold u64_max in Ha. lia.
Qed.

Section Runs.
Context {H : Type} {usable : H → Prop} {same_world : relation H} `{ScopeHostLaws H usable same_world}.
Context {P : Type} `{PreparedWorldLaws P}.
Abbreviation Authoring := (AuthoringSession.Authoring (H := H) (P := P)).
Abbreviation Impl := (AuthoringSession.Impl (P := P)).
Abbreviation Suite := (EvaluationSuite (P := P)).
Implicit Types (a : Authoring) (s : Impl).

(** ** The invariant *)

(** The logical bytes of an evaluation that is kept *)
Definition entry_charge (e : EvaluationEntry) : N :=
  EvaluationEntryBytes + record_bytes (entry_record e) + sum_of trace_size (entry_trace e).

(** What the session retains *)
Definition retained_bytes s : N :=
  map_sum payloadCharge (scopes s) + map_sum proposal_charge (proposals s) + map_sum entry_charge (evaluations s).

Record scope_ok s (id : ScopeId) (r : ScopeRecord) : Prop := {
  sc_id : 0 < id <= lastScope s;
  sc_revision : 0 < scope_revision r <= u64_max;
  sc_script : Forall (λ t, scope_type t ≠ type_id (scriptType s)) (scope_targets r);
  sc_shown : map entry_target (capturedEntries (scope_capture r)) ≡ₚ scope_targets r
}.

(** A proposal names a scope that was; while the scope has the revision it was
    proposed for, it is the scope it was proposed for. *)
Record proposal_ok s (id : ProposalId) (r : ProposalRecord) : Prop := {
  pr_id : proposal_id (record_of_proposal r) = id ∧ 0 < id <= lastProposal s;
  pr_session : proposal_session (record_of_proposal r) = impl_id s;
  pr_scope : proposal_scope (record_of_proposal r) <= lastScope s;
  pr_current scope : scopes s !! proposal_scope (record_of_proposal r) = Some scope →
    proposal_scopeRevision (record_of_proposal r) <= scope_revision scope ∧
    proposal_owner r = scope_owner scope ∧
    (proposal_scopeRevision (record_of_proposal r) = scope_revision scope →
     proposal_capture r = scope_capture scope)
}.

Record suite_ok (limits : AuthoringLimits) (id : EvaluationFixtureId) (suite : Suite) : Prop := {
  su_id : suite_id suite = id;
  su_checked : check_suite suite limits = None;
  su_appending : Forall appending (suite_cases suite)
}.

Record session_ok s : Prop := {
  so_limits : valid_limits (impl_limits s) = true;
  so_payload : sessionPayloadBytes s = retained_bytes s;
  so_ceiling : sessionPayloadBytes s <= maxSessionPayloadBytes (impl_limits s);
  so_counts : N.of_nat (size (scopes s)) <= maxActiveScopes (impl_limits s) ∧
    N.of_nat (size (proposals s)) <= maxProposals (impl_limits s) ∧
    N.of_nat (size (evaluations s)) <= maxEvaluations (impl_limits s);
  so_ids : lastScope s <= maxIdValue (impl_limits s) ∧ lastProposal s <= maxIdValue (impl_limits s) ∧
    lastEvaluation s <= maxIdValue (impl_limits s);
  so_scopes : map_Forall (scope_ok s) (scopes s);
  so_proposals : map_Forall (proposal_ok s) (proposals s);
  so_evaluations : map_Forall (λ id e, record_id (entry_record e) = id ∧ 0 < id <= lastEvaluation s) (evaluations s);
  so_suites : map_Forall (suite_ok (impl_limits s)) (suites s)
}.

Lemma session_limits s : session_ok s →
  maxSessionPayloadBytes (impl_limits s) <= N.shiftl 64 20 ∧
  maxEvaluationResponseBytes (impl_limits s) <= N.shiftl 1 20 ∧
  maxEvaluationRecordBytes (impl_limits s) <= N.shiftl 8 20 ∧
  maxEvaluationRecords (impl_limits s) <= 8192 ∧ maxLabelBytes (impl_limits s) <= 256.
Proof.
  intros [Hl%valid_limits_spec _ _ _ _ _ _ _ _]. destruct Hl as [Hl _]. rewrite Forall_forall in Hl.
  split_and!; apply Hl; set_solver.
Qed.

Lemma payload_bounds s : session_ok s → sessionPayloadBytes s <= u64_max ∧ maxSessionPayloadBytes (impl_limits s) <= u64_max.
Proof.
  intros Ho. destruct (session_limits s Ho) as [Hm _]. pose proof (so_ceiling s Ho).
  assert (N.shiftl 64 20 <= u64_max) by done. lia.
Qed.

(** Neither subtraction of [payload_fits] wraps. *)
Lemma payload_fits_spec s released charge :
  session_ok s → released <= sessionPayloadBytes s →
  payload_fits s released charge = true ↔
  sessionPayloadBytes s - released + charge <= maxSessionPayloadBytes (impl_limits s).
Proof.
  intros Ho Hr. destruct (payload_bounds s Ho) as [Hp Hm]. pose proof (so_ceiling s Ho).
  unfold payload_fits. cbv zeta. rewrite (size_sub_exact (sessionPayloadBytes s)) by done.
  rewrite size_sub_exact by lia. rewrite N.leb_le. lia.
Qed.

(** Identifiers above the last one are free. *)
Lemma fresh_scope s : session_ok s → scopes s !! (lastScope s + 1) = None.
Proof.
  intros Ho. destruct (scopes s !! _) as [r|] eqn:E; [|done]. apply (so_scopes s Ho) in E. destruct E. lia.
Qed.
Lemma fresh_proposal s : session_ok s → proposals s !! (lastProposal s + 1) = None.
Proof.
  intros Ho. destruct (proposals s !! _) as [r|] eqn:E; [|done]. apply (so_proposals s Ho) in E. destruct E. lia.
Qed.
Lemma fresh_evaluation s : session_ok s → evaluations s !! (lastEvaluation s + 1) = None.
Proof.
  intros Ho. destruct (evaluations s !! _) as [r|] eqn:E; [|done]. apply (so_evaluations s Ho) in E. lia.
Qed.

(** ** Each commit keeps it *)

(** Reads the members of a session after updates. *)
Ltac session_cbn :=
  cbn [impl_id impl_limits scriptType lastNow lastScope lastProposal scopes proposals suites lastEvaluation
    evaluations sessionPayloadBytes set_lastNow set_lastScope set_lastProposal set_scopes set_proposals
    set_suites set_lastEvaluation set_evaluations set_payload].

Lemma scope_charge_retained s id r : scopes s !! id = Some r → payloadCharge r <= retained_bytes s.
Proof. intros E. unfold retained_bytes. rewrite (map_sum_delete _ _ _ _ E). lia. Qed.

(** A scope record that admission leads to *)
Lemma admitted_scope_ok s id owner grants revision now x a :
  0 < id <= lastScope s → 0 < revision <= u64_max → scriptType (session a) = scriptType s →
  admitted grants now x a →
  scope_ok s id (admitted_scope owner grants revision x).
Proof. intros Hi Hr Et [_ _ Hs Hf _]. by split; cbn; rewrite <-?Et. Qed.

Lemma scope_ok_mono s s' id r :
  lastScope s <= lastScope s' → scriptType s' = scriptType s → scope_ok s id r → scope_ok s' id r.
Proof. intros Hl Ht []. split; [lia|done|by rewrite Ht|done]. Qed.

Lemma created_ok s owner grants now now' x a :
  session_ok s → scriptType (session a) = scriptType s →
  admitted grants now' x a →
  lastScope s + 1 <= maxIdValue (impl_limits s) →
  N.of_nat (size (scopes s)) < maxActiveScopes (impl_limits s) →
  payload_fits s 0 (payloadCharge (admitted_scope owner grants 1 x)) = true →
  session_ok (created (lastScope s + 1) (admitted_scope owner grants 1 x) now s).
Proof.
  intros Ho Et Hx Hid Hn Hf%payload_fits_spec; [|done|lia].
  destruct (payload_bounds s Ho) as [Hp Hm]. pose proof (fresh_scope s Ho) as Hnew.
  destruct Ho as [Hl Hpay Hceil (Hc1 & Hc2 & Hc3) (Hi1 & Hi2 & Hi3) Hs Hpr He Hsu]. unfold created.
  rewrite map_emplace_fresh, size_add_exact by (done || lia).
  split; session_cbn.
  - done.
  - unfold retained_bytes in *. session_cbn. rewrite map_sum_insert by done. lia.
  - lia.
  - rewrite map_size_insert_None by done. split_and!; [lia|done|done].
  - split_and!; [lia|done|done].
  - apply map_Forall_insert_2; [|eapply map_Forall_impl; [exact Hs|]].
    + eapply admitted_scope_ok; [cbn; lia|done|exact Et|exact Hx].
    + intros id r Hr. eapply scope_ok_mono; [| |exact Hr]; cbn; [lia|done].
  - eapply map_Forall_impl; [exact Hpr|]. intros id r [Ha Hb Hsc Hcur]. split; cbn; [done|done|lia|].
    intros scope. rewrite lookup_insert_ne by lia. apply Hcur.
  - done.
  - exact Hsu.
Qed.

Lemma replaced_ok s scope old grants now now' x a :
  session_ok s → scriptType (session a) = scriptType s →
  admitted grants now' x a →
  scopes s !! scope = Some old → scope_revision old < u64_max →
  let record := admitted_scope (scope_owner old) grants (scope_revision old + 1) x in
  payload_fits s (payloadCharge old) (payloadCharge record) = true →
  session_ok (replaced scope old record now s).
Proof.
  intros Ho Et Hx Hsc Hrev record Hf.
  pose proof (scope_charge_retained s scope old Hsc) as Hcharge. rewrite <-(so_payload s Ho) in Hcharge.
  apply payload_fits_spec in Hf; [|done|done].
  destruct (payload_bounds s Ho) as [Hp Hm].
  destruct Ho as [Hl Hpay Hceil (Hc1 & Hc2 & Hc3) (Hi1 & Hi2 & Hi3) Hs Hpr He Hsu]. unfold replaced.
  rewrite size_sub_exact, size_add_exact by (done || lia).
  split; session_cbn.
  - done.
  - unfold retained_bytes in *. session_cbn. pose proof (map_sum_replace payloadCharge scope old record _ Hsc). lia.
  - lia.
  - rewrite map_size_insert_Some by by exists old. done.
  - done.
  - apply map_Forall_insert_2; [|eapply map_Forall_impl; [exact Hs|]].
    + eapply admitted_scope_ok; [cbn; by apply (sc_id _ _ _ (Hs _ _ Hsc))|lia|exact Et|exact Hx].
    + intros id r Hr. eapply scope_ok_mono; [| |exact Hr]; cbn; [lia|done].
  - eapply map_Forall_impl; [exact Hpr|]. intros id r [Ha Hb Hle Hcur]. split; cbn; [done|done|lia|].
    intros sc. destruct (decide (scope = proposal_scope (record_of_proposal r))) as [->|Hne].
    + rewrite lookup_insert_eq. intros [= <-]. destruct (Hcur _ Hsc) as (Hr & Hown & _). cbn. split_and!; [lia|done|lia].
    + rewrite lookup_insert_ne by done. apply Hcur.
  - done.
  - exact Hsu.
Qed.

Lemma revoked_ok s scope old :
  session_ok s → scopes s !! scope = Some old → session_ok (revoked scope old s).
Proof.
  intros Ho Hsc. pose proof (scope_charge_retained s scope old Hsc) as Hcharge. rewrite <-(so_payload s Ho) in Hcharge.
  destruct (payload_bounds s Ho) as [Hp Hm].
  destruct Ho as [Hl Hpay Hceil (Hc1 & Hc2 & Hc3) Hi Hs Hpr He Hsu]. unfold revoked.
  rewrite size_sub_exact by (done || lia).
  split; session_cbn; try done.
  - unfold retained_bytes in *. session_cbn. rewrite (map_sum_delete payloadCharge scope old _ Hsc) in Hpay. lia.
  - lia.
  - rewrite map_size_delete_Some by by exists old. split_and!; [lia|done|done].
  - apply map_Forall_delete. eapply map_Forall_impl; [exact Hs|].
    intros id r Hr. eapply scope_ok_mono; [| |exact Hr]; cbn; [lia|done].
  - eapply map_Forall_impl; [exact Hpr|]. intros id r [Ha Hb Hle Hcur]. split; cbn; [done|done|lia|].
    intros sc [_ Hsc']%lookup_delete_Some. by apply Hcur.
Qed.

Lemma submitted_ok s p scope :
  session_ok s → scopes s !! proposal_scope (record_of_proposal p) = Some scope →
  proposal_id (record_of_proposal p) = lastProposal s + 1 →
  proposal_session (record_of_proposal p) = impl_id s →
  proposal_scopeRevision (record_of_proposal p) = scope_revision scope →
  proposal_owner p = scope_owner scope → proposal_capture p = scope_capture scope →
  lastProposal s + 1 <= maxIdValue (impl_limits s) →
  N.of_nat (size (proposals s)) < maxProposals (impl_limits s) →
  payload_fits s 0 (proposal_charge p) = true →
  session_ok (submitted (lastProposal s + 1) p s).
Proof.
  intros Ho Hsc Hid Hse Hrev Hown Hcap Hmax Hn Hf%payload_fits_spec; [|done|lia].
  destruct (payload_bounds s Ho) as [Hp Hm]. pose proof (fresh_proposal s Ho) as Hnew.
  destruct Ho as [Hl Hpay Hceil (Hc1 & Hc2 & Hc3) (Hi1 & Hi2 & Hi3) Hs Hpr He Hsu]. unfold submitted.
  rewrite map_emplace_fresh, size_add_exact by (done || lia).
  split; session_cbn.
  - done.
  - unfold retained_bytes in *. session_cbn. rewrite map_sum_insert by done. lia.
  - lia.
  - rewrite map_size_insert_None by done. split_and!; [done|lia|done].
  - split_and!; [done|lia|done].
  - eapply map_Forall_impl; [exact Hs|]. intros id r Hr. eapply scope_ok_mono; [| |exact Hr]; cbn; [lia|done].
  - apply map_Forall_insert_2; [|eapply map_Forall_impl; [exact Hpr|]].
    + destruct (Hs _ _ Hsc) as [Hscid _ _ _]. split; cbn; [split; [done|lia]|done|lia|].
      intros sc. rewrite Hsc. intros [= <-]. split_and!; [lia|done|done].
    + intros id r [Ha Hb Hle Hcur]. split; cbn; [split; [tauto|lia]|done|done|done].
  - done.
  - exact Hsu.
Qed.

Lemma clock_ok s now : session_ok s → session_ok (set_lastNow now s).
Proof.
  intros [Hl Hpay Hceil Hc Hi Hs Hpr He Hsu]. split; session_cbn; try done.
  - eapply map_Forall_impl; [exact Hs|]. intros id r Hr. eapply scope_ok_mono; [| |exact Hr]; session_cbn; [lia|done].
  - eapply map_Forall_impl; [exact Hpr|]. intros id r [Ha Hb Hle Hcur]. by split.
Qed.

Lemma registered_ok s (suite : Suite) :
  session_ok s → suites s !! suite_id suite = None → check_suite suite (impl_limits s) = None →
  Forall appending (suite_cases suite) → session_ok (registered suite s).
Proof.
  intros [Hl Hpay Hceil Hc Hi Hs Hpr He Hsu] Hnew Hck Hap. unfold registered. rewrite map_emplace_fresh by done.
  split; cbn; try done.
  - eapply map_Forall_impl; [exact Hs|]. intros id r Hr. eapply scope_ok_mono; [| |exact Hr]; cbn; [lia|done].
  - eapply map_Forall_impl; [exact Hpr|]. intros id r [Ha Hb Hle Hcur]. by split.
  - apply map_Forall_insert_2; [by split|]. eapply map_Forall_impl; [exact Hsu|]. intros id su []. by split.
Qed.

(** *** Evaluations *)

Lemma label_length text max path : check_text text max true path = None → slen text <= max.
Proof.
  unfold check_text. cbv zeta. destruct (true && _); [done|]. by destruct (N.ltb_spec max (slen text)).
Qed.

Lemma fixture_length s id (suite : Suite) : session_ok s → suite_ok (impl_limits s) id suite → slen (stableName id) <= 256.
Proof.
  intros Ho [<- Hc _]. destruct (session_limits s Ho) as (_ & _ & _ & _ & Hl). unfold check_suite in Hc.
  destruct (check_text _ _ _ _) eqn:Et; [done|]. apply label_length in Et. lia.
Qed.

Lemma header_exact name : slen name <= 256 → record_header_bytes name = 145 + slen name.
Proof.
  intros Hn. change (record_header_bytes name) with (saturating_add 145 (slen name)).
  apply saturating_add_exact. unfold u64_max. lia.
Qed.

Lemma kept_record_fields (ticket : EvaluationTicket (P := P)) fixture s :
  record_id (kept_record ticket fixture s).2 = ticket_id ticket ∧
  (kept_record ticket fixture s).1 = record_bytes (kept_record ticket fixture s).2 ∧
  (kept_record ticket fixture s).1 <= N.max (maxEvaluationResponseBytes (impl_limits s)) (record_header_bytes (stableName fixture)).
Proof.
  unfold kept_record. destruct (bound_response_fields (unbounded_record ticket fixture s)
    (maxEvaluationResponseBytes (impl_limits s))) as [Hi _].
  pose proof (bound_response_never_partial (unbounded_record ticket fixture s)
    (maxEvaluationResponseBytes (impl_limits s))) as Hb.
  destruct (bound_response _ _) as [n r]. cbn [fst snd] in *. destruct Hb as (Hn & Hle & _). by split_and!.
Qed.

(** What is kept costs at most what was reserved, and exactly its own size. *)
Lemma kept_within_reservation (ticket : EvaluationTicket (P := P)) fixture s :
  session_ok s → suite_ok (impl_limits s) fixture (ticket_suite ticket) →
  let entry := MkEvaluationEntry (kept_record ticket fixture s).2 (outcome_trace (evaluation_outcome s ticket)) in
  kept_charge ticket fixture s = entry_charge entry ∧ entry_charge entry <= evaluation_reservation s fixture ∧
  evaluation_reservation s fixture <= u64_max.
Proof.
  intros Ho Hsu. cbv zeta. pose proof (fixture_length s fixture _ Ho Hsu) as Hn.
  destruct (session_limits s Ho) as (_ & Hresp & Hby & Hrec & _).
  change (N.shiftl 1 20) with 1048576 in Hresp. change (N.shiftl 8 20) with 8388608 in Hby.
  destruct (kept_record_fields ticket fixture s) as (_ & Hk & Hle). rewrite header_exact in Hle by done.
  set (run := MkRun (ticket_suite ticket) (proposal_source (ticket_proposal ticket))
    (ticket_grants ticket) (ticket_manifest ticket) (impl_limits s)).
  assert (storeBytes (evaluation_outcome s ticket) = sum_of trace_size (outcome_trace (evaluation_outcome s ticket)) ∧
    storeBytes (evaluation_outcome s ticket) <= maxEvaluationRecordBytes (impl_limits s)) as [Hst Hsle].
  { unfold evaluation_outcome. fold run. destruct (run_evaluation run) as [o|e] eqn:E; [|by split; [|apply N.le_0_l]].
    assert (maxEvaluationRecords (impl_limits s) < u64_max ∧ maxEvaluationRecordBytes (impl_limits s) < u64_max)
      as [Hw1 Hw2] by (unfold u64_max; lia).
    by destruct (evaluation_accounted run o Hw1 Hw2 (su_appending _ _ _ Hsu) E) as (? & ? & _). }
  unfold kept_charge, entry_charge, evaluation_reservation. cbv zeta. cbn [entry_record entry_trace].
  rewrite header_exact by done. change EvaluationEntryBytes with 16.
  rewrite <-Hst, <-Hk.
  repeat match goal with
  | |- context [saturating_add ?a ?b] =>
      lazymatch a with
      | context [saturating_add] => fail
      | _ => rewrite (saturating_add_exact a b) by (unfold u64_max; lia)
      end
  end.
  unfold u64_max. lia.
Qed.

Lemma evaluated_ok s caller id fixture ticket :
  session_ok s → admitted_evaluation caller id fixture s ticket → session_ok (evaluated ticket fixture s).
Proof.
  intros Ho [_ Hsuite _ [Hid Hmax] Hn Hres Hf]. pose proof (so_suites s Ho _ _ Hsuite) as Hsu.
  destruct (kept_within_reservation ticket fixture s Ho Hsu) as (Hk & Hle & Hw).
  destruct (kept_record_fields ticket fixture s) as (Hki & _ & _).
  apply payload_fits_spec in Hf; [|done|lia]. rewrite N.sub_0_r, Hres in Hf.
  destruct (payload_bounds s Ho) as [Hp Hm]. pose proof (fresh_evaluation s Ho) as Hnew. rewrite <-Hid in Hnew.
  destruct Ho as [Hl Hpay Hceil (Hc1 & Hc2 & Hc3) (Hi1 & Hi2 & Hi3) Hs Hpr He Hsus]. unfold evaluated.
  set (entry := MkEvaluationEntry _ _) in *. rewrite Hki, Hres, Hk.
  assert (size_sub (size_add (sessionPayloadBytes s) (evaluation_reservation s fixture))
    (size_sub (evaluation_reservation s fixture) (entry_charge entry)) =
    sessionPayloadBytes s + entry_charge entry) as ->.
  { rewrite size_add_exact, (size_sub_exact (evaluation_reservation s fixture)), size_sub_exact; lia. }
  cbv zeta. rewrite map_emplace_fresh by done. split; session_cbn; try done.
  - unfold retained_bytes in *. session_cbn. rewrite map_sum_insert by done. lia.
  - lia.
  - rewrite map_size_insert_None by done. split_and!; [done|done|lia].
  - eapply map_Forall_impl; [exact Hs|]. intros sid r Hr. eapply scope_ok_mono; [| |exact Hr]; session_cbn; [lia|done].
  - eapply map_Forall_impl; [exact Hpr|]. intros sid r [Ha Hb Hle' Hcur]. by split.
  - apply map_Forall_insert_2; [split; [exact Hki|lia]|]. eapply map_Forall_impl; [exact He|].
    intros eid e [? ?]. split; [done|lia].
Qed.
End Runs.

Section Histories.
Context {H : Type} {usable : H → Prop} {same_world : relation H} `{ScopeHostLaws H usable same_world}.
Context {P : Type} `{PreparedWorldLaws P}.
Abbreviation Authoring := (AuthoringSession.Authoring (H := H) (P := P)).
Abbreviation Impl := (AuthoringSession.Impl (P := P)).
Abbreviation Suite := (EvaluationSuite (P := P)).
Abbreviation replies := (replies (usable := usable) (same_world := same_world) (P := P)).
Implicit Types (a : Authoring) (s : Impl).

(** ** Calls *)

Inductive session_call :=
| CreateScope (owner : string) (grants : list LuaScopeGrant) (now : IntentTime)
| ReplaceScope (scope : ScopeId) (expected : ScopeRevision) (grants : list LuaScopeGrant) (now : IntentTime)
| RevokeScope (scope : ScopeId) (expected : ScopeRevision)
| Discover (caller : CallerContext) (scope : ScopeId) (now : IntentTime)
| Submit (caller : CallerContext) (submission : ProposalSubmission)
| RegisterSuite (suite : Suite)
| Evaluate (caller : CallerContext) (id : ProposalId) (fixture : EvaluationFixtureId).

Inductive reply :=
| ViewReply (v : ScopeView)
| ProposalReply (id : ProposalId)
| RecordReply (r : EvaluationRecord)
| DoneReply.

Definition with_reply {A} (f : A → reply) (m : stm Authoring (AuthoringResult A))
  : stm Authoring (AuthoringResult reply) := reply_bind m (λ v, mret (inl (f v))).

Definition perform (o : session_call) : stm Authoring (AuthoringResult reply) :=
  match o with
  | CreateScope owner grants now => with_reply ViewReply (create_scope owner grants now)
  | ReplaceScope scope expected grants now => with_reply ViewReply (replace_scope scope expected grants now)
  | RevokeScope scope expected => with_reply (λ _, DoneReply) (revoke_scope scope expected)
  | Discover caller scope now => with_reply ViewReply (discover caller scope now)
  | Submit caller submission => with_reply ProposalReply (submit caller submission)
  | RegisterSuite suite => with_reply (λ _, DoneReply) (register_evaluation_suite suite)
  | Evaluate caller id fixture => with_reply RecordReply (evaluate caller id fixture)
  end.

(** Callbacks of suites reach their store only by appending. *)
Definition admissible (o : session_call) : Prop :=
  match o with RegisterSuite suite => Forall appending (suite_cases suite) | _ => True end.

Lemma replies_reply {A} (f : A → reply) (m : stm Authoring (AuthoringResult A)) Q Q' a :
  replies m Q a → (∀ v a', Q v a' → Q' (f v) a') → replies (with_reply f m) Q' a.
Proof.
  intros Hm Hf Hv. unfold with_reply, reply_bind. apply wp_bind. eapply wp_mono; [by apply Hm|]. cbn.
  intros y a' (Hv' & Hw & r & -> & Hr). destruct r as [v|e]; cbn; (split_and!; [done|done|]).
  - exists (inl (f v)). split; [done|]. by apply Hf.
  - by exists (inr e).
Qed.

(** What a call that replied with [x] did to the session. *)
Definition committed (o : session_call) a (x : reply) a' : Prop :=
  let s := session a in
  match o, x with
  | CreateScope owner grants now, ViewReply v => ∃ adm,
      let record := admitted_scope owner grants 1 adm in
      session a' = created (view_scope v) record now s ∧
      v = MkScopeView (lastScope s + 1) 1 (admission_manifest adm) ∧
      check_time s now = None ∧ lastScope s + 1 <= maxIdValue (impl_limits s) ∧
      N.of_nat (size (scopes s)) < maxActiveScopes (impl_limits s) ∧
      payload_fits s 0 (payloadCharge record) = true ∧ admitted grants now adm a'
  | ReplaceScope scope expected grants now, ViewReply v => ∃ old adm,
      let record := admitted_scope (scope_owner old) grants (expected + 1) adm in
      session a' = replaced scope old record now s ∧
      v = MkScopeView scope (expected + 1) (admission_manifest adm) ∧
      scopes s !! scope = Some old ∧ scope_revision old = expected ∧ expected < u64_max ∧
      check_time s now = None ∧
      payload_fits s (payloadCharge old) (payloadCharge record) = true ∧ admitted grants now adm a'
  | RevokeScope scope expected, DoneReply => ∃ old,
      session a' = revoked scope old s ∧ scopes s !! scope = Some old ∧ scope_revision old = expected
  | Discover caller scope now, ViewReply v => ∃ record,
      session a' = set_lastNow (Some now) s ∧ view_scope v = scope ∧ view_revision v = scope_revision record ∧
      owned_scope s caller scope = Some record ∧ check_time s now = None ∧
      nowMs (view_manifest v) = now ∧
      host_scope_targets (scope_grants record) (live a) = (Ok (Some (scope_targets record)), live a) ∧
      capturedEntries (captureData (view_manifest v)) = capturedEntries (scope_capture record) ∧
      manifest_logicalBytes (view_manifest v) <= maxManifestBytes (impl_limits s)
  | Submit caller submission, ProposalReply id => ∃ record,
      let p := MkProposal id (impl_id s) (submission_scope submission) (scope_revision record)
        LuaAuthoringContract (submission_source submission) (submission_rationale submission) None in
      let candidate := MkProposalRecord p (scope_owner record) (scope_capture record) in
      session a' = submitted id candidate s ∧ id = lastProposal s + 1 ∧ id <= maxIdValue (impl_limits s) ∧
      owned_scope s caller (submission_scope submission) = Some record ∧
      scope_revision record = expectedScopeRevision submission ∧
      N.of_nat (size (proposals s)) < maxProposals (impl_limits s) ∧
      payload_fits s 0 (proposal_charge candidate) = true ∧
      host_scope_targets (scope_grants record) (live a) = (Ok (Some (scope_targets record)), live a)
  | RegisterSuite suite, DoneReply =>
      session a' = registered suite s ∧ lastProposal s = 0 ∧ proposals s = ∅ ∧
      suites s !! suite_id suite = None ∧ check_suite suite (impl_limits s) = None
  | Evaluate caller id fixture, RecordReply r => ∃ ticket,
      session a' = evaluated ticket fixture s ∧ r = (kept_record ticket fixture s).2 ∧
      admitted_evaluation caller id fixture s ticket
  | _, _ => False
  end.

Lemma perform_commits o a : replies (perform o) (committed o a) a.
Proof.
  destruct o; cbn [perform]; (eapply replies_reply;
    [first [apply create_scope_commits|apply replace_scope_commits|apply revoke_scope_commits|apply discover_commits
       |apply submit_commits|apply register_commits|apply evaluate_commits]|]); intros v a' Hc; exact Hc.
Qed.

Lemma committed_ok o a x a' :
  session_ok (session a) → admissible o → committed o a x a' → session_ok (session a').
Proof.
  intros Ho Ha. destruct o, x; cbn; try done.
  - intros (adm & E & -> & _ & Hi & Hn & Hf & Hx). rewrite E. cbn [view_scope].
    by apply (created_ok _ _ _ _ now adm a'); try rewrite E.
  - intros (old & adm & E & -> & Hsc & <- & Hr & _ & Hf & Hx). rewrite E.
    by apply (replaced_ok _ _ _ _ _ now adm a'); try rewrite E.
  - intros (old & -> & Hsc & _). by apply revoked_ok.
  - intros (r & -> & _). by apply clock_ok.
  - intros (r & -> & -> & Hi & (_ & Hsc & _)%owned_scope_Some & _ & Hn & Hf & _). by apply (submitted_ok _ _ r).
  - intros (-> & _ & _ & Hnew & Hck). by apply registered_ok.
  - intros (t & -> & _ & Ht). by eapply evaluated_ok.
Qed.

(** ** Histories *)

(** [(o, r)]: a call and its reply *)
Abbreviation Log := (list (session_call * AuthoringResult reply)).

Inductive history a : Log → Authoring → Prop :=
| history_start : history a [] a
| history_call l a1 a2 o r :
    history a l a1 → admissible o → perform o a1 = (Ok r, a2) → history a (l ++ [(o, r)]) a2
| history_world l a1 h :
    history a l a1 → usable h → history a l (set_live h a1).

Lemma perform_spec o a :
  usable (live a) → ∃ r a', perform o a = (Ok r, a') ∧ usable (live a') ∧ same_world (live a) (live a') ∧
    match r with inl x => committed o a x a' | inr _ => session a' = session a end.
Proof.
  intros Hv. pose proof (perform_commits o a Hv) as Hc. unfold wp in Hc. destruct (perform o a) as [y a'].
  cbn in Hc. destruct Hc as (Hv' & Hw & r & -> & Hr). by exists r, a'.
Qed.

Lemma perform_ok o a r a' :
  usable (live a) → perform o a = (Ok r, a') → usable (live a') ∧
    match r with inl x => committed o a x a' | inr _ => session a' = session a end.
Proof.
  intros Hv E. destruct (perform_spec o a Hv) as (r' & a2 & E' & Hv' & _ & Hr). rewrite E in E'.
  injection E' as -> ->. by split.
Qed.

(** An induction over histories, call by call *)
Lemma history_ind' a (I : Log → Impl → Prop) :
  usable (live a) → I [] (session a) →
  (∀ l a1 a2 o x, I l (session a1) → admissible o → committed o a1 x a2 →
    I (l ++ [(o, inl x)]) (session a2)) →
  (∀ l s o e, I l s → I (l ++ [(o, inr e)]) s) →
  ∀ l a', history a l a' → usable (live a') ∧ I l (session a').
Proof.
  intros Hv H0' Hs He l a' Hh. induction Hh as [|l a1 a2 o r Hh [Hv1 HI] Ha E|l a1 h Hh [Hv1 HI] Hu]; [done| |done].
  destruct (perform_ok o a1 r a2 Hv1 E) as [Hv2 Hr]. split; [done|]. destruct r as [x|e].
  - by eapply Hs.
  - rewrite Hr. by apply He.
Qed.

Lemma history_session_ok a l a' :
  usable (live a) → session_ok (session a) → history a l a' → usable (live a') ∧ session_ok (session a').
Proof.
  intros Hv Ho. apply (history_ind' a (λ _ s, session_ok s)); [done|done| |done].
  intros l0 a1 a2 o x H1' H2' H3'. by eapply committed_ok.
Qed.

(** The sessions that the constructor makes *)
Definition opened (id : string) (type : ComponentType) (limits : AuthoringLimits) : Impl :=
  MkImpl id limits type None 0 0 ∅ ∅ ∅ 0 ∅ 0.

Lemma new_session_opened id type limits h s h' :
  new_AuthoringSession id type limits h = (Ok s, h') → s = opened id type limits ∧ valid_limits limits = true.
Proof.
  unfold new_AuthoringSession, mbind, stm_bind. destruct (type_id type =? _); [done|].
  destruct (host_instance_id h) as [[i|e] h1]; [|done]. unfold sreject_if, slift, reject_if.
  destruct (negb (type_world type =? i)); [done|]. unfold stry.
  destruct (host_component_type type h1) as [[t|e] h2]; cbn.
  - destruct (valid_limits limits); cbn; [by intros [= <- <-]|done].
  - by destruct (decide _).
Qed.

Lemma opened_session_ok id type limits : valid_limits limits = true → session_ok (opened id type limits).
Proof.
  intros Hl. split; cbn; try done.
  - apply N.le_0_l.
  - split_and!; apply N.le_0_l.
  - split_and!; apply N.le_0_l.
Qed.

(** A history of a session from its start *)
Definition session_history (id : string) (type : ComponentType) (limits : AuthoringLimits) (l : Log) a : Prop :=
  ∃ h0 s h1 h, new_AuthoringSession id type limits h0 = (Ok s, h1) ∧ usable h ∧ history (MkAuthoring s h) l a.

Lemma session_history_ok id type limits l a :
  session_history id type limits l a → usable (live a) ∧ session_ok (session a).
Proof.
  intros (h0 & s & h1 & h & E & Hu & Hh). destruct (new_session_opened _ _ _ _ _ _ E) as [-> Hl].
  eapply history_session_ok; [| |exact Hh]; [done|by apply opened_session_ok].
Qed.

Lemma session_history_ind id type limits (I : Log → Impl → Prop) :
  I [] (opened id type limits) →
  (∀ l a1 a2 o x, session_ok (session a1) → I l (session a1) → committed o a1 x a2 →
    I (l ++ [(o, inl x)]) (session a2)) →
  (∀ l s o e, I l s → I (l ++ [(o, inr e)]) s) →
  ∀ l a, session_history id type limits l a → I l (session a).
Proof.
  intros HI Hs He l a (h0 & s & h1 & h & E & Hu & Hh). destruct (new_session_opened _ _ _ _ _ _ E) as [-> Hl].
  destruct (history_ind' (MkAuthoring (opened id type limits) h) (λ l s, session_ok s ∧ I l s)
    Hu (conj (opened_session_ok _ _ _ Hl) HI)) with l a as [_ [_ Hr]]; [| |done|done].
  - intros k a1 a2 o x [Ho Hk] Ha Hc. split; [by eapply committed_ok|by eapply Hs].
  - intros k t o e [Ho Hk]. split; [done|by apply He].
Qed.

(** What a session never changes *)
Lemma committed_fixed o a x a' :
  committed o a x a' → impl_id (session a') = impl_id (session a) ∧
  impl_limits (session a') = impl_limits (session a) ∧ scriptType (session a') = scriptType (session a).
Proof.
  destruct o, x; cbn; try done; [intros (? & -> & _)|intros (? & ? & -> & _)|intros (? & -> & _)..|intros (-> & _)|
    intros (? & -> & _)]; done.
Qed.

Lemma session_history_fixed id type limits l a :
  session_history id type limits l a →
  impl_id (session a) = id ∧ impl_limits (session a) = limits ∧ scriptType (session a) = type.
Proof.
  apply (session_history_ind id type limits (λ _ s, impl_id s = id ∧ impl_limits s = limits ∧ scriptType s = type));
    [done| |done].
  intros k a1 a2 o x _ Hk (-> & -> & ->)%committed_fixed. done.
Qed.
End Histories.
