(* ===== verification/AuthoringGuarantees.v ===== *)
(** * What holds of every history of a session

    Payload and identifiers, failed calls, callers that own nothing, the targets
    of a scope revision, and what a passed evaluation says. *)
From S2P Require Import Prelude OrderedMap Values Hoare Effects Events EventStore Adapters Ids Components LuaSchema LuaManifest LuaRunner Runtime EvaluationTypes EvaluationAccounting EvaluationStore EvaluationTrace EvaluationTotals EvaluationManifest EvaluationCase EvaluationRuns EvaluationSuites AuthoringChecks AuthoringSession AuthoringSpec AuthoringRuns.

Section Guarantees.
Context {H : Type} {usable : H → Prop} {same_world : relation H} `{ScopeHostLaws H usable same_world}.
Context {P : Type} `{PreparedWorldLaws P}.
Abbreviation Authoring := (AuthoringSession.Authoring (H := H) (P := P)).
Abbreviation Impl := (AuthoringSession.Impl (P := P)).
Abbreviation Suite := (EvaluationSuite (P := P)).
Abbreviation Call := (session_call (P := P)).
Abbreviation Log := (list (Call * AuthoringResult reply)).
Abbreviation session_history := (session_history (usable := usable) (H := H) (P := P)).
Implicit Types (a : Authoring) (s : Impl) (l : Log).

(** ** The payload *)

(** C25. The payload counter of a session is, after any history, exactly the sum of
    the charges of all it retains, and with the numbers of scopes, proposals and
    evaluations within the limits; no sum or difference of the code wraps, and
    an evaluation never costs more than was reserved for it. *)
Theorem payload_accounted id type limits l a :
  session_history id type limits l a →
  sessionPayloadBytes (session a) = retained_bytes (session a) ∧
  sessionPayloadBytes (session a) <= maxSessionPayloadBytes limits ∧
  N.of_nat (size (scopes (session a))) <= maxActiveScopes limits ∧
  N.of_nat (size (proposals (session a))) <= maxProposals limits ∧
  N.of_nat (size (evaluations (session a))) <= maxEvaluations limits.
Proof.
  intros Hh. destruct (session_history_ok _ _ _ _ _ Hh) as [_ Ho].
  destruct (session_history_fixed _ _ _ _ _ Hh) as (_ & <- & _).
  split; [by apply so_payload|]. split; [by apply so_ceiling|]. by apply so_counts.
Qed.

(** ** Failed calls *)

(** C26. A call never throws.  It leaves the live world alone, and where it returns
    an error it leaves the session exactly as it was. *)
Theorem failed_calls_change_nothing id type limits l a o :
  session_history id type limits l a →
  ∃ r a', perform o a = (Ok r, a') ∧ same_world (live a) (live a') ∧
    ∀ e, r = inr e → session a' = session a.
Proof.
  intros Hh. destruct (session_history_ok _ _ _ _ _ Hh) as [Hv _].
  destruct (perform_spec o a Hv) as (r & a' & E & _ & Hw & Hr). exists r, a'. split_and!; [done|done|].
  by intros e ->.
Qed.

(** ** Identifiers and the clock *)

Definition issued_scope (c : Call * AuthoringResult reply) : option N :=
  match c with (CreateScope _ _ _, inl (ViewReply v)) => Some (view_scope v) | _ => None end.
Definition issued_proposal (c : Call * AuthoringResult reply) : option N :=
  match c with (Submit _ _, inl (ProposalReply id)) => Some id | _ => None end.
Definition issued_evaluation (c : Call * AuthoringResult reply) : option N :=
  match c with (Evaluate _ _ _, inl (RecordReply r)) => Some (record_id r) | _ => None end.
(** The time of a call that succeeded *)
Definition call_time (c : Call * AuthoringResult reply) : option N :=
  match c with
  | (CreateScope _ _ now, inl _) | (ReplaceScope _ _ _ now, inl _) | (Discover _ _ now, inl _) => Some now
  | _ => None
  end.

Definition counting (n : N) : list N := N.of_nat <$> seq 1 (N.to_nat n).
Lemma counting_next n : counting (n + 1) = counting n ++ [n + 1].
Proof.
  unfold counting. replace (N.to_nat (n + 1)) with (S (N.to_nat n)) by lia.
  rewrite seq_S, fmap_app. cbn. do 2 f_equal. lia.
Qed.

Record numbered l s : Prop := {
  nu_scopes : omap issued_scope l = counting (lastScope s);
  nu_proposals : omap issued_proposal l = counting (lastProposal s);
  nu_evaluations : omap issued_evaluation l = counting (lastEvaluation s);
  nu_sorted : StronglySorted N.le (omap call_time l);
  nu_clock : ∀ t, t ∈ omap call_time l → ∃ now, lastNow s = Some now ∧ t <= now
}.

Lemma StronglySorted_snoc (ts : list N) (t : N) :
  StronglySorted N.le ts → (∀ x, x ∈ ts → x <= t) → StronglySorted N.le (ts ++ [t]).
Proof.
  induction 1 as [|x ts Hs IH Hx]; intros Ht; cbn; [repeat constructor|].
  constructor; [apply IH; intros y Hy; apply Ht; by right|].
  apply Forall_app. split; [done|]. constructor; [|constructor]. apply Ht. by left.
Qed.

Lemma check_time_spec s now : check_time s now = None ↔
  now <= int64_max ∧ ∀ t, lastNow s = Some t → t <= now.
Proof.
  unfold check_time. destruct (N.ltb_spec int64_max now); [split; [done|lia]|].
  destruct (lastNow s) as [t|]; [|naive_solver]. destruct (N.ltb_spec now t); split; try done; [|intros _].
  - intros [_ Ht]. specialize (Ht t eq_refl). lia.
  - split; [done|]. by intros ? [= <-].
Qed.

(** A call that moves the clock *)
Lemma clocked s now ts :
  check_time s now = None → StronglySorted N.le ts →
  (∀ t, t ∈ ts → ∃ n, lastNow s = Some n ∧ t <= n) →
  StronglySorted N.le (ts ++ [now]) ∧ ∀ t, t ∈ ts ++ [now] → ∃ n, Some now = Some n ∧ t <= n.
Proof.
  intros [_ Ht]%check_time_spec Hs Hc.
  assert (∀ t, t ∈ ts → t <= now) as Hle.
  { intros t Hin. destruct (Hc t Hin) as (n & En & Hn). specialize (Ht n En). lia. }
  split; [by apply StronglySorted_snoc|]. intros t [Hin| ->%list_elem_of_singleton]%elem_of_app; exists now; auto with lia.
Qed.

Lemma committed_numbered l a o x a' :
  numbered l (session a) → committed o a x a' → numbered (l ++ [(o, inl x)]) (session a').
Proof.
  intros [N1 N2 N3 N4 N5]. destruct o, x; cbn [committed]; try done.
  - intros (adm & -> & -> & Ht & _). destruct (clocked _ _ _ Ht N4 N5).
    split; rewrite omap_app; cbn -[counting]; rewrite ?app_nil_r; try done. by rewrite N1, counting_next.
  - intros (old & adm & -> & -> & _ & _ & _ & Ht & _). destruct (clocked _ _ _ Ht N4 N5).
    by split; rewrite omap_app; cbn; rewrite ?app_nil_r.
  - intros (old & -> & _). by split; rewrite omap_app; cbn; rewrite ?app_nil_r.
  - intros (r & -> & _ & _ & _ & Ht & _). destruct (clocked _ _ _ Ht N4 N5).
    by split; rewrite omap_app; cbn; rewrite ?app_nil_r.
  - intros (r & -> & -> & _). split; rewrite omap_app; cbn -[counting]; rewrite ?app_nil_r; try done.
    by rewrite N2, counting_next.
  - intros (-> & _). by split; rewrite omap_app; cbn; rewrite ?app_nil_r.
  - intros (t & -> & -> & [_ _ _ [Hid _] _ _ _]). destruct (kept_record_fields t fixture (session a)) as (Hk & _).
    split; rewrite omap_app; cbn -[counting]; rewrite ?app_nil_r; try done. by rewrite Hk, N3, Hid, counting_next.
Qed.

(** C28. Whatever happens in between, the scopes, the proposals and the evaluations
    of a session get the identifiers 1, 2, 3 and so on, each once and none of
    them 0; and the times of the calls that succeed never go back. *)
Theorem identifiers_issued_in_order id type limits l a :
  session_history id type limits l a →
  omap issued_scope l = counting (lastScope (session a)) ∧
  omap issued_proposal l = counting (lastProposal (session a)) ∧
  omap issued_evaluation l = counting (lastEvaluation (session a)) ∧
  StronglySorted N.le (omap call_time l).
Proof.
  intros Hh. assert (numbered l (session a)) as [? ? ? ? ?]; [|done].
  revert l a Hh. apply (session_history_ind id type limits numbered).
  - split; cbn; try done; [constructor|]. by intros t ?%elem_of_nil.
  - intros l a1 a2 o x _ Hn Hc. by eapply committed_numbered.
  - intros l s o e [N1 N2 N3 N4 N5].
    split; rewrite omap_app; destruct o; cbn; rewrite ?app_nil_r; done.
Qed.

(** ** Callers that own nothing *)

(** What is not the caller's *)
Definition foreign_scope s (caller : CallerContext) (scope : ScopeId) : Prop :=
  ∀ r, scopes s !! scope = Some r → caller_session caller ≠ impl_id s ∨ scope_owner r ≠ caller_owner caller.
Definition foreign_proposal s (caller : CallerContext) (id : ProposalId) : Prop :=
  ∀ r, proposals s !! id = Some r → caller_session caller ≠ impl_id s ∨ proposal_owner r ≠ caller_owner caller.

Lemma foreign_scope_None s caller scope : foreign_scope s caller scope → owned_scope s caller scope = None.
Proof.
  intros Hf. destruct (owned_scope s caller scope) as [r|] eqn:E; [|done].
  apply owned_scope_Some in E as (Es & Er & Eo). by destruct (Hf r Er).
Qed.
Lemma foreign_proposal_None s caller id : foreign_proposal s caller id → owned_proposal s caller id = None.
Proof.
  intros Hf. destruct (owned_proposal s caller id) as [r|] eqn:E; [|done].
  apply owned_proposal_Some in E as (Es & Er & Eo). by destruct (Hf r Er).
Qed.

Definition refused {A} (what path : string) : AuthoringResult A :=
  inr (make_error AuthoringErrorCode.NotFound what (Some path)).

(** C27. A caller cannot tell what it does not own from what does not exist: of a
    scope or a proposal of another owner, or of any from another session, it gets
    the reply that an identifier never issued gets, nothing is read and nothing
    changes. *)
Theorem foreign_is_absent a caller scope id :
  foreign_scope (session a) caller scope → foreign_proposal (session a) caller id →
  (∀ now, discover caller scope now a = (Ok (refused "scope does not exist for this caller" "scope"), a)) ∧
  (∀ submission, submission_scope submission = scope →
    submit caller submission a = (Ok (refused "scope does not exist for this caller" "scope"), a)) ∧
  proposal caller id a = (Ok (refused "proposal does not exist for this caller" "proposal"), a) ∧
  (∀ fixture, evaluate caller id fixture a =
    (Ok (refused "proposal does not exist for this caller" "proposal"), a)).
Proof.
  intros Hs%foreign_scope_None Hp%foreign_proposal_None.
  unfold discover, submit, proposal, evaluate, admit_evaluation, stry, mbind, stm_bind, sget.
  split_and!.
  - intros now. by rewrite Hs.
  - intros sub ->. by rewrite Hs.
  - by rewrite Hp.
  - intros fixture. by rewrite Hp.
Qed.

(** ** The targets of a scope revision *)

(** The views of [l] against the scopes there are *)
Record viewed (type : ComponentTypeId) l s : Prop := {
  vw_issued o v : (o, inl (ViewReply v)) ∈ l → view_scope v <= lastScope s;
  vw_script o v : (o, inl (ViewReply v)) ∈ l →
    Forall (λ t, scope_type t ≠ type) (map entry_target (capturedEntries (captureData (view_manifest v))));
  vw_current o v r : (o, inl (ViewReply v)) ∈ l → scopes s !! view_scope v = Some r →
    view_revision v <= scope_revision r ∧
    (view_revision v = scope_revision r →
     capturedEntries (captureData (view_manifest v)) = capturedEntries (scope_capture r));
  vw_same o v o' v' : (o, inl (ViewReply v)) ∈ l → (o', inl (ViewReply v')) ∈ l →
    view_scope v = view_scope v' → view_revision v = view_revision v' →
    capturedEntries (captureData (view_manifest v)) = capturedEntries (captureData (view_manifest v'))
}.

(** A call without a view that keeps the scopes, or loses some. *)
Lemma viewed_more type l s s' o x :
  viewed type l s → (∀ v, x ≠ inl (ViewReply v)) → lastScope s' = lastScope s → scopes s' ⊆ scopes s →
  viewed type (l ++ [(o, x)]) s'.
Proof.
  intros [V1 V2 V3 V4] Hx El Hs.
  assert (∀ o' v, (o', inl (ViewReply v)) ∈ l ++ [(o, x)] → (o', inl (ViewReply v)) ∈ l) as Hin.
  { intros o' v [Hin|[= -> <-]%list_elem_of_singleton]%elem_of_app; [done|]. by destruct (Hx v). }
  split; [rewrite El|..]; eauto. intros o' v r Hv Hr. eapply V3; [by apply Hin|]. by eapply lookup_weaken.
Qed.

(** A view of a scope as it is now *)
Lemma viewed_view type l s s' o v r :
  viewed type l s →
  lastScope s <= lastScope s' → view_scope v <= lastScope s' →
  scopes s' !! view_scope v = Some r → view_revision v = scope_revision r →
  capturedEntries (captureData (view_manifest v)) = capturedEntries (scope_capture r) →
  Forall (λ t, scope_type t ≠ type) (map entry_target (capturedEntries (captureData (view_manifest v)))) →
  (∀ o' v', (o', inl (ViewReply v')) ∈ l → view_scope v' = view_scope v →
    view_revision v' <= view_revision v ∧ (view_revision v' = view_revision v →
      capturedEntries (captureData (view_manifest v')) = capturedEntries (captureData (view_manifest v)))) →
  (∀ i, i ≠ view_scope v → i <= lastScope s → scopes s' !! i = scopes s !! i) →
  viewed type (l ++ [(o, inl (ViewReply v))]) s'.
Proof.
  intros [V1 V2 V3 V4] Hle Hv Hr Hrev Hent Hscr Hold Hkeep.
  assert (∀ o' v', (o', inl (ViewReply v')) ∈ l ++ [(o, inl (ViewReply v))] →
    (o', inl (ViewReply v')) ∈ l ∨ v' = v) as Hin.
  { intros o' v' [Hin|[= -> ->]%list_elem_of_singleton]%elem_of_app; auto. }
  split.
  - intros o' v' [Hi| ->]%Hin; [|done]. by etrans; [eapply V1|].
  - intros o' v' [Hi| ->]%Hin; [|done]. by eapply V2.
  - intros o' v' r' [Hi| ->]%Hin Hr'; [|naive_solver lia].
    destruct (decide (view_scope v' = view_scope v)) as [E|E].
    + rewrite E, Hr in Hr'. injection Hr' as <-. destruct (Hold o' v' Hi E) as [Ho1 Ho2]. rewrite <-Hrev.
      split; [done|]. intros E'. by rewrite Ho2.
    + rewrite Hkeep in Hr' by (try done; by eapply V1). by eapply V3.
  - intros o1 v1 o2 v2 [Hi1| ->]%Hin [Hi2| ->]%Hin Es Er; [by eapply V4|..|done].
    + by eapply Hold.
    + symmetry. eapply Hold; [exact Hi2|by symmetry|by symmetry].
Qed.

Lemma admitted_entries grants now x a :
  admitted grants now x a → Forall (λ t, scope_type t ≠ type_id (scriptType (session a)))
    (map entry_target (capturedEntries (captureData (admission_manifest x)))).
Proof. intros [_ _ Hs Hf _]. by rewrite Hs. Qed.

Lemma committed_viewed type l a o x a' :
  session_ok (session a) → type_id (scriptType (session a)) = type →
  viewed type l (session a) → committed o a x a' → viewed type (l ++ [(o, inl x)]) (session a').
Proof.
  intros Ho Et Hv Hc. pose proof (committed_fixed _ _ _ _ Hc) as (_ & _ & Ety).
  destruct o, x; cbn [committed] in Hc; try done.
  - destruct Hc as (adm & E & -> & _ & _ & _ & _ & Hx). apply admitted_entries in Hx. rewrite Ety, Et in Hx.
    rewrite E. pose proof (fresh_scope _ Ho) as Hnew. unfold created. cbn [view_scope].
    apply (viewed_view _ _ _ _ _ _ (admitted_scope owner grants 1 adm) Hv); cbn; [lia|lia| |done|done|exact Hx|..].
    + rewrite map_emplace_fresh by done. apply lookup_insert_eq.
    + intros o' v' Hi Es. apply (vw_issued _ _ _ Hv) in Hi. lia.
    + intros i Hne _. rewrite map_emplace_fresh by done. by rewrite lookup_insert_ne.
  - destruct Hc as (old & adm & E & -> & Hsc & <- & _ & _ & _ & Hx). apply admitted_entries in Hx. rewrite Ety, Et in Hx.
    rewrite E. pose proof (sc_id _ _ _ (so_scopes _ Ho _ _ Hsc)) as Hid. unfold replaced.
    apply (viewed_view _ _ _ _ _ _ (admitted_scope (scope_owner old) grants (scope_revision old + 1) adm) Hv);
      cbn; [lia|lia| |done|done|exact Hx|..].
    + apply lookup_insert_eq.
    + intros o' v' Hi Es. rewrite <-Es in Hsc. destruct (vw_current _ _ _ Hv _ _ _ Hi Hsc). split; lia.
    + intros i Hne _. by rewrite lookup_insert_ne.
  - destruct Hc as (old & -> & _). eapply viewed_more; [exact Hv|done|done|]. apply delete_subseteq.
  - destruct Hc as (r & -> & Es & Er & (_ & Hsc & _)%owned_scope_Some & _ & _ & _ & Hent & _).
    rewrite <-Es in Hsc. destruct (so_scopes _ Ho _ _ Hsc) as [Hid _ Hscr Hsh].
    eapply viewed_view; [exact Hv|done|cbn; lia|exact Hsc|exact Er|exact Hent|..]; [|intros o' v' Hi Eq|done].
    + rewrite Hent, Hsh. by rewrite <-Et.
    + rewrite <-Eq in Hsc. destruct (vw_current _ _ _ Hv _ _ _ Hi Hsc) as [Hc1 Hc2]. rewrite Er, Hent. by split.
  - destruct Hc as (r & -> & _). by eapply viewed_more; [exact Hv|..].
  - destruct Hc as (-> & _). by eapply viewed_more; [exact Hv|..].
  - destruct Hc as (t & -> & _). by eapply viewed_more; [exact Hv|..].
Qed.

Lemma history_viewed id type limits l a :
  session_history id type limits l a → viewed (type_id type) l (session a).
Proof.
  intros Hh. assert (scriptType (session a) = type ∧ viewed (type_id type) l (session a)) as [_ ?]; [|done].
  revert l a Hh. apply (session_history_ind id type limits (λ l s, scriptType s = type ∧ viewed (type_id type) l s)).
  - split; [done|]. by split; intros; match goal with Hi : _ ∈ [] |- _ => by apply elem_of_nil in Hi end.
  - intros l a1 a2 o1 x Ho [Et Hw] Hc. split; [by destruct (committed_fixed _ _ _ _ Hc) as (_ & _ & ->)|].
    eapply committed_viewed; [done|by rewrite Et|done|done].
  - intros l s o1 e [Et Hw]. split; [done|]. by eapply viewed_more.
Qed.

(** C24. A scope revision stands for the same components for ever: whatever became
    of the live world between two calls, any two views that a session gave out
    for one revision of a scope show the same components, each by its slot with
    its generation, so a component that was removed and made again under its
    name is never taken for the one that was granted; and no view ever shows a
    component of the script type. *)
Theorem revisions_keep_their_targets id type limits l a o v o' v' :
  session_history id type limits l a →
  (o, inl (ViewReply v)) ∈ l → (o', inl (ViewReply v')) ∈ l →
  Forall (λ e, entry_type e ≠ type_id type) (capturedEntries (captureData (view_manifest v))) ∧
  (view_scope v = view_scope v' → view_revision v = view_revision v' →
   capturedEntries (captureData (view_manifest v)) = capturedEntries (captureData (view_manifest v'))).
Proof.
  intros [V1 V2 V3 V4]%history_viewed Hv Hv'. split; [|by eapply V4].
  specialize (V2 o v Hv). rewrite Forall_map in V2. exact V2.
Qed.

(** ** Passed evaluations *)

(** The grants a call asks for *)
Definition granting (o : Call) : option (list LuaScopeGrant) :=
  match o with
  | CreateScope _ grants _ | ReplaceScope _ _ grants _ => Some grants
  | _ => None
  end.

(** What the session holds came from calls of [l]. *)
Record sourced l s : Prop := {
  sd_proposals id p : proposals s !! id = Some p → ∃ caller sub,
    (Submit caller sub, inl (ProposalReply id)) ∈ l ∧ caller_owner caller = proposal_owner p ∧
    let q := record_of_proposal p in
    proposal_id q = id ∧ proposal_source q = submission_source sub ∧ proposal_scope q = submission_scope sub ∧
    proposal_scopeRevision q = expectedScopeRevision sub;
  sd_scopes id r : scopes s !! id = Some r → ∃ o v,
    (o, inl (ViewReply v)) ∈ l ∧ granting o = Some (scope_grants r) ∧ view_scope v = id ∧
    view_revision v = scope_revision r ∧
    capturedEntries (captureData (view_manifest v)) = capturedEntries (scope_capture r);
  sd_suites id suite : suites s !! id = Some suite →
    suite_id suite = id ∧ (RegisterSuite suite, inl DoneReply) ∈ l
}.

Lemma sourced_more l s s' c :
  sourced l s → proposals s' ⊆ proposals s → scopes s' ⊆ scopes s → suites s' ⊆ suites s →
  sourced (l ++ [c]) s'.
Proof.
  intros [S1 S2 S3] Hp Hs Hu. split.
  - intros id p E. destruct (S1 id p (lookup_weaken _ _ _ _ E Hp)) as (c' & sub & Hi & Hr). exists c', sub.
    split; [|done]. apply elem_of_app. by left.
  - intros id r E. destruct (S2 id r (lookup_weaken _ _ _ _ E Hs)) as (o & v & Hi & Hr). exists o, v.
    split; [|done]. apply elem_of_app. by left.
  - intros id su E. destruct (S3 id su (lookup_weaken _ _ _ _ E Hu)) as [Hi Hr].
    split; [done|]. apply elem_of_app. by left.
Qed.

Lemma last_elem (l : Log) c : c ∈ l ++ [c].
Proof. apply elem_of_app. right. apply list_elem_of_singleton. done. Qed.

(** The scope of the last view *)
Lemma sourced_scope l s s' o v r :
  sourced l s → granting o = Some (scope_grants r) → view_revision v = scope_revision r →
  capturedEntries (captureData (view_manifest v)) = capturedEntries (scope_capture r) →
  proposals s' = proposals s → suites s' = suites s → scopes s' = <[view_scope v := r]> (scopes s) →
  sourced (l ++ [(o, inl (ViewReply v))]) s'.
Proof.
  intros Hso Hg Hr He Ep Eu Es.
  destruct (sourced_more l s s (o, inl (ViewReply v)) Hso) as [S1 S2 S3]; [done..|].
  split; rewrite ?Ep, ?Eu; [done| |done].
  rewrite Es. intros id r' [[<- <-]|[_ E]]%lookup_insert_Some; [|by apply S2].
  exists o, v. split_and!; try done. apply last_elem.
Qed.

Lemma committed_sourced l a o x a' :
  session_ok (session a) → sourced l (session a) → committed o a x a' → sourced (l ++ [(o, inl x)]) (session a').
Proof.
  intros Ho Hso Hc. destruct o, x; cbn [committed] in Hc; try done.
  - destruct Hc as (adm & -> & -> & _).
    apply (sourced_scope l (session a) _ _ _ (admitted_scope owner grants 1 adm)); try done.
    unfold created. cbn. apply map_emplace_fresh, fresh_scope, Ho.
  - destruct Hc as (old & adm & -> & -> & Hsc & <- & _).
    by apply (sourced_scope l (session a) _ _ _ (admitted_scope (scope_owner old) grants (scope_revision old + 1) adm)).
  - destruct Hc as (old & -> & _). apply (sourced_more l (session a)); try done. apply delete_subseteq.
  - destruct Hc as (r & -> & _). by apply (sourced_more l (session a)).
  - destruct Hc as (r & -> & -> & _ & (_ & _ & Eo)%owned_scope_Some & Hr & _).
    destruct (sourced_more l (session a) (session a) (Submit caller submission, inl (ProposalReply (lastProposal (session a) + 1))) Hso)
      as [S1 S2 S3]; [done..|]. unfold submitted. rewrite map_emplace_fresh by by apply fresh_proposal.
    split; [|done|done]. cbn. intros i p [[<- <-]|[_ E]]%lookup_insert_Some; [|by apply S1].
    exists caller, submission. split_and!; try done. apply last_elem.
  - destruct Hc as (-> & _ & _ & Hnew & _).
    destruct (sourced_more l (session a) (session a) (RegisterSuite suite, inl DoneReply) Hso)
      as [S1 S2 S3]; [done..|]. unfold registered. rewrite map_emplace_fresh by done.
    split; [done|done|]. cbn. intros i su [[<- <-]|[_ E]]%lookup_insert_Some; [|by apply S3].
    split; [done|apply last_elem].
  - destruct Hc as (t & -> & _). by apply (sourced_more l (session a)).
Qed.

(** What the calls before say about a passed evaluation: the source is what was
    submitted, the suite is what was registered, the grants are those of the
    scope revision it was submitted for, and every case passed. *)
Definition passed_as_submitted (limits : AuthoringLimits) l (caller : CallerContext) (id : ProposalId)
    (fixture : EvaluationFixtureId) (r : EvaluationRecord) : Prop :=
  ∃ author submission suite o v grants manifest outcome,
    (Submit author submission, inl (ProposalReply id)) ∈ l ∧ caller_owner author = caller_owner caller ∧
    (RegisterSuite suite, inl DoneReply) ∈ l ∧ suite_id suite = fixture ∧
    (o, inl (ViewReply v)) ∈ l ∧ granting o = Some grants ∧
    view_scope v = submission_scope submission ∧ view_revision v = expectedScopeRevision submission ∧
    capturedEntries (captureData manifest) = capturedEntries (captureData (view_manifest v)) ∧
    run_evaluation (MkRun suite (submission_source submission) grants manifest limits) = Ok outcome ∧
    cases r = outcome_cases outcome ∧ suite_ran grants (suite_cases suite) (cases r) EvaluationStatus.Passed ∧
    suite_cases suite ≠ [] ∧ Forall (λ c, frameTimes c ≠ []) (suite_cases suite).

(** A registered suite has cases, and they have frames. *)
Lemma check_suite_nonempty (suite : Suite) limits :
  check_suite suite limits = None →
  suite_cases suite ≠ [] ∧ Forall (λ c, frameTimes c ≠ []) (suite_cases suite).
Proof.
  unfold check_suite. destruct (check_text _ _ _ _); [done|]. destruct (_ =? 0); [done|].
  destruct (bool_decide_reflect (suite_cases suite = [])); [done|]. destruct (_ <? _); [done|]. intros Hc. split; [done|].
  revert Hc. generalize 0. induction (suite_cases suite) as [|c l IH]; intros i; cbn [check_cases]; [constructor|].
  destruct (check_case _ _ _) eqn:E; [done|]. intros Hl. constructor.
  - revert E. unfold check_case. cbv zeta. destruct (check_text _ _ _ _); [done|]. destruct (negb _); [done|].
    by destruct (bool_decide_reflect (frameTimes c = [])).
  - destruct l as [|c' l]; [constructor|]. by apply (IH ltac:(done) (i + 1)).
Qed.

Lemma kept_passed (t : EvaluationTicket (P := P)) fixture s :
  record_status (kept_record t fixture s).2 = EvaluationStatus.Passed →
  ∃ o, run_evaluation (MkRun (ticket_suite t) (proposal_source (ticket_proposal t))
      (ticket_grants t) (ticket_manifest t) (impl_limits s)) = Ok o ∧
    outcome_status o = EvaluationStatus.Passed ∧ cases (kept_record t fixture s).2 = outcome_cases o.
Proof.
  unfold kept_record. pose proof (bound_response_never_partial (unbounded_record t fixture s)
    (maxEvaluationResponseBytes (impl_limits s))) as Hb.
  destruct (bound_response _ _) as [n r]. cbn [snd]. destruct Hb as (_ & _ & Hr). intros Hp.
  destruct (complete r); [|destruct Hr as (_ & Hst & _); by rewrite Hst in Hp].
  destruct Hr as [_ ->]. cbn [set_complete record_status cases unbounded_record] in *.
  unfold evaluation_outcome in *. destruct (run_evaluation _) as [o|e]; [|done]. by exists o.
Qed.

Lemma committed_passed limits l a caller id fixture r a' :
  impl_limits (session a) = limits → session_ok (session a) → sourced l (session a) →
  committed (Evaluate caller id fixture) a (RecordReply r) a' → record_status r = EvaluationStatus.Passed →
  passed_as_submitted limits l caller id fixture r.
Proof.
  intros El Ho [S1 S2 S3]. cbn [committed]. intros (t & _ & -> & [(found & (Hse & Hf & Hown)%owned_proposal_Some & Ep) Hsu
    (scope & Hsc & Hrev & Hg & Hent) _ _ _ _]) (outcome & Er & Hst & Hc)%kept_passed.
  destruct (S1 _ _ Hf) as (author & sub & Hi & Ha & _ & Es & Esc & Erv). rewrite <-Ep in Es, Esc, Erv.
  destruct (S2 _ _ Hsc) as (o & v & Hv & Hgr & Hvs & Hvr & Hve). destruct (S3 _ _ Hsu) as [Hid Hreg].
  exists author, sub, (ticket_suite t), o, v, (ticket_grants t), (ticket_manifest t), outcome.
  destruct (check_suite_nonempty _ _ (su_checked _ _ _ (so_suites _ Ho _ _ Hsu))) as [Hne Hfr].
  rewrite Es, El in Er. split_and!; try done; [congruence..|]. rewrite Hc, <-Hst.
  by apply (run_evaluation_ran _ _ Er).
Qed.

Lemma passed_more limits l c caller id fixture r :
  passed_as_submitted limits l caller id fixture r → passed_as_submitted limits (l ++ [c]) caller id fixture r.
Proof.
  intros (au & sub & su & o & v & g & m & out & H1' & H2' & H3' & H4' & H5' & H6').
  exists au, sub, su, o, v, g, m, out. rewrite !elem_of_app. split_and!; try tauto.
Qed.

(** C23. A record that says that an evaluation passed can be trusted to the letter:
    the very source that its owner submitted, unchanged, ran with the grants of
    the scope revision it was submitted for, on the components that this revision
    shows, in every case of the suite the host registered under the name, and
    each of these cases passed frame by frame. *)
Theorem passed_means_submitted_source_passed id type limits l a caller p fixture r :
  session_history id type limits l a →
  (Evaluate caller p fixture, inl (RecordReply r)) ∈ l → record_status r = EvaluationStatus.Passed →
  passed_as_submitted limits l caller p fixture r.
Proof.
  intros Hh. assert (impl_limits (session a) = limits ∧ sourced l (session a) ∧
    ∀ caller p fixture r, (Evaluate caller p fixture, inl (RecordReply r)) ∈ l →
      record_status r = EvaluationStatus.Passed → passed_as_submitted limits l caller p fixture r)
    as (_ & _ & Hp); [|by apply Hp]. clear caller p fixture r. revert l a Hh.
  apply (session_history_ind id type limits (λ l s, impl_limits s = limits ∧ sourced l s ∧
    ∀ caller p fixture r, (Evaluate caller p fixture, inl (RecordReply r)) ∈ l →
      record_status r = EvaluationStatus.Passed → passed_as_submitted limits l caller p fixture r)).
  - split_and!; [done|split; cbn; by intros ??|]. by intros ????? %elem_of_nil.
  - intros l a1 a2 o x Ho (El & Hso & Hp) Hc. destruct (committed_fixed _ _ _ _ Hc) as (_ & El' & _).
    split; [by rewrite El'|]. split; [by eapply committed_sourced|].
    intros caller p fixture r [Hi|[= <- <-]%list_elem_of_singleton]%elem_of_app Hr; apply passed_more; [by apply Hp|].
    by eapply committed_passed.
  - intros l s o e (El & Hso & Hp). split_and!; [done|by apply (sourced_more l s)|].
    intros caller p fixture r [Hi|[= ]%list_elem_of_singleton]%elem_of_app Hr. apply passed_more. by apply Hp.
Qed.
End Guarantees.
