(* ===== verification/AuthoringHost.v ===== *)
(** * The runner as the host of a session

    The live world with its Lua runner keeps the promises that sessions rest on:
    captures and resolutions leave the world alone, and a manifest shows the
    targets that its grants resolve to. *)
From S2P Require Import Prelude OrderedMap Values Ids Hoare Behaviors Components Coordinator World WorldQueries LuaSchema LuaManifest LuaManifestSpec LuaLimits LuaRunner LuaRunnerSpec AuthoringSession AuthoringSpec.

Section Host.
Context {K : Type} `{Countable K} {El : K → Type}.
Context {Y : Type} `{Countable Y} {D : Type}.
Abbreviation Hosted := (LuaRunner.Hosted (El := El) (Y := Y) (D := D)).
Context (size_of_LuaValue : N) (caller : N) (script : K).
Implicit Types h : Hosted.

Definition RunnerHost : ScopeHost Hosted := {|
  host_scope_manifest := scope_manifest size_of_LuaValue caller;
  host_scope_targets := LuaRunner.scope_targets caller;
  host_instance_id := on_world (WorldQueries.instance_id caller);
  host_component_type type := on_world (WorldQueries.component_type caller script type)
|}.

Definition usable_host h : Prop := runner_ok (runner h) ∧ bindings_typed (runner h).
Definition same_live_world h h' : Prop := world h' = world h.

(** Resolving depends on the bindings and the world only. *)
Lemma admit_grant_after earlier i g h :
  (admit_grant caller earlier i g (set_runner (set_started (runner h)) h)).1 = (admit_grant caller earlier i g h).1.
Proof.
  unfold admit_grant, mbind, stm_bind, sget. cbv zeta. cbn [runner set_runner set_started bindings].
  repeat match goal with |- context [if ?c then _ else _] => destruct c; [done|] end.
  destruct (find_binding _ 0 _) as [[j b]|]; [|done]. destruct (metadata b); [|done].
  unfold on_world, zoom. cbn [world set_runner].
  by destruct (resolveTarget b caller _ (world h)) as [[[slot|]|e] w].
Qed.

Lemma runner_ok_started (r : Runner (El := El) (Y := Y) (D := D)) : runner_ok r → runner_ok (set_started r).
Proof. by intros []; split. Qed.

Lemma resolve_grants_after h l : ∀ earlier i,
  runner_ok (runner h) →
  (resolve_grants caller earlier i l (set_runner (set_started (runner h)) h)).1 =
  (resolve_grants caller earlier i l h).1.
Proof.
  set (h' := set_runner _ h). induction l as [|g l IH]; intros earlier i Hr; [done|].
  assert (runner_ok (runner h')) as Hr' by by apply runner_ok_started.
  destruct (admit_grant_ok caller earlier i g h Hr) as [Hl _].
  destruct (admit_grant_ok caller earlier i g h' Hr') as [Hl' _].
  cbn [resolve_grants]. unfold mbind, stm_bind.
  rewrite (leaves_outcome _ _ Hl), (leaves_outcome _ _ Hl').
  rewrite (admit_grant_after earlier i g h : (admit_grant caller earlier i g h').1 = _).
  destruct (admit_grant _ _ _ _ h).1 as [[[[[j b] m] slot]|e]|e]; [|done..].
  rewrite (leaves_outcome _ _ (leaves_resolve caller h l _ _ Hr)), (leaves_outcome _ _ (leaves_resolve caller h' l _ _ Hr')).
  rewrite IH by done. by destruct (resolve_grants _ _ _ _ h).1 as [[]|].
Qed.

Lemma scope_targets_after h grants :
  runner_ok (runner h) →
  LuaRunner.scope_targets caller grants (set_runner (set_started (runner h)) h) =
  ((LuaRunner.scope_targets caller grants h).1, set_runner (set_started (runner h)) h).
Proof.
  intros Hr. rewrite (leaves_outcome _ _ (leaves_targets caller (set_runner (set_started (runner h)) h) grants
    (runner_ok_started _ Hr))). f_equal. unfold LuaRunner.scope_targets. destruct (_ || _); [done|].
  by apply resolve_grants_after.
Qed.

(** A manifest has an entry for each capability. *)
Lemma manifest_lengths grants now h m :
  (scope_manifest size_of_LuaValue caller grants now h).1 = Ok (inl m) →
  length (manifest_entries m) = length (capturedEntries (captureData m)).
Proof.
  unfold scope_manifest, capturing, stry.
  destruct (lua_integer_max <? now); [done|]. destruct (bool_decide _); [done|].
  destruct (LuaManifestMaxCapabilities <? len grants); [done|]. unfold mbind at 1, stm_bind at 1.
  destruct (on_world _ h) as [[i|e] h1]; [|done]. unfold mbind, stm_bind, sget. cbv zeta.
  destruct (capture_grants _ _ _ _ _ _ h1) as [[[[b n]|e]|e] h2]; [|done..].
  rewrite finish_capture_ok. intros [= <-]. cbn. by rewrite !length_map.
Qed.

Lemma zipped_targets {A} (l : list A) (k : list Entry) caps :
  length l = length k → zip l k ≡ₚ caps →
  map entry_target k ≡ₚ map (λ x, entry_target x.2) caps.
Proof.
  intros Hl Hz. rewrite <-Hz. replace (map entry_target k) with (map entry_target (zip l k).*2).
  - change (zip l k).*2 with (map snd (zip l k)). by rewrite map_map.
  - by rewrite snd_zip by lia.
Qed.

#[export] Instance RunnerHost_laws : @ScopeHostLaws Hosted RunnerHost usable_host same_live_world.
Proof.
  split.
  - unfold same_live_world. split; [done|]. intros a b c. congruence.
  - intros grants now h [Hr Ht]. cbn [host_scope_manifest host_scope_targets RunnerHost].
    destruct (scope_manifest_outcome size_of_LuaValue caller grants now h Hr Ht) as (r & E & Hm).
    pose proof (manifest_lengths grants now h) as Hlen. rewrite E in *. cbn [fst snd] in *.
    split; [|split].
    + destruct r; [|done]. split; [by apply runner_ok_started|done].
    + by destruct r.
    + exists r. split; [done|]. intros m ->. destruct (Hm m eq_refl) as (Hn & _ & caps & _ & Hz & Htg).
      split; [done|]. exists (map target_of caps). cbn [after].
      rewrite scope_targets_after, Htg by done. split; [done|]. unfold shows_targets.
      rewrite (zipped_targets _ _ _ (Hlen m eq_refl) Hz).
      by rewrite map_map.
  - intros grants h [Hr _]. exact (leaves_targets caller h grants Hr).
Qed.
End Host.
