(* ===== verification/AuthoringSamples.v ===== *)
(** * A session at work

    A small host, whose components have one generation, and histories in which
    the guarantees of [AuthoringGuarantees] apply. *)
From S2P Require Import Prelude OrderedMap Values Hoare Effects Events EventStore Adapters Ids Components LuaSchema LuaManifest LuaRunner Runtime EvaluationTypes EvaluationAccounting EvaluationStore EvaluationTrace EvaluationTotals EvaluationManifest EvaluationCase EvaluationRuns EvaluationSuites AuthoringChecks AuthoringSession AuthoringSpec AuthoringRuns AuthoringGuarantees.

(** The live world: the generation of its components *)
#[export] Instance sample_host : ScopeHost N := {
  host_scope_manifest grants now g := (Ok (inl (sample_manifest g grants now)), g);
  host_scope_targets grants g :=
    (Ok (Some (map entry_target (capturedEntries (captureData (sample_manifest g grants 0))))), g);
  host_instance_id := mret 1;
  host_component_type type := mret (type_id type)
}.
Definition always (h : N) : Prop := True.
#[export] Instance sample_host_laws : ScopeHostLaws N always eq.
Proof.
  split; [apply _| |done]. intros grants now h _. split_and!; [done|done|].
  eexists. split; [reflexivity|]. intros m [= <-]. split; [done|]. eexists. split; [reflexivity|]. unfold shows_targets. reflexivity.
Qed.

Abbreviation Authoring := (AuthoringSession.Authoring (H := N) (P := option N)).
Abbreviation Call := (session_call (P := option N)).

(** Calls, and moves of the world *)
Fixpoint play (steps : list (Call + N)) (l : list (Call * AuthoringResult reply)) (a : Authoring)
  : list (Call * AuthoringResult reply) * Authoring :=
  match steps with
  | [] => (l, a)
  | inl o :: steps =>
      match perform o a with
      | (Ok r, a') => play steps (l ++ [(o, r)]) a'
      | (Err _, _) => (l, a)
      end
  | inr h :: steps => play steps l (set_live h a)
  end.

Lemma play_history steps : ∀ l a0 a,
  Forall (λ st, match st with inl o => admissible o | inr _ => True end) steps →
  history (usable := always) a0 l a → history (usable := always) a0 (play steps l a).1 (play steps l a).2.
Proof.
  induction steps as [|[o|h] steps IH]; intros l a0 a Hs Hh; [done|..]; inversion_clear Hs; cbn [play].
  - destruct (perform o a) as [[r|e] a'] eqn:E; [|done]. apply IH; [done|]. by eapply history_call.
  - apply IH; [done|]. by apply history_world.
Qed.

Definition sample_id : string := "0123456789abcdef0123456789abcdef".
Definition script_type : ComponentType := MkComponentType 9 1 1.
Definition sample_session : Authoring :=
  MkAuthoring (opened sample_id script_type default_AuthoringLimits) 3.

Lemma sample_opened :
  ∃ h, new_AuthoringSession (P := option N) sample_id script_type default_AuthoringLimits 3 =
    (Ok (session sample_session), h).
Proof. by eexists. Qed.

Lemma played steps :
  Forall (λ st, match st with inl o => admissible o | inr _ => True end) steps →
  session_history (usable := always) sample_id script_type default_AuthoringLimits
    (play steps [] sample_session).1 (play steps [] sample_session).2.
Proof.
  intros Hs. destruct sample_opened as [h E]. exists 3, (session sample_session), h, 3.
  split; [exact E|]. split; [done|]. apply play_history; [done|]. apply history_start.
Qed.

(** *** A history *)

Definition ann : CallerContext := MkCaller sample_id "ann".
Definition bob : CallerContext := MkCaller sample_id "bob".
Definition early_suite : EvaluationSuite (P := option N) :=
  MkSuite (MkFixture "lamp" 1) [sample_case "early" [1; 2]].
Definition sample_source : string := "intent()".

Definition sample_steps : list (Call + N) :=
  [inl (CreateScope "ann" sample_grants 5);
   inl (RegisterSuite early_suite);
   inl (Submit ann (MkSubmission 1 1 sample_source "why" None None));
   inl (Evaluate ann 1 (MkFixture "lamp" 1));
   inl (Discover bob 1 6);
   inl (Discover ann 1 6);
   inr 4;
   inl (Discover ann 1 7);
   inl (ReplaceScope 1 1 [MkGrant "Script" "lamp" Read] 8);
   inl (ReplaceScope 1 1 sample_grants 8);
   inl (Discover ann 1 9);
   inl (Evaluate ann 1 (MkFixture "lamp" 1));
   inl (RevokeScope 1 2);
   inl (CreateScope "bob" sample_grants 10)].

Lemma sample_admissible :
  Forall (λ st : Call + N, match st with inl o => admissible o | inr _ => True end) sample_steps.
Proof. repeat (apply Forall_cons; split); try done. cbn. repeat constructor; apply sample_case_appending. Qed.

(** What the replies were *)
Definition outcome_of (c : Call * AuthoringResult reply) : option AuthoringErrorCode.code :=
  match c.2 with inl _ => None | inr e => Some (error_code e) end.

Lemma sample_outcomes :
  map outcome_of (play sample_steps [] sample_session).1 =
  [None; None; None; None; Some AuthoringErrorCode.NotFound; None; Some AuthoringErrorCode.StaleScope;
   Some AuthoringErrorCode.InvalidInput; None; None; Some AuthoringErrorCode.StaleScope; None; None].
Proof. by vm_compute. Qed.

Definition sample_log : list (Call * AuthoringResult reply) := (play sample_steps [] sample_session).1.
Definition sample_end : Authoring := (play sample_steps [] sample_session).2.

Lemma sample_played :
  session_history (usable := always) sample_id script_type default_AuthoringLimits sample_log sample_end.
Proof. apply played, sample_admissible. Qed.

Lemma payload_accounted_witness :
  sessionPayloadBytes (session sample_end) = retained_bytes (session sample_end) ∧
  retained_bytes (session sample_end) = 1996 ∧
  size (scopes (session sample_end)) = 1%nat ∧ size (proposals (session sample_end)) = 1%nat ∧
  size (evaluations (session sample_end)) = 1%nat.
Proof.
  destruct (payload_accounted _ _ _ _ _ sample_played) as (Hp & _). split; [exact Hp|].
  split_and!; vm_compute; reflexivity.
Defined.

Lemma failed_calls_change_nothing_witness :
  ∃ r a', perform (Discover ann 1 11) sample_end = (Ok r, a') ∧ live sample_end = live a' ∧
    outcome_of (Discover (P := option N) ann 1 11, r) = Some AuthoringErrorCode.NotFound ∧
    session a' = session sample_end.
Proof.
  destruct (failed_calls_change_nothing _ _ _ _ _ (Discover ann 1 11) sample_played) as (r & a' & E & Hw & Hs).
  exists r, a'. split; [exact E|]. split; [exact Hw|].
  assert (outcome_of (Discover (P := option N) ann 1 11, r) = Some AuthoringErrorCode.NotFound) as Ho.
  { assert (option_map (λ r, outcome_of (Discover (P := option N) ann 1 11, r))
      (match (perform (Discover ann 1 11) sample_end).1 with Ok r => Some r | Err _ => None end) =
      Some (Some AuthoringErrorCode.NotFound)) as Eo by by vm_compute.
    rewrite E in Eo. by injection Eo. }
  split; [exact Ho|]. destruct r as [x|e]; [done|]. by apply (Hs e).
Defined.

Lemma identifiers_issued_in_order_witness :
  omap issued_scope sample_log = [1; 2] ∧ omap issued_proposal sample_log = [1] ∧
  omap issued_evaluation sample_log = [1] ∧ StronglySorted N.le (omap call_time sample_log) ∧
  omap call_time sample_log = [5; 6; 8; 9; 10].
Proof.
  destruct (identifiers_issued_in_order _ _ _ _ _ sample_played) as (Hs & Hp & He & Ht).
  split; [exact Hs|]. split; [exact Hp|]. split; [exact He|]. split; [exact Ht|].
  vm_compute. reflexivity.
Defined.

Lemma foreign_is_absent_witness :
  is_Some (scopes (session sample_end) !! 2) ∧ is_Some (proposals (session sample_end) !! 1) ∧
  (∀ now, discover ann 2 now sample_end = discover ann 77 now sample_end) ∧
  (∀ fixture, evaluate bob 1 fixture sample_end = evaluate bob 77 fixture sample_end).
Proof.
  assert (foreign_scope (session sample_end) ann 2) as F1.
  { intros r Hr. right. vm_compute in Hr. injection Hr as <-. discriminate. }
  assert (foreign_proposal (session sample_end) bob 1) as F2.
  { intros r Hr. right. vm_compute in Hr. injection Hr as <-. discriminate. }
  assert (foreign_scope (session sample_end) ann 77) as F3 by (intros r Hr; vm_compute in Hr; discriminate).
  assert (foreign_proposal (session sample_end) bob 77) as F4 by (intros r Hr; vm_compute in Hr; discriminate).
  assert (foreign_proposal (session sample_end) ann 77) as F5 by (intros r Hr; vm_compute in Hr; discriminate).
  assert (foreign_scope (session sample_end) bob 77) as F6 by (intros r Hr; vm_compute in Hr; discriminate).
  split; [eexists; vm_compute; reflexivity|]. split; [eexists; vm_compute; reflexivity|]. split.
  - intros now. destruct (foreign_is_absent sample_end ann 2 77 F1 F5) as (E & _).
    destruct (foreign_is_absent sample_end ann 77 77 F3 F5) as (E' & _).
    exact (eq_trans (E now) (eq_sym (E' now))).
  - intros fixture. pose proof (foreign_is_absent sample_end bob 77 1 F6 F2) as E.
    pose proof (foreign_is_absent sample_end bob 77 77 F6 F4) as E'.
    exact (eq_trans (proj2 (proj2 (proj2 E)) fixture) (eq_sym (proj2 (proj2 (proj2 E')) fixture))).
Defined.

(** The view a call replied with, and the record *)
Definition view_in (l : list (Call * AuthoringResult reply)) (n : nat) : option ScopeView :=
  match l !! n with Some (_, inl (ViewReply v)) => Some v | _ => None end.
Definition record_in (l : list (Call * AuthoringResult reply)) (n : nat) : option EvaluationRecord :=
  match l !! n with Some (_, inl (RecordReply r)) => Some r | _ => None end.

Lemma view_in_elem l n v : view_in l n = Some v → ∃ o, (o, inl (ViewReply v)) ∈ l.
Proof.
  unfold view_in. destruct (l !! n) as [[o [[w| | |]|]]|] eqn:E; try done. intros [= ->].
  exists o. by eapply list_elem_of_lookup_2.
Qed.

Definition view_at : nat → option ScopeView := view_in sample_log.
Definition record_at : nat → option EvaluationRecord := record_in sample_log.

Lemma revisions_keep_their_targets_witness :
  ∃ v v', view_at 8 = Some v ∧ view_at 9 = Some v' ∧ view_revision v = 2 ∧ view_revision v' = 2 ∧
    capturedEntries (captureData (view_manifest v)) = [MkEntry 0 7 (MkHandle 0 4 1)] ∧
    capturedEntries (captureData (view_manifest v)) = capturedEntries (captureData (view_manifest v')).
Proof.
  destruct (view_at 8) as [v|] eqn:E8; [|vm_compute in E8; discriminate E8].
  destruct (view_at 9) as [v'|] eqn:E9; [|vm_compute in E9; discriminate E9].
  destruct (view_in_elem sample_log 8 v E8) as [o Hv], (view_in_elem sample_log 9 v' E9) as [o' Hv'].
  exists v, v'. split; [reflexivity|]. split; [reflexivity|].
  destruct (revisions_keep_their_targets _ _ _ _ _ _ _ _ _ sample_played Hv Hv') as [_ Hsame].
  vm_compute in E8, E9. injection E8 as <-. injection E9 as <-.
  split; [reflexivity|]. split; [reflexivity|]. split; [reflexivity|]. by apply Hsame.
Defined.

Lemma passed_means_submitted_source_passed_witness :
  ∃ r, record_at 3 = Some r ∧ record_status r = EvaluationStatus.Passed ∧
    passed_as_submitted default_AuthoringLimits sample_log ann 1 (MkFixture "lamp" 1) r.
Proof.
  destruct (record_at 3) as [r|] eqn:E3; [|vm_compute in E3; discriminate E3].
  exists r. split; [reflexivity|].
  assert ((Evaluate ann 1 (MkFixture "lamp" 1), inl (RecordReply r)) ∈ sample_log) as Hr.
  { apply (list_elem_of_lookup_2 _ 3). vm_compute in E3. injection E3 as <-. vm_compute. reflexivity. }
  assert (record_status r = EvaluationStatus.Passed) as Hp.
  { vm_compute in E3. injection E3 as <-. reflexivity. }
  split; [exact Hp|]. exact (passed_means_submitted_source_passed _ _ _ _ _ _ _ _ _ sample_played Hr Hp).
Defined.
